(* ===== verification/_CoqProject ===== *)
-Q . S2P
Prelude.v
Identifiers.v
Bitmask.v
FixedCache.v
Statistics.v
Bls.v
BlockKeepers.v
Envelope.v
Attestation.v
Checkpoints.v
BlockState.v
Collected.v
RoundTime.v
ActionLock.v
NextRound.v
ThreadRefs.v
BlockProcessor.v
Quorum.v
Unfinalized.v
SendAttestations.v
AuthoritySwitch.v
Finalization.v
MessageStore.v
MessageRange.v
MessageQueue.v
CrossThread.v
ApplyBlock.v
LoadBalancing.v
ExternalMessages.v
NetworkMessage.v
Routing.v
Validation.v
StateRepository.v
Builder.v
Snapshot.v
NodeLoop.v
Production.v
Producer.v
