(* ===== verification/Prelude.v ===== *)
(** * The consensus core and the message flow of an Acki Nacki node

    The node ([src/node/src]) takes part in a block chain that is split into threads.  Block
    keepers produce blocks in turn, attest the blocks of others with BLS signatures, and a
    block becomes final when enough attestations for it are in its descendants.  This library
    models the part of the node that decides which blocks are valid, attested and final, and
    the part that carries messages and accounts from block to block and between threads:

    - identifiers, routing tables and bounded caches (the vocabulary of all other parts);
    - BLS envelopes, the sets of block keepers, and attestations with their aggregation;
    - the table of facts that is known of a block, the shared store of these tables, and the
      tools that link, invalidate and walk over them;
    - the block processor, which moves a candidate block through its checks, decides which
      ancestors its attestations finalize, and applies it;
    - the collection of candidates and the finalization loop, which makes blocks final;
    - references between threads;
    - the authority switch: the lock under which a node attests, and the rounds in which the
      keepers agree on the next producer when the current one stalls;
    - the stored messages, the inboxes of accounts, the message queue of a thread, and the
      state of a thread with the messages and accounts that it exchanges with other threads;
    - the load of the threads, by which a thread is split, and the external messages;
    - the messages between nodes, the service that routes them to the threads, and the
      validation of blocks with the acks and nacks that follow from it;
    - the repository of the states of the threads, and the snapshots by which a node starts
      a thread from the state of another node;
    - the main loop of a node, which handles the messages of a thread, synchronizes a node
      that has fallen behind, and answers requests for blocks;
    - the production of blocks: the process that makes one block after the other, and the
      service that completes, signs and broadcasts them.

    A message from the network is decoded (NetworkMessage.v), routed to its thread
    (Routing.v) and handled by the loop of the thread (NodeLoop.v).  A candidate arrives in the
    collection (Unfinalized.v) and gets a state in the store (BlockState.v).  The block processor (BlockProcessor.v) verifies its envelope and the
    attestations it carries (Envelope.v, Attestation.v) against the keeper set of the block
    (BlockKeepers.v), updates the checkpoints of its ancestors (Checkpoints.v) and records
    the ancestors it finalizes; the finalization loop (Finalization.v) makes these final and
    tells their children.  Attestations that arrive on their own are pooled and aggregated
    (Collected.v).  A node attests a block only under an action lock (ActionLock.v,
    RoundTime.v, SendAttestations.v); when no block comes, AuthoritySwitch.v notices and
    NextRound.v closes the round.  Applying a block (ApplyBlock.v) preprocesses the state of
    the parent with what the referenced blocks send, and postprocesses the new state
    (CrossThread.v); both update the queue of the thread (MessageQueue.v), whose inboxes are
    ranges (MessageRange.v) over a message storage (MessageStore.v).  Some blocks are
    re-executed by a validator, whose verdict is sent to the others (Validation.v).  The state
    after a block is kept, or found again by applying blocks to an older one
    (StateRepository.v); the state after a final block is shared with nodes that join
    (Snapshot.v).  When the authority switch makes a node the producer, the producer service
    (Producer.v) starts the production process (Production.v), which builds blocks (Builder.v),
    and sends what it makes.

    ** Files and sources (paths under [src/node/src] unless they start with [libs])

    - Prelude.v: outcomes of fallible code, machine widths, list lemmas, tactics.
    - Identifiers.v: [types/block_identifier.rs], [thread_identifier.rs], [block_seq_no.rs],
      [block_height.rs], [account_address/], [dapp_identifier.rs], the routing half of
      [threads_table.rs].
    - Bitmask.v: [bitmask/mask.rs], [bitmask/table.rs], [types/threads_table.rs].
    - FixedCache.v: [utilities/fixed_size_hash_map.rs], [fixed_size_hash_set.rs].
    - Statistics.v: [node/services/statistics/].
    - Bls.v, Envelope.v: [bls/].
    - BlockKeepers.v: [block_keeper_system/], [types/bp_selector.rs].
    - Attestation.v, Collected.v: [types/attestation/], [node/associated_types.rs].
    - Checkpoints.v: [node/block_state/attestation_target_checkpoints.rs].
    - BlockState.v: [node/block_state/] (state, repository, tools), [libs/derive-setters],
      [protocol/authority_switch/find_last_prefinalized.rs].
    - RoundTime.v, ActionLock.v, NextRound.v: [protocol/authority_switch/round_time.rs],
      [action_lock.rs], [network_message.rs], [node/network_message/mod.rs].
    - ThreadRefs.v: [multithreading/cross_thread_messaging/thread_references_state.rs],
      [repository/cross_thread_ref_data.rs].
    - BlockProcessor.v, Quorum.v: [node/services/block_processor/],
      [node/services/attestations_target/service.rs], [config/mod.rs] (when a state is saved).
    - Unfinalized.v: [node/unprocessed_blocks_collection.rs], [types/block_index.rs],
      [types/notification.rs].
    - SendAttestations.v: [node/services/send_attestations/mod.rs].
    - AuthoritySwitch.v: [protocol/authority_switch/chain_pulse_monitor.rs],
      [node/services/authority_switch/mod.rs].
    - Finalization.v: [node/services/finalization/mod.rs] and, of
      [repository/repository_impl.rs], the marking and the buffer of finalized blocks.
    - MessageStore.v: [storage/internal_messages/message_storage.rs], [storage/cache/],
      [types/message_storage.rs], [message/identifier.rs]; the interface
      [DurableStorageRead] of [libs/account-inbox] with its promise [StorageOk].
    - MessageRange.v: [libs/account-inbox] (ranges and their iterator), against the interface.
    - MessageQueue.v: [types/thread_message_queue/].
    - CrossThread.v: [block/preprocessing.rs], [block/postprocessing.rs],
      [repository/dapp_id_table.rs], [multithreading/shard_state_operations.rs], and the
      routing and cropping of [repository/optimistic_state.rs].
    - ApplyBlock.v: [apply_block] and the loading of accounts of
      [repository/optimistic_state.rs], [repository/accounts.rs],
      [types/ackinacki_block/parse_block_accounts_and_messages.rs].
    - LoadBalancing.v: [multithreading/load_balancing_service/],
      [threads_tracking_service/], [thread_synchrinization_service.rs], and the handler of a
      finalized block of [node/shared_services.rs].
    - ExternalMessages.v: [external_messages/].
    - NetworkMessage.v: [node/network_message/], [protocol/authority_switch/routing.rs], and of
      [src/network/src] the files [message.rs] and [pub_sub/connection.rs] (decoding).
    - Routing.v: [multithreading/routing/].
    - Validation.v: [node/services/validation/], [node/acki_nacki.rs], and the comparison of
      [block/verify.rs].
    - StateRepository.v: of [repository/repository_impl.rs] the states of the threads and of
      the blocks, and the blocks that are written when a node stops
      ([repository/load_saved_blocks.rs]).
    - Snapshot.v: [repository/cross_thread_ref_repository.rs],
      [node/services/sync/file_saving_service.rs], and [set_state_from_snapshot] of
      [repository/repository_impl.rs].
    - NodeLoop.v: [node/execution.rs], [node/synchronization.rs], [node/block_processing.rs],
      [node/send.rs], [node/crypto.rs], [node/block_request_service.rs].
    - Builder.v: of [block/producer/builder/build_actions.rs] what names a block and the state
      after it, and of [block/producer/single_block_producer.rs] what leads to the built block.
    - Production.v: [block/producer/process.rs], [block/producer/execution_time.rs], and of
      [block/producer/single_block_producer.rs] what follows the building of a block.
    - Producer.v: [block/producer/producer_service/],
      [types/ackinacki_block/as_signatures_map.rs].

    ** Conventions

    A function that returns [Result] or panics is an [outcome]; [Option] is [option]; a
    [HashMap] or [BTreeMap] is a [gmap] and a [HashSet] a [gset].  Where the code visits a hash
    container, the order is a variable of the section ([set_iter], [iter_order], ...), and
    theorems hold for every order.  State behind an [Arc<Mutex<_>>] is explicit: the store of
    block states is a map from identifiers, and an operation that changes several blocks
    returns the changed map.  Integers are [Z] or [nat] with the width written where the code
    can reach it ([checked], [in_width], wrapping by [mod]).  Readings of the clock, the
    shutdown flag, files and the sending of messages are arguments; what is sent is returned
    as a list of effects.  Code that is not in the repository is a parameter: the curve
    library and the serializer ([Blst], [Serialize], with the laws [BlstLaws] that
    [LinearBlst] satisfies), the shuffle of [rand], and the execution of the messages of a block.

    ** What the theorems show

    - Finality (Quorum.v, BlockProcessor.v, Finalization.v, Checkpoints.v): a block is declared
      finalized only with attestations inside its deadline that verify and list, with those that
      are listed without a signature, at least the required number of signers
      ([finalizes_by_quorum]), attestations count only when signed by keepers of the attested
      block ([verified_attestations_signed]), a block is applied only after all checks and
      after its parent ([applied_after_all_checks]), final blocks are closed under parents
      ([finalization_keeps_finality]), every checkpoint is resolved once and by its deadline
      ([update_resolves_once], [chain_resolves_by_deadline]), and the producer's own check
      agrees with that of the other nodes ([producer_check_agrees]).
    - Signatures (Envelope.v, Attestation.v, Collected.v): verification in every order,
      folding and aggregation return only valid envelopes, serialization round trips.
    - Authority switch (ActionLock.v, NextRound.v, RoundTime.v): no two blocks of one height
      and round are attested, through requests, new rounds and restarts, as long as the lock of
      the height is not lost ([no_two_attestations_in_one_round], with the ways in which the code
      loses it), an attested block is locked on disk, a round is closed only by a majority and not
      again ([round_closed_by_majority]), two closings share a voter, the round is the one of the
      schedule.
    - Block states (BlockState.v): facts are written once, invalidation reaches exactly the
      branch, linking keeps branches closed, walks end and select the right blocks.
    - References (ThreadRefs.v): the search ends and covers exactly what a reference pulls in;
      a block moves the references forward.
    - Messages (MessageStore.v, MessageRange.v, MessageQueue.v): a written batch is read back
      in order ([messages_stored_in_order]) through a cache that does not show
      ([cached_store_transparent]); a range stands for a list of messages, which its iterator
      visits to the end ([range_iterates], [next_range_takes_front]); and the update of the
      queue is the update of a map from accounts to lists ([queue_update_refines]).
    - Threads (CrossThread.v, ApplyBlock.v): messages of referenced blocks are delivered once
      and in order ([referenced_messages_delivered]), a moving account takes its inbox along
      ([account_migrates_with_inbox]), cropping keeps exactly the own accounts
      ([crop_keeps_own_accounts]), the messages of a block are split by their routes
      ([block_messages_split]), unloading accounts is invisible when dropped cells have been written
      ([unloading_is_invisible]).
    - Load (LoadBalancing.v, ExternalMessages.v): the load of a thread is the sum over a sliding
      window ([load_is_sliding_window]), a split moves only accounts of the most loaded thread
      ([split_moves_own_accounts]), finalized blocks are counted without a panic
      ([finalized_blocks_are_counted]); the queue of external messages is a bounded list
      ([external_queue_refines]).
    - Routing (NetworkMessage.v, Routing.v): a message is decoded as it was sent
      ([network_message_roundtrip]), every thread gets the messages for it in order, also those
      that came before it was started ([routing_delivers_in_order]), a finalized block starts
      the threads it spawns ([spawned_threads_are_started]), and every external message is
      answered once ([external_messages_answered_once]).
    - Validation (Validation.v): verdicts, acks and nacks follow from re-executions, and an
      accused block is validated only by one or was validated before ([validation_follows_verdicts]); an ack is
      accepted by the nodes it is sent to ([sent_acks_are_accepted]).
    - States (StateRepository.v, Snapshot.v): the state returned for a block is the one that
      applying the chain of blocks gives to a state of the repository's base, which includes the
      states that production has put there ([repository_states_are_replays]), the search for it
      ends ([state_lookup_terminates]), candidates survive a restart with
      their block states ([saved_candidates_are_reloaded]), the cache of the data for other threads does not show
      ([ref_data_cache_is_invisible]), and a node that accepts a snapshot continues from the
      shared state as it is read back ([snapshot_starts_node]).
    - The node (NodeLoop.v): the loop handles what comes in as a simple machine does that takes
      one message after the other ([messages_handled_in_order]), a candidate
      is taken in once ([candidate_taken_once]), and a request is answered with a chain of
      final blocks of bounded length ([finalized_blocks_resent]).
    - Production (Builder.v, Production.v, Producer.v): what a process makes is one chain from the
      block it was started on, whatever executing messages does ([production_makes_a_chain]), with references to blocks of other threads
      a fixed number of generations back ([references_are_delayed_ancestors]) and acks that
      verify ([aggregated_acks_valid]), in a time that neither vanishes nor exceeds the desired
      one ([production_timeout_bounds]); a block that is broadcast is one that the other nodes
      can accept ([broadcast_blocks_are_acceptable]), and the broadcast blocks continue the
      chain without gaps, also when production is restarted, if stopping it succeeds and the node
      can sign ([broadcasts_continue_the_chain]).
    - Containers (Unfinalized.v, FixedCache.v, Bitmask.v, BlockKeepers.v, Statistics.v): the
      indices agree with an abstract map or queue, routing picks the first match, medians.

    ** Fuel

    Loops over a list are structural.  The other loops take fuel and return [None] when it
    runs out, and a theorem gives a fuel that is enough: [invalidate_branch] takes the number
    of child links of the store plus one, [select_fuel] the distance to the cutoff,
    [find_last_prefinalized_end] the length of the chain, [walk_fuel] and [search_fuel] of
    ThreadRefs.v the sequence numbers and the number of stored blocks, [get_optimistic_state]
    the sequence number of the block, [walk_steps] the number of steps, and [finalized_tail] the
    202 rounds after which the code gives up.

    ** Not modelled

    The execution of the messages of a block drives the TVM executor, which is third-party code:
    production and validation take it as a parameter, and of [block/producer/builder/] only what
    surrounds it is modelled.  The
    files of the repository, the databases, the network, the gossip, the HTTP and GraphQL
    servers, the proxy and the command line tools are I/O around the node.  Of the modelled
    services, the threads, channels and waiting loops are left out: an iteration is a
    function.  Tracing and metrics are left out everywhere. *)
From stdpp Require Import base gmap strings list fin_maps numbers sorting.

(** ** Outcomes of fallible Rust code

    A Rust function of type [Result<A, E>] that may also panic is modelled by
    [outcome E A]; a function that cannot return [Err] but may panic uses the
    empty error type. *)
Inductive outcome (E A : Type) : Type :=
  | Ok (a : A)
  | Err (e : E)
  | Panic.
Arguments Ok {E A} _.
Arguments Err {E A} _.
Arguments Panic {E A}.

#[global] Instance outcome_ret {E} : MRet (outcome E) := fun A a => Ok a.
#[global] Instance outcome_bind {E} : MBind (outcome E) :=
  fun A B f m =>
    match m with
    | Ok a => f a
    | Err e => Err e
    | Panic => Panic
    end.
#[global] Instance outcome_fmap {E} : FMap (outcome E) :=
  fun A B f m =>
    match m with
    | Ok a => Ok (f a)
    | Err e => Err e
    | Panic => Panic
    end.
#[global] Instance outcome_eq_dec {E A} `{EqDecision E, EqDecision A} :
  EqDecision (outcome E A).
Proof. solve_decision. Defined.

(** [anyhow::ensure!(b, e)] *)
Definition ensure {E : Type} (b : bool) (e : E) : outcome E unit :=
  if b then Ok tt else Err e.

(** [assert!(b)] *)
Definition assert_that {E : Type} (b : bool) : outcome E unit :=
  if b then Ok tt else Panic.

(** [opt.ok_or(e)?] *)
Definition ok_or {E A : Type} (o : option A) (e : E) : outcome E A :=
  match o with Some a => Ok a | None => Err e end.

(** [opt.unwrap()] / [opt.expect(..)] *)
Definition unwrap {E A : Type} (o : option A) : outcome E A :=
  match o with Some a => Ok a | None => Panic end.

(** [result.unwrap()] / [result.expect(..)] *)
Definition unwrap_ok {E E' A : Type} (o : outcome E A) : outcome E' A :=
  match o with Ok a => Ok a | _ => Panic end.

(** A loop whose body may return an error or panic. *)
Fixpoint fold_outcome {E A B : Type} (f : B → A → outcome E B) (b : B) (l : list A) :
    outcome E B :=
  match l with
  | [] => Ok b
  | x :: l => f b x ≫= λ b, fold_outcome f b l
  end.

(** [iter.map(f).collect()] with a body that may return an error or panic. *)
Fixpoint map_outcome {E A B : Type} (f : A → outcome E B) (l : list A) : outcome E (list B) :=
  match l with
  | [] => Ok []
  | x :: l => f x ≫= λ y, map_outcome f l ≫= λ ys, Ok (y :: ys)
  end.

Definition is_ok {E A : Type} (m : outcome E A) : bool :=
  match m with Ok _ => true | _ => false end.
Definition is_panic {E A : Type} (m : outcome E A) : bool :=
  match m with Panic => true | _ => false end.

Section outcome_lemmas.
Context {E : Type}.

Lemma outcome_bind_Ok {A B} (m : outcome E A) (f : A → outcome E B) b :
  m ≫= f = Ok b ↔ ∃ a, m = Ok a ∧ f a = Ok b.
Proof. destruct m; naive_solver. Qed.

Lemma is_ok_inv {A} (o : outcome E A) : is_ok o = true → ∃ x, o = Ok x.
Proof. destruct o; simpl; [eauto|discriminate..]. Qed.

Lemma outcome_match_Ok {A} (o : outcome E A) (P : A → Prop) :
  match o with Ok a => P a | _ => False end → ∃ a, o = Ok a ∧ P a.
Proof. destruct o; naive_solver. Qed.

Lemma Ok_inj {A} (a b : A) : Ok (E := E) a = Ok b → a = b.
Proof. congruence. Qed.

Lemma outcome_bind_assoc {A B C} (m : outcome E A)
    (f : A → outcome E B) (g : B → outcome E C) :
  (m ≫= f) ≫= g = m ≫= (λ a, f a ≫= g).
Proof. by destruct m. Qed.

Lemma unwrap_ok_inv {E' A} (o : outcome E A) (a : A) :
  unwrap_ok o = Ok (E := E') a → o = Ok a.
Proof. destruct o; naive_solver. Qed.

Lemma unwrap_Some {A} (o : option A) (a : A) : unwrap (E := E) o = Ok a ↔ o = Some a.
Proof. destruct o; naive_solver. Qed.

(** An invariant of the body is an invariant of the loop. *)
Lemma fold_outcome_ind {A B} (f : B → A → outcome E B) (P : B → Prop) l b b' :
  (∀ b x b', x ∈ l → P b → f b x = Ok b' → P b') →
  P b → fold_outcome f b l = Ok b' → P b'.
Proof.
  revert b. induction l as [|x l IH]; intros b Hstep Hb; simpl; [by intros [= <-]|].
  intros (b1 & Hb1 & Hl)%outcome_bind_Ok. eapply IH; [|by eapply Hstep; [left|..]|done].
  intros b2 y b3 Hy. apply Hstep. by right.
Qed.

Lemma map_outcome_Forall2 {A B} (f : A → outcome E B) l l' :
  map_outcome f l = Ok l' → Forall2 (λ x y, f x = Ok y) l l'.
Proof.
  revert l'. induction l as [|x l IH]; intros l'; simpl; [intros [= <-]; constructor|].
  intros (y & Hy & (ys & Hys & [= <-])%outcome_bind_Ok)%outcome_bind_Ok. constructor; auto.
Qed.

Lemma ensure_Ok b (e : E) u : ensure b e = Ok u ↔ b = true.
Proof. destruct b, u; naive_solver. Qed.
End outcome_lemmas.

(** ** Machine integers

    Values of Rust's unsigned integer types are elements of [Z] inside the range of
    their width.  The release profile sets [overflow-checks = true], so [+], [-] and
    [*] panic when the exact result leaves the range. *)
Definition in_width (w z : Z) : Prop := (0 ≤ z < 2 ^ w)%Z.
#[global] Instance in_width_dec w z : Decision (in_width w z).
Proof. unfold in_width. apply _. Defined.

Definition checked {E : Type} (w z : Z) : outcome E Z :=
  if decide (in_width w z) then Ok z else Panic.

(** The same for [i64]. *)
Definition checked_i64 {E : Type} (z : Z) : outcome E Z :=
  if bool_decide (- 2 ^ 63 ≤ z < 2 ^ 63)%Z then Ok z else Panic.

(** [a.saturating_sub(b)] on unsigned operands. *)
Definition saturating_sub (a b : Z) : Z := Z.max 0 (a - b).

Section width_lemmas.
Context {E : Type}.

Lemma checked_Ok w z r : checked (E := E) w z = Ok r ↔ in_width w z ∧ r = z.
Proof. unfold checked. case_decide; naive_solver. Qed.

Lemma checked_Panic w z : checked (E := E) w z = Panic ↔ ¬ in_width w z.
Proof. unfold checked. case_decide; naive_solver. Qed.

Lemma checked_in w z : in_width w z → checked (E := E) w z = Ok z.
Proof. intros H. unfold checked. by rewrite decide_True. Qed.
End width_lemmas.

(** ** Bytes *)
Definition is_byte (b : Z) : Prop := (0 ≤ b < 256)%Z.
#[global] Instance is_byte_dec b : Decision (is_byte b).
Proof. unfold is_byte. apply _. Defined.

(** A [[u8; n]] array. *)
Definition byte_array (n : nat) (l : list Z) : Prop := length l = n ∧ Forall is_byte l.
#[global] Instance byte_array_dec n l : Decision (byte_array n l).
Proof. unfold byte_array. apply _. Defined.

(** ** Tactics and hint databases *)
Create HintDb ackinacki.

(** Invert a chain of monadic binds that returned [Ok]. *)
Ltac inv_outcome :=
  repeat match goal with
  | H : _ ≫= _ = Ok _ |- _ =>
      apply outcome_bind_Ok in H; destruct H as (? & ? & H)
  | H : mret _ = Ok _ |- _ => injection H as H
  | H : Ok _ = Ok _ |- _ => injection H as H
  | H : Err _ = Ok _ |- _ => discriminate H
  | H : Panic = Ok _ |- _ => discriminate H
  | H : checked _ _ = Ok _ |- _ => apply checked_Ok in H as [? ?]
  | H : ensure _ _ = Ok _ |- _ => apply ensure_Ok in H
  end; simplify_eq/=.

(** Split every [match] and [if] of the goal, closing the contradictory cases. *)
Ltac split_matches :=
  repeat (case_match || case_decide || case_bool_decide); simplify_eq/=; try done.

(** ** Generic lemmas on lists *)
Section list_lemmas.
Context {A : Type}.

Lemma take_drop_lookup_split (l : list A) i x :
  l !! i = Some x → l = take i l ++ x :: drop (S i) l.
Proof. intros H. symmetry. by apply take_drop_middle. Qed.

Lemma last_app_singleton (l : list A) x : last (l ++ [x]) = Some x.
Proof. by rewrite last_snoc. Qed.

Lemma filter_none (P : A → Prop) `{!∀ x, Decision (P x)} (l : list A) :
  (∀ x, x ∈ l → ¬ P x) → filter P l = [].
Proof.
  induction l as [|x l IH]; intros Hl; [done|].
  rewrite filter_cons_False by (apply Hl; by left). apply IH. intros y Hy. apply Hl. by right.
Qed.

Lemma filter_all (P : A → Prop) `{!∀ x, Decision (P x)} (l : list A) :
  (∀ x, x ∈ l → P x) → filter P l = l.
Proof.
  induction l as [|x l IH]; intros Hl; [done|].
  rewrite filter_cons_True by (apply Hl; by left). f_equal. apply IH.
  intros y Hy. apply Hl. by right.
Qed.

Lemma filter_ext_elem (P Q : A → Prop) `{!∀ x, Decision (P x), !∀ x, Decision (Q x)}
    (l : list A) :
  (∀ x, x ∈ l → P x ↔ Q x) → filter P l = filter Q l.
Proof.
  induction l as [|x l IH]; intros Hl; [done|].
  rewrite !filter_cons, IH by (intros y Hy; apply Hl; by right).
  pose proof (Hl x (list_elem_of_here _ _)). repeat case_decide; tauto.
Qed.

Lemma app_split_cons (l k l1 l2 : list A) x :
  l ++ k = l1 ++ x :: l2 →
  (∃ l2', l = l1 ++ x :: l2') ∨ ∃ k1, l1 = l ++ k1 ∧ k = k1 ++ x :: l2.
Proof.
  revert l1. induction l as [|y l IH]; intros l1 Heq.
  - right. by exists l1.
  - destruct l1 as [|z l1]; [injection Heq as -> <-; left; by exists l|].
    injection Heq as -> Heq. destruct (IH _ Heq) as [[l2' ->]|(k1 & -> & ?)]; [left; by exists l2'|right; by exists k1].
Qed.

Lemma snoc_split (l l1 l2 : list A) x y :
  l ++ [y] = l1 ++ x :: l2 → (x = y ∧ l1 = l) ∨ ∃ l2', l = l1 ++ x :: l2'.
Proof.
  intros [?|(k1 & -> & Hk)]%app_split_cons; [by right|left].
  destruct k1 as [|? [|]]; simplify_eq/=. by rewrite app_nil_r.
Qed.

Lemma removelast_last_split (l : list A) x :
  last l = Some x → ∃ l', l = l' ++ [x].
Proof. apply last_Some. Qed.
End list_lemmas.

Lemma seq_split_inv n l1 k l2 : seq 0 n = l1 ++ k :: l2 → l1 = seq 0 k ∧ k < n.
Proof.
  intros Hs.
  assert (seq 0 n !! length l1 = Some k) as [Hk Hlt]%lookup_seq
    by (rewrite Hs, lookup_app_r, Nat.sub_diag by done; done).
  split; [|lia].
  apply (f_equal (take (length l1))) in Hs. rewrite take_app_length in Hs.
  rewrite <- Hs, take_seq. f_equal. lia.
Qed.
