(* ===== verification/Identifiers.v ===== *)
(** * Identifiers and bit addressing

    Models the identifier types of the node crate:
    [types/block_identifier.rs], [types/thread_identifier.rs], [types/block_seq_no.rs],
    [types/block_height.rs], [types/account_address/], [types/dapp_identifier.rs] and the
    [AccountRouting] half of [types/threads_table.rs].  Fixed-size byte arrays are lists of
    byte values; [byte_array n] is the typing invariant of a [[u8; n]]. *)
From stdpp Require Import base gmap strings list fin_maps numbers.
From S2P Require Import Prelude.

(** ** Block identifiers *)
Record BlockIdentifier := BlockId { block_id_bytes : list Z }.
#[global] Instance BlockIdentifier_eq_dec : EqDecision BlockIdentifier.
Proof. solve_decision. Defined.
#[global] Instance BlockIdentifier_countable : Countable BlockIdentifier.
Proof. by refine (inj_countable' block_id_bytes BlockId _); intros []. Defined.

Definition BlockIdentifier_wf (b : BlockIdentifier) : Prop := byte_array 32 (block_id_bytes b).

Definition BlockIdentifier_default : BlockIdentifier := BlockId (replicate 32 0%Z).

Definition BlockIdentifier_is_zero (b : BlockIdentifier) : bool :=
  bool_decide (b = BlockIdentifier_default).

(** The loop of [BlockIdentifier::compare], over the remaining indices. *)
Fixpoint BlockIdentifier_compare_loop (a b : list Z) (indices : list nat) : comparison :=
  match indices with
  | [] => Eq
  | i :: rest =>
      match (nth i a 0 ?= nth i b 0)%Z with
      | Lt => Lt
      | Gt => Gt
      | Eq => BlockIdentifier_compare_loop a b rest
      end
  end.

Definition BlockIdentifier_compare (a b : BlockIdentifier) : comparison :=
  BlockIdentifier_compare_loop (block_id_bytes a) (block_id_bytes b) (seq 0 32).

(** ** Thread identifiers *)
Record ThreadIdentifier := ThreadId { thread_id_bytes : list Z }.
#[global] Instance ThreadIdentifier_eq_dec : EqDecision ThreadIdentifier.
Proof. solve_decision. Defined.
#[global] Instance ThreadIdentifier_countable : Countable ThreadIdentifier.
Proof. by refine (inj_countable' thread_id_bytes ThreadId _); intros []. Defined.

Definition ThreadIdentifier_default : ThreadIdentifier := ThreadId (replicate 34 0%Z).

Definition ThreadIdentifier_new (block_id : BlockIdentifier) (id : Z) : ThreadIdentifier :=
  ThreadId (Z.land (Z.shiftr id 8) 255 :: Z.land id 255 :: block_id_bytes block_id).

Definition ThreadIdentifier_is_spawning_block
    (t : ThreadIdentifier) (block_id : BlockIdentifier) : bool :=
  bool_decide (take 32 (drop 2 (thread_id_bytes t)) = block_id_bytes block_id).

Definition ThreadIdentifier_spawning_block_id (t : ThreadIdentifier) : BlockIdentifier :=
  BlockId (take 32 (drop 2 (thread_id_bytes t))).

(** ** Block sequence numbers: [BlockSeqNo(u32)] *)
Definition next_seq_no {E} (seq_no : Z) : outcome E Z := checked 32 (seq_no + 1).

Definition BlockSeqNo_saturating_sub (self other : Z) : Z := saturating_sub self other.

(** [impl Sub for BlockSeqNo]: both operands are widened to [i64] first. *)
Definition BlockSeqNo_sub (self other : Z) : Z := self - other.

Definition BlockSeqNo_add {E} (self other : Z) : outcome E Z := checked 32 (self + other).

Definition BlockSeqNo_rem {E} (self rhs : Z) : outcome E Z :=
  if bool_decide (rhs = 0%Z) then Panic else Ok (self `mod` rhs)%Z.

(** ** Block heights *)
Record BlockHeight := mkBlockHeight {
  thread_identifier : ThreadIdentifier;
  height : Z (* u64 *)
}.
#[global] Instance BlockHeight_eq_dec : EqDecision BlockHeight.
Proof. solve_decision. Defined.
#[global] Instance BlockHeight_countable : Countable BlockHeight.
Proof.
  refine (inj_countable' (λ h, (thread_identifier h, height h))
            (λ p, mkBlockHeight p.1 p.2) _).
  by intros [].
Defined.

Definition BlockHeight_next {E} (self : BlockHeight) (t : ThreadIdentifier) :
    outcome E BlockHeight :=
  if bool_decide (thread_identifier self = t)
  then (λ h, mkBlockHeight t h) <$> checked 64 (height self + 1)
  else Ok (mkBlockHeight t 0).

(** ** Account addresses: 256 bits, most significant bit first *)
Record AccountAddress := AccountAddr { account_bytes : list Z }.
#[global] Instance AccountAddress_eq_dec : EqDecision AccountAddress.
Proof. solve_decision. Defined.
#[global] Instance AccountAddress_countable : Countable AccountAddress.
Proof. by refine (inj_countable' account_bytes AccountAddr _); intros []. Defined.

Definition AccountAddress_wf (a : AccountAddress) : Prop := byte_array 32 (account_bytes a).
Definition AccountAddress_default : AccountAddress := AccountAddr (replicate 32 0%Z).

(** [impl BitAnd for &AccountAddress]: the byte-wise loop. *)
Definition AccountAddress_bitand (a b : AccountAddress) : AccountAddress :=
  AccountAddr ((λ i, Z.land (nth i (account_bytes a) 0%Z) (nth i (account_bytes b) 0%Z))
                 <$> seq 0 32).

Definition AccountAddress_get_bit_value {E} (a : AccountAddress) (index : nat) :
    outcome E bool :=
  if bool_decide (256 ≤ index) then Panic else
  let hi := index / 8 in
  let lo := index `mod` 8 in
  Ok (negb (Z.land (Z.shiftr (nth hi (account_bytes a) 0) (Z.of_nat (7 - lo))) 1 =? 0)%Z).

Definition AccountAddress_set_bit_value {E} (a : AccountAddress) (index : nat) (value : bool) :
    outcome E AccountAddress :=
  assert_that value ≫= λ _,
  if bool_decide (256 ≤ index) then Panic else
  let hi := index / 8 in
  let lo := 7 - index `mod` 8 in
  Ok (AccountAddr
        (<[hi := Z.lor (nth hi (account_bytes a) 0%Z) (Z.shiftl 1 (Z.of_nat lo))]>
           (account_bytes a))).

(** ** Account routing: the pair (dapp, account) the threads table dispatches on *)
Record DAppIdentifier := DAppId { dapp_address : AccountAddress }.
#[global] Instance DAppIdentifier_eq_dec : EqDecision DAppIdentifier.
Proof. solve_decision. Defined.
#[global] Instance DAppIdentifier_countable : Countable DAppIdentifier.
Proof. by refine (inj_countable' dapp_address DAppId _); intros []. Defined.

Definition DAppIdentifier_bitand (a b : DAppIdentifier) : DAppIdentifier :=
  DAppId (AccountAddress_bitand (dapp_address a) (dapp_address b)).

Record AccountRouting := Routing { routing_dapp : DAppIdentifier; routing_account : AccountAddress }.
#[global] Instance AccountRouting_eq_dec : EqDecision AccountRouting.
Proof. solve_decision. Defined.

Definition AccountRouting_wf (r : AccountRouting) : Prop :=
  AccountAddress_wf (dapp_address (routing_dapp r)) ∧ AccountAddress_wf (routing_account r).

Definition AccountRouting_default : AccountRouting :=
  Routing (DAppId AccountAddress_default) AccountAddress_default.

(** [impl From<(Option<DAppIdentifier>, AccountAddress)> for AccountRouting] *)
Definition AccountRouting_from (dapp : option DAppIdentifier) (acc : AccountAddress) :
    AccountRouting :=
  Routing (default (DAppId acc) dapp) acc.

Definition AccountRouting_bitand (a b : AccountRouting) : AccountRouting :=
  Routing (DAppIdentifier_bitand (routing_dapp a) (routing_dapp b))
          (AccountAddress_bitand (routing_account a) (routing_account b)).

Definition AccountRouting_get_bit_value {E} (r : AccountRouting) (index : nat) :
    outcome E bool :=
  if bool_decide (index < 256)
  then AccountAddress_get_bit_value (dapp_address (routing_dapp r)) index
  else AccountAddress_get_bit_value (routing_account r) (index - 256).

Definition AccountRouting_set_bit_value {E} (r : AccountRouting) (index : nat) (value : bool) :
    outcome E AccountRouting :=
  if bool_decide (index < 256)
  then (λ d, Routing (DAppId d) (routing_account r)) <$>
         AccountAddress_set_bit_value (dapp_address (routing_dapp r)) index value
  else (λ a, Routing (routing_dapp r) a) <$>
         AccountAddress_set_bit_value (routing_account r) (index - 256) value.

(** [impl From<AccountRouting> for [[bool; 256]; 2]]: the three nested loops; the inner
    one runs over [shift], the middle one over [inner], the outer one over the parts. *)
Definition part_to_bits (part : list Z) : list bool :=
  foldl (λ acc inner,
    foldl (λ acc shift,
      <[inner * 8 + (7 - shift) :=
          negb (Z.land (nth inner part 0) (Z.shiftl 1 (Z.of_nat shift)) =? 0)%Z]> acc)
      acc (seq 0 8))
    (replicate 256 false) (seq 0 32).

Definition AccountRouting_to_bits (r : AccountRouting) : list (list bool) :=
  part_to_bits <$> [account_bytes (dapp_address (routing_dapp r)); account_bytes (routing_account r)].

(** Specification view: the bit at [index], most significant bit of byte 0 first. *)
Definition addr_bit (a : AccountAddress) (index : nat) : bool :=
  Z.testbit (nth (index / 8) (account_bytes a) 0%Z) (Z.of_nat (7 - index `mod` 8)).

Definition routing_bit (r : AccountRouting) (index : nat) : bool :=
  if bool_decide (index < 256)
  then addr_bit (dapp_address (routing_dapp r)) index
  else addr_bit (routing_account r) (index - 256).

(** ** Lemmas: bytes and bits *)
Section bit_lemmas.
Local Open Scope Z_scope.

Lemma land_shiftr_testbit b k :
  0 ≤ k → negb (Z.land (Z.shiftr b k) 1 =? 0) = Z.testbit b k.
Proof.
  intros Hk. change 1 with (Z.ones 1). rewrite Z.land_ones by lia.
  rewrite <- Z.bit0_mod, Z.shiftr_spec by lia. rewrite Z.add_0_l.
  by destruct (Z.testbit b k).
Qed.

Lemma land_pow2_testbit b k :
  0 ≤ k → negb (Z.land b (Z.shiftl 1 k) =? 0) = Z.testbit b k.
Proof.
  intros Hk. destruct (Z.testbit b k) eqn:Hb.
  - destruct (Z.eqb_spec (Z.land b (Z.shiftl 1 k)) 0) as [H0|]; [|done].
    apply (f_equal (λ z, Z.testbit z k)) in H0.
    rewrite Z.land_spec, Z.shiftl_spec, Z.sub_diag, Hb in H0 by lia.
    by rewrite Z.testbit_0_l in H0.
  - destruct (Z.eqb_spec (Z.land b (Z.shiftl 1 k)) 0) as [|H0]; [done|].
    exfalso. apply H0. apply Z.bits_inj'. intros j Hj.
    rewrite Z.land_spec, Z.shiftl_spec, Z.testbit_0_l by lia.
    destruct (decide (j = k)) as [->|Hne]; [by rewrite Hb|].
    rewrite andb_false_iff. right.
    destruct (decide (j < k)); [by rewrite Z.testbit_neg_r by lia|].
    change 1 with (2 ^ 0). by rewrite Z.pow2_bits_false by lia.
Qed.

Lemma byte_bits_high b k : is_byte b → 8 ≤ k → Z.testbit b k = false.
Proof.
  intros [H0 H1] Hk. destruct (decide (b = 0)) as [->|]; [apply Z.testbit_0_l|].
  apply Z.bits_above_log2; [lia|].
  assert (Z.log2 b < 8); [|lia]. apply Z.log2_lt_pow2; lia.
Qed.

Lemma byte_ext a b :
  is_byte a → is_byte b → (∀ k, 0 ≤ k < 8 → Z.testbit a k = Z.testbit b k) → a = b.
Proof.
  intros Ha Hb Heq. apply Z.bits_inj'. intros k Hk.
  destruct (decide (k < 8)); [by apply Heq; lia|].
  by rewrite !byte_bits_high by (done || lia).
Qed.

Lemma is_byte_of_bits b :
  0 ≤ b → (∀ k, 8 ≤ k → Z.testbit b k = false) → is_byte b.
Proof.
  intros H0 Hbits. split; [done|]. destruct (decide (b = 0)) as [->|]; [lia|].
  apply (Z.log2_lt_pow2 b 8); [lia|].
  destruct (decide (Z.log2 b < 8)) as [|Hge]; [done|].
  pose proof (Z.bit_log2 b ltac:(lia)) as Hl. rewrite Hbits in Hl; [done|lia].
Qed.

Lemma is_byte_land a b : is_byte a → is_byte b → is_byte (Z.land a b).
Proof.
  intros Ha Hb. apply is_byte_of_bits.
  - apply Z.land_nonneg. left. apply Ha.
  - intros k Hk. rewrite Z.land_spec. by rewrite (byte_bits_high a).
Qed.

Lemma is_byte_lor_pow2 b k :
  is_byte b → 0 ≤ k < 8 → is_byte (Z.lor b (Z.shiftl 1 k)).
Proof.
  intros Hb Hk. apply is_byte_of_bits.
  - apply Z.lor_nonneg. split; [apply Hb|]. apply Z.shiftl_nonneg. lia.
  - intros j Hj. rewrite Z.lor_spec, (byte_bits_high b), Z.shiftl_1_l by done.
    simpl. by apply Z.pow2_bits_false; lia.
Qed.
End bit_lemmas.

Lemma nth_byte l i : Forall is_byte l → is_byte (nth i l 0%Z).
Proof.
  intros Hl. destruct (decide (i < length l)) as [Hi|Hi].
  - rewrite Forall_forall in Hl. apply Hl, nth_In. lia.
  - rewrite nth_overflow by lia. split; lia.
Qed.

Lemma nth_ext_bytes l1 l2 n :
  length l1 = n → length l2 = n → (∀ i, i < n → nth i l1 0%Z = nth i l2 0%Z) → l1 = l2.
Proof. intros H1 H2 H. apply (nth_ext _ _ 0%Z 0%Z); [lia|]. intros i Hi. apply H. lia. Qed.

Lemma nth_seq_map {B} (f : nat → B) n i d : i < n → nth i (f <$> seq 0 n) d = f i.
Proof.
  intros Hi. apply nth_lookup_Some. rewrite list_lookup_fmap, lookup_seq_lt by done. done.
Qed.

Lemma AccountAddress_get_bit_value_spec {E} a index :
  index < 256 → AccountAddress_get_bit_value (E := E) a index = Ok (addr_bit a index).
Proof.
  intros Hi. unfold AccountAddress_get_bit_value, addr_bit.
  rewrite bool_decide_false by lia. f_equal. apply land_shiftr_testbit. lia.
Qed.

Lemma addr_bit_bitand a b index :
  index < 256 →
  addr_bit (AccountAddress_bitand a b) index = addr_bit a index && addr_bit b index.
Proof.
  intros Hi. unfold addr_bit, AccountAddress_bitand. cbn [account_bytes].
  rewrite nth_seq_map by (apply Nat.Div0.div_lt_upper_bound; lia).
  apply Z.land_spec.
Qed.

Lemma AccountAddress_bitand_wf a b :
  AccountAddress_wf a → AccountAddress_wf b → AccountAddress_wf (AccountAddress_bitand a b).
Proof.
  intros [_ Ha] [_ Hb]. split; cbn [account_bytes AccountAddress_bitand].
  - by rewrite length_fmap, length_seq.
  - apply Forall_fmap, Forall_forall. intros i _. simpl. apply is_byte_land; by apply nth_byte.
Qed.

(** Two well-formed addresses with the same 256 bits are equal. *)
Lemma AccountAddress_ext a b :
  AccountAddress_wf a → AccountAddress_wf b →
  (∀ i, i < 256 → addr_bit a i = addr_bit b i) → a = b.
Proof.
  destruct a as [a], b as [b]. intros [La Fa] [Lb Fb] Hbits. f_equal. simpl in *.
  apply (nth_ext_bytes _ _ 32); [done..|]. intros j Hj.
  apply byte_ext; [by apply nth_byte..|]. intros k Hk.
  specialize (Hbits (j * 8 + (7 - Z.to_nat k)) ltac:(lia)).
  unfold addr_bit in Hbits. cbn [account_bytes] in Hbits.
  replace ((j * 8 + (7 - Z.to_nat k)) / 8) with j in Hbits
    by (apply (Nat.div_unique _ 8 j (7 - Z.to_nat k)); lia).
  replace ((j * 8 + (7 - Z.to_nat k)) `mod` 8) with (7 - Z.to_nat k) in Hbits
    by (apply (Nat.mod_unique _ 8 j (7 - Z.to_nat k)); lia).
  by replace (Z.of_nat (7 - (7 - Z.to_nat k))) with k in Hbits by lia.
Qed.

Lemma AccountAddress_set_bit_value_Ok {E} a index :
  index < 256 →
  AccountAddress_set_bit_value (E := E) a index true =
    Ok (AccountAddr (<[index / 8 :=
          Z.lor (nth (index / 8) (account_bytes a) 0%Z)
                (Z.shiftl 1 (Z.of_nat (7 - index `mod` 8)))]> (account_bytes a))).
Proof.
  intros Hi. unfold AccountAddress_set_bit_value. simpl.
  by rewrite bool_decide_false by lia.
Qed.

Lemma nth_insert_eq (l : list Z) i x d : i < length l → nth i (<[i:=x]> l) d = x.
Proof. intros Hi. apply nth_lookup_Some. by apply list_lookup_insert_eq. Qed.

Lemma nth_insert_ne (l : list Z) i j x d : i ≠ j → nth j (<[i:=x]> l) d = nth j l d.
Proof. intros Hne. rewrite !nth_lookup. by rewrite list_lookup_insert_ne. Qed.

(** Reading any bit after [set_bit_value index true]. *)
Lemma addr_bit_set {E} a index a' j :
  AccountAddress_wf a → index < 256 → j < 256 →
  AccountAddress_set_bit_value (E := E) a index true = Ok a' →
  addr_bit a' j = bool_decide (j = index) || addr_bit a j.
Proof.
  intros [Hlen _] Hi Hj. rewrite AccountAddress_set_bit_value_Ok by done.
  intros Heq. apply Ok_inj in Heq as <-. unfold addr_bit. cbn [account_bytes].
  assert (index / 8 < 32) by (apply Nat.Div0.div_lt_upper_bound; lia).
  pose proof (Nat.div_mod_eq index 8) as Ei. pose proof (Nat.div_mod_eq j 8) as Ej.
  pose proof (Nat.mod_upper_bound index 8 ltac:(lia)).
  pose proof (Nat.mod_upper_bound j 8 ltac:(lia)).
  destruct (decide (index / 8 = j / 8)) as [Heq|Hne].
  - rewrite <- Heq, nth_insert_eq by (rewrite Hlen; done).
    rewrite Z.lor_spec, Z.shiftl_1_l, Z.pow2_bits_eqb by lia.
    case_bool_decide as Hji.
    + subst. by rewrite Z.eqb_refl, orb_true_r.
    + match goal with |- context [(?x =? ?y)%Z] => destruct (Z.eqb_spec x y) end;
        [lia|by rewrite orb_false_r].
  - rewrite nth_insert_ne by done. rewrite bool_decide_false; [done|]. by intros ->.
Qed.

Lemma AccountAddress_set_bit_value_wf {E} a index a' :
  AccountAddress_wf a → AccountAddress_set_bit_value (E := E) a index true = Ok a' →
  AccountAddress_wf a'.
Proof.
  intros [Hlen Hb]. unfold AccountAddress_set_bit_value. simpl.
  case_bool_decide; [done|]. intros [= <-]. split; simpl.
  - by rewrite length_insert.
  - apply Forall_insert; [done|]. apply is_byte_lor_pow2; [by apply nth_byte|lia].
Qed.

(** Bits of a routing. *)
Lemma AccountRouting_get_bit_value_spec {E} r index :
  index < 512 → AccountRouting_get_bit_value (E := E) r index = Ok (routing_bit r index).
Proof.
  intros Hi. unfold AccountRouting_get_bit_value, routing_bit.
  case_bool_decide; apply AccountAddress_get_bit_value_spec; lia.
Qed.

Lemma routing_bit_bitand a b index :
  index < 512 →
  routing_bit (AccountRouting_bitand a b) index = routing_bit a index && routing_bit b index.
Proof.
  intros Hi. unfold routing_bit. simpl.
  case_bool_decide; apply addr_bit_bitand; lia.
Qed.

Lemma AccountRouting_bitand_wf a b :
  AccountRouting_wf a → AccountRouting_wf b → AccountRouting_wf (AccountRouting_bitand a b).
Proof. intros [] []; split; by apply AccountAddress_bitand_wf. Qed.

Lemma AccountRouting_ext a b :
  AccountRouting_wf a → AccountRouting_wf b →
  (∀ i, i < 512 → routing_bit a i = routing_bit b i) → a = b.
Proof.
  destruct a as [[ad] aa], b as [[bd] ba]. intros [Wa1 Wa2] [Wb1 Wb2] Hbits. simpl in *.
  f_equal; [f_equal|]; (apply AccountAddress_ext; [done|done|]).
  - intros i Hi. specialize (Hbits i ltac:(lia)). unfold routing_bit in Hbits.
    by rewrite !bool_decide_true in Hbits by lia.
  - intros i Hi. specialize (Hbits (i + 256) ltac:(lia)). unfold routing_bit in Hbits.
    rewrite !bool_decide_false in Hbits by lia. by rewrite Nat.add_sub in Hbits.
Qed.

(** ** Lemmas: the byte-wise comparison loop *)
Section compare_lemmas.
Implicit Types a b c : list Z.

Lemma compare_loop_Eq a b ks :
  BlockIdentifier_compare_loop a b ks = Eq ↔ ∀ i, i ∈ ks → nth i a 0%Z = nth i b 0%Z.
Proof.
  induction ks as [|i ks IH]; simpl; [set_solver|].
  destruct (Z.compare_spec (nth i a 0%Z) (nth i b 0%Z)) as [He|Hl|Hg].
  - rewrite IH. set_solver.
  - split; [done|]. intros H. specialize (H i ltac:(set_solver)). lia.
  - split; [done|]. intros H. specialize (H i ltac:(set_solver)). lia.
Qed.

Lemma compare_loop_antisym a b ks :
  BlockIdentifier_compare_loop b a ks = CompOpp (BlockIdentifier_compare_loop a b ks).
Proof.
  induction ks as [|i ks IH]; simpl; [done|].
  rewrite (Z.compare_antisym (nth i a 0%Z) (nth i b 0%Z)).
  by destruct (nth i a 0 ?= nth i b 0)%Z.
Qed.

(** [Less] is decided by the first index where the arrays differ. *)
Lemma compare_loop_Lt a b ks :
  BlockIdentifier_compare_loop a b ks = Lt ↔
  ∃ ks1 i ks2, ks = ks1 ++ i :: ks2 ∧
    (∀ j, j ∈ ks1 → nth j a 0%Z = nth j b 0%Z) ∧ (nth i a 0 < nth i b 0)%Z.
Proof.
  induction ks as [|i ks IH]; simpl.
  - split; [done|]. intros (ks1 & i & ks2 & H & _). by destruct ks1.
  - destruct (Z.compare_spec (nth i a 0%Z) (nth i b 0%Z)) as [He|Hl|Hg].
    + rewrite IH. split.
      * intros (ks1 & k & ks2 & -> & Heq & Hlt). exists (i :: ks1), k, ks2.
        split; [done|]. split; [|done]. intros j [->|]%elem_of_cons; auto.
      * intros ([|i' ks1] & k & ks2 & [= -> ->] & Heq & Hlt); [lia|].
        exists ks1, k, ks2. split; [done|]. split; [|done]. intros j Hj. apply Heq. set_solver.
    + split; [|done]. intros _. exists [], i, ks. split; [done|]. split; [set_solver|lia].
    + split; [done|]. intros ([|i' ks1] & k & ks2 & [= -> ->] & Heq & Hlt); [lia|].
      specialize (Heq i' ltac:(set_solver)). lia.
Qed.

Lemma compare_loop_trans a b c ks :
  BlockIdentifier_compare_loop a b ks = Lt →
  BlockIdentifier_compare_loop b c ks = Lt →
  BlockIdentifier_compare_loop a c ks = Lt.
Proof.
  induction ks as [|i ks IH]; simpl; [done|].
  destruct (Z.compare_spec (nth i a 0%Z) (nth i b 0%Z)),
           (Z.compare_spec (nth i b 0%Z) (nth i c 0%Z)),
           (Z.compare_spec (nth i a 0%Z) (nth i c 0%Z)); intros; first [done|lia|auto].
Qed.
End compare_lemmas.

(** BlockIdentifier::compare, the fork-choice order: on 32-byte identifiers the
    comparison is a strict total order, it returns [Equal] exactly on equal identifiers, it
    is antisymmetric and transitive, and [Less] is decided at the first differing byte. *)
Theorem block_identifier_compare_total_order a b c :
  BlockIdentifier_wf a → BlockIdentifier_wf b →
  (BlockIdentifier_compare a b = Eq ↔ a = b) ∧
  BlockIdentifier_compare b a = CompOpp (BlockIdentifier_compare a b) ∧
  (BlockIdentifier_compare a b = Lt → BlockIdentifier_compare b c = Lt →
   BlockIdentifier_compare a c = Lt) ∧
  (BlockIdentifier_compare a b = Lt ↔
     ∃ k, k < 32 ∧ take k (block_id_bytes a) = take k (block_id_bytes b) ∧
       (nth k (block_id_bytes a) 0 < nth k (block_id_bytes b) 0)%Z).
Proof.
  destruct a as [a], b as [b], c as [c]. unfold BlockIdentifier_compare. intros [La _] [Lb _].
  cbn [block_id_bytes] in *. split_and!.
  - rewrite compare_loop_Eq. split; [|by intros [= ->]].
    intros H. f_equal. apply (nth_ext_bytes _ _ 32); [done..|].
    intros i Hi. apply H, elem_of_seq. lia.
  - apply compare_loop_antisym.
  - apply compare_loop_trans.
  - rewrite compare_loop_Lt. split.
    + intros (ks1 & k & ks2 & Hs & Heq & Hlt).
      apply seq_split_inv in Hs as [-> Hk].
      exists k. split; [done|]. split; [|done].
      apply (nth_ext_bytes _ _ k); [rewrite length_take; lia..|].
      intros i Hi. rewrite !nth_lookup, !lookup_take_lt, <- !nth_lookup by done.
      apply Heq, elem_of_seq. lia.
    + intros (k & Hk & Ht & Hlt). exists (seq 0 k), k, (seq (S k) (31 - k)).
      split; [|split; [|done]].
      * replace 32 with (k + S (31 - k)) by lia. by rewrite seq_app.
      * intros j [_ Hj]%elem_of_seq. apply (f_equal (λ l, nth j l 0%Z)) in Ht.
        by rewrite !nth_lookup, !lookup_take_lt, <- !nth_lookup in Ht by lia.
Qed.

Lemma block_identifier_compare_total_order_witness :
  BlockIdentifier_compare (BlockId (replicate 31 7%Z ++ [1%Z])) (BlockId (replicate 31 7%Z ++ [2%Z]))
    = Lt.
Proof.
  apply (block_identifier_compare_total_order
           (BlockId (replicate 31 7%Z ++ [1%Z])) (BlockId (replicate 31 7%Z ++ [2%Z]))
           BlockIdentifier_default).
  - apply (bool_decide_unpack _). vm_compute. exact I.
  - apply (bool_decide_unpack _). vm_compute. exact I.
  - exists 31. split; [lia|]. split; [reflexivity|]. vm_compute. reflexivity.
Defined.

(** ** Thread identifiers *)
Lemma split_u16 id : in_width 16 id →
  id = (Z.land (Z.shiftr id 8) 255 * 256 + Z.land id 255)%Z.
Proof.
  unfold in_width. intros Hid. change 255%Z with (Z.ones 8).
  rewrite !Z.land_ones, Z.shiftr_div_pow2 by lia.
  rewrite (Z.mod_small (id / 2 ^ 8)) by (split; [apply Z.div_pos|apply Z.div_lt_upper_bound]; lia).
  pose proof (Z.div_mod id (2 ^ 8)). lia.
Qed.

(** ThreadIdentifier::new: the identifier determines both the spawning block and the
    16-bit local index, so identifiers generated from different blocks or with different
    local indices never collide; [spawning_block_id] recovers the block and
    [is_spawning_block] accepts exactly that block. *)
Theorem thread_identifier_unique b i b' i' :
  BlockIdentifier_wf b → BlockIdentifier_wf b' → in_width 16 i → in_width 16 i' →
  (ThreadIdentifier_new b i = ThreadIdentifier_new b' i' ↔ b = b' ∧ i = i') ∧
  ThreadIdentifier_spawning_block_id (ThreadIdentifier_new b i) = b ∧
  (ThreadIdentifier_is_spawning_block (ThreadIdentifier_new b i) b' = true ↔ b' = b) ∧
  byte_array 34 (thread_id_bytes (ThreadIdentifier_new b i)).
Proof.
  destruct b as [b], b' as [b']. intros [Lb Fb] [Lb' _] Hi Hi'. cbn [block_id_bytes] in *.
  assert (take 32 (drop 2 (thread_id_bytes (ThreadIdentifier_new (BlockId b) i))) = b) as Hdrop.
  { change (take 32 b = b). rewrite take_ge; [done|lia]. }
  split_and!.
  - split; [|by intros [[= ->] ->]]. intros [= H1 H2 ->]. split; [done|].
    rewrite (split_u16 i), (split_u16 i'), H1, H2; done.
  - unfold ThreadIdentifier_spawning_block_id. by rewrite Hdrop.
  - unfold ThreadIdentifier_is_spawning_block. rewrite bool_decide_eq_true, Hdrop. simpl.
    naive_solver.
  - split; simpl; [by rewrite Lb|].
    constructor; [|constructor; [|done]]; change 255%Z with (Z.ones 8);
      rewrite Z.land_ones by lia; apply Z.mod_pos_bound; lia.
Qed.

Lemma thread_identifier_unique_witness :
  ThreadIdentifier_new BlockIdentifier_default 258 ≠ ThreadIdentifier_new BlockIdentifier_default 2.
Proof.
  intros H. apply (thread_identifier_unique BlockIdentifier_default 258 BlockIdentifier_default 2) in H.
  - destruct H as [_ H]. discriminate H.
  - apply (bool_decide_unpack _). vm_compute. exact I.
  - apply (bool_decide_unpack _). vm_compute. exact I.
  - apply (bool_decide_unpack _). vm_compute. exact I.
  - apply (bool_decide_unpack _). vm_compute. exact I.
Defined.

(** ** The bit-array conversion *)
Section to_bits.
Variable part : list Z.

Local Definition put (acc : list bool) (inner shift : nat) : list bool :=
  <[inner * 8 + (7 - shift) :=
      negb (Z.land (nth inner part 0) (Z.shiftl 1 (Z.of_nat shift)) =? 0)%Z]> acc.
Local Definition bit_at (j : nat) : bool :=
  Z.testbit (nth (j / 8) part 0%Z) (Z.of_nat (7 - j `mod` 8)).

Lemma put_inner_length acc inner shifts :
  length (foldl (λ acc shift, put acc inner shift) acc shifts) = length acc.
Proof.
  revert acc. induction shifts as [|s shifts IH]; intros acc; simpl; [done|].
  rewrite IH. unfold put. by rewrite length_insert.
Qed.

(** The inner loop writes the bits of byte [inner], and only those. *)
Lemma put_inner_lookup acc inner n j :
  n ≤ 8 → inner * 8 + 8 ≤ length acc →
  foldl (λ acc shift, put acc inner shift) acc (seq 0 n) !! j =
    if bool_decide (inner * 8 + 8 - n ≤ j < inner * 8 + 8) then Some (bit_at j) else acc !! j.
Proof.
  intros Hn Hlen. induction n as [|n IH].
  - simpl. rewrite bool_decide_false by lia. done.
  - rewrite (seq_S n 0), foldl_app. simpl. unfold put at 1.
    destruct (decide (j = inner * 8 + (7 - n))) as [->|Hne].
    + rewrite list_lookup_insert_eq by (rewrite put_inner_length; lia).
      rewrite bool_decide_true by lia. unfold bit_at.
      rewrite <- (Nat.div_unique (inner * 8 + (7 - n)) 8 inner (7 - n)) by lia.
      rewrite <- (Nat.mod_unique (inner * 8 + (7 - n)) 8 inner (7 - n)) by lia.
      rewrite land_pow2_testbit by lia. do 2 f_equal. lia.
    + rewrite list_lookup_insert_ne by lia. rewrite IH by lia.
      by repeat case_bool_decide; try lia.
Qed.

Lemma put_outer_length n acc :
  length (foldl (λ acc inner, foldl (λ acc shift, put acc inner shift) acc (seq 0 8))
            acc (seq 0 n)) = length acc.
Proof.
  induction n as [|n IH]; [done|]. rewrite (seq_S n 0), foldl_app. cbn [foldl].
  by rewrite put_inner_length, IH.
Qed.

Lemma put_outer_lookup n acc j :
  length acc = 256 → n ≤ 32 →
  foldl (λ acc inner, foldl (λ acc shift, put acc inner shift) acc (seq 0 8))
    acc (seq 0 n) !! j = if bool_decide (j < n * 8) then Some (bit_at j) else acc !! j.
Proof.
  intros Hlen. induction n as [|n IH]; intros Hn.
  - by rewrite bool_decide_false by lia.
  - rewrite (seq_S n 0), foldl_app. cbn [foldl].
    rewrite put_inner_lookup by (rewrite ?put_outer_length; lia).
    rewrite IH by lia. by repeat case_bool_decide; try lia.
Qed.
End to_bits.

Lemma part_to_bits_lookup part j :
  j < 256 → part_to_bits part !! j = Some (bit_at part j).
Proof.
  intros Hj. unfold part_to_bits.
  pose proof (put_outer_lookup part 32 (replicate 256 false) j (length_replicate _ _)
                ltac:(lia)) as H.
  rewrite bool_decide_true in H by lia. exact H.
Qed.

(** From<AccountRouting> for [[bool; 256]; 2]: the shift-and-store conversion agrees
    with [DirectBitAccess]: entry [index mod 256] of part [index / 256] is the bit that
    [get_bit_value index] reads, for each of the 512 indices. *)
Theorem routing_to_bits_agrees r index :
  index < 512 →
  (λ b, Ok (E := Empty_set) b) <$>
    (AccountRouting_to_bits r !! (index / 256) ≫= λ part, part !! (index `mod` 256))
  = Some (AccountRouting_get_bit_value r index).
Proof.
  intros Hi. rewrite AccountRouting_get_bit_value_spec by done. unfold routing_bit.
  case_bool_decide as Hlt.
  - rewrite Nat.div_small, Nat.mod_small by lia. cbn -[part_to_bits].
    by rewrite part_to_bits_lookup by lia.
  - rewrite <- (Nat.div_unique index 256 1 (index - 256)) by lia.
    rewrite <- (Nat.mod_unique index 256 1 (index - 256)) by lia. cbn -[part_to_bits].
    by rewrite part_to_bits_lookup by lia.
Qed.

Lemma routing_to_bits_agrees_witness :
  (λ b, Ok (E := Empty_set) b) <$>
    (AccountRouting_to_bits AccountRouting_default !! (300 / 256) ≫= λ part, part !! (300 `mod` 256))
  = Some (AccountRouting_get_bit_value AccountRouting_default 300).
Proof. apply (routing_to_bits_agrees AccountRouting_default 300). lia. Defined.

Lemma AccountRouting_set_bit_spec {E} r index :
  AccountRouting_wf r → index < 512 →
  ∃ r', AccountRouting_set_bit_value (E := E) r index true = Ok r' ∧ AccountRouting_wf r' ∧
    ∀ j, j < 512 → routing_bit r' j = bool_decide (j = index) || routing_bit r j.
Proof.
  destruct r as [[d] a]. intros [Wd Wa] Hi. simpl in Wd, Wa.
  unfold AccountRouting_set_bit_value. cbn [routing_dapp dapp_address routing_account].
  case_bool_decide as Hlt; rewrite AccountAddress_set_bit_value_Ok by lia; eexists; (split; [reflexivity|]).
  - pose proof (AccountAddress_set_bit_value_Ok (E := Empty_set) d index Hlt) as Hset.
    split; [split; [exact (AccountAddress_set_bit_value_wf _ _ _ Wd Hset)|done]|].
    intros j Hj. unfold routing_bit. cbn [routing_dapp dapp_address routing_account].
    destruct (decide (j < 256)) as [Hj'|Hj'].
    + rewrite !(bool_decide_true (j < 256)) by done. exact (addr_bit_set _ _ _ _ Wd Hlt Hj' Hset).
    + rewrite !(bool_decide_false (j < 256)), (bool_decide_false (j = index)) by lia. done.
  - pose proof (AccountAddress_set_bit_value_Ok (E := Empty_set) a (index - 256) ltac:(lia)) as Hset.
    split; [split; [done|exact (AccountAddress_set_bit_value_wf _ _ _ Wa Hset)]|].
    intros j Hj. unfold routing_bit. cbn [routing_dapp dapp_address routing_account].
    destruct (decide (j < 256)) as [Hj'|Hj'].
    + rewrite !(bool_decide_true (j < 256)), (bool_decide_false (j = index)) by lia. done.
    + rewrite !(bool_decide_false (j < 256)) by done.
      rewrite (addr_bit_set a (index - 256) _ (j - 256) Wa ltac:(lia) ltac:(lia) Hset).
      f_equal. apply bool_decide_ext. lia.
Qed.

(** DirectBitAccess for AccountRouting: setting bit [index] turns that bit on and
    leaves the other 511 bits unchanged; the result is again a pair of 32-byte addresses;
    an index of 512 or more, or a [false] value, panics. *)
Theorem routing_set_get r index j :
  AccountRouting_wf r → j < 512 →
  (index < 512 → ∃ r', AccountRouting_set_bit_value (E := Empty_set) r index true = Ok r' ∧
     AccountRouting_wf r' ∧
     AccountRouting_get_bit_value (E := Empty_set) r' j =
       Ok (bool_decide (j = index) || routing_bit r j)) ∧
  (512 ≤ index → AccountRouting_set_bit_value (E := Empty_set) r index true = Panic) ∧
  AccountRouting_set_bit_value (E := Empty_set) r index false = Panic.
Proof.
  intros Hwf Hj. split_and!.
  - intros Hi. destruct (AccountRouting_set_bit_spec (E := Empty_set) r index Hwf Hi) as (r' & Hset & Hwf' & Hbits).
    exists r'. split; [done|]. split; [done|]. by rewrite AccountRouting_get_bit_value_spec, Hbits.
  - intros Hi. unfold AccountRouting_set_bit_value, AccountAddress_set_bit_value. simpl.
    by rewrite (bool_decide_false (index < 256)), bool_decide_true by lia.
  - unfold AccountRouting_set_bit_value. by case_bool_decide.
Qed.

Lemma routing_set_get_witness :
  ∃ r', AccountRouting_set_bit_value (E := Empty_set) AccountRouting_default 300 true = Ok r' ∧
    AccountRouting_wf r' ∧
    AccountRouting_get_bit_value (E := Empty_set) r' 300 =
      Ok (bool_decide (300 = 300) || routing_bit AccountRouting_default 300).
Proof.
  apply (routing_set_get AccountRouting_default 300 300).
  - split; apply (bool_decide_unpack _); vm_compute; exact I.
  - lia.
  - lia.
Defined.
