(* ===== verification/Bitmask.v ===== *)
(** * Bitmask routing tables and the threads table

    Models [bitmask/mask.rs], [bitmask/table.rs] and the table half of
    [types/threads_table.rs].  The generic bit source of the Rust code (a type with [BitAnd],
    [Eq] and [Default]) is the class [BitsSource]; its laws are [BitsLaws], and
    [AccountRouting] is shown to satisfy them.  A [Vec] of rows is a list in table order. *)
From stdpp Require Import base numbers gmap strings fin_maps sorting list.
From S2P Require Import Prelude Identifiers.

(** ** Bit sources *)
Class BitsSource (A : Type) := {
  bits_and : A → A → A;
  bits_default : A;
}.

(** What a mask relies on: [bits_and] acts bit by bit, the default has no bit set, and
    (well-formed) values with the same bits are equal. *)
Class BitsLaws (A : Type) `{BitsSource A} := {
  bits_wf : A → Prop;
  bits_count : nat;
  bit_of : A → nat → bool;
  bits_and_wf a b : bits_wf a → bits_wf b → bits_wf (bits_and a b);
  bits_and_spec a b i : i < bits_count → bit_of (bits_and a b) i = bit_of a i && bit_of b i;
  bits_ext a b :
    bits_wf a → bits_wf b → (∀ i, i < bits_count → bit_of a i = bit_of b i) → a = b;
  bits_default_wf : bits_wf bits_default;
  bits_default_spec i : i < bits_count → bit_of bits_default i = false;
}.

(** ** Masks *)
Record Bitmask (A : Type) := mkBitmask {
  mask_bits : A;
  meaningful_mask_bits : A;
}.
Arguments mkBitmask {A} _ _.
Arguments mask_bits {A} _.
Arguments meaningful_mask_bits {A} _.

#[global] Instance Bitmask_eq_dec {A} `{EqDecision A} : EqDecision (Bitmask A).
Proof. solve_decision. Defined.

Definition Bitmask_default {A} `{BitsSource A} : Bitmask A :=
  mkBitmask bits_default bits_default.

Definition Bitmask_is_match {A} `{BitsSource A, EqDecision A} (m : Bitmask A) (addr : A) : bool :=
  let mask := bits_and (mask_bits m) (meaningful_mask_bits m) in
  let meaningful_value := bits_and addr (meaningful_mask_bits m) in
  bool_decide (meaningful_value = mask).

(** ** Tables *)
Inductive TableError :=
  | InsertBelowDefault
  | InsertOutside
  | RemoveDefault
  | RemoveOutside.
#[global] Instance TableError_eq_dec : EqDecision TableError.
Proof. solve_decision. Defined.

Section table.
Context {A T : Type} `{BitsSource A, EqDecision A, EqDecision T}.
Variable default_target : T.

Notation row := (Bitmask A * T)%type.
Notation table := (list row).

Definition BitmasksTable_new : table := [(Bitmask_default, default_target)].

Fixpoint BitmasksTable_find_match {E} (rows : table) (bits : A) : outcome E T :=
  match rows with
  | [] => Panic
  | (mask, target) :: rest =>
      if Bitmask_is_match mask bits then Ok target
      else BitmasksTable_find_match rest bits
  end.

Definition BitmasksTable_is_match {E} (rows : table) (bits : A) (target : T) : outcome E bool :=
  (λ t, bool_decide (t = target)) <$> BitmasksTable_find_match rows bits.

Definition BitmasksTable_insert_above (rows : table) (row_index : nat)
    (mask : Bitmask A) (thread : T) : outcome TableError table :=
  ensure (bool_decide (row_index ≠ length rows)) InsertBelowDefault ≫= λ _,
  ensure (bool_decide (row_index < length rows)) InsertOutside ≫= λ _,
  Ok (take row_index rows ++ (mask, thread) :: drop row_index rows).

(** Returns the table without the row, and the removed row. *)
Definition BitmasksTable_remove (rows : table) (row_index : nat) :
    outcome TableError (table * row) :=
  ensure (bool_decide (row_index + 1 ≠ length rows)) RemoveDefault ≫= λ _,
  ensure (bool_decide (row_index + 1 < length rows)) RemoveOutside ≫= λ _,
  match rows !! row_index with
  | Some r => Ok (take row_index rows ++ drop (S row_index) rows, r)
  | None => Panic
  end.

Definition BitmasksTable_len (rows : table) : nat := length rows.

(** Invariant: the last row is a catch-all. *)
Definition BitmasksTable_wf (rows : table) : Prop :=
  ∃ t, last rows = Some (Bitmask_default, t).
End table.

(** ** Threads table *)
#[global] Instance AccountRouting_bits : BitsSource AccountRouting := {
  bits_and := AccountRouting_bitand;
  bits_default := AccountRouting_default;
}.

Notation ThreadsRow := (Bitmask AccountRouting * ThreadIdentifier)%type.
Notation ThreadsTable := (list ThreadsRow).

Definition ThreadsTable_default : ThreadsTable := BitmasksTable_new ThreadIdentifier_default.

Definition default_row : ThreadsRow := (Bitmask_default, ThreadIdentifier_default).

Inductive MergeError :=
  | SelfDefaultRow      (* first ensure! of merge *)
  | AnotherDefaultRow   (* second ensure! of merge *)
  | MaskMismatch        (* ensure!(&mask == mask2) *)
  | MergeInsert (e : TableError).

(** [insert_above(0, ..)?] on the table under construction. *)
Definition merge_push (merged : ThreadsTable) (r : ThreadsRow) : outcome MergeError ThreadsTable :=
  match BitmasksTable_insert_above merged 0 r.1 r.2 with
  | Ok t => Ok t
  | Err e => Err (MergeInsert e)
  | Panic => Panic
  end.

(** The [while] loop of [ThreadsTable::merge].  The two vectors are used as stacks: the head
    of each list is the [last] element of the vector.  Every iteration pops at least one
    row, so [length self_rows + length another_rows] iterations are enough. *)
Fixpoint merge_loop (fuel : nat) (self_rows another_rows : list ThreadsRow)
    (merged : ThreadsTable) : outcome MergeError ThreadsTable :=
  match fuel with
  | O => Ok merged
  | S fuel =>
      match self_rows, another_rows with
      | [], [] => Ok merged
      | r :: self_rest, [] =>
          merge_push merged r ≫= merge_loop fuel self_rest []
      | (mask, thread_id) :: self_rest, (mask2, thread_id2) :: another_rest =>
          if bool_decide (thread_id = thread_id2) then
            ensure (bool_decide (mask = mask2)) MaskMismatch ≫= λ _,
            merge_push merged (mask, thread_id) ≫= merge_loop fuel self_rest another_rest
          else if existsb (λ r, bool_decide (r.2 = thread_id2)) self_rows then
            merge_push merged (mask, thread_id) ≫= merge_loop fuel self_rest another_rows
          else if existsb (λ r, bool_decide (r.2 = thread_id)) another_rows then
            merge_push merged (mask2, thread_id2) ≫= merge_loop fuel self_rows another_rest
          else
            merge_push merged (mask, thread_id) ≫= merge_loop fuel self_rest another_rows
      | [], r :: another_rest =>
          merge_push merged r ≫= merge_loop fuel [] another_rest
      end
  end.

Definition ThreadsTable_merge (self another : ThreadsTable) : outcome MergeError ThreadsTable :=
  let self_rows := reverse self in
  let another_rows := reverse another in
  ensure (bool_decide (head self_rows = Some default_row)) SelfDefaultRow ≫= λ _,
  ensure (bool_decide (head another_rows = Some default_row)) AnotherDefaultRow ≫= λ _,
  merge_loop (length self_rows + length another_rows) (tail self_rows) (tail another_rows)
    ThreadsTable_default.

(** [list_threads]: the set of threads of the table. *)
Definition ThreadsTable_list_threads (rows : ThreadsTable) : gset ThreadIdentifier :=
  list_to_set (snd <$> rows).

Definition ThreadsTable_length (rows : ThreadsTable) : nat := length rows.

(** ** The laws for account routings *)
#[global] Instance AccountRouting_bits_laws : BitsLaws AccountRouting.
Proof.
  refine {| bits_wf := AccountRouting_wf; bits_count := 512; bit_of := routing_bit |}.
  - apply AccountRouting_bitand_wf.
  - apply routing_bit_bitand.
  - apply AccountRouting_ext.
  - split; split; vm_compute; by repeat constructor.
  - intros i Hi. unfold routing_bit, addr_bit. cbn [bits_default AccountRouting_bits
      AccountRouting_default routing_dapp routing_account dapp_address AccountAddress_default
      account_bytes].
    case_bool_decide; rewrite nth_lookup, lookup_replicate_2;
      (apply Z.testbit_0_l || (apply Nat.Div0.div_lt_upper_bound; lia)).
Defined.

(** ** Masks *)
Section mask_lemmas.
Context {A : Type} `{BitsLaws A} `{!EqDecision A}.

(** A mask matches exactly the values that agree with it on the meaningful bits. *)
Lemma Bitmask_is_match_spec (m : Bitmask A) (a : A) :
  bits_wf (mask_bits m) → bits_wf (meaningful_mask_bits m) → bits_wf a →
  Bitmask_is_match m a = true ↔
  ∀ i, i < bits_count → bit_of (meaningful_mask_bits m) i = true →
       bit_of a i = bit_of (mask_bits m) i.
Proof.
  intros Wm Wk Wa. unfold Bitmask_is_match. rewrite bool_decide_eq_true. split.
  - intros Heq i Hi Hk. apply (f_equal (λ x, bit_of x i)) in Heq.
    rewrite !bits_and_spec, Hk, !andb_true_r in Heq by done. done.
  - intros Hbits. apply bits_ext; [by apply bits_and_wf..|].
    intros i Hi. rewrite !bits_and_spec by done.
    destruct (bit_of (meaningful_mask_bits m) i) eqn:Hk; [|by rewrite !andb_false_r].
    by rewrite Hbits.
Qed.

Lemma Bitmask_default_matches (a : A) : bits_wf a → Bitmask_is_match Bitmask_default a = true.
Proof.
  intros Wa. apply Bitmask_is_match_spec; [apply bits_default_wf..|done|].
  intros i Hi. simpl. by rewrite bits_default_spec.
Qed.
End mask_lemmas.

Section table_lemmas.
Context {A T : Type} `{BitsLaws A} `{!EqDecision A, !EqDecision T}.
Implicit Types rows : list (Bitmask A * T).

Lemma find_match_app {E} rows1 rows2 (a : A) :
  BitmasksTable_find_match (E := E) (rows1 ++ rows2) a =
    match BitmasksTable_find_match (E := E) rows1 a with
    | Ok t => Ok t
    | _ => BitmasksTable_find_match rows2 a
    end.
Proof. induction rows1 as [|[m t] rows1 IH]; simpl; [done|]. by destruct (Bitmask_is_match m a). Qed.

Lemma find_match_not_Err {E} rows (a : A) e : BitmasksTable_find_match (E := E) rows a ≠ Err e.
Proof. induction rows as [|[m t] rows IH]; simpl; [done|]. by destruct (Bitmask_is_match m a). Qed.

Lemma find_match_Ok {E} rows (a : A) t :
  BitmasksTable_find_match (E := E) rows a = Ok t ↔
  ∃ i m, rows !! i = Some (m, t) ∧ Bitmask_is_match m a = true ∧
    ∀ j m' t', j < i → rows !! j = Some (m', t') → Bitmask_is_match m' a = false.
Proof.
  induction rows as [|[m t0] rows IH]; simpl.
  - split; [done|]. by intros (i & m & ? & _).
  - destruct (Bitmask_is_match m a) eqn:Hm.
    + split.
      * intros [= <-]. exists 0, m. split; [done|]. split; [done|]. lia.
      * intros ([|i] & m' & Hl & Hm' & Hbefore); [by injection Hl as <- <-|].
        by rewrite (Hbefore 0 m t0 ltac:(lia) eq_refl) in Hm.
    + rewrite IH. split.
      * intros (i & m' & Hl & Hm' & Hb). exists (S i), m'. split; [done|]. split; [done|].
        intros [|j] m'' t'' Hj Hl'; [by injection Hl' as <- <-|]. apply (Hb j m'' t''); [lia|done].
      * intros ([|i] & m' & Hl & Hm' & Hb); [injection Hl as <- <-; congruence|].
        exists i, m'. split; [done|]. split; [done|].
        intros j m'' t'' Hj. apply (Hb (S j)). lia.
Qed.

Lemma wf_find_match_Ok {E} rows (a : A) :
  BitmasksTable_wf rows → bits_wf a → ∃ t, BitmasksTable_find_match (E := E) rows a = Ok t.
Proof.
  intros [t Hl] Wa. apply last_Some in Hl as [rows' ->]. rewrite find_match_app.
  destruct (BitmasksTable_find_match rows' a) as [t'| |]; eauto; simpl;
    rewrite Bitmask_default_matches by done; eauto.
Qed.

Lemma insert_above_Ok rows i m t rows' :
  BitmasksTable_insert_above rows i m t = Ok rows' ↔
  i < length rows ∧ rows' = take i rows ++ (m, t) :: drop i rows.
Proof.
  unfold BitmasksTable_insert_above, ensure.
  repeat case_bool_decide; simpl; naive_solver lia.
Qed.

Lemma insert_above_wf rows i m t rows' :
  BitmasksTable_wf rows → BitmasksTable_insert_above rows i m t = Ok rows' →
  BitmasksTable_wf rows'.
Proof.
  intros [td Hl] [Hi ->]%insert_above_Ok. exists td.
  rewrite last_app. simpl. rewrite <- (take_drop i rows), last_app in Hl.
  destruct (drop i rows) eqn:Hd; [|done].
  apply (f_equal length) in Hd. rewrite length_drop in Hd. simpl in Hd. lia.
Qed.

Lemma remove_Ok rows i rows' r :
  BitmasksTable_remove rows i = Ok (rows', r) ↔
  i + 1 < length rows ∧ rows !! i = Some r ∧ rows' = take i rows ++ drop (S i) rows.
Proof.
  unfold BitmasksTable_remove, ensure.
  repeat case_bool_decide; simpl; destruct (rows !! i) eqn:Hl; naive_solver lia.
Qed.

Lemma remove_wf rows i rows' r :
  BitmasksTable_wf rows → BitmasksTable_remove rows i = Ok (rows', r) → BitmasksTable_wf rows'.
Proof.
  intros [td Hl] (Hi & _ & ->)%remove_Ok. exists td.
  rewrite last_app. rewrite <- (take_drop (S i) rows), last_app in Hl.
  destruct (drop (S i) rows) as [|x xs] eqn:Hd;
    [|rewrite last_cons in *; by destruct (last xs)].
  apply (f_equal length) in Hd. rewrite length_drop in Hd. simpl in Hd. lia.
Qed.
End table_lemmas.

#[export] Hint Resolve insert_above_wf remove_wf : ackinacki.

(** The mask specification at the bit source the node uses. *)
Lemma routing_mask_match (m : Bitmask AccountRouting) r :
  AccountRouting_wf (mask_bits m) → AccountRouting_wf (meaningful_mask_bits m) →
  AccountRouting_wf r →
  Bitmask_is_match m r = true ↔
  ∀ i, i < 512 → routing_bit (meaningful_mask_bits m) i = true →
       routing_bit r i = routing_bit (mask_bits m) i.
Proof. apply (Bitmask_is_match_spec (H0 := AccountRouting_bits_laws)). Qed.

(** BitmasksTable::find_match on a threads table: with the catch-all row at the bottom,
    routing never panics; the returned thread is the target of the first row whose mask
    agrees with the account on every meaningful bit, and of no later row. *)
Theorem threads_table_routes_first_match (rows : ThreadsTable) r :
  BitmasksTable_wf rows → AccountRouting_wf r →
  (∀ row, row ∈ rows → AccountRouting_wf (mask_bits row.1) ∧
                       AccountRouting_wf (meaningful_mask_bits row.1)) →
  ∃ i m t, BitmasksTable_find_match (E := Empty_set) rows r = Ok t ∧ rows !! i = Some (m, t) ∧
    (∀ k, k < 512 → routing_bit (meaningful_mask_bits m) k = true →
          routing_bit r k = routing_bit (mask_bits m) k) ∧
    (∀ j m' t', j < i → rows !! j = Some (m', t') →
       ∃ k, k < 512 ∧ routing_bit (meaningful_mask_bits m') k = true ∧
            routing_bit r k ≠ routing_bit (mask_bits m') k).
Proof.
  intros Hwf Wr Wrows.
  destruct (wf_find_match_Ok (E := Empty_set) (H0 := AccountRouting_bits_laws) rows r Hwf Wr)
    as [t Ht].
  pose proof Ht as (i & m & Hi & Hm & Hbefore)%find_match_Ok.
  exists i, m, t. split; [done|]. split; [done|]. split.
  - destruct (Wrows (m, t)) as [W1 W2]; [by eapply list_elem_of_lookup_2|].
    by apply routing_mask_match.
  - intros j m' t' Hj Hl. destruct (Wrows (m', t')) as [W1 W2]; [by eapply list_elem_of_lookup_2|].
    pose proof (Hbefore j m' t' Hj Hl) as Hno. simpl in W1, W2.
    set (differs := λ k, k < 512 ∧ routing_bit (meaningful_mask_bits m') k = true ∧
                         routing_bit r k ≠ routing_bit (mask_bits m') k).
    destruct (decide (Exists differs (seq 0 512))) as [He|Hn].
    + apply Exists_exists in He as (k & _ & Hk). by exists k.
    + assert (Bitmask_is_match m' r = true) as Hyes; [|congruence].
      apply routing_mask_match; [done..|]. intros k Hk Hmk.
      destruct (decide (routing_bit r k = routing_bit (mask_bits m') k)) as [|Hd]; [done|].
      exfalso. apply Hn, Exists_exists. exists k. split; [|done].
      apply elem_of_seq. lia.
Qed.

Definition example_table : ThreadsTable :=
  [(mkBitmask (Routing (DAppId AccountAddress_default) (AccountAddr (128%Z :: replicate 31 0%Z)))
              (Routing (DAppId AccountAddress_default) (AccountAddr (128%Z :: replicate 31 0%Z))),
    ThreadIdentifier_new BlockIdentifier_default 1);
   default_row].

Lemma threads_table_routes_first_match_witness :
  ∃ i m t, BitmasksTable_find_match (E := Empty_set) example_table AccountRouting_default = Ok t ∧
    example_table !! i = Some (m, t) ∧
    (∀ k, k < 512 → routing_bit (meaningful_mask_bits m) k = true →
          routing_bit AccountRouting_default k = routing_bit (mask_bits m) k) ∧
    (∀ j m' t', j < i → example_table !! j = Some (m', t') →
       ∃ k, k < 512 ∧ routing_bit (meaningful_mask_bits m') k = true ∧
            routing_bit AccountRouting_default k ≠ routing_bit (mask_bits m') k).
Proof.
  apply (threads_table_routes_first_match example_table AccountRouting_default).
  - by exists ThreadIdentifier_default.
  - apply (bits_default_wf (BitsLaws := AccountRouting_bits_laws)).
  - apply Forall_forall. repeat constructor; simpl; vm_compute; done.
Defined.

(** BitmasksTable::insert_above: inserting a rule succeeds exactly when the index
    is inside the table (never below the default row), keeps the catch-all row last, and
    changes the routing of an account only if the new mask matches it and no row above the
    insertion point does. *)
Theorem insert_above_routing (rows : ThreadsTable) i m t :
  match BitmasksTable_insert_above rows i m t with
  | Ok rows' =>
      i < length rows ∧
      (BitmasksTable_wf rows → BitmasksTable_wf rows') ∧
      ∀ r, BitmasksTable_find_match (E := Empty_set) rows' r =
           match BitmasksTable_find_match (E := Empty_set) (take i rows) r with
           | Ok t' => Ok t'
           | _ => if Bitmask_is_match m r then Ok t
                  else BitmasksTable_find_match rows r
           end
  | Err e => e = (if bool_decide (i = length rows) then InsertBelowDefault else InsertOutside) ∧
             length rows ≤ i
  | Panic => False
  end.
Proof.
  destruct (BitmasksTable_insert_above rows i m t) as [rows'|e|] eqn:Hins.
  - pose proof Hins as [Hi ->]%insert_above_Ok. split; [done|].
    split; [intros Hwf; eauto with ackinacki|]. intros r.
    pose proof (find_match_app (E := Empty_set) (take i rows) (drop i rows) r) as Hsplit.
    rewrite take_drop in Hsplit. rewrite Hsplit, find_match_app. simpl.
    by destruct (BitmasksTable_find_match (take i rows) r), (Bitmask_is_match m r).
  - revert Hins. unfold BitmasksTable_insert_above, ensure.
    repeat case_bool_decide; simpl; intros; simplify_eq; split; (done || lia).
  - revert Hins. unfold BitmasksTable_insert_above, ensure.
    by repeat case_bool_decide.
Qed.

(** BitmasksTable::remove: [remove] undoes [insert_above] at the same index and returns
    the inserted rule; it refuses the default row and any index past it. *)
Theorem remove_insert_above (rows : ThreadsTable) i m t :
  i < length rows →
  (∃ rows', BitmasksTable_insert_above rows i m t = Ok rows' ∧
            BitmasksTable_remove rows' i = Ok (rows, (m, t))) ∧
  BitmasksTable_remove rows (length rows - 1) = Err RemoveDefault ∧
  (∀ j, length rows ≤ j → BitmasksTable_remove rows j = Err RemoveOutside).
Proof.
  intros Hi. split_and!.
  - eexists. split; [by apply insert_above_Ok|]. apply remove_Ok.
    rewrite length_app, length_take_le by lia. cbn [length]. rewrite length_drop.
    split; [lia|].
    rewrite lookup_app_r by (rewrite length_take_le; lia).
    rewrite length_take_le, Nat.sub_diag by lia. split; [done|].
    rewrite take_app_length', drop_app_ge by (rewrite length_take_le; lia).
    rewrite length_take_le by lia. replace (S i - i) with 1 by lia. simpl.
    by rewrite drop_0, take_drop.
  - unfold BitmasksTable_remove, ensure. by rewrite (bool_decide_false (_ ≠ _)) by lia.
  - intros j Hj. unfold BitmasksTable_remove, ensure.
    by rewrite (bool_decide_true (_ ≠ _)), (bool_decide_false (_ < _)) by lia.
Qed.

Lemma remove_insert_above_witness :
  (∃ rows', BitmasksTable_insert_above example_table 1 Bitmask_default ThreadIdentifier_default
              = Ok rows' ∧
            BitmasksTable_remove rows' 1 =
              Ok (example_table, (Bitmask_default, ThreadIdentifier_default))) ∧
  BitmasksTable_remove example_table (length example_table - 1) = Err RemoveDefault ∧
  (∀ j, length example_table ≤ j → BitmasksTable_remove example_table j = Err RemoveOutside).
Proof.
  apply (remove_insert_above example_table 1 Bitmask_default ThreadIdentifier_default).
  simpl. lia.
Defined.

(** ** Merging threads tables *)
Lemma merge_push_Ok merged r : merged ≠ [] → merge_push merged r = Ok (r :: merged).
Proof. by destruct merged, r. Qed.

(** What the loop maintains: the rows of both inputs, in order, on top of [merged]. *)
Definition merge_spec (s a : list ThreadsRow) (merged res : ThreadsTable) : Prop :=
  ∃ prefix, res = prefix ++ merged ∧ reverse s `sublist_of` prefix ∧
    reverse a `sublist_of` prefix ∧ ∀ r, r ∈ prefix → r ∈ s ∨ r ∈ a.

Lemma merge_spec_both r s a merged res :
  merge_spec s a (r :: merged) res → merge_spec (r :: s) (r :: a) merged res.
Proof.
  intros (pre & -> & Hs & Ha & Hin). exists (pre ++ [r]). rewrite <- app_assoc.
  rewrite !reverse_cons. split_and!; [done|by apply sublist_app..|set_solver].
Qed.

Lemma merge_spec_self r s a merged res :
  merge_spec s a (r :: merged) res → merge_spec (r :: s) a merged res.
Proof.
  intros (pre & -> & Hs & Ha & Hin). exists (pre ++ [r]). rewrite <- app_assoc, reverse_cons.
  split_and!; [done|by apply sublist_app|by apply sublist_inserts_r|set_solver].
Qed.

Lemma merge_spec_another r s a merged res :
  merge_spec s a (r :: merged) res → merge_spec s (r :: a) merged res.
Proof.
  intros (pre & -> & Hs & Ha & Hin). exists (pre ++ [r]). rewrite <- app_assoc, reverse_cons.
  split_and!; [done|by apply sublist_inserts_r|by apply sublist_app|set_solver].
Qed.

Lemma merge_spec_nil merged : merge_spec [] [] merged merged.
Proof. exists []. rewrite reverse_nil. split_and!; [done..|set_solver]. Qed.

#[local] Hint Resolve merge_spec_both merge_spec_self merge_spec_another merge_spec_nil : merge.

Lemma merge_loop_spec fuel s a merged :
  length s + length a ≤ fuel → merged ≠ [] →
  match merge_loop fuel s a merged with
  | Ok res => merge_spec s a merged res
  | Err e => e = MaskMismatch ∧ ∃ m m2 t, (m, t) ∈ s ∧ (m2, t) ∈ a ∧ m ≠ m2
  | Panic => False
  end.
Proof.
  revert s a merged. induction fuel as [|fuel IH]; intros s a merged Hf Hm.
  { destruct s, a; simpl in *; try lia. eauto with merge. }
  destruct s as [|[m t] s], a as [|[m2 t2] a]; cbn [merge_loop]; cbn [length] in Hf;
    [eauto with merge|rewrite merge_push_Ok by done; cbn..|].
  - specialize (IH [] a ((m2, t2) :: merged) ltac:(simpl; lia) ltac:(done)).
    destruct (merge_loop _ _ _ _); [eauto with merge|set_solver|done].
  - specialize (IH s [] ((m, t) :: merged) ltac:(simpl; lia) ltac:(done)).
    destruct (merge_loop _ _ _ _); [eauto with merge|set_solver|done].
  - case_bool_decide as Ht; [subst t2|].
    + case_bool_decide as Hmm; cbn; [subst m2|split; [done|]; exists m, m2, t; set_solver].
      rewrite merge_push_Ok by done. cbn.
      specialize (IH s a ((m, t) :: merged) ltac:(lia) ltac:(done)).
      destruct (merge_loop _ _ _ _); [eauto with merge|set_solver|done].
    + destruct (existsb _ ((m, t) :: s)); [|destruct (existsb _ ((m2, t2) :: a))];
        rewrite merge_push_Ok by done; cbn.
      1, 3: specialize (IH s ((m2, t2) :: a) ((m, t) :: merged) ltac:(simpl; lia) ltac:(done));
        destruct (merge_loop _ _ _ _); [eauto with merge|set_solver|done].
      specialize (IH ((m, t) :: s) a ((m2, t2) :: merged) ltac:(simpl; lia) ltac:(done)).
      destruct (merge_loop _ _ _ _); [eauto with merge|set_solver|done].
Qed.

Lemma merge_loop_self fuel s merged :
  length s ≤ fuel → merged ≠ [] → merge_loop fuel s s merged = Ok (reverse s ++ merged).
Proof.
  revert s merged. induction fuel as [|fuel IH]; intros [|[m t] s] merged Hf Hm;
    cbn [length] in Hf; try lia; [done..|].
  rewrite reverse_cons, <- app_assoc. cbn [merge_loop]. rewrite !bool_decide_true by done.
  cbn [ensure mbind outcome_bind]. rewrite merge_push_Ok by done. cbn [mbind outcome_bind].
  rewrite IH by (done || lia). done.
Qed.

Lemma default_row_head (rows : ThreadsTable) :
  head (reverse rows) = Some default_row ↔ ∃ rows', rows = rows' ++ [default_row].
Proof. rewrite head_reverse. apply last_Some. Qed.

Lemma tail_reverse_snoc (rows : ThreadsTable) r : tail (reverse (rows ++ [r])) = reverse rows.
Proof. by rewrite reverse_snoc. Qed.

(** ThreadsTable::merge: for tables that end with the default row the merge terminates
    without panicking; it fails only when the two tables give different masks to the same
    thread; otherwise the result ends with the default row, contains the rows of each input
    in their order, contains nothing else, and lists exactly the threads of both inputs. *)
Theorem threads_table_merge_spec self another :
  let t1 := self ++ [default_row] in
  let t2 := another ++ [default_row] in
  match ThreadsTable_merge t1 t2 with
  | Ok res =>
      ∃ rows, res = rows ++ [default_row] ∧ self `sublist_of` rows ∧ another `sublist_of` rows ∧
        (∀ r, r ∈ rows → r ∈ self ∨ r ∈ another) ∧
        ThreadsTable_list_threads res =
          ThreadsTable_list_threads t1 ∪ ThreadsTable_list_threads t2
  | Err e => e = MaskMismatch ∧
      ∃ m m2 t, (m, t) ∈ self ∧ (m2, t) ∈ another ∧ m ≠ m2
  | Panic => False
  end.
Proof.
  intros t1 t2. unfold ThreadsTable_merge.
  rewrite !bool_decide_true by (apply default_row_head; eauto).
  cbn [ensure mbind outcome_bind]. subst t1 t2. rewrite !tail_reverse_snoc.
  pose proof (merge_loop_spec (length (reverse (self ++ [default_row])) +
    length (reverse (another ++ [default_row]))) (reverse self) (reverse another)
    ThreadsTable_default) as Hspec.
  specialize (Hspec ltac:(rewrite !length_reverse, !length_app; lia) ltac:(done)).
  destruct (merge_loop _ _ _ _) as [res|e|]; [|by setoid_rewrite elem_of_reverse in Hspec|done].
  destruct Hspec as (rows & -> & Hs & Ha & Hin). rewrite !reverse_involutive in *.
  setoid_rewrite elem_of_reverse in Hin.
  exists rows. split_and!; [done..|]. unfold ThreadsTable_list_threads.
  rewrite !fmap_app, !list_to_set_app_L. apply set_eq. intros t.
  assert (t ∈ rows.*2 ↔ t ∈ self.*2 ∨ t ∈ another.*2) as Hrows.
  { rewrite !list_elem_of_fmap. split.
    - intros (r & -> & [?|?]%Hin); [left|right]; eauto.
    - intros [(r & -> & Hr)|(r & -> & Hr)]; exists r; (split; [done|]).
      + by apply (sublist_subseteq _ _ Hs).
      + by apply (sublist_subseteq _ _ Ha). }
  change ThreadsTable_default with [default_row].
  rewrite !elem_of_union, !elem_of_list_to_set, Hrows. tauto.
Qed.

(** [ThreadsTable::merge]: merging a table with itself changes nothing. *)
Theorem threads_table_merge_idempotent self :
  ThreadsTable_merge (self ++ [default_row]) (self ++ [default_row]) = Ok (self ++ [default_row]).
Proof.
  unfold ThreadsTable_merge.
  rewrite !bool_decide_true by (apply default_row_head; eauto).
  cbn [ensure mbind outcome_bind]. rewrite !tail_reverse_snoc.
  rewrite merge_loop_self, reverse_involutive; [done| |done].
  rewrite !length_reverse, !length_app. lia.
Qed.
