(* ===== verification/FixedCache.v ===== *)
(** * Fixed-size hash map and set

    Models [utilities/fixed_size_hash_map.rs] and [utilities/fixed_size_hash_set.rs]: bounded
    containers that evict in insertion order through a ring buffer of keys.  The abstract
    specification is a bounded FIFO queue of entries, and the ring buffer refines it. *)
From stdpp Require Import base numbers gmap strings fin_maps sorting list.
From S2P Require Import Prelude.

Record FixedSizeHashMap (K V : Type) `{Countable K} := mkFixedSizeHashMap {
  fm_capacity : nat;
  fm_blocks : gmap K V;
  fm_eviction_order : list K;
  fm_eviction_order_cursor : nat;
}.
Arguments mkFixedSizeHashMap {K V _ _} _ _ _ _.
Arguments fm_capacity {K V _ _} _.
Arguments fm_blocks {K V _ _} _.
Arguments fm_eviction_order {K V _ _} _.
Arguments fm_eviction_order_cursor {K V _ _} _.

Section map_ops.
Context {K V : Type} `{Countable K}.
Implicit Types (m : FixedSizeHashMap K V) (id : K) (v : V).

Definition FixedSizeHashMap_new (capacity : nat) : FixedSizeHashMap K V :=
  mkFixedSizeHashMap capacity ∅ [] 0.

Definition FixedSizeHashMap_contains_key m id : bool := bool_decide (is_Some (fm_blocks m !! id)).

Definition FixedSizeHashMap_get m id : option V := fm_blocks m !! id.

(** Indexing [eviction_order[cursor]] out of bounds panics (a map of capacity zero). *)
Definition FixedSizeHashMap_insert {E} m id v : outcome E (FixedSizeHashMap K V) :=
  if FixedSizeHashMap_contains_key m id then Ok m
  else if bool_decide (length (fm_eviction_order m) < fm_capacity m) then
    Ok (mkFixedSizeHashMap (fm_capacity m) (<[id:=v]> (fm_blocks m))
          (fm_eviction_order m ++ [id]) (fm_eviction_order_cursor m))
  else
    match fm_eviction_order m !! fm_eviction_order_cursor m with
    | None => Panic
    | Some evicted =>
        let cursor := fm_eviction_order_cursor m + 1 in
        Ok (mkFixedSizeHashMap (fm_capacity m)
              (<[id:=v]> (delete evicted (fm_blocks m)))
              (<[fm_eviction_order_cursor m := id]> (fm_eviction_order m))
              (if bool_decide (fm_capacity m ≤ cursor) then 0 else cursor))
    end.
End map_ops.

(** The set is the same structure without values. *)
Record FixedSizeHashSet (T : Type) `{Countable T} := mkFixedSizeHashSet {
  fs_capacity : nat;
  fs_blocks : gset T;
  fs_eviction_order : list T;
  fs_eviction_order_cursor : nat;
}.
Arguments mkFixedSizeHashSet {T _ _} _ _ _ _.
Arguments fs_capacity {T _ _} _.
Arguments fs_blocks {T _ _} _.
Arguments fs_eviction_order {T _ _} _.
Arguments fs_eviction_order_cursor {T _ _} _.

Section set_ops.
Context {T : Type} `{Countable T}.
Implicit Types (s : FixedSizeHashSet T) (id : T).

Definition FixedSizeHashSet_new (capacity : nat) : FixedSizeHashSet T :=
  mkFixedSizeHashSet capacity ∅ [] 0.

Definition FixedSizeHashSet_contains s id : bool := bool_decide (id ∈ fs_blocks s).

Definition FixedSizeHashSet_insert {E} s id : outcome E (FixedSizeHashSet T) :=
  if FixedSizeHashSet_contains s id then Ok s
  else if bool_decide (length (fs_eviction_order s) < fs_capacity s) then
    Ok (mkFixedSizeHashSet (fs_capacity s) ({[id]} ∪ fs_blocks s)
          (fs_eviction_order s ++ [id]) (fs_eviction_order_cursor s))
  else
    match fs_eviction_order s !! fs_eviction_order_cursor s with
    | None => Panic
    | Some evicted =>
        let cursor := fs_eviction_order_cursor s + 1 in
        Ok (mkFixedSizeHashSet (fs_capacity s)
              ({[id]} ∪ (fs_blocks s ∖ {[evicted]}))
              (<[fs_eviction_order_cursor s := id]> (fs_eviction_order s))
              (if bool_decide (fs_capacity s ≤ cursor) then 0 else cursor))
    end.
End set_ops.

(** ** Specification: a bounded FIFO queue of keys, oldest first *)
Definition fifo_insert {K} `{EqDecision K} (capacity : nat) (q : list K) (id : K) : list K :=
  if bool_decide (id ∈ q) then q
  else (if bool_decide (length q < capacity) then q else tail q) ++ [id].

Section ring.
Context {K : Type} `{EqDecision K}.

(** Keys of a ring buffer in insertion order. *)
Definition ring_queue (order : list K) (cursor : nat) : list K :=
  drop cursor order ++ take cursor order.

(** The ring buffer is only overwritten once it is full. *)
Definition ring_wf (capacity : nat) (order : list K) (cursor : nat) : Prop :=
  NoDup order ∧ length order ≤ capacity ∧
  (length order < capacity → cursor = 0) ∧ (0 < capacity → cursor < capacity).

Lemma ring_queue_perm order cursor : ring_queue order cursor ≡ₚ order.
Proof. unfold ring_queue. by rewrite (Permutation_app_comm _ _), take_drop. Qed.

Lemma ring_queue_elem order cursor id : id ∈ ring_queue order cursor ↔ id ∈ order.
Proof. by rewrite ring_queue_perm. Qed.

Lemma ring_queue_length order cursor : length (ring_queue order cursor) = length order.
Proof. apply Permutation_length, ring_queue_perm. Qed.

Lemma elem_of_insert_NoDup (order : list K) i id evicted k :
  NoDup order → order !! i = Some evicted →
  k ∈ <[i := id]> order ↔ k = id ∨ (k ∈ order ∧ k ≠ evicted).
Proof.
  intros Hnd Hev. rewrite !list_elem_of_lookup. split.
  - intros [j Hj]. destruct (decide (i = j)) as [->|Hne].
    + rewrite list_lookup_insert_eq in Hj by by eapply lookup_lt_Some. naive_solver.
    + rewrite list_lookup_insert_ne in Hj by done. right. split; [eauto|].
      intros ->. by apply Hne, (NoDup_lookup order i j evicted).
  - intros [->|[[j Hj] Hne]].
    + exists i. apply list_lookup_insert_eq. by eapply lookup_lt_Some.
    + exists j. rewrite list_lookup_insert_ne; [done|]. intros ->. congruence.
Qed.

(** Appending to a ring that is not full. *)
Lemma ring_push_spec capacity order cursor id :
  ring_wf capacity order cursor → length order < capacity → id ∉ order →
  ring_wf capacity (order ++ [id]) cursor ∧
  ring_queue (order ++ [id]) cursor = fifo_insert capacity (ring_queue order cursor) id.
Proof.
  intros (Hnd & Hle & Hz & Hlt) Hl Hid. rewrite (Hz Hl) in *. split.
  - unfold ring_wf. rewrite length_app. simpl. split_and!; [|lia..].
    apply NoDup_app. split_and!; [done|set_solver|apply NoDup_singleton].
  - unfold fifo_insert. rewrite bool_decide_false by by rewrite ring_queue_elem.
    rewrite bool_decide_true by by rewrite ring_queue_length.
    unfold ring_queue. by rewrite !drop_0, !take_0, !app_nil_r.
Qed.

(** Overwriting the oldest key of a full ring. *)
Lemma ring_replace_spec capacity order cursor id evicted :
  ring_wf capacity order cursor → capacity ≤ length order → id ∉ order →
  order !! cursor = Some evicted →
  let cursor' := if bool_decide (capacity ≤ cursor + 1) then 0 else cursor + 1 in
  ring_wf capacity (<[cursor := id]> order) cursor' ∧
  ring_queue (<[cursor := id]> order) cursor' =
    fifo_insert capacity (ring_queue order cursor) id ∧
  head (ring_queue order cursor) = Some evicted.
Proof.
  intros (Hnd & Hle & Hz & Hlt) Hfull Hid Hev cursor'.
  pose proof (lookup_lt_Some _ _ _ Hev) as Hc.
  pose proof (take_drop_middle _ _ _ Hev) as Hsplit.
  assert (ring_queue order cursor = evicted :: drop (S cursor) order ++ take cursor order) as Hq.
  { unfold ring_queue. by rewrite (drop_S order evicted cursor Hev). }
  assert (ring_queue (<[cursor := id]> order) cursor' =
          drop (S cursor) order ++ take cursor order ++ [id]) as Hq'.
  { rewrite insert_take_drop by done. unfold ring_queue, cursor'. case_bool_decide.
    - rewrite drop_0, take_0, app_nil_r. rewrite (drop_ge order (S cursor)) by lia. done.
    - rewrite drop_app_ge by (rewrite length_take; lia).
      rewrite take_app_ge by (rewrite length_take; lia).
      rewrite length_take_le by lia. replace (cursor + 1 - cursor) with 1 by lia.
      simpl. by rewrite drop_0, take_0. }
  split_and!.
  - unfold ring_wf, cursor'. rewrite length_insert.
    split_and!; [|lia|lia|by case_bool_decide; lia].
    rewrite insert_take_drop by done.
    rewrite <- Hsplit in Hnd. rewrite <- Hsplit in Hid.
    apply NoDup_app in Hnd as (H1 & H2 & [H3 H4]%NoDup_cons).
    apply NoDup_app. split_and!; [done|set_solver|].
    apply NoDup_cons. set_solver.
  - rewrite Hq', Hq. unfold fifo_insert.
    rewrite bool_decide_false by (rewrite <- Hq, ring_queue_elem; done).
    rewrite bool_decide_false by (rewrite <- Hq, ring_queue_length; lia).
    simpl. by rewrite <- app_assoc.
  - by rewrite Hq.
Qed.
End ring.

(** ** The map *)
Section map_spec.
Context {K V : Type} `{Countable K}.
Implicit Types (m : FixedSizeHashMap K V) (id : K) (v : V).

Definition FixedSizeHashMap_wf m : Prop :=
  ring_wf (fm_capacity m) (fm_eviction_order m) (fm_eviction_order_cursor m) ∧
  dom (fm_blocks m) = list_to_set (fm_eviction_order m).

(** Keys from oldest to newest. *)
Definition fm_queue m : list K :=
  ring_queue (fm_eviction_order m) (fm_eviction_order_cursor m).

Lemma FixedSizeHashMap_new_wf capacity : FixedSizeHashMap_wf (FixedSizeHashMap_new capacity).
Proof.
  split; simpl; [|by rewrite dom_empty_L].
  split_and!; [apply NoDup_nil_2|simpl; lia|done|lia].
Qed.

Lemma fm_wf_elem m id : FixedSizeHashMap_wf m → id ∈ fm_queue m ↔ is_Some (fm_blocks m !! id).
Proof.
  intros [_ Hdom]. unfold fm_queue. rewrite ring_queue_elem.
  by rewrite <- elem_of_dom, Hdom, elem_of_list_to_set.
Qed.

Lemma fm_wf_size m : FixedSizeHashMap_wf m → size (fm_blocks m) = length (fm_eviction_order m).
Proof.
  intros [(Hnd & _) Hdom]. by rewrite <- size_dom, Hdom, size_list_to_set.
Qed.

Lemma fm_full_lookup m :
  FixedSizeHashMap_wf m → 0 < fm_capacity m →
  fm_capacity m ≤ length (fm_eviction_order m) →
  ∃ evicted, fm_eviction_order m !! fm_eviction_order_cursor m = Some evicted.
Proof.
  intros [(_ & Hle & _ & Hlt) _] Hpos Hfull. apply lookup_lt_is_Some_2. specialize (Hlt Hpos). lia.
Qed.

Lemma FixedSizeHashMap_insert_spec {E} m id v :
  FixedSizeHashMap_wf m → 0 < fm_capacity m →
  ∃ m', FixedSizeHashMap_insert (E := E) m id v = Ok m' ∧
    FixedSizeHashMap_wf m' ∧ fm_capacity m' = fm_capacity m ∧
    fm_queue m' = fifo_insert (fm_capacity m) (fm_queue m) id ∧
    ∀ k, FixedSizeHashMap_get m' k =
      if decide (k ∈ fm_queue m') then
        if decide (k = id ∧ id ∉ fm_queue m) then Some v else FixedSizeHashMap_get m k
      else None.
Proof.
  intros Hwf Hpos. pose proof Hwf as [Hring Hdom].
  unfold FixedSizeHashMap_insert, FixedSizeHashMap_contains_key, FixedSizeHashMap_get.
  assert (∀ k, fm_blocks m !! k = None ↔ k ∉ fm_eviction_order m) as HNone.
  { intros k. rewrite <- not_elem_of_dom, Hdom. by rewrite not_elem_of_list_to_set. }
  case_bool_decide as Hmem.
  { exists m. split_and!; [done..| |].
    - unfold fifo_insert. by rewrite bool_decide_true by by apply fm_wf_elem.
    - intros k. destruct (decide (k ∈ fm_queue m)) as [Hk|Hk].
      + destruct (decide (k = id ∧ _)) as [[-> Hn]|]; [|done]. by rewrite fm_wf_elem in Hn.
      + rewrite fm_wf_elem in Hk by done. by apply eq_None_not_Some. }
  apply eq_None_not_Some in Hmem. pose proof Hmem as Hid%HNone.
  assert (id ∉ fm_queue m) as Hidq by by (unfold fm_queue; rewrite ring_queue_elem).
  case_bool_decide as Hlen.
  - destruct (ring_push_spec _ _ _ id Hring Hlen Hid) as [Hring' Hq].
    eexists. split_and!; [done| |done|exact Hq|].
    + split; [done|]. simpl. rewrite dom_insert_L, Hdom, list_to_set_app_L. set_solver.
    + intros k. simpl. rewrite lookup_insert. specialize (HNone k).
      destruct (decide (k ∈ fm_queue _)) as [Hk|Hk];
        unfold fm_queue in Hk; simpl in Hk; rewrite ring_queue_elem in Hk;
        repeat case_decide; set_solver.
  - destruct (fm_full_lookup m Hwf Hpos ltac:(lia)) as [evicted Hev]. rewrite Hev.
    destruct (ring_replace_spec _ _ _ id evicted Hring ltac:(lia) Hid Hev) as (Hring' & Hq & _).
    assert (∀ k, k ∈ <[fm_eviction_order_cursor m:=id]> (fm_eviction_order m) ↔
                 k = id ∨ (k ∈ fm_eviction_order m ∧ k ≠ evicted)) as Helem.
    { intros k. apply elem_of_insert_NoDup; [apply Hring|done]. }
    eexists. split_and!; [done| |done|exact Hq|].
    + split; [done|]. simpl. rewrite dom_insert_L, dom_delete_L, Hdom. apply set_eq. intros k.
      rewrite elem_of_list_to_set, Helem. set_solver.
    + intros k. simpl. rewrite lookup_insert, lookup_delete. specialize (HNone k).
      destruct (decide (k ∈ fm_queue _)) as [Hk|Hk];
        unfold fm_queue in Hk; simpl in Hk; rewrite ring_queue_elem, Helem in Hk;
        repeat case_decide; set_solver.
Qed.
End map_spec.

(** A sequence of insertions. *)
Fixpoint FixedSizeHashMap_run {K V : Type} `{Countable K} {E} (m : FixedSizeHashMap K V)
    (ops : list (K * V)) : outcome E (FixedSizeHashMap K V) :=
  match ops with
  | [] => Ok m
  | (id, v) :: ops => FixedSizeHashMap_insert m id v ≫= λ m', FixedSizeHashMap_run m' ops
  end.

Lemma FixedSizeHashMap_run_spec {K V : Type} `{Countable K} {E} (m : FixedSizeHashMap K V) ops :
  FixedSizeHashMap_wf m → 0 < fm_capacity m →
  ∃ m', FixedSizeHashMap_run (E := E) m ops = Ok m' ∧ FixedSizeHashMap_wf m' ∧
    fm_capacity m' = fm_capacity m ∧
    fm_queue m' = foldl (fifo_insert (fm_capacity m)) (fm_queue m) ops.*1.
Proof.
  revert m. induction ops as [|[id v] ops IH]; intros m Hwf Hpos; simpl; [by eauto|].
  destruct (FixedSizeHashMap_insert_spec (E := E) m id v Hwf Hpos)
    as (m1 & -> & Hwf1 & Hcap & Hq & _).
  simpl. destruct (IH m1 Hwf1 ltac:(lia)) as (m2 & -> & Hwf2 & Hcap2 & Hq2).
  exists m2. rewrite Hq2, Hq, Hcap2, Hcap. done.
Qed.

(** FixedSizeHashMap: any sequence of insertions into a fresh map of positive capacity
    succeeds and the map then holds exactly the keys of the bounded FIFO queue fed with the
    same keys; it never holds more than [capacity] entries, and each insertion evicts at
    most the oldest key, keeps the first value stored for a key, and touches no other key. *)
Theorem fixed_size_map_refines_fifo {K V : Type} `{Countable K} (capacity : nat)
    (ops : list (K * V)) :
  0 < capacity →
  ∃ m, FixedSizeHashMap_run (E := Empty_set) (FixedSizeHashMap_new capacity) ops = Ok m ∧
    fm_queue m = foldl (fifo_insert capacity) [] ops.*1 ∧
    size (fm_blocks m) ≤ capacity ∧
    (∀ k, FixedSizeHashMap_contains_key m k = true ↔ k ∈ fm_queue m) ∧
    ∀ id v, ∃ m', FixedSizeHashMap_insert (E := Empty_set) m id v = Ok m' ∧
      fm_queue m' = fifo_insert capacity (fm_queue m) id ∧
      ∀ k, FixedSizeHashMap_get m' k =
        if decide (k ∈ fm_queue m') then
          if decide (k = id ∧ id ∉ fm_queue m) then Some v else FixedSizeHashMap_get m k
        else None.
Proof.
  intros Hpos.
  destruct (FixedSizeHashMap_run_spec (E := Empty_set) (FixedSizeHashMap_new capacity) ops
              (FixedSizeHashMap_new_wf capacity) Hpos) as (m & -> & Hwf & Hcap & Hq).
  simpl in Hcap. exists m. split_and!; [done|done| | |].
  - rewrite fm_wf_size by done. destruct Hwf as [(_ & Hle & _) _]. lia.
  - intros k. unfold FixedSizeHashMap_contains_key.
    by rewrite bool_decide_eq_true, fm_wf_elem.
  - intros id v. rewrite <- Hcap.
    destruct (FixedSizeHashMap_insert_spec (E := Empty_set) m id v Hwf ltac:(lia))
      as (m' & ? & _ & _ & ? & ?).
    by exists m'.
Qed.

Lemma fixed_size_map_refines_fifo_witness :
  0 < 2 ∧ ∃ m, FixedSizeHashMap_run (E := Empty_set) (FixedSizeHashMap_new 2)
                 [(1, 10); (2, 20); (3, 30)] = Ok m ∧ fm_queue m = [2; 3].
Proof.
  split; [lia|].
  destruct (fixed_size_map_refines_fifo 2 [(1, 10); (2, 20); (3, 30)] ltac:(lia))
    as (m & Hrun & Hq & _).
  exists m. split; [exact Hrun|]. rewrite Hq. vm_compute. reflexivity.
Defined.

(** [FixedSizeHashSet]: the set is the map with its values forgotten: every insertion
    into the set is the insertion into the map, panics of a zero capacity included. *)
Theorem fixed_size_set_is_map_view {K V : Type} `{Countable K} (m : FixedSizeHashMap K V) id v :
  let view m := mkFixedSizeHashSet (fm_capacity m) (dom (fm_blocks m))
                  (fm_eviction_order m) (fm_eviction_order_cursor m) in
  FixedSizeHashSet_contains (view m) id = FixedSizeHashMap_contains_key m id ∧
  FixedSizeHashSet_insert (E := Empty_set) (view m) id =
    view <$> FixedSizeHashMap_insert (E := Empty_set) m id v ∧
  FixedSizeHashMap_insert (E := Empty_set) (FixedSizeHashMap_new 0) id v = Panic.
Proof.
  intros view. assert (FixedSizeHashSet_contains (view m) id = FixedSizeHashMap_contains_key m id)
    as Hc by (apply bool_decide_ext; simpl; apply elem_of_dom).
  split_and!; [done| |done].
  unfold FixedSizeHashSet_insert, FixedSizeHashMap_insert. rewrite Hc.
  destruct (FixedSizeHashMap_contains_key m id); [done|]. simpl.
  case_bool_decide; [simpl; unfold view; simpl; by rewrite dom_insert_L|].
  destruct (fm_eviction_order m !! fm_eviction_order_cursor m); [|done].
  simpl. unfold view. simpl. by rewrite dom_insert_L, dom_delete_L.
Qed.
