(* ===== verification/Statistics.v ===== *)
(** * Finalization statistics

    Models [node/services/statistics/median_descendants_chain_length_to_meet_threshold.rs]:
    a ring of the latest finalization distances and their median, the dynamic parameter
    [beta] of the consensus.  [select_nth_unstable(k)] puts the element of rank [k] of the
    sorted slice at position [k]; it is the [k]-th element of the sorted list. *)
From stdpp Require Import base numbers gmap strings fin_maps sorting list.
From S2P Require Import Prelude.

Record BlockStatistics := mkBlockStatistics {
  stats : list nat;
  stats_cursor : nat;
  median_descendants_chain_length_to_meet_threshold : nat;
}.
#[global] Instance BlockStatistics_eq_dec : EqDecision BlockStatistics.
Proof. solve_decision. Defined.

Definition BlockStatistics_zero (initial_window_size preset : nat) : BlockStatistics :=
  mkBlockStatistics (replicate initial_window_size preset) 0 preset.

(** [slice.select_nth_unstable(k).1]; panics when [k] is out of range. *)
Definition select_nth {E} (l : list nat) (k : nat) : outcome E nat :=
  unwrap (merge_sort (≤) l !! k).

(** [if let Some(resize) = new_window_size { .. }] *)
Definition stats_resize (s : BlockStatistics) (new_window_size : option nat) : BlockStatistics :=
  match new_window_size with
  | Some new_size =>
      let resize_to := if bool_decide (new_size ≠ 0) then new_size else 1 in
      let stats' := resize resize_to (median_descendants_chain_length_to_meet_threshold s) (stats s) in
      mkBlockStatistics stats' (stats_cursor s `mod` length stats')
        (median_descendants_chain_length_to_meet_threshold s)
  | None => s
  end.

(** One iteration of the loop: [self.stats[self.cursor] = e] and the cursor moves on. *)
Definition stats_write {E} (s : BlockStatistics) (e : nat) : outcome E BlockStatistics :=
  if bool_decide (stats_cursor s < length (stats s))
  then Ok (mkBlockStatistics (<[stats_cursor s := e]> (stats s))
             ((stats_cursor s + 1) `mod` length (stats s))
             (median_descendants_chain_length_to_meet_threshold s))
  else Panic.

Definition BlockStatistics_next {E} (s : BlockStatistics) (finalization_distances : list nat)
    (new_window_size : option nat) : outcome E BlockStatistics :=
  foldl (λ acc e, acc ≫= λ s, stats_write s e) (Ok (stats_resize s new_window_size))
    finalization_distances ≫= λ s,
  select_nth (stats s) (length (stats s) / 2) ≫= λ median,
  Ok (mkBlockStatistics (stats s) (stats_cursor s)
        (if bool_decide (0 < median) then median else 1)).

Definition BlockStatistics_wf (s : BlockStatistics) : Prop := stats_cursor s < length (stats s).

(** The window in age order, oldest first. *)
Definition window (s : BlockStatistics) : list nat :=
  drop (stats_cursor s) (stats s) ++ take (stats_cursor s) (stats s).

Section statistics_lemmas.
Implicit Types (s : BlockStatistics) (ds : list nat).

Lemma window_perm s : window s ≡ₚ stats s.
Proof. unfold window. rewrite (comm (++)). by rewrite take_drop. Qed.

Lemma window_length s : length (window s) = length (stats s).
Proof. by rewrite window_perm. Qed.

(** Writing one distance drops the oldest and appends the new one. *)
Lemma stats_write_window {E} s e :
  BlockStatistics_wf s →
  ∃ s', stats_write (E := E) s e = Ok s' ∧ BlockStatistics_wf s' ∧
        length (stats s') = length (stats s) ∧ window s' = drop 1 (window s ++ [e]).
Proof.
  unfold BlockStatistics_wf. intros Hc. unfold stats_write.
  rewrite bool_decide_eq_true_2 by done. eexists. split; [done|]. simpl.
  rewrite length_insert. split; [apply Nat.mod_upper_bound; lia|]. split; [done|].
  unfold window. simpl. destruct s as [l c md]. simpl in *.
  destruct (lookup_lt_is_Some_2 l c Hc) as [x Hx].
  rewrite (drop_S l x c Hx), insert_take_drop by done.
  assert (length (take c l) = c) as Hlen by (rewrite length_take; lia).
  destruct (decide (c + 1 = length l)) as [Hlast|Hnl].
  - rewrite Hlast, Nat.Div0.mod_same. rewrite (drop_ge l (S c)) by lia. simpl.
    by rewrite app_nil_r, drop_0.
  - rewrite Nat.mod_small, Nat.add_1_r by lia. rewrite (cons_middle e), app_assoc.
    assert (length (take c l ++ [e]) = S c) as Hlen' by (rewrite length_app, Hlen; simpl; lia).
    rewrite drop_app_length', take_app_length' by done. simpl. by rewrite drop_0, app_assoc.
Qed.

Lemma drop_drop_app (l ds : list nat) k e :
  length ds = k → drop 1 (drop k (l ++ ds) ++ [e]) = drop (S k) (l ++ ds ++ [e]) ∨ l = [].
Proof.
  intros Hk. destruct l as [|x l]; [by right|left].
  rewrite app_assoc. rewrite <- (drop_app_le (_ ++ _)) by (rewrite length_app; simpl; lia).
  by rewrite drop_drop, Nat.add_1_r.
Qed.

Lemma stats_writes {E} s ds :
  BlockStatistics_wf s →
  ∃ s', foldl (λ acc e, acc ≫= λ s, stats_write s e) (Ok (E := E) s) ds = Ok s' ∧
        BlockStatistics_wf s' ∧ length (stats s') = length (stats s) ∧
        window s' = drop (length ds) (window s ++ ds).
Proof.
  intros Hwf. induction ds as [|e ds IH] using rev_ind.
  { exists s. by rewrite app_nil_r, drop_0. }
  destruct IH as (s1 & Hf & Hwf1 & Hlen1 & Hw1).
  destruct (stats_write_window (E := E) s1 e Hwf1) as (s2 & Hs2 & Hwf2 & Hlen2 & Hw2).
  exists s2. rewrite foldl_app. cbn [foldl]. rewrite Hf. cbn [mbind outcome_bind].
  split_and!; [done|done|congruence|].
  rewrite Hw2, Hw1, length_app. simpl. rewrite Nat.add_1_r.
  destruct (drop_drop_app (window s) ds (length ds) e eq_refl) as [->|Hnil]; [done|].
  exfalso. pose proof (window_length s) as Hl. rewrite Hnil in Hl. unfold BlockStatistics_wf in Hwf.
  simpl in Hl. lia.
Qed.

Lemma stats_resize_wf s nw :
  BlockStatistics_wf s → BlockStatistics_wf (stats_resize s nw).
Proof.
  intros Hwf. destruct nw as [n|]; [|done]. unfold BlockStatistics_wf. simpl.
  apply Nat.mod_upper_bound. rewrite length_resize. case_bool_decide; lia.
Qed.

#[local] Instance nat_le_total : Total (≤).
Proof. intros x y. lia. Qed.

(** Rank [k] of a sorted list: at most [k] smaller elements, more than [k] not larger. *)
Lemma select_nth_rank (l : list nat) k :
  k < length l →
  ∃ m, select_nth (E := Empty_set) l k = Ok m ∧ m ∈ l ∧
       length (filter (λ x, x < m) l) ≤ k ∧ k < length (filter (λ x, x ≤ m) l).
Proof.
  intros Hk. unfold select_nth. set (sl := merge_sort (≤) l).
  assert (sl ≡ₚ l) as Hp by apply merge_sort_Permutation.
  assert (StronglySorted (≤) sl) as Hs by apply (StronglySorted_merge_sort _).
  destruct (lookup_lt_is_Some_2 sl k) as [m Hm]; [by rewrite Hp|].
  exists m. rewrite Hm. split; [done|]. rewrite <- Hp.
  split; [by eapply list_elem_of_lookup_2|].
  rewrite <- (take_drop_middle sl k m Hm) in Hs |- *.
  apply StronglySorted_app in Hs as (Hc & Ht & Hd).
  apply StronglySorted_cons in Hd as [Hmd _].
  assert (length (take k sl) = k) as Hlen.
  { rewrite length_take. apply lookup_lt_Some in Hm. lia. }
  rewrite !filter_app, !length_app, !filter_cons. rewrite decide_False, decide_True by lia. split.
  - rewrite (filter_none _ (drop (S k) sl)).
    + pose proof (length_filter (λ x, x < m) (take k sl)). simpl. lia.
    + intros x Hx. rewrite ?Forall_forall in Hmd. specialize (Hmd x Hx). lia.
  - rewrite (filter_all _ (take k sl)); [simpl; lia|].
    intros x Hx. apply (Hc x m); set_solver.
Qed.
End statistics_lemmas.

Section statistics_theorems.
Implicit Types (s : BlockStatistics) (ds : list nat).

(** BlockStatistics::next: on a well-formed ring the update never panics and keeps it
    well-formed; the ring, read from its oldest entry, is the sliding window of the latest
    distances; and the new parameter is at least one and, unless it was raised to one, the
    upper median of the window: at most half of the window is smaller and more than half
    is not larger. *)
Theorem statistics_next_median s ds new_window_size :
  BlockStatistics_wf s →
  let s0 := stats_resize s new_window_size in
  let n := length (stats s0) in
  ∃ s' median, BlockStatistics_next (E := Empty_set) s ds new_window_size = Ok s' ∧
    BlockStatistics_wf s' ∧ length (stats s') = n ∧
    window s' = drop (length ds) (window s0 ++ ds) ∧
    median ∈ stats s' ∧
    length (filter (λ x, x < median) (stats s')) ≤ n / 2 ∧
    n / 2 < length (filter (λ x, x ≤ median) (stats s')) ∧
    median_descendants_chain_length_to_meet_threshold s' = Nat.max 1 median.
Proof.
  intros Hwf s0 n. unfold BlockStatistics_next. fold s0.
  destruct (stats_writes (E := Empty_set) s0 ds (stats_resize_wf s new_window_size Hwf))
    as (s1 & -> & Hwf1 & Hlen & Hw). cbn [mbind outcome_bind]. fold n in Hlen.
  assert (n ≠ 0) as Hn by (unfold BlockStatistics_wf in Hwf1; lia).
  destruct (select_nth_rank (stats s1) (n / 2)) as (m & Hm & Hin & Hlt & Hle).
  { rewrite Hlen. apply Nat.div_lt; lia. }
  rewrite Hlen, Hm. cbn [mbind outcome_bind].
  eexists _, m. split; [done|]. simpl. split_and!; try done.
  case_bool_decide; lia.
Qed.

Lemma statistics_next_median_witness :
  BlockStatistics_wf (BlockStatistics_zero 3 5) ∧
  ∃ s', BlockStatistics_next (E := Empty_set) (BlockStatistics_zero 3 5) [7; 2; 9; 4] None = Ok s' ∧
    window s' = [2; 9; 4].
Proof.
  assert (BlockStatistics_wf (BlockStatistics_zero 3 5)) as Hwf
    by (unfold BlockStatistics_wf; simpl; lia).
  split; [exact Hwf|].
  destruct (statistics_next_median (BlockStatistics_zero 3 5) [7; 2; 9; 4] None Hwf)
    as (s' & m & Hs & _ & _ & Hw & _).
  exists s'. split; [exact Hs|exact Hw].
Defined.
End statistics_theorems.
