(* ===== verification/Bls.v ===== *)
(** * BLS signature scheme

    Models [bls/mod.rs] and the [GoshBLS] half of [bls/gosh_bls.rs].  The curve library
    [gosh_blst] and the [bincode] serializer are third-party code: they are the classes
    [Blst] and [Serialize], and the algebra of aggregated signatures the node relies on is
    [BlstLaws].  [LinearBlst] is an instance of all of them (signatures as multiples of a
    hash), used to evaluate the model. *)
From stdpp Require Import base numbers gmap strings fin_maps sorting list.
From S2P Require Import Prelude.

(** ** The curve library *)
Class Blst := {
  PubKey : Type;
  Secret : Type;
  Signature : Type;
  PubKey_eq_dec :: EqDecision PubKey;
  PubKey_countable :: Countable PubKey;
  Signature_eq_dec :: EqDecision Signature;
  Signature_countable :: Countable Signature;
  (** [SecretKey::sk_to_pk] *)
  blst_sk_to_pk : Secret → PubKey;
  (** [SecretKey::sign(buffer, DST, &[])] *)
  blst_sign : Secret → list Z → Signature;
  (** [AggregatePublicKey::aggregate(keys, false)] followed by [to_public_key] *)
  blst_aggregate_pk : list PubKey → option PubKey;
  (** [Signature::verify(false, buffer, DST, &[], key, false) == BLST_SUCCESS] *)
  blst_verify : Signature → list Z → PubKey → bool;
  (** [AggregateSignature::aggregate(signatures, true)] followed by [to_signature] *)
  blst_aggregate_sig : list Signature → option Signature;
  (** [AggregateSignature::add_signature(one, another, false)] *)
  blst_add_signature : Signature → Signature → option Signature;
}.

(** Documented algebra of BLS aggregation: the aggregated key does not depend on the order
    of the keys, a signature verifies under its own key, and the sum of two signatures of
    the same message verifies under the aggregate of both key lists. *)
Class BlstLaws `{Blst} : Prop := {
  blst_aggregate_pk_perm l l' : l ≡ₚ l' → blst_aggregate_pk l = blst_aggregate_pk l';
  blst_sign_verify sk buf : ∃ pk,
    blst_aggregate_pk [blst_sk_to_pk sk] = Some pk ∧ blst_verify (blst_sign sk buf) buf pk = true;
  blst_add_verify s1 s2 s l1 l2 pk1 pk2 buf :
    blst_aggregate_pk l1 = Some pk1 → blst_verify s1 buf pk1 = true →
    blst_aggregate_pk l2 = Some pk2 → blst_verify s2 buf pk2 = true →
    blst_add_signature s1 s2 = Some s →
    ∃ pk, blst_aggregate_pk (l1 ++ l2) = Some pk ∧ blst_verify s buf pk = true;
}.

(** [bincode::serialize] *)
Class Serialize (A : Type) := bincode_serialize : A → option (list Z).

(** ** GoshBLS *)
Inductive BlsError :=
  | PubkeyAggregationFailed
  | MergeFailed
  | SerializeFailed.
#[global] Instance BlsError_eq_dec : EqDecision BlsError.
Proof. solve_decision. Defined.

Section gosh_bls.
Context `{Blst}.

Definition GoshBLS_sign {A} `{Serialize A} (secret : Secret) (data : A) :
    outcome BlsError Signature :=
  ok_or (bincode_serialize data) SerializeFailed ≫= λ buffer, Ok (blst_sign secret buffer).

(** The two nested loops that repeat each key as often as it occurs. *)
Definition flatten_pubkeys (pubkeys_occurrences : list (PubKey * nat)) : list PubKey :=
  foldl (λ acc '(pubkey, occurrences), acc ++ replicate occurrences pubkey) []
    pubkeys_occurrences.

Definition GoshBLS_verify {A} `{Serialize A} (signature : Signature)
    (pubkeys_occurrences : list (PubKey * nat)) (data : A) : outcome BlsError bool :=
  let flattened_pubkeys := flatten_pubkeys pubkeys_occurrences in
  ok_or (blst_aggregate_pk flattened_pubkeys) PubkeyAggregationFailed ≫= λ aggregated,
  ok_or (bincode_serialize data) SerializeFailed ≫= λ buffer,
  Ok (blst_verify signature buffer aggregated).

Definition GoshBLS_merge (one another : Signature) : outcome BlsError Signature :=
  ok_or (blst_add_signature one another) MergeFailed.

Definition GoshBLS_merge_all (signatures : list Signature) : outcome BlsError Signature :=
  ok_or (blst_aggregate_sig signatures) MergeFailed.
End gosh_bls.

(** ** A concrete instance: signature = key * hash *)
Definition linear_hash (buf : list Z) : Z := 1 + foldr Z.add 0%Z buf.

Definition sum_nonempty (l : list Z) : option Z :=
  match l with [] => None | _ => Some (foldr Z.add 0%Z l) end.

Definition LinearBlst : Blst := {|
  PubKey := Z;
  Secret := Z;
  Signature := Z;
  blst_sk_to_pk sk := sk;
  blst_sign sk buf := (sk * linear_hash buf)%Z;
  blst_aggregate_pk := sum_nonempty;
  blst_verify s buf pk := bool_decide (s = (pk * linear_hash buf)%Z);
  blst_aggregate_sig := sum_nonempty;
  blst_add_signature s1 s2 := Some (s1 + s2)%Z;
|}.

(** ** Lemmas *)
Lemma sum_perm (l l' : list Z) : l ≡ₚ l' → foldr Z.add 0%Z l = foldr Z.add 0%Z l'.
Proof. induction 1; simpl; lia. Qed.

Lemma sum_app (l l' : list Z) :
  foldr Z.add 0%Z (l ++ l') = (foldr Z.add 0 l + foldr Z.add 0 l')%Z.
Proof. induction l; simpl; lia. Qed.

Lemma LinearBlst_laws : @BlstLaws LinearBlst.
Proof.
  constructor; simpl.
  - intros l l' Hp. unfold sum_nonempty. destruct l, l'; try done.
    + by apply Permutation_nil_l in Hp.
    + by apply Permutation_nil_r in Hp.
    + f_equal. by apply sum_perm.
  - intros sk buf. eexists. split; [done|]. apply bool_decide_eq_true. simpl. lia.
  - intros s1 s2 s l1 l2 pk1 pk2 buf H1 V1%bool_decide_eq_true H2 V2%bool_decide_eq_true [= <-].
    destruct l1 as [|x l1], l2 as [|y l2]; try done.
    injection H1 as <-. injection H2 as <-. eexists. split; [reflexivity|].
    apply bool_decide_eq_true. change (foldr Z.add 0%Z ((x :: l1) ++ y :: l2)) with
      (foldr Z.add 0%Z ((x :: l1) ++ (y :: l2))). rewrite sum_app, V1, V2. simpl. lia.
Qed.

Section gosh_bls_lemmas.
Context `{Blst}.

Lemma flatten_pubkeys_acc acc l :
  foldl (λ acc '(pubkey, occurrences), acc ++ replicate occurrences pubkey) acc l =
  acc ++ flatten_pubkeys l.
Proof.
  unfold flatten_pubkeys. revert acc. induction l as [|[pk n] l IH]; intros acc; simpl.
  - by rewrite app_nil_r.
  - rewrite IH. rewrite (IH (replicate n pk)). by rewrite app_assoc.
Qed.

Lemma flatten_pubkeys_cons pk n l :
  flatten_pubkeys ((pk, n) :: l) = replicate n pk ++ flatten_pubkeys l.
Proof. unfold flatten_pubkeys at 1. simpl. by rewrite flatten_pubkeys_acc. Qed.

Lemma flatten_pubkeys_app l1 l2 :
  flatten_pubkeys (l1 ++ l2) = flatten_pubkeys l1 ++ flatten_pubkeys l2.
Proof.
  induction l1 as [|[pk n] l1 IH]; [done|].
  cbn [app]. by rewrite !flatten_pubkeys_cons, IH, app_assoc.
Qed.

Lemma flatten_pubkeys_perm l1 l2 : l1 ≡ₚ l2 → flatten_pubkeys l1 ≡ₚ flatten_pubkeys l2.
Proof.
  induction 1 as [|[pk n] l1 l2 Hp IH|[pk n] [pk' n'] l|l1 l2 l3 _ IH1 _ IH2].
  - done.
  - by rewrite !flatten_pubkeys_cons, IH.
  - rewrite !flatten_pubkeys_cons, !app_assoc. by rewrite (Permutation_app_comm (replicate n' pk')).
  - by rewrite IH1.
Qed.

Context `{!BlstLaws}.

(** Verification does not depend on the order in which the keys are enumerated. *)
Lemma GoshBLS_verify_flat {A} `{Serialize A} s l1 l2 (data : A) :
  flatten_pubkeys l1 ≡ₚ flatten_pubkeys l2 → GoshBLS_verify s l1 data = GoshBLS_verify s l2 data.
Proof. intros Hp. unfold GoshBLS_verify. by rewrite (blst_aggregate_pk_perm _ _ Hp). Qed.

(** Two valid signatures merge into a valid signature of the combined key list. *)
Lemma GoshBLS_verify_merge {A} `{Serialize A} s1 s2 s l1 l2 (data : A) :
  GoshBLS_verify s1 l1 data = Ok true → GoshBLS_verify s2 l2 data = Ok true →
  GoshBLS_merge s1 s2 = Ok s → GoshBLS_verify s (l1 ++ l2) data = Ok true.
Proof.
  unfold GoshBLS_verify, GoshBLS_merge, ok_or. rewrite flatten_pubkeys_app.
  destruct (blst_aggregate_pk (flatten_pubkeys l1)) as [pk1|] eqn:E1; [|done].
  destruct (blst_aggregate_pk (flatten_pubkeys l2)) as [pk2|] eqn:E2; [|done].
  destruct (bincode_serialize data) as [buf|]; [|done]. simpl.
  intros [= V1] [= V2]. destruct (blst_add_signature s1 s2) as [s'|] eqn:Ea; [|done].
  intros [= <-].
  destruct (blst_add_verify s1 s2 s' _ _ _ _ buf E1 V1 E2 V2 Ea) as (pk & -> & Hv).
  simpl. by rewrite Hv.
Qed.
End gosh_bls_lemmas.
