(* ===== verification/BlockKeepers.v ===== *)
(** * Block keeper sets and producer selection

    Models [block_keeper_system/mod.rs] (the set of block keepers with its three indices),
    [block_keeper_system/bk_set.rs] (the update of the current and the future set from the
    common section of a block) and [types/bp_selector.rs] (who produces the next block).

    [HashMap] and [BTreeMap] are [gmap]s.  The order in which a [BTreeMap] enumerates its
    node identifiers and the seeded shuffle are third-party code ([tvm_types], [rand]); they
    are the variables [iter_order] and [shuffle] of the producer-selection section. *)
From stdpp Require Import base numbers gmap strings fin_maps sorting list.
From S2P Require Import Prelude Identifiers Bls.

Record NodeIdentifier := NodeId { node_address : AccountAddress }.
#[global] Instance NodeIdentifier_eq_dec : EqDecision NodeIdentifier.
Proof. solve_decision. Defined.
#[global] Instance NodeIdentifier_countable : Countable NodeIdentifier.
Proof. by refine (inj_countable' node_address NodeId _); intros []. Defined.

(** [type SignerIndex = u16] *)
Notation SignerIndex := Z (only parsing).

Inductive BlockKeeperStatus := PreEpoch | Active | CalledToFinish | Expired.
#[global] Instance BlockKeeperStatus_eq_dec : EqDecision BlockKeeperStatus.
Proof. solve_decision. Defined.

Section keepers.
Context `{Blst}.

Record BlockKeeperData := mkBlockKeeperData {
  pubkey : PubKey;
  epoch_finish_seq_no : option Z;
  status : BlockKeeperStatus;
  address : string;
  stake : N;
  owner_address : AccountAddress;
  signer_index : SignerIndex;
  owner_pubkey : list Z;
}.

#[global] Instance BlockKeeperData_eq_dec : EqDecision BlockKeeperData.
Proof. solve_decision. Defined.

Definition node_id (k : BlockKeeperData) : NodeIdentifier := NodeId (owner_address k).

Inductive BlockKeeperSetChange :=
  | BlockKeeperAdded (s : SignerIndex) (k : BlockKeeperData)
  | BlockKeeperRemoved (s : SignerIndex) (k : BlockKeeperData)
  | FutureBlockKeeperAdded (s : SignerIndex) (k : BlockKeeperData).

Record BlockKeeperSet := mkBlockKeeperSet {
  by_signer : gmap SignerIndex BlockKeeperData;
  signer_to_pubkey : gmap SignerIndex PubKey;
  signer_by_node_id : gmap NodeIdentifier SignerIndex;
}.

Definition BlockKeeperSet_new : BlockKeeperSet := mkBlockKeeperSet ∅ ∅ ∅.

Definition BlockKeeperSet_len (b : BlockKeeperSet) : nat := size (by_signer b).
Definition BlockKeeperSet_is_empty (b : BlockKeeperSet) : bool :=
  bool_decide (size (by_signer b) = 0).

Definition BlockKeeperSet_insert (b : BlockKeeperSet) (s : SignerIndex) (k : BlockKeeperData) :
    BlockKeeperSet :=
  mkBlockKeeperSet (<[s := k]> (by_signer b)) (<[s := pubkey k]> (signer_to_pubkey b))
    (<[node_id k := s]> (signer_by_node_id b)).

Definition BlockKeeperSet_contains_signer (b : BlockKeeperSet) (s : SignerIndex) : bool :=
  bool_decide (is_Some (by_signer b !! s)).

Definition BlockKeeperSet_get_by_signer (b : BlockKeeperSet) (s : SignerIndex) :
    option BlockKeeperData := by_signer b !! s.

Definition BlockKeeperSet_get_by_node_id (b : BlockKeeperSet) (n : NodeIdentifier) :
    option BlockKeeperData := signer_by_node_id b !! n ≫= λ s, by_signer b !! s.

Definition BlockKeeperSet_get_pubkeys_by_signers (b : BlockKeeperSet) :
    gmap SignerIndex PubKey := signer_to_pubkey b.

Definition BlockKeeperSet_get_undistributed_stake (b : BlockKeeperSet)
    (attested_signers : gset SignerIndex) : N :=
  map_fold (λ s k acc, if bool_decide (s ∉ attested_signers) then acc + stake k else acc)%N
    0%N (by_signer b).

Definition BlockKeeperSet_remove_signer (b : BlockKeeperSet) (s : SignerIndex) :
    BlockKeeperSet * option BlockKeeperData :=
  let removed := by_signer b !! s in
  (mkBlockKeeperSet (delete s (by_signer b)) (delete s (signer_to_pubkey b))
     (match removed with
      | Some keeper => delete (node_id keeper) (signer_by_node_id b)
      | None => signer_by_node_id b
      end), removed).

(** The custom serde implementations: only [by_signer] is written; reading rebuilds the
    two other indices by a loop over the entries, in the order the map yields them. *)
Definition BlockKeeperSet_serialize (b : BlockKeeperSet) : gmap SignerIndex BlockKeeperData :=
  by_signer b.

Definition BlockKeeperSet_deserialize_from (items : gmap SignerIndex BlockKeeperData)
    (entries : list (SignerIndex * BlockKeeperData)) : BlockKeeperSet :=
  let '(by_node_id, pubkeys) :=
    foldl (λ '(by_node_id, pubkeys) '(signer, keeper),
        (<[node_id keeper := signer]> by_node_id, <[signer := pubkey keeper]> pubkeys))
      (∅, ∅) entries in
  mkBlockKeeperSet items pubkeys by_node_id.

Definition BlockKeeperSet_deserialize (items : gmap SignerIndex BlockKeeperData) :
    BlockKeeperSet := BlockKeeperSet_deserialize_from items (map_to_list items).

(** ** [update_block_keeper_set_from_common_section]: three passes over the changes *)
Definition apply_removed (new_bk_set : BlockKeeperSet) (c : BlockKeeperSetChange) :
    BlockKeeperSet :=
  match c with
  | BlockKeeperRemoved s _ => (BlockKeeperSet_remove_signer new_bk_set s).1
  | _ => new_bk_set
  end.

Definition apply_added (sets : BlockKeeperSet * BlockKeeperSet) (c : BlockKeeperSetChange) :
    BlockKeeperSet * BlockKeeperSet :=
  let '(new_bk_set, new_future_bk_set) := sets in
  match c with
  | BlockKeeperAdded s k =>
      (BlockKeeperSet_insert new_bk_set s k,
       if BlockKeeperSet_contains_signer new_future_bk_set s
       then (BlockKeeperSet_remove_signer new_future_bk_set s).1
       else new_future_bk_set)
  | _ => sets
  end.

Definition apply_future (new_future_bk_set : BlockKeeperSet) (c : BlockKeeperSetChange) :
    BlockKeeperSet :=
  match c with
  | FutureBlockKeeperAdded s k => BlockKeeperSet_insert new_future_bk_set s k
  | _ => new_future_bk_set
  end.

Definition update_block_keeper_set_from_common_section
    (changes : list BlockKeeperSetChange) (current current_future : BlockKeeperSet) :
    option (BlockKeeperSet * BlockKeeperSet) :=
  match changes with
  | [] => None
  | _ =>
      let new_bk_set := foldl apply_removed current changes in
      let '(new_bk_set, new_future) :=
        foldl apply_added (new_bk_set, current_future) changes in
      Some (new_bk_set, foldl apply_future new_future changes)
  end.
End keepers.

(** ** Producer selection *)
Record ProducerSelector := mkProducerSelector {
  rng_seed_block_id : BlockIdentifier;
  index : nat;
}.
#[global] Instance ProducerSelector_eq_dec : EqDecision ProducerSelector.
Proof. solve_decision. Defined.

Inductive SelectorError := IndexOutOfBounds.
#[global] Instance SelectorError_eq_dec : EqDecision SelectorError.
Proof. solve_decision. Defined.

Section selector.
Context `{Blst}.
(** [BTreeMap::keys] order, and [SliceRandom::shuffle] with [SmallRng::from_seed(seed)]. *)
Variable iter_order : gset NodeIdentifier → list NodeIdentifier.
Variable shuffle : list Z → list NodeIdentifier → list NodeIdentifier.

Definition iter_node_ids (b : BlockKeeperSet) : list NodeIdentifier :=
  iter_order (dom (signer_by_node_id b)).

Definition shuffled_node_ids (p : ProducerSelector) (b : BlockKeeperSet) :
    list NodeIdentifier :=
  shuffle (block_id_bytes (rng_seed_block_id p)) (iter_node_ids b).

Definition get_producer_node_id (p : ProducerSelector) (b : BlockKeeperSet) :
    outcome SelectorError NodeIdentifier :=
  let l := shuffled_node_ids p b in
  ensure (bool_decide (index p < length l)) IndexOutOfBounds ≫= λ _, unwrap (l !! index p).

Definition is_node_bp (p : ProducerSelector) (b : BlockKeeperSet) (n : NodeIdentifier) :
    outcome SelectorError bool :=
  (λ producer, bool_decide (producer = n)) <$> get_producer_node_id p b.

(** [Itertools::find_position] *)
Fixpoint find_position (n : NodeIdentifier) (l : list NodeIdentifier) : option nat :=
  match l with
  | [] => None
  | x :: l => if bool_decide (x = n) then Some 0 else S <$> find_position n l
  end.

Definition get_distance_from_bp (p : ProducerSelector) (b : BlockKeeperSet)
    (n : NodeIdentifier) : option nat :=
  let total_bk_cnt := length (iter_node_ids b) in
  if bool_decide (total_bk_cnt ≤ index p) then None
  else
    position ← find_position n (shuffled_node_ids p b);
    Some (if bool_decide (index p ≤ position) then position - index p
          else total_bk_cnt - index p + position).

Definition check_whether_this_node_is_bp_based_on_bk_set_and_index_offset {E}
    (p : ProducerSelector) (b : BlockKeeperSet) (n : NodeIdentifier) (offset : nat) :
    outcome E bool :=
  match get_distance_from_bp p b n with
  | Some distance =>
      if bool_decide (BlockKeeperSet_len b = 0) then Panic
      else Ok (bool_decide (distance = offset `mod` BlockKeeperSet_len b))
  | None => Ok false
  end.

Definition move_index {E} (p : ProducerSelector) (diff bk_set_size : nat) :
    outcome E ProducerSelector :=
  if bool_decide (bk_set_size = 0) then Panic
  else Ok (mkProducerSelector (rng_seed_block_id p) ((index p + diff) `mod` bk_set_size)).
End selector.

(** ** Invariant of the three indices *)
Section keeper_lemmas.
Context `{Blst}.
Implicit Types (b : BlockKeeperSet) (s : SignerIndex) (k : BlockKeeperData).

Record BlockKeeperSet_wf b : Prop := {
  wf_pubkeys : signer_to_pubkey b = pubkey <$> by_signer b;
  wf_nodes : ∀ n s, signer_by_node_id b !! n = Some s ↔
                    ∃ k, by_signer b !! s = Some k ∧ node_id k = n;
}.

(** [s] may be (re)assigned to [k]: no other signer has [k]'s node, and the keeper that
    [s] had before, if any, was the same node. *)
Definition insertable b s k : Prop :=
  (∀ s' k', by_signer b !! s' = Some k' → node_id k' = node_id k → s' = s) ∧
  (∀ k', by_signer b !! s = Some k' → node_id k' = node_id k).

Lemma BlockKeeperSet_new_wf : BlockKeeperSet_wf BlockKeeperSet_new.
Proof.
  split; simpl; [by rewrite fmap_empty|]. intros n s. rewrite lookup_empty.
  split; [done|]. intros (k & Hk & _). by rewrite lookup_empty in Hk.
Qed.

Lemma BlockKeeperSet_insert_wf b s k :
  BlockKeeperSet_wf b → insertable b s k → BlockKeeperSet_wf (BlockKeeperSet_insert b s k).
Proof.
  intros [Hp Hn] [Hi1 Hi2]. split; simpl; [by rewrite fmap_insert, Hp|].
  intros n s'. rewrite lookup_insert. case_decide as Hk.
  - subst n. split.
    + intros [= <-]. exists k. by rewrite lookup_insert_eq.
    + intros (k' & Hk' & Hnode). rewrite lookup_insert in Hk'. case_decide; [congruence|].
      f_equal. symmetry. eauto.
  - rewrite Hn. split; intros (k' & Hk' & Hnode).
    + exists k'. split; [|done]. rewrite lookup_insert_ne; [done|]. intros ->.
      apply Hk. rewrite <- Hnode. symmetry. eauto.
    + rewrite lookup_insert in Hk'. case_decide; [|eauto]. naive_solver.
Qed.

Lemma BlockKeeperSet_remove_wf b s :
  BlockKeeperSet_wf b → BlockKeeperSet_wf (BlockKeeperSet_remove_signer b s).1.
Proof.
  intros [Hp Hn]. split; simpl; [by rewrite fmap_delete, Hp|]. intros n s'.
  destruct (by_signer b !! s) as [k|] eqn:Hs.
  - rewrite lookup_delete. case_decide as Hk.
    + split; [done|]. intros (k' & Hk' & Hnode). rewrite lookup_delete in Hk'.
      case_decide as Hne; [done|]. destruct Hne.
      assert (signer_by_node_id b !! n = Some s') as H1 by (apply Hn; eauto).
      assert (signer_by_node_id b !! n = Some s) as H2 by (apply Hn; eauto). congruence.
    + rewrite Hn. split; intros (k' & Hk' & Hnode).
      * exists k'. split; [|done]. rewrite lookup_delete_ne; [done|]. intros <-. congruence.
      * rewrite lookup_delete in Hk'. case_decide; [done|eauto].
  - rewrite Hn. by rewrite delete_id.
Qed.

(** The node index as an association list over the entries. *)
Lemma foldl_node_index (entries : list (SignerIndex * BlockKeeperData))
    (m0 : gmap NodeIdentifier SignerIndex) (p0 : gmap SignerIndex PubKey) :
  foldl (λ '(by_node_id, pubkeys) '(signer, keeper),
      (<[node_id keeper := signer]> by_node_id, <[signer := pubkey keeper]> pubkeys))
    (m0, p0) entries =
  (foldl (λ m e, <[node_id e.2 := e.1]> m) m0 entries,
   foldl (λ m e, <[e.1 := pubkey e.2]> m) p0 entries).
Proof. revert m0 p0. induction entries as [|[s k] es IH]; intros m0 p0; simpl; [done|]. apply IH. Qed.

Lemma wf_node_inj b s1 s2 k1 k2 :
  BlockKeeperSet_wf b → by_signer b !! s1 = Some k1 → by_signer b !! s2 = Some k2 →
  node_id k1 = node_id k2 → s1 = s2.
Proof.
  intros [_ Hn] H1 H2 Heq.
  assert (signer_by_node_id b !! node_id k1 = Some s1) as E1 by (apply Hn; eauto).
  assert (signer_by_node_id b !! node_id k1 = Some s2) as E2 by (apply Hn; eauto). congruence.
Qed.
End keeper_lemmas.

(** Inserting the images of a list of entries with pairwise distinct keys. *)
Lemma foldl_insert_lookup {K V A : Type} `{Countable K} (f : A → K) (g : A → V)
    (entries : list A) (m0 : gmap K V) key v :
  NoDup (f <$> entries) → (∀ e, e ∈ entries → m0 !! f e = None) →
  foldl (λ m e, <[f e := g e]> m) m0 entries !! key = Some v ↔
  m0 !! key = Some v ∨ ∃ e, e ∈ entries ∧ f e = key ∧ g e = v.
Proof.
  revert m0. induction entries as [|e es IH]; intros m0 Hnd Hfresh; simpl.
  { split; [by left|]. intros [?|(e & He & _)]; [done|]. by apply elem_of_nil in He. }
  rewrite fmap_cons in Hnd. apply NoDup_cons in Hnd as [Hne Hnd].
  rewrite IH; [|done|].
  - rewrite lookup_insert. case_decide as Hk.
    + subst key. split.
      * intros [[= <-]|(e' & He' & ? & ?)]; right; [exists e|exists e']; set_solver.
      * intros [Hm|(e' & He' & Hf & Hg)]; [by rewrite Hfresh in Hm by set_solver|].
        apply elem_of_cons in He' as [->|He']; [left; by f_equal|right; eauto].
    + split; [intros [?|(e' & He' & ? & ?)]; [by left|right; exists e'; set_solver]|].
      intros [?|(e' & [->|He']%elem_of_cons & ? & ?)]; [by left|done|right; eauto].
  - intros e' He'. rewrite lookup_insert_ne; [apply Hfresh; set_solver|].
    intros Heq. apply Hne. rewrite Heq. apply list_elem_of_fmap. eauto.
Qed.

Section keeper_theorems.
Context `{Blst}.
Implicit Types (b : BlockKeeperSet) (s : SignerIndex) (k : BlockKeeperData).

Lemma wf_entries_nodup b entries :
  BlockKeeperSet_wf b → entries ≡ₚ map_to_list (by_signer b) →
  NoDup ((λ e : SignerIndex * BlockKeeperData, node_id e.2) <$> entries) ∧ NoDup entries.*1.
Proof.
  intros Hwf Hp. split.
  - rewrite Hp. apply NoDup_fmap_2_strong; [|apply NoDup_map_to_list].
    intros [s1 k1] [s2 k2] H1%elem_of_map_to_list H2%elem_of_map_to_list Heq. simpl in Heq.
    pose proof (wf_node_inj b s1 s2 k1 k2 Hwf H1 H2 Heq) as ->. congruence.
  - rewrite Hp. apply NoDup_fst_map_to_list.
Qed.

Lemma wf_node_index_size b :
  BlockKeeperSet_wf b → size (signer_by_node_id b) = BlockKeeperSet_len b.
Proof.
  intros Hwf. set (f := λ e : SignerIndex * BlockKeeperData, (node_id e.2, e.1)).
  assert (signer_by_node_id b = list_to_map (f <$> map_to_list (by_signer b))) as ->.
  { apply map_eq. intros n. apply option_eq. intros s. rewrite (wf_nodes _ Hwf).
    rewrite <- elem_of_list_to_map.
    - rewrite list_elem_of_fmap. split.
      + intros (k & Hk & <-). exists (s, k). by rewrite elem_of_map_to_list.
      + intros ([s' k] & [= -> ->] & Hk%elem_of_map_to_list). eauto.
    - rewrite <- list_fmap_compose. by apply (wf_entries_nodup b). }
  rewrite map_size_list_to_map.
  - by rewrite length_fmap, length_map_to_list.
  - rewrite <- list_fmap_compose. by apply (wf_entries_nodup b).
Qed.

(** The changes of a set: a keeper is inserted whose node and signer slots are not taken by
    others, or a signer is removed. *)
Inductive keeper_step b : BlockKeeperSet → Prop :=
  | keeper_inserted s k : insertable b s k → keeper_step b (BlockKeeperSet_insert b s k)
  | keeper_removed s : keeper_step b (BlockKeeperSet_remove_signer b s).1.

Lemma keeper_steps_wf b : rtc keeper_step BlockKeeperSet_new b → BlockKeeperSet_wf b.
Proof.
  revert b. apply rtc_ind_r; [apply BlockKeeperSet_new_wf|]. intros x y _ [s k Hins|s] Hwf.
  - by apply BlockKeeperSet_insert_wf.
  - by apply BlockKeeperSet_remove_wf.
Qed.

Lemma get_by_node_id_wf b n k : BlockKeeperSet_wf b →
  BlockKeeperSet_get_by_node_id b n = Some k ↔
  ∃ s, BlockKeeperSet_get_by_signer b s = Some k ∧ node_id k = n.
Proof.
  intros Hwf. unfold BlockKeeperSet_get_by_node_id, BlockKeeperSet_get_by_signer. rewrite bind_Some. split.
  - intros (s & (k2 & Hk2 & Hn)%(wf_nodes _ Hwf) & Hk). exists s. rewrite Hk2 in Hk. by simplify_eq.
  - intros (s & Hk & Hn). exists s. split; [apply (wf_nodes _ Hwf); eauto|done].
Qed.

(** Inserting into a free slot and removing again restores the set. *)
Lemma remove_inserted b s k :
  BlockKeeperSet_wf b → insertable b s k → by_signer b !! s = None →
  BlockKeeperSet_remove_signer (BlockKeeperSet_insert b s k) s = (b, Some k).
Proof.
  intros Hwf Hins Hs. unfold BlockKeeperSet_remove_signer. simpl. rewrite lookup_insert_eq.
  assert (signer_to_pubkey b !! s = None) by by rewrite (wf_pubkeys _ Hwf), lookup_fmap, Hs.
  assert (signer_by_node_id b !! node_id k = None).
  { apply eq_None_not_Some. intros [s' (k' & Hk' & Hnode)%(wf_nodes _ Hwf)].
    destruct Hins as [Hi _]. by rewrite (Hi s' k' Hk' Hnode), Hs in Hk'. }
  rewrite !delete_insert_id by done. by destruct b.
Qed.

(** A removed signer is in none of the indices; the others stay. *)
Lemma removed_gone b s b' removed :
  BlockKeeperSet_wf b → BlockKeeperSet_remove_signer b s = (b', removed) →
  removed = by_signer b !! s ∧ by_signer b' !! s = None ∧ signer_to_pubkey b' !! s = None ∧
  (∀ n, signer_by_node_id b' !! n ≠ Some s) ∧
  ∀ s', s' ≠ s → by_signer b' !! s' = by_signer b !! s'.
Proof.
  intros Hwf Hr. pose proof (BlockKeeperSet_remove_wf b s Hwf) as Hwf'. rewrite Hr in Hwf'.
  unfold BlockKeeperSet_remove_signer in Hr. injection Hr as Hb <-. subst b'. simpl in *.
  split_and!; [done|by rewrite lookup_delete_eq|by rewrite lookup_delete_eq| |].
  - intros n (k & Hk & _)%(wf_nodes _ Hwf'). simpl in Hk. by rewrite lookup_delete_eq in Hk.
  - intros s' Hs'. by rewrite lookup_delete_ne.
Qed.

(** C39 (BlockKeeperSet): the three indices stay consistent.  In every set that comes from the
    empty one by insertions of keepers whose node and signer slots are not taken by others and
    by arbitrary removals, the key index is the image of the signer index and the node index its
    inverse, of the same size, so that lookups by node agree with lookups by signer.  A further
    insertion makes the keeper known by signer, node and key and leaves the other signers; when
    the slot was free, removing it again restores the set.  A removal answers with the keeper
    the slot had, and afterwards the signer is in none of the three indices and every other
    signer is as before. *)
Theorem block_keeper_set_consistent b :
  rtc keeper_step BlockKeeperSet_new b →
  signer_to_pubkey b = pubkey <$> by_signer b ∧
  size (signer_by_node_id b) = BlockKeeperSet_len b ∧
  (∀ n k, BlockKeeperSet_get_by_node_id b n = Some k ↔
          ∃ s, BlockKeeperSet_get_by_signer b s = Some k ∧ node_id k = n) ∧
  (∀ s k, insertable b s k → let b' := BlockKeeperSet_insert b s k in
     BlockKeeperSet_get_by_signer b' s = Some k ∧
     BlockKeeperSet_get_by_node_id b' (node_id k) = Some k ∧
     BlockKeeperSet_get_pubkeys_by_signers b' !! s = Some (pubkey k) ∧
     (∀ s', s' ≠ s → by_signer b' !! s' = by_signer b !! s') ∧
     (by_signer b !! s = None → BlockKeeperSet_remove_signer b' s = (b, Some k))) ∧
  (∀ s b' removed, BlockKeeperSet_remove_signer b s = (b', removed) →
     removed = BlockKeeperSet_get_by_signer b s ∧
     by_signer b' !! s = None ∧ signer_to_pubkey b' !! s = None ∧
     (∀ n, signer_by_node_id b' !! n ≠ Some s) ∧
     ∀ s', s' ≠ s → by_signer b' !! s' = by_signer b !! s').
Proof.
  intros Hwf%keeper_steps_wf.
  split_and!; [apply Hwf|by apply wf_node_index_size|by intros; apply get_by_node_id_wf|..].
  - intros s k Hins b'. unfold BlockKeeperSet_get_by_signer, BlockKeeperSet_get_by_node_id, b'. simpl.
    rewrite !lookup_insert_eq. simpl. split_and!; [done|by rewrite lookup_insert_eq|done|..].
    + intros s' Hs'. by rewrite lookup_insert_ne.
    + by apply remove_inserted.
  - intros s b' removed. by apply removed_gone.
Qed.

(** Serde of BlockKeeperSet: serializing a consistent set and reading it back yields
    the same set, whatever order the reader visits the entries in. *)
Theorem block_keeper_set_serde_roundtrip b entries :
  BlockKeeperSet_wf b → entries ≡ₚ map_to_list (BlockKeeperSet_serialize b) →
  BlockKeeperSet_deserialize_from (BlockKeeperSet_serialize b) entries = b ∧
  BlockKeeperSet_deserialize (BlockKeeperSet_serialize b) = b.
Proof.
  intros Hwf. assert (∀ entries, entries ≡ₚ map_to_list (BlockKeeperSet_serialize b) →
    BlockKeeperSet_deserialize_from (BlockKeeperSet_serialize b) entries = b) as Hany.
  { clear entries. intros entries Hp. destruct (wf_entries_nodup b entries Hwf Hp) as [Hnd1 Hnd2].
    unfold BlockKeeperSet_deserialize_from, BlockKeeperSet_serialize.
    rewrite foldl_node_index. destruct b as [bs bp bn] eqn:Hb. simpl in *.
    assert (∀ s k, (s, k) ∈ entries ↔ bs !! s = Some k) as Hin.
    { intros s k. by rewrite Hp, elem_of_map_to_list. }
    pose proof (wf_pubkeys _ Hwf) as Hpk. pose proof (wf_nodes _ Hwf) as Hnodes. simpl in *.
    f_equal; apply map_eq; intros key; apply option_eq; intros v.
    - rewrite foldl_insert_lookup, lookup_empty; [|done|by intros; apply lookup_empty].
      rewrite Hpk, lookup_fmap, fmap_Some. split.
      + intros [?|([s k] & He%Hin & <- & <-)]; [done|]. eauto.
      + intros (k & Hk%Hin & ->). right. exists (key, k). done.
    - rewrite foldl_insert_lookup, lookup_empty; [|done|by intros; apply lookup_empty].
      rewrite Hnodes. split.
      + intros [?|([s k] & He%Hin & <- & <-)]; [done|]. eauto.
      + intros (k & Hk%Hin & <-). right. exists (v, k). done. }
  intros Hp. split; [by apply Hany|]. by apply Hany.
Qed.
End keeper_theorems.

(** ** Updating the sets from a block *)
Section update_theorems.
Context `{Blst}.
Implicit Types (b : BlockKeeperSet) (s : SignerIndex) (k : BlockKeeperData).

(** Specification: the last keeper a list of changes adds for [s]. *)
Definition last_added (s : SignerIndex) (changes : list BlockKeeperSetChange) :
    option BlockKeeperData :=
  foldl (λ acc c, match c with
                  | BlockKeeperAdded s' k => if bool_decide (s' = s) then Some k else acc
                  | _ => acc
                  end) None changes.

Definition last_future_added (s : SignerIndex) (changes : list BlockKeeperSetChange) :
    option BlockKeeperData :=
  foldl (λ acc c, match c with
                  | FutureBlockKeeperAdded s' k => if bool_decide (s' = s) then Some k else acc
                  | _ => acc
                  end) None changes.

Definition removes (s : SignerIndex) (c : BlockKeeperSetChange) : bool :=
  match c with BlockKeeperRemoved s' _ => bool_decide (s' = s) | _ => false end.

Lemma foldl_removed_lookup changes b s :
  by_signer (foldl apply_removed b changes) !! s =
    if existsb (removes s) changes then None else by_signer b !! s.
Proof.
  revert b. induction changes as [|c changes IH]; intros b; simpl; [done|]. rewrite IH.
  destruct c; simpl; [done| |done].
  rewrite lookup_delete. case_bool_decide; case_decide; try done. by destruct (existsb _ _).
Qed.

Lemma foldl_added_lookup changes b f s :
  by_signer (foldl apply_added (b, f) changes).1 !! s =
    match last_added s changes with Some k => Some k | None => by_signer b !! s end ∧
  by_signer (foldl apply_added (b, f) changes).2 !! s =
    match last_added s changes with Some _ => None | None => by_signer f !! s end.
Proof.
  unfold last_added. induction changes as [|c changes IH] using rev_ind; [done|].
  rewrite !foldl_app. simpl.
  destruct (foldl apply_added (b, f) changes) as [b1 f1]. simpl in IH.
  destruct IH as [IH1 IH2]. destruct c as [s' k|s' k|s' k]; simpl; [|done..].
  rewrite lookup_insert. unfold BlockKeeperSet_contains_signer.
  case_bool_decide as Hs; case_bool_decide as Hc; case_decide as Hd; try done.
  - split; [done|]. subst. simpl. by rewrite lookup_delete_eq.
  - split; [done|]. subst. by apply eq_None_not_Some.
  - split; [done|]. simpl. by rewrite lookup_delete_ne.
Qed.

Lemma foldl_future_lookup changes f s :
  by_signer (foldl apply_future f changes) !! s =
    match last_future_added s changes with Some k => Some k | None => by_signer f !! s end.
Proof.
  unfold last_future_added. induction changes as [|c changes IH] using rev_ind; [done|].
  rewrite !foldl_app. simpl. destruct c as [s' k|s' k|s' k]; simpl; [done..|].
  rewrite lookup_insert. case_bool_decide; case_decide; done.
Qed.

(** The key index follows the signer index through every operation. *)
Definition keys_match b : Prop := signer_to_pubkey b = pubkey <$> by_signer b.

Lemma insert_keys_match b s k : keys_match b → keys_match (BlockKeeperSet_insert b s k).
Proof. unfold keys_match. simpl. intros ->. by rewrite fmap_insert. Qed.

Lemma remove_keys_match b s : keys_match b → keys_match (BlockKeeperSet_remove_signer b s).1.
Proof. unfold keys_match. simpl. intros ->. by rewrite fmap_delete. Qed.

Lemma update_keys_match changes b f b' f' :
  keys_match b → keys_match f →
  update_block_keeper_set_from_common_section changes b f = Some (b', f') →
  keys_match b' ∧ keys_match f'.
Proof.
  intros Hb Hf. unfold update_block_keeper_set_from_common_section.
  destruct changes as [|c0 cs]; [done|]. generalize (c0 :: cs). clear c0 cs. intros changes.
  assert (keys_match (foldl apply_removed b changes)) as Hb1.
  { revert b Hb. induction changes as [|c changes IH]; intros b Hb; simpl; [done|].
    apply IH. destruct c; simpl; auto. by apply remove_keys_match. }
  assert (∀ b1, keys_match b1 → keys_match (foldl apply_added (b1, f) changes).1 ∧
                keys_match (foldl apply_added (b1, f) changes).2) as Hadd.
  { clear -Hf. intros b1 Hb1. revert b1 f Hb1 Hf.
    induction changes as [|c changes IH]; intros b1 f Hb1 Hf; simpl; [done|].
    destruct c; simpl; auto. apply IH; [by apply insert_keys_match|].
    destruct (BlockKeeperSet_contains_signer f s); [by apply remove_keys_match|done]. }
  specialize (Hadd _ Hb1). destruct (foldl apply_added _ changes) as [b2 f2].
  intros [= <- <-]. simpl in Hadd. destruct Hadd as [H1 H2]. split; [done|].
  revert f2 H2. clear. induction changes as [|c changes IH]; intros f Hf; simpl; [done|].
  apply IH. destruct c; simpl; auto. by apply insert_keys_match.
Qed.

(** Update_block_keeper_set_from_common_section: the sets are left alone when a block
    carries no change; otherwise a signer's keeper is the last one added for it, else gone
    if it was removed, else the old one, however the changes are interleaved; adding a
    keeper takes it off the future set, future additions come last; and the verification
    keys of both results are exactly the keys of their keepers. *)
Theorem update_block_keeper_set_spec changes b f :
  match update_block_keeper_set_from_common_section changes b f with
  | None => changes = []
  | Some (b', f') =>
      changes ≠ [] ∧
      (∀ s, by_signer b' !! s =
         match last_added s changes with
         | Some k => Some k
         | None => if existsb (removes s) changes then None else by_signer b !! s
         end) ∧
      (∀ s, by_signer f' !! s =
         match last_future_added s changes, last_added s changes with
         | Some k, _ => Some k
         | None, Some _ => None
         | None, None => by_signer f !! s
         end) ∧
      (keys_match b → keys_match f → keys_match b' ∧ keys_match f')
  end.
Proof.
  destruct (update_block_keeper_set_from_common_section changes b f) as [[b' f']|] eqn:Hu.
  - split_and!; [by intros ->|..].
    + intros s. revert Hu. unfold update_block_keeper_set_from_common_section.
      destruct changes as [|c cs]; [done|].
      pose proof (foldl_added_lookup (c :: cs) (foldl apply_removed b (c :: cs)) f s) as [H1 _].
      rewrite foldl_removed_lookup in H1.
      destruct (foldl apply_added _ (c :: cs)) as [b2 f2]. by intros [= <- <-].
    + intros s. revert Hu. unfold update_block_keeper_set_from_common_section.
      destruct changes as [|c cs]; [done|]. generalize (c :: cs). intros changes.
      pose proof (foldl_added_lookup changes (foldl apply_removed b changes) f s) as [_ H2].
      destruct (foldl apply_added _ changes) as [b2 f2]. simpl in H2.
      intros [= <- <-]. rewrite foldl_future_lookup, H2.
      by destruct (last_future_added s changes).
    + intros Hb Hf. exact (update_keys_match _ _ _ _ _ Hb Hf Hu).
  - revert Hu. unfold update_block_keeper_set_from_common_section.
    destruct changes as [|c cs]; [done|]. generalize (c :: cs). intros changes.
    destruct (foldl apply_added _ changes) as [b2 f2]. discriminate.
Qed.
End update_theorems.

(** ** Stake that has not attested *)
Section stake_theorems.
Context `{Blst}.
Implicit Types (b : BlockKeeperSet) (A : gset SignerIndex).

Definition stake_step A (s : SignerIndex) (k : BlockKeeperData) (acc : N) : N :=
  (if bool_decide (s ∉ A) then acc + stake k else acc)%N.

Lemma undistributed_insert A s k (m : gmap SignerIndex BlockKeeperData) :
  m !! s = None →
  map_fold (stake_step A) 0%N (<[s := k]> m) = stake_step A s k (map_fold (stake_step A) 0%N m).
Proof.
  intros Hs. apply map_fold_insert_L; [|done].
  intros j1 j2 z1 z2 y _ _ _. unfold stake_step. repeat case_bool_decide; lia.
Qed.

(** BlockKeeperSet::get_undistributed_stake: the stake left undistributed by two
    disjoint groups of attesting signers is accounted for exactly: with [total] the stake
    left when nobody attested, the parts left by [A] and by its complement add up to
    [total]; more attestations never leave more stake; and once every signer of the set
    attested nothing is left. *)
Theorem undistributed_stake_split b A A' :
  let und := BlockKeeperSet_get_undistributed_stake b in
  (und A + und (dom (by_signer b) ∖ A) = und ∅)%N ∧
  (und (A ∪ A') ≤ und A)%N ∧ und (dom (by_signer b) ∪ A) = 0%N.
Proof.
  intros und. unfold und, BlockKeeperSet_get_undistributed_stake.
  change (λ s k acc, if bool_decide (s ∉ ?X) then acc + stake k else acc)%N with (stake_step X).
  assert (∀ D (m : gmap SignerIndex BlockKeeperData), dom m ⊆ D →
    (map_fold (stake_step A) 0 m + map_fold (stake_step (D ∖ A)) 0 m =
       map_fold (stake_step ∅) 0 m)%N ∧
    (map_fold (stake_step (A ∪ A')) 0 m ≤ map_fold (stake_step A) 0 m)%N ∧
    map_fold (stake_step (D ∪ A)) 0%N m = 0%N) as Hgen; [|by apply Hgen].
  intros D m. induction m as [|s k m Hs IH] using map_ind; intros HD.
  - by rewrite !map_fold_empty.
  - rewrite !undistributed_insert by done. rewrite dom_insert_L in HD.
    assert (s ∈ D) as HsD by set_solver. destruct IH as (IH1 & IH2 & IH3); [set_solver|].
    unfold stake_step at 1 3 5 7 9 11. repeat case_bool_decide; set_solver by lia.
Qed.
End stake_theorems.

(** ** Producer rotation *)
Section selector_theorems.
Context `{Blst}.
Variable iter_order : gset NodeIdentifier → list NodeIdentifier.
Variable shuffle : list Z → list NodeIdentifier → list NodeIdentifier.
(** A map enumerates each key once; a shuffle permutes. *)
Hypothesis iter_order_elements : ∀ X, iter_order X ≡ₚ elements X.
Hypothesis shuffle_perm : ∀ seed l, shuffle seed l ≡ₚ l.
Implicit Types (p : ProducerSelector) (b : BlockKeeperSet) (n : NodeIdentifier).

Notation shuffled := (shuffled_node_ids iter_order shuffle).
Notation distance := (get_distance_from_bp iter_order shuffle).

Lemma find_position_Some n l i :
  find_position n l = Some i → l !! i = Some n.
Proof.
  revert i. induction l as [|x l IH]; intros i; simpl; [done|].
  case_bool_decide as Hx; [by intros [= <-]; subst|].
  intros (j & Hj & ->)%fmap_Some. by apply IH.
Qed.

Lemma find_position_nodup n l i :
  NoDup l → l !! i = Some n → find_position n l = Some i.
Proof.
  revert i. induction l as [|x l IH]; intros i; simpl; [done|].
  intros [Hx Hnd]%NoDup_cons. destruct i as [|i]; simpl.
  - intros [= ->]. by rewrite bool_decide_eq_true_2.
  - intros Hi. rewrite bool_decide_eq_false_2 by (intros ->; apply Hx; by eapply list_elem_of_lookup_2).
    by rewrite (IH i).
Qed.

Lemma shuffled_perm p b : shuffled p b ≡ₚ elements (dom (signer_by_node_id b)).
Proof. unfold shuffled_node_ids, iter_node_ids. by rewrite shuffle_perm, iter_order_elements. Qed.

Lemma shuffled_nodup p b : NoDup (shuffled p b).
Proof. rewrite shuffled_perm. apply NoDup_elements. Qed.

Lemma shuffled_length p b : length (shuffled p b) = length (iter_node_ids iter_order b).
Proof. unfold shuffled_node_ids. by rewrite shuffle_perm. Qed.

Lemma iter_node_ids_length b :
  BlockKeeperSet_wf b → length (iter_node_ids iter_order b) = BlockKeeperSet_len b.
Proof.
  intros Hwf. unfold iter_node_ids. rewrite iter_order_elements.
  change (length (elements ?X)) with (size X). rewrite size_dom. by apply wf_node_index_size.
Qed.

(** The two-branch subtraction is distance on a ring of [len] positions. *)
Lemma ring_distance len i pos d :
  i < len → pos < len →
  (if bool_decide (i ≤ pos) then pos - i else len - i + pos) = d ↔
  d < len ∧ (i + d) `mod` len = pos.
Proof.
  intros Hi Hp. case_bool_decide as Hc; split.
  - intros <-. split; [lia|]. rewrite Nat.mod_small; lia.
  - intros [Hd Hm]. destruct (decide (i + d < len)).
    + rewrite Nat.mod_small in Hm; lia.
    + replace (i + d) with ((i + d - len) + 1 * len) in Hm by lia.
      rewrite Nat.Div0.mod_add, Nat.mod_small in Hm; lia.
  - intros <-. split; [lia|]. replace (i + (len - i + pos)) with (pos + 1 * len) by lia.
    rewrite Nat.Div0.mod_add, Nat.mod_small; lia.
  - intros [Hd Hm]. destruct (decide (i + d < len)).
    + rewrite Nat.mod_small in Hm; lia.
    + replace (i + d) with ((i + d - len) + 1 * len) in Hm by lia.
      rewrite Nat.Div0.mod_add, Nat.mod_small in Hm; lia.
Qed.

Lemma distance_spec p b n d :
  index p < length (shuffled p b) →
  distance p b n = Some d ↔
  d < length (shuffled p b) ∧ shuffled p b !! ((index p + d) `mod` length (shuffled p b)) = Some n.
Proof.
  intros Hi. unfold get_distance_from_bp. rewrite <- (shuffled_length p b).
  rewrite bool_decide_eq_false_2 by lia. rewrite bind_Some. split.
  - intros (pos & Hpos & Hd). injection Hd as Hd. apply find_position_Some in Hpos.
    apply ring_distance in Hd as [? <-]; [done|done|by eapply lookup_lt_Some].
  - intros [Hd Hl]. eexists. split; [by apply find_position_nodup; [apply shuffled_nodup|]|].
    f_equal. apply ring_distance; [done| |done]. by eapply lookup_lt_Some.
Qed.

Lemma shuffled_len p b : BlockKeeperSet_wf b → length (shuffled p b) = BlockKeeperSet_len b.
Proof. intros Hwf. by rewrite shuffled_length, iter_node_ids_length. Qed.

Lemma distance_len_spec p b n d :
  BlockKeeperSet_wf b → index p < BlockKeeperSet_len b →
  distance p b n = Some d ↔
  d < BlockKeeperSet_len b ∧
  shuffled p b !! ((index p + d) `mod` BlockKeeperSet_len b) = Some n.
Proof. intros Hwf Hi. rewrite <- (shuffled_len p b Hwf) in *. by apply distance_spec. Qed.

Lemma move_index_producer p b d :
  BlockKeeperSet_wf b → index p < BlockKeeperSet_len b →
  move_index p d (BlockKeeperSet_len b) ≫= (λ p', get_producer_node_id iter_order shuffle p' b) =
  unwrap (shuffled p b !! ((index p + d) `mod` BlockKeeperSet_len b)).
Proof.
  intros Hwf Hi. unfold move_index. rewrite bool_decide_eq_false_2 by lia. simpl.
  unfold get_producer_node_id. simpl. change (shuffled_node_ids _ _ _ _) with (shuffled p b).
  rewrite bool_decide_eq_true_2; [done|]. rewrite shuffled_len by done.
  apply Nat.mod_upper_bound. lia.
Qed.

Lemma distance_is_Some p b n :
  BlockKeeperSet_wf b → index p < BlockKeeperSet_len b →
  is_Some (distance p b n) ↔ is_Some (signer_by_node_id b !! n).
Proof.
  intros Hwf Hi. rewrite <- elem_of_dom, <- elem_of_elements, <- (shuffled_perm p). split.
  - intros [d [_ Hl]%distance_len_spec]; [|done..]. by eapply list_elem_of_lookup_2.
  - intros [pos Hpos]%list_elem_of_lookup_1.
    pose proof (lookup_lt_Some _ _ _ Hpos) as Hlt. rewrite shuffled_len in Hlt by done.
    eexists. apply distance_len_spec; [done..|].
    destruct (proj1 (ring_distance _ _ pos _ Hi Hlt) eq_refl) as [H1 H2].
    split; [exact H1|]. by rewrite H2.
Qed.

Lemma offset_check_producer p b n offset :
  BlockKeeperSet_wf b → index p < BlockKeeperSet_len b →
  check_whether_this_node_is_bp_based_on_bk_set_and_index_offset (E := SelectorError)
    iter_order shuffle p b n offset =
  (λ producer, bool_decide (producer = n)) <$>
    unwrap (shuffled p b !! ((index p + offset) `mod` BlockKeeperSet_len b)).
Proof.
  intros Hwf Hi. unfold check_whether_this_node_is_bp_based_on_bk_set_and_index_offset.
  assert (distance p b n = Some (offset `mod` BlockKeeperSet_len b) ↔
    shuffled p b !! ((index p + offset) `mod` BlockKeeperSet_len b) = Some n) as Hoff.
  { rewrite distance_len_spec, Nat.Div0.add_mod_idemp_r by done.
    pose proof (Nat.mod_upper_bound offset (BlockKeeperSet_len b)). naive_solver lia. }
  destruct (shuffled p b !! _) as [n'|] eqn:Hl; simpl.
  - destruct (distance p b n) as [d|].
    + rewrite bool_decide_eq_false_2 by lia. f_equal. apply bool_decide_ext. naive_solver.
    + f_equal. symmetry. apply bool_decide_eq_false_2. naive_solver.
  - exfalso. apply lookup_ge_None in Hl. rewrite shuffled_len in Hl by done.
    pose proof (Nat.mod_upper_bound (index p + offset) (BlockKeeperSet_len b)). lia.
Qed.

(** ProducerSelector: while the index is inside the set, every keeper node of the set
    and no other has a distance from the producer; distances are below the set's size and
    different nodes have different distances; moving the index by a node's distance makes
    that node the producer, so the producer itself is at distance 0; and the offset check
    says exactly whether the node produces after the index has moved by the offset. *)
Theorem producer_selector_rotation p b n :
  BlockKeeperSet_wf b → index p < BlockKeeperSet_len b →
  (is_Some (distance p b n) ↔ is_Some (signer_by_node_id b !! n)) ∧
  (∀ d, distance p b n = Some d →
     d < BlockKeeperSet_len b ∧
     (∀ n', distance p b n' = Some d → n' = n) ∧
     move_index p d (BlockKeeperSet_len b) ≫= (λ p', get_producer_node_id iter_order shuffle p' b)
       = Ok n) ∧
  (∀ offset, check_whether_this_node_is_bp_based_on_bk_set_and_index_offset
      iter_order shuffle p b n offset =
    move_index p offset (BlockKeeperSet_len b) ≫= (λ p', is_node_bp iter_order shuffle p' b n)).
Proof.
  intros Hwf Hi. split_and!.
  - by apply distance_is_Some.
  - intros d Hs. pose proof Hs as [Hlt Hl]%distance_len_spec; [|done..]. split_and!; [done| |].
    + intros n' [_ Hl']%distance_len_spec; [congruence|done..].
    + by rewrite move_index_producer, Hl.
  - intros offset. rewrite offset_check_producer, <- move_index_producer by done.
    unfold is_node_bp, move_index. by case_bool_decide.
Qed.
End selector_theorems.

(** ** Evaluation on a concrete set *)
Section keeper_witnesses.
#[local] Existing Instance LinearBlst.

Definition example_keeper (n pk : Z) (st : N) : BlockKeeperData :=
  mkBlockKeeperData pk None Active "" st (AccountAddr (replicate 31 0%Z ++ [n])) n [].

Definition example_keepers : BlockKeeperSet :=
  BlockKeeperSet_insert (BlockKeeperSet_insert BlockKeeperSet_new 1 (example_keeper 1 11 5))
    2 (example_keeper 2 22 7).

Lemma example_insertable :
  insertable (BlockKeeperSet_insert BlockKeeperSet_new 1 (example_keeper 1 11 5))
    2 (example_keeper 2 22 7).
Proof.
  split.
  - intros s' k' Hk' Hn. simpl in Hk'. apply lookup_insert_Some in Hk' as [[<- <-]|[_ Hk']].
    + vm_compute in Hn. discriminate Hn.
    + rewrite lookup_empty in Hk'. discriminate Hk'.
  - intros k' Hk'. vm_compute in Hk'. discriminate Hk'.
Qed.

Lemma example_first_insertable : insertable BlockKeeperSet_new 1 (example_keeper 1 11 5).
Proof. split; intros *; simpl; by rewrite lookup_empty. Qed.

Lemma example_first_wf :
  BlockKeeperSet_wf (BlockKeeperSet_insert BlockKeeperSet_new 1 (example_keeper 1 11 5)).
Proof. apply BlockKeeperSet_insert_wf; [apply BlockKeeperSet_new_wf|apply example_first_insertable]. Qed.

Lemma example_keepers_wf : BlockKeeperSet_wf example_keepers.
Proof. apply BlockKeeperSet_insert_wf; [apply example_first_wf|apply example_insertable]. Qed.

Lemma block_keeper_set_consistent_witness :
  BlockKeeperSet_get_by_node_id example_keepers (node_id (example_keeper 2 22 7)) =
    Some (example_keeper 2 22 7) ∧
  (∀ n, signer_by_node_id (BlockKeeperSet_remove_signer example_keepers 2).1 !! n ≠ Some 2%Z).
Proof.
  assert (Hsteps : rtc keeper_step BlockKeeperSet_new example_keepers).
  { eapply rtc_l; [|eapply rtc_once; apply keeper_inserted, example_insertable].
    apply keeper_inserted, example_first_insertable. }
  destruct (block_keeper_set_consistent example_keepers Hsteps) as (_ & _ & Hnode & _ & Hrem).
  split.
  - apply Hnode. exists 2%Z. split; vm_compute; reflexivity.
  - destruct (BlockKeeperSet_remove_signer example_keepers 2) as [b' removed] eqn:Hr.
    exact (proj1 (proj2 (proj2 (proj2 (Hrem 2%Z b' removed Hr))))).
Defined.

Lemma block_keeper_set_serde_roundtrip_witness :
  BlockKeeperSet_deserialize (BlockKeeperSet_serialize example_keepers) = example_keepers.
Proof.
  exact (proj2 (block_keeper_set_serde_roundtrip example_keepers
    (map_to_list (BlockKeeperSet_serialize example_keepers)) example_keepers_wf
    (Permutation_refl _))).
Defined.

Lemma producer_selector_rotation_witness :
  get_distance_from_bp elements (λ _ l, reverse l)
    (mkProducerSelector BlockIdentifier_default 1) example_keepers
    (node_id (example_keeper 2 22 7)) = Some 1 ∧
  move_index (mkProducerSelector BlockIdentifier_default 1) 1 2 ≫=
    (λ p', get_producer_node_id elements (λ _ l, reverse l) p' example_keepers)
    = Ok (node_id (example_keeper 2 22 7)).
Proof.
  split; [vm_compute; reflexivity|].
  refine (proj2 (proj2 (proj1 (proj2 (producer_selector_rotation elements (λ _ l, reverse l)
    (λ X, Permutation_refl _) (λ _ l, reverse_Permutation l)
    (mkProducerSelector BlockIdentifier_default 1) example_keepers
    (node_id (example_keeper 2 22 7)) example_keepers_wf _)) 1 _))).
  - vm_compute. lia.
  - vm_compute. reflexivity.
Defined.
End keeper_witnesses.
