(* ===== verification/Envelope.v ===== *)
(** * BLS-signed envelopes

    Models [bls/envelope.rs] (the [Envelope] struct, its trait methods and its serde
    implementations) and [bls/create_signed.rs].  A [HashMap<SignerIndex, u16>] is a
    [gmap Z Z] whose values are 16-bit; the loop of [verify_signatures] and the serializer
    visit the map in hash order, so both are written over an explicit enumeration of the
    entries, and the theorems cover every enumeration. *)
From stdpp Require Import base numbers gmap strings fin_maps sorting list.
From S2P Require Import Prelude Identifiers Bls BlockKeepers.

(** [HashMap<SignerIndex, u16>] *)
Notation Occurrences := (gmap Z Z) (only parsing).

Definition occurrences_wf (o : Occurrences) : Prop := map_Forall (λ _ c, in_width 16 c) o.
#[global] Instance occurrences_wf_dec o : Decision (occurrences_wf o).
Proof. unfold occurrences_wf. apply _. Defined.

Inductive SealError :=
  | NodeNotInBkSet
  | SecretMissing
  | SealBls (e : BlsError).

Section envelope.
Context `{Blst} {TData : Type} `{Serialize TData}.

Record Envelope := mkEnvelope {
  aggregated_signature : Signature;
  signature_occurrences : Occurrences;
  data : TData;
}.

Definition Envelope_create (sig : Signature) (occ : Occurrences) (d : TData) : Envelope :=
  mkEnvelope sig occ d.

Definition Envelope_add_signature (e : Envelope) (signer_index : Z) (secret : Secret) :
    outcome BlsError Envelope :=
  GoshBLS_sign secret (data e) ≫= λ signature,
  GoshBLS_merge (aggregated_signature e) signature ≫= λ merged,
  match signature_occurrences e !! signer_index with
  | Some count =>
      checked 16 (count + 1) ≫= λ count',
      Ok (mkEnvelope merged (<[signer_index := count']> (signature_occurrences e)) (data e))
  | None =>
      Ok (mkEnvelope merged (<[signer_index := 1%Z]> (signature_occurrences e)) (data e))
  end.

Definition Envelope_clone_signature_occurrences (e : Envelope) : Occurrences :=
  signature_occurrences e.

Definition Envelope_has_signer_index (e : Envelope) (index : Z) : bool :=
  match signature_occurrences e !! index with
  | None => false
  | Some count => bool_decide (0 < count)%Z
  end.

Definition Envelope_signatures_count (e : Envelope) : nat := size (signature_occurrences e).
Definition Envelope_signers (e : Envelope) : gset Z := dom (signature_occurrences e).

(** The loop over the entries: [None] is the early return for an unknown signer, otherwise
    the pushed keys; a key was pushed iff [is_any_signature_exists] was set. *)
Fixpoint verify_loop (signers : gmap Z PubKey) (entries : list (Z * Z))
    (pubkeys_occurrences : list (PubKey * nat)) : option (list (PubKey * nat)) :=
  match entries with
  | [] => Some pubkeys_occurrences
  | (signer_index, count) :: entries =>
      if bool_decide (count = 0%Z) then verify_loop signers entries pubkeys_occurrences
      else
        match signers !! signer_index with
        | None => None
        | Some pubkey =>
            verify_loop signers entries (pubkeys_occurrences ++ [(pubkey, Z.to_nat count)])
        end
  end.

Definition Envelope_verify_from (entries : list (Z * Z)) (e : Envelope)
    (signers : gmap Z PubKey) : outcome BlsError bool :=
  match verify_loop signers entries [] with
  | None => Ok false
  | Some [] => Ok false
  | Some pubkeys_occurrences =>
      GoshBLS_verify (aggregated_signature e) pubkeys_occurrences (data e)
  end.

Definition Envelope_verify_signatures (e : Envelope) (signers : gmap Z PubKey) :
    outcome BlsError bool :=
  Envelope_verify_from (map_to_list (signature_occurrences e)) e signers.

(** The wire form [EnvelopeSerDe]. *)
Record EnvelopeSerDe := mkEnvelopeSerDe {
  serde_signature : Signature;
  serde_occurrences : list (Z * Z);
  serde_data : TData;
}.

Definition by_signer_order (a b : Z * Z) : Prop := (a.1 ≤ b.1)%Z.
#[global] Instance by_signer_order_dec : RelDecision by_signer_order.
Proof. intros a b. unfold by_signer_order. apply _. Defined.

(** [into_iter().collect()] yields some enumeration of the map, then [sort_by]. *)
Definition Envelope_serialize_from (entries : list (Z * Z)) (e : Envelope) : EnvelopeSerDe :=
  mkEnvelopeSerDe (aggregated_signature e) (merge_sort by_signer_order entries) (data e).

Definition Envelope_serialize (e : Envelope) : EnvelopeSerDe :=
  Envelope_serialize_from (map_to_list (signature_occurrences e)) e.

(** [HashMap::from_iter]: a later entry for the same key wins. *)
Definition hashmap_from_iter (entries : list (Z * Z)) : Occurrences :=
  foldl (λ m kv, <[kv.1 := kv.2]> m) ∅ entries.

Definition Envelope_deserialize (w : EnvelopeSerDe) : Envelope :=
  mkEnvelope (serde_signature w) (hashmap_from_iter (serde_occurrences w)) (serde_data w).

(** [CreateSealed::sealed]; the [expect] on [SHUTDOWN_FLAG.set] panics when the flag was
    already set. *)
Definition Envelope_sealed (shutdown_flag_set : bool) (node : NodeIdentifier)
    (bk_set : BlockKeeperSet) (bls_keys_map : gmap PubKey Secret) (d : TData) :
    outcome SealError Envelope :=
  ok_or (BlockKeeperSet_get_by_node_id bk_set node) NodeNotInBkSet ≫= λ bk_data,
  match bls_keys_map !! pubkey bk_data with
  | None => if shutdown_flag_set then Panic else Err SecretMissing
  | Some secret =>
      match GoshBLS_sign secret d with
      | Ok signature => Ok (Envelope_create signature {[signer_index bk_data := 1%Z]} d)
      | Err e => Err (SealBls e)
      | Panic => Panic
      end
  end.
End envelope.
Arguments Envelope {_} _.
Arguments EnvelopeSerDe {_} _.

(** ** Adding occurrence maps

    [entry(k).and_modify(|e| *e += v).or_insert(v)] for every entry of the second map, as the
    attestation folding and the authority switch do it; [+=] is on [u16]. *)
Definition add_occurrence {E} (acc : outcome E Occurrences) (kv : Z * Z) :
    outcome E Occurrences :=
  acc ≫= λ m,
  match m !! kv.1 with
  | Some c => checked 16 (c + kv.2) ≫= λ c', Ok (<[kv.1 := c']> m)
  | None => Ok (<[kv.1 := kv.2]> m)
  end.

Definition merge_occurrences_from {E} (acc : Occurrences) (entries : list (Z * Z)) :
    outcome E Occurrences := foldl add_occurrence (Ok acc) entries.

Definition merge_occurrences {E} (acc occ : Occurrences) : outcome E Occurrences :=
  merge_occurrences_from acc (map_to_list occ).

(** Specification: pointwise sum. *)
Definition sum_occurrences (o1 o2 : Occurrences) : Occurrences :=
  union_with (λ a b, Some (a + b)%Z) o1 o2.

(** Adding [v] occurrences of [k] stays inside [u16]. *)
Definition fits (acc : Occurrences) (k v : Z) : Prop :=
  match acc !! k with Some c => in_width 16 (c + v) | None => True end.
#[global] Instance fits_dec acc k v : Decision (fits acc k v).
Proof. unfold fits. destruct (acc !! k); apply _. Defined.

Section occurrences_lemmas.
Context {E : Type}.

Lemma foldl_add_Err_Panic (entries : list (Z * Z)) :
  foldl add_occurrence (Panic (E := E)) entries = Panic.
Proof. by induction entries. Qed.

(** The sum so far, after the entries of a list with distinct keys. *)
Lemma merge_occurrences_spec (entries : list (Z * Z)) (acc : Occurrences) :
  NoDup entries.*1 →
  merge_occurrences_from (E := E) acc entries =
    if decide (Forall (λ kv, fits acc kv.1 kv.2) entries)
    then Ok (sum_occurrences acc (list_to_map entries)) else Panic.
Proof.
  unfold merge_occurrences_from. revert acc.
  induction entries as [|[k v] es IH]; intros acc Hnd; cbn [foldl].
  { rewrite decide_True by constructor. f_equal. unfold sum_occurrences.
    apply map_eq. intros i. rewrite lookup_union_with, list_to_map_nil, lookup_empty. by destruct (acc !! i). }
  rewrite fmap_cons in Hnd. apply NoDup_cons in Hnd as [Hk Hnd]. rewrite list_to_map_cons.
  unfold add_occurrence at 2. cbn [mbind outcome_bind fst snd].
  assert (∀ x, Forall (λ kv, fits acc kv.1 kv.2) es ↔
    Forall (λ kv, fits (<[k := x]> acc) kv.1 kv.2) es) as Hext.
  { intros x. rewrite !Forall_forall. unfold fits. apply forall_proper. intros [k' v']. simpl.
    rewrite lookup_insert. case_decide as Hi; [|done]. subst k'.
    split; intros _ Hin; destruct Hk; apply list_elem_of_fmap; by exists (k, v'). }
  assert (∀ x, sum_occurrences (<[k := x]> acc) (list_to_map es) =
    <[k := x]> (sum_occurrences acc (list_to_map es))) as Hsum.
  { intros x. apply map_eq. intros i. unfold sum_occurrences. rewrite lookup_union_with.
    rewrite !lookup_insert. case_decide as Hi; [|by rewrite lookup_union_with].
    subst i. by rewrite not_elem_of_list_to_map_1 by done. }
  assert (sum_occurrences acc (<[k := v]> (list_to_map es)) =
    <[k := default 0%Z (acc !! k) + v]>%Z (sum_occurrences acc (list_to_map es))) as Hins.
  { apply map_eq. intros i. unfold sum_occurrences. rewrite lookup_union_with, !lookup_insert.
    case_decide as Hi; [|by rewrite lookup_union_with]. subst i. by destruct (acc !! k). }
  destruct (acc !! k) as [c|] eqn:Hc.
  - unfold checked. case_decide as Hw; cbn [mbind outcome_bind].
    + rewrite (IH _ Hnd). rewrite Hsum, Hins. cbn [default from_option id].
      apply decide_ext; [|done..]. rewrite Forall_cons, <- Hext. unfold fits at 2. simpl.
      rewrite Hc. naive_solver.
    + rewrite foldl_add_Err_Panic, decide_False; [done|]. rewrite Forall_cons.
      unfold fits at 1. simpl. rewrite Hc. naive_solver.
  - rewrite (IH _ Hnd), Hsum, Hins.
    apply decide_ext; [|done..]. rewrite Forall_cons, <- Hext. unfold fits at 2. simpl.
    rewrite Hc. naive_solver.
Qed.

(** Merging does not depend on the enumeration order, and panics exactly when some sum
    leaves the 16-bit range. *)
Lemma merge_occurrences_any_order (acc occ : Occurrences) entries :
  entries ≡ₚ map_to_list occ →
  merge_occurrences_from (E := E) acc entries =
    if decide (map_Forall (fits acc) occ)
    then Ok (sum_occurrences acc occ) else Panic.
Proof.
  intros Hp. assert (NoDup entries.*1) as Hnd by (rewrite Hp; apply NoDup_fst_map_to_list).
  rewrite merge_occurrences_spec by done.
  rewrite (list_to_map_proper entries _ Hnd Hp), list_to_map_to_list.
  apply decide_ext; [|done..]. rewrite Hp, map_Forall_to_list.
  rewrite !Forall_forall. split; intros Ha [k v]; by apply Ha.
Qed.
End occurrences_lemmas.

(** ** Verification as a statement about the multiset of keys *)
Section verify_lemmas.
Context `{Blst} {TData : Type} `{Serialize TData}.
Implicit Types (e : Envelope TData) (signers : gmap Z PubKey) (entries : list (Z * Z)).

(** The keys of the signers, each as often as it signed. *)
Definition flat_keys signers entries : list PubKey :=
  entries ≫= λ '(s, c), match signers !! s with Some pk => replicate (Z.to_nat c) pk | None => [] end.

Definition known signers entries : Prop :=
  Forall (λ sc, sc.2 ≠ 0%Z → is_Some (signers !! sc.1)) entries.
#[global] Instance known_dec signers entries : Decision (known signers entries).
Proof. unfold known. apply _. Defined.

Definition verify_flat (sig : Signature) (keys : list PubKey) (d : TData) :
    outcome BlsError bool :=
  ok_or (blst_aggregate_pk keys) PubkeyAggregationFailed ≫= λ aggregated,
  ok_or (bincode_serialize d) SerializeFailed ≫= λ buffer, Ok (blst_verify sig buffer aggregated).

Lemma verify_loop_spec signers entries acc :
  Forall (λ sc, 0 ≤ sc.2)%Z entries →
  if decide (known signers entries) then
    ∃ pairs, verify_loop signers entries acc = Some (acc ++ pairs) ∧
             flatten_pubkeys pairs = flat_keys signers entries ∧
             (pairs = [] ↔ flat_keys signers entries = [])
  else verify_loop signers entries acc = None.
Proof.
  revert acc. induction entries as [|[s c] es IH]; intros acc Hpos; cbn [verify_loop].
  { rewrite decide_True by constructor. exists []. by rewrite app_nil_r. }
  apply Forall_cons in Hpos as [Hc Hpos]. simpl in Hc. case_bool_decide as Hz.
  - subst c. specialize (IH acc Hpos).
    assert (flat_keys signers ((s, 0%Z) :: es) = flat_keys signers es) as ->.
    { unfold flat_keys. csimpl. by destruct (signers !! s). }
    assert (known signers ((s, 0%Z) :: es) ↔ known signers es) as Hkn.
    { unfold known. rewrite Forall_cons. naive_solver. }
    destruct (decide (known signers es)) as [Hk|Hk];
      [rewrite decide_True by by apply Hkn|rewrite decide_False by by rewrite Hkn]; exact IH.
  - destruct (signers !! s) as [pk|] eqn:Hs.
    + specialize (IH (acc ++ [(pk, Z.to_nat c)]) Hpos).
      assert (known signers ((s, c) :: es) ↔ known signers es) as Hkn.
      { unfold known. rewrite Forall_cons. simpl. rewrite Hs. naive_solver. }
      revert IH. case_decide as Hk.
      * intros (pairs & Hl & Hf & _). rewrite decide_True by by apply Hkn.
        exists ((pk, Z.to_nat c) :: pairs). rewrite flatten_pubkeys_cons, Hf, Hl, <- app_assoc.
        unfold flat_keys at 2 3. csimpl. rewrite Hs. split_and!; [done..|].
        split; [done|]. intros [Hr _]%app_nil. destruct (Z.to_nat c) eqn:Hn; [lia|done].
      * rewrite decide_False; [done|]. by rewrite Hkn.
    + rewrite decide_False; [done|]. unfold known. rewrite Forall_cons. simpl. rewrite Hs.
      intros [Hc' _]. by destruct (Hc' Hz).
Qed.

Lemma verify_from_spec entries e signers :
  Forall (λ sc, 0 ≤ sc.2)%Z entries →
  Envelope_verify_from entries e signers =
    if decide (known signers entries ∧ flat_keys signers entries ≠ [])
    then verify_flat (aggregated_signature e) (flat_keys signers entries) (data e)
    else Ok false.
Proof.
  intros Hpos. unfold Envelope_verify_from.
  pose proof (verify_loop_spec signers entries [] Hpos) as Hl. case_decide as Hk.
  - destruct Hl as (pairs & -> & Hf & Hn). simpl. destruct pairs as [|p pairs].
    + rewrite decide_False; [done|]. naive_solver.
    + rewrite decide_True; [|split; [done|]; intros ?%Hn; done].
      unfold GoshBLS_verify, verify_flat. by rewrite Hf.
  - rewrite Hl, decide_False; naive_solver.
Qed.

Lemma flat_keys_perm signers l1 l2 : l1 ≡ₚ l2 → flat_keys signers l1 ≡ₚ flat_keys signers l2.
Proof. intros Hp. unfold flat_keys. by rewrite Hp. Qed.

Lemma flat_keys_insert signers (m : Occurrences) s c pk :
  m !! s = None → signers !! s = Some pk →
  flat_keys signers (map_to_list (<[s := c]> m)) ≡ₚ
    replicate (Z.to_nat c) pk ++ flat_keys signers (map_to_list m).
Proof.
  intros Hm Hs. rewrite (flat_keys_perm _ _ _ (map_to_list_insert m s c Hm)).
  unfold flat_keys. csimpl. by rewrite Hs.
Qed.

Lemma flat_keys_update signers (m : Occurrences) s c v pk :
  m !! s = Some c → signers !! s = Some pk → (0 ≤ c)%Z → (0 ≤ v)%Z →
  flat_keys signers (map_to_list (<[s := c + v]>%Z m)) ≡ₚ
    flat_keys signers (map_to_list m) ++ replicate (Z.to_nat v) pk.
Proof.
  intros Hm Hs Hc Hv. rewrite <- (insert_id m s c Hm) at 2.
  rewrite <- (insert_delete_eq m s (c + v)%Z), <- (insert_delete_eq m s c).
  rewrite !(flat_keys_insert signers _ s _ pk) by (done || by apply lookup_delete_eq).
  rewrite Z2Nat.inj_add, replicate_add by done. solve_Permutation.
Qed.

Context `{!BlstLaws}.

Lemma verify_flat_perm sig l1 l2 d : l1 ≡ₚ l2 → verify_flat sig l1 d = verify_flat sig l2 d.
Proof. intros Hp. unfold verify_flat. by rewrite (blst_aggregate_pk_perm _ _ Hp). Qed.

Lemma verify_flat_merge s1 s2 s l1 l2 (d : TData) :
  verify_flat s1 l1 d = Ok true → verify_flat s2 l2 d = Ok true →
  GoshBLS_merge s1 s2 = Ok s → verify_flat s (l1 ++ l2) d = Ok true.
Proof.
  intros V1 V2 Hm.
  assert (∀ l, flatten_pubkeys ((λ k, (k, 1)) <$> l) = l) as Hone.
  { induction l as [|k l IH]; [done|]. rewrite fmap_cons, flatten_pubkeys_cons, IH. done. }
  pose proof (GoshBLS_verify_merge s1 s2 s ((λ k, (k, 1)) <$> l1) ((λ k, (k, 1)) <$> l2) d)
    as Hmerge.
  unfold GoshBLS_verify in Hmerge. rewrite flatten_pubkeys_app, !Hone in Hmerge. auto.
Qed.

Lemma known_perm signers l1 l2 : l1 ≡ₚ l2 → known signers l1 ↔ known signers l2.
Proof. intros Hp. unfold known. by rewrite Hp. Qed.

Lemma verify_from_any_order entries e signers :
  occurrences_wf (signature_occurrences e) → entries ≡ₚ map_to_list (signature_occurrences e) →
  Envelope_verify_from entries e signers = Envelope_verify_signatures e signers.
Proof.
  intros Hwf Hp. unfold Envelope_verify_signatures.
  assert (Forall (λ sc, 0 ≤ sc.2)%Z (map_to_list (signature_occurrences e))) as Hpos.
  { apply map_Forall_to_list in Hwf. eapply Forall_impl; [exact Hwf|].
    intros [s c] [? ?]. done. }
  rewrite !verify_from_spec by (done || by rewrite Hp).
  rewrite (verify_flat_perm _ _ _ _ (flat_keys_perm signers _ _ Hp)).
  apply decide_ext; [|done..]. rewrite (known_perm _ _ _ Hp).
  pose proof (flat_keys_perm signers _ _ Hp) as Hf.
  split; intros [Hk Hne]; (split; [exact Hk|]); intros Heq; apply Hne; rewrite Heq in Hf;
    [by apply Permutation_nil_r|symmetry; by apply Permutation_nil_l].
Qed.
End verify_lemmas.

Section envelope_lemmas.
Context `{Blst} {TData : Type} `{Serialize TData}.
Implicit Types (e : Envelope TData) (signers : gmap Z PubKey) (o m : Occurrences).

Lemma wf_nonneg o : occurrences_wf o → Forall (λ sc, 0 ≤ sc.2)%Z (map_to_list o).
Proof.
  intros Hwf. apply map_Forall_to_list in Hwf. eapply Forall_impl; [exact Hwf|].
  by intros [s c] [? ?].
Qed.

Lemma known_map signers o :
  known signers (map_to_list o) ↔ map_Forall (λ s c, c ≠ 0%Z → is_Some (signers !! s)) o.
Proof. rewrite map_Forall_to_list. unfold known. by apply Forall_iff; intros [s c]. Qed.

Lemma verify_true_iff e signers :
  occurrences_wf (signature_occurrences e) →
  let keys := flat_keys signers (map_to_list (signature_occurrences e)) in
  Envelope_verify_signatures e signers = Ok true ↔
  map_Forall (λ s c, c ≠ 0%Z → is_Some (signers !! s)) (signature_occurrences e) ∧
  keys ≠ [] ∧ verify_flat (aggregated_signature e) keys (data e) = Ok true.
Proof.
  intros Hwf keys. unfold Envelope_verify_signatures.
  rewrite verify_from_spec by by apply wf_nonneg. rewrite <- known_map. fold keys.
  case_decide; naive_solver.
Qed.

Lemma flat_keys_unknown signers m s c :
  signers !! s = None →
  flat_keys signers (map_to_list (<[s := c]> m)) ≡ₚ flat_keys signers (map_to_list m).
Proof.
  intros Hs.
  assert (∀ m' c', m' !! s = None →
    flat_keys signers (map_to_list (<[s := c']> m')) ≡ₚ flat_keys signers (map_to_list m')) as Hins.
  { intros m' c' Hm. rewrite (flat_keys_perm _ _ _ (map_to_list_insert m' s c' Hm)).
    unfold flat_keys. csimpl. by rewrite Hs. }
  rewrite <- (insert_delete_eq m s c), Hins by apply lookup_delete_eq.
  destruct (m !! s) as [c'|] eqn:Hm; [|by rewrite delete_id].
  rewrite <- (insert_id m s c' Hm) at 2. rewrite <- insert_delete_eq.
  by rewrite Hins by apply lookup_delete_eq.
Qed.

Lemma sum_occurrences_insert o1 o2 k v :
  sum_occurrences o1 (<[k := v]> o2) =
  <[k := default 0%Z (o1 !! k) + v]>%Z (sum_occurrences o1 o2).
Proof.
  apply map_eq. intros i. unfold sum_occurrences. rewrite lookup_union_with, !lookup_insert.
  case_decide as Hi; [|by rewrite lookup_union_with]. subst i. by destruct (o1 !! k).
Qed.

Lemma sum_occurrences_empty o : sum_occurrences o ∅ = o.
Proof.
  apply map_eq. intros i. unfold sum_occurrences. rewrite lookup_union_with, lookup_empty.
  by destruct (o !! i).
Qed.

Lemma sum_occurrences_lookup o1 o2 k :
  sum_occurrences o1 o2 !! k =
    match o1 !! k, o2 !! k with
    | Some a, Some b => Some (a + b)%Z
    | Some a, None | None, Some a => Some a
    | None, None => None
    end.
Proof. unfold sum_occurrences. rewrite lookup_union_with. by destruct (o1 !! k), (o2 !! k). Qed.

Lemma dom_sum_occurrences o1 o2 : dom (sum_occurrences o1 o2) = dom o1 ∪ dom o2.
Proof.
  apply set_eq. intros k. rewrite elem_of_union, !elem_of_dom, sum_occurrences_lookup.
  destruct (o1 !! k), (o2 !! k); naive_solver.
Qed.

Lemma flat_keys_sum signers o1 o2 :
  map_Forall (λ _ c, 0 ≤ c)%Z o1 → map_Forall (λ _ c, 0 ≤ c)%Z o2 →
  flat_keys signers (map_to_list (sum_occurrences o1 o2)) ≡ₚ
    flat_keys signers (map_to_list o1) ++ flat_keys signers (map_to_list o2).
Proof.
  intros Ho1. induction o2 as [|k v o2 Hk IH] using map_ind; intros Ho2.
  { by rewrite sum_occurrences_empty, map_to_list_empty, app_nil_r. }
  apply map_Forall_insert in Ho2 as [Hv Ho2]; [|done].
  rewrite sum_occurrences_insert. specialize (IH Ho2).
  destruct (signers !! k) as [pk|] eqn:Hs; [|by rewrite !flat_keys_unknown].
  rewrite (flat_keys_insert _ o2 k v pk Hk Hs).
  assert (sum_occurrences o1 o2 !! k = o1 !! k) as Hsk.
  { rewrite sum_occurrences_lookup, Hk. by destruct (o1 !! k). }
  destruct (o1 !! k) as [c|] eqn:Hc; simpl.
  - assert (0 ≤ c)%Z by by apply (Ho1 k).
    rewrite (flat_keys_update _ _ k c v pk) by done. rewrite IH. solve_Permutation.
  - rewrite (flat_keys_insert _ _ k _ pk) by done. rewrite IH. solve_Permutation.
Qed.

Lemma occurrences_wf_nonneg o : occurrences_wf o → map_Forall (λ _ c, 0 ≤ c)%Z o.
Proof. intros Hwf k c Hc. by apply (Hwf k). Qed.

Context `{!BlstLaws}.

(** Two valid envelopes over the same data merge into a valid one. *)
Lemma verify_sum s1 s2 s o1 o2 (d : TData) signers :
  occurrences_wf o1 → occurrences_wf o2 → occurrences_wf (sum_occurrences o1 o2) →
  Envelope_verify_signatures (mkEnvelope s1 o1 d) signers = Ok true →
  Envelope_verify_signatures (mkEnvelope s2 o2 d) signers = Ok true →
  GoshBLS_merge s1 s2 = Ok s →
  Envelope_verify_signatures (mkEnvelope s (sum_occurrences o1 o2) d) signers = Ok true.
Proof.
  intros W1 W2 W (K1 & N1 & V1)%verify_true_iff (K2 & N2 & V2)%verify_true_iff Hm; [|done..].
  simpl in *. pose proof (flat_keys_sum signers o1 o2 (occurrences_wf_nonneg _ W1)
    (occurrences_wf_nonneg _ W2)) as Hf.
  apply verify_true_iff; [done|]. simpl. split_and!.
  - intros k c Hc Hne. rewrite sum_occurrences_lookup in Hc.
    destruct (o1 !! k) as [a|] eqn:H1k, (o2 !! k) as [b|] eqn:H2k; simplify_eq.
    + destruct (decide (a = 0%Z)); [|by apply (K1 k a)]. apply (K2 k b); [done|lia].
    + by apply (K1 k c).
    + by apply (K2 k c).
  - intros Heq. rewrite Heq in Hf. apply Permutation_nil_l in Hf.
    symmetry in Hf. by apply app_nil in Hf as [? _].
  - rewrite (verify_flat_perm _ _ _ _ Hf). by eapply verify_flat_merge.
Qed.
End envelope_lemmas.

(** ** Theorems *)
Section envelope_theorems.
Context `{Blst} {TData : Type} `{Serialize TData} `{!BlstLaws}.
Implicit Types (e : Envelope TData) (signers : gmap Z PubKey).

Lemma single_signer_valid signers idx secret (d : TData) sig :
  signers !! idx = Some (blst_sk_to_pk secret) → GoshBLS_sign secret d = Ok sig →
  Envelope_verify_signatures (mkEnvelope sig {[idx := 1%Z]} d) signers = Ok true.
Proof.
  intros Hs Hsign. apply verify_true_iff; simpl.
  { apply map_Forall_singleton. done. }
  rewrite map_to_list_singleton. unfold flat_keys. csimpl. rewrite Hs. simpl. split_and!.
  - apply map_Forall_singleton. intros _. by rewrite Hs.
  - done.
  - unfold GoshBLS_sign in Hsign. unfold verify_flat.
    destruct (bincode_serialize d) as [buf|]; [|done]. simpl in *. injection Hsign as <-.
    destruct (blst_sign_verify secret buf) as (pk & -> & Hv). simpl. by rewrite Hv.
Qed.

Lemma merge_Ok_or s1 s2 : (∃ s, GoshBLS_merge s1 s2 = Ok s) ∨ GoshBLS_merge s1 s2 = Err MergeFailed.
Proof. unfold GoshBLS_merge. destruct (blst_add_signature s1 s2); simpl; eauto. Qed.

(** Envelope::add_signature: a valid envelope stays valid when a signer whose key is
    known adds its signature; the count of that signer grows by one and no other changes;
    the only failures are a failed curve addition and the 65536th signature of one signer,
    which overflows the [u16] counter and panics. *)
Theorem add_signature_keeps_valid e signers idx secret :
  occurrences_wf (signature_occurrences e) →
  Envelope_verify_signatures e signers = Ok true →
  signers !! idx = Some (blst_sk_to_pk secret) →
  match Envelope_add_signature e idx secret with
  | Ok e' =>
      Envelope_verify_signatures e' signers = Ok true ∧ data e' = data e ∧
      occurrences_wf (signature_occurrences e') ∧
      signature_occurrences e' =
        <[idx := (default 0 (signature_occurrences e !! idx) + 1)%Z]> (signature_occurrences e) ∧
      Envelope_has_signer_index e' idx = true
  | Err err => err = MergeFailed
  | Panic => signature_occurrences e !! idx = Some (2 ^ 16 - 1)%Z
  end.
Proof.
  intros Hwf Hv Hs. unfold Envelope_add_signature.
  destruct (GoshBLS_sign secret (data e)) as [sig| |] eqn:Hsign; simpl.
  2: { exfalso. revert Hsign Hv. unfold GoshBLS_sign. intros Hsign.
       rewrite verify_true_iff by done. intros (_ & _ & Hf). revert Hf Hsign. unfold verify_flat.
       destruct (bincode_serialize _), (blst_aggregate_pk _); simpl; done. }
  2: { unfold GoshBLS_sign in Hsign. by destruct (bincode_serialize (data e)). }
  destruct (merge_Ok_or (aggregated_signature e) sig) as [[s Hm]| ->]; [|done]. rewrite Hm. simpl.
  pose proof (single_signer_valid _ _ _ _ _ Hs Hsign) as Hv1.
  assert (∀ c', default 0%Z (signature_occurrences e !! idx) + 1 = c' → in_width 16 c' →
    let o' := <[idx := c']> (signature_occurrences e) in
    Envelope_verify_signatures (mkEnvelope s o' (data e)) signers = Ok true ∧
    occurrences_wf o')%Z as Hnew.
  { intros c' Hc' Hw o'. assert (occurrences_wf o') by by apply map_Forall_insert_2.
    assert (o' = sum_occurrences (signature_occurrences e) {[idx := 1%Z]}) as Ho'.
    { unfold o'. rewrite <- insert_empty, sum_occurrences_insert, sum_occurrences_empty.
      by rewrite Hc'. }
    split; [|done]. rewrite Ho' in *. 
    refine (verify_sum _ _ _ _ _ _ _ Hwf _ _ _ Hv1 Hm);
      [by apply map_Forall_singleton|done|by destruct e]. }
  unfold Envelope_has_signer_index.
  destruct (signature_occurrences e !! idx) as [c|] eqn:Hc; simpl in Hnew; simpl.
  - unfold checked. case_decide as Hw; simpl.
    + destruct (Hnew _ eq_refl Hw). rewrite lookup_insert_eq. split_and!; try done.
      apply bool_decide_eq_true_2. pose proof (Hwf _ _ Hc) as [? _]. lia.
    + f_equal. pose proof (Hwf _ _ Hc) as [? ?]. unfold in_width in *. simpl in *. lia.
  - destruct (Hnew 1%Z) as [? ?]; [done|done|]. by rewrite lookup_insert_eq.
Qed.

(** Envelope::verify_signatures: whatever order the hash map is visited in, an
    envelope is accepted iff every signer with a positive count is known, at least one
    signer has a positive count, and the aggregated signature verifies under the aggregate
    of the signers' keys taken with multiplicity; no verification ever panics. *)
Theorem verify_signatures_any_order e signers entries :
  occurrences_wf (signature_occurrences e) →
  entries ≡ₚ map_to_list (signature_occurrences e) →
  Envelope_verify_from entries e signers = Envelope_verify_signatures e signers ∧
  is_panic (Envelope_verify_from entries e signers) = false ∧
  (Envelope_verify_from entries e signers = Ok true ↔
    map_Forall (λ s c, (0 < c)%Z → is_Some (signers !! s)) (signature_occurrences e) ∧
    (∃ s c, signature_occurrences e !! s = Some c ∧ (0 < c)%Z) ∧
    verify_flat (aggregated_signature e) (flat_keys signers entries) (data e) = Ok true).
Proof.
  intros Hwf Hp. pose proof (verify_from_any_order entries e signers Hwf Hp) as Heq.
  split_and!; [done|..].
  - rewrite verify_from_spec by (rewrite Hp; by apply wf_nonneg). case_decide; [|done].
    unfold verify_flat. destruct (blst_aggregate_pk _); [|done]. by destruct (bincode_serialize _).
  - rewrite Heq, verify_true_iff by done.
    rewrite (verify_flat_perm _ _ _ _ (flat_keys_perm signers _ _ Hp)).
    assert (map_Forall (λ s c, c ≠ 0%Z → is_Some (signers !! s)) (signature_occurrences e) ↔
            map_Forall (λ s c, (0 < c)%Z → is_Some (signers !! s)) (signature_occurrences e)) as <-.
    { split; intros Ha s c Hc Hpos; apply (Ha s c Hc); pose proof (Hwf _ _ Hc) as [? _]; lia. }
    split; intros (Hk & Hne & Hv); (split_and!; [done| |done]).
    + destruct (flat_keys _ _) as [|pk l] eqn:Hf; [done|].
      assert (pk ∈ flat_keys signers (map_to_list (signature_occurrences e))) as Hin
        by (rewrite Hf; by left).
      unfold flat_keys in Hin. apply list_elem_of_bind in Hin as ([s c] & Hpk & Hsc).
      apply elem_of_map_to_list in Hsc. exists s, c. split; [done|].
      destruct (signers !! s); [|by apply not_elem_of_nil in Hpk].
      destruct (Z.to_nat c) eqn:Hn; [by apply not_elem_of_nil in Hpk|lia].
    + destruct Hne as (s & c & Hc & Hpos). destruct (Hk s c Hc) as [pk Hpk]; [lia|].
      intros Hnil. assert (pk ∈ flat_keys signers (map_to_list (signature_occurrences e))) as Hin.
      { unfold flat_keys. apply list_elem_of_bind. exists (s, c).
        rewrite Hpk, elem_of_map_to_list. split; [|done].
        destruct (Z.to_nat c) eqn:Hn; [lia|]. left. }
      rewrite Hnil in Hin. by apply not_elem_of_nil in Hin.
Qed.
End envelope_theorems.

Section serde_theorems.
Context `{Blst} {TData : Type}.
Implicit Types (e : Envelope TData).

#[local] Instance by_signer_order_total : Total by_signer_order.
Proof. intros a b. unfold by_signer_order. lia. Qed.
#[local] Instance by_signer_order_trans : Transitive by_signer_order.
Proof. intros a b c. unfold by_signer_order. lia. Qed.

Lemma sorted_entries_unique (o : Occurrences) l1 l2 :
  l1 ≡ₚ map_to_list o → l2 ≡ₚ map_to_list o →
  merge_sort by_signer_order l1 = merge_sort by_signer_order l2.
Proof.
  intros Hp1 Hp2. apply (StronglySorted_unique_strong by_signer_order).
  - intros [s1 c1] [s2 c2]. rewrite !merge_sort_Permutation, Hp1, Hp2.
    rewrite !elem_of_map_to_list. unfold by_signer_order. simpl. intros Hc1 Hc2 ? ?.
    assert (s1 = s2) as -> by lia. congruence.
  - apply (StronglySorted_merge_sort _).
  - apply (StronglySorted_merge_sort _).
  - by rewrite !merge_sort_Permutation, Hp1, Hp2.
Qed.

Lemma hashmap_from_iter_perm (o : Occurrences) l :
  l ≡ₚ map_to_list o → hashmap_from_iter l = o.
Proof.
  intros Hp. apply map_eq. intros k. apply option_eq. intros v. unfold hashmap_from_iter.
  rewrite (foldl_insert_lookup fst snd), lookup_empty.
  - rewrite <- elem_of_map_to_list, <- Hp. split.
    + intros [?|([k' v'] & ? & <- & <-)]; done.
    + intros Hin. right. by exists (k, v).
  - rewrite Hp. apply NoDup_fst_map_to_list.
  - intros. apply lookup_empty.
Qed.

(** Serde of Envelope: the serialized form is the same for every order in which the
    hash map yields its entries, its entries are sorted by signer, and reading it back
    yields the same envelope. *)
Theorem envelope_serde_roundtrip e entries :
  entries ≡ₚ map_to_list (signature_occurrences e) →
  Envelope_serialize_from entries e = Envelope_serialize e ∧
  StronglySorted by_signer_order (serde_occurrences (Envelope_serialize e)) ∧
  Envelope_deserialize (Envelope_serialize_from entries e) = e.
Proof.
  intros Hp. split_and!.
  - unfold Envelope_serialize, Envelope_serialize_from. f_equal.
    by apply (sorted_entries_unique (signature_occurrences e)).
  - apply (StronglySorted_merge_sort _).
  - unfold Envelope_deserialize, Envelope_serialize_from. simpl.
    rewrite hashmap_from_iter_perm with (o := signature_occurrences e); [by destruct e|].
    by rewrite merge_sort_Permutation.
Qed.
End serde_theorems.

Section count_theorems.
Context `{Blst} {TData : Type} `{Serialize TData} `{!BlstLaws}.
Implicit Types (e : Envelope TData) (signers : gmap Z PubKey).

(** Envelope::signatures_count: the count is the number of distinct signers listed,
    not of those that signed: listing a further signer with zero occurrences raises
    [signatures_count] by one and leaves the verdict of [verify_signatures] unchanged,
    although that signer has not signed ([has_signer_index] is false). *)
Theorem zero_occurrence_raises_count e signers idx :
  occurrences_wf (signature_occurrences e) → signature_occurrences e !! idx = None →
  let e' := Envelope_create (aggregated_signature e)
              (<[idx := 0%Z]> (signature_occurrences e)) (data e) in
  Envelope_signatures_count e' = S (Envelope_signatures_count e) ∧
  Envelope_verify_signatures e' signers = Envelope_verify_signatures e signers ∧
  Envelope_has_signer_index e' idx = false.
Proof.
  intros Hwf Hidx e'. split_and!.
  - unfold e', Envelope_signatures_count. simpl. by rewrite map_size_insert_None.
  - assert (occurrences_wf (signature_occurrences e')) as Hwf'
      by (by apply map_Forall_insert_2).
    rewrite <- (verify_from_any_order ((idx, 0%Z) :: map_to_list (signature_occurrences e)));
      [|done|simpl; by rewrite map_to_list_insert].
    unfold Envelope_verify_signatures, Envelope_verify_from. cbn [verify_loop].
    by rewrite bool_decide_eq_true_2.
  - unfold e', Envelope_has_signer_index. simpl. by rewrite lookup_insert_eq.
Qed.

(** CreateSealed::sealed: when the keys map holds, for the node's registered public
    key, a secret of that key, sealing succeeds for every serializable message with an
    envelope that carries the message, is signed by exactly the node's signer index, and
    verifies against the public keys of the same block keeper set; a node outside the set
    and a missing secret are errors (a second missing secret in the same process panics). *)
Theorem sealed_verifies shutdown node bk_set keys (d : TData) k :
  BlockKeeperSet_get_by_node_id bk_set node = Some k →
  BlockKeeperSet_wf bk_set → by_signer bk_set !! signer_index k = Some k →
  (∀ sk, keys !! pubkey k = Some sk → blst_sk_to_pk sk = pubkey k) →
  match Envelope_sealed shutdown node bk_set keys d with
  | Ok e => data e = d ∧ Envelope_signers e = {[signer_index k]} ∧
            Envelope_verify_signatures e (BlockKeeperSet_get_pubkeys_by_signers bk_set) = Ok true
  | Err SecretMissing => keys !! pubkey k = None ∧ shutdown = false
  | Err (SealBls err) => err = SerializeFailed ∧ bincode_serialize d = None
  | Err NodeNotInBkSet => False
  | Panic => keys !! pubkey k = None ∧ shutdown = true
  end.
Proof.
  intros Hk Hwf Hs Hsk. unfold Envelope_sealed. rewrite Hk. simpl.
  destruct (keys !! pubkey k) as [sk|] eqn:Hkey; [|by destruct shutdown].
  destruct (GoshBLS_sign sk d) as [sig|err|] eqn:Hsign.
  - split_and!; [done|by unfold Envelope_signers; simpl; rewrite dom_singleton_L|].
    apply (single_signer_valid _ _ sk); [|done].
    unfold BlockKeeperSet_get_pubkeys_by_signers. rewrite (wf_pubkeys _ Hwf), lookup_fmap, Hs.
    simpl. by rewrite (Hsk sk).
  - unfold GoshBLS_sign, ok_or in Hsign. destruct (bincode_serialize d); [done|].
    simpl in Hsign. by injection Hsign as <-.
  - unfold GoshBLS_sign, ok_or in Hsign. by destruct (bincode_serialize d).
Qed.
End count_theorems.

(** ** Evaluation *)
Section envelope_witnesses.
#[local] Existing Instance LinearBlst.
#[local] Existing Instance LinearBlst_laws.
#[local] Instance serialize_Z : Serialize Z := λ z, Some [z].

(** Signers 1 and 2 with keys 11 and 22; signer 1 signs the message 5. *)
Definition example_signers : gmap Z Z := {[1%Z := 11%Z; 2%Z := 22%Z]}.
Definition example_envelope : Envelope (H := LinearBlst) Z :=
  mkEnvelope (11 * 6)%Z {[1%Z := 1%Z]} 5%Z.

Lemma example_envelope_wf : occurrences_wf (signature_occurrences example_envelope).
Proof. apply (bool_decide_unpack _). by vm_compute. Qed.

Lemma add_signature_keeps_valid_witness :
  ∃ e', Envelope_add_signature example_envelope 2 22%Z = Ok e' ∧
        Envelope_verify_signatures e' example_signers = Ok true.
Proof.
  pose proof (add_signature_keeps_valid example_envelope example_signers 2 22%Z
    example_envelope_wf eq_refl eq_refl) as Hadd.
  destruct (Envelope_add_signature example_envelope 2 22%Z) as [e'| |] eqn:He.
  - exists e'. exact (conj eq_refl (proj1 Hadd)).
  - vm_compute in He. discriminate He.
  - vm_compute in He. discriminate He.
Defined.

Lemma verify_signatures_any_order_witness :
  Envelope_verify_from [(1, 1)]%Z example_envelope example_signers = Ok true.
Proof.
  rewrite (proj1 (verify_signatures_any_order example_envelope example_signers [(1, 1)]%Z
    example_envelope_wf (Permutation_refl _))).
  reflexivity.
Defined.

Lemma envelope_serde_roundtrip_witness :
  Envelope_deserialize (Envelope_serialize_from [(1, 1)]%Z example_envelope) = example_envelope.
Proof.
  exact (proj2 (proj2 (envelope_serde_roundtrip example_envelope [(1, 1)]%Z (Permutation_refl _)))).
Defined.

Lemma zero_occurrence_raises_count_witness :
  Envelope_verify_signatures
    (Envelope_create (11 * 6)%Z {[2%Z := 0%Z; 1%Z := 1%Z]} 5%Z) example_signers = Ok true.
Proof.
  exact (eq_trans (proj1 (proj2 (zero_occurrence_raises_count example_envelope example_signers 2
    example_envelope_wf eq_refl))) (eq_refl (Ok true))).
Defined.

Lemma sealed_verifies_witness :
  ∃ e, Envelope_sealed false (node_id (example_keeper 2 22 7)) example_keepers
         {[22%Z := 22%Z]} 5%Z = Ok e ∧
       Envelope_verify_signatures e (BlockKeeperSet_get_pubkeys_by_signers example_keepers) = Ok true.
Proof.
  pose proof (sealed_verifies false (node_id (example_keeper 2 22 7)) example_keepers
    {[22%Z := 22%Z]} 5%Z (example_keeper 2 22 7) eq_refl example_keepers_wf eq_refl) as Hs.
  destruct (Envelope_sealed false (node_id (example_keeper 2 22 7)) example_keepers
         {[22%Z := 22%Z]} 5%Z) as [e| |] eqn:He.
  - exists e. split; [reflexivity|]. apply Hs.
    intros sk Hsk. vm_compute in Hsk. injection Hsk as <-. reflexivity.
  - vm_compute in He. discriminate He.
  - vm_compute in He. discriminate He.
Defined.
End envelope_witnesses.
