(* ===== verification/Attestation.v ===== *)
(** * Attestations and their folding

    Models the attestation data types of [node/associated_types.rs],
    [types/attestation/compacted_attestation.rs], [types/attestation/compacted_map_key.rs]
    and the folding of many signed attestations of one block into a single envelope,
    [types/attestation/fold.rs]. *)
From stdpp Require Import base numbers gmap strings fin_maps sorting list.
From S2P Require Import Prelude Identifiers Bls BlockKeepers Envelope.

Inductive AttestationTargetType := Primary | Fallback.
#[global] Instance AttestationTargetType_eq_dec : EqDecision AttestationTargetType.
Proof. solve_decision. Defined.
#[global] Instance AttestationTargetType_countable : Countable AttestationTargetType.
Proof.
  refine (inj_countable' (λ t, match t with Primary => true | Fallback => false end)
    (λ b : bool, if b then Primary else Fallback) _). by intros [].
Defined.

(** [BlockSeqNo(u32)] *)
Notation BlockSeqNo := Z (only parsing).
(** [AckiNackiEnvelopeHash([u8; 32])] *)
Notation EnvelopeHash := (list Z) (only parsing).

Record AttestationData := mkAttestationData {
  att_parent_block_id : BlockIdentifier;
  att_block_id : BlockIdentifier;
  att_block_seq_no : BlockSeqNo;
  att_envelope_hash : EnvelopeHash;
  att_target_type : AttestationTargetType;
}.
#[global] Instance AttestationData_eq_dec : EqDecision AttestationData.
Proof. solve_decision. Defined.

Record CompactedMapKey := mkCompactedMapKey {
  key_block_seq_no : BlockSeqNo;
  key_block_identifier : BlockIdentifier;
  key_target_type : AttestationTargetType;
}.
#[global] Instance CompactedMapKey_eq_dec : EqDecision CompactedMapKey.
Proof. solve_decision. Defined.

(** [CompactedMapKey] of an attestation, as [add] and [add_bunch] build it. *)
Definition attestation_key (d : AttestationData) : CompactedMapKey :=
  mkCompactedMapKey (att_block_seq_no d) (att_block_id d) (att_target_type d).

Section attestation.
Context `{Blst} `{Serialize AttestationData}.

Record CompactedAttestation := mkCompactedAttestation {
  compacted_parent_block_id : BlockIdentifier;
  compacted_envelope_hash : EnvelopeHash;
  compacted_aggregated_signature : Signature;
  compacted_signature_occurrences : Occurrences;
  compacted_target_type : AttestationTargetType;
}.
#[global] Instance CompactedAttestation_eq_dec : EqDecision CompactedAttestation.
Proof. solve_decision. Defined.

Definition CompactedAttestation_signers (a : CompactedAttestation) : gset Z :=
  dom (compacted_signature_occurrences a).

(** [From<&Envelope<..>> for CompactedAttestation] *)
Definition CompactedAttestation_from (e : Envelope AttestationData) : CompactedAttestation :=
  mkCompactedAttestation (att_parent_block_id (data e)) (att_envelope_hash (data e))
    (aggregated_signature e) (signature_occurrences e) (att_target_type (data e)).

(** [From<(CompactedAttestation, &CompactedMapKey)> for Envelope<..>] *)
Definition Envelope_from_compacted (a : CompactedAttestation) (key : CompactedMapKey) :
    Envelope AttestationData :=
  Envelope_create (compacted_aggregated_signature a) (compacted_signature_occurrences a)
    (mkAttestationData (compacted_parent_block_id a) (key_block_identifier key)
       (key_block_seq_no key) (compacted_envelope_hash a) (compacted_target_type a)).

Record TryFoldResult := mkTryFoldResult {
  folded : option (Envelope AttestationData);
  poisoned : list (Envelope AttestationData);
}.

(** The accumulation loop of [try_fold_all_optimistic]. *)
Definition accumulate_occurrences (to_combine : list (Occurrences * Signature)) :
    outcome Empty_set Occurrences :=
  foldl (λ acc '(occ, _), acc ≫= λ m, merge_occurrences m occ) (Ok ∅) to_combine.

Definition try_fold_all_optimistic (attestation_data : AttestationData)
    (to_combine : list (Occurrences * Signature)) (bk_set : BlockKeeperSet) :
    outcome Empty_set (option (Envelope AttestationData)) :=
  accumulate_occurrences to_combine ≫= λ aggregated_signature_occurences,
  match GoshBLS_merge_all (snd <$> to_combine) with
  | Ok aggregated_signature =>
      let envelope :=
        Envelope_create aggregated_signature aggregated_signature_occurences attestation_data in
      match Envelope_verify_signatures envelope
              (BlockKeeperSet_get_pubkeys_by_signers bk_set) with
      | Ok true => Ok (Some envelope)
      | Panic => Panic
      | _ => Ok None
      end
  | Panic => Panic
  | Err _ => Ok None
  end.

(** One iteration of the loop of [try_fold_one_by_one_checked]. *)
Definition try_fold_step (attestation_data : AttestationData) (bk_set : BlockKeeperSet)
    (acc : TryFoldResult) (item : Occurrences * Signature) : outcome Empty_set TryFoldResult :=
  let '(signature_occurences, signature) := item in
  let envelope := Envelope_create signature signature_occurences attestation_data in
  match Envelope_verify_signatures envelope (BlockKeeperSet_get_pubkeys_by_signers bk_set) with
  | Ok true =>
      match folded acc with
      | Some e =>
          match GoshBLS_merge (aggregated_signature e) signature with
          | Ok merged =>
              merge_occurrences (signature_occurrences e) signature_occurences ≫= λ occ,
              Ok (mkTryFoldResult (Some (Envelope_create merged occ attestation_data))
                    (poisoned acc))
          | Err _ => Ok (mkTryFoldResult (folded acc) (poisoned acc ++ [envelope]))
          | Panic => Panic
          end
      | None => Ok (mkTryFoldResult (Some envelope) (poisoned acc))
      end
  | Ok false | Err _ => Ok (mkTryFoldResult (folded acc) (poisoned acc ++ [envelope]))
  | Panic => Panic
  end.

Definition try_fold_one_by_one_checked (attestation_data : AttestationData)
    (to_combine : list (Occurrences * Signature)) (bk_set : BlockKeeperSet) :
    outcome Empty_set TryFoldResult :=
  foldl (λ acc item, acc ≫= λ r, try_fold_step attestation_data bk_set r item)
    (Ok (mkTryFoldResult None [])) to_combine.

Definition try_fold (attestation_data : AttestationData)
    (to_combine : list (Occurrences * Signature)) (bk_set : BlockKeeperSet) :
    outcome Empty_set TryFoldResult :=
  try_fold_all_optimistic attestation_data to_combine bk_set ≫= λ optimistic,
  match optimistic with
  | Some e => Ok (mkTryFoldResult (Some e) [])
  | None => try_fold_one_by_one_checked attestation_data to_combine bk_set
  end.
End attestation.

(** ** Theorems *)
Section attestation_theorems.
Context `{Blst} `{Serialize AttestationData} `{!BlstLaws}.
Implicit Types (d : AttestationData) (b : BlockKeeperSet).
Implicit Types (to_combine : list (Occurrences * Signature)) (e : Envelope AttestationData).

Notation valid b e := (Envelope_verify_signatures e (BlockKeeperSet_get_pubkeys_by_signers b) = Ok true).

Lemma merge_occurrences_Ok {E} (o1 o2 o : Occurrences) :
  merge_occurrences (E := E) o1 o2 = Ok o → o = sum_occurrences o1 o2.
Proof.
  unfold merge_occurrences. rewrite merge_occurrences_any_order with (occ := o2) by done.
  case_decide; congruence.
Qed.

Lemma merge_occurrences_wf {E} (o1 o2 o : Occurrences) :
  merge_occurrences (E := E) o1 o2 = Ok o → occurrences_wf o1 → occurrences_wf o2 →
  occurrences_wf o.
Proof.
  unfold merge_occurrences. rewrite merge_occurrences_any_order with (occ := o2) by done.
  case_decide as Hfits; [|done]. intros [= <-] W1 W2 k c. rewrite sum_occurrences_lookup.
  destruct (o1 !! k) as [a|] eqn:E1, (o2 !! k) as [v|] eqn:E2; intros; simplify_eq; eauto.
  pose proof (Hfits k v E2) as Hf. unfold fits in Hf. by rewrite E1 in Hf.
Qed.

(** The signers that appear in a list of signed attestations. *)
Definition all_signers to_combine : gset Z := ⋃ ((λ i : Occurrences * Signature, dom i.1) <$> to_combine).

Lemma accumulate_spec to_combine o :
  accumulate_occurrences to_combine = Ok o →
  Forall (λ i, occurrences_wf i.1) to_combine →
  occurrences_wf o ∧ dom o = all_signers to_combine.
Proof.
  unfold accumulate_occurrences, all_signers. revert o.
  induction to_combine as [|[occ sig] l IH] using rev_ind; intros o; simpl.
  { intros [= <-] _. split; [apply map_Forall_empty|]. by rewrite dom_empty_L. }
  rewrite foldl_app. simpl. intros (o1 & Ho1 & Ho2)%outcome_bind_Ok [Hl Hocc]%Forall_app.
  rewrite Forall_singleton in Hocc. simpl in Hocc.
  destruct (IH o1 Ho1 Hl) as [Hw Hd]. split; [exact (merge_occurrences_wf _ _ _ Ho2 Hw Hocc)|].
  apply merge_occurrences_Ok in Ho2 as ->. rewrite dom_sum_occurrences, Hd.
  rewrite fmap_app, union_list_app_L. simpl. by rewrite union_empty_r_L.
Qed.

(** The attestation [p] is an input of [l] whose signature cannot be added to the aggregate of
    the inputs before it. *)
Definition unmergeable d b l (p : Envelope AttestationData) : Prop := ∃ l1 l2 r e,
  l = l1 ++ (signature_occurrences p, aggregated_signature p) :: l2 ∧
  try_fold_one_by_one_checked d l1 b = Ok r ∧ folded r = Some e ∧
  GoshBLS_merge (aggregated_signature e) (aggregated_signature p) = Err MergeFailed.

Lemma unmergeable_app d b l l' p : unmergeable d b l p → unmergeable d b (l ++ l') p.
Proof.
  intros (l1 & l2 & r & e & -> & ? & ? & ?). exists l1, (l2 ++ l'), r, e.
  split_and!; [|done..]. by rewrite <- (assoc_L app).
Qed.

(** Invariant of the one-by-one loop after the items [l]. *)
Record fold_inv d b l (r : TryFoldResult) : Prop := {
  inv_valid : ∀ e, folded r = Some e →
    valid b e ∧ data e = d ∧ occurrences_wf (signature_occurrences e);
  inv_poisoned : ∀ p, p ∈ poisoned r → data p = d ∧
    (signature_occurrences p, aggregated_signature p) ∈ l ∧
    (¬ valid b p ∨ unmergeable d b l p);
  inv_signers : all_signers l =
    from_option Envelope_signers ∅ (folded r) ∪ ⋃ (Envelope_signers <$> poisoned r);
}.

Lemma all_signers_snoc l o s : all_signers (l ++ [(o, s)]) = all_signers l ∪ dom o.
Proof. unfold all_signers. rewrite fmap_app, union_list_app_L. simpl. by rewrite union_empty_r_L. Qed.

Lemma fold_inv_poison d b l r o s :
  fold_inv d b l r →
  (¬ valid b (mkEnvelope s o d) ∨ unmergeable d b (l ++ [(o, s)]) (mkEnvelope s o d)) →
  fold_inv d b (l ++ [(o, s)]) (mkTryFoldResult (folded r) (poisoned r ++ [mkEnvelope s o d])).
Proof.
  intros [Hv Hp Hs] Hbad. split; simpl; [done|..].
  - intros p [Hin| ->%list_elem_of_singleton]%elem_of_app.
    + destruct (Hp p Hin) as (? & ? & ?). split_and!; [done|set_solver|].
      naive_solver eauto using unmergeable_app.
    + split_and!; [done|set_solver|done].
  - rewrite all_signers_snoc, Hs, fmap_app, union_list_app_L. simpl.
    rewrite union_empty_r_L, union_assoc_L. done.
Qed.

Lemma fold_inv_step d b l r o s r' :
  try_fold_one_by_one_checked d l b = Ok r →
  fold_inv d b l r → occurrences_wf o → try_fold_step d b r (o, s) = Ok r' →
  fold_inv d b (l ++ [(o, s)]) r'.
Proof.
  intros Hrun Hinv Hw. unfold try_fold_step, Envelope_create.
  destruct (Envelope_verify_signatures (mkEnvelope s o d) _) as [[]| |] eqn:Hver.
  - destruct (folded r) as [e|] eqn:Hf.
    + destruct (merge_Ok_or (aggregated_signature e) s) as [[m Hm]|Hm]; rewrite Hm.
      * intros (occ & Hocc & Hr)%outcome_bind_Ok. apply Ok_inj in Hr as <-.
        destruct (inv_valid _ _ _ _ Hinv e Hf) as (Hv & Hd & Hwe).
        pose proof (merge_occurrences_wf _ _ _ Hocc Hwe Hw) as Hwo.
        apply merge_occurrences_Ok in Hocc as ->.
        destruct Hinv as [_ Hp Hs]. split; simpl.
        -- intros e' [= <-]. split_and!; [|done|done].
           refine (verify_sum _ _ _ _ _ _ _ Hwe Hw Hwo _ Hver Hm). by destruct e; simpl in *; subst.
        -- intros p Hin. destruct (Hp p Hin) as (? & ? & ?). split_and!; [done|set_solver|].
           naive_solver eauto using unmergeable_app.
        -- rewrite all_signers_snoc, Hs, Hf. unfold Envelope_signers. simpl.
           rewrite dom_sum_occurrences. set_solver.
      * intros Hr. apply Ok_inj in Hr as <-. rewrite <- Hf. apply fold_inv_poison; [done|].
        right. by exists l, [], r, e.
    + intros Hr. apply Ok_inj in Hr as <-. destruct Hinv as [_ Hp Hs]. split; simpl.
      * intros e' [= <-]. done.
      * intros p Hin. destruct (Hp p Hin) as (? & ? & ?). split_and!; [done|set_solver|].
        naive_solver eauto using unmergeable_app.
      * rewrite all_signers_snoc, Hs, Hf. unfold Envelope_signers. simpl. set_solver.
  - intros Hr. apply Ok_inj in Hr as <-. apply fold_inv_poison; [done|]. left. by rewrite Hver.
  - intros Hr. apply Ok_inj in Hr as <-. apply fold_inv_poison; [done|]. left. by rewrite Hver.
  - done.
Qed.

Lemma fold_inv_one_by_one d b to_combine r :
  Forall (λ i, occurrences_wf i.1) to_combine →
  try_fold_one_by_one_checked d to_combine b = Ok r → fold_inv d b to_combine r.
Proof.
  unfold try_fold_one_by_one_checked. revert r.
  induction to_combine as [|[o s] l IH] using rev_ind; intros r Hw; simpl.
  - intros Hr. apply Ok_inj in Hr as <-. split; [done|by intros p ?%elem_of_nil|done].
  - rewrite Forall_app, Forall_singleton in Hw. destruct Hw as [Hw Ho]. rewrite foldl_app. simpl.
    intros (r1 & Hr1 & Hr2)%outcome_bind_Ok. by eapply fold_inv_step; [exact Hr1|apply IH|..].
Qed.

Lemma try_fold_inv d to_combine b r :
  Forall (λ i, occurrences_wf i.1) to_combine →
  try_fold d to_combine b = Ok r → fold_inv d b to_combine r.
Proof.
  intros Hw. unfold try_fold. intros (opt & Hopt & Hr)%outcome_bind_Ok.
  unfold try_fold_all_optimistic in Hopt. apply outcome_bind_Ok in Hopt as (o & Ho & Hopt).
  destruct opt as [e|]; [|by apply fold_inv_one_by_one].
  apply Ok_inj in Hr as <-. destruct (accumulate_spec _ _ Ho Hw) as [Hwo Hdom].
  destruct (GoshBLS_merge_all _) as [sig| |]; [|done..].
  destruct (Envelope_verify_signatures _ _) as [[]| |] eqn:Hv; [|done..].
  apply Ok_inj in Hopt. injection Hopt as <-. split; simpl.
  - by intros e' [= <-].
  - by intros p ?%elem_of_nil.
  - rewrite <- Hdom. unfold Envelope_signers. simpl. by rewrite union_empty_r_L.
Qed.

(** C7 (try_fold): folding is sound and loses nothing.  The folded attestation verifies
    against the keys of the block keeper set and carries exactly the given data; an input
    is reported as poisoned only if it fails verification on its own or its signature
    cannot be added to the aggregate of the inputs before it; and every signer of the inputs
    appears in the folded attestation or in a poisoned one.  When the optimistic aggregate of
    all inputs verifies, it is the answer and nothing is poisoned; otherwise the answer is that
    of the one by one loop.  The counts of the inputs are [u16]s. *)
Theorem try_fold_sound d to_combine b r :
  Forall (λ i, occurrences_wf i.1) to_combine →
  try_fold d to_combine b = Ok r →
  fold_inv d b to_combine r ∧
  (∀ e, try_fold_all_optimistic d to_combine b = Ok (Some e) → folded r = Some e ∧ poisoned r = []) ∧
  (try_fold_all_optimistic d to_combine b = Ok None → try_fold_one_by_one_checked d to_combine b = Ok r).
Proof.
  intros Hw Hr. split; [by apply try_fold_inv|]. revert Hr. unfold try_fold.
  intros (opt & Hopt & Hr)%outcome_bind_Ok. rewrite Hopt. destruct opt as [e|]; [|done].
  apply Ok_inj in Hr as <-. split; [by intros e' [= ->]|done].
Qed.
End attestation_theorems.

(** ** Overflow of the occurrence counters *)
Section overflow_theorems.
Context `{Blst} `{Serialize AttestationData}.
Implicit Types (to_combine l : list (Occurrences * Signature)).

(** How often signer [s] occurs in all inputs together. *)
Definition total_count (s : Z) l : Z := foldr (λ i acc, default 0 (i.1 !! s) + acc)%Z 0%Z l.

Lemma total_count_app s l1 l2 : total_count s (l1 ++ l2) = (total_count s l1 + total_count s l2)%Z.
Proof. unfold total_count. induction l1 as [|i l1 IH]; simpl; [done|]. rewrite IH. lia. Qed.

Lemma total_count_nonneg s l : Forall (λ i, occurrences_wf i.1) l → (0 ≤ total_count s l)%Z.
Proof.
  induction 1 as [|i l Hi _ IH]; simpl; [done|].
  destruct (i.1 !! s) as [c|] eqn:Hc; simpl; [pose proof (Hi _ _ Hc) as [? _]|]; lia.
Qed.

(** [merge_occurrences] panics on a signer whose sum is too large, and else adds. *)
Lemma merge_occurrences_cases (o1 o2 : Occurrences) :
  match merge_occurrences (E := Empty_set) o1 o2 with
  | Ok o => ∀ s, (default 0 (o !! s) = default 0 (o1 !! s) + default 0 (o2 !! s))%Z
  | Err _ => False
  | Panic => ∃ s a v, o1 !! s = Some a ∧ o2 !! s = Some v ∧ ¬ in_width 16 (a + v)
  end.
Proof.
  unfold merge_occurrences. rewrite merge_occurrences_any_order with (occ := o2) by done.
  case_decide as Hf.
  - intros s. rewrite sum_occurrences_lookup.
    destruct (o1 !! s), (o2 !! s); simpl; lia.
  - apply map_not_Forall in Hf as (s & v & Hv & Hn); [|apply _].
    unfold fits in Hn. destruct (o1 !! s) as [a|] eqn:Ha; [eauto 6|done].
Qed.

Lemma accumulate_cases l :
  Forall (λ i, occurrences_wf i.1) l →
  match accumulate_occurrences l with
  | Ok o => ∀ s, default 0%Z (o !! s) = total_count s l ∧ (total_count s l < 2 ^ 16)%Z
  | Err _ => False
  | Panic => ∃ s, (2 ^ 16 ≤ total_count s l)%Z
  end.
Proof.
  unfold accumulate_occurrences. induction l as [|[occ sig] l IH] using rev_ind; intros Hw.
  { intros s. split; [by rewrite lookup_empty|done]. }
  rewrite Forall_app, Forall_singleton in Hw. destruct Hw as [Hw Hocc]. specialize (IH Hw).
  rewrite foldl_app. cbn [foldl]. simpl in Hocc.
  destruct (foldl _ (Ok ∅) l) as [o| |]; cbn [mbind outcome_bind]; [|done|].
  2: { destruct IH as [s Hs]. exists s. rewrite total_count_app.
       assert (0 ≤ total_count s [(occ, sig)])%Z; [|lia].
       apply total_count_nonneg. by constructor. }
  pose proof (merge_occurrences_cases o occ) as Hm.
  destruct (merge_occurrences o occ) as [o'| |] eqn:Ho'; [|done|].
  - intros s. destruct (IH s) as [Hs Hlt]. rewrite total_count_app, Hm, Hs. simpl.
    split; [lia|].
    assert (occurrences_wf o → in_width 16 (default 0%Z (o' !! s))) as Hin.
    { intros Hwo. pose proof (merge_occurrences_wf _ _ _ Ho' Hwo Hocc) as Hwo'.
      destruct (o' !! s) as [c|] eqn:Hc; simpl; [by apply (Hwo' s)|done]. }
    assert (occurrences_wf o) as Hwo.
    { intros k c Hc. destruct (IH k) as [Hk Hk']. rewrite Hc in Hk. simpl in Hk.
      pose proof (total_count_nonneg k l Hw). unfold in_width. lia. }
    destruct (Hin Hwo) as [_ Hin']. rewrite Hm, Hs in Hin'. lia.
  - destruct Hm as (s & a & v & Ha & Hv & Hn). exists s.
    destruct (IH s) as [Hs _]. rewrite Ha in Hs. simpl in Hs.
    rewrite total_count_app. simpl. rewrite Hv. simpl.
    pose proof (Hocc _ _ Hv) as [? _]. pose proof (total_count_nonneg s l Hw).
    unfold in_width in Hn. lia.
Qed.

Definition fold_bounded l (r : TryFoldResult) : Prop :=
  ∀ e s, folded r = Some e → (0 ≤ default 0 (signature_occurrences e !! s) ≤ total_count s l)%Z.

Lemma try_fold_step_total d b l r o sig :
  fold_bounded l r → Forall (λ i, occurrences_wf i.1) (l ++ [(o, sig)]) →
  (∀ s, total_count s (l ++ [(o, sig)]) < 2 ^ 16)%Z →
  ∃ r', try_fold_step d b r (o, sig) = Ok r' ∧ fold_bounded (l ++ [(o, sig)]) r'.
Proof.
  intros Hb Hw Hlt. rewrite Forall_app, Forall_singleton in Hw. destruct Hw as [Hw Ho].
  simpl in Ho. assert (∀ s, (0 ≤ default 0 (o !! s))%Z) as Hpos.
  { intros s. destruct (o !! s) as [c|] eqn:Hc; simpl; [apply (Ho _ _ Hc)|done]. }
  assert (∀ s, total_count s (l ++ [(o, sig)]) = total_count s l + default 0 (o !! s))%Z as Htot.
  { intros s. rewrite total_count_app. simpl. lia. }
  assert (∀ p, fold_bounded (l ++ [(o, sig)]) (mkTryFoldResult (folded r) p)) as Hkeep.
  { intros p e s He. rewrite Htot. specialize (Hb e s He). specialize (Hpos s). lia. }
  unfold try_fold_step. destruct (Envelope_verify_signatures _ _) as [[]| |] eqn:Hv; eauto.
  - destruct (folded r) as [e|] eqn:Hf.
    + destruct (merge_Ok_or (aggregated_signature e) sig) as [[m ->]| ->]; [|eauto].
      pose proof (merge_occurrences_cases (signature_occurrences e) o) as Hm.
      destruct (merge_occurrences _ o) as [o'| |]; simpl; [|done|].
      * eexists. split; [done|]. intros e' s [= <-]. simpl. rewrite Hm, Htot.
        specialize (Hb e s Hf). specialize (Hpos s). lia.
      * exfalso. destruct Hm as (s & a & v & Ha & Hv' & Hn). specialize (Hlt s).
        specialize (Hb e s Hf). rewrite Ha in Hb. specialize (Hpos s).
        rewrite Htot in Hlt. rewrite Hv' in *. simpl in *. unfold in_width in Hn. lia.
    + eexists. split; [done|]. intros e' s [= <-]. simpl. rewrite Htot.
      pose proof (total_count_nonneg s l Hw). specialize (Hpos s). lia.
  - exfalso. revert Hv. unfold Envelope_verify_signatures.
    rewrite verify_from_spec by by apply wf_nonneg. case_decide; [|done].
    unfold verify_flat. destruct (blst_aggregate_pk _); [|done]. by destruct (bincode_serialize _).
Qed.

Lemma one_by_one_total d b l :
  Forall (λ i, occurrences_wf i.1) l → (∀ s, total_count s l < 2 ^ 16)%Z →
  ∃ r, try_fold_one_by_one_checked d l b = Ok r ∧ fold_bounded l r.
Proof.
  unfold try_fold_one_by_one_checked.
  induction l as [|[o sig] l IH] using rev_ind; intros Hw Hlt; [by eexists|].
  destruct IH as (r & Hr & Hb).
  - by apply Forall_app in Hw as [Hw _].
  - intros s. specialize (Hlt s). rewrite total_count_app in Hlt.
    apply Forall_app in Hw as [_ Hw]. pose proof (total_count_nonneg s _ Hw). lia.
  - rewrite foldl_app. cbn [foldl]. rewrite Hr. cbn [mbind outcome_bind].
    by apply try_fold_step_total.
Qed.

(** C40 (try_fold, 16-bit counters): folding returns a result unless the occurrences of one
    signer, summed over all inputs, no longer fit in a [u16]; and in that case it panics,
    whether or not the inputs carry valid signatures: the counters are summed before any
    signature is checked. *)
Theorem try_fold_panics_iff_overflow d b l :
  Forall (λ i, occurrences_wf i.1) l →
  (try_fold d l b = Panic ↔ ∃ s, (2 ^ 16 ≤ total_count s l)%Z) ∧
  ((∀ s, total_count s l < 2 ^ 16)%Z → ∃ r, try_fold d l b = Ok r).
Proof.
  intros Hw. pose proof (accumulate_cases l Hw) as Hacc.
  assert ((∀ s, total_count s l < 2 ^ 16)%Z → ∃ r, try_fold d l b = Ok r) as Htotal.
  { intros Hlt. destruct (one_by_one_total d b l Hw Hlt) as (r & Hr & _).
    unfold try_fold, try_fold_all_optimistic.
    destruct (accumulate_occurrences l) as [o| |]; simpl; [|done|].
    2: { destruct Hacc as [s Hs]. specialize (Hlt s). lia. }
    unfold GoshBLS_merge_all. destruct (blst_aggregate_sig _) as [sig|]; simpl; [|eauto].
    destruct (Envelope_verify_signatures _ _) as [[]| |] eqn:Hv; simpl; eauto.
    exfalso. revert Hv. unfold Envelope_verify_signatures.
    rewrite verify_from_spec.
    - case_decide; [|done]. unfold verify_flat.
      destruct (blst_aggregate_pk _); [|done]. by destruct (bincode_serialize _).
    - apply wf_nonneg. intros k c Hc. simpl in Hc. destruct (Hacc k) as [Hk Hk'].
      rewrite Hc in Hk. simpl in Hk. pose proof (total_count_nonneg k l Hw).
      unfold in_width. lia. }
  split; [|done]. split.
  - intros Hpanic. destruct (accumulate_occurrences l) as [o| |] eqn:Ho; [|done|done].
    destruct Htotal as [r Hr]; [apply Hacc|]. congruence.
  - intros [s Hs]. unfold try_fold, try_fold_all_optimistic.
    destruct (accumulate_occurrences l) as [o| |]; [|done|done].
    destruct (Hacc s) as [_ ?]. lia.
Qed.
End overflow_theorems.

(** ** Evaluation *)
Section attestation_witnesses.
#[local] Existing Instance LinearBlst.
#[local] Existing Instance LinearBlst_laws.
Definition serialize_attestation : Serialize AttestationData := λ d, Some [att_block_seq_no d].
#[local] Existing Instance serialize_attestation.

Definition example_attestation : AttestationData :=
  mkAttestationData BlockIdentifier_default BlockIdentifier_default 4 [] Primary.

(** Both keepers of [example_keepers] attest; a third, forged input comes from signer 1. *)
Definition example_inputs : list (Occurrences * @Signature LinearBlst) :=
  [({[1%Z := 1%Z]}, 55%Z); ({[1%Z := 1%Z]}, 7%Z); ({[2%Z := 1%Z]}, 110%Z)].

Lemma example_inputs_wf : Forall (λ i, occurrences_wf i.1) example_inputs.
Proof. apply (bool_decide_unpack _). by vm_compute. Qed.

Lemma try_fold_sound_witness :
  ∃ r, try_fold example_attestation example_inputs example_keepers = Ok r ∧
       length (poisoned r) = 1 ∧ (Envelope_signatures_count <$> folded r) = Some 2 ∧
       fold_inv example_attestation example_keepers example_inputs r.
Proof.
  destruct (try_fold example_attestation example_inputs example_keepers) as [r| |] eqn:Hr.
  - exists r. split; [reflexivity|].
    destruct (try_fold_sound _ _ _ _ example_inputs_wf Hr) as [Hinv _].
    vm_compute in Hr. apply Ok_inj in Hr. split; [by subst r|]. split; [by subst r|exact Hinv].
  - vm_compute in Hr. discriminate Hr.
  - vm_compute in Hr. discriminate Hr.
Defined.

(** A forged input with a maximal counter makes a fold with a genuine one panic. *)
Lemma try_fold_panics_iff_overflow_witness :
  try_fold (H := LinearBlst) example_attestation
    [({[1%Z := 1%Z]}, 55%Z); ({[1%Z := 65535%Z]}, 7%Z)] example_keepers = Panic.
Proof.
  apply try_fold_panics_iff_overflow.
  - apply (bool_decide_unpack _). by vm_compute.
  - exists 1%Z. vm_compute. discriminate.
Defined.
End attestation_witnesses.
