(* ===== verification/Checkpoints.v ===== *)
(** * Attestation target checkpoints

    Models [node/block_state/attestation_target_checkpoints.rs]: every block of a thread
    carries, for each of its not yet finalized ancestors, the checkpoints by which the
    ancestor must have collected its primary or fallback attestations.  [HashMap]s are
    [gmap]s; [update] visits the attestation counts in hash order, so it is written over an
    explicit enumeration.  The vectors that are collected from hash sets are finite sets. *)
From stdpp Require Import base numbers gmap strings fin_maps sorting list.
From S2P Require Import Prelude Identifiers Bls BlockKeepers Envelope Attestation.

Record AttestationTarget := mkAttestationTarget {
  generation_deadline : nat;
  target_required_count : nat;
}.
Record AttestationTargets := mkAttestationTargets {
  primary_target : AttestationTarget;
  fallback_target : AttestationTarget;
}.

Record AttestationTargetCheckpoint := mkCheckpoint {
  current_distance : nat;
  deadline : nat;
  required_attestation_count : nat;
  attestation_target_type : AttestationTargetType;
}.
#[global] Instance AttestationTargetCheckpoint_eq_dec : EqDecision AttestationTargetCheckpoint.
Proof. solve_decision. Defined.

Inductive CheckResult := CheckpointFailed | CheckpointPassed | NoAction.
#[global] Instance CheckResult_eq_dec : EqDecision CheckResult.
Proof. solve_decision. Defined.

Record AncestorBlocksFinalizationCheckpoints := mkCheckpoints {
  primary : gmap BlockIdentifier AttestationTargetCheckpoint;
  fallback : gmap BlockIdentifier (list AttestationTargetCheckpoint);
}.

Record CheckpointsConstructor := mkConstructor {
  inherited_checkpoints : AncestorBlocksFinalizationCheckpoints;
  passed_primary : list BlockIdentifier;
  passed_fallback : list BlockIdentifier;
  passed_fallback_preattestation_checkpoint : list BlockIdentifier;
}.

Record CheckpointsResults := mkResults {
  remaining_checkpoints : AncestorBlocksFinalizationCheckpoints;
  result_passed_primary : list BlockIdentifier;
  result_passed_fallback : list BlockIdentifier;
  result_passed_preattestation : list BlockIdentifier;
  transitioned_to_fallback : gset BlockIdentifier;
  failed : gset BlockIdentifier;
}.

Definition inherit_checkpoint (c : AttestationTargetCheckpoint) : AttestationTargetCheckpoint :=
  mkCheckpoint (S (current_distance c)) (deadline c) (required_attestation_count c)
    (attestation_target_type c).

Definition into_builder (c : AncestorBlocksFinalizationCheckpoints) : CheckpointsConstructor :=
  mkConstructor c [] [] [].

Definition AttestationTargetCheckpoint_check (c : AttestationTargetCheckpoint)
    (t : AttestationTargetType) (verified_signatures_count : nat) : CheckResult :=
  if bool_decide (deadline c < current_distance c) then CheckpointFailed
  else if bool_decide (attestation_target_type c ≠ t) then NoAction
  else if bool_decide (required_attestation_count c ≤ verified_signatures_count)
  then CheckpointPassed
  else NoAction.

(** The first half of [note]: the primary checkpoint. *)
Definition note_primary (s : CheckpointsConstructor) (attested_block : BlockIdentifier)
    (t : AttestationTargetType) (count : nat) : CheckpointsConstructor :=
  let c := inherited_checkpoints s in
  match primary c !! attested_block with
  | Some checkpoint =>
      match AttestationTargetCheckpoint_check checkpoint t count with
      | CheckpointPassed =>
          mkConstructor
            (mkCheckpoints (delete attested_block (primary c)) (delete attested_block (fallback c)))
            (passed_primary s ++ [attested_block]) (passed_fallback s)
            (passed_fallback_preattestation_checkpoint s)
      | NoAction | CheckpointFailed => s
      end
  | None => s
  end.

(** [retain]: [true] keeps the checkpoint. *)
Definition retained (t : AttestationTargetType) (count : nat) (c : AttestationTargetCheckpoint) :
    bool :=
  match AttestationTargetCheckpoint_check c t count with
  | CheckpointPassed => false
  | NoAction | CheckpointFailed => true
  end.

(** The second half of [note]: the fallback checkpoints. *)
Definition note_fallback (s : CheckpointsConstructor) (attested_block : BlockIdentifier)
    (t : AttestationTargetType) (count : nat) : CheckpointsConstructor :=
  let c := inherited_checkpoints s in
  match fallback c !! attested_block with
  | Some fallback_checkpoints =>
      let kept := filter (λ e, retained t count e) fallback_checkpoints in
      let pre := passed_fallback_preattestation_checkpoint s ++
        (if bool_decide (t = Primary)
         then replicate (length fallback_checkpoints - length kept) attested_block else []) in
      match kept with
      | [] =>
          mkConstructor
            (mkCheckpoints (delete attested_block (primary c)) (delete attested_block (fallback c)))
            (passed_primary s) (passed_fallback s ++ [attested_block]) pre
      | _ =>
          mkConstructor (mkCheckpoints (primary c) (<[attested_block := kept]> (fallback c)))
            (passed_primary s) (passed_fallback s) pre
      end
  | None => s
  end.

Definition note (s : CheckpointsConstructor) (attested_block : BlockIdentifier)
    (t : AttestationTargetType) (count : nat) : CheckpointsConstructor :=
  note_fallback (note_primary s attested_block t count) attested_block t count.

Definition reached_deadline (c : AttestationTargetCheckpoint) : bool :=
  bool_decide (deadline c ≤ current_distance c).

Definition complete (s : CheckpointsConstructor) : CheckpointsResults :=
  let c := inherited_checkpoints s in
  let expired_primary := dom (filter (λ kv, reached_deadline kv.2) (primary c)) in
  let failed_primary : gset BlockIdentifier := expired_primary ∖ dom (fallback c) in
  let transitioned : gset BlockIdentifier := expired_primary ∩ dom (fallback c) in
  let primary1 := filter (λ kv, kv.1 ∉ transitioned) (primary c) in
  let failed_fallback : gset BlockIdentifier :=
    dom (filter (λ kv, existsb reached_deadline kv.2) (fallback c)) in
  let failed := failed_primary ∪ failed_fallback in
  mkResults
    (mkCheckpoints (filter (λ kv, kv.1 ∉ failed) primary1)
       (filter (λ kv, kv.1 ∉ failed) (fallback c)))
    (passed_primary s) (passed_fallback s) (passed_fallback_preattestation_checkpoint s)
    transitioned failed.

Notation AttestationCounts := (gmap (BlockIdentifier * AttestationTargetType) nat) (only parsing).

Definition note_entry (s : CheckpointsConstructor)
    (e : BlockIdentifier * AttestationTargetType * nat) : CheckpointsConstructor :=
  note s e.1.1 e.1.2 e.2.

Definition update_from (s : CheckpointsConstructor)
    (entries : list (BlockIdentifier * AttestationTargetType * nat)) : CheckpointsResults :=
  complete (foldl note_entry s entries).

Definition update (s : CheckpointsConstructor) (attestation_count : AttestationCounts) :
    CheckpointsResults := update_from s (map_to_list attestation_count).

(** The checkpoints a block starts with: its parent's, one step further, when both are in the
    same thread, and its own. *)
Definition inherit_and_insert (same_thread : bool)
    (prototype : AncestorBlocksFinalizationCheckpoints) (block_id : BlockIdentifier)
    (target : AttestationTargets) : AncestorBlocksFinalizationCheckpoints :=
  let next :=
    if same_thread
    then mkCheckpoints (inherit_checkpoint <$> primary prototype)
           (map inherit_checkpoint <$> fallback prototype)
    else mkCheckpoints ∅ ∅ in
  mkCheckpoints
    (<[block_id := mkCheckpoint 0 (generation_deadline (primary_target target))
         (target_required_count (primary_target target)) Primary]> (primary next))
    (<[block_id :=
         [mkCheckpoint 0 (generation_deadline (primary_target target))
            (target_required_count (fallback_target target)) Primary;
          mkCheckpoint 0 (generation_deadline (fallback_target target))
            (target_required_count (fallback_target target)) Fallback]]> (fallback next)).

(** ** Every ancestor is resolved exactly once *)
Section resolution.
Implicit Types (b : BlockIdentifier) (s : CheckpointsConstructor).
Implicit Types (c : AncestorBlocksFinalizationCheckpoints) (ck : AttestationTargetCheckpoint).
Variable E : list (BlockIdentifier * AttestationTargetType * nat).

(** Some count among [E] meets the checkpoint before its deadline has passed. *)
Definition satisfied b ck : Prop :=
  ∃ n, (b, attestation_target_type ck, n) ∈ E ∧ required_attestation_count ck ≤ n ∧
       current_distance ck ≤ deadline ck.

Definition tracked c b : Prop := is_Some (primary c !! b) ∨ is_Some (fallback c !! b).
Definition passed s : list BlockIdentifier := passed_primary s ++ passed_fallback s.

Record resolution_inv c0 s : Prop := {
  res_dom b : tracked c0 b ↔ tracked (inherited_checkpoints s) b ∨ b ∈ passed s;
  res_nodup : NoDup (passed s);
  res_disj b : b ∈ passed s → ¬ tracked (inherited_checkpoints s) b;
  res_p b ck : primary (inherited_checkpoints s) !! b = Some ck → primary c0 !! b = Some ck;
  res_f b l : fallback (inherited_checkpoints s) !! b = Some l →
    ∃ l0, fallback c0 !! b = Some l0 ∧ l ⊆ l0 ∧ ∀ ck, ck ∈ l0 → ck ∈ l ∨ satisfied b ck;
  res_pp b : b ∈ passed_primary s → ∃ ck, primary c0 !! b = Some ck ∧ satisfied b ck;
  res_pf b : b ∈ passed_fallback s →
    ∃ l0, fallback c0 !! b = Some l0 ∧ ∀ ck, ck ∈ l0 → satisfied b ck;
}.

Lemma check_passed ck t n :
  AttestationTargetCheckpoint_check ck t n = CheckpointPassed ↔
  attestation_target_type ck = t ∧ required_attestation_count ck ≤ n ∧
  current_distance ck ≤ deadline ck.
Proof.
  unfold AttestationTargetCheckpoint_check.
  repeat case_bool_decide; split; intros; try done; try lia; naive_solver lia.
Qed.

Lemma retained_false ck t n :
  retained t n ck = false ↔
  attestation_target_type ck = t ∧ required_attestation_count ck ≤ n ∧
  current_distance ck ≤ deadline ck.
Proof. rewrite <- check_passed. unfold retained. by destruct (AttestationTargetCheckpoint_check _ _ _). Qed.

Lemma tracked_delete c b b' :
  tracked (mkCheckpoints (delete b (primary c)) (delete b (fallback c))) b' ↔
  b' ≠ b ∧ tracked c b'.
Proof. unfold tracked. simpl. rewrite !lookup_delete_is_Some. naive_solver. Qed.

(** Both removals of [note]: the block leaves the maps and enters one of the lists. *)
Lemma resolution_remove c0 s b pp pf pre :
  resolution_inv c0 s → tracked (inherited_checkpoints s) b →
  pp ++ pf ≡ₚ b :: passed s →
  (∀ b', b' ∈ pp → ∃ ck, primary c0 !! b' = Some ck ∧ satisfied b' ck) →
  (∀ b', b' ∈ pf → ∃ l0, fallback c0 !! b' = Some l0 ∧ ∀ ck, ck ∈ l0 → satisfied b' ck) →
  resolution_inv c0 (mkConstructor (mkCheckpoints
    (delete b (primary (inherited_checkpoints s))) (delete b (fallback (inherited_checkpoints s))))
    pp pf pre).
Proof.
  intros [Hd Hn Hj Hp Hf Hpp Hpf] Hb Hperm Hpp' Hpf'. unfold passed in *.
  split; unfold passed; cbn [inherited_checkpoints passed_primary passed_fallback];
    rewrite ?Hperm; try done.
  - intros b'. rewrite tracked_delete, Hd, Hperm, elem_of_cons.
    destruct (decide (b' = b)) as [->|]; naive_solver.
  - constructor; [|done]. intros Hin. by apply (Hj b).
  - intros b'. rewrite Hperm, elem_of_cons, tracked_delete. naive_solver.
  - intros b' ck. simpl. intros [_ ?]%lookup_delete_Some. eauto.
  - intros b' l. simpl. intros [_ ?]%lookup_delete_Some. eauto.
Qed.

Lemma note_primary_resolution c0 s b t n :
  resolution_inv c0 s → (b, t, n) ∈ E → resolution_inv c0 (note_primary s b t n).
Proof.
  intros Hinv HE. unfold note_primary.
  destruct (primary (inherited_checkpoints s) !! b) as [ck|] eqn:Hb; [|done].
  destruct (AttestationTargetCheckpoint_check ck t n) eqn:Hc; try done.
  apply check_passed in Hc as (Ht & Hr & Hd). apply resolution_remove; [done|..].
  - left. eauto.
  - unfold passed. solve_Permutation.
  - intros b' [?| ->%list_elem_of_singleton]%elem_of_app; [by eapply res_pp|].
    exists ck. split; [by eapply res_p|]. exists n. by subst t.
  - by apply (res_pf c0 s).
Qed.

Lemma note_fallback_resolution c0 s b t n :
  resolution_inv c0 s → (b, t, n) ∈ E → resolution_inv c0 (note_fallback s b t n).
Proof.
  intros Hinv HE. unfold note_fallback.
  destruct (fallback (inherited_checkpoints s) !! b) as [l|] eqn:Hb; [|done].
  destruct (res_f _ _ Hinv b l Hb) as (l0 & Hl0 & Hsub & Hall).
  set (kept := filter (λ e, retained t n e) l).
  assert (∀ ck, ck ∈ l0 → ck ∈ kept ∨ satisfied b ck) as Hkept.
  { intros ck Hck. destruct (Hall ck Hck) as [Hin|]; [|by right].
    destruct (retained t n ck) eqn:Hr.
    - left. apply list_elem_of_filter. by rewrite Hr.
    - right. apply retained_false in Hr as (<- & ? & ?). exists n. done. }
  destruct kept as [|k ks] eqn:Hk.
  - apply resolution_remove; [done|right; eauto|unfold passed; solve_Permutation|..].
    + by apply (res_pp c0 s).
    + intros b' [?| ->%list_elem_of_singleton]%elem_of_app; [by eapply res_pf|].
      exists l0. split; [done|]. intros ck Hck.
      destruct (Hkept ck Hck) as [?%elem_of_nil|]; done.
  - assert (k :: ks ⊆ l0) as Hksub.
    { rewrite <- Hk. intros x [_ Hx]%list_elem_of_filter. by apply Hsub. }
    assert (∀ b', tracked (mkCheckpoints (primary (inherited_checkpoints s))
      (<[b := k :: ks]> (fallback (inherited_checkpoints s)))) b' ↔
      tracked (inherited_checkpoints s) b') as Htr.
    { intros b'. unfold tracked. simpl. rewrite lookup_insert_is_Some.
      destruct (decide (b = b')) as [<-|]; [rewrite Hb|]; naive_solver. }
    destruct Hinv as [Hd Hn Hj Hp Hf Hpp Hpf].
    split; unfold passed in *; cbn [inherited_checkpoints passed_primary passed_fallback]; try done.
    + intros b'. by rewrite Htr.
    + intros b' Hin. rewrite Htr. auto.
    + intros b' l'. simpl. intros [[<- <-]|[? ?]]%lookup_insert_Some; [|eauto].
      exists l0. done.
Qed.

Lemma note_entry_resolution c0 s e :
  resolution_inv c0 s → e ∈ E → resolution_inv c0 (note_entry s e).
Proof.
  intros Hinv HE. destruct e as [[b t] n]. unfold note_entry, note. simpl.
  by apply note_fallback_resolution; [apply note_primary_resolution|].
Qed.

Lemma resolution_init c0 : resolution_inv c0 (into_builder c0).
Proof.
  split; unfold passed; simpl.
  - intros b. rewrite elem_of_nil. tauto.
  - constructor.
  - by intros b ?%elem_of_nil.
  - done.
  - intros b l Hl. exists l. auto.
  - by intros b ?%elem_of_nil.
  - by intros b ?%elem_of_nil.
Qed.
End resolution.

Section update_theorems.
Implicit Types (b : BlockIdentifier) (s : CheckpointsConstructor).
Implicit Types (c : AncestorBlocksFinalizationCheckpoints) (ck : AttestationTargetCheckpoint).
Implicit Types (entries : list (BlockIdentifier * AttestationTargetType * nat)).

Lemma foldl_note_resolution c0 entries :
  resolution_inv entries c0 (foldl note_entry (into_builder c0) entries).
Proof.
  assert (∀ E l s, l ⊆ E → resolution_inv E c0 s → resolution_inv E c0 (foldl note_entry s l))
    as Hgen.
  { intros E l. induction l as [|e l IH]; intros s Hsub Hs; [done|]. simpl.
    apply IH; [set_solver|]. apply note_entry_resolution; [done|set_solver]. }
  apply Hgen; [done|apply resolution_init].
Qed.

Lemma elem_of_dom_filter {A} (P : A → bool) (m : gmap BlockIdentifier A) b :
  b ∈ dom (filter (λ kv, P kv.2) m) ↔ ∃ x, m !! b = Some x ∧ P x.
Proof.
  rewrite elem_of_dom. split.
  - intros [x [? ?]%map_lookup_filter_Some]. eauto.
  - intros (x & ? & ?). exists x. by apply map_lookup_filter_Some.
Qed.

Lemma filter_key_is_Some {A} (X : gset BlockIdentifier) (m : gmap BlockIdentifier A) b :
  is_Some (filter (λ kv, kv.1 ∉ X) m !! b) ↔ is_Some (m !! b) ∧ b ∉ X.
Proof.
  split.
  - intros [x [? ?]%map_lookup_filter_Some]. eauto.
  - intros [[x ?] ?]. exists x. by apply map_lookup_filter_Some.
Qed.

(** [complete] splits what is still tracked into failed and remaining. *)
Lemma complete_split s b :
  let c := inherited_checkpoints s in let r := complete s in
  (tracked c b ↔ tracked (remaining_checkpoints r) b ∨ b ∈ failed r) ∧
  (b ∈ failed r → ¬ tracked (remaining_checkpoints r) b) ∧
  (b ∈ failed r → (∃ ck, primary c !! b = Some ck ∧ reached_deadline ck) ∨
     ∃ l ck, fallback c !! b = Some l ∧ ck ∈ l ∧ reached_deadline ck).
Proof.
  intros c r. unfold r, complete, tracked. cbn [remaining_checkpoints failed primary fallback].
  fold c. set (ep := dom (filter (λ kv, reached_deadline kv.2) (primary c))).
  set (ff := dom (filter (λ kv, existsb reached_deadline kv.2) (fallback c))).
  assert (b ∈ ep ↔ ∃ ck, primary c !! b = Some ck ∧ reached_deadline ck) as Hep
    by apply elem_of_dom_filter.
  assert (b ∈ ff ↔ ∃ l, fallback c !! b = Some l ∧ existsb reached_deadline l) as Hff
    by apply elem_of_dom_filter.
  assert (b ∈ dom (fallback c) ↔ is_Some (fallback c !! b)) as Hdf by apply elem_of_dom.
  split_and!.
  - rewrite !filter_key_is_Some, elem_of_union, elem_of_difference, elem_of_intersection, Hdf.
    assert (b ∈ ff → is_Some (fallback c !! b)) by naive_solver.
    assert (b ∈ ep → is_Some (primary c !! b)) by naive_solver. clear Hep Hff Hdf.
    destruct (decide (b ∈ ff)), (decide (b ∈ ep)), (decide (is_Some (fallback c !! b)));
      naive_solver.
  - rewrite !filter_key_is_Some. tauto.
  - rewrite elem_of_union, elem_of_difference, Hep, Hff.
    intros [[? _]|(l & Hl & Hex)]; [by left|right].
    apply Is_true_true, existsb_exists in Hex as (ck & Hin & Hr).
    exists l, ck. split_and!; [done|by apply list_elem_of_In|by rewrite Hr].
Qed.

Lemma complete_before_deadline s b :
  let r := remaining_checkpoints (complete s) in
  (∀ ck, primary r !! b = Some ck → current_distance ck < deadline ck) ∧
  (∀ l ck, fallback r !! b = Some l → ck ∈ l → current_distance ck < deadline ck).
Proof.
  unfold complete. cbn [remaining_checkpoints primary fallback].
  set (c := inherited_checkpoints s).
  split.
  - intros ck [[Hck Htr]%map_lookup_filter_Some Hnf]%map_lookup_filter_Some. simpl in *.
    destruct (reached_deadline ck) eqn:Hr; [|by apply bool_decide_eq_false in Hr; lia].
    exfalso. assert (b ∈ dom (filter (λ kv, reached_deadline kv.2) (primary c))) as Hep.
    { apply elem_of_dom_filter. exists ck. by rewrite Hr. }
    destruct (decide (b ∈ dom (fallback c))); set_solver.
  - intros l ck [Hl Hnf]%map_lookup_filter_Some Hin. simpl in Hnf.
    destruct (reached_deadline ck) eqn:Hr; [|by apply bool_decide_eq_false in Hr; lia].
    exfalso. apply Hnf, elem_of_union_r, elem_of_dom_filter. exists l.
    split; [done|]. apply Is_true_true, existsb_exists. exists ck.
    split; [by apply list_elem_of_In|done].
Qed.

(** C8 (checkpoints of a block): whatever the attestation counts and the order they are
    visited in, every ancestor the block inherits is resolved exactly once: it stays
    tracked, or passed its primary or its fallback target, or failed, and these exclude
    each other.  A primary pass has a sufficient primary count before the deadline, a
    fallback pass has one for each of its checkpoints, a failure comes from a checkpoint at
    its deadline, and every checkpoint that stays is still before its deadline. *)
Theorem update_resolves_once c0 entries b :
  let r := update_from (into_builder c0) entries in
  let rest := remaining_checkpoints r in
  let pass := result_passed_primary r ++ result_passed_fallback r in
  (tracked c0 b ↔ tracked rest b ∨ b ∈ pass ∨ b ∈ failed r) ∧
  NoDup pass ∧ (b ∈ pass → b ∉ failed r ∧ ¬ tracked rest b) ∧ (b ∈ failed r → ¬ tracked rest b) ∧
  (b ∈ result_passed_primary r → ∃ ck, primary c0 !! b = Some ck ∧ satisfied entries b ck) ∧
  (b ∈ result_passed_fallback r →
     ∃ l0, fallback c0 !! b = Some l0 ∧ ∀ ck, ck ∈ l0 → satisfied entries b ck) ∧
  (b ∈ failed r → (∃ ck, primary c0 !! b = Some ck ∧ deadline ck ≤ current_distance ck) ∨
     ∃ l0 ck, fallback c0 !! b = Some l0 ∧ ck ∈ l0 ∧ deadline ck ≤ current_distance ck) ∧
  (∀ ck, primary rest !! b = Some ck → current_distance ck < deadline ck) ∧
  (∀ l ck, fallback rest !! b = Some l → ck ∈ l → current_distance ck < deadline ck).
Proof.
  intros r rest pass. subst r rest pass. unfold update_from.
  pose proof (foldl_note_resolution c0 entries) as [Hd Hn Hj Hp Hf Hpp Hpf].
  set (s := foldl note_entry (into_builder c0) entries) in *.
  destruct (complete_split s b) as (Hs1 & Hs2 & Hs3).
  destruct (complete_before_deadline s b) as [Hb1 Hb2].
  change (result_passed_primary (complete s) ++ result_passed_fallback (complete s)) with (passed s).
  split_and!; try done.
  - rewrite Hd, Hs1. tauto.
  - intros Hin. specialize (Hj b Hin). rewrite Hs1 in Hj. tauto.
  - apply Hpp.
  - apply Hpf.
  - intros Hfail. destruct (Hs3 Hfail) as [(ck & Hck & Hr)|(l & ck & Hl & Hin & Hr)].
    + left. exists ck. split; [by apply Hp|]. by apply bool_decide_unpack in Hr.
    + right. destruct (Hf b l Hl) as (l0 & Hl0 & Hsub & _). exists l0, ck.
      split_and!; [done|by apply Hsub|]. by apply bool_decide_unpack in Hr.
Qed.
End update_theorems.

(** ** The order of the counts does not matter *)
Section order.
Implicit Types (b : BlockIdentifier) (s : CheckpointsConstructor) (t : AttestationTargetType).
Implicit Types (ck : AttestationTargetCheckpoint) (l : list AttestationTargetCheckpoint).

(** Two states of the constructor are equivalent when the checkpoints agree and the same
    blocks passed, up to order and up to which of the two targets they passed by. *)
#[global] Instance constructor_equiv : Equiv CheckpointsConstructor := λ s1 s2,
  inherited_checkpoints s1 = inherited_checkpoints s2 ∧ passed s1 ≡ₚ passed s2 ∧
  passed_fallback_preattestation_checkpoint s1 ≡ₚ passed_fallback_preattestation_checkpoint s2.
#[global] Instance constructor_equivalence : Equivalence (≡@{CheckpointsConstructor}).
Proof.
  split.
  - intros s. done.
  - intros s1 s2 (? & ? & ?). by split_and!.
  - intros s1 s2 s3 (E1 & P1 & Q1) (E2 & P2 & Q2). split_and!; by etrans.
Qed.

(** [note] seen from the one block it is about: the new checkpoints, and how many times the
    block enters each of the three lists. *)
Definition note_cell (mp : option AttestationTargetCheckpoint)
    (mf : option (list AttestationTargetCheckpoint)) t (n : nat) :
    option AttestationTargetCheckpoint * option (list AttestationTargetCheckpoint) *
    (nat * nat * nat) :=
  if match mp with Some ck => negb (retained t n ck) | None => false end
  then (None, None, (1, 0, 0))
  else
    match mf with
    | None => (mp, None, (0, 0, 0))
    | Some l =>
        let kept := filter (λ e, retained t n e) l in
        let k := if bool_decide (t = Primary) then length l - length kept else 0 in
        match kept with [] => (None, None, (0, 1, k)) | _ => (mp, Some kept, (0, 0, k)) end
    end.

Definition set_at {A} b (o : option A) (m : gmap BlockIdentifier A) : gmap BlockIdentifier A :=
  partial_alter (λ _, o) b m.

Lemma set_at_id {A} b o (m : gmap BlockIdentifier A) : m !! b = o → set_at b o m = m.
Proof. intros <-. apply partial_alter_self. Qed.
Lemma set_at_idem {A} b o o' (m : gmap BlockIdentifier A) : set_at b o (set_at b o' m) = set_at b o m.
Proof. unfold set_at. by rewrite partial_alter_partial_alter_eq. Qed.
Lemma set_at_commute {A} b b' o o' (m : gmap BlockIdentifier A) :
  b ≠ b' → set_at b o (set_at b' o' m) = set_at b' o' (set_at b o m).
Proof. intros. by apply partial_alter_partial_alter_ne. Qed.
Lemma set_at_lookup {A} b o (m : gmap BlockIdentifier A) : set_at b o m !! b = o.
Proof. apply lookup_partial_alter_eq. Qed.
Lemma set_at_lookup_ne {A} b b' o (m : gmap BlockIdentifier A) :
  b ≠ b' → set_at b o m !! b' = m !! b'.
Proof. apply lookup_partial_alter_ne. Qed.

Definition apply_cell s b
    (r : option AttestationTargetCheckpoint * option (list AttestationTargetCheckpoint) *
         (nat * nat * nat)) : CheckpointsConstructor :=
  let '(mp, mf, (pp, pf, pre)) := r in
  mkConstructor
    (mkCheckpoints (set_at b mp (primary (inherited_checkpoints s)))
       (set_at b mf (fallback (inherited_checkpoints s))))
    (passed_primary s ++ replicate pp b) (passed_fallback s ++ replicate pf b)
    (passed_fallback_preattestation_checkpoint s ++ replicate pre b).

Definition cell_of s b :=
  note_cell (primary (inherited_checkpoints s) !! b) (fallback (inherited_checkpoints s) !! b).

Lemma note_as_cell s b t n : note s b t n = apply_cell s b (cell_of s b t n).
Proof.
  destruct s as [[p f] pp pf pre]. unfold note, note_primary, cell_of, note_cell. simpl.
  assert (∀ mp mf, p !! b = mp → f !! b = mf →
    note_fallback (mkConstructor (mkCheckpoints p f) pp pf pre) b t n =
    apply_cell (mkConstructor (mkCheckpoints p f) pp pf pre) b
      (match mf with
       | None => (mp, None, (0, 0, 0))
       | Some l =>
           let kept := filter (λ e, retained t n e) l in
           let k := if bool_decide (t = Primary) then length l - length kept else 0 in
           match kept with [] => (None, None, (0, 1, k)) | _ => (mp, Some kept, (0, 0, k)) end
       end)) as Hfb.
  { intros mp mf Hp Hf. unfold note_fallback. simpl. rewrite Hf. destruct mf as [l|].
    - assert (∀ k, (if bool_decide (t = Primary) then replicate k b else []) =
        replicate (if bool_decide (t = Primary) then k else 0) b) as ->
        by (intros k; by case_bool_decide).
      destruct (filter _ l) eqn:Hk; simpl; rewrite ?app_nil_r, ?(set_at_id b mp) by done; done.
    - simpl. by rewrite !app_nil_r, !set_at_id. }
  destruct (p !! b) as [ck|] eqn:Hp; [|by apply Hfb]. unfold retained at 1.
  destruct (AttestationTargetCheckpoint_check ck t n); simpl; [by apply Hfb| |by apply Hfb].
  unfold note_fallback. simpl. by rewrite lookup_delete_eq, !app_nil_r.
Qed.

#[global] Instance note_proper : Proper ((≡) ==> (=) ==> (=) ==> (=) ==> (≡)) note.
Proof.
  intros s1 s2 (Hc & Hp & Hpre) b ? <- t ? <- n ? <-. rewrite !note_as_cell.
  unfold cell_of. rewrite Hc.
  destruct (note_cell _ _ t n) as [[mp mf] [[pp pf] pre]]. unfold apply_cell. rewrite Hc.
  split_and!; simpl; [done| |by rewrite Hpre].
  unfold passed in *. simpl.
  transitivity ((passed_primary s1 ++ passed_fallback s1) ++ replicate pp b ++ replicate pf b);
    [solve_Permutation|]. rewrite Hp. solve_Permutation.
Qed.

(** Notes about different blocks commute. *)
Lemma note_commute_ne s b1 t1 n1 b2 t2 n2 :
  b1 ≠ b2 → note (note s b1 t1 n1) b2 t2 n2 ≡ note (note s b2 t2 n2) b1 t1 n1.
Proof.
  intros Hne. rewrite !note_as_cell. unfold cell_of.
  destruct (note_cell (primary _ !! b1) _ t1 n1) as [[mp1 mf1] [[pp1 pf1] pre1]] eqn:E1.
  destruct (note_cell (primary _ !! b2) (fallback (inherited_checkpoints s) !! b2) t2 n2)
    as [[mp2 mf2] [[pp2 pf2] pre2]] eqn:E2.
  simpl. rewrite !set_at_lookup_ne by done. rewrite E1, E2. unfold apply_cell. simpl.
  split_and!; simpl; [|unfold passed; simpl; solve_Permutation|solve_Permutation].
  f_equal; by apply set_at_commute.
Qed.

Lemma filter_retained_comm t1 n1 t2 n2 l :
  filter (λ e, retained t1 n1 e) (filter (λ e, retained t2 n2 e) l) =
  filter (λ e, retained t2 n2 e) (filter (λ e, retained t1 n1 e) l).
Proof. rewrite !list_filter_filter. apply list_filter_iff. intros ck. tauto. Qed.

(** A checkpoint passes by counts of its own type only, so filtering by the other type
    first does not change how many pass. *)
Lemma dropped_count n m l :
  length (filter (λ e, retained Fallback m e) l) -
    length (filter (λ e, retained Primary n e) (filter (λ e, retained Fallback m e) l)) =
  length l - length (filter (λ e, retained Primary n e) l).
Proof.
  assert (∀ ck, retained Fallback m ck = false → retained Primary n ck = true) as Hex.
  { intros ck Hf%retained_false. destruct (retained Primary n ck) eqn:Hp; [done|].
    apply retained_false in Hp. destruct Hf as [Hf _], Hp as [Hp _]. congruence. }
  assert (∀ (P : AttestationTargetCheckpoint → bool) l, length (filter P l) ≤ length l) as Hle
    by (intros; apply length_filter).
  induction l as [|ck l IH]; [done|]. rewrite !filter_cons.
  pose proof (Hle (retained Primary n) l).
  pose proof (Hle (retained Primary n) (filter (λ e, retained Fallback m e) l)).
  destruct (retained Fallback m ck) eqn:Hf; simpl.
  - rewrite filter_cons. destruct (retained Primary n ck) eqn:Hp; simpl; lia.
  - rewrite (Hex ck Hf). simpl. lia.
Qed.

Lemma retained_other ck m : attestation_target_type ck = Primary → retained Fallback m ck = true.
Proof.
  intros Ht. destruct (retained Fallback m ck) eqn:Hr; [done|].
  apply retained_false in Hr as [? _]. congruence.
Qed.

(** Both notes about one block, in either order: same checkpoints, the block is entered the
    same number of times into the two passed lists together and into the third. *)
Lemma note_cell_commute mp mf n m :
  (∀ ck, mp = Some ck → attestation_target_type ck = Primary) →
  let '(p1, f1, (a1, c1, k1)) := note_cell mp mf Primary n in
  let '(p2, f2, (a2, c2, k2)) := note_cell p1 f1 Fallback m in
  let '(p3, f3, (a3, c3, k3)) := note_cell mp mf Fallback m in
  let '(p4, f4, (a4, c4, k4)) := note_cell p3 f3 Primary n in
  p2 = p4 ∧ f2 = f4 ∧ a1 + c1 + (a2 + c2) = a3 + c3 + (a4 + c4) ∧ k1 + k2 = k3 + k4.
Proof.
  intros Hty.
  assert (match mp with Some ck => negb (retained Fallback m ck) | None => false end = false)
    as HF by (destruct mp as [ck|]; [by rewrite (retained_other ck m) by auto|done]).
  unfold note_cell. rewrite HF.
  destruct (match mp with Some ck => negb (retained Primary n ck) | None => false end) eqn:HP.
  - destruct mf as [l|]; simpl.
    + destruct (filter (λ e, retained Fallback m e) l); simpl; [done|]. by rewrite HP.
    + by rewrite HP.
  - destruct mf as [l|]; simpl; [|by rewrite HP, HF].
    pose proof (dropped_count n m l) as Hd.
    pose proof (filter_retained_comm Primary n Fallback m l) as Hc.
    destruct (filter (λ e, retained Primary n e) l) as [|x1 l1] eqn:HlP;
      destruct (filter (λ e, retained Fallback m e) l) as [|x2 l2] eqn:HlF; simpl in *;
      rewrite ?HP, ?HF.
    + simpl. split_and!; lia || done.
    + rewrite Hc in Hd. rewrite Hc. simpl in *. split_and!; lia || done.
    + rewrite <- Hc. simpl. split_and!; lia || done.
    + rewrite Hc in *. destruct (filter _ (x1 :: l1)); simpl in *; split_and!; lia || done.
Qed.

Lemma note_commute_same s b n m :
  (∀ ck, primary (inherited_checkpoints s) !! b = Some ck → attestation_target_type ck = Primary) →
  note (note s b Primary n) b Fallback m ≡ note (note s b Fallback m) b Primary n.
Proof.
  intros Hty. pose proof (note_cell_commute _ (fallback (inherited_checkpoints s) !! b) n m Hty) as Hc.
  rewrite !note_as_cell. unfold cell_of.
  destruct (note_cell (primary (inherited_checkpoints s) !! b) _ Primary n)
    as [[p1 f1] [[a1 c1] k1]].
  destruct (note_cell (primary (inherited_checkpoints s) !! b) _ Fallback m)
    as [[p3 f3] [[a3 c3] k3]].
  simpl. rewrite !set_at_lookup.
  destruct (note_cell p1 f1 Fallback m) as [[p2 f2] [[a2 c2] k2]].
  destruct (note_cell p3 f3 Primary n) as [[p4 f4] [[a4 c4] k4]].
  destruct Hc as (-> & -> & Hsum & Hk). unfold apply_cell. simpl.
  split_and!; simpl; [by rewrite !set_at_idem| |].
  - unfold passed. simpl.
    transitivity ((passed_primary s ++ passed_fallback s) ++ replicate (a1 + c1 + (a2 + c2)) b);
      [rewrite !replicate_add; solve_Permutation|].
    rewrite Hsum, !replicate_add. solve_Permutation.
  - by rewrite <- !app_assoc, <- !replicate_add, Hk.
Qed.

(** The primary map holds primary checkpoints, and keeps doing so. *)
Definition primary_typed (c : AncestorBlocksFinalizationCheckpoints) : Prop :=
  map_Forall (λ _ ck, attestation_target_type ck = Primary) (primary c).

Lemma note_primary_typed s b t n :
  primary_typed (inherited_checkpoints s) → primary_typed (inherited_checkpoints (note s b t n)).
Proof.
  intros Hty. rewrite note_as_cell. unfold cell_of.
  destruct (note_cell _ _ t n) as [[mp mf] [[pp pf] pre]] eqn:Hc. simpl. intros b' ck.
  destruct (decide (b = b')) as [<-|Hne]; simpl.
  - rewrite set_at_lookup. intros ->. unfold note_cell in Hc. cbv zeta in Hc.
    apply (Hty b). destruct (primary (inherited_checkpoints s) !! b) as [ck'|].
    + destruct (negb _); [done|]. destruct (fallback (inherited_checkpoints s) !! b) as [l|];
        [|naive_solver]. by destruct (filter _ l); simplify_eq.
    + destruct (fallback (inherited_checkpoints s) !! b) as [l|]; [|naive_solver]. by destruct (filter _ l); simplify_eq.
  - rewrite set_at_lookup_ne by done. apply Hty.
Qed.

Lemma note_entry_commute s e1 e2 :
  primary_typed (inherited_checkpoints s) → e1.1 ≠ e2.1 →
  note_entry (note_entry s e1) e2 ≡ note_entry (note_entry s e2) e1.
Proof.
  destruct e1 as [[b1 t1] n1], e2 as [[b2 t2] n2]. unfold note_entry. simpl. intros Hty Hne.
  destruct (decide (b1 = b2)) as [<-|]; [|by apply note_commute_ne].
  destruct t1, t2; [done| | |done].
  - apply note_commute_same. apply Hty.
  - symmetry. apply note_commute_same. apply Hty.
Qed.

Lemma foldl_note_proper entries s1 s2 :
  s1 ≡ s2 → foldl note_entry s1 entries ≡ foldl note_entry s2 entries.
Proof.
  revert s1 s2. induction entries as [|e es IH]; intros s1 s2 Hs; simpl; [done|].
  apply IH. unfold note_entry. by rewrite Hs.
Qed.

Lemma foldl_note_perm entries1 entries2 s :
  entries1 ≡ₚ entries2 → NoDup entries1.*1 → primary_typed (inherited_checkpoints s) →
  foldl note_entry s entries1 ≡ foldl note_entry s entries2.
Proof.
  intros Hp. revert s. induction Hp as [|e l1 l2 _ IH|e1 e2 l|l1 l2 l3 H1 IH1 H2 IH2];
    intros s Hnd Hty; csimpl in *.
  - done.
  - apply NoDup_cons in Hnd as [_ Hnd]. apply IH; [done|]. by apply note_primary_typed.
  - apply NoDup_cons in Hnd as [Hnin _]. apply foldl_note_proper.
    symmetry. apply note_entry_commute; [done|]. set_solver.
  - rewrite IH1 by done. apply IH2; [by rewrite <- H1|done].
Qed.

(** AncestorBlocksFinalizationCheckpointsConstructor::update: the attestation counts
    come in hash order, and the order does not matter: for checkpoints whose primary
    entries are primary, any two enumerations of the counts leave the same remaining,
    failed and transitioned blocks, let the same blocks pass, and meet the same
    pre-attestation checkpoints. *)
Theorem update_order_independent (c0 : AncestorBlocksFinalizationCheckpoints)
    (counts : AttestationCounts) (entries : list (BlockIdentifier * AttestationTargetType * nat)) :
  primary_typed c0 → entries ≡ₚ map_to_list counts →
  let r1 := update_from (into_builder c0) entries in
  let r2 := update (into_builder c0) counts in
  remaining_checkpoints r1 = remaining_checkpoints r2 ∧ failed r1 = failed r2 ∧
  transitioned_to_fallback r1 = transitioned_to_fallback r2 ∧
  result_passed_primary r1 ++ result_passed_fallback r1 ≡ₚ
    result_passed_primary r2 ++ result_passed_fallback r2 ∧
  result_passed_preattestation r1 ≡ₚ result_passed_preattestation r2.
Proof.
  intros Hty Hp r1 r2. destruct (foldl_note_perm entries (map_to_list counts) (into_builder c0))
    as (Hc & Hpass & Hpre); [done|rewrite Hp; apply NoDup_fst_map_to_list|done|].
  unfold r1, r2, update, update_from, complete. cbn. rewrite Hc. by split_and!.
Qed.
End order.

(** ** Along a chain of one thread *)
Section chain.
Implicit Types (b : BlockIdentifier) (c : AncestorBlocksFinalizationCheckpoints).
Implicit Types (ck : AttestationTargetCheckpoint) (l : list AttestationTargetCheckpoint).

(** One block of a chain: its identifier and target, and the attestation counts it carries. *)
Record chain_block := mkChainBlock {
  chain_id : BlockIdentifier;
  chain_target : AttestationTargets;
  chain_counts : AttestationCounts;
}.

Definition chain_step c (blk : chain_block) : AncestorBlocksFinalizationCheckpoints :=
  remaining_checkpoints (update (into_builder
    (inherit_and_insert true c (chain_id blk) (chain_target blk))) (chain_counts blk)).

Definition nonempty_lists c : Prop := map_Forall (λ _ l, l ≠ []) (fallback c).

Lemma note_nonempty s b t n :
  nonempty_lists (inherited_checkpoints s) →
  nonempty_lists (inherited_checkpoints (note s b t n)).
Proof.
  intros Hne. rewrite note_as_cell. unfold cell_of.
  destruct (note_cell _ _ t n) as [[mp mf] [[pp pf] pre]] eqn:Hc. unfold nonempty_lists. simpl.
  intros b' l. destruct (decide (b = b')) as [<-|].
  - rewrite set_at_lookup. intros ->. revert Hc. unfold note_cell.
    destruct (fallback (inherited_checkpoints s) !! b) as [l0|]; simpl; repeat case_match; congruence.
  - rewrite set_at_lookup_ne by done. apply Hne.
Qed.

Lemma remaining_sub c entries b :
  nonempty_lists c →
  let r := remaining_checkpoints (update_from (into_builder c) entries) in
  (∀ ck, primary r !! b = Some ck → primary c !! b = Some ck) ∧
  (∀ l, fallback r !! b = Some l → l ≠ [] ∧ ∃ l0, fallback c !! b = Some l0 ∧ l ⊆ l0).
Proof.
  intros Hne r. pose proof (foldl_note_resolution c entries) as [_ _ _ Hp Hf _ _].
  assert (nonempty_lists (inherited_checkpoints (foldl note_entry (into_builder c) entries))) as Hne'.
  { clear Hp Hf. assert (nonempty_lists (inherited_checkpoints (into_builder c))) as H0 by done.
    revert H0. generalize (into_builder c). clear Hne r.
    induction entries as [|e es IH]; intros s Hs; [done|]. simpl. apply IH. by apply note_nonempty. }
  unfold r, update_from, complete. cbn. split.
  - intros ck [[Hck _]%map_lookup_filter_Some _]%map_lookup_filter_Some. by apply Hp.
  - intros l [Hl _]%map_lookup_filter_Some. split; [by apply (Hne' b)|].
    destruct (Hf b l Hl) as (l0 & ? & ? & _). eauto.
Qed.

(** All checkpoints of [b] are [n] blocks old and have one of the two deadlines. *)
Definition at_distance (n : nat) (target : AttestationTargets) c b : Prop :=
  let ok ck := current_distance ck = n ∧
    (deadline ck = generation_deadline (primary_target target) ∨
     deadline ck = generation_deadline (fallback_target target)) in
  (∀ ck, primary c !! b = Some ck → ok ck) ∧
  (∀ l ck, fallback c !! b = Some l → ck ∈ l → ok ck).

Lemma inherit_nonempty c b target same :
  nonempty_lists c → nonempty_lists (inherit_and_insert same c b target).
Proof.
  intros Hne. apply map_Forall_insert_2; [done|]. destruct same; simpl; [|apply map_Forall_empty].
  intros b' l. rewrite lookup_fmap. intros (l0 & Hl0 & ->)%fmap_Some.
  specialize (Hne b' l0 Hl0). by destruct l0.
Qed.

Lemma inherit_at_distance c b n target b' target' :
  b ≠ b' → at_distance n target c b →
  at_distance (S n) target (inherit_and_insert true c b' target') b.
Proof.
  intros Hne [Hp Hf]. unfold at_distance, inherit_and_insert. simpl.
  rewrite !lookup_insert_ne, !lookup_fmap by done. split.
  - intros ck (ck0 & Hck0 & ->)%fmap_Some. destruct (Hp ck0 Hck0). simpl. split; [lia|done].
  - intros l ck (l0 & Hl0 & ->)%fmap_Some Hin. apply list_elem_of_fmap in Hin as (ck0 & -> & Hin).
    destruct (Hf l0 ck0 Hl0 Hin). simpl. split; [lia|done].
Qed.

Lemma update_at_distance c b n target entries :
  nonempty_lists c → at_distance n target c b →
  at_distance n target (remaining_checkpoints (update_from (into_builder c) entries)) b.
Proof.
  intros Hne [Hp Hf]. destruct (remaining_sub c entries b Hne) as [Hsp Hsf]. split.
  - intros ck Hck. by apply Hp, Hsp.
  - intros l ck Hl Hin. destruct (Hsf l Hl) as (_ & l0 & Hl0 & Hsub). eauto.
Qed.

Lemma chain_step_nonempty c blk : nonempty_lists c → nonempty_lists (chain_step c blk).
Proof.
  intros Hne b l. unfold chain_step, update. intros Hl.
  destruct (remaining_sub _ (map_to_list (chain_counts blk)) b
    (inherit_nonempty c (chain_id blk) (chain_target blk) true Hne)) as [_ Hsf]. by apply Hsf in Hl as [? _].
Qed.

Lemma chain_steps_distance c blks b n target :
  nonempty_lists c → at_distance n target c b → b ∉ chain_id <$> blks →
  nonempty_lists (foldl chain_step c blks) ∧
  at_distance (n + length blks) target (foldl chain_step c blks) b.
Proof.
  revert c n. induction blks as [|blk blks IH]; intros c n Hne Hd Hnin; simpl.
  { by rewrite Nat.add_0_r. }
  rewrite fmap_cons, not_elem_of_cons in Hnin. destruct Hnin as [Hb Hnin].
  rewrite <- Nat.add_succ_comm. apply IH; [by apply chain_step_nonempty| |done].
  apply update_at_distance; [by apply inherit_nonempty|]. by apply inherit_at_distance.
Qed.

(** Checkpoints along a chain: no block stays undecided past its deadlines.  In a chain
    of blocks of one thread, however their attestation counts look, the block that started
    with a given target is no longer tracked, that is it has passed or failed, in every
    descendant whose distance reaches both its primary and its fallback deadline. *)
Theorem chain_resolves_by_deadline c blk descendants :
  nonempty_lists c → chain_id blk ∉ chain_id <$> descendants →
  generation_deadline (primary_target (chain_target blk)) ≤ length descendants →
  generation_deadline (fallback_target (chain_target blk)) ≤ length descendants →
  ¬ tracked (foldl chain_step (chain_step c blk) descendants) (chain_id blk).
Proof.
  intros Hne Hnin Hd1 Hd2. set (b := chain_id blk) in *.
  assert (at_distance 0 (chain_target blk)
    (inherit_and_insert true c b (chain_target blk)) b) as H0.
  { unfold at_distance, inherit_and_insert. simpl. rewrite !lookup_insert_eq. split.
    - intros ck [= <-]. simpl. auto.
    - intros l ck [= <-]. rewrite elem_of_cons, list_elem_of_singleton.
      intros [->| ->]; simpl; auto. }
  pose proof (update_at_distance _ _ _ _ (map_to_list (chain_counts blk))
    (inherit_nonempty c b _ true Hne) H0) as H1.
  destruct (chain_steps_distance _ descendants b 0 _ (chain_step_nonempty c blk Hne) H1 Hnin)
    as [Hne' [Hp Hf]]. simpl in Hp, Hf.
  assert (∃ s, foldl chain_step (chain_step c blk) descendants = remaining_checkpoints (complete s))
    as [s Hs].
  { destruct descendants as [|d ds _] using rev_ind; [by eexists|].
    rewrite foldl_app. simpl. by eexists. }
  destruct (complete_before_deadline s b) as [Hbp Hbf]. rewrite <- Hs in Hbp, Hbf.
  intros [[ck Hck]|[l Hl]].
  - specialize (Hbp ck Hck). destruct (Hp ck Hck) as [? [?|?]]; lia.
  - destruct l as [|ck l]; [by apply Hne' in Hl|].
    specialize (Hbf _ ck Hl (list_elem_of_here ck l)).
    destruct (Hf _ ck Hl (list_elem_of_here ck l)) as [? [?|?]]; lia.
Qed.
End chain.

(** ** Evaluation *)
Section checkpoint_witnesses.
Definition example_target : AttestationTargets :=
  mkAttestationTargets (mkAttestationTarget 1 3) (mkAttestationTarget 2 2).
Definition example_block (n : Z) : BlockIdentifier := BlockId (replicate 31 0%Z ++ [n]).

Definition example_checkpoints : AncestorBlocksFinalizationCheckpoints :=
  inherit_and_insert false (mkCheckpoints ∅ ∅) (example_block 1) example_target.
Definition example_counts : AttestationCounts :=
  {[(example_block 1, Primary) := 2; (example_block 1, Fallback) := 2]}.

(** Two primary attestations miss the primary target of three but meet the fallback one. *)
Lemma update_order_independent_witness :
  primary_typed example_checkpoints ∧
  (update_from (into_builder example_checkpoints) (reverse (map_to_list example_counts))
    = update (into_builder example_checkpoints) example_counts ∧
   result_passed_fallback (update (into_builder example_checkpoints) example_counts)
    = [example_block 1]) ∧
  remaining_checkpoints (update_from (into_builder example_checkpoints)
      (reverse (map_to_list example_counts))) =
    remaining_checkpoints (update (into_builder example_checkpoints) example_counts).
Proof.
  assert (primary_typed example_checkpoints) as Hty
    by (apply (bool_decide_unpack _); by vm_compute).
  split; [exact Hty|]. split; [by vm_compute|].
  exact (proj1 (update_order_independent example_checkpoints example_counts
    (reverse (map_to_list example_counts)) Hty (reverse_Permutation _))).
Defined.

Lemma chain_resolves_by_deadline_witness :
  ¬ tracked (foldl chain_step
      (chain_step (mkCheckpoints ∅ ∅) (mkChainBlock (example_block 1) example_target ∅))
      [mkChainBlock (example_block 2) example_target ∅;
       mkChainBlock (example_block 3) example_target ∅]) (example_block 1).
Proof.
  apply (chain_resolves_by_deadline (mkCheckpoints ∅ ∅)
    (mkChainBlock (example_block 1) example_target ∅)).
  - apply map_Forall_empty.
  - apply (bool_decide_unpack _). by vm_compute.
  - simpl. lia.
  - simpl. lia.
Defined.
End checkpoint_witnesses.
