(* ===== verification/BlockState.v ===== *)
(** * Block states

    Models [node/block_state/state.rs] (the table of facts about one block and its setters,
    which [libs/derive-setters] generates), [node/block_state/repository.rs] (the shared store
    of block states), [node/block_state/tools] (linking and invalidating branches),
    [node/block_state/unfinalized_ancestor_blocks.rs], the rest of
    [attestation_target_checkpoints.rs] and
    [protocol/authority_switch/find_last_prefinalized.rs].

    The [Option] fields of the Rust struct are the facts of the table: a [fact] names a field,
    [fact_type] gives its payload and a state maps every fact to an optional payload.  A
    [BlockState] handle is an [Arc] shared by all holders; the store is a map from block
    identifiers to states, and a handle is the identifier.  Saving to and loading from disk,
    tracing, notifications and locks are not modelled. *)
From stdpp Require Import base numbers gmap strings fin_maps sorting list.
From S2P Require Import Prelude Identifiers Bls BlockKeepers Envelope Attestation Checkpoints Statistics.

#[global] Instance AttestationTarget_eq_dec : EqDecision AttestationTarget.
Proof. solve_decision. Defined.
#[global] Instance AttestationTargets_eq_dec : EqDecision AttestationTargets.
Proof. solve_decision. Defined.
#[global] Instance Checkpoints_eq_dec : EqDecision AncestorBlocksFinalizationCheckpoints.
Proof. solve_decision. Defined.
#[global] Instance BlockKeeperSet_eq_dec `{Blst} : EqDecision BlockKeeperSet.
Proof. solve_decision. Defined.
#[global] Instance Envelope_eq_dec `{Blst} {TData} `{EqDecision TData} : EqDecision (Envelope TData).
Proof. solve_decision. Defined.

(** The [Option] fields of [AckiNackiBlockState]. *)
Inductive fact :=
  | block_seq_no
  | thread_identifier
  | parent_block_identifier
  | ancestors
  | block_round
  | block_height
  | producer
  | block_time_ms
  | prefinalization_proof
  | primary_finalization_proof
  | fallback_finalization_proof
  | signatures_verified
  | common_checks_passed
  | envelope_block_producer_signature_verified
  | applied
  | applied_start_timestamp
  | validated
  | finalizes_blocks
  | moves_attestation_list_cutoff
  | must_be_validated
  | must_be_validated_in_fallback_case
  | finalized
  | prefinalized
  | ancestor_blocks_finalization_checkpoints
  | stored
  | invalidated
  | at_least_one_verified_bad_block_accuser
  | bk_set
  | future_bk_set
  | descendant_bk_set
  | descendant_future_bk_set
  | has_parent_finalized
  | producer_selector_data
  | has_all_cross_thread_ref_data_available
  | has_all_cross_thread_references_finalized
  | has_cross_thread_ref_data_prepared
  | has_primary_attestation_target_met
  | has_fallback_attestation_target_met
  | attestation_target
  | block_stats
  | own_attestation
  | requires_fallback_attestation
  | own_fallback_attestation
  | retracted_attestation
  | envelope_hash
  | has_block_attestations_processed.
#[global] Instance fact_eq_dec : EqDecision fact.
Proof. solve_decision. Defined.

(** What [#[setters(..)]] generates for a field: no setter ([skip]), a setter that asserts the
    field was unset ([assert_none], the container's default), or one that overwrites
    ([assert_none = false]). *)
Inductive setter_kind := Skip | AssertNone | Overwrite.

Definition fact_setter (f : fact) : setter_kind :=
  match f with
  | parent_block_identifier | prefinalization_proof | applied | applied_start_timestamp
  | finalized | prefinalized | stored | invalidated => Skip
  | must_be_validated | must_be_validated_in_fallback_case | has_parent_finalized
  | has_cross_thread_ref_data_prepared | has_primary_attestation_target_met
  | has_fallback_attestation_target_met | requires_fallback_attestation
  | has_block_attestations_processed => Overwrite
  | _ => AssertNone
  end.

Section block_state.
Context `{Blst} {NackData : Type} `{EqDecision NackData}.

Definition fact_type (f : fact) : Type :=
  match f with
  | block_seq_no => BlockSeqNo
  | thread_identifier => ThreadIdentifier
  | parent_block_identifier => BlockIdentifier
  | ancestors => list BlockIdentifier
  | block_round | block_time_ms | applied_start_timestamp => Z
  | block_height => BlockHeight
  | producer => NodeIdentifier
  | prefinalization_proof | primary_finalization_proof | fallback_finalization_proof
  | own_attestation | own_fallback_attestation => Envelope AttestationData
  | finalizes_blocks => gset BlockIdentifier
  | moves_attestation_list_cutoff => BlockSeqNo * BlockIdentifier
  | ancestor_blocks_finalization_checkpoints => AncestorBlocksFinalizationCheckpoints
  | bk_set | future_bk_set | descendant_bk_set | descendant_future_bk_set => BlockKeeperSet
  | producer_selector_data => ProducerSelector
  | attestation_target => AttestationTargets
  | block_stats => BlockStatistics
  | retracted_attestation => Envelope NackData
  | envelope_hash => EnvelopeHash
  | _ => bool
  end.

(** The only value a fact is ever given, if there is just one: [#[setters(bool)]] setters take
    no argument and store [true], and so do the hand-written setters of the flags. *)
Definition only_value (f : fact) : option (fact_type f) :=
  match f with
  | signatures_verified | common_checks_passed | must_be_validated
  | must_be_validated_in_fallback_case | has_parent_finalized
  | has_all_cross_thread_ref_data_available | has_all_cross_thread_references_finalized
  | has_cross_thread_ref_data_prepared | has_primary_attestation_target_met
  | has_fallback_attestation_target_met | requires_fallback_attestation
  | has_block_attestations_processed
  | applied | finalized | prefinalized | stored | invalidated => Some true
  | _ => None
  end.

#[global] Instance fact_type_eq_dec f : EqDecision (fact_type f).
Proof. destruct f; simpl; apply _. Defined.

Definition facts := ∀ f : fact, option (fact_type f).

Definition set_fact (t : facts) (f : fact) (v : option (fact_type f)) : facts :=
  λ f', match decide (f = f') with
        | left e => eq_rect f (λ f', option (fact_type f')) v f' e
        | right _ => t f'
        end.

Record AckiNackiBlockState := mkState {
  block_identifier : BlockIdentifier;
  get : facts;
  bad_block_accusers : list (Occurrences * Signature);
  resolved_nacks_count : Z;
  verified_attestations : gmap (BlockIdentifier * AttestationTargetType) (gset Z);
  known_children_map : gmap ThreadIdentifier (gset BlockIdentifier);
  known_attestation_interested_parties : gset NodeIdentifier;
  object_state_version : Z;
  last_saved_object_state_version : Z;
}.

Definition AckiNackiBlockState_new (id : BlockIdentifier) : AckiNackiBlockState :=
  mkState id
    (set_fact (λ _, None) has_all_cross_thread_references_finalized (Some true))
    [] 0 ∅ ∅ ∅ 0 0.

(** [self.object_state_version.wrapping_add(1)]; then the subscribers are touched. *)
Definition notify_changed (s : AckiNackiBlockState) : AckiNackiBlockState :=
  mkState (block_identifier s) (get s) (bad_block_accusers s) (resolved_nacks_count s)
    (verified_attestations s) (known_children_map s) (known_attestation_interested_parties s)
    ((object_state_version s + 1) mod 2 ^ 64)%Z (last_saved_object_state_version s).

Definition with_fact (s : AckiNackiBlockState) (f : fact) (v : fact_type f) :
    AckiNackiBlockState :=
  mkState (block_identifier s) (set_fact (get s) f (Some v)) (bad_block_accusers s)
    (resolved_nacks_count s) (verified_attestations s) (known_children_map s)
    (known_attestation_interested_parties s) (object_state_version s)
    (last_saved_object_state_version s).

(** The body of a generated setter: nothing happens when the value does not change, an
    [assert_none] field must be unset, and a change is notified. *)
Definition generated_setter (s : AckiNackiBlockState) (f : fact) (v : fact_type f) :
    outcome Empty_set AckiNackiBlockState :=
  if decide (get s f = Some v) then Ok s
  else
    match fact_setter f, get s f with
    | AssertNone, Some _ => Panic
    | _, _ => Ok (notify_changed (with_fact s f v))
    end.

(** ** Hand-written setters *)
Definition set_parent_block_identifier (s : AckiNackiBlockState) (id : BlockIdentifier) :
    AckiNackiBlockState := with_fact s parent_block_identifier id.

Definition set_finalized (s : AckiNackiBlockState) : AckiNackiBlockState :=
  notify_changed (with_fact s finalized true).

Definition set_invalidated (s : AckiNackiBlockState) : AckiNackiBlockState :=
  notify_changed (with_fact s invalidated true).

Definition set_stored (s : AckiNackiBlockState) (hash : EnvelopeHash) : AckiNackiBlockState :=
  if decide (get s stored = Some true) then s
  else notify_changed (with_fact (with_fact s stored true) envelope_hash hash).

Definition set_stored_zero_state (s : AckiNackiBlockState) : AckiNackiBlockState :=
  if decide (get s stored = Some true) then s
  else notify_changed (with_fact (with_fact s stored true) envelope_hash (replicate 32 0%Z)).

Definition set_applied (s : AckiNackiBlockState) (start_time : Z) : AckiNackiBlockState :=
  if decide (get s applied = Some true) then s
  else notify_changed (with_fact (with_fact s applied true) applied_start_timestamp start_time).

Definition set_prefinalized (s : AckiNackiBlockState) (proof : Envelope AttestationData) :
    AckiNackiBlockState :=
  notify_changed (with_fact (with_fact s prefinalized true) prefinalization_proof proof).

Definition add_suspicious (s : AckiNackiBlockState) (accusers : Occurrences)
    (signatures : Signature) : AckiNackiBlockState :=
  if existsb (λ e, bool_decide (e.1 = accusers) && bool_decide (e.2 = signatures))
       (bad_block_accusers s) then s
  else notify_changed
    (mkState (block_identifier s) (get s) (bad_block_accusers s ++ [(accusers, signatures)])
       (resolved_nacks_count s) (verified_attestations s) (known_children_map s)
       (known_attestation_interested_parties s) (object_state_version s)
       (last_saved_object_state_version s)).

Definition try_add_attestations_interest (s : AckiNackiBlockState) (n : NodeIdentifier) :
    AckiNackiBlockState * bool :=
  let s' := mkState (block_identifier s) (get s) (bad_block_accusers s) (resolved_nacks_count s)
    (verified_attestations s) (known_children_map s)
    ({[n]} ∪ known_attestation_interested_parties s) (object_state_version s)
    (last_saved_object_state_version s) in
  if bool_decide (n ∈ known_attestation_interested_parties s) then (s', false)
  else (notify_changed s', true).

Definition add_verified_attestations_for (s : AckiNackiBlockState) (id : BlockIdentifier)
    (t : AttestationTargetType) (signers : gset Z) : AckiNackiBlockState :=
  let s' := mkState (block_identifier s) (get s) (bad_block_accusers s) (resolved_nacks_count s)
    (<[(id, t) := signers]> (verified_attestations s)) (known_children_map s)
    (known_attestation_interested_parties s) (object_state_version s)
    (last_saved_object_state_version s) in
  match verified_attestations s !! (id, t) with
  | None => notify_changed s'
  | Some _ => s'
  end.

Definition add_child (s : AckiNackiBlockState) (t : ThreadIdentifier) (child : BlockIdentifier) :
    AckiNackiBlockState :=
  let known := default ∅ (known_children_map s !! t) in
  let s' := mkState (block_identifier s) (get s) (bad_block_accusers s) (resolved_nacks_count s)
    (verified_attestations s) (<[t := {[child]} ∪ known]> (known_children_map s))
    (known_attestation_interested_parties s) (object_state_version s)
    (last_saved_object_state_version s) in
  if bool_decide (child ∈ known) then s' else notify_changed s'.

(** [save]: the version is bumped, written, and remembered as saved ([super::private::save]
    writes the file and may fail). *)
Definition save_ok (s : AckiNackiBlockState) : AckiNackiBlockState :=
  let v := ((object_state_version s + 1) mod 2 ^ 64)%Z in
  mkState (block_identifier s) (get s) (bad_block_accusers s) (resolved_nacks_count s)
    (verified_attestations s) (known_children_map s) (known_attestation_interested_parties s) v v.

(** ** Queries *)
Definition is_set (s : AckiNackiBlockState) (f : fact) (v : fact_type f) : bool :=
  bool_decide (get s f = Some v).

Definition is_invalidated s := is_set s invalidated true.
Definition is_signatures_verified s := is_set s signatures_verified true.
Definition is_finalized s := is_set s finalized true.
Definition is_prefinalized s := is_set s prefinalized true.
Definition is_stored s := is_set s stored true.
Definition is_block_already_applied s := is_set s applied true.
Definition has_attestations_target_met s := is_set s has_primary_attestation_target_met true.

Definition has_bad_block_nacks_resolved (s : AckiNackiBlockState) : bool :=
  match bad_block_accusers s with
  | [] => true
  | _ => is_set s validated true
  end.
Definition has_all_nacks_resolved (s : AckiNackiBlockState) : bool :=
  has_bad_block_nacks_resolved s.

Definition can_be_finalized (s : AckiNackiBlockState) : bool :=
  is_signatures_verified s && negb (is_invalidated s) && has_all_nacks_resolved s &&
  is_block_already_applied s && is_set s has_parent_finalized true &&
  is_set s has_all_cross_thread_references_finalized true &&
  is_set s has_all_cross_thread_ref_data_available true &&
  is_set s has_cross_thread_ref_data_prepared true.

Definition apply_can_be_skipped (s : AckiNackiBlockState) : bool :=
  (is_signatures_verified s && negb (is_invalidated s) &&
   is_set s has_all_cross_thread_ref_data_available true &&
   is_set s has_cross_thread_ref_data_prepared true)
  || is_finalized s || is_block_already_applied s.

Definition verified_attestations_for (s : AckiNackiBlockState) (id : BlockIdentifier)
    (t : AttestationTargetType) : option (gset Z) :=
  if is_signatures_verified s
  then Some (default ∅ (verified_attestations s !! (id, t)))
  else None.

Definition known_children (s : AckiNackiBlockState) (t : ThreadIdentifier) :
    option (gset BlockIdentifier) := known_children_map s !! t.

Definition get_signer_index_for_node_id (s : AckiNackiBlockState) (n : NodeIdentifier) :
    option Z :=
  keepers ← get s bk_set; signer_index <$> BlockKeeperSet_get_by_node_id keepers n.

Definition get_bk_data_for_node_id (s : AckiNackiBlockState) (n : NodeIdentifier) :
    option BlockKeeperData :=
  keepers ← get s bk_set; BlockKeeperSet_get_by_node_id keepers n.
End block_state.
Arguments AckiNackiBlockState {_} _.
Arguments facts {_} _.
Arguments fact_type : simpl never.
Arguments only_value {_ _} _.

(** ** Facts are written once *)
Section write_once.
Context `{Blst} {NackData : Type} `{EqDecision NackData}.
Implicit Types (s : AckiNackiBlockState NackData) (f : fact).
#[local] Notation only f := (only_value (NackData := NackData) f).

(** One call of a mutating method on a block state. *)
Inductive state_step s : AckiNackiBlockState NackData → Prop :=
  | step_setter f v s' :
      fact_setter f ≠ Skip → only f = Some v ∨ only f = None →
      generated_setter s f v = Ok s' → state_step s s'
  | step_parent id : state_step s (set_parent_block_identifier s id)
  | step_finalized : state_step s (set_finalized s)
  | step_invalidated : state_step s (set_invalidated s)
  | step_stored hash : state_step s (set_stored s hash)
  | step_stored_zero : state_step s (set_stored_zero_state s)
  | step_applied start : state_step s (set_applied s start)
  | step_prefinalized proof : state_step s (set_prefinalized s proof)
  | step_suspicious accusers sig : state_step s (add_suspicious s accusers sig)
  | step_interest n : state_step s (try_add_attestations_interest s n).1
  | step_verified id t signers : state_step s (add_verified_attestations_for s id t signers)
  | step_child t child : state_step s (add_child s t child)
  | step_save : state_step s (save_ok s).

Lemma set_fact_eq (t : facts NackData) f v : set_fact t f v f = v.
Proof.
  unfold set_fact. destruct (decide (f = f)) as [e|]; [|done].
  by rewrite (Eqdep_dec.UIP_dec fact_eq_dec e eq_refl).
Qed.

Lemma set_fact_ne (t : facts NackData) f v f' : f ≠ f' → set_fact t f v f' = t f'.
Proof. intros Hne. unfold set_fact. by destruct (decide (f = f')). Qed.

(** A generated setter writes its fact only. *)
Lemma generated_setter_frame s s' f v f' : generated_setter s f v = Ok s' → f' ≠ f → get s' f' = get s f'.
Proof.
  unfold generated_setter. case_decide; [by intros [= <-]|]. intros Hs Hne.
  assert (notify_changed (with_fact s f v) = s') as <- by (destruct (fact_setter f), (get s f); congruence).
  simpl. by rewrite set_fact_ne.
Qed.

(** A step writes at most two facts; every other fact is left alone. *)
Lemma step_facts s s' :
  state_step s s' →
  (∀ f, get s' f = get s f) ∨
  (∃ f v, f ≠ applied ∧ f ≠ applied_start_timestamp ∧ (∀ f', f' ≠ f → get s' f' = get s f') ∧ get s' f = Some v ∧
     ((get s f = None ∧ (only f = Some v ∨ only f = None)) ∨
      only f = Some v ∨ f = parent_block_identifier)) ∨
  (∃ h, (∀ f', f' ≠ stored → f' ≠ envelope_hash → get s' f' = get s f') ∧
     get s' stored = Some true ∧ get s' envelope_hash = Some h) ∨
  (∃ t, (∀ f', f' ≠ applied → f' ≠ applied_start_timestamp → get s' f' = get s f') ∧
     get s applied ≠ Some true ∧
     get s' applied = Some true ∧ get s' applied_start_timestamp = Some t) ∨
  (∃ p, (∀ f', f' ≠ prefinalized → f' ≠ prefinalization_proof → get s' f' = get s f') ∧
     get s' prefinalized = Some true ∧ get s' prefinalization_proof = Some p).
Proof.
  intros Hstep. destruct Hstep as [f v s' Hskip Hv Hset| | | | | | | | | | | | ].
  - unfold generated_setter in Hset. destruct (decide (get s f = Some v)) as [|Hne].
    { apply Ok_inj in Hset as <-. by left. }
    destruct (fact_setter f) eqn:Hk; [done| |].
    + destruct (get s f) eqn:Hf; [done|]. apply Ok_inj in Hset as <-. right; left. exists f, v.
      simpl. split_and!; [naive_solver..| |apply set_fact_eq|by left]. intros. by apply set_fact_ne.
    + apply Ok_inj in Hset as <-. right; left. exists f, v. simpl.
      split_and!; [naive_solver..| |apply set_fact_eq|]; [intros; by apply set_fact_ne|]. right; left.
      destruct Hv as [Hv|Hv]; [done|]. by destruct f.
  - right; left. exists parent_block_identifier, id. simpl.
    split_and!; [done..| |apply set_fact_eq|by do 2 right]. intros. by apply set_fact_ne.
  - right; left. exists finalized, true. simpl.
    split_and!; [done..| |apply set_fact_eq|by right; left]. intros. by apply set_fact_ne.
  - right; left. exists invalidated, true. simpl.
    split_and!; [done..| |apply set_fact_eq|by right; left]. intros. by apply set_fact_ne.
  - unfold set_stored. case_decide; [by left|]. right; right; left. exists hash. simpl.
    split_and!; [|by rewrite set_fact_ne, set_fact_eq|apply set_fact_eq].
    intros. by rewrite !set_fact_ne.
  - unfold set_stored_zero_state. case_decide; [by left|]. right; right; left.
    eexists. simpl. split_and!; [|by rewrite set_fact_ne, set_fact_eq|apply set_fact_eq].
    intros. by rewrite !set_fact_ne.
  - unfold set_applied. case_decide; [by left|]. right; right; right; left. exists start. simpl.
    split_and!; [|done|by rewrite set_fact_ne, set_fact_eq|apply set_fact_eq].
    intros. by rewrite !set_fact_ne.
  - do 4 right. exists proof. simpl.
    split_and!; [|by rewrite set_fact_ne, set_fact_eq|apply set_fact_eq].
    intros. by rewrite !set_fact_ne.
  - left. intros f. unfold add_suspicious. by destruct (existsb _ _).
  - left. intros f. unfold try_add_attestations_interest. by case_bool_decide.
  - left. intros f. unfold add_verified_attestations_for. by destruct (_ !! (id, t)).
  - left. intros f. unfold add_child. by case_bool_decide.
  - by left.
Qed.

(** Invariant: flags are only ever [true], and a start time comes with the applied flag. *)
Definition facts_ok s : Prop :=
  (∀ f v w, only f = Some w → get s f = Some v → v = w) ∧
  (is_Some (get s applied_start_timestamp) → get s applied = Some true).

Lemma new_facts_ok id : facts_ok (AckiNackiBlockState_new id).
Proof.
  split; simpl.
  - intros f v w Hw. destruct (decide (has_all_cross_thread_references_finalized = f)) as [<-|].
    + rewrite set_fact_eq. unfold only_value in Hw. congruence.
    + by rewrite set_fact_ne.
  - rewrite set_fact_ne by done. by intros [? ?].
Qed.

(** A step keeps the invariant, and no fact but three changes once it is set; none of
    these is ever unset. *)
Definition rewritable f : Prop :=
  f = parent_block_identifier ∨ f = prefinalization_proof ∨ f = envelope_hash.

Lemma step_monotone s s' :
  facts_ok s → state_step s s' →
  facts_ok s' ∧ (∀ f, is_Some (get s f) → is_Some (get s' f)) ∧
  (∀ f v, ¬ rewritable f → get s f = Some v → get s' f = Some v).
Proof.
  intros [Hv Ht] Hstep%step_facts. unfold facts_ok, rewritable.
  destruct Hstep as [Hall|[(f & v & Ha & Hs & Hoth & Hf & Hk)|[(h & Hoth & H1 & H2)|
    [(t & Hoth & H0 & H1 & H2)|(p & Hoth & H1 & H2)]]]].
  - split_and!; intros *; rewrite ?Hall; eauto.
  - split_and!.
    + intros f' v' w Hw Hf'. destruct (decide (f' = f)) as [->|Hne].
      * destruct Hk as [[_ [Hk|Hk]]|[Hk| ->]]; [congruence..|done].
      * rewrite Hoth in Hf' by done. eauto.
    + by rewrite !Hoth by done.
    + intros f' Hf'. destruct (decide (f' = f)) as [->|]; [by rewrite Hf|by rewrite Hoth].
    + intros f' v' Hnr Hf'. destruct (decide (f' = f)) as [->|]; [|by rewrite Hoth].
      destruct Hk as [[Hk _]|[Hk|Hk]]; [congruence| |naive_solver].
      rewrite Hf. by rewrite (Hv f v' v Hk Hf').
  - split_and!.
    + intros f' v' w Hw Hf'. destruct (decide (f' = stored)) as [->|];
        [unfold only_value in Hw; congruence|].
      destruct (decide (f' = envelope_hash)) as [->|]; [done|]. rewrite Hoth in Hf' by done. eauto.
    + by rewrite !Hoth.
    + intros f' Hf'. destruct (decide (f' = stored)) as [->|]; [by rewrite H1|].
      destruct (decide (f' = envelope_hash)) as [->|]; [by rewrite H2|by rewrite Hoth].
    + intros f' v' Hnr Hf'. destruct (decide (f' = stored)) as [->|].
      * rewrite H1. by rewrite (Hv stored v' true eq_refl Hf').
      * rewrite Hoth; naive_solver.
  - split_and!.
    + intros f' v' w Hw Hf'. destruct (decide (f' = applied)) as [->|];
        [unfold only_value in Hw; congruence|].
      destruct (decide (f' = applied_start_timestamp)) as [->|]; [done|].
      rewrite Hoth in Hf' by done. eauto.
    + done.
    + intros f' Hf'. destruct (decide (f' = applied)) as [->|]; [by rewrite H1|].
      destruct (decide (f' = applied_start_timestamp)) as [->|]; [by rewrite H2|by rewrite Hoth].
    + intros f' v' Hnr Hf'. destruct (decide (f' = applied)) as [->|].
      * rewrite H1. by rewrite (Hv applied v' true eq_refl Hf').
      * destruct (decide (f' = applied_start_timestamp)) as [->|]; [|by rewrite Hoth].
        destruct H0. apply Ht. by rewrite Hf'.
  - split_and!.
    + intros f' v' w Hw Hf'. destruct (decide (f' = prefinalized)) as [->|];
        [unfold only_value in Hw; congruence|].
      destruct (decide (f' = prefinalization_proof)) as [->|]; [done|].
      rewrite Hoth in Hf' by done. eauto.
    + by rewrite !Hoth.
    + intros f' Hf'. destruct (decide (f' = prefinalized)) as [->|]; [by rewrite H1|].
      destruct (decide (f' = prefinalization_proof)) as [->|]; [by rewrite H2|by rewrite Hoth].
    + intros f' v' Hnr Hf'. destruct (decide (f' = prefinalized)) as [->|].
      * rewrite H1. by rewrite (Hv prefinalized v' true eq_refl Hf').
      * rewrite Hoth; naive_solver.
Qed.

(** AckiNackiBlockState: the table of facts is written once.  From a fresh block state,
    along every sequence of setter calls none of which panics, a fact that is set stays
    set, and it keeps its value, except for the parent, the prefinalization proof and the
    envelope hash, whose setters overwrite. *)
Theorem facts_written_once id s s' f v :
  rtc state_step (AckiNackiBlockState_new id) s → rtc state_step s s' →
  get s f = Some v →
  is_Some (get s' f) ∧ (¬ rewritable f → get s' f = Some v).
Proof.
  intros Hs Hs' Hf.
  assert (∀ x y, rtc state_step x y → facts_ok x →
    facts_ok y ∧ (is_Some (get x f) → is_Some (get y f)) ∧
    (¬ rewritable f → get x f = Some v → get y f = Some v)) as Hgen.
  { clear -EqDecision0. intros x y Hr. induction Hr as [|x y z Hxy _ IH]; intros Hok; [done|].
    destruct (step_monotone x y Hok Hxy) as (Hok' & Hsome & Hkeep).
    destruct (IH Hok') as (? & ? & ?). split_and!; eauto. }
  destruct (Hgen _ _ Hs (new_facts_ok id)) as [Hok _].
  destruct (Hgen _ _ Hs' Hok) as (_ & Hsome & Hkeep). eauto.
Qed.
End write_once.

(** ** The store of block states *)
Notation Repository N := (gmap BlockIdentifier (AckiNackiBlockState N)) (only parsing).

Section store.
Context `{Blst} {NackData : Type} `{EqDecision NackData}.
(** The order in which a [HashSet] of identifiers is visited. *)
Variable set_iter : gset BlockIdentifier → list BlockIdentifier.

(** What [BlockStateRepository::get] creates for an identifier it has not seen. *)
Definition fresh_state (id : BlockIdentifier) : AckiNackiBlockState NackData :=
  if decide (id = BlockIdentifier_default)
  then set_parent_block_identifier (AckiNackiBlockState_new id) BlockIdentifier_default
  else AckiNackiBlockState_new id.

(** [repository.get(id)]: the shared state behind the handle. *)
Definition repo_get (r : Repository NackData) (id : BlockIdentifier) : AckiNackiBlockState NackData :=
  default (fresh_state id) (r !! id).

(** [handle.guarded_mut(f)] *)
Definition repo_update (r : Repository NackData) (id : BlockIdentifier)
    (f : AckiNackiBlockState NackData → AckiNackiBlockState NackData) : Repository NackData :=
  <[id := f (repo_get r id)]> r.

Inductive InheritError := ParentNotReady | ThreadNotSet | TargetNotSet.

Definition inherit_ancestor_blocks_finalization_distances
    (parent_block_state block_state : AckiNackiBlockState NackData) :
    outcome InheritError AncestorBlocksFinalizationCheckpoints :=
  ok_or (get parent_block_state thread_identifier) ParentNotReady ≫= λ parent_thread,
  ok_or (get parent_block_state ancestor_blocks_finalization_checkpoints) ParentNotReady
    ≫= λ prototype,
  ok_or (get block_state thread_identifier) ThreadNotSet ≫= λ thread,
  ok_or (get block_state attestation_target) TargetNotSet ≫= λ target,
  Ok (inherit_and_insert (bool_decide (thread = parent_thread)) prototype
        (block_identifier block_state) target).

(** The union of all known children, over every thread. *)
Definition all_children (s : AckiNackiBlockState NackData) : gset BlockIdentifier :=
  ⋃ (map_to_list (known_children_map s)).*2.

(** The loop of [invalidate_branch]; [None] when the fuel runs out. *)
Fixpoint invalidate_loop (fuel : nat) (r : Repository NackData) (to_process : list BlockIdentifier) :
    option (outcome Empty_set (Repository NackData)) :=
  match to_process with
  | [] => Some (Ok r)
  | next :: rest =>
      match fuel with
      | 0 => None
      | S fuel =>
          let e := repo_get r next in
          if is_finalized e then Some Panic
          else if is_invalidated e then invalidate_loop fuel r rest
          else invalidate_loop fuel (repo_update r next set_invalidated)
                 (rest ++ set_iter (all_children e))
      end
  end.

(** How many children the blocks that are not invalidated have: with the queue, a bound on
    the number of iterations. *)
Definition child_weight (s : AckiNackiBlockState NackData) : nat :=
  if is_invalidated s then 0 else size (all_children s).
Definition weight (r : Repository NackData) : nat := map_fold (λ _ s acc, child_weight s + acc) 0 r.

Definition invalidate_branch (r : Repository NackData) (root : BlockIdentifier) :
    outcome Empty_set (Repository NackData) :=
  default Panic (invalidate_loop (S (weight r)) r [root]).

Definition do_link (r : Repository NackData) (parent child : BlockIdentifier) :
    outcome Empty_set (Repository NackData) :=
  unwrap (get (repo_get r child) thread_identifier) ≫= λ t,
  let r1 := repo_update r parent (λ e, add_child e t child) in
  let is_parent_finalized := is_finalized (repo_get r1 parent) in
  let is_parent_invalidated := is_invalidated (repo_get r1 parent) in
  if is_parent_invalidated && is_parent_finalized then Panic
  else
    (if is_parent_invalidated then invalidate_branch r1 child else Ok r1) ≫= λ r2,
    let r3 := repo_update r2 child (λ e, set_parent_block_identifier e parent) in
    if is_parent_finalized
    then
      generated_setter (repo_get r3 child) has_parent_finalized true ≫= λ s,
      Ok (<[child := s]> r3)
    else Ok r3.

(** [select_unfinalized_ancestor_blocks] *)
Inductive SelectError :=
  | IncompleteHistory
  | BlockSeqNoCutoff (chain : list BlockIdentifier)
  | InvalidatedParent (chain : list BlockIdentifier).

Fixpoint select_loop (fuel : nat) (r : Repository NackData) (cutoff : BlockSeqNo)
    (chain : list BlockIdentifier) (cursor : BlockIdentifier) :
    option (outcome SelectError (list BlockIdentifier)) :=
  match fuel with
  | 0 => None
  | S fuel =>
      let e := repo_get r cursor in
      if is_invalidated e && negb (is_finalized e)
      then Some (Err (InvalidatedParent (chain ++ [cursor])))
      else
        match get e block_seq_no, get e parent_block_identifier with
        | Some seq_no, Some parent =>
            if is_finalized e then Some (Ok (reverse chain))
            else if bool_decide (seq_no < cutoff)%Z
            then Some (Err (BlockSeqNoCutoff (chain ++ [cursor])))
            else select_loop fuel r cutoff (chain ++ [cursor]) parent
        | _, _ => Some (Err IncompleteHistory)
        end
  end.

Definition select_unfinalized_ancestor_blocks (fuel : nat) (r : Repository NackData)
    (tail : BlockIdentifier) (cutoff : BlockSeqNo) :
    option (outcome SelectError (list BlockIdentifier)) := select_loop fuel r cutoff [] tail.

(** [find_next_prefinalized]: the loop over the children, in hash order. *)
Fixpoint find_next_loop (r : Repository NackData) (children : list BlockIdentifier)
    (candidate : option BlockIdentifier) : outcome Empty_set (option BlockIdentifier) :=
  match children with
  | [] => Ok candidate
  | child :: children =>
      let e := repo_get r child in
      if is_finalized e then Ok (Some child)
      else if is_prefinalized e && negb (is_invalidated e)
      then
        match candidate with
        | Some _ => Panic
        | None => find_next_loop r children (Some child)
        end
      else find_next_loop r children candidate
  end.

Definition find_next_prefinalized (r : Repository NackData) (cursor : BlockIdentifier)
    (t : ThreadIdentifier) : outcome Empty_set (option BlockIdentifier) :=
  match known_children (repo_get r cursor) t with
  | None => Ok None
  | Some children => find_next_loop r (set_iter children) None
  end.

(** The descent of [find_last_prefinalized] from the last finalized block; the result is
    logged with its sequence number, which must be set. *)
Fixpoint descend (fuel : nat) (r : Repository NackData) (t : ThreadIdentifier)
    (cursor : BlockIdentifier) : option (outcome Empty_set BlockIdentifier) :=
  match fuel with
  | 0 => None
  | S fuel =>
      match find_next_prefinalized r cursor t with
      | Ok (Some next) => descend fuel r t next
      | Ok None => Some (unwrap (get (repo_get r cursor) block_seq_no) ≫= λ _, Ok cursor)
      | Err e => Some (Err e)
      | Panic => Some Panic
      end
  end.

(** [find_last_prefinalized]; [last_finalized] is the answer of
    [select_thread_last_finalized_block], asked once. *)
Definition find_last_prefinalized (fuel : nat) (r : Repository NackData) (t : ThreadIdentifier)
    (last_finalized : option BlockIdentifier) : option (outcome Empty_set BlockIdentifier) :=
  match last_finalized with
  | Some id => descend fuel r t id
  | None =>
      let root := ThreadIdentifier_spawning_block_id t in
      let children := default ∅ (known_children (repo_get r root) t) in
      if existsb (λ c, is_finalized (repo_get r c)) (set_iter children) then Some Panic
      else descend fuel r t root
  end.
End store.

Section store_theorems.
Context `{Blst} {NackData : Type} `{EqDecision NackData}.
Variable set_iter : gset BlockIdentifier → list BlockIdentifier.
Hypothesis set_iter_elements : ∀ X, set_iter X ≡ₚ elements X.
Implicit Types (r : Repository NackData) (s : AckiNackiBlockState NackData).
Implicit Types (a b c id root : BlockIdentifier).

Lemma repo_update_eq r id f : repo_get (repo_update r id f) id = f (repo_get r id).
Proof. unfold repo_update, repo_get. by rewrite lookup_insert_eq. Qed.

Lemma repo_update_ne r id f id' : id ≠ id' → repo_get (repo_update r id f) id' = repo_get r id'.
Proof. intros. unfold repo_update, repo_get. by rewrite lookup_insert_ne. Qed.

Lemma is_set_with_fact s f v f' (v' : fact_type f') :
  f ≠ f' → is_set (with_fact s f v) f' v' = is_set s f' v'.
Proof. intros. unfold is_set. simpl. by rewrite set_fact_ne. Qed.

Lemma set_invalidated_children s : all_children (set_invalidated s) = all_children s.
Proof. done. Qed.
Lemma set_invalidated_finalized s : is_finalized (set_invalidated s) = is_finalized s.
Proof. by apply (is_set_with_fact s invalidated true finalized true). Qed.
Lemma set_invalidated_invalidated s : is_invalidated (set_invalidated s) = true.
Proof. apply bool_decide_eq_true_2. apply set_fact_eq. Qed.

Lemma weight_insert_None r id s : r !! id = None → weight (<[id := s]> r) = child_weight s + weight r.
Proof. intros Hr. unfold weight. rewrite map_fold_insert_L; [done| |done]. intros. lia. Qed.

Lemma fresh_weight id : child_weight (fresh_state (NackData := NackData) id) = 0.
Proof. unfold fresh_state. by case_decide. Qed.

Lemma weight_insert r id s :
  weight (<[id := s]> r) + child_weight (repo_get r id) = child_weight s + weight r.
Proof.
  unfold repo_get. destruct (r !! id) as [s0|] eqn:Hr; simpl.
  - rewrite <- (insert_delete_eq r id s), <- (insert_id r id s0 Hr) at 1.
    rewrite delete_insert_eq.
    rewrite weight_insert_None by apply lookup_delete_eq.
    rewrite <- (insert_id r id s0 Hr) at 2. rewrite <- (insert_delete_eq r id s0).
    rewrite weight_insert_None by apply lookup_delete_eq. lia.
  - rewrite weight_insert_None, fresh_weight by done. lia.
Qed.

(** The number of iterations is bounded by the queue and the weight. *)
Lemma invalidate_loop_terminates fuel r queue :
  length queue + weight r ≤ fuel → is_Some (invalidate_loop set_iter fuel r queue).
Proof.
  revert r queue. induction fuel as [|fuel IH]; intros r [|next rest] Hle; simpl in *; eauto; [lia|].
  destruct (is_finalized (repo_get r next)); [eauto|].
  destruct (is_invalidated (repo_get r next)) eqn:Hinv; apply IH; [lia|].
  rewrite length_app, set_iter_elements. change (length (elements ?X)) with (size X).
  pose proof (weight_insert r next (set_invalidated (repo_get r next))) as Hw.
  unfold child_weight in Hw. rewrite set_invalidated_invalidated, Hinv in Hw.
  unfold repo_update. lia.
Qed.

(** Descent through blocks that were not invalidated before. *)
Definition live_edge r a b : Prop :=
  is_invalidated (repo_get r a) = false ∧ b ∈ all_children (repo_get r a).
Definition in_branch r root b : Prop := rtc (live_edge r) root b.

(** Loop invariant, relative to the store [r0] at the start. *)
Record invalidate_inv r0 root r (queue : list BlockIdentifier) : Prop := {
  ii_state b : repo_get r b = repo_get r0 b ∨
    (repo_get r b = set_invalidated (repo_get r0 b) ∧ in_branch r0 root b ∧
     is_invalidated (repo_get r0 b) = false ∧ is_finalized (repo_get r0 b) = false);
  ii_queue b : b ∈ queue → in_branch r0 root b;
  ii_root : root ∈ queue ∨
    is_invalidated (repo_get r root) = true ∧ is_finalized (repo_get r0 root) = false;
  ii_closed a b : live_edge r0 a b → is_invalidated (repo_get r a) = true →
    b ∈ queue ∨ is_invalidated (repo_get r b) = true ∧ is_finalized (repo_get r0 b) = false;
}.

Lemma elem_of_set_iter b X : b ∈ set_iter X ↔ b ∈ X.
Proof. by rewrite set_iter_elements, elem_of_elements. Qed.

Lemma invalidate_inv_step r0 root r next rest :
  invalidate_inv r0 root r (next :: rest) →
  is_finalized (repo_get r next) = false → is_invalidated (repo_get r next) = false →
  invalidate_inv r0 root (repo_update r next set_invalidated)
    (rest ++ set_iter (all_children (repo_get r next))).
Proof.
  intros [Hst Hq Hroot Hcl] Hfin Hinv.
  assert (repo_get r next = repo_get r0 next) as Hsame.
  { destruct (Hst next) as [?|(Heq & _)]; [done|].
    by rewrite Heq, set_invalidated_invalidated in Hinv. }
  assert (in_branch r0 root next) as Hnext by (apply Hq; by left).
  assert (∀ b, is_invalidated (repo_get r b) = true →
    is_invalidated (repo_get (repo_update r next set_invalidated) b) = true) as Hmono.
  { intros b Hb. destruct (decide (next = b)) as [<-|];
      [by rewrite repo_update_eq, set_invalidated_invalidated|by rewrite repo_update_ne]. }
  split.
  - intros b. destruct (decide (next = b)) as [<-|Hne].
    + right. rewrite repo_update_eq, Hsame. rewrite Hsame in Hfin, Hinv. done.
    + by rewrite repo_update_ne.
  - intros b. rewrite elem_of_app, elem_of_set_iter. intros [Hb|Hb]; [apply Hq; by right|].
    eapply rtc_r; [exact Hnext|]. rewrite Hsame in Hinv, Hb. done.
  - rewrite elem_of_app. destruct Hroot as [Hr|[? ?]]; [|right; auto].
    apply elem_of_cons in Hr as [->|Hr]; [|by left; left].
    right. rewrite repo_update_eq, set_invalidated_invalidated. by rewrite Hsame in Hfin.
  - intros a b Hab Ha. rewrite elem_of_app, elem_of_set_iter.
    destruct (decide (next = a)) as [<-|Hne].
    + left; right. rewrite Hsame. apply Hab.
    + rewrite repo_update_ne in Ha by done. destruct (Hcl a b Hab Ha) as [Hb|Hb].
      * apply elem_of_cons in Hb as [->|Hb]; [|by left; left].
        right. rewrite repo_update_eq, set_invalidated_invalidated. by rewrite Hsame in Hfin.
      * right. destruct Hb. auto.
Qed.

Lemma invalidate_inv_skip r0 root r next rest :
  invalidate_inv r0 root r (next :: rest) → is_finalized (repo_get r next) = false →
  is_invalidated (repo_get r next) = true → invalidate_inv r0 root r rest.
Proof.
  intros [Hst Hq Hroot Hcl] Hfin Hinv.
  assert (is_finalized (repo_get r0 next) = false).
  { destruct (Hst next) as [<-|(_ & _ & _ & ?)]; done. }
  split; [done|..].
  - intros b Hb. apply Hq. by right.
  - rewrite elem_of_cons in Hroot. naive_solver.
  - intros a b Hab Ha. specialize (Hcl a b Hab Ha). rewrite elem_of_cons in Hcl. naive_solver.
Qed.

Lemma invalidate_loop_spec fuel r0 root r queue o :
  invalidate_inv r0 root r queue → invalidate_loop set_iter fuel r queue = Some o →
  match o with
  | Ok r' => invalidate_inv r0 root r' []
  | Err _ => False
  | Panic => ∃ b, in_branch r0 root b ∧ is_finalized (repo_get r0 b) = true
  end.
Proof.
  revert r queue. induction fuel as [|fuel IH]; intros r [|next rest] Hinv; simpl;
    [by intros [= <-]|done|by intros [= <-]|].
  destruct (is_finalized (repo_get r next)) eqn:Hf.
  - intros [= <-]. exists next. split; [apply (ii_queue _ _ _ _ Hinv); by left|].
    destruct (ii_state _ _ _ _ Hinv next) as [<-|(Heq & _)]; [done|].
    by rewrite Heq, set_invalidated_finalized in Hf.
  - destruct (is_invalidated (repo_get r next)) eqn:Hi.
    + apply IH. by eapply invalidate_inv_skip.
    + apply IH. by apply invalidate_inv_step.
Qed.

Lemma invalidate_inv_init r root : invalidate_inv r root r [root].
Proof.
  split.
  - by left.
  - intros b ->%list_elem_of_singleton. apply rtc_refl.
  - left. set_solver.
  - intros a b [Hf _] Ha. congruence.
Qed.

Lemma invalidate_branch_cases r root :
  match invalidate_branch set_iter r root with
  | Ok r' => invalidate_inv r root r' []
  | Err _ => False
  | Panic => ∃ b, in_branch r root b ∧ is_finalized (repo_get r b) = true
  end.
Proof.
  unfold invalidate_branch.
  destruct (invalidate_loop_terminates (S (weight r)) r [root]) as [o Ho]; [simpl; lia|].
  rewrite Ho. simpl. exact (invalidate_loop_spec _ _ _ _ _ _ (invalidate_inv_init r root) Ho).
Qed.

Lemma in_branch_invalidated r0 root r b :
  invalidate_inv r0 root r [] → in_branch r0 root b → is_invalidated (repo_get r b) = true.
Proof.
  intros [Hst _ Hroot Hcl]. revert b. apply rtc_ind_r.
  - destruct Hroot as [?%elem_of_nil|[? ?]]; done.
  - intros x y _ Hlast IH. destruct (Hcl x y Hlast IH) as [?%elem_of_nil|[? ?]]; done.
Qed.

Lemma in_branch_not_finalized r0 root r b :
  invalidate_inv r0 root r [] → in_branch r0 root b → is_finalized (repo_get r0 b) = false.
Proof.
  intros Hinv Hb. pose proof Hinv as [_ _ Hroot Hcl].
  apply rtc_inv_r in Hb as [<-|(a & Ha & Hab)].
  - destruct Hroot as [?%elem_of_nil|[? ?]]; done.
  - pose proof (in_branch_invalidated _ _ _ a Hinv Ha).
    destruct (Hcl a b Hab) as [?%elem_of_nil|[? ?]]; done.
Qed.

(** C9 (invalidate_branch): the traversal always ends, also on cyclic child links, and
    invalidates exactly the branch, that is the root and every block that descends from it
    through blocks that were not yet invalidated.  It panics exactly when a block of the branch
    is finalized, even one that was already invalidated; otherwise it succeeds, every block of
    the branch that was not invalidated becomes invalidated with all else of its state
    unchanged, and every other block keeps its state. *)
Theorem invalidate_branch_exact r root :
  match invalidate_branch set_iter r root with
  | Ok r' =>
      (∀ b, in_branch r root b → is_finalized (repo_get r b) = false) ∧
      (∀ b, in_branch r root b → is_invalidated (repo_get r b) = false →
            repo_get r' b = set_invalidated (repo_get r b)) ∧
      (∀ b, ¬ in_branch r root b ∨ is_invalidated (repo_get r b) = true →
            repo_get r' b = repo_get r b)
  | Err _ => False
  | Panic => ∃ b, in_branch r root b ∧ is_finalized (repo_get r b) = true
  end.
Proof.
  pose proof (invalidate_branch_cases r root) as Hc.
  destruct (invalidate_branch set_iter r root) as [r'| |]; [|done..].
  split_and!.
  - intros b Hb. by eapply in_branch_not_finalized.
  - intros b Hb Hn. pose proof (in_branch_invalidated _ _ _ b Hc Hb) as Hi.
    destruct (ii_state _ _ _ _ Hc b) as [Heq|(? & _)]; [|done]. by rewrite Heq, Hn in Hi.
  - intros b Hout. destruct (ii_state _ _ _ _ Hc b) as [?|(_ & ? & ? & _)]; [done|].
    destruct Hout; congruence.
Qed.

(** ** Linking *)
Definition branch_closed r : Prop := ∀ a b,
  b ∈ all_children (repo_get r a) → is_invalidated (repo_get r a) = true →
  is_invalidated (repo_get r b) = true.

Lemma elem_of_all_children b s :
  b ∈ all_children s ↔ ∃ t X, known_children_map s !! t = Some X ∧ b ∈ X.
Proof.
  unfold all_children. rewrite elem_of_union_list. split.
  - intros (X & HX & Hb). apply list_elem_of_fmap in HX as ([t X'] & -> & Hin).
    apply elem_of_map_to_list in Hin. eauto.
  - intros (t & X & Ht & Hb). exists X. split; [|done].
    apply list_elem_of_fmap. exists (t, X). by rewrite elem_of_map_to_list.
Qed.

Lemma add_child_map s t c :
  known_children_map (add_child s t c) =
    <[t := {[c]} ∪ default ∅ (known_children_map s !! t)]> (known_children_map s).
Proof. unfold add_child. by case_bool_decide. Qed.
Lemma add_child_get s t c : get (add_child s t c) = get s.
Proof. unfold add_child. by case_bool_decide. Qed.

Lemma elem_of_add_child s t c b : b ∈ all_children (add_child s t c) ↔ b = c ∨ b ∈ all_children s.
Proof.
  rewrite !elem_of_all_children, add_child_map. split.
  - intros (t' & X & HX & Hb). apply lookup_insert_Some in HX as [[<- <-]|[_ HX]]; [|eauto].
    apply elem_of_union in Hb as [->%elem_of_singleton|Hb]; [by left|].
    destruct (known_children_map s !! t) as [X|] eqn:Ht; [|set_solver]. right. eauto.
  - intros [->|(t' & X & HX & Hb)].
    + exists t. eexists. split; [apply lookup_insert_eq|set_solver].
    + destruct (decide (t = t')) as [<-|].
      * exists t. eexists. split; [apply lookup_insert_eq|]. rewrite HX. set_solver.
      * exists t', X. by rewrite lookup_insert_ne.
Qed.

Lemma repo_update_is_set r id f (fc : fact) v b :
  (∀ s, get (f s) fc = get s fc) →
  is_set (repo_get (repo_update r id f) b) fc v = is_set (repo_get r b) fc v.
Proof.
  intros Hf. destruct (decide (id = b)) as [<-|]; [|by rewrite repo_update_ne].
  rewrite repo_update_eq. unfold is_set. by rewrite Hf.
Qed.

Lemma repo_update_children r id f b :
  (∀ s, known_children_map (f s) = known_children_map s) →
  all_children (repo_get (repo_update r id f) b) = all_children (repo_get r b).
Proof.
  intros Hf. destruct (decide (id = b)) as [<-|]; [|by rewrite repo_update_ne].
  rewrite repo_update_eq. unfold all_children. by rewrite Hf.
Qed.

Lemma branch_closed_update r id f :
  (∀ s, get (f s) invalidated = get s invalidated) →
  (∀ s, known_children_map (f s) = known_children_map s) →
  branch_closed r → branch_closed (repo_update r id f).
Proof.
  intros Hi Hc Hcl a b. unfold is_invalidated.
  rewrite !repo_update_is_set, repo_update_children by done. apply Hcl.
Qed.

Lemma is_set_true s f v : is_set s f v = true → get s f = Some v.
Proof. apply bool_decide_eq_true. Qed.

(** Repairing the closure after a new edge below an invalidated parent. *)
Lemma invalidate_closes r1 r2 parent child :
  (∀ a b, b ∈ all_children (repo_get r1 a) → is_invalidated (repo_get r1 a) = true →
     (a = parent ∧ b = child) ∨ is_invalidated (repo_get r1 b) = true) →
  invalidate_inv r1 child r2 [] → branch_closed r2.
Proof.
  intros Hcl Hinv a b Hb Ha.
  assert (∀ x, is_invalidated (repo_get r1 x) = true → is_invalidated (repo_get r2 x) = true) as Hup.
  { intros x Hx. destruct (ii_state _ _ _ _ Hinv x) as [->|(-> & _)]; [done|].
    apply set_invalidated_invalidated. }
  assert (all_children (repo_get r2 a) = all_children (repo_get r1 a)) as Hch
    by (destruct (ii_state _ _ _ _ Hinv a) as [->|(-> & _)]; done).
  rewrite Hch in Hb. destruct (is_invalidated (repo_get r1 a)) eqn:Ha1.
  - destruct (Hcl a b Hb Ha1) as [[_ ->]|Hb1]; [|by apply Hup].
    eapply in_branch_invalidated; [done|]. apply rtc_refl.
  - destruct (ii_closed _ _ _ _ Hinv a b) as [?%elem_of_nil|[? ?]]; done.
Qed.

Lemma invalidate_inv_get r0 root r f b :
  invalidate_inv r0 root r [] → f ≠ invalidated → get (repo_get r b) f = get (repo_get r0 b) f.
Proof.
  intros Hinv Hne. destruct (ii_state _ _ _ _ Hinv b) as [->|(-> & _)]; [done|].
  simpl. by rewrite set_fact_ne.
Qed.

(** The store after the first step of [do_link]. *)
Lemma link_edges r t parent child a b :
  branch_closed r →
  let r1 := repo_update r parent (λ e, add_child e t child) in
  b ∈ all_children (repo_get r1 a) → is_invalidated (repo_get r1 a) = true →
  (a = parent ∧ b = child) ∨ is_invalidated (repo_get r1 b) = true.
Proof.
  intros Hcl r1. unfold r1, is_invalidated. rewrite !repo_update_is_set by (intros; by rewrite add_child_get).
  destruct (decide (parent = a)) as [<-|Hne].
  - rewrite repo_update_eq, elem_of_add_child. intros [->|Hb] Ha; [by left|right; by eapply Hcl].
  - rewrite repo_update_ne by done. intros Hb Ha. right. by eapply Hcl.
Qed.

(** The store between the invalidation and the last two setters of [do_link]. *)
Record linked parent child t r r2 : Prop := {
  ln_closed : branch_closed r2;
  ln_child : child ∈ default ∅ (known_children (repo_get r2 parent) t);
  ln_inv : is_invalidated (repo_get r parent) = true → is_invalidated (repo_get r2 child) = true;
}.

Lemma link_first r t parent child r2 :
  branch_closed r →
  let r1 := repo_update r parent (λ e, add_child e t child) in
  (if is_invalidated (repo_get r1 parent) then invalidate_branch set_iter r1 child else Ok r1)
    = Ok r2 → linked parent child t r r2.
Proof.
  intros Hcl r1 Hr2.
  assert (is_invalidated (repo_get r1 parent) = is_invalidated (repo_get r parent)) as Hinv.
  { apply repo_update_is_set. intros. by rewrite add_child_get. }
  assert (child ∈ default ∅ (known_children (repo_get r1 parent) t)) as Hch.
  { unfold r1, known_children. rewrite repo_update_eq, add_child_map, lookup_insert_eq. set_solver. }
  destruct (is_invalidated (repo_get r1 parent)) eqn:Hi.
  - pose proof (invalidate_branch_cases r1 child) as Hc. rewrite Hr2 in Hc. split.
    + eapply invalidate_closes; [|exact Hc]. intros a b. by apply link_edges.
    + destruct (ii_state _ _ _ _ Hc parent) as [->|(-> & _)]; done.
    + intros _. eapply in_branch_invalidated; [done|]. apply rtc_refl.
  - apply Ok_inj in Hr2 as <-. split; [|done|congruence].
    intros a b Hb Ha. destruct (link_edges r t parent child a b Hcl Hb Ha) as [[-> ->]|]; [|done].
    by rewrite Hi in Ha.
Qed.

Lemma setter_has_parent s :
  ∃ s', generated_setter s has_parent_finalized true = Ok s' ∧
    get s' has_parent_finalized = Some true ∧
    (∀ f, f ≠ has_parent_finalized → get s' f = get s f) ∧
    known_children_map s' = known_children_map s.
Proof.
  unfold generated_setter. case_decide as Hd; [by exists s|].
  eexists. split; [done|]. simpl. split_and!; [apply set_fact_eq| |done].
  intros. by rewrite set_fact_ne.
Qed.

Lemma repo_insert_get r id s b :
  repo_get (<[id := s]> r) b = if decide (id = b) then s else repo_get r b.
Proof. unfold repo_get. rewrite lookup_insert. by case_decide. Qed.

(** Writing the child's other facts does not disturb the links. *)
Lemma linked_insert parent child t r r2 s' :
  linked parent child t r r2 →
  get s' invalidated = get (repo_get r2 child) invalidated →
  known_children_map s' = known_children_map (repo_get r2 child) →
  linked parent child t r (<[child := s']> r2).
Proof.
  intros [Hcl Hch Hinv] Hi Hc.
  assert (∀ b, is_invalidated (repo_get (<[child := s']> r2) b) =
               is_invalidated (repo_get r2 b)) as Hsi.
  { intros b. rewrite repo_insert_get. case_decide as Hb; [|done]. subst b.
    unfold is_invalidated, is_set. by rewrite Hi. }
  assert (∀ b, known_children_map (repo_get (<[child := s']> r2) b) =
               known_children_map (repo_get r2 b)) as Hsc.
  { intros b. rewrite repo_insert_get. case_decide as Hb; [|done]. by subst b. }
  split.
  - intros a b. unfold all_children. rewrite Hsc, !Hsi. apply Hcl.
  - unfold known_children. by rewrite Hsc.
  - rewrite Hsi. done.
Qed.

Lemma link_last parent child t r r2 (fin : bool) :
  linked parent child t r r2 →
  let r3 := repo_update r2 child (λ e, set_parent_block_identifier e parent) in
  ∃ r', (if fin then generated_setter (repo_get r3 child) has_parent_finalized true ≫= λ s,
           Ok (<[child := s]> r3) else Ok r3) = Ok r' ∧
    linked parent child t r r' ∧
    get (repo_get r' child) parent_block_identifier = Some parent ∧
    (fin = true → get (repo_get r' child) has_parent_finalized = Some true).
Proof.
  intros Hl r3.
  assert (linked parent child t r r3) as Hl3.
  { apply linked_insert; [done| |done]. simpl. by rewrite set_fact_ne. }
  assert (get (repo_get r3 child) parent_block_identifier = Some parent) as Hp3.
  { unfold r3. rewrite repo_update_eq. apply set_fact_eq. }
  destruct fin; [|by exists r3].
  destruct (setter_has_parent (repo_get r3 child)) as (s' & -> & Hs & Hoth & Hc).
  eexists. split; [done|]. rewrite repo_insert_get, decide_True by done.
  split_and!; [apply linked_insert; [done|by apply Hoth|done]|by rewrite Hoth|done].
Qed.

(** *** What linking writes *)
Lemma repo_update_get r id f (fc : fact) b : (∀ s, get (f s) fc = get s fc) →
  get (repo_get (repo_update r id f) b) fc = get (repo_get r b) fc.
Proof.
  intros Hf. destruct (decide (id = b)) as [<-|]; [by rewrite repo_update_eq, Hf|by rewrite repo_update_ne].
Qed.

Lemma invalidate_frame r root r' b f : invalidate_branch set_iter r root = Ok r' → f ≠ invalidated →
  get (repo_get r' b) f = get (repo_get r b) f.
Proof.
  intros Hi Hf. pose proof (invalidate_branch_cases r root) as Hc. rewrite Hi in Hc.
  destruct (ii_state _ _ _ _ Hc b) as [->|(-> & _)]; [done|]. simpl. by rewrite set_fact_ne.
Qed.

(** The three stages of [do_link]: the child is added, an invalidated branch is invalidated, and
    the child is told about its parent. *)
Lemma do_link_stages r parent child r' : do_link set_iter r parent child = Ok r' →
  ∃ t r2, get (repo_get r child) thread_identifier = Some t ∧
    (let r1 := repo_update r parent (λ e, add_child e t child) in r2 = r1 ∨ invalidate_branch set_iter r1 child = Ok r2) ∧
    let r3 := repo_update r2 child (λ e, set_parent_block_identifier e parent) in
    (r' = r3 ∨ ∃ s, generated_setter (repo_get r3 child) has_parent_finalized true = Ok s ∧ r' = <[child := s]> r3).
Proof.
  unfold do_link. intros (t & Ht%unwrap_Some & Hl)%outcome_bind_Ok. exists t. cbv zeta in Hl.
  match type of Hl with (if ?c then _ else _) = _ => destruct c; [done|] end.
  apply outcome_bind_Ok in Hl as (r2 & Hr2 & Hl). exists r2. split; [done|]. split.
  { destruct (is_invalidated _); [by right|left; congruence]. }
  destruct (is_finalized _); [|left; congruence]. right.
  apply outcome_bind_Ok in Hl as (s & Hs & [= <-]). eauto.
Qed.

Lemma do_link_frame r parent child r' b f : do_link set_iter r parent child = Ok r' →
  f ≠ invalidated → f ≠ parent_block_identifier → f ≠ has_parent_finalized →
  get (repo_get r' b) f = get (repo_get r b) f.
Proof.
  intros (t & r2 & _ & Hr2 & Hr')%do_link_stages Hi Hp Hh. cbv zeta in *.
  assert (get (repo_get r2 b) f = get (repo_get r b) f) as <-.
  { destruct Hr2 as [-> | Hr2]; [|rewrite (invalidate_frame _ _ _ _ _ Hr2) by done];
      apply repo_update_get; intros; by rewrite add_child_get. }
  assert (∀ b, get (repo_get (repo_update r2 child (λ e, set_parent_block_identifier e parent)) b) f = get (repo_get r2 b) f) as Hr3.
  { intros c. apply repo_update_get. intros. simpl. by rewrite set_fact_ne. }
  destruct Hr' as [-> | (s & Hs & ->)]; [done|]. rewrite repo_insert_get. case_decide as Hb; [subst b|done].
  by rewrite (generated_setter_frame _ _ _ _ _ Hs).
Qed.

Lemma do_link_links r parent child r' : do_link set_iter r parent child = Ok r' →
  get (repo_get r' child) parent_block_identifier = Some parent.
Proof.
  intros (t & r2 & _ & _ & Hr')%do_link_stages. cbv zeta in Hr'.
  assert (get (repo_get (repo_update r2 child (λ e, set_parent_block_identifier e parent)) child) parent_block_identifier
    = Some parent) as Hp by (rewrite repo_update_eq; apply set_fact_eq).
  destruct Hr' as [-> | (s & Hs & ->)]; [done|]. rewrite repo_insert_get, decide_True by done.
  by rewrite (generated_setter_frame _ _ _ _ _ Hs).
Qed.

(** Do_link: linking keeps invalidation closed under descent.  If every known child of
    an invalidated block is invalidated before, it is so after; the child then knows its
    parent, the parent knows its child in the child's thread, a child of a finalized parent
    is marked so, and a child of an invalidated parent is invalidated.  Linking panics only
    for a child without a thread, a parent both invalidated and finalized, or a finalized
    block in a branch that has to be invalidated. *)
Theorem do_link_closed r parent child :
  branch_closed r →
  match do_link set_iter r parent child with
  | Ok r' =>
      branch_closed r' ∧
      get (repo_get r' child) parent_block_identifier = Some parent ∧
      (∃ t, get (repo_get r child) thread_identifier = Some t ∧
            child ∈ default ∅ (known_children (repo_get r' parent) t)) ∧
      (is_finalized (repo_get r parent) = true →
         get (repo_get r' child) has_parent_finalized = Some true) ∧
      (is_invalidated (repo_get r parent) = true → is_invalidated (repo_get r' child) = true)
  | Err _ => False
  | Panic =>
      get (repo_get r child) thread_identifier = None ∨
      is_invalidated (repo_get r parent) = true ∧
        (is_finalized (repo_get r parent) = true ∨
         ∃ t b, in_branch (repo_update r parent (λ e, add_child e t child)) child b ∧
           is_finalized (repo_get (repo_update r parent (λ e, add_child e t child)) b) = true)
  end.
Proof.
  intros Hcl. unfold do_link.
  destruct (get (repo_get r child) thread_identifier) as [t|] eqn:Ht;
    cbn [unwrap mbind outcome_bind]; [|by left].
  pose proof (link_first r t parent child) as Hlink. cbv zeta in Hlink.
  set (r1 := repo_update r parent (λ e, add_child e t child)) in *.
  assert (∀ fc v, is_set (repo_get r1 parent) fc v = is_set (repo_get r parent) fc v) as Hsame.
  { intros. apply repo_update_is_set. intros. by rewrite add_child_get. }
  assert (is_invalidated (repo_get r1 parent) = is_invalidated (repo_get r parent)) as Hinv
    by apply Hsame.
  assert (is_finalized (repo_get r1 parent) = is_finalized (repo_get r parent)) as Hfin
    by apply Hsame.
  rewrite Hinv, Hfin in *.
  destruct (is_invalidated (repo_get r parent) && is_finalized (repo_get r parent)) eqn:Hboth.
  { apply andb_true_iff in Hboth as [-> ->]. right. eauto. }
  pose proof (invalidate_branch_cases r1 child) as Hcases.
  destruct (if is_invalidated (repo_get r parent) then invalidate_branch set_iter r1 child else Ok r1)
    as [r2| |] eqn:Hr2; cbn [mbind outcome_bind].
  2: { destruct (is_invalidated (repo_get r parent)); [|done]. by rewrite Hr2 in Hcases. }
  2: { destruct (is_invalidated (repo_get r parent)); [|done]. rewrite Hr2 in Hcases.
       right. split; [done|]. right. by exists t. }
  destruct (link_last parent child t r r2 (is_finalized (repo_get r parent)) (Hlink r2 Hcl eq_refl))
    as (r' & Hr' & [Hcl' Hch' Hinv'] & Hpar & Hhas).
  cbv zeta in Hr'. rewrite Hr'. split_and!; eauto.
Qed.
End store_theorems.

(** ** Walking the ancestors *)
Section select_theorems.
Context `{Blst} {NackData : Type} `{EqDecision NackData}.
Implicit Types (r : Repository NackData) (cutoff : BlockSeqNo).
Implicit Types (a b cur tail : BlockIdentifier) (l : list BlockIdentifier).

(** A block the walk passes through. *)
Definition passable r cutoff cur parent : Prop :=
  is_finalized (repo_get r cur) = false ∧ is_invalidated (repo_get r cur) = false ∧
  get (repo_get r cur) parent_block_identifier = Some parent ∧
  ∃ n, get (repo_get r cur) block_seq_no = Some n ∧ (cutoff ≤ n)%Z.

(** [walk tail l cur]: following parents from [tail] passes the blocks [l], newest first,
    and arrives at [cur]. *)
Inductive walk r cutoff tail : list BlockIdentifier → BlockIdentifier → Prop :=
  | walk_nil : walk r cutoff tail [] tail
  | walk_snoc l cur parent :
      walk r cutoff tail l cur → passable r cutoff cur parent →
      walk r cutoff tail (l ++ [cur]) parent.

(** Sequence numbers grow from parent to child. *)
Definition parents_decrease r : Prop := ∀ id p n m,
  get (repo_get r id) block_seq_no = Some n →
  get (repo_get r id) parent_block_identifier = Some p →
  get (repo_get r p) block_seq_no = Some m → (m < n)%Z.

(** Fuel that is enough from [cur]. *)
Definition select_fuel r cutoff cur : nat :=
  match get (repo_get r cur) block_seq_no with
  | Some n => Z.to_nat (n - cutoff + 1) + 1
  | None => 1
  end.

(** What each result of the selection says. *)
Definition select_result r cutoff tail (o : outcome SelectError (list BlockIdentifier)) : Prop :=
  match o with
  | Ok chain => ∃ fin, walk r cutoff tail (reverse chain) fin ∧ is_finalized (repo_get r fin) = true
  | Err (BlockSeqNoCutoff chain) => ∃ l b n, chain = l ++ [b] ∧ walk r cutoff tail l b ∧
      is_finalized (repo_get r b) = false ∧ get (repo_get r b) block_seq_no = Some n ∧ (n < cutoff)%Z
  | Err (InvalidatedParent chain) => ∃ l b, chain = l ++ [b] ∧ walk r cutoff tail l b ∧
      is_finalized (repo_get r b) = false ∧ is_invalidated (repo_get r b) = true
  | Err IncompleteHistory => ∃ l b, walk r cutoff tail l b ∧
      (get (repo_get r b) block_seq_no = None ∨ get (repo_get r b) parent_block_identifier = None)
  | Panic => False
  end.

Lemma select_loop_result r cutoff tail fuel chain cur :
  parents_decrease r → walk r cutoff tail chain cur → select_fuel r cutoff cur ≤ fuel →
  ∃ o, select_loop fuel r cutoff chain cur = Some o ∧ select_result r cutoff tail o.
Proof.
  intros Hdec. revert chain cur. induction fuel as [|fuel IH]; intros chain cur Hw Hf.
  { unfold select_fuel in Hf. destruct (get _ _); lia. }
  simpl. destruct (is_invalidated (repo_get r cur)) eqn:Hi; destruct (is_finalized (repo_get r cur)) eqn:Hfin;
    cbn [andb negb]; try (eexists; split; [done|]; simpl; by exists chain, cur).
  all: destruct (get (repo_get r cur) block_seq_no) as [n|] eqn:Hn;
    [|eexists; split; [done|]; simpl; exists chain, cur; eauto].
  all: destruct (get (repo_get r cur) parent_block_identifier) as [p|] eqn:Hp;
    [|eexists; split; [done|]; simpl; exists chain, cur; eauto].
  all: try (eexists; split; [done|]; simpl; exists cur; by rewrite reverse_involutive).
  case_bool_decide as Hcut; [eexists; split; [done|]; simpl; by exists chain, cur, n|].
  apply IH.
  - apply walk_snoc; [done|]. split_and!; [done..|]. exists n. split; [done|lia].
  - unfold select_fuel in *. rewrite Hn in Hf.
    destruct (get (repo_get r p) block_seq_no) as [m|] eqn:Hm; [|lia].
    pose proof (Hdec _ _ _ _ Hn Hp Hm). lia.
Qed.

(** Select_unfinalized_ancestor_blocks: in a store where sequence numbers grow from
    parent to child the loop ends within [seq_no - cutoff + 2] iterations.  A chain it
    returns is the whole path of unfinalized, not invalidated blocks at or above the
    cutoff that leads, oldest first, from a finalized block to the tail; each error says
    truly what stopped the walk: a block below the cutoff, an invalidated block, or a block
    without sequence number or parent. *)
Theorem select_unfinalized_sound r cutoff tail fuel :
  parents_decrease r → select_fuel r cutoff tail ≤ fuel →
  ∃ o, select_unfinalized_ancestor_blocks fuel r tail cutoff = Some o ∧
       select_result r cutoff tail o.
Proof. intros Hdec Hf. apply select_loop_result; [done|apply walk_nil|done]. Qed.
End select_theorems.

(** ** The last prefinalized block *)
Section prefinalized_theorems.
Context `{Blst} {NackData : Type} `{EqDecision NackData}.
Variable set_iter : gset BlockIdentifier → list BlockIdentifier.
Hypothesis set_iter_elements : ∀ X, set_iter X ≡ₚ elements X.
Implicit Types (r : Repository NackData) (t : ThreadIdentifier) (a b c : BlockIdentifier).

(** A child the descent goes on with. *)
Definition chosen r c : bool :=
  is_finalized (repo_get r c) || is_prefinalized (repo_get r c) && negb (is_invalidated (repo_get r c)).

Definition children_of r a t : gset BlockIdentifier := default ∅ (known_children (repo_get r a) t).

(** No fork among the chosen children. *)
Definition no_fork r t : Prop := ∀ a c1 c2,
  c1 ∈ children_of r a t → c2 ∈ children_of r a t → chosen r c1 → chosen r c2 → c1 = c2.

Definition next_block r t a c : Prop := c ∈ children_of r a t ∧ chosen r c.

Lemma find_next_loop_skip r l o :
  (∀ c, c ∈ l → ¬ chosen r c) → find_next_loop r l o = Ok o.
Proof.
  induction l as [|x l IH]; intros Hl; simpl; [done|].
  assert (¬ chosen r x) as Hx by (apply Hl; by left). unfold chosen in Hx.
  destruct (is_finalized (repo_get r x)); [by destruct Hx|].
  destruct (is_prefinalized (repo_get r x) && _); [by destruct Hx|].
  apply IH. intros c Hc. apply Hl. by right.
Qed.

Lemma find_next_loop_found r l c :
  NoDup l → c ∈ l → chosen r c → (∀ c', c' ∈ l → chosen r c' → c' = c) →
  find_next_loop r l None = Ok (Some c).
Proof.
  intros Hnd Hc Hch Huniq. induction l as [|x l IH]; [by apply elem_of_nil in Hc|].
  apply NoDup_cons in Hnd as [Hx Hnd]. simpl. destruct (decide (x = c)) as [->|Hne].
  - pose proof Hch as Hch'. unfold chosen in Hch. destruct (is_finalized (repo_get r c)); [done|].
    destruct (is_prefinalized (repo_get r c) && _); [|done].
    apply find_next_loop_skip. intros c' Hc' Hch2. destruct Hx.
    by rewrite <- (Huniq c') by (done || by right).
  - assert (¬ chosen r x) as Hnx by (intros ?; apply Hne, Huniq; [by left|done]).
    unfold chosen in Hnx. destruct (is_finalized (repo_get r x)); [by destruct Hnx|].
    destruct (is_prefinalized (repo_get r x) && _); [by destruct Hnx|].
    apply IH; [done| |]; [by apply elem_of_cons in Hc as [->|]|].
    intros c' Hc'. apply Huniq. by right.
Qed.

Lemma find_next_spec r t a :
  no_fork r t →
  (∀ c, next_block r t a c → find_next_prefinalized set_iter r a t = Ok (Some c)) ∧
  ((∀ c, ¬ next_block r t a c) → find_next_prefinalized set_iter r a t = Ok None).
Proof.
  intros Hnf. unfold find_next_prefinalized, next_block, children_of.
  assert (∀ X, NoDup (set_iter X)) as Hnd by (intros; rewrite set_iter_elements; apply NoDup_elements).
  assert (∀ X c, c ∈ set_iter X ↔ c ∈ X) as Hin
    by (intros; by rewrite set_iter_elements, elem_of_elements).
  specialize (Hnf a). unfold children_of in Hnf.
  destruct (known_children (repo_get r a) t) as [X|]; simpl in *.
  - split.
    + intros c [Hc Hch]. apply find_next_loop_found; [done|by apply Hin|done|].
      intros c' Hc'%Hin Hch'. by apply Hnf.
    + intros Hno. apply find_next_loop_skip. intros c Hc%Hin Hch. by apply (Hno c).
  - split; [|done]. intros c [Hc _]. by apply elem_of_empty in Hc.
Qed.

(** Find_last_prefinalized: when no block has two finalized or validly prefinalized
    children in the thread, the answer does not depend on the hash order: from the last
    finalized block, the descent follows the only such child at each step and, given one
    unit of fuel per step, returns the block that has none. *)
Theorem find_last_prefinalized_end r t n start last :
  no_fork r t → nsteps (next_block r t) n start last → (∀ c, ¬ next_block r t last c) →
  is_Some (get (repo_get r last) block_seq_no) →
  find_last_prefinalized set_iter (S n) r t (Some start) = Some (Ok last).
Proof.
  intros Hnf Hsteps Hend [seq Hseq]. simpl. revert Hend Hseq.
  induction Hsteps as [x|n x y z Hxy _ IH]; intros Hend Hseq.
  - simpl. rewrite (proj2 (find_next_spec r t x Hnf) Hend), Hseq. done.
  - simpl. rewrite (proj1 (find_next_spec r t x Hnf) y Hxy). by apply IH.
Qed.
End prefinalized_theorems.

(** ** Evaluation *)
Section block_state_witnesses.
#[local] Existing Instance LinearBlst.

(** Block 1 is finalized, block 2 its child, block 3 a child of block 2. *)
Definition example_thread : ThreadIdentifier := ThreadIdentifier_new BlockIdentifier_default 0.
Definition example_state (n : Z) (parent : Z) (fin : bool) : AckiNackiBlockState (H := LinearBlst) unit :=
  let s0 := AckiNackiBlockState_new (example_block n) in
  let s1 := with_fact (with_fact s0 block_seq_no n) parent_block_identifier (example_block parent) in
  let s2 := with_fact s1 thread_identifier example_thread in
  let s3 := add_child s2 example_thread (example_block (n + 1)) in
  if fin then set_finalized s3 else s3.
Definition example_repo : Repository unit :=
  <[example_block 1 := example_state 1 0 true]>
    (<[example_block 2 := example_state 2 1 false]>
      (<[example_block 3 := example_state 3 2 false]> ∅)).

Lemma facts_written_once_witness :
  get (set_invalidated (example_state 2 1 false)) block_seq_no = Some 2%Z ∧
  get (set_invalidated (set_finalized (AckiNackiBlockState_new (H := LinearBlst)
    (NackData := unit) (example_block 2)))) finalized = Some true.
Proof.
  split; [reflexivity|].
  refine (proj2 (facts_written_once (example_block 2)
    (set_finalized (AckiNackiBlockState_new (example_block 2))) _ finalized true _ _ _) _).
  - apply rtc_once, step_finalized.
  - apply rtc_once, step_invalidated.
  - reflexivity.
  - intros [?|[?|?]]; discriminate.
Defined.

Lemma example_repo_get id :
  repo_get example_repo id =
    if decide (id = example_block 1) then example_state 1 0 true
    else if decide (id = example_block 2) then example_state 2 1 false
    else if decide (id = example_block 3) then example_state 3 2 false else fresh_state id.
Proof.
  unfold repo_get, example_repo. rewrite !lookup_insert, lookup_empty.
  repeat case_decide; subst; done.
Qed.

Lemma example_parents_decrease : parents_decrease example_repo.
Proof.
  assert (∀ id, get (fresh_state (H := LinearBlst) (NackData := unit) id) block_seq_no = None)
    as Hfresh by (intros id; unfold fresh_state; by case_decide).
  intros id p n m. rewrite !example_repo_get.
  repeat (case_decide; [subst id|]); rewrite ?Hfresh; try done;
    intros [= <-] [= <-]; repeat (case_decide; [by intros [= <-]|]); by rewrite ?Hfresh.
Qed.

Lemma select_unfinalized_sound_witness :
  select_unfinalized_ancestor_blocks 10 example_repo (example_block 3) 1 =
    Some (Ok [example_block 2; example_block 3]) ∧
  ∃ o, select_unfinalized_ancestor_blocks 10 example_repo (example_block 3) 1 = Some o ∧
       select_result example_repo 1 (example_block 3) o.
Proof.
  split; [vm_compute; reflexivity|].
  apply (select_unfinalized_sound example_repo 1 (example_block 3) 10 example_parents_decrease).
  vm_compute. lia.
Defined.

Lemma example_invalidate_ok :
  is_ok (invalidate_branch elements example_repo (example_block 2)) = true.
Proof. vm_compute. reflexivity. Qed.

Lemma example_link_ok :
  is_ok (do_link elements example_repo (example_block 1) (example_block 2)) = true.
Proof. vm_compute. reflexivity. Qed.

Lemma invalidate_branch_exact_witness :
  ∃ r', invalidate_branch elements example_repo (example_block 2) = Ok r' ∧
    (∀ b, in_branch example_repo (example_block 2) b →
          is_invalidated (repo_get example_repo b) = false →
          repo_get r' b = set_invalidated (repo_get example_repo b)).
Proof.
  pose proof (invalidate_branch_exact elements (λ X, Permutation_refl _) example_repo
    (example_block 2)) as Hex.
  destruct (is_ok_inv _ example_invalidate_ok) as [r' Hr]. rewrite Hr in Hex.
  exists r'. split; [exact Hr|]. exact (proj1 (proj2 Hex)).
Defined.

Lemma example_closed : branch_closed example_repo.
Proof.
  intros a b Hb Ha%is_set_true. exfalso. revert Ha. rewrite example_repo_get.
  repeat (case_decide; [done|]). unfold fresh_state. by case_decide.
Qed.

Lemma do_link_closed_witness :
  ∃ r', do_link elements example_repo (example_block 1) (example_block 2) = Ok r' ∧
    branch_closed r' ∧ get (repo_get r' (example_block 2)) has_parent_finalized = Some true.
Proof.
  pose proof (do_link_closed elements (λ X, Permutation_refl _) example_repo
    (example_block 1) (example_block 2) example_closed) as Hl.
  destruct (is_ok_inv _ example_link_ok) as [r' Hr]. rewrite Hr in Hl.
  exists r'. split; [exact Hr|]. split; [exact (proj1 Hl)|].
  apply (proj1 (proj2 (proj2 (proj2 Hl)))). reflexivity.
Defined.

(** Blocks 2 and 3 are finalized too: the descent ends at block 3. *)
Definition example_repo2 : Repository unit :=
  <[example_block 1 := example_state 1 0 true]>
    (<[example_block 2 := example_state 2 1 true]> ∅).

Lemma example_repo2_get id :
  repo_get example_repo2 id =
    if decide (id = example_block 1) then example_state 1 0 true
    else if decide (id = example_block 2) then example_state 2 1 true else fresh_state id.
Proof.
  unfold repo_get, example_repo2. rewrite !lookup_insert, lookup_empty.
  repeat case_decide; subst; done.
Qed.

Lemma example_next a c : next_block example_repo2 example_thread a c → c = example_block 2.
Proof.
  unfold next_block, children_of. rewrite (example_repo2_get a). intros [Hc Hch].
  revert Hc. repeat (case_decide; [subst a|]).
  - assert (known_children (example_state 1 0 true) example_thread = Some {[example_block 2]})
      as -> by (vm_compute; reflexivity). set_solver.
  - assert (known_children (example_state 2 1 true) example_thread = Some {[example_block 3]})
      as -> by (vm_compute; reflexivity).
    simpl. intros ->%elem_of_singleton. by vm_compute in Hch.
  - assert (known_children (fresh_state (H := LinearBlst) (NackData := unit) a) example_thread = None)
      as -> by (unfold fresh_state; by case_decide). set_solver.
Qed.

Lemma find_last_prefinalized_end_witness :
  find_last_prefinalized elements 2 example_repo2 example_thread (Some (example_block 1)) =
    Some (Ok (example_block 2)).
Proof.
  apply (find_last_prefinalized_end elements (λ X, Permutation_refl _) example_repo2
    example_thread 1 (example_block 1) (example_block 2)).
  - intros a c1 c2 H1 H2 H3 H4.
    rewrite (example_next a c1 (conj H1 H3)), (example_next a c2 (conj H2 H4)). reflexivity.
  - apply nsteps_once. split; [|vm_compute; exact I].
    apply (bool_decide_unpack _). vm_compute. exact I.
  - intros c Hc. pose proof (example_next _ _ Hc) as ->. destruct Hc as [Hc _].
    apply (bool_decide_pack _) in Hc. vm_compute in Hc. exact Hc.
  - exists 2%Z. reflexivity.
Defined.
End block_state_witnesses.
