(* ===== verification/Collected.v ===== *)
(** * Collected attestations

    Models [types/attestation/mod.rs]: the pool of attestations a node has received, the
    cutoff behind which they are dropped, and the aggregation that folds the attestations of
    a block until a target is met.  The pool's hash sets are visited in hash order: the order
    is the variable [set_iter].  The condition variable is not modelled, its counter is. *)
From stdpp Require Import base numbers gmap strings fin_maps sorting list.
From S2P Require Import Prelude Identifiers Bls BlockKeepers Envelope Attestation Checkpoints.
From S2P Require Import Statistics BlockState.

#[global] Instance CompactedMapKey_countable : Countable CompactedMapKey.
Proof.
  refine (inj_countable' (λ k, (key_block_seq_no k, key_block_identifier k, key_target_type k))
    (λ '(n, b, t), mkCompactedMapKey n b t) _). by intros [].
Defined.
#[global] Instance CompactedAttestation_countable `{Blst} : Countable CompactedAttestation.
Proof.
  refine (inj_countable'
    (λ a, (compacted_parent_block_id a, compacted_envelope_hash a,
           compacted_aggregated_signature a, compacted_signature_occurrences a,
           compacted_target_type a))
    (λ '(p, h, s, o, t), mkCompactedAttestation p h s o t) _). by intros [].
Defined.

Record AggregateFilter := mkAggregateFilter {
  filter_attestation_type : AttestationTargetType;
  min_signatures_inclusive : nat;
}.

(** [From<&AttestationTargetCheckpoint> for AggregateFilter] *)
Definition AggregateFilter_from (c : AttestationTargetCheckpoint) : AggregateFilter :=
  mkAggregateFilter (attestation_target_type c) (required_attestation_count c).

Inductive AggregateError := SeqNoMissing | ParentMissing | BkSetMissing | EnvelopeHashMissing.

Section collected.
Context `{Blst} `{Serialize AttestationData} {NackData : Type} `{EqDecision NackData}.
Variable set_iter : gset CompactedAttestation → list CompactedAttestation.

Record CollectedAttestations := mkCollected {
  compacted_unverified_attestations : gmap CompactedMapKey (gset CompactedAttestation);
  folded_attestations : gmap CompactedMapKey (Envelope AttestationData);
  cutoff : BlockSeqNo;
  notifications : Z;
}.

Definition CollectedAttestations_default : CollectedAttestations := mkCollected ∅ ∅ 0 0.

(** [touch]: the [u32] counter wraps. *)
Definition CollectedAttestations_touch (c : CollectedAttestations) : CollectedAttestations :=
  mkCollected (compacted_unverified_attestations c) (folded_attestations c) (cutoff c)
    ((notifications c + 1) mod 2 ^ 32)%Z.

(** [entry(key).and_modify(insert).or_insert(from_iter([a]))] and whether it changed the set. *)
Definition pool_insert (c : CollectedAttestations) (e : Envelope AttestationData) :
    CollectedAttestations * bool :=
  let key := attestation_key (data e) in
  let a := CompactedAttestation_from e in
  let known := compacted_unverified_attestations c !! key in
  (mkCollected (<[key := {[a]} ∪ default ∅ known]> (compacted_unverified_attestations c))
     (folded_attestations c) (cutoff c) (notifications c),
   match known with
   | Some set => negb (bool_decide (a ∈ set))
   | None => true
   end).

Definition CollectedAttestations_add (c : CollectedAttestations)
    (attestation : Envelope AttestationData) (enable_cutoff : bool) :
    CollectedAttestations * bool :=
  if enable_cutoff && bool_decide (att_block_seq_no (data attestation) ≤ cutoff c)%Z
  then (c, false)
  else
    let '(c', is_modified) := pool_insert c attestation in
    (if is_modified then CollectedAttestations_touch c' else c', is_modified).

(** One iteration of the loop of [add_bunch]. *)
Definition inserts (acc : CollectedAttestations * bool) (e : Envelope AttestationData) :
    CollectedAttestations * bool :=
  let '(c, added) := acc in let '(c', m) := pool_insert c e in (c', added || m).

Definition CollectedAttestations_add_bunch (c : CollectedAttestations)
    (attestations : list (Envelope AttestationData)) (enable_cutoff : bool) :
    CollectedAttestations * bool :=
  let attestations :=
    if enable_cutoff
    then filter (λ e, (cutoff c < att_block_seq_no (data e))%Z) attestations
    else attestations in
  match attestations with
  | [] => (c, false)
  | _ =>
      let '(c', added_smth) := foldl inserts (c, false) attestations in
      (if added_smth then CollectedAttestations_touch c' else c', added_smth)
  end.

Definition CollectedAttestations_move_cutoff (c : CollectedAttestations)
    (block_seq_no : BlockSeqNo) : CollectedAttestations :=
  mkCollected
    (filter (λ kv, (block_seq_no < key_block_seq_no kv.1)%Z) (compacted_unverified_attestations c))
    (filter (λ kv, (block_seq_no < key_block_seq_no kv.1)%Z) (folded_attestations c))
    block_seq_no (notifications c).

(** The proof a block state already holds for the wanted target. *)
Definition stored_proof (s : AckiNackiBlockState NackData) (t : AttestationTargetType) :
    option (Envelope AttestationData) :=
  match t with
  | Primary =>
      match get s primary_finalization_proof with
      | Some p => Some p
      | None => get s prefinalization_proof
      end
  | Fallback => get s fallback_finalization_proof
  end.

Definition enough (filter : AggregateFilter) (o : option (Envelope AttestationData)) :
    option (Envelope AttestationData) :=
  e ← o;
  if bool_decide (min_signatures_inclusive filter ≤ Envelope_signatures_count e)
  then Some e else None.

(** The unverified attestations that speak of the same block contents and whose signers are
    all in the set. *)
Definition matching (c : CollectedAttestations) (key : CompactedMapKey)
    (parent : BlockIdentifier) (hash : EnvelopeHash) (keepers : BlockKeeperSet) :
    list CompactedAttestation :=
  filter (λ a, compacted_parent_block_id a = parent ∧ compacted_envelope_hash a = hash ∧
               ∀ s, s ∈ CompactedAttestation_signers a →
                    Is_true (BlockKeeperSet_contains_signer keepers s))
    (set_iter (default ∅ (compacted_unverified_attestations c !! key))).

(** The last part of an iteration: combine what is folded with what is unverified. *)
Definition aggregate_fold (c : CollectedAttestations) (filter : AggregateFilter)
    (key : CompactedMapKey) (parent : BlockIdentifier) (hash : EnvelopeHash)
    (keepers : BlockKeeperSet) :
    CollectedAttestations * outcome AggregateError (option (Envelope AttestationData)) :=
  let folded_attestation := folded_attestations c !! key in
  let matched := matching c key parent hash keepers in
  let combined_signers : gset Z :=
    from_option Envelope_signers ∅ folded_attestation ∪
    ⋃ (CompactedAttestation_signers <$> matched) in
  let to_combine :=
    from_option (λ e, [(signature_occurrences e, aggregated_signature e)]) [] folded_attestation ++
    ((λ a, (compacted_signature_occurrences a, compacted_aggregated_signature a)) <$> matched) in
  if bool_decide (min_signatures_inclusive filter ≤ size combined_signers) then
    let attestation_data :=
      mkAttestationData parent (key_block_identifier key) (key_block_seq_no key) hash
        (filter_attestation_type filter) in
    match try_fold attestation_data to_combine keepers with
    | Ok r =>
        match folded r with
        | None => (c, Ok None)
        | Some new_fold =>
            (mkCollected (compacted_unverified_attestations c)
               (<[key := new_fold]> (folded_attestations c)) (cutoff c) (notifications c),
             Ok (enough filter (Some new_fold)))
        end
    | Err _ => (c, Ok None)
    | Panic => (c, Panic)
    end
  else (c, Ok None).

(** One iteration of the loop of [aggregate]. *)
Definition aggregate_one (c : CollectedAttestations)
    (s : AckiNackiBlockState NackData) (filter : AggregateFilter) :
    CollectedAttestations * outcome AggregateError (option (Envelope AttestationData)) :=
  match enough filter (stored_proof s (filter_attestation_type filter)) with
  | Some proof => (c, Ok (Some proof))
  | None =>
      match get s block_seq_no with
      | None => (c, Err SeqNoMissing)
      | Some seq_no =>
          match get s parent_block_identifier with
          | None => (c, Err ParentMissing)
          | Some parent =>
              let key := mkCompactedMapKey seq_no (block_identifier s)
                           (filter_attestation_type filter) in
              match enough filter (folded_attestations c !! key) with
              | Some e => (c, Ok (Some e))
              | None =>
                  match get s bk_set with
                  | None => (c, Err BkSetMissing)
                  | Some keepers =>
                      match get s envelope_hash with
                      | None => (c, Err EnvelopeHashMissing)
                      | Some hash => aggregate_fold c filter key parent hash keepers
                      end
                  end
              end
          end
      end
  end.

Fixpoint aggregate_loop (c : CollectedAttestations)
    (required : list (AckiNackiBlockState NackData * AggregateFilter))
    (result : list (Envelope AttestationData)) :
    CollectedAttestations * outcome AggregateError (list (Envelope AttestationData)) :=
  match required with
  | [] => (c, Ok result)
  | (s, filter) :: required =>
      match aggregate_one c s filter with
      | (c', Ok (Some e)) => aggregate_loop c' required (result ++ [e])
      | (c', Ok None) => aggregate_loop c' required result
      | (c', Err err) => (c', Err err)
      | (c', Panic) => (c', Panic)
      end
  end.

Definition CollectedAttestations_aggregate (c : CollectedAttestations)
    (required : list (AckiNackiBlockState NackData * AggregateFilter)) :
    CollectedAttestations * outcome AggregateError (list (Envelope AttestationData)) :=
  aggregate_loop c required [].
End collected.

(** ** The pool *)
Section pool_theorems.
Context `{Blst}.
Implicit Types (c : CollectedAttestations) (e : Envelope AttestationData).
Implicit Types (l : list (Envelope AttestationData)) (key : CompactedMapKey).

Definition pool c key : gset CompactedAttestation :=
  default ∅ (compacted_unverified_attestations c !! key).

Definition accepted c (enable_cutoff : bool) e : Prop :=
  enable_cutoff = true → (cutoff c < att_block_seq_no (data e))%Z.
#[global] Instance accepted_dec c en e : Decision (accepted c en e).
Proof. unfold accepted. apply _. Defined.

Lemma pool_insert_spec c e key :
  let '(c', m) := pool_insert c e in
  pool c' key = (if decide (attestation_key (data e) = key)
                 then {[CompactedAttestation_from e]} ∪ pool c key else pool c key) ∧
  m = negb (bool_decide (CompactedAttestation_from e ∈ pool c (attestation_key (data e)))) ∧
  cutoff c' = cutoff c ∧ folded_attestations c' = folded_attestations c ∧
  notifications c' = notifications c.
Proof.
  unfold pool_insert, pool. simpl. split_and!; [|..|done|done|done].
  - rewrite lookup_insert. case_decide as Hk; [by rewrite Hk|done].
  - destruct (compacted_unverified_attestations c !! _); simpl; [done|].
    symmetry. apply negb_true_iff, bool_decide_eq_false_2. set_solver.
Qed.

Lemma inserts_spec l c b :
  let '(c', b') := foldl inserts (c, b) l in
  (∀ key a, a ∈ pool c' key ↔ a ∈ pool c key ∨
     ∃ e, e ∈ l ∧ attestation_key (data e) = key ∧ a = CompactedAttestation_from e) ∧
  cutoff c' = cutoff c ∧ folded_attestations c' = folded_attestations c ∧
  notifications c' = notifications c ∧
  (b' = true ↔ b = true ∨ ∃ e, e ∈ l ∧ CompactedAttestation_from e ∉ pool c (attestation_key (data e))).
Proof.
  induction l as [|e l IH] using rev_ind; simpl.
  { split_and!; try done; intros; split; try tauto;
      intros [?|(e & ?%elem_of_nil & _)]; done. }
  assert (e ∈ l ++ [e]) as Hl by (apply elem_of_app; right; by apply list_elem_of_singleton).
  assert (∀ e', e' ∈ l → e' ∈ l ++ [e]) as Hsub by (intros; apply elem_of_app; by left).
  rewrite foldl_app. destruct (foldl inserts (c, b) l) as [c1 b1]. cbn [foldl inserts].
  destruct IH as (Hp & Hc & Hf & Hn & Hb).
  pose proof (pool_insert_spec c1 e) as Hi.
  destruct (pool_insert c1 e) as [c2 m]. cbn in Hi.
  destruct (Hi (attestation_key (data e))) as (_ & -> & Hc2 & Hf2 & Hn2).
  split_and!; [|congruence..|].
  - intros key a. destruct (Hi key) as [Hk2 _]. rewrite Hk2. case_decide as Hk.
    + rewrite elem_of_union, elem_of_singleton, Hp. split.
      * intros [->|[?|(e' & ? & ? & ?)]]; [right; by exists e|by left|right; exists e'; eauto].
      * intros [?|(e' & [?| ->%list_elem_of_singleton]%elem_of_app & ? & ?)]; eauto 6.
    + rewrite Hp. split.
      * intros [?|(e' & ? & ? & ?)]; [by left|right; exists e'; eauto].
      * intros [?|(e' & [?| ->%list_elem_of_singleton]%elem_of_app & ? & ?)]; [by left|eauto 6|done].
  - rewrite orb_true_iff, Hb, negb_true_iff, bool_decide_eq_false, Hp. split.
    + intros [[?|(e' & ? & ?)]|Hne]; [by left|right; exists e'; eauto|].
      right. exists e. split; [done|]. intros ?. apply Hne. by left.
    + intros [?|(e' & [?| ->%list_elem_of_singleton]%elem_of_app & Hne)]; [auto|left; right; eauto|].
      destruct (decide (Exists (λ e', CompactedAttestation_from e' ∉
        pool c (attestation_key (data e'))) l)) as [?%Exists_exists|Hno]; [by left; right|].
      right. intros [?|(e' & Hin & Hk & Heq)]; [done|].
      apply Hno, Exists_exists. exists e'. split; [done|]. by rewrite <- Heq, Hk.
Qed.

(** CollectedAttestations::add_bunch: a bunch adds exactly its attestations above the
    cutoff (all of them when the cutoff is off), each compacted without loss, under its own
    block, height and target; the folded attestations and the cutoff do not change; and the
    result says whether the pool grew. *)
Theorem add_bunch_pool c l en :
  let '(c', grew) := CollectedAttestations_add_bunch c l en in
  (∀ key a, a ∈ pool c' key ↔ a ∈ pool c key ∨
     ∃ e, e ∈ l ∧ accepted c en e ∧ attestation_key (data e) = key ∧
          Envelope_from_compacted a key = e) ∧
  cutoff c' = cutoff c ∧ folded_attestations c' = folded_attestations c ∧
  (grew = true ↔ ∃ key a, a ∈ pool c' key ∧ a ∉ pool c key).
Proof.
  unfold CollectedAttestations_add_bunch.
  set (l' := if en then filter (λ e, (cutoff c < att_block_seq_no (data e))%Z) l else l).
  assert (∀ e, e ∈ l' ↔ e ∈ l ∧ accepted c en e) as Hl'.
  { intros e. unfold l', accepted. destruct en; [rewrite list_elem_of_filter|]; naive_solver. }
  assert (∀ e key a, attestation_key (data e) = key ∧ Envelope_from_compacted a key = e ↔
    attestation_key (data e) = key ∧ a = CompactedAttestation_from e) as Hround.
  { intros e key a. split; intros [Hk Ha]; (split; [done|]).
    - subst e. by destruct a.
    - subst a key. by destruct e as [? ? []]. }
  pose proof (inserts_spec l' c false) as Hspec.
  assert (match l' with [] => (c, false) | _ => let '(c', b) := foldl inserts (c, false) l' in
      (if b then CollectedAttestations_touch c' else c', b) end =
    (let '(c', b) := foldl inserts (c, false) l' in
      (if b then CollectedAttestations_touch c' else c', b))) as -> by by destruct l'.
  destruct (foldl inserts (c, false) l') as [c' b] eqn:Hf.
  destruct Hspec as (Hp & Hc & Hfo & _ & Hb).
  assert (∀ key, pool (if b then CollectedAttestations_touch c' else c') key = pool c' key) as Htp
    by by destruct b.
  split_and!; [|by destruct b..|].
  - intros key a. rewrite Htp, Hp. apply or_iff_compat_l. split.
    + intros (e & He%Hl' & Hk & Ha). exists e. destruct He. split_and!; try done.
      by apply (Hround e key a).
    + intros (e & He & Hacc & Hk & Ha). exists e. rewrite Hl'. split_and!; try done.
      by apply (Hround e key a).
  - rewrite Hb. split.
    + intros [?|(e & He & Hne)]; [done|]. exists (attestation_key (data e)), (CompactedAttestation_from e).
      rewrite Htp, Hp. eauto 7.
    + intros (key & a & Ha & Hna). rewrite Htp, Hp in Ha.
      destruct Ha as [?|(e & ? & <- & ->)]; [done|]. right. eauto.
Qed.
End pool_theorems.

(** ** Aggregation *)
Section aggregate_theorems.
Context `{Blst} `{Serialize AttestationData} `{!BlstLaws}.
Context {NackData : Type} `{EqDecision NackData}.
Variable set_iter : gset CompactedAttestation → list CompactedAttestation.
Hypothesis set_iter_elements : ∀ X, set_iter X ≡ₚ elements X.
(** The block keeper set each block was produced under (a write-once fact of its state). *)
Variable keepers_of : BlockIdentifier → BlockKeeperSet.
Implicit Types (c : CollectedAttestations) (s : AckiNackiBlockState NackData).
Implicit Types (f : AggregateFilter) (key : CompactedMapKey) (e : Envelope AttestationData).

Definition valid_for id e : Prop :=
  Envelope_verify_signatures e (BlockKeeperSet_get_pubkeys_by_signers (keepers_of id)) = Ok true.

(** Counters that came over the wire are [u16]s. *)
Definition unverified_wf c : Prop :=
  ∀ key a, a ∈ pool c key → occurrences_wf (compacted_signature_occurrences a).

(** Every folded attestation is filed under its own key and verifies. *)
Definition folded_ok c : Prop := map_Forall (λ key e,
  attestation_key (data e) = key ∧ occurrences_wf (signature_occurrences e) ∧
  valid_for (key_block_identifier key) e) (folded_attestations c).

Definition consistent s : Prop :=
  ∀ b, get s bk_set = Some b → b = keepers_of (block_identifier s).

(** What an attestation that [aggregate] returns for a requested block is worth. *)
Definition good_result s f e : Prop :=
  min_signatures_inclusive f ≤ Envelope_signatures_count e ∧
  (stored_proof s (filter_attestation_type f) = Some e ∨
   ∃ n, get s block_seq_no = Some n ∧
        attestation_key (data e) =
          mkCompactedMapKey n (block_identifier s) (filter_attestation_type f) ∧
        valid_for (block_identifier s) e).

Lemma enough_Some f o e :
  enough f o = Some e → o = Some e ∧ min_signatures_inclusive f ≤ Envelope_signatures_count e.
Proof.
  unfold enough. destruct o as [e'|]; simpl; [|done].
  case_bool_decide; [|done]. by intros [= <-].
Qed.

Lemma to_combine_wf c key parent hash b :
  unverified_wf c → folded_ok c →
  Forall (λ i : Occurrences * Signature, occurrences_wf i.1)
    (from_option (λ e, [(signature_occurrences e, aggregated_signature e)]) []
       (folded_attestations c !! key) ++
     ((λ a, (compacted_signature_occurrences a, compacted_aggregated_signature a)) <$>
        matching set_iter c key parent hash b)).
Proof.
  intros Hu Hf. apply Forall_app. split.
  - destruct (folded_attestations c !! key) as [e|] eqn:He; simpl; [|by constructor].
    apply Forall_singleton. by destruct (Hf key e He) as (_ & ? & _).
  - apply Forall_forall. intros i. rewrite list_elem_of_fmap. intros (a & -> & Ha). simpl.
    unfold matching in Ha. apply list_elem_of_filter in Ha as [_ Ha].
    rewrite set_iter_elements, elem_of_elements in Ha. by apply (Hu key).
Qed.

Lemma aggregate_fold_sound c f n id parent hash b c' o :
  unverified_wf c → folded_ok c → b = keepers_of id →
  aggregate_fold set_iter c f (mkCompactedMapKey n id (filter_attestation_type f)) parent hash b
    = (c', o) →
  compacted_unverified_attestations c' = compacted_unverified_attestations c ∧ folded_ok c' ∧
  (∀ e, o = Ok (Some e) → min_signatures_inclusive f ≤ Envelope_signatures_count e ∧
     attestation_key (data e) = mkCompactedMapKey n id (filter_attestation_type f) ∧
     valid_for id e).
Proof.
  intros Hu Hf Hb. unfold aggregate_fold. case_bool_decide; [|by intros [= <- <-]].
  set (key := mkCompactedMapKey n id (filter_attestation_type f)).
  destruct (try_fold _ _ b) as [r| |] eqn:Hfold; [|by intros [= <- <-]..].
  apply try_fold_inv in Hfold; [|by apply to_combine_wf].
  destruct (folded r) as [e|] eqn:Hr; [|by intros [= <- <-]].
  destruct (inv_valid _ _ _ _ Hfold e Hr) as (Hv & Hd & Hw). rewrite Hb in Hv.
  assert (attestation_key (data e) = key) as Hk by by rewrite Hd.
  intros [= <- <-]. split_and!; [done| |].
  - apply map_Forall_insert_2; [|done]. split_and!; done.
  - intros e' He'. apply Ok_inj, (enough_Some f (Some e)) in He' as [[= <-] ?]. done.
Qed.

Lemma aggregate_one_sound c s f c' o :
  unverified_wf c → folded_ok c → consistent s → aggregate_one set_iter c s f = (c', o) →
  compacted_unverified_attestations c' = compacted_unverified_attestations c ∧ folded_ok c' ∧
  (∀ e, o = Ok (Some e) → good_result s f e).
Proof.
  intros Hu Hf Hs. unfold aggregate_one, good_result.
  destruct (enough f (stored_proof s _)) as [p|] eqn:Hp.
  { apply enough_Some in Hp as [Hp Hn]. intros [= <- <-]. split_and!; [done..|].
    intros e [= <-]. eauto. }
  destruct (get s block_seq_no) as [n|]; [|by intros [= <- <-]].
  destruct (get s parent_block_identifier) as [parent|]; [|by intros [= <- <-]].
  destruct (enough f (folded_attestations c !! _)) as [p|] eqn:Hc.
  { apply enough_Some in Hc as [Hc Hn]. intros [= <- <-]. split_and!; [done..|].
    intros e [= <-]. split; [done|]. right. exists n.
    destruct (Hf _ _ Hc) as (Hk & _ & Hv). split_and!; [done|exact Hk|exact Hv]. }
  destruct (get s bk_set) as [b|] eqn:Hb; [|by intros [= <- <-]].
  destruct (get s envelope_hash) as [hash|]; [|by intros [= <- <-]].
  intros Hagg. apply aggregate_fold_sound in Hagg as (G1 & G2 & G3); [|done|done|by apply Hs].
  split_and!; [done|done|]. intros e He. destruct (G3 e He) as (? & ? & ?). eauto 6.
Qed.

(** C10 (CollectedAttestations::aggregate): every attestation returned meets the requested
    minimum of signers and is either the proof the block state already holds or a folded
    attestation of exactly that block, height and target that verifies against the block's
    keeper set; unverified attestations are never dropped, and the cache of folded
    attestations only ever holds attestations that verify, also when the call ends in an
    error. *)
Theorem aggregate_sound c required c' o :
  unverified_wf c → folded_ok c → Forall (λ sf, consistent sf.1) required →
  CollectedAttestations_aggregate set_iter c required = (c', o) →
  compacted_unverified_attestations c' = compacted_unverified_attestations c ∧ folded_ok c' ∧
  (∀ result, o = Ok result →
     Forall (λ e, ∃ s f, (s, f) ∈ required ∧ good_result s f e) result).
Proof.
  intros Hu Hf Hr. unfold CollectedAttestations_aggregate.
  assert (∀ required' c acc, unverified_wf c → folded_ok c →
    (∃ done', required = done' ++ required') →
    Forall (λ e, ∃ s f, (s, f) ∈ required ∧ good_result s f e) acc →
    aggregate_loop set_iter c required' acc = (c', o) →
    compacted_unverified_attestations c' = compacted_unverified_attestations c ∧ folded_ok c' ∧
    (∀ result, o = Ok result →
       Forall (λ e, ∃ s f, (s, f) ∈ required ∧ good_result s f e) result)) as Hgen.
  { clear c Hu Hf. intros required'. induction required' as [|[s f] required' IH];
      intros c acc Hu Hf [d Hd] Hacc; simpl.
    { intros [= <- <-]. split_and!; [done..|]. by intros result [= <-]. }
    assert ((s, f) ∈ required) as Hin by (rewrite Hd; set_solver).
    assert (consistent s) as Hs by (rewrite Forall_forall in Hr; by apply (Hr (s, f))).
    destruct (aggregate_one set_iter c s f) as [c1 o1] eqn:Hone.
    destruct (aggregate_one_sound c s f c1 o1 Hu Hf Hs Hone) as (Hpool & Hf1 & Hgood).
    assert (unverified_wf c1) as Hu1 by (intros key a; unfold pool; rewrite Hpool; apply Hu).
    assert (∃ d', required = d' ++ required') as Hd' by
      (exists (d ++ [(s, f)]); by rewrite <- app_assoc).
    destruct o1 as [[e|]|err|]; [| |by intros [= <- <-]..]; intros Hloop;
      apply IH in Hloop as (? & ? & ?); try done; try (split_and!; [congruence|done..]).
    apply Forall_app. split; [done|]. apply Forall_singleton. exists s, f. eauto. }
  apply (Hgen required c []); [done|done|by exists []|constructor].
Qed.
End aggregate_theorems.

(** ** Evaluation *)
Section collected_witnesses.
#[local] Existing Instance LinearBlst.
#[local] Existing Instance LinearBlst_laws.
#[local] Existing Instance serialize_attestation.

Definition example_block_state : AckiNackiBlockState (H := LinearBlst) unit :=
  with_fact (with_fact (with_fact (with_fact
    (AckiNackiBlockState_new BlockIdentifier_default) block_seq_no 4%Z)
    parent_block_identifier BlockIdentifier_default) bk_set example_keepers) envelope_hash [].

Definition example_pool : CollectedAttestations (H := LinearBlst) :=
  (CollectedAttestations_add_bunch CollectedAttestations_default
    [mkEnvelope 55%Z {[1%Z := 1%Z]} example_attestation;
     mkEnvelope 110%Z {[2%Z := 1%Z]} example_attestation] true).1.

Lemma example_pool_wf : unverified_wf example_pool.
Proof.
  intros key a Ha. pose proof (add_bunch_pool CollectedAttestations_default
    [mkEnvelope (H := LinearBlst) 55%Z {[1%Z := 1%Z]} example_attestation;
     mkEnvelope 110%Z {[2%Z := 1%Z]} example_attestation] true) as Hp.
  unfold example_pool in Ha. destruct (CollectedAttestations_add_bunch _ _ true) as [c' grew].
  destruct Hp as [Hp _]. simpl in Ha. apply Hp in Ha as [Ha|(e & He & _ & _ & Hae)].
  - unfold pool in Ha. simpl in Ha. rewrite lookup_empty in Ha. by apply elem_of_empty in Ha.
  - assert (occurrences_wf (signature_occurrences e)) as Hw; [|by subst e].
    apply elem_of_cons in He as [->|He]; [by apply map_Forall_singleton|].
    apply list_elem_of_singleton in He as ->. by apply map_Forall_singleton.
Qed.

Lemma aggregate_sound_witness :
  ∃ c' e, CollectedAttestations_aggregate elements example_pool
      [(example_block_state, mkAggregateFilter Primary 2)] = (c', Ok [e]) ∧
    folded_ok (λ _, example_keepers) c' ∧ Envelope_signatures_count e = 2.
Proof.
  destruct (CollectedAttestations_aggregate elements example_pool
    [(example_block_state, mkAggregateFilter Primary 2)]) as [c' o] eqn:Hagg.
  assert (snd (CollectedAttestations_aggregate elements example_pool
    [(example_block_state, mkAggregateFilter Primary 2)]) =
    Ok [mkEnvelope 165%Z {[1%Z := 1%Z; 2%Z := 1%Z]} example_attestation]) as Ho
    by (vm_compute; reflexivity).
  rewrite Hagg in Ho. simpl in Ho. subst o. eexists c', _. split; [reflexivity|]. split; [|reflexivity].
  apply (aggregate_sound elements (λ X, Permutation_refl _) (λ _, example_keepers) example_pool
    [(example_block_state, mkAggregateFilter Primary 2)] c' _) in Hagg.
  - exact (proj1 (proj2 Hagg)).
  - exact example_pool_wf.
  - intros key e He. discriminate He.
  - constructor; [|constructor]. intros b Hb. injection Hb as <-. reflexivity.
Defined.
End collected_witnesses.
