(* ===== verification/RoundTime.v ===== *)
(** * Rounds of the authority switch

    Models [protocol/authority_switch/round_time.rs].  A [std::time::Duration] is its number
    of nanoseconds.  [div_with_reminder] divides through [f64]: the model has binary64
    arithmetic on the non-negative values that occur, with the rounding to nearest, ties to
    even, of every operation (no operation here leaves the exponent range of normal
    numbers, so subnormals and infinities only arise from a zero divider). *)
From stdpp Require Import base numbers gmap strings fin_maps sorting list.
From S2P Require Import Prelude.
#[local] Open Scope Z_scope.

(** ** binary64 *)
Record f64 := F64 { f64_m : Z; f64_e : Z }.

(** Nearest integer to [n / d], ties to even. *)
Definition rne_div (n d : Z) : Z :=
  let q := n `div` d in
  let r := n `mod` d in
  if bool_decide (2 * r < d) then q
  else if bool_decide (d < 2 * r) then q + 1
  else if Z.even q then q else q + 1.

(** [n / (d * 2 ^ e)] as a fraction. *)
Definition scaled_num (n e : Z) : Z := n * 2 ^ Z.max (- e) 0.
Definition scaled_den (d e : Z) : Z := d * 2 ^ Z.max e 0.

(** The exponent for which the significand of [n / d] has 53 bits. *)
Definition round_exp (n d : Z) : Z :=
  let e := Z.log2 n - Z.log2 d - 52 in
  if bool_decide (scaled_num n e < 2 ^ 52 * scaled_den d e) then e - 1 else e.

(** The binary64 number nearest to the fraction [n / d], for [0 <= n] and [0 < d]. *)
Definition f64_round (n d : Z) : f64 :=
  if bool_decide (n = 0) then F64 0 0
  else let e := round_exp n d in F64 (rne_div (scaled_num n e) (scaled_den d e)) e.

Definition f64_of_Z (z : Z) : f64 := f64_round z 1.
Definition f64_mul (a b : f64) : f64 :=
  let e := f64_e a + f64_e b in
  f64_round (f64_m a * f64_m b * 2 ^ Z.max e 0) (2 ^ Z.max (- e) 0).
Definition f64_add (a b : f64) : f64 :=
  let e := Z.min (f64_e a) (f64_e b) in
  f64_round ((f64_m a * 2 ^ (f64_e a - e) + f64_m b * 2 ^ (f64_e b - e)) * 2 ^ Z.max e 0)
    (2 ^ Z.max (- e) 0).
Definition f64_div (a b : f64) : f64 :=
  let e := f64_e a - f64_e b in
  f64_round (f64_m a * 2 ^ Z.max e 0) (f64_m b * 2 ^ Z.max (- e) 0).
Definition f64_floor (a : f64) : Z := scaled_num (f64_m a) (- f64_e a) `div` scaled_den 1 (- f64_e a).

(** ** Durations *)
Definition NANOS_PER_SEC : Z := 1000000000.
(** [Duration::MAX] is [u64::MAX] seconds and 999999999 nanoseconds. *)
Definition duration_bound : Z := 2 ^ 64 * NANOS_PER_SEC.

Definition duration_checked {E} (d : Z) : outcome E Z :=
  if bool_decide (0 ≤ d < duration_bound) then Ok d else Panic.

(** [Duration::as_secs] and [subsec_nanos] *)
Definition duration_as_f64 (d : Z) : f64 :=
  f64_add (f64_mul (f64_of_Z (d `div` NANOS_PER_SEC)) (f64_of_Z NANOS_PER_SEC))
    (f64_of_Z (d `mod` NANOS_PER_SEC)).

(** [(duration.div_duration_f64(divider)).floor() as u64]: a non-zero duration over zero is
    infinite and saturates, zero over zero is NaN and casts to zero. *)
Definition floor_quotient (duration divider : Z) : Z :=
  if bool_decide (divider = 0)
  then (if bool_decide (duration = 0) then 0 else 2 ^ 64 - 1)
  else Z.min (f64_floor (f64_div (duration_as_f64 duration) (duration_as_f64 divider))) (2 ^ 64 - 1).

Definition div_with_reminder {E} (duration divider : Z) : outcome E (Z * Z) :=
  checked 32 (floor_quotient duration divider) ≫= λ quotient,
  duration_checked (divider * quotient) ≫= λ subtract,
  duration_checked (duration - subtract) ≫= λ reminder,
  Ok (quotient, reminder).

(** ** RoundTime *)
Record RoundBucket := mkRoundBucket {
  round_duration : Z;
  max_number_of_loops : Z;
}.
Record RoundTime := mkRoundTime {
  buckets : list RoundBucket;
  default_bucket : Z;
}.
Record CalculateRoundResult := mkCalculateRoundResult {
  round : Z;
  round_remaining_time : Z;
}.

Definition add_bucket {E} (b : list RoundBucket) (duration loops : Z) :
    outcome E (list RoundBucket) :=
  assert_that (bool_decide (0 < loops)) ≫= λ _, Ok (b ++ [mkRoundBucket duration loops]).

Fixpoint linear_loop {E} (fuel : nat) (max_round_duration step cursor : Z)
    (b : list RoundBucket) : option (outcome E (list RoundBucket)) :=
  if bool_decide (cursor < max_round_duration) then
    match fuel with
    | O => None
    | S fuel =>
        match add_bucket (E := E) b cursor 1, duration_checked (E := E) (cursor + step) with
        | Ok b', Ok cursor' => linear_loop fuel max_round_duration step cursor' b'
        | _, _ => Some Panic
        end
    end
  else Some (Ok b).

Definition RoundTime_linear {E} (min_round_duration step max_round_duration : Z) :
    outcome E RoundTime :=
  assert_that (bool_decide (min_round_duration ≤ max_round_duration)) ≫= λ _,
  assert_that (bool_decide (step ≠ 0)) ≫= λ _,
  default Panic (linear_loop (Z.to_nat (max_round_duration - min_round_duration))
    max_round_duration step min_round_duration []) ≫= λ b,
  Ok (mkRoundTime b max_round_duration).

Fixpoint calculate_round_loop {E} (bs : list RoundBucket) (default_bucket : Z) (bk_set_size : Z)
    (remaining rnd : Z) : outcome E CalculateRoundResult :=
  match bs with
  | [] =>
      div_with_reminder remaining default_bucket ≫= λ '(x, r),
      checked 32 (rnd + x) ≫= λ rnd,
      Ok (mkCalculateRoundResult rnd r)
  | bucket :: bs =>
      duration_checked (round_duration bucket * bk_set_size) ≫= λ bucket_loop_duration,
      duration_checked (bucket_loop_duration * max_number_of_loops bucket) ≫= λ bucket_max_duration,
      if bool_decide (bucket_max_duration ≤ remaining) then
        checked 32 (bk_set_size * max_number_of_loops bucket) ≫= λ rounds,
        checked 32 (rnd + rounds) ≫= λ rnd,
        calculate_round_loop bs default_bucket bk_set_size (remaining - bucket_max_duration) rnd
      else
        div_with_reminder remaining bucket_loop_duration ≫= λ '(loops_count, r),
        checked 32 (loops_count * bk_set_size) ≫= λ rounds,
        checked 32 (rnd + rounds) ≫= λ rnd,
        div_with_reminder r (round_duration bucket) ≫= λ '(x, r),
        checked 32 (rnd + x) ≫= λ rnd,
        Ok (mkCalculateRoundResult rnd r)
  end.

Definition RoundTime_calculate_round {E} (t : RoundTime) (duration_from_parent_block : Z)
    (block_bk_set_size : Z) : outcome E CalculateRoundResult :=
  calculate_round_loop (buckets t) (default_bucket t) block_bk_set_size
    duration_from_parent_block 0.

(** Evaluation: the examples of the source's tests. *)
Example round_default_330 :
  RoundTime_calculate_round (E := Empty_set) (mkRoundTime [] 330000000) 800000000 10 =
    Ok (mkCalculateRoundResult 2 140000000).
Proof. vm_compute. reflexivity. Qed.
Example round_buckets_600 :
  (λ s, RoundTime_calculate_round (E := Empty_set)
     (mkRoundTime [mkRoundBucket NANOS_PER_SEC 60; mkRoundBucket (60 * NANOS_PER_SEC) 1]
        (300 * NANOS_PER_SEC)) (s * NANOS_PER_SEC) 10) <$> [30; 659; 1200; 1799; 2100] =
  [Ok (mkCalculateRoundResult 30 0); Ok (mkCalculateRoundResult 600 (59 * NANOS_PER_SEC));
   Ok (mkCalculateRoundResult 610 0); Ok (mkCalculateRoundResult 611 (299 * NANOS_PER_SEC));
   Ok (mkCalculateRoundResult 613 0)].
Proof. vm_compute. reflexivity. Qed.

(** ** Exactness below 2^53 nanoseconds *)
Section f64_lemmas.
Lemma pow2_pos k : 0 < 2 ^ Z.max k 0.
Proof. apply Z.pow_pos_nonneg; lia. Qed.

Lemma rne_div_bounds n d :
  0 < d → n `div` d ≤ rne_div n d ∧ 2 * (d * rne_div n d) ≤ 2 * n + d.
Proof.
  intros Hd. unfold rne_div. pose proof (Z.div_mod n d ltac:(lia)) as Hdm.
  pose proof (Z.mod_pos_bound n d Hd). repeat case_bool_decide; try nia.
  destruct (Z.even _); nia.
Qed.

Lemma rne_div_exact q d : 0 < d → rne_div (q * d) d = q.
Proof.
  intros Hd. unfold rne_div. rewrite Z.mod_mul, Z.div_mul by lia.
  rewrite bool_decide_eq_true_2; lia.
Qed.

(** The scaled fraction at the chosen exponent has 53 bits before the point. *)
Lemma log2_bounds n : 0 < n → 2 ^ Z.log2 n ≤ n < 2 ^ (Z.log2 n + 1).
Proof. intros Hn. pose proof (Z.log2_spec n Hn). by rewrite Z.add_1_r. Qed.

Lemma scaled_pred n d e :
  scaled_num n (e - 1) * scaled_den d e = 2 * (scaled_num n e * scaled_den d (e - 1)).
Proof.
  unfold scaled_num, scaled_den. destruct (Z_le_gt_dec e 0).
  - replace (Z.max (- (e - 1)) 0) with (Z.max (- e) 0 + 1) by lia.
    replace (Z.max (e - 1) 0) with 0 by lia. replace (Z.max e 0) with 0 by lia.
    rewrite Z.pow_add_r by lia. change (2 ^ 1) with 2. ring.
  - replace (Z.max (- (e - 1)) 0) with 0 by lia. replace (Z.max (- e) 0) with 0 by lia.
    replace (Z.max e 0) with (Z.max (e - 1) 0 + 1) by lia.
    rewrite Z.pow_add_r by lia. change (2 ^ 1) with 2. ring.
Qed.

Lemma round_exp_lower n d :
  0 < n → 0 < d → 2 ^ 52 * scaled_den d (round_exp n d) ≤ scaled_num n (round_exp n d).
Proof.
  intros Hn Hd. unfold round_exp. set (e := Z.log2 n - Z.log2 d - 52).
  case_bool_decide as Hlt; [|lia].
  assert (2 ^ 51 * scaled_den d e ≤ scaled_num n e) as Hlow.
  { destruct (log2_bounds n Hn) as [Hn1 _]. destruct (log2_bounds d Hd) as [_ Hd2].
    unfold scaled_den, scaled_num. pose proof (Z.log2_nonneg n). pose proof (Z.log2_nonneg d).
    pose proof (pow2_pos e). pose proof (pow2_pos (- e)).
    assert (2 ^ 51 * 2 ^ (Z.log2 d + 1) * 2 ^ Z.max e 0 = 2 ^ Z.log2 n * 2 ^ Z.max (- e) 0) as Hpow.
    { rewrite <- !Z.pow_add_r by lia. f_equal. lia. }
    nia. }
  pose proof (scaled_pred n d e) as Hpred.
  assert (0 < scaled_den d e) by (unfold scaled_den; pose proof (pow2_pos e); nia).
  assert (0 < scaled_den d (e - 1)) by (unfold scaled_den; pose proof (pow2_pos (e - 1)); nia).
  nia.
Qed.

(** [a] denotes the integer [z] exactly. *)
Definition f64_exact (a : f64) (z : Z) : Prop :=
  f64_e a ≤ 0 ∧ f64_m a = z * 2 ^ (- f64_e a).

Lemma pow2_monotone i j : i ≤ j → 2 ^ Z.max i 0 ≤ 2 ^ Z.max j 0.
Proof. intros. apply Z.pow_le_mono_r; lia. Qed.

(** The lower bound on the significand, carried over to another fraction of the same value. *)
Lemma round_exp_lower_of n d a b :
  0 < a → 0 < b → 0 < d → n * b = a * d →
  2 ^ 52 * scaled_den b (round_exp n d) ≤ scaled_num a (round_exp n d).
Proof.
  intros Ha Hb Hd Heq. assert (0 < n) as Hn by nia.
  pose proof (round_exp_lower n d Hn Hd) as Hlow. revert Hlow. unfold scaled_den, scaled_num.
  set (p := 2 ^ Z.max (round_exp n d) 0). set (q := 2 ^ Z.max (- round_exp n d) 0). intros Hlow.
  apply (Z.mul_le_mono_pos_r _ _ d); [done|].
  replace (a * q * d) with (n * b * q) by (rewrite Heq; ring). nia.
Qed.

Lemma round_exp_nonpos n d a b :
  0 < a < 2 ^ 53 → 0 < b → 0 < d → n * b = a * d → round_exp n d < 0 ∨ (round_exp n d = 0 ∧ b = 1).
Proof.
  intros Ha Hb Hd Heq. pose proof (round_exp_lower_of n d a b ltac:(lia) Hb Hd Heq) as Hlow.
  revert Hlow. unfold scaled_den, scaled_num. intros Hlow.
  destruct (Z_lt_ge_dec (round_exp n d) 0) as [|Hge]; [by left|right].
  replace (Z.max (- round_exp n d) 0) with 0 in Hlow by lia.
  destruct (Z.eq_dec (round_exp n d) 0) as [He|]; [rewrite He in Hlow; simpl in Hlow; lia|].
  pose proof (pow2_monotone 1 (round_exp n d) ltac:(lia)) as H2.
  change (2 ^ Z.max 1 0) with 2 in H2. exfalso.
  set (p := 2 ^ Z.max (round_exp n d) 0) in *. rewrite Z.pow_0_r, Z.mul_1_r in Hlow.
  assert (2 ≤ b * p) by nia. lia.
Qed.

Lemma f64_round_exact z d : 0 ≤ z < 2 ^ 53 → 0 < d → f64_exact (f64_round (z * d) d) z.
Proof.
  intros Hz Hd. unfold f64_round. case_bool_decide as H0.
  { assert (z = 0) as -> by nia. by split. }
  destruct (round_exp_nonpos (z * d) d z 1) as [He|[He _]]; try nia;
    (split; [simpl; lia|]); cbn [f64_m f64_e]; unfold scaled_num, scaled_den.
  - replace (Z.max (round_exp (z * d) d) 0) with 0 by lia.
    replace (Z.max (- round_exp (z * d) d) 0) with (- round_exp (z * d) d) by lia.
    rewrite Z.pow_0_r, Z.mul_1_r, <- Z.mul_assoc, (Z.mul_comm d), Z.mul_assoc.
    by rewrite rne_div_exact.
  - rewrite He. simpl. rewrite !Z.mul_1_r. by apply rne_div_exact.
Qed.

Lemma f64_of_Z_exact z : 0 ≤ z < 2 ^ 53 → f64_exact (f64_of_Z z) z.
Proof. intros. unfold f64_of_Z. rewrite <- (Z.mul_1_r z) at 1. by apply f64_round_exact. Qed.

Lemma f64_mul_exact a b x y :
  f64_exact a x → f64_exact b y → 0 ≤ x * y < 2 ^ 53 → f64_exact (f64_mul a b) (x * y).
Proof.
  intros [Ha Hma] [Hb Hmb] Hxy. unfold f64_mul. rewrite Hma, Hmb. replace (Z.max (f64_e a + f64_e b) 0) with 0 by lia.
  replace (Z.max (- (f64_e a + f64_e b)) 0) with (- f64_e a + - f64_e b) by lia.
  rewrite Z.pow_add_r, Z.pow_0_r by lia.
  replace (_ * _ * 1) with (x * y * (2 ^ (- f64_e a) * 2 ^ (- f64_e b))) by ring.
  apply f64_round_exact; [done|]. apply Z.mul_pos_pos; apply Z.pow_pos_nonneg; lia.
Qed.

Lemma f64_add_exact a b x y :
  f64_exact a x → f64_exact b y → 0 ≤ x + y < 2 ^ 53 → f64_exact (f64_add a b) (x + y).
Proof.
  intros [Ha Hma] [Hb Hmb] Hxy. unfold f64_add. rewrite Hma, Hmb. set (e := Z.min (f64_e a) (f64_e b)).
  replace (Z.max e 0) with 0 by lia. replace (Z.max (- e) 0) with (- e) by lia.
  rewrite <- !Z.mul_assoc, <- !Z.pow_add_r, Z.pow_0_r by lia.
  replace (- f64_e a + (f64_e a - e)) with (- e) by lia.
  replace (- f64_e b + (f64_e b - e)) with (- e) by lia.
  replace ((_ + _) * 1) with ((x + y) * 2 ^ (- e)) by ring.
  apply f64_round_exact; [done|]. apply Z.pow_pos_nonneg; lia.
Qed.

(** Rounding the quotient of two integers below 2^53 never carries it over an integer. *)
Lemma f64_floor_round n d a b :
  0 ≤ a < 2 ^ 53 → 0 < b → 0 < d → n * b = a * d → f64_floor (f64_round n d) = a `div` b.
Proof.
  intros Ha Hb Hd Heq. unfold f64_round. case_bool_decide as H0.
  { assert (a = 0) as -> by nia. by rewrite Z.div_0_l by lia. }
  assert (0 < a) by nia.
  pose proof (round_exp_lower_of n d a b ltac:(lia) Hb Hd Heq) as Hlow.
  destruct (round_exp_nonpos n d a b) as [He|[He ->]]; try lia.
  2:{ rewrite He. unfold scaled_num, scaled_den, f64_floor. simpl. rewrite Z.mul_1_r in Heq. subst n.
      rewrite !Z.mul_1_r, rne_div_exact by done. unfold scaled_num, scaled_den. simpl.
      by rewrite Z.mul_1_r. }
  revert Hlow. unfold f64_floor. cbn [f64_m f64_e]. unfold scaled_num, scaled_den.
  rewrite Z.opp_involutive. replace (Z.max (round_exp n d) 0) with 0 by lia.
  replace (Z.max (- round_exp n d) 0) with (- round_exp n d) by lia.
  set (K := 2 ^ (- round_exp n d)). assert (0 < K) as HK by (apply Z.pow_pos_nonneg; lia).
  rewrite !Z.pow_0_r, !Z.mul_1_r, Z.mul_1_l. intros Hlow.
  destruct (rne_div_bounds (n * K) d Hd) as [Hfl Hup]. set (m := rne_div (n * K) d) in *.
  pose proof (Z.div_mod a b ltac:(lia)). pose proof (Z.mod_pos_bound a b Hb).
  set (q := a `div` b) in *. symmetry. apply (Z.div_unique_pos _ _ _ (m - K * q)); [|ring].
  split.
  - assert (q * K ≤ (n * K) `div` d); [|lia]. apply Z.div_le_lower_bound; [done|].
    apply (Z.mul_le_mono_pos_r _ _ b); [done|].
    replace (n * K * b) with (a * d * K) by (rewrite <- Heq; ring).
    replace (d * (q * K) * b) with (b * q * d * K) by ring. nia.
  - destruct (Z_lt_ge_dec (m - K * q) K) as [|Hge]; [done|exfalso].
    assert (2 * (K * (q + 1) * d) ≤ 2 * (n * K) + d) as Hc by nia.
    assert (2 * (K * (q + 1) * d) * b ≤ (2 * (a * K) + b) * d) as Hcb.
    { replace ((2 * (a * K) + b) * d) with ((2 * (n * K) + d) * b)
        by (replace (2 * (a * K) * d) with (2 * K * (n * b)) by (rewrite Heq; ring); nia).
      nia. }
    assert (2 * (K * (q + 1)) * b ≤ 2 * (a * K) + b) by nia.
    assert (2 * K ≤ b) by nia. nia.
Qed.
End f64_lemmas.

Lemma duration_as_f64_exact d : 0 ≤ d < 2 ^ 53 → f64_exact (duration_as_f64 d) d.
Proof.
  intros Hd. pose proof (Z.div_mod d NANOS_PER_SEC ltac:(done)) as Hdm.
  pose proof (Z.mod_pos_bound d NANOS_PER_SEC ltac:(done)).
  assert (0 ≤ d `div` NANOS_PER_SEC) by (apply Z.div_pos; done || lia).
  unfold duration_as_f64. rewrite Hdm at 3. rewrite (Z.mul_comm NANOS_PER_SEC).
  assert (0 < NANOS_PER_SEC < 2 ^ 53) by done.
  apply f64_add_exact; [apply f64_mul_exact|..]; try apply f64_of_Z_exact; try lia; nia.
Qed.

Lemma floor_quotient_exact d k :
  0 ≤ d < 2 ^ 53 → 0 < k < 2 ^ 53 → floor_quotient d k = d `div` k.
Proof.
  intros Hd Hk. unfold floor_quotient. rewrite bool_decide_eq_false_2 by lia.
  assert (d `div` k ≤ d) by (apply Z.div_le_upper_bound; nia).
  enough (f64_floor (f64_div (duration_as_f64 d) (duration_as_f64 k)) = d `div` k) as -> by lia.
  destruct (duration_as_f64_exact d Hd) as [Hed Hmd].
  destruct (duration_as_f64_exact k ltac:(lia)) as [Hek Hmk].
  unfold f64_div. rewrite Hmd, Hmk. set (a := f64_e _) in *. set (b := f64_e (duration_as_f64 k)) in *.
  rewrite <- !Z.mul_assoc, <- !Z.pow_add_r by lia.
  replace (- b + Z.max (- (a - b)) 0) with (- a + Z.max (a - b) 0) by lia.
  assert (0 < 2 ^ (- a + Z.max (a - b) 0)) by (apply Z.pow_pos_nonneg; lia).
  apply f64_floor_round; nia.
Qed.

Lemma duration_checked_Ok {E} d : 0 ≤ d < 2 ^ 90 → duration_checked (E := E) d = Ok d.
Proof.
  intros Hd. unfold duration_checked. rewrite bool_decide_eq_true_2; [done|].
  assert (2 ^ 90 ≤ duration_bound) by (unfold duration_bound, NANOS_PER_SEC; lia). lia.
Qed.

Lemma checked_fits {E} w z : in_width w z → checked (E := E) w z = Ok z.
Proof. intros. unfold checked. by rewrite decide_True. Qed.

(** The division through floating point is exact on durations below 2^53 nanoseconds (about
    104 days). *)
Lemma div_with_reminder_exact {E} d k :
  0 ≤ d < 2 ^ 53 → 0 < k < 2 ^ 53 → d `div` k < 2 ^ 32 →
  div_with_reminder (E := E) d k = Ok (d `div` k, d `mod` k).
Proof.
  intros Hd Hk Hq. unfold div_with_reminder. rewrite floor_quotient_exact by done.
  pose proof (Z.div_pos d k ltac:(lia) ltac:(lia)).
  pose proof (Z.div_mod d k ltac:(lia)). pose proof (Z.mod_pos_bound d k ltac:(lia)).
  rewrite checked_fits by (unfold in_width; lia). cbn.
  rewrite (duration_checked_Ok (k * _)) by lia. cbn.
  rewrite duration_checked_Ok by lia. cbn. do 3 f_equal. lia.
Qed.

(** ** The schedule *)
(** When round [r] starts, [n] being the number of block keepers: every bucket holds
    [n * max_number_of_loops] rounds, the default bucket the others. *)
Fixpoint round_start (bs : list RoundBucket) (default_bucket n r : Z) : Z :=
  match bs with
  | [] => r * default_bucket
  | b :: bs =>
      let rounds := n * max_number_of_loops b in
      if bool_decide (r < rounds) then r * round_duration b
      else rounds * round_duration b + round_start bs default_bucket n (r - rounds)
  end.

Definition bucket_rounds (n : Z) (bs : list RoundBucket) : Z :=
  foldr (λ b s, n * max_number_of_loops b + s) 0 bs.

(** The durations for which the floating point division is exact. *)
Definition bucket_ok (n : Z) (b : RoundBucket) : Prop :=
  0 < round_duration b ∧ round_duration b * n < 2 ^ 53 ∧ 0 < max_number_of_loops b < 2 ^ 16.
Definition schedule_ok (n : Z) (t : RoundTime) : Prop :=
  Forall (bucket_ok n) (buckets t) ∧ 0 < default_bucket t < 2 ^ 53.

Lemma round_start_0 bs db n : 0 < n → Forall (bucket_ok n) bs → round_start bs db n 0 = 0.
Proof.
  intros Hn. destruct 1 as [|b bs (?&?&?&?) _]; [done|]. cbn [round_start].
  rewrite bool_decide_eq_true_2; nia.
Qed.

Lemma bucket_rounds_nonneg n bs : 0 < n → Forall (bucket_ok n) bs → 0 ≤ bucket_rounds n bs.
Proof. intros Hn. induction 1 as [|b bs (?&?&?&?) ? IH]; cbn; [lia|]. unfold bucket_rounds in IH. nia. Qed.

(** One bucket: the loop count and the position inside the loop add up to the position in the
    bucket. *)
Lemma bucket_position t d n :
  0 < d → 0 < n → 0 ≤ t →
  let r := t `div` (d * n) * n + (t `mod` (d * n)) `div` d in
  r * d + (t `mod` (d * n)) `mod` d = t ∧ t < (r + 1) * d.
Proof.
  intros Hd Hn Ht. cbn zeta.
  pose proof (Z.div_mod t (d * n) ltac:(nia)). pose proof (Z.mod_pos_bound t (d * n) ltac:(nia)).
  set (q := t `div` (d * n)) in *. set (m := t `mod` (d * n)) in *.
  pose proof (Z.div_mod m d ltac:(lia)). pose proof (Z.mod_pos_bound m d Hd). nia.
Qed.

Lemma calculate_round_loop_spec {E} n db bs : ∀ t rnd,
  0 < n < 2 ^ 16 → Forall (bucket_ok n) bs → 0 < db < 2 ^ 53 → 0 ≤ t < 2 ^ 53 → 0 ≤ rnd →
  rnd + bucket_rounds n bs + t `div` db < 2 ^ 32 →
  ∃ r rem, calculate_round_loop (E := E) bs db n t rnd = Ok (mkCalculateRoundResult (rnd + r) rem) ∧
    0 ≤ r ∧ 0 ≤ rem ∧ round_start bs db n r + rem = t ∧ t < round_start bs db n (r + 1).
Proof.
  induction bs as [|b bs IH]; intros t rnd Hn Hbs Hdb Ht Hrnd Hlim.
  - cbn [calculate_round_loop round_start]. cbn in Hlim.
    pose proof (Z.div_pos t db ltac:(lia) ltac:(lia)).
    pose proof (Z.div_mod t db ltac:(lia)). pose proof (Z.mod_pos_bound t db ltac:(lia)).
    rewrite div_with_reminder_exact by lia. cbn. rewrite checked_fits by (unfold in_width; lia).
    cbn. eexists _, _. split; [done|]. nia.
  - apply Forall_cons in Hbs as [(Hd&Hdn&Hl) Hbs].
    pose proof (bucket_rounds_nonneg n bs ltac:(lia) Hbs) as Hnn.
    cbn [bucket_rounds foldr] in Hlim. fold (bucket_rounds n bs) in Hlim.
    cbn [calculate_round_loop round_start].
    set (d := round_duration b) in *. set (l := max_number_of_loops b) in *.
    assert (d * n * l < 2 ^ 69) by nia.
    assert (0 < n * l < 2 ^ 32) by nia.
    rewrite duration_checked_Ok by nia. cbn. rewrite duration_checked_Ok by nia. cbn.
    pose proof (Z.div_pos t db ltac:(lia) ltac:(lia)).
    case_bool_decide as Hfull.
    + rewrite checked_fits by (unfold in_width; nia). cbn. rewrite checked_fits by (unfold in_width; nia). cbn.
      assert ((t - d * n * l) `div` db ≤ t `div` db) by (apply Z.div_le_mono; nia).
      destruct (IH (t - d * n * l) (rnd + n * l)) as (r&rem&->&Hr&Hrem&Hs&Hs'); [done..|nia|nia|lia|].
      exists (n * l + r), rem. split; [by rewrite Z.add_assoc|].
      rewrite !bool_decide_eq_false_2 by lia.
      replace (n * l + r - n * l) with r by lia.
      replace (n * l + r + 1 - n * l) with (r + 1) by lia. nia.
    + assert (t `div` (d * n) < l) by (apply Z.div_lt_upper_bound; nia).
      pose proof (Z.div_pos t (d * n) ltac:(lia) ltac:(nia)).
      pose proof (Z.mod_pos_bound t (d * n) ltac:(nia)).
      pose proof (Z.mod_le t (d * n) ltac:(lia) ltac:(nia)).
      assert ((t `mod` (d * n)) `div` d < n) by (apply Z.div_lt_upper_bound; nia).
      pose proof (Z.div_pos (t `mod` (d * n)) d ltac:(lia) ltac:(lia)).
      pose proof (Z.mod_pos_bound (t `mod` (d * n)) d ltac:(lia)).
      destruct (bucket_position t d n) as [Hpos Hlt]; [lia..|].
      rewrite div_with_reminder_exact by (nia || (split; nia)). cbn.
      rewrite checked_fits by (unfold in_width; nia). cbn. rewrite checked_fits by (unfold in_width; nia). cbn.
      rewrite div_with_reminder_exact by (nia || (split; nia)). cbn.
      rewrite checked_fits by (unfold in_width; nia). cbn.
      eexists (_ * n + _), _. split; [by rewrite Z.add_assoc|].
      split_and!; [nia|lia|..].
      * rewrite bool_decide_eq_true_2 by nia. lia.
      * case_bool_decide; [lia|]. 
        replace (_ + _ + 1 - _) with 0 by nia. rewrite round_start_0 by (lia || done). nia.
Qed.

(** ** The linear schedule *)
Definition linear_bucket (min_round_duration step i : Z) : RoundBucket :=
  mkRoundBucket (min_round_duration + i * step) 1.
Definition linear_steps (min_round_duration step max_round_duration : Z) : Z :=
  (max_round_duration - min_round_duration + step - 1) `div` step.

Lemma linear_loop_spec {E} lo step hi : ∀ fuel j b,
  0 ≤ lo → 0 < step → 0 ≤ j → hi + step < duration_bound → hi - (lo + j * step) ≤ Z.of_nat fuel →
  j ≤ linear_steps lo step hi →
  linear_loop (E := E) fuel hi step (lo + j * step) b =
    Some (Ok (b ++ (linear_bucket lo step <$> seqZ j (linear_steps lo step hi - j)))).
Proof.
  intros fuel. induction fuel as [|fuel IH]; intros j b Hlo Hst Hj Hb Hf Hle;
    cbn [linear_loop]; unfold linear_steps in *;
    pose proof (Z.div_mod (hi - lo + step - 1) step ltac:(lia)) as Hdm;
    pose proof (Z.mod_pos_bound (hi - lo + step - 1) step Hst);
    set (k := (hi - lo + step - 1) `div` step) in *; case_bool_decide.
  - lia.
  - rewrite seqZ_nil by nia. by rewrite app_nil_r.
  - change (add_bucket (E := E) b (lo + j * step) 1) with
      (Ok (E := E) (b ++ [mkRoundBucket (lo + j * step) 1])).
    unfold duration_checked. rewrite bool_decide_eq_true_2 by nia.
    replace (lo + j * step + step) with (lo + (j + 1) * step) by ring.
    rewrite IH by nia. rewrite (seqZ_cons j), fmap_cons by nia.
    rewrite <- (assoc_L (++)). cbn [app]. unfold linear_bucket at 2.
    replace (Z.succ j) with (j + 1) by lia. by replace (Z.pred (k - j)) with (k - (j + 1)) by lia.
  - rewrite seqZ_nil by nia. by rewrite app_nil_r.
Qed.

(** Termination: [RoundTime::linear] terminates and builds one single-loop bucket for each
    of the durations [min], [min + step], ... below [max], then [max] for ever. *)
Theorem linear_builds_schedule {E} lo step hi :
  0 ≤ lo ≤ hi → 0 < step → hi + step < duration_bound →
  RoundTime_linear (E := E) lo step hi =
    Ok (mkRoundTime (linear_bucket lo step <$> seqZ 0 (linear_steps lo step hi)) hi).
Proof.
  intros Hlo Hst Hb. unfold RoundTime_linear. rewrite bool_decide_eq_true_2 by lia.
  rewrite bool_decide_eq_true_2 by lia. cbn.
  replace lo with (lo + 0 * step) at 2 by lia. rewrite linear_loop_spec; [|lia..|].
  - cbn. by rewrite Z.sub_0_r.
  - apply Z.div_pos; lia.
Qed.

Lemma linear_builds_schedule_witness :
  RoundTime_linear (E := Empty_set) 330 100 600 =
    Ok (mkRoundTime (linear_bucket 330 100 <$> seqZ 0 (linear_steps 330 100 600)) 600) ∧
  linear_bucket 330 100 <$> seqZ 0 (linear_steps 330 100 600) =
    [mkRoundBucket 330 1; mkRoundBucket 430 1; mkRoundBucket 530 1].
Proof.
  split; [|by vm_compute]. apply (linear_builds_schedule 330 100 600); [lia|lia|].
  by vm_compute.
Defined.

(** Functional: [calculate_round] returns the round of the schedule in which the elapsed
    time falls and how far into that round it is, through divisions in floating point.  The
    hypotheses bound durations by 2^53 nanoseconds and the number of rounds by 32 bits. *)
Theorem calculate_round_correct {E} t n elapsed :
  schedule_ok n t → 0 < n < 2 ^ 16 → 0 ≤ elapsed < 2 ^ 53 →
  bucket_rounds n (buckets t) + elapsed `div` default_bucket t < 2 ^ 32 →
  ∃ res, RoundTime_calculate_round (E := E) t elapsed n = Ok res ∧
    0 ≤ round res ∧ 0 ≤ round_remaining_time res ∧
    round_start (buckets t) (default_bucket t) n (round res) + round_remaining_time res = elapsed ∧
    elapsed < round_start (buckets t) (default_bucket t) n (round res + 1).
Proof.
  intros [Hbs Hdb] Hn He Hlim.
  destruct (calculate_round_loop_spec (E := E) n (default_bucket t) (buckets t) elapsed 0)
    as (r&rem&Heq&?&?&?&?); [done..|lia|].
  exists (mkCalculateRoundResult r rem). by rewrite <- (Z.add_0_l r) at 1.
Qed.

Lemma calculate_round_correct_witness :
  let t := mkRoundTime [mkRoundBucket NANOS_PER_SEC 60; mkRoundBucket (60 * NANOS_PER_SEC) 1]
             (300 * NANOS_PER_SEC) in
  ∃ res, RoundTime_calculate_round (E := Empty_set) t (659 * NANOS_PER_SEC) 10 = Ok res ∧
    0 ≤ round res ∧ 0 ≤ round_remaining_time res ∧
    round_start (buckets t) (default_bucket t) 10 (round res) + round_remaining_time res
      = 659 * NANOS_PER_SEC ∧
    659 * NANOS_PER_SEC < round_start (buckets t) (default_bucket t) 10 (round res + 1).
Proof.
  intros t. apply (calculate_round_correct t 10 (659 * NANOS_PER_SEC)); [|done..].
  split; [|done]. repeat constructor; done.
Defined.
