(* ===== verification/ActionLock.v ===== *)
(** * Action locks of the authority switch

    Models [protocol/authority_switch/action_lock.rs] up to the incoming requests
    (which are in NextRound.v) and the messages of [network_message.rs] it builds.

    A node may send an attestation for a block of a height only under an action lock.  The
    locks are kept in memory ([preloaded]) and on disk; an entry [None] says that there is no
    lock on the height.  A reading of the clock is an argument of the operation that takes it,
    in milliseconds since the epoch; [next_deadline] is the time left from the call, in
    nanoseconds.  Failures of the disk (which panic) and tracing are not modelled.  Of a block
    only what its accessors return is modelled. *)
From stdpp Require Import base numbers gmap strings fin_maps sorting list.
From S2P Require Import Prelude Identifiers Bls BlockKeepers Envelope Attestation Checkpoints Statistics BlockState RoundTime.

Notation BlockRound := Z (only parsing).

Record BlockRef := mkBlockRef {
  ref_block_seq_no : BlockSeqNo;
  ref_block_identifier : BlockIdentifier;
}.
#[global] Instance BlockRef_eq_dec : EqDecision BlockRef.
Proof. solve_decision. Defined.

Inductive BlockRefTryFromBlockStateError := MissingSeqNo | MissingRound.

Record SiblingsBlockHeightKey := mkSiblingsKey {
  siblings_parent_block_identifier : BlockIdentifier;
  siblings_height : BlockHeight;
}.
#[global] Instance SiblingsBlockHeightKey_eq_dec : EqDecision SiblingsBlockHeightKey.
Proof. solve_decision. Defined.
#[global] Instance SiblingsBlockHeightKey_countable : Countable SiblingsBlockHeightKey.
Proof.
  refine (inj_countable' (λ k, (siblings_parent_block_identifier k, siblings_height k))
            (λ p, mkSiblingsKey p.1 p.2) _).
  by intros [].
Defined.

Inductive ActionLockResult := OkSendAttestation | Rejected.
#[global] Instance ActionLockResult_eq_dec : EqDecision ActionLockResult.
Proof. solve_decision. Defined.

Notation Nacks := (gmap SiblingsBlockHeightKey (gset BlockIdentifier)) (only parsing).

Section action_lock.
Context `{Blst} {NackData : Type} `{EqDecision NackData}.

(** [BlockRef::try_from(&block_state)] *)
Definition BlockRef_try_from (s : AckiNackiBlockState NackData) :
    outcome BlockRefTryFromBlockStateError BlockRef :=
  match get s block_seq_no with
  | Some seq_no => Ok (mkBlockRef seq_no (block_identifier s))
  | None => Err MissingSeqNo
  end.

Record ActionLock := mkActionLock {
  parent_block_producer_selector_data : ProducerSelector;
  parent_block : BlockRef;
  parent_prefinalization_proof : option (Envelope AttestationData);
  locked_round : BlockRound;
  locked_block : option (BlockRound * BlockRef);
  locked_bad_block_nacks : gset BlockIdentifier;
}.

(** ** The collection of locks *)
Record ActionLockCollection := mkLocks {
  preloaded : gmap BlockHeight (option ActionLock);
  disk : gmap BlockHeight (option ActionLock);
}.

Definition ActionLockCollection_preload (c : ActionLockCollection) (h : BlockHeight) :
    ActionLockCollection :=
  match preloaded c !! h with
  | Some _ => c
  | None =>
      match disk c !! h with
      | None => c
      | Some lock => mkLocks (<[h := lock]> (preloaded c)) (disk c)
      end
  end.

(** A lock on an invalidated block is not active. *)
Definition lock_active (r : Repository NackData) (l : ActionLock) : bool :=
  match locked_block l with
  | Some (_, ref) => negb (is_invalidated (repo_get r (ref_block_identifier ref)))
  | None => true
  end.

Definition ActionLockCollection_is_active (c : ActionLockCollection) (h : BlockHeight)
    (r : Repository NackData) : bool :=
  match preloaded c !! h with
  | Some (Some action_lock) => lock_active r action_lock
  | _ => true
  end.

Definition ActionLockCollection_insert (c : ActionLockCollection) (h : BlockHeight)
    (l : ActionLock) : ActionLockCollection :=
  mkLocks (<[h := Some l]> (preloaded c)) (disk c).

Definition ActionLockCollection_remove (c : ActionLockCollection) (h : BlockHeight) :
    ActionLockCollection := mkLocks (<[h := None]> (preloaded c)) (disk c).

Definition ActionLockCollection_get (c : ActionLockCollection) (h : BlockHeight)
    (r : Repository NackData) : ActionLockCollection * option ActionLock :=
  let c := ActionLockCollection_preload c h in
  if negb (ActionLockCollection_is_active c h r) then (c, None)
  else (c, mjoin (preloaded c !! h)).

(** The [&mut ActionLock] that is returned is written back with [ActionLockCollection_insert]. *)
Definition ActionLockCollection_get_mut (c : ActionLockCollection) (h : BlockHeight)
    (r : Repository NackData) : ActionLockCollection * option ActionLock :=
  let c := ActionLockCollection_preload c h in
  let c := if negb (ActionLockCollection_is_active c h r)
           then ActionLockCollection_remove c h else c in
  (c, mjoin (preloaded c !! h)).

Definition ActionLockCollection_drop_old_locks (c : ActionLockCollection) (h : BlockHeight) :
    ActionLockCollection :=
  mkLocks (filter (λ kl, Identifiers.thread_identifier kl.1 ≠ Identifiers.thread_identifier h ∨
                         (height h ≤ height kl.1)%Z) (preloaded c)) (disk c).

Definition ActionLockCollection_save (c : ActionLockCollection) (h : BlockHeight) :
    ActionLockCollection :=
  match preloaded c !! h with
  | None => c
  | Some data => mkLocks (preloaded c) (<[h := data]> (disk c))
  end.

(** ** [try_lock_send_attestation_action] *)
Variable round_buckets : RoundTime.

(** [calculate_round(Duration::from_millis(now - parent_block_time), bk_set.len())] *)
Definition local_round_at (bk_set : BlockKeeperSet) (parent_block_time now : Z) :
    outcome Empty_set CalculateRoundResult :=
  checked 16 (Z.of_nat (BlockKeeperSet_len bk_set)) ≫= λ n,
  RoundTime_calculate_round round_buckets ((now - parent_block_time) * 1000000) n.

(** The closure of [try_lock_send_attestation_action] on an existing lock: the new lock when
    it was updated, and the answer. *)
Definition attest_with_lock (lock : ActionLock) (block_round local_round : BlockRound)
    (block_ref : BlockRef) : option ActionLock * ActionLockResult :=
  let with_lock rnd :=
    mkActionLock (parent_block_producer_selector_data lock) (parent_block lock)
      (parent_prefinalization_proof lock) rnd (Some (block_round, block_ref))
      (locked_bad_block_nacks lock) in
  if bool_decide (locked_round lock < block_round)%Z
  then (Some (with_lock block_round), OkSendAttestation)
  else if bool_decide (block_round = locked_round lock) && bool_decide (locked_block lock = None)
  then (Some (with_lock (local_round + 1)%Z), OkSendAttestation)
  else
    match locked_block lock with
    | None => (None, Rejected)
    | Some locked =>
        if bool_decide (ref_block_identifier locked.2 = ref_block_identifier block_ref)
        then (None, OkSendAttestation) else (None, Rejected)
    end.

(** The closure, with the lock looked up, and [save] when the lock was updated. *)
Definition lock_and_save (confirmed_bad_block_nacks : Nacks) (c : ActionLockCollection)
    (r : Repository NackData) (h : BlockHeight) (parent_block_id : BlockIdentifier)
    (block_round local_round : BlockRound) (block_ref : BlockRef) :
    outcome Empty_set (ActionLockCollection * ActionLockResult) :=
  let '(c, existing) := ActionLockCollection_get_mut c h r in
  match existing with
  | Some lock =>
      match attest_with_lock lock block_round local_round block_ref with
      | (Some lock', result) =>
          Ok (ActionLockCollection_save (ActionLockCollection_insert c h lock') h, result)
      | (None, result) => Ok (c, result)
      end
  | None =>
      let parent := repo_get r parent_block_id in
      match get parent producer_selector_data with
      | None => Ok (c, Rejected)
      | Some selector =>
          unwrap_ok (BlockRef_try_from parent) ≫= λ parent_ref,
          let lock := mkActionLock selector parent_ref None local_round
            (Some (block_round, block_ref))
            (default ∅ (confirmed_bad_block_nacks !! mkSiblingsKey parent_block_id h)) in
          Ok (ActionLockCollection_save (ActionLockCollection_insert c h lock) h,
              OkSendAttestation)
      end
  end.

Definition try_lock_send_attestation_action (confirmed_bad_block_nacks : Nacks)
    (c : ActionLockCollection) (r : Repository NackData) (now : Z) (id : BlockIdentifier) :
    outcome Empty_set (ActionLockCollection * ActionLockResult) :=
  let s := repo_get r id in
  if is_finalized s || is_prefinalized s then Ok (c, OkSendAttestation)
  else if is_invalidated s then Ok (c, Rejected)
  else if negb (has_all_nacks_resolved s) then Ok (c, Rejected)
  else
    match get s block_height with
    | None => Ok (c, Rejected)
    | Some h =>
    match get s block_round with
    | None => Ok (c, Rejected)
    | Some rnd =>
    match get s parent_block_identifier with
    | None => Ok (c, Rejected)
    | Some parent_block_id =>
    let parent := repo_get r parent_block_id in
    match get parent descendant_bk_set with
    | None => Ok (c, Rejected)
    | Some keepers =>
    match get parent block_time_ms with
    | None => Ok (c, Rejected)
    | Some parent_block_time =>
        if bool_decide (now < parent_block_time)%Z then Ok (c, Rejected)
        else
          local_round_at keepers parent_block_time now ≫= λ local,
          unwrap_ok (BlockRef_try_from s) ≫= λ block_ref,
          lock_and_save confirmed_bad_block_nacks c r h parent_block_id rnd (round local) block_ref
    end end end end end.
End action_lock.
Arguments ActionLock {_}.
Arguments ActionLockCollection {_}.

(** ** Messages *)
(** [bincode::deserialize] *)
Class Deserialize (A : Type) := bincode_deserialize : list Z → option A.

(** What the accessors of [AckiNackiBlock] and of its common section return. *)
Record AckiNackiBlock := mkBlock {
  blk_identifier : BlockIdentifier;
  blk_parent : BlockIdentifier;
  blk_seq_no : BlockSeqNo;
  blk_thread_id : ThreadIdentifier;
  blk_round : BlockRound;
  blk_producer_id : NodeIdentifier;
  blk_producer_selector : option ProducerSelector;
  blk_height : BlockHeight;
  (** the blocks the included nacks are about *)
  blk_nacks : list BlockIdentifier;
}.

Record NetBlock := mkNetBlock {
  net_producer_id : NodeIdentifier;
  net_producer_selector : option ProducerSelector;
  net_thread_id : ThreadIdentifier;
  net_identifier : BlockIdentifier;
  net_seq_no : BlockSeqNo;
  net_envelope_data : list Z;
}.

Record Lock := mkLock {
  lock_parent_block : BlockIdentifier;
  lock_height : BlockHeight;
  lock_next_auth_node_id : NodeIdentifier;
  lock_locked_round : BlockRound;
  lock_locked_block : option BlockIdentifier;
  lock_nack_bad_block : gset BlockIdentifier;
}.

Section messages.
Context `{Blst}.

Record NextRound := mkNextRound {
  lock : Envelope Lock;
  locked_block_attestation : option (Envelope AttestationData);
  attestations_for_ancestors : list (Envelope AttestationData);
}.

Record NextRoundSuccess := mkNextRoundSuccess {
  success_node_identifier : NodeIdentifier;
  success_round : BlockRound;
  success_block_height : BlockHeight;
  success_proposed_block : NetBlock;
  success_attestations_aggregated : option (Envelope AttestationData);
  success_requests_aggregated : list (Envelope Lock);
}.

Record NextRoundReject := mkNextRoundReject {
  reject_thread_identifier : ThreadIdentifier;
  reject_prefinalized_block : NetBlock;
  reject_proof_of_prefinalization : Envelope AttestationData;
}.

Context `{Serialize (Envelope AckiNackiBlock)} `{Deserialize (Envelope AckiNackiBlock)}.

Definition NetBlock_with_envelope (e : Envelope AckiNackiBlock) : option NetBlock :=
  envelope_data ← bincode_serialize e;
  let block := data e in
  Some (mkNetBlock (blk_producer_id block) (blk_producer_selector block) (blk_thread_id block)
          (blk_identifier block) (blk_seq_no block) envelope_data).

Definition NetBlock_get_envelope (b : NetBlock) : option (Envelope AckiNackiBlock) :=
  bincode_deserialize (net_envelope_data b).

Record OnBlockProducerStalledResult := mkStalled {
  next_deadline : Z;
  next_round : option NextRound;
  stalled_block_height : option BlockHeight;
}.

Definition OnBlockProducerStalledResult_retry_later (h : option BlockHeight) :
    OnBlockProducerStalledResult := mkStalled 30000000 None h.

(** What a node sends: [network_direct_tx.send] and [network_broadcast_tx.send]. *)
Inductive Sent :=
  | SentRequest (to : NodeIdentifier) (request : NextRound)
  | SentNodeJoining (node : NodeIdentifier) (thread : ThreadIdentifier).
End messages.
Arguments NextRound {_}.
Arguments NextRoundSuccess {_}.
Arguments NextRoundReject {_}.
Arguments OnBlockProducerStalledResult {_}.
Arguments Sent {_}.

(** ** The thread authority *)
Section authority_state.
Context `{Blst}.

(** The fields of [ThreadAuthority] that do not change, and what it reads of the node. *)
Record AuthorityConfig := mkConfig {
  thread_id : ThreadIdentifier;
  config_round_buckets : RoundTime;
  node_identifier : NodeIdentifier;
  bls_keys_map : gmap PubKey Secret;
  node_joining_timeout : Z;
  bp_production_count : Z;
  shutdown_flag : bool;
}.

Record ThreadAuthority := mkAuthority {
  action_lock : ActionLockCollection;
  confirmed_bad_block_nacks : Nacks;
  collecting_next_round : gmap (SiblingsBlockHeightKey * BlockRound) (list NextRound);
  closed_round : gmap SiblingsBlockHeightKey BlockRound;
  block_producers : bool;
  last_node_joining_sent : Z;
}.
End authority_state.
Arguments AuthorityConfig {_}.
Arguments ThreadAuthority {_}.

Section authority.
Context `{Blst} {NackData : Type} `{EqDecision NackData} `{Serialize Lock}.
Variable iter_order : gset NodeIdentifier → list NodeIdentifier.
Variable shuffle : list Z → list NodeIdentifier → list NodeIdentifier.
Variable set_iter : gset BlockIdentifier → list BlockIdentifier.
Variable cfg : AuthorityConfig.

Definition with_action_lock (a : ThreadAuthority) (c : ActionLockCollection) : ThreadAuthority :=
  mkAuthority c (confirmed_bad_block_nacks a) (collecting_next_round a) (closed_round a)
    (block_producers a) (last_node_joining_sent a).

Definition on_block_finalized (a : ThreadAuthority) (h : BlockHeight) : ThreadAuthority :=
  with_action_lock a (ActionLockCollection_drop_old_locks (action_lock a) h).

Definition register_block_producer (a : ThreadAuthority) : ThreadAuthority :=
  mkAuthority (action_lock a) (confirmed_bad_block_nacks a) (collecting_next_round a)
    (closed_round a) true (last_node_joining_sent a).

(** The first step of [start_next_round]: a lock with another parent is dropped. *)
Definition drop_lock_of_other_parent (c : ActionLockCollection) (r : Repository NackData)
    (h : BlockHeight) (parent : BlockIdentifier) : ActionLockCollection :=
  let '(c, active_lock) := ActionLockCollection_get c h r in
  let is_active_lock_valid :=
    match active_lock with
    | Some l => bool_decide (ref_block_identifier (parent_block l) = parent)
    | None => false
    end in
  if is_active_lock_valid then c else ActionLockCollection_remove c h.

(** [current_lock_snapshot] and [was_lock_updated] *)
Definition next_round_lock (nacks : Nacks) (c : ActionLockCollection) (r : Repository NackData)
    (h : BlockHeight) (parent : BlockIdentifier) (proof : option (Envelope AttestationData))
    (local_round : BlockRound) : outcome Empty_set (ActionLockCollection * ActionLock * bool) :=
  let '(c, existing) := ActionLockCollection_get_mut c h r in
  match existing with
  | Some l =>
      if bool_decide (locked_round l ≤ local_round)%Z then
        let l' := mkActionLock (parent_block_producer_selector_data l) (parent_block l)
          (parent_prefinalization_proof l) local_round (locked_block l)
          (locked_bad_block_nacks l) in
        Ok (ActionLockCollection_insert c h l', l', true)
      else Ok (c, l, false)
  | None =>
      unwrap (get (repo_get r parent) producer_selector_data) ≫= λ selector,
      unwrap_ok (BlockRef_try_from (repo_get r parent)) ≫= λ parent_ref,
      let l' := mkActionLock selector parent_ref proof local_round None
        (default ∅ (nacks !! mkSiblingsKey parent h)) in
      Ok (ActionLockCollection_insert c h l', l', true)
  end.

(** The producers of the current and of the next round. *)
Definition round_producers (l : ActionLock) (local_round : BlockRound) (keepers : BlockKeeperSet) :
    outcome Empty_set (NodeIdentifier * NodeIdentifier) :=
  let n := BlockKeeperSet_len keepers in
  assert_that (bool_decide (1 ≤ local_round)%Z) ≫= λ _,
  move_index (parent_block_producer_selector_data l) (Z.to_nat (local_round - 1)) n ≫= λ cur,
  unwrap_ok (get_producer_node_id iter_order shuffle cur keepers) ≫= λ cur_producer,
  move_index (parent_block_producer_selector_data l) (Z.to_nat local_round) n ≫= λ next,
  unwrap_ok (get_producer_node_id iter_order shuffle next keepers) ≫= λ next_producer,
  Ok (cur_producer, next_producer).

(** The locked block of the snapshot with its prefinalization proof or the node's own
    attestation, and whether the attestation could be locked.  [now_of id] is the clock when
    block [id] is tried. *)
Definition candidate_attestation (nacks : Nacks) (c : ActionLockCollection)
    (r : Repository NackData) (now_of : BlockIdentifier → Z) (snapshot : ActionLock) :
    outcome Empty_set
      (ActionLockCollection * option BlockIdentifier * option (Envelope AttestationData) * bool) :=
  match locked_block snapshot with
  | None => Ok (c, None, None, true)
  | Some (_, candidate_ref) =>
      let id := ref_block_identifier candidate_ref in
      let candidate := repo_get r id in
      match get candidate prefinalization_proof with
      | Some proof => Ok (c, Some (block_identifier candidate), Some proof, true)
      | None =>
          try_lock_send_attestation_action (config_round_buckets cfg) nacks c r (now_of id) id
          ≫= λ '(c, result),
          if bool_decide (result = OkSendAttestation)
          then Ok (c, Some (block_identifier candidate), get candidate own_attestation, true)
          else Ok (c, Some (block_identifier candidate), None, false)
      end
  end.

(** A loop over required ancestors; [None] is the early return. *)
Fixpoint ancestor_attestations
    (own : AckiNackiBlockState NackData → option (Envelope AttestationData))
    (nacks : Nacks) (c : ActionLockCollection) (r : Repository NackData)
    (now_of : BlockIdentifier → Z) (ids : list BlockIdentifier)
    (attestations : list (Envelope AttestationData)) (all_locked : bool) :
    outcome Empty_set (ActionLockCollection * bool * option (list (Envelope AttestationData))) :=
  match ids with
  | [] => Ok (c, all_locked, Some attestations)
  | id :: ids =>
      try_lock_send_attestation_action (config_round_buckets cfg) nacks c r (now_of id) id
      ≫= λ '(c, result),
      let all_locked := all_locked && bool_decide (result = OkSendAttestation) in
      match own (repo_get r id) with
      | None => Ok (c, all_locked, None)
      | Some attestation =>
          ancestor_attestations own nacks c r now_of ids (attestations ++ [attestation]) all_locked
      end
  end.

Definition required_fallback_attestations (cp : AncestorBlocksFinalizationCheckpoints) :
    list BlockIdentifier := filter (λ id, id ∉ dom (primary cp)) (set_iter (dom (fallback cp))).
Definition required_primary_attestations (cp : AncestorBlocksFinalizationCheckpoints) :
    list BlockIdentifier :=
  filter (λ id, id ∉ required_fallback_attestations cp) (set_iter (dom (primary cp))).

(** [attestations_for_ancestors] *)
Definition attestations_without_candidate (nacks : Nacks) (c : ActionLockCollection)
    (r : Repository NackData) (now_of : BlockIdentifier → Z) (parent : BlockIdentifier) :
    outcome Empty_set (ActionLockCollection * bool * option (list (Envelope AttestationData))) :=
  match get (repo_get r parent) ancestor_blocks_finalization_checkpoints with
  | None => Ok (c, true, None)
  | Some cp =>
      ancestor_attestations (λ s, get s own_fallback_attestation) nacks c r now_of
        (required_fallback_attestations cp) [] true ≫= λ '(c, all_locked, attestations),
      match attestations with
      | None => Ok (c, all_locked, None)
      | Some attestations =>
          ancestor_attestations (λ s, get s own_attestation) nacks c r now_of
            (required_primary_attestations cp) attestations all_locked
      end
  end.

(** The end of [start_next_round]: the lock is signed and sent; a node that cannot sign asks
    to join from time to time. *)
Definition send_next_round (a : ThreadAuthority) (r : Repository NackData) (instant : Z)
    (parent : BlockIdentifier) (h : BlockHeight) (keepers : BlockKeeperSet)
    (cur_producer next_producer : NodeIdentifier) (snapshot : ActionLock)
    (block : option BlockIdentifier) (attestation : option (Envelope AttestationData))
    (ancestors_attestations : list (Envelope AttestationData)) (round_remaining : Z) :
    outcome Empty_set (ThreadAuthority * OnBlockProducerStalledResult * list Sent) :=
  let l := mkLock (block_identifier (repo_get r parent)) h next_producer (locked_round snapshot) block
    (locked_bad_block_nacks snapshot) in
  match Envelope_sealed (shutdown_flag cfg) (node_identifier cfg) keepers (bls_keys_map cfg) l with
  | Panic => Panic
  | Err _ =>
      let retry := OnBlockProducerStalledResult_retry_later (Some h) in
      if bool_decide (node_joining_timeout cfg < instant - last_node_joining_sent a)%Z then
        unwrap (get (repo_get r parent) thread_identifier) ≫= λ t,
        Ok (mkAuthority (action_lock a) (confirmed_bad_block_nacks a) (collecting_next_round a)
              (closed_round a) (block_producers a) instant, retry,
            [SentNodeJoining (node_identifier cfg) t])
      else Ok (a, retry, [])
  | Ok sealed =>
      let request := mkNextRound sealed attestation ancestors_attestations in
      Ok (a, mkStalled round_remaining (Some request) (Some h),
          [SentRequest next_producer request; SentRequest cur_producer request])
  end.

(** [start_next_round] from the point where the lock was updated. *)
Definition request_next_round (a : ThreadAuthority) (r : Repository NackData)
    (now_of : BlockIdentifier → Z) (instant : Z) (parent : BlockIdentifier) (h : BlockHeight)
    (keepers : BlockKeeperSet) (local : CalculateRoundResult) (snapshot : ActionLock) :
    outcome Empty_set (ThreadAuthority * OnBlockProducerStalledResult * list Sent) :=
  let nacks := confirmed_bad_block_nacks a in
  let c := ActionLockCollection_save (action_lock a) h in
  let retry := OnBlockProducerStalledResult_retry_later (Some h) in
  round_producers snapshot (round local) keepers ≫= λ '(cur_producer, next_producer),
  candidate_attestation nacks c r now_of snapshot ≫= λ '(c, block, attestation, locked),
  (match block with
   | Some _ => Ok (c, true, Some [])
   | None => attestations_without_candidate nacks c r now_of parent
   end) ≫= λ '(c, all_locked, ancestors_attestations),
  match ancestors_attestations with
  | None => Ok (with_action_lock a c, retry, [])
  | Some ancestors_attestations =>
      if negb (locked && all_locked) then Ok (with_action_lock a c, retry, [])
      else send_next_round (with_action_lock a c) r instant parent h keepers cur_producer
             next_producer snapshot block attestation ancestors_attestations
             (round_remaining_time local)
  end.

Definition start_next_round (a : ThreadAuthority) (r : Repository NackData) (now : Z)
    (now_of : BlockIdentifier → Z) (instant : Z) (parent : BlockIdentifier) (h : BlockHeight) :
    outcome Empty_set (ThreadAuthority * OnBlockProducerStalledResult * list Sent) :=
  let c := drop_lock_of_other_parent (action_lock a) r h (block_identifier (repo_get r parent)) in
  let retry := OnBlockProducerStalledResult_retry_later (Some h) in
  let s := repo_get r parent in
  match get s descendant_bk_set with
  | None => Ok (with_action_lock a c, retry, [])
  | Some keepers =>
      let proof := get s prefinalization_proof in
      if bool_decide (proof = None) && bool_decide (block_identifier s ≠ BlockIdentifier_default)
      then Panic
      else
        match get s block_time_ms with
        | None => Ok (with_action_lock a c, retry, [])
        | Some parent_block_time =>
            if bool_decide (now < parent_block_time)%Z then Ok (with_action_lock a c, retry, [])
            else
              local_round_at (config_round_buckets cfg) keepers parent_block_time now ≫= λ local,
              if bool_decide (round local = 0%Z)
              then Ok (with_action_lock a c,
                       mkStalled (round_remaining_time local) None (Some h), [])
              else
                next_round_lock (confirmed_bad_block_nacks a) c r h parent proof (round local)
                ≫= λ '(c, snapshot, was_lock_updated),
                if negb was_lock_updated
                then Ok (with_action_lock a c,
                         mkStalled (round_remaining_time local) None (Some h), [])
                else request_next_round (with_action_lock a c) r now_of instant parent h keepers
                       local snapshot
        end
  end.

(** [on_block_producer_stalled]; [last_finalized] is the answer of
    [select_thread_last_finalized_block], whose errors end [find_last_prefinalized], and [fuel]
    bounds the descent of the latter. *)
Definition on_block_producer_stalled (fuel : nat) (a : ThreadAuthority) (r : Repository NackData)
    (now : Z) (now_of : BlockIdentifier → Z) (instant : Z)
    (last_finalized : outcome unit (option BlockIdentifier)) :
    option (outcome Empty_set (ThreadAuthority * OnBlockProducerStalledResult * list Sent)) :=
  match last_finalized with
  | Panic => Some Panic
  | Err _ => Some (Ok (a, OnBlockProducerStalledResult_retry_later None, []))
  | Ok last_finalized =>
      (λ last_prefinalized,
        last_prefinalized ≫= λ parent,
        unwrap (get (repo_get r parent) block_height) ≫= λ parent_height,
        BlockHeight_next parent_height (thread_id cfg) ≫= λ h,
        start_next_round a r now now_of instant parent h) <$>
      find_last_prefinalized set_iter fuel r (thread_id cfg) last_finalized
  end.

Definition on_bad_block_nack_confirmed (a : ThreadAuthority) (r : Repository NackData) (now : Z)
    (now_of : BlockIdentifier → Z) (instant : Z) (block : BlockIdentifier) :
    outcome Empty_set (ThreadAuthority * list Sent) :=
  match get (repo_get r block) parent_block_identifier, get (repo_get r block) block_height with
  | Some parent, Some h =>
      start_next_round a r now now_of instant parent h ≫= λ '(a, _, sent), Ok (a, sent)
  | _, _ => Panic
  end.

(** ** [on_next_round_success] *)
Definition set_lock (l : ActionLock) (rnd : BlockRound) (locked : option (BlockRound * BlockRef))
    (nacks : gset BlockIdentifier) : ActionLock :=
  mkActionLock (parent_block_producer_selector_data l) (parent_block l)
    (parent_prefinalization_proof l) rnd locked nacks.

(** [e.locked_block().is_none() || block_round > e.locked_block().unwrap().0] *)
Definition outranks (block_round : BlockRound) (l : ActionLock) : bool :=
  match locked_block l with
  | None => true
  | Some (rnd, _) => bool_decide (rnd < block_round)%Z
  end.

(** The first [if] of the update of an existing lock: the lock and [to_invalidate]. *)
Definition success_newer_round (l : ActionLock) (rnd block_round : BlockRound) (leader : BlockRef)
    (nacks : gset BlockIdentifier) : ActionLock * option (BlockRound * BlockRef) :=
  if bool_decide (locked_round l ≤ rnd)%Z then
    let l1 := set_lock l rnd (locked_block l) (locked_bad_block_nacks l) in
    if outranks block_round l1
    then (set_lock l1 rnd (Some (block_round, leader)) nacks, locked_block l1)
    else (set_lock l1 rnd (locked_block l1) nacks, None)
  else (l, None).

(** The second [if]; [round + 1] is on [u64]. *)
Definition success_same_round (lt : ActionLock * option (BlockRound * BlockRef))
    (rnd block_round : BlockRound) (leader : BlockRef) (nacks : gset BlockIdentifier) :
    outcome Empty_set (ActionLock * option (BlockRound * BlockRef)) :=
  let '(l, to_invalidate) := lt in
  if bool_decide (locked_round l = rnd) && outranks block_round l then
    let to_invalidate :=
      match locked_block l with
      | Some prev =>
          if bool_decide (ref_block_identifier prev.2 ≠ ref_block_identifier leader)
          then Some prev else to_invalidate
      | None => to_invalidate
      end in
    checked 64 (rnd + 1) ≫= λ rnd',
    Ok (set_lock l rnd' (Some (block_round, leader)) nacks, to_invalidate)
  else Ok (l, to_invalidate).

Context `{Deserialize (Envelope AckiNackiBlock)}.

Definition on_next_round_success (a : ThreadAuthority) (r : Repository NackData)
    (m : NextRoundSuccess) : outcome Empty_set (ThreadAuthority * Repository NackData) :=
  match NetBlock_get_envelope (success_proposed_block m) with
  | None => Ok (a, r)
  | Some proposed_block =>
      let block := data proposed_block in
      let parent := repo_get r (blk_parent block) in
      let proof := get parent prefinalization_proof in
      if bool_decide (proof = None) && bool_decide (blk_parent block ≠ BlockIdentifier_default)
      then Ok (a, r)
      else
        match get parent producer_selector_data with
        | None => Ok (a, r)
        | Some selector =>
            let h := success_block_height m in
            let rnd := success_round m in
            let leader := mkBlockRef (blk_seq_no block) (blk_identifier block) in
            let nacks := list_to_set (blk_nacks block) in
            let '(c, existing) := ActionLockCollection_get_mut (action_lock a) h r in
            (match existing with
             | Some l =>
                 success_same_round (success_newer_round l rnd (blk_round block) leader nacks)
                   rnd (blk_round block) leader nacks
             | None =>
                 unwrap_ok (BlockRef_try_from parent) ≫= λ parent_ref,
                 Ok (mkActionLock selector parent_ref proof rnd
                       (Some (blk_round block, leader)) nacks, None)
             end) ≫= λ '(l, to_invalidate),
            let a' := with_action_lock a (ActionLockCollection_insert c h l) in
            match to_invalidate with
            | None => Ok (a', r)
            | Some (_, abandoned) =>
                invalidate_branch set_iter r (ref_block_identifier abandoned) ≫= λ r',
                Ok (a', r')
            end
        end
  end.
End authority.

(** ** Attestations are locked *)
Section lock_lemmas.
Context `{Blst} {NackData : Type} `{EqDecision NackData}.
Implicit Types (c : ActionLockCollection) (r : Repository NackData) (h : BlockHeight).

(** The lock on a height: what memory says, else what the disk says. *)
Definition lookup_lock c h : option ActionLock :=
  match preloaded c !! h with Some l => l | None => mjoin (disk c !! h) end.
Definition active_lock c r h : option ActionLock :=
  l ← lookup_lock c h; if lock_active r l then Some l else None.

(** Every lock in memory is on disk. *)
Definition durable c : Prop := ∀ h l, preloaded c !! h = Some (Some l) → disk c !! h = Some (Some l).

Lemma preload_spec c h :
  preloaded (ActionLockCollection_preload c h) !! h =
    match preloaded c !! h with Some l => Some l | None => disk c !! h end ∧
  (∀ h', h' ≠ h → preloaded (ActionLockCollection_preload c h) !! h' = preloaded c !! h') ∧
  disk (ActionLockCollection_preload c h) = disk c.
Proof.
  unfold ActionLockCollection_preload. destruct (preloaded c !! h) eqn:Hp; [done|].
  destruct (disk c !! h) eqn:Hd; [|by rewrite Hp]. simpl. rewrite lookup_insert_eq.
  split_and!; [done| |done]. intros. by rewrite lookup_insert_ne.
Qed.

Lemma get_mut_spec c r h :
  (ActionLockCollection_get_mut c h r).2 = active_lock c r h ∧
  lookup_lock (ActionLockCollection_get_mut c h r).1 h = active_lock c r h ∧
  (∀ h', h' ≠ h → preloaded (ActionLockCollection_get_mut c h r).1 !! h' = preloaded c !! h') ∧
  disk (ActionLockCollection_get_mut c h r).1 = disk c.
Proof.
  destruct (preload_spec c h) as (Hh & Hne & Hd).
  unfold ActionLockCollection_get_mut, ActionLockCollection_is_active, active_lock, lookup_lock.
  rewrite Hh. destruct (preloaded c !! h) as [[l|]|]; simpl.
  - destruct (lock_active r l); simpl; rewrite ?Hh, ?Hd, ?lookup_insert_eq; split_and!; try done.
    intros. rewrite lookup_insert_ne; auto.
  - by rewrite Hh.
  - destruct (disk c !! h) as [[l|]|] eqn:Hdisk; simpl; [|by rewrite Hh, ?Hd, ?Hdisk..].
    destruct (lock_active r l); simpl; rewrite ?Hh, ?Hd, ?lookup_insert_eq; split_and!; try done.
    intros. rewrite lookup_insert_ne; auto.
Qed.

(** A lock returned by [get_mut] is in memory. *)
Lemma get_mut_preloaded c r h l :
  (ActionLockCollection_get_mut c h r).2 = Some l →
  preloaded (ActionLockCollection_get_mut c h r).1 !! h = Some (Some l).
Proof. simpl. destruct (preloaded _ !! h) as [[?|]|]; naive_solver. Qed.

Lemma get_mut_durable c r h : durable c → durable (ActionLockCollection_get_mut c h r).1.
Proof.
  intros Hdur h' l. destruct (get_mut_spec c r h) as (_ & _ & Hne & Hd). rewrite Hd.
  destruct (decide (h' = h)) as [->|]; [|rewrite Hne by done; apply Hdur].
  destruct (preload_spec c h) as (Hh & _ & _).
  unfold ActionLockCollection_get_mut. simpl.
  destruct (negb (ActionLockCollection_is_active _ h r)); simpl; [by rewrite lookup_insert_eq|].
  rewrite Hh. destruct (preloaded c !! h) eqn:Hp; [|done]. intros [= ->]. by apply Hdur.
Qed.

(** Writing a lock and saving it. *)
Lemma save_insert c h l :
  let c' := ActionLockCollection_save (ActionLockCollection_insert c h l) h in
  preloaded c' = <[h := Some l]> (preloaded c) ∧ disk c' = <[h := Some l]> (disk c).
Proof. unfold ActionLockCollection_save. simpl. by rewrite lookup_insert_eq. Qed.

Lemma save_insert_durable c h l :
  durable c → durable (ActionLockCollection_save (ActionLockCollection_insert c h l) h).
Proof.
  intros Hdur h' l'. destruct (save_insert c h l) as [-> ->].
  rewrite !lookup_insert. case_decide; [done|]. apply Hdur.
Qed.

(** The three ways in which the lock of a height lets a block through. *)
Definition admits (l : ActionLock) (rnd : BlockRound) (id : BlockIdentifier) : Prop :=
  (locked_round l < rnd)%Z ∨ (locked_round l = rnd ∧ locked_block l = None) ∨
  ∃ rnd' ref, locked_block l = Some (rnd', ref) ∧ ref_block_identifier ref = id.

Lemma attest_with_lock_spec l rnd local ref lo res :
  attest_with_lock l rnd local ref = (lo, res) →
  (res = OkSendAttestation ↔ admits l rnd (ref_block_identifier ref)) ∧
  match lo with
  | Some l' =>
      res = OkSendAttestation ∧ locked_block l' = Some (rnd, ref) ∧
      ((locked_round l < rnd)%Z ∧ locked_round l' = rnd ∨
       locked_round l = rnd ∧ locked_block l = None ∧ locked_round l' = (local + 1)%Z)
  | None =>
      (rnd ≤ locked_round l)%Z ∧
      (res = OkSendAttestation →
       ∃ rnd' ref', locked_block l = Some (rnd', ref') ∧
                    ref_block_identifier ref' = ref_block_identifier ref)
  end.
Proof.
  unfold attest_with_lock, admits. case_bool_decide as Hlt.
  { intros [= <- <-]. simpl. naive_solver. }
  destruct (bool_decide (rnd = locked_round l) && bool_decide (locked_block l = None)) eqn:Hb.
  { apply andb_true_iff in Hb as [?%bool_decide_eq_true ?%bool_decide_eq_true].
    intros [= <- <-]. simpl. naive_solver. }
  assert (¬ (locked_round l = rnd ∧ locked_block l = None)) as Hn.
  { intros [Heq Hnone]. by rewrite !bool_decide_eq_true_2 in Hb. }
  clear Hb.
  destruct (locked_block l) as [[rnd' ref']|]; simpl.
  - case_bool_decide as Hid; intros [= <- <-]; (split; [|split; [lia|]]).
    + split; [|done]. intros _. right; right. by eexists _, _.
    + intros _. by eexists _, _.
    + split; [done|]. intros [?|[?|(?&?&[= <- <-]&?)]]; done.
    + done.
  - intros [= <- <-]. split; [|split; [lia|done]].
    split; [done|]. intros [?|[?|(?&?&?&?)]]; done.
Qed.

(** [lock_and_save] on an existing lock, and without one. *)
Lemma lock_and_save_spec nacks c r h parent rnd local ref c' res :
  lock_and_save nacks c r h parent rnd local ref = Ok (c', res) →
  (durable c → durable c') ∧
  (∀ h', h' ≠ h → preloaded c' !! h' = preloaded c !! h' ∧ disk c' !! h' = disk c !! h') ∧
  match active_lock c r h with
  | Some l =>
      (res = OkSendAttestation ↔ admits l rnd (ref_block_identifier ref)) ∧
      match (attest_with_lock l rnd local ref).1 with
      | Some l' => preloaded c' !! h = Some (Some l') ∧ disk c' !! h = Some (Some l')
      | None => preloaded c' !! h = Some (Some l) ∧ disk c' = disk c
      end
  | None =>
      (res = OkSendAttestation → ∃ l',
        preloaded c' !! h = Some (Some l') ∧ disk c' !! h = Some (Some l') ∧
        locked_round l' = local ∧ locked_block l' = Some (rnd, ref)) ∧
      (res = Rejected → c' = (ActionLockCollection_get_mut c h r).1)
  end.
Proof.
  unfold lock_and_save. destruct (get_mut_spec c r h) as (Hget & Hlook & Hne & Hd).
  pose proof (get_mut_durable c r h) as Hdur. pose proof (get_mut_preloaded c r h) as Hpre.
  destruct (ActionLockCollection_get_mut c h r) as [c1 existing]. simpl in *. subst existing.
  assert (∀ l h', h' ≠ h →
    let c' := ActionLockCollection_save (ActionLockCollection_insert c1 h l) h in
    preloaded c' !! h' = preloaded c !! h' ∧ disk c' !! h' = disk c !! h') as Hsave.
  { intros l h' Hh'. cbn zeta. destruct (save_insert c1 h l) as [-> ->].
    by rewrite !lookup_insert_ne, Hne, Hd by done. }
  destruct (active_lock c r h) as [l|] eqn:Hact.
  - destruct (attest_with_lock l rnd local ref) as [lo res'] eqn:Hatt. simpl.
    destruct (attest_with_lock_spec _ _ _ _ _ _ Hatt) as [Hadm _].
    destruct lo as [l'|]; intros [= <- <-].
    + destruct (save_insert c1 h l') as [Hp' Hd'].
      split; [auto using save_insert_durable|]. split; [auto|]. split; [done|].
      by rewrite Hp', Hd', !lookup_insert_eq.
    + split_and!; auto. intros h' Hh'. by rewrite Hne, Hd.
  - destruct (get (repo_get r parent) producer_selector_data) as [selector|].
    2:{ intros [= <- <-]. split_and!; auto; [|done].
        intros h' Hh'. by rewrite Hne, Hd. }
    destruct (BlockRef_try_from _) as [pref| |]; simpl; [|done..].
    intros [= <- <-]. split; [auto using save_insert_durable|]. split; [auto|]. split; [|done].
    intros _. eexists. destruct (save_insert c1 h (mkActionLock selector pref None local
      (Some (rnd, ref)) (default ∅ (nacks !! mkSiblingsKey parent h)))) as [-> ->].
    by rewrite !lookup_insert_eq.
Qed.

(** A block that is neither finalized nor prefinalized. *)
Definition unsettled r (id : BlockIdentifier) : Prop :=
  is_finalized (repo_get r id) = false ∧ is_prefinalized (repo_get r id) = false.

(** How the guards of [try_lock_send_attestation_action] end. *)
Lemma try_lock_inv rb nacks c r now id c' res :
  unsettled r id →
  try_lock_send_attestation_action rb nacks c r now id = Ok (c', res) →
  (c' = c ∧ res = Rejected) ∨
  ∃ h rnd parent keepers t local ref,
    get (repo_get r id) block_height = Some h ∧ get (repo_get r id) block_round = Some rnd ∧
    get (repo_get r id) parent_block_identifier = Some parent ∧
    get (repo_get r parent) descendant_bk_set = Some keepers ∧
    get (repo_get r parent) block_time_ms = Some t ∧ (t ≤ now)%Z ∧
    is_invalidated (repo_get r id) = false ∧ has_all_nacks_resolved (repo_get r id) = true ∧
    local_round_at rb keepers t now = Ok local ∧
    ref_block_identifier ref = block_identifier (repo_get r id) ∧
    lock_and_save nacks c r h parent rnd (round local) ref = Ok (c', res).
Proof.
  intros [Hfin Hpre]. unfold try_lock_send_attestation_action. rewrite Hfin, Hpre. simpl.
  destruct (is_invalidated _); [naive_solver|].
  destruct (has_all_nacks_resolved _); simpl; [|naive_solver].
  destruct (get (repo_get r id) block_height) as [h|]; [|naive_solver].
  destruct (get (repo_get r id) block_round) as [rnd|]; [|naive_solver].
  destruct (get (repo_get r id) parent_block_identifier) as [parent|]; [|naive_solver].
  destruct (get _ descendant_bk_set) as [keepers|] eqn:Hk; [|naive_solver].
  destruct (get _ block_time_ms) as [t|] eqn:Ht; [|naive_solver].
  case_bool_decide; [naive_solver|].
  intros (local & Hlocal & (ref & Href & Hls)%outcome_bind_Ok)%outcome_bind_Ok. right.
  exists h, rnd, parent, keepers, t, local, ref. split_and!; try done; [lia|].
  revert Href. unfold BlockRef_try_from. destruct (get _ block_seq_no); simpl; naive_solver.
Qed.
End lock_lemmas.

Section lock_theorems.
Context `{Blst} {NackData : Type} `{EqDecision NackData}.
Implicit Types (c : ActionLockCollection) (r : Repository NackData) (h : BlockHeight).

(** Try_lock_send_attestation_action: no attestation without a durable lock.  When every
    lock in memory is on disk and the node may attest a block that is not yet prefinalized,
    then the block is neither invalidated nor under an unresolved nack; afterwards the lock of
    its height is in memory and on disk and names this block; an active lock that was there
    before named the same block, or had no block and the same round, or was of an older round
    than the block; no other height's lock changes, and all locks are on disk again. *)
Theorem attested_block_locked rb nacks c r now id c' :
  durable c → unsettled r id →
  try_lock_send_attestation_action rb nacks c r now id = Ok (c', OkSendAttestation) →
  is_invalidated (repo_get r id) = false ∧ has_all_nacks_resolved (repo_get r id) = true ∧
  durable c' ∧
  ∃ h rnd l rnd' ref,
    get (repo_get r id) block_height = Some h ∧ get (repo_get r id) block_round = Some rnd ∧
    preloaded c' !! h = Some (Some l) ∧ disk c' !! h = Some (Some l) ∧
    locked_block l = Some (rnd', ref) ∧
    ref_block_identifier ref = block_identifier (repo_get r id) ∧
    (∀ l0, active_lock c r h = Some l0 → admits l0 rnd (block_identifier (repo_get r id))) ∧
    (∀ h', h' ≠ h → lookup_lock c' h' = lookup_lock c h').
Proof.
  intros Hdur Hun Htry.
  destruct (try_lock_inv _ _ _ _ _ _ _ _ Hun Htry)
    as [[_ ?]|(h&rnd&parent&keepers&t&local&ref&Hh&Hrnd&_&_&_&_&Hinv&Hnack&_&Href&Hls)]; [done|].
  destruct (lock_and_save_spec _ _ _ _ _ _ _ _ _ _ Hls) as (Hdur' & Hother & Hlock).
  specialize (Hdur' Hdur). split_and!; try done. rewrite <- Href.
  assert (∀ h', h' ≠ h → lookup_lock c' h' = lookup_lock c h') as Hother'.
  { intros h' Hne. unfold lookup_lock. by destruct (Hother h' Hne) as [-> ->]. }
  destruct (active_lock c r h) as [l0|] eqn:Hact.
  - destruct Hlock as [Hadm Hw]. pose proof (proj1 Hadm eq_refl) as Hok.
    destruct (attest_with_lock l0 rnd (round local) ref) as [lo res'] eqn:Hatt.
    destruct (attest_with_lock_spec _ _ _ _ _ _ Hatt) as [Hadm' Hspec]. simpl in Hw.
    destruct lo as [l'|].
    + destruct Hspec as (_ & Hlb & _). destruct Hw as [Hp Hd].
      exists h, rnd, l', rnd, ref. split_and!; try done. intros l1. rewrite Hact. by intros [= <-].
    + destruct Hspec as (_ & Hspec). destruct Hw as [Hp Hd].
      destruct (Hspec (proj2 Hadm' Hok)) as (rnd'&ref'&Hlb&Hid).
      exists h, rnd, l0, rnd', ref'. split_and!; try done; [by apply Hdur'|intros l1; rewrite Hact; by intros [= <-]].
  - destruct Hlock as [Hnew _]. destruct (Hnew eq_refl) as (l'&Hp&Hd&_&Hlb).
    exists h, rnd, l', rnd, ref. split_and!; try done. intros l1. by rewrite Hact.
Qed.

(** *** Along a history, restarts included *)
Context `{Deserialize (Envelope AckiNackiBlock)}.
Variable set_iter : gset BlockIdentifier → list BlockIdentifier.
(** The round of a block, as its common section gives it. *)
Variable round_of : BlockIdentifier → BlockRound.
Variables (rb : RoundTime) (nacks : gmap SiblingsBlockHeightKey (gset BlockIdentifier)).
Variable (h : BlockHeight).

(** What the history assumes of a snapshot of the store: states are stored under their
    identifiers and record the round of their block. *)
Definition sane_repo r : Prop :=
  (∀ id, block_identifier (repo_get r id) = id) ∧
  (∀ id rnd, get (repo_get r id) block_round = Some rnd → rnd = round_of id).

(** The block is not of a future round on the local clock. *)
Definition in_time r (now : Z) (id : BlockIdentifier) : Prop := ∀ rnd parent keepers t local,
  get (repo_get r id) block_round = Some rnd →
  get (repo_get r id) parent_block_identifier = Some parent →
  get (repo_get r parent) descendant_bk_set = Some keepers →
  get (repo_get r parent) block_time_ms = Some t →
  local_round_at rb keepers t now = Ok local → (rnd ≤ round local)%Z.

(** The locked block of the height has not been invalidated. *)
Definition lock_stands c r : Prop := ∀ l, lookup_lock c h = Some l → lock_active r l = true.

(** The lock of the height was taken below this parent: [start_next_round] keeps it. *)
Definition same_parent c r (parent : BlockIdentifier) : Prop := ∀ l, lookup_lock c h = Some l →
  ref_block_identifier (parent_block l) = block_identifier (repo_get r parent).

(** The lock of the height that memory holds is the one on disk. *)
Definition on_disk c : Prop := lookup_lock c h = mjoin (disk c !! h).

(** The proposed block of the message has the round its identifier stands for. *)
Definition sane_success (m : NextRoundSuccess) : Prop := ∀ e,
  NetBlock_get_envelope (success_proposed_block m) = Some e →
  blk_round (data e) = round_of (blk_identifier (data e)).

(** One event of the life of the height on a node: an attestation is asked for, for a block of
    the height or of another one; [start_next_round] drops a lock of another parent, and
    goes on to take the lock of the new round; a lock is only read; a round was closed by others
    ([on_next_round_success]); a finalized height drops older locks from memory; the node
    restarts and loses its memory.  The rest of [start_next_round] asks for attestations.
    [attested] are the blocks of the height it has attested. *)
Inductive lock_step : ActionLockCollection * list BlockIdentifier →
    ActionLockCollection * list BlockIdentifier → Prop :=
  | step_attest c r now id c' attested :
      sane_repo r → lock_stands c r → in_time r now id → unsettled r id →
      get (repo_get r id) BlockState.block_height = Some h →
      try_lock_send_attestation_action rb nacks c r now id = Ok (c', OkSendAttestation) →
      lock_step (c, attested) (c', id :: attested)
  | step_reject c r now id c' attested :
      sane_repo r → lock_stands c r → unsettled r id →
      try_lock_send_attestation_action rb nacks c r now id = Ok (c', Rejected) →
      lock_step (c, attested) (c', attested)
  | step_other c r now id h' c' answer attested :
      unsettled r id → get (repo_get r id) BlockState.block_height = Some h' → h' ≠ h →
      try_lock_send_attestation_action rb nacks c r now id = Ok (c', answer) →
      lock_step (c, attested) (c', attested)
  | step_round_delayed c r parent attested :
      lock_stands c r → same_parent c r parent →
      lock_step (c, attested)
        (drop_lock_of_other_parent c r h (block_identifier (repo_get r parent)), attested)
  | step_round c r parent proof local c' l updated attested :
      lock_stands c r → same_parent c r parent →
      next_round_lock nacks (drop_lock_of_other_parent c r h (block_identifier (repo_get r parent)))
        r h parent proof local = Ok (c', l, updated) →
      lock_step (c, attested) (if updated then ActionLockCollection_save c' h else c', attested)
  | step_read c r h' attested :
      lock_step (c, attested) ((ActionLockCollection_get c h' r).1, attested)
  | step_success a r m a' r' attested :
      lock_stands (action_lock a) r → sane_success m →
      on_next_round_success set_iter a r m = Ok (a', r') →
      lock_step (action_lock a, attested) (action_lock a', attested)
  | step_finalized c h' attested : on_disk c →
      lock_step (c, attested) (ActionLockCollection_drop_old_locks c h', attested)
  | step_restart c attested : on_disk c →
      lock_step (c, attested) (mkLocks ∅ (disk c), attested).

(** The locked block is recorded with its round; different attested blocks have different
    rounds; and once a block is attested there is a lock with a block, whose locked round is at
    least the round of every attested block, and every attested block is of an older round than
    the locked block or is the locked block. *)
Definition history_ok (x : ActionLockCollection * list BlockIdentifier) : Prop :=
  (∀ l rnd ref, lookup_lock x.1 h = Some l → locked_block l = Some (rnd, ref) →
     rnd = round_of (ref_block_identifier ref)) ∧
  (∀ id1 id2, id1 ∈ x.2 → id2 ∈ x.2 → round_of id1 = round_of id2 → id1 = id2) ∧
  (∀ id, id ∈ x.2 → ∃ l rnd ref, lookup_lock x.1 h = Some l ∧ locked_block l = Some (rnd, ref) ∧
     (round_of id ≤ locked_round l)%Z ∧
     ((round_of id < rnd)%Z ∨ id = ref_block_identifier ref)).

Lemma stands_active c r : lock_stands c r → active_lock c r h = lookup_lock c h.
Proof.
  intros Hs. unfold active_lock. destruct (lookup_lock c h) eqn:Hl; [|done]. simpl.
  by rewrite (Hs _ Hl).
Qed.

(** Looking a standing lock up does not change it. *)
Lemma get_mut_stands c r :
  lock_stands c r → lookup_lock (ActionLockCollection_get_mut c h r).1 h = lookup_lock c h.
Proof. intros Hst. destruct (get_mut_spec c r h) as (_ & -> & _). by apply stands_active. Qed.

Lemma preload_lookup c h1 h2 :
  lookup_lock (ActionLockCollection_preload c h1) h2 = lookup_lock c h2.
Proof.
  destruct (preload_spec c h1) as (Hh & Hne & Hd). unfold lookup_lock. rewrite Hd.
  destruct (decide (h2 = h1)) as [->|]; [rewrite Hh|by rewrite Hne].
  destruct (preloaded c !! h1); [done|]. by destruct (disk c !! h1).
Qed.

Lemma get_lookup c h1 h2 r :
  lookup_lock (ActionLockCollection_get c h1 r).1 h2 = lookup_lock c h2.
Proof. unfold ActionLockCollection_get. destruct (negb _); apply preload_lookup. Qed.

Lemma get_stands c r :
  lock_stands c r → (ActionLockCollection_get c h r).2 = lookup_lock c h.
Proof.
  intros Hst. destruct (preload_spec c h) as (Hh & _ & _).
  assert (Hj : mjoin (preloaded (ActionLockCollection_preload c h) !! h) = lookup_lock c h)
    by (rewrite Hh; unfold lookup_lock; by destruct (preloaded c !! h)).
  unfold ActionLockCollection_get. cbv zeta.
  destruct (negb _) eqn:Hn; [exfalso|exact Hj]. unfold ActionLockCollection_is_active in Hn.
  destruct (preloaded (ActionLockCollection_preload c h) !! h) as [[l|]|]; [|done..].
  by rewrite (Hst l) in Hn.
Qed.

(** A lock with the parent stays; without a lock there is none afterwards. *)
Lemma drop_keeps c r parent :
  lock_stands c r → same_parent c r parent →
  lookup_lock (drop_lock_of_other_parent c r h (block_identifier (repo_get r parent))) h =
    lookup_lock c h.
Proof.
  intros Hst Hpar. unfold drop_lock_of_other_parent.
  pose proof (get_stands c r Hst) as Hget. pose proof (get_lookup c h h r) as Hsame.
  destruct (ActionLockCollection_get c h r) as [c1 lo]. simpl in *. subst lo.
  destruct (lookup_lock c h) as [l|] eqn:Hl.
  - by rewrite bool_decide_eq_true_2 by by apply Hpar.
  - unfold lookup_lock. simpl. by rewrite lookup_insert_eq.
Qed.

(** Keeping the visible lock of the height keeps the history in order. *)
Lemma history_same c c' attested :
  history_ok (c, attested) → lookup_lock c' h = lookup_lock c h → history_ok (c', attested).
Proof. intros (Hr & Hu & Hb) Heq. simpl in *. split_and!; simpl; rewrite ?Heq; done. Qed.

(** What a lock update has to satisfy to keep the history in order: a lock that stays keeps its
    block or moves to one of a later round, and its locked round does not go back. *)
Definition lock_advances (l l' : ActionLock) : Prop :=
  (locked_round l ≤ locked_round l')%Z ∧
  (locked_block l' = locked_block l ∨
   ∃ rnd ref, locked_block l' = Some (rnd, ref) ∧ rnd = round_of (ref_block_identifier ref) ∧
     ∀ rnd0 ref0, locked_block l = Some (rnd0, ref0) → (rnd0 < rnd)%Z).

Lemma lock_advances_trans l1 l2 l3 :
  lock_advances l1 l2 → lock_advances l2 l3 → lock_advances l1 l3.
Proof.
  intros [R1 [E1|(rnd1 & ref1 & E1 & V1 & B1)]] [R2 [E2|(rnd2 & ref2 & E2 & V2 & B2)]];
    (split; [lia|]).
  - left. congruence.
  - right. exists rnd2, ref2. split_and!; [done..|]. rewrite <- E1. done.
  - right. exists rnd1, ref1. split_and!; [congruence|done..].
  - right. exists rnd2, ref2. split_and!; [done..|]. intros rnd0 ref0 Hb0.
    specialize (B1 _ _ Hb0). specialize (B2 _ _ E1). lia.
Qed.

Lemma history_update c c' l' attested :
  history_ok (c, attested) → lookup_lock c' h = Some l' →
  (∀ l, lookup_lock c h = Some l → lock_advances l l') →
  (lookup_lock c h = None → ∀ rnd ref, locked_block l' = Some (rnd, ref) →
     rnd = round_of (ref_block_identifier ref)) →
  history_ok (c', attested).
Proof.
  intros (Hrec & Huniq & Hbound) Hlook Hold Hnew. simpl in *. split_and!; simpl; [|done|].
  - intros l rnd ref. rewrite Hlook. intros [= <-] Hb.
    destruct (lookup_lock c h) as [l|] eqn:Hl; [|by apply Hnew].
    destruct (Hold l eq_refl) as [_ [Heq|(rnd1 & ref1 & Heq & -> & _)]]; [|congruence].
    apply (Hrec l); congruence.
  - intros id Hid. destruct (Hbound id Hid) as (l & rnd & ref & Hl & Hb & Hr & Hor).
    pose proof (Hrec _ _ _ Hl Hb) as Hrnd.
    destruct (Hold l Hl) as [Hle [Heq|(rnd1 & ref1 & Heq & Hrnd1 & Hlt)]].
    + exists l', rnd, ref. split_and!; [done|congruence|lia|done].
    + exists l', rnd1, ref1. specialize (Hlt _ _ Hb).
      split_and!; [done..|lia|left]. destruct Hor as [?| ->]; lia.
Qed.

(** A newly attested block whose round is above everything attested before. *)
Lemma history_attest c c' l' id ref attested :
  history_ok (c, attested) → lookup_lock c' h = Some l' →
  locked_block l' = Some (round_of id, ref) → ref_block_identifier ref = id →
  (round_of id ≤ locked_round l')%Z →
  (∀ id', id' ∈ attested → (round_of id' < round_of id)%Z) →
  history_ok (c', id :: attested).
Proof.
  intros (Hrec & Huniq & _) Hlook Hb Href Hr Hfresh. simpl in *. split_and!; simpl.
  - intros l rnd ref0. rewrite Hlook. intros [= <-]. rewrite Hb. intros [= <- <-]. congruence.
  - intros id1 id2 [->|H1]%elem_of_cons [->|H2]%elem_of_cons Heq; [done|..|by apply Huniq].
    + specialize (Hfresh _ H2). lia.
    + specialize (Hfresh _ H1). lia.
  - intros id' [->|Hid]%elem_of_cons; exists l', (round_of id), ref; [by auto|].
    specialize (Hfresh _ Hid). split_and!; [done..|lia|auto].
Qed.

(** The locked block attested again, or for the first time after it was locked by others. *)
Lemma history_attest_locked c c' l rnd ref attested :
  history_ok (c, attested) → lookup_lock c h = Some l → lookup_lock c' h = Some l →
  locked_block l = Some (rnd, ref) → (round_of (ref_block_identifier ref) ≤ locked_round l)%Z →
  history_ok (c', ref_block_identifier ref :: attested).
Proof.
  intros (Hrec & Huniq & Hbound) Hl Hl' Hb Hr. simpl in *.
  assert (Hone : ∀ id, id ∈ attested → round_of id = round_of (ref_block_identifier ref) →
    id = ref_block_identifier ref).
  { intros id Hid Heq. destruct (Hbound id Hid) as (l1 & rnd1 & ref1 & Hl1 & Hb1 & _ & Hor).
    assert (l1 = l) as -> by congruence. assert (rnd1 = rnd ∧ ref1 = ref) as [-> ->] by (split; congruence).
    destruct Hor as [Hlt|?]; [|done]. rewrite (Hrec _ _ _ Hl Hb) in Hlt. lia. }
  split_and!; simpl.
  - intros l1 rnd1 ref1. rewrite Hl'. intros [= <-]. by apply Hrec.
  - intros id1 id2 [->|H1]%elem_of_cons [->|H2]%elem_of_cons Heq; [done|..|by apply Huniq].
    + symmetry. by apply Hone.
    + by apply Hone.
  - intros id' [->|Hid]%elem_of_cons; [exists l, rnd, ref; by auto|].
    rewrite Hl', <- Hl. by apply Hbound.
Qed.

Lemma history_attest_step c r now id c' attested :
  sane_repo r → lock_stands c r → in_time r now id → unsettled r id →
  get (repo_get r id) BlockState.block_height = Some h →
  try_lock_send_attestation_action rb nacks c r now id = Ok (c', OkSendAttestation) →
  history_ok (c, attested) → history_ok (c', id :: attested).
Proof.
  intros [Hkey Hrounds] Hst Htime Hun Hheight Htry Hok.
  destruct (try_lock_inv _ _ _ _ _ _ _ _ Hun Htry)
    as [[_ ?]|(h'&rnd&parent&keepers&t&local&ref&Hh&Hrnd&Hpar&Hk&Ht&_&_&_&Hloc&Href&Hls)]; [done|].
  rewrite Hheight in Hh. injection Hh as <-. rewrite Hkey in Href.
  pose proof (Hrounds _ _ Hrnd) as ->.
  pose proof (Htime _ _ _ _ _ Hrnd Hpar Hk Ht Hloc) as Hle.
  destruct (lock_and_save_spec _ _ _ _ _ _ _ _ _ _ Hls) as (_ & _ & Hlock).
  rewrite (stands_active _ _ Hst) in Hlock. pose proof Hok as (_ & _ & Hbound). simpl in Hbound.
  assert (Hlook : ∀ l', preloaded c' !! h = Some (Some l') → lookup_lock c' h = Some l')
    by (intros l' Hp; unfold lookup_lock; by rewrite Hp).
  destruct (lookup_lock c h) as [l|] eqn:Hl.
  - destruct Hlock as [Hadm Hw]. pose proof (proj1 Hadm eq_refl) as Had.
    destruct (attest_with_lock l (round_of id) (round local) ref) as [lo res'] eqn:Hatt.
    destruct (attest_with_lock_spec _ _ _ _ _ _ Hatt) as [Hadm' Hspec]. simpl in Hw.
    destruct lo as [l'|].
    + destruct Hspec as (_ & Hb & Hcase). destruct Hw as [Hp Hd].
      apply (history_attest c c' l' id ref); try done; [by apply Hlook|lia|].
      intros id' Hid. destruct (Hbound _ Hid) as (l1 & rnd1 & ref1 & [= <-] & Hb1 & Hr1 & _).
      destruct Hcase as [[? ?]|(_ & ? & _)]; [lia|congruence].
    + destruct Hspec as (Hge & Hsame). destruct Hw as [Hp Hd].
      destruct (Hsame (proj2 Hadm' Had)) as (rnd'&ref'&Hb&Hid).
      rewrite <- Href, <- Hid in Hge |- *.
      eapply history_attest_locked; [exact Hok|exact Hl|by apply Hlook|exact Hb|done].
  - destruct Hlock as [Hnew _]. destruct (Hnew eq_refl) as (l'&Hp&Hd&Hlr&Hb).
    apply (history_attest c c' l' id ref); try done; [by apply Hlook|lia|].
    intros id' Hid. by destruct (Hbound _ Hid) as (l1 & rnd1 & ref1 & [=] & _).
Qed.

Lemma history_reject_step c r now id c' attested :
  lock_stands c r → unsettled r id →
  try_lock_send_attestation_action rb nacks c r now id = Ok (c', Rejected) →
  history_ok (c, attested) → history_ok (c', attested).
Proof.
  intros Hst Hun Htry Hok.
  destruct (try_lock_inv _ _ _ _ _ _ _ _ Hun Htry)
    as [[-> _]|(h'&rnd&parent&keepers&t&local&ref&_&_&_&_&_&_&_&_&_&_&Hls)]; [done|].
  destruct (lock_and_save_spec _ _ _ _ _ _ _ _ _ _ Hls) as (_ & Hother & Hlock).
  apply (history_same c); [done|]. destruct (decide (h = h')) as [<-|Hne].
  2:{ destruct (Hother h Hne) as [Hp Hd]. unfold lookup_lock. by rewrite Hp, Hd. }
  rewrite (stands_active _ _ Hst) in Hlock. destruct (lookup_lock c h) as [l|] eqn:Hl.
  - destruct Hlock as [Hadm Hw].
    destruct (attest_with_lock l rnd (round local) ref) as [[l'|] res'] eqn:Hatt;
      destruct (attest_with_lock_spec _ _ _ _ _ _ Hatt) as [Hadm' Hspec]; simpl in Hw.
    { destruct Hspec as (Hres & _). by apply Hadm', Hadm in Hres. }
    destruct Hw as [Hp Hd]. unfold lookup_lock at 1. by rewrite Hp.
  - destruct Hlock as [_ ->]; [|done]. by rewrite (get_mut_stands c r Hst).
Qed.

Lemma history_other_step c r now id h' c' answer attested :
  unsettled r id → get (repo_get r id) BlockState.block_height = Some h' → h' ≠ h →
  try_lock_send_attestation_action rb nacks c r now id = Ok (c', answer) →
  history_ok (c, attested) → history_ok (c', attested).
Proof.
  intros Hun Hh Hne Htry Hok.
  destruct (try_lock_inv _ _ _ _ _ _ _ _ Hun Htry)
    as [[-> _]|(h1&rnd&parent&keepers&t&local&ref&Hh1&_&_&_&_&_&_&_&_&_&Hls)]; [done|].
  assert (h1 = h') as -> by congruence.
  destruct (lock_and_save_spec _ _ _ _ _ _ _ _ _ _ Hls) as (_ & Hother & _).
  destruct (Hother h) as [Hp Hd]; [congruence|]. apply (history_same c); [done|].
  unfold lookup_lock. by rewrite Hp, Hd.
Qed.

Lemma insert_lookup c l : lookup_lock (ActionLockCollection_insert c h l) h = Some l.
Proof. unfold lookup_lock. simpl. by rewrite lookup_insert_eq. Qed.

Lemma save_lookup c : lookup_lock (ActionLockCollection_save c h) h = lookup_lock c h.
Proof.
  unfold ActionLockCollection_save, lookup_lock. destruct (preloaded c !! h) eqn:Hp; simpl; by rewrite Hp.
Qed.

Lemma history_round_step c r parent proof local c' l updated attested :
  lock_stands c r → next_round_lock nacks c r h parent proof local = Ok (c', l, updated) →
  history_ok (c, attested) →
  history_ok (if updated then ActionLockCollection_save c' h else c', attested).
Proof.
  intros Hst Hnext Hok. pose proof (get_mut_stands c r Hst) as Hl'.
  destruct (get_mut_spec c r h) as (Hget & _).
  rewrite (stands_active _ _ Hst) in Hget. revert Hnext. unfold next_round_lock.
  destruct (ActionLockCollection_get_mut c h r) as [c1 existing]. simpl in *. subst existing.
  destruct (lookup_lock c h) as [l0|] eqn:Hl.
  - case_bool_decide; intros [= <- <- <-]; [|apply (history_same c); congruence].
    eapply history_update; [exact Hok|by rewrite save_lookup, insert_lookup|rewrite Hl|by rewrite Hl].
    intros l [= <-]. split; [done|by left].
  - destruct (get _ producer_selector_data) as [selector|]; [|done].
    destruct (BlockRef_try_from _) as [pref| |]; [|done..]. simpl. intros [= <- <- <-].
    eapply history_update; [exact Hok|by rewrite save_lookup, insert_lookup|by rewrite Hl|done].
Qed.

(** A closed round moves the lock forward. *)
Lemma outranks_lt block_round l rnd0 ref0 :
  outranks block_round l = true → locked_block l = Some (rnd0, ref0) → (rnd0 < block_round)%Z.
Proof. unfold outranks. intros Ho Hb. rewrite Hb in Ho. by apply bool_decide_eq_true in Ho. Qed.

Lemma success_newer_advances l rnd block_round leader bad l' inv :
  block_round = round_of (ref_block_identifier leader) →
  success_newer_round l rnd block_round leader bad = (l', inv) → lock_advances l l'.
Proof.
  intros Hr. unfold success_newer_round. case_bool_decide; [|intros [= <- _]; by split; [|left]].
  destruct (outranks _ _) eqn:Ho; intros [= <- _]; (split; [done|]); [|by left].
  right. exists block_round, leader. split_and!; [done..|]. intros rnd0 ref0 Hb.
  by eapply outranks_lt; [exact Ho|exact Hb].
Qed.

Lemma success_same_advances l rnd block_round leader bad inv l' inv' :
  block_round = round_of (ref_block_identifier leader) →
  success_same_round (l, inv) rnd block_round leader bad = Ok (l', inv') → lock_advances l l'.
Proof.
  intros Hr. unfold success_same_round.
  destruct (bool_decide _ && outranks _ _) eqn:Hc; [|intros [= <- _]; by split; [|left]].
  apply andb_true_iff in Hc as [Heq%bool_decide_eq_true Ho].
  intros (rnd' & [_ ->]%checked_Ok & [= <- _])%outcome_bind_Ok. split; [simpl; lia|].
  right. exists block_round, leader. split_and!; [done..|]. intros rnd0 ref0. by apply outranks_lt.
Qed.

Lemma history_success_step a r m a' r' attested :
  lock_stands (action_lock a) r → sane_success m → on_next_round_success set_iter a r m = Ok (a', r') →
  history_ok (action_lock a, attested) → history_ok (action_lock a', attested).
Proof.
  intros Hst Hsane. unfold on_next_round_success, sane_success in *.
  destruct (NetBlock_get_envelope _) as [e|]; [|by intros [= <- _]].
  specialize (Hsane e eq_refl). destruct (_ && _); [by intros [= <- _]|].
  destruct (get _ producer_selector_data) as [selector|]; [|by intros [= <- _]]. cbv zeta.
  destruct (get_mut_spec (action_lock a) r (success_block_height m)) as (Hget & Hlook & Hne & Hd).
  destruct (ActionLockCollection_get_mut _ _ r) as [c1 existing]. simpl in Hget, Hlook, Hne, Hd. subst existing.
  intros ([l inv] & Hl & Hrest)%outcome_bind_Ok Hok.
  assert (action_lock a' = ActionLockCollection_insert c1 (success_block_height m) l) as ->.
  { destruct inv as [[? ?]|]; [|by injection Hrest as <- _].
    by apply outcome_bind_Ok in Hrest as (? & _ & [= <- _]). }
  clear Hrest. destruct (decide (success_block_height m = h)) as [Heq|Hneq].
  2:{ apply (history_same (action_lock a)); [done|]. unfold lookup_lock. simpl.
      rewrite lookup_insert_ne by done. by rewrite Hne, Hd. }
  rewrite Heq in *. rewrite (stands_active _ _ Hst) in Hl.
  eapply history_update; [exact Hok|apply insert_lookup|..].
  - intros l0 Hl0. rewrite Hl0 in Hl. destruct (success_newer_round _ _ _ _ _) as [l1 inv1] eqn:Hnew.
    apply lock_advances_trans with l1.
    + by eapply success_newer_advances; [|exact Hnew].
    + by eapply success_same_advances; [|exact Hl].
  - intros Hl0. rewrite Hl0 in Hl. apply outcome_bind_Ok in Hl as (pref & _ & [= <- _]).
    simpl. intros rnd ref [= <- <-]. exact Hsane.
Qed.

Lemma drop_old_lookup c h1 :
  on_disk c → lookup_lock (ActionLockCollection_drop_old_locks c h1) h = lookup_lock c h.
Proof.
  intros Hd. unfold on_disk in Hd. unfold lookup_lock at 1. simpl.
  destruct (filter _ (preloaded c) !! h) as [v|] eqn:Hf; [|done].
  apply map_lookup_filter_Some in Hf as [Hf _]. unfold lookup_lock. by rewrite Hf.
Qed.

Lemma history_step x y : lock_step x y → history_ok x → history_ok y.
Proof.
  intros Hstep Hok. destruct Hstep.
  - by eapply history_attest_step.
  - by eapply history_reject_step.
  - by eapply history_other_step.
  - eapply history_same; [exact Hok|by apply drop_keeps].
  - eapply history_round_step; [|eassumption|].
    + intros l0. rewrite drop_keeps by done. auto.
    + eapply history_same; [exact Hok|by apply drop_keeps].
  - eapply history_same; [exact Hok|apply get_lookup].
  - by eapply history_success_step.
  - eapply history_same; [exact Hok|by apply drop_old_lookup].
  - apply (history_same c); [done|]. match goal with Hd : on_disk _ |- _ => rewrite Hd end.
    unfold lookup_lock. simpl. by rewrite lookup_empty.
Qed.

Lemma history_steps c0 x :
  lookup_lock c0 h = None → rtc lock_step (c0, []) x → history_ok x.
Proof.
  intros Hl. revert x. apply rtc_ind_r.
  - split_and!; simpl.
    + by rewrite Hl.
    + by intros ?? ?%elem_of_nil.
    + by intros ? ?%elem_of_nil.
  - intros x y _ Hstep Hok. by eapply history_step.
Qed.

(** C25 (locks along a history): a node never attests two blocks of the same round on one
    height, as long as its lock is not lost.  Start without a lock on the height; then along
    every sequence of attestation requests, starts of a new round (the drop of a lock of another
    parent first), lock reads, rounds closed by others, finalized heights and restarts, two
    different attested blocks that were not prefinalized have different rounds; and the lock in
    force has a block, a locked round at least the round of every attested block, and every
    other attested block is of an older round than the locked block.  The sequences are those in
    which no attested block is of a future round on the local clock, no locked block is
    invalidated, a new round is started below the parent of the lock, and memory is dropped only
    when the lock in memory is the one on disk ([on_next_round_success] does not save it). *)
Theorem no_two_attestations_in_one_round c0 c attested :
  lookup_lock c0 h = None →
  rtc lock_step (c0, []) (c, attested) →
  (∀ id1 id2, id1 ∈ attested → id2 ∈ attested → round_of id1 = round_of id2 → id1 = id2) ∧
  (∀ id, id ∈ attested → ∃ l rnd ref,
     lookup_lock c h = Some l ∧ locked_block l = Some (rnd, ref) ∧
     (round_of id ≤ locked_round l)%Z ∧
     ((round_of id < rnd)%Z ∨ id = ref_block_identifier ref)).
Proof. intros Hl Hsteps. by destruct (history_steps _ _ Hl Hsteps) as (_ & Hu & Hb). Qed.

(** A block that passes the guards of [try_lock_send_attestation_action]. *)
Record candidate r (id : BlockIdentifier) (rnd : BlockRound) (parent : BlockIdentifier) : Prop := {
  candidate_unsettled : unsettled r id;
  candidate_valid : is_invalidated (repo_get r id) = false;
  candidate_nacks : has_all_nacks_resolved (repo_get r id) = true;
  candidate_height : get (repo_get r id) block_height = Some h;
  candidate_round : get (repo_get r id) block_round = Some rnd;
  candidate_parent : get (repo_get r id) parent_block_identifier = Some parent;
  candidate_seq_no : is_Some (get (repo_get r id) block_seq_no);
}.
Record ready_parent r (parent : BlockIdentifier) (now : Z) (local : CalculateRoundResult) : Prop := {
  ready_round : ∃ keepers t, get (repo_get r parent) descendant_bk_set = Some keepers ∧
    get (repo_get r parent) block_time_ms = Some t ∧ (t ≤ now)%Z ∧
    local_round_at rb keepers t now = Ok local;
  ready_selector : is_Some (get (repo_get r parent) producer_selector_data);
  ready_seq_no : is_Some (get (repo_get r parent) block_seq_no);
}.

Lemma try_lock_candidate c r now id rnd parent local :
  candidate r id rnd parent → ready_parent r parent now local →
  ∃ ref, ref_block_identifier ref = block_identifier (repo_get r id) ∧
    try_lock_send_attestation_action rb nacks c r now id =
      lock_and_save nacks c r h parent rnd (round local) ref.
Proof.
  intros [[Hf Hp] Hi Hn Hh Hr Hpar [n Hs]] [(keepers&t&Hk&Ht&Hle&Hloc) _ _].
  exists (mkBlockRef n (block_identifier (repo_get r id))). split; [done|].
  unfold try_lock_send_attestation_action, BlockRef_try_from.
  rewrite Hf, Hp, Hi, Hn, Hh, Hr, Hpar, Hk, Ht. simpl.
  rewrite bool_decide_eq_false_2 by lia. rewrite Hloc, Hs. done.
Qed.

(** Try_lock_send_attestation_action, future rounds: the first lock of a height takes the
    local round, also when the attested block is of a later round.  So when a height is not
    locked yet and two different candidates of the same parent are both of rounds the local
    clock has not reached, the node attests the first and then also the second, be they of
    the same round. *)
Theorem future_round_attested_twice c r now id1 id2 rnd1 rnd2 parent local :
  candidate r id1 rnd1 parent → candidate r id2 rnd2 parent → ready_parent r parent now local →
  (round local < rnd2)%Z → lookup_lock c h = None → sane_repo r →
  ∃ c1 c2,
    try_lock_send_attestation_action rb nacks c r now id1 = Ok (c1, OkSendAttestation) ∧
    try_lock_send_attestation_action rb nacks c1 r now id2 = Ok (c2, OkSendAttestation).
Proof.
  intros Hc1 Hc2 Hpar Hlt Hnone [Hkey _].
  destruct (try_lock_candidate c r now id1 rnd1 parent local Hc1 Hpar) as (ref1 & Href1 & Hfirst).
  destruct Hpar as [Hround [selector Hsel] [n Hn]] eqn:Hpeq.
  assert (∃ c1, lock_and_save nacks c r h parent rnd1 (round local) ref1 =
                Ok (c1, OkSendAttestation)) as [c1 Hls].
  { unfold lock_and_save. destruct (get_mut_spec c r h) as (Hget & _).
    destruct (ActionLockCollection_get_mut c h r) as [c0 existing]. simpl in Hget. subst existing.
    unfold active_lock. rewrite Hnone. simpl. rewrite Hsel. unfold BlockRef_try_from. rewrite Hn.
    simpl. by eexists. }
  exists c1. rewrite Hfirst, Hls.
  destruct (try_lock_candidate c1 r now id2 rnd2 parent local Hc2 Hpar) as (ref2 & Href2 & Hsecond).
  rewrite Hsecond. destruct (lock_and_save_spec _ _ _ _ _ _ _ _ _ _ Hls) as (_ & _ & Hlock).
  unfold active_lock in Hlock. rewrite Hnone in Hlock. simpl in Hlock.
  destruct (proj1 Hlock eq_refl) as (l & Hp1 & _ & Hlr & Hlb).
  assert (active_lock c1 r h = Some l) as Hact.
  { unfold active_lock, lookup_lock. rewrite Hp1. simpl. unfold lock_active. rewrite Hlb.
    rewrite Href1, Hkey. by rewrite (candidate_valid _ _ _ _ Hc1). }
  unfold lock_and_save. destruct (get_mut_spec c1 r h) as (Hget & _).
  destruct (ActionLockCollection_get_mut c1 h r) as [c0 existing]. simpl in Hget. subst existing.
  rewrite Hact. unfold attest_with_lock. rewrite bool_decide_eq_true_2 by lia. by eexists.
Qed.
End lock_theorems.

(** ** Locks after a successful round *)
Section success_theorems.
Context `{Blst} {NackData : Type} `{EqDecision NackData} `{Deserialize (Envelope AckiNackiBlock)}.
Variable set_iter : gset BlockIdentifier → list BlockIdentifier.
Implicit Types (a : ThreadAuthority) (r : Repository NackData).

(** The second update of an existing lock never applies: after the first one a lock of the
    announced round has a block of at least the proposed block's round. *)
Lemma success_same_round_dead l rnd block_round leader nacks :
  success_same_round (success_newer_round l rnd block_round leader nacks) rnd block_round leader
    nacks = Ok (success_newer_round l rnd block_round leader nacks).
Proof.
  unfold success_newer_round. case_bool_decide as Hle.
  - destruct (outranks block_round _) eqn:Hout; unfold success_same_round; simpl.
    + rewrite bool_decide_eq_true_2 by done. unfold outranks. simpl.
      by rewrite bool_decide_eq_false_2 by lia.
    + rewrite bool_decide_eq_true_2 by done. unfold outranks in *. simpl in *. by rewrite Hout.
  - unfold success_same_round. rewrite bool_decide_eq_false_2 by lia. done.
Qed.

(** On_next_round_success: a message whose block or parent is not usable changes nothing.
    Otherwise the height is locked in memory: without an active lock, on the announced round
    and the proposed block; with one, on the larger of both rounds, and the locked block is
    replaced only if the announced round is not below the lock and the proposed block is of a
    later round, in which case exactly the branch of the replaced block is invalidated.  The
    disk is never written. *)
Theorem next_round_success_effect a r m a' r' :
  on_next_round_success set_iter a r m = Ok (a', r') →
  disk (action_lock a') = disk (action_lock a) ∧
  (a' = a ∧ r' = r ∨
   ∃ e l', NetBlock_get_envelope (success_proposed_block m) = Some e ∧
     let h := success_block_height m in
     let rnd := success_round m in
     let leader := mkBlockRef (blk_seq_no (data e)) (blk_identifier (data e)) in
     preloaded (action_lock a') !! h = Some (Some l') ∧
     (∀ h', h' ≠ h → preloaded (action_lock a') !! h' = preloaded (action_lock a) !! h') ∧
     match active_lock (action_lock a) r h with
     | None => locked_round l' = rnd ∧ locked_block l' = Some (blk_round (data e), leader) ∧ r' = r
     | Some l =>
         locked_round l' = Z.max (locked_round l) rnd ∧
         if bool_decide (locked_round l ≤ rnd)%Z && outranks (blk_round (data e)) l
         then locked_block l' = Some (blk_round (data e), leader) ∧
              match locked_block l with
              | None => r' = r
              | Some (_, old) => invalidate_branch set_iter r (ref_block_identifier old) = Ok r'
              end
         else locked_block l' = locked_block l ∧ r' = r
     end).
Proof.
  unfold on_next_round_success.
  destruct (NetBlock_get_envelope _) as [e|] eqn:He; [|intros [= <- <-]; auto].
  case_match; [intros [= <- <-]; auto|].
  destruct (get _ producer_selector_data) as [selector|]; [|intros [= <- <-]; auto].
  set (h := success_block_height m). set (rnd := success_round m).
  destruct (get_mut_spec (action_lock a) r h) as (Hget & _ & Hne & Hd).
  destruct (ActionLockCollection_get_mut (action_lock a) h r) as [c existing]. simpl in *.
  subst existing. intros [[l' to_inv] [Hl Hrest]]%outcome_bind_Ok.
  assert (a' = with_action_lock a (ActionLockCollection_insert c h l') ∧
    match to_inv with
    | None => r' = r
    | Some (_, old) => invalidate_branch set_iter r (ref_block_identifier old) = Ok r'
    end) as [-> Hr'].
  { destruct to_inv as [[? old]|]; [|naive_solver].
    apply outcome_bind_Ok in Hrest as (r1 & Hinv & Heq). naive_solver. }
  split; [done|]. right. exists e, l'. split; [done|]. cbn zeta. simpl.
  rewrite lookup_insert_eq. split; [done|].
  split; [intros h' Hh'; by rewrite lookup_insert_ne, Hne by done|].
  destruct (active_lock (action_lock a) r h) as [l|].
  - rewrite success_same_round_dead in Hl. apply Ok_inj in Hl. unfold success_newer_round in Hl.
    case_bool_decide as Hle; simpl.
    + change (outranks (blk_round (data e)) (set_lock l rnd (locked_block l)
        (locked_bad_block_nacks l))) with (outranks (blk_round (data e)) l) in Hl.
      destruct (outranks _ l); injection Hl as <- <-; simpl; (split; [lia|]); done.
    + injection Hl as <- <-. split; [lia|]. done.
  - apply outcome_bind_Ok in Hl as (pref & _ & Hl). injection Hl as <- <-. by split_and!.
Qed.
End success_theorems.

(** ** Evaluation *)
Section lock_witnesses.
#[local] Existing Instance LinearBlst.

Definition example_height : BlockHeight := mkBlockHeight example_thread 7.
Definition example_round_of (id : BlockIdentifier) : BlockRound := 5.
(** Block 1 is the parent; blocks 2 and 3 are candidates of round 5 on the same height. *)
Definition example_parent : AckiNackiBlockState unit :=
  with_fact (with_fact (with_fact (with_fact (AckiNackiBlockState_new (example_block 1))
    block_seq_no 6%Z) descendant_bk_set example_keepers) block_time_ms 0%Z)
    producer_selector_data (mkProducerSelector (example_block 1) 0).
Definition example_candidate (n : Z) : AckiNackiBlockState unit :=
  with_fact (with_fact (with_fact (with_fact (AckiNackiBlockState_new (example_block n))
    block_seq_no 7%Z) block_height example_height) block_round 5%Z)
    parent_block_identifier (example_block 1).
Definition lock_repo : Repository unit :=
  <[example_block 1 := example_parent]>
    (<[example_block 2 := example_candidate 2]> (<[example_block 3 := example_candidate 3]> ∅)).
Definition example_rounds : RoundTime := mkRoundTime [] 330000000.
Definition no_locks : ActionLockCollection := mkLocks ∅ ∅.

(** The locks after block 2 was attested [now] milliseconds after the parent. *)
Definition locks_after (c : ActionLockCollection) (now : Z) (n : Z) : ActionLockCollection :=
  match try_lock_send_attestation_action example_rounds ∅ c lock_repo now (example_block n) with
  | Ok (c, _) => c
  | _ => c
  end.

Lemma lock_repo_get id :
  repo_get lock_repo id =
    if decide (id = example_block 1) then example_parent
    else if decide (id = example_block 2) then example_candidate 2
    else if decide (id = example_block 3) then example_candidate 3 else fresh_state id.
Proof.
  unfold repo_get, lock_repo. rewrite !lookup_insert, lookup_empty.
  repeat case_decide; subst; done.
Qed.

Lemma lock_repo_sane : sane_repo example_round_of lock_repo.
Proof.
  assert (∀ id, block_identifier (fresh_state (NackData := unit) id) = id ∧
                get (fresh_state (NackData := unit) id) block_round = None) as Hfresh
    by (intros id; unfold fresh_state; by case_decide).
  split; intros id; rewrite lock_repo_get.
  - repeat (case_decide; [by subst id|]). apply Hfresh.
  - intros rnd. repeat (case_decide; [by intros [= <-]|]). by rewrite (proj2 (Hfresh id)).
Qed.

Lemma example_attested :
  try_lock_send_attestation_action example_rounds ∅ no_locks lock_repo 3300 (example_block 2) =
    Ok (locks_after no_locks 3300 2, OkSendAttestation).
Proof. vm_compute. reflexivity. Qed.

Lemma no_locks_durable : durable no_locks.
Proof. intros h l. unfold no_locks. simpl. by rewrite lookup_empty. Qed.

Lemma attested_block_locked_witness :
  durable (locks_after no_locks 3300 2) ∧
  ∃ l, disk (locks_after no_locks 3300 2) !! example_height = Some (Some l) ∧
       locked_block l = Some (5%Z, mkBlockRef 7 (example_block 2)).
Proof.
  split; [|eexists; split; vm_compute; reflexivity].
  refine (proj1 (proj2 (proj2 (attested_block_locked example_rounds ∅ no_locks lock_repo 3300
    (example_block 2) _ no_locks_durable _ example_attested)))).
  split; reflexivity.
Defined.

Lemma example_in_time : in_time example_rounds lock_repo 3300 (example_block 2).
Proof.
  intros rnd parent keepers t local Hrnd Hpar Hk Ht Hloc.
  assert (rnd = 5%Z) as -> by (vm_compute in Hrnd; congruence).
  assert (parent = example_block 1) as -> by (vm_compute in Hpar; vm_compute; congruence).
  assert (t = 0%Z) as -> by (vm_compute in Ht; congruence).
  assert (keepers = example_keepers) as -> by (symmetry; injection Hk; done).
  vm_compute in Hloc. injection Hloc as <-. done.
Qed.

(** The round of height 7 is won by block 3 on top of the zero block. *)
Definition example_proposed : Envelope AckiNackiBlock :=
  mkEnvelope 1%Z ∅ (mkBlock (example_block 3) BlockIdentifier_default 7 example_thread 5
    (NodeId (AccountAddr [])) None example_height []).
#[local] Instance example_deserialize : Deserialize (Envelope AckiNackiBlock) :=
  λ _, Some example_proposed.
Definition success_repo : Repository unit :=
  <[BlockIdentifier_default := with_fact (with_fact (fresh_state BlockIdentifier_default)
     block_seq_no 0%Z) producer_selector_data (mkProducerSelector (example_block 1) 0)]> ∅.
Definition example_authority (c : ActionLockCollection) : ThreadAuthority :=
  mkAuthority c ∅ ∅ ∅ false 0.
Definition example_success : NextRoundSuccess :=
  mkNextRoundSuccess (NodeId (AccountAddr [])) 5 example_height
    (mkNetBlock (NodeId (AccountAddr [])) None example_thread (example_block 3) 7 []) None [].
Definition example_won : ActionLock :=
  mkActionLock (mkProducerSelector (example_block 1) 0) (mkBlockRef 0 BlockIdentifier_default) None
    5 (Some (5%Z, mkBlockRef 7 (example_block 3))) ∅.

Lemma example_history :
  rtc (lock_step (NackData := unit) elements example_round_of example_rounds ∅ example_height) (no_locks, [])
    (mkLocks ∅ (disk (locks_after no_locks 3300 2)), [example_block 2]).
Proof.
  eapply rtc_l; [|eapply rtc_once, step_restart; vm_compute; reflexivity].
  eapply (step_attest _ _ _ _ _ _ lock_repo 3300); [apply lock_repo_sane| |apply example_in_time|
    split; reflexivity|reflexivity|apply example_attested].
  intros l. unfold lookup_lock, no_locks. simpl. by rewrite !lookup_empty.
Qed.

Lemma no_two_attestations_in_one_round_witness :
  ∃ l rnd ref,
    lookup_lock (mkLocks ∅ (disk (locks_after no_locks 3300 2))) example_height = Some l ∧
    locked_block l = Some (rnd, ref) ∧ (example_round_of (example_block 2) ≤ locked_round l)%Z ∧
    ((example_round_of (example_block 2) < rnd)%Z ∨ example_block 2 = ref_block_identifier ref).
Proof.
  apply (no_two_attestations_in_one_round (NackData := unit) elements example_round_of example_rounds
    ∅ example_height no_locks _ [example_block 2]); [|exact example_history|by constructor].
  unfold lookup_lock, no_locks. simpl. by rewrite !lookup_empty.
Defined.

(** At the time of the parent itself round 5 is in the future. *)
Lemma example_candidate_ok n :
  n = 2%Z ∨ n = 3%Z → candidate example_height lock_repo (example_block n) 5 (example_block 1).
Proof. intros [-> | ->]; split; try reflexivity; [split; reflexivity|eexists; reflexivity|split; reflexivity|eexists; reflexivity]. Qed.

Lemma example_parent_ok :
  ready_parent example_rounds lock_repo (example_block 1) 0 (mkCalculateRoundResult 0 0).
Proof.
  split; [|eexists; reflexivity..]. exists example_keepers, 0%Z.
  split_and!; [reflexivity..|lia|vm_compute; reflexivity].
Qed.

Lemma future_round_attested_twice_witness : ∃ c1 c2,
  try_lock_send_attestation_action example_rounds ∅ no_locks lock_repo 0 (example_block 2) =
    Ok (c1, OkSendAttestation) ∧
  try_lock_send_attestation_action example_rounds ∅ c1 lock_repo 0 (example_block 3) =
    Ok (c2, OkSendAttestation).
Proof.
  apply (future_round_attested_twice example_round_of example_rounds ∅ example_height no_locks
    lock_repo 0 (example_block 2) (example_block 3) 5 5 (example_block 1)
    (mkCalculateRoundResult 0 0)).
  - apply example_candidate_ok. by left.
  - apply example_candidate_ok. by right.
  - exact example_parent_ok.
  - done.
  - unfold lookup_lock, no_locks. simpl. by rewrite !lookup_empty.
  - exact lock_repo_sane.
Defined.

Lemma example_success_step :
  on_next_round_success elements (example_authority no_locks) success_repo example_success =
    Ok (example_authority (mkLocks {[example_height := Some example_won]} ∅), success_repo).
Proof.
  unfold on_next_round_success. vm_compute NetBlock_get_envelope.
  reflexivity.
Qed.

Lemma next_round_success_effect_witness :
  disk (action_lock (example_authority (mkLocks {[example_height := Some example_won]} ∅))) =
  disk (action_lock (example_authority no_locks)).
Proof.
  exact (proj1 (next_round_success_effect elements _ success_repo example_success _ success_repo
    example_success_step)).
Defined.

(** The lock that a closed round leaves is in memory only: after a restart the node attests a
    second block of the round. *)
Lemma closed_round_lock_lost_at_restart :
  let won := mkLocks {[example_height := Some example_won]} ∅ in
  try_lock_send_attestation_action example_rounds ∅ won lock_repo 3300 (example_block 3) =
    Ok (won, OkSendAttestation) ∧
  try_lock_send_attestation_action example_rounds ∅ (mkLocks ∅ (disk won)) lock_repo 3300 (example_block 2) =
    Ok (locks_after no_locks 3300 2, OkSendAttestation) ∧
  example_round_of (example_block 2) = example_round_of (example_block 3).
Proof. cbv zeta. split_and!; [vm_compute; reflexivity|exact example_attested|reflexivity]. Qed.
End lock_witnesses.
