(* ===== verification/NextRound.v ===== *)
(** * Requests for the next round

    Models [ThreadAuthority::on_next_round_incoming_request] of
    [protocol/authority_switch/action_lock.rs]: a node that is named as the next authority
    collects signed locks, and once a majority of the block keepers has sent one it closes the
    round, by broadcasting the locked block of the highest round or by producing a new block.

    An early return is an [Err]; the blocks known to the node are two lookup functions, the
    cache of unprocessed blocks and the repository of finalized blocks.  [bp_production_count],
    the keys and the shutdown flag are those of the call.  Sending to the producer service
    succeeds. *)
From stdpp Require Import base numbers gmap strings fin_maps sorting list.
From S2P Require Import Prelude Identifiers Bls BlockKeepers Envelope Attestation Checkpoints Statistics BlockState RoundTime ActionLock.

(** [as i32] *)
Definition as_i32 (z : Z) : Z := ((z + 2 ^ 31) mod 2 ^ 32 - 2 ^ 31)%Z.
Definition div_ceil (a b : Z) : Z := ((a + b - 1) / b)%Z.

Record StartBlockProducerThreadInitialParameters `{Blst} := mkStartParameters {
  start_thread_identifier : ThreadIdentifier;
  start_parent_block_identifier : BlockIdentifier;
  start_parent_block_seq_no : BlockSeqNo;
  start_round : BlockRound;
  start_nacked_blocks_bad_block : list (Envelope AckiNackiBlock);
  start_proof_of_valid_start : list (Envelope Lock);
}.

Section incoming.
Context `{Blst} {NackData : Type} `{EqDecision NackData}.
Context `{Serialize Lock} `{Serialize NextRoundSuccess} `{Serialize (Envelope AckiNackiBlock)}.
Variable set_iter : gset BlockIdentifier → list BlockIdentifier.
Variable cfg : AuthorityConfig.
Variable get_block_by_id : BlockIdentifier → option (Envelope AckiNackiBlock).
Variable get_finalized_block : BlockIdentifier → outcome unit (option (Envelope AckiNackiBlock)).

Inductive OnNextRoundIncomingRequestResult :=
  | DoNothing
  | StartingBlockProducer (command : StartBlockProducerThreadInitialParameters)
  | Broadcast (e : Envelope NextRoundSuccess)
  | Reject (reject : NextRoundReject) (node : NodeIdentifier)
  | RejectTooOldRequest (node : NodeIdentifier).

Definition get_block {E} (id : BlockIdentifier) : outcome E (option (Envelope AckiNackiBlock)) :=
  match get_block_by_id id with
  | Some block => Ok (Some block)
  | None => unwrap_ok (get_finalized_block id)
  end.

(** ** Admission of a request *)
(** The sender: the request has a single signature, by a block keeper of the height. *)
Definition check_request (r : Repository NackData) (m : NextRound) :
    outcome OnNextRoundIncomingRequestResult (BlockKeeperSet * NodeIdentifier) :=
  let signers := elements (dom (Envelope_clone_signature_occurrences (lock m))) in
  let parent := repo_get r (lock_parent_block (data (lock m))) in
  ensure (bool_decide (length signers = 1)) DoNothing ≫= λ _,
  unwrap (head signers) ≫= λ signer,
  ensure (is_prefinalized parent || is_finalized parent) DoNothing ≫= λ _,
  ensure (negb (is_invalidated parent)) DoNothing ≫= λ _,
  ensure (has_all_nacks_resolved parent) DoNothing ≫= λ _,
  ok_or (get parent descendant_bk_set) DoNothing ≫= λ keepers,
  match Envelope_verify_signatures (lock m) (BlockKeeperSet_get_pubkeys_by_signers keepers) with
  | Ok true => Ok tt
  | Panic => Panic
  | _ => Err DoNothing
  end ≫= λ _,
  ok_or (BlockKeeperSet_get_by_signer keepers signer) DoNothing ≫= λ k,
  Ok (keepers, node_id k).

(** A block of the height that is already prefinalized settles the request. *)
Definition check_not_prefinalized (r : Repository NackData) (m : NextRound)
    (sender : NodeIdentifier) : outcome OnNextRoundIncomingRequestResult unit :=
  let l := data (lock m) in
  let thread := Identifiers.thread_identifier (lock_height l) in
  unwrap_ok (find_next_prefinalized set_iter r (lock_parent_block l) thread) ≫= λ found,
  match found with
  | None => Ok tt
  | Some id =>
      let s := repo_get r id in
      let missing := if is_finalized s then RejectTooOldRequest sender else DoNothing in
      get_block (block_identifier s) ≫= λ available,
      ensure (bool_decide (is_Some available)) missing ≫= λ _,
      match get_block_by_id (block_identifier s) with
      | Some block => Ok block
      | None =>
          match get_finalized_block (block_identifier s) with
          | Ok (Some block) => Ok block
          | Panic => Panic
          | _ => Err missing
          end
      end ≫= λ block,
      unwrap (NetBlock_with_envelope block) ≫= λ net,
      unwrap (get s prefinalization_proof) ≫= λ proof,
      Err (Reject (mkNextRoundReject thread net proof) sender)
  end.

(** ** The collection of requests *)
Definition round_key (m : NextRound) (r : Repository NackData) : SiblingsBlockHeightKey * BlockRound :=
  let l := data (lock m) in
  (mkSiblingsKey (block_identifier (repo_get r (lock_parent_block l))) (lock_height l),
   lock_locked_round l).

Definition with_request (a : ThreadAuthority) (key : SiblingsBlockHeightKey * BlockRound)
    (m : NextRound) : ThreadAuthority :=
  mkAuthority (action_lock a) (confirmed_bad_block_nacks a)
    (<[key := default [] (collecting_next_round a !! key) ++ [m]]> (collecting_next_round a))
    (closed_round a) (block_producers a) (last_node_joining_sent a).

Definition with_closed_round (a : ThreadAuthority) (key : SiblingsBlockHeightKey)
    (rnd : BlockRound) : ThreadAuthority :=
  mkAuthority (action_lock a) (confirmed_bad_block_nacks a) (collecting_next_round a)
    (<[key := rnd]> (closed_round a)) (block_producers a) (last_node_joining_sent a).

(** The voters, and the attestations of the requests that brought a new one. *)
Fixpoint collect_votes (requests : list NextRound) (voters : gset Z)
    (attestations : list (Envelope AttestationData)) : gset Z * list (Envelope AttestationData) :=
  match requests with
  | [] => (voters, attestations)
  | e :: requests =>
      let signatures := dom (Envelope_clone_signature_occurrences (lock e)) in
      if bool_decide (signatures ⊆ voters) then collect_votes requests voters attestations
      else collect_votes requests (voters ∪ signatures)
             (attestations ++ option_list (locked_block_attestation e))
  end.

Definition votes_target (keepers : BlockKeeperSet) : Z :=
  div_ceil (Z.of_nat (BlockKeeperSet_len keepers) + 1) 2.

(** The known locked block of the highest round, and how many requests lock no block. *)
Fixpoint find_max_locked {E} (requests : list NextRound)
    (best : option (Envelope AckiNackiBlock * BlockRound)) (locked_none_count : nat) :
    outcome E (option (Envelope AckiNackiBlock * BlockRound) * nat) :=
  match requests with
  | [] => Ok (best, locked_none_count)
  | e :: requests =>
      match lock_locked_block (data (lock e)) with
      | None => find_max_locked requests best (S locked_none_count)
      | Some id =>
          get_block id ≫= λ block,
          match block with
          | None => find_max_locked requests best locked_none_count
          | Some block =>
              let rnd := blk_round (data block) in
              let better :=
                match best with Some (_, max) => bool_decide (max < rnd)%Z | None => true end in
              find_max_locked requests (if better then Some (block, rnd) else best)
                locked_none_count
          end
      end
  end.

(** ** Closing the round *)
Fixpoint aggregate_attestations {E} (d : AttestationData)
    (attestations : list (Envelope AttestationData))
    (aggregated : option (Envelope AttestationData)) :
    outcome E (option (Envelope AttestationData)) :=
  match attestations with
  | [] => Ok aggregated
  | attestation :: attestations =>
      if bool_decide (data attestation ≠ d) then aggregate_attestations d attestations aggregated
      else
        match aggregated with
        | None => aggregate_attestations d attestations (Some attestation)
        | Some e =>
            merge_occurrences (signature_occurrences e) (signature_occurrences attestation)
            ≫= λ occ,
            unwrap_ok (GoshBLS_merge (aggregated_signature e) (aggregated_signature attestation))
            ≫= λ sig,
            aggregate_attestations d attestations (Some (Envelope_create sig occ d))
        end
  end.

(** The best known locked block is sent again, with the attestations collected for it.  A
    failure to seal sets the shutdown flag, which a missing secret has set already. *)
Definition broadcast_block (r : Repository NackData) (m : NextRound) (keepers : BlockKeeperSet)
    (attestations : list (Envelope AttestationData)) (block : Envelope AckiNackiBlock) :
    outcome OnNextRoundIncomingRequestResult OnNextRoundIncomingRequestResult :=
  let l := data (lock m) in
  let status := repo_get r (blk_identifier (data block)) in
  ensure (has_all_nacks_resolved status && negb (is_invalidated status)) DoNothing ≫= λ _,
  unwrap (get status envelope_hash) ≫= λ hash,
  let d := mkAttestationData (blk_parent (data block)) (blk_identifier (data block))
    (blk_seq_no (data block)) hash Primary in
  aggregate_attestations d attestations None ≫= λ aggregated,
  unwrap (NetBlock_with_envelope block) ≫= λ net,
  match Envelope_sealed (shutdown_flag cfg) (node_identifier cfg) keepers (bls_keys_map cfg)
          (mkNextRoundSuccess (node_identifier cfg) (lock_locked_round l) (lock_height l) net
             aggregated []) with
  | Ok envelope => Ok (Broadcast envelope)
  | Panic | Err SecretMissing => Panic
  | Err _ => if shutdown_flag cfg then Panic else Ok DoNothing
  end.

(** The nacked blocks are handed to the producer; an unknown one panics. *)
Fixpoint nacked_blocks {E} (ids : list BlockIdentifier) :
    outcome E (list (Envelope AckiNackiBlock)) :=
  match ids with
  | [] => Ok []
  | id :: ids =>
      match get_block_by_id id with
      | Some block => Ok block
      | None =>
          match get_finalized_block id with Ok (Some block) => Ok block | _ => Panic end
      end ≫= λ block, (λ blocks, block :: blocks) <$> nacked_blocks ids
  end.

(** A new block is produced if there is enough time for it. *)
Definition start_producer (a : ThreadAuthority) (r : Repository NackData) (now : Z) (m : NextRound)
    (keepers : BlockKeeperSet) (nacks : gset BlockIdentifier) :
    outcome OnNextRoundIncomingRequestResult OnNextRoundIncomingRequestResult :=
  let l := data (lock m) in
  let parent := repo_get r (lock_parent_block l) in
  ok_or (get parent block_time_ms) DoNothing ≫= λ parent_block_time,
  ensure (bool_decide (parent_block_time ≤ now)%Z) DoNothing ≫= λ _,
  unwrap_ok (local_round_at (config_round_buckets cfg) keepers parent_block_time now) ≫= λ local,
  ensure (bool_decide (round local ≤ lock_locked_round l)%Z &&
          bool_decide (330000000 ≤ round_remaining_time local)%Z) DoNothing ≫= λ _,
  assert_that (block_producers a) ≫= λ _,
  unwrap (get parent block_seq_no) ≫= λ seq_no,
  nacked_blocks (set_iter nacks) ≫= λ blocks,
  Ok (StartingBlockProducer (mkStartParameters _
        (Identifiers.thread_identifier (lock_height l)) (block_identifier parent) seq_no
        (lock_locked_round l) blocks [])).

(** [collected_requests] with the nacks this node has confirmed. *)
Definition same_nacks (nacks : gset BlockIdentifier) (requests : list NextRound) : list NextRound :=
  filter (λ e, lock_nack_bad_block (data (lock e)) = nacks) requests.

(** The vote: what happens before the round is closed. *)
Definition count_votes (m : NextRound) (keepers : BlockKeeperSet) (requests : list NextRound) :
    outcome OnNextRoundIncomingRequestResult
      (option (Envelope AckiNackiBlock) * list (Envelope AttestationData)) :=
  let '(voters, attestations) := collect_votes requests ∅ [] in
  ensure (bool_decide (votes_target keepers ≤ Z.of_nat (size voters))%Z) DoNothing ≫= λ _,
  find_max_locked requests None 0 ≫= λ '(best, locked_none_count),
  ensure (bool_decide (best ≠ None) ||
          bool_decide (votes_target keepers ≤ Z.of_nat locked_none_count)%Z) DoNothing ≫= λ _,
  let n := Z.of_nat (BlockKeeperSet_len keepers) in
  assert_that (bool_decide (n ≠ 0%Z)) ≫= λ _,
  ensure (bool_decide (bp_production_count cfg <
            as_i32 (div_ceil (lock_locked_round (data (lock m))) n))%Z) DoNothing ≫= λ _,
  Ok (fst <$> best, attestations).

(** The state after an early return or a result. *)
Definition finish (a : ThreadAuthority)
    (o : outcome OnNextRoundIncomingRequestResult OnNextRoundIncomingRequestResult) :
    outcome Empty_set (ThreadAuthority * OnNextRoundIncomingRequestResult) :=
  match o with
  | Ok result | Err result => Ok (a, result)
  | Panic => Panic
  end.

Definition vote_and_close (a : ThreadAuthority) (r : Repository NackData) (now : Z)
    (m : NextRound) (keepers : BlockKeeperSet) :
    outcome Empty_set (ThreadAuthority * OnNextRoundIncomingRequestResult) :=
  let l := data (lock m) in
  let key := round_key m r in
  let nacks := default ∅
    (confirmed_bad_block_nacks a !! mkSiblingsKey (lock_parent_block l) (lock_height l)) in
  let requests := same_nacks nacks (default [] (collecting_next_round a !! key)) in
  match count_votes m keepers requests with
  | Panic => Panic
  | Err result => Ok (a, result)
  | Ok (max_locked_block, attestations) =>
      let a := with_closed_round a key.1 (lock_locked_round l) in
      finish a
        match max_locked_block with
        | Some block => broadcast_block r m keepers attestations block
        | None => start_producer a r now m keepers nacks
        end
  end.

Definition on_next_round_incoming_request (a : ThreadAuthority) (r : Repository NackData)
    (now : Z) (m : NextRound) :
    outcome Empty_set (ThreadAuthority * OnNextRoundIncomingRequestResult) :=
  let l := data (lock m) in
  let key := round_key m r in
  match check_request r m ≫= λ '(keepers, sender),
        check_not_prefinalized r m sender ≫= λ _, Ok keepers with
  | Panic => Panic
  | Err result => Ok (a, result)
  | Ok keepers =>
      let '(c, current_lock) := ActionLockCollection_get (action_lock a) (lock_height l) r in
      let a := with_action_lock a c in
      if from_option (λ current, bool_decide (lock_locked_round l < locked_round current)%Z)
           false current_lock then Ok (a, DoNothing)
      else if from_option (λ closed, bool_decide (lock_locked_round l ≤ closed)%Z)
                false (closed_round a !! key.1) then Ok (a, DoNothing)
      else if bool_decide (lock_next_auth_node_id l ≠ node_identifier cfg) then Ok (a, DoNothing)
      else vote_and_close (with_request a key m) r now m keepers
  end.
End incoming.
Arguments OnNextRoundIncomingRequestResult {_}.

(** ** Rounds are closed by a majority, once *)
Section voting.
Context `{Blst} {NackData : Type} `{EqDecision NackData}.
Context `{Serialize Lock} `{Serialize NextRoundSuccess} `{Serialize (Envelope AckiNackiBlock)}.
Implicit Types (a : ThreadAuthority) (r : Repository NackData) (m e : NextRound).

Lemma collect_votes_voters requests voters attestations :
  (collect_votes requests voters attestations).1 =
    voters ∪ ⋃ ((λ e, Envelope_signers (lock e)) <$> requests).
Proof.
  revert voters attestations. induction requests as [|e requests IH]; intros voters attestations;
    cbn [collect_votes]; [simpl; set_solver|].
  rewrite fmap_cons, union_list_cons. unfold Envelope_clone_signature_occurrences, Envelope_signers at 1.
  case_bool_decide; rewrite IH; set_solver.
Qed.

Lemma votes_target_majority keepers (n : nat) :
  (votes_target keepers ≤ Z.of_nat n)%Z ↔ BlockKeeperSet_len keepers < 2 * n.
Proof.
  unfold votes_target, div_ceil. set (x := (Z.of_nat (BlockKeeperSet_len keepers) + 1 + 2 - 1)%Z).
  pose proof (Z.div_mod x 2 ltac:(lia)). pose proof (Z.mod_pos_bound x 2 ltac:(lia)). lia.
Qed.

(** A lock signed by exactly one keeper of [keepers]. *)
Definition vote_of (keepers : BlockKeeperSet) (v : Z) (l : Envelope Lock) : Prop :=
  Envelope_signers l = {[v]} ∧ is_Some (by_signer keepers !! v) ∧
  Envelope_verify_signatures l (BlockKeeperSet_get_pubkeys_by_signers keepers) = Ok true.

Lemma check_request_spec r m keepers sender :
  check_request r m = Ok (keepers, sender) →
  get (repo_get r (lock_parent_block (data (lock m)))) descendant_bk_set = Some keepers ∧
  ∃ v, vote_of keepers v (lock m).
Proof.
  unfold check_request, vote_of, Envelope_clone_signature_occurrences, Envelope_signers.
  set (X := dom (signature_occurrences (lock m))).
  intros (? & Hlen & Hrest)%outcome_bind_Ok. unfold ensure in Hlen. case_bool_decide as Hl; [|done].
  apply outcome_bind_Ok in Hrest as (v & Hv & Hrest).
  assert (X = {[v]}) as HX.
  { destruct (elements X) as [|v' [|]] eqn:HelX; try done. injection Hv as ->.
    apply set_eq. intros z. rewrite <- elem_of_elements, HelX. set_solver. }
  do 3 (apply outcome_bind_Ok in Hrest as (? & ? & Hrest)).
  apply outcome_bind_Ok in Hrest as (keepers' & Hk & Hrest).
  apply outcome_bind_Ok in Hrest as (? & Hver & Hrest).
  apply outcome_bind_Ok in Hrest as (k & Hget & Hrest). injection Hrest as <- <-.
  destruct (get _ descendant_bk_set) as [k0|]; [|done]. injection Hk as <-.
  split; [done|]. exists v. split_and!; [done| |].
  - unfold BlockKeeperSet_get_by_signer in Hget. destruct (by_signer _ !! v); [done|]. done.
  - destruct (Envelope_verify_signatures _ _) as [[]| |]; done.
Qed.

Variable cfg : AuthorityConfig.
Variable get_block_by_id : BlockIdentifier → option (Envelope AckiNackiBlock).
Variable get_finalized_block : BlockIdentifier → outcome unit (option (Envelope AckiNackiBlock)).
(** The block keepers of the height after a block. *)
Variable keepers_of : BlockIdentifier → BlockKeeperSet.

(** A request that the node may count for a round of a height. *)
Definition counted (key : SiblingsBlockHeightKey * BlockRound) e : Prop :=
  let l := data (lock e) in
  lock_parent_block l = siblings_parent_block_identifier key.1 ∧
  lock_height l = siblings_height key.1 ∧ lock_locked_round l = key.2 ∧
  lock_next_auth_node_id l = node_identifier cfg ∧
  ∃ v, vote_of (keepers_of (lock_parent_block l)) v (lock e).

Definition collected_ok a : Prop := map_Forall (λ key requests, Forall (counted key) requests)
  (collecting_next_round a).

(** The store is keyed by block and records the keepers. *)
Definition keepers_repo r : Prop :=
  (∀ id, block_identifier (repo_get r id) = id) ∧
  (∀ id k, get (repo_get r id) descendant_bk_set = Some k → k = keepers_of id).

(** More than half of the keepers after [parent] have signed a lock of this round that names
    the node as the next authority. *)
Definition majority a (key : SiblingsBlockHeightKey * BlockRound) : Prop :=
  let keepers := keepers_of (siblings_parent_block_identifier key.1) in
  ∃ voters : gset Z, voters ⊆ dom (by_signer keepers) ∧
    BlockKeeperSet_len keepers < 2 * size voters ∧
    ∀ v, v ∈ voters → ∃ e, e ∈ default [] (collecting_next_round a !! key) ∧
      counted key e ∧ vote_of keepers v (lock e).

Variable set_iter : gset BlockIdentifier → list BlockIdentifier.
#[local] Notation handle a r now m :=
  (on_next_round_incoming_request set_iter cfg get_block_by_id get_finalized_block a r now m).

Definition is_action (res : OnNextRoundIncomingRequestResult) : bool :=
  match res with Broadcast _ | StartingBlockProducer _ => true | _ => false end.

Lemma find_max_locked_total {E} requests best n (e : E) :
  find_max_locked get_block_by_id get_finalized_block requests best n ≠ Err e.
Proof.
  revert best n. induction requests as [|x requests IH]; intros best n; cbn [find_max_locked]; [done|].
  destruct (lock_locked_block _) as [id|]; [|apply IH].
  unfold get_block. destruct (get_block_by_id id); simpl; [apply IH|].
  destruct (get_finalized_block id) as [[?|]| |]; simpl; done || apply IH.
Qed.

Lemma count_votes_spec m keepers requests :
  match count_votes cfg get_block_by_id get_finalized_block m keepers requests with
  | Ok _ => BlockKeeperSet_len keepers <
              2 * size (⋃ ((λ e, Envelope_signers (lock e)) <$> requests))
  | Err res => res = DoNothing
  | Panic => True
  end.
Proof.
  pose proof (collect_votes_voters requests ∅ []) as Hv. rewrite (left_id_L ∅ (∪)) in Hv.
  unfold count_votes. destruct (collect_votes requests ∅ []) as [voters attestations].
  simpl in Hv. subst voters.
  destruct (bool_decide (votes_target keepers ≤ Z.of_nat _)%Z) eqn:Htarget; [|done].
  apply bool_decide_eq_true, votes_target_majority in Htarget.
  destruct (find_max_locked _ _ requests None 0) as [[best n]|res|] eqn:Hmax; simpl.
  - destruct (_ || _); simpl; [|done]. destruct (bool_decide (_ ≠ _)); simpl; [|done].
    by destruct (bool_decide _).
  - by apply find_max_locked_total in Hmax.
  - done.
Qed.

Lemma same_nacks_sub nacks requests e : e ∈ same_nacks nacks requests → e ∈ requests.
Proof. unfold same_nacks. rewrite list_elem_of_filter. tauto. Qed.

(** The signers of requests counted for one round are keepers of its height. *)
Lemma counted_voters key requests :
  Forall (counted key) requests →
  ⋃ ((λ e, Envelope_signers (lock e)) <$> requests) ⊆
    dom (by_signer (keepers_of (siblings_parent_block_identifier key.1))) ∧
  ∀ v, v ∈ ⋃ ((λ e, Envelope_signers (lock e)) <$> requests) → ∃ e, e ∈ requests ∧
    counted key e ∧ vote_of (keepers_of (siblings_parent_block_identifier key.1)) v (lock e).
Proof.
  intros Hall.
  assert (∀ v, v ∈ ⋃ ((λ e, Envelope_signers (lock e)) <$> requests) → ∃ e, e ∈ requests ∧
    counted key e ∧ vote_of (keepers_of (siblings_parent_block_identifier key.1)) v (lock e)) as Hv.
  { intros v (X & HX & Hin)%elem_of_union_list. apply list_elem_of_fmap in HX as (e & -> & He).
    rewrite Forall_forall in Hall. pose proof (Hall e He) as Hc.
    destruct Hc as (Hpar & _ & _ & _ & v' & Hvote). exists e. split_and!; [done|by apply Hall|].
    rewrite <- Hpar. destruct Hvote as (Hs & Hrest). rewrite Hs in Hin.
    apply elem_of_singleton in Hin as ->. by split. }
  split; [|done]. intros v Hin. destruct (Hv v Hin) as (e & _ & _ & _ & Hk & _).
  by apply elem_of_dom.
Qed.

(** *** Early returns *)
Definition returns {E A} (P : E → Prop) (o : outcome E A) : Prop := ∀ x, o = Err x → P x.

Lemma returns_bind {E A B} (P : E → Prop) (o : outcome E A) (f : A → outcome E B) :
  returns P o → (∀ x, returns P (f x)) → returns P (o ≫= f).
Proof. intros Ho Hf x. destruct o; simpl; [apply Hf|intros [= <-]; by apply Ho|done]. Qed.
Lemma returns_ensure {E} (P : E → Prop) b x : P x → returns P (ensure b x).
Proof. intros HP y. destruct b; simpl; [done|by intros [= <-]]. Qed.
Lemma returns_ok_or {E A} (P : E → Prop) (o : option A) x : P x → returns P (ok_or o x).
Proof. intros HP y. destruct o; simpl; [done|by intros [= <-]]. Qed.
Lemma returns_unwrap {E A} (P : E → Prop) (o : option A) : returns P (unwrap o).
Proof. by destruct o. Qed.
Lemma returns_unwrap_ok {E E' A} (P : E → Prop) (o : outcome E' A) : returns P (unwrap_ok o).
Proof. by destruct o. Qed.
Lemma returns_Ok {E A} (P : E → Prop) (x : A) : returns P (Ok x).
Proof. done. Qed.
Lemma returns_Err {E A} (P : E → Prop) (x : E) : P x → returns P (Err (A := A) x).
Proof. by intros ? ? [= <-]. Qed.
#[local] Hint Resolve returns_bind returns_ensure returns_ok_or returns_unwrap returns_unwrap_ok
  returns_Ok returns_Err : returns.

(** A request that is turned away neither broadcasts nor starts a producer. *)
Lemma check_request_returns r m : returns (λ res, is_action res = false) (check_request r m).
Proof.
  unfold check_request. repeat (apply returns_bind; [|intros ?]); auto with returns.
  by destruct (Envelope_verify_signatures _ _) as [[]| |]; auto with returns.
Qed.

Lemma check_not_prefinalized_returns r m sender :
  returns (λ res, is_action res = false)
    (check_not_prefinalized set_iter get_block_by_id get_finalized_block r m sender).
Proof.
  unfold check_not_prefinalized. apply returns_bind; [auto with returns|]. intros [id|]; [|done].
  set (missing := if is_finalized (repo_get r id) then RejectTooOldRequest sender else DoNothing).
  assert (is_action missing = false) by (unfold missing; by destruct (is_finalized _)).
  repeat (apply returns_bind; [|intros ?]); auto with returns.
  - unfold get_block. destruct (get_block_by_id _); auto with returns.
  - destruct (get_block_by_id _); [auto with returns|].
    destruct (get_finalized_block _) as [[?|]| |]; auto with returns. done.
Qed.

(** What one call does to the rounds of a height. *)
Definition round_effect a a' (key : SiblingsBlockHeightKey * BlockRound)
    (res : OnNextRoundIncomingRequestResult) : Prop :=
  (closed_round a' = closed_round a ∧ is_action res = false) ∨
  (closed_round a' = <[key.1 := key.2]> (closed_round a) ∧ majority a' key).

Lemma vote_and_close_spec a r now m a' res :
  keepers_repo r → collected_ok a →
  vote_and_close set_iter cfg get_block_by_id get_finalized_block a r now m
    (keepers_of (lock_parent_block (data (lock m)))) = Ok (a', res) →
  collecting_next_round a' = collecting_next_round a ∧ round_effect a a' (round_key m r) res.
Proof.
  intros [Hkeyed _] Hok. unfold vote_and_close.
  set (keepers := keepers_of _). set (key := round_key m r).
  set (requests := same_nacks _ _). pose proof (count_votes_spec m keepers requests) as Hcount.
  destruct (count_votes _ _ _ m keepers requests) as [[best atts]|res0|]; [|intros [= <- <-]; subst res0; by split; [|left]|done].
  assert (Forall (counted key) (default [] (collecting_next_round a !! key))) as Hall.
  { destruct (collecting_next_round a !! key) as [l|] eqn:Hl; [by apply (Hok key)|constructor]. }
  assert (Forall (counted key) requests) as Hreq.
  { rewrite Forall_forall in *. intros e He. by eapply Hall, same_nacks_sub. }
  assert (∀ a1, collecting_next_round a1 = collecting_next_round a → majority a1 key) as Hmaj.
  { intros a1 Ha1. destruct (counted_voters key requests Hreq) as [Hsub Hv].
    unfold majority. rewrite Ha1.
    assert (keepers_of (siblings_parent_block_identifier key.1) = keepers) as Hk.
    { unfold keepers, key, round_key. simpl. by rewrite Hkeyed. }
    rewrite Hk in *. eexists. split; [exact Hsub|]. split; [exact Hcount|].
    intros v Hin. destruct (Hv v Hin) as (e & He & Hc & Hvote).
    exists e. split_and!; [by eapply same_nacks_sub|done..]. }
  unfold finish. destruct (match best with Some _ => _ | None => _ end) as [res1|res1|]; [| |done];
    intros [= <- <-]; (split; [done|]); right; (split; [done|]); by apply Hmaj.
Qed.

(** Adding a checked request keeps the collection in order. *)
Lemma with_request_ok a r m :
  keepers_repo r → collected_ok a →
  (∃ v, vote_of (keepers_of (lock_parent_block (data (lock m)))) v (lock m)) →
  lock_next_auth_node_id (data (lock m)) = node_identifier cfg →
  collected_ok (with_request a (round_key m r) m).
Proof.
  intros [Hkeyed _] Hok Hvote Hauth key requests. simpl. rewrite lookup_insert_Some.
  intros [[<- <-]|[_ Hin]]; [|by apply Hok]. apply Forall_app. split.
  - destruct (collecting_next_round a !! _) as [l|] eqn:Hl; [by apply (Hok _ _ Hl)|constructor].
  - apply Forall_singleton. unfold counted, round_key. simpl. by rewrite Hkeyed.
Qed.

Lemma incoming_request_effect a r now m a' res :
  keepers_repo r → collected_ok a →
  handle a r now m = Ok (a', res) →
  collected_ok a' ∧ round_effect a a' (round_key m r) res ∧
  ∀ old, closed_round a !! (round_key m r).1 = Some old → ((round_key m r).2 ≤ old)%Z →
    closed_round a' = closed_round a ∧ collecting_next_round a' = collecting_next_round a ∧
    is_action res = false.
Proof.
  intros Hrepo Hok. unfold on_next_round_incoming_request.
  destruct (check_request r m ≫= _) as [keepers|res0|] eqn:Hcheck; [| |done].
  2:{ intros [= <- <-]. cut (is_action res0 = false).
      { intros Hno. split; [done|]. split; [by left|done]. }
      revert Hcheck. apply (returns_bind (λ res, is_action res = false)).
      - apply check_request_returns.
      - intros [keepers sender]. apply returns_bind; [|done]. apply check_not_prefinalized_returns. }
  apply outcome_bind_Ok in Hcheck as ([keepers' sender] & Hreq & Hpre).
  apply outcome_bind_Ok in Hpre as (? & _ & [= ->]).
  destruct (check_request_spec _ _ _ _ Hreq) as [Hk Hvote].
  pose proof (proj2 Hrepo _ _ Hk) as ->.
  destruct (ActionLockCollection_get _ _ _) as [c current].
  assert (collected_ok (with_action_lock a c)) as Hok1 by exact Hok.
  assert (∀ a1, Ok (E := Empty_set) (with_action_lock a c, DoNothing) = Ok (a1, res) → 
    collected_ok a1 ∧ round_effect a a1 (round_key m r) res ∧
    ∀ old, closed_round a !! (round_key m r).1 = Some old → ((round_key m r).2 ≤ old)%Z →
      closed_round a1 = closed_round a ∧ collecting_next_round a1 = collecting_next_round a ∧
      is_action res = false) as Hnothing.
  { intros a1 [= <- <-]. split; [done|]. split; [by left|done]. }
  destruct (from_option _ false current); [apply Hnothing|].
  destruct (from_option _ false (closed_round _ !! _)) eqn:Hclosed; [apply Hnothing|].
  case_bool_decide as Hauth; [apply Hnothing|].
  intros Hvc. pose proof (with_request_ok _ r m Hrepo Hok1 Hvote Hauth) as Hok2.
  destruct (vote_and_close_spec _ _ _ _ _ _ Hrepo Hok2 Hvc) as [Hcoll Heff].
  split; [unfold collected_ok; by rewrite Hcoll|]. split; [exact Heff|].
  intros old Hold Hle. exfalso. cbn [closed_round with_action_lock] in Hclosed. rewrite Hold in Hclosed.
  simpl in Hclosed. apply bool_decide_eq_false in Hclosed. simpl in Hle. lia.
Qed.

(** C26 (on_next_round_incoming_request): a round is closed by a majority and only once.  The
    node only ever collects requests that one keeper of the height has validly signed and that
    name this node as the next authority.  A call either leaves the closed rounds alone, and
    then neither broadcasts nor starts a producer, or closes exactly the requested round of
    the requested height, and more than half of the keepers have each sent a validly signed
    lock of this round.  A request for a round that is not above the one closed last on its
    parent and height changes neither the closed rounds nor the collected requests and neither
    broadcasts nor starts a producer.  Assumed: states are stored under their identifiers and
    record the keepers of their block, and the requests collected so far are in order. *)
Theorem round_closed_by_majority a r now m a' res :
  keepers_repo r → collected_ok a →
  handle a r now m = Ok (a', res) →
  collected_ok a' ∧ round_effect a a' (round_key m r) res ∧
  ∀ old, closed_round a !! (round_key m r).1 = Some old → ((round_key m r).2 ≤ old)%Z →
    closed_round a' = closed_round a ∧ collecting_next_round a' = collecting_next_round a ∧
    is_action res = false.
Proof. apply incoming_request_effect. Qed.
End voting.

(** ** Quorums intersect *)
Section quorum.
Context `{Blst} {NackData : Type} `{EqDecision NackData}.
Context `{Serialize Lock} `{Serialize NextRoundSuccess} `{Serialize (Envelope AckiNackiBlock)}.

Lemma majorities_intersect (D V1 V2 : gset Z) :
  V1 ⊆ D → V2 ⊆ D → size D < 2 * size V1 → size D < 2 * size V2 → ∃ v, v ∈ V1 ∧ v ∈ V2.
Proof.
  intros Hs1 Hs2 Hn1 Hn2. destruct (decide (V1 ## V2)) as [Hdisj|Hn].
  - pose proof (size_union V1 V2 Hdisj). pose proof (subseteq_size (V1 ∪ V2) D). set_solver by lia.
  - destruct (set_choose_or_empty (V1 ∩ V2)) as [[v Hv]|He]; [set_solver|set_solver].
Qed.

Variable keepers_of : BlockIdentifier → BlockKeeperSet.

(** A node that is sound and closes a round: its configuration, its lookup functions and the
    call that makes it broadcast a block or start producing one. *)
Record closing := mkClosing {
  closing_cfg : AuthorityConfig;
  closing_by_id : BlockIdentifier → option (Envelope AckiNackiBlock);
  closing_finalized : BlockIdentifier → outcome unit (option (Envelope AckiNackiBlock));
  closing_iter : gset BlockIdentifier → list BlockIdentifier;
  closing_before : ThreadAuthority;
  closing_repo : Repository NackData;
  closing_now : Z;
  closing_request : NextRound;
  closing_after : ThreadAuthority;
  closing_result : OnNextRoundIncomingRequestResult;
}.
Definition closes (x : closing) : Prop :=
  keepers_repo keepers_of (closing_repo x) ∧
  collected_ok (closing_cfg x) keepers_of (closing_before x) ∧
  on_next_round_incoming_request (closing_iter x) (closing_cfg x) (closing_by_id x)
    (closing_finalized x) (closing_before x) (closing_repo x) (closing_now x) (closing_request x)
    = Ok (closing_after x, closing_result x) ∧
  is_action (closing_result x) = true.
Definition closing_parent (x : closing) : BlockIdentifier :=
  lock_parent_block (data (lock (closing_request x))).
Definition closing_round (x : closing) : BlockRound :=
  lock_locked_round (data (lock (closing_request x))).

Lemma closes_majority x :
  closes x → majority (closing_cfg x) keepers_of (closing_after x)
    (mkSiblingsKey (closing_parent x) (lock_height (data (lock (closing_request x)))), closing_round x).
Proof.
  intros (Hrepo & Hok & Hcall & Hact).
  destruct (incoming_request_effect _ _ _ _ _ _ _ _ _ _ _ Hrepo Hok Hcall) as (_ & Heff & _).
  destruct Heff as [[_ Hno]|[_ Hmaj]]; [congruence|].
  unfold round_key in Hmaj. by rewrite (proj1 Hrepo) in Hmaj.
Qed.

(** Rounds of two nodes: any two rounds closed on top of the same parent share a voter.
    If one node closes a round and another node, or the same one later, closes a round of a
    height on the same parent block, then one block keeper has validly signed a lock of the
    first round that names the first node and a lock of the second round that names the
    second node. *)
Theorem closed_rounds_share_a_voter x y :
  closes x → closes y → closing_parent x = closing_parent y →
  ∃ v lx ly, vote_of (keepers_of (closing_parent x)) v lx ∧ vote_of (keepers_of (closing_parent y)) v ly ∧
    lock_locked_round (data lx) = closing_round x ∧ lock_locked_round (data ly) = closing_round y ∧
    lock_parent_block (data lx) = closing_parent x ∧ lock_parent_block (data ly) = closing_parent y ∧
    lock_next_auth_node_id (data lx) = node_identifier (closing_cfg x) ∧
    lock_next_auth_node_id (data ly) = node_identifier (closing_cfg y).
Proof.
  intros Hx Hy Hpar. apply closes_majority in Hx as (Vx & Hsx & Hnx & Hvx).
  apply closes_majority in Hy as (Vy & Hsy & Hny & Hvy). simpl in *. rewrite <- Hpar in *.
  unfold BlockKeeperSet_len in *. rewrite <- (size_dom (D := gset Z)) in Hnx, Hny.
  destruct (majorities_intersect _ _ _ Hsx Hsy Hnx Hny) as (v & Hinx & Hiny).
  destruct (Hvx v Hinx) as (ex & _ & (Hpx & _ & Hrx & Hax & _) & Hvotex).
  destruct (Hvy v Hiny) as (ey & _ & (Hpy & _ & Hry & Hay & _) & Hvotey).
  exists v, (lock ex), (lock ey). by split_and!.
Qed.
End quorum.

(** ** Evaluation: the only keeper of height 7 asks itself for a new block. *)
Section next_round_witnesses.
#[local] Existing Instance LinearBlst.
#[local] Instance example_serialize_lock : Serialize Lock := λ _, Some [].
#[local] Instance example_serialize_success : Serialize NextRoundSuccess := λ _, Some [].
#[local] Instance example_serialize_block : Serialize (Envelope AckiNackiBlock) := λ _, Some [].

Definition sole_keeper : BlockKeeperSet :=
  BlockKeeperSet_insert BlockKeeperSet_new 1 (example_keeper 1 11 5).
Definition sole_node : NodeIdentifier := node_id (example_keeper 1 11 5).
Definition sole_config : AuthorityConfig :=
  mkConfig example_thread (mkRoundTime [] NANOS_PER_SEC) sole_node {[11%Z := 11%Z]} 0 0 false.
Definition sole_parent : AckiNackiBlockState unit :=
  with_fact (with_fact (with_fact (with_fact (AckiNackiBlockState_new (example_block 1))
    block_seq_no 6%Z) descendant_bk_set sole_keeper) block_time_ms 0%Z) prefinalized true.
Definition sole_repo : Repository unit := <[example_block 1 := sole_parent]> ∅.
Definition sole_authority : ThreadAuthority := mkAuthority no_locks ∅ ∅ ∅ true 0.
Definition sole_request : NextRound :=
  mkNextRound (mkEnvelope 11%Z {[1%Z := 1%Z]}
    (mkLock (example_block 1) example_height sole_node 1 None ∅)) None [].
Definition sole_call :=
  on_next_round_incoming_request elements sole_config (λ _, None) (λ _, Ok None) sole_authority
    sole_repo 1400 sole_request.

Lemma sole_repo_ok : keepers_repo (λ _, sole_keeper) sole_repo.
Proof.
  assert (∀ id, repo_get sole_repo id =
    if decide (id = example_block 1) then sole_parent else fresh_state id) as Hget.
  { intros id. unfold repo_get, sole_repo. rewrite lookup_insert, lookup_empty.
    repeat case_decide; subst; done. }
  split; intros id; rewrite Hget; case_decide; subst; try done.
  - unfold fresh_state. by case_decide.
  - intros k [= <-]. done.
  - intros k. unfold fresh_state. by case_decide.
Qed.

Lemma sole_collected_ok : collected_ok sole_config (λ _, sole_keeper) sole_authority.
Proof. apply map_Forall_empty. Qed.

Definition ok_or_default {E A} (o : outcome E A) (d : A) : A :=
  match o with Ok x => x | _ => d end.
Lemma ok_default_pair {E A B} (o : outcome E (A * B)) d :
  is_ok o = true → o = Ok ((ok_or_default o d).1, (ok_or_default o d).2).
Proof. destruct o as [[]| |]; done. Qed.

Definition sole_outcome : ThreadAuthority * OnNextRoundIncomingRequestResult :=
  ok_or_default sole_call (sole_authority, DoNothing).

Lemma sole_call_ok :
  on_next_round_incoming_request elements sole_config (λ _, None) (λ _, Ok None) sole_authority
    sole_repo 1400 sole_request = Ok (sole_outcome.1, sole_outcome.2).
Proof. apply (ok_default_pair sole_call). vm_compute. reflexivity. Qed.

Lemma sole_call_starts : is_action sole_outcome.2 = true.
Proof. vm_compute. reflexivity. Qed.

Lemma round_closed_by_majority_witness :
  collected_ok sole_config (λ _, sole_keeper) sole_outcome.1 ∧
  closed_round sole_outcome.1 !! mkSiblingsKey (example_block 1) example_height = Some 1%Z.
Proof.
  split; [|vm_compute; reflexivity].
  exact (proj1 (round_closed_by_majority sole_config (λ _, None) (λ _, Ok None) (λ _, sole_keeper)
    elements sole_authority sole_repo 1400 sole_request sole_outcome.1 sole_outcome.2
    sole_repo_ok sole_collected_ok sole_call_ok)).
Defined.

Definition sole_closing : closing :=
  mkClosing sole_config (λ _, None) (λ _, Ok None) elements sole_authority sole_repo 1400
    sole_request sole_outcome.1 sole_outcome.2.

Lemma sole_closes : closes (λ _, sole_keeper) sole_closing.
Proof.
  split; [exact sole_repo_ok|]. split; [exact sole_collected_ok|].
  split; [exact sole_call_ok|exact sole_call_starts].
Qed.

Lemma closed_rounds_share_a_voter_witness :
  ∃ v lx ly, vote_of sole_keeper v lx ∧ vote_of sole_keeper v ly ∧
    lock_locked_round (data lx) = 1%Z ∧ lock_locked_round (data ly) = 1%Z.
Proof.
  destruct (closed_rounds_share_a_voter (λ _, sole_keeper) sole_closing sole_closing
    sole_closes sole_closes eq_refl) as (v & lx & ly & Hx & Hy & Hrx & Hry & _).
  exists v, lx, ly. split; [exact Hx|]. split; [exact Hy|]. split; [exact Hrx|exact Hry].
Defined.
End next_round_witnesses.
