(* ===== verification/ThreadRefs.v ===== *)
(** * ThreadRefs: references between threads.

    [node/src/multithreading/cross_thread_messaging/thread_references_state.rs] and
    [node/src/repository/cross_thread_ref_data.rs].  A block of one thread may reference
    blocks of other threads; [ThreadReferencesState] keeps, per thread, the last referenced
    block.  Before a block is produced or verified, [can_reference] computes which further
    blocks a set of explicit references pulls in (walking back every thread to the blocks that
    are already referenced), and [move_refs] advances the state over them.

    The closure [get_ref_data] that reads the cross-thread data of a block is a parameter.
    Both loops take fuel; [None] is "out of fuel", and the theorems show that a fuel computed
    from the stored data is enough. *)
From stdpp Require Import base numbers gmap fin_maps sorting list.
From S2P Require Import Prelude Identifiers Bitmask.
Local Open Scope Z_scope.

Notation BlockSeqNo := Z (only parsing).

Record ReferencedBlock := mkReferencedBlock {
  block_thread_identifier : ThreadIdentifier;
  block_identifier : BlockIdentifier;
  referenced_seq_no : BlockSeqNo;
}.
#[global] Instance ReferencedBlock_eq_dec : EqDecision ReferencedBlock.
Proof. solve_decision. Defined.

(** [all_thread_refs] *)
Notation ThreadReferencesState := (gmap ThreadIdentifier ReferencedBlock).

Record ResultingState := mkResultingState {
  implicitly_referenced_blocks : list BlockIdentifier;
  explicitly_referenced_blocks : list BlockIdentifier;
}.

Inductive CanRefQueryResult :=
  | No
  | Yes (resulting_state : ResultingState).

(** [dapp_id_table_diff], [outbound_messages] and [outbound_accounts] are carried and never
    read by this code; they are the [data_payload] of the record. *)
Record CrossThreadRefData (Payload : Type) := mkCrossThreadRefData {
  data_block_identifier : BlockIdentifier;
  data_seq_no : BlockSeqNo;
  data_thread : ThreadIdentifier;
  data_payload : Payload;
  threads_table : ThreadsTable;
  data_parent : BlockIdentifier;
  block_refs : list BlockIdentifier;
}.
Arguments mkCrossThreadRefData {Payload}.
Arguments data_block_identifier {Payload}.
Arguments data_seq_no {Payload}.
Arguments data_thread {Payload}.
Arguments data_payload {Payload}.
Arguments threads_table {Payload}.
Arguments data_parent {Payload}.
Arguments block_refs {Payload}.

(** The errors of [can_reference]: the closure failed on a block, or the walk met a block
    of the same thread and sequence number as the referenced one, but another block. *)
Inductive RefError :=
  | Unreadable (b : BlockIdentifier)
  | WrongStateRefs (thread_last_block : ReferencedBlock) (cursor : BlockIdentifier).

Section operations.
Context {Payload : Type}.
Notation Data := (CrossThreadRefData Payload).

Definition as_reference_state_data (d : Data) : ReferencedBlock :=
  mkReferencedBlock (data_thread d) (data_block_identifier d) (data_seq_no d).

Definition set_threads_table (d : Data) (t : ThreadsTable) : Data :=
  mkCrossThreadRefData (data_block_identifier d) (data_seq_no d) (data_thread d)
    (data_payload d) t (data_parent d) (block_refs d).

Definition set_block_refs (d : Data) (refs : list BlockIdentifier) : Data :=
  mkCrossThreadRefData (data_block_identifier d) (data_seq_no d) (data_thread d)
    (data_payload d) (threads_table d) (data_parent d) refs.

(** The rows of the produced table whose thread this very block spawns. *)
Definition spawned_threads (d : Data) : list ThreadIdentifier :=
  filter (λ t, ThreadIdentifier_is_spawning_block t (data_block_identifier d) = true)
    (snd <$> threads_table d).

Definition ThreadReferencesState_update (s : ThreadReferencesState) (t : ThreadIdentifier)
    (r : ReferencedBlock) : ThreadReferencesState := <[t := r]> s.

Variable get_ref_data : BlockIdentifier → option Data.

Definition read (b : BlockIdentifier) : outcome RefError Data :=
  ok_or (get_ref_data b) (Unreadable b).

(** The loop of [walk_back_into_history]. *)
Fixpoint walk_loop (fuel : nat) (cutoff : ThreadReferencesState) (cursor : Data)
    (trail : list Data) : option (outcome RefError (list Data)) :=
  match fuel with
  | O => None
  | S fuel =>
      let step_back :=
        match get_ref_data (data_parent cursor) with
        | Some parent => walk_loop fuel cutoff parent (trail ++ [cursor])
        | None => Some (Err (Unreadable (data_parent cursor)))
        end in
      match cutoff !! data_thread cursor with
      | Some last =>
          if bool_decide (data_seq_no cursor ≤ referenced_seq_no last) then
            if bool_decide (referenced_seq_no last = data_seq_no cursor) then
              Some (ensure (bool_decide (block_identifier last = data_block_identifier cursor))
                      (WrongStateRefs last (data_block_identifier cursor)) ≫= λ _, Ok trail)
            else Some (Ok trail)
          else step_back
      | None => step_back
      end
  end.

Definition walk_back_into_history (fuel : nat) (cursor : BlockIdentifier)
    (cutoff : ThreadReferencesState) : option (outcome RefError (list Data)) :=
  match read cursor with
  | Ok d => walk_loop fuel cutoff d []
  | Err e => Some (Err e)
  | Panic => Some Panic
  end.

(** The mutable variables of [can_reference]. *)
Record Search := mkSearch {
  tails : ThreadReferencesState;
  stack : list BlockIdentifier;
  all_referenced_blocks : list ReferencedBlock;
  explicitly_referenced_set : gset BlockIdentifier;
}.

(** The body of [for block in trail.into_iter().rev()]. *)
Definition reference_block (previously_referenced_set : gset BlockIdentifier) (s : Search)
    (block : Data) : Search :=
  let referenced_block := as_reference_state_data block in
  let thread_id := data_thread block in
  let should_update :=
    match tails s !! thread_id with
    | Some existing => bool_decide (referenced_seq_no existing < data_seq_no block)
    | None => true
    end in
  mkSearch
    (if should_update then <[thread_id := referenced_block]> (tails s) else tails s)
    (stack s ++ block_refs block)
    (all_referenced_blocks s ++ [referenced_block])
    (if should_update &&
        negb (bool_decide (data_block_identifier block ∈ previously_referenced_set))
     then {[ data_block_identifier block ]} ∪ explicitly_referenced_set s
     else explicitly_referenced_set s).

(** [while let Some(cursor) = stack.pop_front()] *)
Fixpoint can_reference_loop (fuel wfuel : nat) (previously_referenced_set : gset BlockIdentifier)
    (s : Search) : option (outcome RefError Search) :=
  match fuel with
  | O => None
  | S fuel =>
      match stack s with
      | [] => Some (Ok s)
      | cursor :: rest =>
          match walk_back_into_history wfuel cursor (tails s) with
          | None => None
          | Some (Ok trail) =>
              can_reference_loop fuel wfuel previously_referenced_set
                (foldl (reference_block previously_referenced_set)
                   (mkSearch (tails s) rest (all_referenced_blocks s)
                      (explicitly_referenced_set s)) (reverse trail))
          | Some (Err e) => Some (Err e)
          | Some Panic => Some Panic
          end
      end
  end.

(** The iteration order of a hash set and of the values of a hash map. *)
Variable set_iter : gset BlockIdentifier → list BlockIdentifier.
Variable values : ThreadReferencesState → list ReferencedBlock.

Definition previously_referenced (self : ThreadReferencesState) : gset BlockIdentifier :=
  list_to_set (block_identifier <$> (map_to_list self).*2).

Definition can_reference (fuel wfuel : nat) (self : ThreadReferencesState)
    (explicit_references : list BlockIdentifier) :
    option (outcome RefError CanRefQueryResult) :=
  if bool_decide (explicit_references = []) then Some (Ok (Yes (mkResultingState [] [])))
  else
    match can_reference_loop fuel wfuel (previously_referenced self)
            (mkSearch self explicit_references [] ∅) with
    | None => None
    | Some (Ok s) =>
        let explicit := set_iter (explicitly_referenced_set s) in
        let explicit_set : gset BlockIdentifier := list_to_set explicit in
        let implicit :=
          block_identifier <$> filter (λ e, block_identifier e ∉ explicit_set)
                                 (all_referenced_blocks s) in
        Some (Ok (Yes (mkResultingState implicit explicit)))
    | Some (Err e) => Some (Err e)
    | Some Panic => Some Panic
    end.

(** [keep_tails]: per thread, the first block of the greatest sequence number. *)
Definition keep_tail (tails : ThreadReferencesState) (r : ReferencedBlock) :
    ThreadReferencesState :=
  match tails !! block_thread_identifier r with
  | Some e =>
      if bool_decide (referenced_seq_no e < referenced_seq_no r)
      then <[block_thread_identifier r := r]> tails else tails
  | None => <[block_thread_identifier r := r]> tails
  end.

Definition keep_tails (referenced_blocks : list ReferencedBlock) : list ReferencedBlock :=
  values (foldl keep_tail ∅ referenced_blocks).

(** "Add phantoms": the block is also put into the threads it spawns. *)
Definition add_phantoms (self : ThreadReferencesState) (d : Data) : ThreadReferencesState :=
  foldl (λ s t, <[t := as_reference_state_data d]> s) self (spawned_threads d).

(** [move_refs] mutates [self]; the new value is returned with the result.  On an error the
    state is left as [can_reference] found it: the only later failures are reads of blocks
    that [can_reference] has already read. *)
Inductive MoveError :=
  | MoveRef (e : RefError)
  | CannotReference.

Definition lift_ref {A} (o : outcome RefError A) : outcome MoveError A :=
  match o with Ok a => Ok a | Err e => Err (MoveRef e) | Panic => Panic end.

Fixpoint map_read (l : list BlockIdentifier) : outcome RefError (list Data) :=
  match l with
  | [] => Ok []
  | b :: l => read b ≫= λ d, map_read l ≫= λ ds, Ok (d :: ds)
  end.

(** [.map(|e| get_ref_data(&e).expect("must be here"))] *)
Fixpoint map_expect (l : list BlockIdentifier) : outcome MoveError (list Data) :=
  match l with
  | [] => Ok []
  | b :: l => unwrap (get_ref_data b) ≫= λ d, map_expect l ≫= λ ds, Ok (d :: ds)
  end.

(** The loop over the references: the read of a block comes after the phantoms of the
    blocks before it. *)
Fixpoint phantoms_loop (self : ThreadReferencesState) (l : list BlockIdentifier) :
    outcome RefError ThreadReferencesState :=
  match l with
  | [] => Ok self
  | b :: l => read b ≫= λ d, phantoms_loop (add_phantoms self d) l
  end.

Definition extend (self : ThreadReferencesState) (rs : list ReferencedBlock) :
    ThreadReferencesState :=
  foldl (λ s r, <[block_thread_identifier r := r]> s) self rs.

Definition move_refs (fuel wfuel : nat) (self : ThreadReferencesState)
    (refs : list BlockIdentifier) :
    option (outcome MoveError (list Data * ThreadReferencesState)) :=
  match can_reference fuel wfuel self refs with
  | None => None
  | Some (Ok No) => Some (Err CannotReference)
  | Some (Ok (Yes rs)) =>
      let all_refs := explicitly_referenced_blocks rs ++ implicitly_referenced_blocks rs in
      Some (
        lift_ref (phantoms_loop self all_refs) ≫= λ self,
        map_expect all_refs ≫= λ ds,
        let self := extend self (keep_tails (as_reference_state_data <$> ds)) in
        lift_ref (map_read all_refs) ≫= λ result, Ok (result, self))
  | Some (Err e) => Some (Err (MoveRef e))
  | Some Panic => Some Panic
  end.
End operations.
Arguments mkSearch : clear implicits.

(** ** What the loops compute *)
Section coverage.
Context {Payload : Type}.
Notation Data := (CrossThreadRefData Payload).
Implicit Types (s self : ThreadReferencesState) (d x p e : Data) (b c : BlockIdentifier).

(** A block is covered by a state when its thread has been referenced at least up to it. *)
Definition covered s d : Prop :=
  ∃ r, s !! data_thread d = Some r ∧ data_seq_no d ≤ referenced_seq_no r.

#[global] Instance covered_dec s d : Decision (covered s d).
Proof.
  destruct (s !! data_thread d) as [r|] eqn:Hr.
  - destruct (decide (data_seq_no d ≤ referenced_seq_no r)) as [Hle|Hle].
    + left. by exists r.
    + right. intros (r' & Hr' & ?). simplify_eq. done.
  - right. intros (r' & Hr' & ?). simplify_eq.
Defined.

Definition extends s s' : Prop := ∀ d, covered s d → covered s' d.

#[global] Instance extends_preorder : PreOrder extends.
Proof. split; [by intros s d|]. intros s1 s2 s3 H1 H2 d Hd. by apply H2, H1. Qed.

Lemma extends_insert s d r :
  data_thread d = block_thread_identifier r →
  data_seq_no d = referenced_seq_no r →
  ¬ covered s d → extends s (<[block_thread_identifier r := r]> s).
Proof.
  intros Ht Hs Hd x (r' & Hr' & Hle).
  destruct (decide (data_thread x = block_thread_identifier r)) as [Hx|Hx].
  - exists r. rewrite Hx, lookup_insert_eq. split; [done|].
    destruct (decide (data_seq_no d ≤ referenced_seq_no r')) as [Hc|Hc]; [|lia].
    exfalso. apply Hd. exists r'. split; [congruence|done].
  - exists r'. by rewrite lookup_insert_ne.
Qed.

Lemma should_update_covered s d :
  match s !! data_thread d with
  | Some existing => bool_decide (referenced_seq_no existing < data_seq_no d)
  | None => true
  end = negb (bool_decide (covered s d)).
Proof.
  destruct (s !! data_thread d) as [r|] eqn:Hr; repeat case_bool_decide; try done.
  - destruct H0 as (r' & ? & ?). simplify_eq. lia.
  - destruct H0. exists r. split; [done|lia].
  - destruct H as (r' & ? & ?). simplify_eq.
Qed.

Variable get_ref_data : BlockIdentifier → option Data.

(** A walk over uncovered blocks from [d] back to [e], newest first. *)
Inductive back s : Data → list Data → Data → Prop :=
  | back_nil d : back s d [] d
  | back_cons d p path e :
      ¬ covered s d → get_ref_data (data_parent d) = Some p →
      back s p path e → back s d (d :: path) e.

(** What an ended walk says. *)
Definition walk_result s (d : Data) (trail : list Data) (o : outcome RefError (list Data)) : Prop :=
  match o with
  | Ok l => ∃ path e, l = trail ++ path ∧ back s d path e ∧ covered s e
  | Err (Unreadable b) => ∃ path e, back s d path e ∧ ¬ covered s e ∧ b = data_parent e ∧
                                   get_ref_data b = None
  | Err (WrongStateRefs last c) =>
      ∃ path e, back s d path e ∧ c = data_block_identifier e ∧
        s !! data_thread e = Some last ∧ referenced_seq_no last = data_seq_no e ∧
        block_identifier last ≠ c
  | Panic => False
  end.

Lemma walk_result_step s d p trail o :
  ¬ covered s d → get_ref_data (data_parent d) = Some p →
  walk_result s p (trail ++ [d]) o → walk_result s d trail o.
Proof.
  intros Hd Hp. destruct o as [l|[b|last c]|]; simpl; [| | |done].
  - intros (path & e & -> & ? & ?). exists (d :: path), e. rewrite <- (assoc_L (++)).
    split_and!; [done|by econstructor|done].
  - intros (path & e & ? & ? & ? & ?). exists (d :: path), e.
    split_and!; [by econstructor|done..].
  - intros (path & e & ? & ? & ? & ? & ?). exists (d :: path), e.
    split_and!; [by econstructor|done..].
Qed.

(** Sequence numbers grow from parent to child. *)
Definition seq_nos_grow : Prop :=
  ∀ b d, get_ref_data b = Some d →
    data_block_identifier d = b ∧ 0 ≤ data_seq_no d ∧
    ∀ p, get_ref_data (data_parent d) = Some p → data_seq_no p < data_seq_no d.

Lemma walk_loop_result fuel s b d trail :
  seq_nos_grow → get_ref_data b = Some d → (Z.to_nat (data_seq_no d) < fuel)%nat →
  ∃ o, walk_loop get_ref_data fuel s d trail = Some o ∧ walk_result s d trail o.
Proof.
  intros Hgrow. revert b d trail. induction fuel as [|fuel IH]; intros b d trail Hd Hf; [lia|].
  destruct (Hgrow _ _ Hd) as (_ & Hpos & Hpar).
  assert (Hback : ¬ covered s d →
    ∃ o, match get_ref_data (data_parent d) with
         | Some parent => walk_loop get_ref_data fuel s parent (trail ++ [d])
         | None => Some (Err (Unreadable (data_parent d)))
         end = Some o ∧ walk_result s d trail o).
  { intros Hnc. destruct (get_ref_data (data_parent d)) as [p|] eqn:Hp.
    - destruct (IH _ p (trail ++ [d]) Hp) as (o & -> & Ho); [|eauto using walk_result_step].
      destruct (Hgrow _ _ Hp) as (_ & ? & _). specialize (Hpar _ eq_refl). lia.
    - eexists; split; [done|]. exists [], d. eauto using back. }
  simpl. destruct (s !! data_thread d) as [last|] eqn:Hl.
  - case_bool_decide as Hle.
    + assert (covered s d) by by exists last.
      case_bool_decide as Heq; [unfold ensure; case_bool_decide as Hid|];
        (eexists; split; [done|]); simpl.
      * exists [], d. rewrite app_nil_r. eauto using back.
      * exists [], d. eauto using back.
      * exists [], d. rewrite app_nil_r. eauto using back.
    + apply Hback. intros (r & ? & ?). simplify_eq. done.
  - apply Hback. intros (r & ? & ?). simplify_eq.
Qed.

(** The facts about the blocks on a walk. *)
Lemma back_readable s b d path e x :
  get_ref_data b = Some d → back s d path e → x ∈ path →
  ∃ b', get_ref_data b' = Some x ∧ ¬ covered s x.
Proof.
  intros Hd Hb. revert b Hd. induction Hb as [|d p path e Hnc Hp Hb IH]; intros b Hd Hx.
  { by apply elem_of_nil in Hx. }
  apply elem_of_cons in Hx as [->|Hx]; eauto.
Qed.

Lemma back_seq s b d path e x :
  seq_nos_grow → get_ref_data b = Some d → back s d path e → x ∈ path →
  data_seq_no x ≤ data_seq_no d.
Proof.
  intros Hg Hd Hb. revert b Hd. induction Hb as [|d p path e Hnc Hp Hb IH]; intros b Hd Hx.
  { by apply elem_of_nil in Hx. }
  apply elem_of_cons in Hx as [->|Hx]; [done|].
  destruct (Hg _ _ Hd) as (_ & _ & Hlt). specialize (Hlt _ Hp). specialize (IH _ Hp Hx). lia.
Qed.

Lemma back_nodup s b d path e :
  seq_nos_grow → get_ref_data b = Some d → back s d path e →
  NoDup (data_block_identifier <$> path).
Proof.
  intros Hg Hd Hb. revert b Hd. induction Hb as [|d p path e Hnc Hp Hb IH]; intros b Hd.
  { constructor. }
  rewrite fmap_cons. constructor; [|by eapply IH].
  intros (x & Hid & Hx)%list_elem_of_fmap.
  destruct (Hg _ _ Hd) as (Hb' & _ & Hlt). specialize (Hlt _ Hp).
  destruct (back_readable _ _ _ _ _ _ Hp Hb Hx) as (b2 & Hb2 & _).
  destruct (Hg _ _ Hb2) as (Hb2' & _). subst. rewrite Hid in Hd. simplify_eq.
  pose proof (back_seq _ _ _ _ _ _ Hg Hp Hb Hx). lia.
Qed.

(** Read oldest first, every block of a walk comes after its parent. *)
Lemma back_parent s d path e l1 x l2 :
  back s d path e → reverse path = l1 ++ x :: l2 →
  ∃ p, get_ref_data (data_parent x) = Some p ∧ (p ∈ l1 ∨ p = e).
Proof.
  intros Hb. revert l2. induction Hb as [|d p path e Hnc Hp Hb IH]; intros l2 Heq.
  { rewrite reverse_nil in Heq. by destruct l1. }
  rewrite reverse_cons in Heq. apply snoc_split in Heq as [[-> ->]|[l2' Heq]]; [|by eapply IH].
  exists p. split; [done|]. inversion Hb; subst; [by right|]. left.
  rewrite elem_of_reverse. left.
Qed.
End coverage.

(** ** The blocks a query references *)
Section search.
Context {Payload : Type}.
Notation Data := (CrossThreadRefData Payload).
Variable get_ref_data : BlockIdentifier → option Data.
Implicit Types (self : ThreadReferencesState) (s : Search) (d x p e : Data).
Implicit Types (b c : BlockIdentifier) (prev : gset BlockIdentifier) (path : list Data).

Notation ref_of := as_reference_state_data.

Lemma reference_block_extends prev s d : extends (Payload := Payload) (tails s) (tails (reference_block prev s d)).
Proof.
  unfold reference_block; simpl. rewrite should_update_covered.
  case_bool_decide as Hc; simpl; [done|]. by apply (extends_insert _ d (ref_of d)).
Qed.

Lemma reference_block_covers prev s d : covered (tails (reference_block prev s d)) d.
Proof.
  unfold reference_block; simpl. rewrite should_update_covered.
  case_bool_decide as Hc; simpl; [done|].
  exists (ref_of d). by rewrite lookup_insert_eq.
Qed.

Section path.
Variable prev : gset BlockIdentifier.
Notation process := (foldl (reference_block prev)).

Lemma process_extends s path : extends (Payload := Payload) (tails s) (tails (process s path)).
Proof.
  revert s. induction path as [|d path IH]; intros s; [done|].
  simpl. etransitivity; [|apply IH]. apply reference_block_extends.
Qed.

Lemma process_covers s path x : x ∈ path → covered (tails (process s path)) x.
Proof.
  revert s. induction path as [|d path IH]; intros s Hx; [by apply elem_of_nil in Hx|].
  apply elem_of_cons in Hx as [->|Hx]; [|by apply IH].
  simpl. apply process_extends, reference_block_covers.
Qed.

Lemma process_stack s path : stack (process s path) = stack s ++ (path ≫= block_refs).
Proof.
  revert s. induction path as [|d path IH]; intros s; simpl; [by rewrite app_nil_r|].
  rewrite IH; simpl. by rewrite (assoc_L (++)).
Qed.

Lemma process_all s path :
  all_referenced_blocks (process s path) = all_referenced_blocks s ++ (ref_of <$> path).
Proof.
  revert s. induction path as [|d path IH]; intros s; simpl; [by rewrite app_nil_r|].
  rewrite IH; simpl. by rewrite <- (assoc_L (++)).
Qed.

Lemma process_tails s path t r :
  tails (process s path) !! t = Some r →
  tails s !! t = Some r ∨ (block_thread_identifier r = t ∧ r ∈ ref_of <$> path).
Proof.
  revert s. induction path as [|d path IH]; intros s Hr; [by left|].
  simpl in Hr. apply IH in Hr as [Hr|[? ?]]; [|right; split; [done|by right]].
  unfold reference_block in Hr; simpl in Hr. rewrite should_update_covered in Hr.
  case_bool_decide; simpl in Hr; [by left|].
  destruct (decide (data_thread d = t)) as [<-|Hne].
  - rewrite lookup_insert_eq in Hr. simplify_eq. right. split; [done|left].
  - rewrite lookup_insert_ne in Hr by done. by left.
Qed.

(** A trail is processed oldest first, so every block of it moves the tail of its thread. *)
Lemma process_explicit s b d path e :
  seq_nos_grow get_ref_data → get_ref_data b = Some d → back get_ref_data (tails s) d path e →
  explicitly_referenced_set (process s (reverse path)) ≡
  explicitly_referenced_set s ∪
    list_to_set (filter (λ c, c ∉ prev) (data_block_identifier <$> path)).
Proof.
  intros Hg Hd Hb. revert b Hd.
  induction Hb as [d|d p path e Hnc Hp Hb IH]; intros b Hd; [set_solver|].
  rewrite reverse_cons, foldl_app; simpl. set (s1 := process s (reverse path)) in *.
  assert (¬ covered (tails s1) d) as Hd1.
  { intros (r & Hr & Hle). apply process_tails in Hr as [Hr|[Ht Hr]].
    - apply Hnc. by exists r.
    - apply list_elem_of_fmap in Hr as (x & -> & Hx). rewrite elem_of_reverse in Hx.
      pose proof (back_seq _ _ _ _ _ _ _ Hg Hp Hb Hx) as Hxp. simpl in Hle.
      destruct (Hg _ _ Hd) as (_ & _ & Hlt). specialize (Hlt _ Hp). lia. }
  unfold reference_block; simpl. rewrite should_update_covered, bool_decide_false by done; simpl.
  specialize (IH _ Hp). rewrite filter_cons.
  case_bool_decide as Hpr; simpl; case_decide as Hpr'; try done; set_solver.
Qed.
End path.

(** Blocks that the references pull in: through parents and through the references of
    blocks that are not covered yet. *)
Inductive reached self (refs : list BlockIdentifier) : BlockIdentifier → Prop :=
  | reached_root b : b ∈ refs → reached self refs b
  | reached_parent b d :
      reached self refs b → get_ref_data b = Some d → ¬ covered self d →
      reached self refs (data_parent d)
  | reached_ref b d c :
      reached self refs b → get_ref_data b = Some d → ¬ covered self d →
      c ∈ block_refs d → reached self refs c.

Lemma back_reached self cutoff refs b d path e :
  seq_nos_grow get_ref_data → extends (Payload := Payload) self cutoff →
  get_ref_data b = Some d → reached self refs b → back get_ref_data cutoff d path e →
  reached self refs (data_block_identifier e) ∧
  get_ref_data (data_block_identifier e) = Some e ∧
  Forall (λ x, get_ref_data (data_block_identifier x) = Some x ∧
               reached self refs (data_block_identifier x)) path.
Proof.
  intros Hg Hext Hd Hr Hb. revert b Hd Hr.
  induction Hb as [d|d p path e Hnc Hp Hb IH]; intros b Hd Hr;
    destruct (Hg _ _ Hd) as (<- & _); [done|].
  destruct (IH _ Hp) as (? & ? & ?); [|by auto].
  eapply reached_parent; [done..|]. intros ?. by apply Hnc, Hext.
Qed.

Definition pending s c : Prop :=
  c ∈ stack s ∨ ∃ x, get_ref_data c = Some x ∧ covered (tails s) x.

(** The number of references of a stored block. *)
Definition refs_len b : nat :=
  match get_ref_data b with Some d => length (block_refs d) | None => 0%nat end.

(** A block is covered once the blocks [ids] have been referenced on top of [self]. *)
Definition covered_with self (ids : list BlockIdentifier) d : Prop :=
  covered self d ∨
  ∃ b x, b ∈ ids ∧ get_ref_data b = Some x ∧ data_thread x = data_thread d ∧
         data_seq_no d ≤ data_seq_no x.

Record search_inv self (refs : list BlockIdentifier) (popped : nat) s : Prop := {
  inv_stack : ∀ b, b ∈ stack s → reached self refs b;
  inv_all : ∀ r, r ∈ all_referenced_blocks s → ∃ d,
    get_ref_data (block_identifier r) = Some d ∧ r = ref_of d ∧ ¬ covered self d ∧
    reached self refs (block_identifier r) ∧ covered (tails s) d ∧
    (∀ c, c ∈ block_refs d → pending s c);
  inv_order : ∀ l1 r l2, all_referenced_blocks s = l1 ++ r :: l2 → ∃ d p,
    get_ref_data (block_identifier r) = Some d ∧ get_ref_data (data_parent d) = Some p ∧
    covered_with self (block_identifier <$> l1) p;
  inv_refs : ∀ b, b ∈ refs → pending s b;
  inv_extends : extends (Payload := Payload) self (tails s);
  inv_tails : ∀ t r, tails s !! t = Some r →
    self !! t = Some r ∨ (block_thread_identifier r = t ∧ r ∈ all_referenced_blocks s);
  inv_nodup : NoDup (block_identifier <$> all_referenced_blocks s);
  inv_explicit : explicitly_referenced_set s ≡
    list_to_set (filter (λ c, c ∉ previously_referenced self)
                   (block_identifier <$> all_referenced_blocks s));
  inv_len : (popped + length (stack s))%nat =
    (length refs + sum_list (refs_len <$> (block_identifier <$> all_referenced_blocks s)))%nat;
}.

Lemma inv_tails_covered self refs n s d :
  search_inv self refs n s → covered (tails s) d →
  covered_with self (block_identifier <$> all_referenced_blocks s) d.
Proof.
  intros Hinv (r & Hr & Hle). apply (inv_tails _ _ _ _ Hinv) in Hr as [Hr|[Ht Hr]].
  - left. by exists r.
  - right. destruct (inv_all _ _ _ _ Hinv _ Hr) as (x & Hx & Hrx & _).
    exists (block_identifier r), x. split_and!; [|done|by subst..].
    apply list_elem_of_fmap. eauto.
Qed.

Lemma covered_with_mono self ids ids' d :
  ids ⊆ ids' → covered_with self ids d → covered_with self ids' d.
Proof. intros Hsub [?|(b & x & ? & ? & ? & ?)]; [by left|]. right. exists b, x. eauto. Qed.

Lemma search_inv_init self refs : search_inv self refs 0 (mkSearch self refs [] ∅).
Proof.
  split; simpl; try set_solver; try lia.
  - intros b ?. by apply reached_root.
  - intros l1 r l2 ?. by destruct l1.
  - intros b ?. by left.
  - by left.
Qed.

Lemma pending_step s s' cursor c x :
  extends (Payload := Payload) (tails s) (tails s') →
  (∀ b, b ∈ stack s → b = cursor ∨ b ∈ stack s') →
  get_ref_data cursor = Some x → covered (tails s') x →
  pending s c → pending s' c.
Proof.
  intros Hext Hst Hx Hc [Hin|(y & ? & ?)].
  - apply Hst in Hin as [->|?]; [right; eauto|by left].
  - right. exists y. auto.
Qed.

Lemma sum_list_app (l1 l2 : list nat) : sum_list (l1 ++ l2) = (sum_list l1 + sum_list l2)%nat.
Proof. induction l1; simpl; lia. Qed.

Lemma sum_refs_len path :
  Forall (λ x, get_ref_data (data_block_identifier x) = Some x) path →
  sum_list (refs_len <$> (block_identifier <$> (ref_of <$> path))) = length (path ≫= block_refs).
Proof.
  induction 1 as [|x path Hx _ IH]; [done|].
  rewrite !fmap_cons, bind_cons, length_app, <- IH.
  unfold refs_len at 1. simpl. by rewrite Hx.
Qed.

(** One iteration of the loop: a walk back from the popped block, and its trail. *)
Lemma search_inv_step self refs popped s cursor rest d path e :
  seq_nos_grow get_ref_data →
  search_inv self refs popped s → stack s = cursor :: rest →
  get_ref_data cursor = Some d → back get_ref_data (tails s) d path e → covered (tails s) e →
  search_inv self refs (S popped)
    (foldl (reference_block (previously_referenced self))
       (mkSearch (tails s) rest (all_referenced_blocks s) (explicitly_referenced_set s))
       (reverse path)).
Proof.
  intros Hg Hinv Hst Hd Hb He.
  set (s0 := mkSearch _ rest _ _). set (s' := foldl _ s0 _).
  assert (Hext : extends (Payload := Payload) (tails s) (tails s')).
  { apply (process_extends _ s0). }
  assert (Hr : reached self refs cursor) by (apply (inv_stack _ _ _ _ Hinv); rewrite Hst; left).
  destruct (back_reached self _ refs _ _ _ _ Hg (inv_extends _ _ _ _ Hinv) Hd Hr Hb)
    as (_ & _ & Hpath).
  assert (Hcov : ∀ x, x ∈ path → covered (tails s') x).
  { intros x Hx. apply process_covers. by rewrite elem_of_reverse. }
  assert (Hcur : covered (tails s') d).
  { inversion Hb; subst; [by apply Hext|]. apply Hcov. left. }
  assert (Hs' : stack s' = rest ++ (reverse path ≫= block_refs)) by apply (process_stack _ s0).
  assert (Hpend : ∀ c, pending s c → pending s' c).
  { intros c. apply (pending_step s s' cursor c d); [done| |done..].
    intros b. rewrite Hst, Hs', elem_of_cons, elem_of_app. tauto. }
  assert (Hall : all_referenced_blocks s' = all_referenced_blocks s ++ (ref_of <$> reverse path))
    by apply (process_all _ s0).
  rewrite Forall_forall in Hpath.
  split.
  - intros b. rewrite Hs', elem_of_app. intros [Hin|(x & Hc & Hx)%list_elem_of_bind].
    + apply (inv_stack _ _ _ _ Hinv). rewrite Hst. by right.
    + rewrite elem_of_reverse in Hx. destruct (Hpath _ Hx) as [Hx1 Hx2].
      eapply reached_ref; [done..| |done]. intros Hcx.
      destruct (back_readable _ _ _ _ _ _ _ Hd Hb Hx) as (_ & _ & Hn).
      by apply Hn, (inv_extends _ _ _ _ Hinv).
  - intros r. rewrite Hall, elem_of_app. intros [Hin|(x & -> & Hx)%list_elem_of_fmap].
    + destruct (inv_all _ _ _ _ Hinv _ Hin) as (y & ? & ? & ? & ? & ? & ?).
      exists y. split_and!; try done; [by apply Hext|by auto].
    + rewrite elem_of_reverse in Hx. destruct (Hpath _ Hx) as [Hx1 Hx2].
      destruct (back_readable _ _ _ _ _ _ _ Hd Hb Hx) as (_ & _ & Hn).
      exists x. split_and!; try done; [|by apply Hcov|].
      * intros Hcx. by apply Hn, (inv_extends _ _ _ _ Hinv).
      * intros c Hc. left. rewrite Hs', elem_of_app. right.
        apply list_elem_of_bind. exists x. by rewrite elem_of_reverse.
  - intros l1 r l2. rewrite Hall. intros [[l2' Heq]|(k1 & -> & Heq)]%app_split_cons.
    { by eapply (inv_order _ _ _ _ Hinv). }
    apply fmap_app_inv in Heq as (p1 & p2 & -> & Hp2 & Heq).
    destruct p2 as [|x p2]; [done|]. rewrite fmap_cons in Hp2. injection Hp2 as -> ->.
    destruct (back_parent _ _ _ _ _ _ _ _ Hb Heq) as (p & Hp & Hpp).
    assert (x ∈ path) as Hx by (rewrite <- elem_of_reverse, Heq, elem_of_app; right; left).
    destruct (Hpath _ Hx) as [Hx1 _]. exists x, p. split_and!; [done..|].
    destruct Hpp as [Hpp| ->].
    + assert (p ∈ path) as Hpath' by (rewrite <- elem_of_reverse, Heq, elem_of_app; by left).
      destruct (Hpath _ Hpath') as [Hp1 _]. right. exists (data_block_identifier p), p.
      split_and!; [|done..]. rewrite fmap_app, elem_of_app. right.
      rewrite <- list_fmap_compose. by apply (list_elem_of_fmap_2 (block_identifier ∘ ref_of)).
    + eapply covered_with_mono, (inv_tails_covered _ _ _ _ _ Hinv He).
      rewrite fmap_app. set_solver.
  - intros b Hin. by apply Hpend, (inv_refs _ _ _ _ Hinv).
  - etransitivity; [apply (inv_extends _ _ _ _ Hinv)|done].
  - intros t r Htr. apply (process_tails _ s0) in Htr as [Htr|[? ?]].
    + apply (inv_tails _ _ _ _ Hinv) in Htr as [?|[? ?]]; [by left|].
      right. rewrite Hall, elem_of_app. eauto.
    + right. rewrite Hall, elem_of_app. eauto.
  - rewrite Hall, fmap_app, <- list_fmap_compose. apply NoDup_app. split_and!.
    + apply (inv_nodup _ _ _ _ Hinv).
    + intros b (r & -> & Hin)%list_elem_of_fmap (x & Hid & Hx)%list_elem_of_fmap.
      rewrite elem_of_reverse in Hx. simpl in Hid.
      destruct (inv_all _ _ _ _ Hinv _ Hin) as (y & Hy & _ & _ & _ & Hcy & _).
      destruct (Hpath _ Hx) as [Hx1 _]. rewrite Hid in Hy. simplify_eq.
      by destruct (back_readable _ _ _ _ _ _ _ Hd Hb Hx) as (_ & _ & []).
    + rewrite fmap_reverse. eapply NoDup_Permutation_proper; [apply reverse_Permutation|].
      by apply (back_nodup _ _ _ _ _ _ Hg Hd Hb).
  - unfold s' at 1. rewrite (process_explicit _ s0 _ _ _ _ Hg Hd Hb). simpl.
    rewrite (inv_explicit _ _ _ _ Hinv), Hall, fmap_app, filter_app, list_to_set_app.
    f_equiv. intros b. rewrite !elem_of_list_to_set, !list_elem_of_filter, !list_elem_of_fmap.
    setoid_rewrite list_elem_of_fmap. setoid_rewrite elem_of_reverse. naive_solver.
  - rewrite Hall, !fmap_app, sum_list_app, sum_refs_len, Hs', length_app.
    + pose proof (inv_len _ _ _ _ Hinv) as Hl. rewrite Hst in Hl. simpl in Hl. lia.
    + apply Forall_forall. intros x. rewrite elem_of_reverse. apply Hpath.
Qed.

(** The outcomes of the search. *)
Definition ref_error self (refs : list BlockIdentifier) (e : RefError) : Prop :=
  match e with
  | Unreadable b => reached self refs b ∧ get_ref_data b = None
  | WrongStateRefs last c =>
      ∃ d, reached self refs c ∧ get_ref_data c = Some d ∧ block_identifier last ≠ c ∧
        referenced_seq_no last = data_seq_no d ∧
        (self !! data_thread d = Some last ∨
         (block_thread_identifier last = data_thread d ∧ reached self refs (block_identifier last)))
  end.

(** Enough iterations for a finite set of stored blocks. *)
Definition search_fuel (universe refs : list BlockIdentifier) : nat :=
  S (length refs + sum_list (refs_len <$> universe)).

Definition seq_no_of b : nat :=
  match get_ref_data b with Some d => Z.to_nat (data_seq_no d) | None => 0%nat end.

Definition walk_fuel (universe : list BlockIdentifier) : nat :=
  S (max_list (seq_no_of <$> universe)).

Definition stored_in (universe : list BlockIdentifier) : Prop :=
  ∀ b d, get_ref_data b = Some d → b ∈ universe.

Lemma walk_fuel_enough universe b d :
  stored_in universe → get_ref_data b = Some d →
  (Z.to_nat (data_seq_no d) < walk_fuel universe)%nat.
Proof.
  intros Hu Hd. unfold walk_fuel.
  assert (seq_no_of b = Z.to_nat (data_seq_no d)) as <- by (unfold seq_no_of; by rewrite Hd).
  apply Nat.lt_succ_r, max_list_elem_of_le, list_elem_of_fmap_2. by eapply Hu.
Qed.

Lemma sum_list_submseteq (l1 l2 : list nat) : l1 ⊆+ l2 → (sum_list l1 ≤ sum_list l2)%nat.
Proof.
  intros [k ->]%submseteq_Permutation. rewrite sum_list_app. lia.
Qed.

Lemma walk_back_result self refs popped s cursor universe wfuel :
  seq_nos_grow get_ref_data → stored_in universe → (walk_fuel universe ≤ wfuel)%nat →
  search_inv self refs popped s → cursor ∈ stack s →
  ∃ o, walk_back_into_history get_ref_data wfuel cursor (tails s) = Some o ∧
    match o with
    | Ok path => ∃ d e, get_ref_data cursor = Some d ∧
        back get_ref_data (tails s) d path e ∧ covered (tails s) e
    | Err e => ref_error self refs e
    | Panic => False
    end.
Proof.
  intros Hg Hu Hw Hinv Hin. pose proof (inv_stack _ _ _ _ Hinv _ Hin) as Hreach.
  unfold walk_back_into_history, read. destruct (get_ref_data cursor) as [d|] eqn:Hd; simpl;
    [|eexists; split; [done|]; by split].
  pose proof (walk_fuel_enough _ _ _ Hu Hd).
  destruct (walk_loop_result get_ref_data wfuel (tails s) cursor d []) as (o & -> & Ho);
    [done..|lia|].
  eexists; split; [done|].
  destruct o as [path|[b|last c]|]; simpl in *; [| | |done].
  - destruct Ho as (path' & e & -> & ? & ?). by exists d, e.
  - destruct Ho as (path & e & Hb & Hn & -> & ?). split; [|done].
    destruct (back_reached self _ refs _ _ _ _ Hg (inv_extends _ _ _ _ Hinv) Hd Hreach Hb)
      as (? & ? & _).
    eapply reached_parent; [done..|]. intros ?. by apply Hn, (inv_extends _ _ _ _ Hinv).
  - destruct Ho as (path & e & Hb & -> & Hl & Hs & Hne).
    destruct (back_reached self _ refs _ _ _ _ Hg (inv_extends _ _ _ _ Hinv) Hd Hreach Hb)
      as (? & ? & _).
    exists e. split_and!; try done.
    apply (inv_tails _ _ _ _ Hinv) in Hl as [?|[? Hl]]; [by left|right].
    split; [done|]. destruct (inv_all _ _ _ _ Hinv _ Hl) as (y & _ & _ & _ & ? & _). done.
Qed.

Lemma can_reference_loop_result self refs popped s universe wfuel fuel :
  seq_nos_grow get_ref_data → stored_in universe → (walk_fuel universe ≤ wfuel)%nat →
  search_inv self refs popped s → (search_fuel universe refs ≤ fuel + popped)%nat →
  ∃ o, can_reference_loop get_ref_data fuel wfuel (previously_referenced self) s = Some o ∧
    match o with
    | Ok s' => ∃ n, search_inv self refs n s' ∧ stack s' = []
    | Err e => ref_error self refs e
    | Panic => False
    end.
Proof.
  intros Hg Hu Hw. revert popped s. induction fuel as [|fuel IH]; intros popped s Hinv Hf.
  { exfalso. pose proof (inv_len _ _ _ _ Hinv) as Hl. unfold search_fuel in Hf.
    assert (sum_list (refs_len <$> (block_identifier <$> all_referenced_blocks s))
            ≤ sum_list (refs_len <$> universe))%nat; [|lia].
    apply sum_list_submseteq, fmap_submseteq, NoDup_submseteq; [apply (inv_nodup _ _ _ _ Hinv)|].
    intros b (r & -> & Hr)%list_elem_of_fmap.
    destruct (inv_all _ _ _ _ Hinv _ Hr) as (d & ? & _). by eapply Hu. }
  simpl. destruct (stack s) as [|cursor rest] eqn:Hst.
  { eexists; split; [done|]. by exists popped. }
  destruct (walk_back_result self refs popped s cursor universe wfuel) as (o & -> & Ho);
    [done..|rewrite Hst; left|].
  destruct o as [path|e|]; [|eauto|done].
  destruct Ho as (d & e & Hd & Hb & He).
  apply (IH (S popped)); [|lia]. by eapply search_inv_step.
Qed.

(** ** Which blocks a query references *)
Variable set_iter : gset BlockIdentifier → list BlockIdentifier.
Hypothesis set_iter_elements : ∀ X, set_iter X ≡ₚ elements X.

Record reference_closure self (refs ids : list BlockIdentifier) : Prop := {
  closure_nodup : NoDup ids;
  closure_new : ∀ b, b ∈ ids →
    reached self refs b ∧ ∃ d, get_ref_data b = Some d ∧ ¬ covered self d;
  closure_roots : ∀ b, b ∈ refs → ∃ d, get_ref_data b = Some d ∧ covered_with self ids d;
  closure_order : ∃ l, l ≡ₚ ids ∧ ∀ l1 b l2, l = l1 ++ b :: l2 → ∃ d p,
    get_ref_data b = Some d ∧ get_ref_data (data_parent d) = Some p ∧ covered_with self l1 p;
  closure_refs : ∀ b d c, b ∈ ids → get_ref_data b = Some d → c ∈ block_refs d →
    ∃ x, get_ref_data c = Some x ∧ covered_with self ids x;
}.

Lemma search_closure self refs n s ids :
  search_inv self refs n s → stack s = [] →
  ids ≡ₚ block_identifier <$> all_referenced_blocks s → reference_closure self refs ids.
Proof.
  intros Hinv Hst Hids.
  assert (Hcov : ∀ d, covered (tails s) d → covered_with self ids d).
  { intros d Hd%(inv_tails_covered _ _ _ _ _ Hinv). eapply covered_with_mono; [|done].
    intros b. by rewrite Hids. }
  assert (Hpend : ∀ c, pending s c → ∃ x, get_ref_data c = Some x ∧ covered_with self ids x).
  { intros c [Hc|(x & ? & ?)]; [rewrite Hst in Hc; by apply elem_of_nil in Hc|eauto]. }
  assert (Hin : ∀ b, b ∈ ids → ∃ r, r ∈ all_referenced_blocks s ∧ b = block_identifier r).
  { intros b. rewrite Hids, list_elem_of_fmap. naive_solver. }
  split.
  - rewrite Hids. apply (inv_nodup _ _ _ _ Hinv).
  - intros b (r & Hr & ->)%Hin.
    destruct (inv_all _ _ _ _ Hinv _ Hr) as (d & ? & ? & ? & ? & _). eauto.
  - intros b Hb. by apply Hpend, (inv_refs _ _ _ _ Hinv).
  - exists (block_identifier <$> all_referenced_blocks s). split; [done|].
    intros l1 b l2 (k1 & k2 & -> & Hk2 & Heq)%fmap_app_inv.
    destruct k2 as [|r k2]; [done|]. rewrite fmap_cons in Hk2. injection Hk2 as -> ->.
    by eapply (inv_order _ _ _ _ Hinv).
  - intros b d c (r & Hr & ->)%Hin Hd Hc.
    destruct (inv_all _ _ _ _ Hinv _ Hr) as (d' & ? & _ & _ & _ & _ & Hp). simplify_eq. eauto.
Qed.

(** The referenced blocks are split by whether the state has the block as a tail already. *)
Definition resulting_state self (refs : list BlockIdentifier) (rs : ResultingState) : Prop :=
  reference_closure self refs
    (explicitly_referenced_blocks rs ++ implicitly_referenced_blocks rs) ∧
  (∀ b, b ∈ explicitly_referenced_blocks rs → b ∉ previously_referenced self) ∧
  (∀ b, b ∈ implicitly_referenced_blocks rs → b ∈ previously_referenced self).

Definition can_reference_result self (refs : list BlockIdentifier)
    (o : outcome RefError CanRefQueryResult) : Prop :=
  match o with
  | Ok (Yes rs) => resulting_state self refs rs
  | Ok No | Panic => False
  | Err e => ref_error self refs e
  end.

Lemma filter_partition (f : gset BlockIdentifier) (l : list BlockIdentifier) :
  filter (λ b, b ∉ f) l ++ filter (λ b, b ∈ f) l ≡ₚ l.
Proof.
  induction l as [|b l IH]; [done|]. rewrite !filter_cons.
  case_decide; case_decide; try done; simpl.
  - by rewrite IH.
  - rewrite <- Permutation_middle. by rewrite IH.
Qed.

Lemma filter_fmap_id (E : gset BlockIdentifier) (l : list ReferencedBlock) :
  block_identifier <$> filter (λ r, block_identifier r ∉ E) l =
  filter (λ b, b ∉ E) (block_identifier <$> l).
Proof.
  induction l as [|r l IH]; [done|]. rewrite fmap_cons, !filter_cons. case_decide; [|done].
  by rewrite fmap_cons, IH.
Qed.

Lemma can_reference_sound self refs universe fuel wfuel :
  seq_nos_grow get_ref_data → stored_in universe →
  (search_fuel universe refs ≤ fuel)%nat → (walk_fuel universe ≤ wfuel)%nat →
  ∃ o, can_reference get_ref_data set_iter fuel wfuel self refs = Some o ∧
       can_reference_result self refs o.
Proof.
  intros Hg Hu Hf Hw. unfold can_reference. case_bool_decide as Hr.
  { subst. eexists; split; [done|]. split_and!; simpl; try set_solver.
    split; simpl; try set_solver; [constructor|].
    exists []. split; [done|]. intros l1 b l2 ?. by destruct l1. }
  destruct (can_reference_loop_result self refs 0 (mkSearch self refs [] ∅) universe wfuel fuel)
    as (o & -> & Ho); [done..|apply search_inv_init|lia|].
  destruct o as [s|e|]; [|eauto|done]. eexists; split; [done|]. simpl.
  destruct Ho as (n & Hinv & Hst).
  set (ids := block_identifier <$> all_referenced_blocks s).
  set (new := filter (λ c, c ∉ previously_referenced self) ids).
  assert (Hex : set_iter (explicitly_referenced_set s) ≡ₚ new).
  { rewrite set_iter_elements, (inv_explicit _ _ _ _ Hinv).
    apply elements_list_to_set, NoDup_filter, (inv_nodup _ _ _ _ Hinv). }
  assert (Him : block_identifier <$>
      filter (λ r, block_identifier r ∉ (list_to_set (set_iter (explicitly_referenced_set s))
                                         : gset BlockIdentifier)) (all_referenced_blocks s)
    = filter (λ c, c ∈ previously_referenced self) ids).
  { set (E := list_to_set (set_iter (explicitly_referenced_set s)) : gset BlockIdentifier).
    rewrite (filter_fmap_id E). fold ids.
    apply filter_ext_elem. intros b Hb. unfold E. rewrite elem_of_list_to_set, Hex.
    unfold new. rewrite list_elem_of_filter. destruct (decide (b ∈ previously_referenced self)); tauto. }
  rewrite Him. split_and!; simpl.
  - eapply search_closure; [done..|]. rewrite Hex. apply filter_partition.
  - intros b. rewrite Hex. unfold new. rewrite list_elem_of_filter. tauto.
  - intros b. rewrite list_elem_of_filter. tauto.
Qed.
End search.

(** ** Moving the references *)
Section move.
Context {Payload : Type}.
Notation Data := (CrossThreadRefData Payload).
Variable get_ref_data : BlockIdentifier → option Data.
Variable set_iter : gset BlockIdentifier → list BlockIdentifier.
Hypothesis set_iter_elements : ∀ X, set_iter X ≡ₚ elements X.
Variable values : ThreadReferencesState → list ReferencedBlock.
Hypothesis values_map : ∀ m, values m ≡ₚ (map_to_list m).*2.
Implicit Types (self s : ThreadReferencesState) (d x p : Data) (b : BlockIdentifier).
Implicit Types (r : ReferencedBlock) (rs : list ReferencedBlock) (t : ThreadIdentifier).
Implicit Types (ids refs : list BlockIdentifier) (ds : list Data).

Notation ref_of := as_reference_state_data.

Lemma keep_tails_map rs m :
  let m' := foldl keep_tail m rs in
  (∀ t r, m !! t = Some r → ∃ r', m' !! t = Some r' ∧ referenced_seq_no r ≤ referenced_seq_no r') ∧
  (∀ r, r ∈ rs → ∃ r', m' !! block_thread_identifier r = Some r' ∧
                       referenced_seq_no r ≤ referenced_seq_no r') ∧
  (∀ t r, m' !! t = Some r → m !! t = Some r ∨ (r ∈ rs ∧ block_thread_identifier r = t)).
Proof.
  revert m. induction rs as [|r0 rs IH]; intros m; simpl.
  { split_and!; [intros t r ?; exists r; split; [done|lia]|set_solver|by left]. }
  destruct (IH (keep_tail m r0)) as (IH1 & IH2 & IH3). clear IH.
  assert (H0 : ∃ r', keep_tail m r0 !! block_thread_identifier r0 = Some r' ∧
                     referenced_seq_no r0 ≤ referenced_seq_no r').
  { unfold keep_tail. destruct (m !! _) as [e|] eqn:He; [case_bool_decide as Hlt|].
    - exists r0. by rewrite lookup_insert_eq.
    - exists e. split; [done|lia].
    - exists r0. by rewrite lookup_insert_eq. }
  assert (Hm : ∀ t r, m !! t = Some r →
    ∃ r', keep_tail m r0 !! t = Some r' ∧ referenced_seq_no r ≤ referenced_seq_no r').
  { intros t r Hr. unfold keep_tail. destruct (decide (block_thread_identifier r0 = t)) as [<-|Hne].
    - rewrite Hr. case_bool_decide as Hlt; [|exists r; split; [done|lia]].
      exists r0. rewrite lookup_insert_eq. split; [done|lia].
    - destruct (m !! block_thread_identifier r0); [case_bool_decide|];
        rewrite ?lookup_insert_ne by done; (exists r; split; [done|lia]). }
  split_and!.
  - intros t r (r1 & Hr1 & ?)%Hm. destruct (IH1 _ _ Hr1) as (r2 & ? & ?).
    exists r2. split; [done|lia].
  - intros r [->|Hin]%elem_of_cons; [|by apply IH2].
    destruct H0 as (r1 & Hr1 & ?). destruct (IH1 _ _ Hr1) as (r2 & ? & ?).
    exists r2. split; [done|lia].
  - intros t r Hr. apply IH3 in Hr as [Hr|[? ?]]; [|right; split; [by right|done]].
    unfold keep_tail in Hr.
    assert (Hins : (<[block_thread_identifier r0:=r0]> m) !! t = Some r →
      m !! t = Some r ∨ (r ∈ r0 :: rs ∧ block_thread_identifier r = t)).
    { intros [[<- <-]|[_ ?]]%lookup_insert_Some; [right; split; [left|done]|by left]. }
    destruct (m !! block_thread_identifier r0); [case_bool_decide|]; auto.
Qed.

Lemma extend_lookup s rs t r :
  NoDup (block_thread_identifier <$> rs) →
  extend s rs !! t = Some r ↔
  (r ∈ rs ∧ block_thread_identifier r = t) ∨
  (t ∉ block_thread_identifier <$> rs ∧ s !! t = Some r).
Proof.
  unfold extend. revert s. induction rs as [|r0 rs IH]; intros s Hnd; simpl.
  { split; [intros ?; right; split; [apply not_elem_of_nil|done]|].
    intros [[?%elem_of_nil _]|[_ ?]]; done. }
  rewrite fmap_cons in Hnd. apply NoDup_cons in Hnd as [Hni Hnd]. rewrite IH by done.
  rewrite lookup_insert_Some, !not_elem_of_cons, elem_of_cons.
  split; [naive_solver|].
  intros [[[->|?] <-]|[[? ?] ?]]; [right; by split; [|left]|naive_solver|naive_solver].
Qed.

(** The per-thread tails written last, over the state with the phantoms. *)
Lemma extend_keep_tails s rs t r :
  extend s (keep_tails values rs) !! t = Some r ↔
  foldl keep_tail ∅ rs !! t = Some r ∨ (foldl keep_tail ∅ rs !! t = None ∧ s !! t = Some r).
Proof.
  unfold keep_tails. set (m := foldl keep_tail ∅ rs).
  assert (Hkey : ∀ t r, m !! t = Some r → block_thread_identifier r = t).
  { intros t' r' Hr. destruct (keep_tails_map rs ∅) as (_ & _ & H3).
    apply H3 in Hr as [Hr|[_ ?]]; [by rewrite lookup_empty in Hr|done]. }
  assert (Hth : block_thread_identifier <$> values m ≡ₚ (map_to_list m).*1).
  { rewrite values_map, <- list_fmap_compose. apply Permutation_refl'.
    apply list_fmap_ext. intros i [t' r'] Hi. apply list_elem_of_lookup_2, elem_of_map_to_list in Hi.
    by apply Hkey. }
  assert (Hval : ∀ r, r ∈ values m ↔ m !! block_thread_identifier r = Some r).
  { intros r'. rewrite values_map, list_elem_of_fmap. split.
    - intros ([t' r''] & -> & Hin%elem_of_map_to_list). simpl. by rewrite (Hkey _ _ Hin).
    - intros Hr. exists (block_thread_identifier r', r'). by rewrite elem_of_map_to_list. }
  rewrite extend_lookup by (rewrite Hth; apply NoDup_fst_map_to_list).
  rewrite Hth, Hval. split.
  - intros [[Hm <-]|[Hni Hs]]; [by left|right; split; [|done]].
    apply eq_None_not_Some. intros [r' Hr']. apply Hni, list_elem_of_fmap.
    exists (t, r'). by rewrite elem_of_map_to_list.
  - intros [Hm|[Hm Hs]]; [left; by rewrite (Hkey _ _ Hm)|right; split; [|done]].
    intros ([t' r'] & -> & Hin%elem_of_map_to_list)%list_elem_of_fmap. simplify_eq/=.
Qed.

Lemma add_phantoms_lookup s d t r :
  add_phantoms s d !! t = Some r ↔
  (t ∈ spawned_threads d ∧ r = ref_of d) ∨ (t ∉ spawned_threads d ∧ s !! t = Some r).
Proof.
  unfold add_phantoms. revert s. induction (spawned_threads d) as [|t0 ts IH]; intros s; simpl.
  { split; [intros ?; right; split; [apply not_elem_of_nil|done]|].
    intros [[?%elem_of_nil _]|[_ ?]]; done. }
  rewrite IH, lookup_insert_Some, not_elem_of_cons, elem_of_cons.
  destruct (decide (t ∈ ts)); destruct (decide (t0 = t)); naive_solver.
Qed.

Lemma spawned_threads_elem d t :
  t ∈ spawned_threads d →
  ThreadIdentifier_is_spawning_block t (data_block_identifier d) = true.
Proof. unfold spawned_threads. rewrite list_elem_of_filter. tauto. Qed.

Lemma spawning_block_unique t b b' :
  ThreadIdentifier_is_spawning_block t b = true →
  ThreadIdentifier_is_spawning_block t b' = true → b = b'.
Proof.
  unfold ThreadIdentifier_is_spawning_block. rewrite !bool_decide_eq_true.
  destruct b, b'; simpl. congruence.
Qed.

(** The reads of blocks that are known to be stored. *)
Lemma map_read_Ok ids ds :
  Forall2 (λ b d, get_ref_data b = Some d) ids ds → map_read get_ref_data ids = Ok ds.
Proof.
  induction 1 as [|b d ids ds Hd _ IH]; [done|]. simpl. unfold read.
  rewrite Hd. simpl. by rewrite IH.
Qed.

Lemma map_expect_Ok ids ds :
  Forall2 (λ b d, get_ref_data b = Some d) ids ds → map_expect get_ref_data ids = Ok ds.
Proof. induction 1 as [|b d ids ds Hd _ IH]; [done|]. simpl. rewrite Hd. simpl. by rewrite IH. Qed.

Lemma phantoms_loop_Ok s ids ds :
  Forall2 (λ b d, get_ref_data b = Some d) ids ds →
  phantoms_loop get_ref_data s ids = Ok (foldl add_phantoms s ds).
Proof.
  intros Hds. revert s. induction Hds as [|b d ids ds Hd _ IH]; intros s; [done|]. simpl. unfold read.
  rewrite Hd. simpl. by rewrite IH.
Qed.

Lemma stored_blocks ids :
  (∀ b, b ∈ ids → ∃ d, get_ref_data b = Some d) →
  ∃ ds, Forall2 (λ b d, get_ref_data b = Some d) ids ds.
Proof.
  induction ids as [|b ids IH]; intros Hall; [by exists []|].
  destruct (Hall b) as [d Hd]; [left|]. destruct IH as [ds Hds]; [intros; apply Hall; by right|].
  exists (d :: ds). by constructor.
Qed.

Lemma foldl_phantoms s ds t r :
  foldl add_phantoms s ds !! t = Some r →
  s !! t = Some r ∨ ∃ d, d ∈ ds ∧ r = ref_of d ∧ t ∈ spawned_threads d.
Proof.
  revert s. induction ds as [|d ds IH]; intros s Hr; [by left|]. simpl in Hr.
  apply IH in Hr as [Hr|(d' & ? & ? & ?)]; [|right; exists d'; split; [by right|done]].
  apply add_phantoms_lookup in Hr as [[? ->]|[_ ?]]; [|by left].
  right. exists d. split; [left|done].
Qed.

Lemma foldl_phantoms_keep s ds t :
  (∀ d, d ∈ ds → t ∉ spawned_threads d) → foldl add_phantoms s ds !! t = s !! t.
Proof.
  revert s. induction ds as [|d ds IH]; intros s Hd; [done|]. simpl.
  rewrite IH by (intros; apply Hd; by right). apply option_eq. intros r.
  rewrite add_phantoms_lookup. pose proof (Hd d (list_elem_of_here _ _)). naive_solver.
Qed.

(** The state [move_refs] leaves for the referenced blocks [ds]. *)
Definition moved s ds : ThreadReferencesState :=
  extend (foldl add_phantoms s ds) (keep_tails values (ref_of <$> ds)).

(** Every tracked thread has its spawning block covered. *)
Definition spawns_covered s : Prop :=
  ∀ t r b d, s !! t = Some r → ThreadIdentifier_is_spawning_block t b = true →
    get_ref_data b = Some d → covered s d.

(** A thread starts at the block that spawned it. *)
Definition threads_start_at_spawn : Prop :=
  ∀ b d p, get_ref_data b = Some d → get_ref_data (data_parent d) = Some p →
    data_thread p = data_thread d ∨
    ThreadIdentifier_is_spawning_block (data_thread d) (data_parent d) = true.

Section moved.
Variables (self : ThreadReferencesState) (refs ids : list BlockIdentifier) (ds : list Data).
Hypothesis grow : seq_nos_grow get_ref_data.
Hypothesis spawn : threads_start_at_spawn.
Hypothesis Hinv : spawns_covered self.
Hypothesis Hclosure : reference_closure get_ref_data self refs ids.
Hypothesis Hds : Forall2 (λ b d, get_ref_data b = Some d) ids ds.

Lemma ds_elem d : d ∈ ds → get_ref_data (data_block_identifier d) = Some d ∧
  data_block_identifier d ∈ ids ∧ ¬ covered self d.
Proof.
  intros (i & Hi)%list_elem_of_lookup. destruct (Forall2_lookup_r _ _ _ _ _ Hds Hi) as (b & Hb & Hd).
  destruct (grow _ _ Hd) as (-> & _). apply list_elem_of_lookup_2 in Hb. split_and!; [done..|].
  destruct (closure_new _ _ _ _ Hclosure _ Hb) as (_ & d' & ? & ?). by simplify_eq.
Qed.

Lemma ids_elem b d : b ∈ ids → get_ref_data b = Some d → d ∈ ds.
Proof.
  intros (i & Hi)%list_elem_of_lookup Hd.
  destruct (Forall2_lookup_l _ _ _ _ _ Hds Hi) as (d' & ? & ?). simplify_eq.
  by eapply list_elem_of_lookup_2.
Qed.

(** No tracked thread is spawned by a block that was not covered. *)
Lemma tracked_not_spawned t r d : self !! t = Some r → d ∈ ds → t ∉ spawned_threads d.
Proof.
  intros Hr (Hd & _ & Hn)%ds_elem Ht%spawned_threads_elem. by apply Hn, (Hinv t r (data_block_identifier d) d).
Qed.

Lemma moved_lookup t r :
  moved self ds !! t = Some r →
  self !! t = Some r ∨
  ∃ d, d ∈ ds ∧ r = ref_of d ∧
    (data_thread d = t ∨ ThreadIdentifier_is_spawning_block t (data_block_identifier d) = true).
Proof.
  unfold moved. rewrite extend_keep_tails. destruct (keep_tails_map (ref_of <$> ds) ∅) as (_ & _ & H3).
  intros [Hr|[_ Hr]].
  - apply H3 in Hr as [Hr|[(d & -> & Hd)%list_elem_of_fmap Ht]]; [by rewrite lookup_empty in Hr|].
    right. exists d. auto.
  - apply foldl_phantoms in Hr as [?|(d & ? & ? & ?%spawned_threads_elem)]; [by left|right].
    exists d. auto.
Qed.

Lemma moved_covers d : d ∈ ds → covered (moved self ds) d.
Proof.
  intros Hd. destruct (keep_tails_map (ref_of <$> ds) ∅) as (_ & H2 & _).
  destruct (H2 (ref_of d)) as (r & Hr & Hle); [by apply list_elem_of_fmap_2|].
  exists r. split; [|done]. apply extend_keep_tails. by left.
Qed.

Lemma moved_extends : extends (Payload := Payload) self (moved self ds).
Proof.
  intros d (r & Hr & Hle). destruct (foldl keep_tail ∅ (ref_of <$> ds) !! data_thread d) as [r'|] eqn:Hk.
  - exists r'. split; [apply extend_keep_tails; by left|].
    destruct (keep_tails_map (ref_of <$> ds) ∅) as (_ & _ & H3).
    apply H3 in Hk as [Hk|[(x & -> & Hx)%list_elem_of_fmap Ht]]; [by rewrite lookup_empty in Hk|].
    destruct (ds_elem _ Hx) as (_ & _ & Hn). simpl in *.
    destruct (decide (data_seq_no x ≤ referenced_seq_no r)); [|lia].
    destruct Hn. exists r. split; [congruence|done].
  - exists r. split; [|done]. apply extend_keep_tails. right. split; [done|].
    rewrite foldl_phantoms_keep; [done|]. intros x Hx. by eapply tracked_not_spawned.
Qed.

Lemma covered_with_moved d : covered_with get_ref_data self ids d → covered (moved self ds) d.
Proof.
  intros [Hd|(b & x & Hb & Hx & Ht & Hle)]; [by apply moved_extends|].
  destruct (moved_covers x) as (r & Hr & Hle'); [by eapply ids_elem|].
  exists r. split; [congruence|lia].
Qed.

(** By induction on the order in which the blocks were referenced, the thread of each has
    its spawning block covered. *)
Lemma referenced_spawn_covered b0 d0 b d :
  b0 ∈ ids → get_ref_data b0 = Some d0 →
  ThreadIdentifier_is_spawning_block (data_thread d0) b = true → get_ref_data b = Some d →
  covered (moved self ds) d.
Proof.
  destruct (closure_order _ _ _ _ Hclosure) as (l & Hl & Hord). rewrite <- Hl.
  intros (l1 & l2 & ->)%list_elem_of_split. revert b0 l2 d0 Hl Hord.
  induction l1 as [l1 IH] using (induction_ltof1 _ length); intros b0 l2 d0 Hl Hord Hd0 Hsp Hd.
  destruct (Hord l1 b0 l2 eq_refl) as (d0' & p & ? & Hp & Hcov). simplify_eq.
  destruct (spawn _ _ _ Hd0 Hp) as [Ht|Hsp'].
  - destruct Hcov as [(r & Hr & _)|(y & x & (k1 & k2 & ->)%list_elem_of_split & Hx & Htx & _)].
    + apply moved_extends. rewrite Ht in Hr. by eapply Hinv.
    + rewrite <- Ht, <- Htx in Hsp. eapply (IH k1); [|..|exact Hx|done|done].
      * unfold ltof. rewrite length_app. simpl. lia.
      * rewrite <- (assoc_L (++)) in Hl. exact Hl.
      * intros m1 c m2 Heq. apply (Hord m1 c m2). rewrite <- Heq. by rewrite <- (assoc_L (++)).
  - rewrite (spawning_block_unique _ _ _ Hsp Hsp') in Hd. simplify_eq.
    apply covered_with_moved. eapply covered_with_mono; [|exact Hcov].
    intros c Hc. rewrite <- Hl, elem_of_app. by left.
Qed.

Lemma moved_spawns_covered : spawns_covered (moved self ds).
Proof.
  intros t r b d [Hr|(x & Hx & -> & Ht)]%moved_lookup Hsp Hd.
  { apply moved_extends. by eapply Hinv. }
  destruct (ds_elem _ Hx) as (Hxd & Hxi & _). destruct Ht as [<-|Ht].
  - by eapply referenced_spawn_covered.
  - rewrite (spawning_block_unique _ _ _ Hsp Ht) in Hd. simplify_eq. by apply moved_covers.
Qed.
End moved.

(** What [move_refs] promises for its outcome. *)
Definition move_result self refs (o : outcome MoveError (list Data * ThreadReferencesState)) : Prop :=
  match o with
  | Ok (ds, self') =>
      NoDup (data_block_identifier <$> ds) ∧
      (∀ d, d ∈ ds → get_ref_data (data_block_identifier d) = Some d ∧ ¬ covered self d ∧
                     reached get_ref_data self refs (data_block_identifier d)) ∧
      extends (Payload := Payload) self self' ∧
      spawns_covered self' ∧
      (∀ b, b ∈ refs → ∃ d, get_ref_data b = Some d ∧ covered self' d) ∧
      (∀ d c, d ∈ ds → c ∈ data_parent d :: block_refs d →
              ∃ x, get_ref_data c = Some x ∧ covered self' x) ∧
      (∀ t r, self' !! t = Some r → self !! t = Some r ∨
         ∃ d, d ∈ ds ∧ r = ref_of d ∧
           (data_thread d = t ∨
            ThreadIdentifier_is_spawning_block t (data_block_identifier d) = true))
  | Err (MoveRef e) => ref_error get_ref_data self refs e
  | Err CannotReference | Panic => False
  end.

Lemma closure_parents self refs ids b d :
  reference_closure get_ref_data self refs ids → b ∈ ids → get_ref_data b = Some d →
  ∃ p, get_ref_data (data_parent d) = Some p ∧ covered_with get_ref_data self ids p.
Proof.
  intros Hc Hb Hd. destruct (closure_order _ _ _ _ Hc) as (l & Hl & Hord).
  rewrite <- Hl in Hb. apply list_elem_of_split in Hb as (l1 & l2 & ->).
  destruct (Hord _ _ _ eq_refl) as (d' & p & ? & Hp & Hcov). simplify_eq.
  exists p. split; [done|]. eapply covered_with_mono; [|done].
  intros c Hin. rewrite <- Hl, elem_of_app. by left.
Qed.

Lemma moved_result self refs ids ds :
  seq_nos_grow get_ref_data → threads_start_at_spawn → spawns_covered self →
  reference_closure get_ref_data self refs ids →
  Forall2 (λ b d, get_ref_data b = Some d) ids ds →
  move_result self refs (Ok (ds, moved self ds)).
Proof.
  intros Hg Hsp Hinv Hc Hds.
  assert (Hids : data_block_identifier <$> ds = ids).
  { clear Hc. induction Hds as [|b d ids ds Hd _ IH]; [done|].
    rewrite fmap_cons, IH. by destruct (Hg _ _ Hd) as (-> & _). }
  split_and!.
  - rewrite Hids. apply (closure_nodup _ _ _ _ Hc).
  - intros d Hd. destruct (ds_elem self refs ids ds Hg Hc Hds d Hd) as (? & Hi & ?).
    split_and!; [done..|]. by destruct (closure_new _ _ _ _ Hc _ Hi).
  - by eapply moved_extends.
  - by eapply moved_spawns_covered.
  - intros b Hb. destruct (closure_roots _ _ _ _ Hc _ Hb) as (d & ? & ?). exists d.
    split; [done|]. by eapply covered_with_moved.
  - intros d c Hd Hcin. destruct (ds_elem self refs ids ds Hg Hc Hds d Hd) as (Hd' & Hi & _).
    apply elem_of_cons in Hcin as [->|Hcin].
    + destruct (closure_parents _ _ _ _ _ Hc Hi Hd') as (p & ? & ?). exists p.
      split; [done|]. by eapply covered_with_moved.
    + destruct (closure_refs _ _ _ _ Hc _ _ _ Hi Hd' Hcin) as (x & ? & ?). exists x.
      split; [done|]. by eapply covered_with_moved.
  - intros t r. by apply moved_lookup.
Qed.

(** C34 (which blocks a query references): [can_reference] ends within a number of iterations
    given by the stored references, never panics and never answers [No].  When it answers
    [Yes], the explicit and implicit lists together hold, once each, blocks that were not
    covered and are reached from the query through parents and references; every block of the
    query, and every reference of a listed block, is stored and covered by the previous state
    and the list; and the blocks can be ordered so that each comes after its parent has been
    covered.  The lists are split by whether the state had the block as a tail.  An error
    names a reached block that cannot be read, or one that collides with another block of the
    same thread and sequence number. *)
Theorem can_reference_closed self refs universe fuel wfuel :
  seq_nos_grow get_ref_data → stored_in get_ref_data universe →
  (search_fuel get_ref_data universe refs ≤ fuel)%nat →
  (walk_fuel get_ref_data universe ≤ wfuel)%nat →
  ∃ o, can_reference get_ref_data set_iter fuel wfuel self refs = Some o ∧
       can_reference_result get_ref_data self refs o.
Proof. by apply can_reference_sound. Qed.

(** Moving the references: [move_refs] ends, never panics on its [expect] and never
    bails out; when it succeeds it returns, once each, newly referenced blocks reached from
    the query; the new state covers everything the old one covered, all blocks of the query,
    and the parents and references of all returned blocks; each of its entries is an old
    entry or a returned block, in its own thread or in a thread it spawns.  The invariant
    that the spawning block of every tracked thread is covered is kept. *)
Theorem move_refs_advances self refs universe fuel wfuel :
  seq_nos_grow get_ref_data → threads_start_at_spawn → stored_in get_ref_data universe →
  spawns_covered self →
  (search_fuel get_ref_data universe refs ≤ fuel)%nat →
  (walk_fuel get_ref_data universe ≤ wfuel)%nat →
  ∃ o, move_refs get_ref_data set_iter values fuel wfuel self refs = Some o ∧
       move_result self refs o.
Proof.
  intros Hg Hsp Hu Hinv Hf Hw. unfold move_refs.
  destruct (can_reference_sound get_ref_data set_iter set_iter_elements self refs universe
              fuel wfuel Hg Hu Hf Hw) as (o & -> & Ho).
  destruct o as [[|rs]|e|]; simpl in Ho; try done; [|eauto].
  destruct Ho as (Hc & _). set (ids := _ ++ _) in *.
  destruct (stored_blocks ids) as (ds & Hds).
  { intros b Hb. destruct (closure_new _ _ _ _ Hc _ Hb) as (_ & d & ? & _). eauto. }
  eexists; split; [done|]. cbv zeta.
  rewrite (phantoms_loop_Ok _ _ _ Hds), (map_expect_Ok _ _ Hds), (map_read_Ok _ _ Hds).
  by eapply moved_result.
Qed.
End move.

(** ** A store of two threads

    The main thread has the blocks [z], [a] and [c]; [a] spawns a thread whose first block
    [b] references [c]. *)
Module Example_store.
Definition id (k : Z) : BlockIdentifier := BlockId (replicate 32 k).
Definition spawned : ThreadIdentifier := ThreadIdentifier_new (id 1) 1.
Definition main : ThreadIdentifier := ThreadIdentifier_default.
Definition block (k seq_no : Z) (t : ThreadIdentifier) (table : ThreadsTable) (parent : Z)
    (refs : list BlockIdentifier) : CrossThreadRefData unit :=
  mkCrossThreadRefData (id k) seq_no t () table (id parent) refs.
Definition table : ThreadsTable := [(Bitmask_default, spawned); default_row].
Definition data (b : BlockIdentifier) : option (CrossThreadRefData unit) :=
  if decide (b = id 0) then Some (block 0 0 main ThreadsTable_default 9 [])
  else if decide (b = id 1) then Some (block 1 1 main table 0 [])
  else if decide (b = id 2) then Some (block 2 2 spawned table 1 [id 3])
  else if decide (b = id 3) then Some (block 3 2 main table 1 [])
  else None.
Definition universe : list BlockIdentifier := [id 0; id 1; id 2; id 3].
Definition state : ThreadReferencesState := {[ main := mkReferencedBlock main (id 0) 0 ]}.
Definition moved_state : ThreadReferencesState :=
  {[ main := mkReferencedBlock main (id 3) 2; spawned := mkReferencedBlock spawned (id 2) 2 ]}.

Definition ends_moved
    (o : option (outcome MoveError (list (CrossThreadRefData unit) * ThreadReferencesState))) :
    bool :=
  match o with Some (Ok (_, s)) => bool_decide (s = moved_state) | _ => false end.

Lemma data_cases b d :
  data b = Some d →
  (b = id 0 ∧ d = block 0 0 main ThreadsTable_default 9 []) ∨
  (b = id 1 ∧ d = block 1 1 main table 0 []) ∨
  (b = id 2 ∧ d = block 2 2 spawned table 1 [id 3]) ∨
  (b = id 3 ∧ d = block 3 2 main table 1 []).
Proof. unfold data. repeat case_decide; naive_solver. Qed.

Lemma data_grow : seq_nos_grow data.
Proof.
  intros b d [[-> ->]|[[-> ->]|[[-> ->]|[-> ->]]]]%data_cases; simpl;
    (split_and!; [done|lia|]); vm_compute; intros p Hp; simplify_eq; done.
Qed.

Lemma data_stored : stored_in data universe.
Proof.
  unfold universe. intros b d [[-> _]|[[-> _]|[[-> _]|[-> _]]]]%data_cases; set_solver.
Qed.

Lemma data_spawn : threads_start_at_spawn data.
Proof.
  intros b d p [[-> ->]|[[-> ->]|[[-> ->]|[-> ->]]]]%data_cases; vm_compute; intros Hp;
    simplify_eq; try (by left); by right.
Qed.

Lemma state_spawns : spawns_covered data state.
Proof.
  unfold state. intros t r b d [<- <-]%lookup_singleton_Some Hb Hd.
  apply data_cases in Hd as [[-> ->]|[[-> ->]|[[-> ->]|[-> ->]]]]; try by vm_compute in Hb.
  eexists. by vm_compute.
Qed.
End Example_store.

Lemma can_reference_closed_witness :
  ∃ o, can_reference Example_store.data elements 9 9 Example_store.state [Example_store.id 2]
         = Some o ∧
       can_reference_result Example_store.data Example_store.state [Example_store.id 2] o ∧
       is_ok o = true.
Proof.
  destruct (can_reference_closed Example_store.data elements (λ X, Permutation_refl _)
    Example_store.state [Example_store.id 2] Example_store.universe 9 9)
    as (o & Ho & Hr); [apply Example_store.data_grow|apply Example_store.data_stored|
    apply Nat.leb_le; vm_compute; reflexivity..|].
  exists o. split_and!; [exact Ho|exact Hr|].
  apply (f_equal (λ x, match x with Some o => is_ok o | None => false end)) in Ho.
  rewrite <- Ho. vm_compute. reflexivity.
Defined.

Lemma move_refs_advances_witness :
  ∃ ds, move_refs Example_store.data elements (λ m, (map_to_list m).*2) 9 9
          Example_store.state [Example_store.id 2]
        = Some (Ok (ds, Example_store.moved_state)) ∧
        move_result Example_store.data Example_store.state [Example_store.id 2]
          (Ok (ds, Example_store.moved_state)).
Proof.
  destruct (move_refs_advances Example_store.data elements (λ X, Permutation_refl _)
    (λ m, (map_to_list m).*2) (λ m, Permutation_refl _)
    Example_store.state [Example_store.id 2] Example_store.universe 9 9)
    as (o & Ho & Hr);
    [apply Example_store.data_grow|apply Example_store.data_spawn|apply Example_store.data_stored|
     apply Example_store.state_spawns|apply Nat.leb_le; vm_compute; reflexivity..|].
  assert (Hm : Example_store.ends_moved (Some o) = true)
    by (rewrite <- Ho; vm_compute; reflexivity).
  destruct o as [[ds s]|e|]; [|discriminate Hm..]. apply bool_decide_eq_true in Hm. subst s.
  exists ds. split; [exact Ho|exact Hr].
Defined.
