(* ===== verification/BlockProcessor.v ===== *)
(** * BlockProcessor: the candidate block pipeline.

    [node/services/block_processor/service.rs] and its [rules/], and
    [node/services/attestations_target/service.rs].  The service runs
    [process_candidate_block] on every unfinalized block of a thread, again and again: each
    run moves the block as far as it can go through the checks (keeper set, common
    parameters, signatures and attestations, statistics and attestation target, ancestors'
    attestations, references) until it is applied.

    The store is the shared block state repository of BlockState.v.  What the block asks of
    other services is recorded as a list of [Effect]s.  Executing a block, the optimistic
    states, the hash of a block and the random draw that selects a validator (a [powf] in
    [f64]) are parameters; so is the hash order of sets.  Clocks, metrics and traces are left
    out. *)
From stdpp Require Import base numbers gmap strings fin_maps sorting list.
From S2P Require Import Prelude Identifiers Bitmask Bls BlockKeepers Envelope Attestation Checkpoints Statistics BlockState.

Definition MAX_ATTESTATION_TARGET_BETA : nat := 30.
Definition MAX_STATE_ANCESTORS : nat := 10.

(** What the accessors of a candidate block and of its common section return. *)
Record CandidateBlock `{Blst} := mkCandidate {
  cb_identifier : BlockIdentifier;
  cb_seq_no : BlockSeqNo;
  cb_block_height : BlockHeight;
  cb_thread_id : ThreadIdentifier;
  cb_producer_id : NodeIdentifier;
  cb_block_attestations : list (Envelope AttestationData);
  cb_refs : list BlockIdentifier;
  cb_block_keeper_set_changes : list BlockKeeperSetChange;
  cb_threads_table : option ThreadsTable;
  (** the states the block asks to share *)
  cb_share_state_resources : option (gmap ThreadIdentifier BlockIdentifier);
  cb_is_thread_splitting : bool;
  cb_parent : BlockIdentifier;
  (** [time()], which fails when the block info cannot be read *)
  cb_time : option Z;
  cb_round : Z;
  cb_producer_selector : option ProducerSelector;
}.

(** The calls on other services. *)
Inductive Effect :=
  | BlockPrefinalized (t : ThreadIdentifier) (h : option BlockHeight)
  | BlockApplied (t : ThreadIdentifier) (h : BlockHeight)
  | Validate (b : BlockIdentifier)
  | NackBadBlock (b : BlockIdentifier)
  | AwaitCrossThreadRefData (b : BlockIdentifier) (missing : list BlockIdentifier)
  | CrossThreadRefDataPrepared (b : BlockIdentifier)
  | SaveOptimisticState (b : BlockIdentifier)
  | ShareStates (b : BlockIdentifier)
  | Shutdown.

Inductive ProcessError :=
  | CommonCheckDataMissing
  | SelectorDataMissing
  | HashCheckFailed
  | OptimisticStateFailed
  | StoreFailed
  | ShareFailed.

(** The answers of [repository.get_optimistic_state]. *)
Inductive OptimisticResult :=
  | Loaded
  | NotLoaded
  | BlockNotFound
  | DepthSearchMinStateLimitReached
  | OtherError.

Section processor.
Context `{Blst} {NackData : Type} `{EqDecision NackData}.
Context `{Serialize AttestationData} `{Serialize CandidateBlock}.
Notation Repo := (Repository NackData).
Notation result A := (outcome ProcessError A).

Variable set_iter : gset BlockIdentifier → list BlockIdentifier.
Variable iter_order : gset NodeIdentifier → list NodeIdentifier.
Variable shuffle : list Z → list NodeIdentifier → list NodeIdentifier.

(** [block_state.guarded_mut(|e| e.set_f(v))] with a generated setter *)
Definition repo_set (r : Repo) (id : BlockIdentifier) (f : fact) (v : fact_type f) : result Repo :=
  unwrap_ok (generated_setter (repo_get r id) f v) ≫= λ s, Ok (<[id := s]> r).

Definition set_if_none (r : Repo) (id : BlockIdentifier) (f : fact) (v : fact_type f) :
    result Repo :=
  match get (repo_get r id) f with
  | None => repo_set r id f v
  | Some _ => Ok r
  end.

(** ** Keeper sets *)
Definition set_bk_set (r : Repo) (id : BlockIdentifier) : result (Repo * bool) :=
  let s := repo_get r id in
  match get s bk_set with
  | Some _ => Ok (r, true)
  | None =>
      match get s parent_block_identifier with
      | None => Ok (r, false)
      | Some parent_id =>
          let parent := repo_get r parent_id in
          match get parent descendant_bk_set, get parent descendant_future_bk_set with
          | Some keepers, Some future_keepers =>
              set_if_none r id bk_set keepers ≫= λ r,
              set_if_none r id future_bk_set future_keepers ≫= λ r, Ok (r, true)
          | _, _ => Ok (r, false)
          end
      end
  end.

Definition set_descendant_bk_set (r : Repo) (id : BlockIdentifier) (block : CandidateBlock) :
    result Repo :=
  let s := repo_get r id in
  match get s descendant_bk_set, get s descendant_future_bk_set with
  | Some _, Some _ => Ok r
  | _, _ =>
      match get s bk_set, get s future_bk_set with
      | Some keepers, Some future_keepers =>
          if negb (is_stored s) then Ok r
          else
            let '(keepers, future_keepers) :=
              default (keepers, future_keepers)
                (update_block_keeper_set_from_common_section
                   (cb_block_keeper_set_changes block) keepers future_keepers) in
            set_if_none r id descendant_bk_set keepers ≫= λ r,
            set_if_none r id descendant_future_bk_set future_keepers
      | _, _ => Ok r
      end
  end.

(** The ancestors of a block: its parent and the nearest of the parent's. *)
Definition set_ancestors (r : Repo) (id parent_id : BlockIdentifier) : result Repo :=
  match get (repo_get r id) ancestors with
  | Some _ => Ok r
  | None =>
      match get (repo_get r parent_id) ancestors with
      | None => Ok r
      | Some parent_ancestors =>
          repo_set r id ancestors (parent_id :: take (MAX_STATE_ANCESTORS - 1) parent_ancestors)
      end
  end.

(** ** Common checks *)
(** [Vec::dedup] *)
Fixpoint dedup {A} `{EqDecision A} (l : list A) : list A :=
  match l with
  | [] => []
  | x :: l =>
      match dedup l with
      | [] => [x]
      | y :: l' => if bool_decide (x = y) then y :: l' else x :: y :: l'
      end
  end.

(** [AckiNackiBlock::check_hash] *)
Variable check_hash : CandidateBlock → result bool.

Definition check_threads_table (block : CandidateBlock) : result unit :=
  match cb_threads_table block with
  | Some table =>
      assert_that (bool_decide (length (dedup (fst <$> table)) = length (fst <$> table)))
  | None => Ok ()
  end.

Definition check_common_block_params (r : Repo) (block : CandidateBlock)
    (parent_id id : BlockIdentifier) : result bool :=
  let parent := repo_get r parent_id in
  let s := repo_get r id in
  match get parent block_time_ms, get parent block_seq_no, get parent block_height with
  | Some _, Some parent_seq_no, Some parent_height =>
      if bool_decide (cb_seq_no block ≤ parent_seq_no)%Z then Ok false
      else
        BlockHeight_next parent_height (cb_thread_id block) ≫= λ next_height,
        if bool_decide (cb_block_height block ≠ next_height) then Ok false
        else
          match get s bk_set, get s producer_selector_data with
          | Some keepers, Some selector =>
              match is_node_bp iter_order shuffle selector keepers (cb_producer_id block) with
              | Panic => Panic
              | Err _ => Ok false
              | Ok false => Ok false
              | Ok true => check_threads_table block ≫= λ _, check_hash block
              end
          | _, _ => Err SelectorDataMissing
          end
  | _, _, _ => Err CommonCheckDataMissing
  end.

(** ** Signatures of the block and of its attestations *)
(** What happens to one attestation of the block. *)
Inductive AttestationCheck :=
  | Skipped
  | Wrong
  | Verified.

Definition check_attestation (r : Repo)
    (previously_verified_attestations : gset (BlockIdentifier * AttestationTargetType))
    (skipped_attestation_ids : gset BlockIdentifier) (attestation : Envelope AttestationData) :
    result AttestationCheck :=
  let d := data attestation in
  let attested := repo_get r (att_block_id d) in
  if bool_decide ((att_block_id d, att_target_type d) ∈ previously_verified_attestations) then Ok Skipped
  else if bool_decide (att_block_id d ∈ skipped_attestation_ids) then Ok Skipped
  else if is_invalidated attested then Ok Skipped
  else
    match get attested envelope_hash with
    | None => Ok Skipped
    | Some hash =>
        if bool_decide (hash ≠ att_envelope_hash d) then Ok Wrong
        else
          match get attested bk_set with
          | None => Ok Skipped
          | Some keepers =>
              unwrap_ok (Envelope_verify_signatures attestation
                           (BlockKeeperSet_get_pubkeys_by_signers keepers)) ≫= λ valid : bool,
              Ok (if valid then Verified else Wrong)
          end
    end.

(** The loop over the attestations; [None] is [return Some(false)]. *)
Fixpoint check_attestations (r : Repo)
    (previously_verified_attestations : gset (BlockIdentifier * AttestationTargetType))
    (skipped_attestation_ids : gset BlockIdentifier)
    (verified_attestations : list (Envelope AttestationData))
    (attestations : list (Envelope AttestationData)) :
    result (option (list (Envelope AttestationData))) :=
  match attestations with
  | [] => Ok (Some verified_attestations)
  | attestation :: attestations =>
      check_attestation r previously_verified_attestations skipped_attestation_ids attestation
      ≫= λ c,
      match c with
      | Skipped =>
          check_attestations r previously_verified_attestations skipped_attestation_ids
            verified_attestations attestations
      | Wrong => Ok None
      | Verified =>
          check_attestations r previously_verified_attestations skipped_attestation_ids
            (verified_attestations ++ [attestation]) attestations
      end
  end.

Definition add_verified (s : AckiNackiBlockState NackData) (a : Envelope AttestationData) :
    AckiNackiBlockState NackData :=
  add_verified_attestations_for s (att_block_id (data a)) (att_target_type (data a))
    (dom (signature_occurrences a)).

(** [verify_all_block_signatures]: [None] is "cannot be checked yet".  The assertion on a
    racing verification cannot fail here, since the fact is read and written under one lock
    of the model. *)
Definition verify_block_signature (r : Repo) (block : Envelope CandidateBlock)
    (id : BlockIdentifier) : result (Repo * option bool) :=
  let s := repo_get r id in
  match get s envelope_block_producer_signature_verified with
  | Some valid => Ok (r, Some valid)
  | None =>
      match get s bk_set with
      | None => Ok (r, None)
      | Some keepers =>
          unwrap_ok (Envelope_verify_signatures block
                       (BlockKeeperSet_get_pubkeys_by_signers keepers)) ≫= λ valid : bool,
          match BlockKeeperSet_get_by_node_id keepers (cb_producer_id (data block)) with
          | None => Ok (r, Some false)
          | Some producer_data =>
              if negb (Envelope_has_signer_index block (signer_index producer_data))
              then Ok (r, Some false)
              else
                repo_set r id envelope_block_producer_signature_verified valid ≫= λ r,
                Ok (r, Some valid)
          end
      end
  end.

Definition verify_block_attestations (r : Repo) (block : Envelope CandidateBlock)
    (id : BlockIdentifier) (skipped_attestation_ids : gset BlockIdentifier) :
    result (Repo * option bool) :=
  let previously_verified := dom (verified_attestations (repo_get r id)) in
  let attestations := cb_block_attestations (data block) in
  if bool_decide (size previously_verified = length attestations) then Ok (r, Some true)
  else
    check_attestations r previously_verified skipped_attestation_ids [] attestations ≫= λ c,
    match c with
    | None => Ok (r, Some false)
    | Some verified => Ok (repo_update r id (λ s, foldl add_verified s verified), Some true)
    end.

Definition verify_all_block_signatures (r : Repo) (block : Envelope CandidateBlock)
    (id : BlockIdentifier) (skipped_attestation_ids : gset BlockIdentifier) :
    result (Repo * option bool) :=
  verify_block_signature r block id ≫= λ '(r, valid),
  match valid with
  | Some true => verify_block_attestations r block id skipped_attestation_ids
  | _ => Ok (r, valid)
  end.

(** ** Statistics and the attestation target *)
Definition primary_attestation_target (bk_set_len : nat) : nat := (2 * bk_set_len + 2) / 3.
Definition fallback_attestation_target (bk_set_len : nat) : nat := bk_set_len / 2 + 1.

Definition descendant_generations (median parent_deadline : nat) : nat :=
  if bool_decide (median < parent_deadline) then parent_deadline - 1
  else if bool_decide (median < MAX_ATTESTATION_TARGET_BETA) then median
  else MAX_ATTESTATION_TARGET_BETA.

Definition attestation_targets (bk_set_len generations : nat) : AttestationTargets :=
  mkAttestationTargets
    (mkAttestationTarget generations (primary_attestation_target bk_set_len))
    (mkAttestationTarget (2 * generations + 1) (fallback_attestation_target bk_set_len)).

(** The distance at which the parent finalized a block, from the grandparent's checkpoints. *)
Definition finalization_distance (checkpoints : AncestorBlocksFinalizationCheckpoints)
    (b : BlockIdentifier) : result nat :=
  match fallback checkpoints !! b with
  | Some (checkpoint :: _) => Ok (current_distance checkpoint + 2)
  | _ => unwrap (primary checkpoints !! b) ≫= λ checkpoint, Ok (current_distance checkpoint + 2)
  end.

Definition seq_no_order (a b : BlockSeqNo * BlockIdentifier) : Prop := (a.1 ≤ b.1)%Z.
#[global] Instance seq_no_order_dec : RelDecision seq_no_order.
Proof. unfold seq_no_order. intros a b. apply _. Defined.

(** [None] is "not ready yet, skip the block". *)
Definition finalized_block_distances (r : Repo) (parent_id : BlockIdentifier) :
    result (option (list nat)) :=
  let parent := repo_get r parent_id in
  let is_zero := bool_decide (parent_id = BlockIdentifier_default) in
  match (if is_zero then Some BlockIdentifier_default else get parent parent_block_identifier),
        (if is_zero then Some ∅ else get parent finalizes_blocks) with
  | Some grandparent_id, Some finalized_by_parent =>
      map_outcome (λ b, unwrap (get (repo_get r b) block_seq_no) ≫= λ n, Ok (n, b))
        (set_iter finalized_by_parent) ≫= λ blocks,
      let blocks := merge_sort seq_no_order blocks in
      match blocks with
      | [] => Ok (Some [])
      | _ =>
          if bool_decide (grandparent_id = BlockIdentifier_default) then Ok (Some [])
          else
            match get (repo_get r grandparent_id) ancestor_blocks_finalization_checkpoints with
            | None => Ok None
            | Some checkpoints =>
                map_outcome (λ b, finalization_distance checkpoints b.2) blocks ≫= λ ds,
                Ok (Some ds)
            end
      end
  | _, _ => Ok None
  end.

(** The node's identifier; the draw of the node for a block, from the random seed it keeps
    for its public key; and the comparison of a draw with [calculate_v_parameter]. *)
Variable node_id : NodeIdentifier.
Variable draw : PubKey → BlockIdentifier → option Z.
Variable within_v : nat → nat → Z → bool.
(** Whether [SHUTDOWN_FLAG] is set already: setting it again is an error, which is unwrapped. *)
Variable shutdown_set : bool.

Definition set_validator (r : Repo) (id : BlockIdentifier) (keepers : BlockKeeperSet) :
    result (Repo * list Effect) :=
  let n := BlockKeeperSet_len keepers in
  match BlockKeeperSet_get_by_node_id keepers node_id with
  | None => Ok (r, [])
  | Some keeper =>
      match draw (pubkey keeper) id with
      | None => if shutdown_set then Panic else Ok (r, [Shutdown])
      | Some this_block =>
          if within_v (primary_attestation_target n) n this_block
          then repo_set r id must_be_validated true ≫= λ r, Ok (r, [])
          else if within_v (fallback_attestation_target n) n this_block
          then repo_set r id must_be_validated_in_fallback_case true ≫= λ r, Ok (r, [])
          else Ok (r, [])
      end
  end.

Definition set_attestation_target (r : Repo) (id parent_id : BlockIdentifier)
    (keepers : BlockKeeperSet) (stats : BlockStatistics) : result Repo :=
  match get (repo_get r id) attestation_target with
  | Some _ => Ok r
  | None =>
      unwrap (get (repo_get r parent_id) attestation_target) ≫= λ parent_target,
      repo_set r id attestation_target
        (attestation_targets (BlockKeeperSet_len keepers)
           (descendant_generations (median_descendants_chain_length_to_meet_threshold stats)
              (generation_deadline (primary_target parent_target))))
  end.

(** The block statistics, the draw and the attestation target; [None] skips the block. *)
Definition set_consensus_params (r : Repo) (id parent_id : BlockIdentifier) :
    result (option (Repo * list Effect)) :=
  match get (repo_get r id) block_stats, get (repo_get r id) bk_set,
        get (repo_get r parent_id) block_stats with
  | None, Some keepers, Some parent_stats =>
      finalized_block_distances r parent_id ≫= λ distances,
      match distances with
      | None => Ok None
      | Some distances =>
          BlockStatistics_next parent_stats distances None ≫= λ stats,
          set_validator r id keepers ≫= λ '(r, effects),
          set_attestation_target r id parent_id keepers stats ≫= λ r,
          set_if_none r id block_stats stats ≫= λ r, Ok (Some (r, effects))
      end
  | _, _, _ => Ok (Some (r, []))
  end.

(** ** Attestations for the ancestors *)
Definition find_attestation (block : CandidateBlock) (b : BlockIdentifier)
    (t : AttestationTargetType) : option (Envelope AttestationData) :=
  head (filter (λ a : Envelope AttestationData,
          att_block_id (data a) = b ∧ att_target_type (data a) = t) (cb_block_attestations block)).

(** The accumulator of the loops: the store, the effects and [max_finalized_ancestor]. *)
Notation Acc := (Repo * list Effect * option (BlockSeqNo * BlockIdentifier))%type.

(** [if max.is_none() || max.0 > block_seq_no] *)
Definition choose_ancestor (m : option (BlockSeqNo * BlockIdentifier)) (seq_no : BlockSeqNo)
    (b : BlockIdentifier) : option (BlockSeqNo * BlockIdentifier) :=
  match m with
  | Some (n, _) => if bool_decide (seq_no < n)%Z then Some (seq_no, b) else m
  | None => Some (seq_no, b)
  end.

Definition state_set (s : AckiNackiBlockState NackData) (f : fact) (v : fact_type f) :
    result (AckiNackiBlockState NackData) := unwrap_ok (generated_setter s f v).

Definition state_set_if_none (s : AckiNackiBlockState NackData) (f : fact) (v : fact_type f) :
    result (AckiNackiBlockState NackData) :=
  match get s f with None => state_set s f v | Some _ => Ok s end.

(** A block without a prefinalization proof gets the primary attestation of the candidate. *)
Definition prefinalize (block : CandidateBlock) (b : BlockIdentifier)
    (s : AckiNackiBlockState NackData) : result (AckiNackiBlockState NackData * list Effect) :=
  match get s prefinalization_proof with
  | Some _ => Ok (s, [])
  | None =>
      unwrap (find_attestation block b Primary) ≫= λ attestation,
      let s := set_prefinalized s attestation in
      unwrap (get s thread_identifier) ≫= λ t, Ok (s, [BlockPrefinalized t (get s block_height)])
  end.

(** A finalization proof and its flag. *)
Definition set_proof (block : CandidateBlock) (b : BlockIdentifier) (t : AttestationTargetType)
    (proof : fact) (cast : Envelope AttestationData → fact_type (NackData := NackData) proof)
    (s : AckiNackiBlockState NackData) : result (AckiNackiBlockState NackData) :=
  match get s proof with
  | Some _ => Ok s
  | None => unwrap (find_attestation block b t) ≫= λ attestation, state_set s proof (cast attestation)
  end.

Definition on_passed_primary (block : CandidateBlock) (acc : Acc) (b : BlockIdentifier) :
    result Acc :=
  let '(r, effects, m) := acc in
  prefinalize block b (repo_get r b) ≫= λ '(s, new_effects),
  set_proof block b Primary primary_finalization_proof id s ≫= λ s,
  state_set_if_none s has_primary_attestation_target_met true ≫= λ s,
  unwrap (get s block_seq_no) ≫= λ seq_no,
  Ok (<[b := s]> r, effects ++ new_effects, choose_ancestor m seq_no b).

Definition on_passed_preattestation (block : CandidateBlock) (acc : Repo * list Effect)
    (b : BlockIdentifier) : result (Repo * list Effect) :=
  let '(r, effects) := acc in
  prefinalize block b (repo_get r b) ≫= λ '(s, new_effects),
  Ok (<[b := s]> r, effects ++ new_effects).

Definition on_transitioned (id : BlockIdentifier) (acc : Repo * list Effect)
    (b : BlockIdentifier) : result (Repo * list Effect) :=
  let '(r, effects) := acc in
  let s := repo_get r b in
  (if bool_decide (get s must_be_validated = None) && is_set s must_be_validated_in_fallback_case true
   then state_set s must_be_validated true ≫= λ s, Ok (s, [Validate id])
   else Ok (s, [])) ≫= λ '(s, new_effects),
  state_set s requires_fallback_attestation true ≫= λ s,
  Ok (<[b := s]> r, effects ++ new_effects).

Definition on_passed_fallback (block : CandidateBlock) (acc : Acc) (b : BlockIdentifier) :
    result Acc :=
  let '(r, effects, m) := acc in
  set_proof block b Fallback fallback_finalization_proof id (repo_get r b) ≫= λ s,
  state_set_if_none s has_fallback_attestation_target_met true ≫= λ s,
  unwrap (get s block_seq_no) ≫= λ seq_no,
  Ok (<[b := s]> r, effects, choose_ancestor m seq_no b).

Definition attestation_counts (s : AckiNackiBlockState NackData) :
    gmap (BlockIdentifier * AttestationTargetType) nat :=
  (λ signers : gset Z, size signers) <$> verified_attestations s.

(** [finalizes_blocks] and, when it changes, the cutoff of the attestation list. *)
Definition set_finalizes (r : Repo) (id : BlockIdentifier) (blocks : gset BlockIdentifier)
    (m : option (BlockSeqNo * BlockIdentifier)) : result Repo :=
  if bool_decide (get (repo_get r id) finalizes_blocks = Some blocks) then Ok r
  else
    repo_set r id finalizes_blocks blocks ≫= λ r,
    match m with
    | Some cutoff => repo_set r id moves_attestation_list_cutoff cutoff
    | None => Ok r
    end.

Definition dependent_blocks (c : AncestorBlocksFinalizationCheckpoints) (id : BlockIdentifier) :
    gset BlockIdentifier := (dom (primary c) ∪ dom (fallback c)) ∖ {[id]}.

Definition process_block_attestations (r : Repo) (block : CandidateBlock)
    (id parent_id : BlockIdentifier) : result (Repo * list Effect * bool) :=
  let s := repo_get r id in
  if is_set s has_block_attestations_processed true then Ok (r, [], true)
  else
    match inherit_ancestor_blocks_finalization_distances (repo_get r parent_id) s with
    | Ok distances =>
        let res := update (into_builder distances) (attestation_counts s) in
        if negb (bool_decide (failed res = ∅)) then
          unwrap_ok (invalidate_branch set_iter r id) ≫= λ r, Ok (r, [], false)
        else
          fold_outcome (on_passed_primary block) (r, [], None) (result_passed_primary res)
          ≫= λ '(r, effects, m),
          fold_outcome (on_passed_preattestation block) (r, effects)
            (result_passed_preattestation res) ≫= λ '(r, effects),
          fold_outcome (on_transitioned id) (r, effects) (set_iter (transitioned_to_fallback res))
          ≫= λ '(r, effects),
          fold_outcome (on_passed_fallback block) (r, effects, m) (result_passed_fallback res)
          ≫= λ '(r, effects, m),
          set_finalizes r id
            (list_to_set (result_passed_fallback res) ∪ list_to_set (result_passed_primary res)) m
          ≫= λ r,
          set_if_none r id ancestor_blocks_finalization_checkpoints (remaining_checkpoints res)
          ≫= λ r,
          let r := foldl (λ r b, repo_update r b (λ s,
                            (try_add_attestations_interest s (cb_producer_id block)).1))
                     r (set_iter (dependent_blocks (remaining_checkpoints res) id)) in
          repo_set r id has_block_attestations_processed true ≫= λ r, Ok (r, effects, true)
    | _ => Ok (r, [], false)
    end.

(** ** References to other threads *)
(** [available] holds the blocks whose cross-thread data the service can give. *)
Definition check_refs (r : Repo) (available : gset BlockIdentifier) (block : CandidateBlock)
    (id : BlockIdentifier) : result (Repo * list Effect * bool) :=
  match get (repo_get r id) has_all_cross_thread_ref_data_available with
  | Some _ => Ok (r, [], true)
  | None =>
      let missing := filter (λ b, b ∉ available) (cb_refs block) in
      match missing with
      | [] => repo_set r id has_all_cross_thread_ref_data_available true ≫= λ r, Ok (r, [], true)
      | _ => Ok (r, [AwaitCrossThreadRefData id missing], false)
      end
  end.

(** ** Applying a block *)
Variable save_state_frequency : Z.
Variable get_optimistic_state : BlockIdentifier → ThreadIdentifier → OptimisticResult.
Variable apply_block : BlockIdentifier → CandidateBlock → bool.
Variable store_optimistic_in_cache : BlockIdentifier → bool.
Variable save_states_for_sharing : CandidateBlock → bool.

Definition must_save_state_on_seq_no (seq_no : BlockSeqNo) (parent_seq_no : option BlockSeqNo) :
    result bool :=
  if bool_decide (save_state_frequency = 0)%Z then Panic
  else
    Ok match parent_seq_no with
       | Some parent_seq_no =>
           bool_decide (parent_seq_no / save_state_frequency ≠ seq_no / save_state_frequency)%Z
       | None => bool_decide (seq_no mod save_state_frequency = 0)%Z
       end.

(** The world of the pipeline: the store and the cross-thread data service. *)
Notation World := (Repo * gset BlockIdentifier)%type.

(** The states are saved and shared, the block is applied and its cross-thread data is
    published. *)
Definition finish_apply (w : World) (now : Z) (block : CandidateBlock)
    (id parent_id : BlockIdentifier) (seq_no : BlockSeqNo) (t : ThreadIdentifier) (h : BlockHeight) :
    result (World * list Effect) :=
  let '(r, available) := w in
  (if bool_decide (is_Some (cb_share_state_resources block)) then Ok true
   else if cb_is_thread_splitting block then Ok true
   else must_save_state_on_seq_no seq_no (get (repo_get r parent_id) block_seq_no))
  ≫= λ must_save_state,
  ensure (store_optimistic_in_cache id) StoreFailed ≫= λ _,
  let saved := if must_save_state && bool_decide (cb_producer_id block ≠ node_id)
               then [SaveOptimisticState id] else [] in
  (if bool_decide (is_Some (cb_share_state_resources block))
   then ensure (save_states_for_sharing block) ShareFailed ≫= λ _, Ok [ShareStates id]
   else Ok []) ≫= λ shared,
  let r := repo_update r id (λ s, set_applied s now) in
  repo_set r id has_cross_thread_ref_data_prepared true ≫= λ r,
  Ok ((r, {[id]} ∪ available),
      saved ++ shared ++ [BlockApplied t h; CrossThreadRefDataPrepared id]).

Definition apply_candidate_block (w : World) (now : Z) (block : CandidateBlock)
    (id parent_id : BlockIdentifier) (seq_no : BlockSeqNo) : result (World * list Effect) :=
  let '(r, available) := w in
  let s := repo_get r id in
  if is_block_already_applied s then Ok (w, [])
  else if negb (is_block_already_applied (repo_get r parent_id)) then Ok (w, [])
  else
    unwrap (get s thread_identifier) ≫= λ t,
    unwrap (get s producer) ≫= λ block_producer,
    unwrap (get s block_height) ≫= λ h,
    if bool_decide (block_producer = node_id) && apply_can_be_skipped s then
      Ok ((repo_update r id (λ s, set_applied s now), available), [BlockApplied t h])
    else
      let validation :=
        if is_set s must_be_validated true || negb (has_bad_block_nacks_resolved s)
        then [Validate id] else [] in
      match get_optimistic_state parent_id t with
      | NotLoaded => Panic
      | BlockNotFound => Ok (w, validation)
      | DepthSearchMinStateLimitReached =>
          unwrap_ok (invalidate_branch set_iter r id) ≫= λ r, Ok ((r, available), validation)
      | OtherError => Err OptimisticStateFailed
      | Loaded =>
          if negb (apply_block parent_id block) then
            unwrap_ok (invalidate_branch set_iter r id) ≫= λ r, Ok ((r, available), validation)
          else
            finish_apply w now block id parent_id seq_no t h ≫= λ '(w, effects),
            Ok (w, validation ++ effects)
      end.

(** ** The pipeline *)
Definition set_signatures_verified (r : Repo) (id : BlockIdentifier) (block : CandidateBlock) :
    result Repo :=
  if is_signatures_verified (repo_get r id) then Ok r
  else
    repo_set r id signatures_verified true ≫= λ r,
    set_if_none r id producer (cb_producer_id block).

(** The common checks: [None] ends the run. *)
Definition pass_common_checks (r : Repo) (block : CandidateBlock) (id parent_id : BlockIdentifier) :
    result (Repo * list Effect * bool) :=
  if is_set (repo_get r id) common_checks_passed true then Ok (r, [], true)
  else if negb (is_set (repo_get r parent_id) common_checks_passed true) then Ok (r, [], false)
  else
    check_common_block_params r block parent_id id ≫= λ passed : bool,
    if passed then repo_set r id common_checks_passed true ≫= λ r, Ok (r, [], true)
    else
      unwrap_ok (invalidate_branch set_iter r id) ≫= λ r, Ok (r, [NackBadBlock id], false).

(** The signatures, with what follows from them. *)
Definition pass_signatures (r : Repo) (block : Envelope CandidateBlock) (id : BlockIdentifier)
    (skipped_attestation_ids : gset BlockIdentifier) : result (Repo * bool) :=
  verify_all_block_signatures r block id skipped_attestation_ids ≫= λ '(r, status),
  match status with
  | None => Ok (r, false)
  | Some false => unwrap_ok (invalidate_branch set_iter r id) ≫= λ r, Ok (r, false)
  | Some true =>
      set_signatures_verified r id (data block) ≫= λ r,
      (if bool_decide (get (repo_get r id) descendant_bk_set = None)
       then set_descendant_bk_set r id (data block) else Ok r) ≫= λ r, Ok (r, true)
  end.

(** The keeper set and the ancestors: [false] ends the run. *)
Definition pass_keepers (r : Repo) (id parent_id : BlockIdentifier) : result (Repo * bool) :=
  (match get (repo_get r id) bk_set with
   | Some _ => Ok (r, true)
   | None =>
       match get (repo_get r parent_id) descendant_bk_set with
       | Some _ => set_bk_set r id
       | None => Ok (r, false)
       end
   end) ≫= λ '(r, ready),
  if ready : bool then set_ancestors r id parent_id ≫= λ r, Ok (r, is_stored (repo_get r id))
  else Ok (r, false).

Definition process_candidate_block (w : World) (now : Z) (block : Envelope CandidateBlock)
    (id : BlockIdentifier) (skipped_attestation_ids : gset BlockIdentifier) :
    result (World * list Effect) :=
  let '(r, available) := w in
  let s := repo_get r id in
  match get s block_seq_no, get s parent_block_identifier with
  | Some seq_no, Some parent_id =>
      if is_invalidated s || is_finalized s then Ok (w, [])
      else
        pass_keepers r id parent_id ≫= λ '(r, ready),
        if negb ready then Ok ((r, available), [])
        else
          pass_common_checks r (data block) id parent_id ≫= λ '(r, effects1, ready),
          if negb ready then Ok ((r, available), effects1)
          else
            pass_signatures r block id skipped_attestation_ids ≫= λ '(r, ready),
            if negb ready then Ok ((r, available), effects1)
            else
              set_consensus_params r id parent_id ≫= λ params,
              match params with
              | None => Ok ((r, available), effects1)
              | Some (r, effects2) =>
                  process_block_attestations r (data block) id parent_id
                  ≫= λ '(r, effects3, ready),
                  if negb ready then Ok ((r, available), effects1 ++ effects2 ++ effects3)
                  else
                    check_refs r available (data block) id ≫= λ '(r, effects4, ready),
                    if negb ready
                    then Ok ((r, available), effects1 ++ effects2 ++ effects3 ++ effects4)
                    else
                      apply_candidate_block (r, available) now (data block) id parent_id seq_no
                      ≫= λ '(w, effects5),
                      Ok (w, effects1 ++ effects2 ++ effects3 ++ effects4 ++ effects5)
              end
  | _, _ => Ok (w, [])
  end.

(** ** The producer's own check
    [AttestationTargetsService::evaluate_if_next_block_ancestors_required_attestations_will_be_met] *)
Inductive SelectFailure := FailedToLoadBlockState.

Definition evaluate_if_next_block_ancestors_required_attestations_will_be_met (r : Repo)
    (t : ThreadIdentifier) (parent_id : BlockIdentifier)
    (next_block_attestations : gmap (BlockIdentifier * AttestationTargetType) (gset Z)) :
    outcome SelectFailure bool :=
  let parent := repo_get r parent_id in
  ok_or (get parent thread_identifier) FailedToLoadBlockState ≫= λ parent_thread,
  ok_or (get parent ancestor_blocks_finalization_checkpoints) FailedToLoadBlockState
  ≫= λ prototype,
  if bool_decide (t ≠ parent_thread) then Ok true
  else
    let inherited :=
      mkCheckpoints (inherit_checkpoint <$> primary prototype)
        (map inherit_checkpoint <$> fallback prototype) in
    let res := update (mkConstructor inherited [] [] [])
                 ((λ signers : gset Z, size signers) <$> next_block_attestations) in
    Ok (bool_decide (failed res = ∅)).
End processor.

(** ** What a run may change *)
Section evolution.
Context `{Blst} {NackData : Type} `{EqDecision NackData}.
Context `{Serialize AttestationData} `{Serialize CandidateBlock}.
Notation Repo := (Repository NackData).
Implicit Types (r : Repo) (s : AckiNackiBlockState NackData) (b id parent_id : BlockIdentifier).

(** A setter call that neither applies the block nor gives it another parent. *)
Definition quiet_step s s' : Prop :=
  state_step s s' ∧ get s' applied = get s applied ∧
  get s' parent_block_identifier = get s parent_block_identifier.

Definition evolves r r' : Prop := ∀ b, rtc quiet_step (repo_get r b) (repo_get r' b).

#[global] Instance evolves_preorder : PreOrder evolves.
Proof.
  split; [intros r b; apply rtc_refl|].
  intros r1 r2 r3 H12 H23 b. exact (rtc_trans _ _ _ (H12 b) (H23 b)).
Qed.

Lemma repo_get_insert r id s b :
  repo_get (<[id := s]> r) b = if decide (b = id) then s else repo_get r b.
Proof.
  unfold repo_get. case_decide as Hb; [subst; by rewrite lookup_insert_eq|].
  by rewrite lookup_insert_ne.
Qed.

Lemma evolves_insert r id s : rtc quiet_step (repo_get r id) s → evolves r (<[id := s]> r).
Proof. intros Hs b. rewrite repo_get_insert. case_decide; [by subst|apply rtc_refl]. Qed.

(** A fact that a run may set, with its value. *)
Definition settable (f : fact) (v : fact_type (NackData := NackData) f) : Prop :=
  fact_setter f ≠ Skip ∧ (only_value f = Some v ∨ only_value (NackData := NackData) f = None).

Lemma generated_setter_get s f (v : fact_type f) s' :
  generated_setter s f v = Ok s' →
  get s' f = Some v ∧ (∀ f', f' ≠ f → get s' f' = get s f') ∧
  verified_attestations s' = verified_attestations s.
Proof.
  unfold generated_setter. case_decide as Hd; [by intros [= <-]|].
  destruct (fact_setter f), (get s f); try done; intros Hs%Ok_inj; subst s'; simpl;
    (split_and!; [apply set_fact_eq|intros; by apply set_fact_ne|done]).
Qed.

Lemma generated_setter_quiet s f (v : fact_type f) s' :
  settable f v → generated_setter s f v = Ok s' → rtc quiet_step s s'.
Proof.
  intros [Hk Hv] Hs. destruct (generated_setter_get _ _ _ _ Hs) as (_ & Hoth & _).
  apply rtc_once. split_and!; [exact (step_setter s f v s' Hk Hv Hs)|apply Hoth; intros Heq; apply Hk; by rewrite <- Heq..].
Qed.

Lemma state_set_quiet s f (v : fact_type f) s' :
  settable f v → state_set s f v = Ok s' → rtc quiet_step s s'.
Proof. unfold state_set. intros Hf ?%unwrap_ok_inv. by eapply generated_setter_quiet. Qed.

Lemma state_set_if_none_quiet s f (v : fact_type f) s' :
  settable f v → state_set_if_none s f v = Ok s' → rtc quiet_step s s'.
Proof.
  intros Hf. unfold state_set_if_none. destruct (get s f); [by intros [= <-]|].
  by apply state_set_quiet.
Qed.

Lemma repo_set_evolves r id f (v : fact_type f) r' :
  settable f v → repo_set r id f v = Ok r' → evolves r r'.
Proof.
  unfold repo_set. intros Hf (s & Hs%unwrap_ok_inv & [= <-])%outcome_bind_Ok.
  apply evolves_insert. by eapply generated_setter_quiet.
Qed.

Lemma repo_set_get r id f (v : fact_type f) r' :
  repo_set r id f v = Ok r' → get (repo_get r' id) f = Some v.
Proof.
  unfold repo_set. intros (s & Hs%unwrap_ok_inv & [= <-])%outcome_bind_Ok.
  rewrite repo_get_insert, decide_True by done. by eapply generated_setter_get.
Qed.

Lemma set_if_none_evolves r id f (v : fact_type f) r' :
  settable f v → set_if_none r id f v = Ok r' → evolves r r'.
Proof.
  intros Hf. unfold set_if_none. destruct (get (repo_get r id) f); [by intros [= <-]|].
  by apply repo_set_evolves.
Qed.

Lemma invalidate_evolves set_iter r id r' : invalidate_branch set_iter r id = Ok r' → evolves r r'.
Proof.
  unfold invalidate_branch. generalize (S (weight r)), [id]. intros fuel queue. revert r queue.
  induction fuel as [|fuel IH]; intros r [|next rest]; simpl; try done; [by intros [= <-]..|].
  destruct (is_finalized (repo_get r next)); [done|].
  destruct (is_invalidated (repo_get r next)); [apply IH|].
  intros Hr. etransitivity; [|by eapply IH]. apply evolves_insert, rtc_once.
  split; [constructor|]. split; by apply set_fact_ne.
Qed.

Lemma invalidate_call_evolves {E} set_iter r id r' :
  unwrap_ok (E' := E) (invalidate_branch set_iter r id) = Ok r' → evolves r r'.
Proof. intros ?%unwrap_ok_inv. by eapply invalidate_evolves. Qed.

(** All states of the store satisfy the invariant of the table of facts. *)
Definition repo_ok r : Prop := ∀ b, facts_ok (repo_get r b).

Lemma quiet_steps_keep s s' :
  rtc quiet_step s s' → facts_ok s →
  facts_ok s' ∧ (∀ f v, ¬ rewritable f → get s f = Some v → get s' f = Some v) ∧
  (∀ f, is_Some (get s f) → is_Some (get s' f)) ∧
  get s' applied = get s applied ∧
  get s' parent_block_identifier = get s parent_block_identifier.
Proof.
  induction 1 as [|s1 s2 s3 (Hst & Ha & Hp) _ IH]; intros Hok; [done|].
  destruct (step_monotone _ _ Hok Hst) as (Hok2 & Hsome & Hkeep).
  destruct (IH Hok2) as (? & ? & ? & ? & ?). split_and!; [done|eauto..|congruence|congruence].
Qed.

Lemma evolves_keep r r' :
  evolves r r' → repo_ok r →
  repo_ok r' ∧
  (∀ b f v, ¬ rewritable f → get (repo_get r b) f = Some v → get (repo_get r' b) f = Some v) ∧
  (∀ b f, is_Some (get (repo_get r b) f) → is_Some (get (repo_get r' b) f)) ∧
  (∀ b, get (repo_get r' b) applied = get (repo_get r b) applied) ∧
  (∀ b, get (repo_get r' b) parent_block_identifier = get (repo_get r b) parent_block_identifier).
Proof.
  intros Hev Hok. split_and!; intros b; destruct (quiet_steps_keep _ _ (Hev b) (Hok b)) as (? & ? & ? & ? & ?);
    eauto.
Qed.
End evolution.

(** ** Every stage only adds facts *)
Section stages.
Context `{Blst} {NackData : Type} `{EqDecision NackData}.
Context `{Serialize AttestationData} `{Serialize CandidateBlock}.
Notation Repo := (Repository NackData).
Implicit Types (r : Repo) (s : AckiNackiBlockState NackData) (b id parent_id : BlockIdentifier).
Variable set_iter : gset BlockIdentifier → list BlockIdentifier.
Variable iter_order : gset NodeIdentifier → list NodeIdentifier.
Variable shuffle : list Z → list NodeIdentifier → list NodeIdentifier.
Variable check_hash : CandidateBlock → outcome ProcessError bool.
Variable node_id : NodeIdentifier.
Variable draw : PubKey → BlockIdentifier → option Z.
Variable within_v : nat → nat → Z → bool.
Variable shutdown_set : bool.

#[local] Ltac settable := by split; [done|auto].

Lemma set_bk_set_evolves r id r' ready : set_bk_set r id = Ok (r', ready) → evolves r r'.
Proof.
  unfold set_bk_set. repeat case_match; intros Hr; try (by simplify_eq).
  apply outcome_bind_Ok in Hr as (r1 & H1' & (r2 & H2' & [= <- <-])%outcome_bind_Ok).
  etransitivity; eapply set_if_none_evolves; [|done| |done]; settable.
Qed.

Lemma set_descendant_bk_set_evolves r id block r' :
  set_descendant_bk_set r id block = Ok r' → evolves r r'.
Proof.
  unfold set_descendant_bk_set. repeat case_match; intros Hr; try (by simplify_eq).
  all: apply outcome_bind_Ok in Hr as (r1 & H1' & H2').
  all: etransitivity; eapply set_if_none_evolves; [|done| |done]; settable.
Qed.

Lemma set_ancestors_evolves r id parent_id r' : set_ancestors r id parent_id = Ok r' → evolves r r'.
Proof.
  unfold set_ancestors. repeat case_match; intros Hr; try (by simplify_eq).
  eapply repo_set_evolves; [|done]. settable.
Qed.

Lemma pass_keepers_evolves r id parent_id r' ready :
  pass_keepers r id parent_id = Ok (r', ready) →
  evolves r r' ∧ (ready = true → is_stored (repo_get r' id) = true).
Proof.
  unfold pass_keepers. intros ([r1 ready1] & Hk & Hr)%outcome_bind_Ok.
  assert (evolves r r1) as Hev.
  { repeat case_match; simplify_eq; try done; by eapply set_bk_set_evolves. }
  destruct ready1; [|by simplify_eq].
  apply outcome_bind_Ok in Hr as (r2 & Ha & [= <- <-]). split; [|done].
  etransitivity; [done|]. by eapply set_ancestors_evolves.
Qed.

Lemma get_is_set s f (v : fact_type f) : get s f = Some v → is_set s f v = true.
Proof. intros. by apply bool_decide_eq_true_2. Qed.

Lemma pass_common_checks_evolves r block id parent_id r' effects ready :
  pass_common_checks set_iter iter_order shuffle check_hash r block id parent_id
    = Ok (r', effects, ready) →
  evolves r r' ∧ (ready = true → is_set (repo_get r' id) common_checks_passed true = true).
Proof.
  unfold pass_common_checks. destruct (is_set (repo_get r id) common_checks_passed true) eqn:Hc;
    [by intros [= <- _ <-]|].
  destruct (is_set (repo_get r parent_id) _ _); simpl; [|by intros [= <- _ <-]].
  intros (passed & _ & Hr)%outcome_bind_Ok. destruct passed.
  - apply outcome_bind_Ok in Hr as (r1 & Hr1 & [= <- <- <-]).
    split; [eapply repo_set_evolves; [|done]; settable|].
    intros _. by eapply get_is_set, repo_set_get.
  - apply outcome_bind_Ok in Hr as (r1 & Hr1 & [= <- <- <-]).
    split; [by eapply invalidate_call_evolves|done].
Qed.

Lemma add_verified_quiet s atts : rtc quiet_step s (foldl add_verified s atts).
Proof.
  revert s. induction atts as [|a atts IH]; intros s; [apply rtc_refl|]. simpl.
  eapply rtc_l; [|apply IH]. split; [apply step_verified|].
  unfold add_verified, add_verified_attestations_for. by case_match.
Qed.

Lemma verify_block_signature_evolves r block id r' valid :
  verify_block_signature r block id = Ok (r', valid) → evolves r r'.
Proof.
  unfold verify_block_signature.
  destruct (get (repo_get r id) envelope_block_producer_signature_verified); [by intros [= <- _]|].
  destruct (get (repo_get r id) bk_set) as [keepers|]; [|by intros [= <- _]].
  intros (v & _ & Hb)%outcome_bind_Ok.
  destruct (BlockKeeperSet_get_by_node_id _ _) as [producer_data|]; [|by injection Hb as <- <-].
  destruct (Envelope_has_signer_index _ _); [|by injection Hb as <- <-].
  apply outcome_bind_Ok in Hb as (r2 & Hr2 & [= <- <-]).
  eapply repo_set_evolves; [|done]. settable.
Qed.

Lemma verify_evolves r block id skipped r' status :
  verify_all_block_signatures r block id skipped = Ok (r', status) → evolves r r'.
Proof.
  unfold verify_all_block_signatures. intros ([r1 valid] & Hb & Hr)%outcome_bind_Ok.
  etransitivity; [by eapply verify_block_signature_evolves|]. destruct valid as [[]|]; [|by simplify_eq..].
  unfold verify_block_attestations in Hr. case_bool_decide; [by simplify_eq|].
  apply outcome_bind_Ok in Hr as ([verified|] & _ & [= <- <-]); [|done].
  apply evolves_insert, add_verified_quiet.
Qed.

Lemma pass_signatures_evolves r block id skipped r' ready :
  pass_signatures set_iter r block id skipped = Ok (r', ready) →
  evolves r r' ∧ (repo_ok r → ready = true → is_signatures_verified (repo_get r' id) = true).
Proof.
  unfold pass_signatures. intros ([r1 status] & Hv%verify_evolves & Hr)%outcome_bind_Ok.
  destruct status as [[]|]; [| |by simplify_eq].
  - apply outcome_bind_Ok in Hr as (r2 & H2' & (r3 & H3' & [= <- <-])%outcome_bind_Ok).
    assert (evolves r1 r2 ∧ is_signatures_verified (repo_get r2 id) = true) as [Hev2 Hsv].
    { unfold set_signatures_verified in H2'.
      destruct (is_signatures_verified (repo_get r1 id)) eqn:Hs; [by simplify_eq|].
      apply outcome_bind_Ok in H2' as (r4 & Hr4 & Hr2).
      split.
      - etransitivity; [eapply repo_set_evolves; [|done]; settable|].
        eapply set_if_none_evolves; [|done]. settable.
      - apply repo_set_get in Hr4. unfold set_if_none in Hr2.
        destruct (get (repo_get r4 id) producer); simplify_eq; [by apply get_is_set|].
        unfold repo_set in Hr2. apply outcome_bind_Ok in Hr2 as (s & Hs'%unwrap_ok_inv & [= <-]).
        rewrite repo_get_insert, decide_True by done. apply get_is_set.
        apply generated_setter_get in Hs' as (_ & Ho & _). by rewrite Ho. }
    assert (evolves r2 r3) as Hev3.
    { case_bool_decide; [|by simplify_eq]. by eapply set_descendant_bk_set_evolves. }
    split; [by etransitivity; [|etransitivity]|].
    intros Hok _.
    assert (repo_ok r2) as Hok2 by (eapply evolves_keep; [|done]; by etransitivity).
    destruct (evolves_keep _ _ Hev3 Hok2) as (_ & Hkeep & _).
    apply get_is_set, Hkeep; [unfold rewritable; naive_solver|].
    unfold is_signatures_verified, is_set in Hsv. by apply bool_decide_eq_true in Hsv.
  - apply outcome_bind_Ok in Hr as (r2 & Hr2%invalidate_call_evolves & [= <- <-]).
    split; [by etransitivity|done].
Qed.

Lemma set_consensus_params_evolves r id parent_id r' effects :
  set_consensus_params set_iter node_id draw within_v shutdown_set r id parent_id = Ok (Some (r', effects)) →
  evolves r r'.
Proof.
  unfold set_consensus_params. repeat case_match; intros Hr; try (by simplify_eq).
  apply outcome_bind_Ok in Hr as ([ds|] & _ & Hr); [|done].
  apply outcome_bind_Ok in Hr as (stats & _ & Hr).
  apply outcome_bind_Ok in Hr as ([r1 effects1] & Hv & Hr).
  apply outcome_bind_Ok in Hr as (r2 & Ht & (r3 & Hs & [= <- <-])%outcome_bind_Ok).
  assert (evolves r r1).
  { unfold set_validator in Hv. repeat case_match; simplify_eq; try done.
    all: apply outcome_bind_Ok in Hv as (r4 & Hr4 & [= <- <-]).
    all: eapply repo_set_evolves; [|done]; settable. }
  etransitivity; [done|]. etransitivity.
  - unfold set_attestation_target in Ht. case_match; [by simplify_eq|].
    apply outcome_bind_Ok in Ht as (t & _ & Ht). eapply repo_set_evolves; [|done]. settable.
  - eapply set_if_none_evolves; [|done]. settable.
Qed.

Lemma prefinalize_quiet block b s s' effects :
  prefinalize block b s = Ok (s', effects) → rtc quiet_step s s'.
Proof.
  unfold prefinalize. destruct (get s prefinalization_proof); [by intros [= <- _]|].
  intros (a & _ & (t & _ & [= <- _])%outcome_bind_Ok)%outcome_bind_Ok.
  apply rtc_once. split; [apply step_prefinalized|]. simpl. by rewrite !set_fact_ne.
Qed.

Lemma set_proof_quiet block b t f cast s s' :
  fact_setter f ≠ Skip → only_value (NackData := NackData) f = None →
  set_proof block b t f cast s = Ok s' → rtc quiet_step s s'.
Proof.
  intros Hf Ho. unfold set_proof. destruct (get s f); [by intros [= <-]|].
  intros (a & _ & Hs)%outcome_bind_Ok. eapply state_set_quiet; [|done]. split; [done|by right].
Qed.

Lemma on_passed_primary_evolves block r e m b r' e' m' :
  on_passed_primary block (r, e, m) b = Ok (r', e', m') → evolves r r'.
Proof.
  unfold on_passed_primary.
  intros ([s1 new] & Hp & (s2 & Hs2 & (s3 & Hs3 & (n & _ & [= <- _ _])%outcome_bind_Ok)
    %outcome_bind_Ok)%outcome_bind_Ok)%outcome_bind_Ok.
  apply evolves_insert. eapply rtc_trans; [by eapply prefinalize_quiet|].
  eapply rtc_trans; [eapply set_proof_quiet; [| |exact Hs2]; done|].
  eapply state_set_if_none_quiet; [|done]. settable.
Qed.

Lemma on_passed_preattestation_evolves block r e b r' e' :
  on_passed_preattestation block (r, e) b = Ok (r', e') → evolves r r'.
Proof.
  intros ([s1 new] & Hp & [= <- _])%outcome_bind_Ok.
  apply evolves_insert. by eapply prefinalize_quiet.
Qed.

Lemma on_transitioned_evolves id r e b r' e' :
  on_transitioned id (r, e) b = Ok (r', e') → evolves r r'.
Proof.
  unfold on_transitioned.
  intros ([s1 new] & Hp & (s2 & Hs2 & [= <- _])%outcome_bind_Ok)%outcome_bind_Ok.
  apply evolves_insert. eapply rtc_trans; [|eapply state_set_quiet; [|done]; settable].
  destruct (_ && _); [|by injection Hp as <- _].
  apply outcome_bind_Ok in Hp as (s3 & Hs3 & [= <- _]). eapply state_set_quiet; [|done]. settable.
Qed.

Lemma on_passed_fallback_evolves block r e m b r' e' m' :
  on_passed_fallback block (r, e, m) b = Ok (r', e', m') → evolves r r'.
Proof.
  unfold on_passed_fallback.
  intros (s2 & Hs2 & (s3 & Hs3 & (n & _ & [= <- _ _])%outcome_bind_Ok)%outcome_bind_Ok)%outcome_bind_Ok.
  apply evolves_insert. eapply rtc_trans; [eapply set_proof_quiet; [| |exact Hs2]; done|].
  eapply state_set_if_none_quiet; [|done]. settable.
Qed.

Lemma set_finalizes_evolves r id blocks m r' : set_finalizes r id blocks m = Ok r' → evolves r r'.
Proof.
  unfold set_finalizes. case_bool_decide; [by intros [= <-]|].
  intros (r1 & Hr1 & Hr)%outcome_bind_Ok. etransitivity; [eapply repo_set_evolves; [|done]; settable|].
  destruct m; [|by injection Hr as <-]. eapply repo_set_evolves; [|done]. settable.
Qed.

Lemma interest_evolves r n bs :
  evolves r (foldl (λ r b, repo_update r b (λ s, (try_add_attestations_interest s n).1)) r bs).
Proof.
  revert r. induction bs as [|b bs IH]; intros r; [done|]. simpl. etransitivity; [|apply IH].
  apply evolves_insert, rtc_once. split; [apply step_interest|].
  unfold try_add_attestations_interest. by case_bool_decide.
Qed.

Lemma fold_evolves {A B} (f : Repo * B → A → outcome ProcessError (Repo * B)) l r e r' e' :
  (∀ r e x r' e', f (r, e) x = Ok (r', e') → evolves r r') →
  fold_outcome f (r, e) l = Ok (r', e') → evolves r r'.
Proof.
  intros Hf Hl. change (evolves r (r', e').1). revert Hl.
  apply (fold_outcome_ind f (λ x, evolves r x.1)); [|done].
  intros [r1 e1] x [r2 e2] _ H1' H2'. simpl in *. etransitivity; [done|by eapply Hf].
Qed.

Lemma fold_evolves2 {A B C} (f : Repo * B * C → A → outcome ProcessError (Repo * B * C)) l r e m r' e' m' :
  (∀ r e m x r' e' m', f (r, e, m) x = Ok (r', e', m') → evolves r r') →
  fold_outcome f (r, e, m) l = Ok (r', e', m') → evolves r r'.
Proof.
  intros Hf Hl. change (evolves r (r', e', m').1.1). revert Hl.
  apply (fold_outcome_ind f (λ x, evolves r x.1.1)); [|done].
  intros [[r1 e1] m1] x [[r2 e2] m2] _ H1' H2'. simpl in *. etransitivity; [done|by eapply Hf].
Qed.

Lemma process_block_attestations_evolves r block id parent_id r' effects ready :
  process_block_attestations set_iter r block id parent_id = Ok (r', effects, ready) →
  evolves r r' ∧
  (ready = true → is_set (repo_get r' id) has_block_attestations_processed true = true).
Proof.
  unfold process_block_attestations.
  destruct (is_set (repo_get r id) has_block_attestations_processed true) eqn:Hp;
    [by intros [= <- _ <-]|].
  destruct (inherit_ancestor_blocks_finalization_distances _ _) as [c| |]; [|by intros [= <- _ <-]..].
  cbv zeta. destruct (negb _).
  { intros (r1 & Hr1%invalidate_call_evolves & [= <- _ <-])%outcome_bind_Ok. by split. }
  intros ([[r1 e1] m1] & H1' & Hr)%outcome_bind_Ok.
  apply fold_evolves2 in H1'; [|apply on_passed_primary_evolves].
  apply outcome_bind_Ok in Hr as ([r2 e2] & H2' & Hr).
  apply fold_evolves in H2'; [|apply on_passed_preattestation_evolves].
  apply outcome_bind_Ok in Hr as ([r3 e3] & H3' & Hr).
  apply fold_evolves in H3'; [|apply on_transitioned_evolves].
  apply outcome_bind_Ok in Hr as ([[r4 e4] m4] & H4' & Hr).
  apply fold_evolves2 in H4'; [|apply on_passed_fallback_evolves].
  apply outcome_bind_Ok in Hr as (r5 & H5'%set_finalizes_evolves & Hr).
  apply outcome_bind_Ok in Hr as (r6 & H6' & Hr).
  apply set_if_none_evolves in H6'; [|settable].
  apply outcome_bind_Ok in Hr as (r8 & H8' & [= <- _ <-]).
  pose proof (repo_set_get _ _ _ _ _ H8') as Hget.
  apply repo_set_evolves in H8'; [|settable].
  split; [|intros _; by apply get_is_set].
  do 6 (etransitivity; [eassumption|]). etransitivity; [apply interest_evolves|done].
Qed.

Lemma check_refs_evolves r available block id r' effects ready :
  check_refs r available block id = Ok (r', effects, ready) →
  evolves r r' ∧
  (ready = true → is_Some (get (repo_get r' id) has_all_cross_thread_ref_data_available)).
Proof.
  unfold check_refs. destruct (get (repo_get r id) _) eqn:Hg; [intros [= <- _ <-]; by rewrite Hg|].
  destruct (filter _ _); [|by intros [= <- _ <-]].
  intros (r1 & Hr1 & [= <- _ <-])%outcome_bind_Ok.
  split; [eapply repo_set_evolves; [|done]; settable|].
  apply repo_set_get in Hr1. by rewrite Hr1.
Qed.
End stages.

(** ** The order of the pipeline *)
Section pipeline.
Context `{Blst} {NackData : Type} `{EqDecision NackData}.
Context `{Serialize AttestationData} `{Serialize CandidateBlock}.
Notation Repo := (Repository NackData).
Implicit Types (r : Repo) (s : AckiNackiBlockState NackData) (b id parent_id : BlockIdentifier).
Implicit Types (available roots : gset BlockIdentifier).
Variable set_iter : gset BlockIdentifier → list BlockIdentifier.
Variable iter_order : gset NodeIdentifier → list NodeIdentifier.
Variable shuffle : list Z → list NodeIdentifier → list NodeIdentifier.
Variable check_hash : CandidateBlock → outcome ProcessError bool.
Variable node_id : NodeIdentifier.
Variable draw : PubKey → BlockIdentifier → option Z.
Variable within_v : nat → nat → Z → bool.
Variable shutdown_set : bool.
Variable save_state_frequency : Z.
Variable get_optimistic_state : BlockIdentifier → ThreadIdentifier → OptimisticResult.
Variable apply_block : BlockIdentifier → CandidateBlock → bool.
Variable store_optimistic_in_cache : BlockIdentifier → bool.
Variable save_states_for_sharing : CandidateBlock → bool.

Notation process := (process_candidate_block set_iter iter_order shuffle check_hash node_id draw
  within_v shutdown_set save_state_frequency get_optimistic_state apply_block store_optimistic_in_cache
  save_states_for_sharing).
Notation apply_candidate := (apply_candidate_block set_iter node_id save_state_frequency
  get_optimistic_state apply_block store_optimistic_in_cache save_states_for_sharing).

(** What a run on block [id] leaves alone. *)
Definition keeps id r r' : Prop :=
  repo_ok r →
  repo_ok r' ∧
  (∀ b f v, ¬ rewritable f → get (repo_get r b) f = Some v → get (repo_get r' b) f = Some v) ∧
  (∀ b, get (repo_get r' b) parent_block_identifier = get (repo_get r b) parent_block_identifier) ∧
  (∀ b, b ≠ id → get (repo_get r' b) applied = get (repo_get r b) applied).

Lemma keeps_evolves id r r' : evolves r r' → keeps id r r'.
Proof. intros Hev Hok. destruct (evolves_keep _ _ Hev Hok) as (? & ? & _ & ? & ?). naive_solver. Qed.

Lemma keeps_trans id r1 r2 r3 : keeps id r1 r2 → keeps id r2 r3 → keeps id r1 r3.
Proof.
  intros H12 H23 Hok. destruct (H12 Hok) as (Hok2 & Hf & Hp & Ha).
  destruct (H23 Hok2) as (? & Hf' & Hp' & Ha').
  split_and!; [done|eauto| |]; intros b *; rewrite ?Hp'; auto.
  intros. rewrite Ha'; auto.
Qed.

Lemma keeps_set_applied id r now : keeps id r (repo_update r id (λ s, set_applied s now)).
Proof.
  intros Hok. unfold repo_update.
  destruct (step_monotone _ _ (Hok id) (step_applied (repo_get r id) now)) as (Hok' & _ & Hkeep).
  split_and!; intros b; rewrite repo_get_insert; (case_decide; [subst b|]); try done; auto.
  unfold set_applied. case_decide; [done|]. simpl. by rewrite !set_fact_ne.
Qed.

Lemma finish_apply_keeps r available now block id parent_id seq_no t h r' available' effects :
  finish_apply node_id save_state_frequency store_optimistic_in_cache save_states_for_sharing
    (r, available) now block id parent_id seq_no t h = Ok ((r', available'), effects) →
  keeps id r r'.
Proof.
  unfold finish_apply.
  intros (ms & _ & (u & _ & (sh & _ & (r1 & Hr1 & [= <- _ _])%outcome_bind_Ok)%outcome_bind_Ok)
    %outcome_bind_Ok)%outcome_bind_Ok.
  eapply keeps_trans; [apply keeps_set_applied|]. apply keeps_evolves.
  eapply repo_set_evolves; [|exact Hr1]. by split; [|left].
Qed.

Lemma apply_candidate_keeps r available now block id parent_id seq_no r' available' effects :
  apply_candidate (r, available) now block id parent_id seq_no = Ok ((r', available'), effects) →
  keeps id r r' ∧
  (r' = r ∨ is_block_already_applied (repo_get r parent_id) = true).
Proof.
  unfold apply_candidate_block. destruct (is_block_already_applied (repo_get r id)) eqn:Ha.
  { intros [= <- _ _]. split; [by apply keeps_evolves|by left]. }
  destruct (is_block_already_applied (repo_get r parent_id)) eqn:Hp; simpl;
    [|intros [= <- _ _]; split; [by apply keeps_evolves|by left]].
  intros (t & _ & (pr & _ & (h & _ & Hr)%outcome_bind_Ok)%outcome_bind_Ok)%outcome_bind_Ok.
  split; [|by right].
  destruct (_ && _); [injection Hr as <- _ _; apply keeps_set_applied|].
  destruct (get_optimistic_state parent_id t); try done.
  - destruct (apply_block parent_id block); simpl in Hr.
    + apply outcome_bind_Ok in Hr as ([[r1 av1] e1] & Hf & [= <- _ _]).
      by eapply finish_apply_keeps.
    + apply outcome_bind_Ok in Hr as (r1 & Hr1 & [= <- _ _]).
      by eapply keeps_evolves, invalidate_call_evolves.
  - injection Hr as <- _ _. by apply keeps_evolves.
  - apply outcome_bind_Ok in Hr as (r1 & Hr1 & [= <- _ _]).
    by eapply keeps_evolves, invalidate_call_evolves.
Qed.

(** What is known of a block that got to its application. *)
Definition checked r b : Prop :=
  is_stored (repo_get r b) = true ∧
  is_set (repo_get r b) common_checks_passed true = true ∧
  is_signatures_verified (repo_get r b) = true ∧
  is_set (repo_get r b) has_block_attestations_processed true = true ∧
  is_Some (get (repo_get r b) has_all_cross_thread_ref_data_available).

Lemma keeps_flag id r r' b f (v : fact_type f) :
  keeps id r r' → repo_ok r → ¬ rewritable f →
  is_set (repo_get r b) f v = true → is_set (repo_get r' b) f v = true.
Proof.
  intros Hk Hok Hf Hs. destruct (Hk Hok) as (_ & Hm & _). apply get_is_set, Hm; [done|].
  by apply bool_decide_eq_true in Hs.
Qed.

#[local] Ltac not_rewritable := unfold rewritable; naive_solver.

Lemma keeps_checked id r r' b : keeps id r r' → repo_ok r → checked r b → checked r' b.
Proof.
  intros Hk Hok (H1' & H2' & H3' & H4' & [v Hv]). split_and!.
  - eapply keeps_flag; [done..|not_rewritable|done].
  - eapply keeps_flag; [done..|not_rewritable|done].
  - eapply keeps_flag; [done..|not_rewritable|done].
  - eapply keeps_flag; [done..|not_rewritable|done].
  - destruct (Hk Hok) as (_ & Hm & _). exists v. apply Hm; [not_rewritable|done].
Qed.

(** What a run on block [id] guarantees. *)
Definition run_result id r r' : Prop :=
  keeps id r r' ∧
  (is_block_already_applied (repo_get r' id) = true →
   is_block_already_applied (repo_get r id) = true ∨
   (checked r' id ∧ ∃ parent_id, get (repo_get r' id) parent_block_identifier = Some parent_id ∧
                                 is_block_already_applied (repo_get r' parent_id) = true)).

Lemma quiet_run id r r' : repo_ok r → evolves r r' → run_result id r r'.
Proof.
  intros Hok Hev. split; [by apply keeps_evolves|]. intros Ha. left.
  destruct (evolves_keep _ _ Hev Hok) as (_ & _ & _ & Hap & _).
  unfold is_block_already_applied, is_set in *. by rewrite Hap in Ha.
Qed.

Lemma applying_run id parent_id r r6 r7 :
  repo_ok r → get (repo_get r id) parent_block_identifier = Some parent_id →
  evolves r r6 → checked r6 id → is_block_already_applied (repo_get r6 parent_id) = true →
  keeps id r6 r7 → run_result id r r7.
Proof.
  intros Hok Hpar Hev Hch Hap Hk. pose proof (keeps_evolves id _ _ Hev Hok) as (Hok6 & _ & Hp6 & _).
  split; [eapply keeps_trans; [by apply keeps_evolves|done]|].
  intros _. right. split; [by eapply keeps_checked|].
  destruct (Hk Hok6) as (_ & _ & Hp7 & _). exists parent_id. split; [by rewrite Hp7, Hp6|].
  eapply (keeps_flag id r6); [done..|not_rewritable|done].
Qed.

Lemma evolves_flag r r' b f (v : fact_type f) :
  repo_ok r → evolves r r' → ¬ rewritable f →
  is_set (repo_get r b) f v = true → is_set (repo_get r' b) f v = true.
Proof. intros Hok Hev. eapply (keeps_flag b); [by apply keeps_evolves|done]. Qed.

(** The stages between the keeper set and the application. *)
Lemma process_checks r available block id parent_id now skipped seq_no r1 r' available' effects :
  repo_ok r → get (repo_get r id) parent_block_identifier = Some parent_id → evolves r r1 →
  is_stored (repo_get r1 id) = true →
  (pass_common_checks set_iter iter_order shuffle check_hash r1 (data block) id parent_id
   ≫= λ '(r, effects1, ready),
   if negb ready then Ok ((r, available), effects1)
   else
     pass_signatures set_iter r block id skipped ≫= λ '(r, ready),
     if negb ready then Ok ((r, available), effects1)
     else
       set_consensus_params set_iter node_id draw within_v shutdown_set r id parent_id ≫= λ params,
       match params with
       | None => Ok ((r, available), effects1)
       | Some (r, effects2) =>
           process_block_attestations set_iter r (data block) id parent_id
           ≫= λ '(r, effects3, ready),
           if negb ready then Ok ((r, available), effects1 ++ effects2 ++ effects3)
           else
             check_refs r available (data block) id ≫= λ '(r, effects4, ready),
             if negb ready
             then Ok ((r, available), effects1 ++ effects2 ++ effects3 ++ effects4)
             else
               apply_candidate (r, available) now (data block) id parent_id seq_no
               ≫= λ '(w, effects5),
               Ok (w, effects1 ++ effects2 ++ effects3 ++ effects4 ++ effects5)
       end) = Ok ((r', available'), effects) →
  run_result id r r'.
Proof.
  intros Hok Hpar Hev1 Hst Hrun.
  assert (Hok_of : ∀ r0, evolves r r0 → repo_ok r0)
    by (intros r0 Hev; by destruct (evolves_keep _ _ Hev Hok)).
  apply outcome_bind_Ok in Hrun as ([[r2 e2] ready] & [Hev2 Hcc]%pass_common_checks_evolves & Hrun).
  assert (evolves r r2) by by etransitivity.
  destruct ready; simpl in Hrun; [|injection Hrun as <- _ _; by apply quiet_run].
  apply outcome_bind_Ok in Hrun as ([r3 ready] & [Hev3 Hsv]%pass_signatures_evolves & Hrun).
  assert (evolves r r3) by by etransitivity.
  destruct ready; simpl in Hrun; [|injection Hrun as <- _ _; by apply quiet_run].
  apply outcome_bind_Ok in Hrun as (params & Hparams & Hrun).
  destruct params as [[r4 e4]|]; [|injection Hrun as <- _ _; by apply quiet_run].
  apply set_consensus_params_evolves in Hparams as Hev4.
  assert (evolves r r4) by by etransitivity.
  apply outcome_bind_Ok in Hrun
    as ([[r5 e5] ready] & [Hev5 Hpa]%process_block_attestations_evolves & Hrun).
  assert (evolves r r5) by by etransitivity.
  destruct ready; simpl in Hrun; [|injection Hrun as <- _ _; by apply quiet_run].
  apply outcome_bind_Ok in Hrun as ([[r6 e6] ready] & [Hev6 Href]%check_refs_evolves & Hrun).
  assert (evolves r r6) by by etransitivity.
  destruct ready; simpl in Hrun; [|injection Hrun as <- _ _; by apply quiet_run].
  apply outcome_bind_Ok in Hrun as ([[r7 av7] e7] & Happ & [= <- _ _]).
  apply apply_candidate_keeps in Happ as [Hk7 [->|Hparent]]; [by apply quiet_run|].
  apply (applying_run id parent_id r r6); try done. split_and!; [..|by apply Href].
  - apply (evolves_flag r1); [auto|by do 4 (etransitivity; [done|])|not_rewritable|done].
  - apply (evolves_flag r2); [auto|by do 3 (etransitivity; [done|])|not_rewritable|auto].
  - apply (evolves_flag r3); [auto|by do 2 (etransitivity; [done|])|not_rewritable|auto].
  - apply (evolves_flag r5); [auto|done|not_rewritable|auto].
Qed.

Lemma process_run r available now block id skipped r' available' effects :
  process (r, available) now block id skipped = Ok ((r', available'), effects) →
  repo_ok r → run_result id r r'.
Proof.
  intros Hrun Hok. unfold process_candidate_block in Hrun.
  destruct (get (repo_get r id) block_seq_no) as [seq_no|]; [|injection Hrun as <- _ _; by apply quiet_run].
  destruct (get (repo_get r id) parent_block_identifier) as [parent_id|] eqn:Hpar;
    [|injection Hrun as <- _ _; by apply quiet_run].
  destruct (_ || _); [injection Hrun as <- _ _; by apply quiet_run|].
  apply outcome_bind_Ok in Hrun as ([r1 ready] & [Hev1 Hst]%pass_keepers_evolves & Hrun).
  destruct ready; simpl in Hrun; [|injection Hrun as <- _ _; by apply quiet_run].
  by eapply process_checks; [..|exact Hrun]; auto.
Qed.

(** Runs of the service, on any block in any order. *)
Inductive service_step : Repo * gset BlockIdentifier → Repo * gset BlockIdentifier → Prop :=
  | service_run w now block id skipped w' effects :
      process w now block id skipped = Ok (w', effects) → service_step w w'.

(** Every applied block went through all checks after its parent was applied, except the
    blocks the node started from. *)
Definition pipeline_inv roots r : Prop :=
  ∀ b, is_block_already_applied (repo_get r b) = true → b ∉ roots →
    checked r b ∧ ∃ parent_id, get (repo_get r b) parent_block_identifier = Some parent_id ∧
                               is_block_already_applied (repo_get r parent_id) = true.

(** C2 (the order of the checks): along any sequence of runs of the block processor, on any
    blocks in any order, no fact about a block that is once set is changed (the prefinalization
    proof, the envelope hash and the parent apart), and a block is applied only after it has
    been stored, has passed the common checks and the signature checks, has had the
    attestations for its ancestors processed and its references available, and after its
    parent was applied.  The blocks a node starts from are exempt. *)
Theorem applied_after_all_checks roots w w' :
  repo_ok w.1 → pipeline_inv roots w.1 → rtc service_step w w' →
  repo_ok w'.1 ∧ pipeline_inv roots w'.1 ∧
  (∀ b f v, ¬ rewritable f → get (repo_get w.1 b) f = Some v → get (repo_get w'.1 b) f = Some v).
Proof.
  intros Hok Hinv Hruns. revert Hok Hinv.
  induction Hruns as [w|w1 w2 w3 Hstep _ IH]; intros Hok Hinv; [done|].
  destruct Hstep as [[r av] now block id skipped [r2 av2] effects Hrun]. cbn [fst] in *.
  destruct (process_run _ _ _ _ _ _ _ _ _ Hrun Hok) as [Hk Hap].
  destruct (Hk Hok) as (Hok2 & Hmono & Hpar & Hoth).
  destruct IH as (? & ? & Hmono'); [done| |by eauto].
  intros b Hb Hroot. destruct (decide (b = id)) as [->|Hne].
  - destruct (Hap Hb) as [Hold|?]; [|done]. destruct (Hinv _ Hold Hroot) as (Hc & p & Hp & Hpa).
    split; [by eapply keeps_checked|]. exists p. rewrite Hpar. split; [done|].
    eapply (keeps_flag id r); [done..|not_rewritable|done].
  - assert (is_block_already_applied (repo_get r b) = true) as Hold.
    { unfold is_block_already_applied, is_set in *. by rewrite Hoth in Hb. }
    destruct (Hinv _ Hold Hroot) as (Hc & p & Hp & Hpa).
    split; [by eapply keeps_checked|]. exists p. rewrite Hpar. split; [done|].
    eapply (keeps_flag id r); [done..|not_rewritable|done].
Qed.
End pipeline.

(** ** Evaluation *)
Section pipeline_witnesses.
#[local] Existing Instance LinearBlst.
#[local] Existing Instance serialize_attestation.
Definition serialize_candidate : Serialize (CandidateBlock (H := LinearBlst)) :=
  λ c, Some [cb_seq_no c].
#[local] Existing Instance serialize_candidate.

Notation State := (AckiNackiBlockState (H := LinearBlst) unit).

Lemma with_fact_ok (s : State) f v :
  facts_ok s → only_value (NackData := unit) f = None ∨ only_value f = Some v → f ≠ applied_start_timestamp →
  facts_ok (with_fact s f v).
Proof.
  intros [Hv Ht] Hf Hne. split; simpl.
  - intros f' v' w Hw. destruct (decide (f = f')) as [<-|]; [|rewrite set_fact_ne by done; eauto].
    rewrite set_fact_eq. intros [= <-]. destruct Hf; congruence.
  - rewrite (set_fact_ne _ _ _ applied_start_timestamp) by done. intros Hs%Ht.
    destruct (decide (f = applied)) as [->|]; [|by rewrite set_fact_ne].
    rewrite set_fact_eq. destruct Hf as [Hf|Hf]; [done|]. by injection Hf as <-.
Qed.

Definition example_node (n : Z) : NodeIdentifier :=
  NodeId (AccountAddr (replicate 31 0%Z ++ [n])).
Definition example_selector : ProducerSelector := mkProducerSelector (example_block 1) 0.
Definition example_height (n : Z) : BlockHeight := mkBlockHeight example_thread n.
Definition example_targets : AttestationTargets := attestation_targets 2 3.
Definition example_checkpoints : AncestorBlocksFinalizationCheckpoints :=
  inherit_and_insert false (mkCheckpoints ∅ ∅) (example_block 1) example_targets.

(** The last block of the chain, and a stored candidate on top of it. *)
Definition parent_state : State :=
  let s := AckiNackiBlockState_new (example_block 1) in
  let s := with_fact s block_seq_no 4%Z in
  let s := with_fact s parent_block_identifier BlockIdentifier_default in
  let s := with_fact s thread_identifier example_thread in
  let s := with_fact s block_height (example_height 1) in
  let s := with_fact s block_time_ms 1000%Z in
  let s := with_fact s bk_set example_keepers in
  let s := with_fact s descendant_bk_set example_keepers in
  let s := with_fact s descendant_future_bk_set BlockKeeperSet_new in
  let s := with_fact s ancestors [] in
  let s := with_fact s envelope_hash [7%Z] in
  let s := with_fact s common_checks_passed true in
  let s := with_fact s block_stats (BlockStatistics_zero 3 5) in
  let s := with_fact s attestation_target example_targets in
  let s := with_fact s finalizes_blocks ∅ in
  let s := with_fact s ancestor_blocks_finalization_checkpoints example_checkpoints in
  with_fact s applied true.

Definition candidate_state : State :=
  let s := AckiNackiBlockState_new (example_block 2) in
  let s := with_fact s block_seq_no 5%Z in
  let s := with_fact s parent_block_identifier (example_block 1) in
  let s := with_fact s thread_identifier example_thread in
  let s := with_fact s block_height (example_height 2) in
  let s := with_fact s producer_selector_data example_selector in
  with_fact s stored true.

Definition pipeline_repo : Repository unit :=
  <[example_block 1 := parent_state]> {[ example_block 2 := candidate_state ]}.

(** Both keepers attest the parent: its keys are 11 and 22, the serialized attestation
    hashes to 5. *)
Definition parent_attestation : Envelope (H := LinearBlst) AttestationData :=
  mkEnvelope 165%Z {[1%Z := 1%Z; 2%Z := 1%Z]}
    (mkAttestationData BlockIdentifier_default (example_block 1) 4 [7%Z] Primary).

(** The candidate, signed by its producer; the serialized block hashes to 6. *)
Definition candidate_block : Envelope (H := LinearBlst) CandidateBlock :=
  mkEnvelope 66%Z {[1%Z := 1%Z]}
    (mkCandidate LinearBlst (example_block 2) 5 (example_height 2) example_thread (example_node 1)
       [parent_attestation] [] [] None None false (example_block 1) (Some 1500%Z) 0%Z
       (Some example_selector)).

Definition example_run (r : Repository unit) (id : BlockIdentifier) :=
  process_candidate_block elements elements (λ _ l, l) (λ _, Ok true) (example_node 2)
    (λ _ _, Some 0%Z) (λ _ _ _, false) false 200 (λ _ _, Loaded) (λ _ _, true) (λ _, true) (λ _, true)
    (r, ∅) 1500 candidate_block id ∅.

Lemma pipeline_repo_get b :
  repo_get pipeline_repo b =
    if decide (b = example_block 1) then parent_state
    else if decide (b = example_block 2) then candidate_state else fresh_state b.
Proof.
  unfold pipeline_repo. rewrite repo_get_insert. case_decide; [done|].
  unfold repo_get. case_decide; [subst; by rewrite lookup_singleton_eq|].
  by rewrite lookup_singleton_ne.
Qed.

Lemma fresh_ok b : facts_ok (fresh_state (H := LinearBlst) (NackData := unit) b).
Proof.
  unfold fresh_state. case_decide; [|apply new_facts_ok].
  apply with_fact_ok; [apply new_facts_ok|by left|done].
Qed.

Lemma pipeline_repo_ok : repo_ok pipeline_repo.
Proof.
  intros b. rewrite pipeline_repo_get. unfold parent_state, candidate_state.
  repeat case_decide; [| |apply fresh_ok].
  all: repeat (apply with_fact_ok; [|by (left + right)|done]); apply new_facts_ok.
Qed.

Lemma pipeline_repo_inv : pipeline_inv {[example_block 1]} pipeline_repo.
Proof.
  intros b. rewrite pipeline_repo_get. case_decide; [set_solver|].
  case_decide; [by intros ?|]. unfold fresh_state. by case_decide.
Qed.

Definition run_finished (o : outcome ProcessError (Repository unit * gset BlockIdentifier * list Effect)) :
    bool :=
  match o with
  | Ok (w, _) =>
      is_block_already_applied (repo_get w.1 (example_block 2)) &&
      is_set (repo_get w.1 (example_block 2)) finalizes_blocks {[example_block 1]}
  | _ => false
  end.

(** One run takes the candidate through all stages; it finalizes its parent on the way. *)
Lemma applied_after_all_checks_witness :
  ∃ w effects, example_run pipeline_repo (example_block 2) = Ok (w, effects) ∧
    run_finished (Ok (w, effects)) = true ∧
    repo_ok w.1 ∧ pipeline_inv {[example_block 1]} w.1.
Proof.
  assert (Hfin : run_finished (example_run pipeline_repo (example_block 2)) = true)
    by (vm_compute; reflexivity).
  destruct (example_run pipeline_repo (example_block 2)) as [[w effects]| |] eqn:Hrun;
    [|discriminate Hfin..].
  exists w, effects. split; [reflexivity|]. split; [exact Hfin|].
  destruct (applied_after_all_checks elements elements (λ _ l, l) (λ _, Ok true) (example_node 2)
    (λ _ _, Some 0%Z) (λ _ _ _, false) false 200 (λ _ _, Loaded) (λ _ _, true) (λ _, true) (λ _, true)
    {[example_block 1]} (pipeline_repo, ∅) w) as (Hok & Hinv & _).
  - exact pipeline_repo_ok.
  - exact pipeline_repo_inv.
  - eapply rtc_once, service_run. exact Hrun.
  - split; [exact Hok|exact Hinv].
Defined.
End pipeline_witnesses.
