(* ===== verification/Quorum.v ===== *)
(** * Quorum: which blocks the block processor finalizes.

    Theorems about the definitions of BlockProcessor.v: the attestations a block is credited
    with are signed by keepers of the attested block, a block is declared finalized only with
    a quorum of them, the check a producer runs before it makes a block agrees with the check
    the other nodes run on it, and the attestation targets stay within their bounds. *)
From stdpp Require Import base numbers gmap strings fin_maps sorting list.
From S2P Require Import Prelude Identifiers Bitmask Bls BlockKeepers Envelope Attestation Checkpoints Statistics BlockState BlockProcessor.

(** ** Attestations are verified before they count *)
Section evidence.
Context `{Blst} {NackData : Type} `{EqDecision NackData}.
Context `{Serialize AttestationData} `{Serialize CandidateBlock}.
Notation Repo := (Repository NackData).
Implicit Types (r : Repo) (s : AckiNackiBlockState NackData) (b id parent_id : BlockIdentifier).
Implicit Types (a : Envelope AttestationData) (block : Envelope CandidateBlock).

(** [a] is an attestation for the block [b] as the node knows it, signed by keepers of [b]. *)
Definition attests r a b (t : AttestationTargetType) : Prop :=
  att_block_id (data a) = b ∧ att_target_type (data a) = t ∧
  get (repo_get r b) envelope_hash = Some (att_envelope_hash (data a)) ∧
  ∃ keepers, get (repo_get r b) bk_set = Some keepers ∧
    Envelope_verify_signatures a (BlockKeeperSet_get_pubkeys_by_signers keepers) = Ok true.

(** Every attestation the block [id] is credited with is one of the candidate's. *)
Definition attestation_evidence r block id : Prop :=
  ∀ b t signers, verified_attestations (repo_get r id) !! (b, t) = Some signers →
    ∃ a, a ∈ cb_block_attestations (data block) ∧ signers = dom (signature_occurrences a) ∧
         attests r a b t.

(** The recorded verdict on the producer's signature is the right one. *)
Definition producer_evidence r block id : Prop :=
  get (repo_get r id) envelope_block_producer_signature_verified = Some true →
  ∃ keepers k, get (repo_get r id) bk_set = Some keepers ∧
    Envelope_verify_signatures block (BlockKeeperSet_get_pubkeys_by_signers keepers) = Ok true ∧
    BlockKeeperSet_get_by_node_id keepers (cb_producer_id (data block)) = Some k ∧
    Envelope_has_signer_index block (signer_index k) = true.

(** Two stores that agree on what the checks read. *)
Definition same_evidence r r' : Prop :=
  ∀ b f, f ≠ envelope_block_producer_signature_verified →
    get (repo_get r' b) f = get (repo_get r b) f.

Lemma attests_same r r' a b t : same_evidence r r' → attests r a b t → attests r' a b t.
Proof.
  intros Hs (? & ? & ? & keepers & ? & ?). split_and!; [done..|by rewrite Hs|].
  exists keepers. by rewrite Hs.
Qed.

Lemma check_attestation_verified r prev skipped a :
  check_attestation r prev skipped a = Ok Verified →
  attests r a (att_block_id (data a)) (att_target_type (data a)).
Proof.
  unfold check_attestation. do 2 (case_bool_decide; [done|]).
  destruct (is_invalidated _); [done|].
  destruct (get _ envelope_hash) as [hash|] eqn:Hh; [|done].
  case_bool_decide as Hne; [done|]. subst hash.
  destruct (get _ bk_set) as [keepers|] eqn:Hk; [|done].
  intros (valid & Hv%unwrap_ok_inv & Ht)%outcome_bind_Ok. destruct valid; [|done].
  split_and!; try done. by exists keepers.
Qed.

Lemma check_attestations_verified r prev skipped acc atts verified :
  check_attestations r prev skipped acc atts = Ok (Some verified) →
  ∀ a, a ∈ verified → a ∈ acc ∨
    (a ∈ atts ∧ attests r a (att_block_id (data a)) (att_target_type (data a))).
Proof.
  revert acc. induction atts as [|a0 atts IH]; intros acc; simpl; [intros [= <-]; auto|].
  intros (c & Hc & Hr)%outcome_bind_Ok a Ha. destruct c; [|done|].
  - destruct (IH _ Hr a Ha) as [?|[? ?]]; [by left|right; split; [by right|done]].
  - apply check_attestation_verified in Hc.
    destruct (IH _ Hr a Ha) as [Hin|[? ?]]; [|right; split; [by right|done]].
    apply elem_of_app in Hin as [?| ->%list_elem_of_singleton]; [by left|].
    right. split; [left|done].
Qed.

Lemma add_verified_lookup s atts key signers :
  verified_attestations (foldl add_verified s atts) !! key = Some signers →
  verified_attestations s !! key = Some signers ∨
  ∃ a, a ∈ atts ∧ key = (att_block_id (data a), att_target_type (data a)) ∧
       signers = dom (signature_occurrences a).
Proof.
  revert s. induction atts as [|a atts IH]; intros s; simpl; [by left|].
  intros Hl. apply IH in Hl as [Hl|(a' & ? & ? & ?)]; [|right; exists a'; split; [by right|done]].
  assert (verified_attestations (add_verified s a) =
    <[(att_block_id (data a), att_target_type (data a)) := dom (signature_occurrences a)]>
      (verified_attestations s)) as Heq.
  { unfold add_verified, add_verified_attestations_for. by case_match. }
  rewrite Heq in Hl. apply lookup_insert_Some in Hl as [[<- <-]|[_ ?]]; [|by left].
  right. exists a. split; [left|done].
Qed.

Lemma add_verified_facts s atts f : get (foldl add_verified s atts) f = get s f.
Proof.
  revert s. induction atts as [|a atts IH]; intros s; simpl; [done|]. rewrite IH.
  unfold add_verified, add_verified_attestations_for. by case_match.
Qed.

Lemma verify_block_signature_evidence r block id r' valid :
  producer_evidence r block id → verify_block_signature r block id = Ok (r', valid) →
  same_evidence r r' ∧ producer_evidence r' block id ∧
  (∀ b, verified_attestations (repo_get r' b) = verified_attestations (repo_get r b)) ∧
  (valid = Some true →
   get (repo_get r' id) envelope_block_producer_signature_verified = Some true).
Proof.
  intros Hev. assert (same_evidence r r) as Hrefl by by intros b f. unfold verify_block_signature.
  destruct (get (repo_get r id) envelope_block_producer_signature_verified) as [v|] eqn:Hv.
  { intros [= <- <-]. split_and!; [done..|congruence]. }
  destruct (get (repo_get r id) bk_set) as [keepers|] eqn:Hk; [|by intros [= <- <-]; split_and!].
  intros (v & Hver%unwrap_ok_inv & Hr)%outcome_bind_Ok.
  destruct (BlockKeeperSet_get_by_node_id _ _) as [k|] eqn:Hn;
    [|by injection Hr as <- <-; split_and!].
  destruct (Envelope_has_signer_index _ _) eqn:Hsig; [|by injection Hr as <- <-; split_and!].
  apply outcome_bind_Ok in Hr as (r2 & Hr2 & [= <- <-]). unfold repo_set in Hr2.
  apply outcome_bind_Ok in Hr2 as (s & (Hget & Hoth & Hva)%unwrap_ok_inv%generated_setter_get & [= <-]).
  assert (Hsame : same_evidence r (<[id := s]> r)).
  { intros b f Hf. rewrite repo_get_insert. case_decide; [subst; by apply Hoth|done]. }
  split_and!; [done| | |].
  - intros Htrue. rewrite repo_get_insert, decide_True, Hget in Htrue by done. injection Htrue as ->.
    exists keepers, k. rewrite Hsame by done. done.
  - intros b. rewrite repo_get_insert. case_decide; [by subst|done].
  - intros [= ->]. by rewrite repo_get_insert, decide_True.
Qed.

(** C4 (verify_all_block_signatures): whenever the check runs, it keeps both invariants of
    the block's record: every attestation the block is credited with is one of the
    candidate's own, its envelope hash is the one stored for the attested block, and it
    carries a valid aggregated signature of keepers of that block, with the recorded signers;
    and the producer's signature is recorded as valid only when the envelope verifies against
    the keepers of the block and is signed by the stated producer.  The answer "valid" is
    given only with this record, and no other block's state changes. *)
Theorem verified_attestations_signed r block id skipped r' status :
  attestation_evidence r block id → producer_evidence r block id →
  verify_all_block_signatures r block id skipped = Ok (r', status) →
  attestation_evidence r' block id ∧ producer_evidence r' block id ∧
  (status = Some true →
   get (repo_get r' id) envelope_block_producer_signature_verified = Some true) ∧
  ∀ b, b ≠ id → repo_get r' b = repo_get r b.
Proof.
  intros Hatt Hprod Hver. unfold verify_all_block_signatures in Hver.
  apply outcome_bind_Ok in Hver as ([r1 valid] & Hsig & Hver).
  assert (Hother : ∀ b, b ≠ id → repo_get r1 b = repo_get r b).
  { intros b Hb. unfold verify_block_signature in Hsig.
    destruct (get (repo_get r id) envelope_block_producer_signature_verified); [by injection Hsig as <- _|].
    destruct (get (repo_get r id) bk_set); [|by injection Hsig as <- _].
    apply outcome_bind_Ok in Hsig as (v & _ & Hsig).
    destruct (BlockKeeperSet_get_by_node_id _ _); [|by injection Hsig as <- _].
    destruct (negb _); [by injection Hsig as <- _|].
    apply outcome_bind_Ok in Hsig as (r2 & (s & _ & [= <-])%outcome_bind_Ok & [= <- _]).
    by rewrite repo_get_insert, decide_False. }
  destruct (verify_block_signature_evidence _ _ _ _ _ Hprod Hsig) as (Hsame & Hprod1 & Hva & Hval).
  assert (Hatt1 : attestation_evidence r1 block id).
  { intros b t signers Hs. rewrite Hva in Hs. destruct (Hatt _ _ _ Hs) as (a & ? & ? & ?).
    exists a. split_and!; [done..|by eapply attests_same]. }
  destruct valid as [[]|]; [|by injection Hver as <- <-; split_and!..].
  specialize (Hval eq_refl). unfold verify_block_attestations in Hver.
  case_bool_decide; [by injection Hver as <- <-; split_and!|].
  apply outcome_bind_Ok in Hver as ([verified|] & Hcheck & [= <- <-]); [|by split_and!].
  set (r2 := repo_update _ _ _).
  assert (Hget : ∀ b f, get (repo_get r2 b) f = get (repo_get r1 b) f).
  { intros b f. unfold r2, repo_update. rewrite repo_get_insert.
    case_decide; [subst; apply add_verified_facts|done]. }
  split_and!.
  - intros b t signers. unfold r2 at 1, repo_update. rewrite repo_get_insert, decide_True by done.
    intros [Hs|(a & Ha & [= -> ->] & ->)]%add_verified_lookup.
    + destruct (Hatt1 _ _ _ Hs) as (a & ? & ? & ?). exists a. split_and!; [done..|].
      by eapply attests_same; [intros ? ? _; apply Hget|].
    + destruct (check_attestations_verified _ _ _ _ _ _ Hcheck a Ha) as [?%elem_of_nil|[? ?]]; [done|].
      exists a. split_and!; [done..|]. by eapply attests_same; [intros ? ? _; apply Hget|].
  - unfold producer_evidence. rewrite !Hget. apply Hprod1.
  - by rewrite Hget.
  - intros b Hb. unfold r2, repo_update. rewrite repo_get_insert, decide_False by done. auto.
Qed.
End evidence.

(** ** A block is finalized by a quorum *)
Section quorum.
Context `{Blst} {NackData : Type} `{EqDecision NackData}.
Context `{Serialize AttestationData} `{Serialize CandidateBlock}.
Notation Repo := (Repository NackData).
Implicit Types (r : Repo) (s : AckiNackiBlockState NackData) (b id parent_id : BlockIdentifier).
Implicit Types (a : Envelope AttestationData) (ck : AttestationTargetCheckpoint).
Variable set_iter : gset BlockIdentifier → list BlockIdentifier.

#[local] Ltac settable := by split; [done|auto].

Lemma state_set_if_none_some s f (v : fact_type f) s' :
  state_set_if_none s f v = Ok s' → is_Some (get s' f).
Proof.
  unfold state_set_if_none, state_set. destruct (get s f) eqn:Hg; [intros [= <-]; eauto|].
  intros (-> & _)%unwrap_ok_inv%generated_setter_get. eauto.
Qed.

Lemma set_proof_some block b t f cast s s' :
  set_proof block b t f cast s = Ok s' → is_Some (get s' f).
Proof.
  unfold set_proof. destruct (get s f) eqn:Hg; [intros [= <-]; eauto|].
  intros (a & _ & Hs)%outcome_bind_Ok. unfold state_set in Hs.
  apply unwrap_ok_inv, generated_setter_get in Hs as (-> & _). eauto.
Qed.

Lemma prefinalize_some block b s s' effects :
  prefinalize block b s = Ok (s', effects) → is_Some (get s' prefinalization_proof).
Proof.
  unfold prefinalize. destruct (get s prefinalization_proof) eqn:Hg; [intros [= <- _]; eauto|].
  intros (a & _ & (t & _ & [= <- _])%outcome_bind_Ok)%outcome_bind_Ok.
  simpl. rewrite set_fact_eq. eauto.
Qed.

Lemma quiet_some s s' f : rtc quiet_step s s' → facts_ok s → is_Some (get s f) → is_Some (get s' f).
Proof. intros Hq Hok. destruct (quiet_steps_keep _ _ Hq Hok) as (_ & _ & Hs & _). auto. Qed.

(** What the store says of a block that passed its primary, or its fallback, target. *)
Definition primary_passed r b : Prop :=
  is_Some (get (repo_get r b) prefinalization_proof) ∧
  is_Some (get (repo_get r b) primary_finalization_proof) ∧
  is_Some (get (repo_get r b) has_primary_attestation_target_met).

Definition fallback_passed r b : Prop :=
  is_Some (get (repo_get r b) fallback_finalization_proof) ∧
  is_Some (get (repo_get r b) has_fallback_attestation_target_met).

Lemma on_passed_primary_flags block r e m b r' e' m' :
  repo_ok r → on_passed_primary block (r, e, m) b = Ok (r', e', m') → primary_passed r' b.
Proof.
  intros Hok. unfold on_passed_primary.
  intros ([s1 new] & Hp & (s2 & Hs2 & (s3 & Hs3 & (n & _ & [= <- _ _])%outcome_bind_Ok)
    %outcome_bind_Ok)%outcome_bind_Ok)%outcome_bind_Ok.
  pose proof (prefinalize_quiet _ _ _ _ _ Hp) as Hq1.
  assert (Hq2 : rtc quiet_step s1 s2) by (eapply set_proof_quiet; [| |exact Hs2]; done).
  assert (Hq3 : rtc quiet_step s2 s3) by (eapply state_set_if_none_quiet; [|done]; settable).
  destruct (quiet_steps_keep _ _ Hq1 (Hok b)) as (Hok1 & _).
  destruct (quiet_steps_keep _ _ Hq2 Hok1) as (Hok2 & _).
  unfold primary_passed. rewrite !repo_get_insert, decide_True by done. split_and!.
  - eapply quiet_some; [exact Hq3|done|]. eapply quiet_some; [exact Hq2|done|].
    by eapply prefinalize_some.
  - eapply quiet_some; [exact Hq3|done|]. by eapply set_proof_some.
  - by eapply state_set_if_none_some.
Qed.

Lemma on_passed_fallback_flags block r e m b r' e' m' :
  repo_ok r → on_passed_fallback block (r, e, m) b = Ok (r', e', m') → fallback_passed r' b.
Proof.
  intros Hok. unfold on_passed_fallback.
  intros (s2 & Hs2 & (s3 & Hs3 & (n & _ & [= <- _ _])%outcome_bind_Ok)%outcome_bind_Ok)%outcome_bind_Ok.
  assert (Hq2 : rtc quiet_step (repo_get r b) s2) by (eapply set_proof_quiet; [| |exact Hs2]; done).
  assert (Hq3 : rtc quiet_step s2 s3) by (eapply state_set_if_none_quiet; [|done]; settable).
  destruct (quiet_steps_keep _ _ Hq2 (Hok b)) as (Hok2 & _).
  unfold fallback_passed. rewrite !repo_get_insert, decide_True by done. split.
  - eapply quiet_some; [exact Hq3|done|]. by eapply set_proof_some.
  - by eapply state_set_if_none_some.
Qed.

(** A property that every visited block gets, and that later changes keep, holds of all
    blocks of the list after the loop. *)
Lemma fold_visits {B C} (f : Repo * B * C → BlockIdentifier → outcome ProcessError (Repo * B * C))
    (P : Repo → BlockIdentifier → Prop) l r e m r' e' m' :
  (∀ r e m b r' e' m', f (r, e, m) b = Ok (r', e', m') → evolves r r') →
  (∀ r e m b r' e' m', repo_ok r → f (r, e, m) b = Ok (r', e', m') → P r' b) →
  (∀ r r' b, repo_ok r → evolves r r' → P r b → P r' b) →
  repo_ok r → fold_outcome f (r, e, m) l = Ok (r', e', m') → ∀ b, b ∈ l → P r' b.
Proof.
  intros Hev Hf Hkeep. revert r e m.
  induction l as [|b0 l IH]; intros r e m Hok Hl b Hb; [by apply elem_of_nil in Hb|].
  simpl in Hl. apply outcome_bind_Ok in Hl as ([[r1 e1] m1] & H1' & Hl).
  assert (repo_ok r1) as Hok1 by (by destruct (evolves_keep _ _ (Hev _ _ _ _ _ _ _ H1') Hok)).
  apply elem_of_cons in Hb as [->|Hb]; [|by eapply IH].
  eapply Hkeep; [exact Hok1| |exact (Hf _ _ _ _ _ _ _ Hok H1')]. by eapply fold_evolves2.
Qed.

Lemma evolves_some r r' b f :
  repo_ok r → evolves r r' → is_Some (get (repo_get r b) f) → is_Some (get (repo_get r' b) f).
Proof. intros Hok Hev. destruct (evolves_keep _ _ Hev Hok) as (_ & _ & Hs & _). auto. Qed.

Lemma primary_passed_keep r r' b :
  repo_ok r → evolves r r' → primary_passed r b → primary_passed r' b.
Proof. intros Hok Hev (? & ? & ?). split_and!; by eapply evolves_some. Qed.

Lemma fallback_passed_keep r r' b :
  repo_ok r → evolves r r' → fallback_passed r b → fallback_passed r' b.
Proof. intros Hok Hev (? & ?). split; by eapply evolves_some. Qed.

Lemma set_finalizes_get r id blocks m r' :
  set_finalizes r id blocks m = Ok r' → get (repo_get r' id) finalizes_blocks = Some blocks.
Proof.
  unfold set_finalizes. case_bool_decide as Hb; [by intros [= <-]|].
  intros (r1 & Hr1%repo_set_get & Hr)%outcome_bind_Ok. destruct m as [cutoff|]; [|by injection Hr as <-].
  unfold repo_set in Hr. apply outcome_bind_Ok in Hr as (s & Hs%unwrap_ok_inv & [= <-]).
  rewrite repo_get_insert, decide_True by done.
  apply generated_setter_get in Hs as (_ & Ho & _). by rewrite Ho.
Qed.

(** The listed signers of an attestation: those whose signature is in the aggregate (a count
    above zero) and those listed with the count zero, which no signature stands behind. *)
Definition counted_signers a : gset Z :=
  dom (filter (λ sc : Z * Z, sc.2 ≠ 0%Z) (signature_occurrences a)).

Definition uncounted_signers a : gset Z :=
  dom (filter (λ sc : Z * Z, ¬ sc.2 ≠ 0%Z) (signature_occurrences a)).

(** The counts of the candidate's attestations are [u16]s. *)
Definition attestations_wf (block : Envelope CandidateBlock) : Prop :=
  ∀ a, a ∈ cb_block_attestations (data block) → occurrences_wf (signature_occurrences a).

(** [b] was attested in time: an attestation of the candidate names it, verifies against the
    keepers [b] has, every signer in its aggregate is one of these keepers, and with the
    entries of count zero it lists at least the required number of signers. *)
Definition quorum r (block : Envelope CandidateBlock) b ck : Prop :=
  current_distance ck ≤ deadline ck ∧
  ∃ a keepers, a ∈ cb_block_attestations (data block) ∧
    attests r a b (attestation_target_type ck) ∧
    get (repo_get r b) bk_set = Some keepers ∧
    counted_signers a ≠ ∅ ∧
    counted_signers a ⊆ dom (BlockKeeperSet_get_pubkeys_by_signers keepers) ∧
    required_attestation_count ck ≤ size (counted_signers a) + size (uncounted_signers a).

Lemma listed_signers_split a :
  size (dom (signature_occurrences a)) = size (counted_signers a) + size (uncounted_signers a).
Proof.
  unfold counted_signers, uncounted_signers.
  pose proof (map_filter_union_complement (λ sc : Z * Z, sc.2 ≠ 0%Z) (signature_occurrences a)) as Hu.
  pose proof (map_disjoint_filter_complement (λ sc : Z * Z, sc.2 ≠ 0%Z) (signature_occurrences a)) as Hd.
  rewrite <- Hu at 1. rewrite dom_union_L, size_union; [done|]. by apply map_disjoint_dom.
Qed.

Lemma verified_signers_are_keepers a signers :
  occurrences_wf (signature_occurrences a) → Envelope_verify_signatures a signers = Ok true →
  counted_signers a ≠ ∅ ∧ counted_signers a ⊆ dom signers.
Proof.
  intros Hwf (Hk & Hne & _)%verify_true_iff; [|done]. split.
  - intros He. apply Hne. unfold counted_signers in He. apply dom_empty_inv_L in He.
    destruct (flat_keys _ _) as [|k l] eqn:Hf; [done|exfalso].
    assert (Hin : k ∈ k :: l) by left. rewrite <- Hf in Hin. unfold flat_keys in Hin.
    apply list_elem_of_bind in Hin as ([s c] & Hin & Hsc%elem_of_map_to_list).
    assert (c ≠ 0%Z) as Hc by (intros ->; destruct (signers !! s); by apply elem_of_nil in Hin).
    apply (f_equal (.!! s)) in He. rewrite lookup_empty in He.
    by rewrite (map_lookup_filter_Some_2 _ _ _ _ Hsc Hc) in He.
  - unfold counted_signers. intros s (c & [Hs Hc]%map_lookup_filter_Some)%elem_of_dom. apply elem_of_dom. by apply (Hk s c).
Qed.

Lemma satisfied_quorum r block id b ck :
  attestation_evidence r block id → attestations_wf block →
  satisfied (map_to_list (attestation_counts (repo_get r id))) b ck → quorum r block b ck.
Proof.
  intros Hev Hwf (n & Hin & Hn & Hd). split; [done|].
  apply elem_of_map_to_list in Hin. unfold attestation_counts in Hin.
  rewrite lookup_fmap in Hin. apply fmap_Some in Hin as (signers & Hs & ->).
  destruct (Hev _ _ _ Hs) as (a & Ha & -> & Hat). pose proof Hat as (_ & _ & _ & keepers & Hk & Hv).
  destruct (verified_signers_are_keepers _ _ (Hwf a Ha) Hv).
  exists a, keepers. by rewrite <- listed_signers_split.
Qed.

(** C1 (process_block_attestations): when a candidate passes this stage, the set of blocks it
    declares finalized is recorded, and each of them is one of the ancestors (or the block
    itself) with a checkpoint in [c0]: it has either met its primary checkpoint or all its
    fallback checkpoints, each time within the deadline and by an attestation in the candidate
    whose aggregated signature verifies against the keepers of that block, whose signers with
    a nonzero count exist and are all keepers of it, and which lists at least the required
    number of signers; and the store holds the matching finalization proof and flag.  As in
    the code, a signer listed with the count zero is among the listed ones although nothing is
    signed by it; the bound is on both kinds together.  Assumed: the counts are [u16]s and the
    record of the block's attestations is one the signature check leaves. *)
Theorem finalizes_by_quorum r block id parent_id c0 r' effects :
  repo_ok r → attestation_evidence r block id → attestations_wf block →
  is_set (repo_get r id) has_block_attestations_processed true = false →
  inherit_ancestor_blocks_finalization_distances (repo_get r parent_id) (repo_get r id) = Ok c0 →
  process_block_attestations set_iter r (data block) id parent_id = Ok (r', effects, true) →
  ∃ blocks, get (repo_get r' id) finalizes_blocks = Some blocks ∧
  ∀ b, b ∈ blocks →
    (primary_passed r' b ∧ ∃ ck, primary c0 !! b = Some ck ∧ quorum r block b ck) ∨
    (fallback_passed r' b ∧ ∃ cks, fallback c0 !! b = Some cks ∧ ∀ ck, ck ∈ cks → quorum r block b ck).
Proof.
  intros Hok Hev Hwf Hp Hc0. unfold process_block_attestations. rewrite Hp, Hc0. cbv zeta.
  set (res := update _ _). destruct (negb _).
  { intros (r1 & _ & [=])%outcome_bind_Ok. }
  intros ([[r1 e1] m1] & H1' & Hr)%outcome_bind_Ok.
  pose proof (fold_evolves2 _ _ _ _ _ _ _ _ (on_passed_primary_evolves (data block)) H1') as Ev1.
  apply outcome_bind_Ok in Hr as ([r2 e2] & Ev2%fold_evolves & Hr); [|apply on_passed_preattestation_evolves].
  apply outcome_bind_Ok in Hr as ([r3 e3] & Ev3%fold_evolves & Hr); [|apply on_transitioned_evolves].
  apply outcome_bind_Ok in Hr as ([[r4 e4] m4] & H4' & Hr).
  pose proof (fold_evolves2 _ _ _ _ _ _ _ _ (on_passed_fallback_evolves (data block)) H4') as Ev4.
  apply outcome_bind_Ok in Hr as (r5 & H5' & Hr).
  pose proof (set_finalizes_evolves _ _ _ _ _ H5') as Ev5.
  apply outcome_bind_Ok in Hr as (r6 & Ev6%set_if_none_evolves & Hr); [|settable].
  apply outcome_bind_Ok in Hr as (r8 & Ev8%repo_set_evolves & [= <- _]); [|settable].
  assert (Ev58 : evolves r5 r8).
  { etransitivity; [exact Ev6|]. etransitivity; [apply interest_evolves|done]. }
  assert (Hok_of : ∀ r0, evolves r r0 → repo_ok r0)
    by (intros r0 Hev0; by destruct (evolves_keep _ _ Hev0 Hok)).
  assert (evolves r r3) by (do 2 (etransitivity; [eassumption|]); done).
  assert (evolves r r5) by (etransitivity; [eassumption|]; by etransitivity).
  exists (list_to_set (result_passed_fallback res) ∪ list_to_set (result_passed_primary res)). split.
  { destruct (evolves_keep _ _ Ev58) as (_ & Hk & _); [auto|]. apply Hk; [unfold rewritable; naive_solver|].
    by eapply set_finalizes_get. }
  destruct (foldl_note_resolution c0 (map_to_list (attestation_counts (repo_get r id))))
    as [_ _ _ _ _ Hpp Hpf].
  intros b. rewrite elem_of_union, !elem_of_list_to_set. intros [Hb|Hb].
  - right. split.
    + apply (fallback_passed_keep r4); [apply Hok_of; etransitivity; [|exact Ev4]; done|
        etransitivity; [exact Ev5|exact Ev58]|].
      refine (fold_visits _ fallback_passed _ _ _ _ _ _ _ (on_passed_fallback_evolves (data block))
        (on_passed_fallback_flags (data block)) fallback_passed_keep _ H4' b Hb). by apply Hok_of.
    + destruct (Hpf b Hb) as (cks & ? & Hall). exists cks. split; [done|].
      intros ck Hck. eapply satisfied_quorum; [done|done|by apply Hall].
  - left. split.
    + apply (primary_passed_keep r1); [by apply Hok_of| |].
      { etransitivity; [exact Ev2|]. etransitivity; [exact Ev3|]. etransitivity; [exact Ev4|].
        etransitivity; [exact Ev5|exact Ev58]. }
      exact (fold_visits _ primary_passed _ _ _ _ _ _ _ (on_passed_primary_evolves (data block))
        (on_passed_primary_flags (data block)) primary_passed_keep Hok H1' b Hb).
    + destruct (Hpp b Hb) as (ck & ? & ?). exists ck. split; [done|]. by eapply satisfied_quorum.
Qed.
End quorum.

(** ** The producer's check and the node's check *)
Section agreement.
Implicit Types (b : BlockIdentifier) (s : CheckpointsConstructor).
Implicit Types (c : AncestorBlocksFinalizationCheckpoints).

(** Two constructors that have the same checkpoints for a block. *)
Definition agree_at b s1 s2 : Prop :=
  primary (inherited_checkpoints s1) !! b = primary (inherited_checkpoints s2) !! b ∧
  fallback (inherited_checkpoints s1) !! b = fallback (inherited_checkpoints s2) !! b.

Lemma note_entry_agree b s1 s2 e :
  agree_at b s1 s2 → agree_at b (note_entry s1 e) (note_entry s2 e).
Proof.
  destruct e as [[b' t] n]. intros [Hp Hf]. unfold note_entry. simpl. rewrite !note_as_cell.
  destruct (decide (b' = b)) as [->|Hne].
  - unfold cell_of. rewrite Hp, Hf. destruct (note_cell _ _ _ _) as [[mp mf] [[pp pf] pre]].
    split; simpl; by rewrite !set_at_lookup.
  - unfold cell_of. destruct (note_cell _ _ _ _) as [[mp mf] [[pp pf] pre]].
    destruct (note_cell (primary (inherited_checkpoints s2) !! b') _ _ _) as [[mp' mf'] [[pp' pf'] pre']].
    split; simpl; by rewrite !set_at_lookup_ne.
Qed.

Lemma foldl_note_agree b s1 s2 entries :
  agree_at b s1 s2 → agree_at b (foldl note_entry s1 entries) (foldl note_entry s2 entries).
Proof.
  revert s1 s2. induction entries as [|e entries IH]; intros s1 s2 Ha; [done|].
  apply IH. by apply note_entry_agree.
Qed.

(** A block without counts keeps its checkpoints. *)
Lemma foldl_note_untouched b s entries :
  (∀ t n, (b, t, n) ∉ entries) → agree_at b s (foldl note_entry s entries).
Proof.
  revert s. induction entries as [|[[b' t] n] entries IH]; intros s Hni; [done|]. simpl.
  assert (agree_at b s (note_entry s (b', t, n))) as [Hp Hf].
  { unfold note_entry. simpl. rewrite note_as_cell. unfold cell_of.
    destruct (note_cell _ _ _ _) as [[mp mf] [[pp pf] pre]]. assert (b' ≠ b) by set_solver.
    split; simpl; by rewrite !set_at_lookup_ne. }
  destruct (IH (note_entry s (b', t, n))) as [Hp' Hf']; [set_solver|].
  split; [by rewrite Hp|by rewrite Hf].
Qed.

(** Whether a block fails depends on its checkpoints only. *)
Definition fails (mp : option AttestationTargetCheckpoint)
    (mf : option (list AttestationTargetCheckpoint)) : Prop :=
  (mf = None ∧ ∃ ck, mp = Some ck ∧ reached_deadline ck) ∨
  (∃ l, mf = Some l ∧ existsb reached_deadline l).

Lemma failed_iff s b :
  b ∈ failed (complete s) ↔
  fails (primary (inherited_checkpoints s) !! b) (fallback (inherited_checkpoints s) !! b).
Proof.
  unfold complete, fails. cbn [failed].
  rewrite elem_of_union, elem_of_difference, !elem_of_dom_filter, not_elem_of_dom. naive_solver.
Qed.

Lemma failed_agree s1 s2 entries :
  (∀ b, agree_at b s1 s2 ∨
        (b ∉ failed (update_from s1 entries) ∧ b ∉ failed (update_from s2 entries))) →
  failed (update_from s1 entries) = failed (update_from s2 entries).
Proof.
  intros Hall. apply set_eq. intros b. destruct (Hall b) as [Ha|[? ?]]; [|tauto].
  unfold update_from. rewrite !failed_iff.
  destruct (foldl_note_agree b s1 s2 entries Ha) as [-> ->]. done.
Qed.

Lemma untouched_not_failed b s entries :
  (∀ t n, (b, t, n) ∉ entries) →
  ¬ fails (primary (inherited_checkpoints s) !! b) (fallback (inherited_checkpoints s) !! b) →
  b ∉ failed (update_from s entries).
Proof.
  intros Hni Hf. unfold update_from. rewrite failed_iff.
  destruct (foldl_note_untouched b s entries Hni) as [<- <-]. done.
Qed.
End agreement.

Section producer_check.
Context `{Blst} {NackData : Type} `{EqDecision NackData}.
Notation Repo := (Repository NackData).
Implicit Types (r : Repo) (s : AckiNackiBlockState NackData) (b id parent_id : BlockIdentifier).

(** A fresh block: not yet tracked by its parent, without attestations for itself, and with
    deadlines ahead. *)
Record fresh_block r id (prototype : AncestorBlocksFinalizationCheckpoints)
    (target : AttestationTargets) : Prop := {
  fresh_id : block_identifier (repo_get r id) = id;
  fresh_primary : primary prototype !! id = None;
  fresh_fallback : fallback prototype !! id = None;
  fresh_unattested t : verified_attestations (repo_get r id) !! (id, t) = None;
  fresh_deadlines : 0 < generation_deadline (primary_target target) ∧
                    0 < generation_deadline (fallback_target target);
}.

Lemma counts_unattested r id t n :
  (∀ t, verified_attestations (repo_get r id) !! (id, t) = None) →
  (id, t, n) ∉ map_to_list (attestation_counts (repo_get r id)).
Proof.
  intros Hu Hin%elem_of_map_to_list. unfold attestation_counts in Hin.
  rewrite lookup_fmap, Hu in Hin. done.
Qed.

(** C38 (the producer's check): before it makes a block, a producer asks whether the
    attestations it is going to include are enough; the nodes that receive the block
    recompute the checkpoints with the block's own ones added.  For a fresh block both
    computations agree: the producer is told "yes" exactly when no checkpoint fails for the
    others, whether or not the block starts a new thread. *)
Theorem producer_check_agrees r id parent_id t prototype target c0 ok :
  get (repo_get r id) thread_identifier = Some t →
  get (repo_get r id) attestation_target = Some target →
  get (repo_get r parent_id) ancestor_blocks_finalization_checkpoints = Some prototype →
  fresh_block r id prototype target →
  inherit_ancestor_blocks_finalization_distances (repo_get r parent_id) (repo_get r id) = Ok c0 →
  evaluate_if_next_block_ancestors_required_attestations_will_be_met r t parent_id
    (verified_attestations (repo_get r id)) = Ok ok →
  ok = bool_decide (failed (update (into_builder c0) (attestation_counts (repo_get r id))) = ∅).
Proof.
  intros Ht Htarget Hproto [Hid Hfp Hff Hfu [Hd1 Hd2]].
  unfold inherit_ancestor_blocks_finalization_distances,
    evaluate_if_next_block_ancestors_required_attestations_will_be_met.
  destruct (get (repo_get r parent_id) thread_identifier) as [pt|]; [|done].
  rewrite Hproto, Ht, Htarget, Hid. cbn [ok_or mbind outcome_bind]. intros [= <-].
  fold (attestation_counts (repo_get r id)).
  set (counts := attestation_counts (repo_get r id)).
  assert (Hni : ∀ ty n, (id, ty, n) ∉ map_to_list counts) by (intros; by apply counts_unattested).
  assert (Hown : ∀ c same, id ∉ failed (update_from
    (into_builder (inherit_and_insert same c id target)) (map_to_list counts))).
  { intros c same. apply untouched_not_failed; [done|]. unfold inherit_and_insert. simpl.
    rewrite !lookup_insert_eq. unfold fails, reached_deadline. intros [[? _]|(l & [= <-] & Hl)]; [done|].
    simpl in Hl. by rewrite !bool_decide_eq_false_2 in Hl by lia. }
  unfold update. case_bool_decide as Hsame.
  - intros [= <-]. rewrite (bool_decide_eq_false_2 (t = pt)) by done. symmetry. apply bool_decide_eq_true_2.
    apply elem_of_equiv_empty_L. intros b. destruct (decide (b = id)) as [->|Hb]; [apply Hown|].
    unfold update_from. rewrite failed_iff.
    destruct (foldl_note_agree b (into_builder (inherit_and_insert false prototype id target))
      (into_builder (mkCheckpoints ∅ ∅)) (map_to_list counts)) as [-> ->].
    { split; simpl; by rewrite lookup_insert_ne. }
    destruct (foldl_note_resolution (mkCheckpoints ∅ ∅) (map_to_list counts)) as [Htr _ _ _ _ _ _].
    intros Hf. destruct (Htr b) as [_ [[ck Hck]|[l Hl]]]; 
      [|by simpl in Hck; rewrite lookup_empty in Hck|by simpl in Hl; rewrite lookup_empty in Hl].
    left. destruct Hf as [(_ & ck & Hck & _)|(l & Hl & _)]; [left|right]; eauto.
  - intros Hok%Ok_inj. subst ok. rewrite (bool_decide_eq_true_2 (t = pt)) by done.
    apply bool_decide_ext. match goal with |- failed ?x = _ ↔ failed ?y = _ =>
      assert (failed x = failed y) as ->; [|done] end. apply failed_agree.
    intros b. destruct (decide (b = id)) as [->|Hb].
    + right. split; [|apply Hown]. apply untouched_not_failed; [done|].
      simpl. rewrite !lookup_fmap, Hfp, Hff. unfold fails. naive_solver.
    + left. split; simpl; by rewrite lookup_insert_ne.
Qed.
End producer_check.

(** ** The attestation target of a block *)
Section target.
Context `{Blst} {NackData : Type} `{EqDecision NackData}.
Notation Repo := (Repository NackData).
Implicit Types (r : Repo) (id parent_id : BlockIdentifier).

(** The attestation target: the target a block gets has a primary deadline of at least
    one generation, which shrinks by one from the parent's while the observed median is
    below it and otherwise follows the median up to 30; the fallback deadline is later.  Of
    [n >= 1] keepers the primary target needs at least two thirds and the fallback target
    more than half, neither asks for more keepers than there are, and any two fallback
    quorums share a keeper. *)
Theorem attestation_target_bounds r id parent_id keepers stats parent_target r' :
  get (repo_get r id) attestation_target = None →
  get (repo_get r parent_id) attestation_target = Some parent_target →
  1 ≤ median_descendants_chain_length_to_meet_threshold stats →
  1 ≤ BlockKeeperSet_len keepers →
  set_attestation_target r id parent_id keepers stats = Ok r' →
  ∃ target, get (repo_get r' id) attestation_target = Some target ∧
  let n := BlockKeeperSet_len keepers in
  let median := median_descendants_chain_length_to_meet_threshold stats in
  let parent_deadline := generation_deadline (primary_target parent_target) in
  let g := generation_deadline (primary_target target) in
  let p := target_required_count (primary_target target) in
  let f := target_required_count (fallback_target target) in
  1 ≤ g ≤ Nat.max MAX_ATTESTATION_TARGET_BETA (parent_deadline - 1) ∧
  (median < parent_deadline → g = parent_deadline - 1) ∧
  (parent_deadline ≤ median → g = Nat.min median MAX_ATTESTATION_TARGET_BETA) ∧
  g < generation_deadline (fallback_target target) ∧
  1 ≤ f ≤ p ∧ p ≤ n ∧ 2 * n ≤ 3 * p ∧ n < 2 * f.
Proof.
  intros Hn Hp Hm Hk. unfold set_attestation_target. rewrite Hn, Hp. simpl.
  intros Hr%repo_set_get. eexists. split; [exact Hr|]. simpl.
  set (n := BlockKeeperSet_len keepers) in *.
  set (m := median_descendants_chain_length_to_meet_threshold stats) in *.
  unfold descendant_generations, primary_attestation_target, fallback_attestation_target,
    MAX_ATTESTATION_TARGET_BETA.
  pose proof (Nat.div_mod_eq (2 * n + 2) 3). pose proof (Nat.mod_upper_bound (2 * n + 2) 3).
  pose proof (Nat.div_mod_eq n 2). pose proof (Nat.mod_upper_bound n 2).
  repeat case_bool_decide; lia.
Qed.
End target.

(** ** Evaluation *)
Section quorum_witnesses.
#[local] Existing Instance LinearBlst.
#[local] Existing Instance serialize_attestation.
#[local] Existing Instance serialize_candidate.

(** The candidate of BlockProcessor.v with its keepers known. *)
Definition ready_repo : Repository unit :=
  <[example_block 2 := with_fact candidate_state bk_set example_keepers]> pipeline_repo.

Definition verdict (o : outcome ProcessError (Repository unit * option bool)) : bool :=
  match o with
  | Ok (r, Some true) => bool_decide (size (verified_attestations (repo_get r (example_block 2))) = 1)
  | _ => false
  end.

Lemma verified_attestations_signed_witness :
  ∃ r', verify_all_block_signatures ready_repo candidate_block (example_block 2) ∅ = Ok (r', Some true) ∧
    size (verified_attestations (repo_get r' (example_block 2))) = 1 ∧
    attestation_evidence r' candidate_block (example_block 2) ∧
    producer_evidence r' candidate_block (example_block 2).
Proof.
  assert (Hv : verdict (verify_all_block_signatures ready_repo candidate_block (example_block 2) ∅) = true)
    by (vm_compute; reflexivity).
  destruct (verify_all_block_signatures ready_repo candidate_block (example_block 2) ∅)
    as [[r' [[]|]]| |] eqn:Hver; [|discriminate Hv..].
  exists r'. split; [reflexivity|]. split; [by apply bool_decide_eq_true in Hv|].
  destruct (verified_attestations_signed ready_repo candidate_block (example_block 2) ∅ r' (Some true))
    as (? & ? & _); [| |exact Hver|by split].
  - intros b t signers Hs. vm_compute in Hs. discriminate Hs.
  - intros Hs. vm_compute in Hs. discriminate Hs.
Defined.

(** The candidate credited with the attestation for its parent. *)
Definition credited_state : AckiNackiBlockState (H := LinearBlst) unit :=
  add_verified_attestations_for
    (with_fact (with_fact candidate_state bk_set example_keepers) attestation_target example_targets)
    (example_block 1) Primary {[1%Z; 2%Z]}.
Definition credited_repo : Repository unit := <[example_block 2 := credited_state]> pipeline_repo.

Lemma credited_ok : repo_ok credited_repo.
Proof.
  intros b. unfold credited_repo. rewrite repo_get_insert. case_decide; [|apply pipeline_repo_ok].
  assert (facts_ok (with_fact (with_fact candidate_state bk_set example_keepers)
    attestation_target example_targets)) as Hok.
  { do 2 (apply with_fact_ok; [|by left|done]).
    pose proof (pipeline_repo_ok (example_block 2)) as Hp.
    rewrite pipeline_repo_get, decide_False, decide_True in Hp by done. exact Hp. }
  exact (proj1 (step_monotone _ _ Hok (step_verified _ (example_block 1) Primary {[1%Z; 2%Z]}))).
Qed.

Lemma credited_evidence : attestation_evidence credited_repo candidate_block (example_block 2).
Proof.
  intros b t signers. unfold credited_repo at 1. rewrite repo_get_insert, decide_True by done.
  change (verified_attestations credited_state) with
    (<[(example_block 1, Primary) := ({[1%Z; 2%Z]} : gset Z)]>
       (∅ : gmap (BlockIdentifier * AttestationTargetType) (gset Z))).
  intros [[[= <- <-] <-]|[_ Hl]]%lookup_insert_Some; [|by rewrite lookup_empty in Hl].
  exists parent_attestation. split; [left|]. split; [by vm_compute|].
  split_and!; [done..|]. exists example_keepers. split; [done|by vm_compute].
Qed.

Lemma credited_wf : attestations_wf candidate_block.
Proof.
  intros a Ha. change (cb_block_attestations (data candidate_block)) with [parent_attestation] in Ha.
  apply list_elem_of_singleton in Ha as ->. apply (bool_decide_unpack _). vm_compute. exact I.
Qed.

Definition finalizes_parent
    (o : outcome ProcessError (Repository unit * list Effect * bool)) : bool :=
  match o with
  | Ok (r, _, true) => is_set (repo_get r (example_block 2)) finalizes_blocks {[example_block 1]}
  | _ => false
  end.

Lemma finalizes_by_quorum_witness :
  ∃ r' effects, process_block_attestations elements credited_repo (data candidate_block)
      (example_block 2) (example_block 1) = Ok (r', effects, true) ∧
    get (repo_get r' (example_block 2)) finalizes_blocks = Some {[example_block 1]} ∧
    (primary_passed r' (example_block 1) ∨ fallback_passed r' (example_block 1)).
Proof.
  assert (Hv : finalizes_parent (process_block_attestations elements credited_repo
    (data candidate_block) (example_block 2) (example_block 1)) = true) by (vm_compute; reflexivity).
  destruct (process_block_attestations elements credited_repo (data candidate_block)
    (example_block 2) (example_block 1)) as [[[r' effects] []]| |] eqn:Hrun; [|discriminate Hv..].
  exists r', effects. split; [reflexivity|]. apply bool_decide_eq_true in Hv. split; [exact Hv|].
  destruct (finalizes_by_quorum elements credited_repo candidate_block (example_block 2)
    (example_block 1) (inherit_and_insert true example_checkpoints (example_block 2) example_targets)
    r' effects) as (blocks & Hb & Hall);
    [exact credited_ok|exact credited_evidence|exact credited_wf|vm_compute; reflexivity|
     vm_compute; reflexivity|exact Hrun|].
  rewrite Hv in Hb. injection Hb as <-.
  destruct (Hall (example_block 1)) as [[? _]|[? _]];
    [by apply elem_of_singleton|by left|by right].
Defined.

Lemma producer_check_agrees_witness :
  evaluate_if_next_block_ancestors_required_attestations_will_be_met credited_repo example_thread
    (example_block 1) (verified_attestations (repo_get credited_repo (example_block 2))) = Ok true ∧
  true = bool_decide (failed (update (into_builder
    (inherit_and_insert true example_checkpoints (example_block 2) example_targets))
    (attestation_counts (repo_get credited_repo (example_block 2)))) = ∅).
Proof.
  assert (He : evaluate_if_next_block_ancestors_required_attestations_will_be_met credited_repo
    example_thread (example_block 1)
    (verified_attestations (repo_get credited_repo (example_block 2))) = Ok true)
    by (vm_compute; reflexivity).
  split; [exact He|].
  refine (producer_check_agrees credited_repo (example_block 2) (example_block 1) example_thread
    example_checkpoints example_targets _ true _ _ _ _ _ He); [reflexivity..| |vm_compute; reflexivity].
  constructor.
  - reflexivity.
  - vm_compute; reflexivity.
  - vm_compute; reflexivity.
  - intros []; vm_compute; reflexivity.
  - split; vm_compute; repeat constructor.
Defined.

Lemma attestation_target_bounds_witness :
  ∃ r' target, set_attestation_target pipeline_repo (example_block 2) (example_block 1)
      example_keepers (BlockStatistics_zero 3 5) = Ok r' ∧
    get (repo_get r' (example_block 2)) attestation_target = Some target ∧
    BlockKeeperSet_len example_keepers < 2 * target_required_count (fallback_target target).
Proof.
  destruct (is_ok_inv (set_attestation_target pipeline_repo (example_block 2) (example_block 1)
    example_keepers (BlockStatistics_zero 3 5))) as [r' Hr]; [vm_compute; reflexivity|].
  destruct (attestation_target_bounds pipeline_repo (example_block 2) (example_block 1)
    example_keepers (BlockStatistics_zero 3 5) example_targets r')
    as (target & Ht & _ & _ & _ & _ & _ & _ & _ & Hf);
    [vm_compute; reflexivity|vm_compute; reflexivity|vm_compute; lia|vm_compute; lia|exact Hr|].
  exists r', target. split; [exact Hr|]. split; [exact Ht|exact Hf].
Defined.
End quorum_witnesses.
