(* ===== verification/Unfinalized.v ===== *)
(** * Unfinalized: the collection of candidate blocks.

    [node/unprocessed_blocks_collection.rs] and [types/block_index.rs].  The candidates of a
    thread are kept in a [BTreeMap] ordered by sequence number and identifier, next to the
    set of their identifiers and an index from identifier to sequence number.  The tree is a
    finite map here, visited through [in_order], its keys sorted by [BlockIndex::cmp].  A
    [BlockState] is the identifier of its block in the shared store. *)
From stdpp Require Import base numbers gmap strings fin_maps sorting list.
From S2P Require Import Prelude Identifiers Bls BlockKeepers Envelope Attestation Checkpoints BlockState BlockProcessor.

Record BlockIndex := mkBlockIndex {
  index_seq_no : BlockSeqNo;
  index_identifier : BlockIdentifier;
}.
#[global] Instance BlockIndex_eq_dec : EqDecision BlockIndex.
Proof. solve_decision. Defined.
#[global] Instance BlockIndex_countable : Countable BlockIndex.
Proof.
  by refine (inj_countable' (λ i, (index_seq_no i, index_identifier i))
    (λ p, mkBlockIndex p.1 p.2) _); intros [].
Defined.

Definition BlockIndex_cmp (a b : BlockIndex) : comparison :=
  match (index_seq_no a ?= index_seq_no b)%Z with
  | Eq => BlockIdentifier_compare (index_identifier a) (index_identifier b)
  | ordering => ordering
  end.

Definition index_le (a b : BlockIndex) : Prop := BlockIndex_cmp a b ≠ Gt.
#[global] Instance index_le_dec : RelDecision index_le.
Proof. unfold index_le. intros a b. apply _. Defined.

Section collection.
Context `{Blst}.
Notation Entry := (BlockIdentifier * Envelope CandidateBlock)%type.

(** [UnfinalizedBlocksData] with the snapshot it contains, and the counter of the
    notifications. *)
Record UnfinalizedBlocks := mkUnfinalized {
  blocks : gmap BlockIndex Entry;
  block_id_set : gset BlockIdentifier;
  identifier_to_seqno : gmap BlockIdentifier BlockSeqNo;
  notifications : Z;
}.

Definition BlockIndex_from (block : Envelope CandidateBlock) : BlockIndex :=
  mkBlockIndex (cb_seq_no (data block)) (cb_identifier (data block)).

Definition UnfinalizedBlocksData_insert (d : UnfinalizedBlocks) (index : BlockIndex)
    (value : Entry) : UnfinalizedBlocks :=
  let block_id := index_identifier index in
  mkUnfinalized (<[index := value]> (blocks d)) ({[block_id]} ∪ block_id_set d)
    (<[block_id := index_seq_no index]> (identifier_to_seqno d)) (notifications d).

(** The iteration order of the tree. *)
Definition in_order (m : gmap BlockIndex Entry) : list (BlockIndex * Entry) :=
  merge_sort (λ a b, index_le a.1 b.1) (map_to_list m).

Definition UnfinalizedBlocksData_remove (d : UnfinalizedBlocks) (index : BlockIndex) :
    UnfinalizedBlocks :=
  let block_id := index_identifier index in
  mkUnfinalized (delete index (blocks d)) (block_id_set d ∖ {[block_id]})
    (delete block_id (identifier_to_seqno d)) (notifications d).

Definition UnfinalizedBlocksData_retain (f : BlockIndex → Entry → bool) (d : UnfinalizedBlocks) :
    UnfinalizedBlocks :=
  let to_remove := filter (λ e, f e.1 e.2 = false) (in_order (blocks d)) in
  foldl (λ d e, UnfinalizedBlocksData_remove d e.1) d to_remove.

Definition Notification_touch (n : Z) : Z := ((n + 1) mod 2 ^ 32)%Z.

Definition touch (d : UnfinalizedBlocks) : UnfinalizedBlocks :=
  mkUnfinalized (blocks d) (block_id_set d) (identifier_to_seqno d)
    (Notification_touch (notifications d)).

Definition UnfinalizedBlocks_default : UnfinalizedBlocks := mkUnfinalized ∅ ∅ ∅ 0.

Definition Unfinalized_new (states : list Entry) : UnfinalizedBlocks :=
  foldl (λ d e, UnfinalizedBlocksData_insert d (BlockIndex_from e.2) e) UnfinalizedBlocks_default
    states.

Definition get_block_by_id (d : UnfinalizedBlocks) (identifier : BlockIdentifier) :
    option (Envelope CandidateBlock) :=
  seq_no ← identifier_to_seqno d !! identifier;
  snd <$> blocks d !! mkBlockIndex seq_no identifier.

(** The blocks of [clone_queue], in order. *)
Definition clone_queue (d : UnfinalizedBlocks) : list Entry := snd <$> in_order (blocks d).

Definition Unfinalized_insert (d : UnfinalizedBlocks) (block_state : BlockIdentifier)
    (block : Envelope CandidateBlock) : UnfinalizedBlocks :=
  touch (UnfinalizedBlocksData_insert d (BlockIndex_from block) (block_state, block)).

Definition Unfinalized_retain (action : BlockIdentifier → bool) (d : UnfinalizedBlocks) :
    UnfinalizedBlocks :=
  let d' := UnfinalizedBlocksData_retain (λ _ e, action e.1) d in
  if existsb (λ e, negb (action e.2.1)) (in_order (blocks d)) then touch d' else d'.

Definition remove_finalized_and_invalidated_blocks {NackData} `{EqDecision NackData}
    (r : Repository NackData) (d : UnfinalizedBlocks) : UnfinalizedBlocks :=
  Unfinalized_retain
    (λ s, negb (is_finalized (repo_get r s)) && negb (is_invalidated (repo_get r s))) d.

Definition remove_old_blocks {NackData} `{EqDecision NackData} (r : Repository NackData)
    (last_finalized_block_seq_no : BlockSeqNo) (d : UnfinalizedBlocks) : UnfinalizedBlocks :=
  Unfinalized_retain
    (λ s, match get (repo_get r s) block_seq_no with
          | Some seq_no => bool_decide (last_finalized_block_seq_no < seq_no)%Z
          | None => true
          end) d.
End collection.

(** ** The order of the queue *)
Section order.
Lemma BlockIndex_cmp_antisym a b : BlockIndex_cmp b a = CompOpp (BlockIndex_cmp a b).
Proof.
  unfold BlockIndex_cmp. rewrite (Z.compare_antisym (index_seq_no a) (index_seq_no b)).
  destruct (index_seq_no a ?= index_seq_no b)%Z; simpl; [|done..].
  apply compare_loop_antisym.
Qed.

Lemma compare_loop_ge_trans a b c ks :
  BlockIdentifier_compare_loop a b ks ≠ Gt → BlockIdentifier_compare_loop b c ks ≠ Gt →
  BlockIdentifier_compare_loop a c ks ≠ Gt.
Proof.
  induction ks as [|i ks IH]; simpl; [done|].
  destruct (Z.compare_spec (nth i a 0%Z) (nth i b 0%Z)),
           (Z.compare_spec (nth i b 0%Z) (nth i c 0%Z)),
           (Z.compare_spec (nth i a 0%Z) (nth i c 0%Z)); intros; first [done|lia|auto].
Qed.

#[global] Instance index_le_total : Total index_le.
Proof.
  intros a b. unfold index_le. rewrite (BlockIndex_cmp_antisym a b).
  destruct (BlockIndex_cmp a b); [by left|by left|by right].
Qed.

#[global] Instance index_le_trans : Transitive index_le.
Proof.
  intros a b c. unfold index_le, BlockIndex_cmp.
  destruct (Z.compare_spec (index_seq_no a) (index_seq_no b)),
           (Z.compare_spec (index_seq_no b) (index_seq_no c)),
           (Z.compare_spec (index_seq_no a) (index_seq_no c)); intros Hab Hbc;
    first [discriminate|lia|congruence|exact (compare_loop_ge_trans _ _ _ _ Hab Hbc)].
Qed.

Lemma index_le_seq_no a b : index_le a b → (index_seq_no a ≤ index_seq_no b)%Z.
Proof.
  unfold index_le, BlockIndex_cmp. destruct (Z.compare_spec (index_seq_no a) (index_seq_no b));
    intros Hle; [lia|lia|congruence].
Qed.
End order.

(** ** Refinement of a map from identifiers to candidates *)
Section refinement.
Context `{Blst}.
Notation Entry := (BlockIdentifier * Envelope CandidateBlock)%type.
Implicit Types (d : UnfinalizedBlocks) (m : gmap BlockIdentifier Entry) (v : Entry).
Implicit Types (i : BlockIndex) (b : BlockIdentifier) (l : list (BlockIndex * Entry)).

(** The three parts of the collection describe the map [m]. *)
Record represents d m : Prop := {
  rep_block i v : blocks d !! i = Some v → BlockIndex_from v.2 = i ∧ m !! index_identifier i = Some v;
  rep_entry b v : m !! b = Some v →
    cb_identifier (data v.2) = b ∧ blocks d !! BlockIndex_from v.2 = Some v;
  rep_seq_no b : identifier_to_seqno d !! b = (λ v, cb_seq_no (data v.2)) <$> m !! b;
  rep_set : block_id_set d = dom m;
}.

Lemma represents_empty : represents UnfinalizedBlocks_default ∅.
Proof.
  split; simpl.
  - intros i v. by rewrite lookup_empty.
  - intros b v. by rewrite lookup_empty.
  - intros b. by rewrite !lookup_empty.
  - by rewrite dom_empty_L.
Qed.

Lemma represents_touch d m : represents d m → represents (touch d) m.
Proof. by intros []. Qed.

(** A block with a known identifier is inserted again only with its sequence number. *)
Definition compatible m (block : Envelope CandidateBlock) : Prop :=
  ∀ v, m !! cb_identifier (data block) = Some v → cb_seq_no (data v.2) = cb_seq_no (data block).

Lemma represents_insert d m s block :
  represents d m → compatible m block →
  represents (UnfinalizedBlocksData_insert d (BlockIndex_from block) (s, block))
    (<[cb_identifier (data block) := (s, block)]> m).
Proof.
  intros [Hb He Hs Hset] Hc. split; simpl.
  - intros i v [[<- <-]|[Hne Hi]]%lookup_insert_Some; [by rewrite lookup_insert_eq|].
    destruct (Hb _ _ Hi) as [Hv Hm]. split; [done|]. rewrite lookup_insert_ne; [done|].
    intros Hid. apply Hne. rewrite <- Hid in Hm. pose proof (Hc _ Hm) as Hseq.
    destruct (He _ _ Hm) as [Hid' _]. rewrite <- Hv. unfold BlockIndex_from. by rewrite Hid', Hseq.
  - intros b v [[<- <-]|[Hne Hm]]%lookup_insert_Some; [by rewrite lookup_insert_eq|].
    destruct (He _ _ Hm) as [Hid Hi]. split; [done|]. rewrite lookup_insert_ne; [done|].
    intros [= Hq]. congruence.
  - intros b. destruct (decide (cb_identifier (data block) = b)) as [<-|Hne];
      [by rewrite !lookup_insert_eq|by rewrite !lookup_insert_ne].
  - by rewrite dom_insert_L, Hset.
Qed.

Lemma represents_remove d m i v :
  represents d m → blocks d !! i = Some v →
  represents (UnfinalizedBlocksData_remove d i) (delete (index_identifier i) m).
Proof.
  intros [Hb He Hs Hset] Hi. destruct (Hb _ _ Hi) as [<- Hm]. split; simpl in *.
  - intros j w [Hne Hj]%lookup_delete_Some. destruct (Hb _ _ Hj) as [Hw Hm'].
    split; [done|]. rewrite lookup_delete_ne; [done|]. intros Hid. apply Hne. rewrite <- Hw.
    rewrite <- Hid, Hm in Hm'. by simplify_eq.
  - intros b w [Hne Hw]%lookup_delete_Some. destruct (He _ _ Hw) as [Hid Hj].
    split; [done|]. rewrite lookup_delete_ne; [done|]. intros [= _ Hq]. congruence.
  - intros b. destruct (decide (cb_identifier (data v.2) = b)) as [<-|Hne];
      [by rewrite !lookup_delete_eq|by rewrite !lookup_delete_ne].
  - by rewrite dom_delete_L, Hset.
Qed.

Lemma represents_remove_all d m l :
  represents d m → NoDup l.*1 → (∀ i v, (i, v) ∈ l → blocks d !! i = Some v) →
  represents (foldl (λ d e, UnfinalizedBlocksData_remove d e.1) d l)
    (filter (λ kv, kv.1 ∉ index_identifier <$> l.*1) m).
Proof.
  revert d m. induction l as [|[i v] l IH]; intros d m Hr Hnd Hin; simpl.
  { rewrite map_filter_id; [done|]. intros b w _. simpl. apply not_elem_of_nil. }
  rewrite fmap_cons in Hnd. apply NoDup_cons in Hnd as [Hni Hnd]. simpl in Hni.
  pose proof (represents_remove _ _ _ _ Hr (Hin i v ltac:(left))) as Hr'.
  specialize (IH _ _ Hr' Hnd). replace (filter _ m) with
    (filter (λ kv : BlockIdentifier * Entry, kv.1 ∉ index_identifier <$> l.*1)
       (delete (index_identifier i) m)); [apply IH|].
  - intros j w Hj. simpl. rewrite lookup_delete_ne; [apply Hin; by right|].
    intros ->. apply Hni, list_elem_of_fmap. by exists (j, w).
  - apply map_eq. intros b. apply option_eq. intros w.
    rewrite !map_lookup_filter_Some, lookup_delete_Some. simpl. rewrite not_elem_of_cons. naive_solver.
Qed.

Lemma in_order_perm (bs : gmap BlockIndex Entry) : in_order bs ≡ₚ map_to_list bs.
Proof. apply merge_sort_Permutation. Qed.

Lemma represents_retain d m (action : BlockIdentifier → bool) :
  represents d m →
  represents (UnfinalizedBlocksData_retain (λ _ e, action e.1) d)
    (filter (λ kv, action kv.2.1 = true) m).
Proof.
  intros Hr. unfold UnfinalizedBlocksData_retain. set (l := filter _ _).
  assert (Hl : ∀ i v, (i, v) ∈ l ↔ action v.1 = false ∧ blocks d !! i = Some v).
  { intros i v. unfold l. rewrite list_elem_of_filter, in_order_perm, elem_of_map_to_list. done. }
  replace (filter (λ kv, action kv.2.1 = true) m) with
    (filter (λ kv : BlockIdentifier * Entry, kv.1 ∉ index_identifier <$> l.*1) m).
  { apply represents_remove_all; [done| |intros i v; rewrite Hl; tauto].
    unfold l. eapply sublist_NoDup; [|apply fmap_sublist, sublist_filter].
    rewrite in_order_perm. apply NoDup_fst_map_to_list. }
  apply map_filter_ext. intros b v Hm. simpl. destruct (rep_entry _ _ Hr _ _ Hm) as [Hid Hi].
  split.
  - intros Hni. destruct (action v.1) eqn:Ha; [done|]. exfalso. apply Hni.
    rewrite <- list_fmap_compose. apply list_elem_of_fmap.
    exists (BlockIndex_from v.2, v). split; [by rewrite <- Hid|]. by apply Hl.
  - intros Ha. rewrite <- list_fmap_compose.
    intros ([i w] & -> & [Hw Hiw]%Hl)%list_elem_of_fmap. simpl in *.
    destruct (rep_block _ _ Hr _ _ Hiw) as [_ Hm']. rewrite Hm in Hm'. simplify_eq. congruence.
Qed.

(** The operations, on the collection and on the map. *)
Inductive Operation :=
  | Insert (block_state : BlockIdentifier) (block : Envelope CandidateBlock)
  | Retain (action : BlockIdentifier → bool).

Definition run d (o : Operation) : UnfinalizedBlocks :=
  match o with
  | Insert s block => Unfinalized_insert d s block
  | Retain action => Unfinalized_retain action d
  end.

Definition run_spec m (o : Operation) : gmap BlockIdentifier Entry :=
  match o with
  | Insert s block => <[cb_identifier (data block) := (s, block)]> m
  | Retain action => filter (λ kv, action kv.2.1 = true) m
  end.

Definition allowed m (o : Operation) : Prop :=
  match o with Insert _ block => compatible m block | Retain _ => True end.

Lemma run_represents d m o : represents d m → allowed m o → represents (run d o) (run_spec m o).
Proof.
  intros Hr Ho. destruct o as [s block|action]; simpl.
  - by apply represents_touch, represents_insert.
  - unfold Unfinalized_retain. destruct (existsb _ _);
      [apply represents_touch|]; by apply represents_retain.
Qed.

Lemma represents_get d m b : represents d m → get_block_by_id d b = snd <$> m !! b.
Proof.
  intros Hr. unfold get_block_by_id. rewrite (rep_seq_no _ _ Hr).
  destruct (m !! b) as [v|] eqn:Hm; simpl; [|done].
  destruct (rep_entry _ _ Hr _ _ Hm) as [<- Hi]. unfold BlockIndex_from in Hi. by rewrite Hi.
Qed.

Lemma represents_queue d m : represents d m → clone_queue d ≡ₚ (map_to_list m).*2.
Proof.
  intros Hr. unfold clone_queue. rewrite in_order_perm.
  assert (map_to_list m ≡ₚ (λ e : BlockIndex * Entry, (index_identifier e.1, e.2)) <$>
    map_to_list (blocks d)) as ->.
  { apply NoDup_Permutation; [apply NoDup_map_to_list| |].
    - apply NoDup_fmap_2_strong; [|apply NoDup_map_to_list].
      intros [i v] [j w] Hi%elem_of_map_to_list Hj%elem_of_map_to_list [= _ ->].
      destruct (rep_block _ _ Hr _ _ Hi) as [<- _], (rep_block _ _ Hr _ _ Hj) as [<- _]. done.
    - intros [b v]. rewrite elem_of_map_to_list, list_elem_of_fmap. split.
      + intros Hm. destruct (rep_entry _ _ Hr _ _ Hm) as [Hid Hi].
        exists (BlockIndex_from v.2, v). rewrite elem_of_map_to_list. simpl. by rewrite Hid.
      + intros ([i w] & [= -> ->] & Hi%elem_of_map_to_list). by apply (rep_block _ _ Hr). }
  by rewrite <- list_fmap_compose.
Qed.

Lemma represents_sorted d m :
  represents d m → StronglySorted index_le ((λ e : Entry, BlockIndex_from e.2) <$> clone_queue d).
Proof.
  intros Hr. unfold clone_queue. rewrite <- list_fmap_compose.
  assert (((λ e : Entry, BlockIndex_from e.2) ∘ snd) <$> in_order (blocks d) = (in_order (blocks d)).*1) as ->.
  { apply list_fmap_ext. intros k [i v] Hk. simpl.
    apply list_elem_of_lookup_2 in Hk. rewrite in_order_perm, elem_of_map_to_list in Hk.
    by apply (rep_block _ _ Hr). }
  unfold in_order. set (R := λ a b : BlockIndex * Entry, index_le a.1 b.1).
  assert (StronglySorted R (merge_sort R (map_to_list (blocks d)))) as Hs.
  { apply StronglySorted_merge_sort; [intros a b c; apply index_le_trans|].
    intros a b. apply index_le_total. }
  induction Hs as [|e l _ IH Hall]; simpl; constructor; [done|]. by apply Forall_fmap.
Qed.

(** A sequence of operations whose insertions agree on the sequence numbers. *)
Fixpoint all_allowed m (ops : list Operation) : Prop :=
  match ops with
  | [] => True
  | o :: ops => allowed m o ∧ all_allowed (run_spec m o) ops
  end.

Lemma runs_represent ops d m :
  all_allowed m ops → represents d m → represents (foldl run d ops) (foldl run_spec m ops).
Proof.
  revert d m. induction ops as [|o ops IH]; intros d m Hops Hr; simpl; [done|].
  destruct Hops as [Ho Hops]. apply IH; [done|]. by apply run_represents.
Qed.

(** The candidate collection: after any sequence of insertions and removals, as long
    as a block identifier comes with one sequence number, the collection is the plain map
    from identifiers to candidates that the operations describe: looking a block up by its
    identifier, the set of identifiers and the queue give exactly the blocks of the map, and
    the queue is sorted by sequence number and then by identifier. *)
Theorem candidates_refine_map ops b :
  all_allowed ∅ ops →
  let d := foldl run UnfinalizedBlocks_default ops in
  let m := foldl run_spec ∅ ops in
  get_block_by_id d b = snd <$> m !! b ∧
  block_id_set d = dom m ∧
  clone_queue d ≡ₚ (map_to_list m).*2 ∧
  StronglySorted index_le ((λ e : Entry, BlockIndex_from e.2) <$> clone_queue d).
Proof.
  intros Hops d m. pose proof (runs_represent _ _ _ Hops represents_empty) as Hr.
  split_and!; [by apply represents_get|apply (rep_set _ _ Hr)|by apply represents_queue|
    by eapply represents_sorted].
Qed.
End refinement.

(** ** Evaluation *)
Section collection_witnesses.
#[local] Existing Instance LinearBlst.

Definition example_candidate (n : Z) : Envelope (H := LinearBlst) CandidateBlock :=
  mkEnvelope 0%Z ∅ (mkCandidate LinearBlst (example_block n) n (example_height n) example_thread
    (example_node 1) [] [] [] None None false BlockIdentifier_default (Some n) 0%Z (Some example_selector)).

(** Three candidates arrive out of order, and the first is dropped. *)
Definition example_operations : list Operation :=
  [Insert (example_block 3) (example_candidate 3); Insert (example_block 1) (example_candidate 1);
   Insert (example_block 2) (example_candidate 2);
   Retain (λ s, negb (bool_decide (s = example_block 1)))].

Lemma candidates_refine_map_witness :
  let d := foldl run UnfinalizedBlocks_default example_operations in
  get_block_by_id d (example_block 2) = Some (example_candidate 2) ∧
  get_block_by_id d (example_block 1) = None ∧
  fst <$> clone_queue d = [example_block 2; example_block 3] ∧
  StronglySorted index_le
    ((λ e : BlockIdentifier * Envelope CandidateBlock, BlockIndex_from e.2) <$> clone_queue d).
Proof.
  intros d. split; [vm_compute; reflexivity|]. split; [vm_compute; reflexivity|].
  split; [vm_compute; reflexivity|].
  refine (proj2 (proj2 (proj2 (candidates_refine_map example_operations (example_block 2) _)))).
  split; [intros v Hv; discriminate Hv|]. split; [intros v Hv; vm_compute in Hv; discriminate Hv|].
  split; [intros v Hv; vm_compute in Hv; discriminate Hv|]. split; exact I.
Defined.
End collection_witnesses.
