(* ===== verification/SendAttestations.v ===== *)
(** * SendAttestations: when a node sends its attestations.

    [node/services/send_attestations/mod.rs].  The service tracks the candidates of its thread.
    A pulse goes over the tracked blocks: it signs an attestation for the block (and a second
    one when the block requires a fallback), waits for the earliest time at which it may be
    sent, asks the authority of the thread for the lock of the height (ActionLock.v), and
    sends the attestation to the nodes that are interested in it.

    An [Instant] is a number of nanoseconds; the readings of the clock are arguments, one
    record for every block of a pulse.  A [BlockState] is the identifier of its block in the
    shared store.  Hash containers are visited through [set_iter], [node_iter] and
    [attested_iter].  A failed send is ignored by the code, so [Sent] lists the sends that are
    tried; metrics and their time stamps are left out. *)
From stdpp Require Import base numbers gmap strings fin_maps sorting list.
From S2P Require Import Prelude Identifiers Bls BlockKeepers Envelope Attestation Checkpoints Statistics BlockState Collected RoundTime ActionLock BlockProcessor Unfinalized.

(** ** binary32, for [Duration::mul_f32] *)
Section f32.
#[local] Open Scope Z_scope.

(** The binary32 number nearest to [n / d], for [0 <= n] and [0 < d] (no subnormals arise). *)
Definition f32_round (n d : Z) : f64 :=
  if bool_decide (n = 0) then F64 0 0
  else
    let e := Z.log2 n - Z.log2 d - 23 in
    let e := if bool_decide (scaled_num n e < 2 ^ 23 * scaled_den d e) then e - 1 else e in
    F64 (rne_div (scaled_num n e) (scaled_den d e)) e.

Definition f32_add (a b : f64) : f64 :=
  let e := Z.min (f64_e a) (f64_e b) in
  f32_round ((f64_m a * 2 ^ (f64_e a - e) + f64_m b * 2 ^ (f64_e b - e)) * 2 ^ Z.max e 0)
    (2 ^ Z.max (- e) 0).
Definition f32_mul (a b : f64) : f64 :=
  let e := f64_e a + f64_e b in
  f32_round (f64_m a * f64_m b * 2 ^ Z.max e 0) (2 ^ Z.max (- e) 0).
Definition f32_div (a b : f64) : f64 :=
  let e := f64_e a - f64_e b in
  f32_round (f64_m a * 2 ^ Z.max e 0) (f64_m b * 2 ^ Z.max (- e) 0).

(** [Duration::as_secs_f32], [Duration::from_secs_f32] (to the nearest nanosecond) and
    [Duration::mul_f32] *)
Definition as_secs_f32 (d : Z) : f64 :=
  f32_add (f32_round (d `div` NANOS_PER_SEC) 1)
    (f32_div (f32_round (d `mod` NANOS_PER_SEC) 1) (f32_round NANOS_PER_SEC 1)).
Definition from_secs_f32 {E} (x : f64) : outcome E Z :=
  duration_checked
    (rne_div (f64_m x * NANOS_PER_SEC * 2 ^ Z.max (f64_e x) 0) (2 ^ Z.max (- f64_e x) 0)).
Definition mul_f32 {E} (d : Z) (x : f64) : outcome E Z := from_secs_f32 (f32_mul x (as_secs_f32 d)).
End f32.

Example mul_f32_default : mul_f32 (E := Empty_set) 330000000 (f32_add (f32_round 8 10) (f32_round 1 1))
  = Ok 593999982%Z.
Proof. vm_compute. reflexivity. Qed.

(** ** The service *)
Record Readings := mkReadings {
  read_applied : Z;
  read_now : Z;
  read_elapsed : Z;
  read_first : Z;
  read_last : Z;
  read_wall_ms : Z;
}.

Notation Destinations := (gset (NodeIdentifier * AttestationTargetType)) (only parsing).

Record TrackedState := mkTracked {
  interested_parties_received_blocks : option Destinations;
  first_send_timestamp : option Z;
  last_send_timestamp : option Z;
  last_send_destinations : option Destinations;
}.
Definition TrackedState_new : TrackedState := mkTracked None None None None.

Definition PULSE_IDLE_TIMEOUT : Z := 50000000.

Section send.
Context `{Blst} {NackData : Type} `{EqDecision NackData}.
Context `{Serialize AttestationData}.
Notation Repo := (Repository NackData).
Notation result A := (outcome Empty_set A).
Notation Tracking := (gmap BlockIdentifier TrackedState).
Notation Attested := (gmap (BlockIdentifier * AttestationTargetType) (gset Z)).

Record AttestationSendService := mkSendService {
  pulse_timeout : Z;
  resend_attestation_timeout : Z;
  send_node_id : NodeIdentifier;
  send_bls_keys_map : gmap PubKey Secret;
  tracking : Tracking;
  block_state_repository_last_modified : Z;
  condidates_set_last_modified : Z;
  start_time : Z;
}.
Definition with_tracking (v : AttestationSendService) (t : Tracking) : AttestationSendService :=
  mkSendService (pulse_timeout v) (resend_attestation_timeout v) (send_node_id v)
    (send_bls_keys_map v) t (block_state_repository_last_modified v)
    (condidates_set_last_modified v) (start_time v).

Variable set_iter : gset BlockIdentifier → list BlockIdentifier.
Variable node_iter : gset NodeIdentifier → list NodeIdentifier.
Variable attested_iter :
  Attested → list ((BlockIdentifier * AttestationTargetType) * gset Z).
Variable iter_order : gset NodeIdentifier → list NodeIdentifier.
Variable shuffle : list Z → list NodeIdentifier → list NodeIdentifier.
Variable round_buckets : RoundTime.
(** The authorities: the nacks a thread has confirmed, and the locks its directory holds when
    its authority is created. *)
Variable nacks : ThreadIdentifier → gmap SiblingsBlockHeightKey (gset BlockIdentifier).
Variable stored_locks : ThreadIdentifier → gmap BlockHeight (option ActionLock).
Notation Authority := (gmap ThreadIdentifier ActionLockCollection).

(** [Authority::get_thread_authority] *)
Definition get_thread_authority (a : Authority) (t : ThreadIdentifier) : ActionLockCollection :=
  default (mkLocks ∅ (stored_locks t)) (a !! t).

(** *** Signing *)
Definition generate_attestation (v : AttestationSendService) (s : AckiNackiBlockState NackData)
    (t : AttestationTargetType) : option (Envelope AttestationData) :=
  bk_data ← get_bk_data_for_node_id s (send_node_id v);
  seq_no ← get s block_seq_no;
  parent_id ← get s parent_block_identifier;
  secret ← send_bls_keys_map v !! pubkey bk_data;
  hash ← get s envelope_hash;
  let attestation_data := mkAttestationData parent_id (block_identifier s) seq_no hash t in
  match GoshBLS_sign secret attestation_data with
  | Ok signature => Some (Envelope_create signature {[signer_index bk_data := 1%Z]} attestation_data)
  | _ => None
  end.

(** The fact that stores an attestation, and [try_get_attestation] with
    [try_get_fallback_attestation]: the stored attestation, else a new one that is stored. *)
Definition try_get_attestation (v : AttestationSendService) (r : Repo) (id : BlockIdentifier) :
    result (Repo * option (Envelope AttestationData)) :=
  match get (repo_get r id) own_attestation with
  | Some attestation => Ok (r, Some attestation)
  | None =>
      match generate_attestation v (repo_get r id) Primary with
      | Some attestation =>
          generated_setter (repo_get r id) own_attestation attestation ≫= λ s,
          Ok (<[id := s]> r, Some attestation)
      | None => Ok (r, None)
      end
  end.
Definition try_get_fallback_attestation (v : AttestationSendService) (r : Repo)
    (id : BlockIdentifier) : result (Repo * option (Envelope AttestationData)) :=
  match get (repo_get r id) own_fallback_attestation with
  | Some attestation => Ok (r, Some attestation)
  | None =>
      match generate_attestation v (repo_get r id) Fallback with
      | Some attestation =>
          generated_setter (repo_get r id) own_fallback_attestation attestation ≫= λ s,
          Ok (<[id := s]> r, Some attestation)
      | None => Ok (r, None)
      end
  end.

(** *** When a block may be attested *)
(** The time at which the block was applied. *)
Definition block_applied_timestamp (s : AckiNackiBlockState NackData) (now : Z) : option Z :=
  match get s applied, get s applied_start_timestamp with
  | Some _, None => Some (now - 330000000)%Z
  | _, t => t
  end.

Definition distance_to_producer (keepers : BlockKeeperSet) (parent_id : BlockIdentifier)
    (bp : NodeIdentifier) (t : ThreadIdentifier) (selector : ProducerSelector) : option nat :=
  if bool_decide (parent_id = BlockIdentifier_default) || ThreadIdentifier_is_spawning_block t parent_id
  then Some 0
  else get_distance_from_bp iter_order shuffle selector keepers bp.

(** The moment the delay is counted from: the first attestation for the parent, or, below a
    prefinalized parent, the moment the block was applied less a correction. *)
Definition first_pulse_timestamp (v : AttestationSendService) (parent : AckiNackiBlockState NackData)
    (parent_sent_first_attestation : option Z) (block_applied : Z) : result (option Z) :=
  match parent_sent_first_attestation with
  | Some prev_attn_time => Ok (Some prev_attn_time)
  | None =>
      if is_prefinalized parent || is_finalized parent then
        match get parent attestation_target with
        | Some target =>
            duration_checked (pulse_timeout v *
              (Z.of_nat (generation_deadline (primary_target target)) mod 2 ^ 32))%Z ≫= λ correction,
            Ok (Some (block_applied - correction)%Z)
        | None => Ok (Some (block_applied - pulse_timeout v)%Z)
        end
      else Ok None
  end.

(** The earliest time to send, and the thread of the block. *)
Definition earliest_to_send_attestation (v : AttestationSendService) (first_sent : gmap BlockIdentifier Z)
    (r : Repo) (id : BlockIdentifier) (at_applied : Z) : result (option (Z * ThreadIdentifier)) :=
  let s := repo_get r id in
  match block_applied_timestamp s at_applied, get s bk_set, get s parent_block_identifier,
        get s BlockState.producer, get s BlockState.thread_identifier with
  | Some block_applied, Some keepers, Some parent_id, Some bp, Some t =>
      let parent := repo_get r parent_id in
      match get parent producer_selector_data with
      | None => Ok None
      | Some selector =>
          match distance_to_producer keepers parent_id bp t selector with
          | None => Ok None
          | Some distance =>
              mul_f32 (pulse_timeout v) (f32_add (f32_round 8 10) (f32_round (Z.of_nat distance) 1))
              ≫= λ delay,
              first_pulse_timestamp v parent (first_sent !! parent_id) block_applied ≫= λ timestamp,
              match timestamp with
              | Some timestamp => Ok (Some ((timestamp + delay)%Z, t))
              | None => Ok None
              end
          end
      end
  | _, _, _, _, _ => Ok None
  end.

(** *** Whom it is sent to *)
Definition interested_parties (s : AckiNackiBlockState NackData) (fallback : bool) : Destinations :=
  let parties := known_attestation_interested_parties s in
  set_map (λ n, (n, Primary)) parties ∪
  (if fallback then set_map (λ n, (n, Fallback)) parties else ∅).

Definition awaiting_destinations (v : AttestationSendService) (st : TrackedState)
    (interested : Destinations) (at_elapsed : Z) : Destinations :=
  let last_sent_time := default (start_time v) (last_send_timestamp st) in
  if bool_decide (resend_attestation_timeout v < Z.max 0 (at_elapsed - last_sent_time))%Z
  then interested
  else if bool_decide (interested ≠ default ∅ (last_send_destinations st))
  then interested ∖ default ∅ (interested_parties_received_blocks st)
  else ∅.

Definition destinations_of (awaiting : Destinations) (t : AttestationTargetType) :
    gset NodeIdentifier := set_map fst (filter (λ d, d.2 = t) awaiting).

(** *** A pulse *)
Record Pulse := mkPulse {
  pulse_states : Repo;
  pulse_locks : Authority;
  pulse_tracking : Tracking;
  to_send : list (gset NodeIdentifier * Envelope AttestationData);
  pulse_next_deadline : Z;
}.

Definition with_pulse_states (p : Pulse) (r : Repo) : Pulse :=
  mkPulse r (pulse_locks p) (pulse_tracking p) (to_send p) (pulse_next_deadline p).

(** The fallback attestation: [None] when one is required and cannot be made. *)
Definition fallback_attestation (v : AttestationSendService) (r : Repo) (id : BlockIdentifier) :
    result (Repo * option (option (Envelope AttestationData))) :=
  if is_set (repo_get r id) requires_fallback_attestation true then
    try_get_fallback_attestation v r id ≫= λ '(r, attestation),
    match attestation with
    | Some attestation => Ok (r, Some (Some attestation))
    | None => Ok (r, None)
    end
  else Ok (r, Some None).

(** The lock is taken and the attestations are queued. *)
Definition lock_and_queue (p : Pulse) (clock : Readings) (id : BlockIdentifier) (st : TrackedState)
    (t : ThreadIdentifier) (attestation : Envelope AttestationData)
    (fallback : option (Envelope AttestationData)) (interested awaiting : Destinations) :
    result Pulse :=
  unwrap_ok (BlockRef_try_from (repo_get (pulse_states p) id)) ≫= λ block_ref,
  try_lock_send_attestation_action round_buckets (nacks t)
    (get_thread_authority (pulse_locks p) t) (pulse_states p) (read_wall_ms clock)
    (ref_block_identifier block_ref) ≫= λ '(locks, answer),
  let authorities := <[t := locks]> (pulse_locks p) in
  match answer with
  | Rejected =>
      Ok (mkPulse (pulse_states p) authorities (pulse_tracking p) (to_send p) (pulse_next_deadline p))
  | OkSendAttestation =>
      (match get (repo_get (pulse_states p) id) own_attestation with
       | None =>
           generated_setter (repo_get (pulse_states p) id) own_attestation attestation ≫= λ s,
           Ok (<[id := s]> (pulse_states p))
       | Some _ => Ok (pulse_states p)
       end) ≫= λ r,
      let first := match first_send_timestamp st with
                   | Some time => time
                   | None => read_first clock
                   end in
      let st := mkTracked (interested_parties_received_blocks st) (Some first)
                  (Some (read_last clock)) (Some interested) in
      Ok (mkPulse r authorities (<[id := st]> (pulse_tracking p))
            (to_send p ++ [(destinations_of awaiting Primary, attestation)] ++
             match fallback with
             | Some fallback => [(destinations_of awaiting Fallback, fallback)]
             | None => []
             end)
            (pulse_next_deadline p))
  end.

(** One tracked block. *)
Definition pulse_one (v : AttestationSendService) (clock : BlockIdentifier → Readings)
    (first_sent : gmap BlockIdentifier Z) (p : Pulse) (id : BlockIdentifier) : result Pulse :=
  match pulse_tracking p !! id with
  | None => Ok p
  | Some st =>
      try_get_attestation v (pulse_states p) id ≫= λ '(r, attestation),
      let p := with_pulse_states p r in
      match attestation with
      | None => Ok p
      | Some attestation =>
          fallback_attestation v r id ≫= λ '(r, fallback),
          let p := with_pulse_states p r in
          match fallback with
          | None => Ok p
          | Some fallback =>
              earliest_to_send_attestation v first_sent r id (read_applied (clock id))
              ≫= λ earliest,
              match earliest with
              | None => Ok p
              | Some (earliest, t) =>
                  if bool_decide (read_now (clock id) < earliest)%Z then
                    Ok (mkPulse r (pulse_locks p) (pulse_tracking p) (to_send p)
                          (Z.min (pulse_next_deadline p) earliest))
                  else
                    let interested := interested_parties (repo_get r id) (bool_decide (is_Some fallback)) in
                    let awaiting :=
                      awaiting_destinations v st interested (read_elapsed (clock id)) in
                    if bool_decide (awaiting = ∅) && bool_decide (fallback = None) then Ok p
                    else if bool_decide (is_Some (get (repo_get r id) retracted_attestation)) then Ok p
                    else lock_and_queue p (clock id) id st t attestation fallback interested awaiting
              end
          end
      end
  end.

(** Sending: to other nodes through the network, to the node itself through the pool. *)
Definition send_all (v : AttestationSendService) (pool : CollectedAttestations)
    (queue : list (gset NodeIdentifier * Envelope AttestationData)) :
    CollectedAttestations * list (NodeIdentifier * Envelope AttestationData) :=
  foldl (λ '(pool, sent) '(destinations, attestation),
      foldl (λ '(pool, sent) destination,
          if bool_decide (destination = send_node_id v)
          then ((CollectedAttestations_add pool attestation true).1, sent)
          else (pool, sent ++ [(destination, attestation)]))
        (pool, sent) (node_iter destinations))
    (pool, []) queue.

Definition pulse (v : AttestationSendService) (start : Z) (clock : BlockIdentifier → Readings)
    (r : Repo) (authorities : Authority) (pool : CollectedAttestations) :
    result (AttestationSendService * Repo * Authority * CollectedAttestations *
            list (NodeIdentifier * Envelope AttestationData) * Z) :=
  let first_sent := omap first_send_timestamp (tracking v) in
  fold_outcome (pulse_one v clock first_sent)
    (mkPulse r authorities (tracking v) [] (start + PULSE_IDLE_TIMEOUT * 2)%Z)
    (set_iter (dom (tracking v))) ≫= λ p,
  let '(pool, sent) := send_all v pool (to_send p) in
  Ok (with_tracking v (pulse_tracking p), pulse_states p, pulse_locks p, pool, sent,
      pulse_next_deadline p).

(** *** The set of tracked blocks *)
Definition append_for_tracking (candidates : UnfinalizedBlocks) (t : Tracking) : Tracking :=
  let t := foldl (λ t e, match t !! e.1 with
                         | Some _ => t
                         | None => <[e.1 := TrackedState_new]> t
                         end) t (clone_queue candidates) in
  filter (λ kv, kv.1 ∈ block_id_set candidates) t.

Definition stop_tracking_finalized_and_invalidated_candidates (r : Repo) (t : Tracking) : Tracking :=
  filter (λ kv, is_finalized (repo_get r kv.1) = false ∧ is_invalidated (repo_get r kv.1) = false) t.

(** The producer of a candidate has received the attestations that the candidate carries. *)
Definition collect_attested_blocks_to_receiver (v : AttestationSendService) (r : Repo)
    (t : Tracking) (candidate : BlockIdentifier) :
    gmap BlockIdentifier (NodeIdentifier * AttestationTargetType) :=
  match get (repo_get r candidate) BlockState.producer with
  | None => ∅
  | Some bp =>
      foldl (λ acc '((attested, target), signers),
          match t !! attested with
          | None => acc
          | Some _ =>
              match get_signer_index_for_node_id (repo_get r attested) (send_node_id v) with
              | Some my_idx =>
                  if bool_decide (my_idx ∈ signers) &&
                     bool_decide (bp ∈ known_attestation_interested_parties (repo_get r attested))
                  then <[attested := (bp, target)]> acc else acc
              | None => acc
              end
          end) ∅ (attested_iter (verified_attestations (repo_get r candidate)))
  end.

Definition add_received (st : TrackedState) (d : NodeIdentifier * AttestationTargetType) :
    TrackedState :=
  mkTracked (Some ({[d]} ∪ default ∅ (interested_parties_received_blocks st)))
    (first_send_timestamp st) (last_send_timestamp st) (last_send_destinations st).

Definition update_tracking (t : Tracking)
    (attested : gmap BlockIdentifier (NodeIdentifier * AttestationTargetType)) : Tracking :=
  map_imap (λ id st, Some (match attested !! id with
                           | Some d => add_received st d
                           | None => st
                           end)) t.

Definition update_interested_parties_received_blocks (v : AttestationSendService) (r : Repo)
    (candidates : UnfinalizedBlocks) (t : Tracking) : Tracking :=
  foldl (λ t e, update_tracking t (collect_attested_blocks_to_receiver v r t e.1)) t
    (clone_queue candidates).

(** [evaluate]: [stamp] is the stamp of the repository, [now] and [start] the readings of the
    clock before and in the pulse. *)
Definition evaluate (v : AttestationSendService) (stamp now start : Z)
    (clock : BlockIdentifier → Readings) (r : Repo) (authorities : Authority)
    (candidates : UnfinalizedBlocks) (pool : CollectedAttestations) (deadline : Z) :
    result (AttestationSendService * Repo * Authority * CollectedAttestations *
            list (NodeIdentifier * Envelope AttestationData) * Z) :=
  if bool_decide (stamp = block_state_repository_last_modified v) &&
     bool_decide (Unfinalized.notifications candidates = condidates_set_last_modified v) &&
     bool_decide (now < deadline)%Z
  then Ok (v, r, authorities, pool, [], deadline)
  else
    let t := append_for_tracking candidates (tracking v) in
    let t := stop_tracking_finalized_and_invalidated_candidates r t in
    let t := update_interested_parties_received_blocks v r candidates t in
    let v := mkSendService (pulse_timeout v) (resend_attestation_timeout v) (send_node_id v)
               (send_bls_keys_map v) t stamp (Unfinalized.notifications candidates) (start_time v) in
    pulse v start clock r authorities pool.
End send.

(** ** No attestation without a lock *)
Section locked.
Context `{Blst} {NackData : Type} `{EqDecision NackData}.
Context `{Serialize AttestationData}.
Notation Repo := (Repository NackData).
Notation Authority := (gmap ThreadIdentifier ActionLockCollection).
Implicit Types (r : Repo) (s : AckiNackiBlockState NackData) (id b : BlockIdentifier).
Implicit Types (c : ActionLockCollection) (p : Pulse (NackData := NackData)).
Implicit Types (v : AttestationSendService) (a : Envelope AttestationData).

Variable set_iter : gset BlockIdentifier → list BlockIdentifier.
Hypothesis set_iter_elements : ∀ X, set_iter X ≡ₚ elements X.
Variable node_iter : gset NodeIdentifier → list NodeIdentifier.
Variable attested_iter : gmap (BlockIdentifier * AttestationTargetType) (gset Z) →
  list ((BlockIdentifier * AttestationTargetType) * gset Z).
Variable iter_order : gset NodeIdentifier → list NodeIdentifier.
Variable shuffle : list Z → list NodeIdentifier → list NodeIdentifier.
Variable rb : RoundTime.
Variable nacks : ThreadIdentifier → gmap SiblingsBlockHeightKey (gset BlockIdentifier).
Variable stored_locks : ThreadIdentifier → gmap BlockHeight (option ActionLock).
Variable round_of : BlockIdentifier → Z.
(** The height that is looked at, and the authority of its thread. *)
Variable h : BlockHeight.
Notation thread := (Identifiers.thread_identifier h).
Context `{Deserialize (Envelope AckiNackiBlock)}.
Notation step := (lock_step (NackData := NackData) set_iter round_of rb (nacks thread) h).

Definition locks_of (authorities : Authority) : ActionLockCollection :=
  get_thread_authority stored_locks authorities thread.

(** The states differ only in the attestations of the node itself. *)
Definition same_but_own s s' : Prop :=
  block_identifier s' = block_identifier s ∧
  (∀ f, f ≠ own_attestation → f ≠ own_fallback_attestation → get s' f = get s f) ∧
  bad_block_accusers s' = bad_block_accusers s.

Definition only_own r r' : Prop := ∀ b, same_but_own (repo_get r b) (repo_get r' b).

#[local] Instance only_own_preorder : PreOrder only_own.
Proof.
  split; [done|]. intros r1 r2 r3 H12 H23 b.
  destruct (H12 b) as (I1 & F1 & A1), (H23 b) as (I2 & F2 & A2).
  split_and!; [congruence| |congruence]. intros f Hf Hf'. by rewrite F2, F1.
Qed.

(** The attestations the node has stored are for the blocks they are stored with. *)
Definition own_ok r : Prop := ∀ b a,
  get (repo_get r b) own_attestation = Some a ∨ get (repo_get r b) own_fallback_attestation = Some a →
  att_block_id (data a) = b.


Lemma set_own_ok r id a s' :
  own_ok r → att_block_id (data a) = id →
  generated_setter (repo_get r id) own_attestation a = Ok s' ∨
  generated_setter (repo_get r id) own_fallback_attestation a = Ok s' →
  only_own r (<[id := s']> r) ∧ own_ok (<[id := s']> r).
Proof.
  intros Hown Ha Hset.
  assert (same_but_own (repo_get r id) s' ∧
    ∀ a', get s' own_attestation = Some a' ∨ get s' own_fallback_attestation = Some a' →
          att_block_id (data a') = id) as [Hs Ho].
  { destruct Hset as [Hset|Hset]; revert Hset; unfold generated_setter; (case_decide as Hd;
      [intros <-%Ok_inj; split; [done|apply Hown]|]); destruct (get _ _); try done;
      intros <-%Ok_inj; (split; [split_and!; [done| |done]|]); simpl.
    1,3: intros f Hf Hf'; by rewrite set_fact_ne.
    all: intros a' [Ha'|Ha'].
    all: first [rewrite set_fact_eq in Ha'; by injection Ha' as <-
               |rewrite set_fact_ne in Ha' by done; apply (Hown id a'); tauto]. }
  split.
  - intros b. rewrite repo_get_insert. case_decide; [by subst|done].
  - intros b a'. rewrite repo_get_insert. case_decide; [subst; apply Ho|apply Hown].
Qed.
(** What the pulse gets to know of the store. *)
Record stores r0 r : Prop := {
  st_only : only_own r0 r;
  st_own : own_ok r;
  st_sane : sane_repo round_of r0;
}.

Lemma stores_key r0 r b : stores r0 r → block_identifier (repo_get r b) = b.
Proof. intros [Ho _ [Hk _]]. destruct (Ho b) as [-> _]. apply Hk. Qed.

Lemma generate_attestation_id v s t a :
  generate_attestation v s t = Some a → att_block_id (data a) = block_identifier s.
Proof.
  unfold generate_attestation. intros (k & _ & Ha)%bind_Some.
  apply bind_Some in Ha as (n & _ & Ha). apply bind_Some in Ha as (q & _ & Ha).
  apply bind_Some in Ha as (sk & _ & Ha). apply bind_Some in Ha as (hash & _ & Ha).
  destruct (GoshBLS_sign _ _); [|done..]. by injection Ha as <-.
Qed.

Lemma stores_set r0 r id a s' :
  stores r0 r → att_block_id (data a) = id →
  generated_setter (repo_get r id) own_attestation a = Ok s' ∨
  generated_setter (repo_get r id) own_fallback_attestation a = Ok s' →
  stores r0 (<[id := s']> r).
Proof.
  intros [Ho Hown Hs] Ha Hset. destruct (set_own_ok _ _ _ _ Hown Ha Hset) as [Ho' Hown'].
  split; [by etransitivity|done..].
Qed.

Lemma try_get_attestation_ok r0 v r id r' oa :
  stores r0 r → try_get_attestation v r id = Ok (r', oa) →
  stores r0 r' ∧ ∀ a, oa = Some a → att_block_id (data a) = id.
Proof.
  intros Hr. unfold try_get_attestation. destruct (get _ own_attestation) as [a|] eqn:Hown.
  { intros [= <- <-]. split; [done|]. intros a' [= <-]. eapply (st_own _ _ Hr). by left. }
  destruct (generate_attestation _ _ _) as [a|] eqn:Ha; [|by intros [= <- <-]].
  apply generate_attestation_id in Ha. rewrite (stores_key _ _ _ Hr) in Ha.
  intros (s' & Hs & [= <- <-])%outcome_bind_Ok. split; [|naive_solver].
  eapply stores_set; [done..|]. by left.
Qed.

Lemma fallback_attestation_ok r0 v r id r' ofa :
  stores r0 r → fallback_attestation v r id = Ok (r', ofa) →
  stores r0 r' ∧ ∀ a, ofa = Some (Some a) → att_block_id (data a) = id.
Proof.
  intros Hr. unfold fallback_attestation. destruct (is_set _ _ _); [|by intros [= <- <-]].
  intros ([r1 oa] & Hget & Hrest)%outcome_bind_Ok.
  assert (stores r0 r1 ∧ ∀ a, oa = Some a → att_block_id (data a) = id) as [Hr1 Hid].
  { revert Hget. unfold try_get_fallback_attestation.
    destruct (get _ own_fallback_attestation) as [a|] eqn:Hown.
    { intros [= <- <-]. split; [done|]. intros a' [= <-]. eapply (st_own _ _ Hr). by right. }
    destruct (generate_attestation _ _ _) as [a|] eqn:Ha; [|by intros [= <- <-]].
    apply generate_attestation_id in Ha. rewrite (stores_key _ _ _ Hr) in Ha.
    intros (s' & Hs & [= <- <-])%outcome_bind_Ok. split; [|naive_solver].
    eapply stores_set; [done..|]. by right. }
  destruct oa as [a|]; injection Hrest as <- <-; naive_solver.
Qed.

(** *** The conditions of a lock step do not depend on the attestations of the node *)
Lemma stores_get r0 r b f :
  stores r0 r → f ≠ own_attestation → f ≠ own_fallback_attestation →
  get (repo_get r b) f = get (repo_get r0 b) f.
Proof. intros [Ho _ _] Hf Hf'. by apply Ho. Qed.

Lemma stores_is_set r0 r b f (x : fact_type f) :
  stores r0 r → f ≠ own_attestation → f ≠ own_fallback_attestation →
  is_set (repo_get r b) f x = is_set (repo_get r0 b) f x.
Proof. intros Hr Hf Hf'. unfold is_set. by rewrite (stores_get r0). Qed.

Lemma stores_sane r0 r : stores r0 r → sane_repo round_of r.
Proof.
  intros Hr. split; [intros b; by eapply stores_key|]. intros b rnd.
  rewrite (stores_get r0) by done. apply (st_sane _ _ Hr).
Qed.

Lemma stores_unsettled r0 r b : stores r0 r → unsettled r0 b → unsettled r b.
Proof.
  intros Hr [Hf Hp]. split; [rewrite <- Hf|rewrite <- Hp]; by apply stores_is_set.
Qed.

Lemma stores_in_time r0 r now b : stores r0 r → in_time rb r0 now b → in_time rb r now b.
Proof.
  intros Hr Ht rnd parent keepers t local Hrnd Hpar Hk Hms. rewrite (stores_get r0) in Hrnd, Hpar, Hk, Hms by done.
  by eapply Ht.
Qed.

Lemma stores_stands r0 r c : stores r0 r → lock_stands h c r0 ↔ lock_stands h c r.
Proof.
  intros Hr. unfold lock_stands, lock_active.
  assert (∀ b, is_invalidated (repo_get r b) = is_invalidated (repo_get r0 b)) as Hi
    by (intros b; by apply stores_is_set).
  split; intros Hst l Hl; specialize (Hst l Hl); destruct (locked_block l) as [[rnd ref]|]; try done;
    [by rewrite Hi|by rewrite Hi in Hst].
Qed.

(** A lock that is taken names a block that is not invalidated. *)
Lemma try_lock_stands rb' nacks' c r now id c' answer :
  (∀ b, block_identifier (repo_get r b) = b) → lock_stands h c r → unsettled r id →
  try_lock_send_attestation_action rb' nacks' c r now id = Ok (c', answer) → lock_stands h c' r.
Proof.
  intros Hkey Hst Hun Htry.
  destruct (try_lock_inv _ _ _ _ _ _ _ _ Hun Htry)
    as [[-> _]|(h'&rnd&parent&keepers&t&local&ref&Hh&_&_&_&_&_&Hinv&_&_&Href&Hls)]; [done|].
  rewrite Hkey in Href.
  destruct (lock_and_save_spec _ _ _ _ _ _ _ _ _ _ Hls) as (_ & Hother & Hlock).
  destruct (decide (h = h')) as [<-|Hne].
  2:{ destruct (Hother h Hne) as [Hp Hd]. intros l. unfold lookup_lock. rewrite Hp, Hd. apply Hst. }
  rewrite (stands_active _ _ _ Hst) in Hlock.
  assert (Hnew : ∀ l' rnd', preloaded c' !! h = Some (Some l') → locked_block l' = Some (rnd', ref) →
    lock_stands h c' r).
  { intros l' rnd' Hp Hb l. unfold lookup_lock. rewrite Hp. intros [= <-]. unfold lock_active.
    by rewrite Hb, Href, Hinv. }
  destruct (lookup_lock c h) as [l|] eqn:Hl.
  - destruct Hlock as [_ Hw]. destruct (attest_with_lock l rnd (round local) ref) as [[l'|] res] eqn:Hatt;
      destruct (attest_with_lock_spec _ _ _ _ _ _ Hatt) as [_ Hspec]; simpl in Hw.
    + destruct Hspec as (_ & Hb & _). destruct Hw as [Hp _]. eauto.
    + destruct Hw as [Hp _]. intros l'. unfold lookup_lock. rewrite Hp. intros [= <-]. by apply Hst.
  - destruct Hlock as [Hok Hrej]. destruct answer.
    + destruct (Hok eq_refl) as (l' & Hp & _ & _ & Hb). eauto.
    + rewrite (Hrej eq_refl). intros l'. destruct (get_mut_spec c r h) as (_ & -> & _).
      by rewrite (stands_active _ _ _ Hst), Hl.
Qed.
(** *** The loop *)
(** The height of a block names its thread. *)
Definition threads_agree r : Prop := ∀ b h' t,
  get (repo_get r b) BlockState.block_height = Some h' →
  get (repo_get r b) BlockState.thread_identifier = Some t → t = Identifiers.thread_identifier h'.

Definition covered_by r (blocks : list BlockIdentifier) b : Prop :=
  get (repo_get r b) BlockState.block_height = Some h → unsettled r b → b ∈ blocks.

Lemma locks_insert (authorities : Authority) t c :
  locks_of (<[t := c]> authorities) = if decide (t = thread) then c else locks_of authorities.
Proof.
  unfold locks_of, get_thread_authority. case_decide as Ht; [rewrite Ht; by rewrite lookup_insert_eq|].
  by rewrite lookup_insert_ne.
Qed.

(** A request for the lock is a step of the history of the height. *)
Lemma lock_call r0 r authorities t now id locks answer :
  stores r0 r → threads_agree r0 → lock_stands h (locks_of authorities) r0 → in_time rb r0 now id →
  get (repo_get r id) BlockState.thread_identifier = Some t →
  try_lock_send_attestation_action rb (nacks t) (get_thread_authority stored_locks authorities t) r now id
    = Ok (locks, answer) →
  lock_stands h (locks_of (<[t := locks]> authorities)) r0 ∧
  ∃ new, (∀ attested, rtc step (locks_of authorities, attested)
                        (locks_of (<[t := locks]> authorities), new ++ attested)) ∧
         (answer = OkSendAttestation → covered_by r0 new id).
Proof.
  intros Hr Hag Hst Htime Ht Htry. rewrite locks_insert.
  assert (Hheight : get (repo_get r id) BlockState.block_height = get (repo_get r0 id) BlockState.block_height)
    by by apply stores_get.
  rewrite (stores_get r0) in Ht by done.
  case_decide as Hth.
  2:{ split; [done|]. exists []. split; [intros; apply rtc_refl|].
      intros _ Hh _. by destruct (Hth (Hag _ _ _ Hh Ht)). }
  subst t.
  destruct (decide (unsettled r0 id)) as [Hun|Hset].
  2:{ assert (locks = locks_of authorities) as ->.
      { revert Htry. unfold try_lock_send_attestation_action, is_finalized, is_prefinalized.
        rewrite !(stores_is_set r0 r id) by done.
        destruct (is_set (repo_get r0 id) finalized true) eqn:Hf; [by intros [= <- _]|].
        destruct (is_set (repo_get r0 id) prefinalized true) eqn:Hp; [by intros [= <- _]|].
        by destruct Hset. }
      split; [done|]. exists []. split; [intros; apply rtc_refl|]. intros _ _ ?. done. }
  pose proof (stores_unsettled _ _ _ Hr Hun) as Hun'.
  pose proof (proj1 (stores_stands _ _ _ Hr) Hst) as Hst'.
  split; [apply (stores_stands _ _ _ Hr); by eapply try_lock_stands; [intros; by eapply stores_key|..]|].
  pose proof (stores_sane _ _ Hr) as Hsane.
  destruct (get (repo_get r0 id) BlockState.block_height) as [h'|] eqn:Hh.
  2:{ exists []. split; [|intros _; unfold covered_by; by rewrite Hh]. intros attested. apply rtc_once.
      destruct answer; [|by eapply step_reject].
      destruct (try_lock_inv _ _ _ _ _ _ _ _ Hun' Htry) as [[_ ?]|(h'&rnd&parent&keepers&t&local&ref&Hh'&_)];
        [done|congruence]. }
  destruct (decide (h' = h)) as [->|Hne].
  - destruct answer.
    + exists [id]. split; [|intros _ _ _; left]. intros attested. apply rtc_once.
      by eapply step_attest; [..|by eapply stores_in_time|done| |exact Htry].
    + exists []. split; [|done]. intros attested. apply rtc_once. by eapply step_reject.
  - exists []. split; [|intros _ Hh2; congruence]. intros attested. apply rtc_once. by eapply step_other.
Qed.
Lemma earliest_thread v first_sent r id at_applied earliest t :
  earliest_to_send_attestation iter_order shuffle v first_sent r id at_applied = Ok (Some (earliest, t)) →
  get (repo_get r id) BlockState.thread_identifier = Some t.
Proof.
  unfold earliest_to_send_attestation.
  destruct (block_applied_timestamp _ _); [|done]. destruct (get (repo_get r id) bk_set); [|done].
  destruct (get (repo_get r id) parent_block_identifier); [|done].
  destruct (get (repo_get r id) BlockState.producer); [|done].
  destruct (get (repo_get r id) BlockState.thread_identifier); [|done].
  destruct (get _ producer_selector_data); [|done].
  destruct (distance_to_producer _ _ _ _ _ _ _); [|done].
  intros (delay & _ & ([time|] & _ & Ht)%outcome_bind_Ok)%outcome_bind_Ok; [|done].
  by injection Ht as _ <-.
Qed.

Record pulse_inv r0 c0 attested p : Prop := {
  pi_stores : stores r0 (pulse_states p);
  pi_stands : lock_stands h (locks_of (pulse_locks p)) r0;
  pi_steps : ∃ blocks, rtc step (c0, attested) (locks_of (pulse_locks p), blocks ++ attested) ∧
    ∀ ds a, (ds, a) ∈ to_send p → covered_by r0 blocks (att_block_id (data a));
}.

Lemma pulse_inv_states r0 c0 attested p r :
  pulse_inv r0 c0 attested p → stores r0 r → pulse_inv r0 c0 attested (with_pulse_states p r).
Proof. intros [? ? ?] ?. by split. Qed.

Lemma lock_and_queue_inv r0 c0 attested p clock id st t a fallback interested awaiting p' :
  threads_agree r0 → in_time rb r0 (read_wall_ms clock) id →
  get (repo_get (pulse_states p) id) BlockState.thread_identifier = Some t →
  att_block_id (data a) = id → (∀ f, fallback = Some f → att_block_id (data f) = id) →
  pulse_inv r0 c0 attested p →
  lock_and_queue rb nacks stored_locks p clock id st t a fallback interested awaiting = Ok p' →
  pulse_inv r0 c0 attested p'.
Proof.
  intros Hag Htime Ht Ha Hf [Hr Hst (blocks & Hsteps & Hcov)]. unfold lock_and_queue.
  intros (ref & Href%unwrap_ok_inv & Hrest)%outcome_bind_Ok.
  assert (ref_block_identifier ref = id) as Hid.
  { revert Href. unfold BlockRef_try_from. destruct (get _ block_seq_no); [|done].
    intros [= <-]. simpl. by eapply stores_key. }
  rewrite Hid in Hrest. apply outcome_bind_Ok in Hrest as ([locks answer] & Htry & Hrest).
  destruct (lock_call _ _ _ _ _ _ _ _ Hr Hag Hst Htime Ht Htry) as (Hst' & new & Hnew & Hin).
  assert (Hsteps' : rtc step (c0, attested)
    (locks_of (<[t := locks]> (pulse_locks p)), (new ++ blocks) ++ attested)).
  { rewrite <- (assoc_L app). etransitivity; [exact Hsteps|apply Hnew]. }
  assert (Hold : ∀ b, covered_by r0 blocks b → covered_by r0 (new ++ blocks) b).
  { intros b Hb Hh Hu. apply elem_of_app. right. by apply Hb. }
  destruct answer.
  2:{ injection Hrest as <-. split; [done..|]. exists (new ++ blocks). split; [done|]. eauto. }
  apply outcome_bind_Ok in Hrest as (r & Hset & <-%Ok_inj).
  assert (stores r0 r).
  { destruct (get _ own_attestation); [by apply Ok_inj in Hset as <-|].
    apply outcome_bind_Ok in Hset as (s' & Hs & <-%Ok_inj). eapply stores_set; [done..|]. by left. }
  assert (covered_by r0 (new ++ blocks) id) as Hcid.
  { intros Hh Hu. apply elem_of_app. left. by apply Hin. }
  split; [done..|]. exists (new ++ blocks). split; [exact Hsteps'|]. simpl.
  intros ds x [Hx|[[= -> ->]|Hx]%elem_of_cons]%elem_of_app; [by eapply Hold, Hcov|by rewrite Ha|].
  destruct fallback as [f|]; [|by apply elem_of_nil in Hx].
  apply list_elem_of_singleton in Hx as [= -> ->]. by rewrite (Hf f).
Qed.

Lemma pulse_one_inv r0 c0 attested v clock first_sent p id p' :
  threads_agree r0 → in_time rb r0 (read_wall_ms (clock id)) id →
  pulse_inv r0 c0 attested p →
  pulse_one iter_order shuffle rb nacks stored_locks v clock first_sent p id = Ok p' →
  pulse_inv r0 c0 attested p'.
Proof.
  intros Hag Htime Hp. unfold pulse_one. destruct (pulse_tracking p !! id) as [st|]; [|by intros <-%Ok_inj].
  intros ([r1 oa] & Hatt & Hrest)%outcome_bind_Ok.
  apply try_get_attestation_ok with (r0 := r0) in Hatt as [Hr1 Ha]; [|apply (pi_stores _ _ _ _ Hp)].
  pose proof (pulse_inv_states _ _ _ _ _ Hp Hr1) as Hp1.
  destruct oa as [a|]; [|by apply Ok_inj in Hrest as <-].
  apply outcome_bind_Ok in Hrest as ([r2 ofa] & Hfb & Hrest).
  apply fallback_attestation_ok with (r0 := r0) in Hfb as [Hr2 Hf]; [|done].
  pose proof (pulse_inv_states _ _ _ _ _ Hp1 Hr2) as Hp2.
  destruct ofa as [fallback|]; [|by apply Ok_inj in Hrest as <-].
  apply outcome_bind_Ok in Hrest as ([[earliest t]|] & Hearly & Hrest); [|by apply Ok_inj in Hrest as <-].
  apply earliest_thread in Hearly.
  destruct (bool_decide (read_now _ < earliest)%Z); [apply Ok_inj in Hrest as <-; by destruct Hp2|].
  destruct (_ && _); [by apply Ok_inj in Hrest as <-|].
  destruct (bool_decide _); [by apply Ok_inj in Hrest as <-|].
  eapply lock_and_queue_inv; [done..| | | |exact Hp2|exact Hrest]; [exact Hearly|by apply Ha|].
  intros f ->. by apply Hf.
Qed.

(** The sends and the looped back attestations are those of the queue. *)
Lemma send_all_queue v pool queue pool' sent :
  send_all node_iter v pool queue = (pool', sent) →
  ∃ looped, pool' = foldl (λ q a, (CollectedAttestations_add q a true).1) pool looped ∧
    ∀ a, a ∈ sent.*2 ++ looped → ∃ ds, (ds, a) ∈ queue.
Proof.
  unfold send_all. intros Hsend.
  cut (∀ queue' pool0 sent0 looped0,
    pool0 = foldl (λ q a, (CollectedAttestations_add q a true).1) pool looped0 →
    (∀ a, a ∈ sent0.*2 ++ looped0 → ∃ ds, (ds, a) ∈ queue) → (∀ e, e ∈ queue' → e ∈ queue) →
    foldl (λ '(pool, sent) '(destinations, attestation),
      foldl (λ '(pool, sent) destination,
          if bool_decide (destination = send_node_id v)
          then ((CollectedAttestations_add pool attestation true).1, sent)
          else (pool, sent ++ [(destination, attestation)]))
        (pool, sent) (node_iter destinations)) (pool0, sent0) queue' = (pool', sent) →
    ∃ looped, pool' = foldl (λ q a, (CollectedAttestations_add q a true).1) pool looped ∧
      ∀ a, a ∈ sent.*2 ++ looped → ∃ ds, (ds, a) ∈ queue).
  { intros Hall. apply (Hall queue pool [] []); [done|by intros a ?%elem_of_nil|done|exact Hsend]. }
  clear Hsend. induction queue' as [|[ds a] queue' IH]; intros pool0 sent0 looped0 Hpool Hin Hq; simpl.
  { intros [= <- <-]. by exists looped0. }
  generalize (node_iter ds). intros l.
  assert (Ha : (ds, a) ∈ queue) by (apply Hq; left).
  assert (Hq' : ∀ e, e ∈ queue' → e ∈ queue) by (intros e He; apply Hq; by right).
  clear Hq. revert pool0 sent0 looped0 Hpool Hin.
  induction l as [|d l IHl]; intros pool0 sent0 looped0 Hpool Hin; simpl; [by eapply IH|].
  case_bool_decide.
  - apply (IHl _ _ (looped0 ++ [a])); [by rewrite foldl_snoc, Hpool|].
    intros a' [Hs|[Hl|Hl%list_elem_of_singleton]%elem_of_app]%elem_of_app; [| |subst; eauto];
      apply Hin, elem_of_app; auto.
  - apply (IHl _ _ looped0); [done|]. rewrite fmap_app.
    intros a' [[Hs|Hs%list_elem_of_singleton]%elem_of_app|Hl]%elem_of_app; [|simpl in Hs; subst; eauto|];
      apply Hin, elem_of_app; auto.
Qed.
(** Only candidates are tracked. *)
Lemma update_tracking_dom t attested : dom (update_tracking t attested) ⊆ dom t.
Proof.
  intros id. rewrite !elem_of_dom. unfold update_tracking. rewrite map_lookup_imap.
  intros [st Hst]. apply bind_Some in Hst as (st' & -> & _). done.
Qed.

Lemma tracked_candidates v r candidates t id :
  id ∈ dom (update_interested_parties_received_blocks attested_iter v r candidates
              (stop_tracking_finalized_and_invalidated_candidates r (append_for_tracking candidates t))) →
  id ∈ block_id_set candidates.
Proof.
  unfold update_interested_parties_received_blocks.
  assert (∀ l t0, dom (foldl (λ t (e : BlockIdentifier * Envelope CandidateBlock),
    update_tracking t (collect_attested_blocks_to_receiver attested_iter v r t e.1)) t0 l) ⊆ dom t0) as Hdom.
  { induction l as [|e l IH]; intros t0; simpl; [done|]. etransitivity; [apply IH|apply update_tracking_dom]. }
  intros Hid%Hdom. apply elem_of_dom in Hid as [st Hst]. unfold stop_tracking_finalized_and_invalidated_candidates in Hst.
  apply map_lookup_filter_Some in Hst as [Hst _].
  unfold append_for_tracking in Hst. by apply map_lookup_filter_Some in Hst as [_ Hin].
Qed.

(** C5 (attestations are sent under locks): the attestations that a node sends for the blocks
    of one height, or puts into its own pool, follow the lock of the height.  Take any history
    of the height on the node (requests, rounds started below the parent of the lock, rounds
    closed by others, restarts that keep the lock) and let the service evaluate any candidates.  Assumed of the store: states are kept under
    their identifiers with the round and the thread of their block, stored own attestations are
    for the block they are stored with, the locked block is not invalidated, and no candidate is
    of a future round on the local clock.  Then the calls for the lock extend the history, every
    block of the height that is not yet prefinalized and for which an attestation is sent or
    looped back is one of the attested blocks of the history, and all attested blocks of the
    history have different rounds. *)
Theorem sent_attestations_follow_locks c0 attested v stamp now start clock r authorities candidates
    pool deadline v' r' authorities' pool' sent deadline' :
  lookup_lock c0 h = None →
  rtc step (c0, []) (locks_of authorities, attested) →
  sane_repo round_of r → own_ok r → threads_agree r → lock_stands h (locks_of authorities) r →
  (∀ id, id ∈ block_id_set candidates → in_time rb r (read_wall_ms (clock id)) id) →
  evaluate set_iter node_iter attested_iter iter_order shuffle rb nacks stored_locks v stamp now start
    clock r authorities candidates pool deadline = Ok (v', r', authorities', pool', sent, deadline') →
  ∃ blocks looped,
    rtc step (c0, []) (locks_of authorities', blocks ++ attested) ∧
    pool' = foldl (λ q a, (CollectedAttestations_add q a true).1) pool looped ∧
    (∀ a, a ∈ sent.*2 ++ looped →
       get (repo_get r (att_block_id (data a))) BlockState.block_height = Some h →
       unsettled r (att_block_id (data a)) → att_block_id (data a) ∈ blocks) ∧
    (∀ b1 b2, b1 ∈ blocks ++ attested → b2 ∈ blocks ++ attested → round_of b1 = round_of b2 → b1 = b2).
Proof.
  intros Hl Hsteps Hsane Hown Hag Hst Htime. unfold evaluate.
  assert (Huniq : ∀ c l, rtc step (c0, []) (c, l) →
    ∀ b1 b2, b1 ∈ l → b2 ∈ l → round_of b1 = round_of b2 → b1 = b2).
  { intros c l Hcl. destruct (history_steps _ _ _ _ _ _ _ Hl Hcl) as (_ & Hu & _). done. }
  destruct (_ && _).
  { intros Hok. injection Hok as _ _ <- <- <- _. exists [], []. split_and!; [done|done| |by eauto].
    intros a Ha. by apply elem_of_nil in Ha. }
  unfold pulse. intros (p & Hfold & Hrest)%outcome_bind_Ok. cbn [tracking] in Hfold.
  destruct (send_all _ _ _ _) as [pool1 sent1] eqn:Hsend. injection Hrest as _ _ <- <- <- _.
  destruct (send_all_queue _ _ _ _ _ Hsend) as (looped & Hpool & Hin).
  assert (pulse_inv r (locks_of authorities) attested p) as [_ _ (blocks & Hb & Hcov)].
  { refine (fold_outcome_ind _ (pulse_inv r (locks_of authorities) attested) _ _ _ _ _ Hfold).
    - intros p1 id p2 Hid Hp1. apply pulse_one_inv; [done| |done]. apply Htime.
      rewrite set_iter_elements in Hid. apply elem_of_elements in Hid. by eapply tracked_candidates.
    - split; [by split|done|]. exists []. split; [done|]. intros ds a Ha. by apply elem_of_nil in Ha. }
  exists blocks, looped. split_and!; [by etransitivity|done| |].
  - intros a Ha. destruct (Hin a Ha) as [ds Hds]. by eapply Hcov.
  - eapply Huniq. by etransitivity.
Qed.
End locked.

(** ** What is sent counts for the others *)
Section accepted.
Context `{Blst} {NackData : Type} `{EqDecision NackData}.
Context `{Serialize AttestationData} `{Serialize CandidateBlock} `{!BlstLaws}.
Implicit Types (r : Repository NackData) (id : BlockIdentifier) (keepers : BlockKeeperSet).

(** Generate_attestation: the attestation a keeper makes for a block passes the check of
    every node that knows the block with the same envelope hash and keeper set, as long as the
    keeper holds the key that the set lists for it: it names the block, its parent and the
    target, it is signed by exactly this keeper, and [check_attestation] of the block processor
    finds it verified, whatever other attestations were seen before. *)
Theorem own_attestation_accepted v r r' id t a keepers keeper previous skipped :
  block_identifier (repo_get r id) = id →
  get (repo_get r id) bk_set = Some keepers → BlockKeeperSet_wf keepers →
  BlockKeeperSet_get_by_node_id keepers (send_node_id v) = Some keeper →
  by_signer keepers !! signer_index keeper = Some keeper →
  (∀ pk secret, send_bls_keys_map v !! pk = Some secret → blst_sk_to_pk secret = pk) →
  get (repo_get r' id) bk_set = get (repo_get r id) bk_set →
  get (repo_get r' id) envelope_hash = get (repo_get r id) envelope_hash →
  is_invalidated (repo_get r' id) = false → (id, t) ∉ previous → id ∉ skipped →
  generate_attestation v (repo_get r id) t = Some a →
  att_block_id (data a) = id ∧ att_target_type (data a) = t ∧
  get (repo_get r id) parent_block_identifier = Some (att_parent_block_id (data a)) ∧
  dom (signature_occurrences a) = {[signer_index keeper]} ∧
  check_attestation r' previous skipped a = Ok Verified.
Proof.
  intros Hid Hk Hwf Hnode Hsigner Hkeys Hk' Hh' Hinv Hprev Hskip Hgen.
  unfold generate_attestation, get_bk_data_for_node_id in Hgen. rewrite Hk in Hgen. simpl in Hgen.
  rewrite Hnode in Hgen. simpl in Hgen.
  apply bind_Some in Hgen as (n & _ & Hgen). apply bind_Some in Hgen as (parent & Hp & Hgen).
  apply bind_Some in Hgen as (secret & Hs & Hgen). apply bind_Some in Hgen as (hash & Hh & Hgen).
  destruct (GoshBLS_sign _ _) as [sig| |] eqn:Hsig; [|done..]. injection Hgen as <-.
  rewrite Hid in *. unfold Envelope_create in *. simpl.
  split_and!; [done|done|done|by rewrite dom_singleton_L|].
  unfold check_attestation. simpl.
  rewrite bool_decide_eq_false_2 by done. rewrite bool_decide_eq_false_2 by done. rewrite Hinv.
  rewrite Hh', Hh, bool_decide_eq_false_2 by tauto. rewrite Hk', Hk.
  erewrite single_signer_valid; [done| |exact Hsig].
  unfold BlockKeeperSet_get_pubkeys_by_signers. rewrite (wf_pubkeys _ Hwf), lookup_fmap, Hsigner.
  simpl. by rewrite (Hkeys _ _ Hs).
Qed.
End accepted.

(** ** A required fallback attestation stops the resending *)
Section resend.
Context `{Blst} {NackData : Type} `{EqDecision NackData} `{Serialize AttestationData}.

(** When the interested parties are those of the last send and the resend timeout has not
    passed, nothing is awaited. *)
Lemma nothing_awaited (v : AttestationSendService) st interested now :
  last_send_destinations st = Some interested →
  (now - default (start_time v) (last_send_timestamp st) ≤ resend_attestation_timeout v)%Z →
  (0 ≤ resend_attestation_timeout v)%Z →
  awaiting_destinations v st interested now = ∅.
Proof.
  intros Hd Ht H0'. unfold awaiting_destinations.
  rewrite bool_decide_eq_false_2 by lia. rewrite Hd. simpl.
  by rewrite bool_decide_eq_false_2 by tauto.
Qed.

(** But with a fallback attestation the block still gets to the lock, and the time of the last
    send is moved although no one is sent anything: as long as pulses come within the timeout,
    the attestations are never sent again. *)
Lemma empty_send_moves_timer rb nacks stored_locks (p p' : Pulse (NackData := NackData)) clock id st t
    a f interested :
  lock_and_queue rb nacks stored_locks p clock id st t a (Some f) interested ∅ = Ok p' →
  (pulse_tracking p' = pulse_tracking p ∧ to_send p' = to_send p) ∨
  (∃ st', pulse_tracking p' !! id = Some st' ∧ last_send_timestamp st' = Some (read_last clock) ∧
          to_send p' = to_send p ++ [(∅, a); (∅, f)]).
Proof.
  unfold lock_and_queue. intros (ref & _ & Hrest)%outcome_bind_Ok.
  apply outcome_bind_Ok in Hrest as ([locks []] & _ & Hrest); [|left; by apply Ok_inj in Hrest as <-].
  apply outcome_bind_Ok in Hrest as (r & _ & <-%Ok_inj). right. simpl. rewrite lookup_insert_eq.
  eexists. split; [done|]. split; [done|]. f_equal.
Qed.
End resend.

(** ** Evaluation *)
Section send_witnesses.
#[local] Existing Instance LinearBlst.
#[local] Existing Instance serialize_attestation.
#[local] Existing Instance serialize_candidate.
#[local] Existing Instance LinearBlst_laws.
Notation State := (AckiNackiBlockState (H := LinearBlst) unit).

(** Blocks 2 and 3 are candidates of round 0 on one height, below the prefinalized block 1. *)
Definition attest_height : BlockHeight := mkBlockHeight example_thread 7.
Definition attest_parent : State :=
  let s := AckiNackiBlockState_new (example_block 1) in
  let s := with_fact s block_seq_no 6%Z in
  let s := with_fact s descendant_bk_set example_keepers in
  let s := with_fact s block_time_ms 0%Z in
  let s := with_fact s producer_selector_data (mkProducerSelector (example_block 1) 0) in
  with_fact s prefinalized true.
Definition attest_candidate (n : Z) : State :=
  let s := AckiNackiBlockState_new (example_block n) in
  let s := with_fact s block_seq_no 7%Z in
  let s := with_fact s BlockState.block_height attest_height in
  let s := with_fact s block_round 0%Z in
  let s := with_fact s parent_block_identifier (example_block 1) in
  let s := with_fact s bk_set example_keepers in
  let s := with_fact s BlockState.producer (example_node 1) in
  let s := with_fact s BlockState.thread_identifier example_thread in
  let s := with_fact s envelope_hash [9%Z] in
  let s := with_fact s applied true in
  let s := with_fact s applied_start_timestamp 0%Z in
  (try_add_attestations_interest s (example_node 2)).1.
Definition attest_repo : Repository unit :=
  <[example_block 1 := attest_parent]> (<[example_block 2 := attest_candidate 2]>
    {[ example_block 3 := attest_candidate 3 ]}).

Definition attest_service : AttestationSendService (H := LinearBlst) :=
  mkSendService 330000000 3000000000 (example_node 1) {[11%Z := 11%Z]} ∅ 0 0 0.
Definition attest_clock (_ : BlockIdentifier) : Readings :=
  mkReadings 1000000000 1000000000 1000000000 1000000000 1000000000 1000.
Definition attest_candidates : UnfinalizedBlocks (H := LinearBlst) :=
  foldl run UnfinalizedBlocks_default
    [Insert (example_block 2) (example_candidate 2); Insert (example_block 3) (example_candidate 3)].
Definition attest_rounds : RoundTime := mkRoundTime [] 330000000.

Definition attest_run :=
  evaluate (NackData := unit) elements elements map_to_list elements (λ _ l, l) attest_rounds (λ _, ∅)
    (λ _, ∅) attest_service 1 0 1000000000 attest_clock attest_repo ∅ attest_candidates
    CollectedAttestations_default 0.

(** One of the two candidates is attested. *)
Definition attest_summary (o : outcome Empty_set
    (AttestationSendService * Repository unit * gmap ThreadIdentifier ActionLockCollection *
     CollectedAttestations * list (NodeIdentifier * Envelope (H := LinearBlst) AttestationData) * Z)) : bool :=
  match o with
  | Ok (_, _, _, _, sent, _) => bool_decide (sent.*1 = [example_node 2])
  | _ => false
  end.

Lemma attest_repo_get b :
  repo_get attest_repo b =
    if decide (b = example_block 1) then attest_parent
    else if decide (b = example_block 2) then attest_candidate 2
    else if decide (b = example_block 3) then attest_candidate 3 else fresh_state b.
Proof.
  unfold attest_repo. rewrite !repo_get_insert. do 2 (case_decide; [done|]).
  unfold repo_get. case_decide; [subst; by rewrite lookup_singleton_eq|].
  by rewrite lookup_singleton_ne.
Qed.

#[local] Ltac attest_cases :=
  rewrite ?attest_repo_get; repeat case_decide; subst; unfold fresh_state; try case_decide.

Lemma attest_sane : sane_repo (λ _, 0%Z) attest_repo.
Proof.
  split; [intros b; attest_cases; done|].
  intros b rnd. attest_cases; intros Hr; first [discriminate Hr|by injection Hr as <-].
Qed.
Lemma attest_own : own_ok attest_repo.
Proof. intros b a. attest_cases; intros [Ha|Ha]; discriminate Ha. Qed.
Lemma attest_threads : threads_agree attest_repo.
Proof.
  intros b h' t. attest_cases; intros Hh Ht; try discriminate Hh.
  all: injection Hh as <-; by injection Ht as <-.
Qed.
Notation attest_locks := (locks_of (H := LinearBlst) (λ _, ∅) attest_height ∅).
Lemma attest_unlocked : lookup_lock attest_locks attest_height = None.
Proof. unfold locks_of, get_thread_authority, lookup_lock. by rewrite !lookup_empty. Qed.
Lemma attest_stands : lock_stands attest_height attest_locks attest_repo.
Proof. intros l. by rewrite attest_unlocked. Qed.

Definition attest_round_ok : bool :=
  match local_round_at attest_rounds example_keepers 0 1000 with
  | Ok local => bool_decide (0 ≤ round local)%Z
  | _ => false
  end.
Lemma attest_in_time id :
  id ∈ block_id_set attest_candidates → in_time attest_rounds attest_repo (read_wall_ms (attest_clock id)) id.
Proof.
  intros _ rnd parent keepers t local. rewrite (attest_repo_get id).
  assert (Hok : attest_round_ok = true) by (vm_compute; reflexivity).
  repeat case_decide; subst; unfold fresh_state; try case_decide; intros Hr; try discriminate Hr.
  all: injection Hr as <-; intros Hp; injection Hp as <-; rewrite attest_repo_get, decide_True by done.
  all: intros Hk; injection Hk as <-; intros Ht; injection Ht as <-; intros Hl.
  all: unfold attest_round_ok in Hok; simpl in Hl; rewrite Hl in Hok; by apply bool_decide_eq_true in Hok.
Qed.

(** The history of the height starts here: no proposed block is decoded. *)
#[local] Instance attest_deserialize : Deserialize (Envelope AckiNackiBlock) := λ _, None.

(** Of the two candidates of the same round only one is attested. *)
Lemma sent_attestations_follow_locks_witness :
  ∃ v r authorities pool sent deadline,
    attest_run = Ok (v, r, authorities, pool, sent, deadline) ∧ sent.*1 = [example_node 2] ∧
    ∃ blocks,
      (∀ a, a ∈ sent.*2 →
         get (repo_get attest_repo (att_block_id (data a))) BlockState.block_height = Some attest_height →
         unsettled attest_repo (att_block_id (data a)) → att_block_id (data a) ∈ blocks) ∧
      (∀ b1 b2, b1 ∈ blocks ++ [] → b2 ∈ blocks ++ [] → b1 = b2).
Proof.
  assert (Hok : attest_summary attest_run = true) by (vm_compute; reflexivity).
  destruct attest_run as [[[[[[v r] authorities] pool] sent] deadline]| |] eqn:Hrun; [|discriminate Hok..].
  exists v, r, authorities, pool, sent, deadline. split; [reflexivity|].
  apply bool_decide_eq_true in Hok. split; [exact Hok|].
  destruct (sent_attestations_follow_locks elements (λ X, reflexivity _) elements map_to_list elements
    (λ _ l, l) attest_rounds (λ _, ∅) (λ _, ∅) (λ _, 0%Z) attest_height attest_locks []
    attest_service 1 0 1000000000 attest_clock attest_repo ∅ attest_candidates
    CollectedAttestations_default 0 v r authorities pool sent deadline
    attest_unlocked (rtc_refl _ _) attest_sane attest_own attest_threads attest_stands
    attest_in_time Hrun)
    as (blocks & looped & _ & _ & Hsent & Huniq).
  exists blocks. split.
  - intros a Ha. apply Hsent. apply elem_of_app. left. exact Ha.
  - intros b1 b2 H1 H2. exact (Huniq b1 b2 H1 H2 eq_refl).
Defined.

Definition attest_made : option (Envelope (H := LinearBlst) AttestationData) :=
  generate_attestation (NackData := unit) attest_service (repo_get attest_repo (example_block 2)) Primary.

Lemma own_attestation_accepted_witness :
  ∃ a, attest_made = Some a ∧
    check_attestation attest_repo ∅ ∅ a = Ok Verified ∧ att_block_id (data a) = example_block 2.
Proof.
  destruct attest_made as [a|] eqn:Hmade; [|vm_compute in Hmade; discriminate Hmade].
  exists a. split; [reflexivity|].
  destruct (own_attestation_accepted attest_service attest_repo attest_repo (example_block 2) Primary a
    example_keepers (example_keeper 1 11 5) ∅ ∅) as (Hid & _ & _ & _ & Hck).
  - vm_compute. reflexivity.
  - vm_compute. reflexivity.
  - exact example_keepers_wf.
  - vm_compute. reflexivity.
  - vm_compute. reflexivity.
  - intros pk secret Hpk. simpl in Hpk. apply lookup_singleton_Some in Hpk as [<- <-]. reflexivity.
  - reflexivity.
  - reflexivity.
  - vm_compute. reflexivity.
  - set_solver.
  - set_solver.
  - exact Hmade.
  - split; [exact Hck|exact Hid].
Defined.
End send_witnesses.
