(* ===== verification/AuthoritySwitch.v ===== *)
(** * AuthoritySwitch: the services around the thread authority.

    [protocol/authority_switch/chain_pulse_monitor.rs] watches when a thread last made
    progress and asks its authority for a new round when a deadline passes;
    [node/services/authority_switch/mod.rs] handles the messages of the switch protocol, with
    the rest of [network_message.rs] and [block_processor/chain_pulse/events.rs].

    An [Instant] is a number of nanoseconds.  The readings of the clock that a call of the
    authority takes are a [Moment]; the last finalized block of the thread is part of it, since
    the repository is asked for it during the call.  What a service sends is a list of [Out]s;
    a send that must succeed panics otherwise, unless the node shuts down.  The descent of
    [on_block_producer_stalled] has [fuel]; without enough of it the call does not return, which
    is a panic here. *)
From stdpp Require Import base numbers gmap strings fin_maps sorting list.
From S2P Require Import Prelude Identifiers Bls BlockKeepers Envelope Attestation Checkpoints Statistics BlockState RoundTime ActionLock NextRound BlockProcessor.

Record Moment := mkMoment {
  at_wall_ms : Z;
  at_wall_ms_of : BlockIdentifier → Z;
  at_instant : Z;
  at_last_finalized : outcome unit (option BlockIdentifier);
  at_request_wall_ms : Z;
}.

Section authority_calls.
Context `{Blst} {NackData : Type} `{EqDecision NackData}.
Context `{Serialize Lock} `{Serialize NextRoundSuccess} `{Serialize (Envelope AckiNackiBlock)}.
Notation Repo := (Repository NackData).
Variable iter_order : gset NodeIdentifier → list NodeIdentifier.
Variable shuffle : list Z → list NodeIdentifier → list NodeIdentifier.
Variable set_iter : gset BlockIdentifier → list BlockIdentifier.
Variable get_finalized_block : BlockIdentifier → outcome unit (option (Envelope AckiNackiBlock)).
Variable fuel : nat.

(** [on_block_producer_stalled] and, when it starts a round, the node's own request, for which
    the candidates of the thread must be known; every caller drops the result of the request,
    except for the producer it may start. *)
Definition stalled_and_request (cfg : AuthorityConfig)
    (candidates : option (BlockIdentifier → option (Envelope AckiNackiBlock)))
    (a : ThreadAuthority) (r : Repo) (m : Moment) :
    outcome Empty_set (ThreadAuthority * OnBlockProducerStalledResult * list Sent *
                       option OnNextRoundIncomingRequestResult) :=
  default Panic (on_block_producer_stalled iter_order shuffle set_iter cfg fuel a r (at_wall_ms m)
    (at_wall_ms_of m) (at_instant m) (at_last_finalized m)) ≫= λ '(a, result, sent),
  match next_round result with
  | None => Ok (a, result, sent, None)
  | Some request =>
      unwrap candidates ≫= λ get_block_by_id,
      on_next_round_incoming_request set_iter cfg get_block_by_id get_finalized_block a r
        (at_request_wall_ms m) request ≫= λ '(a, answer), Ok (a, result, sent, Some answer)
  end.
End authority_calls.

(** ** The chain pulse monitor *)
Record Deadline := mkDeadline {
  deadline_block_height : option BlockHeight;
  deadline_timestamp : Z;
}.

(** [entry(..).and_modify(..).or_insert(..)] *)
Definition move_deadline (deadlines : gmap ThreadIdentifier Deadline) (t : ThreadIdentifier)
    (next : Deadline) : gmap ThreadIdentifier Deadline :=
  match deadlines !! t with
  | None => <[t := next]> deadlines
  | Some e =>
      if (bool_decide (deadline_block_height next ≠ deadline_block_height e) &&
          bool_decide (is_Some (deadline_block_height next)))
         || bool_decide (deadline_timestamp e < deadline_timestamp next)%Z
      then <[t := next]> deadlines else deadlines
  end.

(** The deadline with the smallest time stamp, the first of them in the visiting order. *)
Definition earlier (m : option Deadline) (value : Deadline) : option Deadline :=
  match m with
  | Some d => if bool_decide (deadline_timestamp value < deadline_timestamp d)%Z then Some value else m
  | None => Some value
  end.

Section monitor.
Context `{Blst} {NackData : Type} `{EqDecision NackData}.
Context `{Serialize Lock} `{Serialize NextRoundSuccess} `{Serialize (Envelope AckiNackiBlock)}.
Notation Repo := (Repository NackData).

(** The blocks a thread knows, as the event that starts the thread brings them. *)
Variable Candidates : Type.

Inductive ChainPulseEvent :=
  | BlockFinalized (t : ThreadIdentifier) (h : option BlockHeight)
  | BlockPrefinalized (t : ThreadIdentifier) (h : option BlockHeight)
  | BlockApplied (t : ThreadIdentifier) (h : option BlockHeight)
  | StartThread (t : ThreadIdentifier) (block_candidates : Candidates).

Record ChainPulseMonitor := mkMonitor {
  deadlines : gmap ThreadIdentifier Deadline;
  block_collections : gmap ThreadIdentifier Candidates;
  stalled_threads : list ThreadIdentifier;
  authorities : gmap ThreadIdentifier ThreadAuthority;
}.

Variable thread_iter : gset ThreadIdentifier → list ThreadIdentifier.
Variable new_authority : ThreadIdentifier → ThreadAuthority.
Variable iter_order : gset NodeIdentifier → list NodeIdentifier.
Variable shuffle : list Z → list NodeIdentifier → list NodeIdentifier.
Variable set_iter : gset BlockIdentifier → list BlockIdentifier.
Variable cfg : ThreadIdentifier → AuthorityConfig.
Variable candidate_by_id : Candidates → BlockIdentifier → option (Envelope AckiNackiBlock).
Variable get_finalized_block : BlockIdentifier → outcome unit (option (Envelope AckiNackiBlock)).
Variable fuel : nat.

Definition next_deadline_of (s : ChainPulseMonitor) : option Deadline :=
  foldl earlier None (omap (λ t, deadlines s !! t) (thread_iter (dom (deadlines s)))).

Definition thread_authority (s : ChainPulseMonitor) (t : ThreadIdentifier) : ThreadAuthority :=
  default (new_authority t) (authorities s !! t).

(** *** An event *)
Definition on_event (now : Z) (s : ChainPulseMonitor) (e : ChainPulseEvent) : ChainPulseMonitor :=
  let move t h collections :=
    mkMonitor (move_deadline (deadlines s) t (mkDeadline h (now + 2 * 330000000)))
      collections (stalled_threads s) (authorities s) in
  match e with
  | BlockFinalized t h | BlockPrefinalized t h | BlockApplied t h => move t h (block_collections s)
  | StartThread t candidates => move t None (<[t := candidates]> (block_collections s))
  end.

(** *** A timeout *)
Definition has_expired (s : ChainPulseMonitor) (now : Z) (t : ThreadIdentifier) : bool :=
  match deadlines s !! t with
  | Some d => bool_decide (deadline_timestamp d ≤ now)%Z
  | None => false
  end.
Definition expired (s : ChainPulseMonitor) (now : Z) : list ThreadIdentifier :=
  filter (λ t, has_expired s now t = true) (thread_iter (dom (deadlines s))).

(** The call of the authority of one stalled thread; [expect("Unexpected stalled thread")] when
    a round is started and the candidates of the thread are unknown. *)
Definition call_authority (r : Repo) (moment : ThreadIdentifier → Moment) (s : ChainPulseMonitor)
    (t : ThreadIdentifier) : outcome Empty_set (ThreadAuthority * OnBlockProducerStalledResult * list Sent *
                                                option OnNextRoundIncomingRequestResult) :=
  stalled_and_request iter_order shuffle set_iter get_finalized_block fuel (cfg t)
    (candidate_by_id <$> block_collections s !! t) (thread_authority s t) r (moment t).

Definition on_stalled (r : Repo) (moment : ThreadIdentifier → Moment) (s : ChainPulseMonitor)
    (t : ThreadIdentifier) : outcome Empty_set ChainPulseMonitor :=
  call_authority r moment s t ≫= λ '(a, result, _, _),
  Ok (mkMonitor
        (<[t := mkDeadline (stalled_block_height result)
                  (at_instant (moment t) + next_deadline result)]> (deadlines s))
        (block_collections s) (stalled_threads s) (<[t := a]> (authorities s))).

Definition on_timeout (r : Repo) (moment : ThreadIdentifier → Moment) (now : Z)
    (s : ChainPulseMonitor) : outcome Empty_set ChainPulseMonitor :=
  let stalled := expired s now in
  fold_outcome (on_stalled r moment)
    (mkMonitor (deadlines s) (block_collections s) stalled (authorities s)) stalled.
End monitor.

(** ** The service *)
Record NextRoundFailed `{Blst} := mkNextRoundFailed {
  failed_node_identifier : NodeIdentifier;
  failed_round : BlockRound;
  failed_block_height : BlockHeight;
  failed_proposed_block : NetBlock;
  failed_attestations_aggregated : option (Envelope AttestationData);
  failed_requests_aggregated : list (Envelope Lock);
}.

Inductive AuthoritySwitch `{Blst} :=
  | SwitchRequest (m : NextRound)
  | SwitchReject (m : NextRoundReject)
  | SwitchRejectTooOld (t : ThreadIdentifier)
  | Switched (m : Envelope NextRoundSuccess)
  | SwitchFailed (m : Envelope NextRoundFailed).

(** What the service sends: to the node itself, to all nodes, to one node, and to the chain
    pulse monitor; the last two are what the authority sends. *)
Inductive Out `{Blst} :=
  | SelfAttestation (e : Envelope AttestationData)
  | SelfCandidate (b : NetBlock)
  | SelfStartSynchronization
  | BroadcastSwitched (e : Envelope NextRoundSuccess)
  | DirectReject (to : NodeIdentifier) (e : NextRoundReject)
  | DirectRejectTooOld (to : NodeIdentifier) (t : ThreadIdentifier)
  | PulsePrefinalized (t : ThreadIdentifier) (h : option BlockHeight)
  | StartProducer (command : StartBlockProducerThreadInitialParameters)
  | FromAuthority (s : Sent).

Inductive ServiceError := BadEnvelope.

Section service.
Context `{Blst} {NackData : Type} `{EqDecision NackData}.
Context `{Serialize Lock} `{Serialize NextRoundSuccess} `{Serialize (Envelope AckiNackiBlock)}.
Context `{Serialize AckiNackiBlock} `{Deserialize (Envelope AckiNackiBlock)}.
Notation Repo := (Repository NackData).
Notation result A := (outcome ServiceError A).

Record SwitchService := mkSwitch {
  sw_authority : ThreadAuthority;
  sw_states : Repo;
  last_state_sync_executed : Z;
}.
Definition with_both (w : SwitchService) (a : ThreadAuthority) (r : Repo) : SwitchService :=
  mkSwitch a r (last_state_sync_executed w).

Variable iter_order : gset NodeIdentifier → list NodeIdentifier.
Variable shuffle : list Z → list NodeIdentifier → list NodeIdentifier.
Variable set_iter : gset BlockIdentifier → list BlockIdentifier.
Variable cfg : AuthorityConfig.
Variable get_block_by_id : BlockIdentifier → option (Envelope AckiNackiBlock).
Variable get_finalized_block : BlockIdentifier → outcome unit (option (Envelope AckiNackiBlock)).
Variable fuel : nat.
Variable service_thread_id : ThreadIdentifier.
Variable sync_timeout_duration : Z.
(** Whether the broadcast and the direct channel take a message. *)
Variables broadcast_ok direct_ok : bool.

(** The authority is asked for a new round. *)
Definition ask_next_round (w : SwitchService) (m : Moment) : result (SwitchService * list Out) :=
  unwrap_ok (stalled_and_request iter_order shuffle set_iter get_finalized_block fuel cfg
    (Some get_block_by_id) (sw_authority w) (sw_states w) m) ≫= λ '(a, _, sent, answer),
  Ok (with_both w a (sw_states w),
      (FromAuthority <$> sent) ++
      match answer with
      | Some (StartingBlockProducer command) => [StartProducer command]
      | _ => []
      end).

(** [verify_signatures] that answers [true]. *)
Definition verified {A} `{Serialize A} (e : Envelope A) (keepers : BlockKeeperSet) : result bool :=
  match Envelope_verify_signatures e (BlockKeeperSet_get_pubkeys_by_signers keepers) with
  | Ok valid => Ok valid
  | Err _ => Ok false
  | Panic => Panic
  end.

(** The block an aggregated attestation is for becomes prefinalized when the attestation lists
    enough signers; [None] when the target of the block is not known. *)
Definition prefinalize_by_count (r : Repo) (attestation : Envelope AttestationData)
    (required : AttestationTargets → nat) : option (Repo * bool) :=
  let id := att_block_id (data attestation) in
  match get (repo_get r id) attestation_target with
  | None => None
  | Some target =>
      if bool_decide (required target ≤ size (dom (Envelope_clone_signature_occurrences attestation)))
      then Some (repo_update r id (λ e, set_prefinalized e attestation), true)
      else Some (r, false)
  end.

(** *** A successful round *)
Definition on_authority_switch_success (w : SwitchService) (m : NextRoundSuccess) (at_stalled : Moment) :
    result (SwitchService * list Out) :=
  let proposed := success_proposed_block m in
  let outs := [SelfCandidate proposed] in
  (match success_attestations_aggregated m with
   | None => Ok (Some (sw_states w, []))
   | Some attestation =>
       match prefinalize_by_count (sw_states w) attestation
               (λ target, target_required_count (fallback_target target)) with
       | None => Ok None
       | Some (r, true) =>
           ok_or (NetBlock_get_envelope proposed) BadEnvelope ≫= λ block,
           Ok (Some (r, [PulsePrefinalized (blk_thread_id (data block)) (Some (blk_height (data block)));
                         SelfAttestation attestation]))
       | Some (r, false) => Ok (Some (r, [SelfAttestation attestation]))
       end
   end) ≫= λ counted_target,
  match counted_target with
  | None => Ok (w, outs)
  | Some (r, outs1) =>
      unwrap_ok (on_next_round_success set_iter (sw_authority w) r m) ≫= λ '(a, r),
      let w := with_both w a r in
      unwrap (NetBlock_get_envelope proposed) ≫= λ block,
      if bool_decide (blk_round (data block) ≠ success_round m) then
        ask_next_round w at_stalled ≫= λ '(w, outs2), Ok (w, outs ++ outs1 ++ outs2)
      else Ok (w, outs ++ outs1)
  end.

(** *** The messages *)
Definition on_request (w : SwitchService) (m : NextRound) (now : Z) (at_stalled : Moment) :
    result (SwitchService * list Out) :=
  let outs := SelfAttestation <$> (option_list (locked_block_attestation m) ++ attestations_for_ancestors m) in
  unwrap_ok (on_next_round_incoming_request set_iter cfg get_block_by_id get_finalized_block
    (sw_authority w) (sw_states w) now m) ≫= λ '(a, action),
  let w := with_both w a (sw_states w) in
  match action with
  | DoNothing => Ok (w, outs)
  | StartingBlockProducer command => Ok (w, outs ++ [StartProducer command])
  | Broadcast e =>
      assert_that (broadcast_ok || shutdown_flag cfg) ≫= λ _,
      on_authority_switch_success w (data e) at_stalled ≫= λ '(w, outs1),
      Ok (w, outs ++ BroadcastSwitched e :: outs1)
  | Reject e source =>
      assert_that (direct_ok || shutdown_flag cfg) ≫= λ _, Ok (w, outs ++ [DirectReject source e])
  | RejectTooOldRequest source =>
      assert_that (direct_ok || shutdown_flag cfg) ≫= λ _,
      Ok (w, outs ++ [DirectRejectTooOld source service_thread_id])
  end.

(** The consistency check of a [Switched] message: its only signer is the node it names. *)
Definition signed_by_named_node (m : Envelope NextRoundSuccess) (keepers : BlockKeeperSet) : bool :=
  match BlockKeeperSet_get_by_node_id keepers (success_node_identifier (data m)) with
  | None => false
  | Some k =>
      bool_decide (dom (Envelope_clone_signature_occurrences m) = {[signer_index k]})
  end.

Definition on_switched (w : SwitchService) (m : Envelope NextRoundSuccess) (at_stalled : Moment) :
    result (SwitchService * list Out) :=
  match NetBlock_get_envelope (success_proposed_block (data m)) with
  | None => Ok (w, [])
  | Some proposed_block =>
      match get (repo_get (sw_states w) (blk_parent (data proposed_block))) descendant_bk_set with
      | None => Ok (w, [])
      | Some keepers =>
          verified m keepers ≫= λ valid,
          if valid && signed_by_named_node m keepers
          then on_authority_switch_success w (data m) at_stalled
          else Ok (w, [])
      end
  end.

Definition on_reject (w : SwitchService) (m : NextRoundReject) (at_stalled : Moment) :
    result (SwitchService * list Out) :=
  let net_block := reject_prefinalized_block m in
  match NetBlock_get_envelope net_block with
  | None => Ok (w, [])
  | Some block =>
      let id := blk_identifier (data block) in
      if is_prefinalized (repo_get (sw_states w) id) then Ok (w, [])
      else
        match get (repo_get (sw_states w) (blk_parent (data block))) descendant_bk_set with
        | None => Ok (w, [])
        | Some keepers =>
            verified block keepers ≫= λ valid,
            if negb valid then Ok (w, [])
            else
              let outs := [SelfCandidate net_block] in
              let attestations := reject_proof_of_prefinalization m in
              if bool_decide (att_block_id (data attestations) ≠ id) then Ok (w, outs)
              else
                unwrap_ok (generated_setter (repo_get (sw_states w) id) block_round (blk_round (data block)))
                ≫= λ s,
                let w := with_both w (sw_authority w) (<[id := s]> (sw_states w)) in
                match prefinalize_by_count (sw_states w) attestations
                        (λ target, match att_target_type (data attestations) with
                                   | Primary => target_required_count (primary_target target)
                                   | Fallback => target_required_count (fallback_target target)
                                   end) with
                | None => Ok (w, outs)
                | Some (r, enough_signers) =>
                    let w := with_both w (sw_authority w) r in
                    let outs := outs ++
                      (if enough_signers : bool
                       then [PulsePrefinalized (reject_thread_identifier m) (Some (blk_height (data block)))]
                       else []) ++ [SelfAttestation attestations] in
                    ask_next_round w at_stalled ≫= λ '(w, outs2), Ok (w, outs ++ outs2)
                end
        end
  end.

(** [Instant::elapsed] saturates at zero. *)
Definition on_reject_too_old (w : SwitchService) (elapsed_at now : Z) : result (SwitchService * list Out) :=
  if bool_decide (sync_timeout_duration < Z.max 0 (elapsed_at - last_state_sync_executed w))%Z
  then Ok (mkSwitch (sw_authority w) (sw_states w) now, [SelfStartSynchronization])
  else Ok (w, []).

Definition on_failed (w : SwitchService) (m : NextRoundFailed) : result (SwitchService * list Out) :=
  Ok (w, SelfCandidate (failed_proposed_block m) ::
         (SelfAttestation <$> option_list (failed_attestations_aggregated m))).

(** One message of the loop of [run]. *)
Definition handle_message (w : SwitchService) (elapsed_at now : Z) (request_now : Z)
    (at_stalled : Moment) (m : AuthoritySwitch) : result (SwitchService * list Out) :=
  match m with
  | SwitchRequest m => on_request w m request_now at_stalled
  | Switched m => on_switched w m at_stalled
  | SwitchReject m => on_reject w m at_stalled
  | SwitchRejectTooOld _ => on_reject_too_old w elapsed_at now
  | SwitchFailed m => on_failed w (data m)
  end.
End service.

(** ** Progress and stalls *)
Section monitor_theorems.
Context `{Blst} {NackData : Type} `{EqDecision NackData}.
Context `{Serialize Lock} `{Serialize NextRoundSuccess} `{Serialize (Envelope AckiNackiBlock)}.
Context {Candidates : Type}.
Variable thread_iter : gset ThreadIdentifier → list ThreadIdentifier.
Hypothesis thread_iter_elements : ∀ X, thread_iter X ≡ₚ elements X.
Variable new_authority : ThreadIdentifier → ThreadAuthority.
Variable iter_order : gset NodeIdentifier → list NodeIdentifier.
Variable shuffle : list Z → list NodeIdentifier → list NodeIdentifier.
Variable set_iter : gset BlockIdentifier → list BlockIdentifier.
Variable cfg : ThreadIdentifier → AuthorityConfig.
Variable candidate_by_id : Candidates → BlockIdentifier → option (Envelope AckiNackiBlock).
Variable get_finalized_block : BlockIdentifier → outcome unit (option (Envelope AckiNackiBlock)).
Variable fuel : nat.
Implicit Types (s : ChainPulseMonitor Candidates) (t : ThreadIdentifier) (r : Repository NackData).
Implicit Types (now : Z) (moment : ThreadIdentifier → Moment).

Notation timeout :=
  (on_timeout Candidates thread_iter new_authority iter_order shuffle set_iter cfg candidate_by_id
     get_finalized_block fuel).
Notation call :=
  (call_authority Candidates new_authority iter_order shuffle set_iter cfg candidate_by_id
     get_finalized_block fuel).

Lemma elem_of_expired s now t :
  t ∈ expired Candidates thread_iter s now ↔ has_expired Candidates s now t = true.
Proof.
  unfold expired. rewrite list_elem_of_filter, thread_iter_elements, elem_of_elements, elem_of_dom.
  split; [tauto|]. intros Ht. split; [done|]. revert Ht. unfold has_expired.
  by destruct (deadlines _ s !! t).
Qed.

Lemma expired_NoDup s now : NoDup (expired Candidates thread_iter s now).
Proof. apply NoDup_filter. rewrite thread_iter_elements. apply NoDup_elements. Qed.

(** What a timeout leaves for a thread that is (or is not) stalled. *)
Definition after_timeout r moment s s' t (stalled : bool) : Prop :=
  if stalled then
    ∃ a result sent answer, call r moment s t = Ok (a, result, sent, answer) ∧
      deadlines _ s' !! t = Some (mkDeadline (stalled_block_height result)
                                    (at_instant (moment t) + next_deadline result)) ∧
      authorities _ s' !! t = Some a
  else deadlines _ s' !! t = deadlines _ s !! t ∧ authorities _ s' !! t = authorities _ s !! t.

Lemma call_same r moment s s' t :
  block_collections _ s' = block_collections _ s → authorities _ s' !! t = authorities _ s !! t →
  call r moment s' t = call r moment s t.
Proof. intros Hb Ha. unfold call_authority, thread_authority. by rewrite Hb, Ha. Qed.

Lemma on_stalled_fold r moment s0 l s :
  NoDup l → block_collections _ s = block_collections _ s0 →
  (∀ t, t ∈ l → authorities _ s !! t = authorities _ s0 !! t) →
  (∀ s', fold_outcome (on_stalled Candidates new_authority iter_order shuffle set_iter cfg candidate_by_id
            get_finalized_block fuel r moment) s l = Ok s' →
     block_collections _ s' = block_collections _ s0 ∧ stalled_threads _ s' = stalled_threads _ s ∧
     (∀ t, t ∈ l → after_timeout r moment s0 s' t true) ∧
     (∀ t, t ∉ l → deadlines _ s' !! t = deadlines _ s !! t ∧ authorities _ s' !! t = authorities _ s !! t)) ∧
  ((∀ t, t ∈ l → is_ok (call r moment s0 t) = true) →
   ∃ s', fold_outcome (on_stalled Candidates new_authority iter_order shuffle set_iter cfg candidate_by_id
            get_finalized_block fuel r moment) s l = Ok s').
Proof.
  revert s. induction l as [|t l IH]; intros s Hnd Hb Ha.
  { simpl. split; [|eauto]. intros s' <-%Ok_inj. split_and!; try done. intros t Ht. by apply elem_of_nil in Ht. }
  apply NoDup_cons in Hnd as [Hnt Hnd].
  assert (Hcall : call r moment s t = call r moment s0 t) by (apply call_same; [done|apply Ha; left]).
  set (step := on_stalled _ _ _ _ _ _ _ _ _ _ _) in *. cbn [fold_outcome].
  assert (Hstep : step s t = call r moment s0 t ≫= λ '(a, result, _, _),
    Ok (mkMonitor _ (<[t := mkDeadline (stalled_block_height result)
                        (at_instant (moment t) + next_deadline result)]> (deadlines _ s))
          (block_collections _ s) (stalled_threads _ s) (<[t := a]> (authorities _ s))))
    by (unfold step, on_stalled; by rewrite Hcall).
  rewrite Hstep. clear Hstep.
  destruct (call r moment s0 t) as [[[[a result] sent] answer]| |] eqn:Hc; cbn -[fold_outcome].
  2,3: split; [done|]; intros Hall; specialize (Hall t (list_elem_of_here _ _)); by rewrite Hc in Hall.
  set (s1 := mkMonitor _ _ _ _ _).
  destruct (IH s1) as [Hok Hex]; [done|done| |].
  { intros t' Ht'. unfold s1. simpl. rewrite lookup_insert_ne by (intros ->; done). apply Ha. by right. }
  split.
  - intros s' Hs'. destruct (Hok s' Hs') as (Hb' & Hst & Hin & Hout). split_and!; [done|done| |].
    + intros t' [->|Ht']%elem_of_cons; [|by apply Hin]. exists a, result, sent, answer.
      destruct (Hout t Hnt) as [-> ->]. unfold s1. simpl. by rewrite !lookup_insert_eq.
    + intros t' [Hne Hnl]%not_elem_of_cons. destruct (Hout t' Hnl) as [-> ->]. unfold s1. simpl.
      by rewrite !lookup_insert_ne by done.
  - intros Hall. apply Hex. intros t' Ht'. apply Hall. by right.
Qed.

Lemma timeout_spec r moment now s :
  (∀ s', timeout r moment now s = Ok s' →
     (∀ t, t ∈ stalled_threads _ s' ↔ has_expired _ s now t = true) ∧
     (∀ t, after_timeout r moment s s' t (has_expired _ s now t))) ∧
  ((∀ t, has_expired _ s now t = true → is_ok (call r moment s t) = true) →
   ∃ s', timeout r moment now s = Ok s').
Proof.
  unfold on_timeout. set (s1 := mkMonitor _ _ _ _ _).
  destruct (on_stalled_fold r moment s (expired Candidates thread_iter s now) s1) as [Hok Hex];
    [apply expired_NoDup|done|done|].
  split.
  - intros s' Hs'. destruct (Hok s' Hs') as (_ & Hst & Hin & Hout).
    split; [intros t; rewrite Hst; apply elem_of_expired|].
    intros t. destruct (has_expired _ s now t) eqn:Ht; [apply Hin; by apply elem_of_expired|].
    apply (Hout t). rewrite elem_of_expired. by rewrite Ht.
  - intros Hall. apply Hex. intros t Ht. apply Hall. by apply elem_of_expired.
Qed.

(** The chain pulse monitor, timeouts: when the monitor times out it finds exactly the
    threads whose deadline has passed; it fails only if the call of the authority of one of
    them does, it calls every one of these authorities once, with the state it was left in,
    stores the deadline the authority asks for, and leaves all other threads alone. *)
Theorem timeout_calls_expired r moment now s :
  (∀ s', timeout r moment now s = Ok s' →
     (∀ t, t ∈ stalled_threads _ s' ↔ has_expired _ s now t = true) ∧
     (∀ t, after_timeout r moment s s' t (has_expired _ s now t))) ∧
  ((∀ t, has_expired _ s now t = true → is_ok (call r moment s t) = true) →
   ∃ s', timeout r moment now s = Ok s').
Proof. exact (timeout_spec r moment now s). Qed.

(** *** A thread that makes progress is not stalled *)
Inductive monitor_step now : ChainPulseMonitor Candidates → ChainPulseMonitor Candidates → Prop :=
  | monitor_event s e : monitor_step now s (on_event Candidates now s e)
  | monitor_timeout r moment s s' : timeout r moment now s = Ok s' → monitor_step now s s'.

(** Steps at times that do not decrease, from the first time to the last. *)
Inductive monitor_run : Z → ChainPulseMonitor Candidates → Z → ChainPulseMonitor Candidates → Prop :=
  | run_end now s : monitor_run now s now s
  | run_more now0 s0 now1 s1 now2 s2 :
      (now0 ≤ now1)%Z → monitor_step now1 s0 s1 → monitor_run now1 s1 now2 s2 →
      monitor_run now0 s0 now2 s2.

Definition deadline_from (limit : Z) s t : Prop :=
  ∃ d, deadlines _ s !! t = Some d ∧ (limit ≤ deadline_timestamp d)%Z.

Lemma move_deadline_from limit (ds : gmap ThreadIdentifier Deadline) t t' next :
  (limit ≤ deadline_timestamp next)%Z →
  t' = t ∨ (∃ d, ds !! t = Some d ∧ (limit ≤ deadline_timestamp d)%Z) →
  ∃ d, move_deadline ds t' next !! t = Some d ∧ (limit ≤ deadline_timestamp d)%Z.
Proof.
  intros Hn Ht. unfold move_deadline. destruct (decide (t' = t)) as [->|Hne].
  - destruct (ds !! t) as [e|] eqn:He; [|rewrite lookup_insert_eq; eauto].
    destruct (_ || _) eqn:Hb; [rewrite lookup_insert_eq; eauto|].
    apply orb_false_iff in Hb as [_ Hb%bool_decide_eq_false]. exists e. split; [done|lia].
  - destruct Ht as [|Ht]; [done|]. repeat case_match; by rewrite ?lookup_insert_ne.
Qed.

Definition event_thread (e : ChainPulseEvent Candidates) : ThreadIdentifier :=
  match e with
  | BlockFinalized _ t _ | BlockPrefinalized _ t _ | BlockApplied _ t _ | StartThread _ t _ => t
  end.

Lemma on_event_from limit now s e t :
  (limit ≤ now + 660000000)%Z → event_thread e = t ∨ deadline_from limit s t →
  deadline_from limit (on_event Candidates now s e) t.
Proof.
  intros Hl Ht. unfold deadline_from. destruct e; simpl; apply move_deadline_from; simpl; (lia || done).
Qed.

Lemma on_event_authorities now s e : authorities _ (on_event Candidates now s e) = authorities _ s.
Proof. by destruct e. Qed.

Lemma not_expired limit s now t :
  deadline_from limit s t → (now < limit)%Z → has_expired _ s now t = false.
Proof.
  intros (d & Hd & Hl) Hn. unfold has_expired. rewrite Hd. apply bool_decide_eq_false_2. lia.
Qed.

Lemma run_times now0 s0 now s : monitor_run now0 s0 now s → (now0 ≤ now)%Z.
Proof. induction 1; lia. Qed.

(** C27 (the chain pulse monitor, progress): after an event of a thread (a block of it was
    applied, prefinalized or finalized, or the thread was started), along any sequence of
    further events and timeouts, the thread is not taken for stalled and its authority is not
    called before two block times (660 ms) have passed. *)
Theorem progress_is_not_stalled limit now0 s e now s' :
  monitor_run now0 (on_event _ now0 s e) now s' →
  limit = (now0 + 660000000)%Z → (now < limit)%Z →
  event_thread e ∉ expired Candidates thread_iter s' now ∧
  authorities _ s' !! event_thread e = authorities _ s !! event_thread e.
Proof.
  intros Hrun Hlimit Hnow. set (t := event_thread e).
  assert (deadline_from limit s' t ∧ authorities _ s' !! t = authorities _ (on_event _ now0 s e) !! t) as [Hd Ha].
  { assert (deadline_from limit (on_event _ now0 s e) t) as Hd0 by (apply on_event_from; [lia|by left]).
    revert Hd0. assert (Hstart : (limit ≤ now0 + 660000000)%Z) by lia. revert Hstart. clear Hlimit.
    induction Hrun as [now s1|now0 s0 now1 s1 now2 s2 Hle Hstep Hrun IH]; intros Hstart Hd0; [done|].
    pose proof (run_times _ _ _ _ Hrun) as Hle2.
    destruct Hstep as [s0 e'|r moment s0 s1 Hto].
    - destruct IH as [Hd Ha]; [done|lia|apply on_event_from; [lia|by right]|].
      split; [done|]. by rewrite Ha, on_event_authorities.
    - destruct (timeout_spec r moment now1 s0) as [Hok _].
      destruct (Hok _ Hto) as [_ Hafter]. specialize (Hafter t).
      rewrite (not_expired limit) in Hafter by (done || lia). destruct Hafter as [Hsame Hauth].
      destruct IH as [Hd Ha]; [done|lia| |].
      + unfold deadline_from. by rewrite Hsame.
      + split; [done|]. by rewrite Ha. }
  split.
  - rewrite elem_of_expired, (not_expired limit) by done. done.
  - by rewrite Ha, on_event_authorities.
Qed.
End monitor_theorems.

(** ** What a message can prefinalize *)
Section service_theorems.
Context `{Blst} {NackData : Type} `{EqDecision NackData}.
Context `{Serialize Lock} `{Serialize NextRoundSuccess} `{Serialize (Envelope AckiNackiBlock)}.
Context `{Serialize AckiNackiBlock} `{Deserialize (Envelope AckiNackiBlock)}.
Variable iter_order : gset NodeIdentifier → list NodeIdentifier.
Variable shuffle : list Z → list NodeIdentifier → list NodeIdentifier.
Variable set_iter : gset BlockIdentifier → list BlockIdentifier.
Variable cfg : AuthorityConfig.
Variable get_block_by_id : BlockIdentifier → option (Envelope AckiNackiBlock).
Variable get_finalized_block : BlockIdentifier → outcome unit (option (Envelope AckiNackiBlock)).
Variable fuel : nat.
Variable service_thread_id : ThreadIdentifier.
Variable sync_timeout_duration : Z.
Variables broadcast_ok direct_ok : bool.
Implicit Types (w : SwitchService (NackData := NackData)) (r : Repository NackData) (b : BlockIdentifier).

Notation ask :=
  (ask_next_round iter_order shuffle set_iter cfg get_block_by_id get_finalized_block fuel).
Notation success :=
  (on_authority_switch_success iter_order shuffle set_iter cfg get_block_by_id get_finalized_block fuel).
Notation handle :=
  (handle_message iter_order shuffle set_iter cfg get_block_by_id get_finalized_block fuel
     service_thread_id sync_timeout_duration broadcast_ok direct_ok).

(** The same blocks are prefinalized, with the same proofs. *)
Definition same_prefinalized r r' : Prop := ∀ b,
  get (repo_get r' b) prefinalized = get (repo_get r b) prefinalized ∧
  get (repo_get r' b) prefinalization_proof = get (repo_get r b) prefinalization_proof.

#[local] Instance same_prefinalized_equiv : Equivalence same_prefinalized.
Proof.
  split; [done|intros r1 r2 H12 b; by destruct (H12 b)|].
  intros r1 r2 r3 H12 H23 b. destruct (H12 b), (H23 b). split; congruence.
Qed.

Lemma invalidate_prefinalized r id r' : invalidate_branch set_iter r id = Ok r' → same_prefinalized r r'.
Proof.
  unfold invalidate_branch. generalize (S (BlockState.weight r)), [id]. intros f queue. revert r queue.
  induction f as [|f IH]; intros r [|next rest]; simpl; [by intros <-%Ok_inj|done|by intros <-%Ok_inj|].
  destruct (is_finalized (repo_get r next)); [done|].
  destruct (is_invalidated (repo_get r next)); [apply IH|].
  intros Hr. etransitivity; [|by eapply IH]. intros b.
  destruct (decide (next = b)) as [<-|Hne]; [rewrite repo_update_eq; by split; apply set_fact_ne|].
  by rewrite repo_update_ne.
Qed.

Lemma success_prefinalized a r m a' r' :
  on_next_round_success set_iter a r m = Ok (a', r') → same_prefinalized r r'.
Proof.
  unfold on_next_round_success. destruct (NetBlock_get_envelope _); [|by intros [= _ <-]].
  destruct (_ && _); [by intros [= _ <-]|].
  destruct (get _ producer_selector_data); [|by intros [= _ <-]].
  destruct (ActionLockCollection_get_mut _ _ _).
  intros ([l to_invalidate] & _ & Hrest)%outcome_bind_Ok.
  destruct to_invalidate as [[rnd old]|]; [|by injection Hrest as _ <-].
  apply outcome_bind_Ok in Hrest as (r1 & Hr1 & [= _ <-]). by eapply invalidate_prefinalized.
Qed.

Lemma ask_states w m w' outs : ask w m = Ok (w', outs) → sw_states w' = sw_states w.
Proof.
  unfold ask_next_round. intros ([[[a result] sent] answer] & _ & Hrest)%outcome_bind_Ok.
  by injection Hrest as <- _.
Qed.

(** An attestation that lists enough signers for the target of its block. *)
Definition enough_listed r (e : Envelope AttestationData) (required : AttestationTargets → nat) : Prop :=
  ∃ target, get (repo_get r (att_block_id (data e))) attestation_target = Some target ∧
            required target ≤ size (dom (signature_occurrences e)).

Lemma prefinalize_by_count_spec r e required r' enough :
  prefinalize_by_count r e required = Some (r', enough) →
  if enough : bool then enough_listed r e required ∧
    r' = repo_update r (att_block_id (data e)) (λ s, set_prefinalized s e)
  else ¬ enough_listed r e required ∧ r' = r.
Proof.
  unfold prefinalize_by_count, enough_listed. destruct (get _ attestation_target) as [target|]; [|done].
  case_bool_decide as Hc; intros [= <- <-]; (split; [|done]); [by exists target|].
  intros (target' & [= <-] & Ht). done.
Qed.

Definition fallback_required (target : AttestationTargets) : nat :=
  target_required_count (fallback_target target).

Lemma on_success_states w m moment w' outs :
  success w m moment = Ok (w', outs) →
  same_prefinalized (sw_states w) (sw_states w') ∨
  ∃ e, success_attestations_aggregated m = Some e ∧
    enough_listed (sw_states w) e fallback_required ∧
    same_prefinalized
      (repo_update (sw_states w) (att_block_id (data e)) (λ s, set_prefinalized s e)) (sw_states w').
Proof.
  unfold on_authority_switch_success. intros (counted & Hcount & Hrest)%outcome_bind_Ok.
  destruct counted as [[r outs1]|]; [|injection Hrest as <- _; by left].
  assert (same_prefinalized r (sw_states w')) as Hsame.
  { apply outcome_bind_Ok in Hrest as ([a r1] & Hs%unwrap_ok_inv & Hrest).
    apply success_prefinalized in Hs.
    apply outcome_bind_Ok in Hrest as (block & _ & Hrest).
    case_bool_decide; [|by injection Hrest as <- _].
    apply outcome_bind_Ok in Hrest as ([w2 outs2] & Hask%ask_states & Hrest).
    injection Hrest as <- _. by rewrite Hask. }
  destruct (success_attestations_aggregated m) as [e|]; [|injection Hcount as <- _; by left].
  destruct (prefinalize_by_count _ _ _) as [[r1 enough]|] eqn:Hc; [|done].
  apply prefinalize_by_count_spec in Hc. destruct enough.
  - apply outcome_bind_Ok in Hcount as (block & _ & Hcount). injection Hcount as <- _.
    destruct Hc as [Hen ->]. right. by exists e.
  - destruct Hc as [_ ->]. injection Hcount as <- _. by left.
Qed.
Lemma update_prefinalized r r' e b :
  same_prefinalized (repo_update r (att_block_id (data e)) (λ s, set_prefinalized s e)) r' →
  is_prefinalized (repo_get r' b) = true →
  is_prefinalized (repo_get r b) = true ∨
  (att_block_id (data e) = b ∧ get (repo_get r' b) prefinalization_proof = Some e).
Proof.
  intros Hs. destruct (Hs b) as [Hp Hproof].
  destruct (decide (att_block_id (data e) = b)) as [Hb|Hne].
  - intros _. right. split; [done|]. rewrite Hproof, <- Hb, repo_update_eq. apply set_fact_eq.
  - unfold is_prefinalized, is_set. rewrite Hp, repo_update_ne by done. by left.
Qed.

(** A [Switched] message that passes the checks: signed by the one keeper it names. *)
Definition authenticated r (m : Envelope NextRoundSuccess) : Prop :=
  ∃ block keepers k,
    NetBlock_get_envelope (success_proposed_block (data m)) = Some block ∧
    get (repo_get r (blk_parent (data block))) descendant_bk_set = Some keepers ∧
    Envelope_verify_signatures m (BlockKeeperSet_get_pubkeys_by_signers keepers) = Ok true ∧
    BlockKeeperSet_get_by_node_id keepers (success_node_identifier (data m)) = Some k ∧
    dom (signature_occurrences m) = {[signer_index k]}.

Definition required_by_type (e : Envelope AttestationData) (target : AttestationTargets) : nat :=
  match att_target_type (data e) with
  | Primary => target_required_count (primary_target target)
  | Fallback => target_required_count (fallback_target target)
  end.

(** Why a message prefinalizes a block with the proof [e]. *)
Inductive prefinalizes r (outs : list Out) (e : Envelope AttestationData) : AuthoritySwitch → Prop :=
  | by_switched m :
      authenticated r m → success_attestations_aggregated (data m) = Some e →
      enough_listed r e fallback_required → prefinalizes r outs e (Switched m)
  | by_own_round m own :
      BroadcastSwitched own ∈ outs → success_attestations_aggregated (data own) = Some e →
      enough_listed r e fallback_required → prefinalizes r outs e (SwitchRequest m)
  | by_reject m block keepers :
      NetBlock_get_envelope (reject_prefinalized_block m) = Some block →
      get (repo_get r (blk_parent (data block))) descendant_bk_set = Some keepers →
      Envelope_verify_signatures block (BlockKeeperSet_get_pubkeys_by_signers keepers) = Ok true →
      reject_proof_of_prefinalization m = e → att_block_id (data e) = blk_identifier (data block) →
      enough_listed r e (required_by_type e) → prefinalizes r outs e (SwitchReject m).

Lemma verified_true {A} `{Serialize A} (e : Envelope A) keepers :
  verified e keepers = Ok true →
  Envelope_verify_signatures e (BlockKeeperSet_get_pubkeys_by_signers keepers) = Ok true.
Proof. unfold verified. by destruct (Envelope_verify_signatures _ _) as [[]| |]. Qed.

Lemma on_switched_checked w m moment w' outs :
  on_switched iter_order shuffle set_iter cfg get_block_by_id get_finalized_block fuel w m moment
    = Ok (w', outs) →
  (w' = w ∧ outs = []) ∨ (authenticated (sw_states w) m ∧ success w (data m) moment = Ok (w', outs)).
Proof.
  unfold on_switched, authenticated.
  destruct (NetBlock_get_envelope _) as [block|]; [|intros [= <- <-]; by left].
  destruct (get _ descendant_bk_set) as [keepers|] eqn:Hk; [|intros [= <- <-]; by left].
  intros (valid & Hv & Hrest)%outcome_bind_Ok.
  destruct (valid && signed_by_named_node m keepers) eqn:Hb; [|injection Hrest as <- <-; by left].
  right. split; [|done]. apply andb_true_iff in Hb as [-> Hs]. unfold signed_by_named_node in Hs.
  destruct (BlockKeeperSet_get_by_node_id _ _) as [k|] eqn:Hnode; [|done].
  apply bool_decide_eq_true in Hs. exists block, keepers, k. split_and!; try done.
  by apply verified_true.
Qed.

Lemma on_reject_states w m moment w' outs b :
  on_reject iter_order shuffle set_iter cfg get_block_by_id get_finalized_block fuel w m moment
    = Ok (w', outs) → is_prefinalized (repo_get (sw_states w') b) = true →
  is_prefinalized (repo_get (sw_states w) b) = true ∨
  ∃ e, att_block_id (data e) = b ∧ get (repo_get (sw_states w') b) prefinalization_proof = Some e ∧
       prefinalizes (sw_states w) outs e (SwitchReject m).
Proof.
  unfold on_reject. destruct (NetBlock_get_envelope _) as [block|] eqn:Hblock; [|intros [= <- _]; auto].
  destruct (is_prefinalized _); [intros [= <- _]; auto|].
  destruct (get _ descendant_bk_set) as [keepers|] eqn:Hk; [|intros [= <- _]; auto].
  intros (valid & Hv & Hrest)%outcome_bind_Ok.
  destruct valid; simpl in Hrest; [|injection Hrest as <- _; auto].
  case_bool_decide as Hid; [injection Hrest as <- _; auto|].
  apply outcome_bind_Ok in Hrest as (s' & Hset%unwrap_ok_inv & Hrest).
  destruct (generated_setter_get _ _ _ _ Hset) as (_ & Hoth & _).
  set (e := reject_proof_of_prefinalization m) in *.
  set (id := blk_identifier (data block)) in *. set (r1 := <[id := s']> (sw_states w)) in *.
  assert (Hsame : ∀ c f, f ≠ block_round → get (repo_get r1 c) f = get (repo_get (sw_states w) c) f).
  { intros c f Hf. unfold r1. rewrite repo_get_insert. case_decide; [subst c; by apply Hoth|done]. }
  assert (Hpre1 : is_prefinalized (repo_get r1 b) = is_prefinalized (repo_get (sw_states w) b))
    by (unfold is_prefinalized, is_set; by rewrite Hsame).
  destruct (prefinalize_by_count _ _ _) as [[r enough]|] eqn:Hcount;
    [|injection Hrest as <- _; simpl; rewrite Hpre1; auto].
  apply prefinalize_by_count_spec in Hcount.
  apply outcome_bind_Ok in Hrest as ([w2 outs2] & Hask%ask_states & Hrest). injection Hrest as <- _.
  rewrite Hask. simpl. destruct enough; [|destruct Hcount as [_ ->]; simpl; rewrite Hpre1; auto].
  destruct Hcount as [Hen ->]. intros Hb.
  destruct (update_prefinalized r1 _ e b (reflexivity _) Hb) as [Hold|[He Hproof]];
    [left; by rewrite <- Hpre1|right]. exists e. split_and!; [done|done|].
  apply (by_reject _ _ _ m block keepers); try done; [by apply verified_true|].
  destruct Hen as (target & Ht & Hle). exists target. split; [|done]. by rewrite <- Hsame.
Qed.
(** C6 (the authority switch service): a message of the switch protocol makes a block
    prefinalized only in one of three ways: a [Switched] message that is signed by exactly the
    keeper it names carries an aggregated attestation for the block; this node itself closes a
    round with such an attestation; or a [Reject] message carries a validly signed block with
    an attestation for it.  In each case the attestation lists at least as many signers as the
    target of the block asks for, and it is stored as the proof.  No other message that is handled
    without an error changes which blocks are prefinalized. *)
Theorem prefinalized_by_message w elapsed_at now request_now moment m w' outs b :
  handle w elapsed_at now request_now moment m = Ok (w', outs) →
  is_prefinalized (repo_get (sw_states w') b) = true →
  is_prefinalized (repo_get (sw_states w) b) = true ∨
  ∃ e, att_block_id (data e) = b ∧ get (repo_get (sw_states w') b) prefinalization_proof = Some e ∧
       prefinalizes (sw_states w) outs e m.
Proof.
  assert (Hkeep : same_prefinalized (sw_states w) (sw_states w') →
    is_prefinalized (repo_get (sw_states w') b) = true → is_prefinalized (repo_get (sw_states w) b) = true).
  { intros Hs. unfold is_prefinalized, is_set. by destruct (Hs b) as [-> _]. }
  destruct m as [m|m|t|m|m]; simpl.
  - unfold on_request. intros ([a action] & _ & Hrest)%outcome_bind_Ok Hb.
    destruct action; [injection Hrest as <- _; auto..| | |];
      apply outcome_bind_Ok in Hrest as (_ & _ & Hrest); [|injection Hrest as <- _; auto..].
    apply outcome_bind_Ok in Hrest as ([w2 outs1] & Hs & Hrest). injection Hrest as <- <-.
    destruct (on_success_states _ _ _ _ _ Hs) as [Hsame|(att & Ha & Hen & Hupd)]; [auto|].
    destruct (update_prefinalized _ _ _ _ Hupd Hb) as [?|[Hid Hproof]]; [auto|right].
    exists att. split_and!; [done..|]. eapply by_own_round; [|done..].
    apply elem_of_app. right. left.
  - apply on_reject_states.
  - unfold on_reject_too_old. case_bool_decide; intros [= <- _]; auto.
  - intros Hsw Hb. apply on_switched_checked in Hsw as [[-> _]|[Hauth Hs]]; [auto|].
    destruct (on_success_states _ _ _ _ _ Hs) as [Hsame|(att & Ha & Hen & Hupd)]; [auto|].
    destruct (update_prefinalized _ _ _ _ Hupd Hb) as [?|[Hid Hproof]]; [auto|right].
    exists att. split_and!; [done..|]. by apply by_switched.
  - intros [= <- _]. auto.
Qed.

(** Prefinalization by listed signers: the signature of the aggregated attestation in a
    [Switched] message is never verified.  Any keeper of the height can send such a message;
    if its attestation names a block whose target is known and merely lists enough signers,
    the block becomes prefinalized with this attestation as the proof. *)
Theorem listed_signers_prefinalize w elapsed_at now request_now moment m e w' outs :
  authenticated (sw_states w) m → success_attestations_aggregated (data m) = Some e →
  enough_listed (sw_states w) e fallback_required →
  handle w elapsed_at now request_now moment (Switched m) = Ok (w', outs) →
  is_prefinalized (repo_get (sw_states w') (att_block_id (data e))) = true ∧
  get (repo_get (sw_states w') (att_block_id (data e))) prefinalization_proof = Some e.
Proof.
  intros (block & keepers & k & Hblock & Hk & Hv & Hnode & Hdom) He Hen. simpl.
  unfold on_switched. rewrite Hblock, Hk. unfold verified. rewrite Hv. simpl.
  unfold signed_by_named_node, Envelope_clone_signature_occurrences.
  rewrite Hnode, bool_decide_eq_true_2 by done.
  unfold on_authority_switch_success. rewrite He.
  intros (counted & Hcount & Hrest)%outcome_bind_Ok.
  destruct (prefinalize_by_count _ _ _) as [[r enough]|] eqn:Hc.
  2:{ unfold prefinalize_by_count in Hc. destruct Hen as (target & Ht & _). rewrite Ht in Hc.
      by case_bool_decide. }
  apply prefinalize_by_count_spec in Hc. destruct enough; [|by destruct Hc].
  destruct Hc as [_ ->]. rewrite Hblock in Hcount. simpl in Hcount. injection Hcount as <-.
  apply outcome_bind_Ok in Hrest as ([a r1] & Hs%unwrap_ok_inv%success_prefinalized & Hrest).
  rewrite Hblock in Hrest. simpl in Hrest.
  assert (same_prefinalized
    (repo_update (sw_states w) (att_block_id (data e)) (λ s, set_prefinalized s e)) (sw_states w')) as Hsame.
  { case_bool_decide; [|by injection Hrest as <- _].
    apply outcome_bind_Ok in Hrest as ([w2 outs2] & Hask%ask_states & Hrest).
    injection Hrest as <- _. by rewrite Hask. }
  destruct (Hsame (att_block_id (data e))) as [Hp Hproof]. rewrite repo_update_eq in Hp, Hproof.
  split; [apply bool_decide_eq_true_2; rewrite Hp; simpl; by rewrite set_fact_ne, set_fact_eq|].
  rewrite Hproof. apply set_fact_eq.
Qed.
End service_theorems.

(** ** Evaluation *)
Section switch_witnesses.
#[local] Existing Instance LinearBlst.
#[local] Instance switch_serialize_lock : Serialize Lock := λ _, Some [].
#[local] Instance switch_serialize_success : Serialize NextRoundSuccess := λ _, Some [5%Z].
#[local] Instance switch_serialize_envelope : Serialize (Envelope AckiNackiBlock) := λ _, Some [].
#[local] Instance switch_serialize_block : Serialize AckiNackiBlock := λ _, Some [].
#[local] Existing Instance serialize_attestation.

(** *** The monitor: one thread starts, then makes progress. *)
Definition pulse_config (t : ThreadIdentifier) : AuthorityConfig :=
  mkConfig t (mkRoundTime [] NANOS_PER_SEC) (example_node 1) ∅ 0 0 false.
Definition pulse_authority (_ : ThreadIdentifier) : ThreadAuthority := mkAuthority no_locks ∅ ∅ ∅ true 0.
Definition pulse_start : ChainPulseMonitor unit :=
  on_event unit 0 (mkMonitor unit ∅ ∅ [] ∅) (StartThread unit example_thread tt).
(** The repository cannot tell the last finalized block, so the authority asks to retry. *)
Definition pulse_moment (_ : ThreadIdentifier) : Moment := mkMoment 700 (λ _, 700%Z) 700000000 (Err tt) 700.
Definition pulse_repo : Repository unit := ∅.

Lemma pulse_call_ok t :
  has_expired _ pulse_start 700000000 t = true →
  is_ok (call_authority unit pulse_authority elements (λ _ l, l) elements pulse_config (λ _ _, None)
    (λ _, Ok None) 5 pulse_repo pulse_moment pulse_start t) = true.
Proof. reflexivity. Qed.

Lemma timeout_calls_expired_witness :
  ∃ s', on_timeout unit elements pulse_authority elements (λ _ l, l) elements pulse_config (λ _ _, None)
      (λ _, Ok None) 5 pulse_repo pulse_moment 700000000 pulse_start = Ok s' ∧
    example_thread ∈ stalled_threads _ s'.
Proof.
  destruct (timeout_calls_expired elements (λ X, reflexivity _) pulse_authority elements (λ _ l, l) elements
    pulse_config (λ _ _, None) (λ _, Ok None) 5 pulse_repo pulse_moment 700000000 pulse_start) as [Hok Hex].
  destruct (Hex pulse_call_ok) as [s' Hs']. exists s'. split; [exact Hs'|].
  apply (proj1 (Hok s' Hs')). vm_compute. reflexivity.
Defined.

Definition other_thread : ThreadIdentifier := ThreadIdentifier_new (example_block 9) 1.
Definition pulse_progress : ChainPulseMonitor unit :=
  on_event unit 600000000 pulse_start (BlockApplied unit example_thread None).
Definition pulse_later : ChainPulseMonitor unit :=
  on_event unit 1200000000 pulse_progress (StartThread unit other_thread tt).

Lemma progress_is_not_stalled_witness :
  example_thread ∉ expired unit elements pulse_later 1200000000.
Proof.
  refine (proj1 (progress_is_not_stalled (NackData := unit) elements (λ X, reflexivity _) pulse_authority elements
    (λ _ l, l) elements pulse_config (λ _ _, None) (λ _, Ok None) 5 1260000000 600000000 pulse_start
    (BlockApplied unit example_thread None) 1200000000 pulse_later _ eq_refl _)); [|lia].
  refine (run_more _ _ _ _ _ _ _ _ _ _ _ 1200000000 _ _ _ _ (monitor_event _ _ _ _ _ _ _ _ _ _ _ _) (run_end _ _ _ _ _ _ _ _ _ _ _)).
  lia.
Defined.

(** *** A forged proof: the attestation lists both keepers but carries no valid signature. *)
Definition forged_attestation : Envelope (H := LinearBlst) AttestationData :=
  mkEnvelope 0%Z {[1%Z := 1%Z; 2%Z := 1%Z]}
    (mkAttestationData (example_block 1) (example_block 2) 5 [7%Z] Fallback).
Definition forged_block : Envelope (H := LinearBlst) AckiNackiBlock :=
  mkEnvelope 0%Z ∅ (mkBlock (example_block 2) (example_block 1) 5 example_thread 1 (example_node 1) None
    (example_height 2) []).
#[local] Instance switch_deserialize : Deserialize (Envelope AckiNackiBlock) := λ _, Some forged_block.
Definition forged_success : NextRoundSuccess (H := LinearBlst) :=
  mkNextRoundSuccess (example_node 1) 1 (example_height 2)
    (mkNetBlock (example_node 1) None example_thread (example_block 2) 5 [])
    (Some forged_attestation) [].
Definition forged_message : Envelope (H := LinearBlst) NextRoundSuccess :=
  mkEnvelope (11 * linear_hash [5%Z])%Z {[1%Z := 1%Z]} forged_success.

Definition switch_repo : Repository unit :=
  <[example_block 1 := with_fact (AckiNackiBlockState_new (example_block 1)) descendant_bk_set example_keepers]>
    {[ example_block 2 :=
         with_fact (AckiNackiBlockState_new (example_block 2)) attestation_target example_targets ]}.
Definition switch_service : SwitchService (NackData := unit) :=
  mkSwitch (pulse_authority example_thread) switch_repo 0.

Definition forged_run :=
  handle_message elements (λ _ l, l) elements (pulse_config example_thread) (λ _, None) (λ _, Ok None) 5
    example_thread 0 true true switch_service 0 0 0 (pulse_moment example_thread) (Switched forged_message).

Lemma forged_authenticated : authenticated switch_repo forged_message.
Proof.
  exists forged_block, example_keepers, (example_keeper 1 11 5).
  split_and!; vm_compute; reflexivity.
Qed.
Lemma forged_enough : enough_listed switch_repo forged_attestation fallback_required.
Proof. exists example_targets. split; [vm_compute; reflexivity|]. vm_compute. lia. Qed.

Lemma listed_signers_prefinalize_witness :
  Envelope_verify_signatures forged_attestation (BlockKeeperSet_get_pubkeys_by_signers example_keepers)
    = Ok false ∧
  ∃ w' outs, forged_run = Ok (w', outs) ∧
    is_prefinalized (repo_get (sw_states w') (example_block 2)) = true.
Proof.
  split; [vm_compute; reflexivity|].
  assert (Hok : is_ok forged_run = true) by (vm_compute; reflexivity).
  destruct forged_run as [[w' outs]| |] eqn:Hrun; [|discriminate Hok..].
  exists w', outs. split; [reflexivity|].
  exact (proj1 (listed_signers_prefinalize elements (λ _ l, l) elements (pulse_config example_thread)
    (λ _, None) (λ _, Ok None) 5 example_thread 0 true true switch_service 0 0 0
    (pulse_moment example_thread) forged_message forged_attestation w' outs
    forged_authenticated eq_refl forged_enough Hrun)).
Defined.

Definition prefinalized_second (o : outcome ServiceError (SwitchService (NackData := unit) * list Out)) : bool :=
  match o with
  | Ok (w, _) => is_prefinalized (repo_get (sw_states w) (example_block 2))
  | _ => false
  end.

Lemma prefinalized_by_message_witness :
  ∃ w' outs e, forged_run = Ok (w', outs) ∧ att_block_id (data e) = example_block 2 ∧
    prefinalizes switch_repo outs e (Switched forged_message).
Proof.
  assert (Hok : prefinalized_second forged_run = true) by (vm_compute; reflexivity).
  destruct forged_run as [[w' outs]| |] eqn:Hrun; [|discriminate Hok..].
  destruct (prefinalized_by_message elements (λ _ l, l) elements (pulse_config example_thread)
    (λ _, None) (λ _, Ok None) 5 example_thread 0 true true switch_service 0 0 0
    (pulse_moment example_thread) (Switched forged_message) w' outs (example_block 2) Hrun Hok)
    as [Hold|(e & Hid & _ & Hwhy)].
  - vm_compute in Hold. discriminate Hold.
  - exists w', outs, e. exact (conj eq_refl (conj Hid Hwhy)).
Defined.
End switch_witnesses.
