(* ===== verification/Finalization.v ===== *)
(** * Finalization: blocks become final.

    [node/services/finalization/mod.rs], with [Repository::mark_block_as_finalized] and the
    buffer of finalized blocks of [repository/repository_impl.rs].  The finalization loop
    walks over the candidates of a thread; a candidate whose parent declares blocks
    finalized (BlockProcessor.v) lets these blocks become final, if every condition of
    [can_be_finalized] holds.

    Files, optimistic states and the sending of blocks are parameters that may fail; calls to
    other services are recorded as events.  [SHUTDOWN_FLAG] is an argument. *)
From stdpp Require Import base numbers gmap strings fin_maps sorting list.
From S2P Require Import Prelude Identifiers Bitmask FixedCache Bls BlockKeepers Envelope Attestation Checkpoints Statistics BlockState Collected BlockProcessor Unfinalized.

Inductive FinalizationEvent `{Blst} :=
  | ChainPulseFinalized (t : ThreadIdentifier) (h : BlockHeight)
  | BkSetUpdate (seq_no : BlockSeqNo) (current future : option BlockKeeperSet)
  | RawBlock (b : BlockIdentifier)
  | SharedOnBlockFinalized (b : BlockIdentifier)
  | AuthorityOnBlockFinalized (t : ThreadIdentifier) (h : BlockHeight).

Inductive FinalizationError :=
  | MetadataMissing
  | SaveFailed
  | SendFailed
  | OptimisticStateMissing.

Section finalization.
Context `{Blst} {NackData : Type} `{EqDecision NackData}.
Notation Repo := (Repository NackData).
Notation Entry := (BlockIdentifier * Envelope CandidateBlock)%type.
Notation result A := (outcome FinalizationError A).

(** ** The buffer of finalized blocks *)
Record FinalizedBlockStorage := mkStorage {
  per_thread_buffer_size : nat;
  buffer : gmap ThreadIdentifier (FixedSizeHashMap BlockIdentifier Entry);
}.

Definition FinalizedBlockStorage_new (size : nat) : FinalizedBlockStorage := mkStorage size ∅.

(** [entry(..).and_modify(..).or_insert_with(..)] *)
Definition store_in_thread (s : FinalizedBlockStorage) (t : ThreadIdentifier)
    (b : BlockIdentifier) (e : Entry) : result FinalizedBlockStorage :=
  let thread_buffer :=
    default (FixedSizeHashMap_new (per_thread_buffer_size s)) (buffer s !! t) in
  FixedSizeHashMap_insert thread_buffer b e ≫= λ thread_buffer,
  Ok (mkStorage (per_thread_buffer_size s) (<[t := thread_buffer]> (buffer s))).

(** The block is stored in its thread and in the threads it spawns. *)
Definition FinalizedBlockStorage_store (thread_iter : gset ThreadIdentifier → list ThreadIdentifier)
    (s : FinalizedBlockStorage) (block_state : BlockIdentifier) (block : Envelope CandidateBlock) :
    result FinalizedBlockStorage :=
  let b := cb_identifier (data block) in
  store_in_thread s (cb_thread_id (data block)) b (block_state, block) ≫= λ s,
  match cb_threads_table (data block) with
  | None => Ok s
  | Some table =>
      fold_outcome (λ s t,
          if ThreadIdentifier_is_spawning_block t b
          then store_in_thread s t b (block_state, block) else Ok s)
        s (thread_iter (ThreadsTable_list_threads table))
  end.

Fixpoint find_in (buffers : gmap ThreadIdentifier (FixedSizeHashMap BlockIdentifier Entry))
    (b : BlockIdentifier) (threads : list ThreadIdentifier) : option (Envelope CandidateBlock) :=
  match threads with
  | [] => None
  | t :: threads =>
      match buffers !! t ≫= λ e, FixedSizeHashMap_get e b with
      | Some e => Some e.2
      | None => find_in buffers b threads
      end
  end.

Definition FinalizedBlockStorage_find (thread_iter : gset ThreadIdentifier → list ThreadIdentifier)
    (s : FinalizedBlockStorage) (b : BlockIdentifier) (hint : list ThreadIdentifier) :
    option (Envelope CandidateBlock) :=
  match find_in (buffer s) b hint with
  | Some block => Some block
  | None => find_in (buffer s) b (thread_iter (dom (buffer s)))
  end.

(** ** Marking a block *)
Record Metadata := mkMetadata {
  last_finalized_block_id : BlockIdentifier;
  last_finalized_block_seq_no : BlockSeqNo;
  last_finalized_producer_id : option NodeIdentifier;
}.

(** What the loop reads and writes. *)
Record Node := mkNode {
  states : Repo;
  last_block_attestations : CollectedAttestations;
  metadatas : gmap ThreadIdentifier Metadata;
  finalized_blocks : FinalizedBlockStorage;
  events : list FinalizationEvent;
}.

Definition with_states (n : Node) (r : Repo) : Node :=
  mkNode r (last_block_attestations n) (metadatas n) (finalized_blocks n) (events n).
Definition with_event (n : Node) (e : FinalizationEvent) : Node :=
  mkNode (states n) (last_block_attestations n) (metadatas n) (finalized_blocks n) (events n ++ [e]).

Variable set_iter : gset BlockIdentifier → list BlockIdentifier.
Variable thread_iter : gset ThreadIdentifier → list ThreadIdentifier.
Variable shutdown : bool.
(** Saving the metadata and, after it, the optimistic state of the finalized block. *)
Variable save_metadata_and_state : BlockIdentifier → result unit.
Variable send_raw_block : BlockIdentifier → bool.
Variable has_optimistic_state : BlockIdentifier → bool.

Definition update_metadata (m : Metadata) (block : CandidateBlock) (seq_no : BlockSeqNo) : Metadata :=
  if bool_decide (last_finalized_block_seq_no m < seq_no)%Z
  then mkMetadata (cb_identifier block) seq_no (Some (cb_producer_id block))
  else m.

Definition mark_block_as_finalized (n : Node) (block : Envelope CandidateBlock) : result Node :=
  if shutdown then Ok n
  else
    let b := cb_identifier (data block) in
    let t := cb_thread_id (data block) in
    FinalizedBlockStorage_store thread_iter (finalized_blocks n) b block ≫= λ storage,
    let r := repo_update (states n) b (λ s, if is_finalized s then s else set_finalized s) in
    unwrap (get (repo_get r b) block_seq_no) ≫= λ seq_no,
    let update :=
      if bool_decide (t = ThreadIdentifier_default)
      then [BkSetUpdate seq_no (get (repo_get r b) bk_set) (get (repo_get r b) future_bk_set)]
      else [] in
    ok_or (metadatas n !! t) MetadataMissing ≫= λ m,
    save_metadata_and_state b ≫= λ _,
    Ok (mkNode r (last_block_attestations n)
          (<[t := update_metadata m (data block) seq_no]> (metadatas n)) storage
          (events n ++ update)).

(** ** The handler of a finalized block *)
Definition tell_child (r : Repo) (child : BlockIdentifier) : result Repo :=
  unwrap_ok (generated_setter (repo_get r child) has_parent_finalized true) ≫= λ s,
  Ok (<[child := s]> r).

Definition on_block_finalized (n : Node) (block : Envelope CandidateBlock) : result Node :=
  let b := cb_identifier (data block) in
  let t := cb_thread_id (data block) in
  let pool :=
    match get (repo_get (states n) b) moves_attestation_list_cutoff with
    | Some cutoff => CollectedAttestations_move_cutoff (last_block_attestations n) cutoff.1
    | None => last_block_attestations n
    end in
  mark_block_as_finalized
    (mkNode (states n) pool (metadatas n) (finalized_blocks n) (events n)) block ≫= λ n,
  ensure (send_raw_block b || shutdown) SendFailed ≫= λ _,
  ensure (has_optimistic_state b) OptimisticStateMissing ≫= λ _,
  let children := default ∅ (known_children (repo_get (states n) b) t) in
  fold_outcome tell_child (states n) (set_iter children) ≫= λ r,
  Ok (with_states (with_event (with_event n (RawBlock b)) (SharedOnBlockFinalized b)) r).

(** ** The loop *)
Notation Border := (option Z).

(** One block of [blocks_finalized_by_parent]: the node, the border and
    [max_finalized_seq_no]. *)
Definition finalize_one (cache : UnfinalizedBlocks) (acc : Node * Border * BlockSeqNo)
    (b : BlockIdentifier) : result (Node * Border * BlockSeqNo) :=
  let '(n, border, max_finalized_seq_no) := acc in
  let s := repo_get (states n) b in
  if negb (is_finalized s) && can_be_finalized s then
    match get s block_height, get s block_seq_no, get s attestation_target with
    | Some h, Some seq_no, Some target =>
        let max_finalized_seq_no :=
          if bool_decide (max_finalized_seq_no < seq_no)%Z then seq_no else max_finalized_seq_no in
        match get_block_by_id cache b with
        | None => Ok (n, border, max_finalized_seq_no)
        | Some candidate =>
            let n := with_event n (ChainPulseFinalized (cb_thread_id (data candidate)) h) in
            on_block_finalized n candidate ≫= λ n,
            Prelude.checked 64 (height h + Z.of_nat (generation_deadline (primary_target target)) * 2 + 2) ≫= λ new_border,
            let border :=
              match border with
              | Some v => if bool_decide (v < new_border)%Z then Some new_border else Some v
              | None => Some new_border
              end in
            Ok (with_event n (AuthorityOnBlockFinalized (cb_thread_id (data candidate)) h),
                border, max_finalized_seq_no)
        end
    | _, _, _ => Ok acc
    end
  else Ok acc.

(** The invalidation of stale candidates: the sequence number compared is the one of
    [block_state], the block [try_finalize] was called for. *)
Fixpoint invalidate_stale (r : Repo) (id : BlockIdentifier) (max_finalized_seq_no : BlockSeqNo)
    (queue : list Entry) : result Repo :=
  match queue with
  | [] => Ok r
  | (block, _) :: queue =>
      if is_finalized (repo_get r block) then invalidate_stale r id max_finalized_seq_no queue
      else
        match get (repo_get r id) block_seq_no with
        | None => invalidate_stale r id max_finalized_seq_no queue
        | Some seq_no =>
            if bool_decide (seq_no ≤ max_finalized_seq_no)%Z
            then
              unwrap_ok (invalidate_branch set_iter r block) ≫= λ r,
              invalidate_stale r id max_finalized_seq_no queue
            else Ok r
        end
  end.

Definition with_seq_no (r : Repo) (b : BlockIdentifier) : result (BlockSeqNo * BlockIdentifier) :=
  unwrap (get (repo_get r b) block_seq_no) ≫= λ n, Ok (n, b).

(** [sort_by] compares, and unwraps the sequence numbers, only when there are two blocks. *)
Definition sort_by_seq_no (r : Repo) (blocks : list BlockIdentifier) :
    result (list BlockIdentifier) :=
  match blocks with
  | [] | [_] => Ok blocks
  | _ =>
      map_outcome (with_seq_no r) blocks ≫= λ keyed_blocks,
      Ok (snd <$> merge_sort seq_no_order keyed_blocks)
  end.

Definition try_finalize (cache : UnfinalizedBlocks) (n : Node) (id : BlockIdentifier) :
    result (Node * Border) :=
  let s := repo_get (states n) id in
  match get s parent_block_identifier with
  | None => Ok (n, None)
  | Some parent_id =>
      if negb (is_set s has_cross_thread_ref_data_prepared true) then Ok (n, None)
      else
        match get (repo_get (states n) parent_id) finalizes_blocks with
        | None => Ok (n, None)
        | Some blocks =>
            if shutdown then Ok (n, None)
            else
              sort_by_seq_no (states n) (set_iter blocks) ≫= λ blocks,
              fold_outcome (finalize_one cache) (n, None, 0%Z) blocks
              ≫= λ '(n, border, max_finalized_seq_no),
              (if bool_decide (max_finalized_seq_no = 0%Z) then Ok (states n)
               else invalidate_stale (states n) id max_finalized_seq_no (clone_queue cache))
              ≫= λ r, Ok (with_states n r, border)
        end
  end.

(** The height up to which candidates are looked at: the latest deadline of the children of
    the last finalized block, with one block for the child itself and one for the block that
    brings the attestations. *)
Definition child_deadline (r : Repo) (child : BlockIdentifier) : Z :=
  match get (repo_get r child) attestation_target with
  | None => 0
  | Some target =>
      Z.max (Z.of_nat (generation_deadline (primary_target target)))
            (Z.of_nat (generation_deadline (fallback_target target)))
  end.

Definition max_child_deadline (r : Repo) (children : list BlockIdentifier) : Z :=
  foldl (λ m child, if bool_decide (m < child_deadline r child)%Z then child_deadline r child else m)
    0%Z children.

Fixpoint finalize_queue (cache : UnfinalizedBlocks) (n : Node) (height_cutoff : Z)
    (queue : list Entry) : result Node :=
  match queue with
  | [] => Ok n
  | (id, _) :: queue =>
      if shutdown then Ok n
      else
        let h := from_option height 0%Z (get (repo_get (states n) id) block_height) in
        if bool_decide (height_cutoff < h)%Z then Ok n
        else
          unwrap_ok (try_finalize cache n id) ≫= λ '(n, border),
          finalize_queue cache n (default height_cutoff border) queue
  end.

(** One iteration of [finalization_loop] for the thread [t]. *)
Definition finalization_iteration (t : ThreadIdentifier) (cache : UnfinalizedBlocks) (n : Node) :
    result Node :=
  match metadatas n !! t with
  | None => Ok n
  | Some m =>
      let last := repo_get (states n) (last_finalized_block_id m) in
      unwrap (get last block_height) ≫= λ last_height,
      let children := default ∅ (known_children last t) in
      let height_cutoff :=
        (max_child_deadline (states n) (set_iter children) + 1 + height last_height + 1)%Z in
      finalize_queue cache n height_cutoff (clone_queue cache)
  end.
End finalization.

(** ** What the loop may change *)
Section finality.
Context `{Blst} {NackData : Type} `{EqDecision NackData}.
Notation Repo := (Repository NackData).
Notation Entry := (BlockIdentifier * Envelope CandidateBlock)%type.
Implicit Types (r : Repo) (s : AckiNackiBlockState NackData) (n : Node (NackData := NackData)).
Implicit Types (a b c id : BlockIdentifier) (cache : UnfinalizedBlocks) (f : fact).
Variable set_iter : gset BlockIdentifier → list BlockIdentifier.
Hypothesis set_iter_elements : ∀ X, set_iter X ≡ₚ elements X.
Variable thread_iter : gset ThreadIdentifier → list ThreadIdentifier.
Variable shutdown : bool.
Variable save_metadata_and_state : BlockIdentifier → outcome FinalizationError unit.
Variable send_raw_block : BlockIdentifier → bool.
Variable has_optimistic_state : BlockIdentifier → bool.
(** The blocks the node started from. *)
Variable roots : gset BlockIdentifier.

Notation handle :=
  (on_block_finalized set_iter thread_iter shutdown save_metadata_and_state send_raw_block
     has_optimistic_state).
Notation finalize :=
  (try_finalize set_iter thread_iter shutdown save_metadata_and_state send_raw_block
     has_optimistic_state).
Notation iteration :=
  (finalization_iteration set_iter thread_iter shutdown save_metadata_and_state send_raw_block
     has_optimistic_state).

(** The facts the loop writes. *)
Definition written f : Prop :=
  f = finalized ∨ f = invalidated ∨ f = has_parent_finalized.

(** One state may become the other: only the written facts change, and no state is both
    final and newly invalidated. *)
Record state_advances s s' : Prop := {
  sa_facts f : ¬ written f → get s' f = get s f;
  sa_children : known_children_map s' = known_children_map s;
  sa_accusers : bad_block_accusers s' = bad_block_accusers s;
  sa_final : is_finalized s = true → is_finalized s' = true;
  sa_flag : is_set s has_parent_finalized true = true → is_set s' has_parent_finalized true = true;
  sa_valid : is_finalized s = true → is_invalidated s = false → is_invalidated s' = false;
}.

Definition advances r r' : Prop := ∀ b, state_advances (repo_get r b) (repo_get r' b).

(** A final block satisfied every condition, and its parent is final. *)
Record finality r : Prop := {
  fin_checked b : is_finalized (repo_get r b) = true → b ∉ roots →
    can_be_finalized (repo_get r b) = true;
  fin_parent b : is_set (repo_get r b) has_parent_finalized true = true →
    ∃ p, get (repo_get r b) parent_block_identifier = Some p ∧ is_finalized (repo_get r p) = true;
  fin_links a t c : c ∈ default ∅ (known_children (repo_get r a) t) →
    get (repo_get r c) parent_block_identifier = Some a;
}.

#[local] Instance state_advances_preorder : PreOrder state_advances.
Proof.
  split; [by intros s; split|]. intros s1 s2 s3 [F1 C1 A1 ? ? ?] [F2 C2 A2 ? ? ?].
  split; [|congruence|congruence|by auto..].
  intros f Hf. by rewrite F2, F1.
Qed.

#[local] Instance advances_preorder : PreOrder advances.
Proof. split; [intros r b; done|]. intros r1 r2 r3 H12 H23 b. exact (transitivity (H12 b) (H23 b)). Qed.

Lemma advances_insert r b s : state_advances (repo_get r b) s → advances r (<[b := s]> r).
Proof. intros Hs c. rewrite repo_get_insert. case_decide; [by subst|done]. Qed.

Lemma can_be_finalized_advances s s' :
  state_advances s s' → is_finalized s = true → can_be_finalized s = true →
  can_be_finalized s' = true.
Proof.
  intros [Hf _ Ha _ Hp Hv] Hfin. unfold can_be_finalized. rewrite !andb_true_iff, !negb_true_iff.
  intros [[[[[[[Hs Hi] Hn] Hap] Hpar] Hr] Had] Hc].
  unfold is_signatures_verified, has_all_nacks_resolved, has_bad_block_nacks_resolved,
    is_block_already_applied, is_set in *.
  rewrite Ha. split_and!; auto; by rewrite Hf by (unfold written; naive_solver).
Qed.

(** The three ways a state is changed. *)
Lemma set_finalized_advances s :
  state_advances s (set_finalized s).
Proof.
  split; simpl; try done.
  intros f Hf. apply set_fact_ne. unfold written in Hf; naive_solver.
Qed.

Lemma set_invalidated_advances s : is_finalized s = false → state_advances s (set_invalidated s).
Proof.
  intros Hs. split; simpl; try done; [|congruence..].
  intros f Hf. apply set_fact_ne. unfold written in Hf; naive_solver.
Qed.

Lemma tell_child_advances s s' :
  generated_setter s has_parent_finalized true = Ok s' →
  state_advances s s' ∧ is_finalized s' = is_finalized s ∧
  is_set s' has_parent_finalized true = true.
Proof.
  unfold generated_setter. case_decide as Hd.
  { intros <-%Ok_inj. split_and!; [done|done|by apply get_is_set]. }
  simpl. intros <-%Ok_inj.
  assert (Hne : ∀ f, f ≠ has_parent_finalized →
    get (notify_changed (with_fact s has_parent_finalized true)) f = get s f)
    by (intros f Hf; apply set_fact_ne; congruence).
  assert (Hset : is_set (notify_changed (with_fact s has_parent_finalized true))
    has_parent_finalized true = true) by (apply get_is_set, set_fact_eq).
  split_and!; [split; simpl; try done| |exact Hset].
  - intros f Hf. apply Hne. unfold written in Hf; naive_solver.
  - unfold is_finalized, is_set. by rewrite Hne.
Qed.

Lemma finality_insert r b s :
  finality r → state_advances (repo_get r b) s →
  (is_finalized s = true → is_finalized (repo_get r b) = true ∨ can_be_finalized s = true) →
  (is_set s has_parent_finalized true = true →
   is_set (repo_get r b) has_parent_finalized true = true ∨
   ∃ p, get (repo_get r b) parent_block_identifier = Some p ∧ is_finalized (repo_get r p) = true) →
  finality (<[b := s]> r).
Proof.
  intros [Hc Hp Hl] Hs Hfin Hflag. pose proof (advances_insert r b s Hs) as Hadv.
  assert (Hfacts : ∀ c f, ¬ written f → get (repo_get (<[b := s]> r) c) f = get (repo_get r c) f)
    by (intros c f Hf; by apply (sa_facts _ _ (Hadv c))).
  assert (Hpar : ¬ written parent_block_identifier) by (unfold written; naive_solver).
  split.
  - intros c. rewrite repo_get_insert. case_decide as Hcb; [subst c|by apply Hc].
    intros Hf Hr. destruct (Hfin Hf) as [Hold|]; [|done].
    eapply can_be_finalized_advances; [done..|by apply Hc].
  - intros c Hf. rewrite Hfacts by done.
    assert (∃ p, get (repo_get r c) parent_block_identifier = Some p ∧
                 is_finalized (repo_get r p) = true) as (p & Hp1 & Hp2).
    { rewrite repo_get_insert in Hf. case_decide as Hcb; [subst c|by apply Hp].
      destruct (Hflag Hf) as [Hold|]; [by apply Hp|done]. }
    exists p. split; [done|]. by apply (sa_final _ _ (Hadv p)).
  - intros a t c Hin. rewrite Hfacts by done. apply (Hl a t).
    unfold known_children in *. by rewrite (sa_children _ _ (Hadv a)) in Hin.
Qed.
(** The metadata of the threads never goes back. *)
Definition metadatas_le (ms ms' : gmap ThreadIdentifier Metadata) : Prop :=
  ∀ t m, ms !! t = Some m → ∃ m', ms' !! t = Some m' ∧
    (last_finalized_block_seq_no m ≤ last_finalized_block_seq_no m')%Z.

#[local] Instance metadatas_le_preorder : PreOrder metadatas_le.
Proof.
  split; [intros ms t m Hm; eauto with lia|]. intros ms1 ms2 ms3 H12 H23 t m Hm.
  destruct (H12 _ _ Hm) as (m2 & Hm2 & ?). destruct (H23 _ _ Hm2) as (m3 & ? & ?). eauto with lia.
Qed.

(** A run that makes only blocks of [D] final. *)
Record sound_run (D : BlockIdentifier → Prop) r0 r : Prop := {
  run_advances : advances r0 r;
  run_finality : finality r;
  run_declared b : is_finalized (repo_get r b) = true → is_finalized (repo_get r0 b) = true ∨ D b;
}.

Definition sound_node (D : BlockIdentifier → Prop) n0 n : Prop :=
  sound_run D (states n0) (states n) ∧ metadatas_le (metadatas n0) (metadatas n).

Lemma sound_run_insert D r0 r b s :
  sound_run D r0 r → state_advances (repo_get r b) s →
  (is_finalized s = true →
   is_finalized (repo_get r b) = true ∨ (can_be_finalized s = true ∧ D b)) →
  (is_set s has_parent_finalized true = true →
   is_set (repo_get r b) has_parent_finalized true = true ∨
   ∃ p, get (repo_get r b) parent_block_identifier = Some p ∧ is_finalized (repo_get r p) = true) →
  sound_run D r0 (<[b := s]> r).
Proof.
  intros [Ha Hf Hd] Hs Hfin Hflag. split.
  - etransitivity; [exact Ha|]. by apply advances_insert.
  - apply finality_insert; [done..| |done]. naive_solver.
  - intros c. rewrite repo_get_insert. case_decide as Hcb; [subst c|by auto]. naive_solver.
Qed.

Lemma sound_run_invalidate D r0 r b r' :
  sound_run D r0 r → invalidate_branch set_iter r b = Ok r' → sound_run D r0 r'.
Proof.
  unfold invalidate_branch. generalize (S (weight r)), [b]. intros fuel queue.
  revert r queue. induction fuel as [|fuel IH]; intros r [|next rest] Hr; simpl;
    [by intros <-%Ok_inj|done|by intros <-%Ok_inj|].
  destruct (is_finalized (repo_get r next)) eqn:Hfin; [done|].
  destruct (is_invalidated (repo_get r next)); [by apply IH|].
  apply IH, sound_run_insert; [done|by apply set_invalidated_advances|..].
  - rewrite set_invalidated_finalized. congruence.
  - left. unfold is_set in *. simpl in *. by rewrite set_fact_ne in *.
Qed.

Lemma sound_run_tell D r0 r b c r' :
  sound_run D r0 r → get (repo_get r c) parent_block_identifier = Some b →
  is_finalized (repo_get r b) = true → tell_child r c = Ok r' → sound_run D r0 r'.
Proof.
  intros Hr Hpar Hb. unfold tell_child. intros (s & Hs%unwrap_ok_inv & <-%Ok_inj)%outcome_bind_Ok.
  destruct (tell_child_advances _ _ Hs) as (Ha & Hf & _).
  apply sound_run_insert; [done..| |by eauto]. rewrite Hf. auto.
Qed.

(** Marking a block that may be final. *)
Lemma sound_run_mark D r0 r b :
  sound_run D r0 r → D b → can_be_finalized (repo_get r b) = true →
  let r' := repo_update r b (λ s, if is_finalized s then s else set_finalized s) in
  sound_run D r0 r' ∧ is_finalized (repo_get r' b) = true.
Proof.
  intros Hr HD Hcan. simpl. unfold repo_update.
  rewrite repo_get_insert, decide_True by done.
  destruct (is_finalized (repo_get r b)) eqn:Hfin.
  { split; [|done]. apply sound_run_insert; auto. reflexivity. }
  split; [|apply get_is_set, set_fact_eq].
  apply sound_run_insert; [done|apply set_finalized_advances|..].
  - intros _. right. split; [|done]. revert Hcan. unfold can_be_finalized.
    unfold is_signatures_verified, is_invalidated, has_all_nacks_resolved,
      has_bad_block_nacks_resolved, is_block_already_applied, is_set. simpl. by rewrite !set_fact_ne.
  - left. unfold is_set in *. simpl in *. by rewrite set_fact_ne in *.
Qed.

Lemma update_metadata_le (m : Metadata) block seq_no :
  (last_finalized_block_seq_no m ≤ last_finalized_block_seq_no (update_metadata m block seq_no))%Z.
Proof. unfold update_metadata. case_bool_decide; simpl; lia. Qed.

Lemma sound_node_mark D n0 n block n' :
  shutdown = false → sound_node D n0 n → D (cb_identifier (data block)) →
  can_be_finalized (repo_get (states n) (cb_identifier (data block))) = true →
  mark_block_as_finalized thread_iter shutdown save_metadata_and_state n block = Ok n' →
  sound_node D n0 n' ∧ is_finalized (repo_get (states n') (cb_identifier (data block))) = true.
Proof.
  intros Hsd [Hr Hm] HD Hcan. unfold mark_block_as_finalized. rewrite Hsd.
  intros (storage & _ & Hmark)%outcome_bind_Ok.
  apply outcome_bind_Ok in Hmark as (seq_no & _ & Hmark).
  apply outcome_bind_Ok in Hmark as (m & Hmeta & Hmark).
  apply outcome_bind_Ok in Hmark as (_ & _ & <-%Ok_inj).
  destruct (sound_run_mark _ _ _ _ Hr HD Hcan) as [Hr' Hfin]. split; [|exact Hfin].
  split; [exact Hr'|]. etransitivity; [exact Hm|]. intros t m0 Hm0. simpl.
  destruct (decide (cb_thread_id (data block) = t)) as [<-|Hne].
  - rewrite Hm0 in Hmeta. apply Ok_inj in Hmeta as ->. rewrite lookup_insert_eq.
    eexists. split; [done|]. apply update_metadata_le.
  - rewrite lookup_insert_ne by done. eauto with lia.
Qed.

(** The handler: the children of the block, which it is the parent of, get to know. *)
Lemma sound_node_handle D n0 n block n' :
  shutdown = false → sound_node D n0 n → D (cb_identifier (data block)) →
  can_be_finalized (repo_get (states n) (cb_identifier (data block))) = true →
  handle n block = Ok n' → sound_node D n0 n'.
Proof.
  intros Hsd Hn HD Hcan. unfold on_block_finalized.
  intros (n1 & Hmark & Hrest)%outcome_bind_Ok.
  apply sound_node_mark with (D := D) (n0 := n0) in Hmark as [[Hr Hm] Hfin]; [|done..].
  apply outcome_bind_Ok in Hrest as (_ & _ & Hrest).
  apply outcome_bind_Ok in Hrest as (_ & _ & Hrest).
  apply outcome_bind_Ok in Hrest as (r & Hfold & <-%Ok_inj). split; [|exact Hm]. simpl.
  set (b := cb_identifier (data block)) in *.
  eapply (fold_outcome_ind tell_child (λ r, sound_run D (states n0) r ∧ advances (states n1) r));
    [|by split|exact Hfold].
  intros r1 c r2 Hc [Hr1 Ha1] Htell. rewrite set_iter_elements in Hc.
  apply elem_of_elements in Hc.
  pose proof (fin_links _ (run_finality _ _ _ Hr) b (cb_thread_id (data block)) c Hc) as Hpar.
  assert (sound_run D (states n0) r2 ∧ True) as [Hr2 _].
  { split; [|done]. eapply (sound_run_tell D _ r1 b c); [done|..|done].
    - rewrite (sa_facts _ _ (Ha1 c)); [done|]. unfold written; naive_solver.
    - by apply (sa_final _ _ (Ha1 b)). }
  split; [done|]. etransitivity; [exact Ha1|].
  unfold tell_child in Htell. apply outcome_bind_Ok in Htell as (s & Hs%unwrap_ok_inv & <-%Ok_inj).
  by apply advances_insert, tell_child_advances.
Qed.

(** A cache whose entries are found under their identifiers. *)
Definition keyed cache : Prop :=
  ∀ b candidate, get_block_by_id cache b = Some candidate → cb_identifier (data candidate) = b.

Lemma represents_keyed cache m : represents cache m → keyed cache.
Proof.
  intros Hm b candidate. rewrite (represents_get _ _ _ Hm).
  intros ([s v] & Hv & ->)%fmap_Some. by apply (rep_entry _ _ Hm) in Hv as [? _].
Qed.

Lemma sound_node_finalize_one D n0 cache n border max b n' border' max' :
  shutdown = false → keyed cache → sound_node D n0 n → D b →
  finalize_one set_iter thread_iter shutdown save_metadata_and_state send_raw_block
    has_optimistic_state cache (n, border, max) b = Ok (n', border', max') →
  sound_node D n0 n'.
Proof.
  intros Hsd Hk Hn HD. unfold finalize_one.
  destruct (is_finalized _); simpl; [by intros [= <- _ _]|].
  destruct (can_be_finalized _) eqn:Hcan; [|by intros [= <- _ _]].
  destruct (get _ block_height) as [h|]; [|by intros [= <- _ _]].
  destruct (get _ block_seq_no) as [seq_no|]; [|by intros [= <- _ _]].
  destruct (get _ attestation_target) as [target|]; [|by intros [= <- _ _]].
  destruct (get_block_by_id cache b) as [candidate|] eqn:Hget; [|by intros [= <- _ _]].
  intros (n1 & Hh & (new_border & _ & [= <- _ _])%outcome_bind_Ok)%outcome_bind_Ok.
  apply Hk in Hget. apply sound_node_handle with (D := D) (n0 := n0) in Hh; [done|done| | |].
  - done.
  - by rewrite Hget.
  - by rewrite Hget.
Qed.

Lemma sound_run_stale D r0 r id max queue r' :
  sound_run D r0 r → invalidate_stale set_iter r id max queue = Ok r' → sound_run D r0 r'.
Proof.
  revert r. induction queue as [|[b e] queue IH]; intros r Hr; simpl; [by intros <-%Ok_inj|].
  destruct (is_finalized _); [by apply IH|].
  destruct (get _ block_seq_no); [|by apply IH].
  case_bool_decide; [|by intros <-%Ok_inj].
  intros (r1 & Hr1%unwrap_ok_inv & Hq)%outcome_bind_Ok.
  eapply IH; [|done]. by eapply sound_run_invalidate.
Qed.
(** The sequence number compared is the one of the candidate that was looked at, a descendant
    of the blocks that became final: no candidate is invalidated. *)
Lemma stale_candidates_kept r id max queue k :
  get (repo_get r id) block_seq_no = Some k → (max < k)%Z →
  invalidate_stale set_iter r id max queue = Ok r.
Proof.
  intros Hk Hmax. induction queue as [|[b e] queue IH]; simpl; [done|].
  destruct (is_finalized _); [done|]. rewrite Hk. by rewrite bool_decide_eq_false_2 by lia.
Qed.

(** The blocks that the parent of [id] declares final. *)
Definition declared_at r id b : Prop :=
  ∃ p X, get (repo_get r id) parent_block_identifier = Some p ∧
         get (repo_get r p) finalizes_blocks = Some X ∧ b ∈ X.

Lemma with_seq_no_ids r l l' : map_outcome (with_seq_no r) l = Ok l' → l'.*2 = l.
Proof.
  intros Hl%map_outcome_Forall2. induction Hl as [|b [k b'] l l' Hb _ IH]; simpl; [done|].
  unfold with_seq_no in Hb. apply outcome_bind_Ok in Hb as (k' & _ & [= _ <-]). f_equal; exact IH.
Qed.

Lemma sort_by_seq_no_perm r l l' : sort_by_seq_no r l = Ok l' → l' ≡ₚ l.
Proof.
  unfold sort_by_seq_no. destruct l as [|b1 [|b2 l]]; [by intros <-%Ok_inj..|].
  intros (ks & Hks%with_seq_no_ids & <-%Ok_inj)%outcome_bind_Ok.
  rewrite merge_sort_Permutation. by rewrite Hks.
Qed.

Lemma sound_node_try D n0 cache n id n' border :
  keyed cache → sound_node D n0 n → (∀ b, declared_at (states n0) id b → D b) →
  finalize cache n id = Ok (n', border) → sound_node D n0 n'.
Proof.
  intros Hk Hn HD. unfold try_finalize.
  pose proof (run_advances _ _ _ (proj1 Hn)) as Ha.
  assert (Hsame : ∀ b f, ¬ written f → get (repo_get (states n) b) f = get (repo_get (states n0) b) f)
    by (intros b f; apply (sa_facts _ _ (Ha b))).
  destruct (get _ parent_block_identifier) as [p|] eqn:Hp; [|by intros [= <- _]].
  destruct (negb _); [by intros [= <- _]|].
  destruct (get _ finalizes_blocks) as [X|] eqn:HX; [|by intros [= <- _]].
  destruct shutdown eqn:Hsd; [by intros [= <- _]|]. rewrite <- Hsd.
  rewrite Hsame in Hp, HX by (unfold written; naive_solver).
  intros (l & Hl%sort_by_seq_no_perm & Hrest)%outcome_bind_Ok.
  apply outcome_bind_Ok in Hrest as ([[n1 border1] max] & Hfold & Hrest).
  apply outcome_bind_Ok in Hrest as (r & Hstale & Hok).
  injection Hok as <- _.
  assert (sound_node D n0 n1) as [Hr1 Hm1].
  { change n1 with (n1, border1, max).1.1.
    refine (fold_outcome_ind _ (λ acc, sound_node D n0 acc.1.1) _ _ _ _ _ Hfold); [|done].
    intros [[n2 border2] max2] b [[n3 border3] max3] Hb Hn2 Hone.
    eapply sound_node_finalize_one; [done|done|exact Hn2| |exact Hone].
    apply HD. exists p, X. split_and!; [done..|].
    rewrite Hl, set_iter_elements in Hb. by apply elem_of_elements. }
  split; [|exact Hm1]. simpl. destruct (bool_decide _); [by apply Ok_inj in Hstale as <-|].
  by eapply sound_run_stale.
Qed.

Lemma sound_node_queue D n0 cache n cutoff queue n' :
  keyed cache → sound_node D n0 n →
  (∀ e b, e ∈ queue → declared_at (states n0) e.1 b → D b) →
  finalize_queue set_iter thread_iter shutdown save_metadata_and_state send_raw_block
    has_optimistic_state cache n cutoff queue = Ok n' → sound_node D n0 n'.
Proof.
  intros Hk. revert n cutoff. induction queue as [|[id e] queue IH]; intros n cutoff Hn HD; simpl;
    [by intros <-%Ok_inj|].
  destruct shutdown eqn:Hsd; [by intros <-%Ok_inj|]. rewrite <- Hsd in *.
  case_bool_decide; [by intros <-%Ok_inj|].
  intros ([n1 border] & Hone%unwrap_ok_inv & Hrest)%outcome_bind_Ok.
  apply sound_node_try with (D := D) (n0 := n0) in Hone; [|done..|].
  - eapply IH; [exact Hone| |exact Hrest]. intros e' b He. apply HD. by right.
  - intros b. apply (HD (id, e)). by left.
Qed.

(** C3 (finality is closed under parents): an iteration of the finalization loop of a thread,
    on any candidates, keeps the invariant that every final block the node did not start from
    satisfies all conditions of [can_be_finalized] and that a block which is told its parent
    is final has a final parent.  It makes a block final only if the parent of some candidate
    declares it finalized, it never revokes the finality of a block, and the sequence number
    of the last finalized block of a thread never decreases. *)
Theorem finalization_keeps_finality t cache m n n' :
  represents cache m → finality (states n) → iteration t cache n = Ok n' →
  finality (states n') ∧
  (∀ b, is_finalized (repo_get (states n') b) = true →
     is_finalized (repo_get (states n) b) = true ∨
     ∃ id e, (id, e) ∈ clone_queue cache ∧ declared_at (states n) id b) ∧
  (∀ b, is_finalized (repo_get (states n) b) = true → is_finalized (repo_get (states n') b) = true) ∧
  metadatas_le (metadatas n) (metadatas n').
Proof.
  intros Hm Hfin. unfold finalization_iteration.
  set (D := λ b, ∃ id e, (id, e) ∈ clone_queue cache ∧ declared_at (states n) id b).
  assert (sound_node D n n) as Hn by (split; [split; [done|done|auto]|done]).
  intros Hrun. assert (sound_node D n n') as [[Ha Hf Hd] Hmeta]; [|split_and!; try done].
  - destruct (metadatas n !! t) as [meta|]; [|by apply Ok_inj in Hrun as <-].
    apply outcome_bind_Ok in Hrun as (h & _ & Hrun).
    eapply sound_node_queue; [by eapply represents_keyed|exact Hn| |exact Hrun].
    intros [id e] b He Hb. by exists id, e.
  - intros b. apply (sa_final _ _ (Ha b)).
Qed.
End finality.

(** ** Evaluation *)
Section finalization_witnesses.
#[local] Existing Instance LinearBlst.
Notation State := (AckiNackiBlockState (H := LinearBlst) unit).

(** A chain of four blocks: block 1 is final, block 2 may become final, block 3 declares it
    final, block 4 is the candidate on top. *)
Definition chain_state (n : Z) : State :=
  let s := AckiNackiBlockState_new (example_block n) in
  let s := with_fact s block_seq_no n in
  let s := with_fact s parent_block_identifier (example_block (n - 1)) in
  let s := with_fact s block_height (example_height n) in
  let s := with_fact s attestation_target example_targets in
  let s := with_fact s has_cross_thread_ref_data_prepared true in
  add_child s example_thread (example_block (n + 1)).

Definition root_state : State := set_finalized (chain_state 1).
Definition ready_state : State :=
  let s := with_fact (chain_state 2) signatures_verified true in
  let s := with_fact s applied true in
  let s := with_fact s has_parent_finalized true in
  with_fact s has_all_cross_thread_ref_data_available true.
Definition declaring_state : State := with_fact (chain_state 3) finalizes_blocks {[example_block 2]}.
Definition tip_state : State :=
  with_fact (with_fact (AckiNackiBlockState_new (example_block 4)) parent_block_identifier
               (example_block 3)) has_cross_thread_ref_data_prepared true.

Definition chain_repo : Repository unit :=
  <[example_block 1 := root_state]> (<[example_block 2 := ready_state]>
    (<[example_block 3 := declaring_state]> {[ example_block 4 := tip_state ]})).

Definition chain_operations : list (Operation (H := LinearBlst)) :=
  [Insert (example_block 2) (example_candidate 2); Insert (example_block 3) (example_candidate 3);
   Insert (example_block 4) (example_candidate 4)].
Definition chain_cache : UnfinalizedBlocks := foldl run UnfinalizedBlocks_default chain_operations.

Definition chain_node : Node (NackData := unit) :=
  mkNode chain_repo (CollectedAttestations_default) {[ example_thread := mkMetadata (example_block 1) 1 None ]}
    (FinalizedBlockStorage_new 10) [].

Definition chain_run :=
  finalization_iteration (NackData := unit) elements elements false (λ _, Ok ()) (λ _, true) (λ _, true)
    example_thread chain_cache chain_node.

Definition chain_summary (o : outcome FinalizationError (Node (NackData := unit))) : bool :=
  match o with
  | Ok n =>
      is_finalized (repo_get (states n) (example_block 2)) &&
      is_set (repo_get (states n) (example_block 3)) has_parent_finalized true &&
      bool_decide (last_finalized_block_seq_no <$> metadatas n !! example_thread = Some 2%Z)
  | _ => false
  end.

Lemma chain_repo_get b :
  repo_get chain_repo b =
    if decide (b = example_block 1) then root_state
    else if decide (b = example_block 2) then ready_state
    else if decide (b = example_block 3) then declaring_state
    else if decide (b = example_block 4) then tip_state else fresh_state b.
Proof.
  unfold chain_repo. rewrite !repo_get_insert. do 3 (case_decide; [done|]).
  unfold repo_get. case_decide; [subst; by rewrite lookup_singleton_eq|].
  by rewrite lookup_singleton_ne.
Qed.

Lemma chain_child n t c :
  c ∈ default ∅ (known_children (chain_state n) t) → c = example_block (n + 1).
Proof.
  unfold known_children, chain_state. rewrite add_child_map. simpl. rewrite lookup_empty. simpl.
  destruct (decide (example_thread = t)) as [<-|].
  - rewrite lookup_insert_eq. simpl. set_solver.
  - rewrite lookup_insert_ne by done. rewrite lookup_empty. set_solver.
Qed.

Lemma fresh_child b t c :
  c ∈ default ∅ (known_children (fresh_state (H := LinearBlst) (NackData := unit) b) t) → False.
Proof. unfold fresh_state. case_decide; simpl; unfold known_children; simpl; rewrite lookup_empty; set_solver. Qed.

Lemma chain_finality : finality {[example_block 1]} chain_repo.
Proof.
  split.
  - intros b. rewrite chain_repo_get. case_decide; [set_solver|]. do 3 (case_decide; [done|]).
    unfold fresh_state. by case_decide.
  - intros b. rewrite chain_repo_get. case_decide; [done|].
    case_decide; [intros _; exists (example_block 1); split; [done|vm_compute; reflexivity]|].
    do 2 (case_decide; [done|]). unfold fresh_state. by case_decide.
  - intros a t c. rewrite (chain_repo_get a).
    case_decide as H1; [subst a; intros Hc%(chain_child 1); subst c; vm_compute; reflexivity|].
    case_decide as H2; [subst a; intros Hc%(chain_child 2); subst c; vm_compute; reflexivity|].
    case_decide as H3; [subst a; intros Hc%(chain_child 3); subst c; vm_compute; reflexivity|].
    case_decide as H4; [|by intros ?%fresh_child].
    unfold tip_state, known_children. simpl. rewrite lookup_empty. set_solver.
Qed.

Lemma chain_allowed : all_allowed ∅ chain_operations.
Proof. by split_and!; try (intros v Hv; vm_compute in Hv; discriminate Hv). Qed.

(** One iteration makes block 2 final, tells block 3 and moves the thread forward. *)
Lemma finalization_keeps_finality_witness :
  ∃ n', chain_run = Ok n' ∧ is_finalized (repo_get (states n') (example_block 2)) = true ∧
    finality {[example_block 1]} (states n').
Proof.
  assert (Hok : chain_summary chain_run = true) by (vm_compute; reflexivity).
  destruct chain_run as [n'| |] eqn:Hrun; [|discriminate Hok..].
  exists n'. split; [reflexivity|]. apply andb_prop in Hok as [[Hok _]%andb_prop _].
  split; [exact Hok|].
  refine (proj1 (finalization_keeps_finality elements (λ X, reflexivity _) elements false (λ _, Ok ())
    (λ _, true) (λ _, true) {[example_block 1]} example_thread chain_cache
    (foldl run_spec ∅ chain_operations) chain_node n' _ chain_finality Hrun)).
  exact (runs_represent _ _ _ chain_allowed represents_empty).
Defined.
End finalization_witnesses.
