(* ===== verification/MessageStore.v ===== *)
(** * The durable storage of messages

    Models [storage/internal_messages/message_storage.rs] (messages and their index in a
    key-value store), [storage/cache/mod.rs] (the cache in front of the store),
    [types/message_storage.rs] and [libs/account-inbox/src/storage/read.rs] (the interface the
    message ranges use).

    [DurableStorageRead] is the interface and [StorageOk] what it promises to the message
    ranges: from every stored message on, the messages of its account in the order in which
    they were written.  [represents] relates the records of the key-value store to the logs of
    the accounts, and the storage is shown to keep the promise.  The Aerospike client, the
    cache of the crate [cached], the serializer and the message format are parameters. *)
From Stdlib Require Import Ascii.
From stdpp Require Import base numbers gmap strings fin_maps sorting list pretty.
From S2P Require Import Prelude Identifiers Bls.

(** ** The interface of the storage *)
Inductive LoadErr := NoState | DeserializationError.
#[global] Instance LoadErr_eq_dec : EqDecision LoadErr.
Proof. solve_decision. Defined.

Class DurableStorageRead (Storage MessageKey Message : Type) := {
  load_message : Storage → MessageKey → outcome LoadErr Message;
  next_key : Storage → MessageKey → outcome LoadErr (option MessageKey);
  remaining_messages : Storage → MessageKey → nat → outcome LoadErr (list Message);
}.

(** [MessageKey: From<Message>]; a conversion that panics is [None]. *)
Class KeyFrom (MessageKey Message : Type) := key_from : Message → option MessageKey.

(** What the storage promises: [chain k] lists the message of [k] and the messages of its
    account that follow it; it is empty when the key is not stored. *)
Record StorageOk {Storage MessageKey Message : Type}
    `{DurableStorageRead Storage MessageKey Message} `{KeyFrom MessageKey Message}
    (s : Storage) (chain : MessageKey → list Message) : Prop := {
  chain_keys k : Forall (λ m, is_Some (key_from (MessageKey := MessageKey) m)) (chain k);
  chain_head k m l : chain k = m :: l → key_from m = Some k;
  chain_step k m m' l k' : chain k = m :: m' :: l → key_from m' = Some k' → chain k' = m' :: l;
  chain_nodup k : NoDup (chain k);
  chain_load k m : key_from m = Some k →
    load_message s k = match chain k with m :: _ => Ok m | [] => Err NoState end;
  chain_next k m : key_from m = Some k →
    next_key s k = Ok (match chain k with _ :: m :: _ => key_from m | _ => None end);
  chain_remaining k m limit : key_from m = Some k → 0 < limit →
    remaining_messages s k limit = Ok (take limit (chain k));
}.

(** ** Keys, bins and the key-value store *)
Inductive Value := VInt (z : Z) | VBlob (b : list Z) | VString (s : string).
#[global] Instance Value_eq_dec : EqDecision Value.
Proof. solve_decision. Defined.

(** [BinMap = HashMap<String, Value>] *)
Abbreviation BinMap := (gmap string Value).

Definition BIN_HASH : string := "hash".
Definition BIN_BLOB : string := "blob".
Definition BIN_SEQ : string := "seq".
Definition NAMESPACE : string := "node".

(** An Aerospike key: namespace, set and user key. *)
Record Key := mkKey { key_namespace : string; key_set : string; key_user : string }.
#[global] Instance Key_eq_dec : EqDecision Key.
Proof. solve_decision. Defined.
#[global] Instance Key_countable : Countable Key.
Proof.
  refine (inj_countable' (λ k, (key_namespace k, key_set k, key_user k))
            (λ '(n, s, u), mkKey n s u) _). by intros [].
Defined.

(** The trait [KeyValueStore]; the error of [anyhow] carries no data. *)
Class KeyValueStore (B : Type) := {
  kv_get : B → Key → list string → outcome unit (option BinMap);
  kv_put : B → Key → list (string * Value) → bool → outcome unit B;
  kv_batch_get : B → list (Key * list string) → outcome unit (list (option BinMap));
}.

(** [NoopStore] *)
#[global] Instance NoopStore : KeyValueStore unit := {
  kv_get _ _ _ := Ok None;
  kv_put _ _ _ _ := Ok tt;
  kv_batch_get _ _ := Ok [None];
}.

(** ** The cache in front of the store

    [cache_get] may refresh the entry, so it returns the cache too. *)
Class Cache (C : Type) := {
  cache_get : C → Key → C * option BinMap;
  cache_put : C → Key → BinMap → C;
}.

Definition bins_to_map (bins : list (string * Value)) : BinMap :=
  foldl (λ m b, <[b.1 := b.2]> m) ∅ bins.

Section cached_store.
Context {B C : Type} `{KeyValueStore B} `{Cache C}.

Record CachedStore := mkCachedStore { cs_db : B; cs_cache : C }.

Definition CachedStore_get (s : CachedStore) (key : Key) (bins : list string) :
    outcome unit (CachedStore * option BinMap) :=
  let '(cache, hit) := cache_get (cs_cache s) key in
  match hit with
  | Some v => Ok (mkCachedStore (cs_db s) cache, Some v)
  | None =>
      kv_get (cs_db s) key bins ≫= λ found,
      match found with
      | Some v => Ok (mkCachedStore (cs_db s) (cache_put cache key v), Some v)
      | None => Ok (mkCachedStore (cs_db s) cache, None)
      end
  end.

Definition CachedStore_put (s : CachedStore) (key : Key) (bins : list (string * Value))
    (until_success : bool) : outcome unit CachedStore :=
  kv_put (cs_db s) key bins until_success ≫= λ db,
  Ok (mkCachedStore db (cache_put (cs_cache s) key (bins_to_map bins))).

(** The first loop of [batch_get]: [out] from the cache, and the reads that missed with
    their place in [out]. *)
Fixpoint batch_from_cache (cache : C) (i : nat) (reads : list (Key * list string)) :
    C * list (option BinMap) * list (nat * (Key * list string)) :=
  match reads with
  | [] => (cache, [], [])
  | r :: reads =>
      let '(cache, hit) := cache_get cache r.1 in
      let '(cache, out, missed) := batch_from_cache cache (S i) reads in
      match hit with
      | Some v => (cache, Some v :: out, missed)
      | None => (cache, None :: out, (i, r) :: missed)
      end
  end.

(** The second loop: [out_idx[j]] and [keys_for_cache[j]] panic out of range. *)
Fixpoint batch_from_db (cache : C) (out : list (option BinMap))
    (missed : list (nat * (Key * list string))) (results : list (option BinMap)) :
    outcome unit (C * list (option BinMap)) :=
  match results, missed with
  | [], _ => Ok (cache, out)
  | Some v :: results, (i, r) :: missed =>
      batch_from_db (cache_put cache r.1 v) (<[i := Some v]> out) missed results
  | None :: results, _ :: missed => batch_from_db cache out missed results
  | Some _ :: _, [] => Panic
  | None :: results, [] => batch_from_db cache out [] results
  end.

Definition CachedStore_batch_get (s : CachedStore) (reads : list (Key * list string)) :
    outcome unit (CachedStore * list (option BinMap)) :=
  let '(cache, out, missed) := batch_from_cache (cs_cache s) 0 reads in
  match missed with
  | [] => Ok (mkCachedStore (cs_db s) cache, out)
  | _ =>
      kv_batch_get (cs_db s) (snd <$> missed) ≫= λ results,
      batch_from_db cache out missed results ≫= λ '(cache, out),
      Ok (mkCachedStore (cs_db s) cache, out)
  end.

(** As a [KeyValueStore]: what a call returns.  What a read leaves in the cache is not
    visible to later calls ([cached_store_transparent]). *)
#[global] Instance CachedStore_kv : KeyValueStore CachedStore := {
  kv_get s key bins := snd <$> CachedStore_get s key bins;
  kv_put := CachedStore_put;
  kv_batch_get s reads := snd <$> CachedStore_batch_get s reads;
}.
End cached_store.
Arguments CachedStore : clear implicits.
Arguments mkCachedStore {B C} _ _.

(** ** Messages *)
Definition hex_digit (n : Z) : string :=
  if bool_decide (n < 10)%Z then String (Ascii.ascii_of_nat (48 + Z.to_nat n)) ""
  else String (Ascii.ascii_of_nat (87 + Z.to_nat n)) "".
Definition byte_hex (b : Z) : string := hex_digit (b / 16) +:+ hex_digit (b `mod` 16).
Definition to_hex_string (a : AccountAddress) : string :=
  foldr (λ b s, byte_hex b +:+ s) "" (account_bytes a).

(** The block library: the representation hash of a message in hexadecimal and the account
    it is for, if its destination is internal. *)
Class TvmMessage (M : Type) := {
  message_hash : M → option string;
  int_dst_account_id : M → option AccountAddress;
}.

Record MessageIdentifier := mkMessageId { id_workchain : Z; id_prefix : Z; id_hash : string }.
#[global] Instance MessageIdentifier_eq_dec : EqDecision MessageIdentifier.
Proof. solve_decision. Defined.
#[global] Instance MessageIdentifier_countable : Countable MessageIdentifier.
Proof.
  refine (inj_countable' (λ k, (id_workchain k, id_prefix k, id_hash k))
            (λ '(w, p, h), mkMessageId w p h) _). by intros [].
Defined.

(** [get_next_u64]: the first eight bytes, the most significant one first. *)
Definition get_next_u64 (a : AccountAddress) : option Z :=
  if bool_decide (8 ≤ length (account_bytes a))
  then Some (foldl (λ acc b, 256 * acc + b)%Z 0%Z (take 8 (account_bytes a))) else None.

Definition MessageIdentifier_from {M} `{TvmMessage M} (m : M) : option MessageIdentifier :=
  dest ← int_dst_account_id m;
  prefix ← get_next_u64 dest;
  hash ← message_hash m;
  Some (mkMessageId 0 prefix hash).

Class Bincode (M : Type) := {
  bincode_put : M → option (list Z);
  bincode_get : list Z → option M;
}.

(** ** MessageDurableStorage

    The feature [messages_db] is on.  The store and the set prefix are shared by all clones;
    [seq] is the counter of every destination. *)
Definition BATCH_SIZE : nat := 50.

Section message_storage.
Context {B M : Type} `{KeyValueStore B} `{TvmMessage M} `{Bincode M}.
Variable set_prefix : string.

Record MessageDurableStorage := mkMessageStorage {
  mds_store : option B;
  mds_seq : gmap string Z;
}.

Definition MessageDurableStorage_new (store : B) : MessageDurableStorage :=
  mkMessageStorage (Some store) ∅.
Definition as_noop : MessageDurableStorage := mkMessageStorage None ∅.

Definition message_key (hash : string) : Key := mkKey NAMESPACE set_prefix hash.
Definition index_key (account : string) (seq : Z) : Key :=
  mkKey NAMESPACE set_prefix (account +:+ "-" +:+ pretty seq).

(** One message of [write_messages]; [now] is the clock in milliseconds, read only when the
    destination has no counter yet. *)
Definition write_message (now : Z) (dest : string) (s : MessageDurableStorage)
    (message : MessageIdentifier * M) : outcome unit MessageDurableStorage :=
  match mds_store s with
  | None => Panic
  | Some store =>
      unwrap (message_hash message.2) ≫= λ hash,
      ok_or (bincode_put message.2) tt ≫= λ blob,
      checked_i64 (default now (mds_seq s !! dest) + 1) ≫= λ next_seq,
      kv_put store (message_key hash) [(BIN_BLOB, VBlob blob); (BIN_SEQ, VInt next_seq)] true
        ≫= λ store,
      kv_put store (index_key dest next_seq) [(BIN_HASH, VString hash)] true ≫= λ store,
      Ok (mkMessageStorage (Some store) (<[dest := next_seq]> (mds_seq s)))
  end.

Definition write_account (now : Z) (s : MessageDurableStorage)
    (entry : AccountAddress * list (MessageIdentifier * M)) : outcome unit MessageDurableStorage :=
  fold_outcome (write_message now (to_hex_string entry.1)) s entry.2.

(** [messages] in the order in which the hash map is visited. *)
Definition write_messages (now : Z) (s : MessageDurableStorage)
    (messages : list (AccountAddress * list (MessageIdentifier * M))) :
    outcome unit MessageDurableStorage :=
  match mds_store s with
  | None => Panic
  | Some _ => fold_outcome (write_account now) s messages
  end.

(** The sequence number and the message of a record. *)
Definition decode_record (record : BinMap) : outcome unit (Z * M) :=
  match record !! BIN_SEQ with
  | Some (VInt seq) =>
      match record !! BIN_BLOB with
      | Some (VBlob blob) => ok_or (bincode_get blob) tt ≫= λ m, Ok (seq, m)
      | _ => Err tt
      end
  | _ => Err tt
  end.

Definition read_message (s : MessageDurableStorage) (hash : string) :
    outcome unit (option (Z * M)) :=
  match mds_store s with
  | None => Ok None
  | Some store =>
      kv_get store (message_key hash) [BIN_SEQ; BIN_BLOB] ≫= λ found,
      match found with
      | Some bins => decode_record bins ≫= λ r, Ok (Some r)
      | None => Ok None
      end
  end.

Definition get_rowid_by_hash (s : MessageDurableStorage) (hash : string) : outcome unit (option Z) :=
  read_message s hash ≫= λ found : option (Z * M), Ok (fst <$> found).

Definition batch_read_messages (s : MessageDurableStorage) (hashes : list string) :
    outcome unit (list (Z * M)) :=
  match mds_store s with
  | None => Ok []
  | Some store =>
      kv_batch_get store ((λ hash, (message_key hash, [BIN_SEQ; BIN_BLOB])) <$> hashes)
        ≫= λ results,
      map_outcome decode_record (omap id results)
  end.

Definition decode_index (record : BinMap) : outcome unit string :=
  match record !! BIN_HASH with Some (VString hash) => Ok hash | _ => Err tt end.

Definition batch_get_hashes_by_rowid (s : MessageDurableStorage) (dest : string) (seqs : list Z) :
    outcome unit (list string) :=
  match mds_store s with
  | None => Ok []
  | Some store =>
      kv_batch_get store ((λ seq, (index_key dest seq, [BIN_HASH])) <$> seqs) ≫= λ results,
      map_outcome decode_index (omap id results)
  end.

Fixpoint monotonic_prefix_len (xs : list Z) : nat :=
  match xs with
  | [] => 0
  | x :: (y :: _) as tail =>
      if bool_decide (x + 1 = y)%Z then S (monotonic_prefix_len tail) else 1
  | [_] => 1
  end.

Definition by_seq (a b : Z * M) : Prop := (a.1 ≤ b.1)%Z.
#[global] Instance by_seq_dec : RelDecision by_seq.
Proof. intros a b. unfold by_seq. apply _. Defined.

Definition next_simple (s : MessageDurableStorage) (dest : string) (start_cursor : Z) (limit : nat) :
    outcome unit (list M * option Z) :=
  checked_i64 (start_cursor + 1) ≫= λ next_cursor,
  checked_i64 (next_cursor + Z.of_nat limit) ≫= λ _,
  batch_get_hashes_by_rowid s dest (seqZ next_cursor (Z.of_nat limit)) ≫= λ hashes,
  batch_read_messages s hashes ≫= λ xs,
  let xs := merge_sort by_seq xs in
  match xs with
  | first :: _ =>
      if bool_decide (first.1 = next_cursor) then
        let xs := take (monotonic_prefix_len (fst <$> xs)) xs in
        Ok (snd <$> xs, fst <$> last xs)
      else Ok ([], None)
  | [] => Ok ([], None)
  end.

(** *** impl DurableStorageRead *)
Definition map_load_err {A} (e : LoadErr) (o : outcome unit A) : outcome LoadErr A :=
  match o with Ok a => Ok a | Err _ => Err e | Panic => Panic end.

Definition storage_load_message (s : MessageDurableStorage) (key : MessageIdentifier) :
    outcome LoadErr M :=
  map_load_err NoState (read_message s (id_hash key)) ≫= λ found,
  ok_or found NoState ≫= λ '(_, m), Ok m.

Definition storage_next (s : MessageDurableStorage) (key : MessageIdentifier) :
    outcome LoadErr (option MessageIdentifier) :=
  map_load_err NoState (read_message s (id_hash key)) ≫= λ found,
  match found with
  | None => Ok None
  | Some (row_id, stored) =>
      ok_or (int_dst_account_id stored) DeserializationError ≫= λ dest,
      map_load_err NoState (next_simple s (to_hex_string dest) row_id 1) ≫= λ '(messages, _),
      match messages with
      | [m] =>
          ok_or (message_hash m) DeserializationError ≫= λ hash,
          Ok (Some (mkMessageId (id_workchain key) (id_prefix key) hash))
      | _ => Ok None
      end
  end.

(** The loop of [remaining_messages]; [limit] turns is enough, as every turn that does not
    leave the loop lowers [limit]. *)
Fixpoint remaining_loop (fuel : nat) (s : MessageDurableStorage) (dest : string) (row_id : Z)
    (limit : nat) (res : list M) : outcome LoadErr (list M) :=
  match fuel with
  | 0 => Ok res
  | S fuel =>
      if bool_decide (limit = 0) then Ok res else
      let requested_cnt := min BATCH_SIZE limit in
      map_load_err NoState (next_simple s dest row_id requested_cnt) ≫= λ '(messages, last_row_id),
      let messages_cnt := length messages in
      let res := res ++ messages in
      if bool_decide (messages_cnt = requested_cnt) then
        unwrap last_row_id ≫= λ row_id,
        remaining_loop fuel s dest row_id (limit - messages_cnt) res
      else Ok res
  end.

Definition storage_remaining_messages (s : MessageDurableStorage) (starting_key : MessageIdentifier)
    (limit : nat) : outcome LoadErr (list M) :=
  map_load_err NoState (read_message s (id_hash starting_key)) ≫= λ found,
  match found with
  | None => Ok []
  | Some (row_id, stored) =>
      ok_or (int_dst_account_id stored) DeserializationError ≫= λ dest,
      match limit with
      | 0 => Panic
      | S limit => remaining_loop limit s (to_hex_string dest) row_id limit [stored]
      end
  end.
End message_storage.
Arguments MessageDurableStorage : clear implicits.
Arguments mkMessageStorage {B} _ _.

#[global] Instance MessageIdentifier_key {M} `{TvmMessage M} : KeyFrom MessageIdentifier M :=
  MessageIdentifier_from.

(** ** What a key-value store promises

    A reliable store: a read returns the requested bins of the record, a write sets the bins
    it names and keeps the others.  [AerospikeStore] can also return an error from a read or a
    write, which the operations above pass on; the theorems are about runs in which it does not. *)
Definition select (bins : list string) (record : BinMap) : BinMap :=
  filter (λ kv, kv.1 ∈ bins) record.

Class KeyValueLaws (B : Type) `{KeyValueStore B} := {
  kv_view : B → gmap Key BinMap;
  kv_get_view s k bins : kv_get s k bins = Ok (select bins <$> kv_view s !! k);
  kv_put_view s k bins u : ∃ s', kv_put s k bins u = Ok s' ∧
    kv_view s' = <[k := bins_to_map bins ∪ default ∅ (kv_view s !! k)]> (kv_view s);
  kv_batch_view s reads :
    kv_batch_get s reads = Ok ((λ r, select r.2 <$> kv_view s !! r.1) <$> reads);
}.

(** A store in memory. *)
Abbreviation MapStore := (gmap Key BinMap).
#[global] Instance MapStore_kv : KeyValueStore MapStore := {
  kv_get s k bins := Ok (select bins <$> s !! k);
  kv_put s k bins _ := Ok (<[k := bins_to_map bins ∪ default ∅ (s !! k)]> s);
  kv_batch_get s reads := Ok ((λ r, select r.2 <$> s !! r.1) <$> reads);
}.
#[global] Instance MapStore_laws : KeyValueLaws MapStore.
Proof. refine {| kv_view := λ s, s |}; intros; simpl; eauto. Defined.

(** A cache may drop any entry, but it never invents or alters one. *)
Class CacheLaws (C : Type) `{Cache C} := {
  cache_view : C → gmap Key BinMap;
  cache_get_view c k : (cache_get c k).2 = cache_view c !! k ∧
    cache_view (cache_get c k).1 ⊆ cache_view c;
  cache_put_view c k v : cache_view (cache_put c k v) ⊆ <[k := v]> (cache_view c);
}.

(** A cache of one entry, and one that keeps everything. *)
#[global] Instance OneEntryCache : Cache (option (Key * BinMap)) := {
  cache_get c k := (c, '(k', v) ← c; guard (k = k');; Some v);
  cache_put _ k v := Some (k, v);
}.
#[global] Instance OneEntryCache_laws : CacheLaws (option (Key * BinMap)).
Proof.
  refine {| cache_view c := match c with Some (k, v) => {[ k := v ]} | None => ∅ end |}.
  - intros [[k' v]|] k; simpl; [|split; [by rewrite lookup_empty|done]].
    split; [|done]. case_guard; [subst; by rewrite lookup_singleton_eq|].
    by rewrite lookup_singleton_ne.
  - intros c k v. simpl. apply map_subseteq_spec. intros k' v'.
    destruct (decide (k = k')) as [->|]; [by rewrite lookup_singleton_eq, lookup_insert_eq|].
    by rewrite lookup_singleton_ne.
Defined.

(** ** The cache is transparent *)
Section cached_proofs.
Context {B C : Type} `{KeyValueLaws B} `{CacheLaws C}.
(** The bins of the record of a key: all records of a key have the same bins. *)
Variable schema : Key → list string.
Implicit Types (s : CachedStore B C) (V : gmap Key BinMap) (c : C).

Definition cache_coherent V c : Prop :=
  ∀ k v, cache_view c !! k = Some v → V !! k = Some v.
Definition in_schema V : Prop := ∀ k v b, V !! k = Some v → is_Some (v !! b) → b ∈ schema k.
Definition coherent s : Prop :=
  cache_coherent (kv_view (cs_db s)) (cs_cache s) ∧ in_schema (kv_view (cs_db s)).

Inductive KvOp :=
  | OpGet (k : Key) (bins : list string)
  | OpPut (k : Key) (bins : list (string * Value)) (until_success : bool)
  | OpBatch (reads : list (Key * list string)).

(** A call uses the bins of the key: a read asks for all of them, a write sets them all. *)
Definition op_ok (o : KvOp) : Prop :=
  match o with
  | OpGet k bins => schema k ⊆ bins
  | OpPut k bins _ => ∀ b, b ∈ schema k ↔ is_Some (bins_to_map bins !! b)
  | OpBatch reads => ∀ r, r ∈ reads → schema r.1 ⊆ r.2
  end.

Definition run_db (o : KvOp) (b : B) : outcome unit (B * list (option BinMap)) :=
  match o with
  | OpGet k bins => kv_get b k bins ≫= λ v, Ok (b, [v])
  | OpPut k bins u => kv_put b k bins u ≫= λ b, Ok (b, [])
  | OpBatch reads => kv_batch_get b reads ≫= λ vs, Ok (b, vs)
  end.

Definition run_cached (o : KvOp) s : outcome unit (CachedStore B C * list (option BinMap)) :=
  match o with
  | OpGet k bins => CachedStore_get s k bins ≫= λ '(s, v), Ok (s, [v])
  | OpPut k bins u => CachedStore_put s k bins u ≫= λ s, Ok (s, [])
  | OpBatch reads => CachedStore_batch_get s reads
  end.

Fixpoint run_all {St A} (run : KvOp → St → outcome unit (St * list A)) (ops : list KvOp) (s : St) :
    outcome unit (St * list (list A)) :=
  match ops with
  | [] => Ok (s, [])
  | o :: ops => run o s ≫= λ '(s, a), run_all run ops s ≫= λ '(s, answers), Ok (s, a :: answers)
  end.

Lemma select_all k bins v V :
  in_schema V → V !! k = Some v → schema k ⊆ bins → select bins v = v.
Proof.
  intros HV Hk Hsub. apply map_filter_id. intros b x Hb. apply Hsub. eapply HV; eauto.
Qed.

Lemma select_lookup k bins V :
  in_schema V → schema k ⊆ bins → select bins <$> V !! k = V !! k.
Proof.
  intros HV Hsub. destruct (V !! k) as [v|] eqn:Hk; simpl; [|done].
  by rewrite (select_all k bins v V).
Qed.

Lemma cache_coherent_get V c k : cache_coherent V c → cache_coherent V (cache_get c k).1.
Proof.
  intros Hc k' v Hv. apply Hc. destruct (cache_get_view c k) as [_ Hsub].
  by eapply lookup_weaken.
Qed.

Lemma cache_coherent_put V c k v :
  cache_coherent V c → V !! k = Some v → cache_coherent V (cache_put c k v).
Proof.
  intros Hc HV k' v' Hv'. pose proof (lookup_weaken _ _ _ _ Hv' (cache_put_view c k v)) as Hl.
  destruct (decide (k = k')) as [<-|]; [rewrite lookup_insert_eq in Hl; congruence|].
  rewrite lookup_insert_ne in Hl by done. by apply Hc.
Qed.

Lemma cached_get_ok s k bins : coherent s → schema k ⊆ bins →
  ∃ s', CachedStore_get s k bins = Ok (s', kv_view (cs_db s) !! k) ∧
        cs_db s' = cs_db s ∧ coherent s'.
Proof.
  intros [Hc HV] Hsub. unfold CachedStore_get.
  destruct (cache_get_view (cs_cache s) k) as [Hhit _].
  pose proof (cache_coherent_get _ _ k Hc) as Hc'.
  destruct (cache_get (cs_cache s) k) as [c' [v|]] eqn:Hg; simpl in *.
  - symmetry in Hhit. rewrite (Hc _ _ Hhit). eexists. split; [done|]. by split.
  - rewrite kv_get_view; simpl. rewrite select_lookup by done.
    destruct (kv_view (cs_db s) !! k) as [v|] eqn:Hk; eexists; (split; [done|]); [|by split].
    split; [done|]. split; [by apply cache_coherent_put|done].
Qed.

Lemma cached_put_ok s k bins u : coherent s → op_ok (OpPut k bins u) →
  ∃ s', CachedStore_put s k bins u = Ok s' ∧ kv_put (cs_db s) k bins u = Ok (cs_db s') ∧ coherent s'.
Proof.
  intros [Hc HV] Hop. unfold CachedStore_put.
  destruct (kv_put_view (cs_db s) k bins u) as (b & Hput & Hview). rewrite Hput. simpl.
  eexists. split; [done|]. split; [done|].
  assert (bins_to_map bins ∪ default ∅ (kv_view (cs_db s) !! k) = bins_to_map bins) as Hu.
  { apply map_eq. intros b'. rewrite lookup_union.
    destruct (bins_to_map bins !! b') as [x|] eqn:Hb; [by rewrite union_Some_l|].
    rewrite option_union_left_id.
    destruct (kv_view (cs_db s) !! k) as [v|] eqn:Hk; simpl; [|apply lookup_empty].
    apply eq_None_not_Some. intros Hv. pose proof (HV _ _ _ Hk Hv) as Hin.
    apply Hop in Hin as [? ?]. congruence. }
  rewrite Hu in Hview. simpl. split; simpl.
  - rewrite Hview. intros k' v' Hv'.
    pose proof (lookup_weaken _ _ _ _ Hv' (cache_put_view (cs_cache s) k (bins_to_map bins))) as Hl.
    destruct (decide (k = k')) as [<-|]; [by rewrite lookup_insert_eq in *|].
    rewrite lookup_insert_ne in * by done. by apply Hc.
  - rewrite Hview. intros k' v' b' Hl Hb'. destruct (decide (k = k')) as [<-|].
    + rewrite lookup_insert_eq in Hl. simplify_eq. by apply Hop.
    + rewrite lookup_insert_ne in Hl by done. eauto.
Qed.

Lemma batch_from_cache_ok V reads i c c' out missed :
  cache_coherent V c → batch_from_cache c i reads = (c', out, missed) →
  cache_coherent V c' ∧
  ∀ d pre, cache_coherent V d → length pre = i →
    ∃ d', batch_from_db d (pre ++ out) missed ((λ r, V !! r.2.1) <$> missed) =
            Ok (d', pre ++ ((λ r, V !! r.1) <$> reads)) ∧ cache_coherent V d'.
Proof.
  revert i c c' out missed. induction reads as [|r reads IH]; intros i c c' out missed Hc; simpl.
  { intros [= <- <- <-]. split; [done|]. intros d pre Hd _. by exists d. }
  destruct (cache_get_view c r.1) as [Hhit _]. pose proof (cache_coherent_get _ _ r.1 Hc) as Hc1.
  destruct (cache_get c r.1) as [c1 hit]; simpl in *.
  destruct (batch_from_cache c1 (S i) reads) as [[c2 out2] missed2] eqn:Hrest.
  destruct (IH _ _ _ _ _ Hc1 Hrest) as [Hc2 Hdb].
  destruct hit as [v|]; intros [= <- <- <-]; (split; [done|]); intros d pre Hd Hpre.
  - symmetry in Hhit. rewrite (Hc _ _ Hhit).
    destruct (Hdb d (pre ++ [Some v]) Hd) as (d' & Hrun & Hd'); [rewrite length_app; simpl; lia|].
    exists d'. by rewrite <- !app_assoc in Hrun.
  - simpl. destruct (V !! r.1) as [v|] eqn:Hv.
    + rewrite <- Hpre, (insert_app_r_alt pre _ (length pre)) by lia. rewrite Nat.sub_diag. simpl.
      destruct (Hdb (cache_put d r.1 v) (pre ++ [Some v])) as (d' & Hrun & Hd');
        [by apply cache_coherent_put|rewrite length_app; simpl; lia|].
      exists d'. by rewrite <- !app_assoc in Hrun.
    + destruct (Hdb d (pre ++ [None]) Hd) as (d' & Hrun & Hd'); [rewrite length_app; simpl; lia|].
      exists d'. by rewrite <- !app_assoc in Hrun.
Qed.

Lemma batch_from_cache_missed c i reads c' out missed r :
  batch_from_cache c i reads = (c', out, missed) → r ∈ missed → r.2 ∈ reads.
Proof.
  revert i c c' out missed. induction reads as [|r0 reads IH]; intros i c c' out missed; simpl.
  { intros [= <- <- <-]. by intros ?%elem_of_nil. }
  destruct (cache_get c r0.1) as [c1 hit].
  destruct (batch_from_cache c1 (S i) reads) as [[c2 out2] missed2] eqn:Hrest.
  destruct hit; intros [= <- <- <-].
  - right. eauto.
  - intros [->|?]%elem_of_cons; [by left|right; eauto].
Qed.

Lemma cached_batch_ok s reads : coherent s → op_ok (OpBatch reads) →
  ∃ s', CachedStore_batch_get s reads = Ok (s', (λ r, kv_view (cs_db s) !! r.1) <$> reads) ∧
        cs_db s' = cs_db s ∧ coherent s'.
Proof.
  intros [Hc HV] Hop. unfold CachedStore_batch_get.
  destruct (batch_from_cache (cs_cache s) 0 reads) as [[c out] missed] eqn:Hcache.
  destruct (batch_from_cache_ok _ _ _ _ _ _ _ Hc Hcache) as [Hc' Hdb].
  destruct (Hdb c [] Hc' eq_refl) as (d' & Hrun & Hd'). simpl in Hrun.
  destruct missed as [|r0 missed0] eqn:Hm.
  { injection Hrun as -> ->. eexists. split; [done|]. by split. }
  rewrite <- Hm in *. rewrite kv_batch_view. simpl.
  assert ((λ r, select r.2 <$> kv_view (cs_db s) !! r.1) <$> (missed.*2) =
          (λ r, kv_view (cs_db s) !! r.2.1) <$> missed) as ->.
  { rewrite <- list_fmap_compose. apply list_fmap_ext. intros j r Hj. simpl.
    apply select_lookup; [done|]. apply Hop.
    eapply batch_from_cache_missed; [done|]. by eapply list_elem_of_lookup_2. }
  rewrite Hrun. simpl. eexists. split; [done|]. by split.
Qed.

Lemma run_cached_ok o s : coherent s → op_ok o →
  ∃ s' a, run_cached o s = Ok (s', a) ∧ run_db o (cs_db s) = Ok (cs_db s', a) ∧ coherent s'.
Proof.
  intros Hs Hop. destruct o as [k bins|k bins u|reads]; simpl.
  - destruct (cached_get_ok s k bins Hs Hop) as (s' & -> & Hdb & Hs'). simpl.
    rewrite kv_get_view, select_lookup by (apply Hs || done). simpl. rewrite <- Hdb. eauto.
  - destruct (cached_put_ok s k bins u Hs Hop) as (s' & -> & -> & Hs'). simpl. eauto.
  - destruct (cached_batch_ok s reads Hs Hop) as (s' & -> & Hdb & Hs'). simpl.
    rewrite kv_batch_view. simpl. do 2 eexists. split; [done|]. rewrite <- Hdb. split; [|done].
    do 2 f_equal. apply list_fmap_ext. intros j r Hj. rewrite Hdb.
    apply select_lookup; [apply Hs|]. apply Hop. by eapply list_elem_of_lookup_2.
Qed.

(** C29 (CachedStore): the cache in front of the key-value store is transparent.  Whatever
    entries the cache drops, as long as all records of a key have the same bins and every call
    names them all, any sequence of reads, writes and batch reads succeeds and returns what
    the store alone would return, and leaves the same records in the store, for a store whose
    own reads and writes succeed. *)
Theorem cached_store_transparent s ops :
  coherent s → Forall op_ok ops →
  ∃ s' answers, run_all run_cached ops s = Ok (s', answers) ∧
                run_all run_db ops (cs_db s) = Ok (cs_db s', answers) ∧ coherent s'.
Proof.
  intros Hs Hops. revert s Hs. induction Hops as [|o ops Ho Hops IH]; intros s Hs; simpl; [eauto|].
  destruct (run_cached_ok o s Hs Ho) as (s1 & a & -> & -> & Hs1). simpl.
  destruct (IH s1 Hs1) as (s2 & answers & -> & -> & Hs2). simpl. eauto.
Qed.
End cached_proofs.

(** ** Keys of the store are distinct *)
Lemma string_append_inj (a a' b b' : string) :
  String.length a = String.length a' → a +:+ b = a' +:+ b' → a = a' ∧ b = b'.
Proof.
  revert a'. induction a as [|x a IH]; intros [|x' a']; simpl; intros Hlen Heq; try lia; [done|].
  injection Heq as -> Heq. destruct (IH a' (eq_add_S _ _ Hlen) Heq) as [-> ->]. done.
Qed.

Lemma length_append (a b : string) : String.length (a +:+ b) = String.length a + String.length b.
Proof. induction a as [|x a IH]; simpl; [done|]. by rewrite IH. Qed.

Lemma hex_digit_table n : (0 ≤ n < 16)%Z →
  n ∈ [0; 1; 2; 3; 4; 5; 6; 7; 8; 9; 10; 11; 12; 13; 14; 15]%Z.
Proof.
  intros Hn. rewrite !elem_of_cons. lia.
Qed.

Lemma hex_digit_inj n m : (0 ≤ n < 16)%Z → (0 ≤ m < 16)%Z → hex_digit n = hex_digit m → n = m.
Proof.
  intros Hn%hex_digit_table Hm%hex_digit_table. revert n Hn m Hm.
  assert (∀ l l', Forall (λ n, Forall (λ m, bool_decide (hex_digit n = hex_digit m → n = m) = true) l') l →
          ∀ n, n ∈ l → ∀ m, m ∈ l' → hex_digit n = hex_digit m → n = m) as Hall.
  { intros l l' HF n Hn m Hm. rewrite Forall_forall in HF. specialize (HF n Hn).
    rewrite Forall_forall in HF. exact (bool_decide_eq_true_1 _ (HF m Hm)). }
  apply Hall. repeat constructor.
Qed.

Lemma length_hex_digit n : String.length (hex_digit n) = 1.
Proof. unfold hex_digit. by case_bool_decide. Qed.

Lemma length_byte_hex b : String.length (byte_hex b) = 2.
Proof. unfold byte_hex. by rewrite length_append, !length_hex_digit. Qed.

Lemma byte_hex_inj b b' : is_byte b → is_byte b' → byte_hex b = byte_hex b' → b = b'.
Proof.
  unfold is_byte, byte_hex. intros Hb Hb' [H1 H2]%string_append_inj; [|by rewrite !length_hex_digit].
  apply hex_digit_inj in H1; [|split; [apply Z.div_pos|apply Z.div_lt_upper_bound]; lia..].
  apply hex_digit_inj in H2; [|apply Z.mod_pos_bound; lia..].
  rewrite (Z.div_mod b 16), (Z.div_mod b' 16) by lia. congruence.
Qed.

Lemma length_to_hex a : AccountAddress_wf a → String.length (to_hex_string a) = 64.
Proof.
  intros [Hlen _]. unfold to_hex_string.
  assert (String.length (foldr (λ b s, byte_hex b +:+ s) "" (account_bytes a)) =
          2 * length (account_bytes a)) as ->; [|lia].
  clear Hlen. induction (account_bytes a) as [|b l IH]; simpl; [done|].
  rewrite length_append, length_byte_hex, IH. lia.
Qed.

Lemma to_hex_string_inj a a' :
  AccountAddress_wf a → AccountAddress_wf a' → to_hex_string a = to_hex_string a' → a = a'.
Proof.
  destruct a as [l], a' as [l']. unfold to_hex_string. simpl. intros [Hlen Hl] [Hlen' Hl'] Heq. simpl in *.
  f_equal. rewrite <- Hlen in Hlen'. clear Hlen. revert l' Hl' Hlen' Heq.
  induction Hl as [|b l Hb Hl IH]; intros [|b' l'] Hl' Hlen Heq; simpl in *; try lia; [done|].
  inversion Hl'; subst. apply string_append_inj in Heq as [Hh Heq]; [|by rewrite !length_byte_hex].
  apply byte_hex_inj in Hh as ->; [|done..]. f_equal. apply IH; [done|lia|done].
Qed.

Section keys.
Variable set_prefix : string.

Lemma message_key_inj h h' : message_key set_prefix h = message_key set_prefix h' → h = h'.
Proof. by intros [= ->]. Qed.

Lemma index_key_inj a a' n n' : AccountAddress_wf a → AccountAddress_wf a' →
  index_key set_prefix (to_hex_string a) n = index_key set_prefix (to_hex_string a') n' →
  a = a' ∧ n = n'.
Proof.
  intros Ha Ha' [= Heq].
  destruct (string_append_inj _ _ _ _ (eq_trans (length_to_hex a Ha) (eq_sym (length_to_hex a' Ha'))) Heq)
    as [Hh Hn].
  apply to_hex_string_inj in Hh as ->; [|done..]. split; [done|].
  injection Hn as Hn. exact (pretty_Z_inj _ _ Hn).
Qed.

Lemma message_index_ne a n h : AccountAddress_wf a → String.length h = 64 →
  message_key set_prefix h ≠ index_key set_prefix (to_hex_string a) n.
Proof.
  intros Ha Hh Heq. injection Heq as Heq. apply (f_equal String.length) in Heq.
  rewrite length_append, length_to_hex in Heq by done. simpl in Heq. lia.
Qed.
End keys.

Lemma concat_one {A} (ls : list (list A)) l i : ls !! i = Some l →
  (∀ j l', ls !! j = Some l' → j ≠ i → l' = []) → concat ls = l.
Proof.
  revert i. induction ls as [|l0 ls IH]; intros i Hi Hone; [done|]. simpl.
  destruct i as [|i]; simpl in Hi.
  - injection Hi as ->. assert (concat ls = []) as ->; [|by rewrite app_nil_r].
    assert (∀ l', l' ∈ ls → l' = []) as Hnil.
    { intros l' [j Hj]%list_elem_of_lookup_1. by apply (Hone (S j) l'). }
    clear -Hnil. induction ls as [|l0 ls IH]; simpl; [done|].
    rewrite (Hnil l0), IH; [done|intros; apply Hnil; by right|by left].
  - rewrite (Hone 0 l0) by (done || lia). simpl. apply (IH i); [done|].
    intros j l' Hj Hne. apply (Hone (S j) l'); [done|lia].
Qed.

Lemma concat_nonempty {A} (ls : list (list A)) x l :
  concat ls = x :: l → ∃ ms, ms ∈ ls ∧ ms ≠ [].
Proof.
  induction ls as [|[|y l0] ls IH]; simpl; [done|..].
  - intros (ms & ? & ?)%IH. exists ms. split; [by right|done].
  - intros _. exists (y :: l0). split; [by left|done].
Qed.

(** ** The records represent the logs of the accounts *)
Class MessageLaws (M : Type) `{TvmMessage M} `{Bincode M} : Prop := {
  hash_length m h : message_hash m = Some h → String.length h = 64;
  hash_inj m m' h : message_hash m = Some h → message_hash m' = Some h → m = m';
  bincode_roundtrip m b : bincode_put m = Some b → bincode_get b = Some m;
}.

Section represents.
Context {B M : Type} `{KeyValueLaws B} `{MessageLaws M} `{EqDecision M}.
Variable set_prefix : string.
Implicit Types (V : gmap Key BinMap) (m : M) (l : list M) (a : AccountAddress) (n : Z).

(** The log of an account: the number of its first message, and the messages. *)
Abbreviation Log := (gmap AccountAddress (Z * list M)).
Implicit Types log : Log.

Definition message_record (blob : list Z) n : BinMap :=
  bins_to_map [(BIN_BLOB, VBlob blob); (BIN_SEQ, VInt n)].
Definition index_record (hash : string) : BinMap := bins_to_map [(BIN_HASH, VString hash)].

Definition stored_at V a n m : Prop :=
  AccountAddress_wf a ∧ int_dst_account_id m = Some a ∧
  ∃ h blob, message_hash m = Some h ∧ bincode_put m = Some blob ∧
    V !! message_key set_prefix h = Some (message_record blob n) ∧
    V !! index_key set_prefix (to_hex_string a) n = Some (index_record h).

Record represents V (seq : gmap string Z) log : Prop := {
  rep_stored a base l i m :
    log !! a = Some (base, l) → l !! i = Some m → stored_at V a (base + Z.of_nat i) m;
  rep_messages h : String.length h = 64 → is_Some (V !! message_key set_prefix h) →
    ∃ a base l m, log !! a = Some (base, l) ∧ m ∈ l ∧ message_hash m = Some h;
  rep_index a n : AccountAddress_wf a →
    is_Some (V !! index_key set_prefix (to_hex_string a) n) →
    ∃ base l, log !! a = Some (base, l) ∧ (base ≤ n < base + Z.of_nat (length l))%Z;
  rep_seq a : AccountAddress_wf a →
    seq !! to_hex_string a = (λ '(base, l), base + Z.of_nat (length l) - 1)%Z <$> log !! a;
  rep_log a base l : log !! a = Some (base, l) →
    l ≠ [] ∧ (- 2 ^ 63 ≤ base)%Z ∧ (base + Z.of_nat (length l) + 50 < 2 ^ 63)%Z;
}.

Definition represents_storage (s : MessageDurableStorage B) log : Prop :=
  ∃ store, mds_store s = Some store ∧ represents (kv_view store) (mds_seq s) log.

(** *** Reading a record *)
Lemma select_message blob n : select [BIN_SEQ; BIN_BLOB] (message_record blob n) = message_record blob n.
Proof.
  apply map_filter_id. intros b v. unfold message_record, bins_to_map. simpl.
  intros [[<- _]|[_ [[<- _]|[_ ?]]%lookup_insert_Some]]%lookup_insert_Some;
    [set_solver..|done].
Qed.

Lemma select_index h : select [BIN_HASH] (index_record h) = index_record h.
Proof.
  apply map_filter_id. intros b v. unfold index_record, bins_to_map. simpl.
  intros [[<- _]|[_ ?]]%lookup_insert_Some; [set_solver|done].
Qed.

Lemma decode_message_record m blob n :
  bincode_put m = Some blob → decode_record (message_record blob n) = Ok (n, m).
Proof.
  intros Hb. unfold decode_record, message_record, bins_to_map. cbn [foldl fst snd].
  rewrite lookup_insert_eq, lookup_insert_ne, lookup_insert_eq by done. simpl.
  by rewrite (bincode_roundtrip m blob Hb).
Qed.

Lemma read_stored s store a n m h : mds_store s = Some store →
  stored_at (kv_view store) a n m → message_hash m = Some h →
  read_message set_prefix s h = Ok (Some (n, m)).
Proof.
  intros Hs (_ & _ & h' & blob & Hh & Hb & Hm & _) Hh'. simplify_eq. unfold read_message.
  rewrite Hs, kv_get_view, Hm. simpl. rewrite select_message, (decode_message_record m) by done. done.
Qed.

Lemma read_missing s store h : mds_store s = Some store →
  kv_view store !! message_key set_prefix h = None → read_message (M := M) set_prefix s h = Ok None.
Proof. intros Hs Hn. unfold read_message. by rewrite Hs, kv_get_view, Hn. Qed.

(** *** next_simple returns the messages that follow *)
Fixpoint numbered n l : list (Z * M) :=
  match l with [] => [] | m :: l => (n, m) :: numbered (n + 1) l end.

Lemma numbered_snd n l : snd <$> numbered n l = l.
Proof. revert n. induction l as [|m l IH]; intros n; simpl; [done|]. by rewrite IH. Qed.

Lemma numbered_ge n l p : p ∈ numbered n l → (n ≤ p.1)%Z.
Proof.
  revert n. induction l as [|m l IH]; intros n; simpl; [by intros ?%elem_of_nil|].
  intros [->|Hp]%elem_of_cons; simpl; [lia|]. apply IH in Hp. lia.
Qed.

Lemma numbered_sorted n l : StronglySorted by_seq (numbered n l).
Proof.
  revert n. induction l as [|m l IH]; intros n; simpl; constructor; [done|].
  rewrite Forall_forall. intros p Hp%numbered_ge. unfold by_seq. simpl. lia.
Qed.

Lemma numbered_fst_inj n l p q : p ∈ numbered n l → q ∈ numbered n l → p.1 = q.1 → p = q.
Proof.
  revert n. induction l as [|m l IH]; intros n; simpl; [by intros ?%elem_of_nil|].
  intros [->|Hp]%elem_of_cons [->|Hq]%elem_of_cons; simpl; [done|..|by eapply IH].
  - apply numbered_ge in Hq. lia.
  - apply numbered_ge in Hp. lia.
Qed.

Lemma numbered_merge_sort n l : merge_sort by_seq (numbered n l) = numbered n l.
Proof.
  assert (Transitive (@by_seq M)) by (intros ???; unfold by_seq; lia).
  assert (Total (@by_seq M)) by (intros ??; unfold by_seq; lia).
  apply (StronglySorted_unique_strong by_seq).
  - intros p q. rewrite merge_sort_Permutation. unfold by_seq. intros Hp Hq ??.
    eapply numbered_fst_inj; [done..|lia].
  - apply (StronglySorted_merge_sort _).
  - apply numbered_sorted.
  - apply merge_sort_Permutation.
Qed.

Lemma numbered_prefix_len n l : monotonic_prefix_len (fst <$> numbered n l) = length l.
Proof.
  revert n. induction l as [|m [|m' l] IH]; intros n; [done..|].
  specialize (IH (n + 1)%Z). simpl in *. rewrite bool_decide_eq_true_2 by done. by rewrite IH.
Qed.

Lemma numbered_last n l : fst <$> last (numbered n l) =
  if decide (l = []) then None else Some (n + Z.of_nat (length l) - 1)%Z.
Proof.
  revert n. induction l as [|m [|m' l] IH]; intros n; [done|simpl; f_equal; lia|].
  specialize (IH (n + 1)%Z). cbn [numbered] in *.
  change (last ((n, m) :: (n + 1, m')%Z :: numbered (n + 1 + 1) l))
    with (last ((n + 1, m')%Z :: numbered (n + 1 + 1) l)).
  rewrite IH. simpl. f_equal. lia.
Qed.

Definition hash_of m : string := default "" (message_hash m).

Section reads.
Context (s : MessageDurableStorage B) (store : B) (log : Log).
Hypothesis Hstore : mds_store s = Some store.
Hypothesis Hrep : represents (kv_view store) (mds_seq s) log.
Abbreviation V := (kv_view store).

Lemma drop_cons i l m : l !! i = Some m → drop i l = m :: drop (S i) l.
Proof. intros Hi. by rewrite <- (drop_S _ _ _ Hi). Qed.

Lemma index_records a base l i k : log !! a = Some (base, l) → AccountAddress_wf a →
  omap id ((λ seq, select [BIN_HASH] <$> V !! index_key set_prefix (to_hex_string a) seq) <$>
    seqZ (base + Z.of_nat i) (Z.of_nat k)) =
  (λ m, index_record (hash_of m)) <$> take k (drop i l).
Proof.
  intros Hlog Ha. revert i. induction k as [|k IH]; intros i; [done|].
  rewrite seqZ_cons by lia. replace (Z.pred (Z.of_nat (S k))) with (Z.of_nat k) by lia.
  replace (Z.succ (base + Z.of_nat i)) with (base + Z.of_nat (S i))%Z by lia.
  destruct (l !! i) as [m|] eqn:Hi.
  - rewrite (drop_cons _ _ _ Hi). simpl.
    destruct (rep_stored _ _ _ Hrep _ _ _ _ _ Hlog Hi) as (_ & _ & h & blob & Hh & _ & _ & Hidx).
    unfold hash_of at 1. rewrite Hidx, Hh. simpl. rewrite select_index. f_equal. apply IH.
  - apply lookup_ge_None in Hi. rewrite drop_ge by done. simpl.
    destruct (V !! index_key set_prefix (to_hex_string a) (base + Z.of_nat i)) eqn:Hidx; simpl.
    { destruct (rep_index _ _ _ Hrep a (base + Z.of_nat i)%Z Ha) as (base' & l' & Hlog' & Hle);
        [by eauto|]. rewrite Hlog in Hlog'. injection Hlog' as <- <-. lia. }
    rewrite IH, drop_ge by lia. by rewrite take_nil.
Qed.

Lemma stored_hash a base l i m : log !! a = Some (base, l) → l !! i = Some m →
  message_hash m = Some (hash_of m).
Proof.
  intros Hlog Hi. destruct (rep_stored _ _ _ Hrep _ _ _ _ _ Hlog Hi) as (_ & _ & h & _ & Hh & _).
  unfold hash_of. by rewrite Hh.
Qed.

Lemma message_records a base l i k : log !! a = Some (base, l) →
  map_outcome (decode_record (M := M)) (omap id ((λ r : Key * list string, select r.2 <$> V !! r.1) <$>
    ((λ h, (message_key set_prefix h, [BIN_SEQ; BIN_BLOB])) <$> (hash_of <$> take k (drop i l))))) =
  Ok (numbered (base + Z.of_nat i) (take k (drop i l))).
Proof.
  intros Hlog. revert i. induction k as [|k IH]; intros i; [done|].
  destruct (l !! i) as [m|] eqn:Hi; [|apply lookup_ge_None in Hi; by rewrite drop_ge].
  rewrite (drop_cons _ _ _ Hi). simpl.
  destruct (rep_stored _ _ _ Hrep _ _ _ _ _ Hlog Hi) as (_ & _ & h & blob & Hh & Hb & Hm & _).
  unfold hash_of at 1. rewrite Hh. simpl. rewrite Hm. simpl. rewrite select_message, (decode_message_record m) by done.
  simpl. rewrite IH. simpl. do 3 f_equal. lia.
Qed.

Lemma map_decode_index l : map_outcome decode_index ((λ m, index_record (hash_of m)) <$> l) = Ok (hash_of <$> l).
Proof.
  assert (∀ h, decode_index (index_record h) = Ok h) as Hdecode.
  { intros h. unfold decode_index, index_record, bins_to_map. cbn [foldl fst snd].
    by rewrite lookup_insert_eq. }
  induction l as [|m l IH]; [done|]. rewrite !fmap_cons. cbn [map_outcome].
  rewrite Hdecode. cbn [mbind outcome_bind]. rewrite IH. done.
Qed.

Lemma next_simple_ok a base l i limit : log !! a = Some (base, l) → i < length l → limit ≤ 50 →
  next_simple set_prefix s (to_hex_string a) (base + Z.of_nat i) limit =
  Ok (take limit (drop (S i) l),
      if decide (take limit (drop (S i) l) = []) then None
      else Some (base + Z.of_nat (i + length (take limit (drop (S i) l))))%Z).
Proof.
  intros Hlog Hi Hlimit. destruct (rep_log _ _ _ Hrep _ _ _ Hlog) as (_ & Hlo & Hhi).
  destruct (lookup_lt_is_Some_2 l i Hi) as [m0 Hm0].
  destruct (rep_stored _ _ _ Hrep _ _ _ _ _ Hlog Hm0) as (Ha & _).
  unfold next_simple, checked_i64. rewrite bool_decide_eq_true_2 by lia. simpl.
  rewrite bool_decide_eq_true_2 by lia. simpl.
  unfold batch_get_hashes_by_rowid, batch_read_messages. rewrite Hstore, kv_batch_view. simpl.
  rewrite <- list_fmap_compose. unfold compose. simpl.
  replace (base + Z.of_nat i + 1)%Z with (base + Z.of_nat (S i))%Z by lia.
  rewrite (index_records a base l), map_decode_index by done. simpl. rewrite kv_batch_view. simpl.
  rewrite (message_records a base l (S i) limit) by done. simpl. rewrite numbered_merge_sort.
  set (ms := take limit (drop (S i) l)). set (c := (base + Z.of_nat (S i))%Z).
  destruct (numbered c ms) as [|p ps] eqn:Hn; [by destruct ms|].
  assert (p.1 = c ∧ ms ≠ []) as [Hp Hne] by (destruct ms; naive_solver).
  rewrite bool_decide_eq_true_2 by done. rewrite <- Hn, numbered_prefix_len.
  rewrite take_ge by (rewrite <- (length_fmap snd), numbered_snd; done).
  rewrite numbered_snd, numbered_last, !decide_False by done. do 3 f_equal. lia.
Qed.

Lemma remaining_loop_ok a base l i fuel limit res : log !! a = Some (base, l) → i < length l →
  limit ≤ fuel →
  remaining_loop set_prefix fuel s (to_hex_string a) (base + Z.of_nat i) limit res =
  Ok (res ++ take limit (drop (S i) l)).
Proof.
  intros Hlog. revert i limit res. induction fuel as [|fuel IH]; intros i limit res Hi Hle; cbn [remaining_loop].
  { replace limit with 0 by lia. by rewrite app_nil_r. }
  case_bool_decide as H0'; [subst; by rewrite app_nil_r|].
  assert (min BATCH_SIZE limit ≤ 50) as Hreq by (unfold BATCH_SIZE; lia).
  rewrite (next_simple_ok a base l i) by (lia || done). cbn [map_load_err mbind outcome_bind].
  assert (0 < min BATCH_SIZE limit ≤ limit) by (unfold BATCH_SIZE; lia).
  generalize dependent (min BATCH_SIZE limit). intros req Hreq Hpos.
  remember (take req (drop (S i) l)) as ms eqn:Hms. case_bool_decide as Hlen.
  - rewrite decide_False by (intros ->; simpl in Hlen; lia). simpl.
    assert (length ms ≤ length l - S i) by (subst ms; rewrite length_take, length_drop; lia).
    rewrite IH by lia. f_equal. rewrite <- app_assoc. f_equal.
    rewrite Hlen. replace (S (i + req)) with (S i + req) by lia.
    rewrite <- drop_drop, Hms, take_take_drop. f_equal. lia.
  - f_equal. f_equal. subst ms. rewrite length_take in Hlen.
    rewrite !take_ge by lia. done.
Qed.
End reads.

(** *** The promise of the storage *)
#[global] Instance MessageDurableStorage_read :
    DurableStorageRead (MessageDurableStorage B) MessageIdentifier M := {
  load_message := storage_load_message set_prefix;
  next_key := storage_next set_prefix;
  remaining_messages := storage_remaining_messages set_prefix;
}.

(** The part of a log that starts at a key. *)
Fixpoint suffix_from (k : MessageIdentifier) l : list M :=
  match l with
  | [] => []
  | m :: l' => if bool_decide (key_from m = Some k) then l else suffix_from k l'
  end.
Definition chain_of log (k : MessageIdentifier) : list M :=
  concat ((λ p, suffix_from k p.2.2) <$> map_to_list log).

Lemma suffix_from_none k l : (∀ m, m ∈ l → key_from m ≠ Some k) → suffix_from k l = [].
Proof.
  induction l as [|m l IH]; intros Hl; simpl; [done|].
  rewrite bool_decide_eq_false_2 by (apply Hl; by left). apply IH. intros m' ?. apply Hl. by right.
Qed.

Lemma suffix_from_drop k l i m : l !! i = Some m → key_from m = Some k →
  (∀ j m', l !! j = Some m' → key_from m' = Some k → j = i) → suffix_from k l = drop i l.
Proof.
  revert i. induction l as [|m0 l IH]; intros i Hi Hk Hone; [done|]. simpl.
  destruct i as [|i]; simpl in Hi.
  - injection Hi as ->. by rewrite bool_decide_eq_true_2.
  - rewrite bool_decide_eq_false_2 by (intros Hk0; by specialize (Hone 0 m0 eq_refl Hk0)).
    simpl. apply IH; [done..|]. intros j m' Hj Hm'. specialize (Hone (S j) m' Hj Hm'). lia.
Qed.

Lemma suffix_from_inv k l m l' : suffix_from k l = m :: l' →
  ∃ i, l !! i = Some m ∧ key_from m = Some k ∧ m :: l' = drop i l.
Proof.
  induction l as [|m0 l IH]; simpl; [done|]. case_bool_decide as Hk.
  - intros [= -> ->]. by exists 0.
  - intros (i & ? & ? & ?)%IH. by exists (S i).
Qed.

Lemma key_from_hash m k : key_from m = Some k → message_hash m = Some (id_hash k).
Proof.
  unfold key_from, MessageIdentifier_key, MessageIdentifier_from.
  destruct (int_dst_account_id m) as [a|]; simpl; [|done]. destruct (get_next_u64 a); simpl; [|done].
  destruct (message_hash m); simpl; [|done]. by intros [= <-].
Qed.

Lemma key_from_inj m m' k : key_from m = Some k → key_from m' = Some k → m = m'.
Proof. intros Hm%key_from_hash Hm'%key_from_hash. by eapply hash_inj. Qed.

Lemma key_from_stored V a n m : stored_at V a n m →
  ∃ p, get_next_u64 a = Some p ∧ key_from m = Some (mkMessageId 0 p (hash_of m)).
Proof.
  intros ([Hlen _] & Hdst & h & blob & Hh & _). unfold get_next_u64.
  rewrite bool_decide_eq_true_2 by lia. eexists. split; [done|].
  unfold key_from, MessageIdentifier_key, MessageIdentifier_from, get_next_u64, hash_of.
  rewrite Hdst. simpl. rewrite bool_decide_eq_true_2 by lia. simpl. by rewrite Hh.
Qed.

Section promise.
Context (s : MessageDurableStorage B) (log : Log).
Hypothesis Hrep : represents_storage s log.

(** A message occurs once in the logs. *)
Lemma stored_once a base l i a' base' l' i' m :
  log !! a = Some (base, l) → l !! i = Some m → log !! a' = Some (base', l') → l' !! i' = Some m →
  a = a' ∧ i = i'.
Proof.
  destruct Hrep as (store & _ & Hr). intros Hlog Hi Hlog' Hi'.
  destruct (rep_stored _ _ _ Hr _ _ _ _ _ Hlog Hi) as (_ & Hd & h & blob & Hh & Hb & Hm & _).
  destruct (rep_stored _ _ _ Hr _ _ _ _ _ Hlog' Hi') as (_ & Hd' & h' & blob' & Hh' & Hb' & Hm' & _).
  rewrite Hd in Hd'. injection Hd' as <-. split; [done|]. rewrite Hlog in Hlog'. injection Hlog' as <- <-.
  rewrite Hh in Hh'. injection Hh' as <-. rewrite Hm in Hm'. apply (inj Some) in Hm'.
  apply (f_equal (λ r : BinMap, r !! BIN_SEQ)) in Hm'.
  unfold message_record, bins_to_map in Hm'. cbn [foldl fst snd] in Hm'.
  rewrite !lookup_insert_eq in Hm'. injection Hm' as Hm'. lia.
Qed.

Lemma chain_of_drop a base l i m k :
  log !! a = Some (base, l) → l !! i = Some m → key_from m = Some k → chain_of log k = drop i l.
Proof.
  intros Hlog Hi Hk. unfold chain_of.
  assert (suffix_from k l = drop i l) as <-.
  { eapply suffix_from_drop; [done..|]. intros j m' Hj Hm'.
    rewrite (key_from_inj _ _ _ Hm' Hk) in Hj. by destruct (stored_once _ _ _ _ _ _ _ _ _ Hlog Hj Hlog Hi). }
  assert ((a, (base, l)) ∈ map_to_list log) as [p Hp]%list_elem_of_lookup_1
    by by apply elem_of_map_to_list.
  apply (concat_one _ _ p); [by rewrite list_lookup_fmap, Hp|].
  intros j l' Hj Hne. rewrite list_lookup_fmap in Hj.
  destruct (map_to_list log !! j) as [[a' [base' ms]]|] eqn:Hj'; [|done]. injection Hj as <-. simpl.
  apply suffix_from_none. intros m' [i' Hi']%list_elem_of_lookup_1 Hm'. apply Hne.
  rewrite (key_from_inj _ _ _ Hm' Hk) in Hi'.
  assert (log !! a' = Some (base', ms)) as Hlog'
    by (apply elem_of_map_to_list; by eapply list_elem_of_lookup_2).
  destruct (stored_once _ _ _ _ _ _ _ _ _ Hlog Hi Hlog' Hi') as [<- _].
  eapply NoDup_lookup; [apply (NoDup_fst_map_to_list log)|rewrite list_lookup_fmap, Hj'; done|].
  by rewrite list_lookup_fmap, Hp.
Qed.

Lemma chain_of_inv k m l' : chain_of log k = m :: l' →
  ∃ a base l i, log !! a = Some (base, l) ∧ l !! i = Some m ∧ key_from m = Some k ∧ m :: l' = drop i l.
Proof.
  intros Hc. destruct (concat_nonempty _ _ _ Hc) as (ms & Hms & Hne).
  apply list_elem_of_fmap in Hms as ([a [base l]] & -> & Hin%elem_of_map_to_list). simpl in *.
  destruct (suffix_from k l) as [|m1 l1] eqn:Hs; [done|].
  destruct (suffix_from_inv _ _ _ _ Hs) as (i & Hi & Hk & Hd).
  rewrite (chain_of_drop _ _ _ _ _ _ Hin Hi Hk), <- Hd in Hc. injection Hc as -> ->.
  by exists a, base, l, i.
Qed.

(** The record of a key that some message has: its place in the logs, or nothing. *)
Lemma read_key m k : key_from m = Some k →
  (chain_of log k = [] ∧ read_message (M := M) set_prefix s (id_hash k) = Ok None) ∨
  ∃ a base l i, log !! a = Some (base, l) ∧ l !! i = Some m ∧ chain_of log k = drop i l ∧
    int_dst_account_id m = Some a ∧
    read_message set_prefix s (id_hash k) = Ok (Some (base + Z.of_nat i, m)%Z).
Proof.
  intros Hk. destruct Hrep as (store & Hs & Hr). pose proof (key_from_hash _ _ Hk) as Hh.
  destruct (kv_view store !! message_key set_prefix (id_hash k)) eqn:Hrec.
  - right. destruct (rep_messages _ _ _ Hr (id_hash k)) as (a & base & l & m' & Hlog & Hin & Hm');
      [by eapply hash_length|by eauto|].
    rewrite (hash_inj _ _ _ Hm' Hh) in Hin. apply list_elem_of_lookup_1 in Hin as [i Hi].
    exists a, base, l, i. do 2 (split; [done|]). split; [by eapply chain_of_drop|].
    pose proof (rep_stored _ _ _ Hr _ _ _ _ _ Hlog Hi) as Hst. split; [apply Hst|].
    by eapply read_stored.
  - left. split; [|by eapply read_missing].
    destruct (chain_of log k) as [|m' l'] eqn:Hc; [done|].
    destruct (chain_of_inv _ _ _ Hc) as (a & base & l & i & Hlog & Hi & Hk' & _).
    destruct (rep_stored _ _ _ Hr _ _ _ _ _ Hlog Hi) as (_ & _ & h & blob & Hh' & _ & Hm' & _).
    rewrite (key_from_hash _ _ Hk') in Hh'. congruence.
Qed.

Lemma drop_next (l : list M) i m m' l' :
  m :: m' :: l' = drop i l → l !! S i = Some m' ∧ drop (S i) l = m' :: l'.
Proof.
  intros Hd. split.
  - rewrite <- Nat.add_1_r, <- lookup_drop, <- Hd. done.
  - rewrite <- Nat.add_1_r, <- drop_drop, <- Hd. done.
Qed.

Lemma storage_ok : StorageOk s (chain_of log).
Proof.
  pose proof Hrep as (store & Hs & Hr).
  assert (∀ k m l', chain_of log k = m :: l' → ∃ a base l i, log !! a = Some (base, l) ∧
            l !! i = Some m ∧ key_from m = Some k ∧ m :: l' = drop i l) as Hinv by apply chain_of_inv.
  split.
  - intros k. destruct (chain_of log k) as [|m l'] eqn:Hc; [constructor|].
    destruct (Hinv _ _ _ Hc) as (a & base & l & i & Hlog & _ & _ & ->).
    apply Forall_forall. intros m' [j Hj]%list_elem_of_lookup_1. rewrite lookup_drop in Hj.
    destruct (key_from_stored _ _ _ _ (rep_stored _ _ _ Hr _ _ _ _ _ Hlog Hj)) as (p & _ & ->). by eexists.
  - intros k m l' (a & base & l & i & _ & _ & Hk & _)%Hinv. done.
  - intros k m m' l' k' (a & base & l & i & Hlog & Hi & _ & Hd)%Hinv Hk'.
    destruct (drop_next _ _ _ _ _ Hd) as [Hi' <-]. by eapply chain_of_drop.
  - intros k. destruct (chain_of log k) as [|m l'] eqn:Hc; [constructor|].
    destruct (Hinv _ _ _ Hc) as (a & base & l & i & Hlog & _ & _ & ->).
    apply NoDup_alt. intros j j' m' Hj Hj'. rewrite lookup_drop in Hj, Hj'.
    destruct (stored_once _ _ _ _ _ _ _ _ _ Hlog Hj Hlog Hj'). lia.
  - intros k m Hk. simpl. unfold storage_load_message.
    destruct (read_key _ _ Hk) as [[-> ->]|(a & base & l & i & Hlog & Hi & -> & _ & ->)]; [done|].
    simpl. by rewrite (drop_cons _ _ _ Hi).
  - intros k m Hk. simpl. unfold storage_next.
    destruct (read_key _ _ Hk) as [[-> ->]|(a & base & l & i & Hlog & Hi & -> & Hd & ->)]; [done|].
    simpl. rewrite Hd. simpl. rewrite (next_simple_ok s store log Hs Hr a base l i)
      by (done || lia || by eapply lookup_lt_Some). simpl.
    rewrite (drop_cons _ _ _ Hi). destruct (l !! S i) as [m'|] eqn:Hi'.
    + rewrite (drop_cons _ _ _ Hi'). simpl.
      destruct (key_from_stored _ _ _ _ (rep_stored _ _ _ Hr _ _ _ _ _ Hlog Hi)) as (p & Hp & Hm).
      destruct (key_from_stored _ _ _ _ (rep_stored _ _ _ Hr _ _ _ _ _ Hlog Hi')) as (p' & Hp' & Hm').
      rewrite (stored_hash _ _ _ Hr _ _ _ _ _ Hlog Hi'). simpl. rewrite Hm'.
      rewrite Hk in Hm. injection Hm as ->. simpl. congruence.
    + apply lookup_ge_None in Hi'. by rewrite drop_ge.
  - intros k m limit Hk Hpos. simpl. unfold storage_remaining_messages.
    destruct (read_key _ _ Hk) as [[-> ->]|(a & base & l & i & Hlog & Hi & -> & Hd & ->)];
      [simpl; by rewrite take_nil|].
    simpl. rewrite Hd. simpl. destruct limit as [|limit]; [lia|].
    rewrite (remaining_loop_ok s store log Hs Hr a base l i)
      by (done || lia || by eapply lookup_lt_Some).
    by rewrite (drop_cons _ _ _ Hi).
Qed.
End promise.

(** *** Writing *)
Definition append_log (now : Z) a log m : Log :=
  let '(base, l) := default ((now + 1)%Z, []) (log !! a) in <[a := (base, l ++ [m])]> log.
Definition append_all (now : Z) log (batch : list (AccountAddress * list (MessageIdentifier * M))) : Log :=
  foldl (λ log e, foldl (append_log now e.1) log (snd <$> e.2)) log batch.

Definition logged log m : Prop := ∃ a base l, log !! a = Some (base, l) ∧ m ∈ l.

(** Room for [n] more messages in the counters. *)
Definition room (now : Z) (n : nat) log : Prop :=
  (0 ≤ now)%Z ∧ (now + Z.of_nat n + 51 < 2 ^ 63)%Z ∧
  ∀ a base l, log !! a = Some (base, l) → (base + Z.of_nat (length l) + Z.of_nat n + 50 < 2 ^ 63)%Z.

(** A message for the account that can be stored. *)
Definition storable a m : Prop :=
  AccountAddress_wf a ∧ int_dst_account_id m = Some a ∧
  is_Some (message_hash m) ∧ is_Some (bincode_put m).

Lemma stored_at_mono V V' a n m : V ⊆ V' → stored_at V a n m → stored_at V' a n m.
Proof.
  intros HV (Ha & Hd & h & blob & Hh & Hb & Hm & Hi). split; [done|]. split; [done|].
  exists h, blob. repeat split; try done; by eapply lookup_weaken.
Qed.

(** The next number of an account and the part of its log so far. *)
Definition log_end (now : Z) a log : Z * list M := default ((now + 1)%Z, []) (log !! a).

Lemma log_end_cases now a log base l : log_end now a log = (base, l) →
  log !! a = Some (base, l) ∨ (log !! a = None ∧ l = [] ∧ base = (now + 1)%Z).
Proof. unfold log_end. destruct (log !! a) as [[b l0]|]; simpl; naive_solver. Qed.

(** A new message record and index record extend the log of the account. *)
Lemma represents_append now a V seq log m h blob base l :
  represents V seq log → storable a m → message_hash m = Some h → bincode_put m = Some blob →
  V !! message_key set_prefix h = None → log_end now a log = (base, l) →
  (- 2 ^ 63 ≤ base)%Z → (base + Z.of_nat (length l) + 51 < 2 ^ 63)%Z →
  let N := (base + Z.of_nat (length l))%Z in
  represents (<[index_key set_prefix (to_hex_string a) N := index_record h]>
                (<[message_key set_prefix h := message_record blob N]> V))
    (<[to_hex_string a := N]> seq) (<[a := (base, l ++ [m])]> log).
Proof.
  intros Hr (Ha & Hd & _ & _) Hh Hb Hnew Hend Hlo Hhi N.
  pose proof (hash_length _ _ Hh) as Hlen.
  assert (V !! index_key set_prefix (to_hex_string a) N = None) as Hidx.
  { apply eq_None_not_Some. intros (b' & l' & Hlog & Hle)%(rep_index _ _ _ Hr a _ Ha).
    destruct (log_end_cases _ _ _ _ _ Hend) as [Hl|[Hl _]]; rewrite Hl in Hlog; [|done].
    injection Hlog as <- <-. unfold N in Hle. lia. }
  assert (V ⊆ <[index_key set_prefix (to_hex_string a) N := index_record h]>
                (<[message_key set_prefix h := message_record blob N]> V)) as Hsub.
  { transitivity (<[message_key set_prefix h := message_record blob N]> V); [by apply insert_subseteq|].
    apply insert_subseteq. rewrite lookup_insert_ne by by apply message_index_ne. done. }
  split.
  - intros a' base' l' i' m' Hlog Hi'. destruct (decide (a = a')) as [<-|Hne].
    + rewrite lookup_insert_eq in Hlog. injection Hlog as <- <-.
      apply lookup_app_Some in Hi' as [Hi'|[Hge Hi']].
      * destruct (log_end_cases _ _ _ _ _ Hend) as [Hl|(_ & -> & _)]; [|done].
        eapply stored_at_mono; [done|]. by eapply rep_stored.
      * apply list_lookup_singleton_Some in Hi' as [Hz <-]. replace i' with (length l) by lia.
        fold N. split; [done|]. split; [done|]. exists h, blob. do 2 (split; [done|]).
        rewrite lookup_insert_eq, lookup_insert_ne, lookup_insert_eq
          by (symmetry; by apply message_index_ne). done.
    + rewrite lookup_insert_ne in Hlog by done. eapply stored_at_mono; [done|]. by eapply rep_stored.
  - intros h' Hlen' Hsome. destruct (decide (h' = h)) as [->|Hne].
    { exists a, base, (l ++ [m]), m. rewrite lookup_insert_eq. split; [done|]. split; [|done]. set_solver. }
    rewrite !lookup_insert_ne in Hsome
      by first [by intros ?%message_key_inj | symmetry; by apply message_index_ne].
    destruct (rep_messages _ _ _ Hr h' Hlen' Hsome) as (a' & b' & l' & m' & Hlog & Hin & Hm').
    destruct (decide (a = a')) as [<-|Hne'].
    + destruct (log_end_cases _ _ _ _ _ Hend) as [Hl|[Hl _]]; rewrite Hl in Hlog; [|done].
      injection Hlog as <- <-. exists a, base, (l ++ [m]), m'. rewrite lookup_insert_eq. set_solver.
    + exists a', b', l', m'. by rewrite lookup_insert_ne.
  - intros a' n Ha' Hsome.
    destruct (decide (index_key set_prefix (to_hex_string a') n = index_key set_prefix (to_hex_string a) N))
      as [[-> ->]%index_key_inj|Hne]; [|done..|].
    { exists base, (l ++ [m]). rewrite lookup_insert_eq, length_app. simpl. split; [done|]. unfold N. lia. }
    rewrite lookup_insert_ne in Hsome by (intros E; by rewrite E in Hne).
    rewrite lookup_insert_ne in Hsome by (by apply message_index_ne).
    destruct (rep_index _ _ _ Hr a' n Ha' Hsome) as (b' & l' & Hlog & Hle).
    destruct (decide (a = a')) as [<-|Hne'].
    + destruct (log_end_cases _ _ _ _ _ Hend) as [Hl|[Hl _]]; rewrite Hl in Hlog; [|done].
      injection Hlog as <- <-. exists base, (l ++ [m]). rewrite lookup_insert_eq, length_app. simpl.
      split; [done|]. lia.
    + exists b', l'. by rewrite lookup_insert_ne.
  - intros a' Ha'. destruct (decide (a = a')) as [<-|Hne].
    + rewrite !lookup_insert_eq. simpl. f_equal. rewrite length_app. simpl. unfold N. lia.
    + rewrite !lookup_insert_ne by first [done | intros E; by apply to_hex_string_inj in E].
      by apply (rep_seq _ _ _ Hr).
  - intros a' b' l' Hlog. destruct (decide (a = a')) as [<-|Hne].
    + rewrite lookup_insert_eq in Hlog. injection Hlog as <- <-. rewrite length_app. simpl.
      split; [by destruct l|]. lia.
    + rewrite lookup_insert_ne in Hlog by done. by apply (rep_log _ _ _ Hr a').
Qed.

Lemma write_message_ok now a s log i m (n : nat) :
  represents_storage s log → storable a m → ¬ logged log m → room now (S n) log →
  ∃ s', write_message set_prefix now (to_hex_string a) s (i, m) = Ok s' ∧
        represents_storage s' (append_log now a log m) ∧ room now n (append_log now a log m) ∧
        ∀ m', logged (append_log now a log m) m' → m' = m ∨ logged log m'.
Proof.
  intros (store & Hs & Hr) Hst Hnew (Hnow & Hclock & Hroom).
  destruct (log_end now a log) as [base l] eqn:Hend.
  assert ((- 2 ^ 63 ≤ base)%Z ∧ (base + Z.of_nat (length l) + Z.of_nat (S n) + 50 < 2 ^ 63)%Z) as [Hlo Hhi].
  { destruct (log_end_cases _ _ _ _ _ Hend) as [Hl|(_ & -> & ->)]; [|simpl; lia].
    split; [by apply (rep_log _ _ _ Hr a base l)|]. by apply (Hroom a). }
  pose proof Hst as (Ha & Hd & [h Hh] & [blob Hb]).
  assert (kv_view store !! message_key set_prefix h = None) as Hfresh.
  { apply eq_None_not_Some. intros (a' & b' & l' & m' & Hlog & Hin & Hm')%(rep_messages _ _ _ Hr _ (hash_length _ _ Hh)).
    apply Hnew. rewrite (hash_inj _ _ _ Hh Hm'). by exists a', b', l'. }
  assert (default now (mds_seq s !! to_hex_string a) + 1 = base + Z.of_nat (length l))%Z as Hseq.
  { rewrite (rep_seq _ _ _ Hr a Ha). destruct (log_end_cases _ _ _ _ _ Hend) as [->|(-> & -> & ->)]; simpl; lia. }
  pose proof (represents_append now a _ _ _ _ _ _ _ _ Hr Hst Hh Hb Hfresh Hend Hlo ltac:(lia)) as Hr'.
  unfold write_message, append_log. fold (log_end now a log). rewrite Hs, Hend. simpl. rewrite Hh, Hb. simpl.
  rewrite Hseq. unfold checked_i64. rewrite bool_decide_eq_true_2 by lia. simpl.
  edestruct kv_put_view as (st1 & -> & Hv1). simpl. edestruct kv_put_view as (st2 & -> & Hv2). simpl.
  eexists. split; [done|].
  rewrite Hfresh in Hv1. simpl in Hv1. rewrite map_union_empty in Hv1.
  assert (kv_view st1 !! index_key set_prefix (to_hex_string a) (base + Z.of_nat (length l)) = None) as Hidx.
  { rewrite Hv1, lookup_insert_ne by (apply message_index_ne; [done|by eapply hash_length]).
    apply eq_None_not_Some. intros (b' & l' & Hlog & Hle)%(rep_index _ _ _ Hr a _ Ha).
    destruct (log_end_cases _ _ _ _ _ Hend) as [Hl|[Hl _]]; rewrite Hl in Hlog; [|done].
    injection Hlog as <- <-. lia. }
  rewrite Hidx in Hv2. simpl in Hv2. rewrite map_union_empty, Hv1 in Hv2.
  split; [exists st2; split; [done|]; simpl; by rewrite Hv2|]. split.
  - split; [done|]. split; [lia|]. intros a' b' l' Hlog. destruct (decide (a = a')) as [<-|Hne].
    + rewrite lookup_insert_eq in Hlog. injection Hlog as <- <-. rewrite length_app. simpl. lia.
    + rewrite lookup_insert_ne in Hlog by done. specialize (Hroom _ _ _ Hlog). lia.
  - intros m' (a' & b' & l' & Hlog & Hin). destruct (decide (a = a')) as [<-|Hne].
    + rewrite lookup_insert_eq in Hlog. injection Hlog as <- <-.
      apply elem_of_app in Hin as [Hin| ->%list_elem_of_singleton]; [|by left].
      right. destruct (log_end_cases _ _ _ _ _ Hend) as [Hl|(_ & -> & _)]; [by exists a, base, l|].
      by apply elem_of_nil in Hin.
    + rewrite lookup_insert_ne in Hlog by done. right. by exists a', b', l'.
Qed.

(** The messages of an account in the log, and in a batch. *)
Definition log_messages log a : list M := default [] (snd <$> log !! a).
Definition batch_messages (batch : list (AccountAddress * list (MessageIdentifier * M))) : list M :=
  concat ((λ e : AccountAddress * list (MessageIdentifier * M), snd <$> e.2) <$> batch).
Definition messages_for a (batch : list (AccountAddress * list (MessageIdentifier * M))) : list M :=
  batch_messages (filter (λ e, e.1 = a) batch).

(** A batch that can be written: new messages, each under the account it is for. *)
Record writable (now : Z) log (batch : list (AccountAddress * list (MessageIdentifier * M))) : Prop := {
  wr_storable e p : e ∈ batch → p ∈ e.2 → storable e.1 p.2;
  wr_nodup : NoDup (batch_messages batch);
  wr_new m : m ∈ batch_messages batch → ¬ logged log m;
  wr_room : room now (length (batch_messages batch)) log;
}.

Lemma log_messages_append now a a' log m :
  log_messages (append_log now a log m) a' = log_messages log a' ++ (if decide (a' = a) then [m] else []).
Proof.
  unfold log_messages, append_log. destruct (log !! a) as [[b l]|] eqn:Hl; simpl;
    (case_decide as Ha; [subst; rewrite lookup_insert_eq, Hl|rewrite lookup_insert_ne, app_nil_r by done]; done).
Qed.

Lemma write_account_ok now a ms (n : nat) s log :
  represents_storage s log → (∀ p, p ∈ ms → storable a p.2) → NoDup (snd <$> ms) →
  (∀ m, m ∈ (snd <$> ms) → ¬ logged log m) → room now (length ms + n) log →
  ∃ s', write_account set_prefix now s (a, ms) = Ok s' ∧
    let log' := foldl (append_log now a) log (snd <$> ms) in
    represents_storage s' log' ∧ room now n log' ∧
    (∀ m, logged log' m → m ∈ (snd <$> ms) ∨ logged log m) ∧
    ∀ a', log_messages log' a' = log_messages log a' ++ (if decide (a' = a) then snd <$> ms else []).
Proof.
  unfold write_account. simpl. revert s log.
  induction ms as [|[i m] ms IH]; intros s log Hrep Hst Hnd Hnew Hroom; simpl.
  { exists s. repeat split; try apply Hroom; try done; [by right|].
    intros a'. by case_decide; rewrite app_nil_r. }
  simpl in Hnd. apply NoDup_cons in Hnd as [Hnot Hnd].
  destruct (write_message_ok now a s log i m (length ms + n)) as (s1 & -> & Hrep1 & Hroom1 & Hlogged1);
    [done|by apply (Hst (i, m)); left|by apply Hnew; left|done|]. simpl.
  destruct (IH s1 (append_log now a log m)) as (s2 & -> & Hrep2 & Hroom2 & Hlogged2 & Hmsgs);
    [done|intros; apply Hst; by right|done| |done|].
  { intros m' Hm' Hl. destruct (Hlogged1 _ Hl) as [->|Hl']; [done|]. apply (Hnew m'); [by right|done]. }
  exists s2. split; [done|]. split; [done|]. split; [done|]. split.
  - intros m' [Hm'|Hm']%Hlogged2; [left; by right|]. destruct (Hlogged1 _ Hm') as [->|?]; [left; by left|by right].
  - intros a'. rewrite Hmsgs, log_messages_append. by case_decide; rewrite <- app_assoc.
Qed.

Lemma messages_for_cons a e batch :
  messages_for a (e :: batch) = (if decide (a = e.1) then snd <$> e.2 else []) ++ messages_for a batch.
Proof.
  unfold messages_for, batch_messages. rewrite filter_cons.
  destruct (decide (a = e.1)), (decide (e.1 = a)); congruence || done.
Qed.

Lemma write_all_ok now batch s log : represents_storage s log → writable now log batch →
  ∃ s', fold_outcome (write_account set_prefix now) s batch = Ok s' ∧
    represents_storage s' (append_all now log batch) ∧
    ∀ a, log_messages (append_all now log batch) a = log_messages log a ++ messages_for a batch.
Proof.
  revert s log. induction batch as [|[a ms] batch IH]; intros s log Hrep [Hst Hnd Hnew Hroom]; simpl.
  { exists s. repeat split; try done. intros a. unfold messages_for, batch_messages. simpl. by rewrite app_nil_r. }
  unfold batch_messages in Hnd, Hnew, Hroom. simpl in Hnd, Hnew, Hroom. fold (batch_messages batch) in *.
  apply NoDup_app in Hnd as (Hnd1 & Hdisj & Hnd2).
  destruct (write_account_ok now a ms (length (batch_messages batch)) s log)
    as (s1 & -> & Hrep1 & Hroom1 & Hlogged & Hmsgs); [done| |done| | |].
  { intros p Hp. apply (Hst (a, ms)); [by left|done]. }
  { intros m Hm. apply Hnew, elem_of_app. by left. }
  { by rewrite length_app, length_fmap in Hroom. }
  simpl. destruct (IH s1 (foldl (append_log now a) log (snd <$> ms))) as (s2 & -> & Hrep2 & Hmsgs2); [done| |].
  { split; [intros e p He; apply Hst; by right|done| |done].
    intros m Hm [Hm'|Hm']%Hlogged; [by eapply Hdisj|].
    apply (Hnew m); [apply elem_of_app; by right|done]. }
  exists s2. split; [done|]. split; [done|]. intros a'.
  unfold append_all in *. simpl. rewrite Hmsgs2, Hmsgs, messages_for_cons. simpl. by rewrite app_assoc.
Qed.

(** C24 (MessageDurableStorage): the storage keeps for every account the messages written for it,
    in the order of writing.  When the records represent the logs of the accounts, writing a
    batch of new messages succeeds, appends to the log of every account its messages of the
    batch, and the result serves them as the message ranges expect: a stored message is found
    under its key, the next key is that of the next message of its account, and a read of any
    positive limit, in batches of fifty, returns the message and those that follow it, up to
    the limit. *)
Theorem messages_stored_in_order now s log batch :
  represents_storage s log → writable now log batch →
  ∃ s', write_messages set_prefix now s batch = Ok s' ∧
    let log' := append_all now log batch in
    represents_storage s' log' ∧
    (∀ a, log_messages log' a = log_messages log a ++ messages_for a batch) ∧
    StorageOk s' (chain_of log') ∧
    ∀ a i m k, log_messages log' a !! i = Some m → key_from m = Some k →
      chain_of log' k = drop i (log_messages log' a).
Proof.
  intros Hrep Hwr. destruct (write_all_ok now batch s log Hrep Hwr) as (s' & Hrun & Hrep' & Hmsgs).
  exists s'. split.
  { unfold write_messages. destruct Hrep as (store & -> & _). done. }
  split; [done|]. split; [done|]. split; [by apply storage_ok|].
  intros a i m k Hi Hk. unfold log_messages in *.
  destruct (append_all now log batch !! a) as [[base l]|] eqn:Hl; [|done].
  by eapply chain_of_drop.
Qed.

Lemma represents_new store : kv_view store = ∅ → represents_storage (MessageDurableStorage_new store) ∅.
Proof.
  intros Hv. exists store. split; [done|]. rewrite Hv. split; simpl.
  - intros a base l i m Hl. by rewrite lookup_empty in Hl.
  - intros h _ [? Hh]. by rewrite lookup_empty in Hh.
  - intros a n _ [? Hi]. by rewrite lookup_empty in Hi.
  - intros a _. by rewrite !lookup_empty.
  - intros a base l Hl. by rewrite lookup_empty in Hl.
Qed.
End represents.

(** ** A small instance

    Messages are strings of 64 characters, their own hash; the first character tells the
    account they are for. *)
Definition alice : AccountAddress := AccountAddr (replicate 32 1%Z).
Definition bob : AccountAddress := AccountAddr (replicate 32 2%Z).

Fixpoint text_codes (s : string) : list Z :=
  match s with
  | EmptyString => []
  | String c s => Z.of_nat (Ascii.nat_of_ascii c) :: text_codes s
  end.
Definition codes_text (l : list Z) : string :=
  foldr (λ z s, String (Ascii.ascii_of_nat (Z.to_nat z)) s) EmptyString l.

#[local] Instance text_message : TvmMessage string := {
  message_hash m := if bool_decide (String.length m = 64) then Some m else None;
  int_dst_account_id m :=
    match m with String c _ => Some (if bool_decide (c = "a"%char) then alice else bob) | EmptyString => None end;
}.
#[local] Instance text_bincode : Bincode string := {
  bincode_put m := Some (text_codes m);
  bincode_get l := Some (codes_text l);
}.
#[local] Instance text_laws : MessageLaws string.
Proof.
  split; simpl.
  - intros m h. case_bool_decide; [by intros [= <-]|done].
  - intros m m' h. do 2 case_bool_decide; naive_solver.
  - intros m b [= <-]. f_equal. induction m as [|c m IH]; simpl; [done|].
    rewrite Nat2Z.id, Ascii.ascii_nat_embedding, IH. done.
Qed.

Definition text (c d : Ascii.ascii) : string :=
  String c (String d "00000000000000000000000000000000000000000000000000000000000000").
Definition text_entry (m : string) : MessageIdentifier * string :=
  (default (mkMessageId 0 0 "") (MessageIdentifier_from m), m).
Definition first_batch : list (AccountAddress * list (MessageIdentifier * string)) :=
  [(alice, text_entry <$> [text "a" "1"; text "a" "2"]); (bob, text_entry <$> [text "b" "1"])].

Lemma first_batch_writable : writable (M := string) 1000 ∅ first_batch.
Proof.
  split.
  - intros e p He Hp. unfold first_batch in He.
    repeat (apply elem_of_cons in He as [->|He]); simpl in Hp;
      repeat (apply elem_of_cons in Hp as [->|Hp]); try (by apply elem_of_nil in Hp); try (by apply elem_of_nil in He);
      (split; [apply (bool_decide_unpack (AccountAddress_wf _)); vm_compute; exact I|]; split; [reflexivity|];
       split; eexists; reflexivity).
  - apply (bool_decide_unpack (NoDup _)). vm_compute. exact I.
  - intros m _ (a & base & l & Hl & _). by rewrite lookup_empty in Hl.
  - split; [lia|]. split; [reflexivity|]. intros a base l Hl. by rewrite lookup_empty in Hl.
Qed.

(** The storage after the batch, and the chains in it. *)
Definition first_storage : MessageDurableStorage MapStore :=
  match write_messages "int" 1000 (MessageDurableStorage_new ∅) first_batch with
  | Ok s => s
  | _ => as_noop
  end.
Definition first_chain : MessageIdentifier → list string := chain_of (append_all 1000 ∅ first_batch).

Lemma first_storage_ok :
  StorageOk (H := MessageDurableStorage_read "int") first_storage first_chain.
Proof.
  destruct (write_all_ok "int" 1000 first_batch (MessageDurableStorage_new (∅ : MapStore)) ∅)
    as (s & Hrun & Hrep & _); [by apply represents_new|apply first_batch_writable|].
  unfold first_storage, write_messages. simpl. simpl in Hrun. rewrite Hrun. by apply storage_ok.
Qed.

Lemma messages_stored_in_order_witness :
  represents_storage "int" (MessageDurableStorage_new (∅ : MapStore)) (∅ : gmap AccountAddress (Z * list string)) ∧
  ∃ s', write_messages "int" 1000 (MessageDurableStorage_new (∅ : MapStore)) first_batch = Ok s' ∧
    storage_remaining_messages "int" s' (text_entry (text "a" "1")).1 10 =
      Ok [text "a" "1"; text "a" "2"].
Proof.
  split; [by apply represents_new|].
  destruct (messages_stored_in_order "int" 1000 (MessageDurableStorage_new (∅ : MapStore)) ∅ first_batch
              ltac:(by apply represents_new) first_batch_writable)
    as (s' & Hrun & _ & Hmsgs & Hok & Hchain).
  exists s'. split; [exact Hrun|].
  etransitivity; [exact (chain_remaining _ _ Hok _ (text "a" "1") 10 eq_refl ltac:(lia))|].
  rewrite (Hchain alice 0 (text "a" "1")) by (rewrite ?Hmsgs; reflexivity).
  rewrite Hmsgs. reflexivity.
Defined.

(** The counters are kept only in memory.  After a restart the next message of an account gets
    a number from the clock, and the chain of the account is cut: the next key of the last
    message written before is none. *)
Definition stored_text (now : Z) (s : MessageDurableStorage MapStore) (m : string) :
    MessageDurableStorage MapStore :=
  match write_messages "int" now s [(alice, [text_entry m])] with Ok s => s | _ => as_noop end.
Definition before_restart : MessageDurableStorage MapStore :=
  stored_text 1000 (MessageDurableStorage_new ∅) (text "a" "1").
Definition after_restart : MessageDurableStorage MapStore :=
  stored_text 5000 (mkMessageStorage (mds_store before_restart) ∅) (text "a" "2").

Lemma restart_cuts_chain :
  storage_load_message "int" after_restart (text_entry (text "a" "2")).1 = Ok (text "a" "2") ∧
  storage_next (M := string) "int" after_restart (text_entry (text "a" "1")).1 = Ok None ∧
  storage_next (M := string) "int" (stored_text 5000 before_restart (text "a" "2"))
    (text_entry (text "a" "1")).1 = Ok (Some (text_entry (text "a" "2")).1).
Proof. vm_compute. done. Qed.

(** A message that is written again moves to the end of the chain, and the entry of the index
    for its old place leads to the new record. *)
Lemma rewritten_message_cuts_chain :
  let s := stored_text 0 (stored_text 0 before_restart (text "a" "2")) (text "a" "1") in
  storage_remaining_messages (M := string) "int" s (text_entry (text "a" "1")).1 10 = Ok [text "a" "1"].
Proof. vm_compute. done. Qed.

(** The bins of the records of the storage: a message, or an index entry. *)
Definition storage_schema (k : Key) : list string :=
  if bool_decide (String.length (key_user k) = 64) then [BIN_SEQ; BIN_BLOB] else [BIN_HASH].

Definition example_ops : list KvOp :=
  let h := text "a" "1" in
  [OpPut (message_key "int" h) [(BIN_BLOB, VBlob [1%Z]); (BIN_SEQ, VInt 7)] true;
   OpPut (index_key "int" "acc" 7) [(BIN_HASH, VString h)] true;
   OpGet (message_key "int" h) [BIN_SEQ; BIN_BLOB];
   OpBatch [(index_key "int" "acc" 7, [BIN_HASH]); (index_key "int" "acc" 8, [BIN_HASH])]].

Lemma cached_store_transparent_witness :
  Forall (op_ok storage_schema) example_ops ∧
  ∃ s' answers,
    run_all run_cached example_ops (mkCachedStore (∅ : MapStore) (None : option (Key * BinMap))) = Ok (s', answers) ∧
    run_all run_db example_ops (∅ : MapStore) = Ok (cs_db s', answers).
Proof.
  assert (Forall (op_ok storage_schema) example_ops) as Hops.
  { unfold example_ops. rewrite !Forall_cons. split; [|split; [|split; [|split; [|constructor]]]].
    - intros b. change (b ∈ [BIN_SEQ; BIN_BLOB] ↔ is_Some (bins_to_map [(BIN_BLOB, VBlob [1%Z]); (BIN_SEQ, VInt 7)] !! b)).
      unfold bins_to_map, is_Some. cbn [foldl fst snd]. setoid_rewrite lookup_insert_Some.
      setoid_rewrite lookup_insert_Some. setoid_rewrite lookup_empty.
      rewrite !elem_of_cons, elem_of_nil. split; [|naive_solver].
      intros [->|[->|[]]]; eexists; [by left|right; split; [done|by left]].
    - intros b. change (b ∈ [BIN_HASH] ↔ is_Some (bins_to_map [(BIN_HASH, VString (text "a" "1"))] !! b)).
      unfold bins_to_map, is_Some. cbn [foldl fst snd]. setoid_rewrite lookup_insert_Some.
      setoid_rewrite lookup_empty. rewrite !elem_of_cons, elem_of_nil. split; [|naive_solver].
      intros [->|[]]; eexists; by left.
    - apply (bool_decide_unpack (storage_schema (message_key "int" (text "a" "1")) ⊆ [BIN_SEQ; BIN_BLOB])).
      vm_compute. exact I.
    - intros r Hr. repeat (apply elem_of_cons in Hr as [->|Hr]); try (by apply elem_of_nil in Hr);
        apply (bool_decide_unpack (_ ⊆ [BIN_HASH])); vm_compute; exact I. }
  split; [done|].
  destruct (cached_store_transparent storage_schema (mkCachedStore (∅ : MapStore) (None : option (Key * BinMap)))
              example_ops) as (s' & answers & H1 & H2 & _); [|exact Hops|].
  - split; intros k v; simpl; [by rewrite lookup_empty|]. intros b Hk. by rewrite lookup_empty in Hk.
  - exists s', answers. split; [exact H1|exact H2].
Defined.
