(* ===== verification/MessageRange.v ===== *)
(** * Ranges of messages

    Models the crate [libs/account-inbox]: the inbox of an account is a range of keys whose
    messages are in the durable storage, followed by a tail of messages in memory.  The
    iterator takes messages from the front, one by one or in bulk, and [build_next_range]
    checks that a list of consumed messages is at the front and removes it.

    The proofs use only the interface [StorageOk] of the storage.  [range_ok] relates a range
    to the list of its messages. *)
From Stdlib Require Import Ascii.
From stdpp Require Import base numbers gmap strings fin_maps list.
From S2P Require Import Prelude Identifiers MessageStore.

Record MessagesRange (MessageKey Message : Type) := mkRange {
  compacted_history : option (MessageKey * MessageKey);
  tail_sequence : list (MessageKey * Message);
}.
Arguments mkRange {MessageKey Message} _ _.
Arguments compacted_history {MessageKey Message} _.
Arguments tail_sequence {MessageKey Message} _.
#[global] Instance MessagesRange_eq_dec {K M} `{EqDecision K, EqDecision M} :
  EqDecision (MessagesRange K M).
Proof. solve_decision. Defined.

Inductive IteratorError (MessageKey : Type) :=
  | LoadMessageError (e : LoadErr)
  | LoadNextRefError (e : LoadErr)
  | BrokenRange (missing_end actual_last : MessageKey).
Arguments LoadMessageError {MessageKey} _.
Arguments LoadNextRefError {MessageKey} _.
Arguments BrokenRange {MessageKey} _ _.

Inductive BuildNextRangeError (MessageKey Message : Type) :=
  | StorageError (e : LoadErr)
  | InvalidRangeOrConsumedMessage (next_consumed next_in_range : Message)
  | RangeIteratorError (e : IteratorError MessageKey)
  | OutOfRange (m : Message).
Arguments StorageError {MessageKey Message} _.
Arguments InvalidRangeOrConsumedMessage {MessageKey Message} _ _.
Arguments RangeIteratorError {MessageKey Message} _.
Arguments OutOfRange {MessageKey Message} _.

(** [result.map_err(f)?] *)
Definition map_err {E E' A : Type} (f : E → E') (o : outcome E A) : outcome E' A :=
  match o with Ok a => Ok a | Err e => Err (f e) | Panic => Panic end.

Section ranges.
Context {S K M : Type} `{DurableStorageRead S K M} `{KeyFrom K M} `{EqDecision K} `{EqDecision M}.
Implicit Types (r : MessagesRange K M) (db : S).

Definition MessagesRange_empty : MessagesRange K M := mkRange None [].
Definition MessagesRange_is_empty r : bool :=
  match compacted_history r, tail_sequence r with None, [] => true | _, _ => false end.
Definition add_messages r (messages : list (K * M)) : MessagesRange K M :=
  mkRange (compacted_history r) (tail_sequence r ++ messages).
Definition MessagesRange_length r : nat := length (tail_sequence r).

(** *** consume *)
Definition from_storage db (msg_ref end_ : K) : outcome (IteratorError K) (M * option (K * K)) :=
  map_err LoadMessageError (load_message db msg_ref) ≫= λ message,
  if bool_decide (msg_ref = end_) then Ok (message, None) else
  map_err LoadNextRefError (next_key db msg_ref) ≫= λ next_message_key,
  match next_message_key with
  | None => Err (BrokenRange end_ msg_ref)
  | Some k => Ok (message, Some (k, end_))
  end.

(** [iter().position(|k| k == &end)] *)
Fixpoint position (end_ : K) (refs : list K) : option nat :=
  match refs with
  | [] => None
  | k :: refs => if bool_decide (k = end_) then Some 0 else Datatypes.S <$> position end_ refs
  end.

Definition range_from_storage db (msg_ref end_ : K) (limit : nat) :
    outcome (IteratorError K) (list M * option (K * K)) :=
  map_err LoadMessageError (remaining_messages db msg_ref limit) ≫= λ messages,
  unwrap (mapM key_from messages) ≫= λ message_refs,
  match position end_ message_refs with
  | Some pos =>
      if bool_decide (pos + 1 = length message_refs) then Ok (messages, None)
      else
        unwrap (message_refs !! (pos + 1)) ≫= λ next,
        Ok (take (pos + 1) messages, Some (next, end_))
  | None =>
      match last message_refs with
      | Some last_key =>
          map_err LoadNextRefError (next_key db last_key) ≫= λ next,
          match next with
          | Some next => Ok (messages, Some (next, end_))
          | None => Err (BrokenRange end_ last_key)
          end
      | None => Ok ([], None)
      end
  end.

(** *** MessagesRangeIterator; the state is the remaining range *)
Definition range_next db r : option (outcome (IteratorError K) (M * K) * MessagesRange K M) :=
  match compacted_history r with
  | Some (msg_ref, end_) =>
      Some (match from_storage db msg_ref end_ with
            | Ok (message, remains) => (Ok (message, msg_ref), mkRange remains (tail_sequence r))
            | Err e => (Err e, r)
            | Panic => (Panic, r)
            end)
  | None =>
      match tail_sequence r with
      | [] => None
      | (key, message) :: tail => Some (Ok (message, key), mkRange None tail)
      end
  end.

Definition next_range db r (limit : nat) : outcome (IteratorError K) (list M * MessagesRange K M) :=
  (match compacted_history r with
   | Some (msg_ref, end_) => range_from_storage db msg_ref end_ limit
   | None => Ok ([], None)
   end) ≫= λ '(messages, history),
  let remaining_limit := min (limit - length messages) (length (tail_sequence r)) in
  Ok (messages ++ (snd <$> take remaining_limit (tail_sequence r)),
      mkRange history (drop remaining_limit (tail_sequence r))).

Definition usize_max : nat := Z.to_nat (2 ^ 64 - 1).
Definition remaining_messages_from_db db r : outcome LoadErr (list M) :=
  match compacted_history r with
  | Some (msg_ref, _) => remaining_messages db msg_ref usize_max
  | None => Ok []
  end.

(** *** build_next_range *)
Fixpoint consume_all db r (consumed_messages : list M) :
    outcome (BuildNextRangeError K M) (MessagesRange K M) :=
  match consumed_messages with
  | [] => Ok r
  | consumed :: rest =>
      match range_next db r with
      | None => Err (OutOfRange consumed)
      | Some (result, r') =>
          map_err RangeIteratorError result ≫= λ '(actual, _),
          if bool_decide (actual = consumed) then consume_all db r' rest
          else Err (InvalidRangeOrConsumedMessage consumed actual)
      end
  end.

Definition build_next_range db r (appended_messages : list (K * M)) (consumed_messages : list M) :
    outcome (BuildNextRangeError K M) (MessagesRange K M) :=
  consume_all db (add_messages r appended_messages) consumed_messages.
End ranges.

(** ** The messages of a range *)
Section contents.
Context {S K M : Type} `{DurableStorageRead S K M} `{KeyFrom K M} `{EqDecision K} `{EqDecision M}.
Context (db : S) (chain : K → list M).
Hypothesis Hdb : StorageOk db chain.
Implicit Types (r : MessagesRange K M) (l h t : list M) (k e : K).

(** The messages up to the one with key [e], if it is there. *)
Fixpoint upto e l : option (list M) :=
  match l with
  | [] => None
  | m :: l => if bool_decide (key_from m = Some e) then Some [m] else (m ::.) <$> upto e l
  end.

Definition history_ok (history : option (K * K)) h : Prop :=
  match history with
  | Some (k, e) => upto e (chain k) = Some h
  | None => h = []
  end.

(** The range stands for the list [l]. *)
Definition range_ok r l : Prop :=
  Forall (λ p : K * M, key_from p.2 = Some p.1) (tail_sequence r) ∧
  ∃ h, history_ok (compacted_history r) h ∧ l = h ++ (snd <$> tail_sequence r).

Lemma upto_prefix e l h : upto e l = Some h →
  ∃ h' m rest, h = h' ++ [m] ∧ key_from m = Some e ∧ l = h ++ rest ∧
    ∀ m', m' ∈ h' → key_from m' ≠ Some e.
Proof.
  revert h. induction l as [|m l IH]; intros h; simpl; [done|]. case_bool_decide as Hm.
  - intros [= <-]. exists [], m, l. repeat split; try done. by intros ? ?%elem_of_nil.
  - destruct (upto e l) as [h0|] eqn:Hu; simpl; [|done]. intros [= <-].
    destruct (IH h0 eq_refl) as (h' & m1 & rest & -> & Hm1 & -> & Hne).
    exists (m :: h'), m1, rest. repeat split; try done. intros m' [->|?]%elem_of_cons; eauto.
Qed.

Lemma upto_snoc e h' m rest : key_from m = Some e → (∀ m', m' ∈ h' → key_from m' ≠ Some e) →
  upto e (h' ++ m :: rest) = Some (h' ++ [m]).
Proof.
  intros Hm. induction h' as [|m0 h' IH]; intros Hne; simpl.
  - by rewrite bool_decide_eq_true_2.
  - rewrite bool_decide_eq_false_2 by (apply Hne; by left). rewrite IH; [done|].
    intros m' ?. apply Hne. by right.
Qed.

(** The chain of a later message is the rest of the chain. *)
Lemma chain_drop k i m k' : chain k !! i = Some m → key_from m = Some k' → chain k' = drop i (chain k).
Proof.
  revert k m k'. induction i as [|i IH]; intros k m k' Hi Hk.
  - destruct (chain k) as [|m0 l] eqn:Hc; [done|]. injection Hi as ->.
    rewrite (chain_head _ _ Hdb _ _ _ Hc) in Hk. by injection Hk as <-.
  - destruct (chain k) as [|m0 [|m1 l]] eqn:Hc; [done..|]. simpl in Hi.
    assert (is_Some (key_from (MessageKey := K) m1)) as [k1 Hk1].
    { pose proof (chain_keys _ _ Hdb k) as Hall. rewrite Hc, !Forall_cons in Hall. apply Hall. }
    pose proof (chain_step _ _ Hdb _ _ _ _ _ Hc Hk1) as Hc1.
    rewrite (IH k1 m k'), Hc1; [done|by rewrite Hc1|done].
Qed.

Lemma chain_start k m l : chain k = m :: l → key_from m = Some k.
Proof. apply (chain_head _ _ Hdb). Qed.

(** *** One message *)
Lemma range_next_ok r l : range_ok r l →
  match l with
  | [] => range_next db r = None
  | m :: l' => ∃ k r', range_next db r = Some (Ok (m, k), r') ∧ key_from m = Some k ∧ range_ok r' l'
  end.
Proof.
  intros [Htail (h & Hh & ->)]. unfold range_next.
  destruct (compacted_history r) as [[k e]|]; simpl in Hh.
  - destruct (upto_prefix _ _ _ Hh) as (h' & me & rest & -> & Hme & Hc & Hne).
    destruct h' as [|m h']; simpl in *.
    + pose proof (chain_start _ _ _ Hc) as Hk. rewrite Hk in Hme. injection Hme as <-.
      unfold from_storage. rewrite (chain_load _ _ Hdb _ _ Hk), Hc. simpl.
      rewrite bool_decide_eq_true_2 by done. exists k. eexists. split; [done|]. split; [done|].
      split; [done|]. by exists [].
    + pose proof (chain_start _ _ _ Hc) as Hk.
      assert (k ≠ e) as Hke by (intros ->; by apply (Hne m); [left|]).
      unfold from_storage. rewrite (chain_load _ _ Hdb _ _ Hk), Hc. simpl.
      rewrite bool_decide_eq_false_2 by done. rewrite (chain_next _ _ Hdb _ _ Hk), Hc. simpl.
      destruct ((h' ++ [me]) ++ rest) as [|m1 l1] eqn:Hl1; [by destruct h'|].
      assert (is_Some (key_from (MessageKey := K) m1)) as [k1 Hk1].
      { pose proof (chain_keys _ _ Hdb k) as Hall. rewrite Hc, !Forall_cons in Hall. apply Hall. }
      rewrite Hk1. simpl. exists k. eexists. split; [done|]. split; [done|]. split; [done|].
      exists (h' ++ [me]). split; [|done]. simpl.
      rewrite (chain_step _ _ Hdb _ _ _ _ _ Hc Hk1), <- Hl1, <- app_assoc. simpl.
      apply upto_snoc; [done|]. intros m' ?. apply Hne. by right.
  - subst h. simpl. destruct (tail_sequence r) as [|[k m] t] eqn:Ht; simpl; [done|].
    apply Forall_cons in Htail as [Hm Htail]. exists k. eexists. split; [done|]. split; [done|].
    split; [done|]. by exists [].
Qed.

(** *** Many messages *)
Lemma keys_of l : Forall (λ m, is_Some (key_from (MessageKey := K) m)) l →
  ∃ refs, mapM key_from l = Some refs ∧ Forall2 (λ m k, key_from m = Some k) l refs.
Proof.
  intros [refs Hr]%mapM_is_Some. exists refs. split; [done|]. by apply mapM_Some.
Qed.

Lemma position_none e l refs : Forall2 (λ m k, key_from m = Some k) l refs →
  (∀ m, m ∈ l → key_from m ≠ Some e) → position e refs = None.
Proof.
  induction 1 as [|m k l refs Hm Hl IH]; intros Hne; simpl; [done|].
  rewrite bool_decide_eq_false_2 by (intros ->; by apply (Hne m); [left|]).
  rewrite IH; [done|]. intros m' ?. apply Hne. by right.
Qed.

Lemma position_some e h' me rest refs :
  Forall2 (λ m k, key_from m = Some k) (h' ++ me :: rest) refs → key_from me = Some e →
  (∀ m, m ∈ h' → key_from m ≠ Some e) → position e refs = Some (length h').
Proof.
  revert refs. induction h' as [|m h' IH]; intros refs HF Hme Hne; simpl in *.
  - apply Forall2_cons_inv_l in HF as (k & refs' & Hk & _ & ->). simpl.
    rewrite bool_decide_eq_true_2; [done|congruence].
  - apply Forall2_cons_inv_l in HF as (k & refs' & Hk & HF & ->). simpl.
    rewrite bool_decide_eq_false_2 by (intros ->; by apply (Hne m); [left|]).
    rewrite (IH refs'); [done..|]. intros m' ?. apply Hne. by right.
Qed.

Lemma chain_take_keys k n : ∃ refs, mapM key_from (take n (chain k)) = Some refs ∧
  Forall2 (λ m k, key_from m = Some k) (take n (chain k)) refs.
Proof. apply keys_of. apply Forall_take, (chain_keys _ _ Hdb). Qed.

(** The request ends before the last message of the history. *)
Lemma range_from_storage_short k e h limit : upto e (chain k) = Some h → 0 < limit < length h →
  ∃ k', range_from_storage db k e limit = Ok (take limit h, Some (k', e)) ∧
        upto e (chain k') = Some (drop limit h).
Proof.
  intros Hu Hl. destruct (upto_prefix _ _ _ Hu) as (h' & me & rest & -> & Hme & Hc & Hne).
  assert (∃ m0 l0, chain k = m0 :: l0) as (m0 & l0 & Hc0)
    by (rewrite Hc; destruct h'; simpl; eauto).
  rewrite length_app in Hl. simpl in Hl.
  assert (take limit (chain k) = take limit h') as Htake.
  { rewrite Hc, <- app_assoc. by rewrite take_app_le by lia. }
  unfold range_from_storage. rewrite (chain_remaining _ _ Hdb _ _ _ (chain_start _ _ _ Hc0)) by lia. simpl.
  destruct (chain_take_keys k limit) as (refs & -> & HF). simpl. rewrite Htake in *.
  rewrite (position_none e _ _ HF)
    by (intros m (j & Hj & _)%elem_of_take; apply Hne; by eapply list_elem_of_lookup_2).
  destruct (h' !! (limit - 1)) as [ml|] eqn:Hml; [|apply lookup_ge_None in Hml; lia].
  assert (last (take limit h') = Some ml) as Hlast.
  { rewrite last_lookup, length_take, lookup_take_lt by lia. rewrite <- Hml. f_equal. lia. }
  pose proof (Forall2_last _ _ _ HF) as Hkl. rewrite Hlast in Hkl.
  destruct (last refs) as [kl|]; [|by inversion Hkl]. inversion Hkl as [? ? Hkey|]; subst.
  assert (chain k !! (limit - 1) = Some ml) as Hck
    by (rewrite Hc, <- app_assoc, lookup_app_l by lia; done).
  assert (∃ mn, chain k !! limit = Some mn) as [mn Hmn].
  { apply lookup_lt_is_Some. rewrite Hc, !length_app. simpl. lia. }
  rewrite (chain_next _ _ Hdb _ _ Hkey), (chain_drop _ _ _ _ Hck Hkey), (drop_cons _ _ _ Hck).
  replace (Datatypes.S (limit - 1)) with limit by lia. rewrite (drop_cons _ _ _ Hmn). simpl.
  assert (is_Some (key_from (MessageKey := K) mn)) as [kn Hkn].
  { pose proof (chain_keys _ _ Hdb k) as Hall. rewrite Forall_forall in Hall. apply Hall.
    by eapply list_elem_of_lookup_2. }
  rewrite Hkn. simpl. exists kn. rewrite (chain_drop _ _ _ _ Hmn Hkn), Hc, <- app_assoc.
  rewrite !drop_app_le, take_app_le by lia. split; [done|]. apply upto_snoc; [done|].
  intros m Hm. apply Hne. apply list_elem_of_lookup_1 in Hm as [j Hj]. rewrite lookup_drop in Hj.
  by eapply list_elem_of_lookup_2.
Qed.

(** The request reaches the end of the history. *)
Lemma range_from_storage_full k e h rest limit :
  upto e (chain k) = Some h → chain k = h ++ rest → length h ≤ limit →
  range_from_storage db k e limit =
    Ok (h, if decide (length h < limit)
           then m ← head rest; k' ← key_from m; Some (k', e) else None).
Proof.
  intros Hu Hc Hl. destruct (upto_prefix _ _ _ Hu) as (h' & me & rest' & -> & Hme & Hc' & Hne).
  rewrite Hc' in Hc. apply app_inv_head in Hc. subst rest'.
  assert (∃ m0 l0, chain k = m0 :: l0) as (m0 & l0 & Hc0)
    by (rewrite Hc'; destruct h'; simpl; eauto).
  rewrite length_app in Hl. simpl in Hl. unfold range_from_storage.
  rewrite (chain_remaining _ _ Hdb _ _ _ (chain_start _ _ _ Hc0)) by lia. simpl.
  destruct (chain_take_keys k limit) as (refs & -> & HF). simpl.
  assert (take limit (chain k) = h' ++ me :: take (limit - length h' - 1) rest) as Htake.
  { rewrite Hc', <- app_assoc, take_app. simpl.
    rewrite take_ge by lia. destruct (limit - length h') as [|n] eqn:Hn; [lia|]. simpl.
    by rewrite Nat.sub_0_r. }
  rewrite Htake in *. rewrite (position_some _ _ _ _ _ HF Hme Hne).
  pose proof (Forall2_length _ _ _ HF) as Hlen. rewrite length_app in Hlen. simpl in Hlen.
  rewrite length_take in Hlen. rewrite length_app. simpl. case_bool_decide as Hpos.
  - assert (limit - length h' - 1 = 0 ∨ rest = []) as Hor.
    { destruct rest; [by right|left]. simpl in *. lia. }
    case_decide; [destruct Hor as [?| ->]; [lia|]|].
    + by rewrite take_nil.
    + replace (limit - length h' - 1) with 0 by lia. done.
  - rewrite decide_True by lia.
    destruct rest as [|mr rest]; [simpl in Hlen; lia|].
    destruct (limit - length h' - 1) as [|n] eqn:Hn; [simpl in Hlen; lia|]. simpl in HF.
    apply Forall2_app_inv_l in HF as (r1 & r2 & Hr1 & Hr2 & ->).
    apply Forall2_cons_inv_l in Hr2 as (ke & r3 & _ & Hr3 & ->).
    apply Forall2_cons_inv_l in Hr3 as (kr & r4 & Hkr & _ & ->).
    pose proof (Forall2_length _ _ _ Hr1) as Hlr.
    assert ((r1 ++ ke :: kr :: r4) !! (length h' + 1) = Some kr) as ->.
    { rewrite lookup_app_r by lia. by replace (length h' + 1 - length r1) with 1 by lia. }
    simpl. rewrite Hkr. simpl. do 2 f_equal. rewrite take_app, take_ge by lia.
    by replace (length h' + 1 - length h') with 1 by lia.
Qed.

Lemma split_limit l t limit : length l ≤ limit →
  take limit (l ++ t) = l ++ take (limit - length l) t ∧
  drop limit (l ++ t) = drop (limit - length l) t.
Proof. intros Hl. rewrite take_app, drop_app, take_ge, drop_ge by done. done. Qed.

Lemma tail_split (t : list (K * M)) n :
  take (min n (length t)) t = take n t ∧ drop (min n (length t)) t = drop n t.
Proof.
  destruct (decide (n ≤ length t)); [by rewrite Nat.min_l|].
  rewrite Nat.min_r, !take_ge, !drop_ge by lia. done.
Qed.

(** The storage knows messages after the end of the history, and the request reaches there. *)
Definition overruns r (limit : nat) : Prop :=
  match compacted_history r with
  | Some (k, e) => ∃ h m rest, upto e (chain k) = Some h ∧ chain k = h ++ m :: rest ∧ length h < limit
  | None => False
  end.

Lemma next_range_history r l limit : range_ok r l → 0 < limit →
  ∃ r', next_range db r limit = Ok (take limit l, r') ∧
    Forall (λ p : K * M, key_from p.2 = Some p.1) (tail_sequence r') ∧
    (¬ overruns r limit → range_ok r' (drop limit l)) ∧
    ∀ k e h m rest, compacted_history r = Some (k, e) → upto e (chain k) = Some h →
      chain k = h ++ m :: rest → length h < limit →
      ∃ k', key_from m = Some k' ∧ compacted_history r' = Some (k', e).
Proof.
  intros [Htail (h & Hh & ->)] Hpos. unfold next_range.
  destruct (compacted_history r) as [[k e]|] eqn:Hhist; simpl in Hh.
  - destruct (decide (limit < length h)) as [Hlt|Hge].
    + destruct (range_from_storage_short k e h limit Hh ltac:(lia)) as (k' & -> & Hk'). simpl.
      rewrite length_take. replace (limit - limit `min` length h) with 0 by lia. simpl.
      rewrite app_nil_r. eexists. split; [by rewrite take_app_le by lia|]. simpl.
      split; [done|]. split.
      * intros _. split; [done|]. exists (drop limit h). split; [done|]. by rewrite drop_app_le by lia.
      * intros k0 e0 h0 m rest [= <- <-] Hh0 _ Hl. rewrite Hh in Hh0. injection Hh0 as <-. lia.
    + destruct (upto_prefix _ _ _ Hh) as (h' & me & rest & Hsplit & Hme & Hc & Hne).
      rewrite (range_from_storage_full k e h rest limit Hh Hc) by lia. simpl.
      destruct (split_limit h (snd <$> tail_sequence r) limit ltac:(lia)) as [-> ->].
      destruct (tail_split (tail_sequence r) (limit - length h)) as [-> ->].
      rewrite fmap_take. eexists. split; [done|]. simpl. split; [by apply Forall_drop|]. split.
      * intros Hno. split; [by apply Forall_drop|]. exists []. simpl. rewrite fmap_drop. split; [|done].
        case_decide; [|done]. destruct rest as [|m rest]; [done|].
        destruct Hno. unfold overruns. rewrite Hhist. by exists h, m, rest.
      * intros k0 e0 h0 m rest0 [= <- <-] Hh0 Hc0 Hl. rewrite Hh in Hh0. injection Hh0 as <-.
        rewrite Hc in Hc0. apply app_inv_head in Hc0. subst rest. rewrite decide_True by done. simpl.
        assert (is_Some (key_from (MessageKey := K) m)) as [km Hkm].
        { pose proof (chain_keys _ _ Hdb k) as Hall. rewrite Forall_forall in Hall. apply Hall.
          rewrite Hc. apply elem_of_app. right. by left. }
        rewrite Hkm. simpl. by exists km.
  - subst h. simpl. rewrite Nat.sub_0_r.
    destruct (tail_split (tail_sequence r) limit) as [-> ->]. rewrite fmap_take.
    eexists. split; [done|]. simpl. split; [by apply Forall_drop|]. split; [|done].
    intros _. split; [by apply Forall_drop|]. exists []. simpl. by rewrite fmap_drop.
Qed.
End contents.

Section theorems.
Context {S K M : Type} `{DurableStorageRead S K M} `{KeyFrom K M} `{EqDecision K} `{EqDecision M}.
Implicit Types (r : MessagesRange K M) (db : S) (chain : K → list M).

(** A loop over the iterator: [None] when the fuel runs out. *)
Fixpoint collect (fuel : nat) db r : option (outcome (IteratorError K) (list M)) :=
  match fuel with
  | 0 => None
  | Datatypes.S fuel =>
      match range_next db r with
      | None => Some (Ok [])
      | Some (Ok (m, _), r') =>
          (λ o, o ≫= λ l, Ok (m :: l)) <$> collect fuel db r'
      | Some (Err e, _) => Some (Err e)
      | Some (Panic, _) => Some Panic
      end
  end.

(** MessagesRangeIterator::next: iterating over a range ends and yields exactly its messages,
    each once: first those in the storage, from the first to the last key of the compacted
    history, then the tail, in order. *)
Theorem range_iterates db chain r l : StorageOk db chain → range_ok chain r l →
  collect (Datatypes.S (length l)) db r = Some (Ok l).
Proof.
  intros Hdb. revert r. induction l as [|m l IH]; intros r Hr; pose proof (range_next_ok _ _ Hdb _ _ Hr) as Hn.
  - simpl. by rewrite Hn.
  - destruct Hn as (k & r' & Hn & _ & Hr'). specialize (IH _ Hr'). simpl length.
    generalize dependent (Datatypes.S (length l)). intros fuel IH. simpl. rewrite Hn, IH. done.
Qed.

(** MessagesRangeIterator::next_range: a bulk read of a positive limit returns the first
    messages of the range, up to the limit, across the border between storage and tail; and
    unless it overruns a history that the storage continues, the rest is the remaining range. *)
Theorem next_range_takes_front db chain r l limit :
  StorageOk db chain → range_ok chain r l → 0 < limit →
  ∃ r', next_range db r limit = Ok (take limit l, r') ∧
        (¬ overruns chain r limit → range_ok chain r' (drop limit l)).
Proof.
  intros Hdb Hr Hpos. destruct (next_range_history db chain Hdb r l limit Hr Hpos) as (r' & ? & _ & ? & _). eauto.
Qed.

(** MessagesRangeIterator::next_range past the end of the history: when the storage already
    holds messages after the end of the compacted history and the bulk read reaches over that
    end, the remaining history starts at the message after the end.  The remaining range is
    then not empty and stands for no list of messages: its end is never met again. *)
Theorem next_range_past_end db chain r l limit :
  StorageOk db chain → range_ok chain r l → overruns chain r limit →
  ∃ r' k e, next_range db r limit = Ok (take limit l, r') ∧ compacted_history r' = Some (k, e) ∧
            MessagesRange_is_empty r' = false ∧ ∀ l', ¬ range_ok chain r' l'.
Proof.
  intros Hdb Hr Hover. unfold overruns in Hover.
  destruct (compacted_history r) as [[k e]|] eqn:Hhist; [|done].
  destruct Hover as (h & m & rest & Hh & Hc & Hlt).
  destruct (next_range_history db chain Hdb r l limit Hr ltac:(lia)) as (r' & Hrun & _ & _ & Hend).
  destruct (Hend k e h m rest Hhist Hh Hc Hlt) as (k' & Hk' & Hhist').
  exists r', k', e. split; [done|]. split; [done|]. unfold MessagesRange_is_empty. rewrite Hhist'.
  split; [done|]. intros l' [_ (h2 & Hh2 & _)]. rewrite Hhist' in Hh2. simpl in Hh2.
  destruct (upto_prefix _ _ _ Hh) as (h' & me & rest1 & -> & Hme & Hc1 & _).
  assert (chain k !! length (h' ++ [me]) = Some m) as Hm
    by (rewrite Hc, lookup_app_r, Nat.sub_diag by lia; done).
  rewrite (chain_drop _ _ Hdb _ _ _ _ Hm Hk'), Hc, drop_app_length in Hh2.
  destruct (upto_prefix _ _ _ Hh2) as (h3 & me3 & rest3 & -> & Hme3 & Hc3 & _).
  assert (me = me3) as <-.
  { assert (chain e = drop (length h') (chain k)) as He1.
    { apply (chain_drop _ _ Hdb _ _ me); [|done]. rewrite Hc, <- app_assoc, lookup_app_r, Nat.sub_diag by lia. done. }
    assert (∃ i, chain k !! i = Some me3) as [i Hi].
    { apply list_elem_of_lookup_1. rewrite Hc, Hc3. set_solver. }
    pose proof (chain_drop _ _ Hdb _ _ _ _ Hi Hme3) as He2. rewrite He1 in He2.
    rewrite Hc, <- app_assoc, drop_app_length in He2. simpl in He2.
    rewrite <- app_assoc in Hc. simpl in Hc. rewrite Hc in Hi. 
    rewrite (drop_cons _ _ _ Hi) in He2. by injection He2. }
  pose proof (chain_nodup _ _ Hdb k) as Hnd. rewrite Hc, Hc3 in Hnd.
  apply NoDup_app in Hnd as (_ & Hdisj & _). apply (Hdisj me); set_solver.
Qed.

(** Build_next_range: the next range exists exactly when the consumed messages are the front
    of the range extended by the appended messages, and then it is the rest.  Otherwise the
    first message that differs is reported, or the first one past the end. *)
Theorem build_next_range_spec db chain r l appended consumed :
  StorageOk db chain → range_ok chain r l → Forall (λ p : K * M, key_from p.2 = Some p.1) appended →
  let l' := l ++ (snd <$> appended) in
  (∀ rest, l' = consumed ++ rest →
     ∃ r', build_next_range db r appended consumed = Ok r' ∧ range_ok chain r' rest) ∧
  (∀ pre c post, consumed = pre ++ c :: post → l' = pre →
     build_next_range db r appended consumed = Err (OutOfRange c)) ∧
  (∀ pre c post a rest, consumed = pre ++ c :: post → l' = pre ++ a :: rest → a ≠ c →
     build_next_range db r appended consumed = Err (InvalidRangeOrConsumedMessage c a)).
Proof.
  intros Hdb [Htail (h & Hh & ->)] Happ l'.
  assert (range_ok chain (add_messages r appended) l') as Hr.
  { split; [by apply Forall_app|]. exists h. split; [done|]. unfold l'. simpl. by rewrite fmap_app, app_assoc. }
  unfold build_next_range. clearbody l'. generalize dependent (add_messages r appended).
  clear r appended h Hh Htail Happ. intros r Hr.
  assert (∀ pre rest r0, range_ok chain r0 (pre ++ rest) → ∃ r', range_ok chain r' rest ∧
            ∀ post, consume_all db r0 (pre ++ post) = consume_all db r' post) as Hpre.
  { intros pre rest. induction pre as [|m pre IH]; intros r0 Hpr; [by exists r0|].
    destruct (range_next_ok _ _ Hdb _ _ Hpr) as (k & r1 & Hn & _ & Hr1).
    destruct (IH r1 Hr1) as (r' & Hr' & Hall). exists r'. split; [done|]. intros post. simpl.
    rewrite Hn. simpl. by rewrite bool_decide_eq_true_2. }
  split; [|split].
  - intros rest ->. destruct (Hpre _ _ _ Hr) as (r' & Hr' & Hall). exists r'. split; [|done].
    specialize (Hall []). by rewrite app_nil_r in Hall.
  - intros pre c post -> ->. rewrite <- (app_nil_r pre) in Hr.
    destruct (Hpre _ _ _ Hr) as (r' & Hr' & ->). simpl. by rewrite (range_next_ok _ _ Hdb _ _ Hr').
  - intros pre c post a rest -> -> Hne. destruct (Hpre _ _ _ Hr) as (r' & Hr' & ->). simpl.
    destruct (range_next_ok _ _ Hdb _ _ Hr') as (k & r1 & -> & _). simpl.
    by rewrite bool_decide_eq_false_2.
Qed.
End theorems.

(** ** An inbox over a storage that is ahead

    The history ends at the first message of the account, the second one is in the tail and
    has since been written to the storage. *)
#[local] Existing Instance text_message.
#[local] Existing Instance text_bincode.
#[local] Existing Instance text_laws.
#[local] Instance text_read :
    DurableStorageRead (MessageDurableStorage MapStore) MessageIdentifier string :=
  MessageDurableStorage_read "int".

Definition key_of_text (m : string) : MessageIdentifier := (text_entry m).1.
Definition sample_range : MessagesRange MessageIdentifier string :=
  mkRange (Some (key_of_text (text "a" "1"), key_of_text (text "a" "1"))) [text_entry (text "a" "2")].

Lemma sample_range_ok : range_ok first_chain sample_range [text "a" "1"; text "a" "2"].
Proof.
  split; [by repeat constructor|]. exists [text "a" "1"]. split; [|done]. vm_compute. done.
Qed.

Lemma range_iterates_witness :
  collect 3 first_storage sample_range = Some (Ok [text "a" "1"; text "a" "2"]).
Proof. exact (range_iterates first_storage first_chain _ _ first_storage_ok sample_range_ok). Defined.

Lemma next_range_takes_front_witness :
  ∃ r', next_range first_storage sample_range 1 = Ok ([text "a" "1"], r') ∧
        range_ok first_chain r' [text "a" "2"].
Proof.
  destruct (next_range_takes_front first_storage first_chain _ _ 1 first_storage_ok sample_range_ok ltac:(lia))
    as (r' & Hrun & Hrest).
  exists r'. split; [exact Hrun|]. apply Hrest. intros (h & m & rest & Hh & _ & Hlt).
  vm_compute in Hh. injection Hh as <-. simpl in Hlt. lia.
Defined.

Lemma next_range_past_end_witness :
  ∃ r' k e, next_range first_storage sample_range 2 = Ok ([text "a" "1"; text "a" "2"], r') ∧
            compacted_history r' = Some (k, e) ∧ MessagesRange_is_empty r' = false.
Proof.
  destruct (next_range_past_end first_storage first_chain _ _ 2 first_storage_ok sample_range_ok)
    as (r' & k & e & Hrun & Hk & He & _).
  - exists [text "a" "1"], (text "a" "2"), []. split; [vm_compute; reflexivity|].
    split; [vm_compute; reflexivity|simpl; lia].
  - exists r', k, e. split; [exact Hrun|]. split; assumption.
Defined.

(** What is left then: the next read fails, or, when the storage has a third message, returns
    the message that was just taken. *)
Lemma taken_message_returns :
  match next_range first_storage sample_range 2 with
  | Ok (_, rest) =>
      fst <$> range_next first_storage rest =
        Some (Err (BrokenRange (key_of_text (text "a" "1")) (key_of_text (text "a" "2")))) ∧
      fst <$> range_next (stored_text 0 first_storage (text "a" "3")) rest =
        Some (Ok (text "a" "2", key_of_text (text "a" "2")))
  | _ => False
  end.
Proof. vm_compute. done. Qed.

Lemma build_next_range_spec_witness :
  ∃ r', build_next_range first_storage sample_range [] [text "a" "1"] = Ok r' ∧
        range_ok first_chain r' [text "a" "2"].
Proof.
  destruct (build_next_range_spec first_storage first_chain sample_range _ [] [text "a" "1"]
              first_storage_ok sample_range_ok (Forall_nil_2 _)) as [Hok _].
  exact (Hok [text "a" "2"] eq_refl).
Defined.
