(* ===== verification/MessageQueue.v ===== *)
(** * The message queue of a thread

    Models [types/thread_message_queue/]: the inboxes of the accounts of a thread, the ordered
    set of the accounts that have one, the update of the queue by a block
    ([diff/from_maps.rs]) and the iterator over the inboxes.

    [queue_ok] relates the queue to a map from accounts to their lists of messages, and
    [diff_spec] is the update on such maps.  An ordered set is a [gset], read by index through
    its sorted enumeration; hash maps are lists of entries in the order in which they are
    visited. *)
From Stdlib Require Import Ascii.
From stdpp Require Import base numbers gmap strings fin_maps sorting list lexico.
From S2P Require Import Prelude Identifiers MessageStore MessageRange.

(** ** OrderSet: accounts in the order of their addresses *)
Definition address_le (a b : AccountAddress) : Prop :=
  a = b ∨ lexico (account_bytes a) (account_bytes b).
#[global] Instance address_le_dec : RelDecision address_le.
Proof. intros a b. unfold address_le. apply _. Defined.

Abbreviation OrderSet := (gset AccountAddress).
Definition order_list (s : OrderSet) : list AccountAddress := merge_sort address_le (elements s).
Definition OrderSet_len (s : OrderSet) : nat := size s.
Definition OrderSet_get_index (s : OrderSet) (index : nat) : option AccountAddress := order_list s !! index.
Definition OrderSet_contains (s : OrderSet) (a : AccountAddress) : bool := bool_decide (a ∈ s).
Definition OrderSet_insert (s : OrderSet) (a : AccountAddress) : OrderSet := {[ a ]} ∪ s.
Definition OrderSet_remove (s : OrderSet) (a : AccountAddress) : OrderSet := s ∖ {[ a ]}.

Section queue.
Context {S K M : Type} `{DurableStorageRead S K M} `{KeyFrom K M} `{Countable K} `{EqDecision M}.

Record ThreadMessageQueueState := mkQueue {
  q_messages : gmap AccountAddress (MessagesRange K M);
  q_order_set : OrderSet;
  q_cursor : nat;
}.
Implicit Types (q : ThreadMessageQueueState) (db : S).

Definition ThreadMessageQueueState_empty : ThreadMessageQueueState := mkQueue ∅ ∅ 0.
Definition account_inbox q (a : AccountAddress) : option (MessagesRange K M) := q_messages q !! a.
Definition ThreadMessageQueueState_length q : nat :=
  sum_list ((λ p, MessagesRange_length p.2) <$> map_to_list (q_messages q)).
Definition destinations q : OrderSet := q_order_set q.

(** ** The iterator over the inboxes *)
Definition queue_next q (offset : nat) : option (MessagesRange K M * nat) :=
  if bool_decide (OrderSet_len (q_order_set q) ≤ offset) then None else
  let next_index := (q_cursor q + offset) `mod` OrderSet_len (q_order_set q) in
  next_account ← OrderSet_get_index (q_order_set q) next_index;
  range ← q_messages q !! next_account;
  Some (range, offset + 1).

(** ** ThreadMessageQueueStateDiff *)
Record QueueDiff := mkDiff {
  consumed_messages : list (AccountAddress * gset K);
  removed_accounts : list AccountAddress;
  added_accounts : list (AccountAddress * MessagesRange K M);
  produced_messages : list (AccountAddress * list (K * M));
}.

Abbreviation Inboxes := (gmap AccountAddress (MessagesRange K M) * OrderSet)%type.

(** The feature [fail-fast] is on: an account that is added must be new. *)
Definition add_account (st : Inboxes) (e : AccountAddress * MessagesRange K M) : outcome unit Inboxes :=
  let '(messages, order) := st in
  assert_that (bool_decide (messages !! e.1 = None)) ≫= λ _,
  Ok (<[e.1 := e.2]> messages,
      if OrderSet_contains order e.1 then order else OrderSet_insert order e.1).

Definition produced_ids (d : QueueDiff) : gset K :=
  list_to_set (concat ((λ e : AccountAddress * list (K * M), fst <$> e.2) <$> produced_messages d)).
(** Messages that are produced and consumed by the same block. *)
Definition intersection_ids (d : QueueDiff) : gset K :=
  ⋃ ((λ e : AccountAddress * gset K, filter (λ id, id ∈ produced_ids d) e.2) <$> consumed_messages d).

Definition fresh_messages (inter : gset K) (messages : list (K * M)) : list (K * M) :=
  filter (λ m, m.1 ∉ inter) messages.

(** The head of the tail that is in the storage moves to the compacted history. *)
Definition compact db (tail : list (K * M)) (range_ref : option (K * K)) :
    outcome unit (list (K * M) * option (K * K)) :=
  match tail with
  | [] => Ok (tail, range_ref)
  | (message_id, _) :: _ =>
      match remaining_messages db message_id (length tail) with
      | Err _ => Ok (tail, range_ref)
      | Panic => Panic
      | Ok db_messages =>
          unwrap (mapM key_from db_messages) ≫= λ db_keys,
          let range_ref :=
            match head db_keys, last db_keys with
            | Some first, Some last => Some (default first (fst <$> range_ref), last)
            | _, _ => range_ref
            end in
          let db_set : gset K := list_to_set db_keys in
          assert_that (bool_decide (size db_set ≤ length tail)) ≫= λ _,
          assert_that (bool_decide (list_to_set (fst <$> take (size db_set) tail) = db_set)) ≫= λ _,
          Ok (drop (size db_set) tail, range_ref)
      end
  end.

Definition add_produced db (inter : gset K) (st : Inboxes) (e : AccountAddress * list (K * M)) :
    outcome unit Inboxes :=
  let '(messages, order) := st in
  let fresh := fresh_messages inter e.2 in
  if bool_decide (fresh = []) then Ok (messages, order) else
  let entry := default MessagesRange_empty (messages !! e.1) in
  let order := if OrderSet_contains order e.1 then order else OrderSet_insert order e.1 in
  compact db (tail_sequence entry ++ fresh) (compacted_history entry) ≫= λ '(tail, range_ref),
  Ok (<[e.1 := mkRange range_ref tail]> messages, order).

Definition remove_consumed db (inter : gset K) (st : Inboxes) (e : AccountAddress * gset K) :
    outcome unit Inboxes :=
  let '(messages, order) := st in
  let ids := filter (λ id, id ∉ inter) e.2 in
  if bool_decide (ids = ∅) then Ok (messages, order) else
  match messages !! e.1 with
  | None => Err tt
  | Some entry =>
      unwrap_ok (next_range db entry (size ids)) ≫= λ '(taken, remaining),
      unwrap (mapM key_from taken) ≫= λ keys,
      assert_that (bool_decide (ids = list_to_set keys)) ≫= λ _,
      if MessagesRange_is_empty remaining
      then Ok (delete e.1 messages, OrderSet_remove order e.1)
      else Ok (<[e.1 := remaining]> messages, order)
  end.

Definition remove_account (st : Inboxes) (a : AccountAddress) : Inboxes :=
  (delete a st.1, OrderSet_remove st.2 a).

Definition ThreadMessageQueueState_from db q (d : QueueDiff) : outcome unit ThreadMessageQueueState :=
  let inter := intersection_ids d in
  fold_outcome add_account (q_messages q, q_order_set q) (added_accounts d) ≫= λ st,
  fold_outcome (add_produced db inter) st (produced_messages d) ≫= λ st,
  fold_outcome (remove_consumed db inter) st (consumed_messages d) ≫= λ st,
  let '(messages, order) := foldl remove_account st (removed_accounts d) in
  let cursor := if bool_decide (size messages = 0) then 0 else q_cursor q `mod` size messages in
  Ok (mkQueue messages order cursor).
End queue.
Arguments ThreadMessageQueueState : clear implicits.
Arguments QueueDiff _ _ {_ _}.

(** ** Compacting keeps the messages of a range *)
Section compacting.
Context {S K M : Type} `{DurableStorageRead S K M} `{KeyFrom K M} `{Countable K} `{EqDecision M}.
Context (db : S) (chain : K → list M).
Hypothesis Hdb : StorageOk db chain.
Implicit Types (r : MessagesRange K M) (l h : list M) (t : list (K * M)) (k e : K) (refs : list K).

Lemma chain_position k i j m m' k' : chain k !! i = Some m → chain k !! j = Some m' →
  key_from m = Some k' → key_from m' = Some k' → i = j.
Proof.
  intros Hi Hj Hm Hm'. pose proof (chain_drop _ _ Hdb _ _ _ _ Hi Hm) as Hd.
  rewrite (chain_drop _ _ Hdb _ _ _ _ Hj Hm') in Hd. apply (f_equal length) in Hd.
  rewrite !length_drop in Hd. apply lookup_lt_Some in Hi, Hj. lia.
Qed.

Lemma chain_refs_nodup k n refs :
  Forall2 (λ m k, key_from m = Some k) (take n (chain k)) refs → NoDup refs.
Proof.
  intros HF. apply NoDup_alt. intros i j k' Hi Hj.
  destruct (Forall2_lookup_r _ _ _ _ _ HF Hi) as (m & Hm & Hkm).
  destruct (Forall2_lookup_r _ _ _ _ _ HF Hj) as (m' & Hm' & Hkm').
  apply lookup_take_Some in Hm as [Hm _], Hm' as [Hm' _]. by eapply chain_position.
Qed.

Lemma upto_take k i m e : chain k !! i = Some m → key_from m = Some e →
  upto e (chain k) = Some (take (Datatypes.S i) (chain k)).
Proof.
  intros Hi Hm. rewrite (take_S_r _ _ _ Hi).
  rewrite (take_drop_lookup_split _ _ _ Hi) at 1. apply upto_snoc; [done|].
  intros m' (j & Hj & Hlt)%elem_of_take Hm'. assert (j = i) by by eapply chain_position. lia.
Qed.

Definition comparable l l' : Prop := l `prefix_of` l' ∨ l' `prefix_of` l.

(** The storage has the messages of the tail in the same order, and if it has the first of
    them, directly after the history. *)
Definition agrees (history : option (K * K)) t : Prop :=
  ∀ k0 m0 t', t = (k0, m0) :: t' →
    comparable (chain k0) (snd <$> t) ∧
    ∀ k e h, history = Some (k, e) → upto e (chain k) = Some h → chain k0 ≠ [] → chain k = h ++ chain k0.

Lemma tail_refs t : Forall (λ p : K * M, key_from p.2 = Some p.1) t →
  Forall2 (λ m k, key_from m = Some k) (snd <$> t) (fst <$> t).
Proof. induction 1; simpl; by constructor. Qed.

Lemma refs_unique l refs refs' : Forall2 (λ m k, key_from m = Some k) l refs →
  Forall2 (λ m k, key_from m = Some k) l refs' → refs = refs'.
Proof.
  intros HF. revert refs'. induction HF as [|m k l refs Hm HF IH]; intros refs' HF'.
  - by inversion HF'.
  - apply Forall2_cons_inv_l in HF' as (k' & refs1 & Hk' & HF1 & ->). f_equal; [congruence|auto].
Qed.

(** What the storage returns is the front of the tail. *)
Lemma stored_front k0 t : comparable (chain k0) (snd <$> t) →
  take (length t) (chain k0) = snd <$> take (length (take (length t) (chain k0))) t.
Proof.
  rewrite fmap_take. intros [[k Hk]|[k Hk]].
  - apply (f_equal length) in Hk as Hlen. rewrite length_app, length_fmap in Hlen.
    rewrite (take_ge (chain k0)) by lia. by rewrite Hk, take_app_length.
  - rewrite Hk, <- (length_fmap snd t), take_app_length. by rewrite take_ge.
Qed.

Lemma compact_ok history t l :
  range_ok chain (mkRange history t) l → agrees history t →
  ∃ t' history', compact db t history = Ok (t', history') ∧ range_ok chain (mkRange history' t') l.
Proof.
  intros [Htail (h & Hh & ->)] Hagree. simpl in *. unfold compact.
  destruct t as [|[k0 m0] t0] eqn:Ht; [exists [], history; split; [done|]; split; [done|]; by exists h|].
  destruct (Hagree k0 m0 t0 eq_refl) as [Hcomp Hafter]. rewrite <- Ht in *.
  assert (key_from m0 = Some k0) as Hk0 by (rewrite Ht, Forall_cons in Htail; apply Htail).
  assert (0 < length t) by (rewrite Ht; simpl; lia).
  rewrite (chain_remaining _ _ Hdb _ _ _ Hk0) by done.
  destruct (chain_take_keys db chain Hdb k0 (length t)) as (refs & -> & HF). simpl.
  pose proof (chain_refs_nodup _ _ _ HF) as Hnd. pose proof (Forall2_length _ _ _ HF) as Hlen.
  pose proof (stored_front _ _ Hcomp) as Hfront. rewrite size_list_to_set by done. rewrite <- Hlen.
  set (d := length (take (length t) (chain k0))) in *.
  assert (d ≤ length t) by (unfold d; rewrite length_take; lia).
  assert (fst <$> take d t = refs) as Hrefs.
  { eapply refs_unique; [|exact HF]. rewrite Hfront. apply tail_refs. by apply Forall_take. }
  rewrite (bool_decide_eq_true_2 (d ≤ length t)) by done. simpl. rewrite Hrefs.
  rewrite (bool_decide_eq_true_2 _ (eq_refl (list_to_set (C := gset K) refs))). simpl.
  eexists _, _. split; [done|]. split; simpl; [by apply Forall_drop|].
  assert (snd <$> t = take (length t) (chain k0) ++ (snd <$> drop d t)) as Hsplit
    by (rewrite Hfront, <- fmap_app, take_drop; done).
  destruct refs as [|kf refs'] eqn:Hr.
  { assert (d = 0) as -> by (simpl in Hlen; lia). exists h. by rewrite drop_0. }
  destruct (last (kf :: refs')) as [kl|] eqn:Hlast; [|by destruct refs' using rev_ind; rewrite ?app_comm_cons, ?last_snoc in Hlast].
  simpl. apply last_Some in Hlast as (rs & Hlast). rewrite Hlast in HF, Hlen.
  rewrite length_app in Hlen. simpl in Hlen.
  assert (∃ ml, chain k0 !! (d - 1) = Some ml ∧ key_from ml = Some kl) as (ml & Hml & Hkl).
  { destruct (Forall2_lookup_r _ _ _ (length rs) kl HF) as (ml & Hml & Hkl);
      [rewrite lookup_app_r, Nat.sub_diag by done; done|].
    apply lookup_take_Some in Hml as [Hml _]. exists ml. split; [|done].
    by replace (d - 1) with (length rs) by lia. }
  assert (take d (chain k0) = take (length t) (chain k0)) as Htd.
  { unfold d. rewrite length_take. destruct (decide (length t ≤ length (chain k0))).
    - by rewrite Nat.min_l. - rewrite Nat.min_r, !take_ge by lia. done. }
  destruct history as [[k e]|]; simpl in *.
  - exists (h ++ take (length t) (chain k0)). rewrite <- app_assoc, <- Hsplit. split; [|done].
    assert (chain k0 ≠ []) as Hne by (intros E; by rewrite E in Hml).
    rewrite (upto_take k (length h + (d - 1)) ml kl), (Hafter k e h) by
      first [done | rewrite (Hafter k e h), lookup_app_r by (done || lia); by replace (length h + (d - 1) - length h) with (d - 1) by lia].
    f_equal. rewrite take_app, take_ge by lia. f_equal.
    rewrite <- Htd. f_equal. lia.
  - subst h. exists (take (length t) (chain k0)). split; [|done].
    assert (kf = k0) as ->.
    { destruct (chain k0) as [|m1 c] eqn:Hc; [done|]. rewrite Ht in HF. simpl in HF.
      rewrite <- Hlast in HF. apply Forall2_cons_inv_l in HF as (k1 & ? & Hk1 & _ & Heq). injection Heq as -> _.
      rewrite (chain_head _ _ Hdb _ _ _ Hc) in Hk1. by injection Hk1. }
    rewrite (upto_take k0 (d - 1) ml kl Hml Hkl). f_equal. rewrite <- Htd. f_equal. lia.
Qed.
End compacting.

(** ** The queue as a map from accounts to messages *)
Section refinement.
Context {S K M : Type} `{DurableStorageRead S K M} `{KeyFrom K M} `{Countable K} `{EqDecision M}.
Context (db : S) (chain : K → list M).
Hypothesis Hdb : StorageOk db chain.
Abbreviation Lists := (gmap AccountAddress (list M)).
Abbreviation Inboxes := (gmap AccountAddress (MessagesRange K M) * OrderSet)%type.
Implicit Types (q : ThreadMessageQueueState K M) (d : QueueDiff K M) (Q : Lists) (st : Inboxes)
  (inter : gset K) (a : AccountAddress).

Definition inboxes_ok st Q : Prop :=
  (∀ a, option_Forall2 (range_ok chain) (st.1 !! a) (Q !! a)) ∧ st.2 = dom st.1.
Definition queue_ok q Q : Prop :=
  inboxes_ok (q_messages q, q_order_set q) Q ∧
  (q_cursor q = 0 ∨ q_cursor q < size (q_messages q)).

(** *** The update of such a map *)
Definition abs_produce inter Q (e : AccountAddress * list (K * M)) : Lists :=
  let fresh := fresh_messages inter e.2 in
  if bool_decide (fresh = []) then Q
  else <[e.1 := default [] (Q !! e.1) ++ (snd <$> fresh)]> Q.
Definition abs_consume inter Q (e : AccountAddress * gset K) : Lists :=
  let ids := filter (λ id, id ∉ inter) e.2 in
  if bool_decide (ids = ∅) then Q else
  match Q !! e.1 with
  | None => Q
  | Some l =>
      if bool_decide (drop (size ids) l = []) then delete e.1 Q
      else <[e.1 := drop (size ids) l]> Q
  end.
Definition diff_spec d (added : list (AccountAddress * list M)) Q : Lists :=
  let inter := intersection_ids d in
  let Q := foldl (λ Q e, <[e.1 := e.2]> Q) Q added in
  let Q := foldl (abs_produce inter) Q (produced_messages d) in
  let Q := foldl (abs_consume inter) Q (consumed_messages d) in
  foldl (λ Q a, delete a Q) Q (removed_accounts d).

(** *** When the update succeeds *)
Definition producible inter st (e : AccountAddress * list (K * M)) : Prop :=
  let entry := default MessagesRange_empty (st.1 !! e.1) in
  Forall (λ p : K * M, key_from p.2 = Some p.1) e.2 ∧
  agrees chain (compacted_history entry) (tail_sequence entry ++ fresh_messages inter e.2).
Definition consumable inter st Q (e : AccountAddress * gset K) : Prop :=
  let ids := filter (λ id, id ∉ inter) e.2 in
  ids = ∅ ∨ ∃ r l keys, st.1 !! e.1 = Some r ∧ Q !! e.1 = Some l ∧ ¬ overruns chain r (size ids) ∧
    mapM key_from (take (size ids) l) = Some keys ∧ ids = list_to_set keys.

Lemma order_insert (order : OrderSet) a :
  (if OrderSet_contains order a then order else OrderSet_insert order a) = {[ a ]} ∪ order.
Proof. unfold OrderSet_contains, OrderSet_insert. case_bool_decide; set_solver. Qed.

Lemma inboxes_insert st Q a r l : inboxes_ok st Q → range_ok chain r l →
  inboxes_ok (<[a := r]> st.1, {[ a ]} ∪ st.2) (<[a := l]> Q).
Proof.
  intros [HF Hdom] Hr. split; simpl; [|by rewrite dom_insert_L, Hdom].
  intros a'. destruct (decide (a = a')) as [<-|]; [rewrite !lookup_insert_eq; by constructor|].
  by rewrite !lookup_insert_ne.
Qed.

Lemma inboxes_delete st Q a : inboxes_ok st Q →
  inboxes_ok (delete a st.1, OrderSet_remove st.2 a) (delete a Q).
Proof.
  intros [HF Hdom]. split; simpl; [|unfold OrderSet_remove; by rewrite dom_delete_L, Hdom].
  intros a'. destruct (decide (a = a')) as [<-|]; [rewrite !lookup_delete_eq; by constructor|].
  by rewrite !lookup_delete_ne.
Qed.

Lemma inboxes_lookup st Q a r : inboxes_ok st Q → st.1 !! a = Some r → ∃ l, Q !! a = Some l ∧ range_ok chain r l.
Proof. intros [HF _] Hr. specialize (HF a). rewrite Hr in HF. inversion HF; eauto. Qed.

Lemma inboxes_default st Q a : inboxes_ok st Q →
  range_ok chain (default MessagesRange_empty (st.1 !! a)) (default [] (Q !! a)).
Proof.
  intros [HF _]. specialize (HF a). destruct HF; simpl; [done|].
  split; [constructor|]. by exists [].
Qed.

(** *** The phases *)
Lemma add_accounts_ok st Q entries added : inboxes_ok st Q →
  Forall2 (λ e l, e.1 = l.1 ∧ range_ok chain e.2 l.2) entries added →
  NoDup (entries.*1) → (∀ a, a ∈ entries.*1 → Q !! a = None) →
  ∃ st', fold_outcome add_account st entries = Ok st' ∧
         inboxes_ok st' (foldl (λ Q e, <[e.1 := e.2]> Q) Q added).
Proof.
  intros Hok HF. revert st Q Hok. induction HF as [|[a r] [a' l] entries added [Ha Hr] HF IH];
    intros st Q Hok Hnd Hnew; [by exists st|]. simpl in *. subst a'.
  apply NoDup_cons in Hnd as [Hnot Hnd]. destruct st as [ms order]. unfold add_account at 1. simpl.
  assert (ms !! a = None) as Hnone.
  { pose proof (proj1 Hok a) as Ha. rewrite (Hnew a) in Ha by by left. by inversion Ha. }
  rewrite bool_decide_eq_true_2 by done. simpl. rewrite order_insert.
  apply IH; [by apply (inboxes_insert (ms, order))|done|].
  intros a' Ha'. rewrite lookup_insert_ne by (intros ->; done). apply Hnew. by right.
Qed.

Lemma add_produced_ok inter st Q e : inboxes_ok st Q → producible inter st e →
  ∃ st', add_produced db inter st e = Ok st' ∧ inboxes_ok st' (abs_produce inter Q e) ∧
         ∀ a, a ≠ e.1 → st'.1 !! a = st.1 !! a.
Proof.
  intros Hok [Hkeys Hagree]. destruct st as [ms order]. unfold add_produced, abs_produce.
  case_bool_decide; [by exists (ms, order)|].
  edestruct (compact_ok db chain Hdb) as (t' & hist' & Hrun & Hr'); [|exact Hagree|].
  { instantiate (1 := default [] (Q !! e.1) ++ (snd <$> fresh_messages inter e.2)). destruct (inboxes_default _ _ e.1 Hok) as [Ht (h & Hh & Hl)]. split; simpl.
    - apply Forall_app. split; [done|]. rewrite Forall_forall in Hkeys |- *.
      intros p [_ Hp]%list_elem_of_filter. by apply Hkeys.
    - exists h. split; [done|]. simpl in Hl. by rewrite fmap_app, Hl, app_assoc. }
  simpl in Hrun |- *. rewrite Hrun. simpl. rewrite order_insert. eexists. split; [done|].
  split; [by apply (inboxes_insert (ms, order))|]. intros a Ha. simpl. by rewrite lookup_insert_ne.
Qed.

Lemma produce_phase_ok inter st Q entries : inboxes_ok st Q → NoDup (entries.*1) →
  (∀ e, e ∈ entries → producible inter st e) →
  ∃ st', fold_outcome (add_produced db inter) st entries = Ok st' ∧
         inboxes_ok st' (foldl (abs_produce inter) Q entries).
Proof.
  revert st Q. induction entries as [|e entries IH]; intros st Q Hok Hnd Hp; [by exists st|].
  simpl in *. apply NoDup_cons in Hnd as [Hnot Hnd].
  destruct (add_produced_ok inter st Q e Hok) as (st1 & -> & Hok1 & Hsame); [apply Hp; by left|]. simpl.
  apply IH; [done..|]. intros e' He'. assert (e'.1 ≠ e.1) as Hne.
  { intros E. apply Hnot. rewrite <- E. by apply list_elem_of_fmap_2. }
  unfold producible. rewrite Hsame by done. apply Hp. by right.
Qed.

Lemma range_is_empty r l : range_ok chain r l → MessagesRange_is_empty r = bool_decide (l = []).
Proof.
  intros [_ (h & Hh & ->)]. unfold MessagesRange_is_empty.
  destruct (compacted_history r) as [[k e]|]; simpl in Hh.
  - destruct (upto_prefix _ _ _ Hh) as (h' & me & rest & -> & _).
    rewrite bool_decide_eq_false_2; [done|]. by destruct h'.
  - subst h. destruct (tail_sequence r); done.
Qed.

Lemma remove_consumed_ok inter st Q e : inboxes_ok st Q → consumable inter st Q e →
  ∃ st', remove_consumed db inter st e = Ok st' ∧ inboxes_ok st' (abs_consume inter Q e) ∧
         ∀ a, a ≠ e.1 → st'.1 !! a = st.1 !! a ∧ abs_consume inter Q e !! a = Q !! a.
Proof.
  intros Hok Hc. destruct st as [ms order]. unfold remove_consumed, abs_consume, consumable in *.
  generalize dependent (filter (λ id, id ∉ inter) e.2). intros ids Hc.
  case_bool_decide as Hids; [by exists (ms, order)|].
  destruct Hc as [?|(r & l & keys & Hr & Hl & Hover & Hkeys & Hset)]; [done|]. simpl in Hr.
  destruct (inboxes_lookup _ _ _ _ Hok Hr) as (l' & Hl' & Hrange). rewrite Hl in Hl'. injection Hl' as <-.
  assert (0 < size ids) as Hpos by (apply Nat.neq_0_lt_0; intros ?%size_empty_inv%leibniz_equiv; done).
  destruct (next_range_history db chain Hdb r l (size ids) Hrange Hpos) as (r' & Hrun & _ & Hrest & _).
  specialize (Hrest Hover). simpl. rewrite Hr, Hl, Hrun. simpl. rewrite Hkeys. simpl.
  rewrite (bool_decide_eq_true_2 (ids = list_to_set keys)) by done. simpl.
  rewrite (range_is_empty _ _ Hrest). case_bool_decide as Hnil.
  - eexists. split; [done|]. split; [by apply (inboxes_delete (ms, order))|].
    intros a Ha. simpl. by rewrite !lookup_delete_ne.
  - eexists. split; [done|]. split.
    + assert (order = {[ e.1 ]} ∪ order) as ->.
      { destruct Hok as [_ Hd]. simpl in Hd. rewrite Hd. apply elem_of_dom_2 in Hr. set_solver. }
      by apply (inboxes_insert (ms, order)).
    + intros a Ha. simpl. by rewrite !lookup_insert_ne.
Qed.

Lemma consume_phase_ok inter st Q entries : inboxes_ok st Q → NoDup (entries.*1) →
  (∀ e, e ∈ entries → consumable inter st Q e) →
  ∃ st', fold_outcome (remove_consumed db inter) st entries = Ok st' ∧
         inboxes_ok st' (foldl (abs_consume inter) Q entries).
Proof.
  revert st Q. induction entries as [|e entries IH]; intros st Q Hok Hnd Hp; [by exists st|].
  simpl in *. apply NoDup_cons in Hnd as [Hnot Hnd].
  destruct (remove_consumed_ok inter st Q e Hok) as (st1 & -> & Hok1 & Hsame); [apply Hp; by left|]. simpl.
  apply IH; [done..|]. intros e' He'. assert (e'.1 ≠ e.1) as Hne.
  { intros E. apply Hnot. rewrite <- E. by apply list_elem_of_fmap_2. }
  destruct (Hsame _ Hne) as [Hs HQ]. unfold consumable. rewrite Hs, HQ. apply Hp. by right.
Qed.

Lemma remove_phase_ok st Q removed : inboxes_ok st Q →
  inboxes_ok (foldl remove_account st removed) (foldl (λ Q a, delete a Q) Q removed).
Proof.
  revert st Q. induction removed as [|a removed IH]; intros st Q Hok; [done|].
  simpl. apply IH. by apply inboxes_delete.
Qed.

(** A block's changes fit the queue: added accounts are new; produced messages follow what the
    storage has; and the consumed messages of an account are the first of its inbox, in number
    not past a history that the storage continues. *)
Record diff_ok q d (added : list (AccountAddress * list M)) Q : Prop := {
  diff_added : Forall2 (λ e l, e.1 = l.1 ∧ range_ok chain e.2 l.2) (added_accounts d) added;
  diff_added_nodup : NoDup ((added_accounts d).*1);
  diff_added_new a : a ∈ (added_accounts d).*1 → Q !! a = None;
  diff_produced_nodup : NoDup ((produced_messages d).*1);
  diff_producible st e :
    fold_outcome add_account (q_messages q, q_order_set q) (added_accounts d) = Ok st →
    e ∈ produced_messages d → producible (intersection_ids d) st e;
  diff_consumed_nodup : NoDup ((consumed_messages d).*1);
  diff_consumable st e :
    (fold_outcome add_account (q_messages q, q_order_set q) (added_accounts d) ≫= λ st,
     fold_outcome (add_produced db (intersection_ids d)) st (produced_messages d)) = Ok st →
    e ∈ consumed_messages d →
    consumable (intersection_ids d) st
      (foldl (abs_produce (intersection_ids d)) (foldl (λ Q e, <[e.1 := e.2]> Q) Q added)
         (produced_messages d)) e;
}.

Lemma queue_from_ok q d added Q : queue_ok q Q → diff_ok q d added Q →
  ∃ q', ThreadMessageQueueState_from db q d = Ok q' ∧ queue_ok q' (diff_spec d added Q).
Proof.
  intros [Hok _] Hd. unfold ThreadMessageQueueState_from, diff_spec.
  destruct (add_accounts_ok _ _ _ _ Hok (diff_added _ _ _ _ Hd) (diff_added_nodup _ _ _ _ Hd)
              (diff_added_new _ _ _ _ Hd)) as (st1 & Hrun1 & Hok1).
  destruct (produce_phase_ok (intersection_ids d) _ _ _ Hok1 (diff_produced_nodup _ _ _ _ Hd)) as (st2 & Hrun2 & Hok2).
  { intros e He. by apply (diff_producible _ _ _ _ Hd). }
  destruct (consume_phase_ok (intersection_ids d) _ _ _ Hok2 (diff_consumed_nodup _ _ _ _ Hd)) as (st3 & Hrun3 & Hok3).
  { intros e He. apply (diff_consumable _ _ _ _ Hd); [|done]. rewrite Hrun1. exact Hrun2. }
  rewrite Hrun1. cbn [mbind outcome_bind]. rewrite Hrun2. cbn [mbind outcome_bind]. rewrite Hrun3.
  cbn [mbind outcome_bind].
  pose proof (remove_phase_ok _ _ (removed_accounts d) Hok3) as Hok4.
  destruct (foldl remove_account st3 (removed_accounts d)) as [ms order]. eexists. split; [done|].
  split; [done|]. simpl. case_bool_decide; [by left|right]. apply Nat.mod_upper_bound. done.
Qed.
End refinement.

Section queue_theorems.
Context {S K M : Type} `{DurableStorageRead S K M} `{KeyFrom K M} `{Countable K} `{EqDecision M}.
Implicit Types (q : ThreadMessageQueueState K M) (d : QueueDiff K M) (Q : gmap AccountAddress (list M)).

(** C23 (ThreadMessageQueueStateDiff): the update of the queue by a block refines the update of a
    map from accounts to lists of messages, for the updates in which no account is listed
    twice, added accounts are new, the produced messages continue what the storage holds, and the
    consumed messages are the first of their list and do not run past a history that the storage
    continues (there the code leaves a broken range).  The inboxes of new accounts are added; the
    produced messages of an account are appended to its list and the consumed ones removed from
    its front, where messages that are produced and consumed by the same block are left out on
    both sides; an inbox that becomes empty is dropped, and the inboxes of removed accounts too.  Moving the stored front of a tail into the compacted
    history changes no list.  The ordered set stays the set of accounts with an inbox, and the
    cursor stays inside it. *)
Theorem queue_update_refines (db : S) chain q d added Q :
  StorageOk db chain → queue_ok chain q Q → diff_ok db chain q d added Q →
  ∃ q', ThreadMessageQueueState_from db q d = Ok q' ∧ queue_ok chain q' (diff_spec d added Q).
Proof. intros Hdb. by apply queue_from_ok. Qed.

(** *** The iterator *)
Fixpoint queue_collect (fuel : nat) q (offset : nat) : list (MessagesRange K M) :=
  match fuel with
  | 0 => []
  | Datatypes.S fuel =>
      match queue_next q offset with
      | None => []
      | Some (r, offset) => r :: queue_collect fuel q offset
      end
  end.

Lemma order_list_perm (s : OrderSet) : order_list s ≡ₚ elements s.
Proof. apply merge_sort_Permutation. Qed.

Lemma order_list_length (s : OrderSet) : length (order_list s) = size s.
Proof. by rewrite order_list_perm. Qed.

Lemma rotate_perm {A} n (l : list A) : rotate n l ≡ₚ l.
Proof. unfold rotate. by rewrite Permutation_app_comm, take_drop. Qed.

(** ThreadMessageQueueIterator: the iterator visits every inbox of the queue exactly once,
    in the order of the addresses rotated to start at the cursor, and then ends. *)
Theorem queue_iterator_visits_all chain q Q : queue_ok chain q Q →
  let accounts := rotate (q_cursor q) (order_list (q_order_set q)) in
  accounts ≡ₚ elements (dom (q_messages q)) ∧
  Forall2 (λ a r, q_messages q !! a = Some r) accounts
    (queue_collect (Datatypes.S (size (q_order_set q))) q 0).
Proof.
  intros [[_ Hdom] _] accounts. simpl in Hdom.
  assert (accounts ≡ₚ elements (dom (q_messages q))) as Hperm
    by (unfold accounts; by rewrite rotate_perm, order_list_perm, Hdom).
  split; [done|].
  assert (length accounts = size (q_order_set q)) as Hlen
    by (unfold accounts; by rewrite length_rotate, order_list_length).
  assert (∀ i, i < length accounts → ∃ a r, accounts !! i = Some a ∧ q_messages q !! a = Some r ∧
            queue_next q i = Some (r, i + 1)) as Hnext.
  { intros i Hi. destruct (lookup_lt_is_Some_2 accounts i Hi) as [a Ha].
    assert (a ∈ dom (q_messages q)) as [r Hr]%elem_of_dom.
    { rewrite <- elem_of_elements, <- Hperm. by eapply list_elem_of_lookup_2. }
    exists a, r. split; [done|]. split; [done|]. unfold queue_next, OrderSet_len.
    rewrite bool_decide_eq_false_2 by lia. unfold accounts in Ha. unfold OrderSet_get_index.
    rewrite lookup_rotate_r in Ha by (rewrite order_list_length; lia).
    rewrite order_list_length in Ha. unfold rotate_nat_add in Ha.
    assert (Z.to_nat ((Z.of_nat (q_cursor q) + Z.of_nat i) `mod` Z.of_nat (size (q_order_set q))) =
            (q_cursor q + i) `mod` size (q_order_set q)) as Hmod
      by (rewrite <- Nat2Z.inj_add, <- Nat2Z.inj_mod, Nat2Z.id; done).
    rewrite Hmod in Ha. rewrite Ha. simpl. by rewrite Hr. }
  assert (∀ n i, i + n = length accounts →
            Forall2 (λ a r, q_messages q !! a = Some r) (drop i accounts) (queue_collect (Datatypes.S n) q i)) as Hall.
  { induction n as [|n IH]; intros i Hi.
    - rewrite drop_ge by lia. simpl. unfold queue_next, OrderSet_len.
      rewrite bool_decide_eq_true_2 by lia. constructor.
    - destruct (Hnext i ltac:(lia)) as (a & r & Ha & Hr & Hn).
      rewrite (drop_cons _ _ _ Ha). specialize (IH (i + 1) ltac:(lia)).
      generalize dependent (Datatypes.S n). intros fuel IH. simpl. rewrite Hn.
      constructor; [done|]. by rewrite Nat.add_1_r in IH |- *. }
  rewrite <- Hlen. apply (Hall (length accounts) 0). lia.
Qed.
End queue_theorems.

(** ** A queue of two accounts *)
#[local] Existing Instance text_message.
#[local] Existing Instance text_bincode.
#[local] Existing Instance text_laws.
#[local] Existing Instance text_read.

Definition sample_queue : ThreadMessageQueueState MessageIdentifier string :=
  mkQueue {[ alice := sample_range; bob := mkRange None [text_entry (text "b" "1")] ]} {[ alice; bob ]} 1.
Definition sample_lists : gmap AccountAddress (list string) :=
  {[ alice := [text "a" "1"; text "a" "2"]; bob := [text "b" "1"] ]}.
Definition sample_diff : QueueDiff MessageIdentifier string :=
  mkDiff [(alice, {[ key_of_text (text "a" "1") ]})] [] [] [(bob, [text_entry (text "b" "2")])].

Lemma sample_queue_ok : queue_ok first_chain sample_queue sample_lists.
Proof.
  split; [split|]; simpl.
  - intros a. destruct (decide (a = alice)) as [->|Ha].
    { rewrite !lookup_insert_eq. constructor. apply sample_range_ok. }
    unfold sample_lists. rewrite !lookup_insert_ne by done. destruct (decide (a = bob)) as [->|Hb].
    { rewrite !lookup_singleton_eq. constructor. split; [by repeat constructor|]. by exists []. }
    rewrite !lookup_singleton_ne by done. constructor.
  - vm_compute. reflexivity.
  - right. vm_compute. lia.
Qed.

Lemma sample_alice :
  match (fold_outcome add_account (q_messages sample_queue, q_order_set sample_queue) (added_accounts sample_diff)
         ≫= λ st, fold_outcome (add_produced first_storage (intersection_ids sample_diff)) st
                    (produced_messages sample_diff)) with
  | Ok st => bool_decide (st.1 !! alice = Some sample_range) = true
  | _ => False
  end.
Proof. vm_compute. reflexivity. Qed.

Lemma sample_alice_list :
  foldl (abs_produce (intersection_ids sample_diff)) sample_lists (produced_messages sample_diff) !! alice =
  Some [text "a" "1"; text "a" "2"].
Proof. vm_compute. reflexivity. Qed.

Lemma sample_ids :
  filter (λ id, id ∉ intersection_ids sample_diff) ({[ key_of_text (text "a" "1") ]} : gset MessageIdentifier) =
  {[ key_of_text (text "a" "1") ]}.
Proof. apply (bool_decide_eq_true_1 _). vm_compute. reflexivity. Qed.

Lemma sample_diff_ok : diff_ok first_storage first_chain sample_queue sample_diff [] sample_lists.
Proof.
  split.
  - constructor.
  - constructor.
  - intros a Ha. by apply elem_of_nil in Ha.
  - apply NoDup_singleton.
  - intros st e Hrun ->%list_elem_of_singleton. 
    assert (st.1 !! bob = Some (mkRange None [text_entry (text "b" "1")])) as Hbob
      by (injection Hrun as <-; vm_compute; reflexivity).
    unfold producible. cbn [fst snd]. split; [apply Forall_singleton; vm_compute; reflexivity|].
    assert (fresh_messages (intersection_ids sample_diff) [text_entry (text "b" "2")] =
            [text_entry (text "b" "2")]) as Hfresh by (vm_compute; reflexivity).
    rewrite Hfresh.
    rewrite Hbob.
    intros k0 m0 t' Heq. injection Heq as <- <- <-.
    split; [|intros k e h E; simpl in E; discriminate E].
    left. exists [text "b" "2"]. vm_compute. reflexivity.
  - apply NoDup_singleton.
  - intros st e Hrun ->%list_elem_of_singleton. unfold consumable. cbn [fst snd]. right.
    pose proof sample_alice as Halice. rewrite Hrun in Halice.
    exists sample_range, [text "a" "1"; text "a" "2"], [key_of_text (text "a" "1")].
    rewrite sample_ids. split; [exact (bool_decide_eq_true_1 _ Halice)|].
    split; [exact sample_alice_list|].
    split; [|split; reflexivity].
    intros (h & m & rest & Hh & _ & Hlt). vm_compute in Hh. injection Hh as <-.
    rewrite size_singleton in Hlt. simpl in Hlt. lia.
Qed.

Lemma queue_update_refines_witness :
  ∃ q', ThreadMessageQueueState_from first_storage sample_queue sample_diff = Ok q' ∧
        queue_ok first_chain q' {[ alice := [text "a" "2"]; bob := [text "b" "1"; text "b" "2"] ]}.
Proof.
  destruct (queue_update_refines first_storage first_chain sample_queue sample_diff [] sample_lists
              first_storage_ok sample_queue_ok sample_diff_ok) as (q' & Hrun & Hok).
  exists q'. split; [exact Hrun|].
  replace {[alice := [text "a" "2"]; bob := [text "b" "1"; text "b" "2"]]}
    with (diff_spec sample_diff [] sample_lists); [exact Hok|]. vm_compute. reflexivity.
Defined.

Lemma queue_iterator_visits_all_witness :
  Forall2 (λ a r, q_messages sample_queue !! a = Some r) [bob; alice] (queue_collect 3 sample_queue 0).
Proof.
  destruct (queue_iterator_visits_all first_chain sample_queue sample_lists sample_queue_ok) as [_ Hall].
  exact Hall.
Defined.

(** When a block consumes both messages of the account, whose history ends before the second
    one, the account keeps an inbox with a broken range. *)
Lemma consumed_account_stays :
  match ThreadMessageQueueState_from first_storage sample_queue
          (mkDiff [(alice, {[ key_of_text (text "a" "1"); key_of_text (text "a" "2") ]})] [] [] []) with
  | Ok q' => q_messages q' !! alice =
               Some (mkRange (Some (key_of_text (text "a" "2"), key_of_text (text "a" "1"))) [])
  | _ => False
  end.
Proof. vm_compute. reflexivity. Qed.
