(* ===== verification/CrossThread.v ===== *)
(** * Messages and accounts between threads

    Models [block/preprocessing.rs] and [block/postprocessing.rs], the routing, cropping and
    merging operations of [repository/optimistic_state.rs], [repository/dapp_id_table.rs] and
    [multithreading/shard_state_operations.rs].

    A thread keeps the accounts whose routing its threads table sends to it.  After a block,
    [postprocess] takes the messages for other threads and the accounts that have changed
    their routing out of the thread and puts them into the data that other threads reference;
    before a block, [preprocess] reads that data from the referenced blocks: it brings the
    accounts with their inboxes into the queue and appends the messages.

    The shard state of the block library is a pair of dictionaries; the account format is a
    parameter. *)
From Stdlib Require Import Ascii.
From stdpp Require Import base numbers gmap strings fin_maps sorting list lexico.
From S2P Require Import Prelude Identifiers Bitmask ThreadRefs MessageStore MessageRange MessageQueue.

#[global] Instance AccountRouting_countable : Countable AccountRouting.
Proof.
  refine (inj_countable' (λ r, (dapp_address (routing_dapp r), routing_account r))
            (λ '(d, a), Routing (DAppId d) a) _). by intros [[] ?].
Defined.

(** ** The table of dapp identifiers: newest entry per account *)
Abbreviation DAppEntry := (option DAppIdentifier * Z)%type.
Abbreviation DAppIdTable := (gmap AccountAddress DAppEntry).
Abbreviation DAppIdTableChangeSet := (gmap AccountAddress DAppEntry).

Definition ChangeSet_insert (c : DAppIdTableChangeSet) (a : AccountAddress)
    (dapp_id : option DAppIdentifier) (block_lt : Z) : DAppIdTableChangeSet :=
  match c !! a with
  | Some cur => if bool_decide (cur.2 < block_lt)%Z then <[a := (dapp_id, block_lt)]> c else c
  | None => <[a := (dapp_id, block_lt)]> c
  end.

Definition apply_change (t : DAppIdTable) (e : AccountAddress * DAppEntry) : DAppIdTable :=
  match t !! e.1 with
  | Some data => if bool_decide (data.2 < e.2.2)%Z then <[e.1 := e.2]> t else t
  | None => <[e.1 := e.2]> t
  end.
Definition apply_change_set (t : DAppIdTable) (c : DAppIdTableChangeSet) : DAppIdTable :=
  if bool_decide (c = ∅) then t else foldl apply_change t (map_to_list c).

(** ** Shard states *)
Class ShardAccount (Acc Cell : Type) := {
  get_dapp_id : Acc → option DAppIdentifier;
  replace_with_external : Acc → option (Acc * Cell);
}.

Record ShardState (Acc : Type) := mkShard {
  shard_accounts : gmap AccountAddress Acc;
  shard_out_queue : gmap MessageIdentifier (option AccountAddress);
  (** [seq_no()] *)
  shard_seq_no : Z;
}.
Arguments mkShard {Acc} _ _ _.
Arguments shard_accounts {Acc} _.
Arguments shard_out_queue {Acc} _.
Arguments shard_seq_no {Acc} _.

Definition get_account_routing_for_account (a : AccountAddress) (dapp_id : option DAppIdentifier) :
    AccountRouting := AccountRouting_from dapp_id a.

(** [get_account_routing] of a table, without a change set. *)
Definition table_routing (t : DAppIdTable) (a : AccountAddress) : AccountRouting :=
  match t !! a with
  | Some (Some dapp_id, _) => Routing dapp_id a
  | _ => Routing (DAppId a) a
  end.

Definition thread_match {E} (t : ThreadsTable) (r : AccountRouting) (id : ThreadIdentifier) : outcome E bool :=
  BitmasksTable_is_match t r id.

(** A filter whose predicate may panic. *)
Fixpoint filter_outcome {E A} (f : A → outcome E bool) (l : list A) : outcome E (list A) :=
  match l with
  | [] => Ok []
  | x :: l => f x ≫= λ keep, filter_outcome f l ≫= λ l, Ok (if keep : bool then x :: l else l)
  end.

Section operations.
Context {S K M Acc Cell Info : Type} `{DurableStorageRead S K M} `{KeyFrom K M} `{Countable K}
  `{EqDecision M} `{ShardAccount Acc Cell} `{TvmMessage M}.

(** *** crop_shard_state_based_on_threads_table

    Returns the cropped state, the removed accounts, and the accounts that were visited.
    [acc_iter] is the order in which the dictionary is walked. *)
Variable acc_iter : gmap AccountAddress Acc → list (AccountAddress * Acc).

Definition out_message_removed (t : ThreadsTable) (id : ThreadIdentifier) (dapps : DAppIdTable)
    (e : MessageIdentifier * option AccountAddress) : outcome unit bool :=
  match e.2 with
  | Some dest => thread_match t (table_routing dapps dest) id ≫= λ m, Ok (negb m)
  | None => Ok true
  end.

Definition account_removed (t : ThreadsTable) (id : ThreadIdentifier) (e : AccountAddress * Acc) :
    outcome unit bool :=
  thread_match t (get_account_routing_for_account e.1 (get_dapp_id e.2)) id ≫= λ m, Ok (negb m).

Definition crop_shard_state (s : ShardState Acc) (t : ThreadsTable) (id : ThreadIdentifier)
    (dapps : DAppIdTable) (optimization_skip_shard_accounts_crop : bool) :
    outcome unit (ShardState Acc * list AccountAddress * gset AccountAddress) :=
  filter_outcome (out_message_removed t id dapps) (map_to_list (shard_out_queue s)) ≫= λ keys,
  let out_queue := foldl (λ q k, delete k q) (shard_out_queue s) (fst <$> keys) in
  if optimization_skip_shard_accounts_crop
  then Ok (mkShard (shard_accounts s) out_queue (shard_seq_no s), [], ∅)
  else
    filter_outcome (account_removed t id) (acc_iter (shard_accounts s)) ≫= λ removed,
    Ok (mkShard (foldl (λ m a, delete a m) (shard_accounts s) (fst <$> removed)) out_queue (shard_seq_no s),
        fst <$> removed, dom (shard_accounts s)).

(** *** OptimisticStateImpl *)
Record OptimisticState := mkOptimistic {
  os_block_seq_no : Z;
  os_block_id : BlockIdentifier;
  os_shard_state : ShardState Acc;
  os_messages : ThreadMessageQueueState K M;
  os_high_priority_messages : ThreadMessageQueueState K M;
  os_block_info : Info;
  os_threads_table : ThreadsTable;
  os_thread_id : ThreadIdentifier;
  os_dapp_id_table : DAppIdTable;
  os_thread_refs : ThreadReferencesState;
  os_cropped : option (ThreadIdentifier * ThreadsTable);
  os_changed_accounts : gmap AccountAddress Z;
  os_cached_accounts : gmap AccountAddress (Z * Cell);
  os_accounts_number : Z;
}.
Implicit Types (o : OptimisticState) (db : S).

Definition with_messages o (q : ThreadMessageQueueState K M) : OptimisticState :=
  mkOptimistic (os_block_seq_no o) (os_block_id o) (os_shard_state o) q (os_high_priority_messages o)
    (os_block_info o) (os_threads_table o) (os_thread_id o) (os_dapp_id_table o) (os_thread_refs o)
    (os_cropped o) (os_changed_accounts o) (os_cached_accounts o) (os_accounts_number o).
Definition with_high_priority o (q : ThreadMessageQueueState K M) : OptimisticState :=
  mkOptimistic (os_block_seq_no o) (os_block_id o) (os_shard_state o) (os_messages o) q
    (os_block_info o) (os_threads_table o) (os_thread_id o) (os_dapp_id_table o) (os_thread_refs o)
    (os_cropped o) (os_changed_accounts o) (os_cached_accounts o) (os_accounts_number o).
Definition with_shard o (s : ShardState Acc) : OptimisticState :=
  mkOptimistic (os_block_seq_no o) (os_block_id o) s (os_messages o) (os_high_priority_messages o)
    (os_block_info o) (os_threads_table o) (os_thread_id o) (os_dapp_id_table o) (os_thread_refs o)
    (os_cropped o) (os_changed_accounts o) (os_cached_accounts o) (os_accounts_number o).
Definition with_refs o (r : ThreadReferencesState) : OptimisticState :=
  mkOptimistic (os_block_seq_no o) (os_block_id o) (os_shard_state o) (os_messages o)
    (os_high_priority_messages o) (os_block_info o) (os_threads_table o) (os_thread_id o)
    (os_dapp_id_table o) r (os_cropped o) (os_changed_accounts o) (os_cached_accounts o)
    (os_accounts_number o).
Definition with_tables o (dapps : DAppIdTable) (t : ThreadsTable) : OptimisticState :=
  mkOptimistic (os_block_seq_no o) (os_block_id o) (os_shard_state o) (os_messages o)
    (os_high_priority_messages o) (os_block_info o) t (os_thread_id o) dapps (os_thread_refs o)
    (os_cropped o) (os_changed_accounts o) (os_cached_accounts o) (os_accounts_number o).

Definition update_dapp_id_table o (c : DAppIdTableChangeSet) : OptimisticState :=
  with_tables o (apply_change_set (os_dapp_id_table o) c) (os_threads_table o).

Definition get_account_routing o (a : AccountAddress) (change_set : option DAppIdTableChangeSet) :
    AccountRouting :=
  match change_set ≫= (λ c, c !! a) with
  | Some (Some dapp, _) => Routing dapp a
  | Some (None, _) => Routing (DAppId a) a
  | None => table_routing (os_dapp_id_table o) a
  end.

Definition get_thread_for_account o (a : AccountAddress) : outcome unit ThreadIdentifier :=
  BitmasksTable_find_match (os_threads_table o) (get_account_routing o a None).
Definition does_routing_belong_to_the_state o (r : AccountRouting) : outcome unit bool :=
  thread_match (os_threads_table o) r (os_thread_id o).
Definition does_account_belong_to_the_state o (a : AccountAddress)
    (change_set : option DAppIdTableChangeSet) : outcome unit bool :=
  thread_match (os_threads_table o) (get_account_routing o a change_set) (os_thread_id o).

Definition set_produced_threads_table o (t : ThreadsTable) : OptimisticState :=
  mkOptimistic (os_block_seq_no o) (os_block_id o) (os_shard_state o) (os_messages o)
    (os_high_priority_messages o) (os_block_info o) t (os_thread_id o) (os_dapp_id_table o)
    (os_thread_refs o)
    (match os_cropped o with
     | Some (_, t') => if bool_decide (t' = t) then os_cropped o else None
     | None => None
     end) (os_changed_accounts o) (os_cached_accounts o) (os_accounts_number o).

(** Accounts with an inbox that do not exist in the shard state. *)
Definition missing_removed (t : ThreadsTable) (id : ThreadIdentifier) (a : AccountAddress) : outcome unit bool :=
  thread_match t (Routing (DAppId a) a) id ≫= λ m, Ok (negb m).

Definition remove_inboxes db (q : ThreadMessageQueueState K M) (accounts : list AccountAddress) :
    outcome unit (ThreadMessageQueueState K M) :=
  ThreadMessageQueueState_from db q (mkDiff [] accounts [] []).

Definition crop db o (id : ThreadIdentifier) (t : ThreadsTable) : outcome unit OptimisticState :=
  if bool_decide (Some (id, t) = os_cropped o) then Ok o else
  crop_shard_state (os_shard_state o) t id (os_dapp_id_table o) false ≫= λ '(filtered, removed, existing),
  filter_outcome (missing_removed t id) (order_list (destinations (os_messages o) ∖ existing))
    ≫= λ missing,
  remove_inboxes db (os_messages o) (removed ++ missing) ≫= λ q,
  Ok (mkOptimistic (os_block_seq_no o) (os_block_id o) filtered q (os_high_priority_messages o)
        (os_block_info o) t id (os_dapp_id_table o) (os_thread_refs o) (Some (id, t))
        (os_changed_accounts o) (os_cached_accounts o) (os_accounts_number o)).
End operations.
Arguments OptimisticState : clear implicits.

(** ** Preprocessing *)
Section preprocess.
Context {S K M Acc Cell Info BlockKeeperData : Type} `{DurableStorageRead S K M} `{KeyFrom K M}
  `{Countable K} `{EqDecision M} `{ShardAccount Acc Cell} `{TvmMessage M}.
Variable acc_iter : gmap AccountAddress Acc → list (AccountAddress * Acc).
(** The order in which the map of settled messages is visited. *)
Variable messages_iter : gmap AccountAddress (list (K * M)) → list (AccountAddress * list (K * M)).
(** The orders in which [move_refs] visits its sets and maps. *)
Variable block_iter : gset BlockIdentifier → list BlockIdentifier.
Variable tails_iter : ThreadReferencesState → list ReferencedBlock.
Variable create_epoch_touch_message : BlockKeeperData → outcome unit M.
Implicit Types (o : OptimisticState K M Acc Cell Info) (db : S).

(** What a block gives to other threads; the maps in the order in which they are visited. *)
Record Outbound := mkOutbound {
  dapp_id_table_diff : DAppIdTableChangeSet;
  outbound_messages : list (AccountRouting * list (K * M));
  outbound_accounts : list (AccountRouting * (option (AccountAddress * Acc) * option (MessagesRange K M)));
}.
Abbreviation RefData := (CrossThreadRefData Outbound).

(** [sort_by] sequence number and identifier; equal elements panic when they are compared. *)
Definition ref_le (a b : RefData) : Prop :=
  (data_seq_no a < data_seq_no b)%Z ∨
  (data_seq_no a = data_seq_no b ∧
   BlockIdentifier_compare (data_block_identifier a) (data_block_identifier b) ≠ Gt).
#[global] Instance ref_le_dec : RelDecision ref_le.
Proof. intros a b. unfold ref_le. apply _. Defined.
Definition sort_refs (l : list RefData) : outcome unit (list RefData) :=
  if bool_decide (NoDup ((λ d, (data_seq_no d, data_block_identifier d)) <$> l))
  then Ok (merge_sort ref_le l) else Panic.

Definition merge_tables o (d : RefData) : outcome unit (OptimisticState K M Acc Cell Info) :=
  let o := update_dapp_id_table o (dapp_id_table_diff (data_payload d)) in
  match ThreadsTable_merge (os_threads_table o) (threads_table d) with
  | Ok t => Ok (with_tables o (os_dapp_id_table o) t)
  | Err _ => Err tt
  | Panic => Panic
  end.

(** *** Accounts that come from other threads *)
Abbreviation Migrated := (list (AccountAddress * Acc) * gmap AccountAddress (MessagesRange K M))%type.

Definition import_account (in_table : ThreadsTable) (id : ThreadIdentifier) o (acc : Migrated)
    (e : AccountRouting * (option (AccountAddress * Acc) * option (MessagesRange K M))) :
    outcome unit Migrated :=
  let '(route, (account_state, inbox)) := e in
  thread_match in_table route id ≫= λ matches : bool,
  if negb matches then Ok acc else
  assert_that (bool_decide (get_account_routing o (routing_account route) None = route)) ≫= λ _,
  Ok (acc.1 ++ match account_state with Some a => [a] | None => [] end,
      match inbox with Some r => <[routing_account route := r]> acc.2 | None => acc.2 end).

Definition settle_accounts (s : ShardState Acc) (accounts : list (AccountAddress * Acc)) : ShardState Acc :=
  mkShard (foldl (λ m e, <[e.1 := e.2]> m) (shard_accounts s) accounts) (shard_out_queue s) (shard_seq_no s).

(** A [BTreeMap] in the order of its keys. *)
Definition inbox_list (m : gmap AccountAddress (MessagesRange K M)) :
    list (AccountAddress * MessagesRange K M) :=
  omap (λ a, pair a <$> m !! a) (order_list (dom m)).

Definition import_migrating_accounts_with_their_inboxes db (blocks : list RefData)
    (in_table : ThreadsTable) (id : ThreadIdentifier) o :
    outcome unit (OptimisticState K M Acc Cell Info) :=
  fold_outcome (λ acc d, fold_outcome (import_account in_table id o) acc (outbound_accounts (data_payload d)))
    ([], ∅) blocks ≫= λ '(accounts, inboxes),
  let o := with_shard o (settle_accounts (os_shard_state o) accounts) in
  ThreadMessageQueueState_from db (os_messages o) (mkDiff [] [] (inbox_list inboxes) []) ≫= λ q,
  Ok (with_messages o q).

(** *** Messages that come from other threads *)
Definition append_entry {R} `{Countable R} (m : gmap R (list (K * M))) (k : R) (l : list (K * M)) :
    gmap R (list (K * M)) := <[k := default [] (m !! k) ++ l]> m.

Abbreviation Delivered :=
  (gmap AccountAddress (list (K * M)) * gmap AccountRouting (list (K * M)))%type.

(** Settled messages first, redirected ones second. *)
Definition deliver (in_table : ThreadsTable) (id : ThreadIdentifier) o (acc : Delivered)
    (e : AccountRouting * list (K * M)) : outcome unit Delivered :=
  let '(route, messages) := e in
  thread_match in_table route id ≫= λ matches : bool,
  if negb matches then Ok acc else
  let actual_route := get_account_routing o (routing_account route) None in
  if bool_decide (actual_route = route)
  then Ok (append_entry acc.1 (routing_account route) messages, acc.2)
  else Ok (acc.1, append_entry acc.2 actual_route messages).

Definition deliver_all (in_table : ThreadsTable) (id : ThreadIdentifier) o (blocks : list RefData) :
    outcome unit Delivered :=
  fold_outcome (λ acc d, fold_outcome (deliver in_table id o) acc (outbound_messages (data_payload d)))
    (∅, ∅) blocks.

(** *** High-priority messages *)
Definition convert_slashing_messages (messages : list M) : outcome unit (gmap AccountAddress (list (K * M))) :=
  fold_outcome (λ m message,
    unwrap (int_dst_account_id message) ≫= λ dst,
    unwrap (key_from message) ≫= λ key, Ok (append_entry m dst [(key, message)])) ∅ messages.

Definition convert_epoch_messages (m : gmap AccountAddress (list (K * M))) (data : list BlockKeeperData) :
    outcome unit (gmap AccountAddress (list (K * M))) :=
  fold_outcome (λ m d,
    create_epoch_touch_message d ≫= λ message,
    ok_or (int_dst_account_id message) tt ≫= λ dst,
    unwrap (key_from message) ≫= λ key, Ok (append_entry m dst [(key, message)])) m data.

Record PreprocessingResult := mkPreprocessed {
  pre_state : OptimisticState K M Acc Cell Info;
  pre_threads_table : ThreadsTable;
  redirected_messages : gmap AccountRouting (list (K * M));
  settled_messages : gmap AccountAddress (list (K * M));
}.

(** [preprocess] after [move_refs]: [blocks] are the blocks the references cover, and [refs]
    the references as moved. *)
Definition preprocess_referenced db o (id : ThreadIdentifier) (blocks : list RefData)
    (refs : ThreadReferencesState) (slashing_messages : list M) (epoch : list BlockKeeperData) :
    outcome unit PreprocessingResult :=
  let in_table := os_threads_table o in
  let o := with_refs o refs in
  sort_refs blocks ≫= λ blocks,
  fold_outcome merge_tables o blocks ≫= λ o,
  crop acc_iter db o id in_table ≫= λ o,
  import_migrating_accounts_with_their_inboxes db blocks in_table id o ≫= λ o,
  deliver_all in_table id o blocks ≫= λ '(settled, redirected),
  ThreadMessageQueueState_from db (os_messages o) (mkDiff [] [] [] (messages_iter settled)) ≫= λ q,
  let o := with_messages o q in
  convert_slashing_messages slashing_messages ≫= λ high,
  convert_epoch_messages high epoch ≫= λ high,
  ThreadMessageQueueState_from db (os_high_priority_messages o) (mkDiff [] [] [] (messages_iter high)) ≫= λ q,
  Ok (mkPreprocessed (with_high_priority o q) in_table redirected settled).

(** [preprocess]; [None] when the fuel of [move_refs] runs out. *)
Definition preprocess (fuel wfuel : nat) (get_ref_data : BlockIdentifier → option RefData) db o
    (refs : list RefData) (id : ThreadIdentifier) (slashing_messages : list M)
    (epoch : list BlockKeeperData) : option (outcome unit PreprocessingResult) :=
  let thread_refs :=
    ThreadReferencesState_update (os_thread_refs o) id
      (mkReferencedBlock id (os_block_id o) (os_block_seq_no o)) in
  match move_refs get_ref_data block_iter tails_iter fuel wfuel thread_refs (data_block_identifier <$> refs) with
  | None => None
  | Some (Ok (blocks, moved)) =>
      Some (preprocess_referenced db o id blocks moved slashing_messages epoch)
  | Some (Err _) => Some (Err tt)
  | Some Panic => Some Panic
  end.
End preprocess.
Arguments mkOutbound {K M Acc} _ _ _.
Arguments Outbound : clear implicits.

(** ** Postprocessing *)
Section postprocess.
Context {S K M Acc Cell Info : Type} `{DurableStorageRead S K M} `{KeyFrom K M}
  `{Countable K} `{EqDecision M} `{ShardAccount Acc Cell}.
(** The order of messages ([Ord for WrappedMessage]). *)
Variable message_le : relation M.
Context `{!RelDecision message_le}.
(** The order in which the changed accounts are visited. *)
Variable changed_iter : gmap AccountAddress Z → list (AccountAddress * Z).
(** [block_info.prev1().end_lt]; [None] when the first conversion fails. *)
Variable prev1_end_lt : Info → option Z.
Implicit Types (o : OptimisticState K M Acc Cell Info) (db : S).
Abbreviation MessageMap := (list (AccountAddress * list (K * M))).

Definition entry_le (a b : K * M) : Prop := message_le a.2 b.2.
#[global] Instance entry_le_dec : RelDecision entry_le.
Proof. intros a b. unfold entry_le. apply _. Defined.

(** The messages of an account that the block also consumed keep their order and come first;
    the others are sorted. *)
Definition order_produced (consumed : gmap AccountAddress (gset K))
    (e : AccountAddress * list (K * M)) : AccountAddress * list (K * M) :=
  match consumed !! e.1 with
  | Some ids =>
      (e.1, filter (λ m, m.1 ∈ ids) e.2 ++ merge_sort entry_le (filter (λ m, m.1 ∉ ids) e.2))
  | None => (e.1, merge_sort entry_le e.2)
  end.
Definition order_outbound (e : AccountRouting * list (K * M)) : AccountRouting * list (K * M) :=
  (e.1, merge_sort entry_le e.2).

(** *** Accounts that leave the thread *)
Abbreviation Leaving :=
  (list AccountAddress * gmap AccountRouting (option (AccountAddress * Acc) * option (MessagesRange K M)))%type.

Definition account_leaves o (acc : Leaving) (e : AccountRouting * option (AccountAddress * Acc)) :
    outcome unit Leaving :=
  does_routing_belong_to_the_state o e.1 ≫= λ stays : bool,
  if stays then Ok acc
  else Ok (acc.1 ++ [routing_account e.1],
           <[e.1 := (e.2, account_inbox (os_messages o) (routing_account e.1))]> acc.2).

(** *** Accounts that are unloaded from the shard state *)
Record Unloading := mkUnloading {
  ul_shard : ShardState Acc;
  ul_changed : gmap AccountAddress Z;
  ul_cached : gmap AccountAddress (Z * Cell);
  ul_deleted : list AccountAddress;
}.

Definition unload_account (unload_after block_seq_no : Z) (u : Unloading) (e : AccountAddress * Z) :
    outcome unit Unloading :=
  BlockSeqNo_add e.2 unload_after ≫= λ due,
  if bool_decide (due ≤ block_seq_no)%Z then
    match shard_accounts (ul_shard u) !! e.1 with
    | Some account =>
        ok_or (replace_with_external account) tt ≫= λ '(account, cell),
        Ok (mkUnloading
              (mkShard (<[e.1 := account]> (shard_accounts (ul_shard u))) (shard_out_queue (ul_shard u))
                 (shard_seq_no (ul_shard u)))
              (ul_changed u) (<[e.1 := (block_seq_no, cell)]> (ul_cached u)) (ul_deleted u))
    | None => Ok (mkUnloading (ul_shard u) (ul_changed u) (ul_cached u) (ul_deleted u ++ [e.1]))
    end
  else Ok (mkUnloading (ul_shard u) (<[e.1 := e.2]> (ul_changed u)) (ul_cached u) (ul_deleted u)).

Definition cached_kept (store_after block_seq_no : Z) (changed : gmap AccountAddress Z)
    (e : AccountAddress * (Z * Cell)) : outcome unit bool :=
  BlockSeqNo_add e.2.1 store_after ≫= λ due,
  Ok (bool_decide (block_seq_no ≤ due)%Z && bool_decide (changed !! e.1 = None)).

Definition unload_accounts (unload_after : option Z) (store_after block_seq_no : Z)
    (block_accounts : gset AccountAddress) (shard : ShardState Acc) (changed : gmap AccountAddress Z)
    (cached : gmap AccountAddress (Z * Cell)) : outcome unit Unloading :=
  match unload_after with
  | None => Ok (mkUnloading shard changed cached [])
  | Some unload_after =>
      let changed := gset_to_gmap block_seq_no block_accounts ∪ changed in
      filter_outcome (cached_kept store_after block_seq_no changed) (map_to_list cached) ≫= λ cached,
      fold_outcome (unload_account unload_after block_seq_no) (mkUnloading shard ∅ (list_to_map cached) [])
        (changed_iter changed)
  end.

(** The accounts that [accounts_deleted] is told of, with the logical time. *)
Definition report_deleted (info : Info) (deleted : list AccountAddress) :
    outcome unit (option (list AccountAddress * Z)) :=
  match deleted with
  | [] => Ok None
  | _ => unwrap (prev1_end_lt info) ≫= λ end_lt, Ok (Some (deleted, end_lt))
  end.

Definition postprocess db o (consumed : list (AccountAddress * gset K))
    (produced_current : MessageMap)
    (changed_dapp : list (AccountRouting * option (AccountAddress * Acc)))
    (block_id : BlockIdentifier) (block_seq_no : Z) (new_state : ShardState Acc)
    (produced_other : list (AccountRouting * list (K * M)))
    (new_dapp_id_table : DAppIdTable) (info : Info) (id : ThreadIdentifier) (table : ThreadsTable)
    (changed_dapp_ids : DAppIdTableChangeSet) (block_accounts : gset AccountAddress)
    (unload_after : option Z) (store_after updated_accounts_number : Z) :
    outcome unit (OptimisticState K M Acc Cell Info * CrossThreadRefData (Outbound K M Acc) *
                  option (list AccountAddress * Z)) :=
  let produced_current := order_produced (list_to_map consumed) <$> produced_current in
  let produced_other := order_outbound <$> produced_other in
  let current_thread_id := os_thread_id o in
  let refs := ThreadReferencesState_update (os_thread_refs o) current_thread_id
                (mkReferencedBlock current_thread_id block_id block_seq_no) in
  ThreadMessageQueueState_from db (os_messages o) (mkDiff consumed [] [] produced_current) ≫= λ q,
  let o := with_messages o q in
  fold_outcome (account_leaves o) ([], ∅) changed_dapp ≫= λ '(removed, outbound),
  remove_inboxes db (os_messages o) removed ≫= λ q,
  unload_accounts unload_after store_after block_seq_no block_accounts new_state
    (os_changed_accounts o) (os_cached_accounts o) ≫= λ u,
  report_deleted info (ul_deleted u) ≫= λ deleted,
  let state :=
    mkOptimistic block_seq_no block_id (ul_shard u) q (os_high_priority_messages o) info table id
      new_dapp_id_table refs (os_cropped o) (ul_changed u) (ul_cached u) updated_accounts_number in
  Ok (update_dapp_id_table state changed_dapp_ids,
      mkCrossThreadRefData block_id block_seq_no id
        (mkOutbound changed_dapp_ids produced_other (map_to_list outbound)) table (os_block_id o) [],
      deleted).
End postprocess.

(** ** The newest entry of an account wins *)
Definition newest (old new : option DAppEntry) : option DAppEntry :=
  match old, new with
  | Some o, Some n => Some (if bool_decide (o.2 < n.2)%Z then n else o)
  | Some o, None => Some o
  | None, n => n
  end.

Lemma apply_change_lookup t e a :
  apply_change t e !! a = if decide (a = e.1) then newest (t !! a) (Some e.2) else t !! a.
Proof.
  unfold apply_change, newest. destruct e as [b n]; simpl. case_decide as Ha.
  - subst. destruct (t !! b) as [d|] eqn:Hb; [case_bool_decide; [by rewrite lookup_insert_eq|done]|].
    by rewrite lookup_insert_eq.
  - destruct (t !! b); [case_bool_decide; [|done]|]; by rewrite lookup_insert_ne.
Qed.

Lemma apply_changes_lookup l t a : NoDup l.*1 →
  foldl apply_change t l !! a = newest (t !! a) (list_to_map (M := DAppIdTable) l !! a).
Proof.
  revert t. induction l as [|[b n] l IH]; intros t Hnd; simpl.
  { rewrite lookup_empty. unfold newest. by destruct (t !! a). }
  apply NoDup_cons in Hnd as [Hb Hnd]. rewrite IH by done. rewrite apply_change_lookup. simpl.
  case_decide as Ha; [subst|by rewrite lookup_insert_ne].
  rewrite lookup_insert_eq, (not_elem_of_list_to_map_1 l b) by done.
  unfold newest. by destruct (t !! b).
Qed.

Lemma apply_change_set_lookup t c a : apply_change_set t c !! a = newest (t !! a) (c !! a).
Proof.
  unfold apply_change_set. case_bool_decide as Hc.
  - subst. rewrite lookup_empty. unfold newest. by destruct (t !! a).
  - rewrite apply_changes_lookup by apply NoDup_fst_map_to_list. by rewrite list_to_map_to_list.
Qed.

(** DAppIdTable::apply_change_set: the table keeps for every account the entry of the latest
    logical time.  Applying a change set twice changes nothing more, and two change sets can be
    applied in either order, as long as they do not give different entries of the same time
    to an account: threads that see the same changes agree on the routing of all accounts. *)
Theorem dapp_table_newest_wins t c1 c2 :
  (∀ a, apply_change_set t c1 !! a = newest (t !! a) (c1 !! a)) ∧
  apply_change_set (apply_change_set t c1) c1 = apply_change_set t c1 ∧
  ((∀ a e1 e2, c1 !! a = Some e1 → c2 !! a = Some e2 → e1.2 = e2.2 → e1 = e2) →
   apply_change_set (apply_change_set t c1) c2 = apply_change_set (apply_change_set t c2) c1).
Proof.
  split; [intros a; apply apply_change_set_lookup|]. split.
  - apply map_eq. intros a. rewrite !apply_change_set_lookup. unfold newest.
    destruct (t !! a), (c1 !! a); try done; repeat case_bool_decide; try done; f_equal; lia.
  - intros Hties. apply map_eq. intros a. rewrite !apply_change_set_lookup. specialize (Hties a).
    unfold newest. destruct (t !! a) as [e|], (c1 !! a) as [e1|], (c2 !! a) as [e2|]; try done;
      specialize (Hties _ _ eq_refl eq_refl);
      repeat case_bool_decide; try done; try lia; f_equal; first [apply Hties | symmetry; apply Hties]; lia.
Qed.

Lemma dapp_table_newest_wins_witness :
  let e1 := (Some (DAppId alice), 5%Z) in
  let e2 := (@None DAppIdentifier, 7%Z) in
  apply_change_set (apply_change_set ∅ {[ bob := e1 ]}) {[ bob := e2 ]} =
  apply_change_set (apply_change_set ∅ {[ bob := e2 ]}) {[ bob := e1 ]}.
Proof.
  intros e1 e2.
  destruct (dapp_table_newest_wins ∅ {[ bob := e1 ]} {[ bob := e2 ]}) as (_ & _ & Hcomm).
  apply Hcomm. intros a x1 x2 Hx1 Hx2. apply lookup_singleton_Some in Hx1 as [_ <-], Hx2 as [_ <-].
  simpl. lia.
Defined.

(** ** Delivery of messages *)
Lemma fold_outcome_total {E A B} (f : B → A → outcome E B) (g : B → A → B) l b :
  (∀ b x, x ∈ l → f b x = Ok (g b x)) → fold_outcome f b l = Ok (foldl g b l).
Proof.
  revert b. induction l as [|x l IH]; intros b Hf; simpl; [done|].
  rewrite Hf by by left. simpl. apply IH. intros b' y Hy. apply Hf. by right.
Qed.

Lemma fold_outcome_cons {E A B} (f : B → A → outcome E B) b x l :
  fold_outcome f b (x :: l) = f b x ≫= λ b, fold_outcome f b l.
Proof. done. Qed.

Lemma fold_outcome_app {E A B} (f : B → A → outcome E B) b l1 l2 :
  fold_outcome f b (l1 ++ l2) = fold_outcome f b l1 ≫= λ b, fold_outcome f b l2.
Proof.
  revert b. induction l1 as [|x l1 IH]; intros b; simpl; [done|]. destruct (f b x); simpl; [apply IH|done|done].
Qed.

Lemma fold_outcome_concat {E A B C} (f : B → C → outcome E B) (h : A → list C) l b :
  fold_outcome (λ b x, fold_outcome f b (h x)) b l = fold_outcome f b (concat (h <$> l)).
Proof.
  revert b. induction l as [|x l IH]; intros b; simpl; [done|]. rewrite fold_outcome_app.
  destruct (fold_outcome f b (h x)); simpl; [apply IH|done|done].
Qed.

(** A routing is sent to a thread by the table. *)
Definition sent_to (t : ThreadsTable) (r : AccountRouting) (id : ThreadIdentifier) : Prop :=
  BitmasksTable_find_match (E := unit) t r = Ok id.
#[global] Instance sent_to_dec t r id : Decision (sent_to t r id).
Proof. unfold sent_to. apply _. Defined.

Lemma thread_match_ok t r id : BitmasksTable_wf t → AccountRouting_wf r →
  thread_match (E := unit) t r id = Ok (bool_decide (sent_to t r id)).
Proof.
  intros Ht Hr. unfold thread_match, BitmasksTable_is_match.
  destruct (wf_find_match_Ok (E := unit) (H0 := AccountRouting_bits_laws) t r Ht Hr) as [id' Hid].
  rewrite Hid. simpl. f_equal. apply bool_decide_ext. unfold sent_to. rewrite Hid. naive_solver.
Qed.

Section delivery.
Context {S K M Acc Cell Info : Type} `{DurableStorageRead S K M} `{KeyFrom K M}
  `{Countable K} `{EqDecision M} `{ShardAccount Acc Cell}.
Implicit Types (o : OptimisticState K M Acc Cell Info) (blocks : list (CrossThreadRefData (Outbound K M Acc)))
  (e : AccountRouting * list (K * M)).

(** The outbound messages of the blocks that the table sends to the thread, in order. *)
Definition addressed (t : ThreadsTable) (id : ThreadIdentifier) blocks : list (AccountRouting * list (K * M)) :=
  filter (λ e, sent_to t e.1 id) (concat ((λ d, outbound_messages (data_payload d)) <$> blocks)).

Abbreviation Delivered :=
  (gmap AccountAddress (list (K * M)) * gmap AccountRouting (list (K * M)))%type.

Definition deliver_step o (acc : Delivered) e : Delivered :=
  let actual := get_account_routing o (routing_account e.1) None in
  if bool_decide (actual = e.1) then (append_entry acc.1 (routing_account e.1) e.2, acc.2)
  else (acc.1, append_entry acc.2 actual e.2).

Lemma deliver_filter t id o l acc : BitmasksTable_wf t → Forall (λ e, AccountRouting_wf e.1) l →
  fold_outcome (deliver t id o) acc l = Ok (foldl (deliver_step o) acc (filter (λ e, sent_to t e.1 id) l)).
Proof.
  intros Ht Hl. revert acc. induction Hl as [|[r ms] l Hr Hl IH]; intros acc; [done|].
  rewrite fold_outcome_cons.
  assert (deliver t id o acc (r, ms) =
          Ok (if bool_decide (sent_to t r id) then deliver_step o acc (r, ms) else acc)) as ->.
  { unfold deliver, deliver_step. rewrite thread_match_ok by done. simpl. by do 2 case_bool_decide. }
  cbn [mbind outcome_bind].
  rewrite filter_cons. simpl. case_bool_decide as Hs; [rewrite decide_True by done|rewrite decide_False by done];
    apply IH.
Qed.

Lemma routing_account_of o a : routing_account (get_account_routing o a None) = a.
Proof. unfold get_account_routing, table_routing. simpl. by repeat case_match. Qed.

Lemma append_entry_lookup {R} `{Countable R} (m : gmap R (list (K * M))) k l k' :
  default [] (append_entry m k l !! k') = default [] (m !! k') ++ (if decide (k' = k) then l else []).
Proof.
  unfold append_entry. case_decide as Hk; [subst; by rewrite lookup_insert_eq|].
  by rewrite lookup_insert_ne, app_nil_r.
Qed.

Lemma deliver_steps o l acc :
  (∀ a, default [] ((foldl (deliver_step o) acc l).1 !! a) =
        default [] (acc.1 !! a) ++ concat (snd <$> filter (λ e, e.1 = get_account_routing o a None) l)) ∧
  (∀ r, default [] ((foldl (deliver_step o) acc l).2 !! r) =
        default [] (acc.2 !! r) ++
        concat (snd <$> filter (λ e, e.1 ≠ r ∧ get_account_routing o (routing_account e.1) None = r) l)).
Proof.
  revert acc. induction l as [|[r0 ms] l IH]; intros acc.
  { split; intros; simpl; by rewrite app_nil_r. }
  destruct (IH (deliver_step o acc (r0, ms))) as [IH1 IH2]. clear IH. cbn [foldl].
  split; intros x; [rewrite IH1|rewrite IH2]; unfold deliver_step; cbn [fst snd]; rewrite filter_cons; cbn [fst snd].
  - case_bool_decide as Hact; cbn [fst snd].
    + rewrite append_entry_lookup. destruct (decide (x = routing_account r0)) as [->|Hx].
      * rewrite decide_True by done. cbn. by rewrite app_assoc.
      * rewrite decide_False by (intros ->; by rewrite routing_account_of in Hx). by rewrite app_nil_r.
    + rewrite decide_False; [done|]. intros ->. by rewrite routing_account_of in Hact.
  - case_bool_decide as Hact; cbn [fst snd].
    + rewrite decide_False by (intros [? ?]; congruence). done.
    + rewrite append_entry_lookup. destruct (decide (x = get_account_routing o (routing_account r0) None)) as [->|Hx].
      * rewrite decide_True by done. cbn. by rewrite app_assoc.
      * rewrite decide_False by naive_solver. by rewrite app_nil_r.
Qed.

(** Preprocess, messages of referenced blocks: of the outbound messages of the referenced
    blocks, the thread takes exactly those that its threads table sends to it.  Each of them is
    delivered once: it is settled in the inbox of its account, if its route is still the route
    of the account, and otherwise forwarded under the new route; and the messages of an account
    keep the order of the blocks, whatever the order in which the maps of a block are visited. *)
Theorem referenced_messages_delivered t id o blocks :
  BitmasksTable_wf t →
  Forall (λ d, Forall (λ e, AccountRouting_wf e.1) (outbound_messages (data_payload d))) blocks →
  ∃ settled redirected, deliver_all t id o blocks = Ok (settled, redirected) ∧
    (∀ a, default [] (settled !! a) =
          concat (snd <$> filter (λ e, e.1 = get_account_routing o a None) (addressed t id blocks))) ∧
    (∀ r, default [] (redirected !! r) =
          concat (snd <$> filter (λ e, e.1 ≠ r ∧ get_account_routing o (routing_account e.1) None = r)
                            (addressed t id blocks))).
Proof.
  intros Ht Hwf. unfold deliver_all. rewrite fold_outcome_concat.
  rewrite deliver_filter; [|done|]; last first.
  { induction Hwf; simpl; [constructor|]. by apply Forall_app. }
  fold (addressed t id blocks).
  destruct (deliver_steps o (addressed t id blocks) (∅, ∅)) as [Hs Hr].
  destruct (foldl (deliver_step o) (∅, ∅) (addressed t id blocks)) as [settled redirected].
  exists settled, redirected. split; [done|]. split; [exact Hs|exact Hr].
Qed.
End delivery.

(** ** Inboxes that are removed and added *)
Lemma filter_outcome_ok {E A} (f : A → outcome E bool) (P : A → Prop) `{!∀ x, Decision (P x)} l :
  (∀ x, x ∈ l → f x = Ok (bool_decide (P x))) → filter_outcome f l = Ok (filter P l).
Proof.
  induction l as [|x l IH]; intros Hf; simpl; [done|].
  rewrite Hf by by left. simpl. rewrite IH by (intros; apply Hf; by right). simpl.
  rewrite filter_cons. by case_bool_decide; case_decide.
Qed.

Lemma foldl_delete_lookup {A V} `{Countable A} (l : list A) (m : gmap A V) a :
  foldl (λ m a, delete a m) m l !! a = if decide (a ∈ l) then None else m !! a.
Proof.
  revert m. induction l as [|b l IH]; intros m; cbn [foldl]; [by rewrite decide_False by apply not_elem_of_nil|].
  rewrite IH. destruct (decide (a = b)) as [->|Hab].
  - rewrite lookup_delete_eq. repeat case_decide; set_solver.
  - rewrite lookup_delete_ne by done. repeat case_decide; set_solver.
Qed.

Section inboxes.
Context {S K M : Type} `{DurableStorageRead S K M} `{KeyFrom K M} `{Countable K} `{EqDecision M}.
Context (db : S) (chain : K → list M).
Hypothesis Hdb : StorageOk db chain.
Implicit Types (q : ThreadMessageQueueState K M) (Q L : gmap AccountAddress (list M))
  (I : gmap AccountAddress (MessagesRange K M)).

Lemma remove_inboxes_ok q Q accounts : queue_ok chain q Q →
  ∃ q', remove_inboxes db q accounts = Ok q' ∧ queue_ok chain q' (foldl (λ Q a, delete a Q) Q accounts).
Proof.
  intros Hq. apply (queue_from_ok db chain Hdb q (mkDiff [] accounts [] []) [] Q Hq).
  split; simpl; try constructor; intros; by match goal with H : _ ∈ [] |- _ => apply elem_of_nil in H end.
Qed.

(** The entries of a map at the given keys. *)
Definition pick {V} (m : gmap AccountAddress V) (l : list AccountAddress) : list (AccountAddress * V) :=
  omap (λ a, pair a <$> m !! a) l.

Lemma pick_fst {V} (m : gmap AccountAddress V) l : (∀ a, a ∈ l → is_Some (m !! a)) → (pick m l).*1 = l.
Proof.
  induction l as [|a l IH]; intros Hall; [done|]. unfold pick. cbn [omap list_omap].
  destruct (Hall a) as [r Hr]; [by left|]. rewrite Hr. cbn. f_equal. apply IH. intros b Hb. apply Hall. by right.
Qed.

Lemma order_list_dom {V} (m : gmap AccountAddress V) a : a ∈ order_list (dom m) ↔ is_Some (m !! a).
Proof. by rewrite order_list_perm, elem_of_elements, elem_of_dom. Qed.

Lemma inbox_list_fst I : (inbox_list I).*1 = order_list (dom I).
Proof. apply pick_fst. intros a. apply order_list_dom. Qed.

Lemma pick_ranges I L l : (∀ a, option_Forall2 (range_ok chain) (I !! a) (L !! a)) →
  Forall2 (λ e x, e.1 = x.1 ∧ range_ok chain e.2 x.2) (pick I l) (pick L l).
Proof.
  intros HIL. induction l as [|a l IH]; [constructor|]. unfold pick. cbn [omap list_omap].
  destruct (HIL a); cbn; [by constructor|done].
Qed.

Lemma pick_insert L l Q a : foldl (λ Q e, <[e.1 := e.2]> Q) Q (pick L l) !! a =
  if decide (a ∈ l) then union (L !! a) (Q !! a) else Q !! a.
Proof.
  revert Q. induction l as [|b l IH]; intros Q; [by rewrite decide_False by apply not_elem_of_nil|].
  unfold pick. cbn [omap list_omap]. fold (pick L l).
  destruct (L !! b) as [x|] eqn:Hx; cbn [fmap option_fmap option_map foldl fst snd]; rewrite IH.
  - destruct (decide (a = b)) as [->|Hab]; [rewrite lookup_insert_eq, Hx|rewrite lookup_insert_ne by done];
      repeat case_decide; try done; try (by destruct (Q !! b)); set_solver.
  - destruct (decide (a = b)) as [->|Hab]; [rewrite Hx|];
      repeat case_decide; try done; try (by destruct (Q !! b)); set_solver.
Qed.

Lemma order_list_nodup (s : OrderSet) : NoDup (order_list s).
Proof. rewrite order_list_perm. apply NoDup_elements. Qed.

(** Inboxes of accounts that have none join the queue with their messages. *)
Lemma add_inboxes_ok q Q I L : queue_ok chain q Q →
  (∀ a, option_Forall2 (range_ok chain) (I !! a) (L !! a)) → (∀ a, a ∈ dom L → Q !! a = None) →
  ∃ q', ThreadMessageQueueState_from db q (mkDiff [] [] (inbox_list I) []) = Ok q' ∧ queue_ok chain q' (L ∪ Q).
Proof.
  intros Hq HIL Hnew.
  assert (dom I = dom L) as Hdom.
  { apply set_eq. intros a. rewrite !elem_of_dom. specialize (HIL a). destruct HIL; [by split; eauto|].
    split; intros [? ?]; done. }
  assert (foldl (λ Q e, <[e.1 := e.2]> Q) Q (pick L (order_list (dom I))) = L ∪ Q) as Hfold.
  { apply map_eq. intros a. rewrite lookup_union, pick_insert. case_decide as Hin; [done|].
    rewrite Hdom, order_list_dom in Hin. apply eq_None_not_Some in Hin. rewrite Hin. by destruct (Q !! a). }
  destruct (queue_from_ok db chain Hdb q (mkDiff [] [] (inbox_list I) []) (pick L (order_list (dom I))) Q Hq)
    as (q' & Hrun & Hok).
  - split; simpl.
    + by apply pick_ranges.
    + rewrite inbox_list_fst. apply order_list_nodup.
    + intros a Ha. rewrite inbox_list_fst, Hdom, order_list_dom, <- elem_of_dom in Ha. by apply Hnew.
    + constructor.
    + intros st e _ He. by apply elem_of_nil in He.
    + constructor.
    + intros st e _ He. by apply elem_of_nil in He.
  - exists q'. split; [done|]. unfold diff_spec in Hok. simpl in Hok. by rewrite Hfold in Hok.
Qed.
End inboxes.

(** ** Cropping and migration *)
Section threads.
Context {S K M Acc Cell Info : Type} `{DurableStorageRead S K M} `{KeyFrom K M}
  `{Countable K} `{EqDecision M} `{ShardAccount Acc Cell}.
Variable acc_iter : gmap AccountAddress Acc → list (AccountAddress * Acc).
Hypothesis acc_iter_perm : ∀ m, acc_iter m ≡ₚ map_to_list m.
Context (db : S) (chain : K → list M).
Hypothesis Hdb : StorageOk db chain.
Implicit Types (o : OptimisticState K M Acc Cell Info) (Q : gmap AccountAddress (list M)) (t : ThreadsTable)
  (id : ThreadIdentifier) (a : AccountAddress) (s : ShardState Acc).

(** The routing of an account by the shard state; an account that does not exist has no dapp. *)
Definition shard_routing s a : AccountRouting :=
  get_account_routing_for_account a (shard_accounts s !! a ≫= get_dapp_id).
Definition kept s t id a : Prop := sent_to t (shard_routing s a) id.
#[global] Instance kept_dec s t id a : Decision (kept s t id a).
Proof. unfold kept. apply _. Defined.

(** All addresses of the state are addresses of 32 bytes. *)
Record state_wf o : Prop := {
  wf_accounts a : is_Some (shard_accounts (os_shard_state o) !! a) → AccountRouting_wf (shard_routing (os_shard_state o) a);
  wf_inboxes a : a ∈ q_order_set (os_messages o) → AccountAddress_wf a;
  wf_out k a : shard_out_queue (os_shard_state o) !! k = Some (Some a) →
    AccountRouting_wf (table_routing (os_dapp_id_table o) a);
}.

(** An outbound message of the queue that the crop drops. *)
Definition out_dropped o t id (e : MessageIdentifier * option AccountAddress) : Prop :=
  match e.2 with
  | Some dest => ¬ sent_to t (table_routing (os_dapp_id_table o) dest) id
  | None => True
  end.
#[global] Instance out_dropped_dec o t id e : Decision (out_dropped o t id e).
Proof. unfold out_dropped. destruct e.2; apply _. Defined.

Lemma crop_shard_ok o t id : BitmasksTable_wf t → state_wf o →
  ∃ s' removed, crop_shard_state acc_iter (os_shard_state o) t id (os_dapp_id_table o) false =
      Ok (s', removed, dom (shard_accounts (os_shard_state o))) ∧
    (∀ a, a ∈ removed ↔ is_Some (shard_accounts (os_shard_state o) !! a) ∧ ¬ kept (os_shard_state o) t id a) ∧
    (∀ a, shard_accounts s' !! a =
       if decide (kept (os_shard_state o) t id a) then shard_accounts (os_shard_state o) !! a else None).
Proof.
  intros Ht Hwf. set (s := os_shard_state o) in *. unfold crop_shard_state.
  rewrite (filter_outcome_ok _ (out_dropped o t id)).
  2:{ intros [k [dest|]] Hin; unfold out_message_removed; cbn [snd]; [|done].
      apply elem_of_map_to_list in Hin. rewrite thread_match_ok by (done || by eapply wf_out).
      cbn [mbind outcome_bind]. f_equal. rewrite <- bool_decide_not. by apply bool_decide_ext. }
  cbn [mbind outcome_bind].
  rewrite (filter_outcome_ok _ (λ e, ¬ kept s t id e.1)).
  2:{ intros [a acc] Hin. rewrite acc_iter_perm in Hin. apply elem_of_map_to_list in Hin.
      unfold account_removed. simpl.
      assert (get_account_routing_for_account a (get_dapp_id acc) = shard_routing s a) as ->
        by (unfold shard_routing; by rewrite Hin).
      rewrite thread_match_ok by (done || by apply (wf_accounts _ Hwf); eauto). simpl. f_equal.
      by rewrite <- bool_decide_not. }
  cbn [mbind outcome_bind]. eexists _, _. split; [done|].
  assert (∀ a, a ∈ (filter (λ e : AccountAddress * Acc, ¬ kept s t id e.1) (acc_iter (shard_accounts s))).*1 ↔
            is_Some (shard_accounts s !! a) ∧ ¬ kept s t id a) as Hrem.
  { intros a. rewrite list_elem_of_fmap. split.
    - intros ([b acc] & -> & [Hk Hin]%list_elem_of_filter). rewrite acc_iter_perm in Hin.
      apply elem_of_map_to_list in Hin. simpl in *. by split; [eauto|].
    - intros [[acc Hacc] Hk]. exists (a, acc). split; [done|]. apply list_elem_of_filter. split; [done|].
      rewrite acc_iter_perm. by apply elem_of_map_to_list. }
  split; [exact Hrem|]. intros a. simpl. rewrite foldl_delete_lookup. specialize (Hrem a).
  destruct (shard_accounts s !! a) as [acc|] eqn:Hacc; repeat case_decide; naive_solver.
Qed.

(** OptimisticStateImpl::crop: cropping a state to a thread keeps exactly the accounts that
    the threads table sends to the thread, and exactly their inboxes, with all messages; an
    inbox of an account that does not exist yet is judged by the address alone.  As the table
    sends every routing to one thread, a split hands every account and every message to
    exactly one of the threads. *)
Theorem crop_keeps_own_accounts o t id Q :
  BitmasksTable_wf t → state_wf o → os_cropped o ≠ Some (id, t) → queue_ok chain (os_messages o) Q →
  ∃ o' Q', crop acc_iter db o id t = Ok o' ∧ os_thread_id o' = id ∧ os_threads_table o' = t ∧
    (∀ a, shard_accounts (os_shard_state o') !! a =
       if decide (kept (os_shard_state o) t id a) then shard_accounts (os_shard_state o) !! a else None) ∧
    queue_ok chain (os_messages o') Q' ∧
    (∀ a, Q' !! a = if decide (kept (os_shard_state o) t id a) then Q !! a else None) ∧
    (∀ a, is_Some (Q !! a) → ∃ owner, ∀ id', kept (os_shard_state o) t id' a ↔ id' = owner).
Proof.
  intros Ht Hwf Hcrop Hq. unfold crop. rewrite bool_decide_eq_false_2 by congruence.
  destruct (crop_shard_ok o t id Ht Hwf) as (s' & removed & -> & Hrem & Hacc). cbn [mbind outcome_bind].
  assert (∀ a, a ∈ q_order_set (os_messages o) ↔ is_Some (Q !! a)) as Hdom.
  { intros a. destruct Hq as [[HF Hd] _]. simpl in *. rewrite Hd, elem_of_dom. destruct (HF a); split; intros [??]; eauto; done. }
  assert (∀ a, a ∈ q_order_set (os_messages o) → AccountRouting_wf (shard_routing (os_shard_state o) a)) as Hrwf.
  { intros a Ha. destruct (shard_accounts (os_shard_state o) !! a) eqn:Hs; [by apply (wf_accounts _ Hwf); eauto|].
    unfold shard_routing. rewrite Hs. simpl. pose proof (wf_inboxes _ Hwf a Ha). by split. }
  rewrite (filter_outcome_ok _ (λ a, ¬ sent_to t (Routing (DAppId a) a) id)).
  2:{ intros a Ha. rewrite order_list_perm, elem_of_elements in Ha.
      assert (AccountAddress_wf a) by (apply (wf_inboxes _ Hwf); set_solver).
      unfold missing_removed. rewrite thread_match_ok by done. simpl. f_equal. by rewrite <- bool_decide_not. }
  cbn [mbind outcome_bind].
  match goal with |- context [removed ++ ?l] => set (missing := l) end.
  destruct (remove_inboxes_ok db chain Hdb _ _ (removed ++ missing) Hq) as (q' & -> & Hq'). cbn [mbind outcome_bind].
  eexists _, _. split; [done|]. simpl. do 2 (split; [done|]). split; [exact Hacc|]. split; [exact Hq'|].
  split.
  - intros a. rewrite foldl_delete_lookup. destruct (Q !! a) as [l|] eqn:Ha; [|by repeat case_decide].
    assert (a ∈ removed ++ missing ↔ ¬ kept (os_shard_state o) t id a) as Hiff.
    { rewrite elem_of_app, Hrem. unfold missing. rewrite list_elem_of_filter, order_list_perm, elem_of_elements.
      unfold destinations. rewrite elem_of_difference, not_elem_of_dom, Hdom, Ha.
      unfold kept, shard_routing. destruct (shard_accounts (os_shard_state o) !! a) as [acc|] eqn:Hs; simpl.
      - split; [intros [[_ ?]|(_ & _ & ?)]; done|]. intros ?. left. by split; [eauto|].
      - unfold get_account_routing_for_account, AccountRouting_from. simpl.
        split; [intros [[[??] ?]|(? & _ & _)]; done|]. intros ?. right. eauto. }
    destruct (decide (a ∈ removed ++ missing)), (decide (kept (os_shard_state o) t id a)); naive_solver.
  - intros a Ha%Hdom. apply Hrwf in Ha.
    destruct (wf_find_match_Ok (E := unit) (H0 := AccountRouting_bits_laws) t _ Ht Ha) as [owner Ho].
    exists owner. intros id'. unfold kept, sent_to. rewrite Ho. naive_solver.
Qed.
End threads.

(** ** Accounts that move from one thread to another *)
Section leaving.
Context {S K M Acc Cell Info : Type} `{DurableStorageRead S K M} `{KeyFrom K M}
  `{Countable K} `{EqDecision M} `{ShardAccount Acc Cell}.
Implicit Types (o : OptimisticState K M Acc Cell Info) (r : AccountRouting)
  (e : AccountRouting * option (AccountAddress * Acc)).

(** The threads table sends the routing to another thread. *)
Definition leaves o r : Prop := ¬ sent_to (os_threads_table o) r (os_thread_id o).
#[global] Instance leaves_dec o r : Decision (leaves o r).
Proof. unfold leaves. apply _. Defined.

Definition outgoing o e := (e.2, account_inbox (os_messages o) (routing_account e.1)).

Lemma account_leaves_ok o l removed out :
  BitmasksTable_wf (os_threads_table o) → Forall (λ e, AccountRouting_wf e.1) l →
  fold_outcome (account_leaves o) (removed, out) l =
  Ok (removed ++ (routing_account <$> (filter (λ e, leaves o e.1) l).*1),
      foldl (λ m e, <[e.1 := outgoing o e]> m) out (filter (λ e, leaves o e.1) l)).
Proof.
  intros Ht Hl. revert removed out. induction Hl as [|e l He Hl IH]; intros removed out; [by rewrite app_nil_r|].
  rewrite fold_outcome_cons.
  assert (account_leaves o (removed, out) e =
          Ok (if bool_decide (sent_to (os_threads_table o) e.1 (os_thread_id o)) then (removed, out)
              else (removed ++ [routing_account e.1], <[e.1 := outgoing o e]> out))) as ->.
  { unfold account_leaves, does_routing_belong_to_the_state. rewrite thread_match_ok by done.
    cbn. by case_bool_decide. }
  cbn [mbind outcome_bind]. rewrite filter_cons. case_bool_decide as Hs.
  - rewrite decide_False by (unfold leaves; tauto). apply IH.
  - rewrite decide_True by done. cbn [fst snd]. rewrite IH. cbn. by rewrite <- app_assoc.
Qed.
End leaving.

(** Entries that are put into a map; entries of one key agree. *)
Lemma foldl_put_lookup {A X V} `{Countable A} (f : X → option (A * V)) l (m : gmap A V) a v :
  (∀ x y w w', x ∈ l → y ∈ l → f x = Some (a, w) → f y = Some (a, w') → w = w') →
  foldl (λ m x, match f x with Some p => <[p.1 := p.2]> m | None => m end) m l !! a = Some v ↔
  (∃ x, x ∈ l ∧ f x = Some (a, v)) ∨ (m !! a = Some v ∧ ∀ x w, x ∈ l → f x ≠ Some (a, w)).
Proof.
  induction l as [|x l IH] using rev_ind; intros Hag; simpl.
  { split; [right; split; [done|]; by intros ?? ?%elem_of_nil|]. by intros [(? & ?%elem_of_nil & _)|[??]]. }
  rewrite foldl_snoc. assert (x ∈ l ++ [x]) as Hx by set_solver.
  assert (∀ y, y ∈ l → y ∈ l ++ [x]) as Hl by set_solver.
  assert ((∀ w, f x ≠ Some (a, w)) →
    (∃ y, y ∈ l ∧ f y = Some (a, v)) ∨ (m !! a = Some v ∧ ∀ y w, y ∈ l → f y ≠ Some (a, w)) ↔
    (∃ y, y ∈ l ++ [x] ∧ f y = Some (a, v)) ∨ (m !! a = Some v ∧ ∀ y w, y ∈ l ++ [x] → f y ≠ Some (a, w))) as Hskip.
  { intros Hfx. split.
    - intros [(y & Hy & Hfy)|[Hm Hno]]; [left; eauto|right]. split; [done|].
      intros y w [Hy|Hy]%elem_of_app; [by apply Hno|]. apply list_elem_of_singleton in Hy as ->. apply Hfx.
    - intros [(y & [Hy|Hy]%elem_of_app & Hfy)|[Hm Hno]]; [left; eauto| |right; eauto].
      apply list_elem_of_singleton in Hy as ->. by destruct (Hfx v). }
  destruct (f x) as [[k w]|] eqn:Hfx; [destruct (decide (k = a)) as [->|Hk]|].
  - rewrite lookup_insert_eq. split; [intros [= ->]; left; eauto|].
    intros [(y & Hy & Hfy)|[_ Hno]]; [f_equal; by apply (Hag x y w v)|by destruct (Hno x w)].
  - rewrite lookup_insert_ne, IH by (done || eauto). apply Hskip. congruence.
  - rewrite IH by eauto. apply Hskip. congruence.
Qed.

Lemma foldl_omap {X Y B} (f : B → Y → B) (g : X → option Y) l b :
  foldl f b (omap g l) = foldl (λ b x, match g x with Some y => f b y | None => b end) b l.
Proof. revert b. induction l as [|x l IH]; intros b; [done|]. cbn. destruct (g x); apply IH. Qed.

Lemma omap_app {X Y} (g : X → option Y) l1 l2 : omap g (l1 ++ l2) = omap g l1 ++ omap g l2.
Proof. induction l1 as [|x l1 IH]; [done|]. cbn. destruct (g x); cbn; by rewrite IH. Qed.

Section arriving.
Context {S K M Acc Cell Info : Type} `{DurableStorageRead S K M} `{KeyFrom K M}
  `{Countable K} `{EqDecision M} `{ShardAccount Acc Cell}.
Abbreviation Entry := (AccountRouting * (option (AccountAddress * Acc) * option (MessagesRange K M)))%type.
Implicit Types (o : OptimisticState K M Acc Cell Info) (e : Entry) (t : ThreadsTable) (id : ThreadIdentifier).

Definition entry_inbox e : option (AccountAddress * MessagesRange K M) := pair (routing_account e.1) <$> e.2.2.

Lemma import_accounts_ok t id o l acc : BitmasksTable_wf t → Forall (λ e, AccountRouting_wf e.1) l →
  (∀ e, e ∈ l → sent_to t e.1 id → get_account_routing o (routing_account e.1) None = e.1) →
  fold_outcome (import_account t id o) acc l =
  Ok (acc.1 ++ omap (λ e, e.2.1) (filter (λ e, sent_to t e.1 id) l),
      foldl (λ m e, match entry_inbox e with Some p => <[p.1 := p.2]> m | None => m end) acc.2
        (filter (λ e, sent_to t e.1 id) l)).
Proof.
  intros Ht Hl. revert acc. induction Hl as [|[r [st ib]] l He Hl IH]; intros acc Hroute.
  { cbn. rewrite app_nil_r. by destruct acc. }
  rewrite fold_outcome_cons. 
  assert (import_account t id o acc (r, (st, ib)) =
          Ok (if bool_decide (sent_to t r id)
              then (acc.1 ++ match st with Some a => [a] | None => [] end,
                    match ib with Some x => <[routing_account r := x]> acc.2 | None => acc.2 end)
              else acc)) as ->.
  { unfold import_account. rewrite thread_match_ok by done. cbn. case_bool_decide as Hs; cbn; [|done].
    rewrite bool_decide_eq_true_2; [done|]. apply (Hroute (r, (st, ib))); [by left|done]. }
  cbn [mbind outcome_bind]. rewrite IH by (intros; apply Hroute; [by right|done]).
  rewrite filter_cons. cbn [fst]. case_bool_decide as Hs; [rewrite decide_True by done|by rewrite decide_False by done].
  cbn. destruct st, ib; cbn; by rewrite <- ?app_assoc.
Qed.

(** Referenced blocks that bring no account to the thread. *)
Definition bring_nothing t id (refs : list (CrossThreadRefData (Outbound K M Acc))) : Prop :=
  Forall (λ d, Forall (λ e : Entry, AccountRouting_wf e.1 ∧ ¬ sent_to t e.1 id) (outbound_accounts (data_payload d))) refs.

Lemma bring_nothing_skip t id o refs acc : BitmasksTable_wf t → bring_nothing t id refs →
  fold_outcome (λ acc d, fold_outcome (import_account t id o) acc (outbound_accounts (data_payload d))) acc refs = Ok acc.
Proof.
  intros Ht. induction 1 as [|d refs Hd _ IH]; [done|]. rewrite fold_outcome_cons.
  assert (filter (λ e : Entry, sent_to t e.1 id) (outbound_accounts (data_payload d)) = []) as Hnone.
  { induction Hd as [|e l [_ He] _ IHl]; [done|]. by rewrite filter_cons_False. }
  rewrite import_accounts_ok; [|done|eapply Forall_impl; [exact Hd|]; by intros e [? _]|].
  - rewrite Hnone. cbn. rewrite app_nil_r. by destruct acc.
  - intros e He Hs. rewrite Forall_forall in Hd. by destruct (Hd e He).
Qed.
End arriving.

Section moving.
Context {S K M Acc Cell Info : Type} `{DurableStorageRead S K M} `{KeyFrom K M}
  `{Countable K} `{EqDecision M} `{ShardAccount Acc Cell}.
Context (db : S) (chain : K → list M).
Hypothesis Hdb : StorageOk db chain.
Implicit Types (o : OptimisticState K M Acc Cell Info) (Q : gmap AccountAddress (list M))
  (t : ThreadsTable) (id : ThreadIdentifier) (changed : list (AccountRouting * option (AccountAddress * Acc))).

(** The accounts that leave the thread of [o], and those of them that the table [t] sends to the
    thread [id]. *)
Definition departed o changed : list AccountAddress :=
  routing_account <$> (filter (λ e, leaves o e.1) changed).*1.
Definition arrived o t id changed : list AccountAddress :=
  routing_account <$> (filter (λ e, leaves o e.1 ∧ sent_to t e.1 id) changed).*1.

(** The routes of the moving accounts are well formed, an account state belongs to the account
    of its route, and the receiving thread knows the new routes and has no inbox of its own
    for the accounts. *)
Record movable o t id changed (oB : OptimisticState K M Acc Cell Info) (QB : gmap AccountAddress (list M)) : Prop := {
  mv_table : BitmasksTable_wf (os_threads_table o);
  mv_table_in : BitmasksTable_wf t;
  mv_wf : Forall (λ e, AccountRouting_wf e.1) changed;
  mv_nodup : NoDup changed.*1;
  mv_states r a acc : (r, Some (a, acc)) ∈ changed → a = routing_account r;
  mv_routes r st : (r, st) ∈ changed → leaves o r → sent_to t r id →
    get_account_routing oB (routing_account r) None = r;
  mv_new a : a ∈ arrived o t id changed → QB !! a = None;
}.

Lemma arrived_spec o t id changed a : a ∈ arrived o t id changed ↔
  ∃ r st, (r, st) ∈ changed ∧ leaves o r ∧ sent_to t r id ∧ a = routing_account r.
Proof.
  unfold arrived. rewrite list_elem_of_fmap. setoid_rewrite list_elem_of_fmap.
  setoid_rewrite list_elem_of_filter. split.
  - intros (r & -> & [r' st] & -> & [??] & ?). eauto 8.
  - intros (r & st & ? & ? & ? & ->). exists r. split; [done|]. by exists (r, st).
Qed.

(** What leaves: the outbound map holds the leaving routes with the states and inboxes. *)
Lemma outbound_entries o changed e : NoDup changed.*1 →
  e ∈ map_to_list (foldl (λ m e, <[e.1 := outgoing o e]> m) ∅ (filter (λ e, leaves o e.1) changed)) ↔
  ∃ st, (e.1, st) ∈ changed ∧ leaves o e.1 ∧ e.2 = (st, account_inbox (os_messages o) (routing_account e.1)).
Proof.
  intros Hnd. destruct e as [r v]. rewrite elem_of_map_to_list.
  rewrite (foldl_put_lookup (λ e, Some (e.1, outgoing o e))).
  - setoid_rewrite list_elem_of_filter. rewrite lookup_empty. split.
    + intros [([r' st] & [Hl Hin] & Heq)|[? _]]; [|done]. simpl in *. injection Heq as -> <-. eauto.
    + intros (st & Hin & Hl & Hv). simpl in *. left. exists (r, st). subst v. done.
  - intros x y w w' [_ Hx]%list_elem_of_filter [_ Hy]%list_elem_of_filter Hfx Hfy.
    injection Hfx as Hx1 <-. injection Hfy as Hy1 <-.
    f_equal. apply list_elem_of_lookup in Hx as [i Hi], Hy as [j Hj].
    assert (i = j) as ->; [|congruence].
    eapply NoDup_lookup; [exact Hnd| |]; rewrite list_lookup_fmap; [by rewrite Hi; simpl; rewrite Hx1|].
    by rewrite Hj; simpl; rewrite Hy1.
Qed.

(** The entries that the receiving thread takes. *)
Section receive.
Context (o oB : OptimisticState K M Acc Cell Info) (t : ThreadsTable) (id : ThreadIdentifier)
  (changed : list (AccountRouting * option (AccountAddress * Acc))) (QB : gmap AccountAddress (list M))
  (l : list (AccountRouting * (option (AccountAddress * Acc) * option (MessagesRange K M)))).
Hypothesis Hmv : movable o t id changed oB QB.
Hypothesis Hl : ∀ e, e ∈ l ↔
  ∃ st, (e.1, st) ∈ changed ∧ leaves o e.1 ∧ e.2 = (st, account_inbox (os_messages o) (routing_account e.1)).

(** Two taken entries of one account are the same entry. *)
Lemma taken_unique e e' : e ∈ filter (λ e, sent_to t e.1 id) l → e' ∈ filter (λ e, sent_to t e.1 id) l →
  routing_account e.1 = routing_account e'.1 → e = e'.
Proof.
  intros [Hs (st & Hin & Hlv & He)%Hl]%list_elem_of_filter [Hs' (st' & Hin' & Hlv' & He')%Hl]%list_elem_of_filter Ha.
  assert (e.1 = e'.1) as Hr.
  { rewrite <- (mv_routes _ _ _ _ _ _ Hmv _ _ Hin Hlv Hs), <- (mv_routes _ _ _ _ _ _ Hmv _ _ Hin' Hlv' Hs').
    by rewrite Ha. }
  assert (st = st') as ->; [|destruct e, e'; simpl in *; congruence].
  rewrite <- Hr in Hin'. apply list_elem_of_lookup in Hin as [i Hi], Hin' as [j Hj].
  assert (i = j) as ->; [|congruence].
  eapply NoDup_lookup; [exact (mv_nodup _ _ _ _ _ _ Hmv)| |]; rewrite list_lookup_fmap; [by rewrite Hi|by rewrite Hj].
Qed.

Lemma taken_entry r st : (r, st) ∈ changed → leaves o r → sent_to t r id →
  (r, (st, account_inbox (os_messages o) (routing_account r))) ∈ filter (λ e, sent_to t e.1 id) l.
Proof. intros Hin Hlv Hs. apply list_elem_of_filter. split; [done|]. apply Hl. eauto. Qed.

Lemma taken_inboxes a :
  foldl (λ m e, match entry_inbox e with Some p => <[p.1 := p.2]> m | None => m end)
    (∅ : gmap AccountAddress (MessagesRange K M)) (filter (λ e, sent_to t e.1 id) l) !! a =
  if decide (a ∈ arrived o t id changed) then account_inbox (os_messages o) a else None.
Proof.
  apply option_eq. intros v. rewrite foldl_put_lookup.
  - rewrite lookup_empty. case_decide as Ha.
    + apply arrived_spec in Ha as (r & st & Hin & Hlv & Hs & ->). split.
      * intros [(e & He & Hie)|[? _]]; [|done]. unfold entry_inbox in Hie.
        destruct (e.2.2) as [x|] eqn:Hx; [|done]. simpl in Hie. injection Hie as Hacc ->.
        apply (taken_unique _ _ (taken_entry _ _ Hin Hlv Hs)) in He; [|by symmetry]. by subst e.
      * intros Hv. left. eexists. split; [by apply taken_entry|]. unfold entry_inbox. simpl. by rewrite Hv.
    + split; [|done]. intros [(e & [Hs (st & Hin & Hlv & He)%Hl]%list_elem_of_filter & Hie)|[? _]]; [|done].
      destruct Ha. apply arrived_spec. exists e.1, st. unfold entry_inbox in Hie.
      destruct (e.2.2); [|done]. simpl in Hie. injection Hie as <- _. done.
  - intros x y w w' Hx Hy Hfx Hfy. unfold entry_inbox in Hfx, Hfy.
    destruct (x.2.2) eqn:Ex, (y.2.2) eqn:Ey; try done. simpl in *. injection Hfx as <- ->. injection Hfy as Ha ->.
    apply (taken_unique _ _ Hx) in Hy; [|by symmetry]. subst y. congruence.
Qed.

Lemma taken_states (m : gmap AccountAddress Acc) r a acc : (r, Some (a, acc)) ∈ changed → leaves o r → sent_to t r id →
  foldl (λ m e, <[e.1 := e.2]> m) m (omap (λ e, e.2.1) (filter (λ e, sent_to t e.1 id) l)) !! a = Some acc.
Proof.
  intros Hin Hlv Hs. rewrite foldl_omap.
  apply foldl_put_lookup.
  - assert (∀ e k w, e ∈ filter (λ e, sent_to t e.1 id) l → e.2.1 = Some (k, w) → k = routing_account e.1) as Hk.
    { intros e k w [_ (st & Hc & _ & He)%Hl]%list_elem_of_filter Hst. rewrite He in Hst. simpl in Hst. subst st.
      by apply (mv_states _ _ _ _ _ _ Hmv) in Hc. }
    intros x y w w' Hx Hy Hfx Hfy.
    assert (x = y) as ->; [|congruence]. apply taken_unique; [done..|].
    rewrite <- (Hk _ _ _ Hx Hfx). by apply Hk in Hfy.
  - left. eexists. split; [by apply taken_entry|]. done.
Qed.

Lemma import_ok before (d : CrossThreadRefData (Outbound K M Acc)) after Q :
  bring_nothing t id before → bring_nothing t id after →
  outbound_accounts (data_payload d) = l →
  queue_ok chain (os_messages o) Q → queue_ok chain (os_messages oB) QB →
  ∃ oB', import_migrating_accounts_with_their_inboxes db (before ++ d :: after) t id oB = Ok oB' ∧
    queue_ok chain (os_messages oB') (filter (λ p, p.1 ∈ arrived o t id changed) Q ∪ QB) ∧
    (∀ r a acc, (r, Some (a, acc)) ∈ changed → leaves o r → sent_to t r id →
       shard_accounts (os_shard_state oB') !! a = Some acc).
Proof.
  intros Hbefore Hafter Hd Hq HqB. unfold import_migrating_accounts_with_their_inboxes.
  pose proof (mv_table_in _ _ _ _ _ _ Hmv) as Htab.
  rewrite fold_outcome_app, bring_nothing_skip by done. cbn [mbind outcome_bind].
  rewrite fold_outcome_cons, Hd, import_accounts_ok.
  - cbn [mbind outcome_bind fst snd app]. rewrite bring_nothing_skip by done. cbn [mbind outcome_bind].
    match goal with |- context [inbox_list ?I] => set (inboxes := I) end.
    destruct (add_inboxes_ok db chain Hdb (os_messages oB) QB inboxes
                (filter (λ p, p.1 ∈ arrived o t id changed) Q) HqB) as (q' & Hrun & Hok).
    + intros a. unfold inboxes. rewrite taken_inboxes. destruct Hq as [[HF _] _]. specialize (HF a). cbn [fst] in HF.
      rewrite map_lookup_filter. unfold account_inbox. case_decide as Ha.
      * destruct HF; cbn; [|constructor]. rewrite option_guard_True by done. by constructor.
      * destruct (Q !! a); cbn; [rewrite option_guard_False by done|]; constructor.
    + intros a [x Hx]%elem_of_dom. apply map_lookup_filter_Some in Hx as [_ Ha].
      by apply (mv_new _ _ _ _ _ _ Hmv).
    + cbn [with_shard os_messages]. rewrite Hrun. cbn [mbind outcome_bind]. eexists. split; [done|].
      split; [exact Hok|]. intros r a acc. apply taken_states.
  - exact (mv_table_in _ _ _ _ _ _ Hmv).
  - apply Forall_forall. intros e (st & Hin & _ & _)%Hl.
    exact (proj1 (Forall_forall _ _) (mv_wf _ _ _ _ _ _ Hmv) _ Hin).
  - intros e (st & Hin & Hlv & _)%Hl Hs. by apply (mv_routes _ _ _ _ _ _ Hmv _ st).
Qed.
End receive.
End moving.

(** C22 (postprocess and import_migrating_accounts_with_their_inboxes): when the routing of
    accounts changes so that they belong to another thread, [postprocess] of the block takes them
    out of the queue of its thread together with their inboxes, in the state after the block's own
    messages; and when the other thread imports the accounts of the blocks it references, this
    block anywhere among blocks that bring no account to the thread, it gets the account states
    and exactly these inboxes, message by message and in order; no other inbox of either thread is
    touched.  Assumed: the block's own update of the queue does not consume past a history
    ([diff_ok]), the routes are well formed and no route is listed twice, and the importing thread
    already knows the new routes and has no inbox of its own for the moving accounts. *)
Theorem account_migrates_with_inbox {S K M Acc Cell Info : Type} `{DurableStorageRead S K M} `{KeyFrom K M}
    `{Countable K} `{EqDecision M} `{ShardAccount Acc Cell}
    (message_le : relation M) `{!RelDecision message_le} changed_iter prev1_end_lt (db : S) chain
    (o oB : OptimisticState K M Acc Cell Info) t id changed (Q QB : gmap AccountAddress (list M)) before after
    consumed produced block_id block_seq_no new_state produced_other new_dapps info idA tableA
    changed_dapp_ids block_accounts unload_after store_after number u deleted :
  let d := mkDiff consumed [] [] (order_produced message_le (list_to_map consumed) <$> produced) in
  let Q1 := diff_spec d [] Q in
  StorageOk db chain → queue_ok chain (os_messages o) Q → queue_ok chain (os_messages oB) QB →
  diff_ok db chain (os_messages o) d [] Q → movable o t id changed oB QB →
  bring_nothing t id before → bring_nothing t id after →
  unload_accounts changed_iter unload_after store_after block_seq_no block_accounts new_state
    (os_changed_accounts o) (os_cached_accounts o) = Ok u →
  report_deleted prev1_end_lt info (ul_deleted u) = Ok deleted →
  ∃ o' ref oB' Q' QB',
    postprocess message_le changed_iter prev1_end_lt db o consumed produced changed block_id block_seq_no new_state
      produced_other new_dapps info idA tableA changed_dapp_ids block_accounts unload_after store_after
      number = Ok (o', ref, deleted) ∧
    import_migrating_accounts_with_their_inboxes db (before ++ ref :: after) t id oB = Ok oB' ∧
    queue_ok chain (os_messages o') Q' ∧ queue_ok chain (os_messages oB') QB' ∧
    (∀ a, Q' !! a = if decide (a ∈ departed o changed) then None else Q1 !! a) ∧
    (∀ a, QB' !! a = if decide (a ∈ arrived o t id changed) then Q1 !! a else QB !! a) ∧
    (∀ r a acc, (r, Some (a, acc)) ∈ changed → leaves o r → sent_to t r id →
       shard_accounts (os_shard_state oB') !! a = Some acc).
Proof.
  intros d Q1 Hdb Hq HqB Hd Hmv Hbefore Hafter Hu Hdel. unfold postprocess. fold d.
  destruct (queue_from_ok db chain Hdb _ _ _ _ Hq Hd) as (q1 & -> & Hq1). cbn [mbind outcome_bind].
  set (o1 := with_messages o q1).
  assert (movable o1 t id changed oB QB) as Hmv1 by (destruct Hmv; by constructor).
  rewrite (account_leaves_ok o1 changed [] ∅)
    by (exact (mv_table _ _ _ _ _ _ Hmv) || exact (mv_wf _ _ _ _ _ _ Hmv)).
  cbn [mbind outcome_bind app]. fold (departed o1 changed).
  destruct (remove_inboxes_ok db chain Hdb (os_messages o1) Q1 (departed o1 changed) Hq1) as (q2 & -> & Hq2).
  cbn [mbind outcome_bind].
  change (os_changed_accounts o1) with (os_changed_accounts o).
  change (os_cached_accounts o1) with (os_cached_accounts o). rewrite Hu. cbn [mbind outcome_bind].
  rewrite Hdel. cbn [mbind outcome_bind].
  match goal with |- context [Ok (_, ?x, _)] => set (ref := x) end.
  destruct (import_ok db chain Hdb o1 oB t id changed QB _ Hmv1
              (λ e, outbound_entries o1 changed e (mv_nodup _ _ _ _ _ _ Hmv)) before ref after Q1 Hbefore Hafter eq_refl Hq1 HqB)
    as (oB' & Himp & HqB' & Hst).
  eexists _, _, oB', _, _. split; [done|]. split; [exact Himp|]. split; [exact Hq2|]. split; [exact HqB'|].
  split; [intros a; apply foldl_delete_lookup|]. split; [|exact Hst].
  intros a. change (arrived o1) with (arrived o). rewrite lookup_union, map_lookup_filter.
  case_decide as Ha.
  - rewrite (mv_new _ _ _ _ _ _ Hmv a Ha). destruct (Q1 !! a); cbn; [|done]. by rewrite option_guard_True.
  - destruct (Q1 !! a); cbn; [rewrite option_guard_False by done; cbn|]; by destruct (QB !! a).
Qed.

(** ** Examples *)
#[local] Existing Instance text_message.
#[local] Existing Instance text_bincode.
#[local] Existing Instance text_laws.
#[local] Existing Instance text_read.
#[local] Instance dapp_account : ShardAccount (option DAppIdentifier) unit := {
  get_dapp_id d := d;
  replace_with_external d := Some (d, tt);
}.

(** Accounts of bob's dapp belong to the second thread. *)
Definition bobs_mask : Bitmask AccountRouting :=
  mkBitmask (Routing (DAppId (AccountAddr (2%Z :: replicate 31 0%Z))) AccountAddress_default)
            (Routing (DAppId (AccountAddr (2%Z :: replicate 31 0%Z))) AccountAddress_default).
Definition second_thread : ThreadIdentifier := ThreadIdentifier_new BlockIdentifier_default 1.
Definition two_threads : ThreadsTable := [(bobs_mask, second_thread); default_row].
Abbreviation TextState := (OptimisticState MessageIdentifier string (option DAppIdentifier) unit unit).

Definition text_state (id : ThreadIdentifier) (accounts : gmap AccountAddress (option DAppIdentifier))
    (q : ThreadMessageQueueState MessageIdentifier string) (dapps : DAppIdTable) : TextState :=
  mkOptimistic 0 BlockIdentifier_default (mkShard accounts ∅ 0) q ThreadMessageQueueState_empty tt two_threads id
    dapps ∅ None ∅ ∅ 0.

Lemma two_threads_wf : BitmasksTable_wf two_threads.
Proof. by exists ThreadIdentifier_default. Qed.
Lemma names_wf : AccountAddress_wf alice ∧ AccountAddress_wf bob.
Proof. split; apply (bool_decide_unpack _); vm_compute; exact I. Qed.

(** *** Delivery: one message has the route of its account, one an older route. *)
Definition own (a : AccountAddress) : AccountRouting := Routing (DAppId a) a.
Definition text_ref (messages : list (AccountRouting * list (MessageIdentifier * string))) :
    CrossThreadRefData (Outbound MessageIdentifier string (option DAppIdentifier)) :=
  mkCrossThreadRefData BlockIdentifier_default 1 ThreadIdentifier_default (mkOutbound ∅ messages [])
    two_threads BlockIdentifier_default [].
Definition bobs_thread : TextState := text_state second_thread ∅ ThreadMessageQueueState_empty ∅.
Definition bobs_mail : list (AccountRouting * list (MessageIdentifier * string)) :=
  [(own bob, [text_entry (text "b" "1")]); (own alice, [text_entry (text "a" "1")]);
   (Routing (DAppId bob) alice, [text_entry (text "a" "2")])].

Lemma routing_wf_names (d a : AccountAddress) : AccountAddress_wf d → AccountAddress_wf a →
  AccountRouting_wf (Routing (DAppId d) a).
Proof. done. Qed.

Lemma referenced_messages_delivered_witness :
  ∃ settled redirected,
    deliver_all two_threads second_thread bobs_thread [text_ref bobs_mail] = Ok (settled, redirected) ∧
    default [] (settled !! bob) = [text_entry (text "b" "1")] ∧
    default [] (redirected !! own alice) = [text_entry (text "a" "2")].
Proof.
  destruct names_wf as [Ha Hb].
  destruct (referenced_messages_delivered two_threads second_thread bobs_thread [text_ref bobs_mail])
    as (settled & redirected & Hrun & Hs & Hr).
  - exact two_threads_wf.
  - apply Forall_singleton. unfold text_ref, bobs_mail. cbn [data_payload outbound_messages].
    repeat apply Forall_cons_2; try apply Forall_nil_2; by apply routing_wf_names.
  - exists settled, redirected. split; [exact Hrun|].
    rewrite Hs, Hr. vm_compute. done.
Defined.

(** *** Cropping *)
Definition both_accounts : TextState :=
  text_state ThreadIdentifier_default {[ alice := None ]} sample_queue ∅.

Lemma both_accounts_wf : state_wf both_accounts.
Proof.
  destruct names_wf as [Ha Hb]. split.
  - intros a [x Hx]. cbn in Hx. apply lookup_singleton_Some in Hx as [<- <-]. by apply routing_wf_names.
  - intros a Hin. cbn in Hin. set_solver.
  - intros k a Hk. cbn in Hk. by rewrite lookup_empty in Hk.
Qed.

Lemma crop_keeps_own_accounts_witness :
  ∃ o' Q', crop map_to_list first_storage both_accounts second_thread two_threads = Ok o' ∧
    queue_ok first_chain (os_messages o') Q' ∧ Q' !! bob = Some [text "b" "1"] ∧ Q' !! alice = None.
Proof.
  destruct (crop_keeps_own_accounts map_to_list (λ m, reflexivity _) first_storage first_chain first_storage_ok
              both_accounts two_threads second_thread sample_lists two_threads_wf both_accounts_wf
              ltac:(done) sample_queue_ok) as (o' & Q' & Hrun & _ & _ & _ & Hq & HQ & _).
  exists o', Q'. split; [exact Hrun|]. split; [exact Hq|]. rewrite !HQ. split; vm_compute; reflexivity.
Defined.

(** *** Migration: alice moves to bob's dapp *)
Definition to_bob : list (AccountRouting * option (AccountAddress * option DAppIdentifier)) :=
  [(Routing (DAppId bob) alice, Some (alice, Some (DAppId bob)))].
Definition bobs_thread_before : TextState :=
  text_state second_thread ∅ ThreadMessageQueueState_empty {[ alice := (Some (DAppId bob), 5%Z) ]}.

Definition any_order (m1 m2 : string) : Prop := True.
#[local] Instance any_order_dec : RelDecision any_order := λ _ _, left I.

Lemma to_bob_movable : movable both_accounts two_threads second_thread to_bob bobs_thread_before ∅.
Proof.
  destruct names_wf as [Ha Hb]. split.
  - exact two_threads_wf.
  - exact two_threads_wf.
  - apply Forall_singleton. by apply routing_wf_names.
  - apply NoDup_singleton.
  - intros r a acc [= -> -> ->]%list_elem_of_singleton. done.
  - intros r st [= -> ->]%list_elem_of_singleton _ _. vm_compute. done.
  - intros a _. apply lookup_empty.
Qed.

Lemma account_migrates_with_inbox_witness :
  ∃ o' ref oB' QB',
    postprocess any_order map_to_list (λ _, None) first_storage both_accounts [] [] to_bob BlockIdentifier_default 1
      (mkShard ∅ ∅ 0) [] ∅ tt ThreadIdentifier_default two_threads ∅ ∅ None 0 0 = Ok (o', ref, None) ∧
    import_migrating_accounts_with_their_inboxes first_storage [text_ref []; ref; text_ref []] two_threads second_thread
      bobs_thread_before = Ok oB' ∧
    queue_ok first_chain (os_messages oB') QB' ∧ QB' !! alice = Some [text "a" "1"; text "a" "2"].
Proof.
  destruct (account_migrates_with_inbox any_order map_to_list (λ _, None) first_storage first_chain both_accounts
              bobs_thread_before two_threads second_thread to_bob sample_lists ∅ [text_ref []] [text_ref []] [] []
              BlockIdentifier_default 1 (mkShard ∅ ∅ 0) [] ∅ tt ThreadIdentifier_default two_threads ∅ ∅ None 0 0
              (mkUnloading (mkShard ∅ ∅ 0) ∅ ∅ []) None first_storage_ok sample_queue_ok)
    as (o' & ref & oB' & Q' & QB' & Hrun & Himp & _ & HqB & _ & HQB & _).
  - split; [split|]; [|done|by left]. intros a. cbn. rewrite !lookup_empty. constructor.
  - split; cbn [added_accounts produced_messages consumed_messages fmap list_fmap]; try constructor; intros; by match goal with H : _ ∈ [] |- _ => apply elem_of_nil in H end.
  - exact to_bob_movable.
  - repeat constructor.
  - repeat constructor.
  - reflexivity.
  - reflexivity.
  - exists o', ref, oB', QB'. split; [exact Hrun|]. split; [exact Himp|]. split; [exact HqB|].
    rewrite HQB. vm_compute. reflexivity.
Defined.
