(* ===== verification/ApplyBlock.v ===== *)
(** * Applying a block

    Models [OptimisticStateImpl::apply_block] and [load_changed_accounts] of
    [repository/optimistic_state.rs], [get_data_for_postprocessing] of
    [types/ackinacki_block/parse_block_accounts_and_messages.rs], and the accounts repository of
    [repository/accounts.rs].

    A node that does not produce a block applies it to the state of its parent: the state is
    preprocessed with the data of the referenced blocks, the accounts the block touches are
    loaded, the state update of the block (made by the block library) is applied, and the
    result is postprocessed with the messages read from the block.  When an operation fails
    the caller drops the state; the model does not return it. *)
From Stdlib Require Import Ascii.
From stdpp Require Import base numbers gmap strings fin_maps sorting list.
From S2P Require Import Prelude Identifiers Bitmask FixedCache ThreadRefs MessageStore MessageRange MessageQueue CrossThread.

(** ** Accounts that are kept outside of the shard state *)
Class ExternalAccount (Acc Cell : Type) := {
  is_external : Acc → bool;
  (** The hash of the cell of an account, also when the cell is not loaded. *)
  account_cell_hash : Acc → string;
  repr_hash : Cell → string;
  set_account_cell : Acc → Cell → Acc;
  last_trans_hash : Acc → string;
  last_trans_lt : Acc → Z;
}.

(** The files of the repository are a map. *)
Record AccountsRepository (Cell : Type) := mkAccountsRepository {
  ar_files : gmap (AccountAddress * string * Z) Cell;
  ar_unload_after : option Z;
  ar_store_after : Z;
  ar_deleted_accounts : gmap ThreadIdentifier (gmap Z (list AccountAddress));
}.
Arguments mkAccountsRepository {Cell} _ _ _ _.
Arguments ar_files {Cell} _.
Arguments ar_unload_after {Cell} _.
Arguments ar_store_after {Cell} _.
Arguments ar_deleted_accounts {Cell} _.

Section accounts.
Context {Acc Cell : Type} `{ShardAccount Acc Cell} `{ExternalAccount Acc Cell}.
Implicit Types (repo : AccountsRepository Cell) (a : AccountAddress).

Definition load_account repo a (hash : string) (lt : Z) : outcome unit Cell :=
  assert_that (bool_decide (is_Some (ar_unload_after repo))) ≫= λ _,
  ok_or (ar_files repo !! (a, hash, lt)) tt.

Definition store_account repo a (hash : string) (lt : Z) (account : Cell) :
    outcome unit (AccountsRepository Cell) :=
  assert_that (bool_decide (is_Some (ar_unload_after repo))) ≫= λ _,
  Ok (mkAccountsRepository (<[(a, hash, lt) := account]> (ar_files repo)) (ar_unload_after repo)
        (ar_store_after repo) (ar_deleted_accounts repo)).

Definition accounts_deleted repo (id : ThreadIdentifier) (accounts : list AccountAddress) (lt : Z) :
    AccountsRepository Cell :=
  let thread_deleted := default ∅ (ar_deleted_accounts repo !! id) in
  mkAccountsRepository (ar_files repo) (ar_unload_after repo) (ar_store_after repo)
    (<[id := <[lt := accounts]> thread_deleted]> (ar_deleted_accounts repo)).

(** *** load_changed_accounts *)
Definition load_changed repo (cached : gmap AccountAddress (Z * Cell))
    (st : gmap AccountAddress Acc * gset AccountAddress) a :
    outcome unit (gmap AccountAddress Acc * gset AccountAddress) :=
  let '(accounts, changed) := st in
  match accounts !! a with
  | Some shard_acc =>
      if is_external shard_acc then
        match cached !! a with
        | Some (_, cell) => Ok cell
        | None => load_account repo a (last_trans_hash shard_acc) (last_trans_lt shard_acc)
        end ≫= λ acc_root,
        ensure (bool_decide (repr_hash acc_root = account_cell_hash shard_acc)) tt ≫= λ _,
        Ok (<[a := set_account_cell shard_acc acc_root]> accounts, {[ a ]} ∪ changed)
      else Ok (accounts, {[ a ]} ∪ changed)
  | None => Ok (accounts, {[ a ]} ∪ changed)
  end.

(** [block_accounts] are the keys of the account blocks of the block. *)
Definition load_changed_accounts repo (cached : gmap AccountAddress (Z * Cell)) (s : ShardState Acc)
    (block_accounts : list AccountAddress) : outcome unit (ShardState Acc * gset AccountAddress) :=
  fold_outcome (load_changed repo cached) (shard_accounts s, ∅) block_accounts ≫= λ '(accounts, changed),
  Ok (mkShard accounts (shard_out_queue s) (shard_seq_no s), changed).
End accounts.

(** ** The messages of a block *)
Section messages.
Context {K M Acc Cell Info : Type} `{Countable K} `{KeyFrom K M} `{TvmMessage M} `{ShardAccount Acc Cell}.
Implicit Types (o : OptimisticState K M Acc Cell Info) (a : AccountAddress).
Abbreviation Routed := (gmap AccountRouting (list (K * M))).

(** An output descriptor without a message is an error. *)
Definition collect_produced o (m : Routed) (out_msg : option M) : outcome unit Routed :=
  ok_or out_msg tt ≫= λ msg,
  match int_dst_account_id msg with
  | Some dest =>
      unwrap (key_from msg) ≫= λ key,
      Ok (append_entry m (get_account_routing o dest None) [(key, msg)])
  | None => Ok m
  end.

Definition collect_consumed (m : gmap AccountAddress (gset K)) (msg : M) :
    outcome unit (gmap AccountAddress (gset K)) :=
  match int_dst_account_id msg with
  | Some addr =>
      unwrap (key_from msg) ≫= λ key, Ok (<[addr := {[ key ]} ∪ default ∅ (m !! addr)]> m)
  | None => Ok m
  end.

Abbreviation Changed := (gmap AccountRouting (option (AccountAddress * Acc))).
Definition collect_changed (s : ShardState Acc) (m : Changed) (e : AccountAddress * DAppEntry) :
    outcome unit Changed :=
  match e.2.1 with
  | Some new_dapp_id =>
      unwrap (shard_accounts s !! e.1) ≫= λ account,
      Ok (<[Routing new_dapp_id e.1 := Some (e.1, account)]> m)
  | None => Ok (<[Routing (DAppId e.1) e.1 := None]> m)
  end.

Abbreviation Split := (gmap AccountAddress (list (K * M)) * Routed)%type.
Definition split_produced o (st : Split) (e : AccountRouting * list (K * M)) : outcome unit Split :=
  does_routing_belong_to_the_state o e.1 ≫= λ own : bool,
  Ok (if own then (<[routing_account e.1 := e.2]> st.1, st.2) else (st.1, <[e.1 := e.2]> st.2)).

Record PostprocessingData := mkPostData {
  pd_consumed : gmap AccountAddress (gset K);
  pd_current : gmap AccountAddress (list (K * M));
  pd_changed : Changed;
  pd_other : Routed;
}.

Definition get_data_for_postprocessing (out_msgs : list (option M)) (in_msgs : list M)
    (changed_dapp_ids : DAppIdTableChangeSet) o (updated : ShardState Acc) :
    outcome unit PostprocessingData :=
  fold_outcome (collect_produced o) ∅ out_msgs ≫= λ produced,
  fold_outcome collect_consumed ∅ in_msgs ≫= λ consumed,
  fold_outcome (collect_changed updated) ∅ (map_to_list changed_dapp_ids) ≫= λ changed,
  fold_outcome (split_produced o) (∅, ∅) (map_to_list produced) ≫= λ '(current, other),
  Ok (mkPostData consumed current changed other).

(** The messages that are handed to the message storage; [extend] of a map replaces the entries
    of keys that it already has. *)
Definition all_added_messages (settled current : gmap AccountAddress (list (K * M)))
    (other : list (AccountRouting * list (K * M))) : gmap AccountAddress (list (K * M)) :=
  foldl (λ m e, <[routing_account e.1 := e.2]> m) (current ∪ settled) other.
End messages.
Arguments PostprocessingData K M Acc {_ _}.
Arguments mkPostData {K M Acc _ _} _ _ _ _.

(** ** apply_block *)
(** [x as i64] of a [u64], and back. *)
Definition as_i64 (z : Z) : Z := if bool_decide (z < 2 ^ 63)%Z then z else (z - 2 ^ 64)%Z.
Definition as_u64 (z : Z) : Z := (z mod 2 ^ 64)%Z.
Definition updated_accounts_number {E} (accounts_number diff : Z) : outcome E Z :=
  checked_i64 (as_i64 accounts_number + diff) ≫= λ n, Ok (as_u64 n).

(** What [apply_block] reads of a block. *)
Record AppliedBlock (Nack M : Type) := mkAppliedBlock {
  ab_identifier : BlockIdentifier;
  ab_parent : BlockIdentifier;
  ab_seq_no : Z;
  ab_thread_id : ThreadIdentifier;
  ab_refs : list BlockIdentifier;
  ab_nacks : list Nack;
  ab_threads_table : option ThreadsTable;
  ab_changed_dapp_ids : DAppIdTableChangeSet;
  ab_accounts_number_diff : Z;
  ab_out_msgs : list (option M);
  ab_in_msgs : list M;
  ab_account_blocks : list AccountAddress;
}.
Arguments mkAppliedBlock {Nack M} _ _ _ _ _ _ _ _ _ _ _ _.
Arguments ab_identifier {Nack M} _.
Arguments ab_parent {Nack M} _.
Arguments ab_seq_no {Nack M} _.
Arguments ab_thread_id {Nack M} _.
Arguments ab_refs {Nack M} _.
Arguments ab_nacks {Nack M} _.
Arguments ab_threads_table {Nack M} _.
Arguments ab_changed_dapp_ids {Nack M} _.
Arguments ab_accounts_number_diff {Nack M} _.
Arguments ab_out_msgs {Nack M} _.
Arguments ab_in_msgs {Nack M} _.
Arguments ab_account_blocks {Nack M} _.

Section apply.
Context {S K M Acc Cell Info BlockKeeperData Nack : Type} `{DurableStorageRead S K M} `{KeyFrom K M}
  `{Countable K} `{EqDecision M} `{ShardAccount Acc Cell} `{ExternalAccount Acc Cell} `{TvmMessage M}.
(** The orders in which maps and sets are visited. *)
Variable acc_iter : gmap AccountAddress Acc → list (AccountAddress * Acc).
Variable messages_iter : gmap AccountAddress (list (K * M)) → list (AccountAddress * list (K * M)).
Variable consumed_iter : gmap AccountAddress (gset K) → list (AccountAddress * gset K).
Variable migrating_iter : gmap AccountRouting (option (AccountAddress * Acc)) →
  list (AccountRouting * option (AccountAddress * Acc)).
Variable routed_iter : gmap AccountRouting (list (K * M)) → list (AccountRouting * list (K * M)).
Variable changed_iter : gmap AccountAddress Z → list (AccountAddress * Z).
Variable block_iter : gset BlockIdentifier → list BlockIdentifier.
Variable tails_iter : ThreadReferencesState → list ReferencedBlock.
(** The order of messages. *)
Variable message_le : relation M.
Context `{!RelDecision message_le}.
Variable create_epoch_touch_message : BlockKeeperData → outcome unit M.
Variable prev1_end_lt : Info → option Z.
(** [reason.get_node_data] with [create_wallet_slash_message], and [reason.get_hash_nack]. *)
Variable slash_message : Nack → option (outcome unit M).
Variable nack_hash : Nack → option Z.
(** [prepare_prev_block_info], and the state update of the block library. *)
Variable prepare_prev_block_info : AppliedBlock Nack M → Info.
Variable state_update : AppliedBlock Nack M → ShardState Acc → outcome unit (ShardState Acc).
Implicit Types (o : OptimisticState K M Acc Cell Info) (db : S) (b : AppliedBlock Nack M)
  (repo : AccountsRepository Cell).
Abbreviation RefData := (CrossThreadRefData (Outbound K M Acc)).

Definition slash_messages (nacks : list Nack) : outcome unit (list M) :=
  fold_outcome (λ l nack,
    match slash_message nack with
    | Some made => made ≫= λ msg, Ok (l ++ [msg])
    | None => Ok l
    end) [] nacks.

Definition remember_nack (cache : FixedSizeHashSet Z) (nack : Nack) : outcome unit (FixedSizeHashSet Z) :=
  match nack_hash nack with
  | Some h => if FixedSizeHashSet_contains cache h then Ok cache else FixedSizeHashSet_insert cache h
  | None => Ok cache
  end.

Record Applied := mkApplied {
  ap_state : OptimisticState K M Acc Cell Info;
  ap_ref_data : RefData;
  ap_added_messages : gmap AccountAddress (list (K * M));
  ap_nack_cache : FixedSizeHashSet Z;
  ap_repo : AccountsRepository Cell;
}.

(** [apply_block] after [preprocess]. *)
Definition apply_preprocessed db repo (cache : FixedSizeHashSet Z) b
    (pre : PreprocessingResult (K := K) (M := M) (Acc := Acc) (Cell := Cell) (Info := Info)) :
    outcome unit Applied :=
  let o := pre_state pre in
  load_changed_accounts repo (os_cached_accounts o) (os_shard_state o) (ab_account_blocks b)
    ≫= λ '(prev_state, changed),
  state_update b prev_state ≫= λ shard_state,
  let block_info := prepare_prev_block_info b in
  get_data_for_postprocessing (ab_out_msgs b) (ab_in_msgs b) (ab_changed_dapp_ids b) o shard_state ≫= λ d,
  let added := all_added_messages (settled_messages pre) (pd_current d) (routed_iter (pd_other d)) in
  let threads_table := default (os_threads_table o) (ab_threads_table b) in
  updated_accounts_number (os_accounts_number o) (ab_accounts_number_diff b) ≫= λ number,
  postprocess message_le changed_iter prev1_end_lt db o (consumed_iter (pd_consumed d))
    (messages_iter (pd_current d)) (migrating_iter (pd_changed d)) (ab_identifier b) (ab_seq_no b)
    shard_state (routed_iter (pd_other d)) (os_dapp_id_table o) block_info (ab_thread_id b) threads_table
    (ab_changed_dapp_ids b) changed (ar_unload_after repo) (ar_store_after repo) number
    ≫= λ '(new_state, ref_data, deleted),
  let repo := match deleted with
              | Some (accounts, lt) => accounts_deleted repo (ab_thread_id b) accounts lt
              | None => repo
              end in
  fold_outcome remember_nack cache (ab_nacks b) ≫= λ cache,
  Ok (mkApplied new_state ref_data added cache repo).

Definition apply_block (fuel wfuel : nat) (get_ref_data : BlockIdentifier → option RefData) db repo
    (cache : FixedSizeHashSet Z) o b : option (outcome unit Applied) :=
  match assert_that (bool_decide (os_block_id o = ab_parent b)) ≫= λ _,
        slash_messages (ab_nacks b) ≫= λ slash,
        map_outcome (λ id, unwrap (get_ref_data id)) (ab_refs b) ≫= λ refs, Ok (slash, refs) with
  | Ok (slash, refs) =>
      match preprocess acc_iter messages_iter block_iter tails_iter create_epoch_touch_message
              fuel wfuel get_ref_data db o refs (ab_thread_id b) slash [] with
      | Some pre => Some (pre ≫= apply_preprocessed db repo cache b)
      | None => None
      end
  | Err e => Some (Err e)
  | Panic => Some Panic
  end.
End apply.

(** ** The messages of a block are split by their routes *)
Section split.
Context {K M Acc Cell Info : Type} `{Countable K} `{KeyFrom K M} `{TvmMessage M} `{ShardAccount Acc Cell}.
Implicit Types (o : OptimisticState K M Acc Cell Info) (a : AccountAddress) (r : AccountRouting)
  (out : list (option M)) (l : list M) (P : gmap AccountRouting (list (K * M))).

Abbreviation route o a := (get_account_routing o a None).
Abbreviation own o r := (sent_to (os_threads_table o) r (os_thread_id o)).

(** The internal messages to an account, in the order of the block. *)
Definition sent_entry a (om : option M) : option (K * M) :=
  om ≫= λ m, if decide (int_dst_account_id m = Some a) then (λ k, (k, m)) <$> key_from m else None.
Definition sent_messages out a : list (K * M) := omap (sent_entry a) out.

(** Messages that can be read: internal messages have a key and a destination. *)
Definition readable o (om : option M) : Prop :=
  ∃ m, om = Some m ∧ ∀ a, int_dst_account_id m = Some a →
    is_Some (key_from (MessageKey := K) m) ∧ AccountRouting_wf (route o a).

Record produced_inv o out P : Prop := {
  pi_lists a : default [] (P !! route o a) = sent_messages out a;
  pi_routes r : is_Some (P !! r) → r = route o (routing_account r) ∧ AccountRouting_wf r;
}.

Lemma sent_messages_snoc out om a :
  sent_messages (out ++ [om]) a = sent_messages out a ++ match sent_entry a om with Some e => [e] | None => [] end.
Proof. unfold sent_messages. rewrite omap_app. cbn. by destruct (sent_entry a om). Qed.

Lemma collect_step o out P om : readable o om → produced_inv o out P →
  ∃ P', collect_produced o P om = Ok P' ∧ produced_inv o (out ++ [om]) P'.
Proof.
  intros (m & -> & Hm) [Hl Hr]. unfold collect_produced. cbn [ok_or mbind outcome_bind].
  destruct (int_dst_account_id m) as [dest|] eqn:Hdst.
  - destruct (Hm dest eq_refl) as [[key Hk] Hwf]. rewrite Hk. cbn [unwrap mbind outcome_bind].
    eexists. split; [done|]. split.
    + intros a. rewrite append_entry_lookup, Hl, sent_messages_snoc. unfold sent_entry. cbn [mbind option_bind].
      rewrite Hdst, Hk. cbn [fmap option_fmap option_map].
      f_equal. destruct (decide (a = dest)) as [->|Hne]; [by rewrite !decide_True by done|].
      rewrite (decide_False (P := Some dest = Some a)) by congruence.
      rewrite decide_False; [done|]. intros E. apply Hne. apply (f_equal routing_account) in E.
      by rewrite !routing_account_of in E.
    + intros r [x Hx]. unfold append_entry in Hx. destruct (decide (route o dest = r)) as [<-|Hne].
      * by rewrite routing_account_of.
      * rewrite lookup_insert_ne in Hx by done. apply Hr. eauto.
  - eexists. split; [done|]. split; [|done]. intros a. rewrite Hl, sent_messages_snoc. unfold sent_entry. cbn.
    by rewrite Hdst, decide_False, app_nil_r.
Qed.

Lemma collect_produced_ok o out out' P : Forall (readable o) out' → produced_inv o out P →
  ∃ P', fold_outcome (collect_produced o) P out' = Ok P' ∧ produced_inv o (out ++ out') P'.
Proof.
  intros Hall. revert out P. induction Hall as [|om out' Hom Hall IH]; intros out P HP.
  { exists P. by rewrite app_nil_r. }
  destruct (collect_step _ _ _ _ Hom HP) as (P1 & Hrun & HP1). rewrite fold_outcome_cons, Hrun.
  cbn [mbind outcome_bind]. destruct (IH _ _ HP1) as (P' & Hrun' & HP'). exists P'. split; [done|].
  by rewrite <- app_assoc in HP'.
Qed.

(** *** The split *)
Definition to_current o (e : AccountRouting * list (K * M)) : option (AccountAddress * list (K * M)) :=
  if decide (own o e.1) then Some (routing_account e.1, e.2) else None.
Definition to_other o (e : AccountRouting * list (K * M)) : option (AccountRouting * list (K * M)) :=
  if decide (own o e.1) then None else Some e.

Lemma split_produced_ok o L st : BitmasksTable_wf (os_threads_table o) →
  Forall (λ e, AccountRouting_wf e.1) L →
  fold_outcome (split_produced o) st L =
  Ok (foldl (λ m e, match to_current o e with Some p => <[p.1 := p.2]> m | None => m end) st.1 L,
      foldl (λ m e, match to_other o e with Some p => <[p.1 := p.2]> m | None => m end) st.2 L).
Proof.
  intros Ht HL. revert st. induction HL as [|e L He HL IH]; intros [c t]; [done|].
  rewrite fold_outcome_cons.
  assert (split_produced o (c, t) e =
          Ok (if bool_decide (own o e.1) then (<[routing_account e.1 := e.2]> c, t) else (c, <[e.1 := e.2]> t)))
    as Hstep.
  { unfold split_produced, does_routing_belong_to_the_state. by rewrite thread_match_ok by done. }
  rewrite Hstep. cbn [mbind outcome_bind]. rewrite IH. cbn [foldl fst snd].
  unfold to_current, to_other. case_bool_decide as Ho; [by rewrite !decide_True by done|by rewrite !decide_False by done].
Qed.

Lemma split_lookups o out P : produced_inv o out P →
  (∀ a v, foldl (λ m e, match to_current o e with Some p => <[p.1 := p.2]> m | None => m end)
       (∅ : gmap AccountAddress (list (K * M))) (map_to_list P) !! a = Some v ↔ own o (route o a) ∧ P !! route o a = Some v) ∧
  (∀ r v, foldl (λ m e, match to_other o e with Some p => <[p.1 := p.2]> m | None => m end)
       (∅ : gmap AccountRouting (list (K * M))) (map_to_list P) !! r = Some v ↔ ¬ own o r ∧ P !! r = Some v).
Proof.
  intros [_ Hr]. unfold to_current, to_other. split.
  - intros a v. rewrite foldl_put_lookup.
    + rewrite lookup_empty. split.
      * intros [([r w] & Hin%elem_of_map_to_list & He)|[? _]]; [|done]. simpl in *. case_decide as Ho; [|done].
        injection He as <- ->. destruct (Hr r) as [Heq _]; [by eexists|]. by rewrite <- Heq.
      * intros [Ho Hv]. left. exists (route o a, v). split; [by apply elem_of_map_to_list|].
        cbn [fst snd]. by rewrite decide_True, routing_account_of.
    + intros [r1 w1] [r2 w2] w w' Hx%elem_of_map_to_list Hy%elem_of_map_to_list Hfx Hfy. simpl in *.
      do 2 (case_decide; [|done]). injection Hfx as E1 ->. injection Hfy as E2 ->.
      destruct (Hr r1) as [H1' _]; [by eexists|]. destruct (Hr r2) as [H2' _]; [by eexists|]. congruence.
  - intros r v. rewrite foldl_put_lookup.
    + rewrite lookup_empty. split.
      * intros [([r' w] & Hin%elem_of_map_to_list & He)|[? _]]; [|done]. simpl in *. case_decide as Ho; [done|].
        by injection He as -> ->.
      * intros [Ho Hv]. left. exists (r, v). split; [by apply elem_of_map_to_list|]. cbn. by rewrite decide_False.
    + intros [r1 w1] [r2 w2] w w' Hx%elem_of_map_to_list Hy%elem_of_map_to_list Hfx Hfy. simpl in *.
      do 2 (case_decide; [done|]). congruence.
Qed.

(** *** Consumed messages and changed accounts *)
Lemma collect_consumed_ok l (C : gmap AccountAddress (gset K)) :
  Forall (λ m, is_Some (int_dst_account_id m) → is_Some (key_from (MessageKey := K) m)) l →
  ∃ C', fold_outcome collect_consumed C l = Ok C' ∧
    ∀ a k, k ∈ default ∅ (C' !! a) ↔
      k ∈ default ∅ (C !! a) ∨ ∃ m, m ∈ l ∧ int_dst_account_id m = Some a ∧ key_from m = Some k.
Proof.
  intros Hl. revert C. induction Hl as [|m l Hm Hl IH]; intros C.
  { exists C. split; [done|]. intros a k. split; [by left|]. intros [?|(? & ?%elem_of_nil & _)]; done. }
  rewrite fold_outcome_cons. unfold collect_consumed at 2. setoid_rewrite elem_of_cons.
  destruct (int_dst_account_id m) as [dest|] eqn:Hd.
  - destruct Hm as [key Hk]; [done|]. rewrite Hk. cbn [unwrap mbind outcome_bind].
    destruct (IH (<[dest := {[ key ]} ∪ default ∅ (C !! dest)]> C)) as (C' & Hrun & HC').
    exists C'. split; [done|]. intros a k. rewrite HC'. destruct (decide (a = dest)) as [->|Hne].
    + rewrite lookup_insert_eq. cbn [default from_option id]. rewrite elem_of_union, elem_of_singleton.
      split; [intros [[->|?]|(m' & ? & ?)]; eauto 8|].
      intros [?|(m' & [->|?] & ? & Hk')]; [by left; right| |eauto]. left; left. congruence.
    + rewrite lookup_insert_ne by done. split; [intros [?|(m' & ? & ?)]; eauto 8|].
      intros [?|(m' & [->|?] & ? & ?)]; [by left|congruence|eauto].
  - cbn [mbind outcome_bind]. destruct (IH C) as (C' & Hrun & HC'). exists C'. split; [done|]. intros a k.
    rewrite HC'. split; [intros [?|(m' & ? & ?)]; eauto 8|].
    intros [?|(m' & [->|?] & ? & ?)]; [by left|congruence|eauto].
Qed.

(** The new route of an account whose dapp has changed, with its state when it has a dapp. *)
Definition changed_entry (s : ShardState Acc) (e : AccountAddress * DAppEntry) :
    option (AccountRouting * option (AccountAddress * Acc)) :=
  match e.2.1 with
  | Some dapp => (λ acc, (Routing dapp e.1, Some (e.1, acc))) <$> shard_accounts s !! e.1
  | None => Some (Routing (DAppId e.1) e.1, None)
  end.

Lemma collect_changed_ok s (c : DAppIdTableChangeSet) :
  (∀ a dapp lt, c !! a = Some (Some dapp, lt) → is_Some (shard_accounts s !! a)) →
  ∃ C, fold_outcome (collect_changed s) ∅ (map_to_list c) = Ok C ∧
    ∀ r v, C !! r = Some v ↔ ∃ e, c !! routing_account r = Some e ∧
      changed_entry s (routing_account r, e) = Some (r, v).
Proof.
  intros Hex. eexists. split.
  - apply (fold_outcome_total _ (λ m e, match changed_entry s e with Some p => <[p.1 := p.2]> m | None => m end)).
    intros b [a [[dapp|] lt]] Hin%elem_of_map_to_list; unfold collect_changed, changed_entry; simpl; [|done].
    destruct (Hex _ _ _ Hin) as [acc Hacc]. by rewrite Hacc.
  - intros r v. assert (∀ e r v, changed_entry s e = Some (r, v) → e.1 = routing_account r) as Hkey.
    { intros [a [[dapp|] lt]] r' v'; unfold changed_entry; simpl; [|by intros [= <- _]].
      destruct (shard_accounts s !! a); simpl; [|done]. by intros [= <- _]. }
    rewrite foldl_put_lookup.
    + rewrite lookup_empty. split.
      * intros [([a e] & Hin%elem_of_map_to_list & He)|[? _]]; [|done].
        pose proof (Hkey _ _ _ He) as Ha. simpl in Ha. subst a. eauto.
      * intros (e & Hc & He). left. eexists. split; [by apply elem_of_map_to_list|done].
    + intros [a1 e1] [a2 e2] w w' Hx%elem_of_map_to_list Hy%elem_of_map_to_list Hfx Hfy.
      pose proof (Hkey _ _ _ Hfx). pose proof (Hkey _ _ _ Hfy). simpl in *. subst a1 a2. congruence.
Qed.

(** Get_data_for_postprocessing: of the messages a block sends, every internal one is listed
    once, in the order of the block: with the account, when the route of the account belongs to
    the thread, and otherwise with its route among the messages to other threads.  The consumed
    messages are exactly the internal messages the block received, and the moving accounts are
    exactly those of the change set, under their new routes. *)
Theorem block_messages_split o out l c s :
  BitmasksTable_wf (os_threads_table o) → Forall (readable o) out →
  Forall (λ m, is_Some (int_dst_account_id m) → is_Some (key_from (MessageKey := K) m)) l →
  (∀ a dapp lt, c !! a = Some (Some dapp, lt) → is_Some (shard_accounts s !! a)) →
  ∃ d, get_data_for_postprocessing (K := K) out l c o s = Ok d ∧
    (∀ a, default [] (pd_current d !! a) = if decide (own o (route o a)) then sent_messages out a else []) ∧
    (∀ a, default [] (pd_other d !! route o a) = if decide (own o (route o a)) then [] else sent_messages out a) ∧
    (∀ r, is_Some (pd_other d !! r) → r = route o (routing_account r)) ∧
    (∀ a k, k ∈ default ∅ (pd_consumed d !! a) ↔ ∃ m, m ∈ l ∧ int_dst_account_id m = Some a ∧ key_from m = Some k) ∧
    (∀ r v, pd_changed d !! r = Some v ↔ ∃ e, c !! routing_account r = Some e ∧
       changed_entry s (routing_account r, e) = Some (r, v)).
Proof.
  intros Ht Hout Hl Hc. unfold get_data_for_postprocessing.
  destruct (collect_produced_ok o [] out ∅ Hout) as (P & -> & HP).
  { split; [intros a; by rewrite lookup_empty|]. intros r. rewrite lookup_empty. by intros [??]. }
  cbn [mbind outcome_bind app] in *. destruct (collect_consumed_ok l ∅ Hl) as (C & -> & HC).
  cbn [mbind outcome_bind]. destruct (collect_changed_ok s c Hc) as (D & -> & HD). cbn [mbind outcome_bind].
  rewrite split_produced_ok; [|done|]; last first.
  { apply Forall_forall. intros [r v] Hin%elem_of_map_to_list. apply (pi_routes _ _ _ HP). by eexists. }
  cbn [mbind outcome_bind fst snd]. eexists. split; [done|]. cbn [pd_current pd_other pd_consumed pd_changed].
  destruct (split_lookups o out P HP) as [Hcur Hoth].
  match goal with |- (∀ a, default [] (?m !! a) = _) ∧ (∀ a, default [] (?m' !! _) = _) ∧ _ =>
    set (cur := m) in *; set (oth := m') in * end.
  assert (∀ a, default [] (P !! route o a) = sent_messages out a) as HPl by apply (pi_lists _ _ _ HP).
  split; [|split; [|split; [|split; [|exact HD]]]].
  - intros a. specialize (Hcur a). specialize (HPl a). case_decide as Ho.
    + rewrite <- HPl. f_equal. apply option_eq. intros v. rewrite Hcur. tauto.
    + destruct (cur !! a) as [v|]; [|done]. destruct (Hcur v) as [[??] _]; done.
  - intros a. specialize (Hoth (route o a)). specialize (HPl a). case_decide as Ho.
    + destruct (oth !! route o a) as [v|]; [|done]. destruct (Hoth v) as [[??] _]; done.
    + rewrite <- HPl. f_equal. apply option_eq. intros v. rewrite Hoth. tauto.
  - intros r [v [_ Hv]%Hoth]. apply (pi_routes _ _ _ HP). by eexists.
  - intros a k. rewrite HC, lookup_empty. cbn. set_solver.
Qed.
End split.

(** ** Unloading accounts is invisible *)
(** What the block library promises of accounts outside of the state. *)
Class ExternalLaws (Acc Cell : Type) `{ShardAccount Acc Cell} `{ExternalAccount Acc Cell} : Prop := {
  external_out (acc ext : Acc) (cell : Cell) : replace_with_external acc = Some (ext, cell) →
    is_external acc = false → is_external ext = true ∧ account_cell_hash ext = repr_hash cell;
  external_back (acc ext : Acc) (cell : Cell) : replace_with_external acc = Some (ext, cell) →
    is_external acc = false → set_account_cell ext cell = acc;
}.

Lemma filter_outcome_inv {E A} (f : A → outcome E bool) l l' : filter_outcome f l = Ok l' →
  l' `sublist_of` l ∧ (∀ x, x ∈ l' ↔ x ∈ l ∧ f x = Ok true) ∧ (∀ x, x ∈ l → ∃ b, f x = Ok b).
Proof.
  revert l'. induction l as [|x l IH]; intros l'; cbn [filter_outcome].
  { intros [= <-]. split; [done|]. split; [set_solver|]. by intros x ?%elem_of_nil. }
  intros (b & Hb & (l1 & Hl1 & [= <-])%outcome_bind_Ok)%outcome_bind_Ok.
  destruct (IH _ Hl1) as (Hsub & Hiff & Hall). split; [destruct b; by constructor|]. split.
  - intros y. destruct b; rewrite ?elem_of_cons, Hiff; split.
    + intros [->|[??]]; [split; [by left|done]|split; [by right|done]].
    + intros [[->|?] ?]; [by left|by right].
    + intros [??]. split; [by right|done].
    + intros [[->|?] Hy]; [congruence|done].
  - intros y [->|?]%elem_of_cons; [by exists b|by apply Hall].
Qed.

Section unload.
Context {Acc Cell : Type} `{ExternalLaws Acc Cell}.
Implicit Types (repo : AccountsRepository Cell) (accounts : gmap AccountAddress Acc)
  (cached : gmap AccountAddress (Z * Cell)) (changed : gmap AccountAddress Z) (a : AccountAddress)
  (s : ShardState Acc) (u : Unloading (Acc := Acc) (Cell := Cell)).

(** The cell that is loaded for an account outside of the state. *)
Definition stored_cell repo cached a (acc : Acc) : option Cell :=
  match cached !! a with
  | Some (_, cell) => Some cell
  | None => ar_files repo !! (a, last_trans_hash acc, last_trans_lt acc)
  end.

(** The account as it is once loaded; [None] when its cell is missing or is not the one of its
    hash. *)
Definition resolve repo cached a (acc : Acc) : option Acc :=
  if is_external acc then
    stored_cell repo cached a acc ≫= λ cell,
    if decide (repr_hash cell = account_cell_hash acc) then Some (set_account_cell acc cell) else None
  else Some acc.
Definition resolved repo cached accounts a : option (option Acc) := resolve repo cached a <$> accounts !! a.

Lemma unload_step repo ua n u u' a seq : is_Some (ar_unload_after repo) →
  (∀ acc, shard_accounts (ul_shard u) !! a = Some acc → is_external acc = false) →
  unload_account ua n u (a, seq) = Ok u' →
  (∀ b, resolved repo (ul_cached u') (shard_accounts (ul_shard u')) b =
        resolved repo (ul_cached u) (shard_accounts (ul_shard u)) b) ∧
  (∀ b, b ≠ a → shard_accounts (ul_shard u') !! b = shard_accounts (ul_shard u) !! b).
Proof.
  intros Hua Hloaded. unfold unload_account. intros (due & _ & Hrun)%outcome_bind_Ok. cbn [fst snd] in Hrun.
  case_bool_decide; [|by injection Hrun as <-].
  destruct (shard_accounts (ul_shard u) !! a) as [acc|] eqn:Hacc; [|by injection Hrun as <-].
  apply outcome_bind_Ok in Hrun as ([ext cell] & Hext & [= <-]).
  destruct (replace_with_external acc) as [p|] eqn:Hrep; [|done]. injection Hext as ->.
  specialize (Hloaded acc eq_refl). destruct (external_out _ _ _ Hrep Hloaded) as [Hise Hhash].
  pose proof (external_back _ _ _ Hrep Hloaded) as Hback. cbn [ul_cached ul_shard shard_accounts].
  split; intros b; [|by intros; rewrite lookup_insert_ne].
  destruct (decide (b = a)) as [->|Hne]; unfold resolved, resolve, stored_cell.
  - rewrite !lookup_insert_eq, Hacc. cbn [fmap option_fmap option_map].
    rewrite Hise, Hloaded. cbn [mbind option_bind]. by rewrite decide_True, Hback.
  - by rewrite !lookup_insert_ne by done.
Qed.

Lemma unload_steps repo ua n l u u' : is_Some (ar_unload_after repo) → NoDup l.*1 →
  (∀ a acc, a ∈ l.*1 → shard_accounts (ul_shard u) !! a = Some acc → is_external acc = false) →
  fold_outcome (unload_account ua n) u l = Ok u' →
  ∀ b, resolved repo (ul_cached u') (shard_accounts (ul_shard u')) b =
       resolved repo (ul_cached u) (shard_accounts (ul_shard u)) b.
Proof.
  intros Hua. revert u. induction l as [|[a seq] l IH]; intros u Hnd Hloaded; cbn [fold_outcome].
  { by intros [= <-]. }
  cbn in Hnd. apply NoDup_cons in Hnd as [Ha Hnd]. intros (u1 & Hu1 & Hu2)%outcome_bind_Ok b.
  destruct (unload_step repo ua n u u1 a seq) as [Hres Hother]; [done| |done|].
  { intros acc. apply Hloaded. cbn. by left. }
  rewrite (IH u1), Hres; [done|done| |done].
  intros c acc Hc Hacc. rewrite Hother in Hacc by (intros ->; done). apply (Hloaded c acc); [|done]. cbn. by right.
Qed.

(** The accounts of the cache that are dropped because of their age have been written to the
    files. *)
Definition stored_before_drop repo cached accounts (store_after n : Z) : Prop :=
  ∀ a seq cell acc, cached !! a = Some (seq, cell) → (seq + store_after < n)%Z → accounts !! a = Some acc →
    ar_files repo !! (a, last_trans_hash acc, last_trans_lt acc) = Some cell.

Lemma drop_cached repo cached kept accounts changed sa n :
  stored_before_drop repo cached accounts sa n →
  (∀ a acc, is_Some (changed !! a) → accounts !! a = Some acc → is_external acc = false) →
  filter_outcome (cached_kept sa n changed) (map_to_list cached) = Ok kept →
  ∀ b, resolved repo (list_to_map kept) accounts b = resolved repo cached accounts b.
Proof.
  intros Hstored Hloaded Hf b. apply filter_outcome_inv in Hf as (Hsub & Hiff & Hok).
  assert (NoDup kept.*1) as Hnd.
  { apply (sublist_NoDup _ (map_to_list cached).*1); [apply NoDup_fst_map_to_list|].
    clear -Hsub. induction Hsub; cbn; by constructor. }
  unfold resolved. destruct (accounts !! b) as [acc|] eqn:Hacc; [|done]. cbn. f_equal.
  unfold resolve. destruct (is_external acc) eqn:Hext; [|done]. f_equal. unfold stored_cell.
  destruct (cached !! b) as [[seq cell]|] eqn:Hc.
  - assert ((b, (seq, cell)) ∈ map_to_list cached) as Hin by by apply elem_of_map_to_list.
    destruct (Hok _ Hin) as [keep Hkeep]. destruct keep.
    + rewrite (elem_of_list_to_map_1 _ b (seq, cell)); [done|done|]. by apply Hiff.
    + rewrite not_elem_of_list_to_map_1.
      * unfold cached_kept in Hkeep. cbn [fst snd] in Hkeep.
        apply outcome_bind_Ok in Hkeep as (due & Hdue & [= Hb]).
        assert (due = seq + sa)%Z as -> by (unfold BlockSeqNo_add, checked in Hdue; by case_decide; simplify_eq).
        apply andb_false_iff in Hb as [Hb%bool_decide_eq_false|Hb%bool_decide_eq_false].
        -- apply (Hstored _ _ _ _ Hc); [lia|done].
        -- exfalso. destruct (changed !! b) eqn:Hch; [|done].
           assert (is_external acc = false); [|congruence]. apply (Hloaded b); [by rewrite Hch|done].
      * intros ([b' x] & -> & Hin')%list_elem_of_fmap. cbn [fst] in *.
        pose proof (proj1 (Hiff _) Hin') as [Hx%elem_of_map_to_list Hk]. rewrite Hc in Hx. injection Hx as <-. congruence.
  - rewrite not_elem_of_list_to_map_1; [done|].
    intros ([b' x] & -> & Hin)%list_elem_of_fmap. apply Hiff in Hin as [Hin%elem_of_map_to_list _]. cbn in Hc. congruence.
Qed.

(** *** Loading *)
Lemma load_step repo cached accounts touched a : is_Some (ar_unload_after repo) →
  load_changed repo cached (accounts, touched) a =
  match accounts !! a with
  | None => Ok (accounts, {[ a ]} ∪ touched)
  | Some acc =>
      match resolve repo cached a acc with
      | Some loaded => Ok (<[a := loaded]> accounts, {[ a ]} ∪ touched)
      | None => Err tt
      end
  end.
Proof.
  intros Hua. unfold load_changed, resolve, stored_cell, load_account.
  destruct (accounts !! a) as [acc|] eqn:Hacc; [|done]. destruct (is_external acc) eqn:He.
  - rewrite (bool_decide_eq_true_2 _ Hua). cbn [assert_that mbind outcome_bind option_bind].
    destruct (cached !! a) as [[seq cell]|]; cbn [mbind outcome_bind option_bind].
    + case_decide; [by rewrite bool_decide_eq_true_2|by rewrite bool_decide_eq_false_2].
    + destruct (ar_files repo !! _); cbn [ok_or mbind outcome_bind option_bind]; [|done].
      case_decide; [by rewrite bool_decide_eq_true_2|by rewrite bool_decide_eq_false_2].
  - by rewrite insert_id.
Qed.

Lemma load_accounts_ok repo cached l accounts touched : is_Some (ar_unload_after repo) → NoDup l →
  (∀ a acc, a ∈ l → accounts !! a = Some acc → is_Some (resolve repo cached a acc)) →
  ∃ accounts', fold_outcome (load_changed repo cached) (accounts, touched) l = Ok (accounts', list_to_set l ∪ touched) ∧
    ∀ a, accounts' !! a = if decide (a ∈ l) then accounts !! a ≫= resolve repo cached a else accounts !! a.
Proof.
  intros Hua Hnd. revert accounts touched. induction Hnd as [|a l Ha Hnd IH]; intros accounts touched Hres.
  { exists accounts. cbn. rewrite (left_id_L ∅ (∪)). split; [done|]. intros a.
    by rewrite decide_False by apply not_elem_of_nil. }
  rewrite fold_outcome_cons, load_step by done.
  assert (∃ accounts1, (∀ b, accounts1 !! b = if decide (b = a) then accounts !! b ≫= resolve repo cached b else accounts !! b) ∧
    match accounts !! a with
    | None => Ok (accounts, {[ a ]} ∪ touched)
    | Some acc => match resolve repo cached a acc with
                  | Some loaded => Ok (<[a := loaded]> accounts, {[ a ]} ∪ touched)
                  | None => Err tt end
    end = Ok (E := unit) (accounts1, {[ a ]} ∪ touched)) as (accounts1 & Hacc1 & ->).
  { destruct (accounts !! a) as [acc|] eqn:Hacc.
    - destruct (Hres a acc) as [loaded Hl]; [by left|done|]. rewrite Hl. eexists. split; [|done]. intros b.
      case_decide as Hb; [subst; by rewrite lookup_insert_eq, Hacc|by rewrite lookup_insert_ne by done].
    - exists accounts. split; [|done]. intros b. case_decide; [subst; by rewrite Hacc|done]. }
  cbn [mbind outcome_bind]. destruct (IH accounts1 ({[ a ]} ∪ touched)) as (accounts' & Hrun & Hacc').
  { intros b acc Hb. rewrite Hacc1. rewrite decide_False by (intros ->; done). apply Hres. by right. }
  exists accounts'. split; [rewrite Hrun; f_equal; f_equal; cbn; set_solver|].
  intros b. rewrite Hacc', Hacc1. destruct (decide (b = a)) as [->|Hne].
  - rewrite (decide_False (P := a ∈ l)) by done. by rewrite decide_True by by left.
  - destruct (decide (b ∈ l)); [by rewrite decide_True by by right|by rewrite decide_False by set_solver].
Qed.

(** C28 (postprocess, unloading, and load_changed_accounts): taking accounts out of the shard state is
    invisible: after an unloading round, loading the accounts a later block touches gives exactly
    the accounts that would have been loaded without it, and all other accounts stay as available
    as they were.  This holds for a round whose changed accounts are all in the shard state (none
    is external), when the accounts that are loaded could be loaded before it, and it is assumed
    that a cell which the round drops from the cache for its age is in the files: the code looks at
    the age only, and does not check that the service that writes the files has written it. *)
Theorem unloading_is_invisible repo changed_iter n block_accounts s changed cached u l :
  let all := gset_to_gmap n block_accounts ∪ changed in
  is_Some (ar_unload_after repo) → changed_iter all ≡ₚ map_to_list all →
  (∀ a acc, is_Some (all !! a) → shard_accounts s !! a = Some acc → is_external acc = false) →
  stored_before_drop repo cached (shard_accounts s) (ar_store_after repo) n →
  unload_accounts changed_iter (ar_unload_after repo) (ar_store_after repo) n block_accounts s changed cached = Ok u →
  NoDup l →
  (∀ a acc, a ∈ l → shard_accounts s !! a = Some acc → is_Some (resolve repo cached a acc)) →
  ∃ s', load_changed_accounts repo (ul_cached u) (ul_shard u) l = Ok (s', list_to_set l) ∧
    (∀ a, a ∈ l → shard_accounts s' !! a = shard_accounts s !! a ≫= resolve repo cached a) ∧
    (∀ a, a ∉ l → resolved repo (ul_cached u) (shard_accounts s') a = resolved repo cached (shard_accounts s) a).
Proof.
  intros all Hua Hperm Hloaded Hstored Hrun Hnd Hres. unfold unload_accounts in Hrun.
  destruct (ar_unload_after repo) as [ua|] eqn:Eua; [|by destruct Hua].
  fold all in Hrun. apply outcome_bind_Ok in Hrun as (kept & Hkept & Hrun).
  assert (∀ b, resolved repo (ul_cached u) (shard_accounts (ul_shard u)) b = resolved repo cached (shard_accounts s) b) as Hinv.
  { intros b.
    rewrite (unload_steps repo ua n (changed_iter all) (mkUnloading s ∅ (list_to_map kept) []) u).
    - cbn. by eapply drop_cached.
    - by rewrite Eua.
    - rewrite Hperm. apply NoDup_fst_map_to_list.
    - intros a acc Ha Hacc. cbn in Hacc. apply (Hloaded a); [|done].
      rewrite Hperm in Ha. apply list_elem_of_fmap in Ha as ([a' x] & -> & Hx%elem_of_map_to_list). by eexists.
    - exact Hrun. }
  assert (∀ a, shard_accounts (ul_shard u) !! a ≫= resolve repo (ul_cached u) a = shard_accounts s !! a ≫= resolve repo cached a)
    as Hbind.
  { intros a. specialize (Hinv a). unfold resolved in Hinv.
    destruct (shard_accounts (ul_shard u) !! a), (shard_accounts s !! a); cbn in *; congruence. }
  unfold load_changed_accounts.
  destruct (load_accounts_ok repo (ul_cached u) l (shard_accounts (ul_shard u)) ∅ ltac:(by rewrite Eua) Hnd)
    as (accounts' & -> & Hacc').
  { intros a acc Ha Hacc. specialize (Hinv a). unfold resolved in Hinv. rewrite Hacc in Hinv.
    destruct (shard_accounts s !! a) as [acc0|] eqn:Hacc0; [|done]. cbn in Hinv. injection Hinv as ->. by apply Hres. }
  cbn [mbind outcome_bind]. eexists. split; [by rewrite (right_id_L ∅ (∪))|]. cbn [shard_accounts]. split.
  - intros a Ha. rewrite Hacc', decide_True by done. apply Hbind.
  - intros a Ha. rewrite <- Hinv. unfold resolved. by rewrite Hacc', decide_False by done.
Qed.
End unload.

(** ** Examples *)
#[local] Existing Instance text_message.
#[local] Existing Instance text_bincode.
#[local] Existing Instance text_laws.
#[local] Existing Instance text_read.
#[local] Existing Instance dapp_account.

(** A block of the first thread sends a message to each account and moves alice to bob's dapp. *)
Definition bobs_state : TextState := text_state second_thread ∅ ThreadMessageQueueState_empty ∅.
Definition sent_texts : list (option string) := [Some (text "a" "1"); Some (text "b" "1"); Some (text "a" "2")].

Lemma block_messages_split_witness :
  ∃ d, get_data_for_postprocessing sent_texts [text "b" "9"] {[ alice := (Some (DAppId bob), 5%Z) ]} bobs_state
         (mkShard {[ alice := Some (DAppId bob) ]} ∅ 0) = Ok d ∧
    default [] (pd_current d !! bob) = [text_entry (text "b" "1")] ∧
    default [] (pd_other d !! get_account_routing bobs_state alice None) =
      [text_entry (text "a" "1"); text_entry (text "a" "2")] ∧
    pd_changed d !! Routing (DAppId bob) alice = Some (Some (alice, Some (DAppId bob))).
Proof.
  destruct names_wf as [Ha Hb].
  destruct (block_messages_split bobs_state sent_texts [text "b" "9"] {[ alice := (Some (DAppId bob), 5%Z) ]}
              (mkShard {[ alice := Some (DAppId bob) ]} ∅ 0)) as (d & Hrun & Hcur & Hoth & _ & _ & Hch).
  - exact two_threads_wf.
  - unfold sent_texts. repeat apply Forall_cons_2; try apply Forall_nil_2; eexists; (split; [reflexivity|]);
      intros a [= <-]; (split; [by eexists|]); by apply routing_wf_names.
  - apply Forall_singleton. intros _. by eexists.
  - intros a dapp lt Hc. apply lookup_singleton_Some in Hc as [<- _]. by eexists.
  - exists d. split; [exact Hrun|]. rewrite Hcur, Hoth. split; [vm_compute; reflexivity|].
    split; [vm_compute; reflexivity|]. apply Hch. exists (Some (DAppId bob), 5%Z). by split; vm_compute.
Defined.

(** The accounts of the example are texts; outside of the state only their hash is kept, which is
    the text itself. *)
#[local] Instance text_account : ShardAccount (string + string) string := {
  get_dapp_id _ := None;
  replace_with_external acc := match acc with inl body => Some (inr body, body) | inr _ => None end;
}.
#[local] Instance text_external : ExternalAccount (string + string) string := {
  is_external acc := match acc with inl _ => false | inr _ => true end;
  account_cell_hash acc := match acc with inl body | inr body => body end;
  repr_hash cell := cell;
  set_account_cell _ cell := inl cell;
  last_trans_hash acc := match acc with inl body | inr body => body end;
  last_trans_lt _ := 0%Z;
}.
#[local] Instance text_external_laws : ExternalLaws (string + string) string.
Proof. split; intros [body|body] ext cell Hr Hl; simpl in *; try done; by injection Hr as <- <-. Qed.

(** At block 10 an account changed by block 1 is unloaded, and the cell of an account unloaded
    at block 2 leaves the cache. *)
Definition text_repo : AccountsRepository string :=
  mkAccountsRepository {[ (bob, text "b" "0", 0%Z) := text "b" "0" ]} (Some 5%Z) 4 ∅.
Definition text_shard : ShardState (string + string) :=
  mkShard {[ alice := inl (text "a" "0"); bob := inr (text "b" "0") ]} ∅ 0.

Lemma text_unloaded :
  ∃ u, unload_accounts map_to_list (Some 5%Z) 4 10 ∅ text_shard {[ alice := 1%Z ]}
      {[ bob := (2%Z, text "b" "0") ]} = Ok u ∧
    shard_accounts (ul_shard u) !! alice = Some (inr (text "a" "0")) ∧ ul_cached u !! bob = None.
Proof. apply outcome_match_Ok. vm_compute. done. Qed.

Lemma unloading_is_invisible_witness :
  ∃ u s', unload_accounts map_to_list (Some 5%Z) 4 10 ∅ text_shard {[ alice := 1%Z ]}
      {[ bob := (2%Z, text "b" "0") ]} = Ok u ∧
    shard_accounts (ul_shard u) !! alice = Some (inr (text "a" "0")) ∧ ul_cached u !! bob = None ∧
    load_changed_accounts text_repo (ul_cached u) (ul_shard u) [alice; bob] = Ok (s', {[ alice; bob ]}) ∧
    shard_accounts s' !! alice = Some (inl (text "a" "0")) ∧ shard_accounts s' !! bob = Some (inl (text "b" "0")).
Proof.
  destruct text_unloaded as (u & Hu & Halice & Hbob).
  destruct (unloading_is_invisible text_repo map_to_list 10 ∅ text_shard {[ alice := 1%Z ]}
      {[ bob := (2%Z, text "b" "0") ]} u [alice; bob]) as (s' & Hload & Hin & _).
  - by eexists.
  - done.
  - intros a acc Hall Hacc. destruct (decide (a = alice)) as [->|Hne]; [vm_compute in Hacc; by injection Hacc as <-|].
    destruct Hall as [x Hx]. rewrite lookup_union, lookup_gset_to_gmap, lookup_singleton_ne in Hx by done.
    rewrite option_guard_False in Hx by set_solver. done.
  - intros a seq cell acc Hc _ Hacc. apply lookup_singleton_Some in Hc as [<- [= <- <-]].
    vm_compute in Hacc. injection Hacc as <-. vm_compute. reflexivity.
  - exact Hu.
  - apply (bool_decide_unpack _). vm_compute. exact I.
  - intros a acc Ha Hacc.
    apply elem_of_cons in Ha as [->|Ha%list_elem_of_singleton]; [|subst a];
      vm_compute in Hacc; injection Hacc as <-; vm_compute; by eexists.
  - exists u, s'. split; [exact Hu|]. split; [exact Halice|]. split; [exact Hbob|].
    split; [rewrite Hload; f_equal; f_equal; cbn [list_to_set]; by rewrite (right_id_L ∅ (∪))|].
    rewrite !Hin by (by left || by right; left). split; vm_compute; reflexivity.
Defined.

(** The messages for the storage are joined by [extend], which replaces: a message that was settled
    from another thread is not written when the block also sends a message to its account. *)
Lemma settled_messages_replaced :
  all_added_messages {[ alice := [text_entry (text "a" "1")] ]} {[ alice := [text_entry (text "a" "2")] ]} [] !! alice =
  Some [text_entry (text "a" "2")].
Proof. vm_compute. reflexivity. Qed.
