(* ===== verification/LoadBalancing.v ===== *)
(** * Load balancing between threads

    Models [multithreading/load_balancing_service/], [multithreading/threads_tracking_service/],
    [multithreading/thread_synchrinization_service.rs] and [on_block_finalized] of
    [node/shared_services.rs].

    For every thread the service keeps the load of the latest finalized blocks in a window:
    the length of the message queue, and for each bit of a routing the number of messages
    whose destination has a zero there.  The producer of a block asks the service to
    [check] its thread; when the thread is the most loaded one, it may be split at the bit
    that divides its messages best. *)
From stdpp Require Import base numbers gmap strings fin_maps list.
From S2P Require Import Prelude Identifiers Bitmask FixedCache ThreadRefs MessageStore MessageRange MessageQueue CrossThread.

(** ** InThreadAccountsLoad *)
(** [MAX_ROUTE_PART_SPLIT] without the feature that allows to split a dapp. *)
Definition MAX_ROUTE_PART_SPLIT : nat := 1.

(** The two arrays of 256 counters are one list of 512. *)
Record InThreadAccountsLoad := mkAccountsLoad {
  total_transactions_count : Z;
  zero_bits_count : list Z;
}.
Definition InThreadAccountsLoad_default : InThreadAccountsLoad := mkAccountsLoad 0 (replicate 512 0%Z).

(** What is read of an incoming message: its destination and the dapp of its source. *)
Record InMsg := mkInMsg { in_dst : option AccountAddress; in_src_dapp_id : option DAppIdentifier }.

Definition msg_route (dapps : DAppIdTable) (m : InMsg) : option AccountRouting :=
  in_dst m ≫= λ destination,
  match (dapps !! destination ≫= fst) with
  | Some dapp_id => Some (Routing dapp_id destination)
  | None => (λ dapp_id, Routing dapp_id destination) <$> in_src_dapp_id m
  end.

Definition count_route (l : InThreadAccountsLoad) (r : AccountRouting) : outcome unit InThreadAccountsLoad :=
  map_outcome (checked 32)
    (zip_with (λ (c : Z) (bit : bool), if bit then c else (c + 1)%Z) (zero_bits_count l)
       (concat (AccountRouting_to_bits r))) ≫= λ counts,
  checked_i64 (total_transactions_count l + 1) ≫= λ total, Ok (mkAccountsLoad total counts).

(** Messages that cannot be read ([None]) are skipped. *)
Definition InThreadAccountsLoad_append_from (l : InThreadAccountsLoad) (dapps : DAppIdTable)
    (in_msgs : list (option InMsg)) : outcome unit InThreadAccountsLoad :=
  fold_outcome (λ l m, match m ≫= msg_route dapps with Some r => count_route l r | None => Ok l end) l in_msgs.

Definition InThreadAccountsLoad_new_from (dapps : DAppIdTable) (in_msgs : list (option InMsg)) :
    outcome unit InThreadAccountsLoad :=
  InThreadAccountsLoad_append_from InThreadAccountsLoad_default dapps in_msgs.

Definition add_in_place (l other : InThreadAccountsLoad) : outcome unit InThreadAccountsLoad :=
  map_outcome (checked 32) (zip_with Z.add (zero_bits_count l) (zero_bits_count other)) ≫= λ counts,
  checked_i64 (total_transactions_count l + total_transactions_count other) ≫= λ total,
  Ok (mkAccountsLoad total counts).
Definition sub_in_place (l other : InThreadAccountsLoad) : outcome unit InThreadAccountsLoad :=
  map_outcome (checked 32) (zip_with Z.sub (zero_bits_count l) (zero_bits_count other)) ≫= λ counts,
  checked_i64 (total_transactions_count l - total_transactions_count other) ≫= λ total,
  Ok (mkAccountsLoad total counts).

(** One bit of [best_split]; the state is the best distance so far with its bit. *)
Definition try_bit (l : InThreadAccountsLoad) (meaningful : list bool) (best : option (Z * nat)) (i : nat) :
    outcome unit (option (Z * nat)) :=
  unwrap (zero_bits_count l !! i) ≫= λ zeros,
  checked_i64 (total_transactions_count l - zeros) ≫= λ ones,
  if bool_decide (zeros = 0%Z) || bool_decide (ones = 0%Z) then Ok best else
  unwrap (meaningful !! i) ≫= λ taken : bool,
  if taken then Ok best else
  checked_i64 (ones - zeros) ≫= λ diff,
  checked_i64 (Z.abs diff) ≫= λ distance,
  match best with
  | Some (best_distance, _) =>
      if bool_decide (distance < best_distance)%Z then Ok (Some (distance, i)) else Ok best
  | None => Ok (Some (distance, i))
  end.

Definition best_split (l : InThreadAccountsLoad) (current : Bitmask AccountRouting) :
    outcome unit (option (Bitmask AccountRouting)) :=
  fold_outcome (try_bit l (concat (AccountRouting_to_bits (meaningful_mask_bits current)))) None
    (seq 0 (MAX_ROUTE_PART_SPLIT * 256)) ≫= λ best,
  match best with
  | None => Ok None
  | Some (_, i) =>
      AccountRouting_set_bit_value (meaningful_mask_bits current) i true ≫= λ meaningful,
      AccountRouting_set_bit_value (mask_bits current) i true ≫= λ bits,
      Ok (Some (mkBitmask bits meaningful))
  end.

(** ** AggregatedLoad *)
Abbreviation BlockLoad := (Z * InThreadAccountsLoad)%type.

Record AggregatedLoad := mkAggregated {
  window : list BlockLoad;
  al_cursor : nat;
  aggregated_value : BlockLoad;
  is_filled : bool;
  window_size : nat;
}.

Definition AggregatedLoad_new (size : nat) : AggregatedLoad :=
  mkAggregated (replicate size (0%Z, InThreadAccountsLoad_default)) 0 (0%Z, InThreadAccountsLoad_default)
    false size.
Definition AggregatedLoad_is_ready (a : AggregatedLoad) : bool := is_filled a.
Definition AggregatedLoad_reset (a : AggregatedLoad) : AggregatedLoad :=
  mkAggregated (window a) 0 (aggregated_value a) false (window_size a).
Definition load_value (a : AggregatedLoad) : Z := (aggregated_value a).1.
Definition propose_new_bitmask (a : AggregatedLoad) (current : Bitmask AccountRouting) :
    outcome unit (option (Bitmask AccountRouting)) := best_split (aggregated_value a).2 current.

(** [append_from] for the queue length and the accounts load of a block. *)
Definition append_load (a : AggregatedLoad) (new : BlockLoad) : outcome unit AggregatedLoad :=
  let cursor := Datatypes.S (al_cursor a) in
  let filled := if bool_decide (window_size a ≤ cursor) then true else is_filled a in
  let cursor := if bool_decide (window_size a ≤ cursor) then 0 else cursor in
  unwrap (window a !! cursor) ≫= λ prev,
  checked 64 ((aggregated_value a).1 + new.1) ≫= λ sum,
  checked 64 (sum - prev.1) ≫= λ sum,
  add_in_place (aggregated_value a).2 new.2 ≫= λ accounts,
  sub_in_place accounts prev.2 ≫= λ accounts,
  Ok (mkAggregated (<[cursor := new]> (window a)) cursor (sum, accounts) filled (window_size a)).

(** ** The service *)
Definition MAX_LOAD_DISPROPORTION : Z := 2.

Inductive ThreadAction :=
  | ContinueAsIs
  | Split (proposed_threads_table : ThreadsTable)
  | Collapse (proposed_threads_table : ThreadsTable).
Inductive CheckError := StatsAreNotReady | ThreadIsNotInTheTable.

Record LoadBalancingService := mkBalancer {
  thread_load_map : gmap ThreadIdentifier AggregatedLoad;
  lb_window_size : nat;
  load_threshold : Z;
}.
Definition LoadBalancingService_start (size : nat) (threshold : Z) : LoadBalancingService :=
  mkBalancer ∅ size threshold.
Definition set_load (s : LoadBalancingService) (t : ThreadIdentifier) (a : AggregatedLoad) :
    LoadBalancingService :=
  mkBalancer (<[t := a]> (thread_load_map s)) (lb_window_size s) (load_threshold s).

Definition read_load (s : LoadBalancingService) (t : ThreadIdentifier) : outcome CheckError Z :=
  ok_or (thread_load_map s !! t) StatsAreNotReady ≫= λ load,
  ensure (AggregatedLoad_is_ready load) StatsAreNotReady ≫= λ _, Ok (load_value load).

(** [try_threads_merge] without the feature that allows merging. *)
Definition try_threads_merge : outcome CheckError ThreadAction := Ok ContinueAsIs.

Definition try_threads_split (produced_block_id : BlockIdentifier) (this_thread : ThreadIdentifier)
    (row_index : nat) (load : AggregatedLoad) (bitmask : Bitmask AccountRouting) (max_load min_load : Z)
    (max_thread : ThreadIdentifier) (table : ThreadsTable) (max_table_size : nat) :
    outcome CheckError ThreadAction :=
  if bool_decide (max_thread ≠ this_thread) then Ok ContinueAsIs else
  (if bool_decide (max_table_size ≤ length table)
   then checked 64 (MAX_LOAD_DISPROPORTION * min_load) ≫= λ bound, Ok (bool_decide (max_load ≤ bound)%Z)
   else Ok false) ≫= λ even : bool,
  if even then Ok ContinueAsIs else
  unwrap_ok (propose_new_bitmask load bitmask) ≫= λ proposed,
  match proposed with
  | None => Ok ContinueAsIs
  | Some mask =>
      if existsb (λ r : ThreadsRow, bool_decide (r.1 = mask)) table then Ok ContinueAsIs else
      unwrap_ok (BitmasksTable_insert_above table row_index mask (ThreadIdentifier_new produced_block_id 0))
        ≫= λ table, Ok (Split table)
  end.

(** What the loop of [check] collects. *)
Record Scan := mkScan {
  min_load : Z;
  max_load : Z;
  max_load_thread_id : ThreadIdentifier;
  this_row : option (nat * Bitmask AccountRouting);
}.

Definition scan_row (s : LoadBalancingService) (this_thread : ThreadIdentifier) (sc : Scan)
    (e : nat * ThreadsRow) : Scan :=
  let '(i, (bitmask, thread)) := e in
  match read_load s thread with
  | Ok load =>
      let '(max, max_id) :=
        if bool_decide (max_load sc < load)%Z then (load, thread) else (max_load sc, max_load_thread_id sc) in
      mkScan (if bool_decide (load ≤ min_load sc)%Z then load else min_load sc) max max_id
        (if bool_decide (thread = this_thread) then Some (i, bitmask) else this_row sc)
  | _ => sc
  end.

Definition check (s : LoadBalancingService) (block : BlockIdentifier) (this_thread : ThreadIdentifier)
    (table : ThreadsTable) (max_table_size : nat) : outcome CheckError (LoadBalancingService * ThreadAction) :=
  assert_that (bool_decide (0 < max_table_size)) ≫= λ _,
  read_load s this_thread ≫= λ current_load,
  let sc := foldl (scan_row s this_thread) (mkScan current_load current_load this_thread None)
              (imap pair table) in
  ok_or (this_row sc) ThreadIsNotInTheTable ≫= λ '(row_index, bitmask),
  if bool_decide (max_table_size < length table) then
    try_threads_merge ≫= λ action, Ok (s, action)
  else if bool_decide (load_threshold s ≤ max_load sc)%Z then
    ok_or (thread_load_map s !! this_thread) ThreadIsNotInTheTable ≫= λ load,
    try_threads_split block this_thread row_index load bitmask (max_load sc) (min_load sc)
      (max_load_thread_id sc) table max_table_size ≫= λ action,
    Ok (set_load s this_thread (AggregatedLoad_reset load), action)
  else Ok (s, ContinueAsIs).

Section finalized.
Context {K M Acc Cell Info : Type} `{Countable K}.
Implicit Types (o : OptimisticState K M Acc Cell Info).

Definition get_internal_message_queue_length o : Z := Z.of_nat (ThreadMessageQueueState_length (os_messages o)).

(** What the services read of a finalized block. *)
Record FinalizedBlock := mkFinalized {
  fb_identifier : BlockIdentifier;
  fb_thread_id : ThreadIdentifier;
  fb_threads_table : option ThreadsTable;
  fb_in_msgs : list (option InMsg);
}.
Implicit Types (b : FinalizedBlock) (s : LoadBalancingService).

Definition AggregatedLoad_append_from (a : AggregatedLoad) b o : outcome unit AggregatedLoad :=
  InThreadAccountsLoad_new_from (os_dapp_id_table o) (fb_in_msgs b) ≫= λ accounts,
  append_load a (get_internal_message_queue_length o, accounts).

Definition spawns b : bool :=
  match fb_threads_table b with
  | Some table => existsb (λ r : ThreadsRow, ThreadIdentifier_is_spawning_block r.2 (fb_identifier b)) table
  | None => false
  end.

Definition LoadBalancingService_handle_block_finalized s b o : outcome unit LoadBalancingService :=
  match thread_load_map s !! fb_thread_id b with
  | Some load =>
      if spawns b then Ok (set_load s (fb_thread_id b) (AggregatedLoad_reset load))
      else AggregatedLoad_append_from load b o ≫= λ load, Ok (set_load s (fb_thread_id b) load)
  | None => Panic
  end.
End finalized.

(** ** Subscribers of the threads tracking service *)
Class Subscriber (S : Type) := {
  handle_start_thread : S → BlockIdentifier → ThreadIdentifier → option ThreadsTable → S;
  handle_stop_thread : S → BlockIdentifier → ThreadIdentifier → S;
}.
#[global] Instance tuple_subscriber {A B} `{Subscriber A, Subscriber B} : Subscriber (A * B) := {
  handle_start_thread s b t table :=
    (handle_start_thread s.1 b t table, handle_start_thread s.2 b t table);
  handle_stop_thread s b t := (handle_stop_thread s.1 b t, handle_stop_thread s.2 b t);
}.

(** The thread below the first row of a thread. *)
Fixpoint row_below (t : ThreadIdentifier) (table : ThreadsTable) : option ThreadIdentifier :=
  match table with
  | [] => None
  | r :: rest => if bool_decide (r.2 = t) then snd <$> head rest else row_below t rest
  end.

Definition balancer_start_thread (s : LoadBalancingService) (_ : BlockIdentifier) (t : ThreadIdentifier)
    (table : option ThreadsTable) : LoadBalancingService :=
  let s :=
    match table ≫= row_below t with
    | Some parent =>
        match thread_load_map s !! parent with
        | Some load => set_load s parent (AggregatedLoad_reset load)
        | None => s
        end
    | None => s
    end in
  set_load s t (AggregatedLoad_new (lb_window_size s)).
Definition balancer_stop_thread (s : LoadBalancingService) (_ : BlockIdentifier) (t : ThreadIdentifier) :
    LoadBalancingService :=
  mkBalancer (delete t (thread_load_map s)) (lb_window_size s) (load_threshold s).
#[global] Instance balancer_subscriber : Subscriber LoadBalancingService := {
  handle_start_thread := balancer_start_thread;
  handle_stop_thread := balancer_stop_thread;
}.

Section tracking.
Context {S : Type} `{Subscriber S}.
(** The order in which a set of threads is visited. *)
Variable thread_iter : gset ThreadIdentifier → list ThreadIdentifier.

Definition init_thread (b : BlockIdentifier) (threads : gset ThreadIdentifier) (s : S) : S :=
  foldl (λ s t, handle_start_thread s b t None) s (thread_iter threads).

Definition tracking_handle_block_finalized (b : BlockIdentifier) (t : ThreadIdentifier) (table : ThreadsTable)
    (s : S) : S :=
  let this_table := thread_iter (ThreadsTable_list_threads table) in
  let new_threads := filter (λ t, ThreadIdentifier_is_spawning_block t b = true) this_table in
  let s := foldl (λ s t, handle_start_thread s b t (Some table)) s new_threads in
  if bool_decide (t ∈ this_table) then s else handle_stop_thread s b t.
End tracking.

(** ** The container of shared services *)
Abbreviation ThreadSyncService := (gmap ThreadIdentifier BlockIdentifier).
Definition thread_sync_on_block_finalized (s : ThreadSyncService) (b : BlockIdentifier) (t : ThreadIdentifier) :
    ThreadSyncService := <[t := b]> s.
Definition list_blocks_sending_messages_to_thread (s : ThreadSyncService) (t : ThreadIdentifier) :
    list (ThreadIdentifier * BlockIdentifier) := filter (λ e, e.1 ≠ t) (map_to_list s).

Section container.
Context {K M Acc Cell Info Router : Type} `{Countable K} `{Subscriber Router}.
Variable thread_iter : gset ThreadIdentifier → list ThreadIdentifier.

Record Container := mkContainer {
  thread_sync : ThreadSyncService;
  load_balancing : LoadBalancingService;
  router : Router;
  finalized_blocks : FixedSizeHashSet BlockIdentifier;
}.

Definition shared_on_block_finalized (c : Container) (b : FinalizedBlock)
    (o : OptimisticState K M Acc Cell Info) : outcome unit Container :=
  if FixedSizeHashSet_contains (finalized_blocks c) (fb_identifier b) then Ok c else
  FixedSizeHashSet_insert (finalized_blocks c) (fb_identifier b) ≫= λ seen,
  let sync := thread_sync_on_block_finalized (thread_sync c) (fb_identifier b) (fb_thread_id b) in
  let '(router, balancer) :=
    tracking_handle_block_finalized thread_iter (fb_identifier b) (fb_thread_id b) (os_threads_table o)
      (router c, load_balancing c) in
  LoadBalancingService_handle_block_finalized balancer b o ≫= λ balancer,
  Ok (mkContainer sync balancer router seen).
End container.
Arguments Container Router : clear implicits.
Arguments mkContainer {Router} _ _ _ _.

(** ** The window is a sliding window *)
Definition zsum (l : list Z) : Z := foldr Z.add 0%Z l.
#[global] Instance zsum_perm : Proper ((≡ₚ) ==> (=)) zsum.
Proof. intros l l' Hl. unfold zsum. induction Hl; simpl; lia. Qed.
Lemma zsum_app l1 l2 : zsum (l1 ++ l2) = (zsum l1 + zsum l2)%Z.
Proof. unfold zsum. induction l1; simpl; lia. Qed.
Lemma zsum_insert l i x y : l !! i = Some y → zsum (<[i := x]> l) = (zsum l + x - y)%Z.
Proof.
  unfold zsum. revert i. induction l as [|z l IH]; intros [|i] Hi; simpl in *; try done.
  - injection Hi as ->. lia.
  - rewrite (IH i Hi). lia.
Qed.
Lemma zsum_bounds l m : Forall (λ z, 0 ≤ z ≤ m)%Z l → (0 ≤ zsum l ≤ Z.of_nat (length l) * m)%Z.
Proof. unfold zsum. induction 1; simpl; lia. Qed.

Section window.
Implicit Types (a : AggregatedLoad) (e : BlockLoad) (h : list BlockLoad) (k : nat).

(** The quantities that are summed over the window. *)
Definition queue_of e : Z := e.1.
Definition total_of e : Z := total_transactions_count e.2.
Definition zeros_at k e : Z := nth k (zero_bits_count e.2) 0%Z.

(** A load whose counters stay below the given bounds. *)
Definition load_wf (qmax cmax : Z) e : Prop :=
  (0 ≤ queue_of e ≤ qmax)%Z ∧ (0 ≤ total_of e ≤ cmax)%Z ∧
  length (zero_bits_count e.2) = 512 ∧ ∀ k, (0 ≤ zeros_at k e ≤ cmax)%Z.

(** The aggregated value holds the sums over the list. *)
Definition sums_of (v : BlockLoad) h : Prop :=
  queue_of v = zsum (queue_of <$> h) ∧ total_of v = zsum (total_of <$> h) ∧
  length (zero_bits_count v.2) = 512 ∧ ∀ k, zeros_at k v = zsum (zeros_at k <$> h).

#[global] Instance sums_of_perm v : Proper ((≡ₚ) ==> iff) (sums_of v).
Proof.
  intros h h' Hp. unfold sums_of. rewrite Hp. do 2 apply and_iff_compat_l. apply and_iff_compat_l.
  split; intros Hk k; rewrite (Hk k); by rewrite Hp.
Qed.

Lemma nth_zip_with (f : Z → Z → Z) l1 l2 k : length l1 = length l2 → f 0%Z 0%Z = 0%Z →
  nth k (zip_with f l1 l2) 0%Z = f (nth k l1 0%Z) (nth k l2 0%Z).
Proof.
  intros Hlen Hf. revert l2 k Hlen. induction l1 as [|x l1 IH]; intros [|y l2] [|k]; simpl; try done.
  intros [= Hlen]. by apply IH.
Qed.

Lemma checked_ok {E} w z : (0 ≤ z < 2 ^ w)%Z → checked (E := E) w z = Ok z.
Proof. intros. unfold checked. by rewrite decide_True. Qed.

Lemma map_checked_ok w l : Forall (in_width w) l → map_outcome (E := unit) (checked w) l = Ok l.
Proof.
  induction 1 as [|x l Hx Hl IH]; [done|]. cbn [map_outcome]. rewrite checked_ok by done.
  cbn [mbind outcome_bind]. by rewrite IH.
Qed.

Lemma zip_with_checked (f : Z → Z → Z) l1 l2 : length l1 = length l2 →
  (∀ k, (k < length l1)%nat → in_width 32 (f (nth k l1 0%Z) (nth k l2 0%Z))) →
  map_outcome (E := unit) (checked 32) (zip_with f l1 l2) = Ok (zip_with f l1 l2).
Proof.
  intros Hlen Hall. apply map_checked_ok. revert l2 Hlen Hall.
  induction l1 as [|x l1 IH]; intros [|y l2]; simpl; try done. intros [= Hlen] Hall. constructor.
  - apply (Hall 0). lia.
  - apply IH; [done|]. intros k Hk. apply (Hall (Datatypes.S k)). lia.
Qed.

Lemma checked_i64_ok {E} z : (- 2 ^ 63 ≤ z < 2 ^ 63)%Z → checked_i64 (E := E) z = Ok z.
Proof. intros. unfold checked_i64. by rewrite bool_decide_eq_true_2. Qed.

Lemma add_load_ok (l l' : InThreadAccountsLoad) : length (zero_bits_count l) = 512 → length (zero_bits_count l') = 512 →
  (∀ k, 0 ≤ nth k (zero_bits_count l) 0 + nth k (zero_bits_count l') 0 < 2 ^ 32)%Z →
  (0 ≤ total_transactions_count l + total_transactions_count l' < 2 ^ 63)%Z →
  add_in_place l l' = Ok (mkAccountsLoad (total_transactions_count l + total_transactions_count l')
    (zip_with Z.add (zero_bits_count l) (zero_bits_count l'))).
Proof.
  intros H1 H2 Hk Ht. unfold add_in_place.
  rewrite zip_with_checked by (congruence || intros; apply Hk). cbn [mbind outcome_bind].
  by rewrite checked_i64_ok by lia.
Qed.
Lemma sub_load_ok (l l' : InThreadAccountsLoad) : length (zero_bits_count l) = 512 → length (zero_bits_count l') = 512 →
  (∀ k, 0 ≤ nth k (zero_bits_count l) 0 - nth k (zero_bits_count l') 0 < 2 ^ 32)%Z →
  (0 ≤ total_transactions_count l - total_transactions_count l' < 2 ^ 63)%Z →
  sub_in_place l l' = Ok (mkAccountsLoad (total_transactions_count l - total_transactions_count l')
    (zip_with Z.sub (zero_bits_count l) (zero_bits_count l'))).
Proof.
  intros H1 H2 Hk Ht. unfold sub_in_place.
  rewrite zip_with_checked by (congruence || intros; apply Hk). cbn [mbind outcome_bind].
  by rewrite checked_i64_ok by lia.
Qed.

(** *** The ring: the window from its oldest entry *)
Definition oldest_first a : list BlockLoad :=
  drop (Datatypes.S (al_cursor a)) (window a) ++ take (Datatypes.S (al_cursor a)) (window a).

(** The window after the loads [h] since the last reset. *)
Record window_ok (qmax cmax : Z) a h : Prop := {
  wo_size : 0 < window_size a;
  wo_len : length (window a) = window_size a;
  wo_sums : sums_of (aggregated_value a) (window a);
  wo_wf : Forall (load_wf qmax cmax) (window a);
  wo_cursor : al_cursor a = length h `mod` window_size a;
  wo_filled : is_filled a = bool_decide (window_size a ≤ length h);
  wo_ring : ∃ g, length g = window_size a ∧ oldest_first a = drop (length h) (g ++ h);
}.

Lemma next_cursor n w : 0 < w →
  (if bool_decide (w ≤ Datatypes.S (n `mod` w)) then 0 else Datatypes.S (n `mod` w)) = Datatypes.S n `mod` w ∧
  ((if bool_decide (w ≤ Datatypes.S (n `mod` w)) then true else bool_decide (w ≤ n)) = bool_decide (w ≤ Datatypes.S n)).
Proof.
  intros Hw. pose proof (Nat.mod_upper_bound n w ltac:(lia)). pose proof (Nat.div_mod n w ltac:(lia)) as Hn.
  split.
  - case_bool_decide.
    + apply Nat.mod_unique with (q := Datatypes.S (n / w)); [lia|]. nia.
    + apply Nat.mod_unique with (q := n / w); [lia|]. nia.
  - case_bool_decide as H1; [by rewrite bool_decide_eq_true_2 by nia|]. apply bool_decide_ext. split; [lia|].
    intros ?. destruct (decide (w ≤ n)); [done|]. exfalso. rewrite Nat.mod_small in H1 by lia. lia.
Qed.

Lemma oldest_first_insert (W : list BlockLoad) c e : c < length W →
  let c' := if bool_decide (length W ≤ Datatypes.S c) then 0 else Datatypes.S c in
  drop (Datatypes.S c') (<[c' := e]> W) ++ take (Datatypes.S c') (<[c' := e]> W) =
  tail (drop (Datatypes.S c) W ++ take (Datatypes.S c) W) ++ [e].
Proof.
  intros Hc c'. subst c'. case_bool_decide as Hw.
  - assert (Datatypes.S c = length W) as -> by lia. rewrite drop_all, firstn_all.
    destruct W as [|x W]; [simpl in Hc; lia|]. done.
  - destruct (lookup_lt_is_Some_2 W (Datatypes.S c)) as [prev Hp]; [lia|].
    rewrite (drop_S _ _ _ Hp). simpl tail. rewrite drop_insert_lt by lia.
    rewrite (take_S_r (<[Datatypes.S c := e]> W) (Datatypes.S c) e) by (apply list_lookup_insert_eq; lia).
    rewrite take_insert_ge by lia. by rewrite app_assoc.
Qed.

Lemma sums_of_insert v h i e prev : h !! i = Some prev → sums_of v h →
  length (zero_bits_count e.2) = 512 → length (zero_bits_count prev.2) = 512 →
  sums_of (queue_of v + queue_of e - queue_of prev, mkAccountsLoad (total_of v + total_of e - total_of prev)
             (zip_with Z.sub (zip_with Z.add (zero_bits_count v.2) (zero_bits_count e.2)) (zero_bits_count prev.2)))%Z
    (<[i := e]> h).
Proof.
  intros Hi (Hq & Ht & Hlen & Hz) He Hp.
  assert (∀ f : BlockLoad → Z, zsum (f <$> <[i := e]> h) = (zsum (f <$> h) + f e - f prev)%Z) as Hins.
  { intros f. rewrite list_fmap_insert. apply zsum_insert. by rewrite list_lookup_fmap, Hi. }
  unfold sums_of. cbn [queue_of total_of fst snd total_transactions_count zero_bits_count].
  rewrite !Hins. split; [unfold queue_of in *; simpl in *; lia|]. split; [unfold total_of in *; simpl in *; lia|].
  split; [rewrite !length_zip_with; lia|]. intros k. rewrite Hins, <- Hz. unfold zeros_at at 1. cbn [snd zero_bits_count].
  rewrite !nth_zip_with by (done || rewrite ?length_zip_with; lia). unfold zeros_at. lia.
Qed.

Lemma sums_bounds qmax cmax v h : sums_of v h → Forall (load_wf qmax cmax) h →
  (0 ≤ queue_of v ≤ Z.of_nat (length h) * qmax)%Z ∧ (0 ≤ total_of v ≤ Z.of_nat (length h) * cmax)%Z ∧
  (∀ k, 0 ≤ zeros_at k v ≤ Z.of_nat (length h) * cmax)%Z.
Proof.
  intros (Hq & Ht & _ & Hz) Hwf.
  assert (∀ (f : BlockLoad → Z) m, (∀ e, load_wf qmax cmax e → 0 ≤ f e ≤ m)%Z →
    (0 ≤ zsum (f <$> h) ≤ Z.of_nat (length h) * m)%Z) as Hb.
  { intros f m Hf. rewrite <- (length_fmap f h). apply zsum_bounds, Forall_fmap. eapply Forall_impl; [done|]. intros e He. by apply Hf. }
  rewrite Hq, Ht. split; [apply Hb; by intros e (? & _)|]. split; [apply Hb; by intros e (_ & ? & _)|].
  intros k. rewrite Hz. apply Hb. intros e (_ & _ & _ & He). apply He.
Qed.

(** No counter underflows; none overflows as long as one more block fits. *)
Lemma append_load_ok qmax cmax a h e : window_ok qmax cmax a h → load_wf qmax cmax e →
  ((Z.of_nat (window_size a) + 1) * qmax < 2 ^ 64)%Z → ((Z.of_nat (window_size a) + 1) * cmax < 2 ^ 32)%Z →
  ∃ a', append_load a e = Ok a' ∧ window_ok qmax cmax a' (h ++ [e]) ∧ window_size a' = window_size a.
Proof.
  intros [Hw Hlen Hsums Hwf Hc Hf (g & Hg & Hring)] He Hq64 Hc32. unfold append_load.
  destruct (next_cursor (length h) (window_size a) Hw) as [Hcur Hfill]. rewrite <- Hc in Hcur, Hfill. rewrite <- Hf in Hfill.
  rewrite Hcur, Hfill. set (c' := Datatypes.S (length h) `mod` window_size a) in *.
  assert (c' < window_size a) as Hc' by (apply Nat.mod_upper_bound; lia).
  destruct (lookup_lt_is_Some_2 (window a) c') as [prev Hprev]; [lia|]. rewrite Hprev. cbn [unwrap mbind outcome_bind].
  assert (load_wf qmax cmax prev) as Hpw by (eapply Forall_lookup_1; eauto).
  pose proof (sums_of_insert _ _ _ e _ Hprev Hsums (proj1 (proj2 (proj2 He))) (proj1 (proj2 (proj2 Hpw)))) as Hnew.
  assert (Forall (load_wf qmax cmax) (<[c' := e]> (window a))) as Hwf' by by apply Forall_insert.
  destruct (sums_bounds _ _ _ _ Hnew Hwf') as (Bq & Bt & Bk). destruct (sums_bounds _ _ _ _ Hsums Hwf) as (Aq & At & Ak).
  rewrite length_insert, Hlen in *. destruct He as (He1 & He2 & He3 & He4), Hpw as (Hp1 & Hp2 & Hp3 & Hp4).
  destruct Hsums as (_ & _ & Hl512 & _).
  unfold queue_of, total_of in *. cbn [fst snd total_transactions_count zero_bits_count] in *.
  rewrite checked_ok by lia. cbn [mbind outcome_bind]. rewrite checked_ok by lia. cbn [mbind outcome_bind].
  rewrite add_load_ok; [|done|done| |lia]; last first.
  { intros k. specialize (Ak k). specialize (He4 k). unfold zeros_at in *. lia. }
  cbn [mbind outcome_bind]. rewrite sub_load_ok; cbn [total_transactions_count zero_bits_count];
    [|rewrite length_zip_with; lia|done| |lia]; last first.
  { intros k. specialize (Bk k). unfold zeros_at in Bk. cbn [snd zero_bits_count] in Bk.
    rewrite nth_zip_with in Bk by (done || rewrite length_zip_with; lia). lia. }
  cbn [mbind outcome_bind]. eexists. split; [done|]. split; [|done]. split; cbn [window al_cursor aggregated_value is_filled window_size].
  - done.
  - by rewrite length_insert.
  - exact Hnew.
  - exact Hwf'.
  - unfold c'. by rewrite length_app, Nat.add_1_r.
  - by rewrite length_app, Nat.add_1_r.
  - exists g. split; [done|]. unfold oldest_first. cbn [window al_cursor].
    pose proof (oldest_first_insert (window a) (al_cursor a) e) as Hof. rewrite Hlen, Hcur in Hof. cbn zeta in Hof.
    rewrite Hof by (rewrite Hc; apply Nat.mod_upper_bound; lia).
    unfold oldest_first in Hring. rewrite Hring. rewrite length_app, Nat.add_1_r, app_assoc.
    rewrite (drop_app_le (g ++ h) [e]) by (rewrite length_app; lia). f_equal.
    destruct (drop (length h) (g ++ h)) as [|x rest] eqn:Hd.
    { apply (f_equal length) in Hd. rewrite length_drop, length_app in Hd. simpl in Hd. lia. }
    simpl. by rewrite <- Nat.add_1_r, <- drop_drop, Hd.
Qed.

Lemma default_load_wf qmax cmax : (0 ≤ qmax)%Z → (0 ≤ cmax)%Z →
  load_wf qmax cmax (0%Z, InThreadAccountsLoad_default).
Proof.
  intros Hq Hc. unfold load_wf, queue_of, total_of.
  cbn [fst snd total_transactions_count zero_bits_count InThreadAccountsLoad_default].
  split; [lia|]. split; [lia|]. split; [by rewrite length_replicate|]. intros k.
  unfold zeros_at. cbn [snd zero_bits_count InThreadAccountsLoad_default].
  destruct (decide (k < 512)).
  - rewrite nth_lookup, lookup_replicate_2 by done. simpl. lia.
  - rewrite nth_overflow by (rewrite length_replicate; lia). lia.
Qed.

Lemma zsum_zeros {A} (f : A → Z) x n : f x = 0%Z → zsum (f <$> replicate n x) = 0%Z.
Proof. intros Hx. rewrite fmap_replicate, Hx. unfold zsum. induction n; simpl; lia. Qed.

Lemma new_window_ok qmax cmax w : 0 < w → (0 ≤ qmax)%Z → (0 ≤ cmax)%Z →
  window_ok qmax cmax (AggregatedLoad_new w) [].
Proof.
  intros Hw Hq Hc. pose proof (default_load_wf 0 0 ltac:(lia) ltac:(lia)) as (D1 & D2 & D3 & D4).
  split; cbn [AggregatedLoad_new window al_cursor aggregated_value is_filled window_size length].
  - done.
  - by rewrite length_replicate.
  - split; [by rewrite zsum_zeros|]. split; [by rewrite zsum_zeros|]. split; [done|]. intros k.
    specialize (D4 k). rewrite zsum_zeros; lia.
  - apply Forall_replicate. by apply default_load_wf.
  - by rewrite Nat.Div0.mod_0_l.
  - symmetry. apply bool_decide_eq_false. lia.
  - exists (oldest_first (AggregatedLoad_new w)). rewrite app_nil_r, drop_0. split; [|done].
    unfold oldest_first. rewrite length_app, length_drop, length_take.
    cbn [AggregatedLoad_new window al_cursor window_size]. rewrite length_replicate. lia.
Qed.

Lemma reset_window_ok qmax cmax a h : window_ok qmax cmax a h → window_ok qmax cmax (AggregatedLoad_reset a) [].
Proof.
  intros [Hw Hlen Hsums Hwf Hc Hf _].
  split; cbn [AggregatedLoad_reset window al_cursor aggregated_value is_filled window_size length]; try done.
  - by rewrite Nat.Div0.mod_0_l.
  - symmetry. apply bool_decide_eq_false. lia.
  - exists (oldest_first (AggregatedLoad_reset a)). rewrite app_nil_r, drop_0. split; [|done].
    unfold oldest_first. rewrite length_app, length_drop, length_take.
    cbn [AggregatedLoad_reset window al_cursor window_size]. lia.
Qed.

Inductive LoadOp := Append (e : BlockLoad) | Reset.
Definition run_op a (op : LoadOp) : outcome unit AggregatedLoad :=
  match op with Append e => append_load a e | Reset => Ok (AggregatedLoad_reset a) end.
Definition since_reset (ops : list LoadOp) : list BlockLoad :=
  foldl (λ h op, match op with Append e => h ++ [e] | Reset => [] end) [] ops.
Definition op_wf (qmax cmax : Z) (op : LoadOp) : Prop :=
  match op with Append e => load_wf qmax cmax e | Reset => True end.

Lemma run_ops_ok qmax cmax a h ops : window_ok qmax cmax a h → Forall (op_wf qmax cmax) ops →
  ((Z.of_nat (window_size a) + 1) * qmax < 2 ^ 64)%Z → ((Z.of_nat (window_size a) + 1) * cmax < 2 ^ 32)%Z →
  ∃ a', fold_outcome run_op a ops = Ok a' ∧ window_size a' = window_size a ∧
    window_ok qmax cmax a' (foldl (λ h op, match op with Append e => h ++ [e] | Reset => [] end) h ops).
Proof.
  intros Ha Hops Hq Hc. revert a h Ha Hq Hc. induction Hops as [|[e|] ops Hop Hops IH]; intros a h Ha Hq Hc; [by exists a|..].
  - destruct (append_load_ok _ _ _ _ _ Ha Hop Hq Hc) as (a1 & Hrun & Hok & Hsize).
    rewrite fold_outcome_cons. cbn [run_op]. rewrite Hrun. cbn [mbind outcome_bind].
    destruct (IH a1 (h ++ [e]) Hok ltac:(by rewrite Hsize) ltac:(by rewrite Hsize)) as (a' & ? & ? & ?).
    exists a'. by rewrite <- Hsize.
  - rewrite fold_outcome_cons. cbn [run_op mbind outcome_bind].
    by apply (IH (AggregatedLoad_reset a) []); [apply (reset_window_ok _ _ _ _ Ha)|..].
Qed.

(** A full window holds the latest loads. *)
Lemma full_window_sums qmax cmax a h : window_ok qmax cmax a h → is_filled a = true →
  sums_of (aggregated_value a) (drop (length h - window_size a) h).
Proof.
  intros [Hw Hlen Hsums _ _ Hf (g & Hg & Hring)] Hready.
  rewrite Hf in Hready. apply bool_decide_eq_true in Hready.
  rewrite drop_app_ge in Hring by lia. rewrite Hg in Hring. rewrite <- Hring. unfold oldest_first.
  rewrite (Permutation_app_comm (drop _ _) (take _ _)), take_drop. exact Hsums.
Qed.
End window.

(** AggregatedLoad: for every sequence of blocks and resets, as long as the loads of one
    block more than the window fit into the counters, nothing overflows or underflows; the
    load of a thread is ready exactly when a full window of blocks has been seen since the
    last reset, and then it is the sum over the latest blocks, in the queue length, in the
    number of messages and in every bit counter. *)
Theorem load_is_sliding_window w qmax cmax ops :
  0 < w → (0 ≤ qmax)%Z → (0 ≤ cmax)%Z → ((Z.of_nat w + 1) * qmax < 2 ^ 64)%Z →
  ((Z.of_nat w + 1) * cmax < 2 ^ 32)%Z → Forall (op_wf qmax cmax) ops →
  ∃ a, fold_outcome run_op (AggregatedLoad_new w) ops = Ok a ∧
    AggregatedLoad_is_ready a = bool_decide (w ≤ length (since_reset ops)) ∧
    (AggregatedLoad_is_ready a = true →
       sums_of (aggregated_value a) (drop (length (since_reset ops) - w) (since_reset ops))).
Proof.
  intros Hw Hq0 Hc0 Hq Hc Hops.
  destruct (run_ops_ok qmax cmax (AggregatedLoad_new w) [] ops (new_window_ok _ _ _ Hw Hq0 Hc0) Hops Hq Hc)
    as (a & Hrun & Hsize & Hok).
  exists a. split; [done|]. cbn [AggregatedLoad_new window_size] in Hsize.
  split; [rewrite <- Hsize; apply (wo_filled _ _ _ _ Hok)|].
  intros Hr. rewrite <- Hsize. by apply (full_window_sums qmax cmax).
Qed.

(** ** The best split *)
Lemma part_to_bits_length part : length (part_to_bits part) = 256.
Proof.
  unfold part_to_bits. rewrite <- (length_replicate 256 false) at 2. generalize (replicate 256 false).
  assert (∀ inner (l : list bool) n k,
    length (foldl (λ acc shift, <[inner * 8 + (7 - shift) :=
      negb (Z.land (nth inner part 0) (Z.shiftl 1 (Z.of_nat shift)) =? 0)%Z]> acc) l (seq k n)) = length l) as Hin.
  { intros inner l n. revert l. induction n as [|n IH]; intros l k; [done|]. cbn [seq foldl].
    by rewrite IH, length_insert. }
  generalize (seq 0 32). intros idx. induction idx as [|i idx IH]; intros l; [done|]. cbn [foldl]. rewrite IH. apply Hin.
Qed.

Lemma routing_bits_lookup r i : i < 512 → concat (AccountRouting_to_bits r) !! i = Some (routing_bit r i).
Proof.
  intros Hi. unfold AccountRouting_to_bits. cbn [fmap list_fmap concat]. rewrite app_nil_r.
  unfold routing_bit. case_bool_decide as Hlt.
  - rewrite lookup_app_l by (rewrite part_to_bits_length; lia). by rewrite part_to_bits_lookup by lia.
  - rewrite lookup_app_r by (rewrite part_to_bits_length; lia). rewrite part_to_bits_length.
    by rewrite part_to_bits_lookup by lia.
Qed.

Section best.
Variables (l : InThreadAccountsLoad) (current : Bitmask AccountRouting).
Hypothesis counters : length (zero_bits_count l) = 512 ∧ (0 ≤ total_transactions_count l < 2 ^ 32)%Z ∧
  ∀ k, (0 ≤ nth k (zero_bits_count l) 0 < 2 ^ 32)%Z.
Hypothesis mask_wf : AccountRouting_wf (mask_bits current) ∧ AccountRouting_wf (meaningful_mask_bits current).

Definition zeros (i : nat) : Z := nth i (zero_bits_count l) 0%Z.
Definition ones (i : nat) : Z := (total_transactions_count l - zeros i)%Z.
(** A bit that divides the messages and is not yet part of the mask, and how unevenly it divides. *)
Definition divides (i : nat) : Prop :=
  zeros i ≠ 0%Z ∧ ones i ≠ 0%Z ∧ routing_bit (meaningful_mask_bits current) i = false.
Definition unevenness (i : nat) : Z := Z.abs (ones i - zeros i).

Lemma try_bit_ok best i : i < 512 →
  ∃ best', try_bit l (concat (AccountRouting_to_bits (meaningful_mask_bits current))) best i = Ok best' ∧
    ((¬ divides i ∧ best' = best) ∨
     (divides i ∧ best' = match best with
        | Some (d, j) => if decide (unevenness i < d)%Z then Some (unevenness i, i) else best
        | None => Some (unevenness i, i) end)).
Proof.
  intros Hi. destruct counters as (Hlen & Ht & Hk). specialize (Hk i). unfold try_bit.
  destruct (lookup_lt_is_Some_2 (zero_bits_count l) i) as [z Hz]; [lia|]. rewrite Hz. cbn [unwrap mbind outcome_bind].
  assert (zeros i = z) as Hzi by (unfold zeros; by rewrite nth_lookup, Hz). unfold zeros in Hzi. rewrite Hzi in Hk.
  rewrite checked_i64_ok by lia. cbn [mbind outcome_bind].
  unfold divides, unevenness, ones, zeros. rewrite !Hzi.
  destruct (decide (z = 0)%Z) as [->|Hz0].
  { rewrite bool_decide_eq_true_2 by done. cbn [orb]. exists best. split; [done|]. left. split; [naive_solver|done]. }
  rewrite bool_decide_eq_false_2 by done. cbn [orb]. case_bool_decide as Hone.
  { exists best. split; [done|]. left. split; [naive_solver|done]. }
  rewrite routing_bits_lookup by done. cbn [unwrap mbind outcome_bind].
  destruct (routing_bit (meaningful_mask_bits current) i) eqn:Hbit.
  { exists best. split; [done|]. left. split; [naive_solver|done]. }
  rewrite !checked_i64_ok by lia. cbn [mbind outcome_bind]. rewrite checked_i64_ok by lia. cbn [mbind outcome_bind].
  destruct best as [[d j]|].
  - case_bool_decide; eexists; (split; [done|]); right; (split; [done|]);
      [by rewrite decide_True|by rewrite decide_False].
  - eexists. split; [done|]. right. done.
Qed.

(** The bit chosen among the first [n]. *)
Definition chosen (n : nat) (best : option (Z * nat)) : Prop :=
  match best with
  | None => ∀ i, i < n → ¬ divides i
  | Some (d, i) => i < n ∧ divides i ∧ d = unevenness i ∧
      ∀ j, j < n → divides j → (d ≤ unevenness j)%Z ∧ (j < i → (d < unevenness j)%Z)
  end.

Lemma try_bits_ok n : n ≤ 512 →
  ∃ best, fold_outcome (try_bit l (concat (AccountRouting_to_bits (meaningful_mask_bits current)))) None (seq 0 n)
    = Ok best ∧ chosen n best.
Proof.
  induction n as [|n IH]; intros Hn; [exists None; split; [done|]; intros i Hi; lia|].
  destruct IH as (best & Hrun & Hch); [lia|]. rewrite seq_S, fold_outcome_app, Hrun. cbn [mbind outcome_bind plus].
  destruct (try_bit_ok best n ltac:(lia)) as (best' & Hb & Hcase). exists best'.
  split; [cbn [fold_outcome]; by rewrite Hb|]. destruct Hcase as [[Hnot ->]|[Hdiv ->]].
  - destruct best as [[d i]|]; cbn [chosen] in *.
    + destruct Hch as (Hin & Hdi & Hd & Hmin). split; [lia|]. split; [exact Hdi|]. split; [exact Hd|]. intros j Hj Hdj.
      apply Hmin; [|done]. destruct (decide (j = n)) as [->|]; [done|lia].
    + intros i Hi. destruct (decide (i = n)) as [->|]; [done|apply Hch; lia].
  - destruct best as [[d i]|]; cbn [chosen] in Hch.
    + destruct Hch as (Hin & Hdi & -> & Hmin). case_decide as Hlt; cbn [chosen].
      * split; [lia|]. split; [exact Hdiv|]. split; [reflexivity|]. intros j Hj Hdj. destruct (decide (j = n)) as [->|]; [lia|].
        destruct (Hmin j ltac:(lia) Hdj). lia.
      * split; [lia|]. split; [exact Hdi|]. split; [reflexivity|].
        intros j Hj Hdj. destruct (decide (j = n)) as [->|]; [lia|]. apply Hmin; [lia|done].
    + cbn [chosen]. split; [lia|]. split; [exact Hdiv|]. split; [reflexivity|].
      intros j Hj Hdj. destruct (decide (j = n)) as [->|]; [lia|]. exfalso. apply (Hch j); [lia|done].
Qed.

(** The mask with one more bit matches the routings of the old mask that have the bit. *)
Lemma refined_mask i bits meaningful r : i < 512 →
  routing_bit (meaningful_mask_bits current) i = false →
  AccountRouting_wf bits → AccountRouting_wf meaningful → AccountRouting_wf r →
  (∀ j, j < 512 → routing_bit bits j = bool_decide (j = i) || routing_bit (mask_bits current) j) →
  (∀ j, j < 512 → routing_bit meaningful j = bool_decide (j = i) || routing_bit (meaningful_mask_bits current) j) →
  Bitmask_is_match (mkBitmask bits meaningful) r = true ↔
  Bitmask_is_match current r = true ∧ routing_bit r i = true.
Proof.
  intros Hi Hfree Wb Wm Wr Hb Hm. destruct mask_wf as [W1 W2].
  rewrite !routing_mask_match by done. cbn [mask_bits meaningful_mask_bits]. split.
  - intros Hall. split.
    + intros j Hj Hmj. destruct (decide (j = i)) as [->|Hne]; [congruence|].
      rewrite (Hall j Hj), Hb by (done || (rewrite Hm by done; by rewrite Hmj, orb_true_r)).
      by rewrite bool_decide_eq_false_2.
    + rewrite (Hall i Hi), Hb by (done || (rewrite Hm by done; by rewrite bool_decide_eq_true_2)).
      by rewrite bool_decide_eq_true_2.
  - intros [Hall Hri] j Hj Hmj. rewrite Hb by done. destruct (decide (j = i)) as [->|Hne].
    + by rewrite bool_decide_eq_true_2.
    + rewrite Hm, bool_decide_eq_false_2 in Hmj by done. simpl in Hmj.
      rewrite bool_decide_eq_false_2 by done. simpl. by apply Hall.
Qed.

Lemma best_split_ok :
  ∃ proposed, best_split l current = Ok proposed ∧
  match proposed with
  | None => ∀ i, i < MAX_ROUTE_PART_SPLIT * 256 → ¬ divides i
  | Some mask => ∃ i, chosen (MAX_ROUTE_PART_SPLIT * 256) (Some (unevenness i, i)) ∧
      AccountRouting_wf (mask_bits mask) ∧ AccountRouting_wf (meaningful_mask_bits mask) ∧
      ∀ r, AccountRouting_wf r →
        Bitmask_is_match mask r = true ↔ Bitmask_is_match current r = true ∧ routing_bit r i = true
  end.
Proof.
  unfold best_split.
  destruct (try_bits_ok (MAX_ROUTE_PART_SPLIT * 256) ltac:(cbv; lia)) as (best & -> & Hch).
  cbn [mbind outcome_bind]. destruct best as [[d i]|]; [|by exists None].
  pose proof Hch as (Hi & (Hz & Ho & Hfree) & -> & Hmin). assert (i < 512) as Hi' by (cbv in Hi; lia).
  destruct mask_wf as [W1 W2].
  destruct (AccountRouting_set_bit_spec (E := unit) _ i W2 Hi') as (meaningful & -> & Wm & Hm). cbn [mbind outcome_bind].
  destruct (AccountRouting_set_bit_spec (E := unit) _ i W1 Hi') as (bits & -> & Wb & Hb). cbn [mbind outcome_bind].
  eexists. split; [done|]. exists i. split; [exact Hch|]. split; [exact Wb|]. split; [exact Wm|].
  intros r Hr. by apply refined_mask.
Qed.
End best.

(** InThreadAccountsLoad::best_split: the proposed mask adds one bit to the mask of the thread.
    The bit is not yet part of the mask and divides the counted messages; among all such bits
    of the dapp it divides them most evenly, and among equally good ones it is the first.
    The mask then matches exactly the routings of the thread's mask that have this bit.
    Without a proposal no bit divides the messages. *)
Theorem best_split_divides_evenly l current :
  length (zero_bits_count l) = 512 → (0 ≤ total_transactions_count l < 2 ^ 32)%Z →
  (∀ k, 0 ≤ nth k (zero_bits_count l) 0 < 2 ^ 32)%Z →
  AccountRouting_wf (mask_bits current) → AccountRouting_wf (meaningful_mask_bits current) →
  ∃ proposed, best_split l current = Ok proposed ∧
  match proposed with
  | None => ∀ i, i < 256 → ¬ divides l current i
  | Some mask => ∃ i, i < 256 ∧ divides l current i ∧
      (∀ j, j < 256 → divides l current j →
         (unevenness l i ≤ unevenness l j)%Z ∧ (j < i → (unevenness l i < unevenness l j)%Z)) ∧
      ∀ r, AccountRouting_wf r →
        Bitmask_is_match mask r = true ↔ Bitmask_is_match current r = true ∧ routing_bit r i = true
  end.
Proof.
  intros Hlen Ht Hk W1 W2. destruct (best_split_ok l current) as (proposed & Hrun & Hspec); [done..|].
  exists proposed. split; [done|]. destruct proposed as [mask|]; [|exact Hspec].
  destruct Hspec as (i & (Hi & Hd & _ & Hmin) & _ & _ & Hmatch). by exists i.
Qed.

(** ** Splitting a thread *)
Section split_thread.
Implicit Types (s : LoadBalancingService) (t : ThreadIdentifier) (table : ThreadsTable) (sc : Scan).

(** What the scan knows after the given rows. *)
Record scan_ok s t (rows : list (nat * ThreadsRow)) sc : Prop := {
  so_max : read_load s (max_load_thread_id sc) = Ok (max_load sc);
  so_above e load : e ∈ rows → read_load s e.2.2 = Ok load → (load ≤ max_load sc)%Z;
  so_row i mask : this_row sc = Some (i, mask) → (i, (mask, t)) ∈ rows;
}.

Lemma scan_row_ok s t rows sc e : scan_ok s t rows sc → scan_ok s t (rows ++ [e]) (scan_row s t sc e).
Proof.
  intros [Hmax Habove Hrow]. destruct e as [i [mask thread]]. unfold scan_row.
  destruct (read_load s thread) as [load| |] eqn:Hload.
  - split; case_bool_decide as Hlt; cbn [max_load max_load_thread_id this_row].
    + done.
    + done.
    + intros e load' [He|He]%elem_of_app Hl; [specialize (Habove e load' He Hl); lia|].
      apply list_elem_of_singleton in He as ->. simpl in Hl. rewrite Hload in Hl. injection Hl as ->. lia.
    + intros e load' [He|He]%elem_of_app Hl; [by apply (Habove e)|].
      apply list_elem_of_singleton in He as ->. simpl in Hl. rewrite Hload in Hl. injection Hl as ->. lia.
    + intros j m Hj. apply elem_of_app. case_bool_decide as Ht; [|left; by apply Hrow].
      injection Hj as <- <-. subst. right. by left.
    + intros j m Hj. apply elem_of_app. case_bool_decide as Ht; [|left; by apply Hrow].
      injection Hj as <- <-. subst. right. by left.
  - split; [done| |].
    + intros e' load' [He|He]%elem_of_app Hl; [by apply (Habove e')|].
      apply list_elem_of_singleton in He as ->. simpl in Hl. congruence.
    + intros j m Hj. apply elem_of_app. left. by apply Hrow.
  - split; [done| |].
    + intros e' load' [He|He]%elem_of_app Hl; [by apply (Habove e')|].
      apply list_elem_of_singleton in He as ->. simpl in Hl. congruence.
    + intros j m Hj. apply elem_of_app. left. by apply Hrow.
Qed.

Lemma scan_ok_all s t rows load : read_load s t = Ok load →
  scan_ok s t rows (foldl (scan_row s t) (mkScan load load t None) rows).
Proof.
  intros Hload. induction rows as [|e rows IH] using rev_ind.
  { split; [done|by intros ?? ?%elem_of_nil|done]. }
  rewrite foldl_snoc. by apply scan_row_ok.
Qed.

Lemma imap_pair_lookup table i row : (i, row) ∈ imap pair table → table !! i = Some row.
Proof. intros (j & row' & [= -> ->] & Hj)%elem_of_lookup_imap_1. done. Qed.

(** The counters of a load that can be split. *)
Definition counters_ok (a : AggregatedLoad) : Prop :=
  length (zero_bits_count (aggregated_value a).2) = 512 ∧
  (0 ≤ total_transactions_count (aggregated_value a).2 < 2 ^ 32)%Z ∧
  ∀ k, (0 ≤ nth k (zero_bits_count (aggregated_value a).2) 0 < 2 ^ 32)%Z.
Definition masks_wf table : Prop :=
  Forall (λ r : ThreadsRow, AccountRouting_wf (mask_bits r.1) ∧ AccountRouting_wf (meaningful_mask_bits r.1)) table.

(** Inserting, above a row, a mask that matches less than this row moves only routings of the row. *)
Lemma insert_refinement table i mask t new table' r bit :
  table !! i = Some (mask, t) → BitmasksTable_insert_above table i new.1 new.2 = Ok table' →
  (Bitmask_is_match new.1 r = true ↔ Bitmask_is_match mask r = true ∧ bit = true) →
  BitmasksTable_find_match (E := unit) table' r =
    match BitmasksTable_find_match (E := unit) (take i table) r with
    | Ok t' => Ok t'
    | _ => if Bitmask_is_match mask r then Ok (if bit then new.2 else t) else BitmasksTable_find_match table r
    end ∧
  (BitmasksTable_find_match (E := unit) table' r = BitmasksTable_find_match table r ∨
   (bit = true ∧ BitmasksTable_find_match (E := unit) table r = Ok t ∧ BitmasksTable_find_match (E := unit) table' r = Ok new.2)).
Proof.
  intros Hrow [Hi ->]%insert_above_Ok Hmatch.
  pose proof (find_match_app (E := unit) (take i table) (drop i table) r) as Hsplit. rewrite take_drop in Hsplit.
  rewrite find_match_app. rewrite Hsplit. rewrite (drop_S _ _ _ Hrow). cbn [BitmasksTable_find_match].
  destruct (BitmasksTable_find_match (take i table) r) as [t'|e|] eqn:Hpre; [by split; [|left]|by apply find_match_not_Err in Hpre|].
  destruct (Bitmask_is_match mask r) eqn:Hm, (Bitmask_is_match new.1 r) eqn:Hn, bit;
    try (destruct Hmatch as [H1 H2]; by (destruct (H1 eq_refl) || specialize (H2 (conj eq_refl eq_refl)))).
  - split; [done|]. right. done.
  - split; [done|]. by left.
  - split; [done|]. by left.
  - split; [done|]. by left.
Qed.

Lemma try_split_inv block t i a mask max min max_id table size table' :
  counters_ok a → AccountRouting_wf (mask_bits mask) → AccountRouting_wf (meaningful_mask_bits mask) →
  try_threads_split block t i a mask max min max_id table size = Ok (Split table') →
  max_id = t ∧ ∃ new_mask bit, BitmasksTable_insert_above table i new_mask (ThreadIdentifier_new block 0) = Ok table' ∧
    bit < 256 ∧ divides (aggregated_value a).2 mask bit ∧
    ∀ r, AccountRouting_wf r →
      Bitmask_is_match new_mask r = true ↔ Bitmask_is_match mask r = true ∧ routing_bit r bit = true.
Proof.
  intros Hc W1 W2 Hrun. unfold try_threads_split in Hrun. case_bool_decide as Hid; [done|].
  split; [destruct (decide (max_id = t)); [done|by destruct Hid]|].
  apply outcome_bind_Ok in Hrun as (even & _ & Hrun). destruct even; [done|].
  apply outcome_bind_Ok in Hrun as (proposed & Hprop%unwrap_ok_inv & Hrun).
  destruct (best_split_ok _ mask Hc (conj W1 W2)) as (p & Hp & Hspec).
  unfold propose_new_bitmask in Hprop. rewrite Hp in Hprop. injection Hprop as ->.
  destruct proposed as [new_mask|]; [|done]. destruct (existsb _ table); [done|].
  apply outcome_bind_Ok in Hrun as (tb & Hins%unwrap_ok_inv & [= ->]).
  destruct Hspec as (bit & (Hb & Hd & _ & _) & _ & _ & Hmatch). by exists new_mask, bit.
Qed.
End split_thread.

(** C33 (LoadBalancingService::check): a thread is split only when it is ready, its load has reached
    the threshold, no ready thread of the table has a greater load, and the table is not over
    its limit.  The new table keeps its catch-all row and has one row more; it differs from
    the old one only on routings of this thread that have the chosen bit, which go to the new
    thread; both sides have messages.  The statistics of the thread start anew. *)
Theorem split_moves_own_accounts s block t table max_size s' table' a :
  thread_load_map s !! t = Some a → counters_ok a → BitmasksTable_wf table → masks_wf table →
  check s block t table max_size = Ok (s', Split table') →
  AggregatedLoad_is_ready a = true ∧ (load_threshold s ≤ load_value a)%Z ∧
  (∀ row load, row ∈ table → read_load s row.2 = Ok load → (load ≤ load_value a)%Z) ∧
  length table ≤ max_size ∧ length table' = length table + 1 ∧ BitmasksTable_wf table' ∧
  s' = set_load s t (AggregatedLoad_reset a) ∧
  ∃ mask bit, (mask, t) ∈ table ∧ bit < 256 ∧ divides (aggregated_value a).2 mask bit ∧
    ∀ r, AccountRouting_wf r →
      BitmasksTable_find_match (E := unit) table' r = BitmasksTable_find_match table r ∨
      (routing_bit r bit = true ∧ BitmasksTable_find_match (E := unit) table r = Ok t ∧
       BitmasksTable_find_match (E := unit) table' r = Ok (ThreadIdentifier_new block 0)).
Proof.
  intros Ha Hc Hwf Hmasks Hrun. unfold check in Hrun.
  apply outcome_bind_Ok in Hrun as ([] & _ & Hrun). apply outcome_bind_Ok in Hrun as (load & Hload & Hrun).
  pose proof (scan_ok_all s t (imap pair table) load Hload) as [Hmax Habove Hrow].
  set (sc := foldl _ _ _) in *. apply outcome_bind_Ok in Hrun as ([i mask] & Hthis & Hrun).
  assert (table !! i = Some (mask, t)) as Hi.
  { apply imap_pair_lookup, Hrow. destruct (this_row sc); [by injection Hthis as ->|done]. }
  case_bool_decide as Hsize; [by apply outcome_bind_Ok in Hrun as (? & [= <-] & ?)|].
  case_bool_decide as Hthr; [|done]. rewrite Ha in Hrun. cbn [ok_or mbind outcome_bind] in Hrun.
  apply outcome_bind_Ok in Hrun as (action & Hsplit & Heq). injection Heq as <- ->.
  destruct (proj1 (Forall_lookup _ _) Hmasks i _ Hi) as [W1 W2].
  destruct (try_split_inv _ _ _ _ _ _ _ _ _ _ _ Hc W1 W2 Hsplit) as (Hid & new_mask & bit & Hins & Hbit & Hdiv & Hmatch).
  assert (max_load sc = load_value a ∧ AggregatedLoad_is_ready a = true) as [Hml Hready].
  { rewrite Hid in Hmax. unfold read_load in Hmax. rewrite Ha in Hmax. cbn [ok_or mbind outcome_bind] in Hmax.
    destruct (AggregatedLoad_is_ready a); [|done]. cbn in Hmax. by injection Hmax as <-. }
  rewrite Hml in *. split; [done|]. split; [done|]. split.
  { intros row ld (j & Hj)%list_elem_of_lookup Hld. apply (Habove (j, row)); [|done].
    apply elem_of_lookup_imap. by exists j, row. }
  split; [lia|]. pose proof Hins as [Hil ->]%insert_above_Ok. split.
  { rewrite length_app, length_take, length_cons, length_drop. lia. }
  split; [by eapply insert_above_wf|]. split; [done|].
  exists mask, bit. split; [by eapply list_elem_of_lookup_2|]. split; [done|]. split; [done|]. intros r Hr.
  by apply (insert_refinement table i mask t (new_mask, ThreadIdentifier_new block 0) _ r (routing_bit r bit) Hi Hins), Hmatch.
Qed.

(** ** Finalized blocks *)
Section counting.
Implicit Types (n : Z) (l : InThreadAccountsLoad).

(** Counters that have seen at most [n] messages. *)
Definition counted n l : Prop :=
  length (zero_bits_count l) = 512 ∧ (0 ≤ total_transactions_count l ≤ n)%Z ∧
  Forall (λ z, 0 ≤ z ≤ n)%Z (zero_bits_count l).

Lemma routing_bits_length r : length (concat (AccountRouting_to_bits r)) = 512.
Proof.
  unfold AccountRouting_to_bits. cbn [fmap list_fmap concat]. by rewrite !length_app, !part_to_bits_length.
Qed.

Lemma count_route_ok n l r : counted n l → (n < 2 ^ 32 - 1)%Z → ∃ l', count_route l r = Ok l' ∧ counted (n + 1) l'.
Proof.
  intros (Hlen & Ht & Hz) Hn. unfold count_route. set (f := λ (c : Z) (bit : bool), if bit then c else (c + 1)%Z).
  assert (Forall (λ z, 0 ≤ z ≤ n + 1)%Z (zip_with f (zero_bits_count l) (concat (AccountRouting_to_bits r)))) as Hf.
  { generalize (concat (AccountRouting_to_bits r)). clear Hlen Ht.
    induction Hz as [|z zs Hz Hzs IH]; intros [|b bs]; cbn; constructor; [unfold f; destruct b; lia|apply IH]. }
  rewrite map_checked_ok.
  2:{ eapply Forall_impl; [exact Hf|]. intros z. unfold in_width. cbn beta. lia. }
  cbn [mbind outcome_bind]. rewrite checked_i64_ok by lia. cbn [mbind outcome_bind].
  eexists. split; [done|]. split; [|split; [cbn; lia|exact Hf]].
  cbn [zero_bits_count]. rewrite length_zip_with, routing_bits_length. lia.
Qed.

Lemma new_from_ok dapps msgs : (Z.of_nat (length msgs) < 2 ^ 32)%Z →
  ∃ l, InThreadAccountsLoad_new_from dapps msgs = Ok l ∧ counted (Z.of_nat (length msgs)) l.
Proof.
  unfold InThreadAccountsLoad_new_from, InThreadAccountsLoad_append_from.
  induction msgs as [|m msgs IH] using rev_ind; intros Hn.
  { exists InThreadAccountsLoad_default. split; [done|]. split; [apply length_replicate|].
    split; [cbn; lia|]. apply Forall_replicate. lia. }
  rewrite length_app in *. cbn [length] in *. destruct IH as (l & Hrun & Hl); [lia|].
  rewrite fold_outcome_app, Hrun. cbn [mbind outcome_bind fold_outcome].
  destruct (m ≫= msg_route dapps) as [r|].
  - destruct (count_route_ok _ l r Hl ltac:(lia)) as (l' & -> & Hl'). exists l'. split; [done|].
    replace (Z.of_nat (length msgs + 1)) with (Z.of_nat (length msgs) + 1)%Z by lia. exact Hl'.
  - exists l. split; [done|]. destruct Hl as (? & ? & Hz). split; [done|]. split; [lia|].
    eapply Forall_impl; [exact Hz|]. cbn beta. lia.
Qed.

Lemma counted_load_wf qmax cmax n q l : counted n l → (n ≤ cmax)%Z → (0 ≤ q ≤ qmax)%Z → load_wf qmax cmax (q, l).
Proof.
  intros (Hlen & Ht & Hz) Hn Hq. unfold load_wf, queue_of, total_of, zeros_at. cbn [fst snd].
  split; [lia|]. split; [lia|]. split; [done|]. intros k. rewrite nth_lookup.
  destruct (zero_bits_count l !! k) as [z|] eqn:Hk; simpl; [|lia].
  pose proof (proj1 (Forall_lookup _ _) Hz k z Hk). cbn beta in *. lia.
Qed.
End counting.

Section finalize.
Context {K M Acc Cell Info Router : Type} `{Countable K} `{Subscriber Router}.
Variable thread_iter : gset ThreadIdentifier → list ThreadIdentifier.
Hypothesis thread_iter_elements : ∀ X, thread_iter X ≡ₚ elements X.
Variables (qmax cmax : Z).
Implicit Types (s : LoadBalancingService) (b : FinalizedBlock) (o : OptimisticState K M Acc Cell Info)
  (t : ThreadIdentifier) (c : Container Router).

(** Every tracked thread has a window of the configured size. *)
Definition balancer_ok s : Prop :=
  0 < lb_window_size s ∧ (0 ≤ qmax)%Z ∧ (0 ≤ cmax)%Z ∧
  ((Z.of_nat (lb_window_size s) + 1) * qmax < 2 ^ 64)%Z ∧ ((Z.of_nat (lb_window_size s) + 1) * cmax < 2 ^ 32)%Z ∧
  ∀ t a, thread_load_map s !! t = Some a → window_size a = lb_window_size s ∧ ∃ h, window_ok qmax cmax a h.

Lemma set_load_ok s t a h : balancer_ok s → window_ok qmax cmax a h → window_size a = lb_window_size s →
  balancer_ok (set_load s t a) ∧ dom (thread_load_map (set_load s t a)) = {[ t ]} ∪ dom (thread_load_map s).
Proof.
  intros (Hw & Hq0 & Hc0 & Hq & Hc & Hall) Ha Hsize. split; [|cbn; by rewrite dom_insert_L].
  split_and!; try done. intros t' a' Ht. cbn in Ht. destruct (decide (t' = t)) as [->|Hne].
  - rewrite lookup_insert_eq in Ht. injection Ht as <-. by split; [|exists h].
  - rewrite lookup_insert_ne in Ht by done. by apply (Hall t').
Qed.

Lemma start_thread_ok s blk t table : balancer_ok s →
  balancer_ok (balancer_start_thread s blk t table) ∧
  dom (thread_load_map (balancer_start_thread s blk t table)) = {[ t ]} ∪ dom (thread_load_map s).
Proof.
  intros Hs. unfold balancer_start_thread.
  match goal with |- context [set_load ?x t _] => set (s1 := x) end.
  assert (balancer_ok s1 ∧ dom (thread_load_map s1) = dom (thread_load_map s)) as [Hs1 Hdom].
  { subst s1. destruct (table ≫= row_below t) as [parent|]; [|done].
    destruct (thread_load_map s !! parent) as [load|] eqn:Hp; [|done].
    destruct (proj2 (proj2 (proj2 (proj2 (proj2 Hs)))) _ _ Hp) as [Hsize [h Hh]].
    destruct (set_load_ok s parent (AggregatedLoad_reset load) [] Hs (reset_window_ok _ _ _ _ Hh) Hsize) as [? ->].
    split; [done|]. apply elem_of_dom_2 in Hp. set_solver. }
  rewrite <- Hdom. apply set_load_ok with (h := []); [done| |done].
  destruct Hs1 as (? & ? & ? & _). by apply new_window_ok.
Qed.

Lemma start_threads_ok (l : list ThreadIdentifier) blk table (r : Router) s : balancer_ok s →
  ∃ r' s', foldl (λ (st : Router * LoadBalancingService) t, handle_start_thread st blk t table) (r, s) l = (r', s') ∧ balancer_ok s' ∧
    dom (thread_load_map s') = list_to_set l ∪ dom (thread_load_map s).
Proof.
  revert r s. induction l as [|t l IH]; intros r s Hs; cbn [foldl list_to_set].
  { exists r, s. split; [done|]. split; [done|set_solver]. }
  destruct (start_thread_ok s blk t table Hs) as [Hok Hdom].
  destruct (IH (handle_start_thread r blk t table) _ Hok) as (r' & s' & Heq & Hok' & Hdom').
  exists r', s'. split; [exact Heq|]. split; [done|]. rewrite Hdom', Hdom. set_solver.
Qed.

Lemma balancer_finalized_ok s b o : balancer_ok s → fb_thread_id b ∈ dom (thread_load_map s) →
  (Z.of_nat (length (fb_in_msgs b)) ≤ cmax)%Z → (get_internal_message_queue_length o ≤ qmax)%Z →
  ∃ s', LoadBalancingService_handle_block_finalized s b o = Ok s' ∧ balancer_ok s' ∧
    dom (thread_load_map s') = dom (thread_load_map s).
Proof.
  intros Hs [load Hload]%elem_of_dom Hmsgs Hqueue. unfold LoadBalancingService_handle_block_finalized. rewrite Hload.
  pose proof Hs as (Hw & Hq0 & Hc0 & Hq & Hc & Hall). destruct (Hall _ _ Hload) as [Hsize [h Hh]].
  assert (∀ s', dom (thread_load_map s') = {[ fb_thread_id b ]} ∪ dom (thread_load_map s) →
    dom (thread_load_map s') = dom (thread_load_map s)) as Hdom by (apply elem_of_dom_2 in Hload; set_solver).
  destruct (spawns b).
  - destruct (set_load_ok s (fb_thread_id b) (AggregatedLoad_reset load) [] Hs (reset_window_ok _ _ _ _ Hh) Hsize). eauto.
  - unfold AggregatedLoad_append_from.
    destruct (new_from_ok (os_dapp_id_table o) (fb_in_msgs b)) as (l & -> & Hl); [nia|]. cbn [mbind outcome_bind].
    destruct (append_load_ok qmax cmax load h (get_internal_message_queue_length o, l) Hh) as (a & -> & Ha & Has).
    + apply (counted_load_wf _ _ _ _ _ Hl); [done|]. unfold get_internal_message_queue_length in *. lia.
    + by rewrite Hsize.
    + by rewrite Hsize.
    + cbn [mbind outcome_bind]. destruct (set_load_ok s (fb_thread_id b) a _ Hs Ha) as [Hok Hd]; [congruence|].
      eexists. split; [done|]. split; [done|]. by apply Hdom.
Qed.

(** The set of seen blocks does not run out of its ring. *)
Definition seen_ok (x : FixedSizeHashSet BlockIdentifier) : Prop :=
  length (fs_eviction_order x) ≤ fs_capacity x ∧ fs_eviction_order_cursor x < fs_capacity x.

Lemma seen_insert_ok x id : seen_ok x →
  ∃ x', FixedSizeHashSet_insert (E := unit) x id = Ok x' ∧ seen_ok x' ∧ fs_blocks x' ⊆ {[ id ]} ∪ fs_blocks x.
Proof.
  intros [Hl Hc]. unfold FixedSizeHashSet_insert. destruct (FixedSizeHashSet_contains x id).
  { exists x. split; [done|]. split; [done|set_solver]. }
  case_bool_decide.
  - eexists. split; [done|]. split; [|done]. split; cbn; [rewrite length_app; simpl; lia|done].
  - destruct (lookup_lt_is_Some_2 (fs_eviction_order x) (fs_eviction_order_cursor x)) as [e ->]; [lia|].
    eexists. split; [done|]. split; [|cbn; set_solver].
    split; cbn; [rewrite length_insert; lia|]. case_bool_decide; lia.
Qed.

(** The threads that a finalized block starts. *)
Definition started b o : gset ThreadIdentifier :=
  filter (λ t, ThreadIdentifier_is_spawning_block t (fb_identifier b) = true)
    (ThreadsTable_list_threads (os_threads_table o)).

Lemma container_finalized_ok c b o : balancer_ok (load_balancing c) → seen_ok (finalized_blocks c) →
  fb_thread_id b ∈ dom (thread_load_map (load_balancing c)) →
  fb_thread_id b ∈ ThreadsTable_list_threads (os_threads_table o) →
  (Z.of_nat (length (fb_in_msgs b)) ≤ cmax)%Z → (get_internal_message_queue_length o ≤ qmax)%Z →
  ∃ c', shared_on_block_finalized thread_iter c b o = Ok c' ∧ balancer_ok (load_balancing c') ∧
    seen_ok (finalized_blocks c') ∧
    fs_blocks (finalized_blocks c') ⊆ {[ fb_identifier b ]} ∪ fs_blocks (finalized_blocks c) ∧
    if FixedSizeHashSet_contains (finalized_blocks c) (fb_identifier b) then c' = c
    else thread_sync c' !! fb_thread_id b = Some (fb_identifier b) ∧
         dom (thread_load_map (load_balancing c')) = started b o ∪ dom (thread_load_map (load_balancing c)).
Proof.
  intros Hs Hseen Hin Htab Hmsgs Hqueue. unfold shared_on_block_finalized.
  destruct (FixedSizeHashSet_contains _ _); [exists c; split_and!; (done || set_solver)|].
  destruct (seen_insert_ok _ (fb_identifier b) Hseen) as (seen & -> & Hseen' & Hsub). cbn [mbind outcome_bind].
  unfold tracking_handle_block_finalized. rewrite bool_decide_eq_true_2 by (by rewrite thread_iter_elements, elem_of_elements).
  match goal with |- context [foldl _ _ ?l] => set (new_threads := l) end.
  destruct (start_threads_ok new_threads (fb_identifier b) (Some (os_threads_table o)) (router c) _ Hs)
    as (r' & s1 & -> & Hs1 & Hdom1).
  assert (list_to_set new_threads = started b o) as Hnew.
  { apply set_eq. intros t. unfold new_threads, started. rewrite elem_of_list_to_set, list_elem_of_filter.
    rewrite elem_of_filter, thread_iter_elements, elem_of_elements. done. }
  rewrite Hnew in Hdom1.
  destruct (balancer_finalized_ok s1 b o Hs1) as (s2 & -> & Hs2 & Hdom2); [set_solver|done..|].
  cbn [mbind outcome_bind]. eexists. split; [done|]. split; [done|]. split; [done|]. split; [done|].
  cbn [thread_sync load_balancing]. unfold thread_sync_on_block_finalized.
  split; [by rewrite lookup_insert_eq|]. by rewrite Hdom2.
Qed.

(** A sequence of finalized blocks: each block belongs to a thread that was there at the start or was
    started by an earlier block, and the table of its state still lists the thread. *)
Fixpoint well_threaded (T : gset ThreadIdentifier) (l : list (FinalizedBlock * OptimisticState K M Acc Cell Info)) : Prop :=
  match l with
  | [] => True
  | (b, o) :: l =>
      fb_thread_id b ∈ T ∧ fb_thread_id b ∈ ThreadsTable_list_threads (os_threads_table o) ∧
      (Z.of_nat (length (fb_in_msgs b)) ≤ cmax)%Z ∧ (get_internal_message_queue_length o ≤ qmax)%Z ∧
      well_threaded (T ∪ started b o) l
  end.
End finalize.

(** SharedServices::on_block_finalized: the services never panic on finalized blocks: for every
    sequence of distinct blocks in which each block belongs to a thread of the start or to one
    that an earlier block has started, every block is counted, also when the set of seen
    blocks has overflowed; the load balancer tracks all threads that were started, every
    window keeps holding the sums over its blocks, and the last block of a thread is the one
    that other threads are told to reference. *)
Theorem finalized_blocks_are_counted {K M Acc Cell Info Router : Type} `{Countable K} `{Subscriber Router}
    thread_iter qmax cmax (c : Container Router) T
    (l : list (FinalizedBlock * OptimisticState K M Acc Cell Info)) :
  (∀ X, thread_iter X ≡ₚ elements X) →
  balancer_ok qmax cmax (load_balancing c) → seen_ok (finalized_blocks c) →
  T ⊆ dom (thread_load_map (load_balancing c)) →
  (∀ b o, (b, o) ∈ l → fb_identifier b ∉ fs_blocks (finalized_blocks c)) →
  NoDup ((λ e, fb_identifier e.1) <$> l) → well_threaded qmax cmax T l →
  ∃ c', fold_outcome (λ c e, shared_on_block_finalized thread_iter c e.1 e.2) c l = Ok c' ∧
    balancer_ok qmax cmax (load_balancing c') ∧
    (∀ t, t ∈ T ∨ (∃ b o, (b, o) ∈ l ∧ t ∈ started b o) → t ∈ dom (thread_load_map (load_balancing c'))) ∧
    (∀ b o, last l = Some (b, o) → thread_sync c' !! fb_thread_id b = Some (fb_identifier b)).
Proof.
  intros Hiter Hs Hseen HT Hfresh Hnd Hwt. revert c T Hs Hseen HT Hfresh Hwt.
  induction l as [|[b o] l IH]; intros c T Hs Hseen HT Hfresh Hwt.
  { exists c. split; [done|]. split; [done|]. split; [|done]. intros t [?|(? & ? & ?%elem_of_nil & _)]; [by apply HT|done]. }
  cbn in Hnd. apply NoDup_cons in Hnd as [Hb Hnd]. destruct Hwt as (Hin & Htab & Hmsgs & Hqueue & Hwt).
  destruct (container_finalized_ok thread_iter Hiter qmax cmax c b o Hs Hseen (HT _ Hin) Htab Hmsgs Hqueue)
    as (c1 & Hrun & Hs1 & Hseen1 & Hsub & Hcase).
  unfold FixedSizeHashSet_contains in Hcase. rewrite bool_decide_eq_false_2 in Hcase by (apply (Hfresh b o); by left).
  destruct Hcase as [Hsync Hdom].
  destruct (IH Hnd c1 (T ∪ started b o)) as (c' & Hrun' & Hs' & Hdom' & Hlast); [done|done|set_solver| |done|].
  { intros b' o' Hb' Hc. apply Hsub, elem_of_union in Hc as [Hc%elem_of_singleton|Hc].
    - apply Hb, list_elem_of_fmap. by exists (b', o').
    - apply (Hfresh b' o'); [by right|done]. }
  exists c'. rewrite fold_outcome_cons. cbn [fst snd]. rewrite Hrun. cbn [mbind outcome_bind].
  split; [done|]. split; [done|]. split.
  - intros t [Ht|(b' & o' & [[= -> ->]|Hl]%elem_of_cons & Ht)]; apply Hdom'; [set_solver|set_solver|right; eauto].
  - intros b' o'. destruct l as [|e l]; [|rewrite last_cons_cons; apply Hlast].
    intros [= <- <-]. cbn in Hrun'. by injection Hrun' as <-.
Qed.

(** ** Examples *)
Lemma load_is_sliding_window_witness :
  ∃ a, fold_outcome run_op (AggregatedLoad_new 2)
         [Append (5%Z, InThreadAccountsLoad_default); Reset; Append (7%Z, InThreadAccountsLoad_default);
          Append (8%Z, InThreadAccountsLoad_default); Append (9%Z, InThreadAccountsLoad_default)] = Ok a ∧
    AggregatedLoad_is_ready a = true ∧ load_value a = 17%Z.
Proof.
  destruct (load_is_sliding_window 2 10 10
         [Append (5%Z, InThreadAccountsLoad_default); Reset; Append (7%Z, InThreadAccountsLoad_default);
          Append (8%Z, InThreadAccountsLoad_default); Append (9%Z, InThreadAccountsLoad_default)])
    as (a & Hrun & Hready & Hsums); try lia.
  - assert (∀ q, (0 ≤ q ≤ 10)%Z → load_wf 10 10 (q, InThreadAccountsLoad_default)) as Hwf.
    { intros q Hq. destruct (default_load_wf 10 10) as (_ & H1 & H2 & H3); [lia..|].
      unfold load_wf, queue_of in *. cbn [fst] in *. split_and!; try done; lia. }
    repeat apply Forall_cons_2; try apply Forall_nil_2; try exact I; apply Hwf; lia.
  - exists a. split; [exact Hrun|]. assert (AggregatedLoad_is_ready a = true) as Hr by (rewrite Hready; reflexivity).
    split; [exact Hr|]. destruct (Hsums Hr) as [Hq _]. exact Hq.
Defined.

(** Three messages, one of them with a zero in the first bit. *)
Definition three_messages : InThreadAccountsLoad := mkAccountsLoad 3 (1%Z :: replicate 511 0%Z).

Lemma three_messages_counted : length (zero_bits_count three_messages) = 512 ∧
  (0 ≤ total_transactions_count three_messages < 2 ^ 32)%Z ∧
  ∀ k, (0 ≤ nth k (zero_bits_count three_messages) 0 < 2 ^ 32)%Z.
Proof.
  split; [reflexivity|]. split; [cbn; lia|]. intros k. rewrite nth_lookup. cbn [three_messages zero_bits_count].
  destruct k as [|k]; [cbn; lia|]. cbn [lookup list_lookup].
  destruct (replicate 511 0%Z !! k) as [z|] eqn:Hk; [|simpl; lia]. apply lookup_replicate in Hk as [-> _]. simpl. lia.
Qed.

Lemma default_mask_wf : AccountRouting_wf (mask_bits Bitmask_default) ∧
  AccountRouting_wf (meaningful_mask_bits Bitmask_default).
Proof. split; apply (bits_default_wf (BitsLaws := AccountRouting_bits_laws)). Qed.

Lemma best_split_divides_evenly_witness :
  ∃ mask i, best_split three_messages Bitmask_default = Ok (Some mask) ∧ i < 256 ∧
    divides three_messages Bitmask_default i.
Proof.
  destruct three_messages_counted as (H1 & H2 & H3). destruct default_mask_wf as [W1 W2].
  destruct (best_split_divides_evenly three_messages Bitmask_default H1 H2 H3 W1 W2) as ([mask|] & Hrun & Hspec).
  - destruct Hspec as (i & Hi & Hd & _). by exists mask, i.
  - exfalso. apply (Hspec 0); [lia|]. split_and!; vm_compute; discriminate || reflexivity.
Defined.

(** A service of one loaded thread. *)
Definition loaded_thread : AggregatedLoad :=
  mkAggregated [(10%Z, three_messages)] 0 (10%Z, three_messages) true 1.
Definition loaded_service : LoadBalancingService := mkBalancer {[ ThreadIdentifier_default := loaded_thread ]} 1 5.

Lemma loaded_service_splits :
  ∃ x, check loaded_service BlockIdentifier_default ThreadIdentifier_default ThreadsTable_default 2 = Ok x ∧
    ∃ table, x.2 = Split table.
Proof.
  apply outcome_match_Ok.
  assert (∀ o : outcome CheckError (LoadBalancingService * ThreadAction),
    match o with Ok (_, Split _) => true | _ => false end = true →
    match o with Ok x => ∃ table, x.2 = Split table | _ => False end) as Hsum.
  { intros [[? []]| |]; try discriminate. eauto. }
  apply Hsum. vm_compute. reflexivity.
Qed.

Lemma split_moves_own_accounts_witness :
  ∃ s' table', check loaded_service BlockIdentifier_default ThreadIdentifier_default ThreadsTable_default 2 =
      Ok (s', Split table') ∧ length table' = 2 ∧ BitmasksTable_wf table'.
Proof.
  destruct loaded_service_splits as ([s' action] & Hrun & table' & Haction). simpl in Haction. subst action.
  destruct (split_moves_own_accounts loaded_service BlockIdentifier_default ThreadIdentifier_default
              ThreadsTable_default 2 s' table' loaded_thread) as (_ & _ & _ & _ & Hlen & Hwf & _).
  - apply lookup_singleton_eq.
  - exact three_messages_counted.
  - by exists ThreadIdentifier_default.
  - apply Forall_singleton. exact default_mask_wf.
  - exact Hrun.
  - by exists s', table'.
Defined.

(** A container with the default thread, and one finalized block. *)
#[local] Instance no_router : Subscriber unit := {
  handle_start_thread _ _ _ _ := tt;
  handle_stop_thread _ _ _ := tt;
}.
Definition fresh_container : Container unit :=
  mkContainer ∅ (set_load (LoadBalancingService_start 2 5) ThreadIdentifier_default (AggregatedLoad_new 2)) tt
    (FixedSizeHashSet_new 10).
Definition first_finalized : FinalizedBlock := mkFinalized BlockIdentifier_default ThreadIdentifier_default None [].

Lemma fresh_balancer_ok : balancer_ok 10 10 (load_balancing fresh_container).
Proof.
  apply (set_load_ok 10 10 (LoadBalancingService_start 2 5) ThreadIdentifier_default (AggregatedLoad_new 2) []).
  - split_and!; cbn; try lia. intros t a Ht. by rewrite lookup_empty in Ht.
  - apply new_window_ok; lia.
  - done.
Qed.

Lemma finalized_blocks_are_counted_witness :
  ∃ c', fold_outcome (λ c e, shared_on_block_finalized elements c e.1 e.2) fresh_container
          [(first_finalized, both_accounts)] = Ok c' ∧
    thread_sync c' !! ThreadIdentifier_default = Some BlockIdentifier_default.
Proof.
  destruct (finalized_blocks_are_counted elements 10 10 fresh_container {[ ThreadIdentifier_default ]}
              [(first_finalized, both_accounts)]) as (c' & Hrun & _ & _ & Hlast).
  - done.
  - exact fresh_balancer_ok.
  - split; cbn; lia.
  - apply singleton_subseteq_l. cbn [fresh_container load_balancing set_load thread_load_map].
    rewrite dom_insert_L. apply elem_of_union_l, elem_of_singleton. reflexivity.
  - intros b o _. apply not_elem_of_empty.
  - apply NoDup_singleton.
  - split; [by apply elem_of_singleton|]. split; [|split; [cbn; lia|split; [vm_compute; discriminate|exact I]]].
    apply elem_of_list_to_set. right. left.
  - exists c'. split; [exact Hrun|]. exact (Hlast first_finalized both_accounts eq_refl).
Defined.
