(* ===== verification/ExternalMessages.v ===== *)
(** * External messages of a thread

    Models [external_messages/queue.rs], [stamp.rs] and [thread_state.rs]: the messages that
    come from outside wait in a bounded queue, keyed by a running index; the producer reads
    them grouped by account and erases the processed ones.

    The abstract state is the list of waiting messages in the order of arrival. *)
From Stdlib Require Import Ascii.
From stdpp Require Import base numbers gmap strings fin_maps sorting list.
From S2P Require Import Prelude Identifiers MessageStore.

(** Stamps are compared by their index alone; the timestamp is carried along. *)
Record Stamp := mkStamp { stamp_index : Z; stamp_timestamp : Z }.
Definition Stamp_eq (a b : Stamp) : bool := bool_decide (stamp_index a = stamp_index b).
Definition Stamp_cmp (a b : Stamp) : comparison := (stamp_index a ?= stamp_index b)%Z.

Section queue.
Context {M : Type} `{TvmMessage M}.

(** The map is keyed by the index of the stamp. *)
Record ExternalMessagesQueue := mkExtQueue {
  ext_messages : gmap Z (Stamp * (AccountAddress * M));
  last_index : Z;
}.
Implicit Types (q : ExternalMessagesQueue) (messages : list M).

Definition ExternalMessagesQueue_empty : ExternalMessagesQueue := mkExtQueue ∅ 0.

Definition queue_erase_processed q (processed : list Stamp) : ExternalMessagesQueue :=
  let to_remove : gset Z := list_to_set (stamp_index <$> processed) in
  mkExtQueue (filter (λ e, e.1 ∉ to_remove) (ext_messages q)) (last_index q).

Definition push_one (timestamp : Z) q (message : M) : outcome unit ExternalMessagesQueue :=
  checked 64 (last_index q + 1) ≫= λ cursor,
  unwrap (int_dst_account_id message) ≫= λ dst,
  Ok (mkExtQueue (<[cursor := (mkStamp cursor timestamp, (dst, message))]> (ext_messages q)) cursor).

Definition queue_push_external_messages q messages (timestamp : Z) : outcome unit ExternalMessagesQueue :=
  fold_outcome (push_one timestamp) q messages.

(** The entries in the order of their keys. *)
Definition waiting_in_order q : list (Stamp * (AccountAddress * M)) :=
  omap (λ i, ext_messages q !! i) (merge_sort Z.le (elements (dom (ext_messages q)))).

Definition group (g : gmap AccountAddress (list (Stamp * M))) (e : Stamp * (AccountAddress * M)) :
    gmap AccountAddress (list (Stamp * M)) :=
  <[e.2.1 := default [] (g !! e.2.1) ++ [(e.1, e.2.2)]]> g.
Definition unprocessed_messages q : gmap AccountAddress (list (Stamp * M)) := foldl group ∅ (waiting_in_order q).
End queue.
Arguments ExternalMessagesQueue : clear implicits.

(** ** The state of a thread *)
Section thread_state.
Context {M Feedback : Type} `{TvmMessage M}.
Variable create_queue_overflow_feedback : M → outcome unit Feedback.
Implicit Types (q : ExternalMessagesQueue M) (messages : list M).

(** [push_external_messages]: the queue is changed before the feedback is made; the result is the
    new queue with the list that is sent, if any. *)
Definition push_external_messages (cache_size : nat) q messages (now : Z) :
    outcome unit (ExternalMessagesQueue M * outcome unit (option (list Feedback))) :=
  let remaining := cache_size - size (ext_messages q) in
  let to_push := take (remaining `min` length messages) messages in
  let unused := drop (remaining `min` length messages) messages in
  queue_push_external_messages q to_push now ≫= λ q,
  Ok (q, match unused with
         | [] => Ok None
         | _ => map_outcome create_queue_overflow_feedback unused ≫= λ l, Ok (Some l)
         end).

Definition erase_processed q (processed : list Stamp) : ExternalMessagesQueue M := queue_erase_processed q processed.
Definition get_remaining_external_messages q : gmap AccountAddress (list (Stamp * M)) := unprocessed_messages q.
End thread_state.

(** ** The queue is a list of waiting messages *)
Section spec.
Context {M : Type} `{TvmMessage M}.
Implicit Types (q : ExternalMessagesQueue M) (messages : list M) (w : list (Stamp * (AccountAddress * M))).

Abbreviation index_of e := (stamp_index e.1).

(** [w] lists the waiting messages in the order of arrival. *)
Record waits q w : Prop := {
  w_sorted : StronglySorted Z.lt ((λ e, index_of e) <$> w);
  w_bounds : Forall (λ e, (0 < index_of e ≤ last_index q)%Z) w;
  w_map : ext_messages q = list_to_map ((λ e, (index_of e, e)) <$> w);
  w_last : (0 ≤ last_index q)%Z;
}.

Lemma sorted_nodup (l : list Z) : StronglySorted Z.lt l → NoDup l.
Proof.
  induction 1 as [|x l Hl IH Hx]; constructor; [|done]. intros Hin.
  rewrite Forall_forall in Hx. specialize (Hx _ Hin). lia.
Qed.

Lemma sorted_le (l : list Z) : StronglySorted Z.lt l → StronglySorted Z.le l.
Proof. induction 1 as [|x l Hl IH Hx]; constructor; [done|]. eapply Forall_impl; [exact Hx|]. cbn beta. lia. Qed.

Lemma waits_keys q w : waits q w → NoDup (((λ e, (index_of e, e)) <$> w).*1).
Proof. intros Hw. rewrite <- list_fmap_compose. apply sorted_nodup, (w_sorted _ _ Hw). Qed.

Lemma waits_lookup q w i e : waits q w → ext_messages q !! i = Some e ↔ e ∈ w ∧ index_of e = i.
Proof.
  intros Hw. rewrite (w_map _ _ Hw), <- elem_of_list_to_map by by apply (waits_keys q).
  rewrite list_elem_of_fmap. split; [by intros (x & [= -> ->] & Hx)|]. intros [Hx <-]. by exists e.
Qed.

Lemma waits_dom q w : waits q w → elements (dom (ext_messages q)) ≡ₚ (λ e, index_of e) <$> w.
Proof.
  intros Hw. apply NoDup_Permutation; [apply NoDup_elements|apply sorted_nodup, (w_sorted _ _ Hw)|].
  intros i. rewrite elem_of_elements, elem_of_dom, list_elem_of_fmap. split.
  - intros [e [He Hi]%(waits_lookup _ w)]; [|done]. by exists e.
  - intros (e & -> & He). exists e. by apply (waits_lookup _ w).
Qed.

Lemma waits_size q w : waits q w → size (ext_messages q) = length w.
Proof.
  intros Hw. rewrite <- size_dom. unfold size, set_size. simpl.
  rewrite (Permutation_length (waits_dom q w Hw)). apply length_fmap.
Qed.

(** Reading in the order of the keys gives the order of arrival. *)
Lemma waits_in_order q w : waits q w → waiting_in_order q = w.
Proof.
  intros Hw. unfold waiting_in_order.
  assert (merge_sort Z.le (elements (dom (ext_messages q))) = (λ e, index_of e) <$> w) as ->.
  { apply (StronglySorted_unique Z.le).
    - apply (StronglySorted_merge_sort Z.le).
    - apply sorted_le, (w_sorted _ _ Hw).
    - rewrite (merge_sort_Permutation Z.le). by apply waits_dom. }
  assert (∀ l : list (Stamp * (AccountAddress * M)), (∀ e, e ∈ l → e ∈ w) → omap (λ i, ext_messages q !! i) ((λ e, index_of e) <$> l) = l) as Hall.
  { induction l as [|e l IH]; intros Hl; [done|]. cbn.
    rewrite (proj2 (waits_lookup q w (index_of e) e Hw)); [|split; [apply Hl; by left|done]].
    f_equal. apply IH. intros x Hx. apply Hl. by right. }
  by apply Hall.
Qed.

(** *** Arrivals *)
Fixpoint arrivals (timestamp last : Z) messages : list (Stamp * (AccountAddress * M)) :=
  match messages with
  | [] => []
  | m :: messages =>
      match int_dst_account_id m with
      | Some dst => (mkStamp (last + 1) timestamp, (dst, m)) :: arrivals timestamp (last + 1) messages
      | None => []
      end
  end.

Lemma push_one_ok q w timestamp m : waits q w → is_Some (int_dst_account_id m) → (last_index q + 1 < 2 ^ 64)%Z →
  ∃ q', push_one timestamp q m = Ok q' ∧ last_index q' = (last_index q + 1)%Z ∧
    waits q' (w ++ arrivals timestamp (last_index q) [m]).
Proof.
  intros Hw [dst Hdst] Hlast. pose proof (w_last _ _ Hw). unfold push_one, checked.
  rewrite decide_True by (unfold in_width; lia). cbn [mbind outcome_bind]. rewrite Hdst. cbn [unwrap mbind outcome_bind].
  eexists. split; [done|]. split; [done|]. cbn [arrivals]. rewrite Hdst.
  pose proof (w_bounds _ _ Hw) as Hb.
  split; cbn [ext_messages last_index].
  - rewrite fmap_app. apply StronglySorted_app. split_and!.
    + intros x y (e & -> & He)%list_elem_of_fmap Hy. cbn in Hy. apply list_elem_of_singleton in Hy as ->.
      pose proof (proj1 (Forall_forall _ _) Hb e He). cbn beta in *. lia.
    + apply (w_sorted _ _ Hw).
    + repeat constructor.
  - apply Forall_app. split; [eapply Forall_impl; [exact Hb|]; cbn beta; lia|]. apply Forall_singleton. cbn. lia.
  - rewrite fmap_app. cbn [fmap list_fmap]. rewrite list_to_map_snoc.
    + by rewrite (w_map _ _ Hw).
    + intros ([i e] & Heq & (x & Hx & Hin)%list_elem_of_fmap)%list_elem_of_fmap. injection Hx as -> ->. cbn in Heq.
      pose proof (proj1 (Forall_forall _ _) Hb x Hin). cbn beta in *. lia.
  - lia.
Qed.

Lemma arrivals_app timestamp last m1 m2 : Forall (λ m, is_Some (int_dst_account_id m)) m1 →
  arrivals timestamp last (m1 ++ m2) =
  arrivals timestamp last m1 ++ arrivals timestamp (last + Z.of_nat (length m1)) m2.
Proof.
  intros Hm. revert last. induction Hm as [|m m1 [dst Hdst] Hm IH]; intros last; cbn [arrivals app length].
  - f_equal. lia.
  - rewrite Hdst, IH. cbn. do 3 f_equal. lia.
Qed.

Lemma push_ok messages q w timestamp : waits q w → Forall (λ m, is_Some (int_dst_account_id m)) messages →
  (last_index q + Z.of_nat (length messages) < 2 ^ 64)%Z →
  ∃ q', queue_push_external_messages q messages timestamp = Ok q' ∧
    last_index q' = (last_index q + Z.of_nat (length messages))%Z ∧
    waits q' (w ++ arrivals timestamp (last_index q) messages).
Proof.
  unfold queue_push_external_messages. revert q w.
  induction messages as [|m messages IH]; intros q w Hw Hm Hlast.
  { exists q. cbn. rewrite app_nil_r. split; [done|]. split; [lia|done]. }
  apply Forall_cons in Hm as [Hm Hms]. cbn [length] in *.
  destruct (push_one_ok q w timestamp m Hw Hm) as (q1 & Hrun & Hl1 & Hw1); [lia|].
  cbn [fold_outcome]. rewrite Hrun. cbn [mbind outcome_bind].
  destruct (IH q1 _ Hw1 Hms) as (q' & Hrun' & Hl' & Hw'); [lia|]. exists q'. split; [done|]. split; [lia|].
  rewrite <- app_assoc in Hw'. rewrite Hl1 in Hw'. cbn [arrivals] in *. destruct Hm as [dst Hdst].
  rewrite Hdst in *. exact Hw'.
Qed.

Lemma erase_ok q w processed : waits q w →
  waits (queue_erase_processed q processed) (filter (λ e, index_of e ∉ stamp_index <$> processed) w).
Proof.
  intros Hw. unfold queue_erase_processed. split; cbn [ext_messages last_index].
  - pose proof (w_sorted _ _ Hw) as Hs. clear Hw. induction w as [|e w IH]; [constructor|].
    cbn in Hs. apply StronglySorted_cons in Hs as [Hx Hs]. rewrite filter_cons. case_decide; [|by apply IH].
    cbn. constructor; [by apply IH|]. apply Forall_forall. intros i (x & -> & [_ Hin]%list_elem_of_filter)%list_elem_of_fmap.
    rewrite Forall_forall in Hx. apply Hx, list_elem_of_fmap. by exists x.
  - apply Forall_forall. intros e [_ He]%list_elem_of_filter.
    exact (proj1 (Forall_forall _ _) (w_bounds _ _ Hw) e He).
  - apply map_eq. intros i. apply option_eq. intros e. rewrite map_lookup_filter_Some, (waits_lookup q w) by done.
    rewrite <- elem_of_list_to_map.
    + rewrite list_elem_of_fmap. cbn [fst]. rewrite elem_of_list_to_set. split.
      * intros [[He <-] Hi]. exists e. split; [done|]. by apply list_elem_of_filter.
      * intros (x & [= -> ->] & [Hi Hx]%list_elem_of_filter). done.
    + pose proof (waits_keys q w Hw) as Hnd. clear Hw. induction w as [|x w IH]; [constructor|].
      cbn in Hnd. apply NoDup_cons in Hnd as [Hx Hnd]. rewrite filter_cons. case_decide; [|by apply IH].
      cbn. apply NoDup_cons. split; [|by apply IH].
      intros ([j y] & Hj & (z & Hz & [_ Hin]%list_elem_of_filter)%list_elem_of_fmap)%list_elem_of_fmap.
      apply Hx. apply list_elem_of_fmap. exists (j, y). split; [exact Hj|]. apply list_elem_of_fmap. by exists z.
  - apply (w_last _ _ Hw).
Qed.

(** *** Grouping *)
Lemma group_lookup w (g : gmap AccountAddress (list (Stamp * M))) a :
  default [] (foldl group g w !! a) =
  default [] (g !! a) ++ ((λ e, (e.1, e.2.2)) <$> filter (λ e, e.2.1 = a) w).
Proof.
  revert g. induction w as [|[st [dst m]] w IH]; intros g; cbn [foldl]; [by rewrite app_nil_r|].
  rewrite IH, filter_cons. unfold group. cbn [fst snd]. case_decide as Ha.
  - subst. rewrite lookup_insert_eq. cbn. by rewrite <- app_assoc.
  - by rewrite lookup_insert_ne.
Qed.
End spec.

(** ** Runs *)
Section runs.
Context {M Feedback : Type} `{TvmMessage M}.
Variable create_queue_overflow_feedback : M → outcome unit Feedback.
Variable cache_size : nat.
Implicit Types (q : ExternalMessagesQueue M) (w : list (Stamp * (AccountAddress * M))).

Inductive ExtOp := Push (messages : list M) (now : Z) | Erase (processed : list Stamp).

(** The queue, and the messages that were sent back. *)
Definition run_ext q (op : ExtOp) : outcome unit (ExternalMessagesQueue M) :=
  match op with
  | Push messages now =>
      push_external_messages create_queue_overflow_feedback cache_size q messages now ≫= λ '(q, _), Ok q
  | Erase processed => Ok (erase_processed q processed)
  end.

(** The specification: a bounded list, and the index of the last arrival. *)
Definition admitted w (messages : list M) : nat := (cache_size - length w) `min` length messages.
Definition ext_spec (st : list (Stamp * (AccountAddress * M)) * Z) (op : ExtOp) :
    list (Stamp * (AccountAddress * M)) * Z :=
  match op with
  | Push messages now =>
      (st.1 ++ arrivals now st.2 (take (admitted st.1 messages) messages),
       st.2 + Z.of_nat (admitted st.1 messages))%Z
  | Erase processed => (filter (λ e, stamp_index e.1 ∉ stamp_index <$> processed) st.1, st.2)
  end.

Definition pushed (op : ExtOp) : list M := match op with Push messages _ => messages | Erase _ => [] end.

Lemma arrivals_length timestamp last messages : length (arrivals timestamp last messages) ≤ length messages.
Proof.
  revert last. induction messages as [|m messages IH]; intros last; cbn; [done|].
  destruct (int_dst_account_id m); cbn; [specialize (IH (last + 1)%Z); lia|lia].
Qed.

Lemma ext_step q w op : waits q w → length w ≤ cache_size →
  Forall (λ m, is_Some (int_dst_account_id m)) (pushed op) →
  (last_index q + Z.of_nat (length (pushed op)) < 2 ^ 64)%Z →
  ∃ q', run_ext q op = Ok q' ∧ waits q' (ext_spec (w, last_index q) op).1 ∧
    last_index q' = (ext_spec (w, last_index q) op).2 ∧ length (ext_spec (w, last_index q) op).1 ≤ cache_size.
Proof.
  intros Hw Hlen Hm Hlast. destruct op as [messages now|processed]; cbn [run_ext ext_spec pushed fst snd] in *.
  - unfold push_external_messages. rewrite (waits_size q w Hw). fold (admitted w messages).
    assert (length (take (admitted w messages) messages) = admitted w messages) as Htake.
    { rewrite length_take. unfold admitted. lia. }
    destruct (push_ok (take (admitted w messages) messages) q w now Hw) as (q' & -> & Hl & Hw').
    + by apply Forall_take.
    + rewrite Htake. unfold admitted. lia.
    + cbn [mbind outcome_bind]. exists q'. split; [done|]. split; [done|]. split; [by rewrite Hl, Htake|].
      rewrite length_app. pose proof (arrivals_length now (last_index q) (take (admitted w messages) messages)) as Ha.
      rewrite Htake in Ha. unfold admitted in *. lia.
  - eexists. split; [done|]. split; [by apply erase_ok|]. split; [done|].
    etransitivity; [apply length_filter|done].
Qed.

Lemma ext_run q w ops : waits q w → length w ≤ cache_size →
  Forall (λ op, Forall (λ m, is_Some (int_dst_account_id m)) (pushed op)) ops →
  (last_index q + Z.of_nat (length (concat (pushed <$> ops))) < 2 ^ 64)%Z →
  ∃ q', fold_outcome run_ext q ops = Ok q' ∧ waits q' (foldl ext_spec (w, last_index q) ops).1 ∧
    length (foldl ext_spec (w, last_index q) ops).1 ≤ cache_size.
Proof.
  intros Hw Hlen Hops. revert q w Hw Hlen. induction Hops as [|op ops Hop Hops IH]; intros q w Hw Hlen Hlast.
  { by exists q. }
  cbn [fmap list_fmap concat] in Hlast. rewrite length_app in Hlast.
  destruct (ext_step q w op Hw Hlen Hop) as (q1 & Hrun & Hw1 & Hl1 & Hlen1); [lia|].
  cbn [fold_outcome foldl]. rewrite Hrun. cbn [mbind outcome_bind].
  rewrite (surjective_pairing (ext_spec (w, last_index q) op)), <- Hl1. apply IH; [done|done|].
  rewrite Hl1. destruct op as [messages now|]; cbn [ext_spec snd pushed] in *; [unfold admitted; lia|cbn in Hlast; lia].
Qed.
End runs.
Arguments ExtOp : clear implicits.

(** ExternalMessagesThreadState: the queue of external messages is a bounded list in the order of
    arrival, for every sequence of pushes and erasures: a push admits the messages that still
    fit and sends the others back, an erasure removes exactly the processed stamps, stamps are
    never reused, and the producer gets, for every account, its waiting messages in the order
    of arrival. *)
Theorem external_queue_refines {M Feedback : Type} `{TvmMessage M} (feedback : M → outcome unit Feedback)
    cache_size (ops : list (ExtOp M)) :
  Forall (λ op, Forall (λ m, is_Some (int_dst_account_id m)) (pushed op)) ops →
  (Z.of_nat (length (concat (pushed <$> ops))) < 2 ^ 64)%Z →
  let w := (foldl (ext_spec cache_size) ([], 0%Z) ops).1 in
  ∃ q, fold_outcome (run_ext feedback cache_size) ExternalMessagesQueue_empty ops = Ok q ∧
    waits q w ∧ length w ≤ cache_size ∧
    (∀ a, default [] (get_remaining_external_messages q !! a) =
          (λ e, (e.1, e.2.2)) <$> filter (λ e, e.2.1 = a) w) ∧
    (∀ messages now, Forall (λ m, is_Some (int_dst_account_id m)) messages →
       (last_index q + Z.of_nat (length messages) < 2 ^ 64)%Z →
       ∃ q', push_external_messages feedback cache_size q messages now =
         Ok (q', match drop (cache_size - length w) messages with
                 | [] => Ok None
                 | unused => map_outcome feedback unused ≫= λ l, Ok (Some l)
                 end)).
Proof.
  intros Hops Hlast w.
  destruct (ext_run feedback cache_size ExternalMessagesQueue_empty [] ops) as (q & Hrun & Hw & Hlen); [|cbn; lia|done|done|].
  { split; cbn; [constructor|constructor|done|lia]. }
  cbn [last_index ExternalMessagesQueue_empty] in *. fold w in Hw, Hlen. exists q. split; [done|]. split; [done|].
  split; [done|]. split.
  - intros a. unfold get_remaining_external_messages, unprocessed_messages. rewrite (waits_in_order q w Hw).
    by rewrite group_lookup, lookup_empty.
  - intros messages now Hm Hl. unfold push_external_messages. rewrite (waits_size q w Hw).
    set (n := (cache_size - length w) `min` length messages).
    destruct (push_ok (take n messages) q w now Hw) as (q' & -> & _ & _).
    + by apply Forall_take.
    + rewrite length_take. lia.
    + cbn [mbind outcome_bind]. exists q'.
      assert (drop n messages = drop (cache_size - length w) messages) as ->; [|by destruct (drop _ messages)]. unfold n.
      destruct (decide (cache_size - length w ≤ length messages)); [by rewrite Nat.min_l|].
      by rewrite Nat.min_r, drop_all, drop_ge by lia.
Qed.

(** ** Example *)
#[local] Existing Instance text_message.
Lemma external_queue_refines_witness :
  ∃ q, fold_outcome (run_ext (λ m : string, Ok (E := unit) m) 2) ExternalMessagesQueue_empty
         [Push [text "a" "1"; text "b" "1"; text "a" "2"] 7; Erase [mkStamp 1 7]; Push [text "a" "3"] 8] = Ok q ∧
    default [] (get_remaining_external_messages q !! alice) = [(mkStamp 3 8, text "a" "3")].
Proof.
  destruct (external_queue_refines (λ m : string, Ok (E := unit) m) 2
    [Push [text "a" "1"; text "b" "1"; text "a" "2"] 7; Erase [mkStamp 1 7]; Push [text "a" "3"] 8])
    as (q & Hrun & _ & _ & Hgroup & _).
  - repeat apply Forall_cons_2; try apply Forall_nil_2; cbn [pushed];
      repeat apply Forall_cons_2; try apply Forall_nil_2; by eexists.
  - vm_compute. reflexivity.
  - exists q. split; [exact Hrun|]. rewrite Hgroup. vm_compute. reflexivity.
Defined.
