(* ===== verification/NetworkMessage.v ===== *)
(** * Messages between nodes

    Models [node/network_message/mod.rs] and [serde_network_message.rs] (the messages and their
    encoding), [network/src/message.rs] (the envelope they travel in), the decoding of an
    incoming message in [network/src/pub_sub/connection.rs], and
    [protocol/authority_switch/routing.rs].

    [bincode] and [zstd] are third-party code: the payloads are encoded by [Serialize] and
    [Deserialize], the numbered variants of an enum by [BincodeEnum], and the compression is
    [Zstd].  What the node relies on (decoding undoes encoding) are the classes [Codec],
    [BincodeEnumLaw] and [ZstdLaw].  Metrics and tracing are not modelled. *)
From stdpp Require Import base numbers gmap strings pretty fin_maps sorting list.
From S2P Require Import Prelude Identifiers Bls BlockKeepers Envelope Attestation Checkpoints Statistics BlockState RoundTime ActionLock NextRound BlockProcessor AuthoritySwitch.

Record AckData := mkAckData { ack_block_id : BlockIdentifier; ack_block_seq_no : BlockSeqNo }.

(** [NackData] and [NackReason] refer to each other. *)
Inductive NackData `{Blst} :=
  | mkNackData (nack_block_id : BlockIdentifier) (nack_block_seq_no : BlockSeqNo) (nack_reason : NackReason)
with NackReason `{Blst} :=
  | BadBlock (envelope : Envelope AckiNackiBlock)
  | WrongNack (nack_data_envelope : Envelope NackData).

#[global] Instance AckData_eq_dec : EqDecision AckData.
Proof. solve_decision. Defined.
#[global] Instance AckiNackiBlock_eq_dec : EqDecision AckiNackiBlock.
Proof. solve_decision. Defined.
#[global] Instance NackData_eq_dec `{Blst} : EqDecision NackData.
Proof.
  unfold EqDecision, RelDecision. fix same 1. intros x y.
  destruct x as [b1 n1 [e1|[sig1 occ1 d1]]], y as [b2 n2 [e2|[sig2 occ2 d2]]]; try (right; congruence).
  - destruct (decide (b1 = b2 ∧ n1 = n2 ∧ e1 = e2)) as [(-> & -> & ->)|Hne]; [by left|].
    right. intros [=]. by apply Hne.
  - destruct (same d1 d2) as [->|Hd]; [|right; congruence].
    destruct (decide (b1 = b2 ∧ n1 = n2 ∧ sig1 = sig2 ∧ occ1 = occ2)) as [(-> & -> & -> & ->)|Hne]; [by left|].
    right. intros [=]. by apply Hne.
Defined.

Inductive NetworkMessage `{Blst} {M : Type} :=
  | Candidate (b : NetBlock)
  | ResentCandidate (e : NetBlock * NodeIdentifier)
  | Ack (e : Envelope AckData * ThreadIdentifier)
  | Nack (e : Envelope NackData * ThreadIdentifier)
  | ExternalMessage (e : M * ThreadIdentifier)
  | NodeJoining (e : NodeIdentifier * ThreadIdentifier)
  | BlockAttestation (e : Envelope AttestationData * ThreadIdentifier)
  | BlockRequest (inclusive_from exclusive_to : BlockSeqNo) (requester : NodeIdentifier)
      (thread_id : ThreadIdentifier) (at_least_n_blocks : option Z)
  | SyncFrom (e : BlockSeqNo * ThreadIdentifier)
  | SyncFinalized (e : BlockIdentifier * BlockSeqNo * gmap ThreadIdentifier BlockIdentifier * ThreadIdentifier)
  | AuthoritySwitchProtocol (e : AuthoritySwitch)
  | StartSynchronization.
Arguments NetworkMessage {_} M.

(** [authority_switch::routing::route] *)
Definition AuthoritySwitch_route `{Blst} (m : AuthoritySwitch) : ThreadIdentifier :=
  match m with
  | SwitchRequest e => Identifiers.thread_identifier (lock_height (data (lock e)))
  | SwitchReject e => reject_thread_identifier e
  | SwitchRejectTooOld t => t
  | Switched e => Identifiers.thread_identifier (success_block_height (data e))
  | SwitchFailed e => Identifiers.thread_identifier (failed_block_height (data e))
  end.

(** ** Encoding *)
(** The numbered variants of an enum: an index of 32 bits and the encoding of the payload. *)
Class BincodeEnum := {
  newtype_variant : Z → list Z → list Z;
  read_variant : list Z → option (Z * list Z);
}.
Class BincodeEnumLaw `{BincodeEnum} :=
  variant_read_back i payload : (0 ≤ i < 2 ^ 32)%Z → read_variant (newtype_variant i payload) = Some (i, payload).
Class Codec (A : Type) `{Serialize A} `{Deserialize A} :=
  decode_encode (a : A) bytes : bincode_serialize a = Some bytes → bincode_deserialize bytes = Some a.

Class Zstd := { zstd_encode_all : list Z → option (list Z); zstd_decode_all : list Z → option (list Z) }.
Class ZstdLaw `{Zstd} :=
  decompress_compress bytes packed : zstd_encode_all bytes = Some packed → zstd_decode_all packed = Some bytes.

Section serde.
Context `{Blst} {M : Type} `{BincodeEnum}.
Context `{Serialize NetBlock} `{Serialize (NetBlock * NodeIdentifier)}.
Context `{Serialize (Envelope AckData * ThreadIdentifier)} `{Serialize (Envelope NackData * ThreadIdentifier)}.
Context `{Serialize (M * ThreadIdentifier)} `{Serialize (NodeIdentifier * ThreadIdentifier)}.
Context `{Serialize (Envelope AttestationData * ThreadIdentifier)}.
Context `{Serialize (BlockSeqNo * BlockSeqNo * NodeIdentifier * ThreadIdentifier * option Z)}.
Context `{Serialize (BlockSeqNo * ThreadIdentifier)}.
Context `{Serialize (BlockIdentifier * BlockSeqNo * gmap ThreadIdentifier BlockIdentifier * ThreadIdentifier)}.
Context `{Serialize AuthoritySwitch} `{Serialize ()}.

Definition serialize_newtype_variant {A} `{Serialize A} (i : Z) (e : A) : option (list Z) :=
  newtype_variant i <$> bincode_serialize e.

Definition NetworkMessage_serialize (m : NetworkMessage M) : option (list Z) :=
  match m with
  | Candidate e => serialize_newtype_variant 0 e
  | Ack e => serialize_newtype_variant 1 e
  | Nack e => serialize_newtype_variant 2 e
  | ExternalMessage e => serialize_newtype_variant 3 e
  | NodeJoining e => serialize_newtype_variant 4 e
  | BlockAttestation e => serialize_newtype_variant 5 e
  | BlockRequest inclusive_from exclusive_to requester thread_id at_least_n_blocks =>
      serialize_newtype_variant 6 (inclusive_from, exclusive_to, requester, thread_id, at_least_n_blocks)
  | SyncFrom e => serialize_newtype_variant 7 e
  | SyncFinalized e => serialize_newtype_variant 8 e
  | ResentCandidate e => serialize_newtype_variant 9 e
  | AuthoritySwitchProtocol e => serialize_newtype_variant 10 e
  | StartSynchronization => serialize_newtype_variant 11 ()
  end.

Context `{Deserialize NetBlock} `{Deserialize (NetBlock * NodeIdentifier)}.
Context `{Deserialize (Envelope AckData * ThreadIdentifier)} `{Deserialize (Envelope NackData * ThreadIdentifier)}.
Context `{Deserialize (M * ThreadIdentifier)} `{Deserialize (NodeIdentifier * ThreadIdentifier)}.
Context `{Deserialize (Envelope AttestationData * ThreadIdentifier)}.
Context `{Deserialize (BlockSeqNo * BlockSeqNo * NodeIdentifier * ThreadIdentifier * option Z)}.
Context `{Deserialize (BlockSeqNo * ThreadIdentifier)}.
Context `{Deserialize (BlockIdentifier * BlockSeqNo * gmap ThreadIdentifier BlockIdentifier * ThreadIdentifier)}.
Context `{Deserialize AuthoritySwitch}.

(** [v.newtype_variant().map(..)] *)
Definition deserialize_newtype_variant {A B} `{Deserialize A} (payload : list Z) (f : A → B) : outcome unit B :=
  ok_or (f <$> bincode_deserialize payload) ().

(** [visit_enum]; the index is read as an [i32], and an unknown one is [unreachable!()]. *)
Definition visit_enum (i : Z) (v : list Z) : outcome unit (NetworkMessage M) :=
  match i with
  | 0 => deserialize_newtype_variant v Candidate
  | 1 => deserialize_newtype_variant v Ack
  | 2 => deserialize_newtype_variant v Nack
  | 3 => deserialize_newtype_variant v ExternalMessage
  | 4 => deserialize_newtype_variant v NodeJoining
  | 5 => deserialize_newtype_variant v BlockAttestation
  | 6 => deserialize_newtype_variant v (λ '(inclusive_from, exclusive_to, requester, thread_id, at_least_n_blocks),
           BlockRequest inclusive_from exclusive_to requester thread_id at_least_n_blocks)
  | 7 => deserialize_newtype_variant v SyncFrom
  | 8 => deserialize_newtype_variant v SyncFinalized
  | 9 => deserialize_newtype_variant v ResentCandidate
  | 10 => deserialize_newtype_variant v AuthoritySwitchProtocol
  | _ => Panic
  end%Z.

Definition NetworkMessage_deserialize (bytes : list Z) : outcome unit (NetworkMessage M) :=
  match read_variant bytes with
  | None => Err ()
  | Some (i, v) => if bool_decide (i < 2 ^ 31)%Z then visit_enum i v else Err ()
  end.
End serde.

(** The alternate form of [Debug], the label of a message. *)
Definition NetworkMessage_label `{Blst} {M : Type} (m : NetworkMessage M) : string :=
  match m with
  | Candidate _ => "Candidate"
  | ResentCandidate _ => "ResentCandidate"
  | Ack _ => "Ack"
  | Nack _ => "Nack"
  | ExternalMessage _ => "ExternalMessage"
  | NodeJoining _ => "NodeJoining"
  | BlockAttestation _ => "BlockAttestation"
  | BlockRequest _ _ _ _ _ => "BlockRequest"
  | SyncFinalized _ => "SyncFinalized"
  | SyncFrom _ => "SyncFrom"
  | AuthoritySwitchProtocol (SwitchRequest _) => "AuthoritySwitch::Request"
  | AuthoritySwitchProtocol (SwitchReject _) => "AuthoritySwitch::Reject"
  | AuthoritySwitchProtocol (SwitchRejectTooOld _) => "AuthoritySwitch::RejectTooOld"
  | AuthoritySwitchProtocol (Switched _) => "AuthoritySwitch::Success"
  | AuthoritySwitchProtocol (SwitchFailed _) => "AuthoritySwitch::Failed"
  | StartSynchronization => "StartSynchronization"
  end.

(** ** The envelope of a message *)
Definition MAX_UNCOMPRESSED_SIZE : nat := Eval cbv in 1000.

Record NetMessage := mkNetMessage {
  delivery_start_timestamp_ms : Z;
  net_id : string;
  net_label : string;
  compressed : bool;
  net_data : list Z;
  last_sender_is_proxy : bool;
  received_at : Z;
}.

(** The error is a text. *)
Definition delivery_duration_ms (now : Z) (m : NetMessage) : outcome unit Z :=
  if bool_decide (delivery_start_timestamp_ms m ≤ now)%Z then Ok (now - delivery_start_timestamp_ms m)%Z
  else if bool_decide (delivery_start_timestamp_ms m - now < 5)%Z then Ok 0%Z
  else Err ().

Section net_message.
Context {Message : Type} `{Zstd}.
Variable label : Message → string.
Variable serialize : Message → option (list Z).
Variable deserialize : list Z → outcome unit Message.

(** [now_nanos] is the time since the epoch; the size is the one before compression. *)
Definition NetMessage_encode (now_nanos : Z) (m : Message) : outcome unit (NetMessage * nat) :=
  ok_or (serialize m) () ≫= λ bytes,
  let uncompressed_size := length bytes in
  let packed := bool_decide (MAX_UNCOMPRESSED_SIZE < uncompressed_size) in
  (if packed then ok_or (zstd_encode_all bytes) () else Ok bytes) ≫= λ bytes,
  Ok (mkNetMessage ((now_nanos / 10 ^ 6) mod 2 ^ 64)%Z (pretty now_nanos) (label m) packed bytes false 0,
      uncompressed_size).

Definition NetMessage_decode (n : NetMessage) : outcome unit Message :=
  (if compressed n then ok_or (zstd_decode_all (net_data n)) () else Ok (net_data n)) ≫= deserialize.

(** [IncomingMessage::finish]; the delivery time is only reported. *)
Definition IncomingMessage_finish (n : NetMessage) : outcome Empty_set (option Message) :=
  match NetMessage_decode n with
  | Ok m => Ok (Some m)
  | Err _ => Ok None
  | Panic => Panic
  end.

(** ** Decoding undoes encoding *)
Context `{!ZstdLaw}.

Lemma decode_encoded now m n size :
  NetMessage_encode now m = Ok (n, size) →
  ∃ bytes, serialize m = Some bytes ∧ size = length bytes ∧ NetMessage_decode n = deserialize bytes.
Proof.
  unfold NetMessage_encode, NetMessage_decode. destruct (serialize m) as [bytes|]; [|done]. simpl.
  case_bool_decide; simpl; [|intros [= <- <-]; eauto].
  destruct (zstd_encode_all bytes) as [packed|] eqn:He; [|done]. intros [= <- <-]. simpl.
  rewrite (decompress_compress _ _ He). eauto.
Qed.
End net_message.

Section roundtrip.
Context `{Blst} {M : Type} `{BincodeEnum, !BincodeEnumLaw} `{Zstd, !ZstdLaw}.
Context `{Codec NetBlock} `{Codec (NetBlock * NodeIdentifier)}.
Context `{Codec (Envelope AckData * ThreadIdentifier)} `{Codec (Envelope NackData * ThreadIdentifier)}.
Context `{Codec (M * ThreadIdentifier)} `{Codec (NodeIdentifier * ThreadIdentifier)}.
Context `{Codec (Envelope AttestationData * ThreadIdentifier)}.
Context `{Codec (BlockSeqNo * BlockSeqNo * NodeIdentifier * ThreadIdentifier * option Z)}.
Context `{Codec (BlockSeqNo * ThreadIdentifier)}.
Context `{Codec (BlockIdentifier * BlockSeqNo * gmap ThreadIdentifier BlockIdentifier * ThreadIdentifier)}.
Context `{Codec AuthoritySwitch} `{Serialize ()}.

Lemma variant_decoded {A} `{Codec A} i (e : A) bytes (m : NetworkMessage M) :
  serialize_newtype_variant i e = Some bytes → (0 ≤ i < 2 ^ 31)%Z →
  (∀ v, bincode_deserialize v = Some e → visit_enum i v = Ok m) → NetworkMessage_deserialize bytes = Ok m.
Proof.
  unfold serialize_newtype_variant, NetworkMessage_deserialize. intros Hs Hi Hv.
  destruct (bincode_serialize e) as [v|] eqn:He; [|done]. injection Hs as <-.
  rewrite variant_read_back by lia. rewrite bool_decide_true by lia.
  by apply Hv, (decode_encode e).
Qed.

Lemma deserialize_serialize (m : NetworkMessage M) bytes :
  NetworkMessage_serialize m = Some bytes →
  NetworkMessage_deserialize bytes = match m with StartSynchronization => Panic | _ => Ok m end.
Proof.
  destruct m; simpl; intros Hs;
    try (apply (variant_decoded _ _ _ _ Hs); [done|];
         intros v Hv; unfold visit_enum, deserialize_newtype_variant; by rewrite Hv).
  unfold serialize_newtype_variant in Hs. destruct (bincode_serialize ()) as [v|]; [|done].
  injection Hs as <-. unfold NetworkMessage_deserialize.
  rewrite variant_read_back by done. by rewrite bool_decide_true by done.
Qed.

(** C32 (wire): a message that a node encodes, compresses and sends is received as it was sent,
    whatever its kind and size, and messages of more than 1000 bytes travel compressed. The only
    exception is the local command to start a synchronization: it can be encoded, but the
    receiver panics on it. *)
Theorem network_message_roundtrip now (m : NetworkMessage M) n size :
  NetMessage_encode NetworkMessage_label NetworkMessage_serialize now m = Ok (n, size) →
  compressed n = bool_decide (1000 < size) ∧
  IncomingMessage_finish NetworkMessage_deserialize n =
    match m with StartSynchronization => Panic | _ => Ok (Some m) end.
Proof.
  intros Hn. split.
  - unfold NetMessage_encode in Hn. inv_outcome. by simplify_eq/=.
  - destruct (decode_encoded _ _ NetworkMessage_deserialize _ _ _ _ Hn) as (bytes & Hb & -> & Hd).
    unfold IncomingMessage_finish. rewrite Hd, (deserialize_serialize _ _ Hb). by destruct m.
Qed.
End roundtrip.

(** ** An index without a variant *)
(** The peer chooses the index: any of [11 .. 2^31 - 1] makes the receiver panic. *)
Lemma unknown_variant_panics `{Blst} {M : Type} `{BincodeEnum} `{Zstd}
    `{Deserialize NetBlock} `{Deserialize (NetBlock * NodeIdentifier)}
    `{Deserialize (Envelope AckData * ThreadIdentifier)} `{Deserialize (Envelope NackData * ThreadIdentifier)}
    `{Deserialize (M * ThreadIdentifier)} `{Deserialize (NodeIdentifier * ThreadIdentifier)}
    `{Deserialize (Envelope AttestationData * ThreadIdentifier)}
    `{Deserialize (BlockSeqNo * BlockSeqNo * NodeIdentifier * ThreadIdentifier * option Z)}
    `{Deserialize (BlockSeqNo * ThreadIdentifier)}
    `{Deserialize (BlockIdentifier * BlockSeqNo * gmap ThreadIdentifier BlockIdentifier * ThreadIdentifier)}
    `{Deserialize AuthoritySwitch} (n : NetMessage) i v :
  compressed n = false → read_variant (net_data n) = Some (i, v) → (11 ≤ i < 2 ^ 31)%Z →
  IncomingMessage_finish (NetworkMessage_deserialize (M := M)) n = Panic.
Proof.
  intros Hc Hr Hi. unfold IncomingMessage_finish, NetMessage_decode. rewrite Hc. simpl.
  unfold NetworkMessage_deserialize. rewrite Hr, bool_decide_true by lia.
  unfold visit_enum. destruct i as [|i|]; [lia| |lia]. do 4 (destruct i as [i|i|]; try lia; try done).
Qed.

(** ** An instance *)
Section WireExample.
#[local] Existing Instance LinearBlst.

#[local] Instance no_serialize {A} : Serialize A | 10 := λ _, None.
#[local] Instance no_deserialize {A} : Deserialize A | 10 := λ _, None.
#[local] Instance no_codec {A} : Codec A | 10.
Proof. intros a bytes Ha. discriminate Ha. Qed.

#[local] Instance request_serialize : Serialize (BlockSeqNo * ThreadIdentifier) | 0 :=
  λ e, Some (e.1 :: thread_id_bytes e.2).
#[local] Instance request_deserialize : Deserialize (BlockSeqNo * ThreadIdentifier) | 0 :=
  λ bytes, match bytes with [] => None | n :: t => Some (n, ThreadId t) end.
#[local] Instance request_codec : Codec (BlockSeqNo * ThreadIdentifier) | 0.
Proof. intros [n [t]] bytes [= <-]. done. Qed.

#[local] Instance head_variant : BincodeEnum :=
  {| newtype_variant i payload := i :: payload;
     read_variant bytes := match bytes with [] => None | i :: payload => Some (i, payload) end |}.
#[local] Instance head_variant_law : BincodeEnumLaw.
Proof. done. Qed.
#[local] Instance no_compression : Zstd :=
  {| zstd_encode_all bytes := Some bytes; zstd_decode_all bytes := Some bytes |}.
#[local] Instance no_compression_law : ZstdLaw.
Proof. by intros bytes packed [= <-]. Qed.

Definition sync_request : NetworkMessage unit := SyncFrom (7%Z, ThreadIdentifier_default).
Definition sent_request : NetMessage :=
  mkNetMessage 1700000000000 (pretty (1700000000000000000 : Z)) "SyncFrom" false
    (7 :: 7 :: replicate 34 0)%Z false 0.

Lemma network_message_roundtrip_witness :
  NetMessage_encode NetworkMessage_label NetworkMessage_serialize 1700000000000000000 sync_request =
    Ok (sent_request, 36) ∧
  compressed sent_request = bool_decide (1000 < 36) ∧
  IncomingMessage_finish NetworkMessage_deserialize sent_request = Ok (Some sync_request).
Proof.
  split; [vm_compute; reflexivity|].
  refine (network_message_roundtrip (M := unit) 1700000000000000000 sync_request sent_request 36 _).
  vm_compute; reflexivity.
Defined.
End WireExample.
