(* ===== verification/Routing.v ===== *)
(** * The routing service

    Models [multithreading/routing]: [dispatcher.rs] (the channels of the node threads),
    [poisoned_queue.rs] (the bounded buffer of messages that found no thread) and [service.rs]
    (the main loop, which starts the threads and routes the messages, the loop that forwards
    messages from the network, and the two loops around the registry of external messages that
    wait for feedback).

    A channel is the list of what the service has sent into it, and whether its receiver is gone.
    The closure that builds a node is a parameter with its own state; it may fail.  The shutdown
    flag may be raised at any time, so each of its readings is an argument.  An iteration of a
    loop is one step: the receivers of a thread are dropped between two iterations of the main
    loop.  A oneshot sender is a number; that the receiver of an answer may be gone does not
    matter to the service. *)
From Stdlib Require Import Ascii.
From stdpp Require Import base numbers gmap strings fin_maps sorting list.
From S2P Require Import Prelude Identifiers Bitmask Bls BlockKeepers Envelope Attestation Checkpoints Statistics BlockState RoundTime ActionLock NextRound BlockProcessor AuthoritySwitch MessageStore CrossThread LoadBalancing NetworkMessage.

(** ** Channels *)
Record Channel (A : Type) := mkChannel { sent : list A; receiver_dropped : bool }.
Arguments mkChannel {_} _ _.
Arguments sent {_} _.
Arguments receiver_dropped {_} _.
Definition channel {A : Type} : Channel A := mkChannel [] false.
Definition send {A : Type} (c : Channel A) (a : A) : option (Channel A) :=
  if receiver_dropped c then None else Some (mkChannel (sent c ++ [a]) false).
Definition drop_receiver {A : Type} (c : Channel A) : Channel A := mkChannel (sent c) true.

(** ** The dispatcher *)
(** The channel of the node of a thread and the one of its authority switch service. *)
Abbreviation Dispatcher M :=
  (gmap ThreadIdentifier (Channel (NetworkMessage M) * Channel (NetworkMessage M))).

Section dispatcher.
Context `{Blst} {M : Type}.
Notation Payload := (NetworkMessage M).

Inductive DispatchError :=
  | NoRoute (t : ThreadIdentifier) (m : Payload)
  | DestinationClosed (t : ThreadIdentifier) (m : Payload).

Implicit Types d : Dispatcher M.

Definition has_route d (t : ThreadIdentifier) : bool := bool_decide (is_Some (d !! t)).
Definition add_route d (t : ThreadIdentifier) (node authority : Channel Payload) : Dispatcher M :=
  <[t := (node, authority)]> d.

(** Whether a message is for the authority, and its thread; the local command has no thread. *)
Definition destination (m : Payload) : option (bool * ThreadIdentifier) :=
  match m with
  | AuthoritySwitchProtocol e => Some (true, AuthoritySwitch_route e)
  | Candidate b | ResentCandidate (b, _) => Some (false, net_thread_id b)
  | ExternalMessage (_, t) => Some (false, t)
  | Ack (_, t) => Some (false, t)
  | Nack (_, t) => Some (false, t)
  | BlockAttestation (_, t) => Some (false, t)
  | NodeJoining (_, t) => Some (false, t)
  | BlockRequest _ _ _ t _ => Some (false, t)
  | SyncFinalized (_, _, _, t) => Some (false, t)
  | SyncFrom (_, t) => Some (false, t)
  | StartSynchronization => None
  end.

Definition dispatch d (m : Payload) : outcome DispatchError (Dispatcher M) :=
  match destination m with
  | None => Ok d
  | Some (is_authority, t) =>
      match d !! t with
      | Some (sender, authority) =>
          if is_authority : bool
          then ok_or (send authority m) (DestinationClosed t m) ≫= λ authority, Ok (<[t := (sender, authority)]> d)
          else ok_or (send sender m) (DestinationClosed t m) ≫= λ sender, Ok (<[t := (sender, authority)]> d)
      | None => Err (NoRoute t m)
      end
  end.
End dispatcher.
Arguments DispatchError {_} M.

(** ** The poisoned queue *)
Section poisoned_queue.
Context {T : Type}.

Record PoisonedQueue := mkPoisonedQueue { pq_buffer : list T; pq_capacity : Z }.
Definition PoisonedQueue_new (capacity : Z) : PoisonedQueue := mkPoisonedQueue [] capacity.

Definition PoisonedQueue_push (q : PoisonedQueue) (item : T) : PoisonedQueue :=
  let buffer := pq_buffer q ++ [item] in
  mkPoisonedQueue
    (if bool_decide (pq_capacity q < Z.of_nat (length buffer))%Z then tail buffer else buffer) (pq_capacity q).

(** [retain] with a closure that changes a state. *)
Fixpoint retain_loop {S : Type} (f : S → T → S * bool) (s : S) (buffer : list T) : S * list T :=
  match buffer with
  | [] => (s, [])
  | item :: rest =>
      let '(s, keep) := f s item in
      let '(s, rest) := retain_loop f s rest in
      (s, if keep then item :: rest else rest)
  end.
Definition PoisonedQueue_retain {S : Type} (f : S → T → S * bool) (s : S) (q : PoisonedQueue) :
    S * PoisonedQueue :=
  let '(s, buffer) := retain_loop f s (pq_buffer q) in (s, mkPoisonedQueue buffer (pq_capacity q)).
End poisoned_queue.
Arguments PoisonedQueue : clear implicits.

Definition MAX_POISONED_QUEUE_SIZE : Z := 10000.

(** ** The main loop *)
Section service.
Context `{Blst} {M F : Type}.

Inductive Command :=
  | ExtMessage (m : NetworkMessage M)
  | Route (m : NetworkMessage M)
  | StartThread (t : ThreadIdentifier) (parent_block : BlockIdentifier)
  | JoinThread (t : ThreadIdentifier).

Record NodeHandler := mkNodeHandler {
  node_thread : ThreadIdentifier;
  node_parent : option BlockIdentifier;
  is_spawned_from_node_sync : bool;
}.

Record Router := mkRouter {
  dispatcher : Dispatcher M;
  poisoned_queue : PoisonedQueue (NetworkMessage M);
  ext_message_router : gmap ThreadIdentifier (Channel M);
  node_handlers : list NodeHandler;
  factory : F;
}.
Definition Router_new (f : F) : Router := mkRouter ∅ (PoisonedQueue_new MAX_POISONED_QUEUE_SIZE) ∅ [] f.
Implicit Types r : Router.

Variable node_factory : F → option BlockIdentifier → ThreadIdentifier → outcome unit F.

(** A message for a closed destination is dropped. *)
Definition route (d : Dispatcher M) (m : NetworkMessage M) (q : PoisonedQueue (NetworkMessage M)) :
    Dispatcher M * PoisonedQueue (NetworkMessage M) :=
  match dispatch d m with
  | Ok d => (d, q)
  | Err (NoRoute _ m) => (d, PoisonedQueue_push q m)
  | Err (DestinationClosed _ _) => (d, q)
  | Panic => (d, q)
  end.

(** [dispatcher.dispatch(message.clone()).is_err()] *)
Definition redispatch (d : Dispatcher M) (m : NetworkMessage M) : Dispatcher M * bool :=
  match dispatch d m with
  | Ok d => (d, false)
  | _ => (d, true)
  end.

(** [create_node_thread] *)
Definition create_node_thread (d : Dispatcher M) (t : ThreadIdentifier) (parent : option BlockIdentifier) (f : F) :
    Dispatcher M * outcome unit F :=
  (add_route d t channel channel, node_factory f parent t).

(** The bodies of [StartThread] and of [JoinThread] after [has_route]. *)
Definition start_node r (t : ThreadIdentifier) (parent : option BlockIdentifier) (from_sync : bool) :
    outcome unit Router :=
  let ext := <[t := channel]> (ext_message_router r) in
  let '(d, node) := create_node_thread (dispatcher r) t parent (factory r) in
  unwrap_ok node ≫= λ f,
  let handlers := node_handlers r ++ [mkNodeHandler t parent from_sync] in
  let '(d, q) := PoisonedQueue_retain redispatch d (poisoned_queue r) in
  Ok (mkRouter d q ext handlers f).

(** One command: [None] when the loop returns [Ok(())]. *)
Definition handle_command (shutdown : bool) r (c : Command) : outcome unit (option Router) :=
  match c with
  | ExtMessage (ExternalMessage (m, t)) =>
      match ext_message_router r !! t with
      | None => Ok (Some r)
      | Some tx =>
          match send tx m with
          | Some tx =>
              Ok (Some (mkRouter (dispatcher r) (poisoned_queue r) (<[t := tx]> (ext_message_router r))
                          (node_handlers r) (factory r)))
          | None => if shutdown then Ok None else Panic
          end
      end
  | ExtMessage _ => Ok (Some r)
  | Route m =>
      let '(d, q) := route (dispatcher r) m (poisoned_queue r) in
      Ok (Some (mkRouter d q (ext_message_router r) (node_handlers r) (factory r)))
  | StartThread t parent =>
      if has_route (dispatcher r) t then Ok (Some r)
      else Some <$> start_node r t (Some parent) false
  | JoinThread t =>
      if has_route (dispatcher r) t then Ok (Some r)
      else Some <$> start_node r t None true
  end.

(** An iteration of [inner_main_loop]: what [recv] returns is [None] when all the senders are
    gone; [shutdown] is the flag at the start and [shutdown'] after the receipt. *)
Definition main_iteration (shutdown shutdown' : bool) r (received : option Command) :
    outcome unit (option Router) :=
  if shutdown then Ok None
  else
    match received with
    | None => if shutdown' then Ok None else Err ()
    | Some c => handle_command shutdown' r c
    end.

(** *** The service handle *)
Record RoutingService := mkRoutingService { cmd_sender : Channel Command }.
(** The result of [send] is ignored. *)
Definition send_command (s : RoutingService) (c : Command) : RoutingService :=
  mkRoutingService (default (cmd_sender s) (send (cmd_sender s) c)).
Definition join_thread (s : RoutingService) (t : ThreadIdentifier) : RoutingService := send_command s (JoinThread t).
Definition routing_start_thread (s : RoutingService) (parent_block : BlockIdentifier) (t : ThreadIdentifier)
    (_ : option ThreadsTable) : RoutingService := send_command s (StartThread t parent_block).
Definition routing_stop_thread (s : RoutingService) (_ : BlockIdentifier) (_ : ThreadIdentifier) : RoutingService := s.
#[global] Instance routing_subscriber : Subscriber RoutingService := {
  handle_start_thread := routing_start_thread;
  handle_stop_thread := routing_stop_thread;
}.

(** *** Messages from the network *)
(** An iteration of [inner_network_messages_forwarding_loop]; [finish] decodes the message. *)
Definition forward_network_message {Incoming : Type} (finish : Incoming → outcome Empty_set (option (NetworkMessage M)))
    (shutdown : bool) (cmd : Channel Command) (received : option Incoming) :
    outcome unit (option (Channel Command)) :=
  match received with
  | None => if shutdown then Ok None else Err ()
  | Some incoming =>
      unwrap_ok (finish incoming) ≫= λ message,
      match message with
      | None => Ok (Some cmd)
      | Some m =>
          match send cmd (Route m) with
          | Some cmd => Ok (Some cmd)
          | None => if shutdown then Ok None else Panic
          end
      end
  end.
End service.
Arguments Command {_} M.
Arguments Router {_} M F.
Arguments RoutingService {_} M.

(** ** External messages and their feedback *)
Inductive FeedbackErrorCode :=
  | FeedbackOk | TvmError | MessageExpired | TooManyRequestsInQueue | NotActiveProducer
  | DuplicateMessage | ThreadMismatch | InternalError | ComputeSkipped | QueueOverflow.
Record FeedbackError := mkFeedbackError { feedback_code : FeedbackErrorCode; feedback_text : option string }.
Record ExtMsgFeedback := mkFeedback {
  feedback_message_hash : string;
  tx_hash : option string;
  block_hash : option string;
  aborted : bool;
  exit_code : Z;
  feedback_thread_id : option (list Z);
  feedback_error : option FeedbackError;
  ext_out_msgs : list (list Z);
}.

Definition duplicate_feedback (message_hash : string) : ExtMsgFeedback :=
  mkFeedback message_hash None None false 0 None (Some (mkFeedbackError DuplicateMessage None)) [].

Section feedback.
Context `{Blst} {M : Type} `{TvmMessage M}.

(** The registry is shared by the two loops; [answers] are the feedbacks sent so far and
    [ext_commands] the channel of the main loop. *)
Record ExtRegistry := mkExtRegistry {
  registry : gmap string Z;
  answers : list (Z * ExtMsgFeedback);
  ext_commands : Channel (Command M);
}.
Implicit Types s : ExtRegistry.

(** The lock of the registry is held from the look-up to the send. *)
Definition register_message s (shutdown : bool) (m : NetworkMessage M) (message_hash : string)
    (sender : option Z) : outcome unit ExtRegistry :=
  match registry s !! message_hash with
  | Some _ =>
      match sender with
      | Some sender =>
          Ok (mkExtRegistry (registry s) (answers s ++ [(sender, duplicate_feedback message_hash)]) (ext_commands s))
      | None => Ok s
      end
  | None =>
      unwrap sender ≫= λ sender,
      let registered := <[message_hash := sender]> (registry s) in
      match send (ext_commands s) (ExtMessage m) with
      | Some commands => Ok (mkExtRegistry registered (answers s) commands)
      | None => if shutdown then Ok (mkExtRegistry registered (answers s) (ext_commands s)) else Err ()
      end
  end.

(** An iteration of [inner_external_messages_forwarding_loop]. *)
Definition forward_external_message s (shutdown : bool)
    (received : option (NetworkMessage M * option Z)) : outcome unit (option ExtRegistry) :=
  match received with
  | None => if shutdown then Ok None else Err ()
  | Some (ExternalMessage (ext, t) as m, sender) =>
      ok_or (message_hash ext) () ≫= λ hash, Some <$> register_message s shutdown m hash sender
  | Some _ => Ok (Some s)
  end.

(** One feedback in [inner_feedback_loop], and whether the loop goes on: at a shutdown it returns
    after the sender was taken out of the registry. *)
Definition process_feedback s (shutdown : bool) (f : ExtMsgFeedback) : ExtRegistry * bool :=
  match registry s !! feedback_message_hash f with
  | None => (s, true)
  | Some sender =>
      let registered := delete (feedback_message_hash f) (registry s) in
      if shutdown then (mkExtRegistry registered (answers s) (ext_commands s), false)
      else (mkExtRegistry registered (answers s ++ [(sender, f)]) (ext_commands s), true)
  end.

(** An iteration of [inner_feedback_loop]; each feedback comes with the reading of the flag.  A
    closed channel is only reported. *)
Fixpoint process_feedbacks s (fs : list (bool * ExtMsgFeedback)) : ExtRegistry * bool :=
  match fs with
  | [] => (s, true)
  | (shutdown, f) :: fs =>
      let '(s, goes_on) := process_feedback s shutdown f in
      if goes_on then process_feedbacks s fs else (s, false)
  end.
Definition feedback_iteration s (received : option (list (bool * ExtMsgFeedback))) : ExtRegistry * bool :=
  match received with
  | None => (s, true)
  | Some fs => process_feedbacks s fs
  end.
End feedback.
Arguments ExtRegistry {_} M.

(** ** Every message reaches its thread, in order *)
Section delivery.
Context `{Blst} {M F : Type}.
Variable node_factory : F → option BlockIdentifier → ThreadIdentifier → outcome unit F.
Notation router_command r c := (main_iteration node_factory false false r (Some c)).
Implicit Types (r : Router M F) (d : Dispatcher M) (m : NetworkMessage M) (t : ThreadIdentifier) (auth : bool).

(** What can happen to the service: a command is received, or a receiver of a thread is dropped. *)
Inductive RouterEvent :=
  | Handled (c : Command M)
  | NodeReceiverDropped (t : ThreadIdentifier)
  | AuthorityReceiverDropped (t : ThreadIdentifier)
  | ExtReceiverDropped (t : ThreadIdentifier).

Definition with_dispatcher r d : Router M F :=
  mkRouter d (poisoned_queue r) (ext_message_router r) (node_handlers r) (factory r).
Definition router_step r (e : RouterEvent) : outcome unit (Router M F) :=
  match e with
  | Handled c => router_command r c ≫= λ o, ok_or o ()
  | NodeReceiverDropped t =>
      Ok (with_dispatcher r (alter (λ c, (drop_receiver c.1, c.2)) t (dispatcher r)))
  | AuthorityReceiverDropped t =>
      Ok (with_dispatcher r (alter (λ c, (c.1, drop_receiver c.2)) t (dispatcher r)))
  | ExtReceiverDropped t =>
      Ok (mkRouter (dispatcher r) (poisoned_queue r) (alter drop_receiver t (ext_message_router r))
            (node_handlers r) (factory r))
  end.
Definition run_router := fold_outcome router_step.

(** The messages that were to be routed. *)
Definition routed (es : list RouterEvent) : list (NetworkMessage M) :=
  omap (λ e, match e with Handled (Route m) => Some m | _ => None end) es.

Definition addressed auth t m : Prop := destination m = Some (auth, t).
#[global] Instance addressed_dec auth t m : Decision (addressed auth t m).
Proof. unfold addressed. apply _. Defined.

(** The channel of the node or of the authority of a thread. *)
Definition channel_of r auth t : option (Channel (NetworkMessage M)) :=
  (λ c, if auth then c.2 else c.1) <$> dispatcher r !! t.
Definition delivered r auth t : list (NetworkMessage M) := default [] (sent <$> channel_of r auth t).
Definition parked r auth t : list (NetworkMessage M) :=
  filter (addressed auth t) (pq_buffer (poisoned_queue r)).
Definition dropped r auth t : bool := default false (receiver_dropped <$> channel_of r auth t).

(** The parked messages wait for threads that have not started. *)
Definition waits d m : Prop := ∃ auth t, destination m = Some (auth, t) ∧ d !! t = None.
Record router_ok r : Prop := {
  ok_parked : Forall (waits (dispatcher r)) (pq_buffer (poisoned_queue r));
  ok_capacity : pq_capacity (poisoned_queue r) = MAX_POISONED_QUEUE_SIZE;
  ok_length : (Z.of_nat (length (pq_buffer (poisoned_queue r))) ≤ MAX_POISONED_QUEUE_SIZE)%Z;
  ok_handlers : list_to_set (node_thread <$> node_handlers r) = dom (dispatcher r);
  ok_once : NoDup (node_thread <$> node_handlers r);
  ok_ext : dom (ext_message_router r) = dom (dispatcher r);
}.

Lemma parked_nil r auth t : router_ok r → is_Some (dispatcher r !! t) → parked r auth t = [].
Proof.
  intros Hr [c Hc]. unfold parked. pose proof (ok_parked r Hr) as Hp.
  induction Hp as [|m l (auth' & t' & Hm & Ht) _ IH]; [done|].
  rewrite filter_cons_False; [done|]. unfold addressed. rewrite Hm. intros [= <- <-]. congruence.
Qed.

(** *** Starting a thread *)
Definition extended (c : Channel (NetworkMessage M)) auth t buffer : Channel (NetworkMessage M) :=
  mkChannel (sent c ++ filter (addressed auth t) buffer) false.

Lemma extended_cons_ne c auth t m buffer :
  ¬ addressed auth t m → extended c auth t (m :: buffer) = extended c auth t buffer.
Proof. intros Hm. unfold extended. by rewrite filter_cons_False. Qed.
Lemma extended_cons c auth t m buffer :
  addressed auth t m → extended c auth t (m :: buffer) = extended (mkChannel (sent c ++ [m]) false) auth t buffer.
Proof. intros Hm. unfold extended. simpl. by rewrite filter_cons_True, <- app_assoc. Qed.

(** The messages that are not for a thread. *)
Definition elsewhere t m : Prop := ¬ addressed false t m ∧ ¬ addressed true t m.

Lemma dispatch_open d m auth t (c : Channel (NetworkMessage M) * Channel (NetworkMessage M)) :
  addressed auth t m → d !! t = Some c → receiver_dropped c.1 = false → receiver_dropped c.2 = false →
  dispatch d m = Ok (<[t := if auth then (c.1, mkChannel (sent c.2 ++ [m]) false)
                            else (mkChannel (sent c.1 ++ [m]) false, c.2)]> d).
Proof.
  unfold dispatch, addressed. intros -> Hc H1 H2. rewrite Hc. destruct c as [n a]. simpl in *.
  unfold send. by destruct auth; rewrite ?H1, ?H2.
Qed.

Lemma retain_redispatch buffer t : ∀ d node authority,
  d !! t = Some (node, authority) → receiver_dropped node = false → receiver_dropped authority = false →
  Forall (waits (delete t d)) buffer →
  retain_loop redispatch d buffer =
    (<[t := (extended node false t buffer, extended authority true t buffer)]> d,
     filter (elsewhere t) buffer).
Proof.
  induction buffer as [|m buffer IH]; intros d node authority Ht Hn Ha Hw.
  { simpl. unfold extended. rewrite !app_nil_r. destruct node, authority; simpl in *; subst.
    by rewrite insert_id. }
  apply Forall_cons in Hw as [(auth & t' & Hm & Hd) Hw]. cbn [retain_loop]. unfold redispatch at 1.
  destruct (decide (t' = t)) as [->|Hne].
  - rewrite (dispatch_open d m auth t _ Hm Ht Hn Ha). cbn [fst snd].
    rewrite filter_cons_False by (unfold elsewhere; destruct auth; naive_solver).
    destruct auth;
      (erewrite IH; [|by rewrite lookup_insert_eq|done|done|by rewrite delete_insert_eq]);
      rewrite insert_insert_eq; do 3 f_equal;
      rewrite ?extended_cons by done; rewrite ?extended_cons_ne by (unfold addressed; congruence); done.
  - rewrite lookup_delete_ne in Hd by done.
    assert (dispatch d m = Err (NoRoute t' m)) as -> by (unfold dispatch; by rewrite Hm, Hd).
    rewrite (IH d node authority) by done.
    rewrite filter_cons_True by (unfold elsewhere, addressed; split; congruence).
    by rewrite !extended_cons_ne by (unfold addressed; congruence).
Qed.

Lemma start_node_spec r t parent from_sync r' :
  router_ok r → dispatcher r !! t = None → start_node node_factory r t parent from_sync = Ok r' →
  dispatcher r' = <[t := (extended channel false t (pq_buffer (poisoned_queue r)),
                          extended channel true t (pq_buffer (poisoned_queue r)))]> (dispatcher r) ∧
  poisoned_queue r' = mkPoisonedQueue (filter (elsewhere t) (pq_buffer (poisoned_queue r))) MAX_POISONED_QUEUE_SIZE ∧
  ext_message_router r' = <[t := channel]> (ext_message_router r) ∧
  node_handlers r' = node_handlers r ++ [mkNodeHandler t parent from_sync].
Proof.
  intros Hr Ht. unfold start_node, create_node_thread, add_route, PoisonedQueue_retain.
  erewrite retain_redispatch;
    [|by rewrite lookup_insert_eq|done|done|by rewrite delete_insert_id; [apply ok_parked|]].
  rewrite insert_insert_eq. intros Hs. inv_outcome. simplify_eq/=. by rewrite (ok_capacity r Hr).
Qed.

Lemma waits_insert d t c m : waits d m → elsewhere t m → waits (<[t := c]> d) m.
Proof.
  intros (auth & t' & Hm & Hd) [H1 H2]. exists auth, t'. split; [done|].
  rewrite lookup_insert_ne; [done|]. intros <-. by destruct auth.
Qed.

Lemma start_node_ok r t parent from_sync r' :
  router_ok r → dispatcher r !! t = None → start_node node_factory r t parent from_sync = Ok r' → router_ok r'.
Proof.
  intros Hr Ht Hs. destruct (start_node_spec _ _ _ _ _ Hr Ht Hs) as (Hd & Hq & He & Hh).
  destruct Hr as [Hp Hc Hl Hn Ho Hx]. split; rewrite ?Hd, ?Hq, ?He, ?Hh; simpl.
  - apply Forall_forall. intros m [Hm Hin]%list_elem_of_filter.
    apply waits_insert; [|done]. by eapply Forall_forall in Hp.
  - done.
  - pose proof (length_filter (elsewhere t) (pq_buffer (poisoned_queue r))). lia.
  - rewrite fmap_app, list_to_set_app_L, Hn, dom_insert_L. simpl. set_solver.
  - rewrite fmap_app. apply NoDup_app. repeat split; [done| |apply NoDup_singleton].
    intros t' Ht'%(elem_of_list_to_set (C := gset _)). rewrite Hn in Ht'. simpl.
    intros ->%list_elem_of_singleton. by apply elem_of_dom in Ht' as [? ?]; congruence.
  - by rewrite !dom_insert_L, Hx.
Qed.

(** *** Routing a message *)
Lemma dispatch_cases d m d' :
  dispatch d m = Ok d' →
  (destination m = None ∧ d' = d) ∨
  ∃ auth t c, addressed auth t m ∧ d !! t = Some c ∧ receiver_dropped (if auth then c.2 else c.1) = false ∧
    d' = <[t := if auth then (c.1, mkChannel (sent c.2 ++ [m]) false)
                else (mkChannel (sent c.1 ++ [m]) false, c.2)]> d.
Proof.
  unfold dispatch, addressed. destruct (destination m) as [[auth t]|]; [|intros [= <-]; auto].
  destruct (d !! t) as [[n a]|] eqn:Ht; [|done]. intros Hs. right. exists auth, t, (n, a).
  unfold send in Hs. destruct auth; simpl;
    [destruct (receiver_dropped a)|destruct (receiver_dropped n)]; simplify_eq/=; auto.
Qed.

Lemma dispatch_errors d m e :
  dispatch d m = Err e →
  ∃ auth t, addressed auth t m ∧
    ((e = NoRoute t m ∧ d !! t = None) ∨
     (e = DestinationClosed t m ∧ ∃ c, d !! t = Some c ∧ receiver_dropped (if auth then c.2 else c.1) = true)).
Proof.
  unfold dispatch, addressed. destruct (destination m) as [[auth t]|]; [|done].
  destruct (d !! t) as [[n a]|] eqn:Ht; [|intros [= <-]; eauto 10]. intros Hs.
  exists auth, t. split; [done|]. right. unfold send in Hs.
  destruct auth; [destruct (receiver_dropped a) eqn:Hd|destruct (receiver_dropped n) eqn:Hd];
    simplify_eq/=; eauto.
Qed.
Lemma dispatch_no_panic d m : dispatch d m ≠ Panic.
Proof.
  unfold dispatch. destruct (destination m) as [[auth t]|]; [|done].
  destruct (d !! t) as [[n a]|]; [|done]. unfold send.
  destruct auth; [by destruct (receiver_dropped a)|by destruct (receiver_dropped n)].
Qed.

(** A message is dropped, sent or parked. *)
Inductive route_result r m : Dispatcher M → PoisonedQueue (NetworkMessage M) → Prop :=
  | route_dropped :
      (∀ auth t, addressed auth t m → dropped r auth t = true) →
      route_result r m (dispatcher r) (poisoned_queue r)
  | route_sent auth t c :
      addressed auth t m → dispatcher r !! t = Some c → receiver_dropped (if auth then c.2 else c.1) = false →
      route_result r m
        (<[t := if auth then (c.1, mkChannel (sent c.2 ++ [m]) false)
                else (mkChannel (sent c.1 ++ [m]) false, c.2)]> (dispatcher r)) (poisoned_queue r)
  | route_parked auth t :
      addressed auth t m → dispatcher r !! t = None →
      route_result r m (dispatcher r) (PoisonedQueue_push (poisoned_queue r) m).

Lemma route_spec r m :
  route_result r m (route (dispatcher r) m (poisoned_queue r)).1 (route (dispatcher r) m (poisoned_queue r)).2.
Proof.
  unfold route. destruct (dispatch (dispatcher r) m) as [d|e|] eqn:Hd; simpl.
  - apply dispatch_cases in Hd as [[Hm ->]|(auth & t & c & Hm & Hc & Ho & ->)].
    + constructor. unfold addressed. congruence.
    + by eapply route_sent.
  - apply dispatch_errors in Hd as (auth & t & Hm & [[-> Hn]|(-> & c & Hc & Ho)]).
    + by eapply route_parked.
    + constructor. unfold addressed in *. intros auth' t' Hm'. rewrite Hm in Hm'. simplify_eq.
      unfold dropped, channel_of. by rewrite Hc.
  - by apply dispatch_no_panic in Hd.
Qed.

Lemma push_buffer (q : PoisonedQueue (NetworkMessage M)) m :
  pq_capacity q = MAX_POISONED_QUEUE_SIZE → (Z.of_nat (length (pq_buffer q)) ≤ MAX_POISONED_QUEUE_SIZE)%Z →
  pq_capacity (PoisonedQueue_push q m) = MAX_POISONED_QUEUE_SIZE ∧
  (Z.of_nat (length (pq_buffer (PoisonedQueue_push q m))) ≤ MAX_POISONED_QUEUE_SIZE)%Z ∧
  pq_buffer (PoisonedQueue_push q m) `sublist_of` pq_buffer q ++ [m] ∧
  ((Z.of_nat (length (pq_buffer q)) < MAX_POISONED_QUEUE_SIZE)%Z → pq_buffer (PoisonedQueue_push q m) = pq_buffer q ++ [m]).
Proof.
  intros Hc Hl. unfold PoisonedQueue_push. rewrite Hc. simpl. rewrite length_app. simpl.
  case_bool_decide as Hfull; (split_and!; [done|..]).
  - rewrite length_tl, length_app. simpl. lia.
  - destruct (pq_buffer q ++ [m]); [done|]. by apply sublist_cons.
  - lia.
  - rewrite length_app. simpl. lia.
  - done.
  - done.
Qed.

Lemma waits_same_dom d d' m : dom d = dom d' → waits d m → waits d' m.
Proof.
  intros Hdom (auth & t & Hm & Ht). exists auth, t. split; [done|].
  apply not_elem_of_dom. rewrite <- Hdom. by apply not_elem_of_dom.
Qed.

(** A change of the channels, with the same threads. *)
Lemma same_threads_ok r d ext :
  router_ok r → dom d = dom (dispatcher r) → dom ext = dom (ext_message_router r) →
  router_ok (mkRouter d (poisoned_queue r) ext (node_handlers r) (factory r)).
Proof.
  intros [Hp Hc Hl Hn Ho Hx] Hd He. split; simpl; [|done|done|congruence|done|congruence].
  eapply Forall_impl; [exact Hp|]. intros m. by apply waits_same_dom.
Qed.

Lemma route_ok r m d q :
  router_ok r → route_result r m d q → router_ok (mkRouter d q (ext_message_router r) (node_handlers r) (factory r)).
Proof.
  intros Hr [Hm|auth t c Hm Hc Ho|auth t Hm Hn].
  - by apply same_threads_ok.
  - apply same_threads_ok; [done| |done]. rewrite dom_insert_L.
    apply elem_of_dom_2 in Hc. set_solver.
  - destruct Hr as [Hp Hc Hl Hh Ho Hx].
    destruct (push_buffer (poisoned_queue r) m Hc Hl) as (Hc' & Hl' & Hsub & _).
    split; simpl; try done. apply Forall_forall. intros m' Hin.
    eapply elem_of_sublist in Hin; [|exact Hsub].
    apply elem_of_app in Hin as [Hin| ->%list_elem_of_singleton].
    + by eapply Forall_forall in Hp.
    + by exists auth, t.
Qed.

Lemma node_started r t parent from_sync r' :
  ((Some <$> start_node node_factory r t parent from_sync) ≫= λ o, ok_or o ()) = Ok r' →
  start_node node_factory r t parent from_sync = Ok r'.
Proof. destruct (start_node node_factory r t parent from_sync); simpl; congruence. Qed.

Lemma step_ok r e r' : router_ok r → router_step r e = Ok r' → router_ok r'.
Proof.
  intros Hr. destruct e as [c|t|t|t]; simpl.
  - unfold main_iteration. destruct c as [m|m|t parent|t]; simpl.
    + destruct m as [| | | |[m t]| | | | | | |]; try (intros [= <-]; done).
      destruct (ext_message_router r !! t) as [tx|] eqn:Ht; [|by intros [= <-]].
      destruct (send tx m) as [tx'|]; [|done]. intros [= <-].
      apply same_threads_ok; [done|done|]. rewrite dom_insert_L.
      apply elem_of_dom_2 in Ht. set_solver.
    + pose proof (route_spec r m) as Hm. destruct (route _ _ _) as [d q]. intros [= <-].
      by eapply route_ok.
    + unfold has_route. case_bool_decide as Ht; [by intros [= <-]|].
      intros Hs%node_started. eapply start_node_ok; [done| |done]. by apply eq_None_not_Some.
    + unfold has_route. case_bool_decide as Ht; [by intros [= <-]|].
      intros Hs%node_started. eapply start_node_ok; [done| |done]. by apply eq_None_not_Some.
  - intros [= <-]. apply same_threads_ok; [done| |done]. apply dom_alter_L.
  - intros [= <-]. apply same_threads_ok; [done| |done]. apply dom_alter_L.
  - intros [= <-]. apply same_threads_ok; [done|done|]. apply dom_alter_L.
Qed.

(** *** What was sent to a thread and what waits for it *)
Definition seen r auth t : list (NetworkMessage M) := delivered r auth t ++ parked r auth t.

Lemma start_node_seen r t parent from_sync r' auth' t' :
  router_ok r → dispatcher r !! t = None → start_node node_factory r t parent from_sync = Ok r' →
  seen r' auth' t' = seen r auth' t' ∧ dropped r' auth' t' = dropped r auth' t'.
Proof.
  intros Hr Ht Hs. destruct (start_node_spec _ _ _ _ _ Hr Ht Hs) as (Hd & Hq & _ & _).
  unfold seen, delivered, dropped, channel_of, parked. rewrite Hd, Hq. simpl.
  rewrite list_filter_filter. destruct (decide (t' = t)) as [->|Hne].
  - rewrite lookup_insert_eq, Ht. simpl. split; [|by destruct auth'].
    rewrite filter_none, app_nil_r; [by destruct auth'|].
    intros m _. unfold elsewhere. destruct auth'; naive_solver.
  - rewrite lookup_insert_ne by done. split; [|done]. f_equal.
    apply list_filter_iff. intros m. unfold elsewhere, addressed.
    split; [by intros [? ?]|]. intros Hm. rewrite Hm. split; [done|]. by split; intros [=].
Qed.

Lemma sublist_filter_mono (P : NetworkMessage M → Prop) `{!∀ m, Decision (P m)} (l1 l2 : list (NetworkMessage M)) :
  l1 `sublist_of` l2 → filter P l1 `sublist_of` filter P l2.
Proof.
  induction 1 as [|m l1 l2 _ IH|m l1 l2 _ IH]; [done|..]; rewrite !filter_cons;
    case_decide; [by apply sublist_skip|done|by apply sublist_cons|done].
Qed.

Lemma sent_seen r t c m auth auth' t' (d := <[t := if auth then (c.1, mkChannel (sent c.2 ++ [m]) false)
                       else (mkChannel (sent c.1 ++ [m]) false, c.2)]> (dispatcher r)) :
  router_ok r → addressed auth t m → dispatcher r !! t = Some c →
  seen (with_dispatcher r d) auth' t' = seen r auth' t' ++ filter (addressed auth' t') [m] ∧
  (receiver_dropped (if auth then c.2 else c.1) = false → dropped (with_dispatcher r d) auth' t' = dropped r auth' t').
Proof.
  intros Hr Hm Hc. unfold seen, delivered, dropped, channel_of. simpl. subst d.
  change (parked (with_dispatcher r _) auth' t') with (parked r auth' t').
  destruct (decide (t' = t)) as [->|Hne].
  - rewrite parked_nil by eauto. rewrite lookup_insert_eq, Hc, !app_nil_r. simpl.
    destruct (decide (auth' = auth)) as [->|Hne].
    + rewrite filter_cons_True by done. by destruct auth; simpl.
    + rewrite filter_cons_False by (unfold addressed in *; congruence).
      rewrite app_nil_r. by destruct auth, auth'.
  - rewrite lookup_insert_ne by done.
    rewrite filter_cons_False by (unfold addressed in *; congruence). by rewrite app_nil_r.
Qed.

Lemma route_seen r m d q auth t (r' := mkRouter d q (ext_message_router r) (node_handlers r) (factory r)) :
  router_ok r → route_result r m d q →
  seen r' auth t `sublist_of` seen r auth t ++ filter (addressed auth t) [m] ∧
  dropped r' auth t = dropped r auth t ∧
  (dropped r auth t = false → (Z.of_nat (length (pq_buffer (poisoned_queue r))) < MAX_POISONED_QUEUE_SIZE)%Z →
   seen r' auth t = seen r auth t ++ filter (addressed auth t) [m]).
Proof.
  intros Hr Hm. subst r'. destruct Hm as [Hm|auth' t' c Hm Hc Ho|auth' t' Hm Hn].
  - change (seen _ auth t) with (seen r auth t) at 1 3. change (dropped _ auth t) with (dropped r auth t) at 1.
    split_and!; [by apply sublist_inserts_r|done|]. intros Hd _.
    rewrite filter_cons_False by (intros Ha; apply Hm in Ha; congruence). by rewrite app_nil_r.
  - destruct (sent_seen r t' c m auth' auth t Hr Hm Hc) as [Hs Hd].
    unfold with_dispatcher in Hs, Hd. rewrite Hs, (Hd Ho). done.
  - destruct (push_buffer (poisoned_queue r) m (ok_capacity r Hr) (ok_length r Hr)) as (_ & _ & Hsub & Heq).
    unfold seen. change (delivered (mkRouter _ _ _ _ _) auth t) with (delivered r auth t).
    rewrite <- app_assoc. unfold parked. cbn [poisoned_queue]. rewrite <- filter_app.
    split_and!; [|done|]; [apply sublist_app; [done|]; by apply sublist_filter_mono|].
    intros _ Hl. by rewrite (Heq Hl).
Qed.

(** The event by which a channel loses its receiver. *)
Definition drops auth t (e : RouterEvent) : Prop :=
  e = (if auth then AuthorityReceiverDropped t else NodeReceiverDropped t).

(** How an event changes what a channel and the queue hold for a thread. *)
Definition progress r (e : RouterEvent) r' auth t : Prop :=
  seen r' auth t `sublist_of` seen r auth t ++ filter (addressed auth t) (routed [e]) ∧
  (¬ drops auth t e → dropped r' auth t = dropped r auth t) ∧
  (dropped r auth t = false → (Z.of_nat (length (pq_buffer (poisoned_queue r))) < MAX_POISONED_QUEUE_SIZE)%Z →
   seen r' auth t = seen r auth t ++ filter (addressed auth t) (routed [e])).

Lemma no_progress r e r' auth t :
  routed [e] = [] → seen r' auth t = seen r auth t → (¬ drops auth t e → dropped r' auth t = dropped r auth t) →
  progress r e r' auth t.
Proof. unfold progress. intros -> -> Hd. by rewrite app_nil_r. Qed.

Lemma started_progress r t' parent from_sync r' e auth t :
  router_ok r → routed [e] = [] →
  ((if has_route (dispatcher r) t' then Ok (Some r) else Some <$> start_node node_factory r t' parent from_sync)
     ≫= λ o, ok_or o ()) = Ok r' →
  progress r e r' auth t.
Proof.
  intros Hr He Hs. apply no_progress; [done|..]; unfold has_route in Hs; case_bool_decide as Ht;
    try (by simplify_eq/=); apply node_started in Hs; apply eq_None_not_Some in Ht;
    by destruct (start_node_seen _ _ _ _ _ auth t Hr Ht Hs).
Qed.

Lemma dropped_progress r e auth t auth' t'
    (f := λ c : Channel (NetworkMessage M) * Channel (NetworkMessage M),
            if auth' : bool then (c.1, drop_receiver c.2) else (drop_receiver c.1, c.2)) :
  routed [e] = [] → (drops auth t e ↔ auth = auth' ∧ t = t') →
  progress r e (with_dispatcher r (alter f t' (dispatcher r))) auth t.
Proof.
  intros He Hd. apply no_progress; [done|..]; unfold seen, delivered, dropped, channel_of; simpl.
  - change (parked (with_dispatcher r _) auth t) with (parked r auth t). f_equal.
    destruct (decide (t' = t)) as [->|Hne]; [|by rewrite lookup_alter_ne].
    rewrite lookup_alter_eq. destruct (dispatcher r !! t) as [c|]; [|done]. by destruct auth, auth'.
  - intros Hn. destruct (decide (t' = t)) as [->|Hne]; [|by rewrite lookup_alter_ne].
    rewrite lookup_alter_eq. destruct (dispatcher r !! t) as [c|]; [|done].
    destruct auth, auth'; naive_solver.
Qed.

Lemma step_seen r e r' auth t : router_ok r → router_step r e = Ok r' → progress r e r' auth t.
Proof.
  intros Hr Hs. destruct e as [[m|m|t' parent|t']|t'|t'|t']; simpl in Hs; unfold main_iteration in Hs; simpl in Hs.
  - apply no_progress; [done|..]; destruct m as [| | | |[m t']| | | | | | |]; simplify_eq/=; try done;
      destruct (ext_message_router r !! t'); simplify_eq/=; try done; destruct (send _ m); by simplify_eq/=.
  - pose proof (route_spec r m) as Hm. destruct (route _ _ _) as [d q]. injection Hs as <-.
    destruct (route_seen r m d q auth t Hr Hm) as (H1 & H2 & H3). by split_and!.
  - by eapply started_progress.
  - by eapply started_progress.
  - injection Hs as <-. apply (dropped_progress r _ auth t false); [done|].
    unfold drops. destruct auth; naive_solver.
  - injection Hs as <-. apply (dropped_progress r _ auth t true); [done|].
    unfold drops. destruct auth; naive_solver.
  - injection Hs as <-. by apply no_progress.
Qed.

Lemma initial_ok f : router_ok (Router_new f).
Proof.
  split; simpl; [done|done|unfold MAX_POISONED_QUEUE_SIZE; lia|by rewrite dom_empty_L|constructor|].
  by rewrite !dom_empty_L.
Qed.

Lemma run_snoc r es e r' :
  run_router r (es ++ [e]) = Ok r' → ∃ r1, run_router r es = Ok r1 ∧ router_step r1 e = Ok r'.
Proof.
  unfold run_router. rewrite fold_outcome_app. intros (r1 & H1 & H2)%outcome_bind_Ok. exists r1.
  split; [done|]. simpl in H2. by destruct (router_step r1 e).
Qed.

Lemma run_ok f es r : run_router (Router_new f) es = Ok r → router_ok r.
Proof.
  revert r. induction es as [|e es IH] using rev_ind; intros r Hr.
  - injection Hr as <-. apply initial_ok.
  - apply run_snoc in Hr as (r1 & H1 & H2). eauto using step_ok.
Qed.

Lemma routed_snoc es e : routed (es ++ [e]) = routed es ++ routed [e].
Proof. apply omap_app. Qed.

Lemma run_seen f es r auth t :
  run_router (Router_new f) es = Ok r → seen r auth t `sublist_of` filter (addressed auth t) (routed es).
Proof.
  revert r. induction es as [|e es IH] using rev_ind; intros r Hr; [by injection Hr as <-|].
  apply run_snoc in Hr as (r1 & H1 & H2).
  destruct (step_seen r1 e r auth t (run_ok _ _ _ H1) H2) as (Hs & _ & _).
  rewrite routed_snoc, filter_app. etrans; [exact Hs|]. apply sublist_app; [by apply IH|done].
Qed.

(** No run of the events had to evict a message from the full queue. *)
Definition never_full f es : Prop :=
  ∀ es1 es2 r, es = es1 ++ es2 → run_router (Router_new f) es1 = Ok r →
    (Z.of_nat (length (pq_buffer (poisoned_queue r))) < MAX_POISONED_QUEUE_SIZE)%Z.

Lemma run_seen_all f es r auth t :
  run_router (Router_new f) es = Ok r → never_full f es → Forall (λ e, ¬ drops auth t e) es →
  seen r auth t = filter (addressed auth t) (routed es) ∧ dropped r auth t = false.
Proof.
  revert r. induction es as [|e es IH] using rev_ind; intros r Hr Hfull Hdrops; [by injection Hr as <-|].
  apply run_snoc in Hr as (r1 & H1 & H2). apply Forall_app in Hdrops as [Hes He]. rewrite Forall_singleton in He.
  destruct (step_seen r1 e r auth t (run_ok _ _ _ H1) H2) as (_ & Hd & Hs).
  destruct (IH r1 H1) as [IH1 IH2]; [|done|].
  { intros es1 es2 r2 -> Hr2. eapply (Hfull es1 (es2 ++ [e])); [by rewrite app_assoc|done]. }
  rewrite routed_snoc, filter_app. rewrite (Hd He). split; [|done].
  rewrite Hs, IH1; [done|done|]. by eapply (Hfull es [e]).
Qed.

(** C21 (routing): the messages sent to the node of a thread, or to its authority, are messages
    from the network addressed to it, in the order they came and each at most once, whether they
    came before or after the thread was started; messages wait only for threads that were not
    started, and no more than 10000 of them. While the queue of waiting messages is never full and
    the receiver lives, none is lost. Every thread is started at most once. *)
Theorem routing_delivers_in_order f es r auth t :
  run_router (Router_new f) es = Ok r →
  delivered r auth t ++ parked r auth t `sublist_of` filter (addressed auth t) (routed es) ∧
  (is_Some (dispatcher r !! t) → parked r auth t = []) ∧
  (Z.of_nat (length (pq_buffer (poisoned_queue r))) ≤ 10000)%Z ∧
  NoDup (node_thread <$> node_handlers r) ∧
  (t ∈ node_thread <$> node_handlers r ↔ is_Some (dispatcher r !! t)) ∧
  (never_full f es → Forall (λ e, ¬ drops auth t e) es →
   delivered r auth t ++ parked r auth t = filter (addressed auth t) (routed es)).
Proof.
  intros Hr. pose proof (run_ok _ _ _ Hr) as Hok.
  split_and!; [by eapply run_seen|by intros; apply parked_nil|apply (ok_length r Hok)|apply (ok_once r Hok)|..].
  - rewrite <- elem_of_dom, <- (ok_handlers r Hok). symmetry. apply elem_of_list_to_set.
  - intros Hfull Hdrops. by eapply run_seen_all.
Qed.
End delivery.

(** ** Every external message is answered once *)
Section answered.
Context `{Blst} {M : Type} `{TvmMessage M}.
Implicit Types (s : ExtRegistry M) (x : Z) (hash : string).

(** The two loops take turns on the registry: a request is forwarded, or a feedback is given. *)
Inductive ExtEvent :=
  | Submitted (m : NetworkMessage M) (sender : option Z)
  | FeedbackGiven (f : ExtMsgFeedback).
Definition ext_step s (e : ExtEvent) : outcome unit (ExtRegistry M) :=
  match e with
  | Submitted m sender => forward_external_message s false (Some (m, sender)) ≫= λ o, ok_or o ()
  | FeedbackGiven f => Ok (process_feedback s false f).1
  end.
Definition run_registry := fold_outcome ext_step.
Definition ExtRegistry_new : ExtRegistry M := mkExtRegistry ∅ [] channel.

(** An iteration of the feedback loop is a sequence of such events. *)
Lemma feedbacks_are_events s fs :
  run_registry s (FeedbackGiven <$> fs) = Ok (feedback_iteration s (Some ((false,.) <$> fs))).1.
Proof.
  unfold run_registry. revert s. induction fs as [|f fs IH]; intros s; [done|].
  rewrite fmap_cons, fold_outcome_cons. simpl. rewrite IH. simpl.
  unfold process_feedback. by destruct (registry s !! feedback_message_hash f).
Qed.

(** The senders that came with external messages. *)
Definition request (e : ExtEvent) : option Z :=
  match e with Submitted (ExternalMessage _) sender => sender | _ => None end.
Definition requests (es : list ExtEvent) : list Z := omap request es.

(** A sender that came with a message of a hash. *)
Definition requested (es : list ExtEvent) x hash : Prop :=
  ∃ m t, Submitted (ExternalMessage (m, t)) (Some x) ∈ es ∧ message_hash m = Some hash.

Definition forwards_hash hash (c : Command M) : Prop :=
  match c with ExtMessage (ExternalMessage (m, _)) => message_hash m = Some hash | _ => False end.
#[global] Instance forwards_hash_dec hash c : Decision (forwards_hash hash c).
Proof. destruct c as [[| | | |[]| | | | | | |]| | |]; simpl; apply _. Defined.
Definition forwards s hash : nat := length (filter (forwards_hash hash) (sent (ext_commands s))).
Definition feedback_for hash (e : ExtEvent) : Prop :=
  match e with FeedbackGiven f => feedback_message_hash f = hash | _ => False end.
#[global] Instance feedback_for_dec hash e : Decision (feedback_for hash e).
Proof. destruct e; simpl; apply _. Defined.
Definition feedbacks (es : list ExtEvent) hash : nat := length (filter (feedback_for hash) es).

Record registry_ok (es : list ExtEvent) s : Prop := {
  rk_partition : (answers s).*1 ++ (map_to_list (registry s)).*2 ≡ₚ requests es;
  rk_waiting hash x : registry s !! hash = Some x → requested es x hash;
  rk_answers : Forall (λ a, requested es a.1 (feedback_message_hash a.2) ∧
                            (a.2 = duplicate_feedback (feedback_message_hash a.2) ∨ FeedbackGiven a.2 ∈ es))
                 (answers s);
  rk_forwards hash :
    forwards s hash ≤ feedbacks es hash + (if registry s !! hash is Some _ then 1 else 0);
}.

Lemma requested_weaken es e x hash : requested es x hash → requested (es ++ [e]) x hash.
Proof. intros (m & t & Hin & Hm). exists m, t. split; [|done]. apply elem_of_app. by left. Qed.

Lemma answers_weaken es e (l : list (Z * ExtMsgFeedback)) :
  Forall (λ a, requested es a.1 (feedback_message_hash a.2) ∧
               (a.2 = duplicate_feedback (feedback_message_hash a.2) ∨ FeedbackGiven a.2 ∈ es)) l →
  Forall (λ a, requested (es ++ [e]) a.1 (feedback_message_hash a.2) ∧
               (a.2 = duplicate_feedback (feedback_message_hash a.2) ∨ FeedbackGiven a.2 ∈ es ++ [e])) l.
Proof.
  intros Hl. eapply Forall_impl; [exact Hl|]. intros a [Hr Ha]. split; [by apply requested_weaken|].
  rewrite elem_of_app. tauto.
Qed.

Lemma feedbacks_snoc es e hash : feedbacks (es ++ [e]) hash = feedbacks es hash + feedbacks [e] hash.
Proof. unfold feedbacks. by rewrite filter_app, length_app. Qed.
Lemma requests_snoc es e : requests (es ++ [e]) = requests es ++ requests [e].
Proof. apply omap_app. Qed.

(** An event that leaves the registry as it is. *)
Lemma idle_ok es e s : registry_ok es s → requests [e] = [] → registry_ok (es ++ [e]) s.
Proof.
  intros [Hp Hw Ha Hf] He. split.
  - by rewrite requests_snoc, He, app_nil_r.
  - intros hash x Hx. by apply requested_weaken, Hw.
  - by apply answers_weaken.
  - intros hash. rewrite feedbacks_snoc. specialize (Hf hash). lia.
Qed.

Lemma feedback_ok es s f : registry_ok es s → registry_ok (es ++ [FeedbackGiven f]) (process_feedback s false f).1.
Proof.
  intros Hs. unfold process_feedback. set (h := feedback_message_hash f).
  destruct (registry s !! h) as [x|] eqn:Hx; [|by apply idle_ok].
  destruct Hs as [Hp Hw Ha Hf]. simpl. split; simpl.
  - rewrite requests_snoc, fmap_app. simpl. rewrite app_nil_r, <- Hp, <- app_assoc. apply Permutation_app; [done|].
    rewrite <- (insert_delete_id (registry s) h x Hx) at 2.
    by rewrite map_to_list_insert by (by rewrite lookup_delete_eq).
  - intros hash x' [_ Hx']%lookup_delete_Some. by apply requested_weaken, Hw.
  - apply Forall_app. split; [by apply answers_weaken|]. apply Forall_singleton. simpl.
    split; [by apply requested_weaken, Hw|]. right. apply elem_of_app. right. by left.
  - intros hash. specialize (Hf hash). rewrite feedbacks_snoc. unfold forwards in *. simpl.
    unfold feedbacks at 2. destruct (decide (hash = h)) as [->|Hne].
    + rewrite filter_cons_True by done. rewrite Hx in Hf. simpl. lia.
    + rewrite lookup_delete_ne by done. lia.
Qed.

Lemma register_ok es s m t hash (x : option Z) s' :
  registry_ok es s → message_hash m = Some hash →
  register_message s false (ExternalMessage (m, t)) hash x = Ok s' →
  registry_ok (es ++ [Submitted (ExternalMessage (m, t)) x]) s'.
Proof.
  intros [Hp Hw Ha Hf] Hm. unfold register_message.
  assert (∀ y, x = Some y → requested (es ++ [Submitted (ExternalMessage (m, t)) x]) y hash) as Hreq.
  { intros y ->. exists m, t. split; [|done]. apply elem_of_app. right. by left. }
  destruct (registry s !! hash) as [y|] eqn:Hy.
  - destruct x as [x|]; intros [= <-]; [|by apply idle_ok]. split; simpl.
    + rewrite requests_snoc, fmap_app. simpl. rewrite <- Hp, <- !app_assoc. apply Permutation_app; [done|].
      by rewrite Permutation_app_comm.
    + intros h z Hz. by apply requested_weaken, Hw.
    + apply Forall_app. split; [by apply answers_weaken|]. apply Forall_singleton. simpl. auto.
    + intros h. rewrite feedbacks_snoc. specialize (Hf h). unfold forwards in *. simpl. lia.
  - destruct x as [x|]; [|done]. simpl. unfold send. destruct (receiver_dropped _) eqn:Hd; [done|].
    intros [= <-]. split; simpl.
    + rewrite requests_snoc, <- Hp, <- app_assoc. simpl. apply Permutation_app; [done|].
      rewrite map_to_list_insert by done. simpl. by rewrite Permutation_app_comm.
    + intros h z [[<- <-]|[_ Hz]]%lookup_insert_Some; [by apply Hreq|by apply requested_weaken, Hw].
    + by apply answers_weaken.
    + intros h. rewrite feedbacks_snoc. specialize (Hf h). unfold forwards in *. simpl.
      rewrite filter_app, length_app. destruct (decide (h = hash)) as [->|Hne].
      * rewrite filter_cons_True by done. rewrite lookup_insert_eq. rewrite Hy in Hf. simpl. lia.
      * rewrite filter_cons_False by (simpl; congruence). rewrite lookup_insert_ne by done. simpl. lia.
Qed.

Lemma registry_step_ok es e s s' : registry_ok es s → ext_step s e = Ok s' → registry_ok (es ++ [e]) s'.
Proof.
  intros Hs. destruct e as [m x|f]; simpl; [|intros [= <-]; by apply feedback_ok].
  destruct m as [| | | |[m t]| | | | | | |]; try (intros [= <-]; by apply idle_ok).
  destruct (message_hash m) as [hash|] eqn:Hm; [|done]. simpl.
  destruct (register_message s false (ExternalMessage (m, t)) hash x) as [s1| |] eqn:Hr; [|done|done].
  intros [= <-]. by eapply register_ok.
Qed.

Lemma registry_run_ok es s : run_registry ExtRegistry_new es = Ok s → registry_ok es s.
Proof.
  unfold run_registry. revert s. induction es as [|e es IH] using rev_ind; intros s Hs.
  - injection Hs as <-. split; [done|done|constructor|]. intros hash. unfold forwards. simpl. lia.
  - rewrite fold_outcome_app in Hs. apply outcome_bind_Ok in Hs as (s1 & H1 & H2).
    eapply registry_step_ok; [by apply IH|]. simpl in H2. by destruct (ext_step s1 e).
Qed.

(** C31 (feedback): whatever the order in which external messages and feedbacks come, every
    request that came with a sender has either got exactly one answer or waits in the registry;
    an answer is about the message it was requested for, and is a feedback from a thread or the
    notice of a duplicate; and a message is forwarded again only after a feedback about it.  Runs
    are without a shutdown. *)
Theorem external_messages_answered_once es s :
  run_registry ExtRegistry_new es = Ok s →
  (answers s).*1 ++ (map_to_list (registry s)).*2 ≡ₚ requests es ∧
  Forall (λ a, requested es a.1 (feedback_message_hash a.2) ∧
               (a.2 = duplicate_feedback (feedback_message_hash a.2) ∨ FeedbackGiven a.2 ∈ es)) (answers s) ∧
  (∀ hash x, registry s !! hash = Some x → requested es x hash) ∧
  (∀ hash, forwards s hash ≤ feedbacks es hash + (if registry s !! hash is Some _ then 1 else 0)).
Proof. intros Hs%registry_run_ok. by destruct Hs. Qed.
End answered.

(** ** A finalized block starts the threads it spawns *)
Section spawned.
Context `{Blst} {M F : Type}.
Variable node_factory : F → option BlockIdentifier → ThreadIdentifier → outcome unit F.
Hypothesis nodes_are_built : ∀ f parent t, is_ok (node_factory f parent t) = true.
Variable thread_iter : gset ThreadIdentifier → list ThreadIdentifier.
Hypothesis thread_iter_elements : ∀ X, thread_iter X ≡ₚ elements X.
Implicit Types (r : Router M F) (s : RoutingService M) (t : ThreadIdentifier).

Definition spawned_by (b : BlockIdentifier) (table : ThreadsTable) : list ThreadIdentifier :=
  filter (λ t, ThreadIdentifier_is_spawning_block t b = true) (thread_iter (ThreadsTable_list_threads table)).

Lemma start_commands b table l s :
  receiver_dropped (cmd_sender s) = false →
  foldl (λ s t, handle_start_thread s b t (Some table)) s l =
    mkRoutingService (mkChannel (sent (cmd_sender s) ++ ((λ t, StartThread t b) <$> l)) false).
Proof.
  revert s. induction l as [|t l IH]; intros s Hs.
  - simpl. rewrite app_nil_r. by destruct s as [[? ?]]; simpl in *; subst.
  - simpl. assert (routing_start_thread s b t (Some table) =
             mkRoutingService (mkChannel (sent (cmd_sender s) ++ [StartThread t b]) false)) as ->.
    { unfold routing_start_thread, send_command, send. by rewrite Hs. }
    rewrite IH by done. simpl. by rewrite <- app_assoc.
Qed.

Lemma tracking_commands b t table s :
  receiver_dropped (cmd_sender s) = false →
  sent (cmd_sender (tracking_handle_block_finalized thread_iter b t table s)) =
    sent (cmd_sender s) ++ ((λ t, StartThread t b) <$> spawned_by b table).
Proof.
  intros Hs. unfold tracking_handle_block_finalized. rewrite start_commands by done. by case_bool_decide.
Qed.

Lemma start_thread_step r t b :
  router_ok r →
  ∃ r', router_step node_factory r (Handled (StartThread t b)) = Ok r' ∧ router_ok r' ∧
    is_Some (dispatcher r' !! t) ∧ dom (dispatcher r) ⊆ dom (dispatcher r') ∧
    ∀ auth t', seen r' auth t' = seen r auth t'.
Proof.
  intros Hr. cbn [router_step]. unfold main_iteration. cbn [handle_command]. unfold has_route.
  case_bool_decide as Ht; [exists r; by split_and!|]. apply eq_None_not_Some in Ht.
  destruct (start_node node_factory r t (Some b) false) as [r'|e|] eqn:Hs.
  - exists r'. pose proof (start_node_ok node_factory _ _ _ _ _ Hr Ht Hs).
    destruct (start_node_spec node_factory _ _ _ _ _ Hr Ht Hs) as (Hd & _).
    split_and!; [done|done|rewrite Hd, lookup_insert_eq; eauto|rewrite Hd, dom_insert_L; set_solver|].
    intros auth t'. by destruct (start_node_seen node_factory _ _ _ _ _ auth t' Hr Ht Hs).
  - exfalso. unfold start_node, create_node_thread in Hs.
    destruct (is_ok_inv _ (nodes_are_built (factory r) (Some b) t)) as [f Hf]. rewrite Hf in Hs. simpl in Hs.
    by destruct (PoisonedQueue_retain _ _ _).
  - exfalso. unfold start_node, create_node_thread in Hs.
    destruct (is_ok_inv _ (nodes_are_built (factory r) (Some b) t)) as [f Hf]. rewrite Hf in Hs. simpl in Hs.
    by destruct (PoisonedQueue_retain _ _ _).
Qed.

Lemma start_threads_run b l r :
  router_ok r →
  ∃ r', run_router node_factory r ((λ t, Handled (StartThread t b)) <$> l) = Ok r' ∧ router_ok r' ∧
    Forall (λ t, is_Some (dispatcher r' !! t)) l ∧ dom (dispatcher r) ⊆ dom (dispatcher r') ∧
    ∀ auth t', seen r' auth t' = seen r auth t'.
Proof.
  revert r. induction l as [|t l IH]; intros r Hr.
  { exists r. by split_and!. }
  destruct (start_thread_step r t b Hr) as (r1 & H1 & Hr1 & Ht & Hd1 & Hs1).
  destruct (IH r1 Hr1) as (r2 & H2 & Hr2 & Hl & Hd2 & Hs2). exists r2.
  unfold run_router in *. rewrite fmap_cons, fold_outcome_cons, H1. split_and!; [done|done|..].
  - constructor; [|done]. apply elem_of_dom. apply Hd2. by apply elem_of_dom.
  - set_solver.
  - intros auth t'. by rewrite Hs2, Hs1.
Qed.

(** C30 (spawning): when a finalized block spawns threads, the tracking service tells the routing
    service, and once the main loop has handled the commands every spawned thread has its
    channels, with all messages that were waiting for it already sent in order; nothing that was
    sent or waits for another thread is lost.  Starting the node of a thread is taken to succeed. *)
Theorem spawned_threads_are_started b t table s r f es :
  run_router node_factory (Router_new f) es = Ok r →
  receiver_dropped (cmd_sender s) = false → sent (cmd_sender s) = [] →
  ∃ r', run_router node_factory r
          (Handled <$> sent (cmd_sender (tracking_handle_block_finalized thread_iter b t table s))) = Ok r' ∧
    (∀ t', t' ∈ ThreadsTable_list_threads table → ThreadIdentifier_is_spawning_block t' b = true →
       is_Some (dispatcher r' !! t') ∧ ∀ auth, delivered r' auth t' = delivered r auth t' ++ parked r auth t') ∧
    (∀ t' auth, delivered r' auth t' ++ parked r' auth t' = delivered r auth t' ++ parked r auth t').
Proof.
  intros Hr%run_ok Hs Hnil. rewrite tracking_commands, Hnil by done. simpl. rewrite <- list_fmap_compose.
  destruct (start_threads_run b (spawned_by b table) r Hr) as (r' & H1 & Hr' & Hl & _ & Hseen).
  exists r'. split_and!; [exact H1| |intros; apply Hseen]. intros t' Ht' Hb.
  assert (is_Some (dispatcher r' !! t')) as Hroute.
  { eapply Forall_forall in Hl; [exact Hl|]. apply list_elem_of_filter. split; [done|].
    rewrite thread_iter_elements. by apply elem_of_elements. }
  split; [done|]. intros auth. change (delivered r auth t' ++ parked r auth t') with (seen r auth t').
  rewrite <- Hseen. unfold seen. rewrite (parked_nil r'), app_nil_r; done.
Qed.
End spawned.

(** ** An external message for a thread without a node *)
(** It is dropped without feedback while its hash stays registered: until the node restarts,
    every later copy of the message is answered as a duplicate. *)
Lemma unrouted_external_message `{Blst} {M F : Type} `{TvmMessage M}
    (node_factory : F → option BlockIdentifier → ThreadIdentifier → outcome unit F)
    (r : Router M F) (s s' : ExtRegistry M) m t hash x y :
  ext_message_router r !! t = None → message_hash m = Some hash → registry s !! hash = None →
  ext_step s (Submitted (ExternalMessage (m, t)) (Some x)) = Ok s' →
  router_step node_factory r (Handled (ExtMessage (ExternalMessage (m, t)))) = Ok r ∧
  registry s' !! hash = Some x ∧
  ext_step s' (Submitted (ExternalMessage (m, t)) (Some y)) =
    Ok (mkExtRegistry (registry s') (answers s' ++ [(y, duplicate_feedback hash)]) (ext_commands s')).
Proof.
  intros Ht Hm Hs Hstep. split; [simpl; unfold main_iteration; simpl; by rewrite Ht|].
  simpl in *. rewrite Hm in *. simpl in *. unfold register_message in *. rewrite Hs in Hstep. simpl in Hstep.
  unfold send in Hstep. destruct (receiver_dropped _); [done|]. injection Hstep as <-. simpl.
  by rewrite lookup_insert_eq.
Qed.

(** ** An instance *)
Section RoutingExample.
#[local] Existing Instance LinearBlst.
#[local] Existing Instance text_message.

Definition factory_ok (n : nat) (_ : option BlockIdentifier) (_ : ThreadIdentifier) : outcome unit nat := Ok (S n).
Definition spawning : BlockIdentifier := example_block 3.
Definition new_thread : ThreadIdentifier := ThreadIdentifier_new spawning 1.
Definition late_table : ThreadsTable := [(Bitmask_default, new_thread); default_row].
Definition early (n : Z) : NetworkMessage string := SyncFrom (n, new_thread).
Definition early_events : list (RouterEvent (M := string)) :=
  [Handled (Route (early 1)); Handled (StartThread ThreadIdentifier_default BlockIdentifier_default);
   Handled (Route (early 2))].
Definition all_events : list (RouterEvent (M := string)) :=
  early_events ++ [Handled (StartThread new_thread spawning); Handled (Route (early 3))].

(** The three messages reach the thread that starts after the first two came. *)
Lemma routing_delivers_in_order_witness :
  ∃ r, run_router factory_ok (Router_new 0) all_events = Ok r ∧
    delivered r false new_thread = [early 1; early 2; early 3] ∧
    delivered r false new_thread ++ parked r false new_thread
      `sublist_of` filter (addressed false new_thread) (routed all_events).
Proof.
  assert (Hd : (λ r, delivered r false new_thread) <$> run_router factory_ok (Router_new 0) all_events =
               Ok [early 1; early 2; early 3]) by (vm_compute; reflexivity).
  destruct (run_router factory_ok (Router_new 0) all_events) as [r|e|] eqn:Hr; [|discriminate Hd|discriminate Hd].
  injection Hd as Hd. exists r. split; [reflexivity|]. split; [exact Hd|].
  exact (proj1 (routing_delivers_in_order factory_ok 0 all_events r false new_thread Hr)).
Defined.

(** Two messages wait for a thread that a block spawns. *)
Lemma spawned_threads_are_started_witness :
  ∃ r r', run_router factory_ok (Router_new 0) early_events = Ok r ∧
    run_router factory_ok r
      (Handled <$> sent (cmd_sender (tracking_handle_block_finalized elements spawning
                                       ThreadIdentifier_default late_table (mkRoutingService channel)))) = Ok r' ∧
    delivered r' false new_thread = [early 1; early 2].
Proof.
  assert (Hd : (λ r, delivered r false new_thread ++ parked r false new_thread) <$>
               run_router factory_ok (Router_new 0) early_events = Ok [early 1; early 2]) by (vm_compute; reflexivity).
  destruct (run_router factory_ok (Router_new 0) early_events) as [r|e|] eqn:Hr; [|discriminate Hd|discriminate Hd].
  destruct (spawned_threads_are_started factory_ok (λ _ _ _, eq_refl) elements (λ X, reflexivity _)
              spawning ThreadIdentifier_default late_table (mkRoutingService channel) r 0 early_events Hr)
    as (r' & Hrun & Hstart & _); [reflexivity|reflexivity|].
  exists r, r'. split; [reflexivity|]. split; [exact Hrun|].
  destruct (Hstart new_thread) as [_ Hall]; [|vm_compute; reflexivity|].
  - apply (bool_decide_unpack _). vm_compute. exact I.
  - rewrite Hall. injection Hd as Hd. exact Hd.
Defined.

Definition submission (x : Z) : ExtEvent (M := string) :=
  Submitted (ExternalMessage (text "a" "1", ThreadIdentifier_default)) (Some x).
Definition sent_hash : string := Eval vm_compute in default "" (message_hash (text "a" "1")).
Definition success : ExtMsgFeedback := mkFeedback sent_hash None None false 0 None None [].
Definition answered_registry : ExtRegistry string :=
  mkExtRegistry {[sent_hash := 3%Z]} [(2%Z, duplicate_feedback sent_hash); (1%Z, success)]
    (mkChannel (replicate 2 (ExtMessage (ExternalMessage (text "a" "1", ThreadIdentifier_default)))) false).

(** A copy is refused while the message waits; it is accepted after the feedback. *)
Lemma external_messages_answered_once_witness :
  run_registry ExtRegistry_new [submission 1; submission 2; FeedbackGiven success; submission 3] =
    Ok answered_registry ∧
  (answers answered_registry).*1 ++ (map_to_list (registry answered_registry)).*2 ≡ₚ [1; 2; 3]%Z.
Proof.
  assert (run_registry ExtRegistry_new [submission 1; submission 2; FeedbackGiven success; submission 3] =
          Ok answered_registry) as Hr by (vm_compute; reflexivity).
  split; [exact Hr|]. exact (proj1 (external_messages_answered_once _ _ Hr)).
Defined.
End RoutingExample.
