(* ===== verification/Validation.v ===== *)
(** * Validation of blocks

    Models [node/services/validation] ([inner_loop.rs]: the loop that re-executes the blocks
    which must be validated; [feedback.rs]: the acks and nacks that are sent), the comparison of
    [block/verify.rs], and [node/acki_nacki.rs] (the acks and nacks that are received).

    The re-execution of a block runs the TVM, which is third-party code: [generate_verify_block]
    is a parameter, and so are the repository that loads the states and the accessors of the
    block that the rest of the development does not use.  A sent message is an entry of the log
    [v_out]; whether the network takes it is a parameter.  The shutdown flag is part of the state,
    since the service raises it.  Tracing is not modelled. *)
From stdpp Require Import base numbers gmap strings fin_maps sorting list.
From S2P Require Import Prelude Identifiers Bls BlockKeepers Envelope Attestation Checkpoints Statistics BlockState RoundTime ActionLock NextRound BlockProcessor AuthoritySwitch CrossThread NetworkMessage.

(** ** The comparison of blocks *)
Section verify.
Context {Cell : Type} `{EqDecision Cell}.

Record TvmBlock := mkTvmBlock {
  tb_global_id : Z;
  tb_info : Cell;
  tb_value_flow : Cell;
  tb_out_msg_queue_updates : Cell;
  tb_extra : Cell;
  tb_state_update : Cell;
}.
#[global] Instance TvmBlock_eq_dec : EqDecision TvmBlock.
Proof. solve_decision. Defined.

(** The old and the new hash of the state, if the update can be read. *)
Variable read_state_update : TvmBlock → option (Z * Z).

Inductive GenerateError := VerifyErrorCode (code : Z) | OtherFailure.
Definition BP_DID_NOT_PROCESS_ALL_MESSAGES_FROM_PREVIOUS_BLOCK : Z := 1.

(** The part of [verify_block] after the re-execution: blocks that differ only in how the state
    update is written are the same. *)
Definition verify_generated (candidate : TvmBlock) (generated : outcome GenerateError TvmBlock) : outcome unit bool :=
  match generated with
  | Err (VerifyErrorCode code) =>
      if bool_decide (code = BP_DID_NOT_PROCESS_ALL_MESSAGES_FROM_PREVIOUS_BLOCK) then Ok false else Err ()
  | Err OtherFailure => Err ()
  | Panic => Panic
  | Ok verify_block =>
      if bool_decide (verify_block = candidate) then Ok true
      else
        ok_or (read_state_update candidate) () ≫= λ candidate_update,
        ok_or (read_state_update verify_block) () ≫= λ verify_update,
        Ok (bool_decide (tb_global_id verify_block = tb_global_id candidate) &&
            bool_decide (tb_info verify_block = tb_info candidate) &&
            bool_decide (tb_value_flow verify_block = tb_value_flow candidate) &&
            bool_decide (tb_out_msg_queue_updates verify_block = tb_out_msg_queue_updates candidate) &&
            bool_decide (tb_extra verify_block = tb_extra candidate) &&
            bool_decide (candidate_update.2 = verify_update.2) &&
            bool_decide (candidate_update.1 = verify_update.1))
  end.

(** [verify_generated] answers yes for a readable candidate exactly when the re-execution gives a
    block with the same parts and the same hashes of the state before and after. *)
Lemma verify_generated_true candidate generated hashes :
  read_state_update candidate = Some hashes →
  verify_generated candidate generated = Ok true ↔
  ∃ b, generated = Ok b ∧ read_state_update b = Some hashes ∧
    tb_global_id b = tb_global_id candidate ∧ tb_info b = tb_info candidate ∧
    tb_value_flow b = tb_value_flow candidate ∧
    tb_out_msg_queue_updates b = tb_out_msg_queue_updates candidate ∧ tb_extra b = tb_extra candidate.
Proof.
  intros Hc. unfold verify_generated. destruct generated as [b|[code|]|].
  - case_bool_decide as Hb; [subst; split; [intros _; exists candidate; by split_and!|done]|].
    rewrite Hc. simpl. destruct (read_state_update b) as [[old new]|] eqn:Hr;
      [|split; [done|]; intros (b' & [= <-] & ? & _); congruence].
    destruct hashes as [old' new']. simpl. split.
    + intros [= Hb']. rewrite !andb_true_iff, !bool_decide_eq_true in Hb'.
      destruct Hb' as [[[[[[? ?] ?] ?] ?] ?] ?]. exists b. split_and!; try done. congruence.
    + intros (b' & [= <-] & Hh & H1 & H2 & H3 & H4 & H5). rewrite Hr in Hh. injection Hh as -> ->.
      rewrite H1, H2, H3, H4, H5. by rewrite !bool_decide_true by done.
  - split; [by case_bool_decide|]. by intros (b & ? & _).
  - split; [done|]. by intros (b & ? & _).
  - split; [done|]. by intros (b & ? & _).
Qed.
End verify.
Arguments TvmBlock : clear implicits.

(** ** The service *)
Section validation.
Context `{Blst} {Cell OptState RefData : Type} `{EqDecision Cell}.
Context `{Serialize Lock} `{Serialize AckData} `{Serialize NackData}.
Notation Repo := (Repository NackData).
Notation Item := (BlockIdentifier * Envelope AckiNackiBlock)%type.

(** *** What the service is given *)
Variable read_state_update : TvmBlock Cell → option (Z * Z).
Variable tvm_block : AckiNackiBlock → TvmBlock Cell.
Variable section_refs : AckiNackiBlock → list BlockIdentifier.
Variable get_optimistic_state : BlockIdentifier → ThreadIdentifier → outcome unit (option OptState).
Variable get_cross_thread_ref_data : BlockIdentifier → option RefData.
Variable generate_verify_block :
  Repo → AckiNackiBlock → OptState → list RefData → outcome GenerateError (TvmBlock Cell).
(** The authorities of the threads and what their calls read. *)
Variable iter_order : gset NodeIdentifier → list NodeIdentifier.
Variable shuffle : list Z → list NodeIdentifier → list NodeIdentifier.
Variable set_iter : gset BlockIdentifier → list BlockIdentifier.
Variable authority_config : ThreadIdentifier → AuthorityConfig.
Variable new_authority : ThreadIdentifier → ThreadAuthority.
Variable moment : BlockIdentifier → Moment.
(** The order of a set of nodes, and whether the network takes a message. *)
Variable node_iter : gset NodeIdentifier → list NodeIdentifier.
Variable direct_ok : NodeIdentifier → bool.
Variable broadcast_ok : bool.

Record AckiNackiSend := mkAckiNackiSend {
  ack_node_id : NodeIdentifier;
  ack_bls_keys_map : gmap PubKey Secret;
}.
Variable send : AckiNackiSend.

Inductive ValidationOut :=
  | AckSent (to : NodeIdentifier) (ack : Envelope AckData) (t : ThreadIdentifier)
  | NackSent (nack : Envelope NackData) (t : ThreadIdentifier)
  | AuthoritySent (m : Sent).

Record ValidationWorld := mkValidation {
  v_repo : Repo;
  v_authorities : gmap ThreadIdentifier ThreadAuthority;
  v_shutdown : bool;
  v_out : list ValidationOut;
}.
Implicit Types w : ValidationWorld.
Definition v_with_repo w (r : Repo) : ValidationWorld := mkValidation r (v_authorities w) (v_shutdown w) (v_out w).
Definition v_log w (l : list ValidationOut) : ValidationWorld :=
  mkValidation (v_repo w) (v_authorities w) (v_shutdown w) (v_out w ++ l).

(** *** Acks and nacks *)
(** A keeper without its key raises the shutdown flag; the flag can be set only once. *)
Definition get_signer_data w (s : AckiNackiBlockState NackData) :
    outcome Empty_set (ValidationWorld * option (Z * Secret)) :=
  match get_bk_data_for_node_id s (ack_node_id send) with
  | None => Ok (w, None)
  | Some bk_data =>
      match ack_bls_keys_map send !! pubkey bk_data with
      | Some secret => Ok (w, Some (signer_index bk_data, secret))
      | None =>
          if v_shutdown w then Panic
          else Ok (mkValidation (v_repo w) (v_authorities w) true (v_out w), None)
      end
  end.

Fixpoint send_acks w (ack : Envelope AckData) (t : ThreadIdentifier) (destinations : list NodeIdentifier) :
    ValidationWorld :=
  match destinations with
  | [] => w
  | n :: destinations =>
      if direct_ok n then send_acks (v_log w [AckSent n ack t]) ack t destinations
      else if v_shutdown w then send_acks w ack t destinations else w
  end.

(** The errors of [send_ack] and [send_nack_bad_block] are ignored by the caller. *)
Definition send_ack w (block : BlockIdentifier) : outcome Empty_set ValidationWorld :=
  let s := repo_get (v_repo w) block in
  match get s block_seq_no, get s BlockState.thread_identifier with
  | Some seq_no, Some t =>
      let destinations := known_attestation_interested_parties s ∖ {[ack_node_id send]} in
      if bool_decide (destinations = ∅) then Ok w
      else
        get_signer_data w s ≫= λ '(w, signer),
        match signer with
        | None => Ok w
        | Some (index, secret) =>
            let ack_data := mkAckData (block_identifier s) seq_no in
            match GoshBLS_sign secret ack_data with
            | Ok signature =>
                Ok (send_acks w (Envelope_create signature {[index := 1%Z]} ack_data) t (node_iter destinations))
            | _ => Ok w
            end
        end
  | _, _ => Ok w
  end.

Definition send_nack_bad_block w (block : BlockIdentifier) (envelope : Envelope AckiNackiBlock) :
    outcome Empty_set ValidationWorld :=
  let s := repo_get (v_repo w) block in
  match get s block_seq_no, get s BlockState.thread_identifier with
  | Some seq_no, Some t =>
      get_signer_data w s ≫= λ '(w, signer),
      match signer with
      | None => Ok w
      | Some (index, secret) =>
          let nack_data := mkNackData (block_identifier s) seq_no (BadBlock envelope) in
          match GoshBLS_sign secret nack_data with
          | Ok signature =>
              let nack := Envelope_create signature {[index := 1%Z]} nack_data in
              Ok (if broadcast_ok then v_log w [NackSent nack t] else w)
          | _ => Ok w
          end
      end
  | _, _ => Ok w
  end.

(** *** One block *)
(** The first three [if]s of the loop. *)
Definition must_wait (s : AckiNackiBlockState NackData) : bool :=
  is_finalized s || is_invalidated s ||
  (negb (is_set s must_be_validated true) && bool_decide (get s validated = None) && has_bad_block_nacks_resolved s) ||
  negb (is_set s stored true && is_set s has_all_cross_thread_ref_data_available true &&
        is_set s envelope_block_producer_signature_verified true).

Fixpoint load_refs (ids : list BlockIdentifier) : outcome Empty_set (list RefData) :=
  match ids with
  | [] => Ok []
  | id :: ids => unwrap (get_cross_thread_ref_data id) ≫= λ d, load_refs ids ≫= λ ds, Ok (d :: ds)
  end.

(** The verdict on an envelope; [None] when the state before the block cannot be loaded.  The
    failure of [verify_block] is an [expect]. *)
Definition judge (r : Repo) (e : Envelope AckiNackiBlock) : outcome Empty_set (option bool) :=
  let next_block := data e in
  match get_optimistic_state (blk_parent next_block) (blk_thread_id next_block) with
  | Panic => Panic
  | Ok (Some prev_state) =>
      load_refs (section_refs next_block) ≫= λ refs,
      unwrap_ok (verify_generated read_state_update (tvm_block next_block)
                   (generate_verify_block r next_block prev_state refs)) ≫= λ verify_res,
      Ok (Some verify_res)
  | _ => Ok None
  end.

Definition set_validated (r : Repo) (block : BlockIdentifier) (verify_res : bool) : Repo :=
  match get (repo_get r block) validated with
  | None =>
      match generated_setter (repo_get r block) validated verify_res with
      | Ok s => <[block := s]> r
      | _ => r
      end
  | Some _ => r
  end.

(** The feedback on a rejected block: its thread starts a new round, and the nack is sent. *)
Definition reject_block w (item : Item) : outcome Empty_set ValidationWorld :=
  let '(block, envelope) := item in
  let t := blk_thread_id (data envelope) in
  let a := default (new_authority t) (v_authorities w !! t) in
  let at_call := moment block in
  on_bad_block_nack_confirmed iter_order shuffle set_iter (authority_config t) a (v_repo w)
    (at_wall_ms at_call) (at_wall_ms_of at_call) (at_instant at_call) block ≫= λ '(a, messages),
  let w := v_log (mkValidation (v_repo w) (<[t := a]> (v_authorities w)) (v_shutdown w) (v_out w))
             (AuthoritySent <$> messages) in
  send_nack_bad_block w block envelope.

(** One turn of the [for] loop, and whether the service goes on. *)
Definition validate_one w (item : Item) : outcome Empty_set (ValidationWorld * bool) :=
  let '(block, envelope) := item in
  let s := repo_get (v_repo w) block in
  if must_wait s then Ok (w, true)
  else
    unwrap (get s parent_block_identifier) ≫= λ parent_id,
    if negb (is_block_already_applied (repo_get (v_repo w) parent_id)) then Ok (w, true)
    else
      judge (v_repo w) envelope ≫= λ verdict,
      match verdict with
      | None => Ok (w, true)
      | Some verify_res =>
          let r := set_validated (v_repo w) block verify_res in
          (if verify_res then Ok r else invalidate_branch set_iter r block) ≫= λ r,
          let w := v_with_repo w r in
          if v_shutdown w then Ok (w, false)
          else
            (if verify_res then send_ack w block else reject_block w (block, envelope)) ≫= λ w, Ok (w, true)
      end.

(** *** The loop *)
Inductive TryRecv := Received (item : Item) | Empty | Disconnected.

(** [read_into_buffer]: everything that can be read, one more try, and a blocking read when
    nothing was there; [None] when the senders are gone. *)
Definition read_into_buffer (ready : list Item) (once_more : TryRecv) (blocking : option Item) (buffer : list Item) :
    option (list Item) :=
  let buffer := buffer ++ ready in
  match once_more with
  | Disconnected => None
  | Received next => Some (buffer ++ [next])
  | Empty =>
      match buffer with
      | [] => (λ next, [next]) <$> blocking
      | _ => Some buffer
      end
  end.

Definition still_open (s : AckiNackiBlockState NackData) : bool :=
  negb (is_finalized s) && negb (is_invalidated s) && bool_decide (get s validated = None) &&
  bool_decide (get s envelope_block_producer_signature_verified ≠ Some false).

Fixpoint validate_all w (buffer : list Item) : outcome Empty_set (ValidationWorld * bool) :=
  match buffer with
  | [] => Ok (w, true)
  | item :: buffer =>
      validate_one w item ≫= λ '(w, goes_on), if goes_on : bool then validate_all w buffer else Ok (w, false)
  end.

(** The buffer that is kept, and one iteration: the world and whether the service goes on. *)
Definition retain_open w (buffer : list Item) : list Item :=
  filter (λ item, still_open (repo_get (v_repo w) item.1) = true) buffer.
Definition validation_iteration w (ready : list Item) (once_more : TryRecv) (blocking : option Item)
    (buffer : list Item) : outcome Empty_set (ValidationWorld * list Item * bool) :=
  if v_shutdown w then Ok (w, buffer, false)
  else
    match read_into_buffer ready once_more blocking buffer with
    | None => Ok (w, buffer, false)
    | Some buffer =>
        let buffer := retain_open w buffer in
        validate_all w buffer ≫= λ '(w, goes_on), Ok (w, buffer, goes_on)
    end.

(** *** What a turn changes *)
Hypothesis set_iter_elements : ∀ X, set_iter X ≡ₚ elements X.
Hypothesis node_iter_elements : ∀ X, node_iter X ≡ₚ elements X.
Implicit Types (r : Repo) (block id : BlockIdentifier) (e : Envelope AckiNackiBlock) (b : bool).

(** Only the verdict and the invalidation of a block may change. *)
Definition only_judged r r' id : Prop :=
  block_identifier (repo_get r' id) = block_identifier (repo_get r id) ∧
  known_attestation_interested_parties (repo_get r' id) = known_attestation_interested_parties (repo_get r id) ∧
  bad_block_accusers (repo_get r' id) = bad_block_accusers (repo_get r id) ∧
  (∀ f, f ≠ validated → f ≠ invalidated → get (repo_get r' id) f = get (repo_get r id) f) ∧
  (is_invalidated (repo_get r id) = true → is_invalidated (repo_get r' id) = true).

Lemma only_judged_refl r id : only_judged r r id.
Proof. by split_and!. Qed.
Lemma only_judged_trans r1 r2 r3 id : only_judged r1 r2 id → only_judged r2 r3 id → only_judged r1 r3 id.
Proof.
  intros (? & ? & ? & Hf & ?) (? & ? & ? & Hf' & ?). split_and!; try congruence; [|auto].
  intros f Hn1 Hn2. by rewrite Hf', Hf.
Qed.

Lemma set_validated_spec r block b id :
  only_judged r (set_validated r block b) id ∧
  get (repo_get (set_validated r block b) id) validated =
    (if decide (id = block)
     then Some (default b (get (repo_get r block) validated))
     else get (repo_get r id) validated).
Proof.
  unfold set_validated. destruct (get (repo_get r block) validated) as [v|] eqn:Hv.
  - split; [apply only_judged_refl|]. case_decide; by subst.
  - unfold generated_setter. rewrite Hv. rewrite decide_False by done. simpl.
    unfold only_judged. rewrite repo_get_insert. case_decide as Hid; [subst id|by split_and!].
    split; [|simpl; by rewrite set_fact_eq].
    split_and!; try done. intros f Hne _. simpl. by rewrite set_fact_ne.
Qed.

Lemma invalidate_spec r root r' :
  invalidate_branch set_iter r root = Ok r' →
  is_invalidated (repo_get r' root) = true ∧
  ∀ id, only_judged r r' id ∧ get (repo_get r' id) validated = get (repo_get r id) validated.
Proof.
  intros Hr. pose proof (invalidate_branch_cases set_iter set_iter_elements r root) as Hc. rewrite Hr in Hc.
  split; [by destruct (ii_root _ _ _ _ Hc) as [?%elem_of_nil|[? ?]]|].
  intros id. destruct (ii_state _ _ _ _ Hc id) as [Heq|[Heq _]]; unfold only_judged; rewrite Heq; [done|].
  split_and!; try done. intros f _ Hf. simpl. by rewrite set_fact_ne.
Qed.

(** *** The feedback of a turn *)
(** What a turn on a block with a verdict may send. *)
Definition feedback_on r (item : Item) b (out : ValidationOut) : Prop :=
  match out with
  | AckSent n ack t =>
      b = true ∧ n ≠ ack_node_id send ∧
      n ∈ known_attestation_interested_parties (repo_get r item.1) ∧
      ack_block_id (data ack) = block_identifier (repo_get r item.1)
  | NackSent nack t =>
      b = false ∧ ∃ seq_no, data nack = mkNackData (block_identifier (repo_get r item.1)) seq_no (BadBlock item.2)
  | AuthoritySent _ => b = false
  end.

Lemma get_signer_data_keeps w s w' signer :
  get_signer_data w s = Ok (w', signer) → v_repo w' = v_repo w ∧ v_out w' = v_out w.
Proof.
  unfold get_signer_data. destruct (get_bk_data_for_node_id s _) as [k|]; [|by intros [= <- <-]].
  destruct (ack_bls_keys_map send !! pubkey k); [by intros [= <- <-]|].
  destruct (v_shutdown w); [done|]. by intros [= <- <-].
Qed.

Lemma send_acks_spec w ack t l :
  v_repo (send_acks w ack t l) = v_repo w ∧
  ∃ new, v_out (send_acks w ack t l) = v_out w ++ new ∧
         Forall (λ o, ∃ n, n ∈ l ∧ o = AckSent n ack t) new.
Proof.
  assert (Hnone : ∀ w (l : list NodeIdentifier), v_repo w = v_repo w ∧
           ∃ new, v_out w = v_out w ++ new ∧ Forall (λ o, ∃ n, n ∈ l ∧ o = AckSent n ack t) new).
  { intros w1 l1. split; [done|]. exists []. rewrite app_nil_r. by split. }
  revert w. induction l as [|n l IH]; intros w; simpl; [apply Hnone|].
  assert (∀ new, Forall (λ o, ∃ n, n ∈ l ∧ o = AckSent n ack t) new →
            Forall (λ o, ∃ n', n' ∈ n :: l ∧ o = AckSent n' ack t) new) as Hmore.
  { intros new Hnew. eapply Forall_impl; [exact Hnew|]. intros o (n' & Hn' & ->). exists n'.
    split; [by right|done]. }
  destruct (direct_ok n).
  - destruct (IH (v_log w [AckSent n ack t])) as (Hr & new & Ho & Hnew).
    split; [done|]. exists (AckSent n ack t :: new). split; [rewrite Ho; simpl; by rewrite <- app_assoc|].
    constructor; [exists n; split; [by left|done]|by apply Hmore].
  - destruct (v_shutdown w); [|apply Hnone].
    destruct (IH w) as (Hr & new & Ho & Hnew). split; [done|]. exists new. split; [done|by apply Hmore].
Qed.

Lemma send_ack_spec w block e w' :
  send_ack w block = Ok w' →
  v_repo w' = v_repo w ∧ ∃ new, v_out w' = v_out w ++ new ∧ Forall (feedback_on (v_repo w) (block, e) true) new.
Proof.
  assert (Hnone : v_repo w = v_repo w ∧
    ∃ new, v_out w = v_out w ++ new ∧ Forall (feedback_on (v_repo w) (block, e) true) new).
  { split; [done|]. exists []. by rewrite app_nil_r. }
  unfold send_ack. set (s := repo_get (v_repo w) block).
  destruct (get s block_seq_no) as [n|]; [|by intros [= <-]].
  destruct (get s BlockState.thread_identifier) as [t|]; [|by intros [= <-]].
  case_bool_decide; [by intros [= <-]|]. intros Hs. apply outcome_bind_Ok in Hs as ([w1 signer] & Hg & Hs).
  apply get_signer_data_keeps in Hg as [Hr Ho]. rewrite <- Hr, <- Ho in Hnone |- *.
  destruct signer as [[index secret]|]; [|by injection Hs as <-].
  destruct (GoshBLS_sign secret _); [|by injection Hs as <-|by injection Hs as <-].
  injection Hs as <-. destruct (send_acks_spec w1 (Envelope_create a {[index := 1%Z]} (mkAckData (block_identifier s) n))
    t (node_iter (known_attestation_interested_parties s ∖ {[ack_node_id send]}))) as (Hr1 & new & Ho1 & Hnew).
  split; [done|]. exists new. split; [done|]. eapply Forall_impl; [exact Hnew|].
  intros o (to & Hto & ->). rewrite node_iter_elements, elem_of_elements in Hto. rewrite Hr. simpl. set_solver.
Qed.

Lemma reject_block_spec w block e w' :
  reject_block w (block, e) = Ok w' →
  v_repo w' = v_repo w ∧ ∃ new, v_out w' = v_out w ++ new ∧ Forall (feedback_on (v_repo w) (block, e) false) new.
Proof.
  unfold reject_block. intros Hs. apply outcome_bind_Ok in Hs as ([a messages] & _ & Hs).
  set (w1 := v_log _ _) in Hs. change (v_repo w) with (v_repo w1).
  assert (Hnone : v_repo w1 = v_repo w1 ∧
    ∃ new, v_out w1 = v_out w ++ new ∧ Forall (feedback_on (v_repo w1) (block, e) false) new).
  { split; [done|]. exists (AuthoritySent <$> messages). split; [done|]. apply Forall_fmap, Forall_true. done. }
  unfold send_nack_bad_block in Hs. set (s := repo_get (v_repo w1) block) in Hs.
  destruct (get s block_seq_no) as [n|]; [|by injection Hs as <-].
  destruct (get s BlockState.thread_identifier) as [t|]; [|by injection Hs as <-].
  apply outcome_bind_Ok in Hs as ([w2 signer] & Hg & Hs).
  apply get_signer_data_keeps in Hg as [Hr Ho]. rewrite <- Hr, <- Ho in Hnone. rewrite <- Hr.
  destruct signer as [[index secret]|]; [|by injection Hs as <-].
  destruct (GoshBLS_sign secret _); [|by injection Hs as <-|by injection Hs as <-].
  destruct broadcast_ok; injection Hs as <-; [|done].
  destruct Hnone as (_ & new & Hnew & Hall). split; [done|]. eexists. split; [simpl; rewrite Hnew; by rewrite <- app_assoc|].
  apply Forall_app. split; [done|]. apply Forall_singleton. simpl. rewrite Hr. eauto.
Qed.

(** A turn does nothing, or it reaches a verdict. *)
Definition turn w (item : Item) b w' : Prop :=
  judge (v_repo w) item.2 = Ok (Some b) ∧
  must_wait (repo_get (v_repo w) item.1) = false ∧
  (∃ parent, get (repo_get (v_repo w) item.1) parent_block_identifier = Some parent ∧
             is_block_already_applied (repo_get (v_repo w) parent) = true) ∧
  (∀ id, only_judged (v_repo w) (v_repo w') id ∧
         get (repo_get (v_repo w') id) validated =
           (if decide (id = item.1)
            then Some (default b (get (repo_get (v_repo w) id) validated))
            else get (repo_get (v_repo w) id) validated)) ∧
  (b = false → is_invalidated (repo_get (v_repo w') item.1) = true) ∧
  ∃ new, v_out w' = v_out w ++ new ∧ Forall (feedback_on (v_repo w) item b) new.

Lemma feedback_on_same r r' (item : Item) b o : only_judged r r' item.1 → feedback_on r' item b o → feedback_on r item b o.
Proof. intros (Hid & Hp & _). destruct o; simpl; by rewrite ?Hid, ?Hp. Qed.

Lemma verdict_repo r block b r' :
  (if b then Ok (set_validated r block b) else invalidate_branch set_iter (set_validated r block b) block) = Ok r' →
  (∀ id, only_judged r r' id ∧
         get (repo_get r' id) validated =
           (if decide (id = block) then Some (default b (get (repo_get r id) validated))
            else get (repo_get r id) validated)) ∧
  (b = false → is_invalidated (repo_get r' block) = true).
Proof.
  destruct b.
  - intros [= <-]. split; [|done]. intros id. destruct (set_validated_spec r block true id) as [Hj Hv].
    split; [done|]. rewrite Hv. case_decide; by subst.
  - intros [Hinv Hr]%invalidate_spec. split; [|done]. intros id. destruct (Hr id) as [Hj Hv].
    destruct (set_validated_spec r block false id) as [Hj' Hv'].
    split; [by eapply only_judged_trans|]. rewrite Hv, Hv'. case_decide; by subst.
Qed.

Lemma validate_one_turn w item w' goes_on :
  validate_one w item = Ok (w', goes_on) → w' = w ∨ ∃ b, turn w item b w'.
Proof.
  destruct item as [block e]. unfold validate_one.
  destruct (must_wait _) eqn:Hw; [intros [= <- _]; by left|].
  intros Hs. apply outcome_bind_Ok in Hs as (parent & Hparent & Hs).
  destruct (get (repo_get (v_repo w) block) parent_block_identifier) as [p|] eqn:Hp; [|done].
  injection Hparent as ->. destruct (is_block_already_applied _) eqn:Happ; [|injection Hs as <- _; by left].
  cbn [negb] in Hs. apply outcome_bind_Ok in Hs as (verdict & Hj & Hs).
  destruct verdict as [b|]; [|injection Hs as <- _; by left].
  right. exists b. apply outcome_bind_Ok in Hs as (r1 & Hr1 & Hs).
  destruct (verdict_repo _ _ _ _ Hr1) as [Hrepo Hinv].
  assert (v_repo w' = r1 ∧ ∃ new, v_out w' = v_out w ++ new ∧ Forall (feedback_on r1 (block, e) b) new)
    as (Hr' & new & Hnew & Hall).
  { cbn [v_with_repo v_shutdown] in Hs. destruct (v_shutdown w).
    - injection Hs as <- _. split; [done|]. exists []. by rewrite app_nil_r.
    - apply outcome_bind_Ok in Hs as (w1 & Hs & [= <- _]).
      destruct b; [exact (send_ack_spec _ block e _ Hs)|exact (reject_block_spec _ _ _ _ Hs)]. }
  unfold turn. rewrite Hr'. cbn [fst snd]. split_and!; [done|done|by exists parent|done|done|].
  exists new. split; [done|]. eapply Forall_impl; [exact Hall|].
  intros o. apply feedback_on_same. by destruct (Hrepo block).
Qed.

(** *** The verdicts of the loop *)
(** What a block must have before it is re-executed. *)
Definition ready_to_validate r id : Prop :=
  is_set (repo_get r id) stored true = true ∧
  is_set (repo_get r id) has_all_cross_thread_ref_data_available true = true ∧
  is_set (repo_get r id) envelope_block_producer_signature_verified true = true ∧
  ∃ parent, get (repo_get r id) parent_block_identifier = Some parent ∧
            is_block_already_applied (repo_get r parent) = true.

(** The envelope [e] of the buffer was re-executed for the block [id] with this result, on a
    store between [r0] and [r1] in which the block was ready. *)
Definition rejudged r0 r1 (buffer : list Item) id e b : Prop :=
  (id, e) ∈ buffer ∧ ∃ r, (∀ i, only_judged r0 r i) ∧ (∀ i, only_judged r r1 i) ∧
    ready_to_validate r id ∧ judge r e = Ok (Some b).

Definition judged r0 r1 (buffer : list Item) id b : Prop := ∃ e, rejudged r0 r1 buffer id e b.

Definition justified r0 r1 (buffer : list Item) (out : ValidationOut) : Prop :=
  match out with
  | AckSent n ack t => n ≠ ack_node_id send ∧ judged r0 r1 buffer (ack_block_id (data ack)) true
  | NackSent nack t =>
      ∃ block seq_no e, data nack = mkNackData block seq_no (BadBlock e) ∧
        rejudged r0 r1 buffer block e false ∧ is_invalidated (repo_get r1 block) = true
  | AuthoritySent _ => ∃ id, judged r0 r1 buffer id false
  end.

Lemma only_judged_is_set r r' id f v :
  only_judged r r' id → f ≠ validated → f ≠ invalidated → is_set (repo_get r' id) f v = is_set (repo_get r id) f v.
Proof. intros (_ & _ & _ & Hf & _) Hn1 Hn2. unfold is_set. by rewrite Hf. Qed.

Lemma ready_same r r' id : (∀ id, only_judged r r' id) → ready_to_validate r id ↔ ready_to_validate r' id.
Proof.
  intros Hj. unfold ready_to_validate, is_block_already_applied.
  rewrite !(only_judged_is_set r r' id) by done.
  destruct (Hj id) as (_ & _ & _ & Hf & _). rewrite (Hf parent_block_identifier) by done.
  split; intros (? & ? & ? & parent & ? & Ha); (split_and!; [done..|]); exists parent; split; try done;
    by rewrite (only_judged_is_set r r' parent) in * by done.
Qed.

Lemma turn_ready w item b w' : turn w item b w' → ready_to_validate (v_repo w) item.1.
Proof.
  intros (_ & Hw & Hp & _). unfold must_wait in Hw. apply orb_false_iff in Hw as [_ Hw].
  apply negb_false_iff in Hw. rewrite !andb_true_iff in Hw. unfold ready_to_validate. tauto.
Qed.

Lemma rejudged_weaken (item : Item) r0 r0' r1 buffer id e b :
  (∀ i, only_judged r0 r0' i) → rejudged r0' r1 buffer id e b → rejudged r0 r1 (item :: buffer) id e b.
Proof.
  intros Hle (Hin & r & Hr0 & Hr1 & Hj). split; [by right|]. exists r.
  split_and!; [|done|apply Hj|apply Hj]. intros i. by eapply only_judged_trans.
Qed.

Lemma judged_weaken (item : Item) r0 r0' r1 buffer id b :
  (∀ i, only_judged r0 r0' i) → judged r0' r1 buffer id b → judged r0 r1 (item :: buffer) id b.
Proof. intros Hle [e He]. exists e. by eapply rejudged_weaken. Qed.

Lemma justified_weaken (item : Item) r0 r0' r1 buffer o :
  (∀ i, only_judged r0 r0' i) → justified r0' r1 buffer o → justified r0 r1 (item :: buffer) o.
Proof.
  intros Hle. destruct o as [n ack t|nack t|m]; simpl.
  - intros [Hn Hj]. split; [done|]. by eapply judged_weaken.
  - intros (block & seq_no & e & Hd & Hj & Hi). exists block, seq_no, e.
    split_and!; [done|by eapply rejudged_weaken|done].
  - intros [id Hj]. exists id. by eapply judged_weaken.
Qed.

Lemma turn_rejudged w item buffer b w' r1 :
  turn w item b w' → (∀ id, only_judged (v_repo w) r1 id) →
  rejudged (v_repo w) r1 (item :: buffer) item.1 item.2 b.
Proof.
  intros Hturn Hr1. split; [destruct item; by left|]. exists (v_repo w).
  split_and!; [intros i; apply only_judged_refl|done|by eapply turn_ready|by destruct Hturn].
Qed.

Lemma turn_justified w item buffer b w' r' o :
  turn w item b w' → (∀ id, block_identifier (repo_get (v_repo w) id) = id) →
  (∀ id, only_judged (v_repo w') r' id) → feedback_on (v_repo w) item b o →
  justified (v_repo w) r' (item :: buffer) o.
Proof.
  intros Hturn Hid Hr' Ho.
  assert (Hall : ∀ i, only_judged (v_repo w) r' i).
  { pose proof Hturn as (_ & _ & _ & Hr & _). intros i. eapply only_judged_trans; [apply Hr|apply Hr']. }
  pose proof (turn_rejudged _ _ buffer _ _ _ Hturn Hall) as Hrej.
  destruct item as [block e]. pose proof Hturn as (_ & _ & _ & _ & Hinv & _).
  destruct o as [n ack t|nack t|m]; simpl in Ho |- *.
  - destruct Ho as (-> & Hn & _ & Hack). split; [done|]. rewrite Hack, Hid. by exists e.
  - destruct Ho as (-> & seq_no & Hd). rewrite Hid in Hd. exists block, seq_no, e.
    split_and!; [done..|]. destruct (Hr' block) as (_ & _ & _ & _ & Hi). by apply Hi, Hinv.
  - subst b. by exists block, e.
Qed.

(** The verdicts and the feedback between two moments come from a buffer. *)
Definition follows (buffer : list Item) w w' : Prop :=
  (∀ id, only_judged (v_repo w) (v_repo w') id) ∧
  (∀ id b, get (repo_get (v_repo w) id) validated = Some b → get (repo_get (v_repo w') id) validated = Some b) ∧
  (∀ id b, get (repo_get (v_repo w') id) validated = Some b →
     get (repo_get (v_repo w) id) validated = Some b ∨
     (judged (v_repo w) (v_repo w') buffer id b ∧ ready_to_validate (v_repo w') id)) ∧
  ∃ new, v_out w' = v_out w ++ new ∧ Forall (justified (v_repo w) (v_repo w') buffer) new.

Lemma follows_refl buffer w : follows buffer w w.
Proof. split_and!; [intros id; apply only_judged_refl|done|by left|]. exists []. by rewrite app_nil_r. Qed.

Lemma validate_all_spec buffer : ∀ w w' goes_on,
  (∀ id, block_identifier (repo_get (v_repo w) id) = id) → validate_all w buffer = Ok (w', goes_on) →
  follows buffer w w'.
Proof.
  induction buffer as [|item buffer IH]; intros w w' goes_on Hid.
  { intros [= <- _]. apply follows_refl. }
  simpl. intros Hs. apply outcome_bind_Ok in Hs as ([w1 go] & Hone1 & Hs).
  assert (Hid1 : w1 = w ∨ (∃ b, turn w item b w1)) by by apply validate_one_turn in Hone1.
  assert (Hone : (∀ id, only_judged (v_repo w) (v_repo w1) id)).
  { destruct Hid1 as [->|(b & _ & _ & _ & Hr & _)]; [intros id; apply only_judged_refl|intros id; apply Hr]. }
  assert (Hrest : follows buffer w1 w').
  { destruct go; [apply (IH _ _ goes_on); [|done]|injection Hs as <- _; apply follows_refl].
    intros id. destruct (Hone id) as [-> _]. apply Hid. }
  destruct Hrest as (Hrest & Hkeep & Hval & new & Hnew & Hall).
  assert (Hboth : ∀ id, only_judged (v_repo w) (v_repo w') id) by (intros id; by eapply only_judged_trans).
  split_and!; [done|..].
  - intros id b Hb. apply Hkeep. destruct Hid1 as [->|(v & _ & _ & _ & Hr & _)]; [done|].
    rewrite (proj2 (Hr id)), Hb. by case_decide.
  - intros id b [Hb|[Hb Hready]]%Hval; [|right; split; [by eapply judged_weaken; [|exact Hb]|done]].
    destruct Hid1 as [->|(v & Hturn)]; [by left|].
    pose proof Hturn as (_ & _ & _ & Hr & _). destruct (Hr id) as [_ Hr1]. rewrite Hr1 in Hb.
    case_decide as Hd; [|by left]. subst id.
    destruct (get (repo_get (v_repo w) item.1) validated) as [v'|] eqn:Hv; [by left|]. injection Hb as <-.
    right. split; [exists item.2; by eapply turn_rejudged|].
    apply (ready_same (v_repo w)); [done|]. by eapply turn_ready.
  - destruct Hid1 as [->|(v & Hturn)].
    + exists new. split; [done|]. eapply Forall_impl; [exact Hall|]. intros o. by apply justified_weaken.
    + pose proof Hturn as (_ & _ & _ & _ & _ & new1 & Hnew1 & Hall1). exists (new1 ++ new).
      split; [rewrite Hnew, Hnew1; by rewrite app_assoc|]. apply Forall_app. split.
      * eapply Forall_impl; [exact Hall1|]. intros o. by eapply turn_justified.
      * eapply Forall_impl; [exact Hall|]. intros o. by apply justified_weaken.
Qed.

(** C14 (validation): one iteration of the loop records a verdict for a block only as the result
    of re-executing an envelope of the buffer for it, in a state of the store of this iteration,
    on top of an applied parent and after the block was stored with its references available and
    its producer's signature checked; a verdict recorded before stays, and no other fact of a
    block changes but its invalidation.  An ack is sent only for a block that passed, and never to
    the node itself; a nack is sent only for an envelope that failed, and its block is invalidated.
    A block that was accused by a nack can be finalized after the iteration only if such a
    re-execution accepted it or it was marked valid before (a node marks its own blocks so without
    re-executing them).  States are assumed to be stored under their identifiers. *)
Theorem validation_follows_verdicts w ready once_more blocking buffer w' kept goes_on :
  (∀ id, block_identifier (repo_get (v_repo w) id) = id) →
  validation_iteration w ready once_more blocking buffer = Ok (w', kept, goes_on) →
  (∀ id, only_judged (v_repo w) (v_repo w') id) ∧
  (∀ id b, get (repo_get (v_repo w) id) validated = Some b → get (repo_get (v_repo w') id) validated = Some b) ∧
  (∀ id b, get (repo_get (v_repo w') id) validated = Some b →
     get (repo_get (v_repo w) id) validated = Some b ∨
     (judged (v_repo w) (v_repo w') kept id b ∧ ready_to_validate (v_repo w') id)) ∧
  (∃ new, v_out w' = v_out w ++ new ∧ Forall (justified (v_repo w) (v_repo w') kept) new) ∧
  (∀ id, bad_block_accusers (repo_get (v_repo w') id) ≠ [] → can_be_finalized (repo_get (v_repo w') id) = true →
     get (repo_get (v_repo w) id) validated = Some true ∨ judged (v_repo w) (v_repo w') kept id true).
Proof.
  intros Hid Hs. assert (follows kept w w') as Hspec.
  { unfold validation_iteration in Hs. destruct (v_shutdown w); [injection Hs as <- _ _; apply follows_refl|].
    destruct (read_into_buffer _ _ _ _) as [l|]; [|injection Hs as <- _ _; apply follows_refl].
    apply outcome_bind_Ok in Hs as ([w1 go] & Hall & [= <- <- _]). by eapply validate_all_spec. }
  destruct Hspec as (Hj & Hkeep & Hval & Hout). split_and!; [done..|].
  intros id Hacc Hfin. unfold can_be_finalized in Hfin. rewrite !andb_true_iff in Hfin.
  destruct Hfin as [[[[[[[_ _] Hn] _] _] _] _] _]. unfold has_all_nacks_resolved, has_bad_block_nacks_resolved in Hn.
  destruct (bad_block_accusers _); [done|]. apply bool_decide_eq_true in Hn.
  destruct (Hval id true Hn) as [?|[? _]]; auto.
Qed.

(** The references are those of the envelope that was sent to the service, which for a nack is
    the one the nack carries: one unknown reference makes the node panic. *)
Lemma unknown_reference_panics r e state id :
  get_optimistic_state (blk_parent (data e)) (blk_thread_id (data e)) = Ok (Some state) →
  id ∈ section_refs (data e) → get_cross_thread_ref_data id = None → judge r e = Panic.
Proof.
  intros Hs Hin Hn. unfold judge. rewrite Hs.
  assert (load_refs (section_refs (data e)) = Panic) as ->; [|done].
  induction (section_refs (data e)) as [|x l IH]; [by apply elem_of_nil in Hin|]. simpl.
  apply elem_of_cons in Hin as [->|Hin]; [by rewrite Hn|].
  destruct (get_cross_thread_ref_data x); simpl; [|done]. by rewrite (IH Hin).
Qed.

(** *** Acks reach their goal *)
Lemma ack_signed w block w' n ack t :
  send_ack w block = Ok w' → AckSent n ack t ∈ v_out w' → AckSent n ack t ∉ v_out w →
  ∃ keeper secret sig seq_no,
    get_bk_data_for_node_id (repo_get (v_repo w) block) (ack_node_id send) = Some keeper ∧
    ack_bls_keys_map send !! pubkey keeper = Some secret ∧
    GoshBLS_sign secret (mkAckData (block_identifier (repo_get (v_repo w) block)) seq_no) = Ok sig ∧
    ack = mkEnvelope sig {[signer_index keeper := 1%Z]}
            (mkAckData (block_identifier (repo_get (v_repo w) block)) seq_no).
Proof.
  unfold send_ack. set (s := repo_get (v_repo w) block).
  destruct (get s block_seq_no) as [seq_no|]; [|by intros [= <-]].
  destruct (get s BlockState.thread_identifier) as [t'|]; [|by intros [= <-]].
  case_bool_decide; [by intros [= <-]|]. intros Hs Hin Hnin. apply outcome_bind_Ok in Hs as ([w1 signer] & Hg & Hs).
  pose proof (get_signer_data_keeps _ _ _ _ Hg) as [_ Ho].
  destruct signer as [[index secret]|]; [|injection Hs as <-; congruence].
  unfold get_signer_data in Hg. destruct (get_bk_data_for_node_id s _) as [keeper|] eqn:Hk; [|done].
  destruct (ack_bls_keys_map send !! pubkey keeper) as [sk|] eqn:Hsk; [|by destruct (v_shutdown w)].
  injection Hg as <- <- <-.
  destruct (GoshBLS_sign sk _) as [sig| |] eqn:Hsig; [|by injection Hs as <-|by injection Hs as <-].
  injection Hs as <-. exists keeper, sk, sig, seq_no. split_and!; [done..|].
  edestruct (send_acks_spec w) as (_ & new & Hnew & Hall). rewrite Hnew in Hin.
  apply elem_of_app in Hin as [?|Hin]; [done|].
  eapply Forall_forall in Hall as (n' & _ & Heq); [|exact Hin]. by injection Heq as -> -> _.
Qed.
End validation.

(** ** Received acks and nacks *)
Section received.
Context `{Blst} `{Serialize AckData}.

(** The fields of the node; [validation_tx] is what was sent to the validation service. *)
Record AckNode := mkAckNode {
  an_states : Repository NackData;
  ack_cache : gmap BlockSeqNo (list (Envelope AckData));
  received_acks : list (Envelope AckData);
  validation_tx : list (BlockIdentifier * Envelope AckiNackiBlock);
}.
Implicit Types n : AckNode.

Definition get_block_keeper_pubkeys n (block_id : BlockIdentifier) : option (gmap Z PubKey) :=
  BlockKeeperSet_get_pubkeys_by_signers <$> get (repo_get (an_states n) block_id) bk_set.

Definition on_ack n (ack : Envelope AckData) : outcome Empty_set AckNode :=
  match get_block_keeper_pubkeys n (ack_block_id (data ack)) with
  | None =>
      let seq_no := ack_block_seq_no (data ack) in
      Ok (mkAckNode (an_states n) (<[seq_no := default [] (ack_cache n !! seq_no) ++ [ack]]> (ack_cache n))
            (received_acks n) (validation_tx n))
  | Some signatures_map =>
      unwrap_ok (Envelope_verify_signatures ack signatures_map) ≫= λ is_valid,
      Ok (if is_valid : bool
          then mkAckNode (an_states n) (ack_cache n) (received_acks n ++ [ack]) (validation_tx n) else n)
  end.

(** [interface.send] panics when the validation service is gone, unless the node shuts down. *)
Definition on_nack (validation_alive shutdown : bool) n (nack : Envelope NackData) : outcome Empty_set AckNode :=
  match data nack with
  | mkNackData _ _ (BadBlock envelope) =>
      let id := blk_identifier (data envelope) in
      let states := repo_update (an_states n) id (λ s,
                      add_suspicious s (signature_occurrences nack) (aggregated_signature nack)) in
      if validation_alive
      then Ok (mkAckNode states (ack_cache n) (received_acks n) (validation_tx n ++ [(id, envelope)]))
      else if shutdown then Ok (mkAckNode states (ack_cache n) (received_acks n) (validation_tx n)) else Panic
  | mkNackData _ _ (WrongNack _) => Ok n
  end.
End received.

(** ** An ack is accepted where it is sent *)
(** Acks: an ack that a keeper sends for a block is signed so that every node which knows
    the block with the same keeper set accepts it: [on_ack] verifies the signature and adds the
    ack to the received ones. *)
Theorem sent_acks_are_accepted `{Blst, !BlstLaws} `{Serialize AckData}
    (node_iter : gset NodeIdentifier → list NodeIdentifier) (direct_ok : NodeIdentifier → bool)
    (send : AckiNackiSend) (w w' : ValidationWorld) block to ack t keepers keeper n :
  block_identifier (repo_get (v_repo w) block) = block →
  get (repo_get (v_repo w) block) bk_set = Some keepers → BlockKeeperSet_wf keepers →
  BlockKeeperSet_get_by_node_id keepers (ack_node_id send) = Some keeper →
  by_signer keepers !! signer_index keeper = Some keeper →
  (∀ pk secret, ack_bls_keys_map send !! pk = Some secret → blst_sk_to_pk secret = pk) →
  send_ack node_iter direct_ok send w block = Ok w' → AckSent to ack t ∈ v_out w' → AckSent to ack t ∉ v_out w →
  get (repo_get (an_states n) block) bk_set = Some keepers →
  ack_block_id (data ack) = block ∧
  on_ack n ack = Ok (mkAckNode (an_states n) (ack_cache n) (received_acks n ++ [ack]) (validation_tx n)).
Proof.
  intros Hid Hk Hwf Hnode Hsigner Hkeys Hs Hin Hnin Hn.
  destruct (ack_signed node_iter direct_ok send w block w' to ack t Hs Hin Hnin)
    as (k & secret & sig & seq_no & Hk' & Hsk & Hsig & ->).
  unfold get_bk_data_for_node_id in Hk'. rewrite Hk in Hk'. cbn in Hk'. rewrite Hnode in Hk'.
  injection Hk' as <-. rewrite Hid in *. split; [done|]. unfold on_ack, get_block_keeper_pubkeys. cbn [data ack_block_id].
  rewrite Hn. cbn [fmap option_fmap option_map]. rewrite (single_signer_valid _ _ secret); [done| |done].
  unfold BlockKeeperSet_get_pubkeys_by_signers. rewrite (wf_pubkeys _ Hwf), lookup_fmap, Hsigner.
  simpl. by rewrite (Hkeys _ _ Hsk).
Qed.

(** ** Nacks are not checked *)
(** Whoever sends a nack, and whatever its signature, the block it names cannot be finalized by
    this node until it is re-executed, unless it was before. *)
Lemma nack_without_check `{Blst} n (nack : Envelope NackData) b seq_no envelope :
  data nack = mkNackData b seq_no (BadBlock envelope) →
  get (repo_get (an_states n) (blk_identifier (data envelope))) validated ≠ Some true →
  ∃ n', on_nack true false n nack = Ok n' ∧
    can_be_finalized (repo_get (an_states n') (blk_identifier (data envelope))) = false ∧
    validation_tx n' = validation_tx n ++ [(blk_identifier (data envelope), envelope)].
Proof.
  intros Hd Hv. unfold on_nack. rewrite Hd. eexists. split; [done|]. split; [|done]. cbn [an_states].
  rewrite repo_update_eq. set (s := repo_get _ _) in *.
  assert (has_bad_block_nacks_resolved (add_suspicious s (signature_occurrences nack) (aggregated_signature nack)) = false)
    as Hr.
  { unfold add_suspicious. destruct (existsb _ _) eqn:Hex.
    - unfold has_bad_block_nacks_resolved, is_set. destruct (bad_block_accusers s); [done|].
      by apply bool_decide_eq_false.
    - unfold has_bad_block_nacks_resolved, is_set. simpl. destruct (bad_block_accusers s ++ _) eqn:Hl;
        [by apply app_nil in Hl as [_ ?]|]. by apply bool_decide_eq_false. }
  unfold can_be_finalized, has_all_nacks_resolved. rewrite Hr. by rewrite !andb_false_r.
Qed.

(** ** An instance *)
Section ValidationExample.
#[local] Existing Instance LinearBlst.
#[local] Existing Instance LinearBlst_laws.
#[local] Instance serialize_ack : Serialize AckData := λ a, Some (ack_block_seq_no a :: block_id_bytes (ack_block_id a)).
#[local] Instance serialize_nack : Serialize NackData := λ _, None.
#[local] Instance serialize_lock : Serialize Lock := λ _, None.

(** Block 2 must be validated; its parent is applied. *)
Definition valid_parent : AckiNackiBlockState NackData :=
  with_fact (AckiNackiBlockState_new (example_block 1)) applied true.
Definition valid_candidate : AckiNackiBlockState NackData :=
  let s := AckiNackiBlockState_new (example_block 2) in
  let s := with_fact s block_seq_no 7%Z in
  let s := with_fact s parent_block_identifier (example_block 1) in
  let s := with_fact s bk_set example_keepers in
  let s := with_fact s BlockState.thread_identifier example_thread in
  let s := with_fact s stored true in
  let s := with_fact s has_all_cross_thread_ref_data_available true in
  let s := with_fact s envelope_block_producer_signature_verified true in
  let s := with_fact s must_be_validated true in
  (try_add_attestations_interest s (example_node 2)).1.
Definition valid_repo : Repository NackData :=
  <[example_block 1 := valid_parent]> {[ example_block 2 := valid_candidate ]}.
Definition valid_world : ValidationWorld := mkValidation valid_repo ∅ false [].

Definition valid_envelope : Envelope AckiNackiBlock :=
  mkEnvelope 0%Z ∅ (mkBlock (example_block 2) (example_block 1) 7 example_thread 0 (example_node 1) None
                      (mkBlockHeight example_thread 7) []).
Definition executed : TvmBlock Z := mkTvmBlock 0 1%Z 2%Z 3%Z 4%Z 5%Z.
Definition valid_send : AckiNackiSend := mkAckiNackiSend (example_node 1) {[11%Z := 11%Z]}.
Definition valid_config (t : ThreadIdentifier) : AuthorityConfig :=
  mkConfig t (mkRoundTime [] 330000000) (example_node 1) ∅ 0 0 false.
Definition valid_authority (_ : ThreadIdentifier) : ThreadAuthority := mkAuthority (mkLocks ∅ ∅) ∅ ∅ ∅ false 0.

Definition valid_run (w : ValidationWorld) (ready : list (BlockIdentifier * Envelope AckiNackiBlock)) :=
  validation_iteration (λ _, Some (0, 0)%Z) (λ _ : AckiNackiBlock, executed) (λ _, [])
    (λ _ _, Ok (Some ())) (λ _, Some ()) (λ _ _ _ _, Ok executed) elements (λ _ l, l) elements valid_config
    valid_authority (λ _, mkMoment 0 (λ _, 0%Z) 0 (Ok None) 0) elements (λ _, true) true valid_send
    w ready Empty None [].

Lemma valid_ids id : block_identifier (repo_get (v_repo valid_world) id) = id.
Proof.
  unfold valid_world, valid_repo, repo_get. cbn [v_repo].
  destruct (decide (id = example_block 1)) as [->|H1]; [by rewrite lookup_insert_eq|]. rewrite lookup_insert_ne by done.
  destruct (decide (id = example_block 2)) as [->|H2]; [by rewrite lookup_singleton_eq|].
  rewrite lookup_singleton_ne by done. unfold fresh_state. simpl. by case_decide.
Qed.

Definition valid_summary (o : outcome Empty_set
    (ValidationWorld * list (BlockIdentifier * Envelope AckiNackiBlock) * bool)) : bool :=
  match o with
  | Ok (w, _, _) =>
      bool_decide (length (v_out w) = 1) &&
      bool_decide (get (repo_get (v_repo w) (example_block 2)) validated = Some true)
  | _ => false
  end.

(** The block passes: one ack is sent. *)
Lemma validation_follows_verdicts_witness :
  ∃ w kept goes_on, valid_run valid_world [(example_block 2, valid_envelope)] = Ok (w, kept, goes_on) ∧
    length (v_out w) = 1 ∧ ready_to_validate (v_repo w) (example_block 2).
Proof.
  assert (Hs : valid_summary (valid_run valid_world [(example_block 2, valid_envelope)]) = true)
    by (vm_compute; reflexivity).
  destruct (valid_run valid_world [(example_block 2, valid_envelope)]) as [[[w kept] goes_on]|e|] eqn:Hrun;
    [|discriminate Hs|discriminate Hs].
  apply andb_true_iff in Hs as [Hlen Hv]. apply bool_decide_eq_true in Hlen, Hv.
  exists w, kept, goes_on. split; [reflexivity|]. split; [exact Hlen|].
  unfold valid_run in Hrun. apply validation_follows_verdicts in Hrun as (_ & _ & Hval & _ & _);
    [|intros X; reflexivity|intros X; reflexivity|exact valid_ids].
  destruct (Hval _ _ Hv) as [Hold|[_ Hr]]; [|exact Hr].
  assert (Hnew : is_set (repo_get (v_repo valid_world) (example_block 2)) validated true = false)
    by (vm_compute; reflexivity).
  apply bool_decide_eq_false in Hnew. contradiction.
Defined.

Definition ack_receiver : AckNode := mkAckNode valid_repo ∅ [] [].

Lemma sent_acks_are_accepted_witness :
  ∃ w to ack t, send_ack elements (λ _, true) valid_send valid_world (example_block 2) = Ok w ∧
    AckSent to ack t ∈ v_out w ∧ ack_block_id (data ack) = example_block 2 ∧
    on_ack ack_receiver ack = Ok (mkAckNode valid_repo ∅ [ack] []).
Proof.
  assert (Hs : match send_ack elements (λ _, true) valid_send valid_world (example_block 2) with
               | Ok w => match v_out w with [AckSent to ack t] => true | _ => false end
               | _ => false end = true) by (vm_compute; reflexivity).
  destruct (send_ack elements (λ _, true) valid_send valid_world (example_block 2)) as [w|e|] eqn:Hw;
    [|discriminate Hs|discriminate Hs].
  destruct (v_out w) as [|[to ack t| |] [|]] eqn:Ho; try discriminate Hs.
  exists w, to, ack, t. split; [reflexivity|]. split; [rewrite Ho; by left|].
  refine (sent_acks_are_accepted elements (λ _, true) valid_send valid_world w (example_block 2) to ack t
            example_keepers (example_keeper 1 11 5) ack_receiver _ _ example_keepers_wf _ _ _ Hw _ _ _).
  - apply valid_ids.
  - vm_compute. reflexivity.
  - vm_compute. reflexivity.
  - vm_compute. reflexivity.
  - intros pk secret Hpk. simpl in Hpk. apply lookup_singleton_Some in Hpk as [<- <-]. reflexivity.
  - rewrite Ho. by left.
  - apply not_elem_of_nil.
  - vm_compute. reflexivity.
Defined.
End ValidationExample.
