(* ===== verification/StateRepository.v ===== *)
(** * The repository of states

    Models the part of [repository/repository_impl.rs] that keeps optimistic states, and
    [repository/load_saved_blocks.rs].  The state after a block is looked for in the cache, among
    the last finalized states and in the files; when it is nowhere, the blocks are collected
    backwards until a known state is found, and applied to it again.

    The states are used through the interface [OptimisticStateOps] (the trait [OptimisticState]),
    which the states of CrossThread.v implement with the [apply_block] of ApplyBlock.v; what the
    repository relies on is [OptimisticStateLaws].  A file is an entry of a map: a file that cannot
    be read is a missing one.  The zerostate file and the writing of files are parameters that may
    fail.  Metrics, and the message database behind a feature flag, are not modelled. *)
From stdpp Require Import base numbers gmap strings fin_maps sorting list.
From S2P Require Import Prelude Identifiers Bitmask FixedCache Bls BlockKeepers Envelope Attestation Checkpoints Statistics BlockState BlockProcessor Unfinalized Finalization ThreadRefs MessageStore MessageRange MessageQueue CrossThread ApplyBlock.

Inductive RepositoryError :=
  | DepthSearchBlockCountLimitReached
  | DepthSearchMinStateLimitReached
  | BlockNotFound
  | MetadataNotFound
  | NotFinalized
  | StateMissing
  | ApplyFailed
  | ZerostateFailed
  | WriteFailed
  | AccountsFailed.

Definition MAX_BLOCK_CNT_THAT_CAN_BE_LOADED_TO_PREPARE_STATE : nat := Eval cbv in 400.

(** What the repository uses of a state; [same_state] relates states that differ only in which
    accounts are kept outside of the shard state. *)
Class OptimisticStateOps `{Blst} (St : Type) := {
  get_block_id : St → BlockIdentifier;
  get_block_seq_no : St → BlockSeqNo;
  get_thread_id : St → ThreadIdentifier;
  apply_to : CandidateBlock → St → outcome unit St;
  same_state : relation St;
}.

Class OptimisticStateLaws `{Blst} (St : Type) `{!OptimisticStateOps St} : Prop := {
  apply_to_names s s' b : apply_to b s = Ok s' →
    get_block_id s = cb_parent b ∧ get_block_id s' = cb_identifier b ∧ get_block_seq_no s' = cb_seq_no b;
  same_state_names s s' : same_state s s' →
    get_block_id s = get_block_id s' ∧ get_block_seq_no s = get_block_seq_no s' ∧ get_thread_id s = get_thread_id s';
}.

Inductive RepoEvent (St : Type) :=
  | SharedState (s : St)
  | ThreadTracked (parent : BlockIdentifier) (t : ThreadIdentifier)
  | ThreadJoined (t : ThreadIdentifier)
  | SyncedBlockFinalized (b : BlockIdentifier).
Arguments SharedState {St} _.
Arguments ThreadTracked {St} _ _.
Arguments ThreadJoined {St} _.
Arguments SyncedBlockFinalized {St} _.

Section state_repository.
Context `{Blst} {NackData : Type} `{EqDecision NackData} {St : Type} `{!OptimisticStateOps St}.
Notation Block := (Envelope CandidateBlock).
Notation result A := (outcome RepositoryError A).
(** The order in which a hash map keyed by threads is visited. *)
Variable thread_iter : gset ThreadIdentifier → list ThreadIdentifier.
(** [zerostate_path.is_some()], reading the file, and [OptimisticState::zero()]. *)
Variable has_zerostate : bool.
Variable load_zerostate : ThreadIdentifier → option St.
Variable zero : St.
(** The copy of a state that is written ([make_an_independent_copy], and in split mode the
    accounts are stored and replaced), and the state with all its accounts loaded. *)
Variable to_file : St → result St.
Variable load_all_accounts : St → result St.
(** Whether writing a file succeeds. *)
Variable write_ok : bool.

Record StateRepo := mkStateRepo {
  sr_block_states : Repository NackData;
  sr_metadatas : gmap ThreadIdentifier Metadata;
  sr_saved_states : gmap ThreadIdentifier (gmap BlockSeqNo BlockIdentifier);
  sr_finalized_state : gmap ThreadIdentifier St;
  sr_cache : gmap BlockIdentifier St;
  sr_files : gmap BlockIdentifier St;
  sr_finalized_blocks : FinalizedBlockStorage;
  sr_unfinalized : gmap ThreadIdentifier UnfinalizedBlocks;
  sr_block_files : gmap BlockIdentifier Block;
  (** the files of [BlockStateRepository] *)
  sr_state_files : gmap BlockIdentifier (AckiNackiBlockState NackData);
  (** the calls on other services *)
  sr_events : list (RepoEvent St);
}.
Implicit Types (r : StateRepo) (b : BlockIdentifier) (t : ThreadIdentifier) (s : St).

Definition with_cache r c : StateRepo :=
  mkStateRepo (sr_block_states r) (sr_metadatas r) (sr_saved_states r) (sr_finalized_state r) c (sr_files r)
    (sr_finalized_blocks r) (sr_unfinalized r) (sr_block_files r) (sr_state_files r) (sr_events r).
Definition with_finalized_state r f : StateRepo :=
  mkStateRepo (sr_block_states r) (sr_metadatas r) (sr_saved_states r) f (sr_cache r) (sr_files r)
    (sr_finalized_blocks r) (sr_unfinalized r) (sr_block_files r) (sr_state_files r) (sr_events r).
Definition with_metadatas r m : StateRepo :=
  mkStateRepo (sr_block_states r) m (sr_saved_states r) (sr_finalized_state r) (sr_cache r) (sr_files r)
    (sr_finalized_blocks r) (sr_unfinalized r) (sr_block_files r) (sr_state_files r) (sr_events r).
Definition with_block_files r f : StateRepo :=
  mkStateRepo (sr_block_states r) (sr_metadatas r) (sr_saved_states r) (sr_finalized_state r) (sr_cache r) (sr_files r)
    (sr_finalized_blocks r) (sr_unfinalized r) f (sr_state_files r) (sr_events r).
Definition with_repo_event r (e : RepoEvent St) : StateRepo :=
  mkStateRepo (sr_block_states r) (sr_metadatas r) (sr_saved_states r) (sr_finalized_state r) (sr_cache r) (sr_files r)
    (sr_finalized_blocks r) (sr_unfinalized r) (sr_block_files r) (sr_state_files r) (sr_events r ++ [e]).

(** ** Lookups *)
Definition is_block_finalized r b : option bool := Some (is_finalized (repo_get (sr_block_states r) b)).

Definition get_metadata_for_thread r t : result Metadata := ok_or (sr_metadatas r !! t) MetadataNotFound.
Definition has_thread_metadata r t : bool := bool_decide (is_Some (sr_metadatas r !! t)).

Definition select_thread_last_finalized_block r t : option (BlockIdentifier * BlockSeqNo) :=
  match get_metadata_for_thread r t with
  | Ok m => Some (last_finalized_block_id m, last_finalized_block_seq_no m)
  | _ => None
  end.

Definition load_finalized_candidate_block r b : option Block :=
  FinalizedBlockStorage_find thread_iter (sr_finalized_blocks r) b [].
Definition get_finalized_block r b : option Block := load_finalized_candidate_block r b.

Definition get_block_from_repo_or_archive r b t : result Block :=
  match sr_unfinalized r !! t ≫= λ blocks, get_block_by_id blocks b with
  | Some block => Ok block
  | None =>
      match get_finalized_block r b with
      | Some block => Ok block
      | None => Err BlockNotFound
      end
  end.

Definition last_finalized_optimistic_state r t : option St := sr_finalized_state r !! t.

Definition get_zero_state_for_thread t : result St :=
  if has_zerostate then ok_or (load_zerostate t) ZerostateFailed else Ok zero.

(** ** Keeping states *)
Definition clear_optimistic_states r t : StateRepo :=
  match select_thread_last_finalized_block r t with
  | None => r
  | Some (_, last_finalized_seq_no) =>
      with_cache r (filter (λ e, get_thread_id e.2 ≠ t ∨ (last_finalized_seq_no ≤ get_block_seq_no e.2)%Z) (sr_cache r))
  end.

Definition store_optimistic_in_cache r s : StateRepo :=
  clear_optimistic_states (with_cache r (<[get_block_id s := s]> (sr_cache r))) (get_thread_id s).

Definition store_optimistic r s : result StateRepo :=
  let r := store_optimistic_in_cache r s in
  let b := get_block_id s in
  if bool_decide (is_Some (sr_files r !! b)) then Ok r
  else
    let t := get_thread_id s in
    let r := clear_optimistic_states r t in
    to_file s ≫= λ copy,
    ensure write_ok WriteFailed ≫= λ _,
    let saved := <[get_block_seq_no s := b]> (default ∅ (sr_saved_states r !! t)) in
    Ok (mkStateRepo (sr_block_states r) (sr_metadatas r) (<[t := saved]> (sr_saved_states r)) (sr_finalized_state r)
          (sr_cache r) (<[b := copy]> (sr_files r)) (sr_finalized_blocks r) (sr_unfinalized r) (sr_block_files r)
          (sr_state_files r) (sr_events r)).

(** ** Finding a state *)
Definition available_states r (min_state : option St) t : gset BlockIdentifier :=
  list_to_set ((map_to_list (sr_saved_states r)).*2 ≫= λ m, (map_to_list m).*2)
  ∪ option_to_set (get_block_id <$> sr_finalized_state r !! t)
  ∪ (if has_zerostate then {[BlockIdentifier_default]} else ∅)
  ∪ dom (sr_cache r)
  ∪ option_to_set (get_block_id <$> min_state).

Definition apply_all s (blocks : list Block) : result St :=
  fold_outcome (λ s block,
    match apply_to (data block) s with
    | Ok s => Ok s
    | Err _ => Err ApplyFailed
    | Panic => Panic
    end) s blocks.

(** The loop of [try_load_state_from_archive]; [None] when the fuel runs out. *)
Fixpoint collect_blocks (fuel : nat) r (available : gset BlockIdentifier) (min_state : option St) t b
    (blocks : list Block) : option (result (list Block * BlockIdentifier)) :=
  match fuel with
  | 0 => None
  | S fuel =>
      match get_block_from_repo_or_archive r b t with
      | Err e => Some (Err e)
      | Panic => Some Panic
      | Ok block =>
          if default false ((λ m, bool_decide (cb_seq_no (data block) < get_block_seq_no m)%Z) <$> min_state)
          then Some (Err DepthSearchMinStateLimitReached)
          else
            let blocks := blocks ++ [block] in
            if bool_decide (MAX_BLOCK_CNT_THAT_CAN_BE_LOADED_TO_PREPARE_STATE < length blocks)
            then Some (Err DepthSearchBlockCountLimitReached)
            else
              let parent_id := cb_parent (data block) in
              if bool_decide (parent_id ∈ available) then Some (Ok (reverse blocks, parent_id))
              else collect_blocks fuel r available min_state t parent_id blocks
      end
  end.

(** The state the collected blocks are applied to; [get_state] is [get_optimistic_state]. *)
Definition base_state (get_state : StateRepo → BlockIdentifier → option (StateRepo * result (option St)))
    r (min_state : option St) t (state_id : BlockIdentifier) : option (StateRepo * result St) :=
  let named := option_bind _ _ (λ s, if bool_decide (get_block_id s = state_id) then Some s else None) in
  if bool_decide (state_id = BlockIdentifier_default) then Some (r, get_zero_state_for_thread t)
  else
    match named (sr_finalized_state r !! t), named min_state with
    | Some s, _ => Some (r, Ok s)
    | None, Some s => Some (r, Ok s)
    | None, None =>
        '(r, found) ← get_state r state_id;
        Some (r, found ≫= λ o, ok_or o StateMissing)
    end.

Definition try_load_state_from_archive
    (get_state : StateRepo → BlockIdentifier → option (StateRepo * result (option St)))
    r b (min_state : option St) t : option (StateRepo * result (option St)) :=
  collected ← collect_blocks (S MAX_BLOCK_CNT_THAT_CAN_BE_LOADED_TO_PREPARE_STATE) r (available_states r min_state t)
                min_state t b [];
  match collected with
  | Err e => Some (r, Err e)
  | Panic => Some (r, Panic)
  | Ok (blocks, state_id) =>
      '(r, base) ← base_state get_state r min_state t state_id;
      Some (r, base ≫= λ s, apply_all s blocks ≫= λ s, Ok (Some s))
  end.

Definition find_finalized r b : option St :=
  head (omap (λ t, s ← sr_finalized_state r !! t; if bool_decide (get_block_id s = b) then Some s else None)
          (thread_iter (dom (sr_finalized_state r)))).

(** The state after the block [b], and the repository, whose cache may have grown; [None] when the
    fuel runs out. *)
Fixpoint get_optimistic_state (fuel : nat) r b t (min_state : option St) :
    option (StateRepo * result (option St)) :=
  match fuel with
  | 0 => None
  | S fuel =>
      match sr_cache r !! b with
      | Some cached => Some (r, Ok (Some cached))
      | None =>
          match find_finalized r b with
          | Some s => Some (r, Ok (Some s))
          | None =>
              if bool_decide (b = BlockIdentifier_default)
              then Some (r, Ok (match get_zero_state_for_thread t with Ok s => Some s | _ => None end))
              else
                '(r, found) ←
                  match sr_files r !! b with
                  | Some s => Some (r, Ok (Some s))
                  | None => try_load_state_from_archive (λ r b, get_optimistic_state fuel r b t None) r b min_state t
                  end;
                Some (match found with
                      | Ok (Some s) => with_cache r (<[b := s]> (sr_cache r))
                      | _ => r
                      end, found)
          end
      end
  end.

Definition get_full_optimistic_state (split_state : bool) (fuel : nat) r b t (min_state : option St) :
    option (StateRepo * result (option St)) :=
  '(r, found) ← get_optimistic_state fuel r b t min_state;
  Some (r, found ≫= λ o,
           match o with
           | None => Ok None
           | Some s => if split_state then load_all_accounts s ≫= λ s, Ok (Some s) else Ok (Some s)
           end).

(** ** Threads *)
Definition keep_newer_state r t s : StateRepo :=
  match sr_finalized_state r !! t with
  | Some cur =>
      if bool_decide (get_block_seq_no cur ≤ get_block_seq_no s)%Z
      then with_finalized_state r (<[t := s]> (sr_finalized_state r)) else r
  | None => with_finalized_state r (<[t := s]> (sr_finalized_state r))
  end.

Definition init_thread (fuel : nat) r t (parent_block_id : BlockIdentifier) : option (result StateRepo) :=
  match sr_metadatas r !! t with
  | Some metadata =>
      Some (assert_that (bool_decide (last_finalized_block_id metadata = parent_block_id)) ≫= λ _, Ok r)
  | None =>
      if bool_decide (is_block_finalized r parent_block_id = Some true) then
        '(r, found) ← get_optimistic_state fuel r parent_block_id t None;
        Some (
          found ≫= λ o,
          ok_or o StateMissing ≫= λ s,
          let r := keep_newer_state r t s in
          let r := with_metadatas r (<[t := mkMetadata parent_block_id (get_block_seq_no s) None]> (sr_metadatas r)) in
          ensure write_ok WriteFailed ≫= λ _, Ok r)
      else Some (Err NotFinalized)
  end.

(** The threads a finalized block spawns start from its state. *)
Definition spawn_state (block : CandidateBlock) s r (t : ThreadIdentifier) : StateRepo :=
  let b := cb_identifier block in
  if ThreadIdentifier_is_spawning_block t b then
    let r := with_cache r (<[b := s]> (sr_cache r)) in
    if bool_decide (is_Some (sr_finalized_state r !! t)) then r
    else with_finalized_state r (<[t := s]> (sr_finalized_state r))
  else r.

(** The new last finalized state of the thread: the cached one, or the block is applied. *)
Definition finalized_state_after r (block : CandidateBlock) s : result St :=
  match sr_cache r !! cb_identifier block with
  | Some saved_state => Ok saved_state
  | None =>
      match apply_to block s with
      | Ok s => Ok s
      | Err _ => Err ApplyFailed
      | Panic => Panic
      end
  end.

(** [mark_block_as_finalized] after the metadata is saved; [sharing] tells whether there is a
    state sync service. *)
Definition advance_finalized_state (split_state sharing : bool) (fuel : nat) r (block : CandidateBlock)
    (block_seq_no : BlockSeqNo) : option (result StateRepo) :=
  let b := cb_identifier block in
  let t := cb_thread_id block in
  match sr_finalized_state r !! t with
  | None => Some Panic
  | Some s =>
      if bool_decide (b ≠ get_block_id s) && bool_decide (get_block_seq_no s < block_seq_no)%Z then
        match finalized_state_after r block s with
        | Err e => Some (Err e)
        | Panic => Some Panic
        | Ok new_state =>
            let r := with_finalized_state r (<[t := new_state]> (sr_finalized_state r)) in
            '(r, shared) ←
              (if bool_decide (is_Some (cb_share_state_resources block)) && sharing then
                 '(r, full) ← get_full_optimistic_state split_state fuel r b t (Some new_state);
                 Some (r, full ≫= λ o, unwrap o ≫= λ full_state, Ok [SharedState full_state])
               else Some (r, Ok []));
            Some (
              shared ≫= λ events,
              let r := foldl with_repo_event r events in
              match cb_threads_table block with
              | None => Ok r
              | Some table => Ok (foldl (spawn_state block new_state) r (thread_iter (ThreadsTable_list_threads table)))
              end)
        end
      else Some (Ok r)
  end.

(** The whole [mark_block_as_finalized]: the block, the metadata (Finalization.v), the state. *)
Definition mark_finalized (shutdown split_state sharing : bool) (fuel : nat) r (block : Block) :
    option (result StateRepo) :=
  if shutdown then Some (Ok r)
  else
    match mark_block_as_finalized thread_iter shutdown (λ _, ensure write_ok SaveFailed)
            (mkNode (sr_block_states r) (Collected.CollectedAttestations_default) (sr_metadatas r)
               (sr_finalized_blocks r) []) block with
    | Err SaveFailed => Some (Err WriteFailed)
    | Err _ => Some (Err MetadataNotFound)
    | Panic => Some Panic
    | Ok n =>
        let r := mkStateRepo (states n) (metadatas n) (sr_saved_states r) (sr_finalized_state r) (sr_cache r)
                   (sr_files r) (finalized_blocks n) (sr_unfinalized r) (sr_block_files r) (sr_state_files r) (sr_events r) in
        match get (repo_get (states n) (cb_identifier (data block))) block_seq_no with
        | None => Some Panic
        | Some seq_no => advance_finalized_state split_state sharing fuel r (data block) seq_no
        end
    end.

(** ** Blocks and their states are written when the node stops *)
(** [block_state.guarded_mut(|e| e.dump())]: a failed write still bumps the version. *)
Definition dump_block_state r b : StateRepo :=
  let s := repo_get (sr_block_states r) b in
  let put (s : AckiNackiBlockState NackData) files :=
    mkStateRepo (<[b := s]> (sr_block_states r)) (sr_metadatas r) (sr_saved_states r) (sr_finalized_state r) (sr_cache r)
      (sr_files r) (sr_finalized_blocks r) (sr_unfinalized r) (sr_block_files r) files (sr_events r) in
  if write_ok then put (save_ok s) (<[b := save_ok s]> (sr_state_files r))
  else put (notify_changed s) (sr_state_files r).

Definition save_block r (block : Block) : StateRepo :=
  if write_ok then with_block_files r (<[cb_identifier (data block) := block]> (sr_block_files r)) else r.

Definition dump_unfinalized_blocks r (blocks : list (BlockIdentifier * Block)) : StateRepo :=
  foldl (λ r e, dump_block_state (save_block r e.2) e.1) r blocks.

(** [dump_state]: the finalized states and the finalized blocks with their block states;
    failures are only logged. *)
Definition dump_state r : result StateRepo :=
  fold_outcome (λ r t,
      match sr_finalized_state r !! t with
      | None => Ok r
      | Some s =>
          match store_optimistic r s with
          | Ok r => Ok r
          | Err _ => Ok (store_optimistic_in_cache r s)
          | Panic => Panic
          end
      end) r (thread_iter (dom (sr_finalized_state r))) ≫= λ r,
  Ok (foldl (λ r t, foldl (λ r e, dump_block_state (save_block r e.2.2) e.2.1) r
        (map_to_list (default ∅ (fm_blocks <$> buffer (sr_finalized_blocks r) !! t))))
    r (thread_iter (dom (buffer (sr_finalized_blocks r))))).

(** ** and read when it starts *)
(** What [load_state] reads back: the fields marked [#[serde(skip)]] are not in the file. *)
Definition load_state (s : AckiNackiBlockState NackData) : AckiNackiBlockState NackData :=
  mkState (BlockState.block_identifier s)
    (set_fact (set_fact (set_fact (get s) applied_start_timestamp None) own_attestation None) own_fallback_attestation None)
    (bad_block_accusers s) (resolved_nacks_count s) (verified_attestations s) (known_children_map s)
    (known_attestation_interested_parties s) 0 0.

(** [BlockStateRepository::get] of a node that has just started: nothing is in memory. *)
Definition load_block_state (b : BlockIdentifier) (s : AckiNackiBlockState NackData) : AckiNackiBlockState NackData :=
  let s := load_state s in
  if bool_decide (get s parent_block_identifier = None) && bool_decide (b = BlockIdentifier_default)
  then set_parent_block_identifier s BlockIdentifier_default else s.
Notation Loaded := (gmap ThreadIdentifier (list (BlockIdentifier * Block))).
Definition load_saved_block (acc : StateRepo * Loaded) (b : BlockIdentifier) : result (StateRepo * Loaded) :=
  let '(r, loaded) := acc in
  match sr_block_files r !! b with
  | None => Ok acc
  | Some block =>
      let state := repo_get (sr_block_states r) b in
      if is_finalized state && negb (is_invalidated state) then
        match FinalizedBlockStorage_store thread_iter (sr_finalized_blocks r) b block with
        | Ok storage =>
            Ok (mkStateRepo (sr_block_states r) (sr_metadatas r) (sr_saved_states r) (sr_finalized_state r)
                  (sr_cache r) (sr_files r) storage (sr_unfinalized r) (sr_block_files r) (sr_state_files r) (sr_events r), loaded)
        | _ => Panic
        end
      else
        match get state thread_identifier with
        | Some t => Ok (r, <[t := default [] (loaded !! t) ++ [(b, block)]]> loaded)
        | None => Ok acc
        end
  end.

(** [paths] are the names found in the directory of blocks, if it exists. *)
Definition load_saved_blocks r (paths : option (list BlockIdentifier)) : result (StateRepo * Loaded) :=
  match paths with
  | None => Ok (r, ∅)
  | Some paths => fold_outcome load_saved_block (r, ∅) paths
  end.
End state_repository.
Arguments StateRepo {_} _ _.

(** ** What a state is *)
Section replay.
Context `{Blst} {NackData : Type} `{EqDecision NackData} {St : Type} `{!OptimisticStateOps St} `{!OptimisticStateLaws St}.
Notation Block := (Envelope CandidateBlock).
Notation result A := (outcome RepositoryError A).
Variable thread_iter : gset ThreadIdentifier → list ThreadIdentifier.
Variable has_zerostate : bool.
Variable load_zerostate : ThreadIdentifier → option St.
Variable zero : St.
Variable to_file load_all_accounts : St → result St.
Variable write_ok : bool.
Implicit Types (r : StateRepo NackData St) (b : BlockIdentifier) (t : ThreadIdentifier) (s : St).
Notation get_state := (get_optimistic_state thread_iter has_zerostate load_zerostate zero).
Notation zero_state := (get_zero_state_for_thread has_zerostate load_zerostate zero).
Notation get_block := (get_block_from_repo_or_archive thread_iter).

(** The blocks the node has ever held, and the states that are taken as they are: the zerostate,
    the snapshots it has accepted, and the states its own producer has built. *)
Variable known : BlockIdentifier → CandidateBlock → Prop.
Variable base : BlockIdentifier → St → Prop.
Hypothesis base_zero : ∀ t s, zero_state t = Ok s → base BlockIdentifier_default s.
Hypothesis base_names : ∀ b s, base b s → get_block_id s = b.
Hypothesis known_names : ∀ b block, known b block → cb_identifier block = b.
Hypothesis to_file_same : ∀ s s', to_file s = Ok s' → same_state s s'.

(** The specification: the state after [b] is the replay of the chain of [b] from a base. *)
Inductive state_of : BlockIdentifier → St → Prop :=
  | state_base b s : base b s → state_of b s
  | state_next b block s s' : known b block → state_of (cb_parent block) s → apply_to block s = Ok s' → state_of b s'
  | state_same b s s' : state_of b s → same_state s s' → state_of b s'.

Definition own_state s : Prop := state_of (get_block_id s) s.
Definition storage_known (f : FinalizedBlockStorage) : Prop :=
  ∀ t m b e, buffer f !! t = Some m → fm_blocks m !! b = Some e → known b (data e.2).

Record repo_sound r : Prop := {
  rs_cache : map_Forall state_of (sr_cache r);
  rs_files : map_Forall state_of (sr_files r);
  rs_finalized : map_Forall (λ _ s, own_state s) (sr_finalized_state r);
  rs_storage : storage_known (sr_finalized_blocks r);
  rs_unfinalized : ∀ t d b block, sr_unfinalized r !! t = Some d → get_block_by_id d b = Some block → known b (data block);
}.

Lemma find_in_known f b l block : storage_known f → find_in (buffer f) b l = Some block → known b (data block).
Proof.
  intros Hk. induction l as [|t l IH]; simpl; [done|].
  destruct (buffer f !! t) as [m|] eqn:Hm; simpl; [|done].
  destruct (FixedSizeHashMap_get m b) as [e|] eqn:He; [intros [= <-]; by eapply Hk|done].
Qed.

Lemma get_block_known r b t block : repo_sound r → get_block r b t = Ok block → known b (data block).
Proof.
  intros Hr. unfold get_block_from_repo_or_archive.
  destruct (sr_unfinalized r !! t) as [d|] eqn:Hd; simpl.
  - destruct (get_block_by_id d b) as [e|] eqn:He; [intros [= <-]; by eapply rs_unfinalized|].
    unfold get_finalized_block, load_finalized_candidate_block, FinalizedBlockStorage_find.
    destruct (find_in _ _ _) eqn:Hf; [done|]. destruct (find_in _ _ (thread_iter _)) eqn:Hf'; [|done].
    intros [= <-]. eapply find_in_known; [by apply rs_storage|done].
  - unfold get_finalized_block, load_finalized_candidate_block, FinalizedBlockStorage_find.
    destruct (find_in _ _ _) eqn:Hf; [done|]. destruct (find_in _ _ (thread_iter _)) eqn:Hf'; [|done].
    intros [= <-]. eapply find_in_known; [by apply rs_storage|done].
Qed.

(** The blocks collected backwards from [b], newest first, end before [p]. *)
Inductive path b : list Block → BlockIdentifier → Prop :=
  | path_nil : path b [] b
  | path_snoc l c block : path b l c → known c (data block) → path b (l ++ [block]) (cb_parent (data block)).

Lemma apply_path b l p s s' : path b l p → state_of p s → apply_all s (reverse l) = Ok s' → state_of b s'.
Proof.
  intros Hp. revert s. induction Hp as [|l c block Hp IH Hk]; intros s Hs.
  - rewrite reverse_nil. by intros [= <-].
  - rewrite reverse_app. unfold apply_all. simpl. destruct (apply_to (data block) s) as [s1| |] eqn:Ha; [|done..].
    simpl. apply IH. by eapply state_next.
Qed.

Lemma collect_path fuel r av min t b0 b blocks l p : repo_sound r → path b0 blocks b →
  collect_blocks thread_iter fuel r av min t b blocks = Some (Ok (l, p)) → ∃ l', l = reverse l' ∧ path b0 l' p.
Proof.
  intros Hr. revert b blocks. induction fuel as [|fuel IH]; intros b blocks Hp; simpl; [done|].
  destruct (get_block r b t) as [block| |] eqn:Hb; [|done..].
  destruct (default _ _); [done|]. case_bool_decide; [done|].
  assert (path b0 (blocks ++ [block]) (cb_parent (data block))) as Hp'.
  { econstructor; [done|]. by eapply get_block_known. }
  case_bool_decide; [intros [= <- <-]; eauto|]. by apply IH.
Qed.

(** The fuel of the collection is enough: it stops at the limit. *)
Lemma collect_total fuel r av min t b blocks :
  S MAX_BLOCK_CNT_THAT_CAN_BE_LOADED_TO_PREPARE_STATE ≤ fuel + length blocks → 0 < fuel →
  is_Some (collect_blocks thread_iter fuel r av min t b blocks).
Proof.
  revert b blocks. induction fuel as [|fuel IH]; intros b blocks Hl Hpos; simpl; [lia|].
  destruct (get_block r b t) as [block| |]; [|eauto..].
  destruct (default _ _); [eauto|]. case_bool_decide as Hc; [eauto|].
  case_bool_decide; [eauto|]. rewrite length_app in Hc. simpl in Hc.
  apply IH; [rewrite length_app; simpl|]; unfold MAX_BLOCK_CNT_THAT_CAN_BE_LOADED_TO_PREPARE_STATE in *; lia.
Qed.

(** Looking a state up adds entries to the cache, and nothing else. *)
Definition grows r r' : Prop := ∃ c, r' = with_cache r c ∧ sr_cache r ⊆ c ∧ map_Forall state_of c.

Lemma grows_refl r : repo_sound r → grows r r.
Proof. intros [Hc _ _ _ _]. exists (sr_cache r). by destruct r. Qed.
Lemma grows_trans r r' r'' : grows r r' → grows r' r'' → grows r r''.
Proof.
  intros (c & -> & Hc & _) (c' & -> & Hc' & Hs). exists c'. simpl in *. split; [done|]. split; [|done]. by etrans.
Qed.
Lemma grows_sound r r' : grows r r' → repo_sound r → repo_sound r'.
Proof. intros (c & -> & _ & Hs) [??? ? ?]. by constructor. Qed.

Lemma find_finalized_sound r b s : repo_sound r → find_finalized thread_iter r b = Some s → state_of b s.
Proof.
  intros Hr. unfold find_finalized. intros Hh%head_Some_elem_of.
  apply list_elem_of_omap in Hh as (t & _ & Ht).
  destruct (sr_finalized_state r !! t) as [s0|] eqn:Hs; simpl in Ht; [|done].
  case_bool_decide as Hb; simplify_eq. by apply (rs_finalized r Hr t).
Qed.

Lemma base_state_sound get r min t p r' o :
  (∀ r' o, get r p = Some (r', o) → grows r r' ∧ ∀ s, o = Ok (Some s) → state_of p s) →
  repo_sound r → (∀ m, min = Some m → own_state m) →
  base_state has_zerostate load_zerostate zero get r min t p = Some (r', o) →
  grows r r' ∧ ∀ s, o = Ok s → state_of p s.
Proof.
  intros Hget Hr Hmin. unfold base_state. case_bool_decide as Hp.
  { intros [= <- <-]. split; [by apply grows_refl|]. intros s Hs. subst p. apply state_base. by eapply base_zero. }
  assert (∀ o, (∀ s, o = Some s → own_state s) → ∀ s,
    option_bind _ _ (λ s, if bool_decide (get_block_id s = p) then Some s else None) o = Some s → state_of p s) as Hn.
  { intros [s0|] Ho s; simpl; [|done]. case_bool_decide as Hid; [|done]. intros [= <-]. rewrite <- Hid. by apply Ho. }
  destruct (option_bind _ _ _ (sr_finalized_state r !! t)) as [s0|] eqn:Hf.
  { intros [= <- <-]. split; [by apply grows_refl|]. intros s [= <-]. eapply Hn, Hf.
    intros s1. apply (rs_finalized r Hr). }
  destruct (option_bind _ _ _ min) as [s0|] eqn:Hm.
  { intros [= <- <-]. split; [by apply grows_refl|]. intros s [= <-]. eapply Hn, Hm. done. }
  destruct (get r p) as [[r1 found]|] eqn:Hg; simpl; [|done]. intros [= <- <-].
  destruct (Hget _ _ eq_refl) as [Hgr Hs]. split; [done|]. intros s Ho.
  destruct found as [[s0|]| |]; simplify_eq/=. by apply Hs.
Qed.

Lemma get_state_sound fuel r b t min r' o :
  repo_sound r → (∀ m, min = Some m → own_state m) → get_state fuel r b t min = Some (r', o) →
  grows r r' ∧ ∀ s, o = Ok (Some s) → state_of b s.
Proof.
  revert r b min r' o. induction fuel as [|fuel IH]; intros r b min r' o Hr Hmin; simpl; [done|].
  destruct (sr_cache r !! b) as [s0|] eqn:Hc.
  { intros [= <- <-]. split; [by apply grows_refl|]. intros s [= <-]. by apply (rs_cache r Hr). }
  destruct (find_finalized thread_iter r b) as [s0|] eqn:Hf.
  { intros [= <- <-]. split; [by apply grows_refl|]. intros s [= <-]. by eapply find_finalized_sound. }
  case_bool_decide as Hb.
  { intros [= <- <-]. split; [by apply grows_refl|]. intros s Hs. subst b. apply state_base.
    destruct (zero_state t) eqn:Hz; simplify_eq. by eapply base_zero. }
  match goal with |- (?m ≫= _) = _ → _ => destruct m as [[r1 found]|] eqn:Hload end; simpl; [|done].
  intros [= <- <-].
  assert (grows r r1 ∧ ∀ s, found = Ok (Some s) → state_of b s) as [Hg Hs].
  { destruct (sr_files r !! b) as [s0|] eqn:Hfile.
    { simplify_eq. split; [by apply grows_refl|]. intros s [= <-]. by eapply rs_files. }
    revert Hload. unfold try_load_state_from_archive.
    destruct (collect_blocks _ _ _ _ _ _ _ _) as [[[l p]| |]|] eqn:Hcol; cbn [mbind option_bind]; [| | |done].
    2-3: intros [= <- <-]; split; [by apply grows_refl|done].
    destruct (base_state _ _ _ _ _ _ _ _) as [[r2 bs]|] eqn:Hbase; simpl; [|done]. intros [= <- <-].
    apply base_state_sound in Hbase as [Hg Hbs]; [|intros r' o; by apply IH|done..].
    split; [done|]. intros s (s0 & Hs0 & (s1 & Hs1 & [= <-])%outcome_bind_Ok)%outcome_bind_Ok.
    destruct (collect_path _ _ _ _ _ b _ _ _ _ Hr (path_nil b) Hcol) as (l' & -> & Hpath).
    eapply apply_path; [exact Hpath|by apply Hbs|exact Hs1]. }
  split; [|done]. destruct found as [[s|]| |]; [|done..].
  destruct Hg as (c & -> & Hsub & Hall). exists (<[b := s]> c). split; [done|]. split.
  - by apply insert_subseteq_r.
  - apply map_Forall_insert_2; auto.
Qed.

Lemma state_of_names b s : state_of b s → get_block_id s = b.
Proof.
  induction 1 as [b s Hb|b block s s' Hk _ _ Ha|b s s' _ IH Hs]; [by apply base_names| |].
  - apply apply_to_names in Ha as (_ & -> & _). by apply known_names.
  - apply same_state_names in Hs as (<- & _). done.
Qed.

Lemma state_of_own b s : state_of b s → own_state s.
Proof. intros Hs. unfold own_state. by rewrite (state_of_names b s Hs). Qed.

Lemma state_of_applied block s s' : known (cb_identifier block) block → own_state s →
  apply_to block s = Ok s' → state_of (cb_identifier block) s'.
Proof.
  intros Hk Hs Ha. eapply state_next; [done| |done]. by destruct (apply_to_names _ _ _ Ha) as (<- & _).
Qed.

(** *** The other operations *)
Lemma with_cache_sound r c : repo_sound r → map_Forall state_of c → repo_sound (with_cache r c).
Proof. intros [] ?. by constructor. Qed.
Lemma with_finalized_sound r f : repo_sound r → map_Forall (λ _, own_state) f → repo_sound (with_finalized_state r f).
Proof. intros [] ?. by constructor. Qed.
Lemma with_metadatas_sound r m : repo_sound r → repo_sound (with_metadatas r m).
Proof. intros []. by constructor. Qed.
Lemma with_event_sound r e : repo_sound r → repo_sound (with_repo_event r e).
Proof. intros []. by constructor. Qed.

Lemma clear_sound r t : repo_sound r → repo_sound (clear_optimistic_states r t).
Proof.
  intros Hr. unfold clear_optimistic_states. destruct (select_thread_last_finalized_block r t) as [[? n]|]; [|done].
  apply with_cache_sound; [done|]. intros c s [Hb _]%map_lookup_filter_Some. by apply (rs_cache r Hr).
Qed.

Lemma store_cache_sound r s : repo_sound r → own_state s → repo_sound (store_optimistic_in_cache r s).
Proof.
  intros Hr Hs. apply clear_sound, with_cache_sound; [done|]. apply map_Forall_insert_2; [done|by apply rs_cache].
Qed.

Lemma store_sound r s r' : repo_sound r → own_state s → store_optimistic to_file write_ok r s = Ok r' → repo_sound r'.
Proof.
  intros Hr Hs. unfold store_optimistic. pose proof (store_cache_sound r s Hr Hs) as Hr1.
  case_bool_decide; [by intros [= <-]|]. intros (c & Hc & (_ & _ & [= <-])%outcome_bind_Ok)%outcome_bind_Ok.
  destruct (clear_sound _ (get_thread_id s) Hr1). constructor; try done. cbn [sr_files].
  apply map_Forall_insert_2; [|done]. eapply state_same; [done|]. by apply to_file_same.
Qed.

Lemma keep_newer_sound r t s : repo_sound r → own_state s → repo_sound (keep_newer_state r t s).
Proof.
  intros Hr Hs. unfold keep_newer_state. destruct (sr_finalized_state r !! t); [case_bool_decide; [|done]|];
    (apply with_finalized_sound; [done|]; apply map_Forall_insert_2; [done|by apply rs_finalized]).
Qed.

Lemma init_thread_sound fuel r t p r' : repo_sound r →
  init_thread thread_iter has_zerostate load_zerostate zero write_ok fuel r t p = Some (Ok r') → repo_sound r'.
Proof.
  intros Hr. unfold init_thread. destruct (sr_metadatas r !! t).
  { intros [= (_ & _ & [= <-])%outcome_bind_Ok]. done. }
  case_bool_decide; [|done]. destruct (get_state fuel r p t None) as [[r1 found]|] eqn:Hg; simpl; [|done].
  intros [= (o & -> & (s & Ho & (_ & _ & [= <-])%outcome_bind_Ok)%outcome_bind_Ok)%outcome_bind_Ok].
  apply get_state_sound in Hg as [Hgr Hs]; [|done..]. destruct o as [s0|]; simplify_eq/=.
  apply with_metadatas_sound, keep_newer_sound; [by eapply grows_sound|]. eapply state_of_own. by apply Hs.
Qed.

Lemma spawn_sound block s r t : repo_sound r → state_of (cb_identifier block) s → repo_sound (spawn_state block s r t).
Proof.
  intros Hr Hs. unfold spawn_state. destruct (ThreadIdentifier_is_spawning_block _ _); [|done].
  assert (repo_sound (with_cache r (<[cb_identifier block := s]> (sr_cache r)))) as Hr1.
  { apply with_cache_sound; [done|]. apply map_Forall_insert_2; [done|by apply rs_cache]. }
  case_bool_decide; [done|]. apply with_finalized_sound; [done|].
  apply map_Forall_insert_2; [by eapply state_of_own|by apply rs_finalized].
Qed.

Lemma foldl_inv {A B} (P : A → Prop) (f : A → B → A) a l : P a → (∀ a x, P a → P (f a x)) → P (foldl f a l).
Proof. intros Ha Hf. revert a Ha. induction l; intros; simpl; auto. Qed.

Lemma finalized_after_sound r block s s' : repo_sound r → known (cb_identifier block) block → own_state s →
  finalized_state_after r block s = Ok s' → state_of (cb_identifier block) s'.
Proof.
  intros Hr Hk Hs. unfold finalized_state_after.
  destruct (sr_cache r !! cb_identifier block) as [s0|] eqn:Hc; [intros [= <-]; by apply (rs_cache r Hr)|].
  destruct (apply_to block s) eqn:Ha; [|done..]. intros [= <-]. by eapply state_of_applied.
Qed.

Lemma advance_sound split sharing fuel r block n r' : repo_sound r → known (cb_identifier block) block →
  advance_finalized_state thread_iter has_zerostate load_zerostate zero load_all_accounts split sharing fuel r block n
    = Some (Ok r') → repo_sound r'.
Proof.
  intros Hr Hk. unfold advance_finalized_state. destruct (sr_finalized_state r !! _) as [s|] eqn:Hs; [|done].
  destruct (_ && _); [|by intros [= <-]].
  destruct (finalized_state_after r block s) as [s'| |] eqn:Ha; [|done..].
  assert (state_of (cb_identifier block) s') as Hs'
    by (eapply finalized_after_sound; [done|done|by apply (rs_finalized r Hr _ _ Hs)|done]).
  set (r1 := with_finalized_state r _).
  assert (repo_sound r1) as Hr1.
  { apply with_finalized_sound; [done|]. apply map_Forall_insert_2; [by eapply state_of_own|by apply rs_finalized]. }
  match goal with |- (?m ≫= _) = _ → _ => destruct m as [[r2 shared]|] eqn:Hm end; simpl; [|done].
  intros [= (events & Hev & Hfin)%outcome_bind_Ok].
  assert (repo_sound r2) as Hr2.
  { destruct (_ && _); [|by simplify_eq]. unfold get_full_optimistic_state in Hm.
    destruct (get_state _ _ _ _ _) as [[r3 o]|] eqn:Hg; simplify_eq/=.
    apply get_state_sound in Hg as [Hg _]; [by eapply grows_sound|done|].
    intros m [= <-]. by eapply state_of_own. }
  assert (repo_sound (foldl with_repo_event r2 events)) as Hr3 by (apply foldl_inv; auto using with_event_sound).
  destruct (cb_threads_table block); simplify_eq; [|done]. apply foldl_inv; [done|]. intros. by apply spawn_sound.
Qed.

Lemma fixed_insert_lookup {E V} (m m' : FixedSizeHashMap BlockIdentifier V) id v k e :
  FixedSizeHashMap_insert (E := E) m id v = Ok m' → fm_blocks m' !! k = Some e →
  fm_blocks m !! k = Some e ∨ k = id ∧ e = v.
Proof.
  unfold FixedSizeHashMap_insert. destruct (FixedSizeHashMap_contains_key m id); [intros [= <-]; auto|].
  case_bool_decide; [|destruct (_ !! _); [|done]]; intros [= <-]; cbn [fm_blocks];
    intros [[-> ->]|[_ Hk]]%lookup_insert_Some; [by right|by left|by right|left].
  by apply lookup_delete_Some in Hk as [_ ?].
Qed.

Lemma store_in_thread_known f t b e f' : storage_known f → known b (data e.2) →
  store_in_thread f t b e = Ok f' → storage_known f'.
Proof.
  intros Hf Hb. unfold store_in_thread. intros (m & Hm & [= <-])%outcome_bind_Ok t' m' k e'. cbn [buffer].
  intros [[<- <-]|[_ Ht']]%lookup_insert_Some; [|by apply (Hf t' m' k e')].
  intros [Hk|[-> ->]]%(fixed_insert_lookup _ _ _ _ _ _ Hm); [|done].
  destruct (buffer f !! t) as [m0|] eqn:Hm0; [by eapply Hf|done].
Qed.

Lemma storage_store_known f b block f' : storage_known f → known (cb_identifier (data block)) (data block) →
  FinalizedBlockStorage_store thread_iter f b block = Ok f' → storage_known f'.
Proof.
  intros Hf Hb. unfold FinalizedBlockStorage_store. intros (f1 & Hf1 & Hrest)%outcome_bind_Ok.
  eapply store_in_thread_known in Hf1; [|done..].
  destruct (cb_threads_table (data block)); [|by simplify_eq].
  eapply fold_outcome_ind in Hrest; [exact Hrest| |exact Hf1].
  intros f2 t f3 _ Hf2. cbv beta. destruct (ThreadIdentifier_is_spawning_block _ _); [|by intros [= <-]].
  intros Hs. eapply store_in_thread_known; [exact Hf2| |exact Hs]. done.
Qed.

Lemma mark_finalized_sound shutdown split sharing fuel r block r' : repo_sound r →
  known (cb_identifier (data block)) (data block) →
  mark_finalized thread_iter has_zerostate load_zerostate zero load_all_accounts write_ok shutdown split sharing fuel r block
    = Some (Ok r') → repo_sound r'.
Proof.
  intros Hr Hk. unfold mark_finalized. destruct shutdown; [by intros [= <-]|].
  destruct (mark_block_as_finalized _ _ _ _ _) as [n|[]|] eqn:Hm; [|done..].
  destruct (get _ _); [|done]. apply advance_sound; [|done].
  destruct Hr. constructor; [done..| |done]. cbn [sr_finalized_blocks].
  unfold mark_block_as_finalized in Hm. inv_outcome. by eapply storage_store_known.
Qed.

(** *** The repository over time *)
(** What the node does with the repository.  A block is applied to the state of its parent and
    the result is cached; a state that was found may be written; a thread is started; a known
    block is finalized; candidates come and go; the producer puts a state that it built itself
    into the cache; and a snapshot may be accepted. *)
Inductive repo_step r : StateRepo NackData St → Prop :=
  | repo_get_state fuel b t r' o : get_state fuel r b t None = Some (r', o) → repo_step r r'
  | repo_apply fuel block t r' s s' : known (cb_identifier block) block →
      get_state fuel r (cb_parent block) t None = Some (r', Ok (Some s)) → apply_to block s = Ok s' →
      repo_step r (store_optimistic_in_cache r' s')
  | repo_save fuel b t r' s r'' : get_state fuel r b t None = Some (r', Ok (Some s)) →
      store_optimistic to_file write_ok r' s = Ok r'' → repo_step r r''
  | repo_init fuel t p r' :
      init_thread thread_iter has_zerostate load_zerostate zero write_ok fuel r t p = Some (Ok r') → repo_step r r'
  | repo_finalize shutdown split sharing fuel block r' : known (cb_identifier (data block)) (data block) →
      mark_finalized thread_iter has_zerostate load_zerostate zero load_all_accounts write_ok shutdown split sharing fuel r
        block = Some (Ok r') → repo_step r r'
  | repo_candidates u :
      (∀ t d b block, u !! t = Some d → get_block_by_id d b = Some block → known b (data block)) →
      repo_step r (mkStateRepo (sr_block_states r) (sr_metadatas r) (sr_saved_states r) (sr_finalized_state r) (sr_cache r)
        (sr_files r) (sr_finalized_blocks r) u (sr_block_files r) (sr_state_files r) (sr_events r))
  | repo_built s : base (get_block_id s) s → repo_step r (store_optimistic_in_cache r s)
  | repo_snapshot s r' : base (get_block_id s) s → store_optimistic to_file write_ok r s = Ok r' →
      repo_step r (with_finalized_state r' (<[get_thread_id s := s]> (sr_finalized_state r'))).

Lemma repo_step_sound r r' : repo_step r r' → repo_sound r → repo_sound r'.
Proof.
  destruct 1 as [fuel b t r' o Hg|fuel block t r' s s' Hk Hg Ha|fuel b t r' s r'' Hg Hs|fuel t p r' Hi
    |shutdown split sharing fuel block r' Hk Hm|u Hu|s Hb|s r' Hb Hs]; intros Hr.
  - apply get_state_sound in Hg as [Hg _]; [by eapply grows_sound|done..].
  - apply get_state_sound in Hg as [Hg Hs]; [|done..].
    apply store_cache_sound; [by eapply grows_sound|]. eapply state_of_own. eapply state_of_applied; [done| |done].
    eapply state_of_own. by apply Hs.
  - apply get_state_sound in Hg as [Hg Hs']; [|done..].
    eapply store_sound; [by eapply grows_sound| |done]. eapply state_of_own. by apply Hs'.
  - by eapply init_thread_sound.
  - by eapply mark_finalized_sound.
  - destruct Hr. by constructor.
  - apply store_cache_sound; [done|]. by apply state_base.
  - pose proof (state_base _ _ Hb : own_state s) as Ho. pose proof (store_sound _ _ _ Hr Ho Hs) as Hr'.
    apply with_finalized_sound; [done|]. apply map_Forall_insert_2; [done|by apply rs_finalized].
Qed.

(** C15 (repository of states): along every sequence of lookups, applications of known blocks,
    writes, thread starts, finalizations, changes of the candidates, states cached by the node's own
    producer and accepted snapshots, the state that the repository returns for a block is a state of
    that block: it comes from a base state by applying the blocks of the chain one after the other,
    up to which accounts are kept outside of the state.  The base states are the zerostate, the
    accepted snapshots and the states the producer built, which are taken as they are.  The caches,
    the files, the eviction of old states and the blocks collected from the archive are invisible.
    Assumed: a block applies only to the state of its parent, and a written copy is the same state. *)
Theorem repository_states_are_replays r r' fuel b t r'' s :
  repo_sound r → rtc repo_step r r' → get_state fuel r' b t None = Some (r'', Ok (Some s)) →
  state_of b s ∧ get_block_id s = b.
Proof.
  intros Hr Hsteps Hg. assert (repo_sound r') as Hr'.
  { clear Hg. induction Hsteps; eauto using repo_step_sound. }
  apply get_state_sound in Hg as [_ Hs]; [|done..]. specialize (Hs s eq_refl). auto using state_of_names.
Qed.

(** *** The search ends *)
(** Along the stored blocks the sequence numbers decrease towards the parents. *)
Definition numbers_decrease r t : Prop := ∀ b block, get_block r b t = Ok block →
  (0 ≤ cb_seq_no (data block))%Z ∧
  ∀ block', get_block r (cb_parent (data block)) t = Ok block' → (cb_seq_no (data block') < cb_seq_no (data block))%Z.

Lemma collect_below fuel r av min t b blocks l p n : numbers_decrease r t →
  (∀ block, get_block r b t = Ok block → (cb_seq_no (data block) < n)%Z) →
  collect_blocks thread_iter fuel r av min t b blocks = Some (Ok (l, p)) →
  (1 ≤ n)%Z ∧ ∀ block, get_block r p t = Ok block → (cb_seq_no (data block) < n - 1)%Z.
Proof.
  intros Hdec. revert b blocks n. induction fuel as [|fuel IH]; intros b blocks n Hn; simpl; [done|].
  destruct (get_block r b t) as [block| |] eqn:Hb; [|done..].
  destruct (default _ _); [done|]. case_bool_decide; [done|].
  destruct (Hdec b block Hb) as [Hpos Hless]. specialize (Hn block eq_refl).
  assert (∀ block', get_block r (cb_parent (data block)) t = Ok block' → (cb_seq_no (data block') < n - 1)%Z) as Hp
    by (intros block' Hb'; specialize (Hless block' Hb'); lia).
  case_bool_decide; [intros [= <- <-]; split; [lia|done]|].
  intros Hc. destruct (IH _ _ (n - 1)%Z Hp Hc) as [Hn1 Hl]. split; [lia|]. intros block' Hb'.
  specialize (Hl block' Hb'). lia.
Qed.

(** C35 (repository of states): the search for a state ends.  When the sequence numbers of the
    stored blocks decrease along the chain, a fuel above the number of the block (one for a block
    that is not stored) is enough: the recursion of [get_optimistic_state] through
    [try_load_state_from_archive] returns a state, an error or a panic, and the collection of
    blocks never needs more than its limit. *)
Theorem state_lookup_terminates fuel r b t min (n : nat) :
  numbers_decrease r t → (∀ block, get_block r b t = Ok block → (cb_seq_no (data block) < Z.of_nat n)%Z) →
  n < fuel → is_Some (get_state fuel r b t min).
Proof.
  intros Hdec. revert b min n. induction fuel as [|fuel IH]; intros b min n Hn Hlt; [lia|]. simpl.
  destruct (sr_cache r !! b); [eauto|]. destruct (find_finalized thread_iter r b); [eauto|].
  case_bool_decide; [eauto|].
  match goal with |- is_Some (?m ≫= _) => assert (is_Some m) as [[r1 found] ->]; [|simpl; eauto] end.
  destruct (sr_files r !! b); [eauto|]. unfold try_load_state_from_archive.
  match goal with |- context [collect_blocks ?ti ?f ?r ?av ?mn ?t ?b ?bl] =>
    destruct (collect_total f r av mn t b bl) as [c Hc]; [cbn [length]; lia|lia|] end.
  rewrite Hc. cbn [mbind option_bind]. destruct c as [[l p]| |]; [|eauto..].
  destruct (collect_below _ _ _ _ _ _ _ _ _ (Z.of_nat n) Hdec Hn Hc) as [Hn1 Hp].
  match goal with |- is_Some (?m ≫= _) => assert (is_Some m) as [[r1 found] ->]; [|simpl; eauto] end.
  unfold base_state. case_bool_decide; [eauto|].
  destruct (option_bind _ _ _ _); [eauto|]. destruct (option_bind _ _ _ _); [eauto|].
  destruct (IH p None (n - 1)) as [[r2 o] ->]; [|lia|simpl; eauto].
  intros block Hb. specialize (Hp block Hb). lia.
Qed.
End replay.

(** ** The states of the node implement the interface *)
Section implementation.
Context `{Blst} {S K M Acc Cell Info BlockKeeperData Nack : Type} `{DurableStorageRead S K M} `{KeyFrom K M}
  `{Countable K} `{EqDecision M} `{ShardAccount Acc Cell} `{ExternalAccount Acc Cell} `{TvmMessage M}.
Variable acc_iter : gmap AccountAddress Acc → list (AccountAddress * Acc).
Variable messages_iter : gmap AccountAddress (list (K * M)) → list (AccountAddress * list (K * M)).
Variable consumed_iter : gmap AccountAddress (gset K) → list (AccountAddress * gset K).
Variable migrating_iter : gmap AccountRouting (option (AccountAddress * Acc)) →
  list (AccountRouting * option (AccountAddress * Acc)).
Variable routed_iter : gmap AccountRouting (list (K * M)) → list (AccountRouting * list (K * M)).
Variable changed_iter : gmap AccountAddress Z → list (AccountAddress * Z).
Variable block_iter : gset BlockIdentifier → list BlockIdentifier.
Variable tails_iter : ThreadReferencesState → list ReferencedBlock.
Variable message_le : relation M.
Context `{!RelDecision message_le}.
Variable create_epoch_touch_message : BlockKeeperData → outcome unit M.
Variable prev1_end_lt : Info → option Z.
Variable slash_message : Nack → option (outcome unit M).
Variable nack_hash : Nack → option Z.
Variable prepare_prev_block_info : AppliedBlock Nack M → Info.
Variable state_update : AppliedBlock Nack M → ShardState Acc → outcome unit (ShardState Acc).
Variable fuel wfuel : nat.
Variable get_ref_data : BlockIdentifier → option (CrossThreadRefData (Outbound K M Acc)).
Variable db : S.
Variable repo : AccountsRepository Cell.
Variable cache : FixedSizeHashSet Z.
(** What [apply_block] reads of a block besides the accessors of [CandidateBlock]. *)
Variable as_applied : CandidateBlock → AppliedBlock Nack M.
Hypothesis as_applied_names : ∀ b, ab_identifier (as_applied b) = cb_identifier b ∧
  ab_parent (as_applied b) = cb_parent b ∧ ab_seq_no (as_applied b) = cb_seq_no b.

Definition apply_impl (b : CandidateBlock) (o : OptimisticState K M Acc Cell Info) : outcome unit (OptimisticState K M Acc Cell Info) :=
  match apply_block acc_iter messages_iter consumed_iter migrating_iter routed_iter changed_iter block_iter tails_iter
          message_le create_epoch_touch_message prev1_end_lt slash_message nack_hash prepare_prev_block_info state_update
          fuel wfuel get_ref_data db repo cache o (as_applied b) with
  | Some (Ok a) => Ok (ap_state a)
  | Some (Err e) => Err e
  | Some Panic | None => Panic
  end.

(** Only the shard state and the records of unloaded accounts differ. *)
Definition same_but_accounts (o o' : OptimisticState K M Acc Cell Info) : Prop :=
  o' = mkOptimistic (os_block_seq_no o) (os_block_id o) (os_shard_state o') (os_messages o)
         (os_high_priority_messages o) (os_block_info o) (os_threads_table o) (os_thread_id o) (os_dapp_id_table o)
         (os_thread_refs o) (os_cropped o) (os_changed_accounts o') (os_cached_accounts o') (os_accounts_number o).

(** A state that was serialized and read back: [changed_accounts] and [cached_accounts] are
    marked [#[serde(skip)]]. *)
Definition reread_impl (o : OptimisticState K M Acc Cell Info) : OptimisticState K M Acc Cell Info :=
  mkOptimistic (os_block_seq_no o) (os_block_id o) (os_shard_state o) (os_messages o)
    (os_high_priority_messages o) (os_block_info o) (os_threads_table o) (os_thread_id o) (os_dapp_id_table o)
    (os_thread_refs o) (os_cropped o) ∅ ∅ (os_accounts_number o).

#[local] Instance impl_ops : OptimisticStateOps (OptimisticState K M Acc Cell Info) := {|
  get_block_id := os_block_id;
  get_block_seq_no := os_block_seq_no;
  get_thread_id := os_thread_id;
  apply_to := apply_impl;
  same_state := same_but_accounts;
|}.

Lemma postprocess_names o consumed produced changed b n shard other dapps info id table change accounts ua sa num o' d del :
  postprocess message_le changed_iter prev1_end_lt db o consumed produced changed b n shard other dapps info id table change
    accounts ua sa num = Ok (o', d, del) → os_block_id o' = b ∧ os_block_seq_no o' = n.
Proof. unfold postprocess. intros Hp. inv_outcome. destruct_and?. case_match; inv_outcome; by simplify_eq. Qed.

(** Reading a state back keeps what names it, and everything but the skipped records. *)
Lemma reread_impl_names o : same_state o (reread_impl o) ∧
  get_block_id (reread_impl o) = get_block_id o ∧ get_block_seq_no (reread_impl o) = get_block_seq_no o ∧
  get_thread_id (reread_impl o) = get_thread_id o.
Proof. done. Qed.

(** The interface that the repository relies on is implemented: [apply_block] asserts that the
    state is the one of the parent, and names the new state after the block. *)
Lemma impl_laws : OptimisticStateLaws (OptimisticState K M Acc Cell Info).
Proof.
  constructor.
  - intros o o' b. cbn [apply_to get_block_id get_block_seq_no impl_ops]. unfold apply_impl, apply_block.
    destruct (as_applied_names b) as (<- & <- & <-).
    case_bool_decide as Hpar; cbn [assert_that mbind outcome_bind]; [|done].
    destruct (slash_messages _ _ ≫= _) as [[slash refs]| |]; [|done..].
    destruct (preprocess _ _ _ _ _ _ _ _ _ _ _ _ _ _) as [[pre| |]|]; cbn [mbind outcome_bind]; [|done..].
    destruct (apply_preprocessed _ _ _ _ _ _ _ _ _ _ _ _ _ _ _) as [a| |] eqn:Ha; [|done..].
    intros [= <-]. split; [done|]. unfold apply_preprocessed in Ha.
    repeat (apply outcome_bind_Ok in Ha as (? & ? & Ha); try match type of Ha with context [let '(_, _) := ?x in _] => destruct x end).
    match type of Ha with context [let '(_, _) := ?x in _] => destruct x end.
    apply outcome_bind_Ok in Ha as (? & _ & [= <-]). by eapply postprocess_names.
  - intros o o' ->. done.
Qed.
End implementation.

(** ** Blocks survive a restart *)
Section restart.
Context `{Blst} {NackData : Type} `{EqDecision NackData} {St : Type} `{!OptimisticStateOps St}.
Notation Block := (Envelope CandidateBlock).
Variable thread_iter : gset ThreadIdentifier → list ThreadIdentifier.
Implicit Types (r : StateRepo NackData St) (b : BlockIdentifier) (t : ThreadIdentifier).

Definition storage_wf (f : FinalizedBlockStorage) : Prop :=
  0 < per_thread_buffer_size f ∧
  map_Forall (λ _ m, FixedSizeHashMap_wf m ∧ fm_capacity m = per_thread_buffer_size f) (buffer f).

Lemma store_in_thread_total f t b e : storage_wf f → ∃ f', store_in_thread f t b e = Ok f' ∧ storage_wf f'.
Proof.
  intros [Hsize Hf]. unfold store_in_thread.
  assert (FixedSizeHashMap_wf (default (FixedSizeHashMap_new (per_thread_buffer_size f)) (buffer f !! t)) ∧
    fm_capacity (default (FixedSizeHashMap_new (per_thread_buffer_size f)) (buffer f !! t)) = per_thread_buffer_size f)
    as [Hwf Hcap].
  { destruct (buffer f !! t) as [m|] eqn:Hm; [by apply (Hf t m)|]. split; [apply FixedSizeHashMap_new_wf|done]. }
  destruct (FixedSizeHashMap_insert_spec (E := FinalizationError) _ b e Hwf) as (m' & Hm & Hwf' & Hcap' & _); [lia|].
  rewrite Hm. eexists. split; [done|]. split; [done|]. cbn [buffer per_thread_buffer_size].
  apply map_Forall_insert_2; [|done]. split; [done|congruence].
Qed.

Lemma storage_store_total f b block : storage_wf f →
  ∃ f', FinalizedBlockStorage_store thread_iter f b block = Ok f' ∧ storage_wf f'.
Proof.
  intros Hf. unfold FinalizedBlockStorage_store.
  destruct (store_in_thread_total f (cb_thread_id (data block)) (cb_identifier (data block)) (b, block) Hf)
    as (f1 & -> & Hf1). cbn [mbind outcome_bind]. destruct (cb_threads_table (data block)) as [table|]; [|eauto].
  generalize (thread_iter (ThreadsTable_list_threads table)) as l. intros l. revert f1 Hf1.
  induction l as [|t' l IH]; intros f1 Hf1; simpl; [eauto|].
  destruct (ThreadIdentifier_is_spawning_block _ _); simpl; [|by apply IH].
  destruct (store_in_thread_total f1 t' (cb_identifier (data block)) (b, block) Hf1) as (f2 & -> & Hf2).
  cbn [mbind outcome_bind]. by apply IH.
Qed.

(** The block [block] is in the list of the thread [t] once it was read. *)
Definition reloaded r (t : ThreadIdentifier) (e : BlockIdentifier * Block) : Prop :=
  let state := repo_get (sr_block_states r) e.1 in
  sr_block_files r !! e.1 = Some e.2 ∧ get state thread_identifier = Some t ∧
  is_finalized state && negb (is_invalidated state) = false.

Record load_inv r (done : list BlockIdentifier) r' (loaded : gmap ThreadIdentifier (list (BlockIdentifier * Block))) : Prop := {
  li_files : sr_block_files r' = sr_block_files r;
  li_states : sr_block_states r' = sr_block_states r;
  li_storage : storage_wf (sr_finalized_blocks r');
  li_loaded : ∀ t e, e ∈ default [] (loaded !! t) ↔ e.1 ∈ done ∧ reloaded r t e;
}.

Lemma load_saved_block_step r done r' loaded b : load_inv r done r' loaded →
  ∃ r'' loaded', load_saved_block thread_iter (r', loaded) b = Ok (r'', loaded') ∧ load_inv r (done ++ [b]) r'' loaded'.
Proof.
  intros [Hfiles Hstates Hst Hl]. unfold load_saved_block. rewrite Hfiles, Hstates.
  assert (∀ loaded' : gmap ThreadIdentifier (list (BlockIdentifier * Block)), (∀ t e, e ∈ default [] (loaded' !! t) ↔ e ∈ default [] (loaded !! t) ∨ e.1 = b ∧ reloaded r t e) →
    ∀ t e, e ∈ default [] (loaded' !! t) ↔ e.1 ∈ done ++ [b] ∧ reloaded r t e) as Hnew.
  { intros loaded' Hl' t e. rewrite Hl', Hl. set_solver. }
  assert (load_inv r (done ++ [b]) r' loaded ∨ ∃ t block, reloaded r t (b, block)) as Hcase.
  { destruct (sr_block_files r !! b) as [block|] eqn:Hb; [destruct (get (repo_get (sr_block_states r) b) thread_identifier) as [t|] eqn:Ht;
      [destruct (is_finalized (repo_get (sr_block_states r) b) && negb (is_invalidated (repo_get (sr_block_states r) b))) eqn:Hf|]|].
    2: { right. exists t, block. done. }
    all: left; split; [done..|]; apply Hnew; intros t' [b' block']; split; [by left|]; intros [?|[Heq Hre]]; [done|];
      unfold reloaded in Hre; simpl in *; subst b'; destruct Hre as (? & ? & ?); congruence. }
  destruct (sr_block_files r !! b) as [block|] eqn:Hb.
  2: { exists r', loaded. destruct Hcase as [?|(? & ? & Hre)]; [done|]. unfold reloaded in Hre. simpl in Hre. naive_solver congruence. }
  destruct (is_finalized _ && _) eqn:Hf.
  - destruct (storage_store_total (sr_finalized_blocks r') b block Hst) as (f' & -> & Hf'). eexists _, _. split; [done|].
    destruct Hcase as [[? ? ? ?]|(? & ? & Hre)]; [by constructor|]. unfold reloaded in Hre. simpl in Hre. naive_solver congruence.
  - destruct (get (repo_get (sr_block_states r) b) thread_identifier) as [t|] eqn:Ht.
    2: { eexists _, _. split; [done|]. destruct Hcase as [?|(? & ? & Hre)]; [done|]. unfold reloaded in Hre. simpl in Hre. naive_solver congruence. }
    eexists _, _. split; [done|]. constructor; [done..|]. apply Hnew. intros t' [b' block'].
    destruct (decide (t' = t)) as [->|Hne].
    + rewrite lookup_insert_eq. simpl. rewrite elem_of_app, list_elem_of_singleton.
      unfold reloaded. simpl. split; [intros [?|[= -> ->]]; auto|]. intros [?|(-> & ? & _)]; [by left|right; congruence].
    + rewrite lookup_insert_ne by done. split; [by left|]. intros [?|[Hb' (_ & Ht' & _)]]; [done|]. simpl in *. subst b'. congruence.
Qed.

Lemma load_saved_blocks_total r paths : storage_wf (sr_finalized_blocks r) →
  ∃ r' loaded, load_saved_blocks thread_iter r (Some paths) = Ok (r', loaded) ∧ load_inv r paths r' loaded.
Proof.
  intros Hst.
  assert (∀ done r' loaded, load_inv r done r' loaded → ∃ r'' loaded',
    fold_outcome (load_saved_block thread_iter) (r', loaded) paths = Ok (r'', loaded') ∧
    load_inv r (done ++ paths) r'' loaded') as Hfold.
  { induction paths as [|b paths IH]; intros done r' loaded Hinv; [exists r', loaded; by rewrite app_nil_r|].
    cbn [fold_outcome]. destruct (load_saved_block_step r done r' loaded b Hinv) as (r1 & loaded1 & -> & Hinv1).
    cbn [mbind outcome_bind]. rewrite (cons_middle b done paths), (assoc_L (++)). by apply IH. }
  apply (Hfold [] r ∅). split; [done..|]. intros t e. rewrite lookup_empty. simpl. set_solver.
Qed.

(** What the files hold after the dump. *)
Lemma dump_files r (queue : list (BlockIdentifier * Block)) b :
  (∀ e, e ∈ queue → cb_identifier (data e.2) = e.1) → NoDup queue.*1 →
  sr_block_files (dump_unfinalized_blocks true r queue) !! b =
    match (list_to_map queue : gmap BlockIdentifier Block) !! b with Some block => Some block | None => sr_block_files r !! b end.
Proof.
  revert r. induction queue as [|[c block] queue IH]; intros r Hid Hnd; [done|].
  apply NoDup_cons in Hnd as [Hc Hnd]. unfold dump_unfinalized_blocks in *. simpl.
  rewrite IH by (auto; intros e He; apply Hid; by right). clear IH.
  pose proof (Hid (c, block) (list_elem_of_here _ _)) as Hcb. simpl in Hcb. rewrite Hcb.
  destruct (decide (b = c)) as [->|Hne].
  - rewrite lookup_insert_eq, (proj1 (not_elem_of_list_to_map queue c) Hc). cbn [sr_block_files with_block_files].
    by rewrite lookup_insert_eq.
  - rewrite (lookup_insert_ne _ c) by done. destruct (_ !! b); [done|]. cbn [sr_block_files with_block_files]. by rewrite lookup_insert_ne.
Qed.

Lemma dump_state_files r (queue : list (BlockIdentifier * Block)) b : NoDup queue.*1 →
  sr_state_files (dump_unfinalized_blocks true r queue) !! b =
    if decide (b ∈ queue.*1) then Some (save_ok (repo_get (sr_block_states r) b)) else sr_state_files r !! b.
Proof.
  revert r. induction queue as [|[c block] queue IH]; intros r Hnd.
  { rewrite decide_False; [done|apply not_elem_of_nil]. }
  apply NoDup_cons in Hnd as [Hc Hnd]. unfold dump_unfinalized_blocks in *. simpl. rewrite IH by done. clear IH.
  cbn [dump_block_state save_block with_block_files sr_block_states sr_state_files]. rewrite repo_get_insert.
  destruct (decide (b = c)) as [->|Hne].
  - rewrite decide_False by done. rewrite decide_True by (by left). by rewrite lookup_insert_eq.
  - rewrite lookup_insert_ne by done.
    destruct (decide (b ∈ queue.*1)) as [Hin|Hin]; [rewrite decide_True by (by right)|rewrite decide_False by set_solver]; done.
Qed.

(** The repository of a node that starts on the files of [r]: block states are read when they
    are asked for, nothing else of the old memory is left; the rest of it is not constrained. *)
Record restarted_from r r0 : Prop := {
  rf_states b : repo_get (sr_block_states r0) b =
    match sr_state_files r !! b with Some s => load_block_state b s | None => fresh_state b end;
  rf_files : sr_block_files r0 = sr_block_files r;
  rf_storage : storage_wf (sr_finalized_blocks r0);
}.

(** What a node reads of a block state is what it knew, but for the skipped fields. *)
Lemma load_block_state_get b (s : AckiNackiBlockState NackData) f :
  f ≠ applied_start_timestamp → f ≠ own_attestation → f ≠ own_fallback_attestation → f ≠ parent_block_identifier →
  get (load_block_state b s) f = get s f.
Proof.
  intros H1' H2' H3' H4'. unfold load_block_state.
  destruct (_ && _); [unfold set_parent_block_identifier; simpl; rewrite set_fact_ne by done|];
    simpl; by rewrite !set_fact_ne.
Qed.

(** C36 (restart): the candidates that a node writes when it stops are the candidates it has when
    it starts again.  [dump_unfinalized_blocks] writes every candidate and its block state; on a
    node that starts with these files and an empty memory, [load_saved_blocks] (whatever the order
    in which the directory is read) returns, and every written candidate that was not finalized is
    in the list of its thread, its block state the one it had but for the fields that are not
    serialized.  A list holds only blocks that were written, then or earlier, whose block state
    names this thread and is not both finalized and not invalidated.  All writes are assumed to
    succeed. *)
Theorem saved_candidates_are_reloaded r (queue : list (BlockIdentifier * Block)) paths r0 :
  (∀ e, e ∈ queue → cb_identifier (data e.2) = e.1) → NoDup queue.*1 →
  let r1 := dump_unfinalized_blocks true r queue in
  restarted_from r1 r0 → (∀ b, b ∈ paths ↔ is_Some (sr_block_files r1 !! b)) →
  ∃ r2 loaded, load_saved_blocks thread_iter r0 (Some paths) = Ok (r2, loaded) ∧
    (∀ e t, e ∈ queue → get (repo_get (sr_block_states r) e.1) thread_identifier = Some t →
       is_finalized (repo_get (sr_block_states r) e.1) = false →
       e ∈ default [] (loaded !! t) ∧
       repo_get (sr_block_states r2) e.1 = load_block_state e.1 (repo_get (sr_block_states r) e.1)) ∧
    (∀ e t, e ∈ default [] (loaded !! t) →
       (e ∈ queue ∨ sr_block_files r !! e.1 = Some e.2) ∧
       get (repo_get (sr_block_states r2) e.1) thread_identifier = Some t ∧
       is_finalized (repo_get (sr_block_states r2) e.1) && negb (is_invalidated (repo_get (sr_block_states r2) e.1)) = false).
Proof.
  intros Hid Hnd r1 [Hstates Hfiles Hst] Hpaths.
  destruct (load_saved_blocks_total r0 paths Hst) as (r2 & loaded & Hload & [_ Hs2 _ Hl]).
  exists r2, loaded. split; [done|]. rewrite Hs2. unfold reloaded in Hl. rewrite Hfiles in Hl. split.
  - intros e t He Ht Hfin.
    assert (Hread : repo_get (sr_block_states r0) e.1 = load_block_state e.1 (repo_get (sr_block_states r) e.1)).
    { rewrite Hstates. unfold r1. rewrite dump_state_files, decide_True by (done || by apply list_elem_of_fmap_2). done. }
    split; [|done]. apply Hl. rewrite Hread. unfold is_finalized, is_set.
    rewrite !(load_block_state_get e.1 (repo_get (sr_block_states r) e.1)) by done.
    unfold is_finalized, is_set in Hfin. rewrite Hfin.
    assert (sr_block_files r1 !! e.1 = Some e.2) as Hfile.
    { unfold r1. rewrite dump_files by done. destruct e as [b block]. by rewrite (elem_of_list_to_map_1 _ _ block Hnd). }
    split; [|done]. apply Hpaths. eauto.
  - intros e t (_ & Hfile & Ht & Hfin)%Hl. split; [|done].
    unfold r1 in Hfile. rewrite dump_files in Hfile by done. destruct ((list_to_map queue : gmap BlockIdentifier Block) !! e.1) eqn:Hq; [|by right].
    left. simplify_eq. apply elem_of_list_to_map_2 in Hq. by destruct e.
Qed.

(** *** What was stored is found *)
(** A state that is cached is found again, unless it is older than the last finalized block. *)
Lemma stored_state_is_found r s fuel t min hz lz z :
  match select_thread_last_finalized_block r (get_thread_id s) with
  | Some (_, n) => (n ≤ get_block_seq_no s)%Z
  | None => True
  end →
  let r' := store_optimistic_in_cache r s in
  get_optimistic_state thread_iter hz lz z (S fuel) r' (get_block_id s) t min = Some (r', Ok (Some s)).
Proof.
  intros Hn r'. simpl. assert (sr_cache r' !! get_block_id s = Some s) as ->; [|done].
  unfold r', store_optimistic_in_cache, clear_optimistic_states.
  assert (∀ c, select_thread_last_finalized_block (with_cache r c) (get_thread_id s)
    = select_thread_last_finalized_block r (get_thread_id s)) as -> by done.
  destruct (select_thread_last_finalized_block r (get_thread_id s)) as [[? n]|]; cbn [sr_cache with_cache];
    [|by rewrite lookup_insert_eq].
  apply map_lookup_filter_Some. rewrite lookup_insert_eq. auto.
Qed.
End restart.

(** ** Evaluation *)
Section StateExample.
#[local] Existing Instance LinearBlst.

(** A state that remembers the blocks applied to it. *)
Record TraceState := mkTrace { tr_id : BlockIdentifier; tr_seq_no : BlockSeqNo; tr_blocks : list BlockIdentifier }.
#[local] Instance trace_ops : OptimisticStateOps TraceState := {|
  get_block_id := tr_id;
  get_block_seq_no := tr_seq_no;
  get_thread_id := λ _, example_thread;
  apply_to := λ b s,
    if bool_decide (tr_id s = cb_parent b)
    then Ok (mkTrace (cb_identifier b) (cb_seq_no b) (tr_blocks s ++ [cb_identifier b])) else Panic;
  same_state := eq;
|}.
#[local] Instance trace_laws : OptimisticStateLaws TraceState.
Proof.
  constructor; [|by intros ?? ->]. intros s s' b. simpl. case_bool_decide; [|done]. by intros [= <-].
Qed.

Definition trace_zero : TraceState := mkTrace BlockIdentifier_default 0 [].
Definition chain_block (n : Z) : Envelope CandidateBlock :=
  mkEnvelope 0%Z ∅ (mkCandidate LinearBlst (example_block n) n (example_height n) example_thread (example_node 1) [] [] []
    None None false (if bool_decide (n = 1%Z) then BlockIdentifier_default else example_block (n - 1)) (Some n) 0%Z
    (Some example_selector)).
Definition chain_entries : list (BlockIdentifier * Envelope CandidateBlock) :=
  (λ n, (example_block n, chain_block n)) <$> [1; 2; 3]%Z.
Definition chain_candidates : UnfinalizedBlocks := Unfinalized_new chain_entries.
Definition chain_repo : StateRepo unit TraceState :=
  mkStateRepo ∅ ∅ ∅ {[example_thread := trace_zero]} ∅ ∅ (FinalizedBlockStorage_new 5) {[example_thread := chain_candidates]}
    ∅ ∅ [].
Definition chain_known (b : BlockIdentifier) (block : CandidateBlock) : Prop :=
  ∃ e, get_block_by_id chain_candidates b = Some e ∧ data e = block.
Definition chain_base (b : BlockIdentifier) (s : TraceState) : Prop := b = BlockIdentifier_default ∧ s = trace_zero.
Notation chain_get := (get_optimistic_state elements false (λ _, None) trace_zero).

Lemma chain_blocks b e : get_block_by_id chain_candidates b = Some e →
  cb_identifier (data e) = b ∧ (0 ≤ cb_seq_no (data e))%Z ∧
  match get_block_by_id chain_candidates (cb_parent (data e)) with
  | Some e' => (cb_seq_no (data e') < cb_seq_no (data e))%Z
  | None => True
  end.
Proof.
  assert (map_Forall (λ b n, match blocks chain_candidates !! mkBlockIndex n b with
      | Some (_, e) => bool_decide (cb_identifier (data e) = b) && bool_decide (0 ≤ cb_seq_no (data e))%Z &&
          match get_block_by_id chain_candidates (cb_parent (data e)) with
          | Some e' => bool_decide (cb_seq_no (data e') < cb_seq_no (data e))%Z
          | None => true
          end
      | None => true
      end = true) (identifier_to_seqno chain_candidates)) as Hall.
  { apply (bool_decide_unpack _). vm_compute. exact I. }
  unfold get_block_by_id at 1. intros (n & Hn & Hb)%bind_Some. specialize (Hall b n Hn). cbv beta in Hall.
  destruct (blocks chain_candidates !! mkBlockIndex n b) as [[c e']|]; [|done]. injection Hb as <-.
  apply andb_true_iff in Hall as [[H1%bool_decide_eq_true H2%bool_decide_eq_true]%andb_true_iff H3].
  split_and!; [done..|]. destruct (get_block_by_id _ _); [|done]. by apply bool_decide_eq_true in H3.
Qed.

Lemma chain_zero t s : get_zero_state_for_thread false (λ _, None) trace_zero t = Ok s → chain_base BlockIdentifier_default s.
Proof. by intros [= <-]. Qed.

Lemma chain_sound : repo_sound chain_known chain_base chain_repo.
Proof.
  constructor; cbn [chain_repo sr_cache sr_files sr_finalized_state sr_finalized_blocks sr_unfinalized].
  1-2: apply map_Forall_empty.
  - apply map_Forall_singleton. by apply state_base.
  - intros t m b e. cbn. by rewrite lookup_empty.
  - intros t d b block [<- <-]%lookup_singleton_Some Hb. by exists block.
Qed.

(** The state after the second block is looked up and cached, then the one after the third. *)
Lemma repository_states_are_replays_witness :
  ∃ r' r'' s, chain_get 5 chain_repo (example_block 2) example_thread None = Some (r', Ok (Some (mkTrace (example_block 2) 2
      [example_block 1; example_block 2]))) ∧
    chain_get 5 r' (example_block 3) example_thread None = Some (r'', Ok (Some s)) ∧
    state_of chain_known chain_base (example_block 3) s ∧ get_block_id s = example_block 3.
Proof.
  assert (match chain_get 5 chain_repo (example_block 2) example_thread None with
    | Some (r', o) => o = Ok (Some (mkTrace (example_block 2) 2 [example_block 1; example_block 2])) ∧
        snd <$> chain_get 5 r' (example_block 3) example_thread None =
          Some (Ok (Some (mkTrace (example_block 3) 3 [example_block 1; example_block 2; example_block 3])))
    | None => False
    end) as Hrun by (vm_compute; done).
  destruct (chain_get 5 chain_repo (example_block 2) example_thread None) as [[r' o]|] eqn:H2; [|destruct Hrun].
  destruct Hrun as [-> H3]. destruct (chain_get 5 r' _ _ _) as [[r'' o]|] eqn:H3'; [|discriminate H3]. injection H3 as ->.
  exists r', r''. eexists. split; [done|]. split; [exact H3'|].
  eapply (repository_states_are_replays elements false (λ _, None) trace_zero Ok Ok true chain_known chain_base).
  - apply chain_zero.
  - intros b s [-> ->]. reflexivity.
  - intros b block (e & He & <-). apply (chain_blocks b e He).
  - intros s s'. apply Ok_inj.
  - apply chain_sound.
  - eapply rtc_once, repo_get_state, H2.
  - exact H3'.
Defined.

Lemma chain_get_block b e : get_block_from_repo_or_archive elements chain_repo b example_thread = Ok e →
  get_block_by_id chain_candidates b = Some e.
Proof.
  unfold get_block_from_repo_or_archive. cbn [chain_repo sr_unfinalized]. rewrite lookup_singleton_eq. cbn [mbind option_bind].
  destruct (get_block_by_id chain_candidates b); [by intros [= <-]|].
  assert (get_finalized_block elements chain_repo b = None) as -> by done. done.
Qed.

Lemma state_lookup_terminates_witness :
  numbers_decrease elements chain_repo example_thread ∧
  is_Some (chain_get 5 chain_repo (example_block 3) example_thread None).
Proof.
  assert (numbers_decrease elements chain_repo example_thread) as Hdec.
  { intros b e (_ & Hpos & Hless)%chain_get_block%chain_blocks. split; [done|]. intros e' He'%chain_get_block.
    by rewrite He' in Hless. }
  split; [exact Hdec|]. apply (state_lookup_terminates elements false (λ _, None) trace_zero 5 chain_repo
    (example_block 3) example_thread None 4 Hdec); [|lia].
  intros e He%chain_get_block.
  assert (get_block_by_id chain_candidates (example_block 3) = Some (chain_block 3)) as He3 by (vm_compute; done).
  rewrite He3 in He. injection He as <-. simpl. lia.
Defined.

(** Three candidates; the third is already final. *)
Definition written_repo : StateRepo unit TraceState :=
  mkStateRepo {[example_block 2 := example_state 2 1 false; example_block 3 := example_state 3 2 true]}
    ∅ ∅ ∅ ∅ ∅ (FinalizedBlockStorage_new 5) ∅ ∅ ∅ [].

(** The node starts again on the files of [r]. *)
Definition restarted (r : StateRepo unit TraceState) : StateRepo unit TraceState :=
  mkStateRepo (map_imap (λ b s, Some (load_block_state b s)) (sr_state_files r)) ∅ ∅ ∅ ∅ ∅ (FinalizedBlockStorage_new 5) ∅
    (sr_block_files r) (sr_state_files r) [].

Lemma restarted_ok r : restarted_from r (restarted r).
Proof.
  split; [|done|split; [simpl; lia|apply map_Forall_empty]].
  intros b. unfold repo_get. simpl. rewrite map_lookup_imap. by destruct (sr_state_files r !! b).
Qed.

Lemma saved_candidates_are_reloaded_witness :
  ∃ r loaded, load_saved_blocks elements (restarted (dump_unfinalized_blocks true written_repo chain_entries))
      (Some [example_block 3; example_block 2; example_block 1]) = Ok (r, loaded) ∧
    (example_block 2, chain_block 2) ∈ default [] (loaded !! example_thread).
Proof.
  destruct (saved_candidates_are_reloaded elements written_repo chain_entries
    [example_block 3; example_block 2; example_block 1] (restarted (dump_unfinalized_blocks true written_repo chain_entries))) as (r & loaded & Hl & Hin & _).
  - apply Forall_forall. repeat constructor.
  - apply (bool_decide_unpack _). vm_compute. exact I.
  - apply restarted_ok.
  - intros b. rewrite dump_files; [|by apply Forall_forall; repeat constructor|by apply (bool_decide_unpack _); vm_compute].
    cbn [sr_block_files written_repo]. rewrite lookup_empty.
    assert (∀ o : option (Envelope CandidateBlock), match o with Some x => Some x | None => None end = o) as -> by (by intros []).
    rewrite <- elem_of_dom, dom_list_to_map_L. cbn. set_solver.
  - exists r, loaded. split; [exact Hl|]. apply Hin; [right; left| |]; vm_compute; done.
Defined.
End StateExample.
