(* ===== verification/Builder.v ===== *)
(** * Building a block

    Models, of [block/producer/builder/build_actions.rs], how a block and the state after it get
    their names ([BlockBuilder::with_params] and [finish_block]), and of
    [block/producer/single_block_producer.rs] the phases of [produce] around it: the state of the
    parent is preprocessed, a builder is set up on it, messages are executed, and the state after
    the block is made from what was executed.

    Executing the messages ([build_block] up to [finish_block]) drives the TVM, which is third-party
    code: it is the parameter [execute] of the model, about which nothing is assumed.  The hash of a
    block is the parameter [block_hash], about which nothing is assumed either: the code takes the
    identifier of the block, and the reference to it in the next block, from the same cell.  The
    states are used through the interface [BuilderState], which the states of CrossThread.v
    implement with [preprocess] and [postprocess] ([impl_builder], [impl_builder_laws]). *)
From stdpp Require Import base numbers gmap fin_maps list strings.
From S2P Require Import Prelude Identifiers Bitmask FixedCache Bls BlockKeepers Envelope Attestation Checkpoints Statistics BlockState Collected ThreadRefs BlockProcessor Finalization MessageStore MessageRange MessageQueue CrossThread ApplyBlock LoadBalancing ExternalMessages NetworkMessage Routing StateRepository.

(** ** What names a block *)
(** [tvm_block::ExtBlkRef]; no modelled code reads the hash of the file. *)
Record ExtBlkRef := mkExtBlkRef {
  ref_end_lt : Z;
  ref_seq_no : BlockSeqNo;
  ref_root_hash : BlockIdentifier;
}.

#[global] Instance ExtBlkRef_eq_dec : EqDecision ExtBlkRef.
Proof. solve_decision. Defined.

(** The part of [tvm_block::BlockInfo] that names the block; the rest belongs to the contents. *)
Record BlockHeader := mkHeader {
  hd_seq_no : BlockSeqNo;
  hd_prev : option ExtBlkRef;
  hd_gen_utime_ms : Z;
  hd_start_lt : Z;
  hd_end_lt : Z;
}.

(** ** What production needs of a state *)
(** [shard_number] is the number in the shard state, [prev_info] the [prev1()] of the block info. *)
Class ProducedState (St : Type) := {
  all_thread_refs : St → ThreadReferencesState;
  state_threads_table : St → ThreadsTable;
  get_produced_threads_table : St → ThreadsTable;
  set_produced_threads_table : St → ThreadsTable → St;
  shard_number : St → Z;
  prev_info : St → option ExtBlkRef;
}.

Class ProducedLaws `{Blst} (St : Type) `{!OptimisticStateOps St} `{!ProducedState St} : Prop := {
  set_produced_names (s : St) table :
    get_block_id (set_produced_threads_table s table) = get_block_id s ∧
    get_block_seq_no (set_produced_threads_table s table) = get_block_seq_no s ∧
    shard_number (set_produced_threads_table s table) = shard_number s ∧
    prev_info (set_produced_threads_table s table) = prev_info s;
}.

(** Preprocessing returns the state, the threads table and the messages to forward; postprocessing
    is given the contents of the block and what names it. *)
Class BuilderState `{Blst} (St Payload EpochData Forwarded Contents : Type) := {
  preprocess_state : St → list (CrossThreadRefData Payload) → list (Envelope NackData) → list EpochData → ThreadIdentifier →
    outcome unit (St * ThreadsTable * Forwarded);
  postprocess_state : St → Contents → BlockIdentifier → BlockSeqNo → option ExtBlkRef →
    outcome unit (St * CrossThreadRefData Payload);
}.

Class BuilderLaws `{Blst} (St Payload EpochData Forwarded Contents : Type) `{!OptimisticStateOps St} `{!ProducedState St}
    `{!BuilderState St Payload EpochData Forwarded Contents} : Prop := {
  preprocess_state_names (s : St) (refs : list (CrossThreadRefData Payload)) nacks (epochs : list EpochData) t s' table
      (f : Forwarded) : preprocess_state s refs nacks epochs t = Ok (s', table, f) →
    shard_number s' = shard_number s ∧ prev_info s' = prev_info s;
  postprocess_state_names (s : St) (c : Contents) b n p s' (d : CrossThreadRefData Payload) :
    postprocess_state s c b n p = Ok (s', d) →
    get_block_id s' = b ∧ get_block_seq_no s' = n ∧ shard_number s' = n ∧ prev_info s' = p;
}.

(** The block info and the shard state of a state name the block of the state. *)
Record self_named `{Blst} {St : Type} `{!OptimisticStateOps St} `{!ProducedState St} (s : St) : Prop := {
  named_info : ref_root_hash <$> prev_info s = Some (get_block_id s);
  named_shard : shard_number s = get_block_seq_no s;
}.

Lemma set_produced_self_named `{Blst} {St : Type} `{!OptimisticStateOps St} `{!ProducedState St} `{!ProducedLaws St} (s : St) table :
  self_named s → self_named (set_produced_threads_table s table).
Proof.
  destruct (set_produced_names s table) as (Hb & Hn & Hs & Hp). intros [Hi Hsh].
  by split; [rewrite Hp, Hb|rewrite Hs, Hn].
Qed.

(** ** The builder *)
Section builder.
Context `{Blst} {M St Payload Active EpochData Forwarded Contents : Type} `{!OptimisticStateOps St} `{!ProducedState St}.
Context `{!BuilderState St Payload EpochData Forwarded Contents}.
Notation RefData := (CrossThreadRefData Payload).
Implicit Types s : St.

(** What the execution of a block is given, and what it returns. *)
Record BuildInput := mkBuildInput {
  bi_state : St;
  bi_refs : list RefData;
  bi_messages : gmap AccountAddress (list (Stamp * M));
  bi_nacks : list (Envelope NackData);
  bi_epoch_data : list EpochData;
  bi_active : Active;
  (** [now_ms()] *)
  bi_time : Z;
}.
Record Built := mkBuilt {
  bt_identifier : BlockIdentifier;
  bt_seq_no : BlockSeqNo;
  bt_parent : BlockIdentifier;
  bt_time : option Z;
  bt_block_keeper_set_changes : list BlockKeeperSetChange;
  (** the threads table of the preprocessed state *)
  bt_in_table : ThreadsTable;
  bt_state : St;
  bt_ref_data : RefData;
  bt_active : Active;
  bt_stamps : list Stamp;
  bt_feedbacks : list ExtMsgFeedback;
}.

Record BlockBuilder := mkBuilder {
  bb_info : BlockHeader;
  bb_start_lt : Z;
  bb_end_lt : Z;
  bb_initial_optimistic_state : St;
  produced_internal_messages_to_other_threads : Forwarded;
}.

(** What the builder holds when the messages were executed. *)
Record Executed := mkExecuted {
  ex_end_lt : Z;
  ex_contents : Contents;
  ex_block_keeper_set_changes : list BlockKeeperSetChange;
  ex_active : Active;
  ex_stamps : list Stamp;
  ex_feedbacks : list ExtMsgFeedback;
}.

Definition BlockBuilder_with_params (s : St) (gen_utime_ms : Z) (forwarded : Forwarded) : outcome unit BlockBuilder :=
  Prelude.checked 32 (shard_number s + 1) ≫= λ seq_no,
  let prev := prev_info s in
  Prelude.checked 64 (default 0%Z (ref_end_lt <$> prev) + 1) ≫= λ start_lt,
  Prelude.checked 64 (start_lt + 1) ≫= λ end_lt,
  Ok (mkBuilder (mkHeader seq_no prev gen_utime_ms start_lt 0) start_lt end_lt s forwarded).

Variable execute : BuildInput → BlockBuilder → outcome unit Executed.
Variable block_hash : BlockHeader → Contents → BlockIdentifier.
Variable thread_id : ThreadIdentifier.

(** The header and the hash of the block, the state after it and its data for other threads. *)
Definition BlockBuilder_finish_block (bb : BlockBuilder) (ex : Executed) :
    outcome unit (BlockHeader * BlockIdentifier * St * RefData) :=
  Prelude.checked 64 (bb_start_lt bb + 1) ≫= λ least,
  let info := bb_info bb in
  let info := mkHeader (hd_seq_no info) (hd_prev info) (hd_gen_utime_ms info) (hd_start_lt info) (Z.max (ex_end_lt ex) least) in
  let root_hash := block_hash info (ex_contents ex) in
  let prev_block_info := mkExtBlkRef (hd_end_lt info) (hd_seq_no info) root_hash in
  let block_id := root_hash in
  postprocess_state (bb_initial_optimistic_state bb) (ex_contents ex) block_id (hd_seq_no info) (Some prev_block_info)
  ≫= λ '(s, d), Ok (info, block_id, s, d).

(** [TVMBlockProducer::produce] up to the built block, with the accessors of the block: its parent
    is the hash in its reference to the previous block. *)
Definition build_block (i : BuildInput) : outcome unit Built :=
  preprocess_state (bi_state i) (bi_refs i) (bi_nacks i) (bi_epoch_data i) thread_id ≫= λ '(s, in_table, forwarded),
  BlockBuilder_with_params s (bi_time i) forwarded ≫= λ bb,
  execute i bb ≫= λ ex,
  BlockBuilder_finish_block bb ex ≫= λ '(info, b, s, d),
  unwrap (hd_prev info) ≫= λ prev,
  Ok (mkBuilt b (hd_seq_no info) (ref_root_hash prev) (Some (hd_gen_utime_ms info)) (ex_block_keeper_set_changes ex) in_table
        s d (ex_active ex) (ex_stamps ex) (ex_feedbacks ex)).

Context `{!BuilderLaws St Payload EpochData Forwarded Contents}.

(** The block that is built on a state has the block of the state as its parent and the next
    number, and the state after it is named after it. *)
Lemma build_block_extends i bt : self_named (bi_state i) → build_block i = Ok bt →
  bt_parent bt = get_block_id (bi_state i) ∧ bt_seq_no bt = (get_block_seq_no (bi_state i) + 1)%Z ∧
  get_block_id (bt_state bt) = bt_identifier bt ∧ get_block_seq_no (bt_state bt) = bt_seq_no bt ∧ self_named (bt_state bt).
Proof.
  intros [Hinfo Hshard]. unfold build_block. intros ([[s table] f] & Hpre & Hb)%outcome_bind_Ok.
  apply preprocess_state_names in Hpre as [Hs Hp].
  apply outcome_bind_Ok in Hb as (bb & Hbb & Hb). apply outcome_bind_Ok in Hb as (ex & _ & Hb).
  apply outcome_bind_Ok in Hb as ([[[info b] s'] d] & Hfin & Hb). apply outcome_bind_Ok in Hb as (prev & Hprev & [= <-]).
  unfold BlockBuilder_with_params in Hbb. apply outcome_bind_Ok in Hbb as (seq & Hseq & Hbb).
  apply outcome_bind_Ok in Hbb as (lt1 & _ & Hbb). apply outcome_bind_Ok in Hbb as (lt2 & _ & [= <-]).
  unfold BlockBuilder_finish_block in Hfin. apply outcome_bind_Ok in Hfin as (least & _ & Hfin).
  apply outcome_bind_Ok in Hfin as ([s1 d1] & Hpost & [= <- <- <- <-]). cbn in *.
  apply postprocess_state_names in Hpost as (Hid & Hn & Hsn & Hpi).
  assert (seq = shard_number s + 1)%Z as -> by (unfold Prelude.checked in Hseq; case_decide; by simplify_eq).
  rewrite Hp in Hprev. destruct (prev_info (bi_state i)) as [p|]; [|done]. cbn in Hinfo. injection Hinfo as Hinfo.
  injection Hprev as <-. split_and!; [done|lia|done..|]. split; [rewrite Hpi; cbn; by rewrite Hid|congruence].
Qed.
End builder.

(** ** The states of CrossThread.v *)
Section implementation.
Context `{Blst} {S K M Acc Cell BlockKeeperData : Type} `{DurableStorageRead S K M} `{KeyFrom K M} `{Countable K}
  `{EqDecision M} `{ShardAccount Acc Cell} `{TvmMessage M}.
Variable acc_iter : gmap AccountAddress Acc → list (AccountAddress * Acc).
Variable messages_iter : gmap AccountAddress (list (K * M)) → list (AccountAddress * list (K * M)).
Variable block_iter : gset BlockIdentifier → list BlockIdentifier.
Variable tails_iter : ThreadReferencesState → list ReferencedBlock.
Variable changed_iter : gmap AccountAddress Z → list (AccountAddress * Z).
Variable create_epoch_touch_message : BlockKeeperData → outcome unit M.
Variable message_le : relation M.
Context `{!RelDecision message_le}.
Variable slash_message : NackData → option (outcome unit M).
Variable fuel wfuel : nat.
Variable get_ref_data : BlockIdentifier → option (CrossThreadRefData (Outbound K M Acc)).
Variable db : S.
Variable repo : AccountsRepository Cell.
Notation State := (OptimisticState K M Acc Cell (option ExtBlkRef)).
Context `{!OptimisticStateOps State}.
(** As in [impl_ops] of StateRepository.v. *)
Hypothesis names_of_state : ∀ o : State, get_block_id o = os_block_id o ∧ get_block_seq_no o = os_block_seq_no o.

(** What the builder hands to [postprocess], with the maps in the order in which they are visited. *)
Record BlockContents := mkContents {
  bc_consumed : list (AccountAddress * gset K);
  bc_produced : list (AccountAddress * list (K * M));
  bc_changed_dapp : list (AccountRouting * option (AccountAddress * Acc));
  bc_accounts : gmap AccountAddress Acc;
  bc_produced_other : list (AccountRouting * list (K * M));
  bc_dapp_id_table : DAppIdTable;
  bc_changed_dapp_ids : DAppIdTableChangeSet;
  bc_block_accounts : gset AccountAddress;
  bc_accounts_number_diff : Z;
}.

#[local] Instance impl_produced : ProducedState State := {|
  all_thread_refs := os_thread_refs;
  state_threads_table := os_threads_table;
  get_produced_threads_table := os_threads_table;
  Builder.set_produced_threads_table := CrossThread.set_produced_threads_table;
  shard_number o := shard_seq_no (os_shard_state o);
  prev_info := os_block_info;
|}.

Definition preprocess_impl (o : State) (refs : list (CrossThreadRefData (Outbound K M Acc))) (nacks : list (Envelope NackData))
    (epochs : list BlockKeeperData) (t : ThreadIdentifier) :
    outcome unit (State * ThreadsTable * gmap AccountRouting (list (K * M))) :=
  slash_messages slash_message (data <$> nacks) ≫= λ slash,
  default Panic (preprocess acc_iter messages_iter block_iter tails_iter create_epoch_touch_message fuel wfuel get_ref_data db o
    refs t slash epochs) ≫= λ pre,
  Ok (pre_state pre, pre_threads_table pre, redirected_messages pre).

(** The shard state of the builder gets the number of the block and the accounts.  The accounts
    that were deleted are reported to the accounts repository. *)
Definition postprocess_impl (o : State) (c : BlockContents) (b : BlockIdentifier) (n : BlockSeqNo) (p : option ExtBlkRef) :
    outcome unit (State * CrossThreadRefData (Outbound K M Acc)) :=
  updated_accounts_number (os_accounts_number o) (bc_accounts_number_diff c) ≫= λ number,
  let shard := mkShard (bc_accounts c) (shard_out_queue (os_shard_state o)) n in
  postprocess message_le changed_iter (fmap ref_end_lt) db o (bc_consumed c) (bc_produced c) (bc_changed_dapp c) b n shard
    (bc_produced_other c) (bc_dapp_id_table c) p (os_thread_id o) (os_threads_table o) (bc_changed_dapp_ids c)
    (bc_block_accounts c) (ar_unload_after repo) (ar_store_after repo) number ≫= λ '(o, d, deleted), Ok (o, d).

#[local] Instance impl_builder : BuilderState State (Outbound K M Acc) BlockKeeperData (gmap AccountRouting (list (K * M)))
    BlockContents := {|
  preprocess_state := preprocess_impl;
  postprocess_state := postprocess_impl;
|}.

(** What names a state, apart from the block it is the state of. *)
Definition marks (o : State) : Z * option ExtBlkRef := (shard_seq_no (os_shard_state o), os_block_info o).

Lemma merge_tables_marks blocks (o o' : State) :
  fold_outcome merge_tables o blocks = Ok o' → marks o' = marks o.
Proof.
  revert o. induction blocks as [|d blocks IH]; intros o; cbn [fold_outcome]; [by intros [= <-]|].
  intros (o1 & Hd & Hrest)%outcome_bind_Ok. rewrite (IH o1 Hrest). unfold merge_tables in Hd.
  destruct (ThreadsTable_merge _ _); [|done..]. by injection Hd as <-.
Qed.

Lemma crop_marks (o : State) t table o' : crop acc_iter db o t table = Ok o' → marks o' = marks o.
Proof.
  unfold crop. case_bool_decide; [by intros [= <-]|].
  intros ([[s removed] existing] & Hs & Hrest)%outcome_bind_Ok.
  apply outcome_bind_Ok in Hrest as (missing & _ & Hrest). apply outcome_bind_Ok in Hrest as (q & _ & [= <-]).
  unfold crop_shard_state in Hs. apply outcome_bind_Ok in Hs as (keys & _ & Hs).
  apply outcome_bind_Ok in Hs as (gone & _ & [= <- _ _]). done.
Qed.

Lemma import_marks blocks table t (o o' : State) :
  import_migrating_accounts_with_their_inboxes db blocks table t o = Ok o' → marks o' = marks o.
Proof.
  unfold import_migrating_accounts_with_their_inboxes. intros ([accounts inboxes] & _ & Hrest)%outcome_bind_Ok.
  by apply outcome_bind_Ok in Hrest as (q & _ & [= <-]).
Qed.

Lemma preprocess_referenced_marks (o : State) t blocks refs slash (epochs : list BlockKeeperData) pre :
  preprocess_referenced acc_iter messages_iter create_epoch_touch_message db o t blocks refs slash epochs = Ok pre →
  marks (pre_state pre) = marks o.
Proof.
  unfold preprocess_referenced. intros (sorted & _ & Hp)%outcome_bind_Ok. apply outcome_bind_Ok in Hp as (o1 & E1%merge_tables_marks & Hp).
  apply outcome_bind_Ok in Hp as (o2 & E2%crop_marks & Hp). apply outcome_bind_Ok in Hp as (o3 & E3%import_marks & Hp).
  apply outcome_bind_Ok in Hp as ([settled redirected] & _ & Hp).
  do 4 (apply outcome_bind_Ok in Hp as (? & _ & Hp)). injection Hp as <-.
  change (marks o3 = marks o). by rewrite E3, E2, E1.
Qed.

Lemma unload_step_number ua n (u u' : Unloading (Acc := Acc) (Cell := Cell)) e :
  unload_account ua n u e = Ok u' → shard_seq_no (ul_shard u') = shard_seq_no (ul_shard u).
Proof.
  unfold unload_account. intros (due & _ & Hu)%outcome_bind_Ok. case_bool_decide; [|by injection Hu as <-].
  destruct (shard_accounts _ !! _); [|by injection Hu as <-].
  by apply outcome_bind_Ok in Hu as ([acc cell] & _ & [= <-]).
Qed.

Lemma unload_number ua sa n accounts shard changed (cached : gmap AccountAddress (Z * Cell)) u :
  unload_accounts changed_iter ua sa n accounts shard changed cached = Ok u → shard_seq_no (ul_shard u) = shard_seq_no shard.
Proof.
  unfold unload_accounts. destruct ua as [ua|]; [|by intros [= <-]]. intros (kept & _ & Hu)%outcome_bind_Ok.
  change shard with (ul_shard (mkUnloading shard ∅ (list_to_map kept) [])) at 1. revert Hu.
  generalize (mkUnloading shard ∅ (list_to_map (M := gmap AccountAddress (Z * Cell)) kept) []) as v.
  induction (changed_iter _) as [|e l IH]; intros v; cbn [fold_outcome]; [by intros [= <-]|].
  intros (v1 & Hv%unload_step_number & Hrest)%outcome_bind_Ok. by rewrite (IH v1 Hrest).
Qed.

(** The interface is implemented. *)
#[local] Instance impl_produced_laws : ProducedLaws State.
Proof.
  constructor. intros o table. rewrite !(proj1 (names_of_state _)), !(proj2 (names_of_state _)).
  cbn. unfold CrossThread.set_produced_threads_table. done.
Qed.

#[local] Instance impl_builder_laws : BuilderLaws State (Outbound K M Acc) BlockKeeperData (gmap AccountRouting (list (K * M)))
    BlockContents.
Proof.
  constructor.
  - intros o refs nacks epochs t o' table f. cbn. unfold preprocess_impl. intros (slash & _ & Hp)%outcome_bind_Ok.
    apply outcome_bind_Ok in Hp as (pre & Hp & [= <- _ _]). unfold preprocess in Hp.
    destruct (move_refs _ _ _ _ _ _ _) as [[[blocks moved]| |]|]; [|done..]. cbn in Hp.
    apply preprocess_referenced_marks in Hp. by injection Hp.
  - intros o c b n p o' d. cbn. unfold postprocess_impl. intros (number & _ & Hp)%outcome_bind_Ok.
    apply outcome_bind_Ok in Hp as ([[o1 d1] deleted] & Hp & [= <- <-]). rewrite !(proj1 (names_of_state _)), !(proj2 (names_of_state _)).
    unfold postprocess in Hp. apply outcome_bind_Ok in Hp as (q & _ & Hp). apply outcome_bind_Ok in Hp as ([removed outbound] & _ & Hp).
    apply outcome_bind_Ok in Hp as (q2 & _ & Hp). apply outcome_bind_Ok in Hp as (u & Hu%unload_number & Hp).
    apply outcome_bind_Ok in Hp as (? & _ & [= <- _ _]). done.
Qed.
End implementation.
