(* ===== verification/Snapshot.v ===== *)
(** * Snapshots: sharing the state of a thread

    Models [repository/cross_thread_ref_repository.rs] (the data other threads refer to, kept in
    files behind a cache), [node/services/sync/file_saving_service.rs] (a node writes a snapshot
    of its finalized state) and [set_state_from_snapshot] with [finalize_synced_block] of
    [repository/repository_impl.rs] (another node starts from it).

    The [lru] crate is third-party code: the cache is any implementation of [LruCache], and
    [LruLaws] says that it holds what was put into it until it drops it.  [bincode] is
    [Serialize] and [Deserialize] with the law [Codec].  Accounts and messages of a snapshot are
    handed to services that may fail. *)
From stdpp Require Import base numbers gmap strings fin_maps sorting list.
From S2P Require Import Prelude Identifiers Bitmask FixedCache Bls BlockKeepers Envelope Attestation Checkpoints Statistics BlockState BlockProcessor Unfinalized Finalization ThreadRefs ActionLock NetworkMessage StateRepository.

(** ** Cross-thread data of blocks *)
Class LruCache (C K V : Type) := {
  lru_get : C → K → C * option V;
  lru_put : C → K → V → C;
  (** what the cache holds *)
  lru_held : C → K → option V;
}.
Class LruLaws (C K V : Type) `{LruCache C K V} : Prop := {
  lru_get_found c k : (lru_get c k).2 = lru_held c k;
  lru_get_kept c k k' : lru_held (lru_get c k).1 k' = lru_held c k';
  lru_put_found c k v : lru_held (lru_put c k v) k = Some v;
  lru_put_other c k v k' : k' ≠ k → lru_held (lru_put c k v) k' = None ∨ lru_held (lru_put c k v) k' = lru_held c k';
}.

Definition HISTORY_TAIL : nat := Eval cbv in 100.

Section ref_store.
Context {Payload C : Type} `{LruCache C BlockIdentifier (option (CrossThreadRefData Payload))}.
Notation RefData := (CrossThreadRefData Payload).
(** Whether writing the file of a block succeeds, and whether a file can be decoded. *)
Variable write_ok readable : BlockIdentifier → bool.

Record RefStore := mkRefStore {
  rd_cache : C;
  rd_files : gmap BlockIdentifier RefData;
}.
Implicit Types (st : RefStore) (id : BlockIdentifier) (d : RefData).

(** A missing entry is remembered in the cache as well. *)
Definition get_cross_thread_ref_data st id : RefStore * outcome unit RefData :=
  let '(cache, found) := lru_get (rd_cache st) id in
  match found with
  | Some (Some d) => (mkRefStore cache (rd_files st), Ok d)
  | Some None => (mkRefStore cache (rd_files st), Err tt)
  | None =>
      if negb (readable id) then (mkRefStore cache (rd_files st), Panic)
      else
        match rd_files st !! id with
        | Some d => (mkRefStore (lru_put cache (data_block_identifier d) (Some d)) (rd_files st), Ok d)
        | None => (mkRefStore (lru_put cache id None) (rd_files st), Err tt)
        end
  end.

Definition set_cross_thread_ref_data st d : RefStore * outcome unit unit :=
  let id := data_block_identifier d in
  let '(cache, found) := lru_get (rd_cache st) id in
  match found with
  | Some (Some _) => (mkRefStore cache (rd_files st), Ok tt)
  | _ =>
      if write_ok id
      then (mkRefStore (lru_put cache id (Some d)) (<[id := d]> (rd_files st)), Ok tt)
      else (mkRefStore cache (rd_files st), Err tt)
  end.

(** The loop of [get_history_tail]. *)
Fixpoint history_loop (n : nat) st (cursor : BlockIdentifier) (history : list RefData) :
    RefStore * outcome unit (list RefData) :=
  match n with
  | 0 => (st, Ok history)
  | S n =>
      let '(st, found) := get_cross_thread_ref_data st cursor in
      match found with
      | Panic => (st, Panic)
      | Err _ => (st, Ok history)
      | Ok d =>
          if bool_decide (cursor = BlockIdentifier_default) then (st, Ok (history ++ [d]))
          else history_loop n st (data_parent d) (history ++ [d])
      end
  end.

Definition get_history_tail st id : RefStore * outcome unit (list RefData) :=
  let '(st, found) := get_cross_thread_ref_data st id in
  match found with
  | Ok d => history_loop HISTORY_TAIL st (data_parent d) [d]
  | Err e => (st, Err e)
  | Panic => (st, Panic)
  end.
End ref_store.
Arguments RefStore Payload C : clear implicits.

(** *** The cache is invisible *)
Section ref_store_theorems.
Context {Payload C : Type} `{LruCache C BlockIdentifier (option (CrossThreadRefData Payload))}.
Context `{!LruLaws C BlockIdentifier (option (CrossThreadRefData Payload))}.
Notation RefData := (CrossThreadRefData Payload).
Implicit Types (st : RefStore Payload C) (id : BlockIdentifier) (d : RefData) (m : gmap BlockIdentifier RefData).

(** The store stands for the map [m]. *)
Record stands_for st m : Prop := {
  sf_files : rd_files st = m;
  sf_names : map_Forall (λ id d, data_block_identifier d = id) m;
  sf_cache id o : lru_held (rd_cache st) id = Some o → o = m !! id;
}.

Lemma sf_get st m id : stands_for st m → stands_for (mkRefStore (lru_get (rd_cache st) id).1 (rd_files st)) m.
Proof. intros [? ? Hc]. split; [done..|]. intros k o. cbn [rd_cache]. rewrite lru_get_kept. apply Hc. Qed.

Lemma sf_put c files m id o : stands_for (mkRefStore c files) m → o = m !! id →
  stands_for (mkRefStore (lru_put c id o) files) m.
Proof.
  intros [? ? Hc] Ho. split; [done..|]. intros k o'. cbn [rd_cache] in *. destruct (decide (k = id)) as [->|Hne].
  - rewrite lru_put_found. by intros [= <-].
  - destruct (lru_put_other c id o k Hne) as [-> | ->]; [done|apply Hc].
Qed.

Lemma get_ref_data_spec readable st m id : stands_for st m → (∀ b, readable b = true) →
  ∃ st', get_cross_thread_ref_data readable st id = (st', ok_or (m !! id) tt) ∧ stands_for st' m.
Proof.
  intros Hst Hread. unfold get_cross_thread_ref_data. pose proof (sf_get st m id Hst) as Hst1.
  destruct (lru_get (rd_cache st) id) as [cache found] eqn:Hg. cbn [fst] in Hst1.
  assert (lru_held (rd_cache st) id = found) as Hf by (by rewrite <- lru_get_found, Hg).
  destruct found as [o|].
  - pose proof (sf_cache _ _ Hst id o Hf) as ->. destruct (m !! id) eqn:Hm; eexists; (split; [done|]); done.
  - rewrite Hread. cbn [negb]. rewrite (sf_files _ _ Hst) in *. destruct (m !! id) as [d|] eqn:Hm.
    + eexists. split; [done|]. apply sf_put; [done|]. rewrite (sf_names _ _ Hst id d Hm). congruence.
    + eexists. split; [done|]. apply sf_put; [done|]. congruence.
Qed.

Lemma set_ref_data_spec write_ok st m d : stands_for st m → (∀ b, write_ok b = true) →
  (∀ d', m !! data_block_identifier d = Some d' → d' = d) →
  ∃ st', set_cross_thread_ref_data write_ok st d = (st', Ok tt) ∧
    stands_for st' (<[data_block_identifier d := d]> m).
Proof.
  intros Hst Hw Hsame. unfold set_cross_thread_ref_data. set (id := data_block_identifier d) in *.
  pose proof (sf_get st m id Hst) as Hst1.
  destruct (lru_get (rd_cache st) id) as [cache found] eqn:Hg. cbn [fst] in Hst1.
  assert (lru_held (rd_cache st) id = found) as Hf by (by rewrite <- lru_get_found, Hg).
  assert (stands_for (mkRefStore (lru_put cache id (Some d)) (<[id := d]> (rd_files st))) (<[id := d]> m)) as Hput.
  { destruct Hst1 as [Hfiles Hnames Hc]. cbn [rd_files rd_cache] in *. split; [by rewrite <- Hfiles| |].
    - by apply map_Forall_insert_2.
    - intros k o. cbn [rd_cache]. destruct (decide (k = id)) as [->|Hne].
      + rewrite lru_put_found, lookup_insert_eq. by intros [= <-].
      + rewrite lookup_insert_ne by done. destruct (lru_put_other cache id (Some d) k Hne) as [-> | ->]; [done|apply Hc]. }
  rewrite Hw. destruct found as [[d'|]|]; [|eauto..]. eexists. split; [done|].
  pose proof (sf_cache _ _ Hst id _ Hf) as Hm. symmetry in Hm. rewrite (Hsame d' Hm) in Hm. by rewrite insert_id.
Qed.

(** The history of a block: the data of the block and of its ancestors, in order. *)
Fixpoint ref_history m (n : nat) (cursor : BlockIdentifier) : list RefData :=
  match n with
  | 0 => []
  | S n =>
      match m !! cursor with
      | None => []
      | Some d => d :: (if bool_decide (cursor = BlockIdentifier_default) then [] else ref_history m n (data_parent d))
      end
  end.

Lemma history_loop_spec readable n st m cursor history : stands_for st m → (∀ b, readable b = true) →
  ∃ st', history_loop readable n st cursor history = (st', Ok (history ++ ref_history m n cursor)) ∧ stands_for st' m.
Proof.
  intros Hst Hread. revert st cursor history Hst. induction n as [|n IH]; intros st cursor history Hst; simpl.
  { eexists. by rewrite app_nil_r. }
  destruct (get_ref_data_spec readable st m cursor Hst Hread) as (st1 & -> & Hst1).
  destruct (m !! cursor) as [d|]; simpl; [|eexists; by rewrite app_nil_r].
  case_bool_decide; [eauto|]. destruct (IH st1 (data_parent d) (history ++ [d]) Hst1) as (st2 & -> & Hst2).
  eexists. split; [|done]. by rewrite <- (assoc_L (++)).
Qed.

Inductive RefOp := SetData (d : RefData) | GetData (id : BlockIdentifier) | GetHistory (id : BlockIdentifier).
Definition ref_op write_ok readable st (o : RefOp) : RefStore Payload C * outcome unit (list RefData) :=
  match o with
  | SetData d => let '(st, res) := set_cross_thread_ref_data write_ok st d in (st, res ≫= λ _, Ok [])
  | GetData id => let '(st, res) := get_cross_thread_ref_data readable st id in (st, res ≫= λ d, Ok [d])
  | GetHistory id => get_history_tail readable st id
  end.
(** The same on a map. *)
Definition ref_spec m (o : RefOp) : gmap BlockIdentifier RefData * outcome unit (list RefData) :=
  match o with
  | SetData d => (<[data_block_identifier d := d]> m, Ok [])
  | GetData id => (m, ok_or (m !! id) tt ≫= λ d, Ok [d])
  | GetHistory id =>
      (m, match m !! id with
          | Some d => Ok (d :: ref_history m HISTORY_TAIL (data_parent d))
          | None => Err tt
          end)
  end.
Fixpoint run_ref_ops {S} (f : S → RefOp → S * outcome unit (list RefData)) (s : S) (os : list RefOp) :
    list (outcome unit (list RefData)) :=
  match os with
  | [] => []
  | o :: os => let '(s, res) := f s o in res :: run_ref_ops f s os
  end.
(** A block has one data. *)
Definition one_data (known : BlockIdentifier → option RefData) (o : RefOp) : Prop :=
  match o with SetData d => known (data_block_identifier d) = Some d | _ => True end.

(** Cross-thread data: the repository behaves as a map from blocks to their data.  For
    every sequence of stores and lookups (of one block, or of the history of a block: at most 101
    blocks by parent links), the answers are those of the map, whatever the cache drops, and
    although it also remembers missing entries; stores of a block repeat its data. *)
Theorem ref_data_cache_is_invisible (known : BlockIdentifier → option RefData) write_ok readable st m os :
  stands_for st m → map_Forall (λ id d, known id = Some d) m → (∀ b, write_ok b = true) → (∀ b, readable b = true) →
  Forall (one_data known) os →
  run_ref_ops (ref_op write_ok readable) st os = run_ref_ops ref_spec m os.
Proof.
  intros Hst Hm Hw Hread Hos. revert st m Hst Hm. induction Hos as [|o os Ho _ IH]; intros st m Hst Hm; [done|].
  cbn [run_ref_ops]. destruct o as [d|id|id]; unfold ref_op, ref_spec.
  - destruct (set_ref_data_spec write_ok st m d Hst Hw) as (st' & -> & Hst').
    { intros d' Hd'. apply Hm in Hd'. cbn in Ho. congruence. }
    cbn [mbind outcome_bind]. f_equal. apply IH; [done|]. by apply map_Forall_insert_2.
  - destruct (get_ref_data_spec readable st m id Hst Hread) as (st' & -> & Hst').
    destruct (m !! id); cbn [ok_or mbind outcome_bind]; f_equal; by apply IH.
  - unfold get_history_tail. destruct (get_ref_data_spec readable st m id Hst Hread) as (st' & -> & Hst').
    destruct (m !! id) as [d|]; cbn [ok_or]; [|f_equal; by apply IH].
    destruct (history_loop_spec readable HISTORY_TAIL st' m (data_parent d) [d] Hst' Hread) as (st2 & -> & Hst2).
    cbn [app]. f_equal. by apply IH.
Qed.
End ref_store_theorems.

(** ** Writing and accepting a snapshot *)
Record ThreadSnapshot `{Blst} (Payload D : Type) := mkThreadSnapshot {
  sn_optimistic_state : list Z;
  sn_cross_thread_ref_data : list (CrossThreadRefData Payload);
  sn_db_messages : D;
  sn_finalized_block : Envelope CandidateBlock;
  sn_bk_set : BlockKeeperSet;
  sn_finalized_block_stats : BlockStatistics;
  sn_attestation_target : AttestationTargets;
  sn_producer_selector : ProducerSelector;
  sn_block_height : BlockHeight;
  sn_prefinalization_proof : Envelope AttestationData;
}.
Arguments mkThreadSnapshot {_ Payload D} _ _ _ _ _ _ _ _ _ _.
Arguments sn_optimistic_state {_ Payload D} _.
Arguments sn_cross_thread_ref_data {_ Payload D} _.
Arguments sn_db_messages {_ Payload D} _.
Arguments sn_finalized_block {_ Payload D} _.
Arguments sn_bk_set {_ Payload D} _.
Arguments sn_finalized_block_stats {_ Payload D} _.
Arguments sn_attestation_target {_ Payload D} _.
Arguments sn_producer_selector {_ Payload D} _.
Arguments sn_block_height {_ Payload D} _.
Arguments sn_prefinalization_proof {_ Payload D} _.

Inductive SnapshotError :=
  | BadSnapshot
  | BadState
  | BlockMissing
  | BlockDataMissing
  | SerializeFailed
  | MessagesFailed
  | InRepository (e : RepositoryError).

Section snapshot.
Context `{Blst} {NackData : Type} `{EqDecision NackData} {St : Type} `{!OptimisticStateOps St}.
Context {Payload D C : Type} `{LruCache C BlockIdentifier (option (CrossThreadRefData Payload))}.
Context `{Serialize St} `{Deserialize St} `{Serialize (ThreadSnapshot Payload D)} `{Deserialize (ThreadSnapshot Payload D)}.
Notation result A := (outcome SnapshotError A).
Notation Snapshot := (ThreadSnapshot Payload D).
(** The parameters of StateRepository.v and of the store of cross-thread data. *)
Variable set_iter : gset BlockIdentifier → list BlockIdentifier.
Variable thread_iter : gset ThreadIdentifier → list ThreadIdentifier.
Variable has_zerostate : bool.
Variable load_zerostate : ThreadIdentifier → option St.
Variable zero : St.
Variable to_file load_all_accounts : St → outcome RepositoryError St.
Variable write_ok shutdown split_state : bool.
Variable ref_write_ok ref_readable : BlockIdentifier → bool.
(** The messages of a state that are in the database, and writing them; writing the accounts of a
    state; the hash of an envelope. *)
Variable db_messages : St → D.
Variable write_messages : D → bool.
Variable sync_accounts_from_state : St → bool.
Variable hash_of : Envelope CandidateBlock → EnvelopeHash.

(** What the services of a node share. *)
Record SyncWorld := mkSyncWorld {
  sw_repo : StateRepo NackData St;
  sw_refs : RefStore Payload C;
  sw_messages : list D;
}.
Implicit Types (w : SyncWorld) (ts : Snapshot).

(** The snapshot [FileSavingService::save_object] writes. *)
Definition make_snapshot w (s : St) : SyncWorld * result (list Z) :=
  let r := sw_repo w in
  let b := get_block_id s in
  match bincode_serialize s with
  | None => (w, Err SerializeFailed)
  | Some serialized_state =>
      let '(refs, history) := get_history_tail ref_readable (sw_refs w) b in
      let w := mkSyncWorld r refs (sw_messages w) in
      let e := repo_get (sr_block_states r) b in
      (w, match history with
          | Panic => Panic
          | Err _ => Err BlockDataMissing
          | Ok history =>
              ok_or (get_finalized_block thread_iter r b) BlockMissing ≫= λ finalized_block,
              match get e bk_set, get e block_stats, get e attestation_target, get e producer_selector_data,
                    get e block_height, get e prefinalization_proof with
              | Some keepers, Some stats, Some target, Some selector, Some h, Some proof =>
                  ok_or (bincode_serialize (mkThreadSnapshot serialized_state history (db_messages s) finalized_block
                           keepers stats target selector h proof)) SerializeFailed
              | _, _, _, _, _, _ => Err BlockDataMissing
              end
          end)
  end.

(** The setters of the closure [update_block_state], on the state of the finalized block. *)
Definition synced_block_state (s : AckiNackiBlockState NackData) ts (now : Z) : result (AckiNackiBlockState NackData) :=
  let block := data (sn_finalized_block ts) in
  let set s f v := unwrap_ok (generated_setter s f v) in
  set s thread_identifier (cb_thread_id block) ≫= λ s,
  set s producer (cb_producer_id block) ≫= λ s,
  set s block_seq_no (cb_seq_no block) ≫= λ s,
  unwrap (cb_time block) ≫= λ time,
  set s block_time_ms time ≫= λ s,
  set s common_checks_passed true ≫= λ s,
  let s := set_applied (set_finalized s) now in
  set s signatures_verified true ≫= λ s,
  let s := set_stored s (hash_of (sn_finalized_block ts)) in
  set s bk_set (sn_bk_set ts) ≫= λ s,
  set s descendant_bk_set (sn_bk_set ts) ≫= λ s,
  set s future_bk_set BlockKeeperSet_new ≫= λ s,
  set s descendant_future_bk_set BlockKeeperSet_new ≫= λ s,
  set s block_stats (sn_finalized_block_stats ts) ≫= λ s,
  set s block_height (sn_block_height ts) ≫= λ s,
  set s ancestor_blocks_finalization_checkpoints (mkCheckpoints ∅ ∅) ≫= λ s,
  set s attestation_target (sn_attestation_target ts) ≫= λ s,
  let s := set_prefinalized s (sn_prefinalization_proof ts) in
  set s producer_selector_data (sn_producer_selector ts) ≫= λ s,
  set s finalizes_blocks ∅.

Definition update_block_state (states : Repository NackData) ts (cur_thread_id : ThreadIdentifier) (now : Z) :
    result (Repository NackData) :=
  let block := data (sn_finalized_block ts) in
  let b := cb_identifier block in
  synced_block_state (repo_get states b) ts now ≫= λ s,
  let states := <[b := s]> states in
  let children := default ∅ (known_children s cur_thread_id) in
  fold_outcome (λ states child,
      unwrap_ok (generated_setter (repo_get states child) has_parent_finalized true) ≫= λ c,
      Ok (<[child := c]> states)) states (set_iter children) ≫= λ states,
  unwrap_ok (do_link set_iter states (cb_parent block) b) ≫= λ states,
  unwrap_ok (set_descendant_bk_set states b block).

Definition lift {A} (o : outcome RepositoryError A) : result A :=
  match o with Ok a => Ok a | Err e => Err (InRepository e) | Panic => Panic end.

Definition finalize_synced_block (fuel : nat) (r : StateRepo NackData St) ts : option (result (StateRepo NackData St)) :=
  let block := sn_finalized_block ts in
  let b := cb_identifier (data block) in
  let t := cb_thread_id (data block) in
  let continue (r : StateRepo NackData St) :=
    let r := with_repo_event (with_repo_event r (ThreadTracked (cb_parent (data block)) t)) (ThreadJoined t) in
    marked ← mark_finalized thread_iter has_zerostate load_zerostate zero load_all_accounts write_ok shutdown split_state
               false fuel r block;
    match lift marked with
    | Err e => Some (Err e)
    | Panic => Some Panic
    | Ok r =>
        '(r, found) ← get_optimistic_state thread_iter has_zerostate load_zerostate zero fuel r b t None;
        Some (lift found ≫= λ o, unwrap o ≫= λ _,
              lift (get_metadata_for_thread r t) ≫= λ _,
              Ok (with_repo_event r (SyncedBlockFinalized b)))
    end in
  match sr_metadatas r !! t with
  | Some metadata =>
      if bool_decide (cb_seq_no (data block) ≤ last_finalized_block_seq_no metadata)%Z then Some (Ok r)
      else continue r
  | None =>
      initialized ← init_thread thread_iter has_zerostate load_zerostate zero write_ok fuel r t b;
      match lift initialized with
      | Err e => Some (Err e)
      | Panic => Some Panic
      | Ok r => continue r
      end
  end.

(** The last finalized state of the thread, and the block with it, unless they are newer. *)
Definition accept_state (r : StateRepo NackData St) (s : St) ts (cur_thread_id : ThreadIdentifier) (now : Z) :
    result (StateRepo NackData St) :=
  let t := get_thread_id s in
  let updated (r : StateRepo NackData St) :=
    update_block_state (sr_block_states r) ts cur_thread_id now ≫= λ states,
    Ok (mkStateRepo states (sr_metadatas r) (sr_saved_states r) (sr_finalized_state r) (sr_cache r) (sr_files r)
          (sr_finalized_blocks r) (sr_unfinalized r) (sr_block_files r) (sr_state_files r) (sr_events r)) in
  let inserted := with_finalized_state r (<[t := s]> (sr_finalized_state r)) in
  match sr_finalized_state r !! t with
  | Some cur =>
      if bool_decide (get_block_seq_no cur < cb_seq_no (data (sn_finalized_block ts)))%Z
      then ensure (sync_accounts_from_state s) (InRepository AccountsFailed) ≫= λ _, updated inserted
      else Ok r
  | None => updated inserted
  end.

Definition note_saved (r : StateRepo NackData St) (t : ThreadIdentifier) (n : BlockSeqNo) (b : BlockIdentifier) :
    StateRepo NackData St :=
  mkStateRepo (sr_block_states r) (sr_metadatas r)
    (<[t := <[n := b]> (default ∅ (sr_saved_states r !! t))]> (sr_saved_states r)) (sr_finalized_state r) (sr_cache r)
    (sr_files r) (sr_finalized_blocks r) (sr_unfinalized r) (sr_block_files r) (sr_state_files r) (sr_events r).

(** The data of the snapshot is stored, and the blocks are marked. *)
Definition accept_ref_data (acc : RefStore Payload C * list BlockIdentifier) (d : CrossThreadRefData Payload) :
    result (RefStore Payload C * list BlockIdentifier) :=
  let '(refs, ids) := acc in
  let '(refs, res) := set_cross_thread_ref_data ref_write_ok refs d in
  unwrap_ok res ≫= λ _, Ok (refs, ids ++ [data_block_identifier d]).

Definition mark_ref_data (states : Repository NackData) (b : BlockIdentifier) : result (Repository NackData) :=
  match get (repo_get states b) has_cross_thread_ref_data_prepared with
  | Some _ => Ok states
  | None =>
      unwrap_ok (generated_setter (repo_get states b) has_cross_thread_ref_data_prepared true) ≫= λ s,
      Ok (<[b := s]> states)
  end.

Definition set_state_from_snapshot (fuel : nat) w (snapshot : list Z) (cur_thread_id : ThreadIdentifier) (now : Z) :
    option (result SyncWorld) :=
  match
    ok_or (bincode_deserialize (A := Snapshot) snapshot) BadSnapshot ≫= λ ts,
    ok_or (bincode_deserialize (A := St) (sn_optimistic_state ts)) BadState ≫= λ s,
    lift (store_optimistic to_file write_ok (sw_repo w) s) ≫= λ r,
    accept_state r s ts cur_thread_id now ≫= λ r,
    let block := data (sn_finalized_block ts) in
    let r := note_saved r (get_thread_id s) (cb_seq_no block) (cb_identifier block) in
    ensure (write_messages (sn_db_messages ts)) MessagesFailed ≫= λ _,
    fold_outcome accept_ref_data (sw_refs w, []) (sn_cross_thread_ref_data ts) ≫= λ '(refs, ids),
    fold_outcome mark_ref_data (sr_block_states r) ids ≫= λ states,
    Ok (ts, refs, mkStateRepo states (sr_metadatas r) (sr_saved_states r) (sr_finalized_state r) (sr_cache r) (sr_files r)
          (sr_finalized_blocks r) (sr_unfinalized r) (sr_block_files r) (sr_state_files r) (sr_events r))
  with
  | Err e => Some (Err e)
  | Panic => Some Panic
  | Ok (ts, refs, r) =>
      finalized ← finalize_synced_block fuel r ts;
      Some (finalized ≫= λ r, Ok (mkSyncWorld r refs (sw_messages w ++ [sn_db_messages ts])))
  end.
End snapshot.

(** ** A node starts from the snapshot of another *)
Section sync_theorems.
Context `{Blst} {NackData : Type} `{EqDecision NackData} {St : Type} `{!OptimisticStateOps St}.
Context {Payload D C : Type} `{LruCache C BlockIdentifier (option (CrossThreadRefData Payload))}.
Context `{Serialize St} `{Deserialize St} `{Serialize (ThreadSnapshot Payload D)} `{Deserialize (ThreadSnapshot Payload D)}.
Variable set_iter : gset BlockIdentifier → list BlockIdentifier.
Hypothesis set_iter_perm : ∀ X, set_iter X ≡ₚ elements X.
Variable hash_of : Envelope CandidateBlock → EnvelopeHash.
Implicit Types (s : AckiNackiBlockState NackData) (states : Repository NackData) (ts : ThreadSnapshot Payload D).

(** The fact [f] can still be given the value [v]. *)
Definition open_for s (f : fact) (v : fact_type f) : Prop := get s f = None ∨ get s f = Some v.

Lemma setter_open s f v : open_for s f v →
  ∃ s', generated_setter s f v = Ok s' ∧ get s' f = Some v ∧ (∀ f', f' ≠ f → get s' f' = get s f') ∧
    known_children_map s' = known_children_map s.
Proof.
  intros Hopen. unfold generated_setter. case_decide as Hd; [by exists s|].
  destruct Hopen as [Hn|Hn]; [|done]. rewrite Hn. eexists.
  split; [by destruct (fact_setter f)|]. simpl. split; [apply set_fact_eq|]. split; [|done].
  intros f' Hne. by rewrite set_fact_ne.
Qed.

(** What the snapshot says of its block agrees with what the node knows of it. *)
Record acceptable s ts (time : Z) : Prop := {
  ac_time : cb_time (data (sn_finalized_block ts)) = Some time;
  ac_thread : open_for s thread_identifier (cb_thread_id (data (sn_finalized_block ts)));
  ac_producer : open_for s producer (cb_producer_id (data (sn_finalized_block ts)));
  ac_seq_no : open_for s block_seq_no (cb_seq_no (data (sn_finalized_block ts)));
  ac_time_ms : open_for s block_time_ms time;
  ac_checks : open_for s common_checks_passed true;
  ac_signatures : open_for s signatures_verified true;
  ac_bk_set : open_for s bk_set (sn_bk_set ts);
  ac_descendant : open_for s descendant_bk_set (sn_bk_set ts);
  ac_future : open_for s future_bk_set BlockKeeperSet_new;
  ac_descendant_future : open_for s descendant_future_bk_set BlockKeeperSet_new;
  ac_stats : open_for s block_stats (sn_finalized_block_stats ts);
  ac_height : open_for s block_height (sn_block_height ts);
  ac_checkpoints : open_for s ancestor_blocks_finalization_checkpoints (mkCheckpoints ∅ ∅);
  ac_target : open_for s attestation_target (sn_attestation_target ts);
  ac_selector : open_for s producer_selector_data (sn_producer_selector ts);
  ac_finalizes : open_for s finalizes_blocks ∅;
}.

(** The block of the snapshot in the store of a node that accepted it. *)
Record synced s ts : Prop := {
  sy_finalized : get s finalized = Some true;
  sy_thread : get s thread_identifier = Some (cb_thread_id (data (sn_finalized_block ts)));
  sy_seq_no : get s block_seq_no = Some (cb_seq_no (data (sn_finalized_block ts)));
  sy_applied : get s applied = Some true;
  sy_bk_set : get s bk_set = Some (sn_bk_set ts);
  sy_descendant : get s descendant_bk_set = Some (sn_bk_set ts);
  sy_descendant_future : get s descendant_future_bk_set = Some BlockKeeperSet_new;
  sy_stats : get s block_stats = Some (sn_finalized_block_stats ts);
  sy_height : get s block_height = Some (sn_block_height ts);
  sy_target : get s attestation_target = Some (sn_attestation_target ts);
  sy_proof : get s prefinalization_proof = Some (sn_prefinalization_proof ts);
  sy_selector : get s producer_selector_data = Some (sn_producer_selector ts);
}.

Lemma set_applied_get s now f : f ≠ applied → f ≠ applied_start_timestamp → get (set_applied s now) f = get s f.
Proof. intros. unfold set_applied. case_decide; [done|]. simpl. by rewrite !set_fact_ne. Qed.
Lemma set_applied_applied s now : get (set_applied s now) applied = Some true.
Proof. unfold set_applied. case_decide; [done|]. simpl. by rewrite set_fact_ne, set_fact_eq. Qed.
Lemma set_finalized_get s f : f ≠ finalized → get (set_finalized s) f = get s f.
Proof. intros. simpl. by rewrite set_fact_ne. Qed.
Lemma set_stored_get s h f : f ≠ stored → f ≠ envelope_hash → get (set_stored s h) f = get s f.
Proof. intros. unfold set_stored. case_decide; [done|]. simpl. by rewrite !set_fact_ne. Qed.
Lemma set_prefinalized_get s p f : f ≠ prefinalized → f ≠ prefinalization_proof → get (set_prefinalized s p) f = get s f.
Proof. intros. simpl. by rewrite !set_fact_ne. Qed.
Lemma set_applied_children s now : known_children_map (set_applied s now) = known_children_map s.
Proof. unfold set_applied. by case_decide. Qed.
Lemma set_stored_children s h : known_children_map (set_stored s h) = known_children_map s.
Proof. unfold set_stored. by case_decide. Qed.

(** Rewrite a fact back through the setters to where it was written. *)
Ltac trace_fact :=
  repeat first
    [ rewrite set_applied_get by done | rewrite set_finalized_get by done | rewrite set_stored_get by done
    | rewrite set_prefinalized_get by done
    | match goal with
      | V : get ?s ?f = Some _ |- context [get ?s ?f] => rewrite V
      | F : (∀ f', f' ≠ _ → get ?s f' = get _ f') |- context [get ?s _] => rewrite F by done
      end ].
Ltac set_next :=
  match goal with
  | |- context [generated_setter ?s ?f ?v] =>
      let s' := fresh "s" in let V := fresh "V" in let F := fresh "F" in let Ch := fresh "Ch" in
      destruct (setter_open s f v) as (s' & -> & V & F & Ch);
      [unfold open_for; trace_fact; assumption|]; cbn [unwrap_ok mbind outcome_bind]
  end.

Lemma synced_block_state_ok s ts now time : acceptable s ts time →
  ∃ s', synced_block_state hash_of s ts now = Ok s' ∧ synced s' ts ∧ known_children_map s' = known_children_map s ∧
    get s' invalidated = get s invalidated.
Proof.
  intros [Htime]. unfold synced_block_state. do 3 set_next. rewrite Htime. cbn [unwrap mbind outcome_bind].
  do 13 set_next. eexists. split; [done|].
  assert (∀ s now, get (set_finalized s) finalized = Some true) as Hf by (intros; simpl; by rewrite set_fact_eq).
  assert (∀ s p, get (set_prefinalized s p) prefinalization_proof = Some p) as Hp by (intros; simpl; by rewrite set_fact_eq).
  split; [constructor; trace_fact; auto using set_applied_applied|].
  split; [|by trace_fact].
  repeat first
    [ rewrite set_applied_children | rewrite set_stored_children
    | match goal with Ch : known_children_map ?s = _ |- context [known_children_map ?s] => rewrite Ch end
    | progress cbn [set_finalized set_prefinalized notify_changed with_fact known_children_map] ]; done.
Qed.

(** Linking to a parent that is not invalidated only tells the child about its parent. *)
Lemma do_link_ok states parent child t :
  get (repo_get states child) thread_identifier = Some t → is_invalidated (repo_get states parent) = false → parent ≠ child →
  ∃ states', do_link set_iter states parent child = Ok states' ∧
    ∀ f, f ≠ parent_block_identifier → f ≠ has_parent_finalized →
      get (repo_get states' child) f = get (repo_get states child) f.
Proof.
  intros Ht Hinv Hne. unfold do_link. rewrite Ht. cbn [unwrap mbind outcome_bind].
  set (r1 := repo_update states parent _).
  assert (is_invalidated (repo_get r1 parent) = false) as ->.
  { rewrite <- Hinv. apply repo_update_is_set. intros. by rewrite add_child_get. }
  cbn [andb mbind outcome_bind]. set (r3 := repo_update r1 child _).
  assert (∀ f, f ≠ parent_block_identifier → get (repo_get r3 child) f = get (repo_get states child) f) as Hr3.
  { intros f Hf. unfold r3. rewrite repo_update_eq. simpl. rewrite set_fact_ne by done. unfold r1.
    by rewrite repo_update_ne. }
  destruct (is_finalized (repo_get r1 parent)); [|exists r3; auto].
  destruct (setter_has_parent (repo_get r3 child)) as (s' & -> & _ & Hoth & _). cbn [mbind outcome_bind].
  eexists. split; [done|]. intros f Hf Hf'. rewrite repo_insert_get, decide_True by done. rewrite Hoth by done. auto.
Qed.

Lemma synced_frame s s' ts : synced s ts →
  (∀ f, f ≠ parent_block_identifier → f ≠ has_parent_finalized → f ≠ has_cross_thread_ref_data_prepared → get s' f = get s f) →
  synced s' ts.
Proof. intros [] Hf. constructor; by rewrite Hf. Qed.

Lemma update_block_state_ok states ts cur now time :
  let block := data (sn_finalized_block ts) in
  let s := repo_get states (cb_identifier block) in
  acceptable s ts time → known_children s cur = None → is_invalidated (repo_get states (cb_parent block)) = false →
  cb_parent block ≠ cb_identifier block →
  ∃ states', update_block_state set_iter hash_of states ts cur now = Ok states' ∧
    synced (repo_get states' (cb_identifier block)) ts.
Proof.
  intros block s Hac Hch Hinv Hne. unfold update_block_state.
  destruct (synced_block_state_ok s ts now time Hac) as (s1 & Hs1 & Hsy & Hkc & _).
  fold block s. rewrite Hs1. cbn [mbind outcome_bind]. unfold known_children in *. rewrite Hkc, Hch. cbn [default].
  assert (set_iter ∅ = []) as -> by (apply Permutation_nil_r; rewrite set_iter_perm; by rewrite elements_empty).
  cbn [fold_outcome mbind outcome_bind].
  destruct (do_link_ok (<[cb_identifier block := s1]> states) (cb_parent block) (cb_identifier block) (cb_thread_id block))
    as (states' & -> & Hframe).
  { rewrite repo_insert_get, decide_True by done. apply (sy_thread _ _ Hsy). }
  { by rewrite repo_insert_get, decide_False. }
  { done. }
  cbn [unwrap_ok mbind outcome_bind].
  assert (synced (repo_get states' (cb_identifier block)) ts) as Hsy'.
  { eapply synced_frame; [exact Hsy|]. intros f Hf1 Hf2 _. rewrite Hframe by done.
    by rewrite repo_insert_get, decide_True. }
  exists states'. split; [|done]. unfold set_descendant_bk_set.
  rewrite (sy_descendant _ _ Hsy'), (sy_descendant_future _ _ Hsy'). done.
Qed.

Lemma mark_ref_data_one states c ts b : synced (repo_get states b) ts →
  ∃ states', mark_ref_data states c = Ok states' ∧ synced (repo_get states' b) ts.
Proof.
  intros Hs. unfold mark_ref_data.
  destruct (get (repo_get states c) has_cross_thread_ref_data_prepared) eqn:Hc; [eauto|].
  destruct (setter_open (repo_get states c) has_cross_thread_ref_data_prepared true) as (s' & -> & _ & Hf & _); [by left|].
  cbn [unwrap_ok mbind outcome_bind]. eexists. split; [done|]. rewrite repo_insert_get. case_decide as Hcb; [|done]. subst c.
  eapply synced_frame; [exact Hs|]. intros. by apply Hf.
Qed.

Lemma mark_ref_data_ok states ids ts b : synced (repo_get states b) ts →
  ∃ states', fold_outcome mark_ref_data states ids = Ok states' ∧ synced (repo_get states' b) ts.
Proof.
  revert states. induction ids as [|c ids IH]; intros states Hs; [by exists states|]. cbn [fold_outcome].
  destruct (mark_ref_data_one states c ts b Hs) as (states' & -> & Hs'). by apply IH.
Qed.

Lemma accept_ref_data_ok ref_write_ok (refs : RefStore Payload C) ids l : (∀ b, ref_write_ok b = true) →
  ∃ refs', fold_outcome (accept_ref_data ref_write_ok) (refs, ids) l = Ok (refs', ids ++ (data_block_identifier <$> l)).
Proof.
  intros Hw. revert refs ids. induction l as [|d l IH]; intros refs ids; [eexists; by rewrite app_nil_r|].
  cbn [fold_outcome].
  assert (∃ refs', accept_ref_data ref_write_ok (refs, ids) d = Ok (refs', ids ++ [data_block_identifier d])) as [refs' ->].
  { unfold accept_ref_data, set_cross_thread_ref_data. rewrite Hw. destruct (lru_get _ _) as [? [[?|]|]]; eauto. }
  cbn [mbind outcome_bind]. destruct (IH refs' (ids ++ [data_block_identifier d])) as [refs2 ->].
  eexists. by rewrite <- (assoc_L (++)).
Qed.
End sync_theorems.

Section start.
Context `{Blst} {NackData : Type} `{EqDecision NackData} {St : Type} `{!OptimisticStateOps St}.
Context {Payload D C : Type} `{LruCache C BlockIdentifier (option (CrossThreadRefData Payload))}.
Context `{Serialize St} `{Deserialize St} `{Codec (ThreadSnapshot Payload D)}.
(** The state that is read back from what was written: not every field of a state is
    serialized ([reread_impl] for the implementation), but what names it is. *)
Variable reread : St → St.
Hypothesis state_codec : ∀ s bytes, bincode_serialize s = Some bytes → bincode_deserialize bytes = Some (reread s).
Hypothesis reread_names : ∀ s, get_block_id (reread s) = get_block_id s ∧
  get_block_seq_no (reread s) = get_block_seq_no s ∧ get_thread_id (reread s) = get_thread_id s.
Variable set_iter : gset BlockIdentifier → list BlockIdentifier.
Hypothesis set_iter_perm : ∀ X, set_iter X ≡ₚ elements X.
Variable thread_iter : gset ThreadIdentifier → list ThreadIdentifier.
Variable has_zerostate : bool.
Variable load_zerostate : ThreadIdentifier → option St.
Variable zero : St.
Variable to_file load_all_accounts : St → outcome RepositoryError St.
Variable split_state : bool.
Variable ref_write_ok ref_readable : BlockIdentifier → bool.
Variable db_messages : St → D.
Variable write_messages : D → bool.
Variable sync_accounts : St → bool.
Variable hash_of : Envelope CandidateBlock → EnvelopeHash.
Implicit Types (r : StateRepo NackData St) (s : St) (ts : ThreadSnapshot Payload D) (w : SyncWorld (NackData := NackData) (St := St) (Payload := Payload) (D := D) (C := C)).
Notation get_state := (get_optimistic_state thread_iter has_zerostate load_zerostate zero).

Lemma make_snapshot_inv w s w' bytes : make_snapshot thread_iter ref_readable db_messages w s = (w', Ok bytes) →
  let e := repo_get (sr_block_states (sw_repo w)) (get_block_id s) in
  ∃ ts, bincode_deserialize bytes = Some ts ∧ bincode_deserialize (sn_optimistic_state ts) = Some (reread s) ∧
    sn_db_messages ts = db_messages s ∧
    get_finalized_block thread_iter (sw_repo w) (get_block_id s) = Some (sn_finalized_block ts) ∧
    get e bk_set = Some (sn_bk_set ts) ∧ get e block_stats = Some (sn_finalized_block_stats ts) ∧
    get e attestation_target = Some (sn_attestation_target ts) ∧ get e producer_selector_data = Some (sn_producer_selector ts) ∧
    get e block_height = Some (sn_block_height ts) ∧ get e prefinalization_proof = Some (sn_prefinalization_proof ts).
Proof.
  intros Hm e. unfold make_snapshot in Hm. fold e in Hm.
  destruct (bincode_serialize s) as [sb|] eqn:Hs; [|by injection Hm].
  destruct (get_history_tail _ _ _) as [refs history]. injection Hm as _ Hm.
  destruct history as [history| |]; [|done..].
  destruct (get_finalized_block _ _ _) as [block|] eqn:Hb; [|done]. cbn [ok_or mbind outcome_bind] in Hm.
  destruct (get e bk_set) as [v1|], (get e block_stats) as [v2|], (get e attestation_target) as [v3|],
    (get e producer_selector_data) as [v4|], (get e block_height) as [v5|], (get e prefinalization_proof) as [v6|];
    try discriminate Hm.
  destruct (bincode_serialize (mkThreadSnapshot _ _ _ _ _ _ _ _ _ _)) as [sb'|] eqn:Hts; [|done]. injection Hm as ->.
  eexists. split; [by apply decode_encode|]. cbn [sn_optimistic_state]. by rewrite (state_codec _ _ Hs).
Qed.

(** The repository while the snapshot is accepted: the state is cached for its block. *)
Record holds r s : Prop := {
  ho_cache : sr_cache r !! get_block_id s = Some s;
  ho_storage : storage_wf (sr_finalized_blocks r);
}.

Lemma get_held fuel r s t min : holds r s → get_state (S fuel) r (get_block_id s) t min = Some (r, Ok (Some s)).
Proof. intros [Hc _]. simpl. by rewrite Hc. Qed.

Lemma store_held r s copy : sr_metadatas r !! get_thread_id s = None → to_file s = Ok copy →
  storage_wf (sr_finalized_blocks r) →
  ∃ r', store_optimistic to_file true r s = Ok r' ∧ holds r' s ∧ sr_metadatas r' = sr_metadatas r ∧
    sr_finalized_state r' = sr_finalized_state r ∧ sr_block_states r' = sr_block_states r ∧ sr_events r' = sr_events r.
Proof.
  intros Hm Hf Hst. unfold store_optimistic.
  assert (∀ r', sr_metadatas r' !! get_thread_id s = None → clear_optimistic_states r' (get_thread_id s) = r') as Hclear.
  { intros r' Hr'. unfold clear_optimistic_states, select_thread_last_finalized_block, get_metadata_for_thread. by rewrite Hr'. }
  unfold store_optimistic_in_cache. rewrite !Hclear by done.
  case_bool_decide.
  - eexists. split; [done|]. split; [|done]. split; [cbn [with_cache sr_cache]; by rewrite lookup_insert_eq|done].
  - rewrite Hf. cbn [mbind outcome_bind ensure].
    eexists. split; [done|]. split; [|done]. split; [cbn [with_cache sr_cache]; by rewrite lookup_insert_eq|done].
Qed.

Lemma mark_synced fuel r s ts m : holds r s → synced (repo_get (sr_block_states r) (get_block_id s)) ts →
  let block := sn_finalized_block ts in
  cb_identifier (data block) = get_block_id s → cb_thread_id (data block) = get_thread_id s →
  sr_finalized_state r !! get_thread_id s = Some s →
  sr_metadatas r !! get_thread_id s = Some m → last_finalized_block_seq_no m = cb_seq_no (data block) →
  ∃ r', mark_finalized thread_iter has_zerostate load_zerostate zero load_all_accounts true false split_state false fuel r
          block = Some (Ok r') ∧
    holds r' s ∧ synced (repo_get (sr_block_states r') (get_block_id s)) ts ∧
    sr_metadatas r' !! get_thread_id s = Some m ∧ sr_events r' = sr_events r.
Proof.
  intros [Hc Hst] Hsy block Hb Ht Hfin Hm Hn. unfold mark_finalized, mark_block_as_finalized.
  cbn [states last_block_attestations metadatas finalized_blocks events]. rewrite Hb, Ht.
  destruct (storage_store_total thread_iter (sr_finalized_blocks r) (get_block_id s) block Hst) as (f' & -> & Hf').
  cbn [mbind outcome_bind].
  set (states' := repo_update (sr_block_states r) (get_block_id s) _).
  assert (repo_get states' (get_block_id s) = repo_get (sr_block_states r) (get_block_id s)) as Hsame.
  { unfold states'. rewrite repo_update_eq. unfold is_finalized, is_set. by rewrite (sy_finalized _ _ Hsy). }
  rewrite Hsame, (sy_seq_no _ _ Hsy), Hm. cbn [unwrap ok_or ensure mbind outcome_bind states metadatas finalized_blocks].
  rewrite Hsame, (sy_seq_no _ _ Hsy). unfold advance_finalized_state. cbn [sr_finalized_state]. rewrite Ht, Hfin, Hb.
  rewrite bool_decide_false by tauto. cbn [andb].
  eexists. split; [done|]. cbn [sr_cache sr_block_states sr_metadatas sr_events]. rewrite Hsame.
  split; [done|]. split; [done|]. split; [|done]. rewrite lookup_insert_eq. f_equal.
  unfold update_metadata. fold block. rewrite Hn, bool_decide_false by lia. done.
Qed.

Lemma finalize_synced_ok fuel r s ts : holds r s → synced (repo_get (sr_block_states r) (get_block_id s)) ts →
  let block := sn_finalized_block ts in
  cb_identifier (data block) = get_block_id s → cb_thread_id (data block) = get_thread_id s →
  cb_seq_no (data block) = get_block_seq_no s →
  sr_finalized_state r !! get_thread_id s = Some s → sr_metadatas r !! get_thread_id s = None →
  ∃ r', finalize_synced_block thread_iter has_zerostate load_zerostate zero load_all_accounts true false split_state
          (S fuel) r ts = Some (Ok r') ∧
    holds r' s ∧ synced (repo_get (sr_block_states r') (get_block_id s)) ts ∧
    select_thread_last_finalized_block r' (get_thread_id s) = Some (get_block_id s, get_block_seq_no s) ∧
    ThreadJoined (get_thread_id s) ∈ sr_events r'.
Proof.
  intros Hh Hsy block Hb Ht Hn Hfin Hm. unfold finalize_synced_block. fold block. rewrite Hb, Ht, Hm. unfold init_thread.
  rewrite Hm. rewrite bool_decide_true by (unfold is_block_finalized, is_finalized, is_set; rewrite (sy_finalized _ _ Hsy); done).
  rewrite get_held by done. cbn [mbind option_bind outcome_bind ok_or].
  unfold keep_newer_state at 1. rewrite Hfin, bool_decide_true by lia.
  cbn [ensure mbind outcome_bind lift].
  set (m := mkMetadata (get_block_id s) (get_block_seq_no s) None). set (r1 := with_metadatas _ _). set (r2 := with_repo_event _ _).
  assert (holds r2 s) as Hh2 by (by destruct Hh).
  destruct (mark_synced (S fuel) r2 s ts m Hh2) as (r3 & Hr3 & Hh3 & Hsy3 & Hm3 & He3); [done..| | |by symmetry|].
  { cbn. by rewrite lookup_insert_eq. }
  { cbn. by rewrite lookup_insert_eq. }
  fold block in Hr3. rewrite Hr3. cbn [mbind option_bind lift]. rewrite get_held by done. cbn [mbind option_bind outcome_bind lift unwrap].
  unfold get_metadata_for_thread. rewrite Hm3. cbn [ok_or lift mbind outcome_bind].
  eexists. split; [done|]. split; [by destruct Hh3|]. split; [done|]. split.
  - unfold select_thread_last_finalized_block, get_metadata_for_thread. cbn [with_repo_event sr_metadatas]. by rewrite Hm3.
  - cbn [with_repo_event sr_events]. rewrite He3. unfold r2. cbn [with_repo_event sr_events]. set_solver.
Qed.

(** What accepting a snapshot does, for the state [s] that is read from it. *)
Lemma snapshot_accepted w2 ts s bytes copy time cur now fuel :
  bincode_deserialize bytes = Some ts → bincode_deserialize (sn_optimistic_state ts) = Some s →
  let block := sn_finalized_block ts in
  let b := get_block_id s in
  let t := get_thread_id s in
  cb_identifier (data block) = b → cb_thread_id (data block) = t → cb_seq_no (data block) = get_block_seq_no s →
  cb_time (data block) = Some time → cb_parent (data block) ≠ b →
  sr_metadatas (sw_repo w2) !! t = None → sr_finalized_state (sw_repo w2) !! t = None →
  repo_get (sr_block_states (sw_repo w2)) b = AckiNackiBlockState_new b →
  is_invalidated (repo_get (sr_block_states (sw_repo w2)) (cb_parent (data block))) = false →
  storage_wf (sr_finalized_blocks (sw_repo w2)) →
  to_file s = Ok copy → write_messages (sn_db_messages ts) = true → (∀ c, ref_write_ok c = true) →
  ∃ w2', set_state_from_snapshot set_iter thread_iter has_zerostate load_zerostate zero to_file load_all_accounts true false
           split_state ref_write_ok write_messages sync_accounts hash_of (S fuel) w2 bytes cur now = Some (Ok w2') ∧
    select_thread_last_finalized_block (sw_repo w2') t = Some (b, get_block_seq_no s) ∧ holds (sw_repo w2') s ∧
    ThreadJoined t ∈ sr_events (sw_repo w2') ∧ synced (repo_get (sr_block_states (sw_repo w2')) b) ts.
Proof.
  intros Hts Hs block b t Hb Ht Hn Htime Hpar Hm Hfin Hnew Hinv Hst Hcopy Hmsg Href.
  unfold set_state_from_snapshot. rewrite Hts. cbn [ok_or mbind outcome_bind]. rewrite Hs. cbn [ok_or mbind outcome_bind].
  destruct (store_held (sw_repo w2) s copy Hm Hcopy Hst) as (r1 & -> & Hh1 & Hm1 & Hf1 & Hst1 & He1). cbn [lift mbind outcome_bind].
  unfold accept_state. rewrite Hf1. fold t. rewrite Hfin.
  destruct (update_block_state_ok set_iter set_iter_perm hash_of (sr_block_states r1) ts cur now time) as (states & Hup & Hsy).
  { fold block. rewrite Hst1, Hb, Hnew. constructor; [done|..]; by left. }
  { fold block. by rewrite Hst1, Hb, Hnew. }
  { by rewrite Hst1. }
  { fold block. by rewrite Hb. }
  cbn [with_finalized_state sr_block_states]. rewrite Hup. cbn [mbind outcome_bind]. rewrite Hmsg.
  cbn [ensure mbind outcome_bind].
  destruct (accept_ref_data_ok ref_write_ok (sw_refs w2) [] (sn_cross_thread_ref_data ts) Href) as (refs & ->).
  cbn [mbind outcome_bind note_saved sr_block_states].
  destruct (mark_ref_data_ok states ([] ++ (data_block_identifier <$> sn_cross_thread_ref_data ts)) ts b) as (states' & -> & Hsy').
  { by rewrite <- Hb. }
  cbn [mbind outcome_bind]. set (r2 := mkStateRepo states' _ _ _ _ _ _ _ _ _ _).
  destruct (finalize_synced_ok fuel r2 s ts) as (r3 & -> & Hh3 & Hsy3 & Hlast & Hjoin);
    [by destruct Hh1|done|done|done|done|by apply lookup_insert_eq|by cbn; rewrite Hm1|].
  cbn [mbind option_bind outcome_bind]. eexists. by split.
Qed.

(** C20 (state sync): a node that knows nothing of a thread starts from the snapshot that
    another node writes.  Accepting the bytes ends without error; then the last finalized block of
    the thread is the block of the snapshot, the repository returns for it the shared state as it is
    read back from the bytes (the records of changed and cached accounts are not serialized), the
    block is final, the router is told to join the thread, and the keeper set, the statistics,
    the attestation targets, the producer selector, the height and the proof of prefinalization of
    the block are those of the node that wrote the snapshot.  Assumed: the written block names
    the block, thread and number of the state, the writes succeed, and the node that starts has
    neither state nor metadata of the thread nor a record of the block. *)
Theorem snapshot_starts_node w1 w1' w2 s bytes block copy time cur now fuel :
  make_snapshot thread_iter ref_readable db_messages w1 s = (w1', Ok bytes) →
  get_finalized_block thread_iter (sw_repo w1) (get_block_id s) = Some block →
  let b := get_block_id s in
  let t := get_thread_id s in
  cb_identifier (data block) = b → cb_thread_id (data block) = t → cb_seq_no (data block) = get_block_seq_no s →
  cb_time (data block) = Some time → cb_parent (data block) ≠ b →
  sr_metadatas (sw_repo w2) !! t = None → sr_finalized_state (sw_repo w2) !! t = None →
  repo_get (sr_block_states (sw_repo w2)) b = AckiNackiBlockState_new b →
  is_invalidated (repo_get (sr_block_states (sw_repo w2)) (cb_parent (data block))) = false →
  storage_wf (sr_finalized_blocks (sw_repo w2)) →
  to_file (reread s) = Ok copy → write_messages (db_messages s) = true → (∀ c, ref_write_ok c = true) →
  ∃ w2', set_state_from_snapshot set_iter thread_iter has_zerostate load_zerostate zero to_file load_all_accounts true false
           split_state ref_write_ok write_messages sync_accounts hash_of (S fuel) w2 bytes cur now = Some (Ok w2') ∧
    select_thread_last_finalized_block (sw_repo w2') t = Some (b, get_block_seq_no s) ∧
    (∀ fuel' t' min, get_state (S fuel') (sw_repo w2') b t' min = Some (sw_repo w2', Ok (Some (reread s)))) ∧
    is_finalized (repo_get (sr_block_states (sw_repo w2')) b) = true ∧
    ThreadJoined t ∈ sr_events (sw_repo w2') ∧
    Forall (λ f, get (repo_get (sr_block_states (sw_repo w2')) b) f = get (repo_get (sr_block_states (sw_repo w1)) b) f)
      [bk_set; block_stats; attestation_target; producer_selector_data; block_height; prefinalization_proof].
Proof.
  intros Hmake Hblock b t Hb Ht Hn Htime Hpar Hm Hfin Hnew Hinv Hst Hcopy Hmsg Href.
  destruct (make_snapshot_inv w1 s w1' bytes Hmake) as (ts & Hts & Hs & Hdb & Hblock' & Hfacts).
  rewrite Hblock in Hblock'. injection Hblock' as ->. destruct (reread_names s) as (Eb & En & Et).
  destruct (snapshot_accepted w2 ts (reread s) bytes copy time cur now fuel Hts Hs)
    as (w2' & Hw & Hlast & Hh & Hjoin & Hsy);
    rewrite ?Eb, ?En, ?Et, ?Hdb; fold b; fold t; try done.
  rewrite Eb in Hlast, Hsy. rewrite En, Et in Hlast. rewrite Et in Hjoin. fold b in Hsy.
  exists w2'. split; [done|]. split; [done|].
  split; [intros; unfold b; rewrite <- Eb; by apply get_held|].
  split; [unfold is_finalized, is_set; by rewrite (sy_finalized _ _ Hsy)|].
  split; [done|]. destruct Hsy, Hfacts as (? & ? & ? & ? & ? & ?). unfold b in *. repeat constructor; congruence.
Qed.
End start.

(** ** What the snapshot leaves behind *)
Section stale.
Context `{Blst} {NackData : Type} `{EqDecision NackData} {Payload D : Type}.
Variable set_iter : gset BlockIdentifier → list BlockIdentifier.
Hypothesis set_iter_perm : ∀ X, set_iter X ≡ₚ elements X.
Variable hash_of : Envelope CandidateBlock → EnvelopeHash.
Implicit Types (s : AckiNackiBlockState NackData) (ts : ThreadSnapshot Payload D).

(** The keepers that sign the descendants of the block of a snapshot are, for the node that
    accepted it, those of the block itself: the changes the block makes to the set are lost. *)
Lemma synced_descendants_ignore_changes states ts cur now time :
  let block := data (sn_finalized_block ts) in
  let s := repo_get states (cb_identifier block) in
  acceptable s ts time → known_children s cur = None → is_invalidated (repo_get states (cb_parent block)) = false →
  cb_parent block ≠ cb_identifier block →
  ∃ states', update_block_state (NackData := NackData) set_iter hash_of states ts cur now = Ok states' ∧
    get (repo_get states' (cb_identifier block)) descendant_bk_set = Some (sn_bk_set ts) ∧
    get (repo_get states' (cb_identifier block)) descendant_future_bk_set = Some BlockKeeperSet_new.
Proof.
  intros block s Hac Hch Hinv Hne.
  destruct (update_block_state_ok set_iter set_iter_perm hash_of states ts cur now time Hac Hch Hinv Hne) as (states' & Hup & []).
  eauto.
Qed.

(** A node that has already derived finalization checkpoints for the block of the snapshot
    cannot accept it. *)
Lemma processed_block_rejects_snapshot s ts now c :
  get s ancestor_blocks_finalization_checkpoints = Some c → c ≠ mkCheckpoints ∅ ∅ →
  ∀ s', synced_block_state hash_of s ts now ≠ Ok s'.
Proof.
  intros Hc Hne s' Hs. unfold synced_block_state in Hs. inv_outcome.
  repeat match goal with
  | Hx : unwrap_ok _ = Ok _ |- _ => apply unwrap_ok_inv in Hx
  | Hx : generated_setter _ ancestor_blocks_finalization_checkpoints _ = _ |- _ =>
      unfold generated_setter in Hx; case_decide as Hsame
  | Hx : generated_setter _ _ _ = Ok ?s2 |- _ =>
      pose proof (generated_setter_frame _ _ _ _ ancestor_blocks_finalization_checkpoints Hx ltac:(done)); clear Hx
  | Hx : context [get (set_stored ?x ?h) ?f] |- _ => rewrite (set_stored_get x h f) in Hx by done
  | Hx : context [get (set_applied ?x ?t) ?f] |- _ => rewrite (set_applied_get x t f) in Hx by done
  | Hx : context [get (set_finalized ?x) ?f] |- _ => rewrite (set_finalized_get x f) in Hx by done
  end; [congruence|]. repeat case_match; simplify_eq; congruence.
Qed.
End stale.

(** ** Evaluation *)
(** A cache of a fixed size: a list, the most recently used first. *)
Section RecentList.
Context {K V : Type} `{Countable K} (capacity : nat).
Implicit Types (c : list (K * V)) (k : K) (v : V).

Definition without c k : list (K * V) := filter (λ e, e.1 ≠ k) c.
Definition recent_held c k : option V := (list_to_map c : gmap K V) !! k.
#[local] Instance recent_cache : LruCache (list (K * V)) K V := {|
  lru_get := λ c k, match recent_held c k with Some v => ((k, v) :: without c k, Some v) | None => (c, None) end;
  lru_put := λ c k v, take (S capacity) ((k, v) :: without c k);
  lru_held := recent_held;
|}.

Lemma held_cons c k v k' : recent_held ((k, v) :: c) k' = if decide (k' = k) then Some v else recent_held c k'.
Proof. unfold recent_held. simpl. case_decide as Hk; [subst; by rewrite lookup_insert_eq|by rewrite lookup_insert_ne]. Qed.

Lemma without_held c k k' : recent_held (without c k) k' = if decide (k' = k) then None else recent_held c k'.
Proof.
  unfold without. induction c as [|[k0 v0] c IH]; [by case_decide|].
  destruct (decide (k0 = k)) as [->|Hk0].
  - rewrite filter_cons_False by (cbn; tauto). rewrite held_cons, IH. by repeat case_decide.
  - rewrite filter_cons_True by done. rewrite !held_cons, IH. repeat case_decide; congruence.
Qed.

Lemma take_held n c k : recent_held (take n c) k = None ∨ recent_held (take n c) k = recent_held c k.
Proof.
  revert n. induction c as [|[k0 v0] c IH]; intros [|n]; cbn [take]; [by auto..|].
  rewrite !held_cons. case_decide; auto.
Qed.

Lemma recent_laws : LruLaws (list (K * V)) K V.
Proof.
  constructor; cbn [lru_get lru_put lru_held recent_cache]; intros c k.
  - by destruct (recent_held c k).
  - intros k'. destruct (recent_held c k) eqn:Hk; [|done]. cbn [fst]. rewrite held_cons, without_held.
    case_decide; [by subst|done].
  - intros v. cbn [take]. rewrite held_cons. by rewrite decide_True.
  - intros v k' Hne. cbn [take]. rewrite !held_cons, !decide_False by done.
    destruct (take_held capacity (without c k) k') as [-> | ->]; [by left|right]. by rewrite without_held, decide_False.
Qed.
End RecentList.

Section SnapshotExample.
#[local] Existing Instance LinearBlst.
#[local] Existing Instance trace_ops.
Notation Data := (CrossThreadRefData unit).
(** Room for two entries. *)
#[local] Instance small_cache : LruCache (list (BlockIdentifier * option Data)) BlockIdentifier (option Data) := recent_cache 1.
#[local] Instance small_laws : LruLaws (list (BlockIdentifier * option Data)) BlockIdentifier (option Data).
Proof. apply recent_laws. Qed.

Definition chain_data (n : Z) : Data :=
  mkCrossThreadRefData (example_block n) n example_thread tt [] (example_block (n - 1)) [].
Definition known_data (b : BlockIdentifier) : option Data :=
  (list_to_map ((λ n, (example_block n, chain_data n)) <$> [1; 2; 3]%Z) : gmap BlockIdentifier Data) !! b.
Definition data_ops : list (RefOp (Payload := unit)) :=
  [GetData (example_block 2); SetData (chain_data 1); SetData (chain_data 2); SetData (chain_data 3);
   GetData (example_block 1); SetData (chain_data 1); GetHistory (example_block 3)].

Lemma ref_data_cache_is_invisible_witness :
  run_ref_ops (ref_op (λ _, true) (λ _, true)) (mkRefStore [] ∅) data_ops = run_ref_ops ref_spec ∅ data_ops ∧
  run_ref_ops ref_spec ∅ data_ops =
    [Err tt; Ok []; Ok []; Ok []; Ok [chain_data 1]; Ok []; Ok [chain_data 3; chain_data 2; chain_data 1]].
Proof.
  split; [|vm_compute; reflexivity].
  apply (ref_data_cache_is_invisible known_data); [|apply map_Forall_empty|done|done|].
  - split; [done|apply map_Forall_empty|]. intros id o. done.
  - repeat constructor; vm_compute; reflexivity.
Defined.

(** A node whose last finalized block is the first of the chain. *)
Definition first_state : TraceState := mkTrace (example_block 1) 1 [example_block 1].
Definition first_block_state : AckiNackiBlockState unit :=
  let s := AckiNackiBlockState_new (example_block 1) in
  let s := with_fact s bk_set BlockKeeperSet_new in
  let s := with_fact s block_stats (BlockStatistics_zero 3 5) in
  let s := with_fact s attestation_target example_targets in
  let s := with_fact s producer_selector_data example_selector in
  let s := with_fact s block_height (BlockProcessor.example_height 1) in
  with_fact s prefinalization_proof parent_attestation.
Definition first_storage : FinalizedBlockStorage :=
  mkStorage 5 {[example_thread := mkFixedSizeHashMap 5 {[example_block 1 := (example_block 1, chain_block 1)]}
    [example_block 1] 0]}.
Definition sender_world : SyncWorld (NackData := unit) (St := TraceState) (Payload := unit) (D := unit)
    (C := list (BlockIdentifier * option Data)) :=
  mkSyncWorld (mkStateRepo {[example_block 1 := first_block_state]} ∅ ∅ ∅ ∅ ∅ first_storage ∅ ∅ ∅ [])
    (mkRefStore [(example_block 1, Some (chain_data 1))] ∅) [].
Definition joining_world : SyncWorld (NackData := unit) (St := TraceState) (Payload := unit) (D := unit)
    (C := list (BlockIdentifier * option Data)) :=
  mkSyncWorld (mkStateRepo ∅ ∅ ∅ ∅ ∅ ∅ (FinalizedBlockStorage_new 5) ∅ ∅ ∅ []) (mkRefStore [] ∅) [].
Definition first_snapshot : ThreadSnapshot unit unit :=
  mkThreadSnapshot [1%Z] [chain_data 1] tt (chain_block 1) BlockKeeperSet_new (BlockStatistics_zero 3 5) example_targets
    example_selector (BlockProcessor.example_height 1) parent_attestation.

(** An encoding that knows these two values. *)
#[local] Instance trace_eq_dec : EqDecision TraceState.
Proof. solve_decision. Defined.
#[local] Instance change_eq_dec : EqDecision BlockKeeperSetChange.
Proof. solve_decision. Defined.
#[local] Instance candidate_eq_dec : EqDecision CandidateBlock.
Proof. solve_decision. Defined.
#[local] Instance data_eq_dec : EqDecision Data.
Proof. solve_decision. Defined.
#[local] Instance snapshot_eq_dec : EqDecision (ThreadSnapshot unit unit).
Proof. solve_decision. Defined.
#[local] Instance encode_state : Serialize TraceState := λ s, if decide (s = first_state) then Some [1%Z] else None.
(** The trace of blocks is not written. *)
Definition reread_trace (s : TraceState) : TraceState := mkTrace (tr_id s) (tr_seq_no s) [].
#[local] Instance decode_state : Deserialize TraceState :=
  λ l, if decide (l = [1%Z]) then Some (reread_trace first_state) else None.
#[local] Instance encode_snapshot : Serialize (ThreadSnapshot unit unit) :=
  λ s, if decide (s = first_snapshot) then Some [2%Z] else None.
#[local] Instance decode_snapshot : Deserialize (ThreadSnapshot unit unit) :=
  λ l, if decide (l = [2%Z]) then Some first_snapshot else None.
Lemma trace_names (s : TraceState) : get_block_id (reread_trace s) = get_block_id s ∧
  get_block_seq_no (reread_trace s) = get_block_seq_no s ∧ get_thread_id (reread_trace s) = get_thread_id s.
Proof. split_and!; reflexivity. Qed.
Lemma trace_codec (s : TraceState) l : bincode_serialize s = Some l → bincode_deserialize l = Some (reread_trace s).
Proof. unfold bincode_serialize, encode_state. case_decide; [|done]. by intros [= <-]; subst. Qed.
#[local] Instance snapshot_codec : Codec (ThreadSnapshot unit unit).
Proof. intros s l. unfold bincode_serialize, encode_snapshot. case_decide; [|done]. by intros [= <-]; subst. Qed.

Lemma first_made : (make_snapshot elements (λ _, true) (λ _, tt) sender_world first_state).2 = Ok [2%Z].
Proof. vm_compute. reflexivity. Qed.

Lemma snapshot_starts_node_witness :
  ∃ w, set_state_from_snapshot elements elements false (λ _, None) trace_zero Ok Ok true false false (λ _, true) (λ _, true)
         (λ _, true) (λ _, []) 3 joining_world [2%Z] example_thread 0 = Some (Ok w) ∧
    select_thread_last_finalized_block (sw_repo w) example_thread = Some (example_block 1, 1%Z) ∧
    get_optimistic_state elements false (λ _, None) trace_zero 1 (sw_repo w) (example_block 1) example_thread None =
      Some (sw_repo w, Ok (Some (reread_trace first_state))).
Proof.
  pose proof first_made as Hm. destruct (make_snapshot _ _ _ sender_world first_state) as [w1' o] eqn:Hmake.
  cbn [snd] in Hm. subst o.
  destruct (snapshot_starts_node reread_trace trace_codec trace_names elements (λ X, reflexivity _) elements false (λ _, None) trace_zero Ok Ok false (λ _, true)
    (λ _, true) (λ _, tt) (λ _, true) (λ _, true) (λ _, []) sender_world w1' joining_world first_state [2%Z]
    (chain_block 1) (reread_trace first_state) 1%Z example_thread 0%Z 2 Hmake) as (w & Hw & Hlast & Hget & _).
  1, 2, 3, 4, 5: vm_compute; reflexivity.
  - vm_compute. discriminate.
  - apply lookup_empty.
  - apply lookup_empty.
  - vm_compute. reflexivity.
  - vm_compute. reflexivity.
  - split; [simpl; lia|apply map_Forall_empty].
  - reflexivity.
  - reflexivity.
  - reflexivity.
  - exists w. split; [exact Hw|]. split; [exact Hlast|apply Hget].
Defined.
End SnapshotExample.
