(* ===== verification/NodeLoop.v ===== *)
(** * The main loop of a node

    Models [node/execution.rs], [node/synchronization.rs], [node/block_processing.rs],
    [node/send.rs], [node/crypto.rs] and [node/block_request_service.rs].  A node handles the
    messages of its thread one after the other: candidates enter the block states and the
    collection of candidates, acks and nacks are checked (Validation.v), attestations are collected
    in bunches, requests for blocks are answered by a service of their own, and a node that has
    fallen behind synchronizes.

    The channel is the list of what is received: a message, or a timeout; at its end the senders
    are gone.  Each iteration of a loop comes with a [Reading] of the clock, of the flags that
    other threads set, and of the progress of the state download.  Sending may fail; what is sent,
    and the calls on other services, are recorded.  [sync_delay] is never set by the code, so its
    branch is dead and left out; metrics and tracing are not modelled. *)
From stdpp Require Import base numbers gmap strings fin_maps sorting list.
From S2P Require Import Prelude Identifiers Bitmask FixedCache Bls BlockKeepers Envelope Attestation Checkpoints Statistics BlockState Collected BlockProcessor Unfinalized Finalization ActionLock AuthoritySwitch NetworkMessage Routing Validation StateRepository.

Record NodeConfig := mkNodeConfig {
  cf_node_id : NodeIdentifier;
  cf_thread_id : ThreadIdentifier;
  cf_min_time_between_state_publish_directives : Z;
  cf_sync_gap : nat;
  cf_need_synchronization_block_diff : Z;
  cf_node_joining_timeout : Z;
  cf_time_to_produce_block_millis : Z;
}.

Inductive NodeError :=
  | BadEnvelope
  | TimeUnreadable
  | SendError
  | MissingFinalizedBlock
  | MissingFinalizedState
  | ShareError
  | LoadTaskError
  | SyncServiceFailed
  | Throttled
  | TooFarIntoHistory
  | RepositoryFailed (e : RepositoryError).

Record BlockRequestParams := mkBlockRequestParams {
  rq_start : BlockSeqNo;
  rq_end : BlockSeqNo;
  rq_node_id : NodeIdentifier;
  rq_at_least_n_blocks : option Z;
  rq_thread_id : ThreadIdentifier;
}.

Inductive ExecutionResult := SynchronizationRequired | Disconnected.

(** The answer of [synchronization_rx.try_recv()]. *)
Inductive SyncProgress := SyncEmpty | SyncLoaded | SyncFailed | SyncDisconnected.

Record Reading := mkReading {
  rd_now : Z;
  rd_shutdown : bool;
  rd_blocks_were_requested : bool;
  rd_sync : SyncProgress;
}.

Section node.
Context `{Blst} {M St : Type} `{!OptimisticStateOps St}.
Context `{Serialize AckData} `{Serialize CandidateBlock} `{Deserialize (Envelope CandidateBlock)}.
Notation Message := (NetworkMessage M).
Notation Block := (Envelope CandidateBlock).
Notation result A := (outcome NodeError A).
Notation Address := (gmap ThreadIdentifier BlockIdentifier).

Inductive RxItem := RxMsg (m : Message) | RxTimeout.

Inductive NodeOut :=
  | Direct (to : NodeIdentifier) (m : Message)
  | Broadcast (m : Message)
  | TouchProducer
  | TouchBlockStates
  | ResetSync
  | LoadState (a : Address)
  | ShareState (s : St)
  | DumpUnfinalized.

(** The block states are those of the repository, and the candidates those it keeps for the
    thread. *)
Record NodeState := mkNodeState {
  nd_repo : StateRepo NackData St;
  nd_ack_cache : gmap BlockSeqNo (list (Envelope AckData));
  nd_received_acks : list (Envelope AckData);
  nd_validation_tx : list (BlockIdentifier * Envelope AckiNackiBlock);
  nd_attestations : CollectedAttestations;
  nd_last_synced_state : option (BlockIdentifier * BlockSeqNo * Address);
  nd_state_sync_requested : option BlockSeqNo;
  nd_last_state_sync : Z;
  nd_stalled_threads : gset ThreadIdentifier;
  nd_requests : list BlockRequestParams;
  nd_out : list NodeOut;
}.
Implicit Types (n : NodeState) (b : BlockIdentifier) (m : Message).

Variable config : NodeConfig.
Variable set_iter : gset BlockIdentifier → list BlockIdentifier.
Variable thread_iter : gset ThreadIdentifier → list ThreadIdentifier.
(** The repository of states, with a fuel for its lookups. *)
Variable has_zerostate : bool.
Variable load_zerostate : ThreadIdentifier → option St.
Variable zero : St.
Variable load_all_accounts : St → outcome RepositoryError St.
Variable split_state write_ok : bool.
Variable fuel : nat.
(** [get_share_stare_refs] of a state, in the order its map is visited. *)
Variable get_share_state_refs : St → list (ThreadIdentifier * BlockIdentifier).
Variable hash_of : Block → EnvelopeHash.
(** Whether sending works, the services answer, and the receivers of requests are there. *)
Variable direct_ok : NodeIdentifier → bool.
Variable broadcast_ok share_ok load_task_ok validation_alive requests_alive : bool.

(** ** The parts of the state *)
Definition nd_states n : Repository NackData := sr_block_states (nd_repo n).
Definition nd_candidates n : UnfinalizedBlocks :=
  default UnfinalizedBlocks_default (sr_unfinalized (nd_repo n) !! cf_thread_id config).

Definition nd_with_repo n (r : StateRepo NackData St) : NodeState :=
  mkNodeState r (nd_ack_cache n) (nd_received_acks n) (nd_validation_tx n) (nd_attestations n) (nd_last_synced_state n)
    (nd_state_sync_requested n) (nd_last_state_sync n) (nd_stalled_threads n) (nd_requests n) (nd_out n).
Definition nd_with_states n (s : Repository NackData) : NodeState :=
  let r := nd_repo n in
  nd_with_repo n (mkStateRepo s (sr_metadatas r) (sr_saved_states r) (sr_finalized_state r) (sr_cache r) (sr_files r)
    (sr_finalized_blocks r) (sr_unfinalized r) (sr_block_files r) (sr_state_files r) (sr_events r)).
Definition nd_with_candidates n (c : UnfinalizedBlocks) : NodeState :=
  let r := nd_repo n in
  nd_with_repo n (mkStateRepo (sr_block_states r) (sr_metadatas r) (sr_saved_states r) (sr_finalized_state r) (sr_cache r)
    (sr_files r) (sr_finalized_blocks r) (<[cf_thread_id config := c]> (sr_unfinalized r)) (sr_block_files r) (sr_state_files r) (sr_events r)).
Definition nd_with_attestations n (a : CollectedAttestations) : NodeState :=
  mkNodeState (nd_repo n) (nd_ack_cache n) (nd_received_acks n) (nd_validation_tx n) a (nd_last_synced_state n)
    (nd_state_sync_requested n) (nd_last_state_sync n) (nd_stalled_threads n) (nd_requests n) (nd_out n).
Definition nd_with_synced n (s : BlockIdentifier * BlockSeqNo * Address) : NodeState :=
  mkNodeState (nd_repo n) (nd_ack_cache n) (nd_received_acks n) (nd_validation_tx n) (nd_attestations n) (Some s)
    (nd_state_sync_requested n) (nd_last_state_sync n) (nd_stalled_threads n) (nd_requests n) (nd_out n).
Definition nd_with_sync_requested n (s : BlockSeqNo) : NodeState :=
  mkNodeState (nd_repo n) (nd_ack_cache n) (nd_received_acks n) (nd_validation_tx n) (nd_attestations n)
    (nd_last_synced_state n) (Some s) (nd_last_state_sync n) (nd_stalled_threads n) (nd_requests n) (nd_out n).
Definition nd_with_last_sync n (t : Z) : NodeState :=
  mkNodeState (nd_repo n) (nd_ack_cache n) (nd_received_acks n) (nd_validation_tx n) (nd_attestations n)
    (nd_last_synced_state n) (nd_state_sync_requested n) t (nd_stalled_threads n) (nd_requests n) (nd_out n).
Definition nd_with_request n (q : BlockRequestParams) : NodeState :=
  mkNodeState (nd_repo n) (nd_ack_cache n) (nd_received_acks n) (nd_validation_tx n) (nd_attestations n)
    (nd_last_synced_state n) (nd_state_sync_requested n) (nd_last_state_sync n) (nd_stalled_threads n)
    (nd_requests n ++ [q]) (nd_out n).
Definition nd_log n (o : list NodeOut) : NodeState :=
  mkNodeState (nd_repo n) (nd_ack_cache n) (nd_received_acks n) (nd_validation_tx n) (nd_attestations n)
    (nd_last_synced_state n) (nd_state_sync_requested n) (nd_last_state_sync n) (nd_stalled_threads n) (nd_requests n)
    (nd_out n ++ o).

(** The fields that [on_ack] and [on_nack] use. *)
Definition nd_ack_node n : AckNode := mkAckNode (nd_states n) (nd_ack_cache n) (nd_received_acks n) (nd_validation_tx n).
Definition nd_with_acks n (a : AckNode) : NodeState :=
  let n := nd_with_states n (an_states a) in
  mkNodeState (nd_repo n) (ack_cache a) (received_acks a) (validation_tx a) (nd_attestations n) (nd_last_synced_state n)
    (nd_state_sync_requested n) (nd_last_state_sync n) (nd_stalled_threads n) (nd_requests n) (nd_out n).

(** ** Sending *)
(** A message that cannot be sent is an error, unless the node shuts down. *)
Definition send_direct (shutdown : bool) n (to : NodeIdentifier) m : result NodeState :=
  if direct_ok to then Ok (nd_log n [Direct to m]) else if shutdown then Ok n else Err SendError.
Definition send_broadcast (shutdown : bool) n m : result NodeState :=
  if broadcast_ok then Ok (nd_log n [Broadcast m]) else if shutdown then Ok n else Err SendError.

Definition broadcast_node_joining (shutdown : bool) n : result NodeState :=
  send_broadcast shutdown n (NodeJoining (cf_node_id config, cf_thread_id config)).
Definition send_blocks_range_request (shutdown : bool) n (destination requester : NodeIdentifier) (t : ThreadIdentifier)
    (inclusive_from exclusive_to : BlockSeqNo) (at_least_n_blocks : option Z) : result NodeState :=
  send_direct shutdown n destination (BlockRequest inclusive_from exclusive_to requester t at_least_n_blocks).
Definition send_block_request (shutdown : bool) n (to : NodeIdentifier) (included_from excluded_to : BlockSeqNo)
    (at_least_n_blocks : option Z) : result NodeState :=
  send_blocks_range_request shutdown n to (cf_node_id config) (cf_thread_id config) included_from excluded_to at_least_n_blocks.
Definition broadcast_sync_finalized (shutdown : bool) n b (seq_no : BlockSeqNo) (a : Address) : result NodeState :=
  send_broadcast shutdown n (SyncFinalized (b, seq_no, a, cf_thread_id config)).
Definition send_sync_from (shutdown : bool) n (to : NodeIdentifier) (from_seq_no : BlockSeqNo) : result NodeState :=
  send_direct shutdown n to (SyncFrom (from_seq_no, cf_thread_id config)).
Definition broadcast_ack (shutdown : bool) n (ack : Envelope AckData) : result NodeState :=
  send_broadcast shutdown n (Ack (ack, cf_thread_id config)).

(** ** Incoming candidates *)
Definition get_envelope (net_block : NetBlock) : result Block :=
  ok_or (bincode_deserialize (net_envelope_data net_block)) BadEnvelope.

(** The setters that initialize the state of a candidate. *)
Definition initialize_block_state (s : AckiNackiBlockState NackData) (net_block : NetBlock) (selector : ProducerSelector)
    (envelope : Block) (time : Z) : result (AckiNackiBlockState NackData) :=
  let block := data envelope in
  let set s f v := unwrap_ok (generated_setter s f v) in
  let s := set_stored s (hash_of envelope) in
  set s block_seq_no (net_seq_no net_block) ≫= λ s,
  set s thread_identifier (net_thread_id net_block) ≫= λ s,
  (match get s producer_selector_data with
   | None => set s producer_selector_data selector
   | Some _ => Ok s
   end) ≫= λ s,
  set s block_time_ms time ≫= λ s,
  (match get s block_round with
   | Some r => assert_that (bool_decide (r = cb_round block)) ≫= λ _, Ok s
   | None => set s block_round (cb_round block)
   end) ≫= λ s,
  match get s block_height with
  | Some h => assert_that (bool_decide (h = cb_block_height block)) ≫= λ _, Ok s
  | None => set s block_height (cb_block_height block)
  end.

Definition note_interest n (net_block : NetBlock) (resend_source_node_id : option NodeIdentifier) : NodeState :=
  let id := net_identifier net_block in
  let add s i := repo_update s id (λ e, (try_add_attestations_interest e i).1) in
  let states := add (nd_states n) (net_producer_id net_block) in
  nd_with_states n (match resend_source_node_id with Some i => add states i | None => states end).

Definition on_incoming_candidate_block n (net_block : NetBlock) (resend_source_node_id : option NodeIdentifier) :
    result (NodeState * option Block) :=
  let id := net_identifier net_block in
  let n := note_interest n net_block resend_source_node_id in
  if is_stored (repo_get (nd_states n) id) then Ok (n, None)
  else
    match net_producer_selector net_block with
    | None => Ok (n, None)
    | Some selector =>
        get_envelope net_block ≫= λ envelope,
        let block := data envelope in
        ok_or (cb_time block) TimeUnreadable ≫= λ time,
        initialize_block_state (repo_get (nd_states n) id) net_block selector envelope time ≫= λ s,
        let states := <[id := s]> (nd_states n) in
        unwrap_ok (do_link set_iter states (cb_parent block) id) ≫= λ states,
        let n := nd_with_states n states in
        let n := match cb_share_state_resources block with
                 | Some hint => nd_with_synced n (cb_identifier block, cb_seq_no block, hint)
                 | None => n
                 end in
        let n := nd_with_candidates n (Unfinalized_insert (nd_candidates n) id envelope) in
        let states := repo_update (nd_states n) (cb_parent block) (λ e, add_child e (net_thread_id net_block) id) in
        let n := nd_with_states n states in
        (if is_finalized (repo_get states (cb_parent block))
         then unwrap_ok (generated_setter (repo_get states id) has_parent_finalized true) ≫= λ s,
              Ok (nd_with_states n (<[id := s]> states))
         else Ok n) ≫= λ n,
        Ok (nd_with_attestations n
              (foldl (λ c a, (CollectedAttestations_add c a true).1) (nd_attestations n) (cb_block_attestations block)),
            Some envelope)
    end.

(** ** Sharing the finalized state *)
Definition lookup_state (r : StateRepo NackData St) b (t : ThreadIdentifier) : StateRepo NackData St * outcome RepositoryError (option St) :=
  default (r, Panic) (get_optimistic_state thread_iter has_zerostate load_zerostate zero fuel r b t None).
Definition lookup_full_state (r : StateRepo NackData St) b (t : ThreadIdentifier) :
    StateRepo NackData St * outcome RepositoryError (option St) :=
  default (r, Panic) (get_full_optimistic_state thread_iter has_zerostate load_zerostate zero load_all_accounts split_state
    fuel r b t None).
Definition of_repository {A} (o : outcome RepositoryError A) : result A :=
  match o with Ok a => Ok a | Err e => Err (RepositoryFailed e) | Panic => Panic end.

Definition share_one n (e : ThreadIdentifier * BlockIdentifier) : result NodeState :=
  let '(r, found) := lookup_full_state (nd_repo n) e.2 e.1 in
  of_repository found ≫= λ o,
  let n := nd_with_repo n r in
  match o with
  | Some s => ensure share_ok ShareError ≫= λ _, Ok (nd_log n [ShareState s])
  | None => Ok n
  end.

Definition share_finalized_state (shutdown : bool) n (last_finalized_seq_no : BlockSeqNo) (last_finalized_block_id : BlockIdentifier) :
    result NodeState :=
  if bool_decide (last_finalized_seq_no = 0%Z) then Ok n
  else
    ok_or (get_finalized_block thread_iter (nd_repo n) last_finalized_block_id) MissingFinalizedBlock ≫= λ finalized_block,
    let '(r, found) := lookup_state (nd_repo n) last_finalized_block_id (cb_thread_id (data finalized_block)) in
    of_repository found ≫= λ o,
    ok_or o MissingFinalizedState ≫= λ finalized_state,
    let refs := get_share_state_refs finalized_state in
    fold_outcome share_one (nd_with_repo n r) refs ≫= λ n,
    let hint := list_to_map refs in
    broadcast_sync_finalized shutdown (nd_with_synced n (last_finalized_block_id, last_finalized_seq_no, hint))
      last_finalized_block_id last_finalized_seq_no hint.

(** [for _i in 0..sync_gap { seq_no = next_seq_no(seq_no) }] *)
Fixpoint skip_blocks (gap : nat) (seq_no : BlockSeqNo) : result BlockSeqNo :=
  match gap with
  | 0 => Ok seq_no
  | S gap => next_seq_no seq_no ≫= skip_blocks gap
  end.

(** ** One message *)
Inductive StepEnd := Continue | Return (res : ExecutionResult).

Definition last_finalized n : result (BlockIdentifier * BlockSeqNo) :=
  unwrap (select_thread_last_finalized_block (nd_repo n) (cf_thread_id config)).

Definition on_node_joining (rd : Reading) n (node_id : NodeIdentifier) : result NodeState :=
  if bool_decide (cf_min_time_between_state_publish_directives config < rd_now rd - nd_last_state_sync n)%Z then
    let n := nd_with_last_sync n (rd_now rd) in
    last_finalized n ≫= λ '(last_finalized_id, last_finalized_seq_no),
    if bool_decide (cf_thread_id config ∈ nd_stalled_threads n) || bool_decide (last_finalized_seq_no = 0%Z)
    then share_finalized_state (rd_shutdown rd) n last_finalized_seq_no last_finalized_id
    else
      match nd_state_sync_requested n with
      | Some _ => Ok n
      | None =>
          skip_blocks (cf_sync_gap config) last_finalized_seq_no ≫= λ block_seq_no_with_sync,
          send_sync_from (rd_shutdown rd) n node_id block_seq_no_with_sync ≫= λ n,
          Ok (nd_with_sync_requested n block_seq_no_with_sync)
      end
  else
    match nd_last_synced_state n with
    | Some (id, seq_no, hint) => broadcast_sync_finalized (rd_shutdown rd) n id seq_no hint
    | None => Ok n
    end.

(** [SyncFrom] and [SyncFinalized]: whether the node is too far behind the block [seq_no]. *)
Definition must_synchronize (rd : Reading) n (seq_no : BlockSeqNo) : result bool :=
  last_finalized n ≫= λ '(_, last_finalized_seq_no),
  if bool_decide (cf_min_time_between_state_publish_directives config < rd_now rd - nd_last_state_sync n)%Z
  then
    if rd_blocks_were_requested rd then Ok true
    else
      BlockSeqNo_add last_finalized_seq_no (cf_need_synchronization_block_diff config mod 2 ^ 32)%Z ≫= λ limit,
      Ok (bool_decide (limit < seq_no)%Z)
  else Ok false.

(** The attestations that are already in the channel, up to the first other message. *)
Fixpoint more_attestations (rx : list RxItem) (attestations : list (Envelope AttestationData)) :
    list (Envelope AttestationData) * option Message * list RxItem :=
  match rx with
  | RxMsg (BlockAttestation (a, _)) :: rx => more_attestations rx (attestations ++ [a])
  | RxMsg other :: rx => (attestations, Some other, rx)
  | RxTimeout :: _ | [] => (attestations, None, rx)
  end.

Definition collect_attestations n (attestations : list (Envelope AttestationData)) : NodeState :=
  let '(c, added) := CollectedAttestations_add_bunch (nd_attestations n) attestations true in
  let n := nd_with_attestations n c in
  if added then nd_log n [TouchBlockStates] else n.

(** The match of [execute_normal_forwarded]: the node, the next message, the rest of the channel
    and how the iteration ends. *)
Definition handle_message (rd : Reading) n m (rx : list RxItem) :
    result (NodeState * option Message * list RxItem * StepEnd) :=
  let go (o : result NodeState) := o ≫= λ n, Ok (n, None, rx, Continue) in
  match m with
  | StartSynchronization => Ok (n, None, rx, Return SynchronizationRequired)
  | AuthoritySwitchProtocol _ => Panic
  | NodeJoining (node_id, _) => go (on_node_joining rd n node_id)
  | ResentCandidate (net_block, node_id) => go (fst <$> on_incoming_candidate_block n net_block (Some node_id))
  | Candidate net_block => go (fst <$> on_incoming_candidate_block n net_block None)
  | Ack (ack, _) => go (nd_with_acks n <$> unwrap_ok (on_ack (nd_ack_node n) ack))
  | Nack (nack, _) => go (nd_with_acks n <$> unwrap_ok (on_nack validation_alive (rd_shutdown rd) (nd_ack_node n) nack))
  | ExternalMessage _ => Panic
  | BlockAttestation (attestation, _) =>
      let '(attestations, next_message, rx) := more_attestations rx [attestation] in
      Ok (collect_attestations n attestations, next_message, rx, Continue)
  | BlockRequest start finish node_id _ at_least_n_blocks =>
      Ok (if requests_alive
          then nd_with_request n (mkBlockRequestParams start finish node_id at_least_n_blocks (cf_thread_id config)) else n,
          None, rx, Continue)
  | SyncFrom (seq_no_from, _) =>
      must_synchronize rd n seq_no_from ≫= λ must,
      Ok (n, None, rx, if must : bool then Return SynchronizationRequired else Continue)
  | SyncFinalized (_, seq_no, _, _) =>
      must_synchronize rd n seq_no ≫= λ must,
      Ok (n, None, rx, if must : bool then Return SynchronizationRequired else Continue)
  end.

(** One iteration of the loop of [execute_normal_forwarded]. *)
Definition normal_iteration (rd : Reading) n (next_message : option Message) (rx : list RxItem) :
    result (NodeState * option Message * list RxItem * StepEnd) :=
  if rd_shutdown rd
  then
    let r := dump_unfinalized_blocks write_ok (nd_repo n) (clone_queue (nd_candidates n)) in
    Ok (nd_log (nd_with_repo n r) [DumpUnfinalized], next_message, rx, Return Disconnected)
  else
    match next_message with
    | Some m => handle_message rd n m rx
    | None =>
        if bool_decide (cf_time_to_produce_block_millis config = 0%Z) then Ok (nd_log n [TouchProducer], None, rx, Continue)
        else
          match rx with
          | [] => Ok (n, None, [], Return Disconnected)
          | RxTimeout :: rx => Ok (nd_log n [TouchProducer], None, rx, Continue)
          | RxMsg m :: rx => handle_message rd n m rx
          end
    end.

(** ** Synchronization *)
Record SyncLocals := mkSyncLocals {
  sl_initial_state : option (BlockIdentifier * BlockSeqNo);
  sl_address : option Address;
  sl_last_join : Z;
  sl_request_sent : bool;
  sl_sync_from : option BlockSeqNo;
}.
Inductive SynchronizationResult := SyncOk | SyncForward (m : Message) | SyncInterrupted.
Inductive SyncEnd := SyncContinue (l : SyncLocals) | SyncReturn (res : SynchronizationResult).

(** [execute_synchronizing] before its loop. *)
Definition sync_begin (rd : Reading) n : result (NodeState * SyncLocals) :=
  let n := nd_log n [ResetSync] in
  (if bool_decide (cf_thread_id config = ThreadIdentifier_default) then broadcast_node_joining (rd_shutdown rd) n else Ok n)
  ≫= λ n, Ok (n, mkSyncLocals None None (rd_now rd) false None).

(** [NodeJoining] is repeated when there was no answer, and everything starts over. *)
Definition sync_timeout (rd : Reading) n (l : SyncLocals) : result (NodeState * SyncLocals) :=
  if bool_decide (cf_node_joining_timeout config < rd_now rd - sl_last_join l)%Z
  then
    broadcast_node_joining (rd_shutdown rd) n ≫= λ n,
    Ok (nd_log n [ResetSync], mkSyncLocals None None (rd_now rd) (sl_request_sent l) (sl_sync_from l))
  else Ok (n, l).

(** The state was downloaded: older candidates are dropped. *)
Definition sync_loaded n (a : Address) : result NodeState :=
  unwrap (a !! cf_thread_id config) ≫= λ synced_block_id,
  unwrap (get (repo_get (nd_states n) synced_block_id) block_seq_no) ≫= λ synced_block_seq_no,
  Ok (nd_with_candidates n (Unfinalized_retain (λ id,
        match get (repo_get (nd_states n) id) block_seq_no with
        | Some seq_no => bool_decide (synced_block_seq_no ≤ seq_no)%Z
        | None => false
        end) (nd_candidates n))).

Definition sync_progress (rd : Reading) n (l : SyncLocals) : result (NodeState * SyncEnd) :=
  match sl_address l with
  | None => Ok (n, SyncContinue l)
  | Some a =>
      match rd_sync rd with
      | SyncLoaded => sync_loaded n a ≫= λ n, Ok (n, SyncReturn SyncOk)
      | SyncFailed =>
          Ok (n, SyncContinue (mkSyncLocals (sl_initial_state l) None (sl_last_join l) (sl_request_sent l) (sl_sync_from l)))
      | SyncDisconnected => Err SyncServiceFailed
      | SyncEmpty => Ok (n, SyncContinue l)
      end
  end.

Definition check_block_signature n (candidate_block : Block) : result (option bool) :=
  match get_block_keeper_pubkeys (nd_ack_node n) (cb_parent (data candidate_block)) with
  | None => Ok None
  | Some signatures_map =>
      unwrap_ok (Envelope_verify_signatures candidate_block signatures_map) ≫= λ is_valid, Ok (Some is_valid)
  end.

Definition or_envelope (net_block : NetBlock) (envelope : option Block) : result Block :=
  match envelope with Some e => Ok e | None => get_envelope net_block end.

(** A task is given to the state sync service. *)
Definition add_load_state_task n (a : Address) : result NodeState :=
  ensure load_task_ok LoadTaskError ≫= λ _, Ok (nd_log n [LoadState a]).

(** The block the node waits for: [None] when the candidate is not it, otherwise how the
    iteration ends, if it does. *)
Definition sync_awaited n (l : SyncLocals) (net_block : NetBlock) (envelope : option Block) :
    result (option Block * option SyncEnd) :=
  match sl_initial_state l with
  | None => Ok (envelope, None)
  | Some (block_id, seq_no) =>
      if bool_decide (net_seq_no net_block < seq_no)%Z then Ok (envelope, Some (SyncContinue l))
      else if bool_decide (block_id = net_identifier net_block) then
        or_envelope net_block envelope ≫= λ envelope,
        check_block_signature n envelope ≫= λ checked,
        if bool_decide (checked = Some true) then
          match sl_address l with
          | None => Ok (Some envelope, Some (SyncReturn SyncOk))
          | Some _ => Ok (Some envelope, None)
          end
        else Ok (Some envelope, Some (SyncContinue l))
      else Ok (envelope, None)
  end.

(** The missing blocks are requested once, when they are few. *)
Definition sync_request (rd : Reading) n (l : SyncLocals) (net_block : NetBlock) : result (NodeState * SyncLocals) :=
  if sl_request_sent l then Ok (n, l)
  else
    next_seq_no 0 ≫= λ first_missed_block_seq_no,
    let seq_no_diff := BlockSeqNo_sub (net_seq_no net_block) first_missed_block_seq_no in
    if bool_decide (seq_no_diff < cf_need_synchronization_block_diff config)%Z
    then
      send_block_request (rd_shutdown rd) n (net_producer_id net_block) first_missed_block_seq_no (net_seq_no net_block) None
      ≫= λ n, Ok (n, mkSyncLocals (sl_initial_state l) (sl_address l) (sl_last_join l) true (sl_sync_from l))
    else Ok (n, l).

Definition sync_load_shared (rd : Reading) n (l : SyncLocals) (net_block : NetBlock) (envelope : Block) :
    result (NodeState * SyncEnd) :=
  match sl_address l, cb_share_state_resources (data envelope) with
  | None, Some a =>
      add_load_state_task n a ≫= λ n,
      Ok (n, SyncContinue (mkSyncLocals (Some (net_identifier net_block, net_seq_no net_block)) (Some a) (rd_now rd)
               (sl_request_sent l) (sl_sync_from l)))
  | _, _ => Ok (n, SyncContinue l)
  end.

Definition sync_candidate (rd : Reading) n (l : SyncLocals) m (net_block : NetBlock) (resend : option NodeIdentifier) :
    result (NodeState * SyncEnd) :=
  on_incoming_candidate_block n net_block resend ≫= λ '(n, envelope),
  sync_awaited n l net_block envelope ≫= λ '(envelope, ended),
  match ended with
  | Some e => Ok (n, e)
  | None =>
      if default false ((λ s, bool_decide (net_seq_no net_block < s)%Z) <$> sl_sync_from l) then Ok (n, SyncContinue l)
      else
        or_envelope net_block envelope ≫= λ envelope,
        if is_block_already_applied (repo_get (nd_states n) (cb_parent (data envelope)))
        then Ok (n, SyncReturn (SyncForward m))
        else
          sync_request rd n l net_block ≫= λ '(n, l),
          sync_load_shared rd n l net_block envelope
  end.

Definition sync_message (rd : Reading) n (l : SyncLocals) m : result (NodeState * SyncEnd) :=
  match m with
  | Candidate net_block => sync_candidate rd n l m net_block None
  | ResentCandidate (net_block, node_id) => sync_candidate rd n l m net_block (Some node_id)
  | SyncFrom (seq_no_from, _) =>
      Ok (n, SyncContinue (mkSyncLocals None None (sl_last_join l) (sl_request_sent l) (Some seq_no_from)))
  | SyncFinalized (id, seq_no, a, _) =>
      match sl_address l with
      | None =>
          add_load_state_task n a ≫= λ n,
          Ok (n, SyncContinue (mkSyncLocals (Some (id, seq_no)) (Some a) (sl_last_join l) (sl_request_sent l) (sl_sync_from l)))
      | Some _ => Ok (n, SyncContinue l)
      end
  | _ => Ok (n, SyncContinue l)
  end.

(** One iteration of the loop of [execute_synchronizing]. *)
Definition sync_iteration (rd : Reading) n (l : SyncLocals) (rx : list RxItem) : result (NodeState * list RxItem * SyncEnd) :=
  sync_timeout rd n l ≫= λ '(n, l),
  sync_progress rd n l ≫= λ '(n, progress),
  match progress with
  | SyncReturn res => Ok (n, rx, SyncReturn res)
  | SyncContinue l =>
      match rx with
      | [] => Ok (n, [], SyncReturn SyncInterrupted)
      | RxTimeout :: rx => Ok (n, rx, SyncContinue l)
      | RxMsg m :: rx => sync_message rd n l m ≫= λ '(n, e), Ok (n, rx, e)
      end
  end.

(** ** The whole execution *)
Inductive Mode := Normal (next_message : option Message) | Synchronizing (l : SyncLocals) | Stopped.

(** [execute_normal_forwarded] starts with a fresh [last_state_sync_executed]. *)
Definition normal_begin (rd : Reading) n : NodeState :=
  nd_with_last_sync n (rd_now rd - cf_min_time_between_state_publish_directives config)%Z.

(** One iteration of whichever loop [execute] is in, with the change of loop at its end. *)
Definition execute_step (rd : Reading) (st : NodeState * Mode * list RxItem) : result (NodeState * Mode * list RxItem) :=
  let '(n, mode, rx) := st in
  match mode with
  | Stopped => Ok st
  | Normal next_message =>
      normal_iteration rd n next_message rx ≫= λ '(n, next_message, rx, e),
      match e with
      | Continue => Ok (n, Normal next_message, rx)
      | Return Disconnected => Ok (n, Stopped, rx)
      | Return SynchronizationRequired => sync_begin rd n ≫= λ '(n, l), Ok (n, Synchronizing l, rx)
      end
  | Synchronizing l =>
      sync_iteration rd n l rx ≫= λ '(n, rx, e),
      match e with
      | SyncContinue l => Ok (n, Synchronizing l, rx)
      | SyncReturn SyncOk => Ok (normal_begin rd n, Normal None, rx)
      | SyncReturn (SyncForward m) => Ok (normal_begin rd n, Normal (Some m), rx)
      | SyncReturn SyncInterrupted => Ok (n, Stopped, rx)
      end
  end.

Definition execute (rd : Reading) (rds : list Reading) n (rx : list RxItem) : result (NodeState * Mode * list RxItem) :=
  fold_outcome (λ st rd, execute_step rd st) (normal_begin rd n, Normal None, rx) rds.

(** ** Requests for blocks *)
(** What was sent before an error stays sent: the service returns the node with the result. *)
Notation attempt A := (NodeState * result A)%type.
Definition and_then {A B} (x : attempt A) (f : NodeState → A → attempt B) : attempt B :=
  match x.2 with
  | Ok a => f x.1 a
  | Err e => (x.1, Err e)
  | Panic => (x.1, Panic)
  end.

Definition MAX_TO_RESEND : nat := 200.
(** [NetworkMessage::candidate] *)
Variable candidate_message : Block → option NetBlock.

Definition send_candidate_block n (candidate_block : Block) (to : NodeIdentifier) : attempt unit :=
  match candidate_message candidate_block with
  | None => (n, Err BadEnvelope)
  | Some net_block => (if direct_ok to then nd_log n [Direct to (Candidate net_block)] else n, Ok tt)
  end.

Fixpoint resend_loop n (to : NodeIdentifier) (l : list Block) : attempt unit :=
  match l with
  | [] => (n, Ok tt)
  | block :: l => and_then (send_candidate_block n block to) (λ n _, resend_loop n to l)
  end.
Definition resend n (to : NodeIdentifier) (l : list Block) : attempt nat :=
  and_then (resend_loop n to l) (λ n _, (n, Ok (length l))).

(** The loop of [resend_finalized]; [None] when the fuel runs out. *)
Fixpoint finalized_tail (loop_fuel : nat) n (cursor : BlockIdentifier) (cutoff : BlockSeqNo) (cache : list Block) :
    option (result (list Block)) :=
  match loop_fuel with
  | 0 => None
  | S loop_fuel =>
      if bool_decide (MAX_TO_RESEND < length cache) then Some (Err TooFarIntoHistory)
      else
        let e := repo_get (nd_states n) cursor in
        match get e block_seq_no, get e parent_block_identifier with
        | Some seq_no, Some parent =>
            match get_finalized_block thread_iter (nd_repo n) cursor with
            | None => Some (Err TooFarIntoHistory)
            | Some block =>
                let cache := cache ++ [block] in
                if bool_decide (seq_no < cutoff)%Z then Some (Ok cache)
                else finalized_tail loop_fuel n parent cutoff cache
            end
        | _, _ => Some (Err TooFarIntoHistory)
        end
  end.

Definition resend_finalized n (to : NodeIdentifier) (tail : BlockIdentifier) (cutoff : BlockSeqNo) : attempt nat :=
  and_then (n, default Panic (finalized_tail (S (S MAX_TO_RESEND)) n tail cutoff [])) (λ n l, resend n to l).

(** One generation of descendants: the children, and those of them that are demanded. *)
Definition next_generation n (t : ThreadIdentifier) (generation : list BlockIdentifier) : list BlockIdentifier :=
  generation ≫= λ b,
    if is_invalidated (repo_get (nd_states n) b) then []
    else default [] (set_iter <$> known_children (repo_get (nd_states n) b) t).

Fixpoint demanded_blocks n (t : ThreadIdentifier) (count : nat) (generation : list BlockIdentifier)
    (demanded : gset BlockIdentifier) : gset BlockIdentifier :=
  match count with
  | 0 => demanded
  | S count =>
      let next := next_generation n t generation in
      demanded_blocks n t count next
        (demanded ∪ list_to_set (filter (λ b, is_invalidated (repo_get (nd_states n) b) = false) next))
  end.

(** Which candidates are asked for. *)
Definition is_wanted n (demanded : gset BlockIdentifier) (from_inclusive to_exclusive : BlockSeqNo) b : bool :=
  bool_decide (b ∈ demanded) ||
  match get (repo_get (nd_states n) b) block_seq_no with
  | Some seq_no => bool_decide (from_inclusive ≤ seq_no)%Z && bool_decide (seq_no < to_exclusive)%Z
  | None => false
  end.

(** [throttle] is the rate limiter of the shared services. *)
Definition answer_request (throttle : bool) n (q : BlockRequestParams) : attempt unit :=
  let t := rq_thread_id q in
  and_then (n, ensure throttle Throttled) (λ n _,
  and_then (n, unwrap (select_thread_last_finalized_block (nd_repo n) t)) (λ n '(last_id, last_seq_no),
  let queue := clone_queue (nd_candidates n) in
  let asked := default 0%Z (rq_at_least_n_blocks q) in
  and_then (if bool_decide (rq_start q < last_seq_no)%Z
            then and_then (resend_finalized n (rq_node_id q) last_id (rq_start q)) (λ n count,
                   (n, Ok (saturating_sub asked (Z.of_nat count))))
            else (n, Ok asked)) (λ n asked,
  let demanded := demanded_blocks n t (Z.to_nat asked) [last_id] ∅ in
  let wanted := filter (λ e, is_wanted n demanded (rq_start q) (rq_end q) e.1 = true) queue in
  and_then (n, map_outcome (λ e, ok_or (get_finalized_block thread_iter (nd_repo n) e.1) TooFarIntoHistory) wanted)
    (λ n cached, and_then (resend n (rq_node_id q) cached) (λ n _, (n, Ok tt)))))).

(** The service never fails on the sending of [SyncFrom]. *)
Definition service_send_sync_from n (to : NodeIdentifier) (t : ThreadIdentifier) (from_seq_no : BlockSeqNo) : NodeState :=
  if direct_ok to then nd_log n [Direct to (SyncFrom (from_seq_no, t))] else n.

Definition on_incoming_block_request (throttle : bool) (now : Z) n (q : BlockRequestParams) : result NodeState :=
  let '(n, answered) := answer_request throttle n q in
  match answered with
  | Ok _ => Ok n
  | Panic => Panic
  | Err _ =>
      if bool_decide (cf_min_time_between_state_publish_directives config < now - nd_last_state_sync n)%Z then
        match nd_state_sync_requested n with
        | Some requested => Ok (service_send_sync_from n (rq_node_id q) (rq_thread_id q) requested)
        | None =>
            match select_thread_last_finalized_block (nd_repo n) (rq_thread_id q) with
            | None => Ok n
            | Some (_, seq_no) =>
                skip_blocks (cf_sync_gap config) seq_no ≫= λ seq_no,
                Ok (nd_with_sync_requested (service_send_sync_from n (rq_node_id q) (rq_thread_id q) seq_no) seq_no)
            end
        end
      else Ok n
  end.
End node.

(** ** Answers to requests *)
Section requests.
Context `{Blst} {M St : Type} `{!OptimisticStateOps St}.
Notation Block := (Envelope CandidateBlock).
Variable config : NodeConfig.
Variable set_iter : gset BlockIdentifier → list BlockIdentifier.
Variable thread_iter : gset ThreadIdentifier → list ThreadIdentifier.
Variable direct_ok : NodeIdentifier → bool.
Variable candidate_message : Block → option NetBlock.
Implicit Types (n : NodeState (M := M) (St := St)) (b : BlockIdentifier).

(** The finalized blocks from [b] back to the first one older than [cutoff]. *)
Inductive finalized_chain n (cutoff : BlockSeqNo) : BlockIdentifier → list Block → Prop :=
  | chain_last b block s p : get (repo_get (nd_states n) b) block_seq_no = Some s →
      get (repo_get (nd_states n) b) parent_block_identifier = Some p →
      get_finalized_block thread_iter (nd_repo n) b = Some block → (s < cutoff)%Z → finalized_chain n cutoff b [block]
  | chain_more b block s p l : get (repo_get (nd_states n) b) block_seq_no = Some s →
      get (repo_get (nd_states n) b) parent_block_identifier = Some p →
      get_finalized_block thread_iter (nd_repo n) b = Some block → (cutoff ≤ s)%Z →
      finalized_chain n cutoff p l → finalized_chain n cutoff b (block :: l).

Lemma finalized_tail_spec fuel n b cutoff cache : S (S MAX_TO_RESEND) ≤ fuel + length cache → length cache ≤ S MAX_TO_RESEND →
  ∃ o, finalized_tail thread_iter fuel n b cutoff cache = Some o ∧
    match o with
    | Ok l => ∃ l', l = cache ++ l' ∧ finalized_chain n cutoff b l' ∧ length l ≤ S MAX_TO_RESEND
    | Err e => e = TooFarIntoHistory
    | Panic => False
    end.
Proof.
  revert b cache. induction fuel as [|fuel IH]; intros b cache Hf Hc; [lia|]. cbn [finalized_tail].
  case_bool_decide as Hm; [by eexists|].
  destruct (get (repo_get (nd_states n) b) block_seq_no) as [s|] eqn:Hs; [|by eexists].
  destruct (get (repo_get (nd_states n) b) parent_block_identifier) as [p|] eqn:Hp; [|by eexists].
  destruct (get_finalized_block thread_iter (nd_repo n) b) as [block|] eqn:Hb; [|by eexists].
  case_bool_decide as Hcut.
  - eexists. split; [done|]. exists [block]. split; [done|]. split; [by eapply chain_last|]. rewrite length_app. cbn [length]. lia.
  - destruct (IH p (cache ++ [block])) as (o & -> & Ho); [rewrite length_app; cbn [length]; lia..|].
    eexists. split; [done|]. destruct o as [l| |]; [|done..]. destruct Ho as (l' & -> & Hl' & Hlen).
    exists (block :: l'). split; [by rewrite <- (assoc_L (++))|]. split; [|done]. eapply chain_more; eauto. lia.
Qed.

Lemma and_then_Ok {A B} n (a : A) (f : NodeState (M := M) (St := St) → A → NodeState * outcome NodeError B) :
  and_then (n, Ok a) f = f n a.
Proof. done. Qed.

(** What the destination receives. *)
Definition sent_blocks (to : NodeIdentifier) (l : list Block) : list (NodeOut (M := M) (St := St)) :=
  if direct_ok to then Direct to ∘ Candidate <$> omap candidate_message l else [].

Lemma resend_ok n to l : (∀ block, is_Some (candidate_message block)) →
  resend direct_ok candidate_message n to l = (nd_log n (sent_blocks to l), Ok (length l)).
Proof.
  intros Hc. unfold resend.
  assert (∀ n, resend_loop direct_ok candidate_message n to l = (nd_log n (sent_blocks to l), Ok tt)) as ->; [|done].
  unfold sent_blocks. induction l as [|block l IH]; intros n0; simpl.
  - unfold nd_log. destruct n0, (direct_ok to); simpl; by rewrite app_nil_r.
  - destruct (Hc block) as [nb Hnb]. unfold send_candidate_block. rewrite Hnb, and_then_Ok, IH.
    destruct (direct_ok to); [|done]. unfold nd_log. simpl. by rewrite <- (assoc_L (++)).
Qed.

(** C37 (block requests): the finalized part of a request is answered in at most 202 rounds and
    with at most 201 blocks: either nothing is sent and the request fails, or the blocks sent are
    the finalized chain from the last finalized block back to the first block older than the
    requested range, in that order, provided that the blocks can be encoded. *)
Theorem finalized_blocks_resent n to tail cutoff : (∀ block, is_Some (candidate_message block)) →
  (resend_finalized thread_iter direct_ok candidate_message n to tail cutoff = (n, Err TooFarIntoHistory) ∨
   ∃ l, finalized_chain n cutoff tail l ∧ length l ≤ 201 ∧
     resend_finalized thread_iter direct_ok candidate_message n to tail cutoff = (nd_log n (sent_blocks to l), Ok (length l))).
Proof.
  intros Hc. destruct (finalized_tail_spec (S (S MAX_TO_RESEND)) n tail cutoff []) as (o & Htail & Ho); [cbn [length]; lia..|].
  assert (resend_finalized thread_iter direct_ok candidate_message n to tail cutoff =
    and_then (n, o) (λ n l, resend direct_ok candidate_message n to l)) as Hr by (unfold resend_finalized; by rewrite Htail).
  destruct o as [l|e|]; [|subst; by left|done]. right. destruct Ho as (l' & -> & Hl & Hlen).
  exists l'. rewrite Hr, and_then_Ok, resend_ok by done. auto.
Qed.

(** A synchronizing node asks for the blocks from 1 on; when every finalized block that is kept
    has a number of at least 1, the answer is an error whatever is kept. *)
Lemma requests_from_one_fail n to tail :
  (∀ b block s, get_finalized_block thread_iter (nd_repo n) b = Some block →
     get (repo_get (nd_states n) b) block_seq_no = Some s → (1 ≤ s)%Z) →
  resend_finalized thread_iter direct_ok candidate_message n to tail 1 = (n, Err TooFarIntoHistory).
Proof.
  intros Hpos. unfold resend_finalized.
  destruct (finalized_tail_spec (S (S MAX_TO_RESEND)) n tail 1 []) as (o & -> & Ho); [cbn [length]; lia..|].
  cbn [default]. destruct o as [l|e|]; [|by subst|done]. destruct Ho as (l' & -> & Hl & _). exfalso.
  induction Hl as [b block s p Hs _ Hb Hlt|b block s p l _ _ _ _ _ IH]; [|done]. specialize (Hpos b block s Hb Hs). lia.
Qed.

(** A candidate that is asked for and is not finalized makes the whole request fail. *)
Lemma unfinalized_request_fails n (l : list (BlockIdentifier * Block)) e :
  e ∈ l → get_finalized_block thread_iter (nd_repo n) e.1 = None →
  map_outcome (λ e, ok_or (get_finalized_block thread_iter (nd_repo n) e.1) TooFarIntoHistory) l = Err TooFarIntoHistory.
Proof.
  intros He Hnone. induction l as [|x l IH]; [by apply not_elem_of_nil in He|]. simpl.
  destruct (get_finalized_block thread_iter (nd_repo n) x.1) as [block|] eqn:Hx; [|done]. simpl.
  apply elem_of_cons in He as [->|He]; [by rewrite Hnone in Hx|]. by rewrite IH.
Qed.
End requests.

(** ** Candidates *)
Section candidates.
Context `{Blst} {M St : Type} `{!OptimisticStateOps St} `{Deserialize (Envelope CandidateBlock)}.
Notation Block := (Envelope CandidateBlock).
Variable config : NodeConfig.
Variable set_iter : gset BlockIdentifier → list BlockIdentifier.
Hypothesis set_iter_perm : ∀ X, set_iter X ≡ₚ elements X.
Variable hash_of : Block → EnvelopeHash.
Implicit Types (n : NodeState (M := M) (St := St)) (b : BlockIdentifier) (net : NetBlock) (e : Block).

Lemma note_interest_get n net resend b f : get (repo_get (nd_states (note_interest n net resend)) b) f = get (repo_get (nd_states n) b) f.
Proof.
  assert (∀ (s : AckiNackiBlockState NackData) i, get (try_add_attestations_interest s i).1 = get s) as Hi.
  { intros. unfold try_add_attestations_interest. by case_bool_decide. }
  unfold note_interest. cbn [nd_states nd_with_states nd_with_repo nd_repo sr_block_states].
  destruct resend; rewrite ?repo_update_get by (intros; by rewrite Hi); done.
Qed.

Lemma setter_sets (s s' : AckiNackiBlockState NackData) f v :
  unwrap_ok (E' := NodeError) (generated_setter s f v) = Ok s' → get s' f = Some v ∧ ∀ f', f' ≠ f → get s' f' = get s f'.
Proof.
  intros Hs%unwrap_ok_inv. split; [|intros f'; by eapply generated_setter_frame].
  unfold generated_setter in Hs. case_decide; [by simplify_eq|].
  assert (notify_changed (with_fact s f v) = s') as <- by (destruct (fact_setter f), (get s f); congruence).
  apply set_fact_eq.
Qed.

Lemma setter_children (s s' : AckiNackiBlockState NackData) f v :
  unwrap_ok (E' := NodeError) (generated_setter s f v) = Ok s' → known_children_map s' = known_children_map s.
Proof.
  intros Hs%unwrap_ok_inv. unfold generated_setter in Hs. case_decide; [by simplify_eq|].
  assert (notify_changed (with_fact s f v) = s') as <- by (destruct (fact_setter f), (get s f); congruence). done.
Qed.

(** The setters of a candidate mark it as stored, in its thread. *)
Lemma initialize_stored s net sel e time s' : initialize_block_state hash_of s net sel e time = Ok s' →
  get s' stored = Some true ∧ get s' thread_identifier = Some (net_thread_id net).
Proof.
  unfold initialize_block_state. intros (s1 & [_ F1]%setter_sets & Hi)%outcome_bind_Ok.
  apply outcome_bind_Ok in Hi as (s2 & [V2 F2]%setter_sets & Hi).
  apply outcome_bind_Ok in Hi as (s3 & H3 & Hi). apply outcome_bind_Ok in Hi as (s4 & [_ F4]%setter_sets & Hi).
  apply outcome_bind_Ok in Hi as (s5 & H5 & H6).
  assert (∀ f', f' ≠ producer_selector_data → get s3 f' = get s2 f') as F3
    by (destruct (get s2 producer_selector_data); [by simplify_eq|by apply setter_sets in H3 as [_ ?]]).
  assert (∀ f', f' ≠ block_round → get s5 f' = get s4 f') as F5
    by (destruct (get s4 block_round); [by inv_outcome|by apply setter_sets in H5 as [_ ?]]).
  assert (∀ f', f' ≠ block_height → get s' f' = get s5 f') as F6
    by (destruct (get s5 block_height); [by inv_outcome|by apply setter_sets in H6 as [_ ?]]).
  assert (get (set_stored s (hash_of e)) stored = Some true) as Hst.
  { unfold set_stored. case_decide; [done|]. simpl. by rewrite set_fact_ne, set_fact_eq. }
  split; rewrite F6, F5, F4, F3 by done; [|done]. by rewrite F2, F1.
Qed.

Lemma insert_found d id e : get_block_by_id (Unfinalized_insert d id e) (cb_identifier (data e)) = Some e.
Proof. unfold get_block_by_id, Unfinalized_insert. cbn. rewrite lookup_insert_eq. cbn. by rewrite lookup_insert_eq. Qed.
Lemma insert_other d id e b : b ≠ cb_identifier (data e) → get_block_by_id (Unfinalized_insert d id e) b = get_block_by_id d b.
Proof.
  intros Hne. unfold get_block_by_id, Unfinalized_insert. cbn. rewrite lookup_insert_ne by done.
  destruct (identifier_to_seqno d !! b); [|done]. cbn. rewrite lookup_insert_ne; [done|]. by intros [= _ ?].
Qed.

Lemma is_stored_noted n net resend b :
  is_stored (repo_get (nd_states (note_interest n net resend)) b) = is_stored (repo_get (nd_states n) b).
Proof. unfold is_stored, is_set. by rewrite note_interest_get. Qed.

(** What accepting a candidate does. *)
Lemma candidate_accepted n net resend n' e :
  on_incoming_candidate_block config set_iter hash_of n net resend = Ok (n', Some e) →
  let id := net_identifier net in
  let parent := cb_parent (data e) in
  get_envelope net = Ok e ∧
  is_stored (repo_get (nd_states n) id) = false ∧ is_stored (repo_get (nd_states n') id) = true ∧
  get (repo_get (nd_states n') id) parent_block_identifier = Some parent ∧
  id ∈ default ∅ (known_children (repo_get (nd_states n') parent) (net_thread_id net)) ∧
  nd_candidates config n' = Unfinalized_insert (nd_candidates config n) id e ∧
  nd_attestations n' = foldl (λ c a, (CollectedAttestations_add c a true).1) (nd_attestations n) (cb_block_attestations (data e)).
Proof.
  intros Hin id parent. unfold on_incoming_candidate_block in Hin. fold id in Hin.
  rewrite is_stored_noted in Hin. destruct (is_stored (repo_get (nd_states n) id)) eqn:Hst; [done|].
  destruct (net_producer_selector net) as [sel|]; [|done].
  apply outcome_bind_Ok in Hin as (e0 & He & Hin). apply outcome_bind_Ok in Hin as (time & _ & Hin).
  apply outcome_bind_Ok in Hin as (s & [Hs1 Hs2]%initialize_stored & Hin).
  apply outcome_bind_Ok in Hin as (states & Hlink%unwrap_ok_inv & Hin). cbv zeta in Hin.
  set (m2 := match cb_share_state_resources (data e0) with Some _ => _ | None => _ end) in Hin.
  assert (nd_states m2 = states ∧ nd_candidates config m2 = nd_candidates config n ∧ nd_attestations m2 = nd_attestations n)
    as (Hs & Hc & Ha) by (unfold m2; by destruct (cb_share_state_resources (data e0))).
  set (m3 := nd_with_candidates config m2 _) in Hin. assert (nd_states m3 = states) as Hs3 by done.
  rewrite Hs3 in Hin. set (states' := repo_update states _ _) in Hin.
  apply outcome_bind_Ok in Hin as (m & Hm & Hout). injection Hout as <- <-.
  assert (nd_candidates config m = Unfinalized_insert (nd_candidates config n) id e0 ∧ nd_attestations m = nd_attestations n ∧
    (∀ f, f ≠ has_parent_finalized → get (repo_get (nd_states m) id) f = get (repo_get states' id) f) ∧
    known_children_map (repo_get (nd_states m) (cb_parent (data e0))) = known_children_map (repo_get states' (cb_parent (data e0))))
    as (Hmc & Hma & Hmf & Hmk).
  { assert (nd_candidates config m3 = Unfinalized_insert (nd_candidates config n) id e0) as Hc3.
    { unfold nd_candidates, m3. cbn [nd_with_candidates nd_with_repo nd_repo sr_unfinalized]. rewrite lookup_insert_eq.
      cbn [default]. by rewrite Hc. }
    destruct (is_finalized _).
    - apply outcome_bind_Ok in Hm as (s' & Hset & [= <-]). destruct (setter_sets _ _ _ _ Hset) as [_ Hf].
      split; [done|]. split; [done|].
      cbn [nd_states nd_with_states nd_with_repo nd_repo sr_block_states]. split.
      + intros f Hne. rewrite repo_insert_get, decide_True by done. auto.
      + rewrite repo_insert_get. case_decide as Hp; [|done]. rewrite (setter_children _ _ _ _ Hset). by rewrite Hp.
    - injection Hm as <-. done. }
  assert (∀ b f, get (repo_get states' b) f = get (repo_get states b) f) as Hs'.
  { intros. apply repo_update_get. intros. by rewrite add_child_get. }
  assert (get (repo_get (nd_states m) id) stored = Some true) as Hstored.
  { rewrite Hmf, Hs' by done. rewrite (do_link_frame set_iter set_iter_perm _ _ _ _ _ _ Hlink) by done.
    by rewrite repo_insert_get, decide_True. }
  split; [done|]. split; [done|]. cbn [nd_states nd_with_attestations nd_repo nd_attestations].
  split; [by apply bool_decide_eq_true|].
  split; [rewrite Hmf, Hs' by done; by apply (do_link_links set_iter _ _ _ _ Hlink)|].
  split; [|split; [exact Hmc|by rewrite Hma]].
  unfold known_children, parent, nd_states in *. cbn [nd_with_attestations nd_repo]. rewrite Hmk. unfold states'.
  rewrite repo_update_eq, add_child_map, lookup_insert_eq. cbn [default]. set_solver.
Qed.

(** C17 (candidates): a candidate is taken in once.  When a block is accepted it is stored and
    linked to its parent in both directions, it is in the collection of candidates (where it is
    found under its own identifier), the attestations it carries are collected, and from then on
    every message about this identifier changes nothing but who is interested in attestations. *)
Theorem candidate_taken_once n net resend n' e :
  on_incoming_candidate_block config set_iter hash_of n net resend = Ok (n', Some e) →
  let id := net_identifier net in
  let parent := cb_parent (data e) in
  get_envelope net = Ok e ∧
  is_stored (repo_get (nd_states n) id) = false ∧ is_stored (repo_get (nd_states n') id) = true ∧
  get (repo_get (nd_states n') id) parent_block_identifier = Some parent ∧
  id ∈ default ∅ (known_children (repo_get (nd_states n') parent) (net_thread_id net)) ∧
  nd_candidates config n' = Unfinalized_insert (nd_candidates config n) id e ∧
  get_block_by_id (nd_candidates config n') (cb_identifier (data e)) = Some e ∧
  nd_attestations n' = foldl (λ c a, (CollectedAttestations_add c a true).1) (nd_attestations n) (cb_block_attestations (data e)) ∧
  ∀ net2 resend2, net_identifier net2 = id →
    on_incoming_candidate_block config set_iter hash_of n' net2 resend2 = Ok (note_interest n' net2 resend2, None).
Proof.
  intros Hin id parent. destruct (candidate_accepted n net resend n' e Hin) as (He & Hst & Hst' & Hp & Hc & Hcand & Hatt).
  do 6 (split; [done|]). split; [rewrite Hcand; apply insert_found|]. split; [done|].
  intros net2 resend2 Hid. unfold on_incoming_candidate_block. rewrite Hid, is_stored_noted. fold id in Hst'. by rewrite Hst'.
Qed.

(** The fields of a message are not compared with the block it carries: a block that is sent
    under the identifier of another one takes its place, and the other one is never taken in. *)
Lemma mislabelled_block_shadows n net resend n' e genuine resend2 :
  on_incoming_candidate_block config set_iter hash_of n net resend = Ok (n', Some e) →
  cb_identifier (data e) ≠ net_identifier net → net_identifier genuine = net_identifier net →
  get_block_by_id (nd_candidates config n) (net_identifier net) = None →
  ∃ n2, on_incoming_candidate_block config set_iter hash_of n' genuine resend2 = Ok (n2, None) ∧
    get_block_by_id (nd_candidates config n2) (net_identifier net) = None.
Proof.
  intros Hin Hne Hid Hnone. destruct (candidate_accepted n net resend n' e Hin) as (_ & _ & Hst & _ & _ & Hcand & _).
  exists (note_interest n' genuine resend2). split.
  - unfold on_incoming_candidate_block. by rewrite Hid, is_stored_noted, Hst.
  - change (nd_candidates config (note_interest n' genuine resend2)) with (nd_candidates config n').
    rewrite Hcand. by rewrite insert_other.
Qed.
End candidates.

(** ** The order of messages *)
Section order.
Context `{Blst} {M St : Type} `{!OptimisticStateOps St}.
Context `{Serialize AckData} `{Serialize CandidateBlock} `{Deserialize (Envelope CandidateBlock)}.
Variable config : NodeConfig.
Variable set_iter : gset BlockIdentifier → list BlockIdentifier.
Variable thread_iter : gset ThreadIdentifier → list ThreadIdentifier.
Variable has_zerostate : bool.
Variable load_zerostate : ThreadIdentifier → option St.
Variable zero : St.
Variable load_all_accounts : St → outcome RepositoryError St.
Variable split_state write_ok : bool.
Variable fuel : nat.
Variable get_share_state_refs : St → list (ThreadIdentifier * BlockIdentifier).
Variable hash_of : Envelope CandidateBlock → EnvelopeHash.
Variable direct_ok : NodeIdentifier → bool.
Variable broadcast_ok share_ok load_task_ok validation_alive requests_alive : bool.
Notation Message := (NetworkMessage M).
Implicit Types (n : NodeState (M := M) (St := St)) (rx : list (RxItem (M := M))) (c : CollectedAttestations).
Notation handle := (handle_message config set_iter thread_iter has_zerostate load_zerostate zero load_all_accounts split_state
  fuel get_share_state_refs hash_of direct_ok broadcast_ok share_ok validation_alive requests_alive).
Notation step := (execute_step config set_iter thread_iter has_zerostate load_zerostate zero load_all_accounts split_state
  write_ok fuel get_share_state_refs hash_of direct_ok broadcast_ok share_ok load_task_ok validation_alive requests_alive).
Notation run := (execute config set_iter thread_iter has_zerostate load_zerostate zero load_all_accounts split_state
  write_ok fuel get_share_state_refs hash_of direct_ok broadcast_ok share_ok load_task_ok validation_alive requests_alive).

(** *** A bunch of attestations is added as if one by one *)
Definition same_pool c c' : Prop :=
  compacted_unverified_attestations c = compacted_unverified_attestations c' ∧
  folded_attestations c = folded_attestations c' ∧ cutoff c = cutoff c'.
#[local] Instance same_pool_equivalence : Equivalence same_pool.
Proof. unfold same_pool. split; [done|intros ??; naive_solver|intros ???; naive_solver congruence]. Qed.

Definition add_each c (l : list (Envelope AttestationData)) : CollectedAttestations :=
  foldl (λ c a, (CollectedAttestations_add c a true).1) c l.

Lemma touch_same c : same_pool (CollectedAttestations_touch c) c.
Proof. done. Qed.
Lemma pool_insert_same c c' a : same_pool c c' → same_pool (pool_insert c a).1 (pool_insert c' a).1.
Proof. intros (H1' & H2' & H3'). unfold same_pool, pool_insert. cbn. by rewrite H1', H2', H3'. Qed.

Lemma add_same c c' a : same_pool c c' →
  same_pool (CollectedAttestations_add c a true).1
    (if bool_decide (cutoff c' < att_block_seq_no (data a))%Z then (pool_insert c' a).1 else c').
Proof.
  intros Hc. unfold CollectedAttestations_add. pose proof Hc as (_ & _ & Hcut). rewrite Hcut. cbn [andb].
  repeat case_bool_decide; try lia; [done|].
  destruct (pool_insert c a) as [c1 m] eqn:Hp. pose proof (pool_insert_same c c' a Hc) as Hs. rewrite Hp in Hs.
  destruct m; cbn [fst] in *; [|done]. by rewrite touch_same.
Qed.

Lemma inserts_each l c c' added : same_pool c c' →
  same_pool (foldl inserts (c, added) (filter (λ e, (cutoff c < att_block_seq_no (data e))%Z) l)).1 (add_each c' l).
Proof.
  revert c c' added. induction l as [|a l IH]; intros c c' added Hc; [done|].
  unfold add_each. cbn [foldl]. fold (add_each (CollectedAttestations_add c' a true).1 l).
  pose proof (add_same c' c a) as Ha. rewrite (symmetry_iff same_pool) in Hc. specialize (Ha Hc). symmetry in Ha.
  destruct (decide (cutoff c < att_block_seq_no (data a))%Z) as [Hcut|Hcut].
  - rewrite bool_decide_true in Ha by done. rewrite filter_cons_True by done.
    exact (IH (pool_insert c a).1 _ (added || (pool_insert c a).2) Ha).
  - rewrite bool_decide_false in Ha by done. rewrite filter_cons_False by done. by apply IH.
Qed.

Lemma bunch_is_each c l : same_pool (CollectedAttestations_add_bunch c l true).1 (add_each c l).
Proof.
  unfold CollectedAttestations_add_bunch. pose proof (inserts_each l c c false ltac:(done)) as Hi.
  destruct (filter _ l) as [|a k] eqn:Hf; [done|]. rewrite <- Hf in *.
  destruct (foldl inserts _ _) as [c' added]. destruct added; cbn [fst] in *; [by rewrite touch_same|done].
Qed.

(** *** Nothing is lost or reordered *)
Definition message_of (i : RxItem (M := M)) : option Message := match i with RxMsg m => Some m | RxTimeout => None end.
Definition next_of (mode : Mode) : option Message := match mode with Normal next => next | _ => None end.
(** What a node still has to handle. *)
Definition pending (st : NodeState (M := M) (St := St) * Mode * list RxItem) : list Message :=
  option_list (next_of st.1.2) ++ omap message_of st.2.
Definition attestation_of (m : Message) : option (Envelope AttestationData) :=
  match m with BlockAttestation (a, _) => Some a | _ => None end.

Lemma more_attestations_spec rx acc l next rx' : more_attestations rx acc = (l, next, rx') →
  ∃ k, omap message_of rx = k ++ option_list next ++ omap message_of rx' ∧ Forall (λ m, is_Some (attestation_of m)) k ∧
    l = acc ++ omap attestation_of k.
Proof.
  revert acc. induction rx as [|[m|] rx IH]; intros acc Hm; simpl in Hm.
  - injection Hm as <- <- <-. exists []. cbn. by rewrite app_nil_r.
  - destruct m; try (injection Hm as <- <- <-; exists []; cbn; by rewrite app_nil_r).
    destruct e as [a t]. destruct (IH _ Hm) as (k & Hk & Hall & ->).
    exists (BlockAttestation (a, t) :: k). change (omap message_of (RxMsg ?m :: rx)) with (m :: omap message_of rx). rewrite Hk.
    split; [done|]. split; [constructor; [by eexists|done]|]. by rewrite <- (assoc_L (++)).
  - injection Hm as <- <- <-. exists []. cbn. by rewrite app_nil_r.
Qed.

(** *** The reference: one message at a time *)
Notation incoming := (on_incoming_candidate_block config set_iter hash_of).

(** What a node at work does with one message that is not an attestation and does not make it
    synchronize. *)
Definition does (rd : Reading) n (m : Message) n' : Prop :=
  match m with
  | Candidate net => ∃ e, incoming n net None = Ok (n', e)
  | ResentCandidate (net, i) => ∃ e, incoming n net (Some i) = Ok (n', e)
  | Ack (ack, _) => ∃ a, on_ack (nd_ack_node n) ack = Ok a ∧ n' = nd_with_acks n a
  | Nack (nack, _) =>
      ∃ a, on_nack validation_alive (rd_shutdown rd) (nd_ack_node n) nack = Ok a ∧ n' = nd_with_acks n a
  | NodeJoining (i, _) =>
      on_node_joining config thread_iter has_zerostate load_zerostate zero load_all_accounts split_state fuel
        get_share_state_refs direct_ok broadcast_ok share_ok rd n i = Ok n'
  | BlockRequest start finish i _ k =>
      n' = if requests_alive then nd_with_request n (mkBlockRequestParams start finish i k (cf_thread_id config)) else n
  | SyncFrom (seq_no, _) | SyncFinalized (_, seq_no, _, _) =>
      must_synchronize config rd n seq_no = Ok false ∧ n' = n
  | _ => False
  end.

(** The attestations [k] were added one by one; nothing else of the node changes, up to the
    notification of the services. *)
Definition collects n (k : list Message) n' : Prop :=
  Forall (λ m, is_Some (attestation_of m)) k ∧ ∃ c o,
    n' = nd_log (nd_with_attestations n c) o ∧
    same_pool c (add_each (nd_attestations n) (omap attestation_of k)).

(** The message makes a node at work synchronize. *)
Definition must_leave (rd : Reading) n (m : Message) : Prop :=
  match m with
  | StartSynchronization => True
  | SyncFrom (seq_no, _) | SyncFinalized (_, seq_no, _, _) => must_synchronize config rd n seq_no = Ok true
  | _ => False
  end.

Definition candidate_of (m : Message) : option (NetBlock * option NodeIdentifier) :=
  match m with
  | Candidate net => Some (net, None)
  | ResentCandidate (net, i) => Some (net, Some i)
  | _ => None
  end.

(** What a synchronizing node does with one message: it takes a candidate in and may send
    something, it may start the download of a state, and drops everything else. *)
Definition skims n (m : Message) n' : Prop :=
  match candidate_of m, m with
  | Some (net, i), _ => ∃ n1 e o, incoming n net i = Ok (n1, e) ∧ n' = nd_log n1 o
  | None, SyncFinalized (_, _, a, _) => n' = n ∨ n' = nd_log n [LoadState a]
  | None, _ => n' = n
  end.

Inductive Work := AtWork | CatchingUp | Halted.

(** One step of a node on the messages it still has to handle. *)
Inductive node_step (rd : Reading) : Work * NodeState (M := M) (St := St) * list Message →
    Work * NodeState (M := M) (St := St) * list Message → Prop :=
  | ns_halted n l : node_step rd (Halted, n, l) (Halted, n, l)
  | ns_shutdown n l l' : rd_shutdown rd = true → l' = l ∨ l' = tail l →
      node_step rd (AtWork, n, l)
        (Halted, nd_log (nd_with_repo n (dump_unfinalized_blocks write_ok (nd_repo n) (clone_queue (nd_candidates config n))))
                   [DumpUnfinalized], l')
  | ns_closed n : node_step rd (AtWork, n, []) (Halted, n, [])
  | ns_idle n l : node_step rd (AtWork, n, l) (AtWork, nd_log n [TouchProducer], l)
  | ns_message n m l n' : does rd n m n' → node_step rd (AtWork, n, m :: l) (AtWork, n', l)
  | ns_attestations n k l n' : k ≠ [] → collects n k n' → node_step rd (AtWork, n, k ++ l) (AtWork, n', l)
  | ns_leave n m l n' locals : must_leave rd n m → sync_begin config broadcast_ok rd n = Ok (n', locals) →
      node_step rd (AtWork, n, m :: l) (CatchingUp, n', l)
  | ns_wait n l o : node_step rd (CatchingUp, n, l) (CatchingUp, nd_log n o, l)
  | ns_interrupted n o : node_step rd (CatchingUp, n, []) (Halted, nd_log n o, [])
  | ns_loaded n l o a n' : sync_loaded config (nd_log n o) a = Ok n' →
      node_step rd (CatchingUp, n, l) (AtWork, normal_begin config rd n', l)
  | ns_skim n m l o n' : skims (nd_log n o) m n' → node_step rd (CatchingUp, n, m :: l) (CatchingUp, n', l)
  | ns_caught_up n m l o n' : is_Some (candidate_of m) → skims (nd_log n o) m n' →
      node_step rd (CatchingUp, n, m :: l) (AtWork, normal_begin config rd n', l)
  | ns_forward n m l o n' : is_Some (candidate_of m) → skims (nd_log n o) m n' →
      node_step rd (CatchingUp, n, m :: l) (AtWork, normal_begin config rd n', m :: l).

Inductive node_steps : list Reading → Work * NodeState (M := M) (St := St) * list Message →
    Work * NodeState (M := M) (St := St) * list Message → Prop :=
  | node_steps_nil x : node_steps [] x x
  | node_steps_cons rd rds x y z : node_step rd x y → node_steps rds y z → node_steps (rd :: rds) x z.

Definition work_of (mode : Mode (M := M)) : Work :=
  match mode with Normal _ => AtWork | Synchronizing _ => CatchingUp | Stopped => Halted end.
Definition view (st : NodeState (M := M) (St := St) * Mode * list RxItem) :
    Work * NodeState (M := M) (St := St) * list Message := (work_of st.1.2, st.1.1, pending st).

(** *** A node at work *)
Lemma handle_order rd n m rx n' next rx' e : handle rd n m rx = Ok (n', next, rx', e) →
  (e = Return SynchronizationRequired ∧ n' = n ∧ next = None ∧ rx' = rx ∧ must_leave rd n m) ∨
  (e = Continue ∧ next = None ∧ rx' = rx ∧ does rd n m n') ∨
  (e = Continue ∧ ∃ k, m :: omap message_of rx = k ++ option_list next ++ omap message_of rx' ∧ k ≠ [] ∧ collects n k n').
Proof.
  intros Hh. unfold handle_message in Hh.
  destruct m as [b|[b i]|[ack t]|[nack t]|[x t]|[i t]|[a t]|start fin i t k|[s t]|[[[id s] ad] t]|sw|];
    try discriminate Hh; cbv zeta in Hh.
  6: { destruct (more_attestations rx [a]) as [[l next'] rx''] eqn:Hm. injection Hh as <- <- <- <-.
       destruct (more_attestations_spec _ _ _ _ _ Hm) as (k & Hk & Hall & ->). right; right. split; [done|].
       exists (BlockAttestation (a, t) :: k). rewrite Hk. split; [done|]. split; [done|].
       split; [constructor; [by eexists|done]|]. unfold collect_attestations.
       pose proof (bunch_is_each (nd_attestations n) ([a] ++ omap attestation_of k)) as Hb.
       destruct (CollectedAttestations_add_bunch _ _ _) as [c added]. cbn [fst] in Hb. exists c.
       exists (if added then [TouchBlockStates] else []). split; [|exact Hb].
       destruct added; [done|]. unfold nd_log. by destruct n; simpl; rewrite app_nil_r. }
  all: try (injection Hh as <- <- <- <-; right; left; by eauto).
  all: try (injection Hh as <- <- <- <-; by left).
  all: apply outcome_bind_Ok in Hh as (v & Hv & Hh); injection Hh as <- <- <- <-.
  all: try (destruct v; [by left|by right; left]).
  all: right; left; (split; [done|]); (split; [done|]); (split; [done|]); simpl.
  - destruct (incoming n b None) as [[n1 e1]| |]; [|done..]. injection Hv as <-. by exists e1.
  - destruct (incoming n b (Some i)) as [[n1 e1]| |]; [|done..]. injection Hv as <-. by exists e1.
  - destruct (on_ack _ _) as [a| |]; [|done..]. injection Hv as <-. by exists a.
  - destruct (on_nack _ _ _ _) as [a| |]; [|done..]. injection Hv as <-. by exists a.
  - exact Hv.
Qed.

Lemma normal_step_view rd n next rx st' : step rd (n, Normal next, rx) = Ok st' →
  node_step rd (view (n, Normal next, rx)) (view st').
Proof.
  unfold execute_step. intros ([[[n1 next1] rx1] e] & Hit & Hs)%outcome_bind_Ok.
  assert (Hmsg : ∀ m rx0, handle rd n m rx0 = Ok (n1, next1, rx1, e) →
    node_step rd (AtWork, n, m :: omap message_of rx0) (view st')).
  { intros m rx0 [(-> & -> & -> & -> & Hleave)|[(-> & -> & -> & Hdoes)|(-> & k & Hk & Hne & Hc)]]%handle_order.
    - apply outcome_bind_Ok in Hs as ([n2 l2] & Hb & [= <-]). by eapply ns_leave.
    - injection Hs as <-. by apply ns_message.
    - injection Hs as <-. rewrite Hk. by apply ns_attestations. }
  unfold normal_iteration in Hit. destruct (rd_shutdown rd) eqn:Hsh.
  { injection Hit as <- <- <- <-. injection Hs as <-. apply ns_shutdown; [done|].
    destruct next; [by right|by left]. }
  destruct next as [m|]; [by apply Hmsg|].
  case_bool_decide; [injection Hit as <- <- <- <-; injection Hs as <-; apply ns_idle|].
  destruct rx as [|[m|] rx]; [|by apply Hmsg|].
  - injection Hit as <- <- <- <-. injection Hs as <-. apply ns_closed.
  - injection Hit as <- <- <- <-. injection Hs as <-. apply ns_idle.
Qed.

(** *** A node that synchronizes *)
Lemma log_nil n : nd_log n [] = n.
Proof. unfold nd_log. destruct n; simpl. by rewrite app_nil_r. Qed.
Lemma log_log n o o' : nd_log (nd_log n o) o' = nd_log n (o ++ o').
Proof. unfold nd_log. destruct n; simpl. by rewrite <- app_assoc. Qed.

Lemma broadcast_logs b n m n' : send_broadcast broadcast_ok b n m = Ok n' → ∃ o, n' = nd_log n o.
Proof. unfold send_broadcast. destruct broadcast_ok, b; intros [=]; subst; eauto using eq_sym, log_nil. Qed.
Lemma direct_logs b n to m n' : send_direct direct_ok b n to m = Ok n' → ∃ o, n' = nd_log n o.
Proof. unfold send_direct. destruct (direct_ok to), b; intros [=]; subst; eauto using eq_sym, log_nil. Qed.

Lemma sync_timeout_logs rd n l n' l' : sync_timeout config broadcast_ok rd n l = Ok (n', l') → ∃ o, n' = nd_log n o.
Proof.
  unfold sync_timeout. case_bool_decide; [|intros [= <- _]; eauto using eq_sym, log_nil].
  intros (n1 & (o & ->)%broadcast_logs & [= <- _])%outcome_bind_Ok. rewrite log_log. eauto.
Qed.

Lemma load_task_logs n a n' : add_load_state_task load_task_ok n a = Ok n' → n' = nd_log n [LoadState a].
Proof. unfold add_load_state_task. by intros (? & _ & [= <-])%outcome_bind_Ok. Qed.

(** How an iteration of the synchronization may end on a message. *)
Definition ends_on (m : Message) (e : SyncEnd) : Prop :=
  match e with
  | SyncContinue _ => True
  | SyncReturn SyncOk => is_Some (candidate_of m)
  | SyncReturn (SyncForward m') => m' = m ∧ is_Some (candidate_of m)
  | SyncReturn SyncInterrupted => False
  end.

Lemma sync_candidate_skims rd n l m net i n' e : candidate_of m = Some (net, i) →
  sync_candidate config set_iter hash_of direct_ok load_task_ok rd n l m net i = Ok (n', e) →
  ends_on m e ∧ skims n m n'.
Proof.
  intros Hm. unfold skims. rewrite Hm. unfold sync_candidate.
  intros ([n1 o] & Hin & ([o1 ended] & Haw & Hs)%outcome_bind_Ok)%outcome_bind_Ok.
  cut (ends_on m e ∧ ∃ log, n' = nd_log n1 log).
  { intros (He & log & Hlog). split; [done|]. by exists n1, o, log. }
  assert (Hsame : ∃ log, n1 = nd_log n1 log) by (exists []; by rewrite log_nil).
  destruct ended as [e1|].
  { injection Hs as <- <-. split; [|done]. unfold sync_awaited in Haw.
    destruct (sl_initial_state l) as [[b s]|]; [|done]. case_bool_decide; [by injection Haw as _ <-|].
    case_bool_decide; [|done]. apply outcome_bind_Ok in Haw as (e2 & _ & (ch & _ & Hc)%outcome_bind_Ok).
    case_bool_decide; [destruct (sl_address l)|]; simplify_eq; simpl; rewrite ?Hm; eauto. }
  destruct (default _ _); [by simplify_eq|]. apply outcome_bind_Ok in Hs as (envelope & _ & Hs).
  destruct (is_block_already_applied _); [simplify_eq; split; [simpl; rewrite Hm; eauto|done]|].
  apply outcome_bind_Ok in Hs as ([n2 l2] & Hreq & Hs).
  assert (∃ log, n2 = nd_log n1 log) as [log ->].
  { unfold sync_request in Hreq. destruct (sl_request_sent l); [by simplify_eq|].
    apply outcome_bind_Ok in Hreq as (f & _ & Hreq). case_bool_decide; [|by simplify_eq].
    apply outcome_bind_Ok in Hreq as (n3 & (log & ->)%direct_logs & [= <- _]). eauto. }
  unfold sync_load_shared in Hs.
  destruct (sl_address l2); [simplify_eq; split; [done|eauto]|].
  destruct (cb_share_state_resources (data envelope)) as [a|]; [|simplify_eq; split; [done|eauto]].
  apply outcome_bind_Ok in Hs as (n3 & ->%load_task_logs & [= <- <-]). rewrite log_log. split; [done|eauto].
Qed.

Lemma sync_message_skims rd n l m n' e :
  sync_message config set_iter hash_of direct_ok load_task_ok rd n l m = Ok (n', e) → ends_on m e ∧ skims n m n'.
Proof.
  unfold sync_message. destruct m as [b|[b i]|? |? |? |? |? |? ? ? ? ?|[s t]|[[[id s] ad] t]|sw|]; try (by intros [= <- <-]);
    try (by apply sync_candidate_skims).
  destruct (sl_address l); [intros [= <- <-]; split; [done|by left]|].
  intros (n1 & ->%load_task_logs & [= <- <-])%outcome_bind_Ok. split; [done|by right].
Qed.

Lemma sync_step_view rd n l rx st' : step rd (n, Synchronizing l, rx) = Ok st' →
  node_step rd (view (n, Synchronizing l, rx)) (view st').
Proof.
  unfold execute_step. intros ([[n2 rx2] e] & Hit & Hs)%outcome_bind_Ok. unfold sync_iteration in Hit.
  apply outcome_bind_Ok in Hit as ([n1 l1] & (o & ->)%sync_timeout_logs & Hit).
  apply outcome_bind_Ok in Hit as ([n3 progress] & Hp & Hit).
  assert ((∃ l2, progress = SyncContinue l2 ∧ n3 = nd_log n o) ∨
    progress = SyncReturn SyncOk ∧ ∃ a, sync_loaded config (nd_log n o) a = Ok n3) as Hprog.
  { unfold sync_progress in Hp. destruct (sl_address l1) as [a|]; [|injection Hp as <- <-; eauto].
    destruct (rd_sync rd); try discriminate Hp; try (injection Hp as <- <-; by eauto).
    apply outcome_bind_Ok in Hp as (n4 & Hl & [= <- <-]). eauto. }
  destruct Hprog as [(l2 & -> & ->)|(-> & a & Hl)].
  2:{ injection Hit as <- <- <-. injection Hs as <-. by eapply ns_loaded. }
  destruct rx as [|[m|] rx].
  - injection Hit as <- <- <-. injection Hs as <-. apply ns_interrupted.
  - apply outcome_bind_Ok in Hit as ([n4 e4] & [He Hsk]%sync_message_skims & [= <- <- <-]).
    change (view (n, Synchronizing l, RxMsg m :: rx)) with (CatchingUp, n, m :: omap message_of rx).
    destruct e4 as [l4|[|m'|]]; simpl in He; [| | |done].
    + injection Hs as <-. by eapply ns_skim.
    + injection Hs as <-. by eapply ns_caught_up.
    + destruct He as [-> Hc]. injection Hs as <-. by eapply ns_forward.
  - injection Hit as <- <- <-. injection Hs as <-. apply ns_wait.
Qed.

Lemma step_view rd st st' : step rd st = Ok st' → node_step rd (view st) (view st').
Proof.
  destruct st as [[n [next|l|]] rx]; [apply normal_step_view|apply sync_step_view|].
  intros [= <-]. apply ns_halted.
Qed.

(** *** Which messages arrive *)
(** The routing never gives a node a message of the authority switch, whose arm panics. *)
Lemma routed_to_node (m : Message) t : destination m = Some (false, t) → ∀ e, m ≠ AuthoritySwitchProtocol e.
Proof. by intros Hm e ->. Qed.

(** An external message of another node is routed to the node, and stops it. *)
Lemma external_message_panics (d : Dispatcher M) t sender authority x : d !! t = Some (sender, authority) →
  receiver_dropped sender = false →
  (∃ sender', dispatch d (ExternalMessage (x, t)) = Ok (<[t := (sender', authority)]> d) ∧
     sent sender' = sent sender ++ [ExternalMessage (x, t)]) ∧
  ∀ rd n rx, handle rd n (ExternalMessage (x, t)) rx = Panic.
Proof.
  intros Hd Hopen. split; [|done]. unfold dispatch, send. cbn [destination]. rewrite Hd, Hopen. by eexists.
Qed.

End order.

(** ** Witnesses *)
Section NodeExample.
#[local] Existing Instance LinearBlst.
#[local] Existing Instance trace_ops.
#[local] Instance decode_block : Deserialize (Envelope CandidateBlock) :=
  λ l, match l with [n] => Some (chain_block n) | _ => None end.
#[local] Instance encode_ack : Serialize AckData := λ _, Some [].
#[local] Instance encode_candidate : Serialize CandidateBlock := λ b, Some [cb_seq_no b].

Definition example_config : NodeConfig := mkNodeConfig (example_node 1) example_thread 10 5 20 30 330.
Definition net_message (n : Z) : NetBlock :=
  mkNetBlock (example_node 2) (Some example_selector) example_thread (example_block n) n [n].
Definition fresh_node : NodeState (M := unit) (St := TraceState) :=
  mkNodeState (mkStateRepo ∅ ∅ ∅ ∅ ∅ ∅ (FinalizedBlockStorage_new 5) ∅ ∅ ∅ []) ∅ [] [] CollectedAttestations_default None None 0
    ∅ [] [].
Definition attestation_message (signer : Z) : NetworkMessage unit :=
  BlockAttestation (mkEnvelope (55 * signer)%Z {[signer := 1%Z]} example_attestation, example_thread).
Definition example_rx : list (RxItem (M := unit)) :=
  [RxMsg (attestation_message 1); RxMsg (attestation_message 2); RxMsg (Candidate (net_message 1)); RxTimeout;
   RxMsg (BlockRequest 1 2 (example_node 3) example_thread None); RxMsg (Candidate (net_message 2))].
Notation example_execute := (execute example_config elements elements false (λ _, None) trace_zero Ok false true 5 (λ _, [])
  (λ _, []) (λ _, true) true true true true true).

Lemma candidate_taken_once_witness :
  ∃ n' e, on_incoming_candidate_block example_config elements (λ _, []) fresh_node (net_message 1) None = Ok (n', Some e) ∧
    get_block_by_id (nd_candidates example_config n') (cb_identifier (data e)) = Some e ∧
    on_incoming_candidate_block example_config elements (λ _, []) n' (net_message 1) None
      = Ok (note_interest n' (net_message 1) None, None).
Proof.
  destruct (on_incoming_candidate_block example_config elements (λ _, []) fresh_node (net_message 1) None)
    as [[n' [e|]]| |] eqn:Hin.
  - destruct (candidate_taken_once example_config elements (λ X, reflexivity _) (λ _, []) _ _ _ _ _ Hin)
      as (_ & _ & _ & _ & _ & _ & Hfound & _ & Hagain).
    exists n', e. split; [reflexivity|]. split; [exact Hfound|]. apply Hagain. reflexivity.
  - exfalso. apply (f_equal (λ o, match o with Ok (_, None) => true | _ => false end)) in Hin.
    vm_compute in Hin. discriminate Hin.
  - exfalso. apply (f_equal (λ o, match o with Err _ => true | _ => false end)) in Hin. vm_compute in Hin. discriminate Hin.
  - exfalso. apply (f_equal (λ o, match o with Panic => true | _ => false end)) in Hin. vm_compute in Hin. discriminate Hin.
Defined.

Definition running : Reading := mkReading 100 false false SyncEmpty.
Definition example_end := example_execute running (replicate 7 running) fresh_node example_rx.


(** Three candidates are taken in and finalized; blocks 2 and 3 are asked for. *)
Definition candidates_taken : NodeState (M := unit) (St := TraceState) :=
  foldl (λ n k, match on_incoming_candidate_block example_config elements (λ _, []) n (net_message k) None with
                | Ok (n, _) => n
                | _ => n
                end) fresh_node [1; 2; 3]%Z.
Definition finalized_storage : FinalizedBlockStorage :=
  foldl (λ f k, match FinalizedBlockStorage_store elements f (example_block k) (chain_block k) with Ok f => f | _ => f end)
    (FinalizedBlockStorage_new 5) [1; 2; 3]%Z.
Definition serving_node : NodeState (M := unit) (St := TraceState) :=
  let r := nd_repo candidates_taken in
  nd_with_repo candidates_taken (mkStateRepo (sr_block_states r) (sr_metadatas r) (sr_saved_states r) (sr_finalized_state r)
    (sr_cache r) (sr_files r) finalized_storage (sr_unfinalized r) (sr_block_files r) (sr_state_files r) (sr_events r)).
Notation example_resend := (resend_finalized elements (λ _, true) (λ block, Some (net_message (cb_seq_no (data block))))).

Lemma finalized_blocks_resent_witness :
  ∃ l, finalized_chain elements serving_node 3 (example_block 3) l ∧ length l = 2 ∧
    example_resend serving_node (example_node 3) (example_block 3) 3 =
      (nd_log serving_node (sent_blocks (λ _, true) (λ block, Some (net_message (cb_seq_no (data block)))) (example_node 3) l),
       Ok (length l)).
Proof.
  assert (match (example_resend serving_node (example_node 3) (example_block 3) 3).2 with Ok k => k =? 2 | _ => false end = true)
    as Hlen by (vm_compute; reflexivity).
  destruct (finalized_blocks_resent elements (λ _, true) (λ block, Some (net_message (cb_seq_no (data block)))) serving_node
    (example_node 3) (example_block 3) 3) as [Hbad|(l & Hl & _ & Hsent)].
  - intros block. eexists. reflexivity.
  - rewrite Hbad in Hlen. discriminate Hlen.
  - rewrite Hsent in Hlen. apply Nat.eqb_eq in Hlen. cbn [snd] in Hlen. exists l. split; [exact Hl|]. split; [exact Hlen|exact Hsent].
Defined.
End NodeExample.
