(* ===== verification/Production.v ===== *)
(** * The production process

    Models [block/producer/process.rs], [block/producer/execution_time.rs],
    [block/producer/producer_service/memento.rs] and, of
    [block/producer/single_block_producer.rs], what follows the execution of a block.  A
    producing node starts a thread that makes one block after the other: it takes the acks and
    nacks that were received and combines them by block, chooses the blocks of other threads to
    refer to, executes a block for as long as the time allows, keeps its state and its data for
    other threads, and puts it where the service that signs and sends it (Producer.v) finds it.

    The block itself is built by Builder.v, where the execution of messages is the parameter
    [execute] and the hash of a block the parameter [block_hash].  Durations are in milliseconds.  The code is modelled with its default features ([fail-fast],
    [delay-references]); sleeping, metrics and tracing are left out. *)
From stdpp Require Import base numbers gmap fin_maps sorting list strings.
From S2P Require Import Prelude Identifiers Bitmask FixedCache Bls BlockKeepers Envelope Attestation Checkpoints Statistics BlockState Collected ThreadRefs BlockProcessor Finalization MessageStore LoadBalancing ExternalMessages NetworkMessage Routing StateRepository Builder Snapshot.

(** ** Acks and nacks of a block *)
Section aggregate.
Context `{Blst} {A : Type}.
Variable block_of : A → BlockIdentifier.
(** The order in which the values of the hash map are visited. *)
Variable block_iter : gset BlockIdentifier → list BlockIdentifier.
Implicit Types (agg e : Envelope A).

(** A further envelope for the same block: it is merged when it adds a signer. *)
Definition absorb agg e : outcome Empty_set (Envelope A) :=
  merge_occurrences (signature_occurrences agg) (signature_occurrences e) ≫= λ merged,
  let merged : Occurrences := filter (λ kv, (0 < kv.2)%Z) merged in
  if bool_decide (size (signature_occurrences agg) < size merged) then
    unwrap_ok (GoshBLS_merge (aggregated_signature agg) (aggregated_signature e)) ≫= λ signature,
    Ok (Envelope_create signature merged (data agg))
  else Ok agg.

Definition aggregate_one_ack (m : gmap BlockIdentifier (Envelope A)) e :
    outcome Empty_set (gmap BlockIdentifier (Envelope A)) :=
  match m !! block_of (data e) with
  | Some agg => absorb agg e ≫= λ agg, Ok (<[block_of (data e) := agg]> m)
  | None => Ok (<[block_of (data e) := e]> m)
  end.

Definition aggregate_by_block (received : list (Envelope A)) : outcome Empty_set (list (Envelope A)) :=
  fold_outcome aggregate_one_ack ∅ received ≫= λ m, Ok (omap (λ b, m !! b) (block_iter (dom m))).
End aggregate.

Definition nack_block_id `{Blst} (n : NackData) : BlockIdentifier :=
  match n with mkNackData b _ _ => b end.

Definition aggregate_acks `{Blst} block_iter (received_acks : list (Envelope AckData)) :=
  aggregate_by_block ack_block_id block_iter received_acks.
Definition aggregate_nacks `{Blst} block_iter (received_nacks : list (Envelope NackData)) :=
  aggregate_by_block nack_block_id block_iter received_nacks.

Section aggregate_theorems.
Context `{Blst} {A : Type} `{Serialize A} `{!BlstLaws}.
Variable block_of : A → BlockIdentifier.
Variable block_iter : gset BlockIdentifier → list BlockIdentifier.
Hypothesis block_iter_perm : ∀ X, block_iter X ≡ₚ elements X.
Variable signers : gmap Z PubKey.
Implicit Types (agg e : Envelope A) (o : Occurrences).

Definition valid_ack e : Prop :=
  occurrences_wf (signature_occurrences e) ∧ Envelope_verify_signatures e signers = Ok true.

#[local] Instance flat_keys_proper : Proper ((≡ₚ) ==> (≡ₚ)) (flat_keys signers) := flat_keys_perm signers.

Lemma flat_keys_positive o : occurrences_wf o →
  flat_keys signers (map_to_list (filter (λ kv, (0 < kv.2)%Z) o)) ≡ₚ flat_keys signers (map_to_list o).
Proof.
  induction o as [|k c o Hk IH] using map_ind; intros Hwf; [done|].
  apply map_Forall_insert in Hwf as [Hc Hwf]; [|done]. destruct (decide (0 < c)%Z).
  - rewrite map_filter_insert_True by done. rewrite !map_to_list_insert by (done || by apply map_lookup_filter_None; left).
    simpl. by rewrite IH.
  - rewrite map_filter_insert_False by done. rewrite delete_id by done.
    rewrite map_to_list_insert by done. simpl.
    replace (Z.to_nat c) with 0 by lia. rewrite IH by done. by destruct (signers !! k).
Qed.

Lemma drop_zero_valid s o (d : A) : valid_ack (mkEnvelope s o d) →
  valid_ack (mkEnvelope s (filter (λ kv, (0 < kv.2)%Z) o) d).
Proof.
  intros [Hwf Hv]. simpl in Hwf.
  assert (occurrences_wf (filter (λ kv, (0 < kv.2)%Z) o)) as Hwf'.
  { intros k c [Hc _]%map_lookup_filter_Some. by apply (Hwf k). }
  split; [done|]. apply verify_true_iff in Hv as (K & N & V); [|done]. apply verify_true_iff; [done|]. simpl in *.
  split_and!.
  - intros k c [Hc _]%map_lookup_filter_Some. by apply (K k).
  - intros Heq. apply N. pose proof (flat_keys_positive o Hwf) as Hp. rewrite Heq in Hp.
    by apply Permutation_nil_l in Hp.
  - by rewrite (verify_flat_perm _ _ _ _ (flat_keys_positive o Hwf)).
Qed.

(** What absorbing an envelope with the same data gives. *)
Lemma absorb_valid agg e agg' : valid_ack agg → valid_ack e → data agg = data e → absorb agg e = Ok agg' →
  valid_ack agg' ∧ data agg' = data agg.
Proof.
  intros [Hwa Hva] [Hwe Hve] Hd. unfold absorb, merge_occurrences.
  rewrite (merge_occurrences_any_order _ (signature_occurrences e)) by done.
  case_decide as Hfit; [|done]. cbn [mbind outcome_bind]. case_bool_decide; [|by intros [= <-]].
  destruct (GoshBLS_merge _ _) as [s| |] eqn:Hm; [|done..]. cbn [unwrap_ok mbind outcome_bind]. intros [= <-].
  split; [|done]. apply drop_zero_valid.
  assert (occurrences_wf (sum_occurrences (signature_occurrences agg) (signature_occurrences e))) as Hw.
  { intros k c Hc. rewrite sum_occurrences_lookup in Hc.
    destruct (signature_occurrences agg !! k) as [a|] eqn:Ha, (signature_occurrences e !! k) as [v|] eqn:Hv; simplify_eq.
    - specialize (Hfit k v Hv). unfold fits in Hfit. rewrite Ha in Hfit. exact Hfit.
    - by apply (Hwa k).
    - by apply (Hwe k). }
  split; [done|]. destruct agg as [sa oa da], e as [se oe de]. simpl in *. subst de.
  by eapply verify_sum.
Qed.

Definition positive o : Prop := map_Forall (λ _ c, (0 < c)%Z) o.

Lemma absorb_signers agg e agg' : positive (signature_occurrences agg) → positive (signature_occurrences e) →
  absorb agg e = Ok agg' →
  positive (signature_occurrences agg') ∧ Envelope_signers agg' = Envelope_signers agg ∪ Envelope_signers e.
Proof.
  intros Hpa Hpe. unfold absorb, merge_occurrences, Envelope_signers.
  rewrite (merge_occurrences_any_order _ (signature_occurrences e)) by done.
  case_decide as Hfit; [|done]. cbn [mbind outcome_bind].
  set (o := sum_occurrences (signature_occurrences agg) (signature_occurrences e)).
  assert (positive o) as Hpo.
  { intros k c Hc. unfold o in Hc. rewrite sum_occurrences_lookup in Hc.
    destruct (signature_occurrences agg !! k) as [a|] eqn:Ha, (signature_occurrences e !! k) as [v|] eqn:Hv; simplify_eq;
      try specialize (Hpa k _ Ha); try specialize (Hpe k _ Hv); simpl in *; lia. }
  rewrite map_filter_id by (intros k c Hc; exact (Hpo k c Hc)).
  assert (dom o = dom (signature_occurrences agg) ∪ dom (signature_occurrences e)) as Hdom by apply dom_sum_occurrences.
  case_bool_decide as Hsize.
  - destruct (GoshBLS_merge _ _) as [s| |]; [|done..]. cbn [unwrap_ok mbind outcome_bind]. intros [= <-]. done.
  - intros [= <-]. split; [done|]. symmetry. rewrite <- Hdom.
    symmetry. apply set_eq_subseteq. split; [set_solver|].
    assert (dom (signature_occurrences agg) ⊆ dom o) as Hsub by set_solver.
    intros s Hs. destruct (decide (s ∈ dom (signature_occurrences agg))) as [|Hn]; [done|]. exfalso. apply Hsize.
    rewrite <- !(size_dom (D := gset Z)). apply subset_size. set_solver.
Qed.

Record combined (l : list (Envelope A)) (b : BlockIdentifier) (o : option (Envelope A)) : Prop := {
  combined_none : o = None → ∀ e, e ∈ l → block_of (data e) ≠ b;
  combined_some a : o = Some a → valid_ack a ∧ positive (signature_occurrences a) ∧ block_of (data a) = b ∧
    (∃ e, e ∈ l ∧ data e = data a) ∧
    ∀ s, s ∈ Envelope_signers a ↔ ∃ e, e ∈ l ∧ block_of (data e) = b ∧ s ∈ Envelope_signers e;
}.

Definition combinable (l : list (Envelope A)) : Prop :=
  Forall (λ e, valid_ack e ∧ positive (signature_occurrences e)) l ∧
  ∀ e1 e2, e1 ∈ l → e2 ∈ l → block_of (data e1) = block_of (data e2) → data e1 = data e2.

Lemma aggregate_one_combined l e m m' : combinable (l ++ [e]) → (∀ b, combined l b (m !! b)) →
  aggregate_one_ack block_of m e = Ok m' → ∀ b, combined (l ++ [e]) b (m' !! b).
Proof.
  intros [Hall Hsame] Hm. apply Forall_app in Hall as [_ [[Hve Hpe] _]%Forall_cons]. unfold aggregate_one_ack.
  assert (e ∈ l ++ [e]) as He by set_solver.
  assert (∀ m' a, m' = <[block_of (data e) := a]> m → combined (l ++ [e]) (block_of (data e)) (Some a) →
    ∀ b, combined (l ++ [e]) b (m' !! b)) as Hother.
  { intros ? a -> Ha b. destruct (decide (b = block_of (data e))) as [->|Hb]; [by rewrite lookup_insert_eq|].
    rewrite lookup_insert_ne by done. destruct (Hm b) as [Hn Hs]. split.
    - intros Hnone e' [?| ->%list_elem_of_singleton]%elem_of_app; [by apply Hn|done].
    - intros a' (? & ? & ? & (e' & ? & ?) & Hsig)%Hs. split_and!; [done..| |]; [exists e'; set_solver|].
      intros s. rewrite Hsig. set_solver. }
  destruct (Hm (block_of (data e))) as [Hn Hs]. destruct (m !! block_of (data e)) as [agg|].
  - destruct (Hs agg eq_refl) as (Hva & Hpa & Hb & (e' & He' & Hd) & Hsig).
    intros (agg' & Hab & [= <-])%outcome_bind_Ok. apply (Hother _ agg'); [done|].
    destruct (absorb_valid agg e agg' Hva Hve) as [Hv' Hd'];
      [rewrite <- Hd; apply Hsame; set_solver by congruence|done|].
    destruct (absorb_signers agg e agg' Hpa Hpe Hab) as [Hp' Hsig']. split; [done|]. intros a [= <-].
    rewrite Hd'. split_and!; [done..| |]; [exists e'; set_solver|].
    intros s. rewrite Hsig'. rewrite elem_of_union, Hsig. set_solver.
  - intros [= <-]. apply (Hother _ e); [done|]. split; [done|]. intros a [= <-].
    split_and!; [done..| |]; [by exists e|]. intros s. split; [by exists e|].
    intros (e' & [Hin| ->%list_elem_of_singleton]%elem_of_app & Hb & ?); [|done]. by destruct (Hn eq_refl e' Hin).
Qed.

Lemma aggregate_combined l m m' k : combinable (k ++ l) → (∀ b, combined k b (m !! b)) →
  fold_outcome (aggregate_one_ack block_of) m l = Ok m' → ∀ b, combined (k ++ l) b (m' !! b).
Proof.
  revert m k. induction l as [|e l IH]; intros m k Hc Hm; simpl.
  - intros [= <-]. by rewrite app_nil_r.
  - intros (m1 & Hone & Hrest)%outcome_bind_Ok. rewrite cons_middle, (assoc_L (++)) in Hc |- *.
    apply (IH m1); [done| |done]. eapply aggregate_one_combined; [|done..].
    destruct Hc as [H1' H2']. apply Forall_app in H1' as [? _]. split; [done|]. set_solver.
Qed.

Lemma aggregate_valid l out : combinable l → aggregate_by_block block_of block_iter l = Ok out →
  Forall valid_ack out ∧ NoDup ((λ a, block_of (data a)) <$> out) ∧
  (∀ e, e ∈ l → ∃ a, a ∈ out ∧ data a = data e) ∧
  ∀ a s, a ∈ out → s ∈ Envelope_signers a ↔ ∃ e, e ∈ l ∧ data e = data a ∧ s ∈ Envelope_signers e.
Proof.
  intros Hc. unfold aggregate_by_block. intros (m & Hm & [= <-])%outcome_bind_Ok.
  pose proof (aggregate_combined l ∅ m [] Hc) as Hall. cbn [app] in Hall.
  assert (∀ b, combined l b (m !! b)) as Hb.
  { apply Hall; [|done]. intros b. rewrite lookup_empty. split; [|done]. intros _ e He. by apply not_elem_of_nil in He. }
  clear Hall. assert (∀ a, a ∈ omap (λ b, m !! b) (block_iter (dom m)) ↔ m !! block_of (data a) = Some a) as Hin.
  { intros a. rewrite list_elem_of_omap. split.
    - intros (b & _ & Ha). by destruct (combined_some _ _ _ (Hb b) a Ha) as (_ & _ & -> & _).
    - intros Ha. exists (block_of (data a)). split; [|done]. rewrite block_iter_perm, elem_of_elements.
      by apply elem_of_dom_2 in Ha. }
  split_and!.
  - apply Forall_forall. intros a Ha%Hin. by destruct (combined_some _ _ _ (Hb _) a Ha) as (? & _).
  - assert ((λ a, block_of (data a)) <$> omap (λ b, m !! b) (block_iter (dom m)) = block_iter (dom m)) as ->.
    { assert (Forall (λ b, is_Some (m !! b)) (block_iter (dom m))) as Hsome.
      { apply Forall_forall. intros b. rewrite block_iter_perm, elem_of_elements, elem_of_dom. done. }
      clear -Hb Hsome. induction Hsome as [|b bs [a Ha] _ IH]; [done|]. cbn. rewrite Ha. cbn. rewrite IH. f_equal.
      by destruct (combined_some _ _ _ (Hb b) a Ha) as (_ & _ & ? & _). }
    rewrite block_iter_perm. apply NoDup_elements.
  - intros e He. destruct (m !! block_of (data e)) as [a|] eqn:Ha.
    + exists a. destruct (combined_some _ _ _ (Hb _) a Ha) as (_ & _ & Hba & (e' & He' & Hd) & _).
      rewrite Hin, Hba. split; [done|]. rewrite <- Hd. destruct Hc as [_ Hsame]. apply Hsame; [done..|]. by rewrite Hd.
    + by destruct (combined_none _ _ _ (Hb _) Ha e He).
  - intros a s Ha%Hin. destruct (combined_some _ _ _ (Hb _) a Ha) as (_ & _ & _ & (e' & He' & Hd) & Hsig).
    rewrite Hsig. destruct Hc as [_ Hsame]. split; intros (e & He & Hx & Hs); exists e; split_and!; try done.
    + rewrite <- Hd. apply Hsame; [done..|]. by rewrite Hd.
    + by rewrite Hx.
Qed.
End aggregate_theorems.

(** C19 (acks of a block): the acks a producer includes are one envelope per block, each valid
    against the same keys as the received ones, and signed by exactly the keepers that signed an
    ack for that block, whenever the received acks are valid, count every signer, and agree on the
    number of a block.  Nacks are combined by the same code. *)
Theorem aggregated_acks_valid `{Blst} `{!BlstLaws} `{Serialize AckData} block_iter signers received out :
  (∀ X, block_iter X ≡ₚ elements X) → combinable ack_block_id signers received →
  aggregate_acks block_iter received = Ok out →
  Forall (valid_ack signers) out ∧ NoDup ((λ a, ack_block_id (data a)) <$> out) ∧
  (∀ e, e ∈ received → ∃ a, a ∈ out ∧ data a = data e) ∧
  ∀ a s, a ∈ out → s ∈ Envelope_signers a ↔ ∃ e, e ∈ received ∧ data e = data a ∧ s ∈ Envelope_signers e.
Proof. intros Hperm. by apply aggregate_valid. Qed.

(** ** How long a block may take *)
Record ProductionTimeoutCorrection := mkCorrection {
  last_production_duration : Z;
  correction : Z;
}.
Implicit Types c : ProductionTimeoutCorrection.

Definition ProductionTimeoutCorrection_default : ProductionTimeoutCorrection := mkCorrection 0 (-50).
Definition report_last_production c (duration : Z) : ProductionTimeoutCorrection := mkCorrection duration (correction c).

Definition get_production_timeout c (desired : Z) : ProductionTimeoutCorrection * Z :=
  let last_production := last_production_duration c in
  let corrected :=
    if bool_decide (desired < last_production)%Z then (correction c - 10)%Z
    else if bool_decide (0 < last_production)%Z && bool_decide (last_production < desired - 20)%Z
         then (correction c + 5)%Z
         else correction c in
  let max_correction := (- (desired * 9 / 10))%Z in
  let corrected := if bool_decide (corrected < max_correction)%Z then max_correction else corrected in
  (mkCorrection last_production corrected, (desired + corrected)%Z).

(** The timeouts of a row of productions that each take the timeout and some [extra] time. *)
Fixpoint timeouts (desired : Z) c (extra : list Z) : list Z :=
  match extra with
  | [] => []
  | x :: extra =>
      let '(c, timeout) := get_production_timeout c desired in
      timeout :: timeouts desired (report_last_production c (timeout + x)) extra
  end.

Lemma production_timeout_step desired c :
  (0 ≤ desired)%Z → (correction c ≤ Z.max (-15) (- (desired * 9 / 10)))%Z →
  (last_production_duration c = 0 ∨ desired + correction c ≤ last_production_duration c)%Z →
  let '(c', timeout) := get_production_timeout c desired in
  timeout = (desired + correction c')%Z ∧ (- (desired * 9 / 10) ≤ correction c' ≤ Z.max (-15) (- (desired * 9 / 10)))%Z.
Proof.
  intros Hd Hc Hlast. unfold get_production_timeout. cbn [correction]. split; [done|].
  set (x := if bool_decide (desired < last_production_duration c)%Z then _ else _).
  assert (x ≤ Z.max (-15) (- (desired * 9 / 10)))%Z as Hx.
  { unfold x. case_bool_decide; [lia|]. destruct (_ && _) eqn:Hb; [|done].
    apply andb_true_iff in Hb as [?%bool_decide_eq_true ?%bool_decide_eq_true]. lia. }
  case_bool_decide; lia.
Qed.

(** Time of a production: a production that is cut off by its timeout is given at least a
    tenth of the desired time, and always ends at least 15 milliseconds before the desired time
    (or has the tenth, when the desired time is that short): the correction neither runs away to
    zero nor to more time than is desired. *)
Theorem production_timeout_bounds desired extra : (0 ≤ desired)%Z → Forall (λ x, 0 ≤ x)%Z extra →
  Forall (λ t, desired - desired * 9 / 10 ≤ t ≤ Z.max (desired - 15) (desired - desired * 9 / 10))%Z
    (timeouts desired ProductionTimeoutCorrection_default extra).
Proof.
  intros Hd. assert (∀ c, (correction c ≤ Z.max (-15) (- (desired * 9 / 10)))%Z →
    (last_production_duration c = 0 ∨ desired + correction c ≤ last_production_duration c)%Z → Forall (λ x, 0 ≤ x)%Z extra →
    Forall (λ t, desired - desired * 9 / 10 ≤ t ≤ Z.max (desired - 15) (desired - desired * 9 / 10))%Z
      (timeouts desired c extra)) as Hall; [|apply Hall; cbn; lia].
  induction extra as [|x extra IH]; intros c Hc Hlast Hx; [constructor|]. apply Forall_cons in Hx as [Hx Hxs].
  pose proof (production_timeout_step desired c Hd Hc Hlast) as Hstep. cbn [timeouts].
  destruct (get_production_timeout c desired) as [c' timeout]. destruct Hstep as [-> Hc']. constructor; [lia|].
  apply IH; [cbn; lia|right; cbn; lia|done].
Qed.

(** ** Limits of the execution *)
Record ExecutionTimeLimits (H : Type) `{Countable H} := mkLimits {
  block_deadline : option Z;
  default_message_timeout : option Z;
  alternative_message_timeout : option Z;
  alternative_messages : option (gset H);
}.
Arguments mkLimits {H _ _}.
Arguments block_deadline {H _ _}.
Arguments default_message_timeout {H _ _}.
Arguments alternative_message_timeout {H _ _}.
Arguments alternative_messages {H _ _}.

(** The limits of the configuration. *)
Record TimeConfig := mkTimeConfig {
  time_to_produce_transaction_millis : option Z;
  time_to_verify_block_millis : Z;
  time_to_verify_transaction_millis : option Z;
  time_to_verify_transaction_aborted_with_execution_timeout_millis : option Z;
}.

Section limits.
Context {MessageHash : Type} `{Countable MessageHash}.
Implicit Types (l : ExecutionTimeLimits MessageHash).

Definition NO_LIMITS : ExecutionTimeLimits MessageHash := mkLimits None None None None.
Definition ExecutionTimeLimits_new (deadline default_timeout alternative : option Z) : ExecutionTimeLimits MessageHash :=
  mkLimits deadline default_timeout alternative None.
Definition production_limits (now block_timeout : Z) (config : TimeConfig) : ExecutionTimeLimits MessageHash :=
  ExecutionTimeLimits_new (Some (now + block_timeout)%Z) (time_to_produce_transaction_millis config) None.
Definition verification_limits (now : Z) (config : TimeConfig) : ExecutionTimeLimits MessageHash :=
  ExecutionTimeLimits_new (Some (now + time_to_verify_block_millis config)%Z) (time_to_verify_transaction_millis config)
    (time_to_verify_transaction_aborted_with_execution_timeout_millis config).
Definition add_alternative_message l (h : MessageHash) : ExecutionTimeLimits MessageHash :=
  mkLimits (block_deadline l) (default_message_timeout l) (alternative_message_timeout l)
    (Some (match alternative_messages l with Some hs => {[h]} ∪ hs | None => {[h]} end)).
Definition get_message_timeout l (h : MessageHash) : option Z :=
  if default false ((λ hs, bool_decide (h ∈ hs)) <$> alternative_messages l)
  then alternative_message_timeout l else default_message_timeout l.

(** A verifier gives the other limit to exactly the messages that ran out of time in the block. *)
Lemma verification_message_timeout now config hs h :
  get_message_timeout (foldl add_alternative_message (verification_limits now config) hs) h =
  if bool_decide (h ∈ hs) then time_to_verify_transaction_aborted_with_execution_timeout_millis config
  else time_to_verify_transaction_millis config.
Proof.
  assert (∀ l, alternative_message_timeout (foldl add_alternative_message l hs) = alternative_message_timeout l ∧
    default_message_timeout (foldl add_alternative_message l hs) = default_message_timeout l ∧
    default ∅ (alternative_messages (foldl add_alternative_message l hs)) =
      default ∅ (alternative_messages l) ∪ list_to_set hs) as Hall.
  { induction hs as [|x hs IH]; intros l; simpl; [set_solver|]. destruct (IH (add_alternative_message l x)) as (-> & -> & ->).
    split_and!; [done..|]. unfold add_alternative_message. simpl. destruct (alternative_messages l); set_solver. }
  destruct (Hall (verification_limits now config)) as (Ha & Hd & Hs). unfold get_message_timeout. rewrite Ha, Hd.
  simpl in Hs. assert (default false ((λ hs, bool_decide (h ∈ hs)) <$> alternative_messages
    (foldl add_alternative_message (verification_limits now config) hs)) = bool_decide (h ∈ hs)) as ->; [|done].
  destruct (alternative_messages _) as [s|]; simpl in *.
  - apply bool_decide_ext. rewrite Hs. set_solver.
  - symmetry. apply bool_decide_eq_false. set_solver.
Qed.
End limits.

(** ** References to the blocks of other threads *)
Section references.
Context `{Blst} {NackData : Type} `{EqDecision NackData}.
Notation Repo := (Repository NackData).
Implicit Types (r : Repo) (b id : BlockIdentifier).

(** [(length as f64).sqrt().ceil()]: exact for the lengths a table can have (below 2^52). *)
Definition steps_back (table : ThreadsTable) : nat := Nat.sqrt_up (length table).

(** One hop back over the known ancestors of a block: the steps that remain and the block. *)
Definition hop_back (s : AckiNackiBlockState NackData) (cursor : nat) : option (nat * BlockIdentifier) :=
  known ← match get s ancestors with
          | Some l => Some l
          | None => (λ p, [p]) <$> get s parent_block_identifier
          end;
  match known !! (cursor - 1) with
  | Some target => Some (0, target)
  | None => (λ b, (cursor - length known, b)) <$> last known
  end.

(** [None] when the fuel runs out, [Some None] when there is no such ancestor. *)
Fixpoint walk_steps (fuel : nat) r b (cursor : nat) : option (option BlockIdentifier) :=
  match cursor with
  | 0 => Some (Some b)
  | S _ =>
      match fuel with
      | 0 => None
      | S fuel =>
          match hop_back (repo_get r b) cursor with
          | None => Some None
          | Some (cursor, next) => walk_steps fuel r next cursor
          end
      end
  end.

(** The finalized blocks of the other threads, moved back. *)
Definition delay_references r (steps : nat) (l : list (ThreadIdentifier * BlockIdentifier)) :
    list (ThreadIdentifier * BlockIdentifier) :=
  omap (λ '(t, b), (λ b, (t, b)) <$> default None (walk_steps steps r b steps)) l.

(** *** The reference definition: the parent of the parent, and so on *)
Fixpoint nth_parent r (n : nat) b : option BlockIdentifier :=
  match n with
  | 0 => Some b
  | S n => get (repo_get r b) parent_block_identifier ≫= nth_parent r n
  end.

Lemma nth_parent_add r n m b : nth_parent r (n + m) b = nth_parent r n b ≫= nth_parent r m.
Proof. revert b. induction n as [|n IH]; intros b; [done|]. simpl. destruct (get _ _) as [p|]; [apply IH|done]. Qed.

(** What is recorded as the ancestors of a block is the chain of its parents. *)
Record ancestors_ok r : Prop := {
  ancestors_named b l i a : get (repo_get r b) ancestors = Some l → l !! i = Some a → nth_parent r (S i) b = Some a;
  ancestors_empty b : get (repo_get r b) ancestors = Some [] → get (repo_get r b) parent_block_identifier = None;
}.

Lemma hop_back_spec r b n : ancestors_ok r →
  match hop_back (repo_get r b) (S n) with
  | None => nth_parent r (S n) b = None
  | Some (n', b') => n' ≤ n ∧ nth_parent r (S n) b = nth_parent r n' b'
  end.
Proof.
  intros Hok. unfold hop_back. replace (S n - 1) with n by lia.
  assert (∀ known, (∀ i a, known !! i = Some a → nth_parent r (S i) b = Some a) →
    (known = [] → get (repo_get r b) parent_block_identifier = None) →
    match match known !! n with Some target => Some (0, target) | None => (λ b, (S n - length known, b)) <$> last known end with
    | None => nth_parent r (S n) b = None
    | Some (n', b') => n' ≤ n ∧ nth_parent r (S n) b = nth_parent r n' b'
    end) as Hknown.
  { intros known Hnamed Hempty. destruct (known !! n) as [a|] eqn:Hn.
    - split; [lia|]. by rewrite (Hnamed n a Hn).
    - apply lookup_ge_None in Hn. destruct (last known) as [a|] eqn:Hl; cbn [fmap option_fmap option_map].
      + rewrite last_lookup in Hl. assert (0 < length known) by (destruct known; [done|simpl; lia]). split; [lia|].
        specialize (Hnamed _ _ Hl). replace (S (pred (length known))) with (length known) in Hnamed by lia.
        replace (nth_parent r (S n) b) with (nth_parent r (length known + (S n - length known)) b) by (f_equal; lia).
        by rewrite nth_parent_add, Hnamed.
      + simpl. by rewrite (Hempty (proj1 (last_None _) Hl)). }
  destruct (get (repo_get r b) ancestors) as [l|] eqn:Hl.
  - apply Hknown; [intros i a; by apply (ancestors_named r Hok b l)|]. intros ->. by apply (ancestors_empty r Hok).
  - destruct (get (repo_get r b) parent_block_identifier) as [p|] eqn:Hp; [|simpl; by rewrite Hp].
    apply Hknown; [|done]. intros i a Ha. apply list_lookup_singleton_Some in Ha as [-> <-]. simpl. by rewrite Hp.
Qed.

(** The walk ends and finds what following the parents one by one finds. *)
Lemma walk_steps_spec r fuel b n : ancestors_ok r → n ≤ fuel → walk_steps fuel r b n = Some (nth_parent r n b).
Proof.
  intros Hok. revert b n. induction fuel as [|fuel IH]; intros b n Hn; (destruct n as [|n]; [done|]); [lia|].
  cbn [walk_steps]. pose proof (hop_back_spec r b n Hok) as Hhop.
  destruct (hop_back (repo_get r b) (S n)) as [[n' b']|]; [|by rewrite Hhop].
  destruct Hhop as [Hle ->]. apply IH. lia.
Qed.

(** Recording the ancestors of a block keeps the property. *)
Lemma set_ancestors_ok r id parent_id r' : ancestors_ok r →
  get (repo_get r id) parent_block_identifier = Some parent_id →
  set_ancestors r id parent_id = Ok r' → ancestors_ok r'.
Proof.
  intros Hok Hp. unfold set_ancestors. destruct (get (repo_get r id) ancestors) eqn:Hnone; [by intros [= <-]|].
  destruct (get (repo_get r parent_id) ancestors) as [l|] eqn:Hl; [|by intros [= <-]].
  unfold repo_set. intros (s & Hs%unwrap_ok_inv & [= <-])%outcome_bind_Ok.
  assert (∀ b f, f ≠ ancestors → get (repo_get (<[id := s]> r) b) f = get (repo_get r b) f) as Hframe.
  { intros b f Hne. rewrite repo_insert_get. case_decide; [|done]. subst b. by eapply generated_setter_frame. }
  assert (∀ n b, nth_parent (<[id := s]> r) n b = nth_parent r n b) as Hnth.
  { induction n as [|n IH]; intros b; [done|]. simpl. rewrite Hframe by done.
    destruct (get (repo_get r b) parent_block_identifier) as [p|]; [apply IH|done]. }
  assert (get s ancestors = Some (parent_id :: take (MAX_STATE_ANCESTORS - 1) l)) as Hanc.
  { unfold generated_setter in Hs. case_decide; [by simplify_eq|]. rewrite Hnone in Hs.
    cbn [fact_setter] in Hs. injection Hs as <-. apply set_fact_eq. }
  split.
  - intros b k i a Hk Ha. rewrite Hnth. rewrite repo_insert_get in Hk. case_decide as Hb.
    + subst b. rewrite Hanc in Hk. injection Hk as <-. cbn [nth_parent]. rewrite Hp. cbn [mbind option_bind].
      destruct i as [|i]; simpl in Ha; [by injection Ha as <-|]. apply lookup_take_Some in Ha as [Ha _].
      by apply (ancestors_named r Hok parent_id l).
    + by apply (ancestors_named r Hok b k).
  - intros b Hb. rewrite Hframe by done. rewrite repo_insert_get in Hb. case_decide as Heq.
    + subst b. rewrite Hanc in Hb. done.
    + by apply (ancestors_empty r Hok).
Qed.
End references.

(** ** Actions: a state that changes, and a result that may be an error *)
Definition action (W E A : Type) : Type := W → W * outcome E A.
#[global] Instance action_ret {W E} : MRet (action W E) := λ A a w, (w, Ok a).
#[global] Instance action_bind {W E} : MBind (action W E) := λ A B f m w,
  match m w with
  | (w, Ok a) => f a w
  | (w, Err e) => (w, Err e)
  | (w, Panic) => (w, Panic)
  end.
Definition lift_outcome {W E A} (o : outcome E A) : action W E A := λ w, (w, o).
Definition reads {W E A} (f : W → A) : action W E A := λ w, (w, Ok (f w)).
Definition updates {W E} (f : W → W) : action W E unit := λ w, (f w, Ok tt).
Fixpoint for_each {W E A} (f : A → action W E unit) (l : list A) : action W E unit :=
  match l with
  | [] => mret tt
  | a :: l => f a ≫= λ _, for_each f l
  end.

Lemma action_bind_Ok {W E A B} (m : action W E A) (f : A → action W E B) w w' b :
  (m ≫= f) w = (w', Ok b) ↔ ∃ w1 a, m w = (w1, Ok a) ∧ f a w1 = (w', Ok b).
Proof.
  unfold mbind, action_bind. destruct (m w) as [w1 [a| |]]; [|naive_solver..].
  split; [by eauto|]. intros (? & ? & [= <- <-] & ?). done.
Qed.

(** ** The world of a producer *)
Inductive ProductionError :=
  | RefStateMissing
  | ShareFailed
  | ProducerThreadFailed
  | RefDataNotStored
  | InStates (e : RepositoryError).

Section process.
Context `{Blst} {M St Payload C Active EpochData Forwarded Contents : Type} `{!OptimisticStateOps St} `{!ProducedState St}.
Context `{!BuilderState St Payload EpochData Forwarded Contents}.
Context `{LruCache C BlockIdentifier (option (CrossThreadRefData Payload))} `{TvmMessage M}.
Notation RefData := (CrossThreadRefData Payload).

Record ProducedBlock := mkProducedBlock {
  pb_block : CandidateBlock;
  (** the acks and nacks of the common section, which no modelled code reads *)
  pb_acks : list (Envelope AckData);
  pb_nacks : list (Envelope NackData);
  pb_state : St;
  pb_feedbacks : list ExtMsgFeedback;
  pb_block_state : BlockIdentifier;
}.

Record ProducerWorld := mkProducerWorld {
  pw_repo : StateRepo NackData St;
  pw_refs : RefStore Payload C;
  pw_thread_sync : ThreadSyncService;
  pw_balancer : LoadBalancingService;
  pw_external : ExternalMessagesQueue M;
  pw_received_acks : list (Envelope AckData);
  pw_received_nacks : list (Envelope NackData);
  pw_sync_requested : option BlockSeqNo;
  pw_produced : list ProducedBlock;
  (** the states given to the service that shares them, and to the one that saves them *)
  pw_shared : list St;
  pw_saved : list St;
}.
Implicit Types (w : ProducerWorld) (s : St).

Definition pw_states w : Repository NackData := sr_block_states (pw_repo w).
Definition set_repo w (r : StateRepo NackData St) : ProducerWorld :=
  mkProducerWorld r (pw_refs w) (pw_thread_sync w) (pw_balancer w) (pw_external w) (pw_received_acks w) (pw_received_nacks w)
    (pw_sync_requested w) (pw_produced w) (pw_shared w) (pw_saved w).
Definition set_states w (r : Repository NackData) : ProducerWorld :=
  let p := pw_repo w in
  set_repo w (mkStateRepo r (sr_metadatas p) (sr_saved_states p) (sr_finalized_state p) (sr_cache p) (sr_files p)
    (sr_finalized_blocks p) (sr_unfinalized p) (sr_block_files p) (sr_state_files p) (sr_events p)).
Definition set_refs w (refs : RefStore Payload C) : ProducerWorld :=
  mkProducerWorld (pw_repo w) refs (pw_thread_sync w) (pw_balancer w) (pw_external w) (pw_received_acks w)
    (pw_received_nacks w) (pw_sync_requested w) (pw_produced w) (pw_shared w) (pw_saved w).
Definition set_balancer w (b : LoadBalancingService) : ProducerWorld :=
  mkProducerWorld (pw_repo w) (pw_refs w) (pw_thread_sync w) b (pw_external w) (pw_received_acks w)
    (pw_received_nacks w) (pw_sync_requested w) (pw_produced w) (pw_shared w) (pw_saved w).
Definition set_external w (q : ExternalMessagesQueue M) : ProducerWorld :=
  mkProducerWorld (pw_repo w) (pw_refs w) (pw_thread_sync w) (pw_balancer w) q (pw_received_acks w)
    (pw_received_nacks w) (pw_sync_requested w) (pw_produced w) (pw_shared w) (pw_saved w).
Definition clear_received w : ProducerWorld :=
  mkProducerWorld (pw_repo w) (pw_refs w) (pw_thread_sync w) (pw_balancer w) (pw_external w) [] []
    (pw_sync_requested w) (pw_produced w) (pw_shared w) (pw_saved w).
Definition set_sync_requested w (o : option BlockSeqNo) : ProducerWorld :=
  mkProducerWorld (pw_repo w) (pw_refs w) (pw_thread_sync w) (pw_balancer w) (pw_external w) (pw_received_acks w)
    (pw_received_nacks w) o (pw_produced w) (pw_shared w) (pw_saved w).
Definition set_produced w (l : list ProducedBlock) : ProducerWorld :=
  mkProducerWorld (pw_repo w) (pw_refs w) (pw_thread_sync w) (pw_balancer w) (pw_external w) (pw_received_acks w)
    (pw_received_nacks w) (pw_sync_requested w) l (pw_shared w) (pw_saved w).
Definition add_shared w s : ProducerWorld :=
  mkProducerWorld (pw_repo w) (pw_refs w) (pw_thread_sync w) (pw_balancer w) (pw_external w) (pw_received_acks w)
    (pw_received_nacks w) (pw_sync_requested w) (pw_produced w) (pw_shared w ++ [s]) (pw_saved w).
Definition add_saved w s : ProducerWorld :=
  mkProducerWorld (pw_repo w) (pw_refs w) (pw_thread_sync w) (pw_balancer w) (pw_external w) (pw_received_acks w)
    (pw_received_nacks w) (pw_sync_requested w) (pw_produced w) (pw_shared w) (pw_saved w ++ [s]).

(** The locals of the production thread. *)
Record Production := mkProduction {
  pr_state : St;
  pr_parent : BlockIdentifier;
  pr_round : Z;
  pr_correction : ProductionTimeoutCorrection;
  pr_active : Active;
}.
Notation Thread := (ProducerWorld * Production)%type.
Notation producing A := (action ProducerWorld ProductionError A).
Notation threading A := (action Thread ProductionError A).

Notation Input := (BuildInput (M := M) (St := St) (Payload := Payload) (Active := Active) (EpochData := EpochData)).
Notation Built := (Built (St := St) (Payload := Payload) (Active := Active)).
Variable execute : Input → BlockBuilder (St := St) (Forwarded := Forwarded) →
  outcome unit (Executed (Active := Active) (Contents := Contents)).
Variable block_hash : BlockHeader → Contents → BlockIdentifier.
Variable thread_id : ThreadIdentifier.
Variable producer_node_id : NodeIdentifier.
Variable thread_count_soft_limit : nat.
Variable block_iter : gset BlockIdentifier → list BlockIdentifier.
Variable thread_iter : gset ThreadIdentifier → list ThreadIdentifier.
(** The repository of states with a fuel for its lookups. *)
Variable has_zerostate : bool.
Variable load_zerostate : ThreadIdentifier → option St.
Variable zero : St.
Variable load_all_accounts : St → outcome RepositoryError St.
Variable split_state : bool.
Variable fuel : nat.
(** Whether there is a service that shares states and whether it accepts one, and whether the
    files with the data for other threads can be written and read. *)
Variable share_service share_ok : bool.
Variable ref_write_ok ref_readable : BlockIdentifier → bool.

(** *** Choosing references *)
(** The data of a block is taken when the block is newer than the last one referred to. *)
Definition load_reference s (acc : list RefData) (e : ThreadIdentifier * BlockIdentifier) : producing (list RefData) :=
  λ w,
  let '(refs, found) := get_cross_thread_ref_data ref_readable (pw_refs w) e.2 in
  let w := set_refs w refs in
  match found with
  | Panic => (w, Panic)
  | Err _ => (w, Ok acc)
  | Ok d =>
      (w, Ok (match all_thread_refs s !! e.1 with
              | Some existing => if bool_decide (referenced_seq_no existing < data_seq_no d)%Z then acc ++ [d] else acc
              | None => acc ++ [d]
              end))
  end.
Fixpoint load_references s (acc : list RefData) (l : list (ThreadIdentifier * BlockIdentifier)) : producing (list RefData) :=
  match l with
  | [] => mret acc
  | e :: l => load_reference s acc e ≫= λ acc, load_references s acc l
  end.
Definition read_thread_refs s : producing (list RefData) :=
  reads (λ w, delay_references (pw_states w) (steps_back (state_threads_table s))
                (list_blocks_sending_messages_to_thread (pw_thread_sync w) thread_id))
  ≫= load_references s [].

(** *** Sharing states *)
Definition share_full_state (b : BlockIdentifier) (t : ThreadIdentifier) (min_state : option St)
    (missing : outcome ProductionError St) : producing unit :=
  λ w,
  let '(r, found) := default (pw_repo w, Panic)
    (get_full_optimistic_state thread_iter has_zerostate load_zerostate zero load_all_accounts split_state fuel (pw_repo w) b t
       min_state) in
  let w := set_repo w r in
  match found with
  | Panic => (w, Panic)
  | Err e => (w, Err (InStates e))
  | Ok o =>
      match match o with Some s => Ok s | None => missing end with
      | Ok s => if share_ok then (add_shared w s, Ok tt) else (w, Err ShareFailed)
      | Err e => (w, Err e)
      | Panic => (w, Panic)
      end
  end.

Definition share_references s (refs : list RefData) : producing unit :=
  if share_service then
    lift_outcome (next_seq_no (get_block_seq_no s)) ≫= λ next,
    reads pw_sync_requested ≫= λ requested,
    if bool_decide (requested = Some next)
    then for_each (λ d, share_full_state (data_block_identifier d) (data_thread d) None (Err RefStateMissing)) refs
    else mret tt
  else mret tt.
Definition share_result s : producing unit :=
  if share_service then
    reads pw_sync_requested ≫= λ requested,
    if bool_decide (requested = Some (get_block_seq_no s))
    then share_full_state (get_block_id s) (get_thread_id s) (Some s) Panic
    else mret tt
  else mret tt.

(** *** A block *)
(** [is_thread_splitting] *)
Definition is_thread_splitting (b : BlockIdentifier) (table : option ThreadsTable) : bool :=
  match table with
  | Some table => existsb (λ row : ThreadsRow, ThreadIdentifier_is_spawning_block row.2 b) table
  | None => false
  end.

(** What the thread that executes a block hands over. *)
Record Produced := mkProduced {
  pd_block : CandidateBlock;
  pd_state : St;
  pd_ref_data : RefData;
  pd_active : Active;
  pd_stamps : list Stamp;
  pd_feedbacks : list ExtMsgFeedback;
}.

Definition forward_table (a : ThreadAction) : option ThreadsTable :=
  match a with
  | ContinueAsIs => None
  | LoadBalancing.Split table | Collapse table => Some table
  end.

Definition check_load (bt : Built) : action ProducerWorld unit ThreadAction :=
  λ w,
  match LoadBalancing.check (pw_balancer w) (get_block_id (bt_state bt)) thread_id (bt_in_table bt) thread_count_soft_limit with
  | Ok (balancer, a) => (set_balancer w balancer, Ok a)
  | Err StatsAreNotReady => (w, Ok ContinueAsIs)
  | Err ThreadIsNotInTheTable => (w, Panic)
  | Panic => (w, Panic)
  end.

Definition set_produced_fact (b : BlockIdentifier) (f : fact) (v : fact_type f) {E} : action ProducerWorld E unit :=
  λ w,
  match generated_setter (repo_get (pw_states w) b) f v with
  | Ok e => (set_states w (<[b := e]> (pw_states w)), Ok tt)
  | _ => (w, Panic)
  end.

(** [TVMBlockProducer::produce] after the block is built. *)
Definition finish_block (bt : Built) (refs : list RefData) (parent : BlockIdentifier) (round : Z) :
    action ProducerWorld unit Produced :=
  check_load bt ≫= λ proposed,
  let table := forward_table proposed in
  let new_state := from_option (set_produced_threads_table (bt_state bt)) (bt_state bt) table in
  let ref_data := from_option (set_threads_table (bt_ref_data bt)) (bt_ref_data bt) table in
  let ref_ids := data_block_identifier <$> refs in
  reads (λ w, get (repo_get (pw_states w) parent) block_height) ≫= λ parent_height,
  lift_outcome (unwrap parent_height ≫= λ h, BlockHeight_next h thread_id) ≫= λ height,
  set_produced_fact (get_block_id (bt_state bt)) block_height height ≫= λ _,
  set_produced_fact (get_block_id (bt_state bt)) block_round round ≫= λ _,
  mret (mkProduced
    (mkCandidate _ (bt_identifier bt) (bt_seq_no bt) height thread_id producer_node_id [] ref_ids
       (bt_block_keeper_set_changes bt) table None (is_thread_splitting (bt_identifier bt) table) (bt_parent bt) (bt_time bt)
       round None)
    new_state (set_block_refs ref_data ref_ids) (bt_active bt) (bt_stamps bt) (bt_feedbacks bt)).

(** The thread that executes the block is joined: a panic in it is an error. *)
Definition produce (i : Input) (parent : BlockIdentifier) (round : Z) : producing Produced :=
  λ w,
  let '(w, produced) := (lift_outcome (build_block execute block_hash thread_id i) ≫= λ bt,
    finish_block bt (bi_refs i) parent round) w in
  (w, match produced with Ok p => Ok p | _ => Err ProducerThreadFailed end).

(** *** One iteration of the thread *)
Definition on_world {A} (m : producing A) : threading A :=
  λ '(w, p), let '(w, a) := m w in ((w, p), a).
Definition on_thread (f : Production → Production) : threading unit := updates (λ '(w, p), (w, f p)).
(** No thread of the executor is active. *)
Variable no_active : Active.

Definition take_active (p : Production) : Production :=
  mkProduction (pr_state p) (pr_parent p) (pr_round p) (pr_correction p) no_active.
Definition correct_timeout (desired : Z) (p : Production) : Production :=
  mkProduction (pr_state p) (pr_parent p) (pr_round p) (get_production_timeout (pr_correction p) desired).1 (pr_active p).
Definition move_on (s : St) (active : Active) (p : Production) : Production :=
  mkProduction s (pr_parent p) (pr_round p) (pr_correction p) active.
Definition report_duration (duration : Z) (p : Production) : Production :=
  mkProduction (pr_state p) (pr_parent p) (pr_round p) (report_last_production (pr_correction p) duration) (pr_active p).

(** What other parts of the node decide during an iteration: whether production is to stop, the
    data of the epochs, how long it took, and the time. *)
Record Moment := mkMoment {
  mo_stop : bool;
  mo_epoch_data : list EpochData;
  mo_duration : Z;
  mo_now : Z;
}.

Definition store_ref_data (d : RefData) : producing unit :=
  λ w, let '(refs, res) := set_cross_thread_ref_data ref_write_ok (pw_refs w) d in
       (set_refs w refs, match res with Ok _ => Ok tt | Err _ => Err RefDataNotStored | Panic => Panic end).

Definition erase_stamps (stamps : list Stamp) : producing unit :=
  match stamps with
  | [] => mret tt
  | _ => updates (λ w, set_external w (erase_processed (pw_external w) stamps))
  end.

(** Whether production continues, and the block that was produced. *)
Definition produce_next (desired : Z) (mo : Moment) : threading (bool * BlockIdentifier) :=
  reads (λ '(w, _), (get_remaining_external_messages (pw_external w), pw_received_acks w, pw_received_nacks w))
  ≫= λ '(messages, acks, nacks),
  on_world (updates clear_received) ≫= λ _,
  lift_outcome (unwrap_ok (aggregate_acks block_iter acks)) ≫= λ acks,
  lift_outcome (unwrap_ok (aggregate_nacks block_iter nacks)) ≫= λ nacks,
  reads snd ≫= λ p,
  on_thread take_active ≫= λ _,
  on_world (read_thread_refs (pr_state p)) ≫= λ refs,
  on_world (share_references (pr_state p) refs) ≫= λ _,
  on_thread (correct_timeout desired) ≫= λ _,
  on_world (produce (mkBuildInput (pr_state p) refs messages nacks (mo_epoch_data mo) (pr_active p) (mo_now mo)) (pr_parent p)
    (pr_round p)) ≫= λ pd,
  let b := cb_identifier (pd_block pd) in
  if mo_stop mo then mret (false, b)
  else
    on_world (erase_stamps (pd_stamps pd)) ≫= λ _,
    on_thread (move_on (pd_state pd) (pd_active pd)) ≫= λ _,
    on_world (updates (λ w, set_repo w (store_optimistic_in_cache (pw_repo w) (pd_state pd)))) ≫= λ _,
    on_world (share_result (pd_state pd)) ≫= λ _,
    on_world (store_ref_data (pd_ref_data pd)) ≫= λ _,
    on_world (set_produced_fact b has_cross_thread_ref_data_prepared true) ≫= λ _,
    on_world (updates (λ w, set_produced w
      (pw_produced w ++ [mkProducedBlock (pd_block pd) acks nacks (pd_state pd) (pd_feedbacks pd) b]))) ≫= λ _,
    on_thread (report_duration (mo_duration mo)) ≫= λ _,
    mret (true, b).

(** ** The process *)
Inductive ThreadStatus := Running (p : Production) | Finished (s : St) | Panicked.
Record Process := mkProcess {
  ps_world : ProducerWorld;
  active_producer_thread : option ThreadStatus;
  block_produce_timeout : Z;
  optimistic_state_cache : option St;
}.
Implicit Types ps : Process.
Notation processing A := (action Process ProductionError A).

(** An iteration of the loop of the thread. *)
Definition thread_iteration (desired : Z) (mo : Moment) (w : ProducerWorld) (p : Production) : ProducerWorld * ThreadStatus :=
  match produce_next desired mo (w, p) with
  | ((w, p), Ok (true, b)) => (w, Running (mkProduction (pr_state p) b 0 (pr_correction p) (pr_active p)))
  | ((w, p), Ok (false, _)) | ((w, p), Err _) =>
      (add_saved (set_repo w (store_optimistic_in_cache (pw_repo w) (pr_state p))) (pr_state p), Finished (pr_state p))
  | ((w, _), Panic) => (w, Panicked)
  end.

Definition with_thread ps (w : ProducerWorld) (t : option ThreadStatus) : Process :=
  mkProcess w t (block_produce_timeout ps) (optimistic_state_cache ps).

(** The thread runs on its own. *)
Definition run_thread (mo : Moment) ps : Process :=
  match active_producer_thread ps with
  | Some (Running p) =>
      let '(w, t) := thread_iteration (block_produce_timeout ps) mo (ps_world ps) p in with_thread ps w (Some t)
  | _ => ps
  end.

Definition initial_state (prev_block_id : BlockIdentifier) : processing St :=
  λ ps,
  match (s ← optimistic_state_cache ps; if bool_decide (get_block_id s = prev_block_id) then Some s else None) with
  | Some s => (ps, Ok s)
  | None =>
      let w := ps_world ps in
      let '(r, found) := default (pw_repo w, Panic)
        (get_optimistic_state thread_iter has_zerostate load_zerostate zero fuel (pw_repo w) prev_block_id thread_id None) in
      let ps := with_thread ps (set_repo w r) (active_producer_thread ps) in
      (ps, match found with
           | Ok (Some s) => Ok s
           | Ok None =>
               if bool_decide (prev_block_id = BlockIdentifier_default)
               then match get_zero_state_for_thread has_zerostate load_zerostate zero thread_id with
                    | Ok s => Ok s
                    | Err e => Err (InStates e)
                    | Panic => Panic
                    end
               else Panic
           | Err e => Err (InStates e)
           | Panic => Panic
           end)
  end.

Definition start_thread_production (prev_block_id : BlockIdentifier) (initial_round : Z) : processing unit :=
  reads active_producer_thread ≫= λ active,
  match active with
  | Some _ => mret tt
  | None =>
      initial_state prev_block_id ≫= λ s,
      updates (λ ps, with_thread ps (ps_world ps)
        (Some (Running (mkProduction s prev_block_id initial_round ProductionTimeoutCorrection_default no_active))))
  end.

(** [sort_by_key(|a| a.block().seq_no())] *)
Definition by_seq_no (a b : ProducedBlock) : Prop := (cb_seq_no (pb_block a) ≤ cb_seq_no (pb_block b))%Z.
#[global] Instance by_seq_no_dec : RelDecision by_seq_no.
Proof. unfold by_seq_no. intros a b. apply _. Defined.

Definition drain ps : Process * list ProducedBlock :=
  let w := ps_world ps in
  (with_thread ps (set_produced w []) (active_producer_thread ps), merge_sort by_seq_no (pw_produced w)).

(** With [fail-fast], a thread that has ended is a failed assertion. *)
Definition get_produced_blocks : processing (list ProducedBlock) :=
  λ ps,
  match active_producer_thread ps with
  | Some (Finished _) | Some Panicked => (ps, Panic)
  | _ => let '(ps, blocks) := drain ps in (ps, Ok blocks)
  end.

(** A running thread reads the signal at the end of its iteration. *)
Definition stop_thread_production (mo : Moment) : processing unit :=
  λ ps,
  let stopping := mkMoment true (mo_epoch_data mo) (mo_duration mo) (mo_now mo) in
  let ended :=
    match active_producer_thread ps with
    | Some (Running p) => Some (thread_iteration (block_produce_timeout ps) stopping (ps_world ps) p)
    | Some t => Some (ps_world ps, t)
    | None => None
    end in
  match ended with
  | None => (ps, Ok tt)
  | Some (w, Finished s) =>
      ((drain (mkProcess w None (block_produce_timeout ps) (Some s))).1, Ok tt)
  | Some (w, _) => (with_thread ps w None, Err ProducerThreadFailed)
  end.

Definition set_timeout (timeout : Z) ps : Process :=
  mkProcess (ps_world ps) (active_producer_thread ps) timeout (optimistic_state_cache ps).
End process.

(** ** Which blocks are referred to *)
Section reference_theorems.
Context `{Blst} {M St Payload C : Type} `{!OptimisticStateOps St} `{!ProducedState St}.
Context `{LruCache C BlockIdentifier (option (CrossThreadRefData Payload))}.
Context `{!LruLaws C BlockIdentifier (option (CrossThreadRefData Payload))} `{TvmMessage M}.
Variable thread_id : ThreadIdentifier.
Variable ref_readable : BlockIdentifier → bool.
Hypothesis refs_readable : ∀ b, ref_readable b = true.
Notation RefData := (CrossThreadRefData Payload).
Implicit Types (w : ProducerWorld (M := M) (St := St) (Payload := Payload) (C := C)) (s : St)
  (m : gmap BlockIdentifier RefData).

(** The data of a block, if it is there and the state [s] does not refer to the block or to a
    later one of its thread. *)
Definition newer_data s m (e : ThreadIdentifier * BlockIdentifier) : option RefData :=
  d ← m !! e.2;
  match all_thread_refs s !! e.1 with
  | Some existing => if bool_decide (referenced_seq_no existing < data_seq_no d)%Z then Some d else None
  | None => Some d
  end.

Lemma load_references_spec s m l acc w : stands_for (pw_refs w) m →
  ∃ refs, load_references ref_readable s acc l w = (set_refs w refs, Ok (acc ++ omap (newer_data s m) l)) ∧
    stands_for refs m.
Proof.
  revert acc w. induction l as [|e l IH]; intros acc w Hw.
  - exists (pw_refs w). cbn. rewrite app_nil_r. split; [by destruct w|done].
  - cbn [load_references]. destruct (get_ref_data_spec ref_readable (pw_refs w) m e.2 Hw refs_readable) as (refs & Hget & Hrefs).
    unfold mbind, action_bind, load_reference. rewrite Hget.
    assert (omap (newer_data s m) (e :: l) = option_list (newer_data s m e) ++ omap (newer_data s m) l) as ->
      by (cbn; by destruct (newer_data s m e)).
    unfold newer_data at 1. destruct (m !! e.2) as [d|]; cbn [ok_or mbind option_bind].
    + set (o := match all_thread_refs s !! e.1 with Some _ => _ | None => _ end).
      destruct (IH (acc ++ option_list (match all_thread_refs s !! e.1 with
        | Some existing => if bool_decide (referenced_seq_no existing < data_seq_no d)%Z then Some d else None
        | None => Some d end)) (set_refs w refs) Hrefs) as (refs' & Hrest & Hrefs').
      exists refs'. split; [|done]. rewrite <- (assoc_L (++)) in Hrest. etrans; [|exact Hrest]. f_equal.
      unfold o. destruct (all_thread_refs s !! e.1); [case_bool_decide|]; cbn [option_list]; by rewrite ?app_nil_r.
    + exact (IH acc (set_refs w refs) Hrefs).
Qed.

(** C18 (references): a producer refers to the finalized blocks of the other threads as many
    generations back as the square root of the number of threads asks for: hopping over the
    recorded ancestors finds exactly the blocks that following the parents one by one finds, and
    of these it takes, in order, the data of those it has and that are newer than what its state
    refers to; given that the recorded ancestors are the chain of the parents ([set_ancestors_ok]
    shows that recording keeps that) and that the files with the data can be read. *)
Theorem references_are_delayed_ancestors s w m : ancestors_ok (pw_states w) → stands_for (pw_refs w) m →
  let k := steps_back (state_threads_table s) in
  ∃ refs, read_thread_refs thread_id ref_readable s w =
      (set_refs w refs,
       Ok (omap (λ e, b ← nth_parent (pw_states w) k e.2; newer_data s m (e.1, b))
             (list_blocks_sending_messages_to_thread (pw_thread_sync w) thread_id))) ∧
    stands_for refs m.
Proof.
  intros Hanc Hw k. unfold read_thread_refs, mbind, action_bind, reads. fold k.
  destruct (load_references_spec s m (delay_references (pw_states w) k
    (list_blocks_sending_messages_to_thread (pw_thread_sync w) thread_id)) [] w Hw) as (refs & -> & Hrefs).
  exists refs. split; [|done]. cbn [app]. do 2 f_equal. unfold delay_references.
  induction (list_blocks_sending_messages_to_thread _ _) as [|[t b] l IH]; [done|]. cbn.
  rewrite walk_steps_spec by (done || lia). cbn. destruct (nth_parent (pw_states w) k b) as [b'|]; cbn; [|exact IH].
  destruct (newer_data s m (t, b')); cbn; by rewrite IH.
Qed.
End reference_theorems.

(** ** What is produced is a chain *)
Section chain_theorems.
Context `{Blst} {M St Payload C Active EpochData Forwarded Contents : Type} `{!OptimisticStateOps St} `{!ProducedState St}.
Context `{!BuilderState St Payload EpochData Forwarded Contents}.
Context `{!ProducedLaws St} `{!BuilderLaws St Payload EpochData Forwarded Contents}.
Context `{LruCache C BlockIdentifier (option (CrossThreadRefData Payload))} `{TvmMessage M}.
Notation RefData := (CrossThreadRefData Payload).
Notation World := (ProducerWorld (M := M) (St := St) (Payload := Payload) (C := C)).
Variable execute : BuildInput (M := M) (St := St) (Payload := Payload) (Active := Active) (EpochData := EpochData) →
  BlockBuilder (St := St) (Forwarded := Forwarded) → outcome unit (Executed (Active := Active) (Contents := Contents)).
Variable block_hash : BlockHeader → Contents → BlockIdentifier.
Variable thread_id : ThreadIdentifier.
Variable producer_node_id : NodeIdentifier.
Variable thread_count_soft_limit : nat.
Variable block_iter : gset BlockIdentifier → list BlockIdentifier.
Variable thread_iter : gset ThreadIdentifier → list ThreadIdentifier.
Variable has_zerostate : bool.
Variable load_zerostate : ThreadIdentifier → option St.
Variable zero : St.
Variable load_all_accounts : St → outcome RepositoryError St.
Variable split_state : bool.
Variable fuel : nat.
Variable share_service share_ok : bool.
Variable ref_write_ok ref_readable : BlockIdentifier → bool.
Variable no_active : Active.
Implicit Types (w : World) (s : St) (b : BlockIdentifier).
Notation next := (produce_next execute block_hash thread_id producer_node_id thread_count_soft_limit block_iter thread_iter has_zerostate
  load_zerostate zero load_all_accounts split_state fuel share_service share_ok ref_write_ok ref_readable no_active).
Notation iteration := (thread_iteration execute block_hash thread_id producer_node_id thread_count_soft_limit block_iter thread_iter
  has_zerostate load_zerostate zero load_all_accounts split_state fuel share_service share_ok ref_write_ok ref_readable no_active).
Notation run := (run_thread execute block_hash thread_id producer_node_id thread_count_soft_limit block_iter thread_iter has_zerostate
  load_zerostate zero load_all_accounts split_state fuel share_service share_ok ref_write_ok ref_readable no_active).

(** An action that leaves the produced blocks alone. *)
Definition quiet {E A} (m : action World E A) : Prop := ∀ w, pw_produced (m w).1 = pw_produced w.

Lemma quiet_bind {E A B} (m : action World E A) (f : A → action World E B) :
  quiet m → (∀ a, quiet (f a)) → quiet (m ≫= f).
Proof.
  intros Hm Hf w. unfold mbind, action_bind. specialize (Hm w). destruct (m w) as [w1 [a| |]]; cbn [fst] in *; [|done..].
  by rewrite Hf.
Qed.
Lemma quiet_mret {E A} (a : A) : quiet (E := E) (mret a).
Proof. by intros w. Qed.
Lemma quiet_reads {E A} (f : World → A) : quiet (E := E) (reads f).
Proof. by intros w. Qed.
Lemma quiet_lift {E A} (o : outcome E A) : quiet (lift_outcome o).
Proof. by intros w. Qed.
Lemma quiet_for_each {E A} (f : A → action World E unit) l : (∀ a, quiet (f a)) → quiet (for_each f l).
Proof. intros Hf. induction l; [apply quiet_mret|]. by apply quiet_bind. Qed.
Lemma quiet_fact {E} b f v : quiet (E := E) (set_produced_fact b f v).
Proof. intros w. unfold set_produced_fact. by destruct (generated_setter _ _ _). Qed.
Lemma quiet_load_references s l acc : quiet (load_references ref_readable s acc l).
Proof.
  revert acc. induction l as [|e l IH]; intros acc; [apply quiet_mret|]. apply quiet_bind; [|done]. intros w.
  unfold load_reference. destruct (get_cross_thread_ref_data _ _ _) as [refs []]; done.
Qed.
Lemma quiet_share b t min missing : quiet (share_full_state (Payload := Payload) (C := C) (M := M) thread_iter has_zerostate
  load_zerostate zero load_all_accounts split_state fuel share_ok b t min missing).
Proof.
  intros w. unfold share_full_state. destruct (default _ _) as [r [o| |]]; [|done..].
  destruct (match o with Some s => Ok s | None => missing end); [by destruct share_ok|done..].
Qed.
Lemma quiet_store_ref d : quiet (store_ref_data (M := M) (St := St) ref_write_ok d).
Proof. intros w. unfold store_ref_data. by destruct (set_cross_thread_ref_data _ _ _). Qed.
Create HintDb quiet.
#[local] Hint Resolve quiet_bind quiet_mret quiet_reads quiet_lift quiet_for_each quiet_fact quiet_load_references quiet_share
  quiet_store_ref : quiet.

(** The block [pb] is the next one on the state [s]. *)
Definition next_on s (pb : ProducedBlock (St := St)) : Prop :=
  cb_parent (pb_block pb) = get_block_id s ∧ cb_seq_no (pb_block pb) = (get_block_seq_no s + 1)%Z ∧
  get_block_id (pb_state pb) = cb_identifier (pb_block pb) ∧ get_block_seq_no (pb_state pb) = cb_seq_no (pb_block pb) ∧
  pb_block_state pb = cb_identifier (pb_block pb) ∧ cb_thread_id (pb_block pb) = thread_id ∧
  cb_producer_id (pb_block pb) = producer_node_id ∧ self_named (pb_state pb).

Lemma finish_block_spec i bt refs parent round w w' pd :
  self_named (bi_state i) → build_block execute block_hash thread_id i = Ok bt →
  finish_block thread_id producer_node_id thread_count_soft_limit bt refs parent round w = (w', Ok pd) →
  cb_parent (pd_block pd) = get_block_id (bi_state i) ∧ cb_seq_no (pd_block pd) = (get_block_seq_no (bi_state i) + 1)%Z ∧
  get_block_id (pd_state pd) = cb_identifier (pd_block pd) ∧ get_block_seq_no (pd_state pd) = cb_seq_no (pd_block pd) ∧
  cb_thread_id (pd_block pd) = thread_id ∧ cb_producer_id (pd_block pd) = producer_node_id ∧ cb_round (pd_block pd) = round ∧ self_named (pd_state pd).
Proof.
  intros Hnamed (Hp & Hn & Hb & Hs & Hself)%build_block_extends; [|done..]. unfold finish_block.
  intros (w1 & proposed & _ & Hrest)%action_bind_Ok. apply action_bind_Ok in Hrest as (w2 & ph & _ & Hrest).
  apply action_bind_Ok in Hrest as (w3 & height & _ & Hrest). apply action_bind_Ok in Hrest as (w4 & [] & _ & Hrest).
  apply action_bind_Ok in Hrest as (w5 & [] & _ & [= _ <-]). cbn.
  destruct (forward_table proposed) as [table|]; cbn; [|done].
  destruct (set_produced_names (bt_state bt) table) as (-> & -> & _). pose proof (set_produced_self_named (bt_state bt) table Hself). done.
Qed.

Lemma produce_quiet i parent round : quiet (produce execute block_hash thread_id producer_node_id thread_count_soft_limit i parent round).
Proof.
  assert (quiet (lift_outcome (build_block execute block_hash thread_id i) ≫= λ bt, finish_block (M := M) (C := C) thread_id producer_node_id
    thread_count_soft_limit bt (bi_refs i) parent round)) as Hq.
  { apply quiet_bind; [apply quiet_lift|]. intros bt. unfold finish_block. apply quiet_bind; [|eauto 10 with quiet].
    intros w. unfold check_load. destruct (LoadBalancing.check _ _ _ _ _) as [[]|[]|]; done. }
  intros w. unfold produce. specialize (Hq w).
  match type of Hq with pw_produced (?x).1 = _ => destruct x as [w' []] end; done.
Qed.

(** One iteration adds the next block, or none. *)
Lemma produce_next_spec desired mo w p w' p' res : self_named (pr_state p) → next desired mo (w, p) = ((w', p'), res) →
  match res with
  | Ok (true, b) => ∃ pb, pw_produced w' = pw_produced w ++ [pb] ∧ next_on (pr_state p) pb ∧
      b = cb_identifier (pb_block pb) ∧ pr_state p' = pb_state pb ∧ cb_round (pb_block pb) = pr_round p
  | _ => pw_produced w' = pw_produced w
  end.
Proof.
  intros Hnamed. unfold produce_next, on_thread, on_world, updates, reads, lift_outcome, mbind, action_bind. cbv beta iota.
  destruct (unwrap_ok (aggregate_acks block_iter (pw_received_acks w))) as [acks| |]; [|by intros [= <- <- <-]..].
  destruct (unwrap_ok (aggregate_nacks block_iter (pw_received_nacks w))) as [nacks| |]; [|by intros [= <- <- <-]..].
  assert (quiet (read_thread_refs (M := M) (C := C) thread_id ref_readable (pr_state p))) as Q1
    by (unfold read_thread_refs; auto with quiet).
  specialize (Q1 (clear_received w)). cbn [snd]. destruct (read_thread_refs _ _ _ _) as [w1 [refs| |]]; cbn [fst] in Q1;
    [|by intros [= <- <- <-]..].
  assert (quiet (share_references (M := M) (C := C) thread_iter has_zerostate load_zerostate zero load_all_accounts split_state
    fuel share_service share_ok (pr_state p) refs)) as Q2.
  { unfold share_references. destruct share_service; [|auto with quiet].
    do 2 (apply quiet_bind; [auto with quiet|intros ?]). case_bool_decide; auto with quiet. }
  specialize (Q2 w1). destruct (share_references _ _ _ _ _ _ _ _ _ _ _ _) as [w2 [[]| |]]; cbn [fst] in Q2;
    [|intros [= <- <- <-]; by rewrite Q2..].
  pose proof (produce_quiet (mkBuildInput (pr_state p) refs (get_remaining_external_messages (pw_external w)) nacks
    (mo_epoch_data mo) (pr_active p) (mo_now mo)) (pr_parent p) (pr_round p) w2) as Q3.
  destruct (produce _ _ _ _ _ _ _ _ w2) as [w3 [pd| |]] eqn:Hpd; cbn [fst] in Q3;
    [|intros [= <- <- <-]; by rewrite Q3, Q2..].
  assert (∀ acks nacks feedbacks, next_on (pr_state p) (mkProducedBlock (pd_block pd) acks nacks (pd_state pd) feedbacks
    (cb_identifier (pd_block pd))) ∧ cb_round (pd_block pd) = pr_round p) as Hnext.
  { intros. unfold produce, mbind, action_bind, lift_outcome in Hpd. destruct (build_block _ _ _ _) as [bt| |] eqn:Hbuild; [|done..].
    destruct (finish_block _ _ _ _ _ _ _ _) as [wf [pd'| |]] eqn:Hfin; [|done..]. injection Hpd as -> ->.
    apply finish_block_spec with (2 := Hbuild) in Hfin as (? & ? & ? & ? & ? & ? & ? & ?); [by split|done]. }
  destruct (mo_stop mo); [intros [= <- <- <-]; by rewrite Q3, Q2|].
  assert (quiet (erase_stamps (St := St) (Payload := Payload) (C := C) (M := M) (pd_stamps pd))) as Q4
    by (intros w4; unfold erase_stamps; by destruct (pd_stamps pd)).
  specialize (Q4 w3). destruct (erase_stamps _ _) as [w4 [[]| |]]; cbn [fst] in Q4;
    [|intros [= <- <- <-]; by rewrite Q4, Q3, Q2..].
  assert (quiet (share_result (M := M) (C := C) (Payload := Payload) thread_iter has_zerostate load_zerostate zero
    load_all_accounts split_state fuel share_service share_ok (pd_state pd))) as Q5.
  { unfold share_result. destruct share_service; [|auto with quiet]. apply quiet_bind; [auto with quiet|intros ?].
    case_bool_decide; auto with quiet. }
  specialize (Q5 (set_repo w4 (store_optimistic_in_cache (pw_repo w4) (pd_state pd)))).
  destruct (share_result _ _ _ _ _ _ _ _ _ _ _) as [w5 [[]| |]]; cbn [fst] in Q5; change (pw_produced (set_repo w4 _))
    with (pw_produced w4) in Q5; [|intros [= <- <- <-]; by rewrite Q5, Q4, Q3, Q2..].
  pose proof (quiet_store_ref (pd_ref_data pd) w5) as Q6. destruct (store_ref_data _ _ _) as [w6 [[]| |]]; cbn [fst] in Q6;
    [|intros [= <- <- <-]; by rewrite Q6, Q5, Q4, Q3, Q2..].
  pose proof (quiet_fact (E := ProductionError) (cb_identifier (pd_block pd)) has_cross_thread_ref_data_prepared true w6) as Q7.
  destruct (set_produced_fact _ _ _ _) as [w7 [[]| |]]; cbn [fst] in Q7;
    [|intros [= <- <- <-]; by rewrite Q7, Q6, Q5, Q4, Q3, Q2..].
  intros [= <- <- <-]. destruct (Hnext acks nacks (pd_feedbacks pd)) as [Hn Hr].
  assert (pw_produced w7 = pw_produced w) as <- by (by rewrite Q7, Q6, Q5, Q4, Q3, Q2, Q1).
  by eexists.
Qed.

(** *** Runs *)
(** A run of a process: its thread works, the blocks are taken out, or other parts of the node
    change what they share with it.  The list is what is taken out. *)
Inductive process_run : Process → list (ProducedBlock (St := St)) → Process → Prop :=
  | run_nil ps : process_run ps [] ps
  | run_work ps mo l ps' : process_run (run mo ps) l ps' → process_run ps l ps'
  | run_take ps ps1 l1 l ps' : get_produced_blocks ps = (ps1, Ok l1) → process_run ps1 l ps' → process_run ps (l1 ++ l) ps'
  | run_timeout ps d l ps' : process_run (set_timeout d ps) l ps' → process_run ps l ps'
  | run_world ps w l ps' : pw_produced w = pw_produced (ps_world ps) →
      process_run (with_thread ps w (active_producer_thread ps)) l ps' → process_run ps l ps'.

(** The blocks [l] are made one on the other, from the state [s] to the state [s']. *)
Inductive grown : St → list (ProducedBlock (St := St)) → St → Prop :=
  | grown_nil s : grown s [] s
  | grown_cons s pb l s' : next_on s pb → grown (pb_state pb) l s' → grown s (pb :: l) s'.

Lemma grown_named s l s' : self_named s → grown s l s' → self_named s'.
Proof. intros Hs. induction 1 as [|s pb l s' (_ & _ & _ & _ & _ & _ & _ & Hpb) _ IH]; [done|]. by apply IH. Qed.

Lemma grown_app s l1 s1 l2 s2 : grown s l1 s1 → grown s1 l2 s2 → grown s (l1 ++ l2) s2.
Proof. induction 1; [done|]. intros. constructor; auto. Qed.

Lemma grown_ascends s l s' : grown s l s' →
  Forall (λ pb, get_block_seq_no s < cb_seq_no (pb_block pb))%Z l ∧ Sorted by_seq_no l.
Proof.
  induction 1 as [s|s pb l s' (_ & Hn & _ & Hs & _) _ [IH1 IH2]]; [by split|]. split.
  - constructor; [lia|]. eapply Forall_impl; [exact IH1|]. intros pb' Hpb'. cbv beta in Hpb'. lia.
  - constructor; [done|]. destruct l as [|pb' l]; constructor. unfold by_seq_no. apply Forall_cons in IH1 as [? _]. lia.
Qed.

#[local] Instance by_seq_no_trans : Transitive (by_seq_no (St := St)).
Proof. intros x y z. unfold by_seq_no. lia. Qed.
#[local] Instance by_seq_no_total : Total (by_seq_no (St := St)).
Proof. intros x y. unfold by_seq_no. lia. Qed.

Lemma grown_distinct s l s' x y : grown s l s' → x ∈ l → y ∈ l → cb_seq_no (pb_block x) = cb_seq_no (pb_block y) → x = y.
Proof.
  induction 1 as [s|s pb l s' (_ & Hn & _ & Hs & _) Hg IH]; [by intros ?%not_elem_of_nil|].
  destruct (grown_ascends _ _ _ Hg) as [Hlt _]. rewrite Forall_forall in Hlt.
  intros [->|Hx]%elem_of_cons [->|Hy]%elem_of_cons Heq; [done| | |by apply IH].
  - specialize (Hlt y Hy). simpl in Hlt. lia.
  - specialize (Hlt x Hx). simpl in Hlt. lia.
Qed.

(** Sorting blocks of a chain leaves them as they are. *)
Lemma grown_sorted s l s' : grown s l s' → merge_sort by_seq_no l = l.
Proof.
  intros Hg. destruct (grown_ascends s l s' Hg) as [_ Hs].
  apply (Sorted_unique_strong by_seq_no); [|by apply (Sorted_merge_sort _)|done|apply merge_sort_Permutation].
  intros x y Hx Hy. rewrite merge_sort_Permutation in Hx. unfold by_seq_no. intros. eapply grown_distinct; eauto. lia.
Qed.

Lemma grown_split s l1 l2 s' : grown s (l1 ++ l2) s' → ∃ s1, grown s l1 s1 ∧ grown s1 l2 s'.
Proof.
  revert s. induction l1 as [|pb l1 IH]; intros s Hg; [exists s; by split; [constructor|]|].
  inversion Hg as [|? ? ? ? Hn Hrest]; subst. destruct (IH _ Hrest) as (s1 & ? & ?). exists s1. by split; [constructor|].
Qed.

(** The blocks taken out before, [acc], and those that wait are a chain from [s0]; the first is of
    the round production was started with and the others are of round 0. *)
Record chain_inv s0 (round : Z) (acc : list ProducedBlock) (ps : Process (M := M) (Payload := Payload) (C := C)) : Prop := {
  inv_grown : ∃ s', grown s0 (acc ++ pw_produced (ps_world ps)) s' ∧
    ∀ p, active_producer_thread ps = Some (Running (Active := Active) p) →
      pr_state p = s' ∧ pr_round p = if decide (acc ++ pw_produced (ps_world ps) = []) then round else 0%Z;
  inv_rounds i pb : (acc ++ pw_produced (ps_world ps)) !! i = Some pb →
    cb_round (pb_block pb) = if decide (i = 0) then round else 0%Z;
}.

(** A step of the thread adds the next block, or nothing. *)
Lemma run_spec mo ps : (∀ p, active_producer_thread ps = Some (Running p) → self_named (pr_state p)) →
  pw_produced (ps_world (run mo ps)) = pw_produced (ps_world ps) ∧
    (run mo ps = ps ∨ is_Some (active_producer_thread ps) ∧ is_Some (active_producer_thread (run mo ps)) ∧
       ∀ q, active_producer_thread (run mo ps) ≠ Some (Running q)) ∨
  ∃ p q pb, active_producer_thread ps = Some (Running p) ∧ active_producer_thread (run mo ps) = Some (Running q) ∧
    pw_produced (ps_world (run mo ps)) = pw_produced (ps_world ps) ++ [pb] ∧ next_on (pr_state p) pb ∧
    pr_state q = pb_state pb ∧ cb_round (pb_block pb) = pr_round p ∧ pr_round q = 0%Z.
Proof.
  intros Hnamed. unfold run_thread. destruct (active_producer_thread ps) as [[p|s|]|] eqn:Ht; [|left; split; [done|by left]..].
  unfold thread_iteration. destruct (produce_next _ _ _ _ _ _ _ _ _ _ _ _ _ _ _ _ _ _ _ _ _) as [[w' p'] res] eqn:Hn.
  apply produce_next_spec in Hn; [|by apply Hnamed].
  destruct res as [[[] b]| |]; [|left; cbn; split; [done|right; split_and!; [done..|]; by intros q [=]]..].
  destruct Hn as (pb & Hw & Hnext & -> & Hs & Hcb). right. by exists p; do 2 eexists.
Qed.

Lemma run_inv s0 round acc mo ps : self_named s0 → chain_inv s0 round acc ps → chain_inv s0 round acc (run mo ps).
Proof.
  intros Hs0 [(s' & Hg & Hp) Hr].
  assert (∀ p, active_producer_thread ps = Some (Running p) → self_named (pr_state p)) as Hnamed.
  { intros p Hrun. destruct (Hp p Hrun) as [-> _]. by eapply grown_named. }
  destruct (run_spec mo ps Hnamed) as [[Hw Hrun]|(p & q & pb & Ht & Hq & Hw & Hnext & Hs & Hcb & Hq0)]; split; rewrite Hw.
  - exists s'. split; [done|]. intros p Ht. destruct Hrun as [Heq|(_ & _ & Hno)]; [|by destruct (Hno p)].
    rewrite Heq in Ht. by apply Hp.
  - done.
  - exists (pb_state pb). rewrite (assoc_L (++)). destruct (Hp p Ht) as [<- _].
    split; [eapply grown_app; [done|]; constructor; [done|constructor]|].
    rewrite Hq. intros ? [= <-]. split; [done|]. rewrite decide_False; [done|]. by intros [_ ?]%app_nil.
  - intros i x. rewrite (assoc_L (++)). intros [Hx|[Hlen Hx]]%lookup_app_Some; [by apply Hr|].
    apply list_lookup_singleton_Some in Hx as [Hi <-]. destruct (Hp p Ht) as [_ Hround]. rewrite Hcb, Hround.
    apply decide_ext. rewrite <- length_zero_iff_nil. lia.
Qed.

Lemma run_chain s0 round acc ps l ps' : self_named s0 → chain_inv s0 round acc ps → process_run ps l ps' → chain_inv s0 round (acc ++ l) ps'.
Proof.
  intros Hs0 Hinv Hrun. revert acc Hinv.
  induction Hrun as [ps|ps mo l ps' _ IH|ps ps1 l1 l ps' Htake _ IH|ps d l ps' _ IH|ps w l ps' Hw _ IH]; intros acc Hinv.
  - by rewrite app_nil_r.
  - apply IH. by apply run_inv.
  - rewrite (assoc_L (++)). apply IH. unfold get_produced_blocks, drain in Htake.
    destruct Hinv as [(s' & Hg & Hp) Hr]. destruct (grown_split _ _ _ _ Hg) as (s1 & _ & Hg2).
    assert (with_thread ps (set_produced (ps_world ps) []) (active_producer_thread ps) = ps1 ∧
      l1 = pw_produced (ps_world ps)) as [<- ->].
    { rewrite (grown_sorted _ _ _ Hg2) in Htake. by destruct (active_producer_thread ps) as [[]|]; simplify_eq. }
    split; cbn [with_thread ps_world active_producer_thread set_produced pw_produced]; rewrite app_nil_r; [|done].
    by exists s'.
  - apply IH. destruct Hinv. by split.
  - apply IH. destruct Hinv as [Hg Hr]. split; cbn [with_thread ps_world active_producer_thread]; by rewrite Hw.
Qed.

(** C13 (production): once production is started, everything that is taken out of the process and
    everything that waits in it, in this order, is one chain of blocks on the state it was started
    from, whatever the interleaving with the other parts of the node, and whatever executing the
    messages does: each block is made on the state of the one before, carries that state's block as
    its parent and the next number, and is kept with its own state; the first one is of the round
    production was started with and the others of round 0.  The block info and the shard state of
    the state production starts from have to name its block; that the state after each block does
    follows from the code of the builder and of postprocessing. *)
Theorem production_makes_a_chain ps prev round ps1 l ps2 :
  active_producer_thread ps = None → pw_produced (ps_world ps) = [] →
  start_thread_production thread_id thread_iter has_zerostate load_zerostate zero fuel no_active prev round ps = (ps1, Ok tt) →
  (∀ ps0 s0, initial_state thread_id thread_iter has_zerostate load_zerostate zero fuel prev ps = (ps0, Ok s0) → self_named s0) →
  process_run ps1 l ps2 →
  ∃ s0 ps0, initial_state thread_id thread_iter has_zerostate load_zerostate zero fuel prev ps = (ps0, Ok s0) ∧
    (∃ s', grown s0 (l ++ pw_produced (ps_world ps2)) s' ∧
       ∀ p, active_producer_thread ps2 = Some (Running p) → pr_state p = s') ∧
    ∀ i pb, (l ++ pw_produced (ps_world ps2)) !! i = Some pb →
      cb_round (pb_block pb) = if decide (i = 0) then round else 0%Z.
Proof.
  intros Hnone Hempty. unfold start_thread_production. intros (ps' & active & [= <- <-] & Hstart)%action_bind_Ok Hnamed Hrun.
  rewrite Hnone in Hstart. apply action_bind_Ok in Hstart as (ps0 & s0 & Hinit & [= <-]).
  assert (pw_produced (ps_world ps0) = []) as Hp0.
  { unfold initial_state in Hinit. destruct (_ ≫= _) as [s|]; [by injection Hinit as <- _|].
    destruct (default _ _) as [r found]. by injection Hinit as <- _. }
  assert (chain_inv s0 round [] (with_thread ps0 (ps_world ps0)
    (Some (Running (mkProduction s0 prev round ProductionTimeoutCorrection_default no_active))))) as Hinv.
  { split; cbn [with_thread ps_world active_producer_thread app]; rewrite Hp0; [|done].
    exists s0. split; [constructor|]. intros p [= <-]. by rewrite decide_True. }
  destruct (run_chain _ _ _ _ _ _ (Hnamed _ _ Hinit) Hinv Hrun) as [(s' & Hg & Hp) Hr]. exists s0, ps0. split; [done|]. split; [|done].
  exists s'. split; [done|]. intros p Hpr. by apply Hp.
Qed.
End chain_theorems.

(** ** Evaluation *)
Section ProductionExample.
#[local] Existing Instance LinearBlst.
#[local] Existing Instance LinearBlst_laws.
#[local] Existing Instance trace_ops.
#[local] Existing Instance text_message.
Notation Data := (CrossThreadRefData unit).
#[local] Instance data_cache : LruCache (list (BlockIdentifier * option Data)) BlockIdentifier (option Data) := recent_cache 1.
#[local] Instance data_laws : LruLaws (list (BlockIdentifier * option Data)) BlockIdentifier (option Data).
Proof. apply recent_laws. Qed.
#[local] Instance ack_bytes : Serialize AckData := λ a, Some [ack_block_seq_no a].

(** Keepers 1 and 2 ack block 1, in two envelopes, and keeper 1 acks block 2. *)
Definition ack_of (signer key n : Z) : Envelope AckData :=
  mkEnvelope (key * (1 + n))%Z {[signer := 1%Z]} (mkAckData (example_block n) n).
Definition some_acks : list (Envelope AckData) := [ack_of 1 11 1; ack_of 2 22 1; ack_of 1 11 2].

Lemma aggregated_acks_valid_witness :
  ∃ out, aggregate_acks elements some_acks = Ok out ∧ Forall (valid_ack example_signers) out ∧ length out = 2 ∧
    ∃ a, a ∈ out ∧ ack_block_id (data a) = example_block 1 ∧ Envelope_signers a = {[1%Z; 2%Z]}.
Proof.
  assert (combinable ack_block_id example_signers some_acks) as Hc.
  { split.
    - unfold some_acks. repeat (apply Forall_cons; split); [..|apply Forall_nil; exact I];
        (split; [split; [|vm_compute; reflexivity]|]); apply (bool_decide_unpack _); vm_compute; exact I.
    - intros e1 e2 He1 He2. cbn in He1, He2. set_unfold in He1. set_unfold in He2.
      destruct He1 as [->|[->|[->|[]]]], He2 as [->|[->|[->|[]]]]; cbn; intros Heq; (reflexivity || discriminate Heq). }
  assert (match aggregate_acks elements some_acks with
    | Ok out => bool_decide (length out = 2) &&
        existsb (λ a, bool_decide (ack_block_id (data a) = example_block 1 ∧ Envelope_signers a = {[1%Z; 2%Z]})) out
    | _ => false
    end = true) as Hrun by (vm_compute; reflexivity).
  destruct (aggregate_acks elements some_acks) as [out| |] eqn:Hout; [|discriminate Hrun..].
  apply andb_true_iff in Hrun as [Hlen%bool_decide_eq_true (a & Ha & [Hb Hs]%bool_decide_eq_true)%existsb_exists].
  exists out. split; [reflexivity|]. split.
  - exact (proj1 (aggregated_acks_valid elements example_signers some_acks out (λ X, reflexivity _) Hc Hout)).
  - split; [exact Hlen|]. exists a. split; [by apply list_elem_of_In|]. by split.
Defined.

Lemma production_timeout_bounds_witness :
  timeouts 330 ProductionTimeoutCorrection_default [0; 20; 100; 100; 0]%Z = [280; 285; 290; 280; 270]%Z ∧
  Forall (λ t, 33 ≤ t ≤ 315)%Z (timeouts 330 ProductionTimeoutCorrection_default [0; 20; 100; 100; 0]%Z).
Proof.
  split; [vm_compute; reflexivity|].
  apply (production_timeout_bounds 330 [0; 20; 100; 100; 0]%Z); [lia|]. repeat constructor; lia.
Defined.

(** Four threads: references go two generations back. *)
Definition other_thread : ThreadIdentifier := ThreadIdentifier_new (example_block 9) 1.
Definition four_rows : ThreadsTable := replicate 4 default_row.
(** A trace names its last block; a block takes two units of logical time. *)
Definition trace_info (s : TraceState) : option ExtBlkRef := Some (mkExtBlkRef (2 * tr_seq_no s) (tr_seq_no s) (tr_id s)).
#[local] Instance trace_produced : ProducedState TraceState := {|
  all_thread_refs := λ _, ∅;
  state_threads_table := λ _, four_rows;
  get_produced_threads_table := λ _, four_rows;
  set_produced_threads_table := λ s _, s;
  shard_number := tr_seq_no;
  prev_info := trace_info;
|}.
#[local] Instance trace_produced_laws : ProducedLaws TraceState.
Proof. by constructor. Qed.

Definition with_parent (n : Z) (l : option (list BlockIdentifier)) : AckiNackiBlockState NackData :=
  let s := with_fact (AckiNackiBlockState_new (example_block n)) parent_block_identifier (example_block (n - 1)) in
  from_option (with_fact s ancestors) s l.
Definition some_states : Repository NackData :=
  {[example_block 3 := with_parent 3 (Some [example_block 2; example_block 1]); example_block 2 := with_parent 2 None]}.
Definition some_data : gmap BlockIdentifier Data := {[example_block 1 := chain_data 1; example_block 3 := chain_data 3]}.
Notation ExampleWorld := (ProducerWorld (M := string) (St := TraceState) (Payload := unit)
  (C := list (BlockIdentifier * option Data))).
Definition repo_with (r : Repository NackData) : StateRepo NackData TraceState :=
  mkStateRepo r ∅ ∅ {[example_thread := trace_zero]} ∅ ∅ (FinalizedBlockStorage_new 5) ∅ ∅ ∅ [].
Definition referring_world : ExampleWorld :=
  mkProducerWorld (repo_with some_states) (mkRefStore [] some_data) {[other_thread := example_block 3]}
    (LoadBalancingService_start 5 100) ExternalMessagesQueue_empty [] [] None [] [] [].

Lemma some_states_ok : ancestors_ok some_states.
Proof.
  assert (∀ b, get (repo_get some_states b) ancestors =
    if decide (b = example_block 3) then Some [example_block 2; example_block 1] else None) as Hanc.
  { intros b. case_decide as Hb; [by subst|]. unfold repo_get, some_states.
    rewrite lookup_insert_ne by done. destruct (decide (b = example_block 2)) as [->|Hb2]; [done|].
    rewrite lookup_singleton_ne by done. cbn [default from_option]. unfold BlockState.fresh_state. by case_decide. }
  split.
  - intros b l i a. rewrite Hanc. case_decide; [|done]. intros [= <-]. subst b.
    destruct i as [|[|i]]; intros [= <-]; vm_compute; reflexivity.
  - intros b. rewrite Hanc. by case_decide.
Qed.

(** Block 3 of the other thread is final; block 1 is referred to. *)
Lemma references_are_delayed_ancestors_witness :
  ∃ refs, read_thread_refs example_thread (λ _, true) trace_zero referring_world =
    (set_refs referring_world refs, Ok [chain_data 1]).
Proof.
  destruct (references_are_delayed_ancestors example_thread (λ _, true) (λ _, eq_refl) trace_zero referring_world some_data
    some_states_ok) as (refs & Hread & _).
  - split; [reflexivity| |discriminate]. apply (bool_decide_unpack _). vm_compute. exact I.
  - exists refs. etrans; [exact Hread|]. do 2 f_equal.
Defined.

(** A state that notes the blocks that were built, and refuses other names than its own. *)
#[local] Instance trace_builder : BuilderState TraceState unit unit unit unit := {|
  preprocess_state s _ _ _ _ := Ok (s, four_rows, tt);
  postprocess_state s _ b n p :=
    let s := mkTrace b n (tr_blocks s ++ [b]) in if decide (p = trace_info s) then Ok (s, chain_data n) else Err tt;
|}.
#[local] Instance trace_builder_laws : BuilderLaws TraceState unit unit unit unit.
Proof.
  constructor.
  - intros s refs nacks epochs t s' table f [= <- _ _]. done.
  - intros s c b n p s' d. cbn. case_decide; [|done]. by intros [= <- _].
Qed.
Lemma trace_self_named (s : TraceState) : self_named s.
Proof. by split. Qed.
(** Blocks without messages, named by their number. *)
Definition execute_none (_ : BuildInput (M := string) (St := TraceState) (Payload := unit) (Active := unit) (EpochData := unit))
    (_ : BlockBuilder (St := TraceState) (Forwarded := unit)) : outcome unit (Executed (Active := unit) (Contents := unit)) :=
  Ok (mkExecuted 0 tt [] tt [] []).
Definition number_hash (h : BlockHeader) (_ : unit) : BlockIdentifier := example_block (hd_seq_no h).
Definition genesis_state : AckiNackiBlockState NackData :=
  with_fact (AckiNackiBlockState_new BlockIdentifier_default) block_height (BlockProcessor.example_height 0).
Definition fresh_process : Process (M := string) (St := TraceState) (Payload := unit)
    (C := list (BlockIdentifier * option Data)) (Active := unit) :=
  mkProcess (mkProducerWorld (repo_with {[BlockIdentifier_default := genesis_state]}) (mkRefStore [] ∅) ∅
    (LoadBalancingService_start 5 100) ExternalMessagesQueue_empty [] [] None [] [] []) None 330 (Some trace_zero).
Notation example_start := (start_thread_production example_thread elements false (λ _, None) trace_zero 5 tt).
Notation example_run := (run_thread execute_none number_hash example_thread (BlockProcessor.example_node 1) 10 elements elements false
  (λ _, None) trace_zero Ok false 5 false true (λ _, true) (λ _, true) tt).
Definition going : Moment (EpochData := unit) := mkMoment false [] 300 1.
Definition run_twice : Process (Active := unit) * outcome ProductionError (list (ProducedBlock (St := TraceState))) :=
  get_produced_blocks (example_run going (example_run going
    (example_start BlockIdentifier_default 7%Z fresh_process).1)).

(** Two blocks are made and taken out, then a third. *)
Lemma production_makes_a_chain_witness :
  ∃ l, run_twice.2 = Ok l ∧ (cb_seq_no ∘ pb_block <$> l) = [1; 2]%Z ∧ (cb_round ∘ pb_block <$> l) = [7; 0]%Z ∧
    ∃ s', grown example_thread (BlockProcessor.example_node 1) trace_zero
      (l ++ pw_produced (ps_world (example_run going run_twice.1))) s' ∧
      length (pw_produced (ps_world (example_run going run_twice.1))) = 1.
Proof.
  assert (match run_twice with
    | (ps, Ok l) => bool_decide ((cb_seq_no ∘ pb_block <$> l) = [1; 2]%Z ∧ (cb_round ∘ pb_block <$> l) = [7; 0]%Z ∧
        length (pw_produced (ps_world (example_run going ps))) = 1)
    | _ => false
    end = true) as Hrun by (vm_compute; reflexivity).
  destruct run_twice as [ps [l| |]] eqn:Htwice; [|discriminate Hrun..]. apply bool_decide_eq_true in Hrun as (Hn & Hr & Hlen).
  exists l. split; [reflexivity|]. split; [exact Hn|]. split; [exact Hr|].
  assert (process_run execute_none number_hash example_thread (BlockProcessor.example_node 1) 10 elements elements false
    (λ _, None) trace_zero Ok false 5 false true (λ _, true) (λ _, true) tt
    (example_start BlockIdentifier_default 7%Z fresh_process).1 (l ++ []) (example_run going ps)) as Hsteps.
  { do 2 apply run_work with going. eapply run_take; [exact Htwice|]. apply run_work with going, run_nil. }
  set (started := example_start BlockIdentifier_default 7%Z fresh_process) in Hsteps.
  assert (started = (started.1, Ok tt)) as Hstart by (vm_compute; reflexivity).
  destruct (production_makes_a_chain execute_none number_hash example_thread (BlockProcessor.example_node 1) 10 elements elements false
    (λ _, None) trace_zero Ok false 5 false true (λ _, true) (λ _, true) tt
    fresh_process BlockIdentifier_default 7 started.1 (l ++ []) (example_run going ps) eq_refl eq_refl Hstart
    (λ _ s0 _, trace_self_named s0) Hsteps)
    as (s0 & ps0 & Hinit & (s' & Hg & _) & _).
  injection Hinit as _ <-. rewrite app_nil_r in Hg. exists s'. cbn [fst]. exact (conj Hg Hlen).
Defined.
End ProductionExample.
