(* ===== verification/Producer.v ===== *)
(** * The producer service

    Models [block/producer/producer_service/block_producer.rs] and
    [types/ackinacki_block/as_signatures_map.rs].  The service runs the production process
    (Production.v) as the authority switch commands it, and takes out the blocks that were
    produced: a block is completed with the attestations for its ancestors and with a selector that
    names this node, is signed, given to this node and broadcast.  A block whose ancestors are not
    attested enough yet waits in a memento, with those after it.

    The loop waits in three places.  A command it waits for, and what the other parts of the node
    do while it waits for an attestation, come with the iteration; the third wait, for the keepers
    of the parent, never happens ([await_keepers_known]).  [execute_restarted_producer] does
    nothing.  Sending may fail; what is sent is recorded. *)
From stdpp Require Import base numbers gmap strings fin_maps sorting list.
From S2P Require Import Prelude Identifiers Bitmask FixedCache Bls BlockKeepers Envelope Attestation Checkpoints Statistics BlockState Collected ThreadRefs ActionLock NextRound BlockProcessor AuthoritySwitch Finalization MessageStore LoadBalancing ExternalMessages NetworkMessage Routing StateRepository Builder Snapshot Production.

(** ** Signatures by attested block *)
Definition note_signatures `{Blst} (m : gmap (BlockIdentifier * AttestationTargetType) (gset Z)) (e : Envelope AttestationData) :
    gmap (BlockIdentifier * AttestationTargetType) (gset Z) :=
  let target := (att_block_id (data e), att_target_type (data e)) in
  let signers := dom (Envelope_clone_signature_occurrences e) in
  <[target := match m !! target with Some known => known ∪ signers | None => signers end]> m.
Definition as_signatures_map `{Blst} (l : list (Envelope AttestationData)) :
    gmap (BlockIdentifier * AttestationTargetType) (gset Z) := foldl note_signatures ∅ l.

#[global] Instance Lock_eq_dec : EqDecision Lock.
Proof. solve_decision. Defined.
#[global] Instance StartParameters_eq_dec `{Blst} : EqDecision StartBlockProducerThreadInitialParameters.
Proof. solve_decision. Defined.

Inductive BlockProducerCommand `{Blst} := Start (params : StartBlockProducerThreadInitialParameters).

Record ProductionStatus `{Blst} := mkStatus {
  init_params : StartBlockProducerThreadInitialParameters;
  last_produced : option (BlockIdentifier * BlockSeqNo);
}.
Arguments mkStatus {_}.

Inductive UpdateCommonSectionResult := Success | FailedToBuildChainToTheLastFinalizedBlock | NotReadyYet | AncestorIsNotReadyYet.

Inductive ProducerError :=
  | InProduction (e : ProductionError)
  | InAggregation (e : AggregateError)
  | SelectorMissing
  | NoFinalizedBlock
  | ControlDisconnected
  | EncodingFailed
  | SendFailed
  (** the loop that waits for the keepers of the parent goes on *)
  | AwaitsParent.

Definition outcome_map_err {E E' A} (f : E → E') (o : outcome E A) : outcome E' A :=
  match o with Ok a => Ok a | Err e => Err (f e) | Panic => Panic end.

(** How the loop pauses after an iteration. *)
Inductive Pause := NoPause | ProductionPause | LoopPause.

Section producer.
Context `{Blst} {M St Payload C Active EpochData : Type} `{!OptimisticStateOps St} `{!ProducedState St}.
Context `{LruCache C BlockIdentifier (option (CrossThreadRefData Payload))} `{TvmMessage M}.
Context `{Serialize AttestationData} `{Serialize CandidateBlock} `{Serialize (Envelope CandidateBlock)}.
Context `{Serialize NextRoundSuccess}.
Notation Process := (Process (M := M) (St := St) (Payload := Payload) (C := C) (Active := Active)).
Notation World := (ProducerWorld (M := M) (St := St) (Payload := Payload) (C := C)).
Notation Block := (Envelope CandidateBlock).

Record BlockProducerMemento := mkMemento {
  produced_blocks : list (ProducedBlock (St := St));
  last_attestation_notification : option Z;
}.

(** What is sent: to the loop of this node, to its authority, to all nodes, and the feedbacks. *)
Inductive ProducerEvent :=
  | ToSelf (m : NetworkMessage M)
  | ToAuthority (m : NetworkMessage M)
  | Broadcasted (m : NetworkMessage M)
  | Feedbacks (l : list ExtMsgFeedback).

Record BlockProducer := mkProducer {
  production_process : Process;
  production_status : option ProductionStatus;
  producing_status : bool;
  production_count : Z;
  last_attestations : CollectedAttestations;
  control_rx : list BlockProducerCommand;
  control_connected : bool;
  producer_events : list ProducerEvent;
}.
Implicit Types (bp : BlockProducer) (pb : ProducedBlock (St := St)) (block : CandidateBlock).
Notation producing A := (action BlockProducer ProducerError A).
Notation Tails := (option (BlockIdentifier * BlockSeqNo)).

Definition with_process bp ps : BlockProducer :=
  mkProducer ps (production_status bp) (producing_status bp) (production_count bp) (last_attestations bp) (control_rx bp)
    (control_connected bp) (producer_events bp).
Definition with_status (o : option ProductionStatus) bp : BlockProducer :=
  mkProducer (production_process bp) o (producing_status bp) (production_count bp) (last_attestations bp) (control_rx bp)
    (control_connected bp) (producer_events bp).
(** [AtomicI32] wraps. *)
Definition with_producing (b : bool) bp : BlockProducer :=
  let count := if bool_decide (producing_status bp = b) then production_count bp
               else as_i32 (if b then production_count bp + 1 else production_count bp - 1) in
  mkProducer (production_process bp) (production_status bp) b count (last_attestations bp) (control_rx bp)
    (control_connected bp) (producer_events bp).
Definition with_control (l : list BlockProducerCommand) bp : BlockProducer :=
  mkProducer (production_process bp) (production_status bp) (producing_status bp) (production_count bp) (last_attestations bp) l
    (control_connected bp) (producer_events bp).
Definition log_events (l : list ProducerEvent) bp : BlockProducer :=
  mkProducer (production_process bp) (production_status bp) (producing_status bp) (production_count bp) (last_attestations bp)
    (control_rx bp) (control_connected bp) (producer_events bp ++ l).

Definition bp_world bp : World := ps_world (production_process bp).
Definition bp_states bp : Repository NackData := pw_states (bp_world bp).
Definition on_world_of (f : World → World) bp : BlockProducer :=
  let ps := production_process bp in with_process bp (with_thread ps (f (ps_world ps)) (active_producer_thread ps)).
Definition on_process {A} (m : action Process ProductionError A) : producing A :=
  λ bp, let '(ps, res) := m (production_process bp) in (with_process bp ps, outcome_map_err InProduction res).
Definition set_block_fact (b : BlockIdentifier) (f : fact) (v : fact_type f) : producing unit :=
  λ bp, let '(w, res) := set_produced_fact b f v (bp_world bp) in (on_world_of (λ _, w) bp, res).
Definition keep_state (s : St) bp : BlockProducer :=
  on_world_of (λ w, set_repo w (store_optimistic_in_cache (pw_repo w) s)) bp.
Definition save_state (s : St) bp : BlockProducer := on_world_of (λ w, add_saved w s) (keep_state s bp).

Variable thread_id : ThreadIdentifier.
Variable node_identifier : NodeIdentifier.
Variable production_timeout : Z.
Variable save_state_frequency : Z.
Variable bls_keys_map : gmap PubKey Secret.
Variable shutdown : bool.
(** [hex::encode] *)
Variable hex_encode : list Z → string.
(** The orders of the keepers, of the attestations and of the checkpoints. *)
Variable iter_order : gset NodeIdentifier → list NodeIdentifier.
Variable shuffle : list Z → list NodeIdentifier → list NodeIdentifier.
Variable set_iter : gset CompactedAttestation → list CompactedAttestation.
Variable block_iter : gset BlockIdentifier → list BlockIdentifier.
(** Whether the channels accept a message. *)
Variable self_ok authority_ok broadcast_ok : bool.

(** ** Completing a block *)
Definition get_producer_selector (r : Repository NackData) (parent_block_id : BlockIdentifier) :
    outcome ProducerError ProducerSelector :=
  if ThreadIdentifier_is_spawning_block thread_id parent_block_id then Ok (mkProducerSelector parent_block_id 0)
  else ok_or (get (repo_get r parent_block_id) producer_selector_data) SelectorMissing.

(** The selector is moved to this node. *)
Definition claim_selector (p : ProducerSelector) (keepers : BlockKeeperSet) (b : BlockIdentifier) :
    outcome ProducerError ProducerSelector :=
  let move p d := move_index p d (BlockKeeperSet_len keepers) in
  if match get_producer_node_id iter_order shuffle p keepers with
     | Ok n => bool_decide (n = node_identifier)
     | _ => false
     end
  then Ok p
  else
    match get_distance_from_bp iter_order shuffle p keepers node_identifier with
    | Some distance => move p distance
    | None =>
        let p := mkProducerSelector b 0 in
        unwrap (get_distance_from_bp iter_order shuffle p keepers node_identifier) ≫= move p
    end.

Definition attestations_required (r : Repository NackData) (checkpoints : AncestorBlocksFinalizationCheckpoints) :
    list (AckiNackiBlockState NackData * AggregateFilter) :=
  let primary_only := filter (λ b, fallback checkpoints !! b = None) (block_iter (dom (primary checkpoints))) in
  omap (λ b, (λ c, (repo_get r b, AggregateFilter_from c)) <$> primary checkpoints !! b) primary_only ++
  (block_iter (dom (fallback checkpoints)) ≫= λ b,
     (λ c, (repo_get r b, AggregateFilter_from c)) <$> default [] (fallback checkpoints !! b)).

(** [get_share_stare_refs] *)
Definition get_share_stare_refs (s : St) : gmap ThreadIdentifier BlockIdentifier :=
  <[get_thread_id s := get_block_id s]> (ThreadRefs.block_identifier <$> all_thread_refs s).

(** The common section of the block. *)
Definition set_common_section block (attestations : list (Envelope AttestationData)) (selector : ProducerSelector)
    (share : option (gmap ThreadIdentifier BlockIdentifier)) (s : St) : CandidateBlock :=
  let table := match share with Some _ => Some (get_produced_threads_table s) | None => cb_threads_table block end in
  let resources := match share with Some refs => Some refs | None => cb_share_state_resources block end in
  mkCandidate _ (cb_identifier block) (cb_seq_no block) (cb_block_height block) (cb_thread_id block) (cb_producer_id block)
    attestations (cb_refs block) (cb_block_keeper_set_changes block) table resources
    (is_thread_splitting (cb_identifier block) table) (cb_parent block) (cb_time block) (cb_round block) (Some selector).

Definition note_verified (s : AckiNackiBlockState NackData) (e : Envelope AttestationData) : AckiNackiBlockState NackData :=
  add_verified_attestations_for s (att_block_id (data e)) (att_target_type (data e))
    (dom (Envelope_clone_signature_occurrences e)).

Definition update_candidate_common_section block (share : option (gmap ThreadIdentifier BlockIdentifier)) (s : St) :
    producing (CandidateBlock * UpdateCommonSectionResult) :=
  reads bp_states ≫= λ r,
  reads last_attestations ≫= λ received,
  let parent := repo_get r (cb_parent block) in
  match get parent ancestor_blocks_finalization_checkpoints with
  | None => mret (block, AncestorIsNotReadyYet)
  | Some checkpoints =>
      let required := attestations_required r checkpoints in
      match get parent block_stats, get parent descendant_bk_set with
      | Some _, Some keepers =>
          lift_outcome (outcome_map_err InAggregation (CollectedAttestations_aggregate set_iter received required).2)
          ≫= λ aggregated,
          let proposed := as_signatures_map aggregated in
          lift_outcome (get_producer_selector r (cb_parent block)) ≫= λ selector,
          lift_outcome (claim_selector selector keepers (cb_identifier block)) ≫= λ selector,
          let block := set_common_section block aggregated selector share s in
          match evaluate_if_next_block_ancestors_required_attestations_will_be_met r thread_id (cb_parent block) proposed with
          | Ok true =>
              updates (on_world_of (λ w, set_states w (<[cb_identifier block :=
                foldl note_verified (repo_get (pw_states w) (cb_identifier block)) (cb_block_attestations block)]> (pw_states w))))
              ≫= λ _, mret (block, Success)
          | Ok false | Err FailedToLoadBlockState => mret (block, NotReadyYet)
          | Panic => lift_outcome Panic
          end
      | _, _ => mret (block, NotReadyYet)
      end
  end.

(** ** Sending a block *)
Definition NetBlock_of (e : Block) : outcome ProducerError NetBlock :=
  ok_or (bincode_serialize e) EncodingFailed ≫= λ bytes,
  let block := data e in
  Ok (mkNetBlock (cb_producer_id block) (cb_producer_selector block) (cb_thread_id block) (cb_identifier block)
        (cb_seq_no block) bytes).
Definition candidate_message (e : Block) : outcome ProducerError (NetworkMessage M) :=
  NetBlock_of e ≫= λ net, Ok (Candidate net).

Definition set_block_hash (b : BlockIdentifier) (f : ExtMsgFeedback) : ExtMsgFeedback :=
  mkFeedback (feedback_message_hash f) (tx_hash f) (Some (hex_encode (block_id_bytes b))) (aborted f) (exit_code f)
    (feedback_thread_id f) (feedback_error f) (ext_out_msgs f).
Definition broadcast_candidate_block (b : BlockIdentifier) (m : NetworkMessage M) (feedbacks : list ExtMsgFeedback) :
    producing unit :=
  (if broadcast_ok then updates (log_events [Broadcasted m]) else if shutdown then mret tt else lift_outcome Panic) ≫= λ _,
  match feedbacks with
  | [] => mret tt
  | _ => updates (log_events [Feedbacks (set_block_hash b <$> feedbacks)])
  end.

(** The message with the block and the channel of this node it goes to: the first block of a round
    that is not 0 tells the authority switch that the round has a producer. *)
Definition block_message (status : ProductionStatus) (keepers : BlockKeeperSet) (e : Block) (h : option BlockHeight) :
    outcome ProducerError (bool * NetworkMessage M) :=
  if bool_decide (last_produced status = None) && bool_decide (start_round (init_params status) ≠ 0)%Z then
    unwrap h ≫= λ h,
    NetBlock_of e ≫= λ net,
    unwrap_ok (Envelope_sealed shutdown node_identifier keepers bls_keys_map
      (mkNextRoundSuccess node_identifier (start_round (init_params status)) h net None [])) ≫= λ success,
    Ok (true, AuthoritySwitchProtocol (Switched success))
  else candidate_message e ≫= λ m, Ok (false, m).

Definition send_to_node (m : bool * NetworkMessage M) : producing unit :=
  let '(authority, m) := m in
  if (if authority then authority_ok else self_ok)
  then updates (log_events [if authority then ToAuthority m else ToSelf m])
  else if shutdown then mret tt else lift_outcome (Err SendFailed).

(** A completed block is signed and sent. *)
Definition send_block block (pb : ProducedBlock (St := St)) (keepers : BlockKeeperSet) (parent : BlockIdentifier) (e : Block) :
    producing unit :=
  reads production_status ≫= λ o,
  lift_outcome (unwrap o) ≫= λ status,
  lift_outcome (unwrap (cb_producer_selector block)) ≫= λ selector,
  reads (λ bp, get (repo_get (bp_states bp) parent) block_height) ≫= λ parent_height,
  lift_outcome (unwrap parent_height ≫= λ h, BlockHeight_next h thread_id) ≫= λ height,
  set_block_fact (pb_block_state pb) validated true ≫= λ _,
  set_block_fact (pb_block_state pb) producer_selector_data selector ≫= λ _,
  set_block_fact (pb_block_state pb) block_height height ≫= λ _,
  reads (λ bp, get (repo_get (bp_states bp) (pb_block_state pb)) block_height) ≫= λ h,
  lift_outcome (block_message status keepers e h) ≫= λ m,
  send_to_node m ≫= λ _,
  let b := cb_identifier (data e) in
  updates (with_status (Some (mkStatus (init_params status) (Some (b, cb_seq_no (data e)))))) ≫= λ _,
  broadcast_candidate_block b m.2 (pb_feedbacks pb) ≫= λ _,
  updates (keep_state (pb_state pb)).

(** *** What becomes of a block *)
Inductive Offer :=
  | Sent
  | Outdated
  | UpdateFailed
  | Wait (notification : Z)
  | NotSigned.

Variable stop : producing unit.

(** Waiting for the keepers of the parent. *)
Definition await_keepers (parent : BlockIdentifier) : producing (option BlockKeeperSet) :=
  reads (λ bp, repo_get (bp_states bp) parent) ≫= λ s,
  match get s descendant_bk_set with
  | Some keepers => mret (Some keepers)
  | None => if is_invalidated s then stop ≫= λ _, mret None else lift_outcome (Err AwaitsParent)
  end.

Definition clear_sync_request (seq_no : BlockSeqNo) bp : BlockProducer :=
  on_world_of (λ w,
    match pw_sync_requested w with
    | Some n => if bool_decide (n ≤ seq_no)%Z then set_sync_requested w None else w
    | None => w
    end) bp.

(** The block is completed: it is signed and sent. *)
Definition accept_block block (share : bool) pb : producing Offer :=
  updates (λ bp, with_process bp (set_timeout production_timeout (production_process bp))) ≫= λ _,
  updates (clear_sync_request (cb_seq_no block)) ≫= λ _,
  reads (λ bp, get (repo_get (bp_states bp) (cb_parent block)) block_seq_no) ≫= λ parent_seq_no,
  lift_outcome (if share || cb_is_thread_splitting block then Ok true
                else unwrap_ok (must_save_state_on_seq_no save_state_frequency (cb_seq_no block) parent_seq_no))
  ≫= λ must_save_state,
  updates (if must_save_state : bool then save_state (pb_state pb) else id) ≫= λ _,
  await_keepers (cb_parent block) ≫= λ o,
  match o with
  | None => mret NotSigned
  | Some keepers =>
      reads production_status ≫= λ status,
      lift_outcome (unwrap status) ≫= λ _,
      match Envelope_sealed shutdown node_identifier keepers bls_keys_map block with
      | Ok e => send_block block pb keepers (cb_parent block) e ≫= λ _, mret Sent
      | Err _ => mret NotSigned
      | Panic => lift_outcome Panic
      end
  end.

(** The block is completed, or has to wait. *)
Definition complete_block (share : option (gmap ThreadIdentifier BlockIdentifier)) (stamp : Z) pb : producing Offer :=
  λ bp,
  match update_candidate_common_section (pb_block pb) share (pb_state pb) bp with
  | (bp, Panic) => (bp, Panic)
  | (bp, Err _) => (stop ≫= λ _, updates (save_state (pb_state pb)) ≫= λ _, mret UpdateFailed) bp
  | (bp, Ok (_, FailedToBuildChainToTheLastFinalizedBlock)) => (stop ≫= λ _, mret Outdated) bp
  | (bp, Ok (_, AncestorIsNotReadyYet)) => lift_outcome (Prelude.checked 32 (stamp + 1) ≫= λ n, Ok (Wait n)) bp
  | (bp, Ok (_, NotReadyYet)) => (bp, Ok (Wait stamp))
  | (bp, Ok (block, Success)) => accept_block block (bool_decide (is_Some share)) pb bp
  end.

Definition offer_block (minimal : BlockSeqNo) pb : producing Offer :=
  let seq_no := cb_seq_no (pb_block pb) in
  if bool_decide (seq_no ≤ minimal)%Z then stop ≫= λ _, mret Outdated
  else
    reads (λ bp, pw_sync_requested (bp_world bp)) ≫= λ requested,
    let share := if bool_decide (requested = Some seq_no) then Some (get_share_stare_refs (pb_state pb)) else None in
    reads (λ bp, notifications (last_attestations bp)) ≫= λ stamp,
    complete_block share stamp pb.

(** The loop over the blocks of a memento, with the tails of the caller. *)
Fixpoint offer_blocks (minimal : BlockSeqNo) (tails : Tails) (notification : option Z) (did_broadcast : bool)
    (l : list (ProducedBlock (St := St))) : producing (bool * Tails * option BlockProducerMemento) :=
  match l with
  | [] => mret (did_broadcast, tails, None)
  | pb :: rest =>
      offer_block minimal pb ≫= λ o,
      match o with
      | Sent => offer_blocks minimal tails notification true rest
      | Outdated => mret (false, None, None)
      | UpdateFailed => mret (false, None, Some (mkMemento l notification))
      | Wait n => mret (false, tails, Some (mkMemento l (Some n)))
      | NotSigned => mret (false, tails, None)
      end
  end.

(** What the other parts of the node do while the service waits for an attestation. *)
Variable meanwhile : BlockProducer → BlockProducer.
Definition await_notification (memento : option BlockProducerMemento) bp : BlockProducer :=
  match memento ≫= last_attestation_notification with
  | Some saved => if bool_decide (notifications (last_attestations bp) = saved) then meanwhile bp else bp
  | None => bp
  end.

Definition on_production_timeout (tails : Tails) (memento : option BlockProducerMemento) :
    producing (bool * Tails * option BlockProducerMemento) :=
  updates (await_notification memento) ≫= λ _,
  match memento with
  | Some m => mret m
  | None => on_process get_produced_blocks ≫= λ l, mret (mkMemento l None)
  end ≫= λ produced_data,
  reads (λ bp, default 0%Z (snd <$> select_thread_last_finalized_block (pw_repo (bp_world bp)) thread_id)) ≫= λ minimal,
  offer_blocks minimal tails (last_attestation_notification produced_data) false (produced_blocks produced_data).

(** ** Starting production *)
(** A command that is new starts over. *)
Definition adopt (status : option ProductionStatus) (update : option BlockProducerCommand) : option ProductionStatus :=
  match update with
  | Some (Start params) =>
      match status with
      | Some st => if bool_decide (init_params st = params) then Some st else Some (mkStatus params None)
      | None => Some (mkStatus params None)
      end
  | None => status
  end.

(** The command [recv] returns, [None] when the other side is gone. *)
Variable awaited : option BlockProducerCommand.

Definition disconnected {A} : producing (option A) :=
  if shutdown then mret None else lift_outcome (Err ControlDisconnected).
Definition read_commands (next : option BlockProducerCommand) : producing (option (option BlockProducerCommand)) :=
  reads (λ bp, (control_rx bp, control_connected bp, production_status bp)) ≫= λ '(queue, connected, status),
  updates (with_control []) ≫= λ _,
  if connected : bool then
    match match last queue with Some c => Some c | None => next end, status with
    | None, None => match awaited with Some c => mret (Some (Some c)) | None => disconnected end
    | update, _ => mret (Some update)
    end
  else disconnected.

(** Where to continue. *)
Definition continuation (st : ProductionStatus) : BlockIdentifier * BlockSeqNo * BlockRound :=
  match last_produced st with
  | Some (b, n) => (b, n, 0%Z)
  | None =>
      (start_parent_block_identifier (init_params st), start_parent_block_seq_no (init_params st), start_round (init_params st))
  end.

Definition find_thread_last_block_id_this_node_can_continue (next : option BlockProducerCommand) :
    producing (option (BlockIdentifier * BlockSeqNo * BlockRound)) :=
  read_commands next ≫= λ read,
  match read with
  | None => mret None
  | Some update =>
      updates (λ bp, with_status (adopt (production_status bp) update) bp) ≫= λ _,
      reads production_status ≫= λ o,
      match o with
      | None => mret None
      | Some st =>
          let '(b, n, round) := continuation st in
          reads (λ bp, select_thread_last_finalized_block (pw_repo (bp_world bp)) thread_id) ≫= λ finalized,
          lift_outcome (ok_or finalized NoFinalizedBlock) ≫= λ finalized,
          if bool_decide (n < finalized.2)%Z then updates (with_status None) ≫= λ _, mret None
          else mret (Some (b, n, round))
      end
  end.

Variable start_thread : BlockIdentifier → BlockRound → action Process ProductionError unit.

(** A thread that cannot be started is left. *)
Definition start_from (b : BlockIdentifier) (n : BlockSeqNo) (round : BlockRound) : producing Tails :=
  λ bp,
  match start_thread b round (production_process bp) with
  | (ps, Ok _) => (with_producing true (with_process bp ps), Ok (Some (b, n)))
  | (ps, Err _) => (with_process bp ps, Ok None)
  | (ps, Panic) => (with_process bp ps, Panic)
  end.

Definition start_production (next : option BlockProducerCommand) : producing Tails :=
  find_thread_last_block_id_this_node_can_continue next ≫= λ found,
  match found with
  | None => mret None
  | Some (b, n, round) => start_from b n round
  end.

(** ** The main loop *)
Record Locals := mkLocals {
  in_flight_productions : Tails;
  memento : option BlockProducerMemento;
  next_bp_command : option BlockProducerCommand;
}.

(** A command that came in stops what is going on; the result of stopping is ignored. *)
Definition take_command (l : Locals) : producing Locals :=
  λ bp,
  match control_rx bp with
  | c :: queue =>
      match stop (with_control queue bp) with
      | (bp, Panic) => (bp, Panic)
      | (bp, _) => (bp, Ok (mkLocals None None (Some c)))
      end
  | [] => (bp, Ok l)
  end.

Definition restart (l : Locals) : producing Locals :=
  match in_flight_productions l, memento l with
  | None, None =>
      start_production (next_bp_command l) ≫= λ tails,
      updates (if tails then id else with_producing false) ≫= λ _,
      mret (mkLocals tails None None)
  | _, _ => mret l
  end.

Definition cut_off (l : Locals) : producing (Locals * bool * bool) :=
  match in_flight_productions l, memento l with
  | None, None => mret (l, false, false)
  | tails, m =>
      on_production_timeout tails m ≫= λ '(broadcasted, tails, next),
      mret (mkLocals tails next (next_bp_command l), broadcasted, match next, m with None, Some _ => true | _, _ => false end)
  end.

Definition pause (l : Locals) (broadcasted cleared_memento : bool) : Pause :=
  if broadcasted && cleared_memento then NoPause
  else if broadcasted || match in_flight_productions l, memento l with None, None => true | _, _ => false end then ProductionPause
  else LoopPause.

Definition main_loop_iteration (l : Locals) : producing (Locals * Pause) :=
  take_command l ≫= λ l,
  restart l ≫= λ l,
  cut_off l ≫= λ '(l, broadcasted, cleared),
  mret (l, pause l broadcasted cleared).
End producer.

(** ** The selector of a completed block *)
Section selector_lemmas.
Context `{Blst}.
Variable node_identifier : NodeIdentifier.
Variable iter_order : gset NodeIdentifier → list NodeIdentifier.
Variable shuffle : list Z → list NodeIdentifier → list NodeIdentifier.
Hypothesis iter_order_elements : ∀ X, iter_order X ≡ₚ elements X.
Hypothesis shuffle_perm : ∀ seed l, shuffle seed l ≡ₚ l.
Notation claim := (claim_selector node_identifier iter_order shuffle).

Lemma moved_to_node {E} p keepers d p' : BlockKeeperSet_wf keepers →
  get_distance_from_bp iter_order shuffle p keepers node_identifier = Some d →
  move_index (E := E) p d (BlockKeeperSet_len keepers) = Ok p' →
  get_producer_node_id iter_order shuffle p' keepers = Ok node_identifier.
Proof.
  intros Hwf Hd Hm.
  assert (index p < BlockKeeperSet_len keepers) as Hi.
  { unfold get_distance_from_bp in Hd. case_bool_decide as Hlen; [done|].
    rewrite <- (iter_node_ids_length iter_order iter_order_elements keepers Hwf). lia. }
  pose proof (move_index_producer iter_order shuffle iter_order_elements shuffle_perm p keepers d Hwf Hi) as Hmove.
  apply distance_len_spec in Hd as [_ Hl]; [|done..]. rewrite Hl in Hmove.
  unfold move_index in *. case_bool_decide; [done|]. injection Hm as <-. exact Hmove.
Qed.

Lemma claim_selector_spec p keepers b p' : BlockKeeperSet_wf keepers → claim p keepers b = Ok p' →
  get_producer_node_id iter_order shuffle p' keepers = Ok node_identifier.
Proof.
  intros Hwf. unfold claim_selector.
  destruct (get_producer_node_id iter_order shuffle p keepers) as [n| |] eqn:Hn; [case_bool_decide as Hb|..].
  1: intros [= <-]; by subst n.
  all: destruct (get_distance_from_bp iter_order shuffle p keepers node_identifier) as [d|] eqn:Hd;
    [by apply moved_to_node|].
  all: destruct (get_distance_from_bp iter_order shuffle (mkProducerSelector b 0) keepers node_identifier) as [d|] eqn:Hd0;
    [by apply moved_to_node|done].
Qed.

(** A node that names itself in the selector is a keeper. *)
Lemma producer_is_keeper p keepers : BlockKeeperSet_wf keepers →
  get_producer_node_id iter_order shuffle p keepers = Ok node_identifier →
  ∃ k, BlockKeeperSet_get_by_node_id keepers node_identifier = Some k.
Proof.
  intros Hwf. unfold get_producer_node_id. case_bool_decide as Hi; [|done]. cbn [ensure mbind outcome_bind].
  destruct (shuffled_node_ids iter_order shuffle p keepers !! index p) as [n|] eqn:Hn; [|done]. intros [= ->].
  apply list_elem_of_lookup_2 in Hn. unfold shuffled_node_ids, iter_node_ids in Hn.
  rewrite shuffle_perm, iter_order_elements, elem_of_elements, elem_of_dom in Hn. destruct Hn as [s Hs].
  destruct (proj1 (wf_nodes keepers Hwf node_identifier s) Hs) as (k & Hk & _).
  exists k. unfold BlockKeeperSet_get_by_node_id. by rewrite Hs.
Qed.
End selector_lemmas.

(** ** What is broadcast *)
Section service.
Context `{Blst} `{!BlstLaws} {M St Payload C Active EpochData Forwarded Contents : Type} `{!OptimisticStateOps St}.
Context `{!ProducedState St} `{!BuilderState St Payload EpochData Forwarded Contents}.
Context `{!ProducedLaws St} `{!BuilderLaws St Payload EpochData Forwarded Contents}.
Context `{LruCache C BlockIdentifier (option (CrossThreadRefData Payload))} `{TvmMessage M}.
Context `{Serialize AttestationData} `{Serialize CandidateBlock} `{Serialize (Envelope CandidateBlock)}.
Context `{Serialize NextRoundSuccess}.
(** *** The parameters of the process (Production.v) *)
Variable execute : BuildInput (M := M) (St := St) (Payload := Payload) (Active := Active) (EpochData := EpochData) →
  BlockBuilder (St := St) (Forwarded := Forwarded) → outcome unit (Executed (Active := Active) (Contents := Contents)).
Variable block_hash : BlockHeader → Contents → BlockIdentifier.
Variable thread_id : ThreadIdentifier.
Variable node_identifier : NodeIdentifier.
Variable thread_count_soft_limit : nat.
Variable block_iter : gset BlockIdentifier → list BlockIdentifier.
Variable thread_iter : gset ThreadIdentifier → list ThreadIdentifier.
Variable has_zerostate : bool.
Variable load_zerostate : ThreadIdentifier → option St.
Variable zero : St.
Variable load_all_accounts : St → outcome RepositoryError St.
Variable split_state : bool.
Variable fuel : nat.
Variable share_service share_ok : bool.
Variable ref_write_ok ref_readable : BlockIdentifier → bool.
Variable no_active : Active.
(** *** The parameters of the service *)
Variable production_timeout save_state_frequency : Z.
Variable bls_keys_map : gmap PubKey Secret.
Variable shutdown : bool.
Variable hex_encode : list Z → string.
Variable iter_order : gset NodeIdentifier → list NodeIdentifier.
Variable shuffle : list Z → list NodeIdentifier → list NodeIdentifier.
Variable set_iter : gset CompactedAttestation → list CompactedAttestation.
Variable self_ok authority_ok : bool.
Hypothesis iter_order_elements : ∀ X, iter_order X ≡ₚ elements X.
Hypothesis shuffle_perm : ∀ seed l, shuffle seed l ≡ₚ l.

Notation Service := (BlockProducer (M := M) (St := St) (Payload := Payload) (C := C) (Active := Active)).
Notation Block := (Envelope CandidateBlock).
Notation stop_process := (stop_thread_production execute block_hash thread_id node_identifier thread_count_soft_limit block_iter thread_iter
  has_zerostate load_zerostate zero load_all_accounts split_state fuel share_service share_ok ref_write_ok ref_readable no_active).
Notation start_process := (start_thread_production thread_id thread_iter has_zerostate load_zerostate zero fuel no_active).
Notation update_block := (update_candidate_common_section thread_id node_identifier iter_order shuffle set_iter block_iter).
Notation send := (send_block thread_id node_identifier bls_keys_map shutdown hex_encode self_ok authority_ok true).
Implicit Types (bp : Service) (pb : ProducedBlock (St := St)) (block : CandidateBlock) (e : Block).

Definition message_net (m : NetworkMessage M) : option NetBlock :=
  match m with
  | Candidate net => Some net
  | AuthoritySwitchProtocol (Switched e) => Some (success_proposed_block (data e))
  | _ => None
  end.
Definition broadcasts (l : list (ProducerEvent (M := M))) : list (NetworkMessage M) :=
  omap (λ ev, match ev with Broadcasted m => Some m | _ => None end) l.

(** The facts that sending a block does not change. *)
Definition lasting (f : fact) : Prop := f ≠ validated ∧ f ≠ producer_selector_data ∧ f ≠ block_height.

Record settled bp bp' : Prop := {
  settled_thread : active_producer_thread (production_process bp') = active_producer_thread (production_process bp);
  settled_produced : pw_produced (bp_world bp') = pw_produced (bp_world bp);
  settled_facts b f : lasting f → get (repo_get (bp_states bp') b) f = get (repo_get (bp_states bp) b) f;
}.
#[local] Instance settled_preorder : PreOrder settled.
Proof.
  split; [by split|]. intros a b c [? ? Hf1] [? ? Hf2]. split; [congruence..|]. intros. by rewrite Hf2, Hf1.
Qed.

Record kept bp bp' : Prop := {
  kept_settled : settled bp bp';
  kept_status : production_status bp' = production_status bp;
  kept_events : producer_events bp' = producer_events bp;
}.
#[local] Instance kept_preorder : PreOrder kept.
Proof. split; [by split|]. intros a b c [] []. split; [by etrans|congruence..]. Qed.

Lemma kept_fact b f v bp bp' : ¬ lasting f → set_block_fact b f v bp = (bp', Ok tt) → kept bp bp'.
Proof.
  intros Hf. unfold set_block_fact, set_produced_fact.
  destruct (generated_setter _ f v) as [s| |] eqn:Hs; [|done..]. intros [= <-].
  split; [|done..]. split; [done..|]. intros b' f' Hf'. unfold bp_states, bp_world, on_world_of. cbn.
  rewrite repo_insert_get. case_decide as Hb; [|done]. subst b'. eapply generated_setter_frame; [exact Hs|]. by intros ->.
Qed.

Lemma cached_states (r : StateRepo NackData St) (s : St) : sr_block_states (store_optimistic_in_cache r s) = sr_block_states r.
Proof.
  unfold store_optimistic_in_cache, clear_optimistic_states. by destruct (select_thread_last_finalized_block _ _) as [[]|].
Qed.
Lemma kept_state (s : St) bp : kept bp (keep_state s bp).
Proof.
  split; [|done..]. split; [done..|]. intros. unfold bp_states, bp_world, keep_state, on_world_of, pw_states. cbn.
  by rewrite cached_states.
Qed.
Lemma kept_saved (s : St) bp : kept bp (save_state s bp).
Proof. etrans; [apply kept_state|]. by split. Qed.

(** *** Completing a block *)
(** The block can be accepted by every node that knows its parent. *)
Record acceptable (r : Repository NackData) e : Prop := {
  acceptable_keepers : ∃ keepers selector k, get (repo_get r (cb_parent (data e))) descendant_bk_set = Some keepers ∧
    BlockKeeperSet_get_by_node_id keepers node_identifier = Some k ∧ Envelope_signers e = {[signer_index k]} ∧
    Envelope_verify_signatures e (BlockKeeperSet_get_pubkeys_by_signers keepers) = Ok true ∧
    cb_producer_selector (data e) = Some selector ∧
    get_producer_node_id iter_order shuffle selector keepers = Ok node_identifier;
  acceptable_targets : evaluate_if_next_block_ancestors_required_attestations_will_be_met r thread_id (cb_parent (data e))
    (as_signatures_map (cb_block_attestations (data e))) = Ok true;
}.

(** What is added to a block leaves its names. *)
Record completes block' block : Prop := {
  completes_identifier : cb_identifier block' = cb_identifier block;
  completes_seq_no : cb_seq_no block' = cb_seq_no block;
  completes_parent : cb_parent block' = cb_parent block;
  completes_thread : cb_thread_id block' = cb_thread_id block;
  completes_round : cb_round block' = cb_round block;
  completes_refs : cb_refs block' = cb_refs block;
}.

(** The keepers that the parent of a block leaves are well formed, and a secret of this node for the
    key by which they know it, if it has one, belongs to that key. *)
Definition keys_agree (r : Repository NackData) (parent : BlockIdentifier) : Prop :=
  ∀ keepers, get (repo_get r parent) descendant_bk_set = Some keepers →
    BlockKeeperSet_wf keepers ∧
    ∀ k, BlockKeeperSet_get_by_node_id keepers node_identifier = Some k →
      by_signer keepers !! signer_index k = Some k ∧
      ∀ sk, bls_keys_map !! pubkey k = Some sk → blst_sk_to_pk sk = pubkey k.

(** The completed block cannot be signed. *)
Definition cannot_sign (r : Repository NackData) pb : Prop :=
  ∃ keepers block err, get (repo_get r (cb_parent (pb_block pb))) descendant_bk_set = Some keepers ∧
    completes block (pb_block pb) ∧ Envelope_sealed shutdown node_identifier keepers bls_keys_map block = Err err ∧
    is_Some (BlockKeeperSet_get_by_node_id keepers node_identifier).

Lemma verified_facts l (s : AckiNackiBlockState NackData) f : get (foldl note_verified s l) f = get s f.
Proof.
  revert s. induction l as [|e l IH]; [done|]. intros s. cbn. rewrite IH.
  unfold note_verified, add_verified_attestations_for. by destruct (verified_attestations s !! _).
Qed.

Lemma update_success block share (s : St) bp bp' block' : keys_agree (bp_states bp) (cb_parent block) →
  update_block block share s bp = (bp', Ok (block', Success)) →
  kept bp bp' ∧ completes block' block ∧
  evaluate_if_next_block_ancestors_required_attestations_will_be_met (bp_states bp) thread_id (cb_parent block)
    (as_signatures_map (cb_block_attestations block')) = Ok true ∧
  ∃ keepers selector, get (repo_get (bp_states bp) (cb_parent block)) descendant_bk_set = Some keepers ∧
    cb_producer_selector block' = Some selector ∧ get_producer_node_id iter_order shuffle selector keepers = Ok node_identifier.
Proof.
  intros Hsign. unfold update_candidate_common_section.
  intros (? & r & [= <- <-] & Hup)%action_bind_Ok. apply action_bind_Ok in Hup as (? & received & [= <- <-] & Hup).
  destruct (get _ ancestor_blocks_finalization_checkpoints) as [checkpoints|]; [|by injection Hup].
  destruct (get _ block_stats); [|by injection Hup].
  destruct (get _ descendant_bk_set) as [keepers|] eqn:Hkeepers; [|by injection Hup].
  apply action_bind_Ok in Hup as (? & aggregated & [= <- _] & Hup).
  apply action_bind_Ok in Hup as (? & selector & [= <- _] & Hup).
  apply action_bind_Ok in Hup as (? & selector' & [= <- Hclaim] & Hup). cbv zeta in Hup.
  destruct (evaluate_if_next_block_ancestors_required_attestations_will_be_met _ _ _ _) as [[]|[]|] eqn:Heval;
    [|by injection Hup..].
  apply action_bind_Ok in Hup as (bp1 & [] & [= Hbp1] & [= -> <-]). subst bp'. split_and!.
  - split; [|done..]. split; [done..|]. intros b ff _. unfold bp_states, bp_world, on_world_of. cbn. rewrite repo_insert_get.
    case_decide as Hb; [|done]. subst b.
    apply verified_facts.
  - done.
  - exact Heval.
  - exists keepers, selector'. split_and!; [done..|]. destruct (Hsign keepers Hkeepers) as [Hwf _].
    by eapply claim_selector_spec.
Qed.

(** *** Sending a block *)
(** The block [pb] is sent in the envelope [e]. *)
Record sent_as pb e bp bp' : Prop := {
  sent_settled : settled bp bp';
  sent_status : ∃ st, production_status bp = Some st ∧
    production_status bp' = Some (mkStatus (init_params st) (Some (cb_identifier (pb_block pb), cb_seq_no (pb_block pb))));
  sent_message : ∃ m net, broadcasts (producer_events bp') = broadcasts (producer_events bp) ++ [m] ∧
    message_net m = Some net ∧ NetBlock_of e = Ok net;
  sent_completes : completes (data e) (pb_block pb);
  sent_acceptable : acceptable (bp_states bp) e;
}.

Lemma broadcasts_app l1 l2 : broadcasts (l1 ++ l2) = broadcasts l1 ++ broadcasts l2.
Proof. apply omap_app. Qed.

Lemma block_message_spec st keepers e h authority m :
  block_message node_identifier bls_keys_map shutdown st keepers e h = Ok (authority, m) →
  ∃ net, message_net m = Some net ∧ NetBlock_of e = Ok net.
Proof.
  unfold block_message. destruct (_ && _).
  - intros (h' & _ & (net & Hnet & (success & Hs%unwrap_ok_inv & [= <- <-])%outcome_bind_Ok)%outcome_bind_Ok)%outcome_bind_Ok.
    exists net. split; [|done]. cbn. f_equal. unfold Envelope_sealed in Hs.
    apply outcome_bind_Ok in Hs as (k & _ & Hs). destruct (bls_keys_map !! pubkey k); [|by destruct shutdown].
    destruct (GoshBLS_sign _ _); [|done..]. by injection Hs as <-.
  - unfold candidate_message. intros (m' & (net & Hnet & [= <-])%outcome_bind_Ok & [= <- <-])%outcome_bind_Ok. by exists net.
Qed.

(** Sending a block. *)
Lemma send_block_spec block pb keepers parent e bp bp' : send block pb keepers parent e bp = (bp', Ok tt) →
  settled bp bp' ∧
  (∃ st, production_status bp = Some st ∧
     production_status bp' = Some (mkStatus (init_params st) (Some (cb_identifier (data e), cb_seq_no (data e))))) ∧
  ∃ m net, broadcasts (producer_events bp') = broadcasts (producer_events bp) ++ [m] ∧ message_net m = Some net ∧
    NetBlock_of e = Ok net.
Proof.
  unfold send_block.
  intros (? & o & [= <- <-] & Hs)%action_bind_Ok. apply action_bind_Ok in Hs as (? & st & [= <- Hst] & Hs).
  destruct (production_status bp) as [st0|] eqn:Hstatus; [|done]. injection Hst as <-.
  apply action_bind_Ok in Hs as (? & selector & [= <- _] & Hs). apply action_bind_Ok in Hs as (? & ph & [= <- _] & Hs).
  apply action_bind_Ok in Hs as (? & height & [= <- _] & Hs).
  apply action_bind_Ok in Hs as (b1 & [] & K1%kept_fact & Hs); [|by intros (? & _)].
  apply action_bind_Ok in Hs as (b2 & [] & K2%kept_fact & Hs); [|by intros (_ & ? & _)].
  apply action_bind_Ok in Hs as (b3 & [] & K3%kept_fact & Hs); [|by intros (_ & _ & ?)].
  assert (kept bp b3) as K by (etrans; [exact K1|]; by etrans). clear K1 K2 K3.
  apply action_bind_Ok in Hs as (? & h & [= <- _] & Hs). apply action_bind_Ok in Hs as (? & [authority m] & [= <- Hm] & Hs).
  apply block_message_spec in Hm as (net & Hnet & Hof).
  apply action_bind_Ok in Hs as (b4 & [] & Hsend & Hs).
  apply action_bind_Ok in Hs as (b5 & [] & [= <-] & Hs). apply action_bind_Ok in Hs as (b6 & [] & Hbr & [= <-]).
  assert (settled b3 b4 ∧ broadcasts (producer_events b4) = broadcasts (producer_events b3)) as [S4 E4].
  { unfold send_to_node in Hsend. destruct (if authority then authority_ok else self_ok).
    - injection Hsend as <-. split; [done|]. cbn. rewrite broadcasts_app. destruct authority; cbn; by rewrite app_nil_r.
    - destruct shutdown; [|done]. by injection Hsend as <-. }
  assert (settled (with_status (Some (mkStatus (init_params st0) (Some (cb_identifier (data e), cb_seq_no (data e))))) b4) b6 ∧
    production_status b6 = Some (mkStatus (init_params st0) (Some (cb_identifier (data e), cb_seq_no (data e)))) ∧
    broadcasts (producer_events b6) = broadcasts (producer_events b4) ++ [m]) as (S6 & T6 & E6).
  { unfold broadcast_candidate_block in Hbr. apply action_bind_Ok in Hbr as (b5 & [] & [= <-] & Hbr).
    destruct (pb_feedbacks pb); injection Hbr as <-; (split; [by split|]; split; [done|]); cbn;
      by rewrite !broadcasts_app, ?app_nil_r. }
  split_and!.
  - etrans; [apply K|]. etrans; [exact S4|]. etrans; [|apply kept_state]. etrans; [|exact S6]. by split.
  - by exists st0.
  - exists m, net. split_and!; [|done..]. change (producer_events (keep_state (pb_state pb) b6)) with (producer_events b6).
    by rewrite E6, E4, (kept_events _ _ K).
Qed.

(** *** Offering the blocks *)
Variable mo : Moment (EpochData := EpochData).
Notation stopping := (on_process (stop_process mo)).
Notation accept := (accept_block thread_id node_identifier production_timeout save_state_frequency bls_keys_map shutdown hex_encode
  self_ok authority_ok true stopping).
Notation complete := (complete_block thread_id node_identifier production_timeout save_state_frequency bls_keys_map shutdown
  hex_encode iter_order shuffle set_iter block_iter self_ok authority_ok true stopping).
Notation offer := (offer_block thread_id node_identifier production_timeout save_state_frequency bls_keys_map shutdown hex_encode
  iter_order shuffle set_iter block_iter self_ok authority_ok true stopping).
Notation offer_all := (offer_blocks thread_id node_identifier production_timeout save_state_frequency bls_keys_map shutdown
  hex_encode iter_order shuffle set_iter block_iter self_ok authority_ok true stopping).

(** Production is stopped, and what it has made since is dropped. *)
Record stopped bp bp' : Prop := {
  stopped_status : production_status bp' = production_status bp;
  stopped_events : producer_events bp' = producer_events bp;
  stopped_thread : active_producer_thread (production_process bp') = None;
  stopped_produced : pw_produced (bp_world bp') = [] ∨
    active_producer_thread (production_process bp) = None ∧ pw_produced (bp_world bp') = pw_produced (bp_world bp);
}.

Lemma stop_spec bp bp' : stopping bp = (bp', Ok tt) → stopped bp bp'.
Proof.
  unfold on_process, stop_thread_production. destruct (active_producer_thread (production_process bp)) as [[p|s|]|] eqn:Ht.
  - destruct (thread_iteration _ _ _ _ _ _ _ _ _ _ _ _ _ _ _ _ _ _ _ _ _) as [w [|s|]]; [done| |done]. intros [= <-].
    split; [done..|]. by left.
  - intros [= <-]. split; [done..|]. by left.
  - done.
  - intros [= <-]. split; [done..|]. by right.
Qed.

Lemma settled_sign bp bp' parent : settled bp bp' → keys_agree (bp_states bp) parent → keys_agree (bp_states bp') parent.
Proof. intros [_ _ Hf] Hs keepers. rewrite Hf by done. apply Hs. Qed.
Lemma settled_cannot bp bp' pb : settled bp bp' → cannot_sign (bp_states bp') pb → cannot_sign (bp_states bp) pb.
Proof. intros [_ _ Hf] (keepers & block & err & Hk & ?). exists keepers, block, err. by rewrite Hf in Hk by done. Qed.

Lemma settled_acceptable bp bp' e : settled bp bp' → acceptable (bp_states bp') e → acceptable (bp_states bp) e.
Proof.
  intros [_ _ Hf] [(keepers & selector & k & Hk & Hrest) He]. split.
  - exists keepers, selector, k. by rewrite Hf in Hk by done.
  - revert He. unfold evaluate_if_next_block_ancestors_required_attestations_will_be_met. by rewrite !Hf by done.
Qed.

(** The wait for the keepers of the parent of a completed block is over at once. *)
Lemma await_keepers_known parent keepers bp : get (repo_get (bp_states bp) parent) descendant_bk_set = Some keepers →
  await_keepers stopping parent bp = (bp, Ok (Some keepers)).
Proof. intros Hk. unfold await_keepers, mbind, action_bind, reads. by rewrite Hk. Qed.

(** A block that is completed is sent, if it can be signed. *)
Lemma accept_block_spec block share pb keepers selector bp bp' o :
  keys_agree (bp_states bp) (cb_parent block) → completes block (pb_block pb) →
  evaluate_if_next_block_ancestors_required_attestations_will_be_met (bp_states bp) thread_id (cb_parent block)
    (as_signatures_map (cb_block_attestations block)) = Ok true →
  get (repo_get (bp_states bp) (cb_parent block)) descendant_bk_set = Some keepers →
  cb_producer_selector block = Some selector → get_producer_node_id iter_order shuffle selector keepers = Ok node_identifier →
  accept block share pb bp = (bp', Ok o) →
  match o with
  | Sent => ∃ e, sent_as pb e bp bp'
  | NotSigned => kept bp bp' ∧ cannot_sign (bp_states bp) pb
  | _ => False
  end.
Proof.
  intros Hsign Hcomp Heval Hk Hsel Hnode. unfold accept_block.
  intros (b1 & [] & [= <-] & Ha)%action_bind_Ok. apply action_bind_Ok in Ha as (b2 & [] & [= <-] & Ha).
  apply action_bind_Ok in Ha as (? & parent_seq_no & [= <- _] & Ha).
  apply action_bind_Ok in Ha as (? & must_save & [= <- _] & Ha). apply action_bind_Ok in Ha as (b3 & [] & [= <-] & Ha).
  match type of Ha with (_ ≫= _) ?x = _ => set (b3 := x) in Ha end.
  assert (kept bp b3) as K.
  { etrans; [|unfold b3; destruct must_save; [apply kept_saved|done]]. split; [|done..]. split; [done| |];
      [|intros b f _]; unfold bp_states, bp_world, clear_sync_request, on_world_of; cbn;
      destruct (pw_sync_requested (ps_world (production_process bp))); try done; by case_bool_decide. }
  clearbody b3. pose proof (settled_facts _ _ (kept_settled _ _ K)) as Hf.
  unfold mbind at 1, action_bind at 1 in Ha. rewrite (await_keepers_known _ keepers) in Ha; [|by rewrite Hf].
  apply action_bind_Ok in Ha as (? & status & [= <- <-] & Ha). apply action_bind_Ok in Ha as (? & st & [= <- _] & Ha).
  destruct (Hsign keepers Hk) as [Hwf Hkey].
  destruct (producer_is_keeper node_identifier iter_order shuffle iter_order_elements shuffle_perm selector keepers Hwf Hnode)
    as [k Hbk]. destruct (Hkey k Hbk) as (Hby & Hpk).
  pose proof (sealed_verifies shutdown node_identifier keepers bls_keys_map block k Hbk Hwf Hby Hpk) as Hseal.
  destruct (Envelope_sealed _ _ _ _ _) as [e|err|] eqn:Hsealed.
  - apply action_bind_Ok in Ha as (b4 & [] & Hsend & [= <- <-]). exists e.
    destruct Hseal as (Hd & Hsigners & Hv).
    apply send_block_spec in Hsend as (S & (st' & Hst & Hst') & m & net & Hm & Hnet & Hof). rewrite Hd in Hst'.
    destruct Hcomp as [Hi Hn Hpar ? ? ?]. rewrite Hi, Hn in Hst'. split.
    + etrans; [apply K|exact S].
    + exists st'. by rewrite <- (kept_status _ _ K).
    + exists m, net. rewrite <- (kept_events _ _ K). done.
    + by rewrite Hd.
    + split; rewrite Hd; [|done]. by exists keepers, selector, k.
  - injection Ha as <- <-. split; [done|]. exists keepers, block, err. rewrite <- (completes_parent _ _ Hcomp). by split_and!; [..|exists k].
  - done.
Qed.

Lemma update_unchanged block share (s : St) bp bp' o : update_block block share s bp = (bp', o) →
  (∃ block', o = Ok (block', Success)) ∨
  bp' = bp ∧ ∀ block', o ≠ Ok (block', FailedToBuildChainToTheLastFinalizedBlock).
Proof.
  unfold update_candidate_common_section, mbind, action_bind, reads, lift_outcome, updates. cbv beta iota zeta.
  destruct (get _ ancestor_blocks_finalization_checkpoints) as [checkpoints|]; [|intros [= <- <-]; by right].
  destruct (get _ block_stats); [|intros [= <- <-]; by right].
  destruct (get _ descendant_bk_set) as [keepers|]; [|intros [= <- <-]; by right].
  destruct (outcome_map_err _ _) as [aggregated| |]; [|intros [= <- <-]; by right..].
  destruct (get_producer_selector _ _ _) as [selector| |]; [|intros [= <- <-]; by right..].
  destruct (claim_selector _ _ _ _ _ _) as [selector'| |]; [|intros [= <- <-]; by right..].
  destruct (evaluate_if_next_block_ancestors_required_attestations_will_be_met _ _ _ _) as [[]|[]|];
    intros [= <- <-]; [by left; eexists|by right..].
Qed.

Lemma stopped_saved bp bp' (s : St) : stopped bp bp' → stopped bp (save_state s bp').
Proof. intros [? ? ? ?]. destruct (kept_saved s bp') as [[] ? ?]. split; by etrans || (rewrite settled_produced0 in *; naive_solver). Qed.

Lemma offer_block_spec minimal pb bp bp' o : keys_agree (bp_states bp) (cb_parent (pb_block pb)) →
  offer minimal pb bp = (bp', Ok o) →
  match o with
  | Sent => (minimal < cb_seq_no (pb_block pb))%Z ∧ ∃ e, sent_as pb e bp bp'
  | Outdated | UpdateFailed => stopped bp bp'
  | Wait _ => bp' = bp
  | NotSigned => kept bp bp' ∧ cannot_sign (bp_states bp) pb
  end.
Proof.
  intros Hsign. unfold offer_block. case_bool_decide as Hn.
  { intros (b1 & [] & Hs%stop_spec & [= <- <-])%action_bind_Ok. done. }
  intros (? & requested & [= <- <-] & Ho)%action_bind_Ok. apply action_bind_Ok in Ho as (? & stamp & [= <- <-] & Ho).
  revert Ho. generalize (if bool_decide (pw_sync_requested (bp_world bp) = Some (cb_seq_no (pb_block pb)))
    then Some (get_share_stare_refs (pb_state pb)) else None) as share. intros share. unfold complete_block.
  destruct (update_block _ share _ bp) as [b1 res] eqn:Hup. pose proof (update_unchanged _ _ _ _ _ _ Hup) as Hun.
  destruct res as [[block []]| |].
  - destruct (update_success _ _ _ _ _ _ Hsign Hup) as (K & Hcomp & Heval & keepers & selector & Hk & Hsel & Hnode).
    assert (cb_parent block = cb_parent (pb_block pb)) as Hpar by apply Hcomp. intros Ha.
    apply (accept_block_spec _ _ _ keepers selector) in Ha; [destruct o; try done; [split; [lia|]|]|..].
    + destruct Ha as (e & Hsent). exists e. destruct Hsent as [S Hst Hm ? Hacc]. destruct K as [KS Kst Ke].
      split; [by etrans|by rewrite <- Kst|by rewrite <- Ke|done|by eapply settled_acceptable].
    + destruct Ha as [K' Hc]. split; [by etrans|]. eapply settled_cannot; [apply K|done].
    + rewrite Hpar. by eapply settled_sign; [apply K|].
    + done.
    + rewrite Hpar. revert Heval. unfold evaluate_if_next_block_ancestors_required_attestations_will_be_met.
      destruct K as [[_ _ Hf] _ _]. by rewrite !Hf by done.
    + rewrite Hpar. destruct K as [[_ _ Hf] _ _]. by rewrite Hf.
    + done.
    + done.
  - destruct Hun as [[? [=]]|[_ Hne]]. by destruct (Hne block).
  - intros [= <- <-]. by destruct Hun as [[? [=]]|[-> _]].
  - destruct Hun as [[? [=]]|[-> _]]. intros [= <- Hw]. destruct (Prelude.checked 32 _); [|done..]. by injection Hw as <-.
  - destruct Hun as [[? [=]]|[-> _]]. intros (b2 & [] & Hs%stop_spec & Hr)%action_bind_Ok.
    apply action_bind_Ok in Hr as (b3 & [] & [= <-] & [= <- <-]). by apply stopped_saved.
  - done.
Qed.

(** How the loop over the blocks ends: the rest of the blocks, and the state of the process. *)
Definition halted bp bp' : Prop :=
  active_producer_thread (production_process bp') = None ∧
  (pw_produced (bp_world bp') = [] ∨
   active_producer_thread (production_process bp) = None ∧ pw_produced (bp_world bp') = pw_produced (bp_world bp)).

Inductive ending (tails : option (BlockIdentifier * BlockSeqNo)) bp bp' :
    list (ProducedBlock (St := St)) → option (BlockIdentifier * BlockSeqNo) → option (BlockProducerMemento (St := St)) → Prop :=
  | all_sent : settled bp bp' → ending tails bp bp' [] tails None
  | rest_unsigned pb rest : settled bp bp' → cannot_sign (bp_states bp) pb → ending tails bp bp' (pb :: rest) tails None
  | rest_waits m : settled bp bp' → produced_blocks m ≠ [] → ending tails bp bp' (produced_blocks m) tails (Some m)
  | rest_dropped rest : halted bp bp' → ending tails bp bp' rest None None
  | rest_retried m : halted bp bp' → produced_blocks m ≠ [] → ending tails bp bp' (produced_blocks m) None (Some m).

Definition advanced (sent : list (ProducedBlock (St := St))) (o o' : option ProductionStatus) : Prop :=
  match last sent with
  | None => o' = o
  | Some pb => ∃ st, o = Some st ∧
      o' = Some (mkStatus (init_params st) (Some (cb_identifier (pb_block pb), cb_seq_no (pb_block pb))))
  end.

(** The blocks [sent] are broadcast in the messages [ms]. *)
Definition message_carries (r : Repository NackData) (minimal : BlockSeqNo) pb (m : NetworkMessage M) : Prop :=
  ∃ e net, completes (data e) (pb_block pb) ∧ acceptable r e ∧ (minimal < cb_seq_no (data e))%Z ∧
    message_net m = Some net ∧ NetBlock_of e = Ok net.

Lemma offer_blocks_spec minimal tails notification did l bp bp' did' tails' memento' :
  (∀ pb, pb ∈ l → keys_agree (bp_states bp) (cb_parent (pb_block pb))) →
  offer_all minimal tails notification did l bp = (bp', Ok (did', tails', memento')) →
  ∃ sent rest ms, l = sent ++ rest ∧ ending tails bp bp' rest tails' memento' ∧
    advanced sent (production_status bp) (production_status bp') ∧
    broadcasts (producer_events bp') = broadcasts (producer_events bp) ++ ms ∧
    Forall2 (message_carries (bp_states bp) minimal) sent ms.
Proof.
  revert bp did. induction l as [|pb l IH]; intros bp did Hsign; cbn [offer_blocks].
  - intros [= <- <- <- <-]. exists [], [], []. rewrite (app_nil_r (broadcasts _)). split_and!; [done|by apply all_sent|done..].
  - intros (b1 & o & Ho & Hrest)%action_bind_Ok. apply offer_block_spec in Ho; [|by apply Hsign, list_elem_of_here].
    assert (∀ rest tails' memento', production_status b1 = production_status bp → producer_events b1 = producer_events bp →
      pb :: l = rest → ending tails bp b1 rest tails' memento' →
      ∃ sent rest ms, pb :: l = sent ++ rest ∧ ending tails bp b1 rest tails' memento' ∧
        advanced sent (production_status bp) (production_status b1) ∧
        broadcasts (producer_events b1) = broadcasts (producer_events bp) ++ ms ∧
        Forall2 (message_carries (bp_states bp) minimal) sent ms) as Hnone.
    { intros rest t' m' Hst Hev <- Hend. exists [], (pb :: l), []. rewrite (app_nil_r (broadcasts _)), Hst, Hev. done. }
    destruct o.
    + destruct Ho as [Hn (e & [S Hst (m & net & Hm & Hnet & Hof) Hcomp Hacc])].
      destruct (IH b1 true) as (sent & rest & ms & -> & Hend & Hadv & Hms & Hall); [|exact Hrest|].
      { intros pb' Hpb'. eapply settled_sign; [exact S|]. by apply Hsign, list_elem_of_further. }
      exists (pb :: sent), rest, (m :: ms). split_and!; [done|..].
      * assert (∀ b2, settled b1 b2 → settled bp b2) by (intros; by etrans).
        assert (∀ b2, halted b1 b2 → halted bp b2).
        { intros b2 [? Hp]. split; [done|]. destruct S as [? ? _]. destruct Hp as [?|[? ?]]; [by left|right]. by split; congruence. }
        assert (∀ pb', cannot_sign (bp_states b1) pb' → cannot_sign (bp_states bp) pb') by (intros; by eapply settled_cannot).
        destruct Hend; constructor; auto.
      * unfold advanced in *. rewrite last_cons. destruct Hst as (st & Hst & Hst'). rewrite Hst' in Hadv.
        destruct (last sent) as [pb'|]; [|by exists st]. destruct Hadv as (st1 & [= <-] & ->). by exists st.
      * by rewrite Hms, Hm, <- (assoc_L (++)).
      * constructor.
        -- exists e, net. split_and!; [done..| |done|done]. by rewrite (completes_seq_no _ _ Hcomp).
        -- eapply Forall2_impl; [exact Hall|]. intros pb' m' (e' & net' & ? & Ha' & ?). exists e', net'.
           split_and!; [done| |naive_solver..]. by eapply settled_acceptable.
    + injection Hrest as <- <- <- <-. destruct Ho as [? ? ? ?]. eapply Hnone; [done..|]. by apply rest_dropped.
    + injection Hrest as <- <- <- <-. destruct Ho as [? ? ? ?]. eapply Hnone; [done..|]. by apply (rest_retried _ _ _ (mkMemento (pb :: l) _)).
    + subst b1. injection Hrest as <- <- <- <-. eapply Hnone; [done..|]. by apply (rest_waits _ _ _ (mkMemento (pb :: l) _)).
    + injection Hrest as <- <- <- <-. destruct Ho as [[? ? ?] ?]. eapply Hnone; [done..|]. by apply rest_unsigned.
Qed.

(** C11 (broadcast blocks): a block that the service broadcasts is newer than the last finalized
    block of its thread, carries enough attestations for its ancestors as the nodes that receive it
    compute it, names in its selector this node as the producer among the keepers its parent leaves,
    and is signed by that keeper alone; the message decodes to exactly this block.  The blocks are
    sent in the order they were produced, and those that are not sent stay, in order, in the memento,
    or are dropped: with the production that made them, or, while production goes on, because the
    first of them cannot be signed (no secret for the key, or it cannot be encoded).  The keepers of
    the parents are taken to be well formed and to agree with the keys of this node, and the channel
    to the other nodes to be open. *)
Theorem broadcast_blocks_are_acceptable `{Deserialize (Envelope CandidateBlock)} `{!Codec (Envelope CandidateBlock)}
    meanwhile tails memento bp bp' did tails' memento' :
  let bp1 := await_notification meanwhile memento bp in
  let minimal := default 0%Z (snd <$> select_thread_last_finalized_block (pw_repo (bp_world bp1)) thread_id) in
  let l := match memento with Some m => produced_blocks m | None => merge_sort by_seq_no (pw_produced (bp_world bp1)) end in
  (∀ pb, pb ∈ l → keys_agree (bp_states bp1) (cb_parent (pb_block pb))) →
  on_production_timeout thread_id node_identifier production_timeout save_state_frequency bls_keys_map shutdown hex_encode
    iter_order shuffle set_iter block_iter self_ok authority_ok true stopping meanwhile tails memento bp =
    (bp', Ok (did, tails', memento')) →
  ∃ sent rest ms, l = sent ++ rest ∧ broadcasts (producer_events bp') = broadcasts (producer_events bp1) ++ ms ∧
    Forall2 (λ pb m, ∃ e net, message_net m = Some net ∧ net_identifier net = cb_identifier (pb_block pb) ∧
      bincode_deserialize (net_envelope_data net) = Some e ∧ completes (data e) (pb_block pb) ∧
      acceptable (bp_states bp1) e ∧ (minimal < cb_seq_no (data e))%Z) sent ms ∧
    match memento' with
    | Some m => produced_blocks m = rest
    | None => rest = [] ∨ tails' = None ∧ active_producer_thread (production_process bp') = None ∨
        ∃ pb rest', rest = pb :: rest' ∧ cannot_sign (bp_states bp1) pb
    end.
Proof.
  intros bp1 minimal l Hsign. unfold on_production_timeout. intros (? & [] & [= <-] & Ht)%action_bind_Ok. fold bp1 in Ht.
  apply action_bind_Ok in Ht as (b2 & m & Hm & Ht). apply action_bind_Ok in Ht as (? & ? & [= <- <-] & Ht).
  assert (produced_blocks m = l ∧ bp_states b2 = bp_states bp1 ∧ pw_repo (bp_world b2) = pw_repo (bp_world bp1) ∧
    producer_events b2 = producer_events bp1) as (Hl & Hr & Hrepo & Hev).
  { unfold l. destruct memento as [m0|]; [by injection Hm as <- <-|].
    apply action_bind_Ok in Hm as (b3 & l0 & Hget & [= <- <-]). unfold on_process, get_produced_blocks, drain in Hget.
    destruct (active_producer_thread _) as [[]|]; cbn in Hget; by simplify_eq. }
  rewrite Hl, Hrepo in Ht. fold minimal in Ht.
  apply offer_blocks_spec in Ht as (sent & rest & ms & Hsplit & Hend & _ & Hms & Hall); [|by rewrite Hr].
  exists sent, rest, ms. split_and!; [done|by rewrite Hms, Hev| |].
  - rewrite Hr in Hall. eapply Forall2_impl; [exact Hall|]. intros pb msg (e & net & Hc & Ha & Hn & Hnet & Hof).
    unfold NetBlock_of in Hof. destruct (bincode_serialize e) as [bytes|] eqn:Hbytes; [|done]. injection Hof as <-.
    exists e. eexists. split_and!; [done| |by apply decode_encode|done..]. apply Hc.
  - destruct Hend as [|pb' rest' _ Hc| |? []|]; auto. rewrite Hr in Hc. eauto 10.
Qed.

(** *** Chains of broadcast blocks *)
(** Every block can be encoded, and this node has the secrets of the keys by which the keepers know
    it: a block that is completed can be signed. *)
Hypothesis blocks_encode : ∀ block, is_Some (bincode_serialize block).
Definition can_sign (r : Repository NackData) : Prop := ∀ parent, keys_agree r parent ∧
  ∀ keepers k, get (repo_get r parent) descendant_bk_set = Some keepers →
    BlockKeeperSet_get_by_node_id keepers node_identifier = Some k → is_Some (bls_keys_map !! pubkey k).

Lemma can_sign_all r pb : can_sign r → cannot_sign r pb → False.
Proof.
  intros Hs (keepers & block & err & Hk & _ & Hseal & k & Hbk). destruct (Hs (cb_parent (pb_block pb))) as [Hagree Hkey].
  destruct (Hagree keepers Hk) as [Hwf Hkeys]. destruct (Hkeys k Hbk) as [Hby Hpk]. destruct (Hkey keepers k Hk Hbk) as [sk Hsk].
  pose proof (sealed_verifies shutdown node_identifier keepers bls_keys_map block k Hbk Hwf Hby Hpk) as Hv.
  rewrite Hseal in Hv. destruct err as [| |be]; [done|destruct Hv; congruence|].
  destruct Hv as [_ Hn]. destruct (blocks_encode block). congruence.
Qed.

Notation run_process := (run_thread execute block_hash thread_id node_identifier thread_count_soft_limit block_iter thread_iter has_zerostate
  load_zerostate zero load_all_accounts split_state fuel share_service share_ok ref_write_ok ref_readable no_active).
Notation take := (take_command stopping).
Notation begin awaited := (restart thread_id shutdown awaited start_process).
Notation cut := (cut_off thread_id node_identifier production_timeout save_state_frequency bls_keys_map shutdown
  hex_encode iter_order shuffle set_iter block_iter self_ok authority_ok true stopping id).
Implicit Types (l : Locals (St := St)).

(** The other parts of the node: the thread that produces, and those that share its world. *)
Inductive others bp : Service → Prop :=
  | others_produce mo' : others bp (with_process bp (run_process mo' (production_process bp)))
  | others_share w a q connected : pw_produced w = pw_produced (bp_world bp) →
      others bp (mkProducer (with_thread (production_process bp) w (active_producer_thread (production_process bp)))
        (production_status bp) (producing_status bp) (production_count bp) a q connected (producer_events bp)).

(** The state production starts from is the one after the block it is to continue, and is named
    after it. *)
Definition names_states (ps : Process (M := M) (St := St) (Payload := Payload) (C := C) (Active := Active)) : Prop :=
  ∀ b ps' s, initial_state thread_id thread_iter has_zerostate load_zerostate zero fuel b ps = (ps', Ok s) →
    get_block_id s = b ∧ self_named s.

(** The steps of the loop, in any order, interleaved with the other parts of the node, as long as
    stopping production for a command succeeds: a thread that has panicked makes it fail, and the
    code ignores that. *)
Inductive service_step : Service * Locals (St := St) → Service * Locals (St := St) → Prop :=
  | step_others bp l bp' : others bp bp' → service_step (bp, l) (bp', l)
  | step_take bp l bp' l' : (∀ q, ∃ bp1, stopping (with_control q bp) = (bp1, Ok tt)) → take l bp = (bp', Ok l') →
      service_step (bp, l) (bp', l')
  | step_restart awaited bp l bp' l' : names_states (production_process bp) → begin awaited l bp = (bp', Ok l') →
      service_step (bp, l) (bp', l')
  | step_cut bp l bp' l' did cleared : can_sign (bp_states bp) → cut l bp = (bp', Ok (l', did, cleared)) →
      service_step (bp, l) (bp', l').

Definition memento_blocks l : list (ProducedBlock (St := St)) := from_option produced_blocks [] (memento l).

(** What waits in the memento and in the process is one chain from the block to continue. *)
Record linked (x : Service * Locals (St := St)) : Prop := {
  linked_idle : in_flight_productions x.2 = None → active_producer_thread (production_process x.1) = None;
  linked_empty : active_producer_thread (production_process x.1) = None → pw_produced (bp_world x.1) = [];
  linked_chain : active_producer_thread (production_process x.1) ≠ None ∨ is_Some (memento x.2) →
    ∃ st s s', production_status x.1 = Some st ∧ get_block_id s = (continuation st).1.1 ∧ self_named s ∧
      grown thread_id node_identifier s (memento_blocks x.2 ++ pw_produced (bp_world x.1)) s' ∧
      ∀ p, active_producer_thread (production_process x.1) = Some (Running p) → pr_state p = s';
}.

Lemma linked_others bp l bp' : linked (bp, l) → others bp bp' → linked (bp', l).
Proof.
  intros [Hidle Hempty Hchain] Ho. destruct Ho as [mo'|w a q connected Hw]; cbn in *.
  - assert (∀ p, active_producer_thread (production_process bp) = Some (Running p) → self_named (pr_state p)) as Hnamed.
    { intros p Hp. destruct Hchain as (st & s & s' & _ & _ & Hs & Hg & Hlast); [left; by rewrite Hp|].
      rewrite (Hlast p Hp). by eapply grown_named. }
    destruct (run_spec execute block_hash thread_id node_identifier thread_count_soft_limit block_iter thread_iter has_zerostate load_zerostate
      zero load_all_accounts split_state fuel share_service share_ok ref_write_ok ref_readable no_active
      mo' (production_process bp) Hnamed)
      as [[Hw [->|(Hs1 & Hs2 & Hno)]]|(p & q & pb & Ht & Hq & Hw & Hnext & Hs & _)]; [by split..| |].
    + split; cbn; unfold bp_world; cbn; rewrite ?Hw.
      * intros Hi. rewrite Hidle in Hs1 by done. by destruct Hs1.
      * intros Hn. rewrite Hn in Hs2. by destruct Hs2.
      * intros _. destruct Hchain as (st & s & s' & ? & ? & ? & ? & _); [left; intros Hn; rewrite Hn in Hs1; by destruct Hs1|].
        exists st, s, s'. split_and!; [done..|]. intros p Hp. by destruct (Hno p).
    + split; cbn; unfold bp_world; cbn; rewrite ?Hq; [|done|].
      * intros Hi. rewrite Hidle in Ht by done. done.
      * intros _. destruct Hchain as (st & s & s' & ? & ? & ? & Hg & Hp); [left; by rewrite Ht|].
        exists st, s, (pb_state pb). split_and!; [done..| |].
        -- rewrite Hw, (assoc_L (++)). eapply grown_app; [exact Hg|]. rewrite (Hp p Ht) in Hnext. constructor; [done|constructor].
        -- by intros ? [= <-].
  - split; cbn; unfold bp_world; cbn; rewrite ?Hw; done.
Qed.

Lemma linked_take bp l bp' l' : linked (bp, l) → (∀ q, ∃ bp1, stopping (with_control q bp) = (bp1, Ok tt)) →
  take l bp = (bp', Ok l') → linked (bp', l').
Proof.
  intros [Hidle Hempty Hchain] Hstop. unfold take_command.
  destruct (control_rx bp) as [|c q]; [by intros [= <- <-]|].
  destruct (Hstop q) as [bp1 Hs]. rewrite Hs. intros [= <- <-]. apply stop_spec in Hs as [_ _ Ht Hp]. cbn in *.
  split; cbn; [done| |by intros [?|[? ?]]].
  intros _. destruct Hp as [?|[Hn ->]]; [done|]. by apply Hempty.
Qed.

Lemma start_spec b round ps ps' : active_producer_thread ps = None → pw_produced (ps_world ps) = [] → names_states ps →
  start_process b round ps = (ps', Ok tt) →
  pw_produced (ps_world ps') = [] ∧ ∃ p, active_producer_thread ps' = Some (Running p) ∧ get_block_id (pr_state p) = b ∧
    self_named (pr_state p).
Proof.
  intros Hn Hp Hnames. unfold start_thread_production. intros (? & ? & [= <- <-] & Hs)%action_bind_Ok. rewrite Hn in Hs.
  apply action_bind_Ok in Hs as (ps0 & s0 & Hinit & [= <-]). destruct (Hnames _ _ _ Hinit) as [Hid Hself]. split.
  - cbn. unfold initial_state in Hinit. destruct (_ ≫= _) as [s|]; [by injection Hinit as <- _|].
    destruct (default _ _) as [r found]. by injection Hinit as <- _.
  - by eexists.
Qed.

Lemma start_failed b round (ps ps' : Process (M := M) (St := St) (Payload := Payload) (C := C) (Active := Active)) err :
  active_producer_thread ps = None → pw_produced (ps_world ps) = [] →
  start_process b round ps = (ps', Err err) → active_producer_thread ps' = None ∧ pw_produced (ps_world ps') = [].
Proof.
  intros Hn Hp. unfold start_thread_production, mbind, action_bind, reads. rewrite Hn. cbv beta iota.
  destruct (initial_state _ _ _ _ _ _ _ _) as [ps0 o0] eqn:Hinit.
  assert (active_producer_thread ps0 = None ∧ pw_produced (ps_world ps0) = []) as [? ?].
  { unfold initial_state in Hinit. destruct (_ ≫= _) as [s|]; [by injection Hinit as <- _|].
    destruct (default _ _) as [r f]. by injection Hinit as <- _. }
  intros Hsp. destruct o0; cbn in Hsp; by simplify_eq.
Qed.

(** The block to continue is the one the adopted status names. *)
Lemma find_spec awaited next bp bp' found :
  find_thread_last_block_id_this_node_can_continue thread_id shutdown awaited next bp = (bp', Ok found) →
  production_process bp' = production_process bp ∧
  ∀ b n round, found = Some (b, n, round) → ∃ st, production_status bp' = Some st ∧ (continuation st).1.1 = b.
Proof.
  unfold find_thread_last_block_id_this_node_can_continue. intros (b4 & read & Hread & Hfind)%action_bind_Ok.
  assert (production_process b4 = production_process bp) as <-.
  { unfold read_commands, mbind, action_bind, reads, updates, disconnected in Hread. cbv beta iota in Hread.
    destruct (control_connected bp); [|destruct shutdown; by inversion Hread].
    destruct (match last (control_rx bp) with Some c => _ | None => _ end), (production_status bp);
      [by injection Hread as <- _..|]. destruct awaited; [by injection Hread as <- _|].
    destruct shutdown; by inversion Hread. }
  destruct read as [update|]; [|injection Hfind as <- <-; by split].
  apply action_bind_Ok in Hfind as (b5 & [] & [= <-] & Hfind). apply action_bind_Ok in Hfind as (? & o & [= <- <-] & Hfind).
  cbn in Hfind. destruct (adopt (production_status b4) update) as [st|] eqn:Had; [|injection Hfind as <- <-; by split].
  destruct (continuation st) as [[b n] round] eqn:Hcont.
  apply action_bind_Ok in Hfind as (? & fin & [= <- <-] & Hfind). apply action_bind_Ok in Hfind as (? & fin' & [= <- _] & Hfind).
  destruct (bool_decide _).
  - apply action_bind_Ok in Hfind as (b6 & [] & [= <-] & [= <- <-]). by split.
  - injection Hfind as <- <-. split; [done|]. intros ? ? ? [= <- <- <-]. exists st. by rewrite Hcont.
Qed.

Lemma linked_restart awaited bp l bp' l' : linked (bp, l) → names_states (production_process bp) →
  begin awaited l bp = (bp', Ok l') → linked (bp', l').
Proof.
  intros Hl Hnames. unfold restart. destruct (in_flight_productions l) eqn:Hf; [by intros [= <- <-]|].
  destruct (memento l) eqn:Hm; [by intros [= <- <-]|]. destruct Hl as [Hidle Hempty _]. cbn in *.
  specialize (Hidle Hf). specialize (Hempty Hidle).
  intros (b1 & tails & Hstart & (b2 & [] & [= <-] & [= <- <-])%action_bind_Ok)%action_bind_Ok.
  unfold start_production in Hstart. apply action_bind_Ok in Hstart as (b3 & found & Hfind & Hstart).
  destruct (find_spec _ _ _ _ _ Hfind) as [Hps Hfound].
  destruct found as [[[b n] round]|]; [|injection Hstart as <- <-; cbn].
  - unfold start_from in Hstart. destruct (start_process b round (production_process b3)) as [ps o] eqn:Hsp.
    rewrite Hps in Hsp. destruct o as [[]| |]; [| |done].
    + injection Hstart as <- <-. destruct (start_spec _ _ _ _ Hidle Hempty Hnames Hsp) as (Hp' & p & Hp & Hid & Hself).
      destruct (Hfound b n round eq_refl) as (st & Hst & Hc). split; cbn; unfold bp_world; cbn; [done..|by rewrite Hp|].
      intros _. exists st, (pr_state p), (pr_state p). rewrite Hp', Hc. split_and!; [done..|constructor|].
      rewrite Hp. by intros ? [= <-].
    + injection Hstart as <- <-. cbn. destruct (start_failed _ _ _ _ _ Hidle Hempty Hsp) as [Ht Hp].
      split; cbn; unfold bp_world; cbn; [done..|]. rewrite Ht. by intros [?|[? ?]].
  - split; cbn; unfold bp_world; cbn; rewrite Hps; [done..|]. by intros [?|[? ?]].
Qed.

(** *** One cut *)
(** A batch: the blocks [sent] are broadcast in [ms], as a chain from the block to continue. *)
Definition batch bp bp' (sent : list (ProducedBlock (St := St))) (ms : list (NetworkMessage M)) : Prop :=
  broadcasts (producer_events bp') = broadcasts (producer_events bp) ++ ms ∧
  Forall2 (λ pb m, net_identifier <$> message_net m = Some (cb_identifier (pb_block pb))) sent ms ∧
  match last sent with
  | None => production_status bp' = production_status bp
  | Some pb => ∃ st s, production_status bp = Some st ∧ get_block_id s = (continuation st).1.1 ∧
      grown thread_id node_identifier s sent (pb_state pb) ∧
      production_status bp' = Some (mkStatus (init_params st) (Some (cb_identifier (pb_block pb), cb_seq_no (pb_block pb))))
  end.

Lemma grown_last s (l : list (ProducedBlock (St := St))) s' : grown thread_id node_identifier s l s' →
  match last l with
  | None => s' = s
  | Some pb => s' = pb_state pb ∧ get_block_id s' = cb_identifier (pb_block pb)
  end.
Proof.
  induction 1 as [s|s pb l s' (_ & _ & Hb & _) Hg IH]; [done|]. rewrite last_cons. by destruct (last l) as [pb'|]; [|subst s'].
Qed.

(** What is left after a batch is linked again. *)
Lemma linked_rest b2 bp' l (blocks rest sent : list (ProducedBlock (St := St))) tails' memento' next st s s' :
  get_block_id s = (continuation st).1.1 → self_named s → can_sign (bp_states b2) →
  (in_flight_productions l = None → active_producer_thread (production_process b2) = None) →
  (active_producer_thread (production_process b2) = None → pw_produced (bp_world b2) = []) →
  blocks = sent ++ rest → grown thread_id node_identifier s (blocks ++ pw_produced (bp_world b2)) s' →
  (∀ p, active_producer_thread (production_process b2) = Some (Running p) → pr_state p = s') →
  advanced sent (Some st) (production_status bp') →
  ending (in_flight_productions l) b2 bp' rest tails' memento' →
  linked (bp', mkLocals tails' memento' next).
Proof.
  intros Hs Hself Hsign Hidle Hempty -> Hg Hp Hadv Hend.
  rewrite <- (assoc_L (++)) in Hg. apply grown_split in Hg as (s1 & Hsent & Hg). pose proof (grown_last _ _ _ Hsent) as Hlast.
  pose proof (grown_named _ _ _ _ _ Hself Hsent) as Hself1.
  assert (∃ st', production_status bp' = Some st' ∧ get_block_id s1 = (continuation st').1.1) as (st' & Hst' & Hs1).
  { unfold advanced in Hadv. destruct (last sent) as [pb|].
    - destruct Hadv as (st0 & [= <-] & ->). eexists. split; [done|]. apply Hlast.
    - exists st. subst s1. by rewrite Hadv. }
  destruct Hend as [Hset|pb rest _ Hc|m Hset Hm|rest [Ht Hpr]|m [Ht Hpr] Hm]; [| |..].
  - destruct Hset as [Ht Hw _]. split; cbn; unfold memento_blocks; cbn; rewrite ?Ht, ?Hw; [done..|].
    intros _. by exists st', s1, s'.
  - by destruct (can_sign_all _ _ Hsign Hc).
  - destruct Hset as [Ht Hw _]. split; cbn; unfold memento_blocks; cbn; rewrite ?Ht, ?Hw; [done..|].
    intros _. by exists st', s1, s'.
  - assert (pw_produced (bp_world bp') = []) as Hw by (destruct Hpr as [?|[Hn ->]]; [done|by apply Hempty]).
    split; cbn; [done..|]. rewrite Ht. by intros [?|[? ?]].
  - assert (pw_produced (bp_world bp') = []) as Hw by (destruct Hpr as [?|[Hn ->]]; [done|by apply Hempty]).
    split; cbn; unfold memento_blocks; cbn; rewrite ?Ht, ?Hw; [done..|].
    intros _. apply grown_split in Hg as (s2 & Hg & _). exists st', s1, s2. rewrite app_nil_r. by split_and!.
Qed.

(** Taking out what was produced keeps the chain. *)
Lemma take_out bp (m : option (BlockProducerMemento (St := St))) b2 data s blocks s' :
  grown thread_id node_identifier s blocks s' → blocks = from_option produced_blocks [] m ++ pw_produced (bp_world bp) →
  match m with
  | Some m => mret m
  | None => on_process get_produced_blocks ≫= λ taken, mret (mkMemento taken None)
  end bp = (b2, Ok data) →
  production_status b2 = production_status bp ∧ producer_events b2 = producer_events bp ∧ bp_states b2 = bp_states bp ∧
  active_producer_thread (production_process b2) = active_producer_thread (production_process bp) ∧
  produced_blocks data ++ pw_produced (bp_world b2) = blocks ∧
  (pw_produced (bp_world bp) = [] → pw_produced (bp_world b2) = []).
Proof.
  intros Hg -> Hm. destruct m as [m|]; [by injection Hm as <- <-|].
  apply action_bind_Ok in Hm as (b3 & l0 & Hget & [= <- <-]). unfold on_process, get_produced_blocks, drain in Hget.
  cbn [from_option app] in *. unfold bp_world in *. rewrite (grown_sorted _ _ _ _ _ Hg) in Hget.
  destruct (active_producer_thread (production_process bp)) as [[]|] eqn:Ht; cbn in Hget; simplify_eq; cbn; by rewrite app_nil_r.
Qed.

Lemma cut_spec bp l bp' l' did cleared : linked (bp, l) → can_sign (bp_states bp) →
  cut l bp = (bp', Ok (l', did, cleared)) → linked (bp', l') ∧ ∃ sent ms, batch bp bp' sent ms.
Proof.
  intros Hlinked Hsign Hcut.
  assert (bp' = bp ∧ l' = l ∨
    (on_production_timeout thread_id node_identifier production_timeout save_state_frequency bls_keys_map shutdown hex_encode
      iter_order shuffle set_iter block_iter self_ok authority_ok true stopping id (in_flight_productions l) (memento l) ≫=
      λ '(broadcasted, tails, next), mret (mkLocals tails next (next_bp_command l))) bp = (bp', Ok l')) as [[-> ->]|Hrun].
  { unfold cut_off in Hcut. destruct (in_flight_productions l) eqn:Hf, (memento l) eqn:Hm; [right..|left; by injection Hcut].
    all: apply action_bind_Ok in Hcut as (b1 & [[did' tails'] memento'] & Hcut & [= <- <- _ _]).
    all: apply action_bind_Ok; by exists b1, (did', tails', memento'). }
  { split; [done|]. exists [], []. split; [by rewrite app_nil_r|done]. }
  apply action_bind_Ok in Hrun as (b1 & [[did' tails'] memento'] & Hrun & [= <- <-]). clear Hcut.
  destruct Hlinked as [Hidle Hempty Hchain]. cbn in *.
  unfold on_production_timeout in Hrun. apply action_bind_Ok in Hrun as (? & [] & [= <-] & Hrun).
  assert (await_notification id (memento l) bp = bp) as Hawait.
  { unfold await_notification. destruct (memento l ≫= _) as [saved|]; [by case_bool_decide|done]. }
  rewrite Hawait in Hrun. apply action_bind_Ok in Hrun as (b2 & data & Htake & Hrun).
  apply action_bind_Ok in Hrun as (? & minimal & [= <- _] & Hrun).
  destruct (decide (active_producer_thread (production_process bp) ≠ None ∨ is_Some (memento l))) as [Hbusy|Hbusy].
  - destruct (Hchain Hbusy) as (st & s & s' & Hst & Hs & Hself & Hg & Hp).
    destruct (take_out _ _ _ _ _ _ _ Hg eq_refl Htake) as (Est & Eev & Er & Et & Eb & Ee).
    apply offer_blocks_spec in Hrun as (sent & rest & ms & Hsplit & Hend & Hadv & Hms & Hall); [|intros; rewrite Er; by apply Hsign].
    rewrite Est, Hst in Hadv. rewrite <- Eb in Hg. split.
    + eapply linked_rest; [exact Hs|exact Hself|by rewrite Er|..|exact Hsplit|exact Hg| |exact Hadv|exact Hend]; rewrite Et; auto.
    + exists sent, ms. split; [by rewrite Hms, Eev|]. split.
      * eapply Forall2_impl; [exact Hall|]. intros pb m (e & net & Hc & _ & _ & Hnet & Hof). rewrite Hnet. cbn. f_equal.
        unfold NetBlock_of in Hof. apply outcome_bind_Ok in Hof as (bytes & _ & [= <-]). cbn. apply Hc.
      * rewrite Hsplit, <- (assoc_L (++)) in Hg. apply grown_split in Hg as (s1 & Hsent & _).
        pose proof (grown_last _ _ _ Hsent) as Hl. unfold advanced in Hadv. destruct (last sent) as [pb|] eqn:Hlast.
        -- destruct Hl as [-> _]. destruct Hadv as (st0 & [= <-] & ->). by exists st, s.
        -- by rewrite Hadv.
  - assert (active_producer_thread (production_process bp) = None ∧ memento l = None) as [Hn Hm].
    { destruct (active_producer_thread (production_process bp)); [destruct Hbusy; by left|].
      destruct (memento l); [destruct Hbusy; by right|done]. }
    destruct (take_out bp (memento l) b2 data zero [] zero (grown_nil _ _ _) ltac:(by rewrite Hm, Hempty) Htake) as (Est & Eev & Er & Et & Eb & Ee).
    apply app_nil in Eb as [Eb _]. rewrite Eb in Hrun. injection Hrun as <- _ <- <-.
    split; [split; cbn; rewrite ?Et, ?Hn; auto; by intros [?|[? ?]]|]. exists [], []. split; [by rewrite app_nil_r, Eev|]. split; [done|].
    by rewrite Est.
Qed.

(** C12 (broadcast chain): the blocks that an iteration broadcasts are a chain, each made on the
    state of the one before, and the first is made on the block that was broadcast last under the
    same command, or on the block the command names when none was: no gap, no block twice, and no
    blocks of two productions mixed.  This holds after every interleaving of the steps of the loop
    with the thread that produces and the other parts of the node, under these conditions: when a
    command comes in, stopping the production succeeds (the code ignores a failure and would mix what
    is left into the next production); the state a production starts from is the one after the block
    it is to continue; this node has the secrets of the keys by which the keepers know it and every
    block can be encoded; the channel to the other nodes is open. *)
Theorem broadcasts_continue_the_chain bp0 l0 bp l bp' l' did cleared :
  active_producer_thread (production_process bp0) = None → pw_produced (bp_world bp0) = [] → memento l0 = None →
  rtc service_step (bp0, l0) (bp, l) → can_sign (bp_states bp) →
  cut l bp = (bp', Ok (l', did, cleared)) → ∃ sent ms, batch bp bp' sent ms.
Proof.
  intros Ht Hw Hm Hrun Hsign Hcut.
  assert (linked (bp0, l0)) as Hinit.
  { split; cbn; [done..|]. rewrite Ht, Hm. by intros [?|[? ?]]. }
  assert (linked (bp, l)) as Hlinked.
  { revert Hinit. induction Hrun as [x|x y z Hstep _ IH]; [done|]. intros Hx. apply IH.
    destruct Hstep; [by eapply linked_others|by eapply linked_take|by eapply linked_restart|by eapply cut_spec]. }
  by destruct (cut_spec _ _ _ _ _ _ Hlinked Hsign Hcut) as [_ ?].
Qed.
End service.

(** ** Evaluation *)
Section ProducerExample.
#[local] Existing Instance LinearBlst.
#[local] Existing Instance LinearBlst_laws.
#[local] Existing Instance trace_ops.
#[local] Existing Instance trace_laws.
#[local] Existing Instance trace_produced.
#[local] Existing Instance trace_produced_laws.
#[local] Existing Instance trace_builder.
#[local] Existing Instance trace_builder_laws.
#[local] Existing Instance text_message.
#[local] Existing Instance data_cache.
#[local] Existing Instance change_eq_dec.
#[local] Existing Instance candidate_eq_dec.
#[local] Instance attestation_bytes : Serialize AttestationData := λ _, Some [].
#[local] Instance success_bytes : Serialize NextRoundSuccess := λ _, Some [].
#[local] Instance candidate_bytes : Serialize CandidateBlock := λ b, Some [cb_seq_no b].

(** Keeper 2 produces on the zerostate. *)
Definition this_node : NodeIdentifier := node_id (example_keeper 2 22 7).
Definition this_key : gmap (PubKey (Blst := LinearBlst)) (Secret (Blst := LinearBlst)) := {[22%Z := 22%Z]}.
Definition zero_block_state : AckiNackiBlockState NackData :=
  let s := with_fact (AckiNackiBlockState_new BlockIdentifier_default) block_height (BlockProcessor.example_height 0) in
  let s := with_fact s BlockState.thread_identifier example_thread in
  let s := with_fact s block_stats (BlockStatistics_zero 3 5) in
  let s := with_fact s descendant_bk_set example_keepers in
  with_fact s ancestor_blocks_finalization_checkpoints (mkCheckpoints ∅ ∅).
Definition producer_repo : StateRepo NackData TraceState :=
  mkStateRepo {[BlockIdentifier_default := zero_block_state]} {[example_thread := mkMetadata BlockIdentifier_default 0 None]} ∅
    {[example_thread := trace_zero]} ∅ ∅ (FinalizedBlockStorage_new 5) ∅ ∅ ∅ [].
Definition start_command : BlockProducerCommand := Start (mkStartParameters _ example_thread BlockIdentifier_default 0 0 [] []).
Notation ExampleService := (BlockProducer (M := string) (St := TraceState) (Payload := unit)
  (C := list (BlockIdentifier * option (CrossThreadRefData unit))) (Active := unit)).
Definition idle_service : ExampleService :=
  mkProducer (mkProcess (mkProducerWorld producer_repo (mkRefStore [] ∅) ∅ (LoadBalancingService_start 5 100)
    ExternalMessagesQueue_empty [] [] None [] [] []) None 330 None) None false 0 CollectedAttestations_default [start_command] true [].

(** The first block, completed and signed, and an encoding that knows it. *)
Definition first_selector : ProducerSelector :=
  match claim_selector this_node elements (λ _ l, reverse l) (mkProducerSelector BlockIdentifier_default 0) example_keepers
    (example_block 1) with Ok p => p | _ => mkProducerSelector BlockIdentifier_default 0 end.
Definition first_block : CandidateBlock :=
  mkCandidate _ (example_block 1) 1 (BlockProcessor.example_height 1) example_thread this_node [] [] [] None None false
    BlockIdentifier_default (Some 1%Z) 0 (Some first_selector).
Definition first_envelope : Envelope CandidateBlock := mkEnvelope (22 * 2)%Z {[2%Z := 1%Z]} first_block.
#[local] Instance envelope_bytes : Serialize (Envelope CandidateBlock) :=
  λ e, if decide (e = first_envelope) then Some [7%Z] else None.
#[local] Instance envelope_read : Deserialize (Envelope CandidateBlock) :=
  λ l, if decide (l = [7%Z]) then Some first_envelope else None.
#[local] Instance envelope_codec : Codec (Envelope CandidateBlock).
Proof. intros e l. unfold bincode_serialize, envelope_bytes. case_decide; [|done]. by intros [= <-]; subst. Qed.

Notation example_stop := (on_process (stop_thread_production execute_none number_hash example_thread this_node 10 elements elements false
  (λ _, None) trace_zero Ok false 5 false true (λ _, true) (λ _, true) tt going)).
Notation example_run := (run_thread execute_none number_hash example_thread this_node 10 elements elements false
  (λ _, None) trace_zero Ok false 5 false true (λ _, true) (λ _, true) tt).
Notation example_cut := (cut_off example_thread this_node 330 10 this_key false (λ _, EmptyString) elements (λ _ l, reverse l) elements
  elements true true true example_stop id).

Definition no_locals : Locals (St := TraceState) := mkLocals None None None.
Definition commanded := take_command example_stop no_locals idle_service.
Definition commanded_locals : Locals (St := TraceState) := mkLocals None None (Some start_command).
Definition started :=
  restart example_thread false None (start_thread_production example_thread elements false (λ _, None) trace_zero 5 tt)
    commanded_locals commanded.1.
Definition started_locals : Locals (St := TraceState) := mkLocals (Some (BlockIdentifier_default, 0%Z)) None None.
(** Two blocks are made. *)
Definition busy_service : ExampleService :=
  let step bp := with_process bp (example_run going (production_process bp)) in step (step started.1).

Lemma producer_repo_sound : repo_sound (λ _ _, False) chain_base producer_repo.
Proof.
  constructor; cbn [producer_repo sr_cache sr_files sr_finalized_state sr_finalized_blocks sr_unfinalized].
  1-2: apply map_Forall_empty.
  - apply map_Forall_singleton. by apply state_base.
  - intros t m b e. cbn. by rewrite lookup_empty.
  - intros t d b block. by rewrite lookup_empty.
Qed.

Lemma commanded_names : names_states example_thread elements false (λ _, None) trace_zero 5 (production_process commanded.1).
Proof.
  intros b ps' s Hs. split; [|apply trace_self_named]. revert Hs. unfold initial_state.
  change (optimistic_state_cache (production_process commanded.1)) with (@None TraceState).
  change (pw_repo (ps_world (production_process commanded.1))) with producer_repo. cbn [mbind option_bind].
  destruct (get_optimistic_state _ _ _ _ _ _ _ _ _) as [[r o]|] eqn:Hget; cbn [default]; [|by intros [= _ ?]].
  eapply (get_state_sound elements false (λ _, None) trace_zero (λ _ _, False) chain_base) in Hget as [_ Hs];
    [|apply chain_zero|apply producer_repo_sound|done].
  destruct o as [[s0|]| |]; [| |done..].
  - intros [= _ <-]. eapply (state_of_names (λ _ _, False) chain_base); [by intros ? ? [-> ->]|done|by apply Hs].
  - case_bool_decide; [|done]. subst b. by intros [= _ <-].
Qed.

Lemma this_node_signs (bp : ExampleService) :
  bool_decide (map_Forall (λ _ s, get s descendant_bk_set = None ∨ get s descendant_bk_set = Some example_keepers)
    (bp_states bp)) = true → can_sign this_node this_key (bp_states bp).
Proof.
  intros Hall%bool_decide_eq_true parent.
  assert (∀ keepers, get (repo_get (bp_states bp) parent) descendant_bk_set = Some keepers → keepers = example_keepers) as Hkeepers.
  { intros keepers Hk. unfold repo_get in Hk. destruct (bp_states bp !! parent) as [s|] eqn:Hp; cbn in Hk.
    - destruct (Hall parent s Hp) as [Hn|Hn]; cbv beta in Hn; congruence.
    - unfold fresh_state in Hk. case_decide; discriminate Hk. }
  assert (BlockKeeperSet_get_by_node_id example_keepers this_node = Some (example_keeper 2 22 7)) as He by (vm_compute; done).
  split.
  - intros keepers ->%Hkeepers. split; [apply example_keepers_wf|]. intros k Hk'. rewrite He in Hk'. injection Hk' as <-.
    split; [vm_compute; done|]. intros sk Hsk. vm_compute in Hsk. by injection Hsk as <-.
  - intros keepers k ->%Hkeepers Hk'. rewrite He in Hk'. injection Hk' as <-. exists 22%Z. vm_compute. done.
Qed.

Lemma busy_signs : can_sign this_node this_key (bp_states busy_service).
Proof. apply this_node_signs. vm_compute. reflexivity. Qed.
Lemma candidates_encode : ∀ block : CandidateBlock, is_Some (bincode_serialize block).
Proof. by eexists. Qed.

Notation timed := (on_production_timeout example_thread this_node 330 10 this_key false (λ _, EmptyString) elements
  (λ _ l, reverse l) elements elements true true true example_stop id (Some (BlockIdentifier_default, 0%Z)) None busy_service).
(** The first block is broadcast; the second waits until the first is processed. *)
Lemma broadcast_blocks_are_acceptable_witness :
  ∃ sent rest ms, merge_sort by_seq_no (pw_produced (bp_world busy_service)) = sent ++ rest ∧ length sent = 1 ∧ length rest = 1 ∧
    Forall2 (λ pb (m : NetworkMessage string), ∃ e net, message_net m = Some net ∧ net_identifier net = cb_identifier (pb_block pb) ∧
      bincode_deserialize (net_envelope_data net) = Some e ∧ completes (data e) (pb_block pb) ∧
      acceptable example_thread this_node elements (λ _ l, reverse l) (bp_states busy_service) e) sent ms.
Proof.
  assert (match timed with
    | (_, Ok (true, Some _, Some _)) => false
    | (bp, Ok (_, _, Some m)) => bool_decide (length (broadcasts (producer_events bp)) = 1 ∧ length (produced_blocks m) = 1)
    | _ => false
    end = true) as Hrun by (vm_compute; reflexivity).
  destruct timed as [bp' [[[did tails'] memento']| |]] eqn:Htimed; [|discriminate Hrun..].
  assert (∃ m, memento' = Some m ∧ length (broadcasts (producer_events bp')) = 1 ∧ length (produced_blocks m) = 1)
    as (m & -> & Hb & Hm).
  { destruct memento' as [m|]; [|destruct did, tails'; discriminate Hrun]. exists m. split; [reflexivity|].
    destruct did, tails'; try discriminate Hrun; exact (bool_decide_eq_true_1 _ Hrun). }
  destruct (broadcast_blocks_are_acceptable execute_none number_hash example_thread this_node 10 elements elements false
    (λ _, None) trace_zero Ok false 5 false true (λ _, true) (λ _, true) tt 330 10 this_key false (λ _, EmptyString) elements
    (λ _ l, reverse l) elements true true (λ X, Permutation_refl _) (λ _ l, reverse_Permutation l) going id
    (Some (BlockIdentifier_default, 0%Z)) None busy_service bp' did tails' (Some m)) as (sent & rest & ms & Hl & Hms & Hall & Hrest).
  { intros pb _. exact (proj1 (busy_signs _)). }
  { exact Htimed. }
  unfold await_notification in Hl, Hms, Hall. cbn [mbind option_bind] in Hl, Hms, Hall.
  exists sent, rest, ms. split; [exact Hl|].
  assert (length ms = 1) as Hlen by (rewrite <- Hb, Hms; reflexivity).
  split; [rewrite (Forall2_length _ _ _ Hall); exact Hlen|]. split; [by rewrite <- Hrest|].
  eapply Forall2_impl; [exact Hall|]. intros pb msg (e & net & H1 & H2 & H3 & H4 & H5 & _).
  exists e, net. exact (conj H1 (conj H2 (conj H3 (conj H4 H5)))).
Defined.

(** A command starts production, two blocks are made, and the first is broadcast. *)
Lemma broadcasts_continue_the_chain_witness :
  ∃ bp' sent ms, batch example_thread this_node busy_service bp' sent ms ∧ length sent = 1.
Proof.
  assert (match example_cut started_locals busy_service with
    | (bp, Ok _) => bool_decide (length (broadcasts (producer_events bp)) = 1) | _ => false end = true) as Hrun
    by (vm_compute; reflexivity).
  destruct (example_cut started_locals busy_service) as [bp' [[[l' did] cleared]| |]] eqn:Hcut; [|discriminate Hrun..].
  apply bool_decide_eq_true in Hrun.
  assert (commanded = (commanded.1, Ok commanded_locals)) as Htake by (vm_compute; reflexivity).
  assert (started = (started.1, Ok started_locals)) as Hstart by (vm_compute; reflexivity).
  destruct (broadcasts_continue_the_chain execute_none number_hash example_thread this_node 10 elements elements false
    (λ _, None) trace_zero Ok false 5 false true (λ _, true) (λ _, true) tt 330 10 this_key false (λ _, EmptyString) elements
    (λ _ l, reverse l) elements true true (λ X, Permutation_refl _) (λ _ l, reverse_Permutation l) going candidates_encode
    idle_service no_locals busy_service started_locals bp' l' did cleared) as (sent & ms & Hbatch).
  - reflexivity.
  - reflexivity.
  - reflexivity.
  - eapply rtc_l; [eapply step_take; [|exact Htake]; intros q; by eexists|].
    eapply rtc_l; [eapply step_restart with (awaited := None); [apply commanded_names|exact Hstart]|].
    eapply rtc_l; [apply step_others, (others_produce _ _ _ _ _ _ _ _ _ _ _ _ _ _ _ _ _ _ _ going)|].
    eapply rtc_l; [apply step_others, (others_produce _ _ _ _ _ _ _ _ _ _ _ _ _ _ _ _ _ _ _ going)|]. apply rtc_refl.
  - apply busy_signs.
  - exact Hcut.
  - exists bp', sent, ms. split; [exact Hbatch|]. destruct Hbatch as (Hms & Hall & _).
    rewrite (Forall2_length _ _ _ Hall), <- Hrun, Hms. reflexivity.
Defined.
End ProducerExample.
